(* ===== verification/_CoqProject ===== *)
-Q . S2P
Prelude.v
BTree.v
CoreError.v
Group.v
Algebra.v
Poly.v
TestSupport.v
Participant.v
Shamir.v
Feldman.v
Transcript.v
IdentityKey.v
Registry.v
Statement.v
FakeBackend.v
Dkg.v
Wire.v
WireDkg.v
DkgHonest.v
DkgComplete.v
DkgAgreement.v
Ehtdh1Context.v
Sampling.v
Ehtdh1Encrypt.v
Ehtdh1Decrypt.v
Ehtdh1Bridge.v
Ehtdh1Wire.v
Cycle.v
BpUtil.v
InnerProduct.v
LinearProof.v
Generators.v
ConstraintSystem.v
R1csProof.v
Prover.v
Verifier.v
R1csSync.v
R1csVerify.v
R1csComplete.v
BatchVerify.v
ProofStream.v
ShareOpening.v
CircuitLogic.v
R1csOnePhase.v
EvrfBits.v
EvrfCurves.v
EvrfToy.v
EvrfChord.v
EvrfSigma.v
EvrfOneReceiver.v
EvrfOneReceiverProof.v
EvrfOneReceiverComplete.v
EvrfBatchedStatement.v
EvrfBatchedCircuit.v
EvrfBatchedProof.v
EvrfBatchedComplete.v
EvrfBatchedMany.v
