(* ===== verification/Prelude.v ===== *)
(** * Golden DKG: a verification of its protocol and proof code

    This development models the Rust workspace under src/crates in a shallow
    embedding and proves what its code is meant to do.  The program is a
    non-interactive distributed key generation: every dealer shares a secret with
    a Shamir polynomial, commits to it in the exponent, encrypts each share with a
    pad that only dealer and receiver can derive, and proves the pads with an eVRF
    proof; the participants verify the dealings of a session and add up their
    shares.  On top of it stands a threshold encryption whose keys come from two
    runs of the generation, and below it a Bulletproofs-style proof system over
    curve cycles, which the eVRF proofs use.

    ** The files and the code they model

    golden-core (src/crates/golden-core/src):
    - [Participant], [CoreError]: participant.rs, error.rs.
    - [Group]: group.rs, the traits [GoldenScalar] and [GoldenGroup] as type
      classes of operations, with separate classes for the laws the code relies
      on.  [Algebra] and [Poly] are the mathematics over these laws: fields,
      modules, finite sums, polynomials and Lagrange interpolation.
    - [Shamir], [Feldman]: shamir.rs, feldman.rs.
    - [Transcript], [IdentityKey]: transcript.rs with the rejection sampling of
      group.rs, identity_key.rs.
    - [Registry], [Statement], [Dkg]: dkg.rs, from the participant registry to
      [complete].  The proof backend is the class [EvrfProofBackend] of [Statement];
      [FakeBackend] is the backend of the code's tests, which meets the contracts
      that the theorems assume of one.
    - [DkgHonest], [DkgComplete], [DkgAgreement]: the theorems about dkg.rs.
    - [Wire], [WireDkg]: wire.rs, the envelope and the codec of every type.
    - [TestSupport]: test_support.rs, the field of 97 elements, in which every
      theorem with hypotheses is instantiated by its witness.

    golden-ehtdh1 (src/crates/golden-ehtdh1/src): [Ehtdh1Context], [Ehtdh1Encrypt],
    [Ehtdh1Decrypt], [Ehtdh1Bridge] and [Ehtdh1Wire] model context.rs, encrypt.rs,
    decrypt.rs, dkg_bridge.rs and wire.rs.

    bulletproofs-cycle (src/crates/bulletproofs-cycle/src):
    - [Cycle]: cycle.rs, transcript.rs, errors.rs.  The trait [Cycle] is a class of
      operations, its documented behaviour the classes [CyclePoints], [CycleLaws]
      and [CycleCodec].
    - [BpUtil], [InnerProduct], [LinearProof]: util.rs, inner_product_proof.rs,
      linear_proof.rs.
    - [Generators]: generators.rs, with the process-wide cache once as a function
      and once as a step relation between threads.
    - [ConstraintSystem]: r1cs/linear_combination.rs, constraint_system.rs and
      metrics.rs; the trait [ConstraintSystem] is a class, and code generic in it is
      a [circuit], a program over its methods.
    - [R1csProof], [Prover], [Verifier]: r1cs/proof.rs, prover.rs, verifier.rs.
      [R1csSync] is the simulation between the two constraint systems.
      [R1csVerify] splits the verification equation into the two checks it batches,
      [R1csComplete] is the completeness of the argument, and [BatchVerify] models and
      verifies the batch verification of verifier.rs.

    golden-evrf (src/crates/golden-evrf/src):
    - [ProofStream]: proof_stream.rs, the two streams over one transcript, with the
      adapters of groups and of cycles.  [Sampling] is the loop that draws a nonzero
      scalar.
    - [ShareOpening]: lib.rs, the backend that opens the share and the pad of every
      statement; it is an instance of [EvrfProofBackend] that meets the contracts.
    - [CircuitLogic]: a program logic for circuits, with judgements for what every
      satisfying assignment fulfils ([implies]), for the values that an honest prover
      has ([produces]), for the number of multipliers ([sized]) and for the agreement
      of the prover's circuit with the verifier's ([similar]).  [R1csOnePhase] runs
      the R1CS prover and verifier on a circuit.
    - [EvrfBits], [EvrfCurves], [EvrfChord], [EvrfSigma]: the module secp_secq of
      paper.rs, by parts: bit decomposition, the curves, chord-rule exponentiation,
      the Schnorr-style proofs and conversions.  [EvrfOneReceiver] is the one-receiver
      circuit with [evrf_prove] and [evrf_verify]; [EvrfOneReceiverProof] and
      [EvrfOneReceiverComplete] are their theorems.  [EvrfToy] is a curve over a field
      of 65521 elements, a nodal cubic, on which the laws of the curves hold.
    - [EvrfBatchedStatement], [EvrfBatchedCircuit], [EvrfBatchedProof]: the batched
      dealer proof of the same module: the statement with its native checks and
      parameters; the chord tables of the receivers, the slot of one receiver and its
      witness; the circuit of all receivers, [evrf_batched_prove],
      [evrf_batched_verify] and [evrf_batched_verify_many].  [EvrfBatchedComplete] and
      [EvrfBatchedMany] are the theorems about the prover and the two verifiers.

    [Prelude] (this file) has Rust's [Result], traversals, state passing, loops
    with fuel, integer bounds and big-endian bytes; [BTree] the ordered maps and
    sets of the standard library.

    ** How the code is read

    Fallible functions return [result]; the errors are the code's enumerations.
    Functions that may also panic, by an index out of range, return an [outcome] or
    an [option].  Functions that advance a reader, a transcript or a generator of
    randomness pass it explicitly.  Unsigned integers are [Z] with their bounds and
    checked operations ([is_u32], [checked_add]), lengths and indices into vectors
    [nat].  Loops whose end is not structural run on fuel: rejection sampling on the
    number of counters the code has before it stops, the folding and halving loops on
    the length, and the extension of the generator cache on two passes, which suffice.
    The loops that draw until a scalar is not zero (nonces, the coefficients of a batch,
    the Feldman weights of a statement) run on a fuel that theorems show to be enough
    if a nonzero scalar comes within that many draws; what they return does not depend
    on further fuel.

    Outside the repository, hence parameters: SHA-256, SHAKE256, HKDF, XChaCha20,
    ChaCha20 and Merlin are classes of operations without assumptions; the curves are
    classes with the laws of a prime-order group and of canonical encodings, all of
    which hold of the concrete instance in [TestSupport] and [Cycle].

    ** What the theorems show

    - Sharing: any threshold of shares reconstructs; for fewer shares and any two
      secrets, a bijection of the coefficients drawn preserves the shares; a share is accepted exactly if it lies on the committed polynomial;
      and the error of every bad input of [reconstruct_secret].
    - Key generation: honest dealings are accepted and decrypted, accepted dealings
      are consistent, the outcome of the batched verification for every backend, a run of honest dealers completes, completed runs agree if
      their roots do, and their outputs reconstruct the secret of the public key.
    - Transcripts and wire format: equal roots mean equal data or a collision of the
      hash, every codec is canonical, decoding inverts encoding, and the size hint of
      a dealer message is the number of bytes that it is written with.
    - Threshold encryption: sealed ciphertexts verify, decryption shares verify,
      both combiners return the payload, and two answers to one commitment reveal
      the exponent (soundness) for the three Schnorr-style proofs.
    - Proof system: the verifiers of the inner-product and linear arguments, one
      multiscalar multiplication each, decide exactly what the textbook verifier
      that folds round by round decides; the provers' proofs verify; every encoding
      is canonical; the generators do not depend on how threads race for the cache;
      prover and verifier flatten the same constraint system into the same weights,
      and the assignment stays well-formed.
    - R1CS argument: the verifier's one equation is the textbook inner-product
      verifier plus the opening of the polynomial, scaled by the batching scalar; an
      honest proof of a satisfied system, in one phase or two, is accepted; an
      accepted batch sums to the identity with the coefficients drawn from the
      generator, and every batch of valid equations is accepted.
    - Share openings: the verifier accepts exactly the encodings of openings whose
      equations hold; the prover's proofs are accepted; two answers give the share and
      the pad.
    - eVRF circuits: the gadgets are exact, that is, satisfying assignments exist for
      an input precisely when the relation holds of it, with the number of multipliers
      that the code's capacities assume: the bits of a field element are those of its
      canonical integer, and the one-receiver circuit states its relation.  The
      verifier of the one-receiver proof accepts exactly the encodings of accepted
      parts, the prover returns a proof of every true statement, which the verifier
      accepts, and two Chaum-Pedersen answers reveal the key.
    - Batched dealer proof: the native checks are exact, with the combined Feldman check
      of the verifier; the circuit has the announced number of multipliers, states its
      relation for every receiver, and is satisfied by the assignment of an honest
      dealer; the verifier accepts exactly the encodings of accepted parts; the prover
      returns a proof of every true statement, which the verifier accepts; and the
      verifier of several proofs accepts what is accepted one by one, never exactly one
      proof that is not, and decides the same on every number of threads.

    ** Not modelled

    The key-generation backend over the batched dealer proof
    (paper/secp_secq/dkg_backend.rs), which converts statements; the second copy of the eVRF over other
    curves in paper/bls_jubjub.rs, of the same structure; the serde and miden-serde
    adapters, which hand the canonical bytes to third-party traits; the adapters of
    concrete curve libraries (golden-bls-jubjub, golden-halo2curves,
    golden-rustcrypto); zeroization and Debug output, which have no effect on
    results; and benches and examples. *)

From Stdlib Require Import ZArith Lia Strings.Byte.
From stdpp Require Import prelude strings.

Declare Scope golden_scope.
Delimit Scope golden_scope with golden.

(** ** Fallible computations: Rust's [Result] *)

Inductive result (E A : Type) : Type :=
| Ok (a : A)
| Err (e : E).
Arguments Ok {_ _} _.
Arguments Err {_ _} _.

#[export] Instance result_ret E : MRet (result E) := λ A a, Ok a.

#[export] Instance result_bind E : MBind (result E) := λ A B f m,
  match m with Ok a => f a | Err e => Err e end.

#[export] Instance result_fmap E : FMap (result E) := λ A B f m,
  match m with Ok a => Ok (f a) | Err e => Err e end.

#[export] Instance result_eq_dec E A `{EqDecision E, EqDecision A} :
  EqDecision (result E A).
Proof. solve_decision. Defined.

(** [Result::map_err], [Option::ok_or], [Result::is_ok], [Result::is_err]. *)
Definition map_err {E E' A} (f : E → E') (m : result E A) : result E' A :=
  match m with Ok a => Ok a | Err e => Err (f e) end.

Definition ok_or {E A} (e : E) (o : option A) : result E A :=
  match o with Some a => Ok a | None => Err e end.

Definition is_ok {E A} (m : result E A) : bool :=
  match m with Ok _ => true | Err _ => false end.

(** A guard with an early return: [if b { return Err(e) }]. *)
Definition reject_if {E} (b : bool) (e : E) : result E unit :=
  if b then Err e else Ok tt.

(** [iter.map(f).collect::<Result<Vec<_>, _>>()]: left to right, the first
    error is returned and the later elements are not evaluated. *)
Fixpoint traverse {E A B} (f : A → result E B) (l : list A) : result E (list B) :=
  match l with
  | [] => Ok []
  | a :: l => b ← f a; bs ← traverse f l; Ok (b :: bs)
  end.

(** A [for] loop over a list whose body threads a state and may return early
    with an error through [?]. *)
Fixpoint fold_result {E St A} (f : St → A → result E St) (s : St) (l : list A)
    : result E St :=
  match l with
  | [] => Ok s
  | a :: l => s ← f s a; fold_result f s l
  end.

Section result_lemmas.
Context {E : Type}.

Lemma bind_Ok {A B} (m : result E A) (f : A → result E B) b :
  m ≫= f = Ok b ↔ ∃ a, m = Ok a ∧ f a = Ok b.
Proof. destruct m; naive_solver. Qed.

Lemma fmap_Ok {A B} (m : result E A) (f : A → B) b :
  f <$> m = Ok b ↔ ∃ a, m = Ok a ∧ b = f a.
Proof. destruct m; naive_solver. Qed.

Lemma map_err_Ok {E' A} (f : E → E') (m : result E A) a :
  map_err f m = Ok a ↔ m = Ok a.
Proof. destruct m; naive_solver. Qed.

Lemma ok_or_Ok {A} (e : E) (o : option A) a : ok_or e o = Ok a ↔ o = Some a.
Proof. destruct o; naive_solver. Qed.

Lemma reject_if_Ok b (e : E) u : reject_if b e = Ok u ↔ b = false.
Proof. destruct b, u; naive_solver. Qed.

Lemma traverse_Ok {A B} (f : A → result E B) l k :
  traverse f l = Ok k ↔ Forall2 (λ a b, f a = Ok b) l k.
Proof.
  revert k. induction l as [|a l IH]; intros k; simpl.
  - split; [by intros [= <-] | by inversion 1].
  - rewrite bind_Ok. setoid_rewrite bind_Ok. setoid_rewrite IH. split.
    + intros (b & Hb & bs & Hbs & [= <-]). by constructor.
    + inversion 1; subst. eauto.
Qed.

Lemma traverse_Err {A B} (f : A → result E B) l e :
  traverse f l = Err e ↔
  ∃ l1 a l2 k, l = l1 ++ a :: l2 ∧ traverse f l1 = Ok k ∧ f a = Err e.
Proof.
  induction l as [|a l IH]; simpl.
  - split; [done | intros ([|??] & ? & ? & ? & ? & _); done].
  - split.
    + destruct (f a) as [b|e'] eqn:Ha; simpl.
      * destruct (traverse f l) as [bs|e'] eqn:Hl; simpl; [done|].
        intros [= ->]. destruct (proj1 IH eq_refl) as (l1 & a' & l2 & k & -> & Hk & He).
        exists (a :: l1), a', l2, (b :: k). split; [done|]. simpl.
        rewrite Ha. simpl. by rewrite Hk.
      * intros [= ->]. by exists [], a, l, [].
    + intros ([|a' l1] & a'' & l2 & k & Heq & Hk & He);
        simplify_eq/=; [by rewrite He|].
      apply bind_Ok in Hk as (b & Hb & Hk).
      apply bind_Ok in Hk as (bs & Hbs & _).
      rewrite Hb. simpl. rewrite (proj2 IH); [done|]. by exists l1, a'', l2, bs.
Qed.

Lemma traverse_total {A B} (f : A → result E B) (g : A → B) l :
  (∀ a, a ∈ l → f a = Ok (g a)) → traverse f l = Ok (g <$> l).
Proof.
  intros Hf. apply traverse_Ok, Forall2_fmap_r, Forall_Forall2_diag.
  by apply Forall_forall.
Qed.

Lemma traverse_fmap {A B C} (f : B → result E C) (g : A → B) l :
  traverse f (g <$> l) = traverse (f ∘ g) l.
Proof. induction l as [|a l IH]; csimpl; [done|]. by rewrite IH. Qed.

Lemma traverse_ext {A B} (f g : A → result E B) l :
  (∀ a, a ∈ l → f a = g a) → traverse f l = traverse g l.
Proof.
  induction l as [|a l IH]; intros Hfg; simpl; [done|].
  rewrite Hfg, IH; [done| |left]. intros; apply Hfg; by right.
Qed.

(** A successful traversal as a map of the function's value. *)
Definition unwrap_or {A} (d : A) (m : result E A) : A :=
  match m with Ok a => a | Err _ => d end.

Lemma traverse_unwrap {A B} (d : B) (f : A → result E B) l k :
  traverse f l = Ok k ↔
  (∀ a, a ∈ l → f a = Ok (unwrap_or d (f a))) ∧ k = (λ a, unwrap_or d (f a)) <$> l.
Proof.
  split.
  - intros Hk. split.
    + intros a (i & Hi)%list_elem_of_lookup. apply traverse_Ok in Hk.
      destruct (Forall2_lookup_l _ _ _ _ _ Hk Hi) as (b & _ & Hb). by rewrite Hb.
    + apply traverse_Ok in Hk. induction Hk as [|a b l k Hb _ IH]; csimpl; [done|].
      by rewrite Hb, <-IH.
  - intros [Hf ->]. by apply traverse_total.
Qed.

(** A loop whose fallible part does not depend on the accumulator. *)
Lemma fold_result_traverse {St A B} (f : A → result E B) (h : St → A → B → St) s l :
  fold_result (λ s a, b ← f a; Ok (h s a b)) s l
  = (λ bs, foldl (λ s '(a, b), h s a b) s (zip l bs)) <$> traverse f l.
Proof.
  revert s. induction l as [|a l IH]; intros s; simpl; [done|].
  destruct (f a) as [b|]; cbn [mbind result_bind]; [|done].
  rewrite IH. by destruct (traverse f l).
Qed.

Lemma fold_result_total {St A B} (f : A → result E B) (h : St → A → B → St) s l :
  (∀ a, a ∈ l → ∃ b, f a = Ok b) →
  ∃ s', fold_result (λ s a, b ← f a; Ok (h s a b)) s l = Ok s'.
Proof.
  revert s. induction l as [|a l IH]; intros s Hf; simpl; [by eexists|].
  destruct (Hf a ltac:(left)) as [b ->]. cbn [mbind result_bind].
  apply IH. intros; apply Hf; by right.
Qed.

Lemma traverse_length {A B} (f : A → result E B) l k :
  traverse f l = Ok k → length k = length l.
Proof. intros H%traverse_Ok. symmetry. by eapply Forall2_length. Qed.

Lemma fold_result_ext {St A} (f g : St → A → result E St) s l :
  (∀ s a, a ∈ l → f s a = g s a) → fold_result f s l = fold_result g s l.
Proof.
  revert s. induction l as [|a l IH]; intros s Hfg; simpl; [done|].
  rewrite Hfg by left. destruct (g s a); [|done]. apply IH. intros; apply Hfg; by right.
Qed.

Lemma fold_result_app {St A} (f : St → A → result E St) s l1 l2 :
  fold_result f s (l1 ++ l2) = fold_result f s l1 ≫= λ s', fold_result f s' l2.
Proof.
  revert s. induction l1 as [|a l1 IH]; intros s; simpl; [done|].
  destruct (f s a); simpl; auto.
Qed.
End result_lemmas.

Lemma Forall2_with_in {A B} (P : A → B → Prop) l k :
  Forall2 P l k → Forall2 (λ a b, a ∈ l ∧ P a b) l k.
Proof.
  intros H. apply Forall2_same_length_lookup_2; [by eapply Forall2_length|].
  intros i a b Ha Hb. split; [by eapply list_elem_of_lookup_2|].
  by eapply Forall2_lookup_lr.
Qed.

(** A fallible computation that threads a mutable resource: the functions that
    take [&mut impl CryptoRngCore].  The resource keeps its state on an error. *)
Definition stateful (St E A : Type) : Type := St → result E A * St.

#[export] Instance stateful_ret St E : MRet (stateful St E) := λ A a s, (Ok a, s).
#[export] Instance stateful_bind St E : MBind (stateful St E) := λ A B f m s,
  match m s with
  | (Ok a, s) => f a s
  | (Err e, s) => (Err e, s)
  end.

Definition lift {St E A} (m : result E A) : stateful St E A := λ s, (m, s).
Definition draw {St E A} (f : St → A * St) : stateful St E A := λ s,
  let '(a, s) := f s in (Ok a, s).

Lemma stateful_bind_Ok {St E A B} (m : stateful St E A) (f : A → stateful St E B) s b s' :
  (m ≫= f) s = (Ok b, s') ↔ ∃ a s1, m s = (Ok a, s1) ∧ f a s1 = (Ok b, s').
Proof.
  unfold mbind, stateful_bind. destruct (m s) as [[a|e] s1]; naive_solver.
Qed.

Lemma lift_Ok {St E A} (m : result E A) (s s' : St) a :
  lift m s = (Ok a, s') ↔ m = Ok a ∧ s' = s.
Proof. unfold lift. naive_solver. Qed.

Lemma draw_Ok {St E A} (f : St → A * St) (s s' : St) a :
  draw (E:=E) f s = (Ok a, s') ↔ f s = (a, s').
Proof. unfold draw. destruct (f s). naive_solver. Qed.

(** A [for] loop whose body only returns early. *)
Fixpoint for_each {E A} (f : A → result E unit) (l : list A) : result E unit :=
  match l with
  | [] => Ok tt
  | a :: l => _ ← f a; for_each f l
  end.

Lemma for_each_Ok {E A} (f : A → result E unit) l :
  for_each f l = Ok () ↔ ∀ a, a ∈ l → f a = Ok ().
Proof.
  induction l as [|a l IH]; simpl.
  - split; [|done]. intros _ a ?%elem_of_nil. done.
  - rewrite bind_Ok. setoid_rewrite IH. setoid_rewrite elem_of_cons. split.
    + intros ([] & Ha & Hl) b [->|Hb]; auto.
    + intros Hl. exists (). auto.
Qed.

Lemma for_each_Err {E A} (f : A → result E unit) l e :
  for_each f l = Err e ↔
  ∃ l1 a l2, l = l1 ++ a :: l2 ∧ (∀ b, b ∈ l1 → f b = Ok ()) ∧ f a = Err e.
Proof.
  induction l as [|a l IH]; simpl.
  - split; [done|]. intros ([|??] & ? & ? & ? & _); done.
  - destruct (f a) as [[]|e'] eqn:Ha; cbn [mbind result_bind].
    + rewrite IH. split.
      * intros (l1 & b & l2 & -> & Hl1 & Hb). exists (a :: l1), b, l2.
        split; [done|]. split; [|done]. intros c [->|Hc]%elem_of_cons; auto.
      * intros ([|a' l1] & b & l2 & [= -> ->] & Hl1 & Hb); [congruence|].
        exists l1, b, l2. split; [done|]. split; [|done]. intros; apply Hl1; by right.
    + split.
      * intros [= ->]. exists [], a, l. split; [done|]. split; [|done].
        by intros b ?%elem_of_nil.
      * intros ([|a' l1] & b & l2 & [= -> ->] & Hl1 & Hb); [congruence|].
        rewrite Hl1 in Ha by left. done.
Qed.

(** Rewriting that opens every [?] of an equation [m = Ok x]. *)
Ltac simplify_result :=
  repeat match goal with
  | H : Ok _ = Ok _ |- _ => injection H as H; subst
  | H : Err _ = Ok _ |- _ => discriminate H
  | H : Ok _ = Err _ |- _ => discriminate H
  | H : mret _ = Ok _ |- _ => injection H as H; subst
  | H : _ ≫= _ = Ok _ |- _ => apply bind_Ok in H as (? & ? & ?)
  | H : _ <$> _ = Ok _ |- _ => apply fmap_Ok in H as (? & ? & ?)
  | H : map_err _ _ = Ok _ |- _ => apply map_err_Ok in H
  | H : ok_or _ _ = Ok _ |- _ => apply ok_or_Ok in H
  | H : reject_if _ _ = Ok _ |- _ => apply reject_if_Ok in H
  end; simpl in *.

(** Decide a closed equation with the virtual machine, without normalising the
    types in it. *)
Ltac vm_refl := match goal with |- _ = ?y => vm_cast_no_check (eq_refl y) end.

(** Left folds with steps that agree. *)
Lemma foldl_agree {A B} (f g : A → B → A) a l :
  (∀ x y, f x y = g x y) → foldl f a l = foldl g a l.
Proof. intros E. revert a. induction l as [|y l IH]; intros a; simpl; [done|]. by rewrite E. Qed.

(** ** Bounded loops

    [pos_loop f p s] runs the body [f] at most [p] times from the state [s]
    and stops early at the first [inr].  The iteration count is a binary
    number, so a bound such as [u32::MAX] stays executable when the loop exits
    early. *)
Fixpoint pos_loop {St R} (f : St → St + R) (p : positive) (s : St) : St + R :=
  match p with
  | xH => f s
  | xO p =>
      match pos_loop f p s with inl s => pos_loop f p s | inr r => inr r end
  | xI p =>
      match f s with
      | inl s =>
          match pos_loop f p s with inl s => pos_loop f p s | inr r => inr r end
      | inr r => inr r
      end
  end.

Fixpoint nat_loop {St R} (f : St → St + R) (n : nat) (s : St) : St + R :=
  match n with
  | O => inl s
  | S n => match f s with inl s => nat_loop f n s | inr r => inr r end
  end.

Section loop_lemmas.
Context {St R : Type} (f : St → St + R).

Lemma nat_loop_add n m s :
  nat_loop f (n + m) s =
  match nat_loop f n s with inl s => nat_loop f m s | inr r => inr r end.
Proof.
  revert s. induction n as [|n IH]; intros s; simpl; [done|].
  destruct (f s); auto.
Qed.

(** The binary loop is the [n]-step loop. *)
Lemma pos_loop_nat p s : pos_loop f p s = nat_loop f (Pos.to_nat p) s.
Proof.
  revert s. induction p as [p IH|p IH|]; intros s.
  - replace (Pos.to_nat p~1) with (S (Pos.to_nat p + Pos.to_nat p)) by lia.
    cbn [pos_loop nat_loop]. destruct (f s) as [s'|r]; [|done].
    rewrite IH, nat_loop_add. destruct (nat_loop f (Pos.to_nat p) s'); auto.
  - replace (Pos.to_nat p~0) with (Pos.to_nat p + Pos.to_nat p)%nat by lia.
    cbn [pos_loop]. rewrite IH, nat_loop_add.
    destruct (nat_loop f (Pos.to_nat p) s); auto.
  - change (Pos.to_nat 1) with 1%nat. cbn. by destruct (f s).
Qed.

(** A value returned by the loop was returned by some iteration; an
    invariant kept by continuing iterations holds when it is. *)
Lemma nat_loop_inr (I : St → Prop) n s r :
  I s → (∀ s s', I s → f s = inl s' → I s') →
  nat_loop f n s = inr r → ∃ s', I s' ∧ f s' = inr r.
Proof.
  intros HI Hstep. revert s HI. induction n as [|n IH]; intros s HI; simpl; [done|].
  destruct (f s) as [s'|r'] eqn:Hs; [eauto | intros [= ->]; eauto].
Qed.
End loop_lemmas.

(** ** Machine integers and bytes

    Unsigned machine integers are [Z] values; the widths the code uses are
    [u32] and [u64], and [usize] is 64 bits wide. *)
Definition u32_MAX : Z := 2 ^ 32 - 1.
Definition usize_MAX : Z := 2 ^ 64 - 1.

Definition is_u32 (z : Z) : Prop := (0 ≤ z ≤ u32_MAX)%Z.
Definition is_usize (z : Z) : Prop := (0 ≤ z ≤ usize_MAX)%Z.

(** [usize::checked_mul] and [usize::checked_add]. *)
Definition checked_mul (a b : Z) : option Z :=
  if bool_decide (a * b ≤ usize_MAX)%Z then Some (a * b)%Z else None.
Definition checked_add (a b : Z) : option Z :=
  if bool_decide (a + b ≤ usize_MAX)%Z then Some (a + b)%Z else None.

(** The length of a slice as a [usize]. *)
Definition len {A} (l : list A) : Z := Z.of_nat (length l).

#[export] Instance byte_eq_dec : EqDecision byte := Byte.byte_eq_dec.

Definition byte_to_Z (b : byte) : Z := Z.of_N (Byte.to_N b).
Definition byte_of_Z (z : Z) : byte :=
  match Byte.of_N (Z.to_N (z `mod` 256)) with Some b => b | None => x00 end.

(** [to_be_bytes] of an [n]-byte unsigned integer and [from_be_bytes]. *)
Fixpoint to_be_bytes (n : nat) (z : Z) : list byte :=
  match n with
  | O => []
  | S n => byte_of_Z (z `div` 256 ^ Z.of_nat n) :: to_be_bytes n z
  end.

Fixpoint from_be_bytes_acc (acc : Z) (bs : list byte) : Z :=
  match bs with
  | [] => acc
  | b :: bs => from_be_bytes_acc (acc * 256 + byte_to_Z b) bs
  end.
Definition from_be_bytes (bs : list byte) : Z := from_be_bytes_acc 0 bs.

(** A byte-string literal [b"..."]. *)
Definition bstr (s : string) : list byte := String.list_byte_of_string s.

Section byte_lemmas.
Local Open Scope Z_scope.

Lemma byte_to_Z_range c : 0 ≤ byte_to_Z c < 256.
Proof. unfold byte_to_Z. pose proof (Byte.to_N_bounded c). lia. Qed.

Lemma byte_of_to_Z c : byte_of_Z (byte_to_Z c) = c.
Proof.
  unfold byte_of_Z. rewrite Z.mod_small by apply byte_to_Z_range.
  unfold byte_to_Z. by rewrite N2Z.id, Byte.of_to_N.
Qed.

Lemma byte_to_of_Z z : byte_to_Z (byte_of_Z z) = z `mod` 256.
Proof.
  unfold byte_of_Z. pose proof (Z.mod_pos_bound z 256 eq_refl) as Hz.
  destruct (Byte.of_N _) as [c|] eqn:Hc.
  - unfold byte_to_Z. apply Byte.to_of_N in Hc. rewrite Hc. by rewrite Z2N.id by lia.
  - apply Byte.of_N_None_iff in Hc. lia.
Qed.

Lemma byte_to_Z_inj c d : byte_to_Z c = byte_to_Z d → c = d.
Proof. intros H. by rewrite <-(byte_of_to_Z c), H, byte_of_to_Z. Qed.

Lemma length_to_be_bytes n z : length (to_be_bytes n z) = n.
Proof. induction n; simpl; congruence. Qed.

Lemma from_be_bytes_acc_eq acc bs :
  from_be_bytes_acc acc bs = acc * 256 ^ Z.of_nat (length bs) + from_be_bytes bs.
Proof.
  unfold from_be_bytes. revert acc.
  induction bs as [|c bs IH]; intros acc; simpl; [lia|].
  rewrite IH, (IH (0 * 256 + _)), Nat2Z.inj_succ, Z.pow_succ_r by lia. lia.
Qed.

Lemma from_be_bytes_cons c bs :
  from_be_bytes (c :: bs) =
  byte_to_Z c * 256 ^ Z.of_nat (length bs) + from_be_bytes bs.
Proof. unfold from_be_bytes at 1. simpl. by rewrite from_be_bytes_acc_eq. Qed.

Lemma from_be_bytes_range bs :
  0 ≤ from_be_bytes bs < 256 ^ Z.of_nat (length bs).
Proof.
  induction bs as [|c bs IH]; [by vm_compute|].
  rewrite from_be_bytes_cons. pose proof (byte_to_Z_range c).
  simpl length. rewrite Nat2Z.inj_succ, Z.pow_succ_r by lia. nia.
Qed.

Lemma from_to_be_bytes n z :
  from_be_bytes (to_be_bytes n z) = z `mod` 256 ^ Z.of_nat n.
Proof.
  induction n as [|n IH]; [by rewrite Z.mod_1_r|].
  simpl to_be_bytes. rewrite from_be_bytes_cons, length_to_be_bytes, IH, byte_to_of_Z.
  rewrite Nat2Z.inj_succ, Z.pow_succ_r, (Z.mul_comm 256) by lia.
  rewrite Z.rem_mul_r by (try apply Z.pow_nonzero; lia). lia.
Qed.

Lemma from_to_be_bytes_small n z :
  0 ≤ z < 256 ^ Z.of_nat n → from_be_bytes (to_be_bytes n z) = z.
Proof. intros. by rewrite from_to_be_bytes, Z.mod_small. Qed.

Lemma to_be_bytes_mod n m z :
  (n ≤ m)%nat →
  to_be_bytes n (z `mod` 256 ^ Z.of_nat m) = to_be_bytes n z.
Proof.
  intros Hn. induction n as [|n IH]; simpl; [done|].
  rewrite IH by lia. f_equal. apply byte_to_Z_inj. rewrite !byte_to_of_Z.
  assert (0 < 256 ^ Z.of_nat n) by (apply Z.pow_pos_nonneg; lia).
  replace m with (n + S (m - S n))%nat by lia.
  rewrite Nat2Z.inj_add, Z.pow_add_r, Nat2Z.inj_succ, Z.pow_succ_r by lia.
  set (k := 256 ^ Z.of_nat (m - S n)).
  assert (0 < k) by (apply Z.pow_pos_nonneg; lia).
  rewrite Z.rem_mul_r by lia.
  rewrite (Z.mul_comm _ (_ `mod` _)), Z.div_add by lia.
  rewrite (Z.div_small (z `mod` _)) by (apply Z.mod_pos_bound; lia).
  rewrite Z.rem_mul_r by lia.
  rewrite Z.add_0_l, (Z.mul_comm 256 (_ `mod` k)), Z.mod_add by lia.
  apply Z.mod_mod; lia.
Qed.

Lemma to_from_be_bytes n bs :
  length bs = n → to_be_bytes n (from_be_bytes bs) = bs.
Proof.
  revert n. induction bs as [|c bs IH]; intros n <-; [done|]. simpl.
  assert (0 < 256 ^ Z.of_nat (length bs)) by (apply Z.pow_pos_nonneg; lia).
  pose proof (from_be_bytes_range bs).
  rewrite from_be_bytes_cons. f_equal.
  - rewrite Z.div_add_l, Z.div_small, Z.add_0_r by lia. apply byte_of_to_Z.
  - rewrite <-(to_be_bytes_mod _ (length bs)) by lia.
    rewrite Z.add_comm, Z.mod_add, to_be_bytes_mod by lia. by apply IH.
Qed.

Lemma to_be_bytes_inj n x y :
  0 ≤ x < 256 ^ Z.of_nat n → 0 ≤ y < 256 ^ Z.of_nat n →
  to_be_bytes n x = to_be_bytes n y → x = y.
Proof.
  intros Hx Hy H. apply (f_equal from_be_bytes) in H.
  by rewrite !from_to_be_bytes_small in H.
Qed.
End byte_lemmas.

Create HintDb golden discriminated.
Create Rewrite HintDb golden.
#[export] Hint Rewrite length_to_be_bytes : golden.
#[global] Arguments to_be_bytes : simpl never.
#[global] Arguments from_be_bytes : simpl never.
#[global] Arguments bstr : simpl never.
