(* ===== verification/BTree.v ===== *)
(** * Ordered maps and sets

    [BTreeMap] and [BTreeSet] of the Rust standard library, as the code uses
    them: association lists kept in increasing key order, so that iteration,
    [keys] and [values] run in key order, which the transcripts and the wire
    format rely on.  Every key type used by the code embeds into [Z]. *)

From Stdlib Require Import ZArith Lia Sorted.
From stdpp Require Import prelude sorting.
From S2P Require Import Prelude.

(** Key types: the order is that of an injective integer key. *)
Class OrdKey (K : Type) := {
  key : K → Z;
  key_inj : Inj (=) (=) key;
}.
#[export] Existing Instance key_inj.

#[export] Program Instance Z_key : OrdKey Z := {| key := id |}.

Module BTreeMap.
Section ops.
Context {K V : Type} `{OrdKey K}.

Definition empty : list (K * V) := [].

(** [BTreeMap::insert]: replaces the value of an existing key. *)
Fixpoint insert (k : K) (v : V) (m : list (K * V)) : list (K * V) :=
  match m with
  | [] => [(k, v)]
  | (k', v') :: m' =>
      if (key k <? key k')%Z then (k, v) :: m
      else if (key k =? key k')%Z then (k, v) :: m'
      else (k', v') :: insert k v m'
  end.

(** [BTreeMap::get]. *)
Fixpoint get (k : K) (m : list (K * V)) : option V :=
  match m with
  | [] => None
  | (k', v') :: m' => if (key k =? key k')%Z then Some v' else get k m'
  end.

Definition contains_key (k : K) (m : list (K * V)) : bool :=
  match get k m with Some _ => true | None => false end.

Definition keys (m : list (K * V)) : list K := m.*1.
Definition values (m : list (K * V)) : list V := m.*2.

(** The representation invariant: keys strictly increase. *)
Definition wf (m : list (K * V)) : Prop :=
  StronglySorted Z.lt (key <$> keys m).
End ops.

Section lemmas.
Context {K V : Type} `{OrdKey K}.
Implicit Types (m : list (K * V)) (k : K) (v : V).

#[local] Instance key_eq_dec : EqDecision K.
Proof.
  intros x y. destruct (decide (key x = key y)) as [Hxy|Hxy].
  - left. by apply (inj key).
  - right. congruence.
Defined.

Lemma wf_empty : wf (V:=V) (empty (K:=K)).
Proof. constructor. Qed.

Lemma wf_cons k v m :
  wf ((k, v) :: m) ↔ wf m ∧ ∀ k' v', (k', v') ∈ m → (key k < key k')%Z.
Proof.
  unfold wf, keys. simpl. split.
  - intros [Hm Hk]%StronglySorted_inv. split; [done|]. intros k' v' Hin.
    rewrite Forall_forall in Hk. apply Hk.
    apply list_elem_of_fmap. exists k'. split; [done|].
    apply list_elem_of_fmap. by exists (k', v').
  - intros [Hm Hk]. constructor; [done|]. apply Forall_forall. intros z Hz.
    apply list_elem_of_fmap in Hz as (k' & -> & Hz).
    apply list_elem_of_fmap in Hz as ([k'' v'] & -> & Hz). eauto.
Qed.

Lemma elem_of_insert k v m k' v' :
  (k', v') ∈ insert k v m → (k', v') = (k, v) ∨ (k', v') ∈ m.
Proof.
  induction m as [|[k1 v1] m IH]; simpl; [set_solver|].
  repeat case_match; set_solver.
Qed.

Lemma wf_insert k v m : wf m → wf (insert k v m).
Proof.
  induction m as [|[k1 v1] m IH]; simpl; intros Hm.
  { by repeat constructor. }
  pose proof Hm as [Hm' Hk1]%wf_cons.
  destruct (Z.ltb_spec (key k) (key k1)).
  { apply wf_cons. split; [done|]. intros k' v' [[= -> ->]|Hin]%elem_of_cons; [done|].
    specialize (Hk1 _ _ Hin). lia. }
  destruct (Z.eqb_spec (key k) (key k1)) as [He|He].
  { apply wf_cons. split; [done|]. rewrite He. eauto. }
  apply wf_cons. split; [auto|]. intros k' v' [[= -> ->]|Hin]%elem_of_insert; [lia|eauto].
Qed.

Lemma get_Some_elem k v m : get k m = Some v → (k, v) ∈ m.
Proof.
  induction m as [|[k1 v1] m IH]; simpl; [done|].
  case_match eqn:E; [|set_solver].
  apply Z.eqb_eq, (inj key) in E. intros; simplify_eq. set_solver.
Qed.

Lemma get_Some k v m : wf m → get k m = Some v ↔ (k, v) ∈ m.
Proof.
  intros Hm. split; [apply get_Some_elem|].
  induction m as [|[k1 v1] m IH]; simpl; [by rewrite elem_of_nil|].
  apply wf_cons in Hm as [Hm Hk1]. intros [[= -> ->]|Hin]%elem_of_cons.
  { by rewrite Z.eqb_refl. }
  specialize (Hk1 _ _ Hin). destruct (Z.eqb_spec (key k) (key k1)); [lia|auto].
Qed.

Lemma get_None k m : get k m = None ↔ k ∉ keys m.
Proof.
  unfold keys. induction m as [|[k1 v1] m IH]; simpl; [set_solver|].
  rewrite not_elem_of_cons. destruct (Z.eqb_spec (key k) (key k1)) as [E|E].
  - apply (inj key) in E. naive_solver.
  - rewrite IH. naive_solver.
Qed.

Lemma get_is_Some k m : is_Some (get k m) ↔ k ∈ keys m.
Proof.
  rewrite <-not_eq_None_Some, get_None.
  destruct (decide (k ∈ keys m)); tauto.
Qed.

Lemma contains_key_spec k m : contains_key k m = true ↔ k ∈ keys m.
Proof.
  unfold contains_key. rewrite <-get_is_Some.
  destruct (get k m); split; try done; by intros [? ?].
Qed.

Lemma get_insert_eq k v m : get k (insert k v m) = Some v.
Proof.
  induction m as [|[k1 v1] m IH]; simpl; [by rewrite Z.eqb_refl|].
  destruct (Z.ltb_spec (key k) (key k1)); simpl; [by rewrite Z.eqb_refl|].
  destruct (Z.eqb_spec (key k) (key k1)) as [E|E]; simpl; [by rewrite Z.eqb_refl|].
  apply Z.eqb_neq in E. by rewrite E.
Qed.

Lemma get_insert_ne k k' v m : k ≠ k' → get k' (insert k v m) = get k' m.
Proof.
  intros Hne.
  assert (Hk : (key k' =? key k)%Z = false).
  { apply Z.eqb_neq. intros Hk%(inj key). congruence. }
  induction m as [|[k1 v1] m IH]; simpl; [by rewrite Hk|].
  destruct (Z.ltb_spec (key k) (key k1)); simpl; [by rewrite Hk|].
  destruct (Z.eqb_spec (key k) (key k1)) as [E|E]; simpl.
  - by rewrite <-E, Hk.
  - case_match; auto.
Qed.

(** Inserting keys in increasing order appends them, so a map built by
    walking another map in order is that walk. *)
Lemma insert_snoc k v m :
  (∀ k', k' ∈ keys m → (key k' < key k)%Z) → insert k v m = m ++ [(k, v)].
Proof.
  unfold keys. induction m as [|[k1 v1] m IH]; simpl; intros Hm; [done|].
  pose proof (Hm k1 ltac:(set_solver)).
  destruct (Z.ltb_spec (key k) (key k1)); [lia|].
  destruct (Z.eqb_spec (key k) (key k1)); [lia|].
  f_equal. apply IH. intros; apply Hm; set_solver.
Qed.

Lemma wf_snoc k v m :
  wf (m ++ [(k, v)]) ↔ wf m ∧ ∀ k', k' ∈ keys m → (key k' < key k)%Z.
Proof.
  unfold keys. induction m as [|[k1 v1] m IH]; simpl.
  { split; [|by repeat constructor]. intros _. split; [constructor|]. set_solver. }
  rewrite !wf_cons, IH. setoid_rewrite elem_of_app.
  setoid_rewrite list_elem_of_singleton. setoid_rewrite elem_of_cons.
  split.
  - intros ((Hm & Hk) & Hk1). split; [split; [done|naive_solver]|].
    intros k' [->|Hin]; [naive_solver|auto].
  - intros ((Hm & Hk1) & Hk). split; [split; [done|naive_solver]|].
    intros k' v' [?|[= -> ->]]; [eauto|]. naive_solver.
Qed.

Lemma wf_NoDup_keys m : wf m → NoDup (keys m).
Proof.
  unfold keys. induction m as [|[k v] m IH]; simpl; [constructor|].
  intros [Hm Hk]%wf_cons. constructor; [|auto].
  intros ([k' v'] & -> & Hin)%list_elem_of_fmap. specialize (Hk _ _ Hin). simpl in Hk. lia.
Qed.

Lemma wf_keys {W} (m : list (K * V)) (m' : list (K * W)) :
  keys m = keys m' → wf m → wf m'.
Proof. unfold wf. by intros ->. Qed.

(** Two ordered maps with the same bindings are the same list. *)
Lemma wf_ext m m' : wf m → wf m' → (∀ k, get k m = get k m') → m = m'.
Proof.
  revert m'. induction m as [|[k v] m IH]; intros [|[k' v'] m'] Hm Hm' Hget; [done|..].
  - specialize (Hget k'). simpl in Hget. by rewrite Z.eqb_refl in Hget.
  - specialize (Hget k). simpl in Hget. by rewrite Z.eqb_refl in Hget.
  - apply wf_cons in Hm as [Hm Hk]. apply wf_cons in Hm' as [Hm' Hk'].
    assert (k = k') as <-.
    { pose proof (Hget k) as H1. pose proof (Hget k') as H2. simpl in H1, H2.
      rewrite Z.eqb_refl in H1, H2. apply (inj key).
      destruct (Z.eqb_spec (key k) (key k')) as [|]; [done|].
      symmetry in H1. apply get_Some_elem, Hk' in H1.
      destruct (Z.eqb_spec (key k') (key k)); [lia|].
      apply get_Some_elem, Hk in H2. lia. }
    assert (v = v') as <-.
    { specialize (Hget k). simpl in Hget. rewrite Z.eqb_refl in Hget. congruence. }
    f_equal. apply IH; [done..|]. intros k'. specialize (Hget k'). simpl in Hget.
    destruct (Z.eqb_spec (key k') (key k)) as [E|E]; [|done].
    apply (inj key) in E as ->.
    transitivity (@None V); [|symmetry]; apply get_None; unfold keys;
      intros ([k'' v''] & -> & Hin)%list_elem_of_fmap; simpl in *;
      [apply Hk in Hin | apply Hk' in Hin]; lia.
Qed.

(** A map built by inserting the image of an ordered key list. *)
Lemma fold_insert_sorted {A} (f : A → K) (g : A → V) (l : list A) m :
  wf m → StronglySorted Z.lt (key <$> keys m ++ (f <$> l)) →
  foldl (λ m a, insert (f a) (g a) m) m l = m ++ ((λ a, (f a, g a)) <$> l).
Proof.
  revert m. induction l as [|a l IH]; intros m Hm Hs; simpl; [by rewrite app_nil_r|].
  assert (Hlt : ∀ k', k' ∈ keys m → (key k' < key (f a))%Z).
  { intros k' Hk'. rewrite fmap_app in Hs. simpl in Hs.
    apply (StronglySorted_app_1_elem_of Z.lt _ _ _ _ Hs); [|left].
    by apply list_elem_of_fmap_2. }
  rewrite insert_snoc by done. rewrite IH.
  - by rewrite <-app_assoc.
  - apply wf_snoc. auto.
  - unfold keys in *. rewrite !fmap_app in *. simpl in *. by rewrite <-!app_assoc.
Qed.

(** Ordered key lists, and the map of a function on one. *)
Definition sorted (l : list K) : Prop := StronglySorted Z.lt (key <$> l).
Definition of_fun (f : K → V) (l : list K) : list (K * V) := (λ k, (k, f k)) <$> l.

Lemma sorted_NoDup l : sorted l → NoDup l.
Proof.
  unfold sorted. induction l as [|k l IH]; [constructor|]. csimpl.
  intros [Hl Hk]%StronglySorted_inv. constructor; [|by apply IH].
  intros Hin. rewrite Forall_fmap, Forall_forall in Hk. specialize (Hk _ Hin). simpl in Hk. lia.
Qed.

Lemma sorted_filter (P : K → Prop) `{∀ k, Decision (P k)} l : sorted l → sorted (filter P l).
Proof.
  unfold sorted. induction l as [|k l IH]; [done|]. rewrite filter_cons. csimpl.
  intros [Hl Hk]%StronglySorted_inv. specialize (IH Hl). case_decide; [|done].
  csimpl. constructor; [done|]. rewrite Forall_fmap, Forall_forall in *.
  intros k' [_ Hk']%list_elem_of_filter. by apply Hk.
Qed.

Lemma keys_of_fun f l : keys (of_fun f l) = l.
Proof. unfold keys, of_fun. rewrite <-list_fmap_compose. apply list_fmap_id. Qed.

Lemma wf_of_fun f l : sorted l → wf (of_fun f l).
Proof. unfold wf. by rewrite keys_of_fun. Qed.

Lemma get_of_fun f l k : get k (of_fun f l) = if decide (k ∈ l) then Some (f k) else None.
Proof.
  induction l as [|k' l IH]; [done|]. cbn [of_fun fmap list_fmap get].
  destruct (Z.eqb_spec (key k) (key k')) as [E|E].
  - apply (inj key) in E as ->. rewrite decide_True by left. done.
  - fold (of_fun f l). rewrite IH. apply decide_ext. rewrite elem_of_cons. naive_solver.
Qed.

Lemma filter_of_fun (P : K → Prop) `{∀ k, Decision (P k)} f l :
  filter (λ e, P e.1) (of_fun f l) = of_fun f (filter P l).
Proof.
  unfold of_fun. induction l as [|k l IH]; csimpl; [done|].
  rewrite !filter_cons. cbn [fst]. case_decide; csimpl; by rewrite IH.
Qed.

Lemma fold_insert_keys (f : K → V) l :
  sorted l → foldl (λ m k, insert k (f k) m) [] l = of_fun f l.
Proof.
  intros Hl. apply (fold_insert_sorted id f l []); [constructor|].
  simpl. by rewrite list_fmap_id.
Qed.

(** Reading every key of a map in order. *)
Lemma traverse_get_keys {E} (e : K → E) m :
  wf m → traverse (λ k, ok_or (e k) (get k m)) (keys m) = Ok (values m).
Proof.
  intros Hm. apply traverse_Ok. unfold keys, values. apply Forall2_fmap, Forall_Forall2_diag.
  apply Forall_forall. intros [k v] Hin. simpl. by rewrite (proj2 (get_Some k v m Hm) Hin).
Qed.

(** A loop that inserts one entry per key of an ordered list. *)
Lemma fold_insert_of_fun {A E} (d : A) (f : K → result E A) (g : K → A → V) l m :
  sorted l →
  fold_result (λ m k, a ← f k; Ok (insert k (g k a) m)) empty l = Ok m ↔
  (∀ k, k ∈ l → f k = Ok (unwrap_or d (f k))) ∧ m = of_fun (λ k, g k (unwrap_or d (f k))) l.
Proof.
  intros Hl. rewrite fold_result_traverse, fmap_Ok. setoid_rewrite (traverse_unwrap d).
  assert (Hf : ∀ h : K → A,
    foldl (λ m '(k, a), insert k (g k a) m) empty (zip l (h <$> l)) = of_fun (λ k, g k (h k)) l).
  { intros h. rewrite zip_with_fmap_r, zip_with_diag.
    rewrite foldl_fmap. by apply fold_insert_keys. }
  split.
  - intros (bs & [Hok ->] & ->). split; [done|apply Hf].
  - intros [Hok ->]. eexists. split; [done|]. symmetry. apply Hf.
Qed.
End lemmas.

Lemma sorted_ext {K} `{OrdKey K} (l l' : list K) :
  sorted l → sorted l' → (∀ k, k ∈ l ↔ k ∈ l') → l = l'.
Proof.
  intros Hl Hl' Hk.
  assert (Hf : of_fun (λ _, ()) l = of_fun (λ _, ()) l').
  { apply wf_ext; [by apply wf_of_fun..|]. intros k. rewrite !get_of_fun. by apply decide_ext. }
  apply (f_equal keys) in Hf. by rewrite !keys_of_fun in Hf.
Qed.
End BTreeMap.

(** A [BTreeSet] is used only through [insert] (which reports whether the
    element was new) and [contains]. *)
Module BTreeSet.
Section ops.
Context {K : Type} `{OrdKey K}.

Definition contains (k : K) (s : list (K * unit)) : bool :=
  BTreeMap.contains_key k s.
Definition insert (k : K) (s : list (K * unit)) : bool * list (K * unit) :=
  (negb (contains k s), BTreeMap.insert k () s).

Lemma contains_insert k k' s :
  contains k' (insert k s).2 = true ↔ k' = k ∨ contains k' s = true.
Proof.
  unfold contains, insert, BTreeMap.contains_key. simpl.
  destruct (decide (key k = key k')) as [E|E].
  - apply (inj key) in E as ->. rewrite BTreeMap.get_insert_eq. naive_solver.
  - rewrite BTreeMap.get_insert_ne by congruence. naive_solver.
Qed.
End ops.
End BTreeSet.
