(* ===== verification/CoreError.v ===== *)
(** * Errors of [golden-core] (error.rs) *)

From Stdlib Require Import ZArith.
From stdpp Require Import prelude.
From S2P Require Import Prelude.

(** The [Error] enumeration.  Participant indexes and counts are carried as
    the integers the code puts into the variants. *)
Inductive CoreError : Type :=
| ZeroParticipantIndex
| DuplicateParticipantIndex (participant : Z)
| DuplicateParticipantPublicKey (first second : Z)
| NegatedParticipantPublicKey (first second : Z)
| InvalidIdentityKeyProof (participant : Z)
| InvalidThreshold (threshold participants : Z)
| NonInvertibleDenominator
| InvalidEncoding
| EmptyCommitment
| InvalidCommitmentDegree (expected actual : Z)
| SessionMismatch
| RegistryMismatch
| IdentityKeyMismatch
| UnknownParticipant (participant : Z)
| DealerKeyMismatch (map_key message_dealer : Z)
| PrivateShareParticipantMismatch (expected actual : Z)
| MissingDealing (participant : Z)
| MissingShare (participant : Z)
| UnexpectedShare (participant : Z)
| ProofVerificationFailed
| DealerProofVerificationFailed (dealer : Z)
| CommitmentVerificationFailed
| DecryptionFailed.

#[export] Instance CoreError_eq_dec : EqDecision CoreError.
Proof. solve_decision. Defined.

(** [golden_core::Result<T>]. *)
Abbreviation Result A := (result CoreError A).
