(* ===== verification/Group.v ===== *)
(** * Scalar fields and prime-order groups (group.rs)

    The traits [GoldenScalar] and [GoldenGroup] as type classes of operations,
    and, as separate classes, what the code relies on their implementations
    for: field and module laws, and canonical encodings. *)

From Stdlib Require Import ZArith Lia Field Strings.Byte.
From stdpp Require Import prelude strings.
From S2P Require Import Prelude CoreError.

Inductive FieldByteOrder : Type := BigEndian | LittleEndian.

#[export] Instance FieldByteOrder_eq_dec : EqDecision FieldByteOrder.
Proof. solve_decision. Defined.

(** ** External services

    [rand_core::CryptoRngCore]: a generator state and the two calls the code
    makes on it. *)
Class CryptoRngCore (R : Type) := {
  fill_bytes : nat → R → list byte * R;
  next_u32 : R → Z * R;
}.

(** [sha2::Sha256] as a function of the concatenation of everything passed to
    [update]. *)
Class Sha256 := { sha256 : list byte → list byte }.

Class Sha256Laws `{Sha256} : Prop := {
  length_sha256 m : length (sha256 m) = 32;
}.

(** ** [trait GoldenScalar]

    Its arithmetic is a class of its own, [ff::Field] has the same methods. *)
Class FieldOps (F : Type) := {
  scalar_eq_dec :: EqDecision F;
  szero : F;
  sone : F;
  srandom : ∀ {R : Type} {rng : CryptoRngCore R}, R → F * R;
  sadd : F → F → F;
  ssub : F → F → F;
  smul : F → F → F;
  sneg : F → F;
  sinvert : F → option F;
}.

Class GoldenScalar (F : Type) := {
  golden_field_ops :: FieldOps F;
  Repr : Type;
  repr_as_ref : Repr → list byte;
  repr_try_from : list byte → option Repr;
  REPR_BYTES : Z;
  from_u64 : Z → Result F;
  to_repr : F → Repr;
  from_repr : Repr → Result F;
  smodulus : Repr;
  repr_byte_order : FieldByteOrder;
}.

Section field_defaults.
Context {F : Type} `{FieldOps F}.

(** Default bodies of the trait. *)
Definition default_neg (a : F) : F := ssub szero a.
Definition ct_eq (x y : F) : bool := bool_decide (x = y).
Definition is_zero (a : F) : bool := ct_eq a szero.
End field_defaults.

Section scalar_defaults.
Context {F : Type} `{GoldenScalar F} `{Sha256}.

(** The inner [while] loop of [hash_to_scalar]: append digest blocks until
    [REPR_BYTES] bytes are available. *)
Fixpoint expand_blocks (fuel : nat) (domain message : list byte)
    (counter block : Z) (bytes : list byte) : list byte :=
  match fuel with
  | O => bytes
  | S fuel =>
      if bool_decide (len bytes < REPR_BYTES)%Z then
        let digest :=
          sha256 (bstr "golden-scalar-v1"
                  ++ to_be_bytes 8 (len domain) ++ domain
                  ++ to_be_bytes 8 (len message) ++ message
                  ++ to_be_bytes 4 counter ++ to_be_bytes 4 block) in
        expand_blocks fuel domain message counter (block + 1) (bytes ++ digest)
      else bytes
  end.

(** One pass of the rejection-sampling loop: continue with the next counter,
    or return. *)
Definition hash_attempt (domain message : list byte) (counter : Z)
    : Z + Result F :=
  let bytes := expand_blocks (Z.to_nat REPR_BYTES) domain message counter 0 [] in
  match repr_try_from (take (Z.to_nat REPR_BYTES) bytes) with
  | None => inr (Err InvalidEncoding)
  | Some repr =>
      match from_repr repr with
      | Ok scalar => if is_zero scalar then inl (counter + 1)%Z else inr (Ok scalar)
      | Err _ => inl (counter + 1)%Z
      end
  end.

(** [for counter in 0u32..u32::MAX]. *)
Definition hash_to_scalar (domain message : list byte) : Result F :=
  match pos_loop (hash_attempt domain message) (Z.to_pos u32_MAX) 0%Z with
  | inr r => r
  | inl _ => Err InvalidEncoding
  end.
End scalar_defaults.

(** ** [trait GoldenGroup] *)
Class GoldenGroup := {
  Scalar : Type;
  scalar_ops :: GoldenScalar Scalar;
  Element : Type;
  element_eq_dec :: EqDecision Element;
  ElementRepr : Type;
  element_as_ref : ElementRepr → list byte;
  element_try_from : list byte → option ElementRepr;
  ELEMENT_REPR_BYTES : Z;
  BACKEND_ID : list byte;
  generator : Element;
  identity : Element;
  gadd : Element → Element → Element;
  gsub : Element → Element → Element;
  gmul : Element → Scalar → Element;
  mul_generator : Scalar → Element;
  is_identity : Element → bool;
  encode_element : Element → ElementRepr;
  decode_element : ElementRepr → Result Element;
}.

Definition default_mul_generator `{GoldenGroup} (scalar : Scalar) : Element :=
  gmul generator scalar.

(** [trait GoldenHashToGroup]. *)
Class GoldenHashToGroup `{GoldenGroup} := {
  hash_to_group : list byte → list byte → Result Element;
}.

(** ** Notations for the algebra *)
Infix "+" := sadd : golden_scope.
Infix "-" := ssub : golden_scope.
Infix "*" := smul : golden_scope.
Notation "- a" := (sneg a) : golden_scope.
Notation "0" := szero : golden_scope.
Notation "1" := sone : golden_scope.
Infix "⊞" := gadd (at level 50, left associativity) : golden_scope.
Infix "⊟" := gsub (at level 50, left associativity) : golden_scope.
Infix "⊠" := gmul (at level 40, left associativity) : golden_scope.

(** ** What the code relies on

    The image of a natural number in the field: [from_u64] reduces modulo the
    field order. *)
Fixpoint snat `{FieldOps F} (n : nat) : F :=
  match n with O => szero | S n => sadd sone (snat n) end.

Class FieldLaws (F : Type) `{FieldOps F} : Prop := {
  sadd_comm (a b : F) : (a + b = b + a)%golden;
  sadd_assoc (a b c : F) : (a + (b + c) = a + b + c)%golden;
  sadd_0_l (a : F) : (0 + a = a)%golden;
  smul_comm (a b : F) : (a * b = b * a)%golden;
  smul_assoc (a b c : F) : (a * (b * c) = a * b * c)%golden;
  smul_1_l (a : F) : (1 * a = a)%golden;
  smul_add_distr_l (a b c : F) : ((a + b) * c = a * c + b * c)%golden;
  ssub_def (a b : F) : (a - b = a + - b)%golden;
  sneg_r (a : F) : (a + - a = 0)%golden;
  sone_neq_zero : sone (F:=F) ≠ szero;
  sinvert_zero : sinvert (F:=F) szero = None;
  sinvert_nonzero (a : F) : a ≠ szero → ∃ b, sinvert a = Some b ∧ (b * a = 1)%golden;
}.

Class ScalarField (F : Type) `{GoldenScalar F} : Prop := {
  scalar_field_laws :: FieldLaws F;
  from_u64_spec (v : Z) (s : F) : (0 ≤ v)%Z → from_u64 v = Ok s → s = snat (Z.to_nat v);
}.

(** Encodings are canonical: one representation per scalar, of fixed length. *)
Class ScalarCodec (F : Type) `{GoldenScalar F} : Prop := {
  REPR_BYTES_range : (0 < REPR_BYTES ≤ u32_MAX)%Z;
  repr_try_from_as_ref (r : Repr (F:=F)) : repr_try_from (repr_as_ref r) = Some r;
  repr_as_ref_try_from bs (r : Repr (F:=F)) : repr_try_from bs = Some r → repr_as_ref r = bs;
  length_repr (r : Repr (F:=F)) : len (repr_as_ref r) = REPR_BYTES;
  from_to_repr (s : F) : from_repr (to_repr s) = Ok s;
  to_from_repr r (s : F) : from_repr r = Ok s → to_repr s = r;
}.

Class GroupModule `{GoldenGroup} : Prop := {
  scalar_field :: ScalarField Scalar;
  gadd_comm (P Q : Element) : (P ⊞ Q = Q ⊞ P)%golden;
  gadd_assoc (P Q R : Element) : (P ⊞ (Q ⊞ R) = P ⊞ Q ⊞ R)%golden;
  gadd_id_l (P : Element) : (identity ⊞ P = P)%golden;
  gsub_add (P Q : Element) : (P ⊟ Q ⊞ Q = P)%golden;
  gmul_add_l (P Q : Element) (a : Scalar) : ((P ⊞ Q) ⊠ a = P ⊠ a ⊞ Q ⊠ a)%golden;
  gmul_add_r (P : Element) (a b : Scalar) : (P ⊠ (a + b) = P ⊠ a ⊞ P ⊠ b)%golden;
  gmul_mul (P : Element) (a b : Scalar) : (P ⊠ a ⊠ b = P ⊠ (a * b))%golden;
  gmul_1 (P : Element) : (P ⊠ 1 = P)%golden;
  mul_generator_spec (a : Scalar) : mul_generator a = default_mul_generator a;
  is_identity_spec (P : Element) : is_identity P = bool_decide (P = identity);
  generator_neq_identity : generator ≠ identity;
}.

Class GroupCodec `{GoldenGroup} : Prop := {
  scalar_codec :: ScalarCodec Scalar;
  ELEMENT_REPR_BYTES_range : (0 < ELEMENT_REPR_BYTES ≤ u32_MAX)%Z;
  BACKEND_ID_usize : (len BACKEND_ID ≤ usize_MAX)%Z;
  element_try_from_as_ref r : element_try_from (element_as_ref r) = Some r;
  element_as_ref_try_from bs r : element_try_from bs = Some r → element_as_ref r = bs;
  length_element_repr r : len (element_as_ref r) = ELEMENT_REPR_BYTES;
  decode_encode_element P : decode_element (encode_element P) = Ok P;
  encode_decode_element r P : decode_element r = Ok P → encode_element P = r;
}.
