(* ===== verification/Algebra.v ===== *)
(** * Field and module reasoning

    The field tactics for a [FieldLaws], modules over it (the scalars
    themselves and the elements of a group), sums, and the cancellation and
    rewriting lemmas the components share. *)

From Stdlib Require Import ZArith Lia Field.
From stdpp Require Import prelude.
From S2P Require Import Prelude CoreError Group.

Local Open Scope golden_scope.

(** ** Scalars *)
Section field.
Context {F : Type} `{FieldLaws F}.
Implicit Types a b c : F.

(** The total inverse: [invert] with [0] for the rejected argument. *)
Definition sinv (a : F) : F := default szero (sinvert a).
Definition sdiv (a b : F) : F := a * sinv b.

Lemma sinv_l a : a ≠ szero → sinv a * a = 1.
Proof. intros (b & Hb & ?)%sinvert_nonzero. unfold sinv. by rewrite Hb. Qed.

Lemma scalar_field_theory :
  field_theory szero sone sadd smul ssub sneg sdiv sinv (@eq F).
Proof.
  constructor; [constructor| | |].
  - apply sadd_0_l.
  - apply sadd_comm.
  - apply sadd_assoc.
  - apply smul_1_l.
  - apply smul_comm.
  - apply smul_assoc.
  - apply smul_add_distr_l.
  - apply ssub_def.
  - apply sneg_r.
  - apply sone_neq_zero.
  - done.
  - apply sinv_l.
Qed.

Add Field scalar_field_tac : scalar_field_theory.

Lemma smul_0_l a : 0 * a = 0.
Proof. ring. Qed.
Lemma smul_0_r a : a * 0 = 0.
Proof. ring. Qed.
Lemma smul_1_r a : a * 1 = a.
Proof. ring. Qed.
Lemma sadd_0_r a : a + 0 = a.
Proof. ring. Qed.
Lemma ssub_diag a : a - a = 0.
Proof. ring. Qed.
Lemma ssub_add a b : a - b + b = a.
Proof. ring. Qed.
Lemma sadd_sub a b : a + b - b = a.
Proof. ring. Qed.
Lemma sneg_0_sub a : - a = 0 - a.
Proof. ring. Qed.

Lemma ssub_eq_0 a b : a - b = 0 ↔ a = b.
Proof.
  split; [|intros ->; apply ssub_diag].
  intros Hab. replace a with (a - b + b) by ring. rewrite Hab. ring.
Qed.

Lemma sinv_r a : a ≠ szero → a * sinv a = 1.
Proof. intros. rewrite smul_comm. by apply sinv_l. Qed.

Lemma smul_integral a b : a * b = 0 → a = szero ∨ b = szero.
Proof.
  intros Hab. destruct (decide (a = szero)) as [|Ha]; [by left|right].
  replace b with (sinv a * a * b) by (rewrite sinv_l by done; ring).
  rewrite <-smul_assoc, Hab. ring.
Qed.

Lemma smul_nonzero a b : a ≠ szero → b ≠ szero → a * b ≠ szero.
Proof. intros ?? [?|?]%smul_integral; done. Qed.

Lemma smul_cancel_l a b c : a ≠ szero → a * b = a * c → b = c.
Proof.
  intros Ha Heq. apply ssub_eq_0.
  destruct (smul_integral a (b - c)) as [|]; [|done..].
  replace (a * (b - c)) with (a * b - a * c) by ring. rewrite Heq. ring.
Qed.

Lemma sadd_cancel_r a b c : a + c = b + c → a = b.
Proof.
  intros Heq. replace a with (a + c - c) by ring. rewrite Heq. ring.
Qed.

Lemma sinvert_Some a b : sinvert a = Some b → a ≠ szero ∧ b = sinv a.
Proof.
  intros Hb. split; [|unfold sinv; by rewrite Hb].
  intros ->. by rewrite sinvert_zero in Hb.
Qed.

Lemma sinvert_sinv a : a ≠ szero → sinvert a = Some (sinv a).
Proof. intros (b & Hb & ?)%sinvert_nonzero. unfold sinv. by rewrite Hb. Qed.

Lemma snat_add n m : snat (F:=F) (n + m) = snat n + snat m.
Proof. induction n as [|n IH]; simpl; [ring|]. rewrite IH. ring. Qed.

Lemma snat_mul n m : snat (F:=F) (n * m) = snat n * snat m.
Proof. induction n as [|n IH]; simpl; [ring|]. rewrite snat_add, IH. ring. Qed.

Lemma is_zero_spec a : is_zero a = true ↔ a = szero.
Proof. unfold is_zero, ct_eq. apply bool_decide_eq_true. Qed.

(** [x^n], as the powers of an evaluation point. *)
Fixpoint spow (x : F) (n : nat) : F :=
  match n with O => 1 | S n => x * spow x n end.

Lemma spow_add x n m : spow x (n + m) = spow x n * spow x m.
Proof. induction n as [|n IH]; simpl; [ring|]. rewrite IH. ring. Qed.

Lemma spow_mul_l x y n : spow (x * y) n = spow x n * spow y n.
Proof. induction n as [|n IH]; simpl; [ring|]. rewrite IH. ring. Qed.

Lemma spow_nonzero x n : x ≠ szero → spow x n ≠ szero.
Proof.
  intros Hx. induction n as [|n IH]; simpl; [apply sone_neq_zero|].
  by apply smul_nonzero.
Qed.
End field.

(** ** Modules over the scalar field

    Shares are scalars and their public counterparts are group elements; the
    interpolation argument is the same for both, so it is carried out once in
    a module. *)
Class SModule (F M : Type) `{FieldOps F} := {
  mzero : M;
  madd : M → M → M;
  mscale : M → F → M;
  madd_comm P Q : madd P Q = madd Q P;
  madd_assoc P Q R : madd P (madd Q R) = madd (madd P Q) R;
  madd_0_l P : madd mzero P = P;
  mscale_add_l P Q a : mscale (madd P Q) a = madd (mscale P a) (mscale Q a);
  mscale_add_r P a b : mscale P (a + b) = madd (mscale P a) (mscale P b);
  mscale_mul P a b : mscale (mscale P a) b = mscale P (a * b);
  mscale_1 P : mscale P 1 = P;
  mscale_0 P : mscale P 0 = mzero;
}.

(** ** Group elements *)
Section group.
Context `{GroupModule}.
Implicit Types (P Q R : Element) (a : Scalar).

Lemma gadd_id_r P : P ⊞ identity = P.
Proof. by rewrite gadd_comm, gadd_id_l. Qed.

Lemma gadd_inv_r P : P ⊞ (identity ⊟ P) = identity.
Proof. by rewrite gadd_comm, gsub_add. Qed.

Lemma gadd_cancel_r P Q R : P ⊞ R = Q ⊞ R → P = Q.
Proof.
  intros Heq. apply (f_equal (λ X, X ⊞ (identity ⊟ R))) in Heq.
  by rewrite <-!gadd_assoc, gadd_inv_r, !gadd_id_r in Heq.
Qed.

Lemma gmul_0 P : P ⊠ 0 = identity.
Proof.
  apply (gadd_cancel_r _ _ (P ⊠ 0)).
  by rewrite gadd_id_l, <-gmul_add_r, sadd_0_l.
Qed.
End group.

#[export] Program Instance scalar_module F `{FieldLaws F} : SModule F F := {|
  mzero := szero; madd := sadd; mscale := smul;
|}.
Solve Obligations with
  intros; (apply sadd_comm || apply sadd_assoc || apply sadd_0_l
           || apply smul_add_distr_l || (symmetry; apply smul_assoc) || apply smul_1_r
           || apply smul_0_r || (rewrite !(smul_comm P); apply smul_add_distr_l)).

#[export] Program Instance element_module `{GroupModule} : SModule Scalar Element := {|
  mzero := identity; madd := gadd; mscale := gmul;
|}.
Solve Obligations with
  intros; (apply gadd_comm || apply gadd_assoc || apply gadd_id_l
           || apply gmul_add_l || apply gmul_add_r || apply gmul_mul || apply gmul_1
           || apply gmul_0).

Section smodule.
Context {F M : Type} `{FieldLaws F} {SM : SModule F M}.
Implicit Types (P Q R : M) (a b x : F).
Add Field smodule_field : (scalar_field_theory (F:=F)).

Lemma madd_0_r P : madd P mzero = P.
Proof. by rewrite madd_comm, madd_0_l. Qed.

Lemma madd_neg_r P : madd P (mscale P (- sone)) = mzero.
Proof.
  rewrite <-(mscale_1 P) at 1. rewrite <-mscale_add_r, sneg_r. apply mscale_0.
Qed.

Lemma madd_cancel_r P Q R : madd P R = madd Q R → P = Q.
Proof.
  intros Heq. apply (f_equal (λ X, madd X (mscale R (- sone)))) in Heq.
  by rewrite <-!madd_assoc, !madd_neg_r, !madd_0_r in Heq.
Qed.

Lemma mscale_mzero a : mscale mzero a = mzero.
Proof. rewrite <-(mscale_0 mzero) at 1. by rewrite mscale_mul, smul_0_l, mscale_0. Qed.

Lemma mscale_inj P a b : P ≠ mzero → mscale P a = mscale P b → a = b.
Proof.
  intros HP Heq. apply ssub_eq_0. destruct (decide (a - b = szero)) as [|Hab]; [done|].
  exfalso. apply HP.
  assert (Hz : mscale P (a - b) = mzero).
  { replace (a - b) with (a + b * - sone) by ring.
    by rewrite mscale_add_r, <-mscale_mul, Heq, madd_neg_r. }
  rewrite <-(mscale_1 P), <-(sinv_r _ Hab), <-mscale_mul, Hz. apply mscale_mzero.
Qed.

Lemma madd_interchange P Q R T :
  madd (madd P Q) (madd R T) = madd (madd P R) (madd Q T).
Proof.
  rewrite !madd_assoc. f_equal. rewrite <-!madd_assoc. f_equal. apply madd_comm.
Qed.

(** Sums over a list. *)
Definition msum {A} (f : A → M) (l : list A) : M :=
  foldr (λ i acc, madd (f i) acc) mzero l.

Lemma msum_app {A} (f : A → M) l1 l2 :
  msum f (l1 ++ l2) = madd (msum f l1) (msum f l2).
Proof.
  induction l1 as [|a l1 IH]; simpl; [by rewrite madd_0_l|].
  by rewrite IH, madd_assoc.
Qed.

Lemma msum_ext {A} (f g : A → M) l : (∀ i, i ∈ l → f i = g i) → msum f l = msum g l.
Proof.
  induction l as [|a l IH]; simpl; intros Hfg; [done|].
  rewrite Hfg, IH; [done| |left]. intros; apply Hfg; by right.
Qed.

Lemma msum_add {A} (f g : A → M) l :
  msum (λ i, madd (f i) (g i)) l = madd (msum f l) (msum g l).
Proof.
  induction l as [|a l IH]; simpl; [by rewrite madd_0_l|].
  by rewrite IH, madd_interchange.
Qed.

Lemma msum_scale {A} (f : A → M) l x :
  msum (λ i, mscale (f i) x) l = mscale (msum f l) x.
Proof.
  induction l as [|a l IH]; simpl; [by rewrite mscale_mzero|].
  by rewrite IH, mscale_add_l.
Qed.

Lemma msum_zero {A} (f : A → M) l : (∀ i, i ∈ l → f i = mzero) → msum f l = mzero.
Proof.
  intros Hf. rewrite (msum_ext _ (λ _, mzero)) by done.
  clear Hf. induction l; simpl; [done|]. by rewrite madd_0_l.
Qed.

Lemma msum_permute {A} (f : A → M) l1 l2 : l1 ≡ₚ l2 → msum f l1 = msum f l2.
Proof.
  induction 1; simpl; [done|congruence| |congruence].
  rewrite !madd_assoc. f_equal. apply madd_comm.
Qed.

Lemma msum_swap {A B} (f : A → B → M) la lb :
  msum (λ i, msum (f i) lb) la = msum (λ j, msum (λ i, f i j) la) lb.
Proof.
  induction la as [|a la IH]; simpl.
  - by rewrite (msum_zero (λ _, mzero)).
  - by rewrite IH, <-msum_add.
Qed.

Lemma msum_fmap {A B} (f : B → M) (g : A → B) l : msum f (g <$> l) = msum (f ∘ g) l.
Proof. induction l as [|i l IH]; csimpl; [done|]. by rewrite IH. Qed.

(** A sum with one nonzero term. *)
Lemma msum_single {A} (f : A → M) l i :
  NoDup l → i ∈ l → (∀ j, j ∈ l → j ≠ i → f j = mzero) → msum f l = f i.
Proof.
  induction 1 as [|j l Hj Hl IH]; [by intros []%elem_of_nil|].
  intros [->|Hi]%elem_of_cons Hz; simpl.
  - rewrite msum_zero, madd_0_r; [done|]. intros k Hk. apply Hz; [by right|].
    congruence.
  - rewrite (Hz j), madd_0_l; [|left|by intros ->]. apply IH; [done|].
    intros; apply Hz; [by right|done].
Qed.

(** Sums as the accumulation loops of the code. *)
Lemma msum_foldl {A} (f : A → M) l acc :
  foldl (λ acc i, madd acc (f i)) acc l = madd acc (msum f l).
Proof.
  revert acc. induction l as [|i l IH]; intros acc; simpl; [by rewrite madd_0_r|].
  by rewrite IH, madd_assoc.
Qed.
End smodule.

(** Linear maps preserve sums. *)
Lemma msum_linear {F M N A : Type} `{FieldLaws F} `{!SModule F M, !SModule F N}
    (h : M → N) (f : A → M) l :
  h mzero = mzero → (∀ P Q, h (madd P Q) = madd (h P) (h Q)) →
  h (msum f l) = msum (h ∘ f) l.
Proof.
  intros Hz Hadd. induction l as [|i l IH]; csimpl; [done|]. by rewrite Hadd, IH.
Qed.

(** ** More on group elements *)
Section group_more.
Context `{GroupModule}.
Implicit Types (P Q R : Element) (a b : Scalar).
Add Field group_field : (scalar_field_theory (F:=Scalar)).

Lemma gmul_identity a : identity ⊠ a = identity.
Proof. exact (mscale_mzero (SM:=element_module) a). Qed.

Lemma gsub_def P Q : P ⊟ Q = P ⊞ Q ⊠ (- sone).
Proof.
  apply (gadd_cancel_r _ _ Q). rewrite gsub_add, <-gadd_assoc.
  rewrite (gadd_comm (Q ⊠ _)).
  pose proof (madd_neg_r (SM:=element_module) Q) as HQ. simpl in HQ.
  by rewrite HQ, gadd_id_r.
Qed.

Lemma gneg_involutive P : identity ⊟ (identity ⊟ P) = P.
Proof. apply (gadd_cancel_r _ _ (identity ⊟ P)). by rewrite gsub_add, gadd_comm, gsub_add. Qed.

Lemma gsub_diag P : P ⊟ P = identity.
Proof. rewrite gsub_def. exact (madd_neg_r (SM:=element_module) P). Qed.

Lemma gadd_sub P Q : P ⊞ Q ⊟ Q = P.
Proof. apply (gadd_cancel_r _ _ Q). by rewrite gsub_add. Qed.

Lemma mul_generator_gmul a : mul_generator a = generator ⊠ a.
Proof. apply mul_generator_spec. Qed.

Lemma mul_generator_add a b :
  mul_generator (a + b) = mul_generator a ⊞ mul_generator b.
Proof. by rewrite !mul_generator_gmul, gmul_add_r. Qed.

Lemma mul_generator_sub a b :
  mul_generator (a - b) = mul_generator a ⊟ mul_generator b.
Proof.
  apply (gadd_cancel_r _ _ (mul_generator b)).
  by rewrite gsub_add, <-mul_generator_add, ssub_add.
Qed.

Lemma mul_generator_mul a b : mul_generator a ⊠ b = mul_generator (a * b).
Proof. by rewrite !mul_generator_gmul, gmul_mul. Qed.

Lemma mul_generator_0 : mul_generator 0 = identity.
Proof. by rewrite mul_generator_gmul, gmul_0. Qed.

(** A public key determines its secret. *)
Lemma mul_generator_inj a b : mul_generator a = mul_generator b → a = b.
Proof.
  rewrite !mul_generator_gmul.
  exact (mscale_inj (SM:=element_module) _ a b generator_neq_identity).
Qed.

Lemma is_identity_true P : is_identity P = true ↔ P = identity.
Proof. rewrite is_identity_spec. apply bool_decide_eq_true. Qed.
Lemma is_identity_false P : is_identity P = false ↔ P ≠ identity.
Proof. rewrite is_identity_spec. apply bool_decide_eq_false. Qed.

Lemma mul_generator_eq_identity a : mul_generator a = identity ↔ a = szero.
Proof.
  rewrite <-mul_generator_0. split; [apply mul_generator_inj | by intros ->].
Qed.
End group_more.
