(* ===== verification/Poly.v ===== *)
(** * Polynomials and Lagrange interpolation

    The mathematics behind sharing, reconstruction and the checks on public
    shares: polynomials with coefficients in a module, evaluated at scalars,
    and interpolation through distinct points. *)

From Stdlib Require Import ZArith Lia Field.
From stdpp Require Import prelude.
From S2P Require Import Prelude CoreError Group Algebra.

Local Open Scope golden_scope.

(** Evaluation of [C_0 + C_1 x + C_2 x^2 + ...]. *)
Definition meval {F M} `{SModule F M} (Cs : list M) (x : F) : M :=
  foldr (λ C acc, madd C (mscale acc x)) mzero Cs.

Section meval.
Context {F M : Type} `{FieldLaws F} {SM : SModule F M}.
Add Field meval_field : (scalar_field_theory (F:=F)).

Lemma meval_app (Cs Ds : list M) x :
  meval (Cs ++ Ds) x = madd (meval Cs x) (mscale (meval Ds x) (spow x (length Cs))).
Proof.
  induction Cs as [|C Cs IH]; simpl; [by rewrite madd_0_l, mscale_1|].
  by rewrite IH, mscale_add_l, madd_assoc, mscale_mul, (smul_comm _ x).
Qed.

Lemma meval_0 (Cs : list M) : meval Cs 0 = default mzero (head Cs).
Proof. destruct Cs as [|C Cs]; simpl; [done|]. by rewrite mscale_0, madd_0_r. Qed.

Lemma meval_zip_add (Cs Ds : list M) x :
  length Cs = length Ds →
  meval (zip_with madd Cs Ds) x = madd (meval Cs x) (meval Ds x).
Proof.
  revert Ds. induction Cs as [|C Cs IH]; intros [|D Ds] [=]; simpl.
  - by rewrite madd_0_l.
  - rewrite IH by done. by rewrite mscale_add_l, madd_interchange.
Qed.

Lemma meval_scale (Cs : list M) a x :
  meval ((λ C, mscale C a) <$> Cs) x = mscale (meval Cs x) a.
Proof.
  induction Cs as [|C Cs IH]; csimpl; [by rewrite mscale_mzero|].
  by rewrite IH, mscale_add_l, !mscale_mul, (smul_comm a x).
Qed.

Lemma meval_zeros n x : meval (replicate n mzero) x = mzero.
Proof. induction n as [|n IH]; simpl; [done|]. by rewrite IH, mscale_mzero, madd_0_l. Qed.

Lemma meval_msum {A} (f : A → list M) n l x :
  (∀ i, i ∈ l → length (f i) = n) →
  meval (foldr (λ i acc, zip_with madd (f i) acc) (replicate n mzero) l) x
  = msum (λ i, meval (f i) x) l.
Proof.
  induction l as [|i l IH]; simpl; intros Hn; [apply meval_zeros|].
  assert (Hl : length (foldr (λ i acc, zip_with madd (f i) acc) (replicate n mzero) l) = n).
  { clear IH. induction l as [|j l IH]; simpl; [apply length_replicate|].
    rewrite length_zip_with, IH, Hn; [lia|set_solver..]. }
  rewrite meval_zip_add by (rewrite Hl, Hn; [done|left]).
  rewrite IH; [done|]. intros; apply Hn; by right.
Qed.
End meval.

(** ** Small multiples

    The variable-time loop that two crates use to multiply by a participant's index:
    double, and add where the bit is set, from the highest bit down. *)
Section small_multiples.
Context {F M : Type} `{FieldLaws F} {SM : SModule F M}.
Add Field small_multiples_field : (scalar_field_theory (F:=F)).

Lemma mscale_double (P : M) n :
  madd (mscale P (snat n)) (mscale P (snat n)) = mscale P (snat (2 * n)).
Proof. rewrite <-mscale_add_r, snat_mul. f_equal. simpl. ring. Qed.

Lemma double_and_add_from (P : M) scalar n :
  (0 ≤ scalar)%Z →
  foldl (λ acc bit,
           let acc := madd acc acc in
           if (Z.land (Z.shiftr scalar bit) 1 =? 1)%Z then madd acc P else acc)
        (mscale P (snat (Z.to_nat (Z.shiftr scalar (Z.of_nat n)))))
        (reverse (seqZ 0 (Z.of_nat n)))
  = mscale P (snat (Z.to_nat scalar)).
Proof.
  intros Hs. induction n as [|n IH]; [by rewrite Z.shiftr_0_r|].
  rewrite seqZ_S, reverse_app, Nat2Z.inj_succ. cbn [reverse rev_append foldl app].
  rewrite <-IH. clear IH. cbv zeta. f_equal. rewrite mscale_double.
  set (v := Z.shiftr scalar (0 + Z.of_nat n)).
  change (Z.shiftr scalar (Z.of_nat n)) with v.
  assert (Hv : (0 ≤ v)%Z) by (apply Z.shiftr_nonneg; done).
  assert (Hd : Z.shiftr scalar (Z.succ (Z.of_nat n)) = (v / 2)%Z).
  { unfold v. rewrite !Z.shiftr_div_pow2, Z.pow_succ_r, Z.add_0_l by lia.
    rewrite Z.div_div by (try apply Z.pow_pos_nonneg; lia). f_equal. lia. }
  rewrite Hd. pose proof (Z.land_ones v 1 ltac:(done)) as Hl.
  change (Z.ones 1) with 1%Z in Hl. rewrite Hl. change (2 ^ 1)%Z with 2%Z.
  pose proof (Z.div_mod v 2 ltac:(done)). pose proof (Z.mod_pos_bound v 2 ltac:(done)).
  destruct (Z.eqb_spec (v mod 2) 1) as [E|E].
  - rewrite <-(mscale_1 P) at 2. rewrite <-mscale_add_r.
    replace (snat (2 * Z.to_nat (v / 2)) + 1) with (snat (F:=F) (S (2 * Z.to_nat (v / 2))))
      by (simpl; ring).
    do 2 f_equal. lia.
  - do 2 f_equal. lia.
Qed.

Lemma double_and_add (P : M) scalar :
  (0 < scalar)%Z →
  foldl (λ acc bit,
           let acc := madd acc acc in
           if (Z.land (Z.shiftr scalar bit) 1 =? 1)%Z then madd acc P else acc)
        mzero (reverse (seqZ 0 (Z.log2 scalar + 1)))
  = mscale P (snat (Z.to_nat scalar)).
Proof.
  intros Hs. pose proof (Z.log2_nonneg scalar). pose proof (Z.log2_spec scalar Hs).
  replace (Z.log2 scalar + 1)%Z with (Z.of_nat (Z.to_nat (Z.log2 scalar + 1))) by lia.
  rewrite <-(double_and_add_from P scalar (Z.to_nat (Z.log2 scalar + 1))) by lia. f_equal.
  rewrite Z2Nat.id, Z.shiftr_div_pow2, Z.div_small by lia. simpl. by rewrite mscale_0.
Qed.

(** Horner's rule from the last coefficient down. *)
Lemma horner_reverse (Cs : list M) x :
  foldl (λ acc C, madd (mscale acc x) C) mzero (reverse Cs) = meval Cs x.
Proof.
  induction Cs as [|C Cs IH]; [done|].
  rewrite reverse_cons, foldl_app. cbn [foldl meval foldr]. rewrite IH. apply madd_comm.
Qed.
End small_multiples.

(** ** Polynomial functions of bounded length *)
Section polyfun.
Context {F : Type} `{FieldLaws F}.
Implicit Types (a c x r : F) (f g : F → F).
Add Field polyfun_field : (scalar_field_theory (F:=F)).

Definition polyfun (n : nat) (g : F → F) : Prop :=
  ∃ cs : list F, length cs = n ∧ ∀ x, g x = meval cs x.

Lemma polyfun_ext n f g : (∀ x, f x = g x) → polyfun n f → polyfun n g.
Proof. intros Hfg (cs & Hn & Hf). exists cs. split; [done|]. intros. by rewrite <-Hfg. Qed.

Lemma polyfun_meval cs : polyfun (length cs) (meval cs).
Proof. by exists cs. Qed.

Lemma polyfun_weaken n m g : (n ≤ m)%nat → polyfun n g → polyfun m g.
Proof.
  intros Hnm (cs & <- & Hg). exists (cs ++ replicate (m - length cs) 0). split.
  - rewrite length_app, length_replicate. lia.
  - intros x. rewrite meval_app, Hg.
    replace (meval (replicate (m - length cs) 0) x) with (0 : F)
      by (symmetry; apply (meval_zeros (SM:=scalar_module F))).
    simpl. ring.
Qed.

Lemma polyfun_add n f g : polyfun n f → polyfun n g → polyfun n (λ x, f x + g x).
Proof.
  intros (cs & Hcs & Hf) (ds & Hds & Hg). exists (zip_with sadd cs ds). split.
  - rewrite length_zip_with. lia.
  - intros x. rewrite Hf, Hg. symmetry. apply (meval_zip_add (SM:=scalar_module F)). congruence.
Qed.

Lemma polyfun_scale n c g : polyfun n g → polyfun n (λ x, c * g x).
Proof.
  intros (cs & Hcs & Hg). exists ((λ d, d * c) <$> cs). split.
  - by rewrite length_fmap.
  - intros x. rewrite Hg, smul_comm. symmetry. apply (meval_scale (SM:=scalar_module F)).
Qed.

Lemma polyfun_0 n : polyfun n (λ _, 0).
Proof.
  exists (replicate n 0). split; [apply length_replicate|].
  intros x. symmetry. apply (meval_zeros (SM:=scalar_module F)).
Qed.

Lemma polyfun_const c : polyfun 1 (λ _, c).
Proof. exists [c]. split; [done|]. intros x. simpl. ring. Qed.

Lemma polyfun_mul_x n g : polyfun n g → polyfun (S n) (λ x, x * g x).
Proof.
  intros (cs & Hcs & Hg). exists (0 :: cs). split; [simpl; congruence|].
  intros x. simpl. rewrite Hg. ring.
Qed.

Lemma polyfun_mul_linear n r g : polyfun n g → polyfun (S n) (λ x, (x - r) * g x).
Proof.
  intros Hg.
  apply polyfun_ext with (λ x, x * g x + (- r) * g x); [intros; ring|].
  apply polyfun_add; [by apply polyfun_mul_x|].
  apply polyfun_scale, (polyfun_weaken n); [lia|done].
Qed.

Lemma polyfun_spow k : polyfun (S k) (λ x, spow x k).
Proof.
  induction k as [|k IH]; simpl; [apply polyfun_const|]. by apply polyfun_mul_x.
Qed.

Lemma polyfun_sum {A} n (f : A → F → F) l :
  (∀ i, i ∈ l → polyfun n (f i)) → polyfun n (λ x, msum (λ i, f i x) l).
Proof.
  induction l as [|i l IH]; simpl; intros Hf; [apply polyfun_0|].
  apply polyfun_add; [apply Hf; left|]. apply IH. intros; apply Hf; by right.
Qed.

(** Division by [x - r]. *)
Fixpoint quotient (cs : list F) (r : F) : list F :=
  match cs with
  | [] | [_] => []
  | _ :: cs => meval cs r :: quotient cs r
  end.

Lemma length_quotient cs r : length (quotient cs r) = pred (length cs).
Proof. induction cs as [|c [|c' cs] IH]; simpl in *; lia. Qed.

Lemma meval_quotient cs r x :
  meval cs x = (x - r) * meval (quotient cs r) x + meval cs r.
Proof.
  induction cs as [|c [|c' cs] IH]; [simpl; ring..|].
  change (meval (c :: c' :: cs) x) with (c + meval (c' :: cs) x * x).
  change (meval (c :: c' :: cs) r) with (c + meval (c' :: cs) r * r).
  change (quotient (c :: c' :: cs) r) with (meval (c' :: cs) r :: quotient (c' :: cs) r).
  change (meval (meval (c' :: cs) r :: quotient (c' :: cs) r) x)
    with (meval (c' :: cs) r + meval (quotient (c' :: cs) r) x * x).
  rewrite IH. ring.
Qed.

(** A polynomial with more distinct roots than its degree is zero. *)
Lemma polyfun_roots n g (xs : list F) :
  polyfun n g → NoDup xs → (n ≤ length xs)%nat → (∀ x, x ∈ xs → g x = 0) →
  ∀ x, g x = 0.
Proof.
  revert n g. induction xs as [|r xs IH]; intros n g (cs & Hcs & Hg) Hxs Hn Hroots x.
  { destruct cs; [by rewrite Hg|]. simpl in *. lia. }
  apply NoDup_cons in Hxs as [Hr Hxs].
  assert (Hgr : meval cs r = 0) by (rewrite <-Hg; apply Hroots; left).
  assert (Hq : ∀ y, g y = (y - r) * meval (quotient cs r) y).
  { intros y. rewrite Hg, (meval_quotient cs r y), Hgr. ring. }
  rewrite Hq. rewrite (IH (length (quotient cs r)) (meval (quotient cs r))).
  - ring.
  - apply polyfun_meval.
  - done.
  - rewrite length_quotient, Hcs. simpl in Hn. lia.
  - intros y Hy. specialize (Hroots y ltac:(by right)). rewrite Hq in Hroots.
    apply smul_integral in Hroots as [Hy0|]; [|done].
    apply ssub_eq_0 in Hy0 as ->. done.
Qed.

Lemma polyfun_unique n f g (xs : list F) :
  polyfun n f → polyfun n g → NoDup xs → (n ≤ length xs)%nat →
  (∀ x, x ∈ xs → f x = g x) → ∀ x, f x = g x.
Proof.
  intros Hf Hg Hxs Hn Heq x. apply ssub_eq_0.
  apply (polyfun_roots n (λ x, f x - g x) xs); [|done..|].
  - apply polyfun_ext with (λ x, f x + (- sone) * g x); [intros; ring|].
    by apply polyfun_add, polyfun_scale.
  - intros y Hy. by apply ssub_eq_0, Heq.
Qed.
(** Coefficients are determined by the values at as many points. *)
Lemma quotient_zero cs r :
  meval cs r = 0 → Forall (λ c, c = szero) (quotient cs r) → Forall (λ c, c = szero) cs.
Proof.
  induction cs as [|c [|c' cs] IH]; [constructor|..].
  - simpl. intros Hc _. constructor; [|constructor]. rewrite <-Hc. ring.
  - change (quotient (c :: c' :: cs) r) with (meval (c' :: cs) r :: quotient (c' :: cs) r).
    change (meval (c :: c' :: cs) r) with (c + meval (c' :: cs) r * r).
    intros Hc [Hr Hq]%Forall_cons. constructor; [|by apply IH].
    rewrite <-Hc, Hr. ring.
Qed.

Lemma coefficients_zero cs (xs : list F) :
  NoDup xs → (length cs ≤ length xs)%nat → (∀ x, x ∈ xs → meval cs x = 0) →
  Forall (λ c, c = szero) cs.
Proof.
  intros Hxs. revert cs. induction Hxs as [|r xs Hr _ IH]; intros cs Hlen Hroots.
  { destruct cs; [constructor|simpl in Hlen; lia]. }
  apply quotient_zero with r; [apply Hroots; left|].
  apply IH; [rewrite length_quotient; simpl in Hlen; lia|].
  intros x Hx. assert (Hv := Hroots x ltac:(by right)).
  rewrite (meval_quotient cs r x), (Hroots r ltac:(left)) in Hv.
  destruct (smul_integral (x - r) (meval (quotient cs r) x)) as [Hz|]; [|..|done].
  - rewrite <-Hv. ring.
  - apply ssub_eq_0 in Hz as ->. done.
Qed.

Lemma coefficients_unique cs ds (xs : list F) :
  length cs = length ds → NoDup xs → (length cs ≤ length xs)%nat →
  (∀ x, x ∈ xs → meval cs x = meval ds x) → cs = ds.
Proof.
  intros Hl Hxs Hn Heq.
  assert (Hneg : ∀ x, meval (zip_with ssub cs ds) x = meval cs x - meval ds x).
  { clear -Hl H0. revert ds Hl. induction cs as [|c cs IH]; intros [|d ds] [=] x; simpl;
      [ring|]. rewrite IH by done. ring. }
  pose proof (coefficients_zero (zip_with ssub cs ds) xs) as Hz.
  rewrite length_zip_with in Hz. specialize (Hz Hxs ltac:(lia)).
  assert (Hz' : Forall (λ c, c = szero) (zip_with ssub cs ds)).
  { apply Hz. intros x Hx. rewrite Hneg, Heq by done. apply ssub_diag. }
  clear -Hl Hz' H0. revert ds Hl Hz'. induction cs as [|c cs IH]; intros [|d ds] [=]; [done|].
  simpl. intros [Hcd Hz]%Forall_cons. apply ssub_eq_0 in Hcd as ->. f_equal. by apply IH.
Qed.

End polyfun.

(** ** The Lagrange basis *)
Section lagrange.
Context {F : Type} `{FieldLaws F}.
Implicit Types (x y : F) (xs : list F).
Add Field lagrange_field : (scalar_field_theory (F:=F)).

(** [prod_{j <> i} (x - x_j)]. *)
Definition lnum xs xi x : F :=
  foldr (λ xj acc, if decide (xj = xi) then acc else (x - xj) * acc) 1 xs.

(** [lambda_i(x)]. *)
Definition lbasis xs xi x : F := lnum xs xi x * sinv (lnum xs xi xi).

Lemma lnum_nonzero xs xi : lnum xs xi xi ≠ szero.
Proof.
  induction xs as [|xj xs IH]; simpl; [apply sone_neq_zero|].
  case_decide as Hj; [done|]. apply smul_nonzero; [|done].
  rewrite ssub_eq_0. congruence.
Qed.

Lemma lnum_root xs xi x : x ∈ xs → x ≠ xi → lnum xs xi x = 0.
Proof.
  induction xs as [|xj xs IH]; simpl; [by intros []%elem_of_nil|].
  intros [->|Hx]%elem_of_cons Hne; case_decide.
  - done.
  - rewrite ssub_diag. ring.
  - auto.
  - rewrite IH by done. ring.
Qed.

Lemma lnum_notin xs xi x : xi ∉ xs → lnum xs xi x = foldr (λ xj acc, (x - xj) * acc) 1 xs.
Proof.
  induction xs as [|xj xs IH]; simpl; [done|]. rewrite not_elem_of_cons.
  intros [? ?]. rewrite decide_False, IH by congruence. done.
Qed.

Lemma lnum_polyfun xs xi :
  NoDup xs → polyfun (if decide (xi ∈ xs) then length xs else S (length xs)) (lnum xs xi).
Proof.
  induction 1 as [|xj xs Hj Hxs IH]; simpl.
  - apply polyfun_const.
  - destruct (decide (xj = xi)) as [->|Hne].
    + rewrite decide_True by left. rewrite decide_False in IH by done.
      eapply polyfun_ext; [|apply IH]. intros x. simpl. by rewrite decide_True.
    + apply polyfun_ext with (λ x, (x - xj) * lnum xs xi x).
      { intros x. simpl. by rewrite decide_False. }
      destruct (decide (xi ∈ xs)) as [Hin|Hin].
      * rewrite decide_True by (by right). by apply polyfun_mul_linear.
      * rewrite decide_False by set_solver. by apply polyfun_mul_linear.
Qed.

Lemma lbasis_polyfun xs xi : NoDup xs → xi ∈ xs → polyfun (length xs) (lbasis xs xi).
Proof.
  intros Hxs Hi. pose proof (lnum_polyfun xs xi Hxs) as Hp.
  rewrite decide_True in Hp by done.
  apply polyfun_ext with (λ x, sinv (lnum xs xi xi) * lnum xs xi x).
  - intros x. unfold lbasis. ring.
  - by apply polyfun_scale.
Qed.

Lemma lbasis_same xs xi : lbasis xs xi xi = 1.
Proof. apply sinv_r, lnum_nonzero. Qed.

Lemma lbasis_other xs xi x : x ∈ xs → x ≠ xi → lbasis xs xi x = 0.
Proof. intros. unfold lbasis. rewrite lnum_root by done. ring. Qed.

(** [x^k = sum_i x_i^k lambda_i(x)] below the number of points. *)
Lemma lagrange_spow xs k x :
  NoDup xs → (k < length xs)%nat →
  msum (λ xi, spow xi k * lbasis xs xi x) xs = spow x k.
Proof.
  intros Hxs Hk. revert x.
  apply (polyfun_unique (length xs)) with (xs := xs); [| |done..|].
  - apply polyfun_sum. intros xi Hi. by apply polyfun_scale, lbasis_polyfun.
  - eapply polyfun_weaken; [|apply polyfun_spow]. lia.
  - intros y Hy. rewrite (msum_single _ _ y); [|done..|].
    + rewrite lbasis_same. ring.
    + intros xi Hi Hne. rewrite lbasis_other by done. apply smul_0_r.
Qed.

(** Interpolation of a module-valued polynomial. *)
Lemma lagrange_meval_gen {M} {SM : SModule F M} xs (Cs : list M) k x :
  NoDup xs → (k + length Cs ≤ length xs)%nat →
  msum (λ xi, mscale (meval Cs xi) (spow xi k * lbasis xs xi x)) xs
  = mscale (meval Cs x) (spow x k).
Proof.
  intros Hxs. revert k. induction Cs as [|C Cs IH]; intros k Hk; simpl in *.
  - rewrite mscale_mzero. apply msum_zero. intros. apply mscale_mzero.
  - rewrite (msum_ext _ (λ xi, madd (mscale C (spow xi k * lbasis xs xi x))
      (mscale (meval Cs xi) (spow xi (S k) * lbasis xs xi x)))).
    + rewrite msum_add, IH by lia. rewrite mscale_add_l, mscale_mul. f_equal.
      rewrite <-(lagrange_spow xs k x) by (done || lia).
      symmetry. apply (msum_linear (M:=F) (SModule0:=scalar_module F) (mscale C)); [apply mscale_0|].
      intros. apply mscale_add_r.
    + intros xi Hi. rewrite mscale_add_l, mscale_mul. do 2 f_equal. simpl. ring.
Qed.

Lemma lagrange_meval {M} {SM : SModule F M} xs (Cs : list M) x :
  NoDup xs → (length Cs ≤ length xs)%nat →
  msum (λ xi, mscale (meval Cs xi) (lbasis xs xi x)) xs = meval Cs x.
Proof.
  intros Hxs Hn. rewrite <-(mscale_1 (meval Cs x)).
  rewrite <-(lagrange_meval_gen xs Cs 0 x) by (done || lia).
  apply msum_ext. intros. simpl. f_equal. ring.
Qed.

Lemma meval_agree {M} {SM : SModule F M} xs (Cs Ds : list M) x :
  NoDup xs → (length Cs ≤ length xs)%nat → (length Ds ≤ length xs)%nat →
  (∀ y, y ∈ xs → meval Cs y = meval Ds y) → meval Cs x = meval Ds x.
Proof.
  intros Hxs HC HD Heq. rewrite <-(lagrange_meval xs Cs x), <-(lagrange_meval xs Ds x) by done.
  apply msum_ext. intros y Hy. by rewrite Heq.
Qed.

(** Conversely, values through [length xs] points are those of a polynomial
    with that many coefficients. *)
Lemma lagrange_exists {M} {SM : SModule F M} xs (v : F → M) :
  NoDup xs →
  ∃ Cs : list M, length Cs = length xs ∧
    ∀ x, meval Cs x = msum (λ xi, mscale (v xi) (lbasis xs xi x)) xs.
Proof.
  intros Hxs.
  assert (∃ f : F → list F, ∀ xi, xi ∈ xs →
      length (f xi) = length xs ∧ ∀ x, lbasis xs xi x = meval (f xi) x) as (f & Hf).
  { assert (Hsub : ∀ ys, ys ⊆ xs → ∃ f : F → list F, ∀ xi, xi ∈ ys →
        length (f xi) = length xs ∧ ∀ x, lbasis xs xi x = meval (f xi) x).
    { induction ys as [|y ys IH]; intros Hys.
      { exists (λ _, []). by intros xi []%elem_of_nil. }
      destruct IH as (f & Hf); [set_solver|].
      destruct (lbasis_polyfun xs y Hxs ltac:(set_solver)) as (cs & Hcs & Hy).
      exists (λ z, if decide (z = y) then cs else f z). intros xi Hi.
      case_decide; [by subst|]. apply Hf. set_solver. }
    by apply Hsub. }
  assert (Hscal : ∀ P (cs : list F) x,
    meval ((λ c, mscale P c) <$> cs) x = mscale P (meval cs x)).
  { intros P cs x. induction cs as [|c cs IH]; csimpl; [by rewrite mscale_0|].
    by rewrite IH, mscale_add_r, mscale_mul. }
  exists (foldr (λ xi acc, zip_with madd ((λ c, mscale (v xi) c) <$> f xi) acc)
            (replicate (length xs) mzero) xs).
  split.
  - assert (Hl : ∀ ys, ys ⊆ xs → length (foldr (λ xi acc,
      zip_with madd ((λ c, mscale (v xi) c) <$> f xi) acc)
            (replicate (length xs) mzero) ys) = length xs).
    { induction ys as [|y ys IH]; simpl; intros Hys; [apply length_replicate|].
      rewrite length_zip_with, length_fmap, IH by set_solver.
      rewrite (proj1 (Hf y ltac:(set_solver))). lia. }
    by apply Hl.
  - intros x. rewrite meval_msum.
    + apply msum_ext. intros xi Hi. rewrite Hscal. f_equal. symmetry. by apply Hf.
    + intros xi Hi. rewrite length_fmap. by apply Hf.
Qed.

(** The same for a list of values. *)
Lemma interpolant_exists {M} {SM : SModule F M} xs (vs : list M) :
  NoDup xs → length vs = length xs →
  ∃ Cs : list M, length Cs = length xs ∧ Forall2 (λ x v, meval Cs x = v) xs vs.
Proof.
  intros Hxs Hlen.
  assert (∃ v : F → M, Forall2 (λ x a, v x = a) xs vs) as [v Hv].
  { revert vs Hlen. induction xs as [|x xs IH]; intros [|a vs] [=].
    { exists (λ _, mzero). constructor. }
    apply NoDup_cons in Hxs as [Hx Hxs]. destruct (IH Hxs vs) as [v Hv]; [done|].
    exists (λ y, if decide (y = x) then a else v y). constructor; [by rewrite decide_True|].
    apply Forall2_same_length_lookup. split; [by eapply Forall2_length|].
    intros i y b Hy Hb.
    rewrite decide_False; [exact (Forall2_lookup_lr _ _ _ i _ _ Hv Hy Hb)|].
    intros ->. apply Hx. by eapply list_elem_of_lookup_2. }
  destruct (lagrange_exists xs v Hxs) as (Cs & Hl & Hev). exists Cs. split; [done|].
  apply Forall2_same_length_lookup. split; [done|]. intros i x a Hx Ha.
  pose proof (list_elem_of_lookup_2 _ _ _ Hx) as Hin. rewrite Hev, (msum_single _ xs x).
  - rewrite lbasis_same, mscale_1. exact (Forall2_lookup_lr _ _ _ i _ _ Hv Hx Ha).
  - done.
  - done.
  - intros y Hy Hne. rewrite lbasis_other by done. apply mscale_0.
Qed.

(** The accumulation loop over values and coefficients. *)
Lemma lagrange_zip {M} {SM : SModule F M} xs (Cs : list M) x :
  NoDup xs → (length Cs ≤ length xs)%nat →
  foldl (λ acc '(v, c), madd acc (mscale v c)) mzero
        (zip (meval Cs <$> xs) ((λ xi, lbasis xs xi x) <$> xs)) = meval Cs x.
Proof.
  intros Hxs Hn. rewrite <-(lagrange_meval xs Cs x), <-(madd_0_l (msum _ _)) by done.
  rewrite <-msum_foldl, zip_with_fmap_l, zip_with_fmap_r, zip_with_diag.
  generalize (mzero (M:=M)). clear Hxs Hn. generalize (lbasis xs) as b. intros b.
  induction xs as [|y xs IH]; intros acc; csimpl; [done|]. apply IH.
Qed.
End lagrange.
