(* ===== verification/TestSupport.v ===== *)
(** * The finite test backend (test_support.rs)

    [TinyScalar] is the field of 97 elements and [TinyGroup] its additive
    group.  The code's own tests run on it; here it is the concrete instance
    at which the hypotheses of the general theorems are discharged. *)

From Stdlib Require Import ZArith Lia Strings.Byte Eqdep_dec.
From stdpp Require Import prelude strings list_numbers.
From S2P Require Import Prelude CoreError Group.

Local Open Scope Z_scope.

Definition MODULUS : Z := 97.

(** The field of the Rust struct is private and every constructor reduces, so
    the range is part of the type. *)
Definition tiny_range (v : Z) : bool := (0 <=? v) && (v <? MODULUS).

Record TinyScalar := Tiny { tiny_val : Z; tiny_ok : tiny_range tiny_val = true }.

Definition reduce (value : Z) : TinyScalar :=
  match Bool.bool_dec (tiny_range (value `mod` MODULUS)) true with
  | left ok => Tiny (value `mod` MODULUS) ok
  | right _ => Tiny 0 eq_refl
  end.

Arguments reduce : simpl never.

Lemma tiny_eq (x y : TinyScalar) : tiny_val x = tiny_val y → x = y.
Proof.
  destruct x as [x Hx], y as [y Hy]. simpl. intros ->.
  f_equal. apply UIP_dec, Bool.bool_dec.
Qed.

Lemma tiny_val_range (x : TinyScalar) : 0 ≤ tiny_val x < 97.
Proof. destruct x as [x Hx]. unfold tiny_range, MODULUS in Hx. simpl. lia. Qed.

Lemma tiny_val_reduce z : tiny_val (reduce z) = z `mod` 97.
Proof.
  unfold reduce. destruct (Bool.bool_dec _ _) as [|Hn]; [done|].
  exfalso. apply Hn. unfold tiny_range, MODULUS.
  pose proof (Z.mod_pos_bound z 97). lia.
Qed.

Lemma reduce_tiny_val x : reduce (tiny_val x) = x.
Proof.
  apply tiny_eq. rewrite tiny_val_reduce. apply Z.mod_small, tiny_val_range.
Qed.

#[export] Instance tiny_eq_dec : EqDecision TinyScalar.
Proof.
  intros x y. destruct (decide (tiny_val x = tiny_val y)) as [E|E].
  - left. by apply tiny_eq.
  - right. congruence.
Defined.

(** The inverse is found by trying every candidate. *)
Definition tiny_mul (x y : TinyScalar) : TinyScalar := reduce (tiny_val x * tiny_val y).

Definition tiny_invert (x : TinyScalar) : option TinyScalar :=
  if decide (tiny_val x = 0) then None
  else List.find (λ c, bool_decide (tiny_mul x c = reduce 1)) (reduce <$> seqZ 1 96).

Definition tiny_to_repr (x : TinyScalar) : byte := byte_of_Z (tiny_val x).

Definition tiny_from_repr (repr : byte) : Result TinyScalar :=
  if decide (byte_to_Z repr < MODULUS) then Ok (reduce (byte_to_Z repr))
  else Err InvalidEncoding.

(** [[u8; 1]: TryFrom<Vec<u8>>]. *)
Definition array1_try_from (bs : list byte) : option byte :=
  match bs with [c] => Some c | _ => None end.

Definition TinyScalar_field_ops : FieldOps TinyScalar := {|
  szero := reduce 0;
  sone := reduce 1;
  srandom := λ R rng st, let '(v, st) := next_u32 st in (reduce v, st);
  sadd := λ x y, reduce (tiny_val x + tiny_val y);
  ssub := λ x y, reduce (MODULUS + tiny_val x - tiny_val y);
  smul := tiny_mul;
  sneg := λ x, reduce (MODULUS + tiny_val (reduce 0) - tiny_val x);
  sinvert := tiny_invert;
|}.

#[export] Instance TinyScalar_ops : GoldenScalar TinyScalar := {|
  golden_field_ops := TinyScalar_field_ops;
  Repr := byte;
  repr_as_ref := λ r, [r];
  repr_try_from := array1_try_from;
  REPR_BYTES := 1;
  from_u64 := λ value, Ok (reduce value);
  to_repr := tiny_to_repr;
  from_repr := tiny_from_repr;
  smodulus := byte_of_Z MODULUS;
  repr_byte_order := BigEndian;
|}.

#[export] Instance TinyGroup : GoldenGroup := {|
  Scalar := TinyScalar;
  Element := TinyScalar;
  ElementRepr := byte;
  element_as_ref := λ r, [r];
  element_try_from := array1_try_from;
  ELEMENT_REPR_BYTES := 1;
  BACKEND_ID := bstr "golden-test-tiny-v1";
  generator := reduce 1;
  identity := reduce 0;
  gadd := sadd;
  gsub := ssub;
  gmul := smul;
  mul_generator := λ a, smul (reduce 1) a;
  is_identity := λ x, is_zero x;
  encode_element := tiny_to_repr;
  decode_element := tiny_from_repr;
|}.

(** ** The laws hold *)
Lemma tiny_invert_spec (a : TinyScalar) :
  a ≠ reduce 0 → ∃ c, tiny_invert a = Some c ∧ tiny_mul c a = reduce 1.
Proof.
  intros Ha.
  assert (Hall : forallb (λ a, match tiny_invert a with
                             | Some c => bool_decide (tiny_mul c a = reduce 1)
                             | None => false end) (reduce <$> seqZ 1 96) = true)
    by (vm_compute; reflexivity).
  rewrite forallb_forall in Hall.
  assert (Hin : In a (reduce <$> seqZ 1 96)).
  { apply list_elem_of_In, list_elem_of_fmap. exists (tiny_val a).
    split; [by rewrite reduce_tiny_val|]. apply elem_of_seqZ.
    pose proof (tiny_val_range a).
    assert (tiny_val a ≠ 0); [|lia].
    intros Hz. apply Ha, tiny_eq. by rewrite Hz. }
  specialize (Hall a Hin). destruct (tiny_invert a) as [c|]; [|done].
  exists c. split; [done|]. by apply bool_decide_eq_true in Hall.
Qed.

#[export] Instance TinyScalar_laws : FieldLaws TinyScalar.
Proof.
  split.
  - intros a c. apply tiny_eq. simpl. by rewrite Z.add_comm.
  - intros a c d. apply tiny_eq. simpl. rewrite !tiny_val_reduce.
    rewrite Zplus_mod_idemp_r, Zplus_mod_idemp_l. f_equal. lia.
  - intros a. apply tiny_eq. simpl. rewrite !tiny_val_reduce. apply Z.mod_small, tiny_val_range.
  - intros a c. apply tiny_eq. simpl. unfold tiny_mul. by rewrite Z.mul_comm.
  - intros a c d. apply tiny_eq. simpl. unfold tiny_mul. rewrite !tiny_val_reduce.
    rewrite Zmult_mod_idemp_r, Zmult_mod_idemp_l. f_equal. lia.
  - intros a. apply tiny_eq. simpl. unfold tiny_mul. rewrite !tiny_val_reduce.
    rewrite Zmult_mod_idemp_l, Z.mul_1_l. apply Z.mod_small, tiny_val_range.
  - intros a c d. apply tiny_eq. simpl. unfold tiny_mul. rewrite !tiny_val_reduce.
    rewrite Zmult_mod_idemp_l, <-Zplus_mod. f_equal. lia.
  - intros a c. apply tiny_eq. simpl. rewrite !tiny_val_reduce.
    rewrite Zplus_mod_idemp_r. f_equal. unfold MODULUS. change (0 `mod` 97) with 0. lia.
  - intros a. apply tiny_eq. simpl. rewrite !tiny_val_reduce, Zplus_mod_idemp_r.
    unfold MODULUS. change (0 `mod` 97) with 0.
    replace (tiny_val a + (97 + 0 - tiny_val a)) with (1 * 97) by lia.
    by rewrite Z.mod_mul.
  - intros E. apply (f_equal tiny_val) in E. vm_compute in E. discriminate.
  - reflexivity.
  - apply tiny_invert_spec.
Qed.

#[export] Instance TinyScalar_field : ScalarField TinyScalar.
Proof.
  split; [exact TinyScalar_laws|].
  - intros v s Hv [= <-]. apply tiny_eq. rewrite tiny_val_reduce.
    rewrite <-(Z2Nat.id v) at 1 by done. generalize (Z.to_nat v) as n. clear Hv v.
    induction n as [|n IH]; [done|].
    assert (tiny_val (snat (F:=TinyScalar) (S n))
            = (tiny_val (reduce 1) + tiny_val (snat (F:=TinyScalar) n)) `mod` 97) as ->
      by apply tiny_val_reduce.
    rewrite <-IH, tiny_val_reduce, <-Zplus_mod, Nat2Z.inj_succ. f_equal. lia.
Qed.

#[export] Instance TinyGroup_module : GroupModule.
Proof.
  pose proof TinyScalar_laws as HF. split.
  - exact TinyScalar_field.
  - exact (@sadd_comm _ _ HF).
  - exact (@sadd_assoc _ _ HF).
  - exact (@sadd_0_l _ _ HF).
  - intros P Q. apply tiny_eq. simpl. rewrite !tiny_val_reduce, Zplus_mod_idemp_l.
    unfold MODULUS. replace (97 + tiny_val P - tiny_val Q + tiny_val Q)
      with (tiny_val P + 1 * 97) by lia.
    rewrite Z.mod_add by lia. apply Z.mod_small, tiny_val_range.
  - exact (@smul_add_distr_l _ _ HF).
  - intros P a c. pose proof (@smul_add_distr_l _ _ HF a c P) as E.
    rewrite !(@smul_comm _ _ HF _ P) in E. exact E.
  - intros P a c. exact (eq_sym (@smul_assoc _ _ HF P a c)).
  - intros P. exact (eq_trans (@smul_comm _ _ HF P sone) (@smul_1_l _ _ HF P)).
  - done.
  - done.
  - intros E. apply (f_equal tiny_val) in E. vm_compute in E. discriminate.
Qed.

Lemma tiny_from_to_repr x : tiny_from_repr (tiny_to_repr x) = Ok x.
Proof.
  unfold tiny_from_repr, tiny_to_repr. pose proof (tiny_val_range x).
  rewrite byte_to_of_Z, Z.mod_small by lia. unfold MODULUS.
  rewrite decide_True by lia. by rewrite reduce_tiny_val.
Qed.

Lemma tiny_to_from_repr r x : tiny_from_repr r = Ok x → tiny_to_repr x = r.
Proof.
  unfold tiny_from_repr, tiny_to_repr, MODULUS. case_decide; [|done]. intros [= <-].
  pose proof (byte_to_Z_range r). rewrite tiny_val_reduce, Z.mod_small by lia.
  apply byte_of_to_Z.
Qed.

Lemma array1_try_from_Some bs r : array1_try_from bs = Some r → [r] = bs.
Proof. destruct bs as [|c [|??]]; naive_solver. Qed.

#[export] Instance TinyScalar_codec : ScalarCodec TinyScalar.
Proof.
  split; simpl.
  - by vm_compute.
  - done.
  - apply array1_try_from_Some.
  - done.
  - apply tiny_from_to_repr.
  - apply tiny_to_from_repr.
Qed.

#[export] Instance TinyGroup_codec : GroupCodec.
Proof.
  split; simpl.
  - apply TinyScalar_codec.
  - by vm_compute.
  - by vm_compute.
  - done.
  - apply array1_try_from_Some.
  - done.
  - apply tiny_from_to_repr.
  - apply tiny_to_from_repr.
Qed.

(** ** Concrete external services for the witnesses *)

(** A 32-byte digest: one byte of a rolling sum, repeated. *)
Definition toy_digest (m : list byte) : list byte :=
  replicate 32 (byte_of_Z (foldl (λ acc c, (acc * 31 + byte_to_Z c + 1) `mod` 251) 7 m)).

#[export] Instance toy_sha256 : Sha256 := {| sha256 := toy_digest |}.

#[export] Instance toy_sha256_laws : Sha256Laws.
Proof. split. intros m. simpl. reflexivity. Qed.

(** A linear congruential generator. *)
Definition toy_next (st : Z) : Z * Z :=
  let st := (st * 1103515245 + 12345) `mod` 2147483648 in (st `div` 8, st).

#[export] Instance toy_rng : CryptoRngCore Z := {|
  fill_bytes := λ n st, let '(v, st) := toy_next st in (to_be_bytes n v, st);
  next_u32 := toy_next;
|}.

#[export] Instance toy_hash_to_group : GoldenHashToGroup := {|
  hash_to_group := λ domain message, hash_to_scalar domain message;
|}.

(** Shorthand for concrete scalars. *)
Definition tiny (z : Z) : TinyScalar := reduce z.
