(* ===== verification/Participant.v ===== *)
(** * Participant identifiers (participant.rs)

    Indexes, their constructor's guard and the interpolation point of an
    index. *)

From Stdlib Require Import ZArith Lia.
From stdpp Require Import prelude.
From S2P Require Import Prelude BTree CoreError Group.

Local Open Scope Z_scope.

(** The wrapped [u32]. *)
Record ParticipantIndex := MkParticipantIndex { pi_get : Z }.

#[export] Instance ParticipantIndex_eq_dec : EqDecision ParticipantIndex.
Proof. solve_decision. Defined.

Lemma pi_get_inj p q : pi_get p = pi_get q → p = q.
Proof. destruct p, q. simpl. congruence. Qed.

(** The derived [Ord] compares the wrapped integer. *)
#[export, refine] Instance ParticipantIndex_key : OrdKey ParticipantIndex :=
  {| key := pi_get |}.
Proof. exact pi_get_inj. Defined.

Definition ParticipantIndex_new (value : Z) : Result ParticipantIndex :=
  if value =? 0 then Err ZeroParticipantIndex else Ok (MkParticipantIndex value).

Definition to_scalar {F} `{GoldenScalar F} (p : ParticipantIndex) : Result F :=
  from_u64 (pi_get p).

(** The type invariant: a nonzero [u32]. *)
Definition participant_wf (p : ParticipantIndex) : Prop := 0 < pi_get p ≤ u32_MAX.

#[export] Instance participant_wf_dec p : Decision (participant_wf p).
Proof. unfold participant_wf. apply _. Defined.

Lemma ParticipantIndex_new_Ok v p :
  ParticipantIndex_new v = Ok p ↔ v ≠ 0 ∧ p = MkParticipantIndex v.
Proof. unfold ParticipantIndex_new. destruct (Z.eqb_spec v 0); naive_solver. Qed.

Lemma ParticipantIndex_new_wf v p :
  is_u32 v → ParticipantIndex_new v = Ok p → participant_wf p ∧ pi_get p = v.
Proof.
  intros Hv [Hn ->]%ParticipantIndex_new_Ok. unfold participant_wf, is_u32 in *. simpl. lia.
Qed.

Lemma ParticipantIndex_new_get p :
  participant_wf p → ParticipantIndex_new (pi_get p) = Ok p.
Proof. intros Hp. apply ParticipantIndex_new_Ok. destruct p. unfold participant_wf in Hp.
  simpl in *. split; [lia|done]. Qed.

Lemma to_scalar_snat {F} `{ScalarField F} p (s : F) :
  participant_wf p → to_scalar p = Ok s → s = snat (Z.to_nat (pi_get p)).
Proof. intros Hp. apply from_u64_spec. unfold participant_wf in Hp. lia. Qed.
