(* ===== verification/Shamir.v ===== *)
(** * Shamir secret sharing (shamir.rs)

    Polynomials, shares, and reconstruction by Lagrange interpolation at zero
    with one batched inversion. *)

From Stdlib Require Import ZArith Lia Field.
From stdpp Require Import prelude.
From S2P Require Import Prelude BTree CoreError Group Algebra Poly Participant TestSupport.

Local Open Scope golden_scope.

Record Share (F : Type) := MkShare {
  share_participant : ParticipantIndex;
  share_value : F;
}.
Arguments MkShare {_} _ _.
Arguments share_participant {_} _.
Arguments share_value {_} _.

(** A polynomial is its coefficient list, constant term first; the
    constructors refuse an empty one. *)
Record Polynomial (F : Type) := MkPolynomial { coefficients : list F }.
Arguments MkPolynomial {_} _.
Arguments coefficients {_} _.

Definition polynomial_wf {F} (poly : Polynomial F) : Prop := coefficients poly ≠ [].

Section ops.
Context {F : Type} `{GoldenScalar F}.

(** [for _ in 1..threshold { coefficients.push(S::random(rng)) }]. *)
Fixpoint random_scalars `{CryptoRngCore R} (n : nat) (rng : R) : list F * R :=
  match n with
  | O => ([], rng)
  | S n =>
      let '(c, rng) := srandom rng in
      let '(cs, rng) := random_scalars n rng in
      (c :: cs, rng)
  end.

Definition random_with_secret `{CryptoRngCore R} (secret : F) (threshold : Z)
    (rng : R) : Result (Polynomial F) * R :=
  if (threshold =? 0)%Z then (Err (InvalidThreshold threshold 0), rng)
  else
    let '(cs, rng) := random_scalars (Z.to_nat (threshold - 1)) rng in
    (Ok (MkPolynomial (secret :: cs)), rng).

Definition Polynomial_from_coefficients (cs : list F) : Result (Polynomial F) :=
  match cs with
  | [] => Err (InvalidThreshold 0 0)
  | _ => Ok (MkPolynomial cs)
  end.

Definition evaluate_at_scalar (poly : Polynomial F) (x : F) : F :=
  foldl (λ result coeff, result * x + coeff) 0 (reverse (coefficients poly)).

Definition evaluate (poly : Polynomial F) (participant : ParticipantIndex)
    : Result (Share F) :=
  x ← to_scalar participant;
  Ok (MkShare participant (evaluate_at_scalar poly x)).

Fixpoint ensure_unique_loop (seen : list (Z * unit)) (ps : list ParticipantIndex)
    : Result unit :=
  match ps with
  | [] => Ok tt
  | p :: ps =>
      let '(new, seen) := BTreeSet.insert (pi_get p) seen in
      if negb new then Err (DuplicateParticipantIndex (pi_get p))
      else ensure_unique_loop seen ps
  end.
Definition ensure_unique_participants (ps : list ParticipantIndex) : Result unit :=
  ensure_unique_loop [] ps.

Definition shares (poly : Polynomial F) (ps : list ParticipantIndex)
    : Result (list (Share F)) :=
  _ ← ensure_unique_participants ps; traverse (evaluate poly) ps.

(** Montgomery's trick on a mutable slice: the second component is the
    content of the slice when the function returns. *)
Definition batch_invert (values : list F) : option unit * list F :=
  match values with
  | [] => (Some tt, values)
  | _ =>
      let '(prefix, acc) :=
        foldl (λ '(prefix, acc) value, (prefix ++ [acc], acc * value)) ([], 1) values in
      match sinvert acc with
      | None => (None, values)
      | Some acc_inv =>
          let '(_, out) :=
            foldr (λ '(value, prefix_product) '(acc_inv, out),
                     (acc_inv * value, acc_inv * prefix_product :: out))
                  (acc_inv, []) (zip values prefix) in
          (Some tt, out)
      end
  end.

(** The numerator and denominator of the coefficient of [xs[i] = xi]. *)
Definition lagrange_fraction (xs : list F) (i : nat) (xi : F) : F * F :=
  foldl (λ '(numerator, denominator) '(j, xj),
           if Nat.eqb i j then (numerator, denominator)
           else (numerator * - xj, denominator * (xi - xj)))
        (1, 1) (imap pair xs).

Definition lagrange_coefficients_at_zero (xs : list F) : Result (list F) :=
  let numerators := imap (λ i xi, (lagrange_fraction xs i xi).1) xs in
  let denominators := imap (λ i xi, (lagrange_fraction xs i xi).2) xs in
  let '(inverted, denominators) := batch_invert denominators in
  _ ← ok_or NonInvertibleDenominator inverted;
  Ok (zip_with (λ numerator inverse, numerator * inverse) numerators denominators).

Definition lagrange_interpolate_at_zero (shares : list (Share F)) : Result F :=
  match shares with
  | [] => Err (InvalidThreshold 0 0)
  | _ =>
      let participants := share_participant <$> shares in
      _ ← ensure_unique_participants participants;
      xs ← traverse (λ share, to_scalar (share_participant share)) shares;
      coefficients ← lagrange_coefficients_at_zero xs;
      Ok (foldl (λ result '(share, coefficient),
                   result + share_value share * coefficient)
                0 (zip shares coefficients))
  end.

Definition reconstruct_secret (shares : list (Share F)) (threshold : Z) : Result F :=
  if (threshold =? 0)%Z || (len shares <? threshold)%Z
  then Err (InvalidThreshold threshold (len shares))
  else lagrange_interpolate_at_zero shares.
End ops.

(** ** Evaluation *)
Section evaluate.
Context {F : Type} `{ScalarField F}.
Add Field shamir_field : (scalar_field_theory (F:=F)).

Lemma evaluate_at_scalar_meval (poly : Polynomial F) x :
  evaluate_at_scalar poly x = meval (coefficients poly) x.
Proof.
  unfold evaluate_at_scalar. induction (coefficients poly) as [|c cs IH]; [done|].
  rewrite reverse_cons, foldl_app. simpl. rewrite IH. ring.
Qed.

Lemma evaluate_Ok (poly : Polynomial F) p sh :
  evaluate poly p = Ok sh ↔
  share_participant sh = p ∧
  to_scalar p ≫= (λ x, Ok (meval (coefficients poly) x)) = Ok (share_value sh).
Proof.
  unfold evaluate. destruct (to_scalar p) as [x|e]; csimpl; [|naive_solver].
  rewrite evaluate_at_scalar_meval. destruct sh. naive_solver.
Qed.

Lemma random_scalars_length `{CryptoRngCore R} n (rng : R) :
  length (random_scalars (F:=F) n rng).1 = n.
Proof.
  revert rng. induction n as [|n IH]; intros rng; simpl; [done|].
  destruct (srandom rng) as [c rng']. specialize (IH rng').
  destruct (random_scalars n rng'). simpl in *. congruence.
Qed.

Lemma random_with_secret_Ok `{CryptoRngCore R} (secret : F) t (rng : R) :
  (0 < t)%Z → ∃ cs rng',
    random_with_secret secret t rng = (Ok (MkPolynomial (secret :: cs)), rng') ∧
    Z.of_nat (length (secret :: cs)) = t.
Proof.
  intros Ht. unfold random_with_secret. rewrite (proj2 (Z.eqb_neq t 0)) by lia.
  pose proof (random_scalars_length (Z.to_nat (t - 1)) rng) as Hl.
  destruct (random_scalars _ _) as [cs rng']. simpl in Hl. exists cs, rng'.
  split; [done|]. simpl length. lia.
Qed.
End evaluate.

(** ** The uniqueness check *)
Lemma ensure_unique_loop_Ok seen ps :
  ensure_unique_loop seen ps = Ok () ↔
  NoDup ps ∧ ∀ p, p ∈ ps → BTreeSet.contains (pi_get p) seen = false.
Proof.
  revert seen. induction ps as [|p ps IH]; intros seen; cbn [ensure_unique_loop].
  { split; [|done]. intros _. split; [constructor|]. by intros p Hp%elem_of_nil. }
  unfold BTreeSet.insert at 1. cbn [fst snd].
  destruct (BTreeSet.contains (pi_get p) seen) eqn:Hp; simpl.
  { split; [done|]. intros [_ Hc]. rewrite Hc in Hp; [done|left]. }
  pose proof (λ k, BTreeSet.contains_insert (pi_get p) k seen) as Hins. simpl in Hins.
  rewrite IH, NoDup_cons. split.
  - intros [Hnd Hc]. split; [split; [|done]|].
    + intros Hin. apply Hc in Hin. apply not_true_iff_false in Hin. apply Hin, Hins. by left.
    + intros q [->|Hq]%elem_of_cons; [done|]. apply Hc in Hq.
      apply not_true_iff_false in Hq. apply not_true_iff_false. rewrite Hins in Hq. tauto.
  - intros [[Hn Hnd] Hc]. split; [done|]. intros q Hq.
    apply not_true_iff_false. rewrite Hins. intros [E|E].
    + apply pi_get_inj in E as ->. done.
    + rewrite Hc in E; [done|by right].
Qed.

Lemma ensure_unique_Ok ps : ensure_unique_participants ps = Ok () ↔ NoDup ps.
Proof.
  unfold ensure_unique_participants. rewrite ensure_unique_loop_Ok.
  split; [tauto|]. intros; split; [done|]. by intros.
Qed.

Lemma ensure_unique_loop_Err seen ps e :
  ensure_unique_loop seen ps = Err e →
  ∃ p, p ∈ ps ∧ e = DuplicateParticipantIndex (pi_get p).
Proof.
  revert seen. induction ps as [|p ps IH]; intros seen; simpl; [done|].
  destruct (negb _); [intros [= <-]; exists p; split; [left|done]|].
  intros (q & Hq & ->)%IH. exists q. split; [by right|done].
Qed.

(** ** Batch inversion *)
Section batch_invert.
Context {F : Type} `{ScalarField F}.
Add Field binv_field : (scalar_field_theory (F:=F)).

Fixpoint prefixes (acc : F) (vs : list F) : list F :=
  match vs with [] => [] | v :: vs => acc :: prefixes (acc * v) vs end.
Definition product (acc : F) (vs : list F) : F := foldl smul acc vs.

Lemma batch_invert_prefix vs pre acc :
  foldl (λ '(prefix, acc) value, (prefix ++ [acc], acc * value)) (pre, acc) vs
  = (pre ++ prefixes acc vs, product acc vs).
Proof.
  revert pre acc. induction vs as [|v vs IH]; intros pre acc; simpl.
  - by rewrite app_nil_r.
  - by rewrite IH, <-app_assoc.
Qed.

Lemma product_nonzero acc vs :
  product acc vs ≠ szero ↔ acc ≠ szero ∧ Forall (λ v, v ≠ szero) vs.
Proof.
  revert acc. induction vs as [|v vs IH]; intros acc; simpl.
  - split; [|tauto]. intros; split; [done|constructor].
  - rewrite IH, Forall_cons. split.
    + intros [Hav Hvs]. repeat split; [..|done]; intros ->; apply Hav; ring.
    + intros (? & ? & ?). split; [by apply smul_nonzero|done].
Qed.

Lemma sinv_smul a b : a ≠ szero → b ≠ szero → sinv (a * b) * a = sinv b.
Proof. intros. field. done. Qed.

Lemma batch_invert_back vs acc :
  acc ≠ szero → Forall (λ v, v ≠ szero) vs →
  foldr (λ '(value, prefix_product) '(acc_inv, out),
           (acc_inv * value, acc_inv * prefix_product :: out))
        (sinv (product acc vs), []) (zip vs (prefixes acc vs))
  = (sinv acc, sinv <$> vs).
Proof.
  revert acc. induction vs as [|v vs IH]; intros acc Hacc Hvs; [done|].
  apply Forall_cons in Hvs as [Hv Hvs]. csimpl.
  change (product acc (v :: vs)) with (product (acc * v) vs).
  rewrite IH by (done || by apply smul_nonzero).
  rewrite (sinv_smul acc v) by done. by rewrite (smul_comm acc v), (sinv_smul v acc).
Qed.

Lemma batch_invert_spec values :
  batch_invert values =
  if decide (Forall (λ v, v ≠ szero) values)
  then (Some (), sinv <$> values) else (None, values).
Proof.
  destruct values as [|v vs]; [by rewrite decide_True|].
  cbn [batch_invert]. rewrite (batch_invert_prefix (v :: vs) [] 1), app_nil_l.
  destruct (decide (product 1 (v :: vs) = szero)) as [Hz|Hz].
  - rewrite Hz, sinvert_zero, decide_False; [done|]. intros Hall.
    apply (proj2 (product_nonzero 1 (v :: vs))) in Hz; [done|].
    split; [apply sone_neq_zero|done].
  - rewrite (sinvert_sinv _ Hz). apply product_nonzero in Hz as [Ho Hall].
    by rewrite decide_True, batch_invert_back.
Qed.
End batch_invert.

(** ** Lagrange coefficients *)
Section lagrange_coefficients.
Context {F : Type} `{ScalarField F}.
Add Field lag_field : (scalar_field_theory (F:=F)).

(** The loop body of [lagrange_fraction], on indexes shifted by [k]. *)
Local Abbreviation fraction_loop i xi := (foldl (λ '(numerator, denominator) '(j, xj),
  if Nat.eqb i j then (numerator, denominator)
  else (numerator * - xj, denominator * (xi - xj)))) (only parsing).

Lemma lagrange_fraction_loop i xi k ys n d :
  (∀ j xj, ys !! j = Some xj → i = (k + j)%nat ↔ xj = xi) →
  fraction_loop i xi (n, d) (imap (λ j x, ((k + j)%nat, x)) ys)
  = (n * lnum ys xi 0, d * lnum ys xi xi).
Proof.
  revert k n d. induction ys as [|y ys IH]; intros k n d Hi; [simpl|cbn [imap foldl]].
  { f_equal; ring. }
  assert (Hl : ∀ x, lnum (y :: ys) xi x =
    if decide (y = xi) then lnum ys xi x else (x - y) * lnum ys xi x) by done.
  rewrite !Hl. clear Hl.
  rewrite Nat.add_0_r. pose proof (Hi 0%nat y eq_refl) as Hi0. rewrite Nat.add_0_r in Hi0.
  rewrite (imap_ext _ (λ j x, ((S k + j)%nat, x)))
    by (intros; simpl; by rewrite Nat.add_succ_r).
  assert (Hi' : ∀ j xj, ys !! j = Some xj → i = (S k + j)%nat ↔ xj = xi).
  { intros j xj Hj. rewrite <-(Hi (S j) xj) by done. lia. }
  destruct (Nat.eqb_spec i k) as [Hk|Hk].
  - rewrite !decide_True by tauto. by apply IH.
  - rewrite !decide_False by tauto. rewrite IH by done. f_equal; ring.
Qed.

Lemma lagrange_fraction_spec xs i xi :
  NoDup xs → xs !! i = Some xi →
  lagrange_fraction xs i xi = (lnum xs xi 0, lnum xs xi xi).
Proof.
  intros Hxs Hi. unfold lagrange_fraction.
  rewrite (imap_ext _ (λ j x, ((0 + j)%nat, x))) by done.
  rewrite lagrange_fraction_loop; [f_equal; ring|].
  intros j xj Hj. simpl. split; [intros ->; congruence|].
  intros ->. by eapply NoDup_lookup.
Qed.

Lemma fraction_loop_zero i xi l n : (fraction_loop i xi (n, 0) l).2 = 0.
Proof.
  revert n. induction l as [|[j xj] l IH]; intros n; simpl; [done|].
  destruct (Nat.eqb i j); [done|]. by rewrite smul_0_l.
Qed.

Lemma fraction_loop_collision i j xi l n d :
  (j, xi) ∈ l → i ≠ j → (fraction_loop i xi (n, d) l).2 = 0.
Proof.
  revert n d. induction l as [|[j' xj'] l IH]; intros n d; simpl; [set_solver|].
  intros [[= -> ->]|Hin]%elem_of_cons Hij.
  - rewrite (proj2 (Nat.eqb_neq _ _) Hij), ssub_diag, smul_0_r. apply fraction_loop_zero.
  - destruct (Nat.eqb i j'); by apply IH.
Qed.

Lemma lagrange_fraction_collision xs i j xi :
  xs !! j = Some xi → i ≠ j → (lagrange_fraction xs i xi).2 = 0.
Proof.
  intros Hj Hij. eapply fraction_loop_collision; [|done].
  apply elem_of_lookup_imap. by exists j, xi.
Qed.

Lemma lagrange_coefficients_NoDup xs :
  NoDup xs → lagrange_coefficients_at_zero xs = Ok ((λ xi, lbasis xs xi 0) <$> xs).
Proof.
  intros Hxs. unfold lagrange_coefficients_at_zero. rewrite batch_invert_spec.
  assert (Hspec : ∀ A (h : F * F → A) (g : F → A),
      (∀ xi, h (lnum xs xi 0, lnum xs xi xi) = g xi) →
      imap (λ i xi, h (lagrange_fraction xs i xi)) xs = g <$> xs).
  { intros A h g Hg. apply list_eq. intros i. rewrite list_lookup_imap, list_lookup_fmap.
    destruct (xs !! i) as [xi|] eqn:Hi; [|done]. simpl.
    by rewrite lagrange_fraction_spec, Hg. }
  rewrite (Hspec _ snd (λ xi, lnum xs xi xi)) by done.
  rewrite (Hspec _ fst (λ xi, lnum xs xi 0)) by done.
  rewrite decide_True; [|apply Forall_fmap, Forall_true; intros; apply lnum_nonzero].
  simpl. f_equal. rewrite <-list_fmap_compose, zip_with_fmap_l, zip_with_fmap_r.
  rewrite zip_with_diag. done.
Qed.

Lemma lagrange_coefficients_collision xs :
  ¬ NoDup xs → lagrange_coefficients_at_zero xs = Err NonInvertibleDenominator.
Proof.
  intros Hxs. unfold lagrange_coefficients_at_zero. rewrite batch_invert_spec.
  rewrite decide_False; [done|]. intros Hall. apply Hxs, NoDup_alt.
  intros i j xi Hi Hj. destruct (decide (i = j)) as [|Hij]; [done|]. exfalso.
  rewrite Forall_lookup in Hall.
  apply (Hall i (lagrange_fraction xs i xi).2); [|by eapply lagrange_fraction_collision].
  by rewrite list_lookup_imap, Hi.
Qed.
End lagrange_coefficients.

(** ** Reconstruction *)
Section reconstruct.
Context {F : Type} `{ScalarField F}.
Add Field rec_field : (scalar_field_theory (F:=F)).

(** The interpolation points of the shares. *)
Definition share_points (shs : list (Share F)) : Result (list F) :=
  traverse (λ share, to_scalar (share_participant share)) shs.

Lemma share_points_NoDup shs xs :
  share_points shs = Ok xs → NoDup xs → NoDup (share_participant <$> shs).
Proof.
  intros Hxs%traverse_Ok Hnd. rewrite NoDup_alt. intros i j p Hi Hj.
  rewrite list_lookup_fmap in Hi, Hj.
  destruct (shs !! i) as [si|] eqn:Hsi; simplify_eq/=.
  destruct (shs !! j) as [sj|] eqn:Hsj; simplify_eq/=.
  destruct (Forall2_lookup_l _ _ _ _ _ Hxs Hsi) as (xi & Hxi & Ei).
  destruct (Forall2_lookup_l _ _ _ _ _ Hxs Hsj) as (xj & Hxj & Ej).
  rewrite Hj in Ej. assert (xi = xj) as -> by congruence.
  by eapply NoDup_lookup.
Qed.

(** Every way the interpolation can end. *)
Lemma lagrange_interpolate_cases shs :
  lagrange_interpolate_at_zero shs =
  if decide (shs = []) then Err (InvalidThreshold 0 0) else
  _ ← ensure_unique_participants (share_participant <$> shs);
  xs ← share_points shs;
  if decide (NoDup xs)
  then Ok (foldl (λ acc '(v, c), acc + v * c) 0
             (zip (share_value <$> shs) ((λ xi, lbasis xs xi 0) <$> xs)))
  else Err NonInvertibleDenominator.
Proof.
  destruct shs as [|sh shs]; [done|]. rewrite decide_False by done.
  cbn [lagrange_interpolate_at_zero].
  destruct (ensure_unique_participants _); [|done]. cbn [mbind result_bind].
  unfold share_points. destruct (traverse _ _) as [xs|]; [|done]. cbn [mbind result_bind].
  case_decide as Hnd; [|by rewrite lagrange_coefficients_collision].
  rewrite lagrange_coefficients_NoDup by done. cbn [mbind result_bind]. f_equal.
  generalize ((λ xi : F, lbasis xs xi 0) <$> xs) as cs. generalize (sh :: shs) as l.
  generalize (szero (F:=F)) as acc.
  intros acc l. revert acc. induction l as [|s l IH]; intros acc [|c cs]; csimpl; auto.
Qed.

Lemma share_values_on_polynomial poly shs xs :
  Forall (λ sh, evaluate poly (share_participant sh) = Ok sh) shs →
  share_points shs = Ok xs → share_value <$> shs = meval (coefficients poly) <$> xs.
Proof.
  intros Hshs Hxs%traverse_Ok. induction Hxs as [|sh x shs xs Hx _ IH]; [done|].
  apply Forall_cons in Hshs as [[_ Hsh]%evaluate_Ok Hshs]. csimpl.
  rewrite Hx in Hsh. injection Hsh as <-. f_equal. by apply IH.
Qed.

Lemma reconstruct_on_polynomial poly shs xs t :
  Forall (λ sh, evaluate poly (share_participant sh) = Ok sh) shs →
  share_points shs = Ok xs → NoDup xs →
  (length (coefficients poly) ≤ length shs)%nat → (0 < t ≤ len shs)%Z →
  reconstruct_secret shs t = Ok (meval (coefficients poly) 0).
Proof.
  intros Hshs Hxs Hnd Hlen Ht. unfold reconstruct_secret.
  rewrite (proj2 (Z.eqb_neq t 0)), (proj2 (Z.ltb_ge (len shs) t)) by lia. cbn [orb].
  rewrite lagrange_interpolate_cases, Hxs.
  rewrite decide_False by (intros ->; unfold len in Ht; simpl in Ht; lia).
  rewrite (proj2 (ensure_unique_Ok _)) by eauto using share_points_NoDup.
  cbn [mbind result_bind]. rewrite decide_True by done. f_equal.
  assert (Hv : share_value <$> shs = meval (coefficients poly) <$> xs).
  { by apply share_values_on_polynomial. }
  rewrite Hv. apply (lagrange_zip (SM:=scalar_module F)); [done|].
  apply traverse_Ok, Forall2_length in Hxs. lia.
Qed.
End reconstruct.

(** ** Secrecy

    Adding a multiple of a polynomial that is one at zero and vanishes at the points of
    a coalition changes the secret and none of the coalition's shares. *)
Section secrecy.
Context {F : Type} `{ScalarField F}.
Add Field secrecy_field : (scalar_field_theory (F:=F)).
Implicit Types (cs mask xs : list F).

Definition shift_by (k : F) mask cs : list F := zip_with (λ c d, c + k * d) cs mask.

Lemma shift_by_back k k' mask cs :
  k + k' = 0 → length cs = length mask → shift_by k' mask (shift_by k mask cs) = cs.
Proof.
  intros Hk. unfold shift_by. revert mask. induction cs as [|c cs IH]; intros [|d mask] [=]; [done|].
  cbn [zip_with]. rewrite IH by done. f_equal.
  transitivity (c + (k + k') * d); [ring|]. rewrite Hk. ring.
Qed.
Lemma opposite_differences (a b : F) : a - b + (b - a) = 0.
Proof. ring. Qed.
Lemma meval_shift_by k mask cs x :
  length cs = length mask → meval (shift_by k mask cs) x = meval cs x + k * meval mask x.
Proof.
  unfold shift_by. revert mask. induction cs as [|c cs IH]; intros [|d mask] [=].
  - simpl. ring.
  - change (meval (c :: cs) x) with (c + meval cs x * x).
    change (meval (d :: mask) x) with (d + meval mask x * x). cbn [zip_with].
    change (meval (?a :: ?l) x) with (a + meval l x * x). rewrite IH by done. ring.
Qed.

(** The polynomial that vanishes on the coalition. *)
Lemma vanishing_mask xs n :
  NoDup (0 :: xs) → (length xs ≤ n)%nat →
  ∃ mask, length mask = n ∧ ∀ x, x ∈ xs → meval (1 :: mask) x = 0.
Proof.
  intros Hxs Hn. set (v x := if decide (x = 0) then 1 else (0 : F)).
  destruct (lagrange_exists (SM:=scalar_module F) (0 :: xs) v Hxs) as (ds & Hds & Hev).
  assert (Hv : ∀ x, x ∈ szero :: xs → meval ds x = v x).
  { intros x Hx. rewrite Hev, (msum_single _ _ x), lbasis_same; [apply smul_1_r|done..|].
    intros y Hy Hyx. rewrite lbasis_other by congruence. apply smul_0_r. }
  destruct ds as [|d ds]; [done|]. injection Hds as Hds.
  assert (d = 1) as ->.
  { pose proof (Hv 0 ltac:(left)) as H1. rewrite (meval_0 (SM:=scalar_module F)) in H1.
    unfold v in H1. rewrite decide_True in H1 by done. exact H1. }
  exists (ds ++ replicate (n - length ds) 0). split.
  { rewrite length_app, length_replicate. lia. }
  intros x Hx. change (1 :: ds ++ ?l) with ((1 :: ds) ++ l).
  rewrite (meval_app (SM:=scalar_module F)).
  replace (meval (replicate (n - length ds) 0) x) with (0 : F)
    by (symmetry; apply (meval_zeros (SM:=scalar_module F))).
  rewrite Hv by (by right). unfold v. rewrite decide_False.
  - simpl. ring.
  - intros ->. by apply NoDup_cons in Hxs as [? _].
Qed.

(** The shares of the two polynomials agree. *)
Lemma shift_same_share secret secret' mask cs x :
  length cs = length mask → meval (1 :: mask) x = 0 →
  evaluate_at_scalar (MkPolynomial (secret' :: shift_by (secret' - secret) mask cs)) x
  = evaluate_at_scalar (MkPolynomial (secret :: cs)) x.
Proof.
  intros Hl Hm. rewrite !evaluate_at_scalar_meval. simpl coefficients.
  change (meval (?a :: ?l) x) with (a + meval l x * x) in Hm |- *. rewrite meval_shift_by by done.
  transitivity (secret + meval cs x * x + (secret' - secret) * (1 + meval mask x * x)); [ring|].
  rewrite Hm. ring.
Qed.

Lemma evaluate_traverse ps xs (poly poly' : Polynomial F) p :
  traverse to_scalar ps = Ok xs → p ∈ ps →
  (∀ x, x ∈ xs → evaluate_at_scalar poly x = evaluate_at_scalar poly' x) →
  evaluate poly p = evaluate poly' p.
Proof.
  intros Hxs%traverse_Ok (i & Hi)%list_elem_of_lookup Heq.
  destruct (Forall2_lookup_l _ _ _ _ _ Hxs Hi) as (x & Hx & Hp). unfold evaluate. rewrite Hp.
  cbn [mbind result_bind]. rewrite Heq; [done|by eapply list_elem_of_lookup_2].
Qed.
End secrecy.

(** ** Properties *)

(** C1: end to end, a secret shared with [random_with_secret] and [shares] is
    returned by [reconstruct_secret] from every list of at least [threshold]
    of the issued shares whose interpolation points are distinct, in any order. *)
Theorem shamir_share_reconstruct {F R : Type} `{ScalarField F} `{CryptoRngCore R}
    (secret : F) threshold (rng rng' : R) poly ps shs quorum xs :
  (0 ≤ threshold)%Z →
  random_with_secret secret threshold rng = (Ok poly, rng') →
  shares poly ps = Ok shs →
  (∀ sh, sh ∈ quorum → sh ∈ shs) →
  share_points quorum = Ok xs → NoDup xs → (threshold ≤ len quorum)%Z →
  reconstruct_secret quorum threshold = Ok secret.
Proof.
  intros Ht Hpoly Hshs Hsub Hxs Hnd Hlen.
  destruct (decide (threshold = 0%Z)) as [->|]; [by inversion Hpoly|].
  destruct (random_with_secret_Ok secret threshold rng) as (cs & r & Hr & Hl); [lia|].
  rewrite Hr in Hpoly. injection Hpoly as <- _.
  apply bind_Ok in Hshs as (_ & _ & Hshs%traverse_Ok).
  rewrite (reconstruct_on_polynomial (MkPolynomial (secret :: cs)) _ xs); try done.
  - by rewrite (meval_0 (SM:=scalar_module F)).
  - apply Forall_forall. intros sh (i & Hi)%Hsub%list_elem_of_lookup.
    destruct (Forall2_lookup_r _ _ _ _ _ Hshs Hi) as (p & Hp & Hev).
    pose proof Hev as [-> _]%evaluate_Ok. done.
  - simpl coefficients. unfold len in Hlen. lia.
  - lia.
Qed.

Lemma shamir_share_reconstruct_witness :
  ∃ poly rng', random_with_secret (tiny 42) 3 1%Z = (Ok poly, rng') ∧
  ∃ shs, shares poly (MkParticipantIndex <$> [1; 2; 3; 4; 5]%Z) = Ok shs ∧
    reconstruct_secret (drop 2 shs) 3 = Ok (tiny 42).
Proof.
  eexists _, _. split; [vm_compute; reflexivity|].
  eexists. split; [vm_compute; reflexivity|].
  eapply (shamir_share_reconstruct (tiny 42) 3 1%Z _ _
            (MkParticipantIndex <$> [1; 2; 3; 4; 5]%Z)).
  - done.
  - vm_compute. reflexivity.
  - vm_compute. reflexivity.
  - intros sh Hsh. simpl in Hsh. set_solver.
  - vm_compute. reflexivity.
  - apply (bool_decide_unpack _). vm_compute. exact I.
  - vm_compute. done.
Defined.

(** Every failure of [reconstruct_secret]: the threshold gate, a repeated
    participant, an index the scalar field refuses, and indexes that collide in
    the field each give the documented error, in this order of precedence. *)
Theorem reconstruct_secret_errors {F} `{ScalarField F} (shs : list (Share F)) threshold :
  (threshold = 0%Z ∨ (len shs < threshold)%Z →
     reconstruct_secret shs threshold = Err (InvalidThreshold threshold (len shs))) ∧
  ((0 < threshold ≤ len shs)%Z →
     (¬ NoDup (share_participant <$> shs) →
        ∃ sh, sh ∈ shs ∧ reconstruct_secret shs threshold
          = Err (DuplicateParticipantIndex (pi_get (share_participant sh)))) ∧
     (NoDup (share_participant <$> shs) →
        match share_points shs with
        | Err e => reconstruct_secret shs threshold = Err e
        | Ok xs => if decide (NoDup xs) then is_ok (reconstruct_secret shs threshold) = true
                   else reconstruct_secret shs threshold = Err NonInvertibleDenominator
        end)).
Proof.
  unfold reconstruct_secret. split.
  { intros [->|Ht]; [done|]. by rewrite (proj2 (Z.ltb_lt _ _) Ht), orb_true_r. }
  intros Ht. rewrite (proj2 (Z.eqb_neq _ _)), (proj2 (Z.ltb_ge _ _)) by lia. cbn [orb].
  rewrite lagrange_interpolate_cases.
  rewrite decide_False by (intros ->; unfold len in Ht; simpl in Ht; lia). split.
  - rewrite <-ensure_unique_Ok. intros Hu.
    destruct (ensure_unique_participants _) as [[]|e] eqn:He; [done|].
    apply ensure_unique_loop_Err in He as (p & Hp & ->).
    apply list_elem_of_fmap in Hp as (sh & -> & Hsh). by exists sh.
  - intros ->%ensure_unique_Ok. cbn [mbind result_bind].
    destruct (share_points shs); [|done]. simpl. by case_decide.
Qed.

Lemma reconstruct_secret_errors_witness :
  let shs := [MkShare (MkParticipantIndex 1) (tiny 5); MkShare (MkParticipantIndex 98) (tiny 5)] in
  reconstruct_secret shs 2 = Err NonInvertibleDenominator ∧
  reconstruct_secret shs 3 = Err (InvalidThreshold 3 2).
Proof.
  split.
  - pose proof (reconstruct_secret_errors [MkShare (MkParticipantIndex 1) (tiny 5);
        MkShare (MkParticipantIndex 98) (tiny 5)] 2) as [_ H].
    destruct H as [_ H]; [by vm_compute|]. specialize (H ltac:(apply (bool_decide_unpack _);
      vm_compute; exact I)).
    refine (eq_trans _ (eq_trans (eq_sym eq_refl) H)). reflexivity.
  - apply reconstruct_secret_errors. right. by vm_compute.
Defined.

(** C29: threshold secrecy.  The shares of fewer than [threshold] participants at
    distinct nonzero points carry no information on the secret.  The coefficients that
    [random_with_secret] draws do not depend on the secret; and for any two secrets
    there is a bijection of the coefficients drawn, under which every participant of the
    coalition gets the same share in both sharings.  When [threshold - 1] shares are
    known, the coefficients of the bijection are the only ones that fit. *)
Theorem shamir_threshold_secrecy {F} `{ScalarField F} ps xs threshold (secret secret' : F) :
  traverse to_scalar ps = Ok xs → NoDup (szero :: xs) → (len ps < threshold)%Z →
  (∀ {R} `{CryptoRngCore R} (rng : R) s, (random_with_secret s threshold rng).1
     = Ok (MkPolynomial (s :: (random_scalars (Z.to_nat (threshold - 1)) rng).1))) ∧
  ∃ f g : list F → list F, ∀ cs, len cs = (threshold - 1)%Z →
    len (f cs) = (threshold - 1)%Z ∧ len (g cs) = (threshold - 1)%Z ∧ g (f cs) = cs ∧ f (g cs) = cs ∧
    (∀ p, p ∈ ps → evaluate (MkPolynomial (secret' :: f cs)) p = evaluate (MkPolynomial (secret :: cs)) p) ∧
    (len ps = (threshold - 1)%Z → ∀ cs', len cs' = (threshold - 1)%Z →
       (∀ p, p ∈ ps → evaluate (MkPolynomial (secret' :: cs')) p = evaluate (MkPolynomial (secret :: cs)) p) →
       cs' = f cs).
Proof.
  intros Hps Hxs Ht. unfold len in *. pose proof (Forall2_length _ _ _ (proj1 (traverse_Ok _ _ _) Hps)) as Hl.
  split.
  { intros R HR rng s. unfold random_with_secret. rewrite (proj2 (Z.eqb_neq _ _)) by lia.
    by destruct (random_scalars _ rng). }
  destruct (vanishing_mask xs (Z.to_nat (threshold - 1)) Hxs ltac:(lia)) as (mask & Hm & Hzero).
  exists (shift_by (secret' - secret) mask), (shift_by (secret - secret') mask). intros cs Hcs.
  assert (Hlcs : length cs = length mask) by lia.
  assert (Hshift : ∀ k, length (shift_by k mask cs) = length mask) by (intros k; unfold shift_by; rewrite length_zip_with; lia).
  rewrite !Hshift, !shift_by_back by (try done; apply opposite_differences).
  split; [lia|]. split; [lia|]. split; [done|]. split; [done|].
  assert (Hagree : ∀ p, p ∈ ps → evaluate (MkPolynomial (secret' :: shift_by (secret' - secret) mask cs)) p
    = evaluate (MkPolynomial (secret :: cs)) p).
  { intros p Hp. apply (evaluate_traverse ps xs); [done..|]. intros x Hx. apply shift_same_share; auto. }
  split; [exact Hagree|]. intros Hmax cs' Hcs' Hfit.
  enough (E : secret' :: cs' = secret' :: shift_by (secret' - secret) mask cs) by by injection E.
  apply coefficients_unique with (0 :: xs); [simpl; rewrite Hshift; lia|done|simpl; lia|].
  intros x [->|Hx]%elem_of_cons; [by rewrite !(meval_0 (SM:=scalar_module F))|].
  apply list_elem_of_lookup in Hx as [i Hi].
  destruct (Forall2_lookup_r _ _ _ _ _ (proj1 (traverse_Ok _ _ _) Hps) Hi) as (p & Hip & Hp).
  pose proof (list_elem_of_lookup_2 _ _ _ Hip) as Hin.
  specialize (Hfit p Hin). rewrite <-(Hagree p Hin) in Hfit. unfold evaluate in Hfit. rewrite Hp in Hfit.
  injection Hfit as Hfit. by rewrite !evaluate_at_scalar_meval in Hfit.
Qed.

Lemma shamir_threshold_secrecy_witness :
  let ps := MkParticipantIndex <$> [1; 2]%Z in
  traverse to_scalar ps = Ok [tiny 1; tiny 2] ∧
  ∃ f : list TinyScalar → list TinyScalar,
    (∀ p, p ∈ ps → evaluate (MkPolynomial (tiny 77 :: f [tiny 11; tiny 5; tiny 9])) p
                   = evaluate (MkPolynomial [tiny 42; tiny 11; tiny 5; tiny 9]) p).
Proof.
  intros ps. assert (Hps : traverse to_scalar ps = Ok [tiny 1; tiny 2]) by vm_refl.
  split; [exact Hps|].
  destruct (shamir_threshold_secrecy ps [tiny 1; tiny 2] 4 (tiny 42) (tiny 77) Hps) as (_ & f & g & Hf).
  - apply (bool_decide_unpack _). vm_compute. exact I.
  - reflexivity.
  - exists f. destruct (Hf [tiny 11; tiny 5; tiny 9] eq_refl) as (_ & _ & _ & _ & Ha & _). exact Ha.
Defined.

(** C33: [batch_invert] is [values.len()] single inversions: it succeeds exactly
    when no entry is zero, and then every slot holds the inverse [invert] gives;
    when it returns [None] the slice is as it was. *)
Theorem batch_invert_pointwise {F} `{ScalarField F} (values : list F) :
  match batch_invert values with
  | (Some _, out) => Forall2 (λ v w, sinvert v = Some w) values out
  | (None, out) => out = values ∧ szero ∈ values
  end.
Proof.
  rewrite batch_invert_spec. case_decide as Hv.
  - apply Forall2_fmap_r, Forall_Forall2_diag. eapply Forall_impl; [done|].
    intros. by apply sinvert_sinv.
  - split; [done|]. apply not_Forall_Exists in Hv; [|apply _].
    apply Exists_exists in Hv as (x & Hx & Hz). by apply dec_stable in Hz as ->.
Qed.

(** C31: [lagrange_coefficients_at_zero] succeeds exactly on distinct points, and
    then returns coefficients whose weighted sum of the values of any polynomial
    with at most [xs.len()] coefficients is its value at zero. *)
Theorem lagrange_coefficients_correct {F} `{ScalarField F} (xs : list F) :
  match lagrange_coefficients_at_zero xs with
  | Ok coefs =>
      NoDup xs ∧ length coefs = length xs ∧
      ∀ poly : Polynomial F, (length (coefficients poly) ≤ length xs)%nat →
        foldl (λ acc '(v, c), acc + v * c) 0 (zip (evaluate_at_scalar poly <$> xs) coefs)
        = evaluate_at_scalar poly 0
  | Err e => ¬ NoDup xs ∧ e = NonInvertibleDenominator
  end.
Proof.
  destruct (decide (NoDup xs)) as [Hxs|Hxs].
  - rewrite lagrange_coefficients_NoDup by done. split; [done|].
    split; [apply length_fmap|]. intros poly Hn.
    rewrite (list_fmap_ext _ (meval (coefficients poly)))
      by (intros; apply evaluate_at_scalar_meval).
    rewrite evaluate_at_scalar_meval. by apply (lagrange_zip (SM:=scalar_module F)).
  - by rewrite lagrange_coefficients_collision.
Qed.

Lemma batch_invert_pointwise_witness :
  batch_invert [tiny 2; tiny 3; tiny 5] = (Some (), [tiny 49; tiny 65; tiny 39]) ∧
  Forall2 (λ v w, sinvert v = Some w) [tiny 2; tiny 3; tiny 5] [tiny 49; tiny 65; tiny 39].
Proof.
  assert (Hb : batch_invert [tiny 2; tiny 3; tiny 5] = (Some (), [tiny 49; tiny 65; tiny 39]))
    by vm_refl.
  split; [exact Hb|].
  pose proof (batch_invert_pointwise [tiny 2; tiny 3; tiny 5]) as Hc. rewrite Hb in Hc. exact Hc.
Defined.

Lemma lagrange_coefficients_correct_witness :
  lagrange_coefficients_at_zero [tiny 1; tiny 3] = Ok [tiny 50; tiny 48] ∧
  foldl (λ acc '(v, c), acc + v * c) 0
    (zip (evaluate_at_scalar (MkPolynomial [tiny 42; tiny 7]) <$> [tiny 1; tiny 3])
       [tiny 50; tiny 48]) = evaluate_at_scalar (MkPolynomial [tiny 42; tiny 7]) 0.
Proof.
  assert (Hc : lagrange_coefficients_at_zero [tiny 1; tiny 3] = Ok [tiny 50; tiny 48]) by vm_refl.
  split; [exact Hc|]. pose proof (lagrange_coefficients_correct [tiny 1; tiny 3]) as Hl.
  rewrite Hc in Hl. destruct Hl as (_ & _ & Hpoly).
  exact (Hpoly (MkPolynomial [tiny 42; tiny 7]) (le_n 2)).
Defined.
