(* ===== verification/Feldman.v ===== *)
(** * Feldman commitments (feldman.rs)

    Commitments to the coefficients of a polynomial, the public share of a
    participant by Horner's rule with small-scalar double-and-add, and the
    verification of a share. *)

From Stdlib Require Import ZArith Lia Field.
From stdpp Require Import prelude list_numbers.
From S2P Require Import Prelude BTree CoreError Group Algebra Poly Participant Shamir TestSupport.

Local Open Scope golden_scope.

(** The vector of committed coefficients.  The only constructor refuses an
    empty vector, so it is kept as its first entry and the rest. *)
Record FeldmanCommitment `{GoldenGroup} := MkFeldmanCommitment {
  commitment_first : Element;
  commitment_rest : list Element;
}.

Arguments MkFeldmanCommitment {_} _ _.

#[export] Instance FeldmanCommitment_eq_dec `{GoldenGroup} : EqDecision FeldmanCommitment.
Proof. solve_decision. Defined.

Section ops.
Context `{GoldenGroup}.

Definition FeldmanCommitment_from_coefficients (cs : list Element)
    : Result FeldmanCommitment :=
  match cs with
  | [] => Err EmptyCommitment
  | c :: cs => Ok (MkFeldmanCommitment c cs)
  end.

Definition commit (poly : Polynomial Scalar) : Result FeldmanCommitment :=
  FeldmanCommitment_from_coefficients (mul_generator <$> coefficients poly).

Definition commitment_coefficients (c : FeldmanCommitment) : list Element :=
  commitment_first c :: commitment_rest c.

(** [self.coefficients[0]]. *)
Definition public_key (c : FeldmanCommitment) : Element := commitment_first c.

(** [u32::leading_zeros]. *)
Definition leading_zeros (scalar : Z) : Z :=
  if (scalar =? 0)%Z then 32%Z else (32 - (Z.log2 scalar + 1))%Z.

Definition mul_by_small_scalar (point : Element) (scalar : Z) : Element :=
  if (scalar =? 0)%Z then identity
  else
    foldl (λ acc bit,
             let acc := acc ⊞ acc in
             if (Z.land (Z.shiftr scalar bit) 1 =? 1)%Z then acc ⊞ point else acc)
          identity (reverse (seqZ 0 (32 - leading_zeros scalar))).

Definition public_key_share (c : FeldmanCommitment) (participant : ParticipantIndex)
    : Result Element :=
  _ ← to_scalar (F:=Scalar) participant;
  let x := pi_get participant in
  Ok (foldl (λ result coefficient, mul_by_small_scalar result x ⊞ coefficient)
            identity (reverse (commitment_coefficients c))).

Definition verify_share (c : FeldmanCommitment) (share : Share Scalar) : Result bool :=
  expected ← public_key_share c (share_participant share);
  let actual := mul_generator (share_value share) in
  Ok (bool_decide (expected = actual)).
End ops.

(** ** Lemmas *)
Section lemmas.
Context `{GroupModule}.
Implicit Types (P : Element) (poly : Polynomial Scalar).
Add Field feldman_field : (scalar_field_theory (F:=Scalar)).

Lemma from_coefficients_Ok cs c :
  FeldmanCommitment_from_coefficients cs = Ok c ↔ commitment_coefficients c = cs.
Proof. destruct c, cs; unfold commitment_coefficients; simpl; naive_solver. Qed.

Lemma mul_by_small_scalar_snat P scalar :
  is_u32 scalar → mul_by_small_scalar P scalar = P ⊠ snat (Z.to_nat scalar).
Proof.
  intros [Hs _]. unfold mul_by_small_scalar, leading_zeros.
  destruct (Z.eqb_spec scalar 0) as [->|Hne]; [simpl; by rewrite gmul_0|].
  replace (32 - (32 - (Z.log2 scalar + 1)))%Z with (Z.log2 scalar + 1)%Z by lia.
  apply (double_and_add (SM:=element_module)). lia.
Qed.

Lemma public_key_share_meval c p x :
  participant_wf p → to_scalar p = Ok x →
  public_key_share c p = Ok (meval (H0:=element_module) (commitment_coefficients c) x).
Proof.
  intros Hp Hx. unfold public_key_share. rewrite Hx. cbn [mbind result_bind]. f_equal.
  apply to_scalar_snat in Hx as ->; [|done].
  rewrite <-(horner_reverse (SM:=element_module)). apply foldl_agree. intros acc C.
  by rewrite mul_by_small_scalar_snat by (unfold participant_wf, is_u32 in *; lia).
Qed.

Lemma meval_mul_generator (cs : list Scalar) x :
  meval (H0:=element_module) (mul_generator <$> cs) x
  = mul_generator (meval (H0:=scalar_module Scalar) cs x).
Proof.
  induction cs as [|c cs IH]; csimpl; [by rewrite mul_generator_0|].
  by rewrite IH, mul_generator_add, mul_generator_mul.
Qed.

Lemma meval_zip_gadd (Cs Ds : list Element) (x : Scalar) :
  length Cs = length Ds →
  meval (H0:=element_module) (zip_with gadd Cs Ds) x
  = meval (H0:=element_module) Cs x ⊞ meval (H0:=element_module) Ds x.
Proof. exact (meval_zip_add (SM:=element_module) Cs Ds x). Qed.

Lemma commit_Ok poly c :
  commit poly = Ok c ↔ commitment_coefficients c = mul_generator <$> coefficients poly.
Proof. apply from_coefficients_Ok. Qed.

Lemma commit_public_key_share poly c p sh :
  participant_wf p → commit poly = Ok c → evaluate poly p = Ok sh →
  public_key_share c p = Ok (mul_generator (share_value sh)).
Proof.
  intros Hp Hc%commit_Ok [_ Hsh]%evaluate_Ok. apply bind_Ok in Hsh as (x & Hx & [= Hsh]).
  by rewrite (public_key_share_meval _ _ x), Hc, meval_mul_generator, Hsh.
Qed.
End lemmas.

(** ** Interpolation in the exponent *)
Section interpolation.
Context `{GroupModule}.

Lemma mul_generator_interpolate (vs cs : list Scalar) acc :
  mul_generator (foldl (λ acc '(v, c), acc + v * c) acc (zip vs cs))
  = foldl (λ acc '(V, c), acc ⊞ V ⊠ c) (mul_generator acc) (zip (mul_generator <$> vs) cs).
Proof.
  revert acc cs. induction vs as [|v vs IH]; intros acc [|c cs]; csimpl; [done..|].
  by rewrite IH, mul_generator_add, mul_generator_mul.
Qed.

(** What an accepted share satisfies. *)
Lemma verify_share_true c sh x :
  participant_wf (share_participant sh) → to_scalar (share_participant sh) = Ok x →
  verify_share c sh = Ok true ↔
  mul_generator (share_value sh)
  = meval (H0:=element_module) (commitment_coefficients c) x.
Proof.
  intros Hp Hx. unfold verify_share. rewrite (public_key_share_meval _ _ x) by done.
  cbn [mbind result_bind]. split.
  - intros [= Hb]. by apply bool_decide_eq_true in Hb.
  - intros ->. by rewrite bool_decide_eq_true_2.
Qed.

Lemma verify_share_total c sh (x : Scalar) :
  to_scalar (share_participant sh) = Ok x → ∃ b, verify_share c sh = Ok b.
Proof.
  intros Hx. unfold verify_share, public_key_share. rewrite Hx. simpl. eauto.
Qed.

(** Accepted shares interpolate, in the exponent, to the commitment's key. *)
Lemma accepted_shares_interpolate c (shs : list (Share Scalar)) xs :
  Forall (λ sh, participant_wf (share_participant sh) ∧ verify_share c sh = Ok true) shs →
  share_points shs = Ok xs → NoDup xs →
  (length (commitment_coefficients c) ≤ length shs)%nat →
  mul_generator (foldl (λ acc '(v, c), acc + v * c) 0
    (zip (share_value <$> shs) ((λ xi, lbasis xs xi 0) <$> xs))) = public_key c.
Proof.
  intros Hshs Hxs Hnd Hlen. rewrite mul_generator_interpolate, mul_generator_0.
  assert (Hv : mul_generator <$> (share_value <$> shs)
    = meval (H0:=element_module) (commitment_coefficients c) <$> xs).
  { apply traverse_Ok in Hxs. clear Hnd Hlen.
    induction Hxs as [|sh x shs xs Hx _ IH]; [done|].
    apply Forall_cons in Hshs as [[Hp Hsh] Hshs]. csimpl. f_equal; [|by apply IH].
    by apply verify_share_true. }
  rewrite Hv.
  pose proof (lagrange_zip (SM:=element_module) xs (commitment_coefficients c) 0 Hnd) as Hz.
  apply traverse_Ok, Forall2_length in Hxs. specialize (Hz ltac:(lia)).
  etransitivity; [exact Hz|]. apply (meval_0 (SM:=element_module)).
Qed.

Lemma accepted_reconstruct c (shs : list (Share Scalar)) xs threshold :
  Forall (λ sh, participant_wf (share_participant sh) ∧ verify_share c sh = Ok true) shs →
  share_points shs = Ok xs → NoDup xs →
  len (commitment_coefficients c) = threshold → (threshold ≤ len shs)%Z →
  ∃ secret, reconstruct_secret shs threshold = Ok secret ∧ mul_generator secret = public_key c.
Proof.
  intros Hshs Hxs Hnd Hc Hlen.
  assert (Ht : (0 < threshold)%Z) by (rewrite <-Hc; unfold len; simpl; lia).
  eexists. split; [|eapply accepted_shares_interpolate; try done; unfold len in *; lia].
  unfold reconstruct_secret. rewrite (proj2 (Z.eqb_neq _ _)), (proj2 (Z.ltb_ge _ _)) by lia.
  cbn [orb]. rewrite lagrange_interpolate_cases, Hxs.
  rewrite decide_False by (intros ->; unfold len in Hlen; simpl in Hlen; lia).
  rewrite (proj2 (ensure_unique_Ok _)) by eauto using share_points_NoDup.
  cbn [mbind result_bind]. by rewrite decide_True.
Qed.
End interpolation.

(** ** Properties *)

(** The variable-time double-and-add of [mul_by_small_scalar] is scalar
    multiplication by the field element [from_u64] makes of the same [u32]. *)
Theorem mul_by_small_scalar_correct `{GroupModule} (point : Element) scalar s :
  is_u32 scalar → from_u64 scalar = Ok s → mul_by_small_scalar point scalar = point ⊠ s.
Proof.
  intros Hu Hs. rewrite mul_by_small_scalar_snat by done.
  apply from_u64_spec in Hs as ->; [done|]. by destruct Hu.
Qed.

Lemma mul_by_small_scalar_correct_witness :
  mul_by_small_scalar (H:=TinyGroup) (tiny 5) 4294967295 = gmul (GoldenGroup:=TinyGroup)
    (tiny 5) (tiny 4294967295).
Proof.
  apply (mul_by_small_scalar_correct (H:=TinyGroup) (tiny 5) 4294967295 (tiny 4294967295)).
  - vm_compute. split; discriminate.
  - reflexivity.
Defined.

(** Against the commitment to a polynomial, [verify_share] accepts exactly
    the share [evaluate] gives the participant: honest shares are accepted, and
    any other value claimed for that participant is rejected. *)
Theorem feldman_verify_share_iff `{GroupModule} (poly : Polynomial Scalar) c sh :
  participant_wf (share_participant sh) → commit poly = Ok c →
  is_ok (to_scalar (F:=Scalar) (share_participant sh)) = true →
  ∃ b, verify_share c sh = Ok b ∧
       (b = true ↔ evaluate poly (share_participant sh) = Ok sh).
Proof.
  intros Hp Hc%commit_Ok Hx. destruct (to_scalar _) as [x|] eqn:Ex; [|done].
  destruct (verify_share_total c sh x Ex) as [b Hb]. exists b. split; [done|].
  transitivity (verify_share c sh = Ok true); [rewrite Hb; naive_solver|].
  rewrite (verify_share_true _ _ x), Hc, meval_mul_generator by done.
  rewrite evaluate_Ok.
  rewrite Ex. cbn [mbind result_bind]. split.
  - intros <-%mul_generator_inj. done.
  - intros [_ [= ->]]. done.
Qed.

Lemma feldman_verify_share_iff_witness :
  let poly := MkPolynomial [tiny 42; tiny 11; tiny 5] in
  let sh := MkShare (MkParticipantIndex 3) (tiny 23) in
  ∃ c, commit (H:=TinyGroup) poly = Ok c ∧
  ∃ b, verify_share (H:=TinyGroup) c sh = Ok b ∧
       (b = true ↔ evaluate poly (MkParticipantIndex 3) = Ok sh).
Proof.
  intros poly sh. eexists. split; [reflexivity|].
  apply (feldman_verify_share_iff (H:=TinyGroup) poly _ sh).
  - vm_compute. split; [reflexivity|discriminate].
  - reflexivity.
  - reflexivity.
Defined.

(** Shares that a commitment accepts reconstruct the committed secret,
    whoever made the commitment: at least as many accepted shares as it has
    coefficients, at distinct points, reconstruct to the discrete logarithm of
    its public key. *)
Theorem accepted_shares_reconstruct `{GroupModule} c (shs : list (Share Scalar)) xs threshold :
  Forall (λ sh, participant_wf (share_participant sh) ∧ verify_share c sh = Ok true) shs →
  share_points shs = Ok xs → NoDup xs →
  len (commitment_coefficients c) = threshold → (threshold ≤ len shs)%Z →
  ∃ secret, reconstruct_secret shs threshold = Ok secret ∧ mul_generator secret = public_key c.
Proof.
  apply accepted_reconstruct.
Qed.

Lemma accepted_shares_reconstruct_witness :
  let c := MkFeldmanCommitment (H:=TinyGroup) (tiny 42) [tiny 11; tiny 5] in
  let shs := [MkShare (MkParticipantIndex 5) (tiny 28); MkShare (MkParticipantIndex 2) (tiny 84);
              MkShare (MkParticipantIndex 3) (tiny 23)] in
  ∃ secret, reconstruct_secret shs 3 = Ok secret ∧
    mul_generator (GoldenGroup:=TinyGroup) secret = public_key c.
Proof.
  intros c shs. eapply (accepted_shares_reconstruct (H:=TinyGroup) c shs).
  - repeat (apply Forall_cons; split; [split; [vm_compute; split; [reflexivity|discriminate]|reflexivity]|]).
    apply Forall_nil. exact I.
  - vm_compute. reflexivity.
  - apply (bool_decide_unpack _). vm_compute. exact I.
  - reflexivity.
  - vm_compute. discriminate.
Defined.
