(* ===== verification/Transcript.v ===== *)
(** * Transcripts (transcript.rs) and hashing to scalars (group.rs)

    The SHA-256 transcript builder, the injectivity of its framing, and the
    rejection sampling of [hash_to_scalar]. *)

From Stdlib Require Import ZArith Lia Strings.Byte.
From stdpp Require Import prelude strings.
From S2P Require Import Prelude BTree CoreError Group Algebra Participant TestSupport.

Local Open Scope Z_scope.

(** [[u8; 32]]. *)
Definition TranscriptRoot : Type := list byte.

Definition transcript_root_from_slice (bytes : list byte) : Result TranscriptRoot :=
  if negb (len bytes =? 32) then Err InvalidEncoding else Ok bytes.

(** The hasher is the sequence of bytes it was updated with. *)
Record TranscriptBuilder := MkTranscriptBuilder { hasher : list byte }.

Definition update (t : TranscriptBuilder) (bs : list byte) : TranscriptBuilder :=
  MkTranscriptBuilder (hasher t ++ bs).

Definition tb_with_prefix (prefix label : list byte) : TranscriptBuilder :=
  let t := MkTranscriptBuilder [] in
  let t := update t prefix in
  let t := update t (to_be_bytes 8 (len label)) in
  update t label.

Definition tb_new (label : list byte) : TranscriptBuilder :=
  tb_with_prefix (bstr "golden-core-v1") label.

Definition tb_bytes (label bytes : list byte) (t : TranscriptBuilder) : TranscriptBuilder :=
  let t := update t (to_be_bytes 8 (len label)) in
  let t := update t label in
  let t := update t (to_be_bytes 8 (len bytes)) in
  update t bytes.

Definition tb_u32 (label : list byte) (value : Z) : TranscriptBuilder → TranscriptBuilder :=
  tb_bytes label (to_be_bytes 4 value).

Definition tb_usize (label : list byte) (value : Z) : TranscriptBuilder → TranscriptBuilder :=
  tb_bytes label (to_be_bytes 8 value).

Definition tb_participant (label : list byte) (value : ParticipantIndex)
    : TranscriptBuilder → TranscriptBuilder :=
  tb_u32 label (pi_get value).

Definition tb_scalar `{GoldenGroup} (label : list byte) (value : Scalar)
    : TranscriptBuilder → TranscriptBuilder :=
  tb_bytes label (repr_as_ref (to_repr value)).

Definition tb_element `{GoldenGroup} (label : list byte) (value : Element)
    : TranscriptBuilder → TranscriptBuilder :=
  tb_bytes label (element_as_ref (encode_element value)).

Definition tb_root `{Sha256} (t : TranscriptBuilder) : TranscriptRoot :=
  sha256 (hasher t).

(** ** Framing *)

(** What one [bytes] call appends. *)
Definition frame (label bytes : list byte) : list byte :=
  to_be_bytes 8 (len label) ++ label ++ to_be_bytes 8 (len bytes) ++ bytes.

#[global] Arguments frame : simpl never.

Lemma hasher_tb_bytes label bytes t :
  hasher (tb_bytes label bytes t) = hasher t ++ frame label bytes.
Proof. unfold tb_bytes, update, frame. simpl. by rewrite <-!app_assoc. Qed.

(** A loop that appends an item per element. *)
Lemma hasher_foldl {A} (g : TranscriptBuilder → A → TranscriptBuilder) (h : A → list byte) l t :
  (∀ t a, hasher (g t a) = hasher t ++ h a) →
  hasher (foldl g t l) = hasher t ++ concat (h <$> l).
Proof.
  intros Hg. revert t. induction l as [|a l IH]; intros t; csimpl; [by rewrite app_nil_r|].
  by rewrite IH, Hg, <-app_assoc.
Qed.

Lemma usize_MAX_eq : usize_MAX = 256 ^ Z.of_nat 8 - 1.
Proof. reflexivity. Qed.

Lemma to_be_bytes_8_inj x y :
  is_usize x → is_usize y → to_be_bytes 8 x = to_be_bytes 8 y → x = y.
Proof.
  unfold is_usize. rewrite usize_MAX_eq. intros. apply (to_be_bytes_inj 8); [lia..|done].
Qed.

Lemma u32_MAX_eq : u32_MAX = 256 ^ Z.of_nat 4 - 1.
Proof. reflexivity. Qed.

Lemma to_be_bytes_4_inj x y :
  is_u32 x → is_u32 y → to_be_bytes 4 x = to_be_bytes 4 y → x = y.
Proof.
  unfold is_u32. rewrite u32_MAX_eq. intros. apply (to_be_bytes_inj 4); [lia..|done].
Qed.

(** A slice of a Rust program has at most [usize::MAX] elements. *)
Definition slice_ok {A} (l : list A) : Prop := len l ≤ usize_MAX.

#[export] Instance slice_ok_dec {A} (l : list A) : Decision (slice_ok l).
Proof. unfold slice_ok. apply _. Defined.

Lemma slice_ok_is_usize {A} (l : list A) : slice_ok l → is_usize (len l).
Proof. unfold slice_ok, is_usize, len. lia. Qed.

(** Under one label a frame determines its payload and where it ends. *)
Lemma frame_app_inj label x y rx ry :
  slice_ok x → slice_ok y →
  frame label x ++ rx = frame label y ++ ry → x = y ∧ rx = ry.
Proof.
  intros Hx Hy. unfold frame. rewrite <-!app_assoc.
  intros Heq%app_inv_head%app_inv_head.
  apply app_inj_1 in Heq as [Hl Heq]; [|by rewrite !length_to_be_bytes].
  apply to_be_bytes_8_inj in Hl; [|by apply slice_ok_is_usize..].
  apply app_inj_1 in Heq as [-> ->]; [done|]. unfold len in Hl. lia.
Qed.

Lemma frame_inj label x y : slice_ok x → slice_ok y → frame label x = frame label y → x = y.
Proof.
  intros Hx Hy Heq. apply (frame_app_inj label x y [] []); [done..|]. by rewrite !app_nil_r.
Qed.

#[global] Opaque frame.

(** Items that determine their data and where they end do so in sequence. *)
Lemma items_app_inj {A} (R : A → A → Prop) (h : A → list byte) l l' r r' :
  (∀ a a' r r', a ∈ l → a' ∈ l' → h a ++ r = h a' ++ r' → R a a' ∧ r = r') →
  length l = length l' →
  concat (h <$> l) ++ r = concat (h <$> l') ++ r' → Forall2 R l l' ∧ r = r'.
Proof.
  intros Hinj. revert l' Hinj. induction l as [|a l IH]; intros [|a' l'] Hinj [=].
  { intros Hr. split; [constructor|done]. }
  rewrite !fmap_cons. cbn [concat]. rewrite <-!app_assoc.
  intros Heq. apply Hinj in Heq as [Ha Heq]; [|left..].
  apply IH in Heq as [Hl ->]; [split; [by constructor|done]| |done].
  intros; apply Hinj; [by right..|done].
Qed.

Lemma slice_ok_be n x : (n ≤ 8)%nat → slice_ok (to_be_bytes n x).
Proof. intros. unfold slice_ok, len. rewrite length_to_be_bytes. unfold usize_MAX. lia. Qed.

Lemma slice_ok_32 (x : list byte) : length x = 32%nat → slice_ok x.
Proof. intros. unfold slice_ok, len, usize_MAX. lia. Qed.

Section codec.
Context `{GroupCodec}.

Lemma slice_ok_scalar (s : Scalar) : slice_ok (repr_as_ref (to_repr s)).
Proof.
  unfold slice_ok. rewrite length_repr. pose proof (REPR_BYTES_range (F:=Scalar)).
  unfold u32_MAX, usize_MAX in *. lia.
Qed.
Lemma slice_ok_element (P : Element) : slice_ok (element_as_ref (encode_element P)).
Proof.
  unfold slice_ok. rewrite length_element_repr. pose proof ELEMENT_REPR_BYTES_range.
  unfold u32_MAX, usize_MAX in *. lia.
Qed.

Lemma repr_as_ref_inj (r r' : Repr (F:=Scalar)) : repr_as_ref r = repr_as_ref r' → r = r'.
Proof.
  intros Heq. apply (f_equal (repr_try_from (F:=Scalar))) in Heq.
  rewrite !repr_try_from_as_ref in Heq. congruence.
Qed.
Lemma scalar_bytes_inj (s s' : Scalar) :
  repr_as_ref (to_repr s) = repr_as_ref (to_repr s') → s = s'.
Proof.
  intros Heq%repr_as_ref_inj. apply (f_equal (from_repr (F:=Scalar))) in Heq.
  rewrite !from_to_repr in Heq. congruence.
Qed.

Lemma element_as_ref_inj r r' : element_as_ref r = element_as_ref r' → r = r'.
Proof.
  intros Heq. apply (f_equal element_try_from) in Heq.
  rewrite !element_try_from_as_ref in Heq. congruence.
Qed.
Lemma element_bytes_inj (P Q : Element) :
  element_as_ref (encode_element P) = element_as_ref (encode_element Q) → P = Q.
Proof.
  intros Heq%element_as_ref_inj. apply (f_equal decode_element) in Heq.
  rewrite !decode_encode_element in Heq. congruence.
Qed.
End codec.

#[export] Hint Resolve slice_ok_be slice_ok_32 slice_ok_scalar slice_ok_element : golden.

Lemma tb_root_eq `{Sha256} t t' :
  tb_root t = tb_root t' →
  hasher t = hasher t' ∨ (hasher t ≠ hasher t' ∧ sha256 (hasher t) = sha256 (hasher t')).
Proof. intros. destruct (decide (hasher t = hasher t')); auto. Qed.

(** The bytes a transcript absorbed, as a sequence of frames. *)
Ltac transcript_stream :=
  cbv beta iota zeta; unfold tb_participant, tb_u32, tb_usize, tb_scalar, tb_element;
  rewrite ?hasher_tb_bytes.

(** Two streams with the same frame label in front: split the equation. *)
Ltac split_frame H :=
  first [ apply frame_app_inj in H as [? H]; [|solve [auto 3 with golden lia]..]
        | apply frame_inj in H; [|solve [auto 3 with golden lia]..] ].

(** Fixed-width fields. *)
Lemma participant_bytes_inj p q :
  participant_wf p → participant_wf q →
  to_be_bytes 4 (pi_get p) = to_be_bytes 4 (pi_get q) → p = q.
Proof.
  unfold participant_wf. intros. apply pi_get_inj, to_be_bytes_4_inj; [..|done];
    unfold is_u32; lia.
Qed.

Lemma len_bytes_inj {A B} (l : list A) (k : list B) :
  slice_ok l → slice_ok k → to_be_bytes 8 (len l) = to_be_bytes 8 (len k) →
  length l = length k.
Proof.
  intros Hl Hk E. apply to_be_bytes_8_inj in E; [|by apply slice_ok_is_usize..].
  unfold len in E. lia.
Qed.

(** Turn equations between encoded fields into equations between the fields. *)
Ltac decode_fields :=
  repeat match goal with
  | H : to_be_bytes 4 (pi_get _) = to_be_bytes 4 (pi_get _) |- _ =>
      apply participant_bytes_inj in H; [|assumption..]
  | H : to_be_bytes 4 _ = to_be_bytes 4 _ |- _ => apply to_be_bytes_4_inj in H; [|assumption..]
  | H : to_be_bytes 8 (len _) = to_be_bytes 8 (len _) |- _ =>
      apply len_bytes_inj in H; [|assumption..]
  | H : to_be_bytes 8 _ = to_be_bytes 8 _ |- _ => apply to_be_bytes_8_inj in H; [|assumption..]
  | H : repr_as_ref (to_repr _) = repr_as_ref (to_repr _) |- _ => apply scalar_bytes_inj in H
  | H : element_as_ref (encode_element _) = element_as_ref (encode_element _) |- _ =>
      apply element_bytes_inj in H
  end.

(** ** [hash_to_scalar] *)
Section hash_to_scalar.
Context {F : Type} `{ScalarField F} `{!ScalarCodec F} `{Sha256Laws}.

(** The digest stream of one counter. *)
Definition digest_block (domain message : list byte) (counter block : Z) : list byte :=
  sha256 (bstr "golden-scalar-v1" ++ to_be_bytes 8 (len domain) ++ domain
          ++ to_be_bytes 8 (len message) ++ message
          ++ to_be_bytes 4 counter ++ to_be_bytes 4 block).

Lemma expand_blocks_length fuel domain message counter block bytes :
  REPR_BYTES ≤ len bytes + Z.of_nat fuel →
  REPR_BYTES ≤ len (expand_blocks (F:=F) fuel domain message counter block bytes).
Proof.
  revert block bytes. induction fuel as [|fuel IH]; intros block bytes Hf; simpl; [lia|].
  case_bool_decide; [|lia]. apply IH. unfold len in *. rewrite length_app, length_sha256. lia.
Qed.

(** The stream is the concatenation of the digests of consecutive blocks, cut
    at the first block boundary past [REPR_BYTES]. *)
Lemma expand_blocks_stream fuel domain message counter block bytes :
  ∃ n, expand_blocks (F:=F) fuel domain message counter block bytes
       = bytes ++ concat ((λ i, digest_block domain message counter (block + Z.of_nat i)) <$> seq 0 n).
Proof.
  revert block bytes. induction fuel as [|fuel IH]; intros block bytes; simpl.
  { exists 0%nat. by rewrite app_nil_r. }
  case_bool_decide; [|exists 0%nat; by rewrite app_nil_r].
  destruct (IH (block + 1) (bytes ++ digest_block domain message counter block)) as [n Hn].
  exists (S n). unfold digest_block in Hn at 1. etransitivity; [exact Hn|].
  rewrite <-app_assoc. csimpl. rewrite Z.add_0_r. do 2 f_equal.
  rewrite <-fmap_S_seq, <-list_fmap_compose. f_equal. apply list_fmap_ext.
  intros _ i _. simpl. f_equal. lia.
Qed.

Definition attempt_bytes (domain message : list byte) (counter : Z) : list byte :=
  take (Z.to_nat REPR_BYTES)
    (expand_blocks (F:=F) (Z.to_nat REPR_BYTES) domain message counter 0 []).

Lemma length_attempt_bytes domain message counter :
  len (attempt_bytes domain message counter) = REPR_BYTES (F:=F).
Proof.
  pose proof (REPR_BYTES_range (F:=F)).
  pose proof (expand_blocks_length (Z.to_nat REPR_BYTES) domain message counter 0 []).
  unfold attempt_bytes, len in *. rewrite length_take. simpl in *. lia.
Qed.

Lemma hash_attempt_Ok domain message counter (s : F) :
  hash_attempt domain message counter = inr (Ok s) →
  s ≠ szero ∧ repr_as_ref (to_repr s) = attempt_bytes domain message counter.
Proof.
  unfold hash_attempt. fold (attempt_bytes domain message counter).
  destruct (repr_try_from _) as [r|] eqn:Hr; [|done].
  destruct (from_repr r) as [s'|] eqn:Hs; [|done].
  destruct (is_zero s') eqn:Hz; [done|]. intros [= ->]. split.
  - intros ->. apply not_true_iff_false in Hz. apply Hz. by apply is_zero_spec.
  - apply to_from_repr in Hs as ->. by apply repr_as_ref_try_from.
Qed.

Lemma hash_to_scalar_attempt domain message (r : Result F) :
  hash_to_scalar domain message = r →
  r = Err InvalidEncoding ∨ ∃ counter, 0 ≤ counter ∧ hash_attempt domain message counter = inr r.
Proof.
  unfold hash_to_scalar. rewrite pos_loop_nat. destruct (nat_loop _ _ _) as [c|r'] eqn:Hl.
  { intros <-. by left. }
  intros <-. right.
  apply (nat_loop_inr _ (λ c, 0 ≤ c)) in Hl as (c & Hc & Hr); [by exists c|done|].
  intros c c' Hc. unfold hash_attempt. repeat case_match; intros; simplify_eq; lia.
Qed.

Lemma hash_to_scalar_nonzero domain message (s : F) :
  hash_to_scalar domain message = Ok s → s ≠ szero.
Proof.
  intros [|(c & _ & Hc)]%hash_to_scalar_attempt; [done|]. by apply hash_attempt_Ok in Hc as [? _].
Qed.

Lemma hash_to_scalar_Err domain message e :
  hash_to_scalar (F:=F) domain message = Err e → e = InvalidEncoding.
Proof.
  intros [[= ->]|(c & _ & Hc)]%hash_to_scalar_attempt; [done|].
  unfold hash_attempt in Hc. repeat case_match; naive_solver.
Qed.
End hash_to_scalar.
