(* ===== verification/IdentityKey.v ===== *)
(** * Identity-key proofs (identity_key.rs)

    Schnorr proofs of knowledge of an identity secret. *)

From Stdlib Require Import ZArith Lia Field Strings.Byte.
From stdpp Require Import prelude strings.
From S2P Require Import Prelude BTree CoreError Group Algebra Participant Transcript TestSupport.

Local Open Scope golden_scope.

Record IdentityKeyProof `{GoldenGroup} := MkIdentityKeyProof {
  nonce_point : Element;
  response : Scalar;
}.
Arguments MkIdentityKeyProof {_} _ _.

#[export] Instance IdentityKeyProof_eq_dec `{GoldenGroup} : EqDecision IdentityKeyProof.
Proof. solve_decision. Defined.

Section ops.
Context `{GoldenGroup} `{Sha256}.

Definition proof_nonce (identity_secret : Scalar) : Result Scalar :=
  let transcript := tb_new (bstr "identity-key-proof-nonce") in
  let transcript := tb_bytes (bstr "backend") BACKEND_ID transcript in
  let transcript := tb_scalar (bstr "identity-secret") identity_secret transcript in
  hash_to_scalar (bstr "golden-identity-key-proof-nonce-v1") (tb_root transcript).

(** The transcript of [proof_challenge], before it is hashed. *)
Definition challenge_transcript (public_key nonce_point : Element) : TranscriptBuilder :=
  let transcript := tb_new (bstr "identity-key-proof") in
  let transcript := tb_bytes (bstr "backend") BACKEND_ID transcript in
  let transcript := tb_element (bstr "public-key") public_key transcript in
  tb_element (bstr "nonce-point") nonce_point transcript.

Definition proof_challenge (public_key nonce_point : Element) : Result Scalar :=
  hash_to_scalar (bstr "golden-identity-key-proof-v1")
    (tb_root (challenge_transcript public_key nonce_point)).

Definition prove (identity_secret : Scalar) : Result IdentityKeyProof :=
  let public_key := mul_generator identity_secret in
  nonce ← proof_nonce identity_secret;
  let nonce_point := mul_generator nonce in
  challenge ← proof_challenge public_key nonce_point;
  Ok (MkIdentityKeyProof nonce_point (nonce + challenge * identity_secret)).

Definition verify (proof : IdentityKeyProof) (public_key : Element) : Result unit :=
  if is_identity (nonce_point proof) then Err ProofVerificationFailed
  else
    challenge ← proof_challenge public_key (nonce_point proof);
    let expected := nonce_point proof ⊞ public_key ⊠ challenge in
    if bool_decide (mul_generator (response proof) = expected) then Ok tt
    else Err ProofVerificationFailed.
End ops.

#[global] Arguments prove : simpl never.
#[global] Arguments verify : simpl never.
#[global] Arguments proof_challenge : simpl never.

(** ** Lemmas *)
Section lemmas.
Context `{GroupModule} `{!GroupCodec} `{Sha256Laws}.

(** Two responses to different challenges at one commitment give the secret. *)
Lemma schnorr_extract (A P : Element) (z1 z2 c1 c2 : Scalar) :
  mul_generator z1 = A ⊞ P ⊠ c1 → mul_generator z2 = A ⊞ P ⊠ c2 → c1 ≠ c2 →
  P = mul_generator ((z1 - z2) * sinv (c1 - c2)).
Proof.
  intros Hz1 Hz2 Hne. rewrite <-mul_generator_mul, mul_generator_sub, Hz1, Hz2.
  assert (Hd : A ⊞ P ⊠ c1 ⊟ (A ⊞ P ⊠ c2) = P ⊠ (c1 - c2)).
  { apply (gadd_cancel_r _ _ (A ⊞ P ⊠ c2)).
    rewrite gsub_add, (gadd_comm A (P ⊠ c2)), gadd_assoc.
    rewrite <-gmul_add_r, ssub_add. apply gadd_comm. }
  rewrite Hd, gmul_mul, sinv_r, gmul_1; [done|]. by rewrite ssub_eq_0.
Qed.

Lemma verify_Ok proof public_key u :
  verify proof public_key = Ok u ↔
  nonce_point proof ≠ identity ∧
  ∃ c, proof_challenge public_key (nonce_point proof) = Ok c ∧
       mul_generator (response proof) = nonce_point proof ⊞ public_key ⊠ c.
Proof.
  unfold verify. destruct (is_identity _) eqn:Hid.
  { apply is_identity_true in Hid. naive_solver. }
  apply is_identity_false in Hid.
  destruct (proof_challenge _ _) as [c|]; cbn [mbind result_bind]; [|naive_solver].
  destruct u. case_bool_decide; naive_solver.
Qed.

Lemma proof_nonce_nonzero identity_secret n :
  proof_nonce identity_secret = Ok n → n ≠ szero.
Proof. unfold proof_nonce. apply hash_to_scalar_nonzero. Qed.

Lemma proof_challenge_nonzero public_key nonce_point c :
  proof_challenge public_key nonce_point = Ok c → c ≠ szero.
Proof. unfold proof_challenge. apply hash_to_scalar_nonzero. Qed.

Lemma verify_prove identity_secret proof :
  prove identity_secret = Ok proof → verify proof (mul_generator identity_secret) = Ok ().
Proof.
  unfold prove. intros Hp. apply bind_Ok in Hp as (n & Hn & Hp).
  apply bind_Ok in Hp as (c & Hc & [= <-]). apply verify_Ok. split.
  - simpl. rewrite mul_generator_eq_identity. exact (proof_nonce_nonzero _ _ Hn).
  - exists c. split; [done|]. simpl.
    by rewrite mul_generator_add, mul_generator_mul, (smul_comm c).
Qed.

Lemma challenge_transcript_inj pk pk' R R' :
  hasher (challenge_transcript pk R) = hasher (challenge_transcript pk' R') → pk = pk' ∧ R = R'.
Proof.
  unfold challenge_transcript, tb_element. rewrite !hasher_tb_bytes, <-!app_assoc.
  intros Heq%app_inv_head. apply app_inv_head in Heq. split_frame Heq.
  rewrite <-(app_nil_r (frame (bstr "nonce-point") (element_as_ref (encode_element R)))) in Heq.
  rewrite <-(app_nil_r (frame (bstr "nonce-point") (element_as_ref (encode_element R')))) in Heq.
  split_frame Heq. auto using element_bytes_inj.
Qed.
End lemmas.

(** ** Properties *)

(** Completeness and determinism of the identity-key proof: a proof that
    [prove] returns verifies against the public key of the secret, and it is
    refused for every other public key that yields the same challenge. *)
Theorem identity_proof_complete `{GroupModule} `{!GroupCodec} `{Sha256Laws}
    identity_secret proof :
  prove identity_secret = Ok proof →
  verify proof (mul_generator identity_secret) = Ok () ∧
  ∀ public_key, public_key ≠ mul_generator identity_secret →
    proof_challenge public_key (nonce_point proof)
    = proof_challenge (mul_generator identity_secret) (nonce_point proof) →
    verify proof public_key = Err ProofVerificationFailed.
Proof.
  intros Hp%verify_prove. split; [done|]. intros pk Hne Hch.
  apply verify_Ok in Hp as (Hid & c & Hc & Hz).
  unfold verify. rewrite (proj2 (is_identity_false _) Hid), Hch, Hc. cbn [mbind result_bind].
  rewrite bool_decide_eq_false_2; [done|]. rewrite Hz. intros Heq.
  rewrite !(gadd_comm (nonce_point proof)) in Heq. apply gadd_cancel_r in Heq.
  apply Hne. apply (f_equal (λ P, P ⊠ sinv c)) in Heq.
  rewrite !gmul_mul, sinv_r, !gmul_1 in Heq by exact (proof_challenge_nonzero _ _ _ Hc).
  done.
Qed.

Lemma identity_proof_complete_witness :
  let proof := MkIdentityKeyProof (H:=TinyGroup) (tiny 47) (tiny 78) in
  prove (H:=TinyGroup) (tiny 5) = Ok proof ∧
  verify (H:=TinyGroup) proof (mul_generator (GoldenGroup:=TinyGroup) (tiny 5)) = Ok ().
Proof.
  intros proof.
  assert (Hp : prove (H:=TinyGroup) (tiny 5) = Ok proof) by vm_refl.
  split; [exact Hp|].
  exact (proj1 (identity_proof_complete (H:=TinyGroup) (tiny 5) proof Hp)).
Defined.

(** Special soundness.  Run against two hash functions (the prover rewound
    at its challenge query), two accepting proofs for one key and one nonce
    point whose challenges differ give the secret of the key. *)
Theorem identity_proof_special_soundness `{GroupModule} `{!GroupCodec}
    (hash1 hash2 : Sha256) public_key proof1 proof2 c1 c2 :
  @verify _ hash1 proof1 public_key = Ok () →
  @verify _ hash2 proof2 public_key = Ok () →
  nonce_point proof1 = nonce_point proof2 →
  @proof_challenge _ hash1 public_key (nonce_point proof1) = Ok c1 →
  @proof_challenge _ hash2 public_key (nonce_point proof2) = Ok c2 →
  c1 ≠ c2 →
  public_key = mul_generator ((response proof1 - response proof2) * sinv (c1 - c2)).
Proof.
  intros (_ & c & Hc & Hz1)%verify_Ok (_ & c' & Hc' & Hz2)%verify_Ok Hn Hc1 Hc2 Hne.
  rewrite Hc1 in Hc. rewrite Hc2 in Hc'. injection Hc as <-. injection Hc' as <-.
  rewrite Hn in Hz1. by apply schnorr_extract with (nonce_point proof2).
Qed.

Lemma identity_proof_special_soundness_witness :
  let hash c := {| sha256 := λ _, replicate 32 c |} in
  let proof1 := MkIdentityKeyProof (H:=TinyGroup) (tiny 7) (tiny 12) in
  let proof2 := MkIdentityKeyProof (H:=TinyGroup) (tiny 7) (tiny 17) in
  @verify TinyGroup (hash Byte.x01) proof1 (tiny 5) = Ok () ∧
  @verify TinyGroup (hash Byte.x02) proof2 (tiny 5) = Ok () ∧
  tiny 5 = mul_generator (GoldenGroup:=TinyGroup)
    ((response proof1 - response proof2) * sinv (tiny 1 - tiny 2)).
Proof.
  intros hash proof1 proof2.
  assert (H1 : @verify TinyGroup (hash Byte.x01) proof1 (tiny 5) = Ok ()) by vm_refl.
  assert (H2 : @verify TinyGroup (hash Byte.x02) proof2 (tiny 5) = Ok ()) by vm_refl.
  split; [exact H1|]. split; [exact H2|].
  apply (identity_proof_special_soundness (H:=TinyGroup) _ _ _ _ _ (tiny 1) (tiny 2) H1 H2).
  - reflexivity.
  - vm_refl.
  - vm_refl.
  - intros E%(f_equal tiny_val). vm_compute in E. discriminate.
Defined.
