(* ===== verification/Registry.v ===== *)
(** * Registry and configuration (dkg.rs, lines 14-184)

    Session identifiers, the participant registry with its admission checks and
    its root, and the DKG configuration. *)

From Stdlib Require Import ZArith Lia Strings.Byte.
From stdpp Require Import prelude strings.
From S2P Require Import Prelude BTree CoreError Group Algebra Participant Transcript IdentityKey.
From S2P Require Import TestSupport.

Definition PROTOCOL_VERSION : Z := 2.
Definition DEALER_MESSAGE_NONCE_BYTES : Z := 32.

Record SessionId := MkSessionId { session_bytes : list byte }.
Record DealerMessageNonce := MkDealerMessageNonce { nonce_bytes : list byte }.

#[export] Instance SessionId_eq_dec : EqDecision SessionId.
Proof. solve_decision. Defined.
#[export] Instance DealerMessageNonce_eq_dec : EqDecision DealerMessageNonce.
Proof. solve_decision. Defined.

Definition SessionId_random `{CryptoRngCore R} (rng : R) : SessionId * R :=
  let '(bytes, rng) := fill_bytes 32 rng in (MkSessionId bytes, rng).
Definition DealerMessageNonce_random `{CryptoRngCore R} (rng : R) : DealerMessageNonce * R :=
  let '(bytes, rng) := fill_bytes (Z.to_nat DEALER_MESSAGE_NONCE_BYTES) rng in
  (MkDealerMessageNonce bytes, rng).

(** The arrays have 32 bytes. *)
Definition session_wf (s : SessionId) : Prop := length (session_bytes s) = 32.
Definition nonce_wf (n : DealerMessageNonce) : Prop := length (nonce_bytes n) = 32.
Definition root_wf (r : TranscriptRoot) : Prop := length r = 32.

#[export] Instance session_wf_dec s : Decision (session_wf s).
Proof. unfold session_wf. apply _. Defined.
#[export] Instance nonce_wf_dec n : Decision (nonce_wf n).
Proof. unfold nonce_wf. apply _. Defined.
#[export] Instance root_wf_dec r : Decision (root_wf r).
Proof. unfold root_wf. apply _. Defined.

(** [BTreeMap<ParticipantIndex, (G::Element, IdentityKeyProof<G>)>]. *)
Abbreviation Participants := (list (ParticipantIndex * (Element * IdentityKeyProof))).

Record ParticipantRegistry `{GoldenGroup} := MkParticipantRegistry {
  registry_participants : Participants;
  registry_root_field : TranscriptRoot;
}.
Arguments MkParticipantRegistry {_} _ _.

Record DkgConfig `{GoldenGroup} := MkDkgConfig {
  config_threshold : Z;
  config_session_id : SessionId;
  config_beta : Scalar;
  config_registry : ParticipantRegistry;
}.
Arguments MkDkgConfig {_} _ _ _ _.

Section ops.
Context `{GoldenGroup} `{Sha256}.

(** The transcript of [registry_root], before it is hashed. *)
Definition registry_transcript (participants : Participants) : TranscriptBuilder :=
  let transcript := tb_new (bstr "registry") in
  let transcript := tb_bytes (bstr "backend") BACKEND_ID transcript in
  let transcript := tb_usize (bstr "len") (len participants) transcript in
  foldl (λ transcript '(participant, (public_key, _)),
           let transcript := tb_participant (bstr "participant") participant transcript in
           tb_element (bstr "public-key") public_key transcript)
        transcript participants.

Definition registry_root (participants : Participants) : TranscriptRoot :=
  tb_root (registry_transcript participants).

(** One pass of the loop of [ParticipantRegistry::new]; the state is the map
    and the vector of encoded keys seen so far. *)
Definition registry_entry
    (state : Participants * list (list byte * ParticipantIndex))
    (entry : ParticipantIndex * Element * IdentityKeyProof)
    : Result (Participants * list (list byte * ParticipantIndex)) :=
  let '(participants, public_keys) := state in
  let '(participant, public_key, proof) := entry in
  if BTreeMap.contains_key participant participants
  then Err (DuplicateParticipantIndex (pi_get participant))
  else if is_identity public_key then Err InvalidEncoding
  else
    let encoded_public_key := element_as_ref (encode_element public_key) in
    match List.find (λ '(known, _), bool_decide (known = encoded_public_key)) public_keys with
    | Some (_, first) =>
        Err (DuplicateParticipantPublicKey (pi_get first) (pi_get participant))
    | None =>
        let negated_public_key := element_as_ref (encode_element (gsub identity public_key)) in
        match List.find (λ '(known, _), bool_decide (known = negated_public_key)) public_keys with
        | Some (_, first) =>
            Err (NegatedParticipantPublicKey (pi_get first) (pi_get participant))
        | None =>
            _ ← map_err (λ _, InvalidIdentityKeyProof (pi_get participant))
                  (verify proof public_key);
            Ok (BTreeMap.insert participant (public_key, proof) participants,
                public_keys ++ [(encoded_public_key, participant)])
        end
    end.

Definition ParticipantRegistry_new
    (entries : list (ParticipantIndex * Element * IdentityKeyProof))
    : Result ParticipantRegistry :=
  '(participants, _) ← fold_result registry_entry (BTreeMap.empty, []) entries;
  let root := registry_root participants in
  Ok (MkParticipantRegistry participants root).

Definition registry_len (registry : ParticipantRegistry) : Z :=
  len (registry_participants registry).
Definition registry_is_empty (registry : ParticipantRegistry) : bool :=
  bool_decide (registry_participants registry = []).
Definition registry_public_key (registry : ParticipantRegistry) (participant : ParticipantIndex)
    : Result Element :=
  ok_or (UnknownParticipant (pi_get participant))
    (fst <$> BTreeMap.get participant (registry_participants registry)).
Definition registry_indexes (registry : ParticipantRegistry) : list ParticipantIndex :=
  BTreeMap.keys (registry_participants registry).
Definition registry_entries (registry : ParticipantRegistry) : list (ParticipantIndex * Element) :=
  (λ '(participant, (public_key, _)), (participant, public_key))
    <$> registry_participants registry.
Definition registry_entries_with_proofs (registry : ParticipantRegistry)
    : list (ParticipantIndex * Element * IdentityKeyProof) :=
  (λ '(participant, (public_key, proof)), (participant, public_key, proof))
    <$> registry_participants registry.

Definition DkgConfig_new (threshold : Z) (session_id : SessionId) (beta : Scalar)
    (registry : ParticipantRegistry) : Result DkgConfig :=
  if (threshold =? 0)%Z || (registry_len registry <? threshold)%Z
  then (Err (InvalidThreshold threshold (registry_len registry)))
  else Ok (MkDkgConfig threshold session_id beta registry).
End ops.

(** ** Admission *)
Section admission.
Context `{GroupModule} `{!GroupCodec} `{Sha256Laws}.
Abbreviation Entry := (ParticipantIndex * Element * IdentityKeyProof)%type.

Definition entry_index (e : Entry) : ParticipantIndex := e.1.1.
Definition entry_key (e : Entry) : Element := e.1.2.
Definition entry_proof (e : Entry) : IdentityKeyProof := e.2.

(** An entry may follow the entries [before]. *)
Definition registrable (before : list Entry) (e : Entry) : Prop :=
  (entry_index e ∉ entry_index <$> before) ∧
  entry_key e ≠ identity ∧
  (∀ e', e' ∈ before →
    entry_key e' ≠ entry_key e ∧ entry_key e' ≠ gsub identity (entry_key e)) ∧
  verify (entry_proof e) (entry_key e) = Ok ().

(** Every entry may follow those in front of it. *)
Definition admissible (entries : list Entry) : Prop :=
  ∀ before e after, entries = before ++ e :: after → registrable before e.

(** The reason an error gives for refusing [e] after [before]. *)
Definition refused_with (before : list Entry) (e : Entry) (err : CoreError) : Prop :=
  match err with
  | DuplicateParticipantIndex i =>
      i = pi_get (entry_index e) ∧ (entry_index e ∈ entry_index <$> before)
  | InvalidEncoding => entry_key e = identity
  | DuplicateParticipantPublicKey first second =>
      second = pi_get (entry_index e) ∧
      ∃ e', e' ∈ before ∧ first = pi_get (entry_index e') ∧ entry_key e' = entry_key e
  | NegatedParticipantPublicKey first second =>
      second = pi_get (entry_index e) ∧
      ∃ e', e' ∈ before ∧ first = pi_get (entry_index e') ∧
            entry_key e' = gsub identity (entry_key e)
  | InvalidIdentityKeyProof i =>
      i = pi_get (entry_index e) ∧ verify (entry_proof e) (entry_key e) ≠ Ok ()
  | _ => False
  end.

(** The loop state after the entries [before]. *)
Definition registry_inv (before : list Entry)
    (state : Participants * list (list byte * ParticipantIndex)) : Prop :=
  admissible before ∧ BTreeMap.wf state.1 ∧
  (∀ p v, BTreeMap.get p state.1 = Some v ↔ (p, v.1, v.2) ∈ before) ∧
  state.2 = (λ e, (element_as_ref (encode_element (entry_key e)), entry_index e)) <$> before.

Lemma find_encoded (P : Element) (before : list Entry) :
  match List.find (λ '(known, _), bool_decide (known = element_as_ref (encode_element P)))
          ((λ e, (element_as_ref (encode_element (entry_key e)), entry_index e)) <$> before) with
  | Some (_, first) => ∃ e', e' ∈ before ∧ first = entry_index e' ∧ entry_key e' = P
  | None => ∀ e', e' ∈ before → entry_key e' ≠ P
  end.
Proof.
  induction before as [|e before IH]; csimpl; [by intros e' ?%elem_of_nil|].
  case_bool_decide as Heq.
  - apply element_bytes_inj in Heq. exists e. split; [left|done].
  - destruct (List.find _ _) as [[known first]|].
    + destruct IH as (e' & ? & ?). exists e'. split; [by right|done].
    + intros e' [->|He']%elem_of_cons; [congruence|auto].
Qed.

Lemma registry_inv_index before state p :
  registry_inv before state →
  BTreeMap.contains_key p state.1 = true ↔ p ∈ entry_index <$> before.
Proof.
  intros (_ & _ & Hget & _). rewrite BTreeMap.contains_key_spec, <-BTreeMap.get_is_Some.
  rewrite list_elem_of_fmap. split.
  - intros [v Hv%Hget]. by exists (p, v.1, v.2).
  - intros ([[q k] π] & -> & Hin). exists (k, π). by apply Hget.
Qed.

Lemma admissible_snoc before e :
  admissible before → registrable before e → admissible (before ++ [e]).
Proof.
  intros Hadm He l1 e' l2 Heq. destruct l2 as [|e2 l2 _] using rev_ind.
  - apply app_inj_2 in Heq as [-> [= ->]]; done.
  - rewrite app_comm_cons, app_assoc in Heq. apply app_inj_2 in Heq as [-> _]; [|done].
    by eapply Hadm.
Qed.

Lemma registry_entry_spec before state e :
  registry_inv before state →
  match registry_entry state e with
  | Ok state' => registrable before e ∧ registry_inv (before ++ [e]) state'
  | Err err => refused_with before e err
  end.
Proof.
  intros Hinv. pose proof (registry_inv_index _ _ (entry_index e) Hinv) as Hidx.
  destruct Hinv as (Hadm & Hwf & Hget & Hpk). destruct state as [ps pks].
  destruct e as [[p pk] π]. unfold registry_entry, entry_index, entry_key in *. simpl in *.
  destruct (BTreeMap.contains_key p ps); [split; [done|by apply Hidx]|].
  destruct (is_identity pk) eqn:Hid; [by apply is_identity_true|].
  apply is_identity_false in Hid. subst pks.
  pose proof (find_encoded pk before) as Hd. destruct (List.find _ _) as [[known first]|].
  { destruct Hd as (e' & ? & -> & ?). split; [done|]. by exists e'. }
  pose proof (find_encoded (gsub identity pk) before) as Hn.
  destruct (List.find _ _) as [[known first]|].
  { destruct Hn as (e' & ? & -> & ?). split; [done|]. by exists e'. }
  destruct (verify π pk) as [[]|err] eqn:Hv; cbn [map_err mbind result_bind].
  2: { split; [done|]. unfold entry_proof, entry_key. simpl. rewrite Hv. discriminate. }
  assert (Hidx' : p ∉ entry_index <$> before) by (intros Hin; by apply Hidx in Hin).
  assert (Hr : registrable before (p, pk, π)) by (repeat split; simpl; auto).
  split; [done|]. split; [by apply admissible_snoc|].
  split; [by apply BTreeMap.wf_insert|]. split; [|by rewrite fmap_app].
  intros q [k π']. simpl. rewrite elem_of_app, list_elem_of_singleton.
  destruct (decide (q = p)) as [->|Hqp].
  - rewrite BTreeMap.get_insert_eq. split; [intros [= <- <-]; by right|].
    intros [Hin|[= -> ->]]; [|done]. exfalso. apply Hidx', list_elem_of_fmap.
    by exists (p, k, π').
  - rewrite BTreeMap.get_insert_ne by done. rewrite Hget. simpl. naive_solver.
Qed.

Lemma registry_fold_spec before state entries :
  registry_inv before state →
  match fold_result registry_entry state entries with
  | Ok state' => registry_inv (before ++ entries) state'
  | Err err => ∃ l1 e l2, entries = l1 ++ e :: l2 ∧ admissible (before ++ l1) ∧
                          refused_with (before ++ l1) e err
  end.
Proof.
  revert before state. induction entries as [|e entries IH]; intros before state Hinv;
    cbn [fold_result]; [by rewrite app_nil_r|].
  pose proof (registry_entry_spec before state e Hinv) as He.
  destruct (registry_entry state e) as [state'|err]; cbn [mbind result_bind].
  - destruct He as [_ Hinv']. specialize (IH _ _ Hinv').
    rewrite <-app_assoc in IH. destruct (fold_result _ _ _) as [|err]; [done|].
    destruct IH as (l1 & e' & l2 & -> & Hadm & Href). exists (e :: l1), e', l2.
    by rewrite <-app_assoc in Hadm, Href.
  - exists [], e, entries. rewrite app_nil_r. destruct Hinv as [? _]. done.
Qed.

Lemma registry_inv_nil : registry_inv [] (BTreeMap.empty, []).
Proof.
  split; [|split; [apply BTreeMap.wf_empty|split; [|done]]].
  - intros [|??] ??; discriminate.
  - intros p v. simpl. rewrite elem_of_nil. done.
Qed.

Lemma registrable_not_refused before e err :
  registrable before e → ¬ refused_with before e err.
Proof.
  intros (Hi & Hk & Hb & Hv). destruct err; simpl; try tauto.
  - intros (_ & e' & He' & _ & E). by destruct (Hb e' He').
  - intros (_ & e' & He' & _ & E). by destruct (Hb e' He').
Qed.

(** What the constructor decides and returns. *)
Definition registry_new_outcome (entries : list Entry) (result : Result ParticipantRegistry) : Prop :=
  match result with
  | Ok registry =>
      admissible entries ∧
      BTreeMap.wf (registry_participants registry) ∧
      (∀ p pk π, BTreeMap.get p (registry_participants registry) = Some (pk, π)
                 ↔ (p, pk, π) ∈ entries) ∧
      registry_root_field registry = registry_root (registry_participants registry)
  | Err err =>
      ∃ before e after, entries = before ++ e :: after ∧ admissible before ∧
        ¬ registrable before e ∧ refused_with before e err
  end.

Lemma registry_new_spec entries : registry_new_outcome entries (ParticipantRegistry_new entries).
Proof.
  unfold ParticipantRegistry_new.
  pose proof (registry_fold_spec [] (BTreeMap.empty, []) entries registry_inv_nil) as Hf.
  destruct (fold_result _ _ _) as [[ps pks]|err]; cbn [mbind result_bind].
  - destruct Hf as (Hadm & Hwf & Hget & _). split; [done|]. split; [done|]. split; [|done].
    intros p pk π. apply (Hget p (pk, π)).
  - destruct Hf as (l1 & e & l2 & -> & Hadm & Href). exists l1, e, l2.
    split; [done|]. split; [exact Hadm|]. split; [|exact Href].
    intros Hr. exact (registrable_not_refused _ _ _ Hr Href).
Qed.

(** Admissibility does not depend on the order of the entries. *)
Lemma admissible_snoc_iff before e :
  admissible (before ++ [e]) ↔ admissible before ∧ registrable before e.
Proof.
  split; [|intros [??]; by apply admissible_snoc]. intros Hadm. split.
  - intros l1 e' l2 ->. apply (Hadm l1 e' (l2 ++ [e])). by rewrite <-app_assoc.
  - by apply (Hadm before e []).
Qed.

Definition compatible (e e' : Entry) : Prop :=
  entry_key e ≠ entry_key e' ∧ entry_key e ≠ gsub identity (entry_key e').

Lemma compatible_sym e e' : compatible e e' → compatible e' e.
Proof.
  intros [Hk Hn]. split; [congruence|]. intros E. apply Hn. rewrite E. symmetry. apply gneg_involutive.
Qed.

Lemma admissible_iff (entries : list Entry) :
  admissible entries ↔
  NoDup (entry_index <$> entries) ∧
  (∀ e, e ∈ entries → entry_key e ≠ identity ∧ verify (entry_proof e) (entry_key e) = Ok ()) ∧
  (∀ e e', e ∈ entries → e' ∈ entries → entry_index e ≠ entry_index e' → compatible e e').
Proof.
  induction entries as [|e entries IH] using rev_ind.
  { split; [|by intros _ [|] ?]. intros _. split; [constructor|].
    split; intros ?; [by intros ?%elem_of_nil|by intros ? ?%elem_of_nil]. }
  rewrite admissible_snoc_iff, IH, fmap_app, NoDup_app. unfold registrable.
  setoid_rewrite elem_of_app. setoid_rewrite list_elem_of_singleton. split.
  - intros ((Hnd & Hk & Hc) & Hi & Hid & Hb & Hv).
    split; [|split].
    + split; [done|]. split; [|by apply NoDup_singleton].
      intros p Hp ->. contradiction.
    + intros e' [?| ->]; [auto|done].
    + intros e1 e2 [H1'| ->] [H2'| ->] Hne; [auto| |apply compatible_sym|done];
        destruct (Hb _ ltac:(eassumption)); by split.
  - intros ((Hnd & Hd & _) & Hk & Hc). split; [split; [done|split; auto]|].
    assert (Hi : entry_index e ∉ entry_index <$> entries).
    { intros Hin. exact (Hd _ Hin eq_refl). }
    split; [done|]. destruct (Hk e ltac:(auto)). split; [done|]. split; [|done].
    intros e' He'. destruct (Hc e' e) as [??]; [auto|auto| |done].
    intros E. apply Hi. rewrite <-E. apply list_elem_of_fmap. eauto.
Qed.

(** The constructor accepts a registry's own entries and returns it. *)
Lemma registry_new_canonical entries (registry : ParticipantRegistry) :
  ParticipantRegistry_new entries = Ok registry →
  ParticipantRegistry_new (registry_entries_with_proofs registry) = Ok registry ∧
  BTreeMap.wf (registry_participants registry) ∧
  (∀ p, p ∈ registry_indexes registry → p ∈ entry_index <$> entries).
Proof.
  intros Hnew. pose proof (registry_new_spec entries) as Hs. rewrite Hnew in Hs.
  destruct Hs as (Hadm & Hwf & Hget & Hroot).
  assert (Hin : ∀ e, e ∈ registry_entries_with_proofs registry ↔ e ∈ entries).
  { intros [[p pk] π]. rewrite <-Hget, BTreeMap.get_Some by done.
    unfold registry_entries_with_proofs. rewrite list_elem_of_fmap. split.
    - by intros ([? [??]] & [= -> -> ->] & ?).
    - intros ?. by exists (p, (pk, π)). }
  assert (Hidx : entry_index <$> registry_entries_with_proofs registry = registry_indexes registry).
  { unfold registry_entries_with_proofs, registry_indexes, BTreeMap.keys.
    rewrite <-list_fmap_compose. apply list_fmap_ext. by intros ? [? [??]]. }
  assert (Hadm' : admissible (registry_entries_with_proofs registry)).
  { apply admissible_iff in Hadm as (_ & Hk & Hc). apply admissible_iff. rewrite Hidx.
    split; [by apply BTreeMap.wf_NoDup_keys|]. setoid_rewrite Hin. done. }
  split; [|split; [done|]].
  2: { intros p. rewrite <-Hidx, !list_elem_of_fmap. setoid_rewrite Hin. done. }
  pose proof (registry_new_spec (registry_entries_with_proofs registry)) as Hs.
  destruct (ParticipantRegistry_new (registry_entries_with_proofs registry)) as [r'|err].
  - destruct Hs as (_ & Hwf' & Hget' & Hroot').
    assert (Hps : registry_participants r' = registry_participants registry).
    { apply BTreeMap.wf_ext; [done..|]. intros p. apply option_eq. intros [pk π].
      by rewrite Hget', Hget, Hin. }
    destruct r' as [ps' root'], registry as [ps root]. simpl in *. by subst.
  - destruct Hs as (before & e & after & Heq & _ & Hr & _). destruct Hr. by apply (Hadm' before e after).
Qed.
End admission.

(** ** The registry root *)
Section root.
Context `{GroupModule} `{!GroupCodec}.

(** What the root covers: the index and the key of every participant. *)
Definition registry_view (ps : Participants) : list (ParticipantIndex * Element) :=
  (λ '(p, (pk, _)), (p, pk)) <$> ps.

Definition registry_item (e : ParticipantIndex * (Element * IdentityKeyProof)) : list byte :=
  frame (bstr "participant") (to_be_bytes 4 (pi_get e.1))
  ++ frame (bstr "public-key") (element_as_ref (encode_element e.2.1)).

Lemma registry_transcript_stream ps :
  hasher (registry_transcript ps)
  = hasher (tb_bytes (bstr "backend") BACKEND_ID (tb_new (bstr "registry")))
    ++ frame (bstr "len") (to_be_bytes 8 (len ps)) ++ concat (registry_item <$> ps).
Proof.
  unfold registry_transcript. rewrite (hasher_foldl _ registry_item).
  - transcript_stream. by rewrite <-!app_assoc.
  - intros t [p [pk π]]. transcript_stream.
    by rewrite <-!app_assoc.
Qed.

Lemma registry_transcript_inj ps ps' :
  Forall participant_wf (BTreeMap.keys ps) → Forall participant_wf (BTreeMap.keys ps') →
  slice_ok ps → slice_ok ps' →
  hasher (registry_transcript ps) = hasher (registry_transcript ps') →
  registry_view ps = registry_view ps'.
Proof.
  intros Hps Hps' Hl Hl'. rewrite !registry_transcript_stream.
  intros Heq%app_inv_head. split_frame Heq.
  decode_fields.
  rewrite <-(app_nil_r (concat (registry_item <$> ps))) in Heq.
  rewrite <-(app_nil_r (concat (registry_item <$> ps'))) in Heq.
  apply (items_app_inj (λ e e', e.1 = e'.1 ∧ e.2.1 = e'.2.1)) in Heq as [Heq _].
  - unfold registry_view. apply list_eq_Forall2, Forall2_fmap.
    eapply Forall2_impl; [exact Heq|]. intros [p [pk π]] [q [qk π']]. simpl. by intros [-> ->].
  - intros [p [pk π]] [q [qk π']] r r' Hp Hq. unfold registry_item. simpl.
    rewrite <-!app_assoc. intros E. split_frame E. split_frame E. split; [|done].
    unfold BTreeMap.keys in *. rewrite Forall_fmap, Forall_forall in Hps, Hps'.
    specialize (Hps _ Hp). specialize (Hps' _ Hq). simpl in Hps, Hps'. by decode_fields.
  - done.
Qed.
End root.

(** ** Lookups *)
Section lookups.
Context `{GroupModule} `{Sha256}.

(** The type invariant of a registry. *)
Definition registry_wf (registry : ParticipantRegistry) : Prop :=
  BTreeMap.wf (registry_participants registry) ∧
  Forall participant_wf (registry_indexes registry) ∧
  slice_ok (registry_participants registry) ∧
  root_wf (registry_root_field registry).

Lemma registry_public_key_Ok registry p pk :
  registry_public_key registry p = Ok pk ↔
  ∃ π, BTreeMap.get p (registry_participants registry) = Some (pk, π).
Proof.
  unfold registry_public_key. rewrite ok_or_Ok, fmap_Some. split.
  - intros ([pk' π] & ? & ->). by exists π.
  - intros [π Hπ]. by exists (pk, π).
Qed.

Lemma registry_public_key_indexes registry p :
  (∃ pk, registry_public_key registry p = Ok pk) ↔ p ∈ registry_indexes registry.
Proof.
  unfold registry_indexes. rewrite <-BTreeMap.get_is_Some. split.
  - intros [pk [π ->]%registry_public_key_Ok]. done.
  - intros [[pk π] Hp]. exists pk. apply registry_public_key_Ok. by exists π.
Qed.

Lemma registry_public_key_Err registry p e :
  registry_public_key registry p = Err e →
  e = UnknownParticipant (pi_get p) ∧ p ∉ registry_indexes registry.
Proof.
  intros He. split.
  - unfold registry_public_key in He. destruct (fst <$> _); simpl in He; congruence.
  - rewrite <-registry_public_key_indexes. intros [pk Hpk]. congruence.
Qed.

Lemma registry_indexes_NoDup registry : registry_wf registry → NoDup (registry_indexes registry).
Proof. intros [? _]. by apply BTreeMap.wf_NoDup_keys. Qed.
End lookups.

(** ** Properties *)

(** C32: [ParticipantRegistry::new] admits exactly the entry lists in which
    every entry has a new index, a key other than the identity, no key equal or
    opposite to an earlier one, and a verified proof of knowledge; the registry
    then holds precisely those entries and the root of their map.  A refusal
    names the first offending entry and a reason that applies to it. *)
Theorem registry_new_correct `{GroupModule} `{!GroupCodec} `{Sha256Laws} entries :
  match ParticipantRegistry_new entries with
  | Ok registry =>
      admissible entries ∧
      BTreeMap.wf (registry_participants registry) ∧
      (∀ p pk π, BTreeMap.get p (registry_participants registry) = Some (pk, π)
                 ↔ (p, pk, π) ∈ entries) ∧
      registry_root_field registry = registry_root (registry_participants registry)
  | Err err =>
      ∃ before e after, entries = before ++ e :: after ∧ admissible before ∧
        ¬ registrable before e ∧ refused_with before e err
  end.
Proof. apply registry_new_spec. Qed.

(** The registry root binds the membership: registries over the same
    backend with equal roots list the same indexes with the same keys, or their
    two transcripts are an explicit SHA-256 collision. *)
Theorem registry_root_binding `{GroupModule} `{!GroupCodec} `{Sha256} r1 r2 :
  registry_wf r1 → registry_wf r2 →
  registry_root (registry_participants r1) = registry_root (registry_participants r2) →
  registry_entries r1 = registry_entries r2 ∨
  (let m1 := hasher (registry_transcript (registry_participants r1)) in
   let m2 := hasher (registry_transcript (registry_participants r2)) in
   m1 ≠ m2 ∧ sha256 m1 = sha256 m2).
Proof.
  intros (_ & Hp1 & Hl1 & _) (_ & Hp2 & Hl2 & _) [Heq|Hne]%tb_root_eq; [left|by right].
  by apply registry_transcript_inj in Heq.
Qed.

(** The registry of the witnesses: participants 1, 2, 3 with the secrets 5, 11
    and 20. *)
Definition tiny_identity_secret (p : ParticipantIndex) : TinyScalar :=
  tiny (nth (Z.to_nat (pi_get p)) [0; 5; 11; 20]%Z 0%Z).
Definition tiny_identity_proof (p : ParticipantIndex) : IdentityKeyProof (H:=TinyGroup) :=
  match prove (H:=TinyGroup) (tiny_identity_secret p) with
  | Ok π => π
  | Err _ => MkIdentityKeyProof (H:=TinyGroup) (tiny 0) (tiny 0)
  end.
Definition tiny_entry (i : Z) : ParticipantIndex * TinyScalar * IdentityKeyProof (H:=TinyGroup) :=
  let p := MkParticipantIndex i in (p, tiny_identity_secret p, tiny_identity_proof p).
Definition tiny_participants : list (ParticipantIndex * (TinyScalar * IdentityKeyProof (H:=TinyGroup))) :=
  (λ '(p, pk, π), (p, (pk, π))) <$> [tiny_entry 1; tiny_entry 2; tiny_entry 3].
Definition tiny_registry : ParticipantRegistry (H:=TinyGroup) :=
  MkParticipantRegistry (H:=TinyGroup) tiny_participants
    (registry_root (H:=TinyGroup) tiny_participants).

Example tiny_registry_new :
  ParticipantRegistry_new (H:=TinyGroup) [tiny_entry 2; tiny_entry 3; tiny_entry 1] = Ok tiny_registry.
Proof. vm_refl. Qed.

Lemma registry_new_correct_witness :
  let entries := [tiny_entry 2; tiny_entry 3; tiny_entry 1] in
  ParticipantRegistry_new (H:=TinyGroup) entries = Ok tiny_registry ∧
  admissible (H:=TinyGroup) entries ∧
  ∃ before e after, entries ++ [tiny_entry 2] = before ++ e :: after ∧
    refused_with (H:=TinyGroup) before e (DuplicateParticipantIndex 2).
Proof.
  intros entries.
  pose proof (registry_new_correct (H:=TinyGroup) entries) as Hc.
  pose proof (registry_new_correct (H:=TinyGroup) (entries ++ [tiny_entry 2])) as Hd.
  assert (Hok : ParticipantRegistry_new (H:=TinyGroup) entries = Ok tiny_registry)
    by exact tiny_registry_new.
  rewrite Hok in Hc.
  assert (Herr : ParticipantRegistry_new (H:=TinyGroup) (entries ++ [tiny_entry 2])
                 = Err (DuplicateParticipantIndex 2)) by vm_refl.
  rewrite Herr in Hd. split; [exact Hok|]. split; [apply Hc|].
  destruct Hd as (before & e & after & Hl & _ & _ & Href). exists before, e, after.
  split; [exact Hl|exact Href].
Defined.

Lemma tiny_registry_wf : registry_wf (H:=TinyGroup) tiny_registry.
Proof.
  split; [|split; [|split]].
  - repeat constructor.
  - apply (bool_decide_unpack _). vm_compute. exact I.
  - vm_compute. discriminate.
  - reflexivity.
Qed.

(** The root covers the keys and not the proofs. *)
Lemma registry_root_binding_witness :
  let other := MkParticipantRegistry (H:=TinyGroup)
    ((λ '(p, (pk, _)), (p, (pk, MkIdentityKeyProof (H:=TinyGroup) (tiny 1) (tiny 2))))
       <$> tiny_participants) (registry_root (H:=TinyGroup) tiny_participants) in
  registry_participants tiny_registry ≠ registry_participants other ∧
  (registry_entries (H:=TinyGroup) tiny_registry = registry_entries (H:=TinyGroup) other ∨
   (let m1 := hasher (registry_transcript (H:=TinyGroup) tiny_participants) in
    let m2 := hasher (registry_transcript (H:=TinyGroup) (registry_participants other)) in
    m1 ≠ m2 ∧ sha256 m1 = sha256 m2)).
Proof.
  intros other. split.
  { intros E. apply (f_equal (λ l, (λ e, tiny_val (response (H:=TinyGroup) (snd (snd e)))) <$> l)) in E.
    vm_compute in E. discriminate. }
  apply (registry_root_binding (H:=TinyGroup) tiny_registry other tiny_registry_wf).
  - split; [|split; [|split]].
    + repeat constructor.
    + apply (bool_decide_unpack _). vm_compute. exact I.
    + vm_compute. discriminate.
    + reflexivity.
  - vm_refl.
Defined.
