(* ===== verification/Statement.v ===== *)
(** * eVRF statements and proof backends (dkg.rs)

    The public statement of one receiver, its root, the witness, and the
    boundary the proof backends implement. *)

From Stdlib Require Import ZArith Lia Strings.Byte.
From stdpp Require Import prelude strings.
From S2P Require Import Prelude BTree CoreError Group Algebra Poly Participant Shamir Feldman.
From S2P Require Import Transcript IdentityKey Registry TestSupport.

Record EvrfStatement `{GoldenGroup} := MkEvrfStatement {
  st_protocol_version : Z;
  st_backend_id : list byte;
  st_session_id : SessionId;
  st_registry_root : TranscriptRoot;
  st_threshold : Z;
  st_dealer : ParticipantIndex;
  st_receiver : ParticipantIndex;
  st_msg_i : DealerMessageNonce;
  st_beta : Scalar;
  st_dealer_public_key : Element;
  st_receiver_public_key : Element;
  st_commitment_coefficients : list Element;
  st_share_commitment : Element;
  st_pad_commitment : Element;
  st_encrypted_share : Scalar;
  st_transcript_root : TranscriptRoot;
}.

Record EvrfWitness `{GoldenGroup} := MkEvrfWitness {
  w_identity_secret : Scalar;
  w_polynomial_coefficients : list Scalar;
  w_share : Scalar;
  w_pad : Scalar;
}.
Arguments MkEvrfWitness {_} _ _ _ _.

Section roots.
Context `{GoldenGroup} `{Sha256}.

(** The transcript of [statement_root_with_coefficients], before it is hashed. *)
Definition statement_transcript (statement : EvrfStatement) (coefficients : list (list byte))
    : TranscriptBuilder :=
  let transcript := tb_new (bstr "evrf-statement") in
  let transcript := tb_u32 (bstr "version") (st_protocol_version statement) transcript in
  let transcript := tb_bytes (bstr "backend") (st_backend_id statement) transcript in
  let transcript :=
    tb_bytes (bstr "session") (session_bytes (st_session_id statement)) transcript in
  let transcript := tb_bytes (bstr "registry") (st_registry_root statement) transcript in
  let transcript := tb_usize (bstr "threshold") (st_threshold statement) transcript in
  let transcript := tb_participant (bstr "dealer") (st_dealer statement) transcript in
  let transcript := tb_participant (bstr "receiver") (st_receiver statement) transcript in
  let transcript := tb_bytes (bstr "msg-i") (nonce_bytes (st_msg_i statement)) transcript in
  let transcript := tb_scalar (bstr "beta") (st_beta statement) transcript in
  let transcript := tb_element (bstr "dealer-pk") (st_dealer_public_key statement) transcript in
  let transcript :=
    tb_element (bstr "receiver-pk") (st_receiver_public_key statement) transcript in
  let transcript :=
    tb_usize (bstr "commitment-len") (len (st_commitment_coefficients statement)) transcript in
  let transcript :=
    foldl (λ transcript coefficient, tb_bytes (bstr "commitment") coefficient transcript)
          transcript coefficients in
  let transcript :=
    tb_element (bstr "share-commitment") (st_share_commitment statement) transcript in
  let transcript := tb_element (bstr "pad-commitment") (st_pad_commitment statement) transcript in
  let transcript :=
    tb_scalar (bstr "encrypted-share") (st_encrypted_share statement) transcript in
  tb_bytes (bstr "dealing-root") (st_transcript_root statement) transcript.

Definition statement_root_with_coefficients (statement : EvrfStatement)
    (coefficients : list (list byte)) : TranscriptRoot :=
  tb_root (statement_transcript statement coefficients).

Definition encoded_coefficients (cs : list Element) : list (list byte) :=
  (λ c, element_as_ref (encode_element c)) <$> cs.

Definition statement_root (statement : EvrfStatement) : TranscriptRoot :=
  statement_root_with_coefficients statement
    (encoded_coefficients (st_commitment_coefficients statement)).

Definition batch_roots (statements : list EvrfStatement) : list TranscriptRoot :=
  match statements with
  | [] => []
  | first :: _ =>
      let coefficients := encoded_coefficients (st_commitment_coefficients first) in
      (λ statement,
         if bool_decide (st_commitment_coefficients statement = st_commitment_coefficients first)
         then statement_root_with_coefficients statement coefficients
         else statement_root statement) <$> statements
  end.

(** The transcript of [derive_default_pad]. *)
Definition default_pad_transcript (msg_i : DealerMessageNonce)
    (receiver_public_key shared_secret : Element) : TranscriptBuilder :=
  let transcript := tb_new (bstr "pad") in
  let transcript := tb_bytes (bstr "msg-i") (nonce_bytes msg_i) transcript in
  let transcript := tb_element (bstr "receiver-pk") receiver_public_key transcript in
  tb_element (bstr "shared-secret") shared_secret transcript.

Definition derive_default_pad (msg_i : DealerMessageNonce)
    (receiver_public_key shared_secret : Element) : Result Scalar :=
  hash_to_scalar (bstr "golden-dkg-pad-v1")
    (tb_root (default_pad_transcript msg_i receiver_public_key shared_secret)).
End roots.

(** ** [trait EvrfProofBackend] *)
Class EvrfProofBackend `{GoldenGroup} := {
  PROOF_ID : list byte;
  derive_pad : DealerMessageNonce → Scalar → Scalar → Element → Element → Result Scalar;
  prove_batch : ∀ {R} `{CryptoRngCore R},
    list EvrfStatement → list EvrfWitness → stateful R CoreError (list byte);
  verify_batch : list EvrfStatement → list byte → Result unit;
  verify_proof_batch : list (list EvrfStatement * list byte) → Result unit;
}.

(** The trait's default bodies. *)
Definition default_derive_pad `{GoldenGroup} `{Sha256} (msg_i : DealerMessageNonce)
    (_beta identity_secret : Scalar) (peer_public_key receiver_public_key : Element)
    : Result Scalar :=
  let shared_secret := gmul peer_public_key identity_secret in
  derive_default_pad msg_i receiver_public_key shared_secret.

Definition default_verify_proof_batch `{GoldenGroup}
    (verify_batch : list EvrfStatement → list byte → Result unit)
    (batches : list (list EvrfStatement * list byte)) : Result unit :=
  for_each (λ '(statements, proof), verify_batch statements proof) batches.

(** ** What a backend promises to the DKG

    What a statement says in public: the share commitment is the dealer's
    polynomial at the receiver in the exponent, and the encrypted share is the
    sum of what the share and pad commitments open to. *)
Section relation.
Context `{GroupModule}.

Definition public_relation (st : EvrfStatement) : Prop :=
  len (st_commitment_coefficients st) = st_threshold st ∧
  (∃ x, to_scalar (st_receiver st) = Ok x ∧
        meval (H0:=element_module) (st_commitment_coefficients st) x = st_share_commitment st) ∧
  mul_generator (st_encrypted_share st) = gadd (st_share_commitment st) (st_pad_commitment st).

(** The relation the proof is about: the witness opens the dealer's identity
    key, the polynomial commitment, the share commitment and the pad commitment,
    and the pad is the one the backend derives from the identity secret. *)
Definition evrf_relation `{!EvrfProofBackend} (st : EvrfStatement) (w : EvrfWitness) : Prop :=
  public_relation st ∧
  mul_generator (w_identity_secret w) = st_dealer_public_key st ∧
  mul_generator <$> w_polynomial_coefficients w = st_commitment_coefficients st ∧
  mul_generator (w_share w) = st_share_commitment st ∧
  mul_generator (w_pad w) = st_pad_commitment st ∧
  derive_pad (st_msg_i st) (st_beta st) (w_identity_secret w)
    (st_receiver_public_key st) (st_receiver_public_key st) = Ok (w_pad w).
End relation.

(** Completeness: the pad is a function of the Diffie-Hellman secret, so dealer
    and receiver derive the same one; proofs made from witnesses of the relation
    verify; and the batched check agrees with the single checks. *)
Class EvrfBackendComplete `{GroupModule} `{!EvrfProofBackend} : Prop := {
  derive_pad_symmetric msg_i beta dealer_secret receiver_secret :
    derive_pad msg_i beta dealer_secret (mul_generator receiver_secret)
      (mul_generator receiver_secret)
    = derive_pad msg_i beta receiver_secret (mul_generator dealer_secret)
      (mul_generator receiver_secret);
  prove_batch_complete {R} `{CryptoRngCore R} statements witnesses (rng rng' : R) proof :
    Forall2 evrf_relation statements witnesses →
    prove_batch statements witnesses rng = (Ok proof, rng') →
    verify_batch statements proof = Ok ();
  verify_proof_batch_spec batches :
    verify_proof_batch batches = Ok () ↔
    ∀ statements proof, (statements, proof) ∈ batches → verify_batch statements proof = Ok ();
}.

(** Soundness: a verified proof guarantees the public relation of every
    statement it covers. *)
Class EvrfBackendSound `{GroupModule} `{!EvrfProofBackend} : Prop := {
  verify_batch_sound statements proof st :
    verify_batch statements proof = Ok () → st ∈ statements → public_relation st;
}.

(** ** Lemmas *)
Lemma default_verify_proof_batch_spec `{GoldenGroup} vb batches :
  default_verify_proof_batch vb batches = Ok () ↔
  ∀ statements proof, (statements, proof) ∈ batches → vb statements proof = Ok ().
Proof.
  unfold default_verify_proof_batch. rewrite for_each_Ok. split.
  - intros Hb ss π Hin. exact (Hb _ Hin).
  - intros Hb [ss π] Hin. by apply Hb.
Qed.

Lemma default_derive_pad_symmetric `{GroupModule} `{Sha256} msg_i beta sk1 sk2 :
  default_derive_pad msg_i beta sk1 (mul_generator sk2) (mul_generator sk2)
  = default_derive_pad msg_i beta sk2 (mul_generator sk1) (mul_generator sk2).
Proof. unfold default_derive_pad. by rewrite !mul_generator_mul, (smul_comm sk1). Qed.

Section binding.
Context `{GroupModule} `{!GroupCodec}.

(** The type invariants of the fields. *)
Definition statement_wf (st : EvrfStatement) : Prop :=
  is_u32 (st_protocol_version st) ∧ slice_ok (st_backend_id st) ∧
  session_wf (st_session_id st) ∧ root_wf (st_registry_root st) ∧
  is_usize (st_threshold st) ∧ participant_wf (st_dealer st) ∧
  participant_wf (st_receiver st) ∧ nonce_wf (st_msg_i st) ∧
  slice_ok (st_commitment_coefficients st) ∧ root_wf (st_transcript_root st).

(** The coefficient loop on encodings. *)
Lemma coefficients_stream (label : list byte) (cs : list Element) t :
  hasher (foldl (λ t c, tb_bytes label c t) t (encoded_coefficients cs))
  = hasher t ++ concat ((λ c, frame label (element_as_ref (encode_element c))) <$> cs).
Proof.
  rewrite (hasher_foldl _ (frame label)) by (intros; apply hasher_tb_bytes).
  unfold encoded_coefficients. by rewrite <-list_fmap_compose.
Qed.

Lemma coefficients_stream_inj label (cs cs' : list Element) r r' :
  length cs = length cs' →
  concat ((λ c, frame label (element_as_ref (encode_element c))) <$> cs) ++ r
  = concat ((λ c, frame label (element_as_ref (encode_element c))) <$> cs') ++ r' →
  cs = cs' ∧ r = r'.
Proof.
  intros Hl Heq. apply (items_app_inj (=)) in Heq as [Hcs ->]; [|clear Heq|done].
  - by apply list_eq_Forall2 in Hcs.
  - intros c c' s s' _ _ E. split_frame E. split; [|done]. by apply element_bytes_inj.
Qed.

Lemma statement_transcript_inj st st' :
  statement_wf st → statement_wf st' →
  hasher (statement_transcript st (encoded_coefficients (st_commitment_coefficients st)))
  = hasher (statement_transcript st' (encoded_coefficients (st_commitment_coefficients st'))) →
  st = st'.
Proof.
  intros (?&?&?&?&?&?&?&?&?&?) (?&?&?&?&?&?&?&?&?&?).
  unfold statement_transcript. transcript_stream. rewrite !coefficients_stream.
  transcript_stream. rewrite <-!app_assoc. intros Heq%app_inv_head.
  do 12 (split_frame Heq). decode_fields.
  apply coefficients_stream_inj in Heq as [? Heq]; [|done].
  do 4 (split_frame Heq). decode_fields.
  destruct st as [v b [s] r t d rc [m]], st' as [v' b' [s'] r' t' d' rc' [m']].
  simpl in *. by subst.
Qed.

Lemma default_pad_transcript_inj m m' pk pk' ss ss' :
  nonce_wf m → nonce_wf m' →
  hasher (default_pad_transcript m pk ss) = hasher (default_pad_transcript m' pk' ss') →
  m = m' ∧ pk = pk' ∧ ss = ss'.
Proof.
  intros Hm Hm'. unfold default_pad_transcript. transcript_stream. rewrite <-!app_assoc.
  intros Heq%app_inv_head. do 3 (split_frame Heq). decode_fields.
  destruct m, m'. simpl in *. by subst.
Qed.
End binding.

(** ** Properties *)

(** C30: [batch_roots] with its reuse of the first statement's encodings returns,
    for every list of statements, the roots the statements have one by one. *)
Theorem batch_roots_correct `{GoldenGroup} `{Sha256} statements :
  batch_roots statements = statement_root <$> statements.
Proof.
  destruct statements as [|first rest]; [done|].
  apply list_fmap_ext. intros _ st _. case_bool_decide as Heq; [|done].
  unfold statement_root. by rewrite Heq.
Qed.

(** Statement roots bind every field: statements with equal roots are equal,
    or their transcripts are an explicit SHA-256 collision. *)
Theorem statement_root_binding `{GroupModule} `{!GroupCodec} `{Sha256} st1 st2 :
  statement_wf st1 → statement_wf st2 → statement_root st1 = statement_root st2 →
  st1 = st2 ∨
  (let m st :=
     hasher (statement_transcript st (encoded_coefficients (st_commitment_coefficients st))) in
   m st1 ≠ m st2 ∧ sha256 (m st1) = sha256 (m st2)).
Proof.
  intros H1' H2' [Heq|Hne]%tb_root_eq; [left|by right]. by apply statement_transcript_inj.
Qed.

(** A statement over the finite backend. *)
Definition tiny_statement : EvrfStatement (H:=TinyGroup) := {|
  st_protocol_version := PROTOCOL_VERSION;
  st_backend_id := BACKEND_ID;
  st_session_id := MkSessionId (replicate 32 x07);
  st_registry_root := registry_root_field tiny_registry;
  st_threshold := 2;
  st_dealer := MkParticipantIndex 1;
  st_receiver := MkParticipantIndex 3;
  st_msg_i := MkDealerMessageNonce (replicate 32 x09);
  st_beta := tiny 4;
  st_dealer_public_key := tiny 5;
  st_receiver_public_key := tiny 20;
  st_commitment_coefficients := [tiny 42; tiny 11];
  st_share_commitment := tiny 75;
  st_pad_commitment := tiny 6;
  st_encrypted_share := tiny 81;
  st_transcript_root := replicate 32 x0b;
|}.

Lemma tiny_statement_wf : statement_wf (H:=TinyGroup) tiny_statement.
Proof.
  unfold statement_wf, is_u32, is_usize, participant_wf, slice_ok, session_wf, nonce_wf, root_wf.
  repeat split; vm_compute; congruence.
Qed.

Lemma statement_root_binding_witness :
  let root := statement_root (H:=TinyGroup) tiny_statement in
  root = statement_root (H:=TinyGroup) tiny_statement ∧
  (tiny_statement = tiny_statement ∨
   (let m st := hasher (statement_transcript (H:=TinyGroup) st
                  (encoded_coefficients (H:=TinyGroup) (st_commitment_coefficients st))) in
    m tiny_statement ≠ m tiny_statement ∧
    sha256 (m tiny_statement) = sha256 (m tiny_statement))).
Proof.
  intros root. split; [reflexivity|].
  exact (statement_root_binding (H:=TinyGroup) tiny_statement tiny_statement
           tiny_statement_wf tiny_statement_wf eq_refl).
Defined.
