(* ===== verification/FakeBackend.v ===== *)
(** * The test proof backend (dkg.rs, tests)

    [FakeEvrfBackend] checks the public relations of every statement and binds
    the statement roots into the proof bytes.  It implements the backend
    interface and discharges both of its contracts, so the theorems proved
    against the interface apply to a concrete backend. *)

From Stdlib Require Import ZArith Lia Field Strings.Byte.
From stdpp Require Import prelude strings.
From S2P Require Import Prelude BTree CoreError Group Algebra Poly Participant Shamir Feldman.
From S2P Require Import Transcript IdentityKey Registry Statement TestSupport.

Local Open Scope golden_scope.

Definition FAKE_PROOF_ID : list byte := bstr "golden-core/fake-evrf-proof/v1".

Section fake.
Context `{GoldenGroup} `{Sha256}.

Definition fake_proof_bytes (statements : list EvrfStatement) : Result (list byte) :=
  let proof := to_be_bytes 4 (len FAKE_PROOF_ID) ++ FAKE_PROOF_ID in
  Ok (foldl (λ proof statement, proof ++ statement_root statement) proof statements).

Definition ensure_fake_public_relations (statement : EvrfStatement) : Result unit :=
  if bool_decide (st_commitment_coefficients statement = [])
     || negb (len (st_commitment_coefficients statement) =? st_threshold statement)%Z
  then Err ProofVerificationFailed
  else
    x ← to_scalar (st_receiver statement);
    let '(expected_share_commitment, _) :=
      foldl (λ '(acc, x_pow) coefficient, (acc ⊞ coefficient ⊠ x_pow, x_pow * x))
            (identity, sone) (st_commitment_coefficients statement) in
    if negb (bool_decide (expected_share_commitment = st_share_commitment statement))
    then Err ProofVerificationFailed
    else
      let encrypted_share_commitment := mul_generator (st_encrypted_share statement) in
      let expected_encrypted_share_commitment :=
        st_share_commitment statement ⊞ st_pad_commitment statement in
      if negb (bool_decide (encrypted_share_commitment = expected_encrypted_share_commitment))
      then Err ProofVerificationFailed
      else Ok tt.

Definition fake_prove_batch (statements : list EvrfStatement) (witnesses : list EvrfWitness)
    : Result (list byte) :=
  if negb (Nat.eqb (length statements) (length witnesses)) then Err ProofVerificationFailed
  else
    _ ← fold_result
          (λ last_receiver '(statement, witness),
             if match last_receiver with
                | Some receiver => (pi_get (st_receiver statement) <=? receiver)%Z
                | None => false
                end
             then Err ProofVerificationFailed
             else
               _ ← ensure_fake_public_relations statement;
               if negb (bool_decide (mul_generator (w_identity_secret witness)
                                     = st_dealer_public_key statement))
               then Err ProofVerificationFailed
               else Ok (Some (pi_get (st_receiver statement))))
          None (zip statements witnesses);
    fake_proof_bytes statements.

Definition fake_verify_batch (statements : list EvrfStatement) (proof : list byte)
    : Result unit :=
  expected ← fake_proof_bytes statements;
  _ ← for_each ensure_fake_public_relations statements;
  if bool_decide (proof = expected) then Ok tt else Err ProofVerificationFailed.
End fake.

#[export] Instance FakeEvrfBackend `{GoldenGroup} `{Sha256} : EvrfProofBackend := {|
  PROOF_ID := FAKE_PROOF_ID;
  derive_pad := default_derive_pad;
  prove_batch := λ R rng statements witnesses, lift (fake_prove_batch statements witnesses);
  verify_batch := fake_verify_batch;
  verify_proof_batch := default_verify_proof_batch fake_verify_batch;
|}.

Section laws.
Context `{GroupModule} `{Sha256}.
Add Field fake_field : (scalar_field_theory (F:=Scalar)).

Lemma power_loop_meval (cs : list Element) x acc p :
  (foldl (λ '(acc, x_pow) coefficient, (acc ⊞ coefficient ⊠ x_pow, x_pow * x)) (acc, p) cs).1
  = acc ⊞ meval (H0:=element_module) cs x ⊠ p.
Proof.
  revert acc p. induction cs as [|c cs IH]; intros acc p; simpl.
  - by rewrite gmul_identity, gadd_id_r.
  - rewrite IH, gmul_add_l, gmul_mul, gadd_assoc. by rewrite (smul_comm p x).
Qed.

Lemma ensure_fake_public_relations_Ok st :
  ensure_fake_public_relations st = Ok () ↔
  st_commitment_coefficients st ≠ [] ∧ public_relation st.
Proof.
  unfold ensure_fake_public_relations, public_relation.
  case_bool_decide as Hnil; [naive_solver|]. cbn [orb].
  destruct (Z.eqb_spec (len (st_commitment_coefficients st)) (st_threshold st)); [|naive_solver].
  cbn [negb]. destruct (to_scalar (st_receiver st)) as [x|]; cbn [mbind result_bind]; [|naive_solver].
  pose proof (power_loop_meval (st_commitment_coefficients st) x identity sone) as Hp.
  destruct (foldl _ _ _) as [sc xp]. simpl in Hp. rewrite gadd_id_l, gmul_1 in Hp. subst sc.
  do 2 case_bool_decide; naive_solver.
Qed.

Lemma fake_verify_batch_Ok sts π :
  fake_verify_batch sts π = Ok () ↔
  fake_proof_bytes sts = Ok π ∧ ∀ st, st ∈ sts → ensure_fake_public_relations st = Ok ().
Proof.
  unfold fake_verify_batch, fake_proof_bytes. cbn [mbind result_bind].
  rewrite <-for_each_Ok. destruct (for_each _ _) as [[]|]; cbn [mbind result_bind];
    [case_bool_decide|]; naive_solver.
Qed.

#[export] Instance FakeEvrfBackend_sound : EvrfBackendSound.
Proof.
  split. intros sts π st [_ Hall]%fake_verify_batch_Ok Hst.
  by apply ensure_fake_public_relations_Ok, Hall.
Qed.

Lemma fake_prove_relations last (l : list (EvrfStatement * EvrfWitness)) r st w :
  fold_result
    (λ last_receiver '(statement, witness),
       if match last_receiver with
          | Some receiver => (pi_get (st_receiver statement) <=? receiver)%Z
          | None => false
          end
       then Err ProofVerificationFailed
       else
         _ ← ensure_fake_public_relations statement;
         if negb (bool_decide (mul_generator (w_identity_secret witness)
                               = st_dealer_public_key statement))
         then Err ProofVerificationFailed
         else Ok (Some (pi_get (st_receiver statement)))) last l = Ok r →
  (st, w) ∈ l → ensure_fake_public_relations st = Ok ().
Proof.
  revert last. induction l as [|[st' w'] l IH]; intros last; [by intros _ ?%elem_of_nil|].
  cbn [fold_result]. intros (s & Hs & Hl)%bind_Ok [[= -> ->]|Hin]%elem_of_cons; [|by eapply IH].
  destruct (match last with Some _ => _ | None => _ end); [done|].
  apply bind_Ok in Hs as ([] & ? & _). done.
Qed.

#[export] Instance FakeEvrfBackend_complete : EvrfBackendComplete.
Proof.
  split.
  - intros. apply default_derive_pad_symmetric.
  - intros R rng sts ws r1 r2 π _ [Hp _]%lift_Ok. apply fake_verify_batch_Ok.
    unfold fake_prove_batch in Hp.
    destruct (Nat.eqb_spec (length sts) (length ws)) as [Hlen|]; [|done].
    apply bind_Ok in Hp as (last & Hloop & Hπ). split; [done|]. intros st Hst.
    apply list_elem_of_lookup in Hst as [i Hi].
    destruct (lookup_lt_is_Some_2 ws i) as [w Hw].
    { rewrite <-Hlen. by eapply lookup_lt_Some. }
    eapply fake_prove_relations; [exact Hloop|].
    apply list_elem_of_lookup. exists i. apply lookup_zip_with_Some. eauto.
  - intros batches. apply default_verify_proof_batch_spec.
Qed.
End laws.
