(* ===== verification/Dkg.v ===== *)
(** * The distributed key generation (dkg.rs)

    Dealer messages, the creation and verification of dealings, decryption by a
    receiver, and the completion of a run. *)

From Stdlib Require Import ZArith Lia Strings.Byte.
From stdpp Require Import prelude strings.
From S2P Require Import Prelude BTree CoreError Group Algebra Poly Participant Shamir Feldman.
From S2P Require Import Transcript IdentityKey Registry Statement TestSupport.

Record EncryptedShare `{GoldenGroup} := MkEncryptedShare {
  pad_commitment : Element;
  encrypted_share : Scalar;
}.
Arguments MkEncryptedShare {_} _ _.

Abbreviation EncryptedShares := (list (ParticipantIndex * EncryptedShare)).

Record DealerMessage `{GoldenGroup} := MkDealerMessage {
  msg_session_id : SessionId;
  msg_registry_root : TranscriptRoot;
  msg_dealer : ParticipantIndex;
  msg_msg_i : DealerMessageNonce;
  msg_commitment : FeldmanCommitment;
  msg_encrypted_shares : EncryptedShares;
  msg_proof : list byte;
  msg_transcript_root : TranscriptRoot;
}.
Arguments MkDealerMessage {_} _ _ _ _ _ _ _ _.

Record DkgDealing `{GoldenGroup} := MkDkgDealing {
  dealing_message : DealerMessage;
  dealing_private_share : Share Scalar;
}.
Arguments MkDkgDealing {_} _ _.

Record DkgOutput `{GoldenGroup} := MkDkgOutput {
  out_public_key : Element;
  out_secret_share : Share Scalar;
  out_public_key_shares : list (ParticipantIndex * Element);
  out_transcript_root : TranscriptRoot;
}.
Arguments MkDkgOutput {_} _ _ _ _.

#[export] Instance EncryptedShare_eq_dec `{GoldenGroup} : EqDecision EncryptedShare.
Proof. solve_decision. Defined.

Section roots.
Context `{GoldenGroup} `{Sha256}.

(** The transcript of [dealing_root], before it is hashed. *)
Definition dealing_transcript (session_id : SessionId) (registry_root : TranscriptRoot)
    (dealer : ParticipantIndex) (msg_i : DealerMessageNonce) (commitment : FeldmanCommitment)
    (encrypted_shares : EncryptedShares) : TranscriptBuilder :=
  let transcript := tb_new (bstr "dealing") in
  let transcript := tb_u32 (bstr "version") PROTOCOL_VERSION transcript in
  let transcript := tb_bytes (bstr "backend") BACKEND_ID transcript in
  let transcript := tb_bytes (bstr "session") (session_bytes session_id) transcript in
  let transcript := tb_bytes (bstr "registry") registry_root transcript in
  let transcript := tb_participant (bstr "dealer") dealer transcript in
  let transcript := tb_bytes (bstr "msg-i") (nonce_bytes msg_i) transcript in
  let transcript :=
    tb_usize (bstr "commitment-len") (len (commitment_coefficients commitment)) transcript in
  let transcript :=
    foldl (λ transcript coefficient, tb_element (bstr "commitment") coefficient transcript)
          transcript (commitment_coefficients commitment) in
  let transcript := tb_usize (bstr "encrypted-shares-len") (len encrypted_shares) transcript in
  foldl (λ transcript '(receiver, encrypted),
           let transcript := tb_participant (bstr "encrypted-receiver") receiver transcript in
           let transcript :=
             tb_element (bstr "pad-commitment") (pad_commitment encrypted) transcript in
           tb_scalar (bstr "encrypted-share") (encrypted_share encrypted) transcript)
        transcript encrypted_shares.

Definition dealing_root (session_id : SessionId) (registry_root : TranscriptRoot)
    (dealer : ParticipantIndex) (msg_i : DealerMessageNonce) (commitment : FeldmanCommitment)
    (encrypted_shares : EncryptedShares) : TranscriptRoot :=
  tb_root (dealing_transcript session_id registry_root dealer msg_i commitment encrypted_shares).

Definition recompute_transcript_root (message : DealerMessage) : TranscriptRoot :=
  dealing_root (msg_session_id message) (msg_registry_root message) (msg_dealer message)
    (msg_msg_i message) (msg_commitment message) (msg_encrypted_shares message).

(** The transcript of [completion_root], before it is hashed. *)
Definition completion_transcript (dealings : list (ParticipantIndex * DealerMessage))
    : TranscriptBuilder :=
  let transcript := tb_new (bstr "completion") in
  let transcript := tb_bytes (bstr "backend") BACKEND_ID transcript in
  let transcript := tb_usize (bstr "dealings-len") (len dealings) transcript in
  foldl (λ transcript '(dealer, message),
           let transcript := tb_participant (bstr "dealer") dealer transcript in
           tb_bytes (bstr "dealing-root") (msg_transcript_root message) transcript)
        transcript dealings.

Definition completion_root (dealings : list (ParticipantIndex * DealerMessage))
    : TranscriptRoot := tb_root (completion_transcript dealings).
End roots.

Section statements.
Context `{GoldenGroup} `{Sha256}.

Definition statement_for_receiver (config : DkgConfig) (dealer receiver : ParticipantIndex)
    (msg_i : DealerMessageNonce) (share_commitment : Element)
    (commitment_coefficients : list Element) (encrypted : EncryptedShare)
    (transcript_root : TranscriptRoot) : Result EvrfStatement :=
  dealer_public_key ← registry_public_key (config_registry config) dealer;
  receiver_public_key ← registry_public_key (config_registry config) receiver;
  Ok {|
    st_protocol_version := PROTOCOL_VERSION;
    st_backend_id := BACKEND_ID;
    st_session_id := config_session_id config;
    st_registry_root := registry_root_field (config_registry config);
    st_threshold := config_threshold config;
    st_dealer := dealer;
    st_receiver := receiver;
    st_msg_i := msg_i;
    st_beta := config_beta config;
    st_dealer_public_key := dealer_public_key;
    st_receiver_public_key := receiver_public_key;
    st_commitment_coefficients := commitment_coefficients;
    st_share_commitment := share_commitment;
    st_pad_commitment := pad_commitment encrypted;
    st_encrypted_share := encrypted_share encrypted;
    st_transcript_root := transcript_root;
  |}.

Definition public_share_receivers (config : DkgConfig) (dealer : ParticipantIndex)
    : list ParticipantIndex :=
  filter (λ receiver, receiver ≠ dealer) (registry_indexes (config_registry config)).

Definition ensure_public_share_keys (message : DealerMessage) (config : DkgConfig)
    : Result unit :=
  _ ← for_each
        (λ receiver,
           reject_if (bool_decide (receiver = msg_dealer message)
                      || negb (is_ok (registry_public_key (config_registry config) receiver)))
                     (UnexpectedShare (pi_get receiver)))
        (BTreeMap.keys (msg_encrypted_shares message));
  for_each
    (λ receiver,
       reject_if (negb (BTreeMap.contains_key receiver (msg_encrypted_shares message)))
                 (MissingShare (pi_get receiver)))
    (public_share_receivers config (msg_dealer message)).

(** The closure of [dealing_statements] for one receiver. *)
Definition receiver_statement (message : DealerMessage) (config : DkgConfig)
    (receiver : ParticipantIndex) : Result EvrfStatement :=
  encrypted ← ok_or (MissingShare (pi_get receiver))
                (BTreeMap.get receiver (msg_encrypted_shares message));
  let encrypted_share_commitment := mul_generator (encrypted_share encrypted) in
  let share_commitment := gsub encrypted_share_commitment (pad_commitment encrypted) in
  statement_for_receiver config (msg_dealer message) receiver (msg_msg_i message)
    share_commitment (commitment_coefficients (msg_commitment message)) encrypted
    (msg_transcript_root message).

Definition dealing_statements (message : DealerMessage) (config : DkgConfig)
    : Result (list EvrfStatement) :=
  if negb (bool_decide (msg_session_id message = config_session_id config))
  then Err SessionMismatch
  else if negb (bool_decide
                  (msg_registry_root message = registry_root_field (config_registry config)))
  then Err RegistryMismatch
  else
    _ ← registry_public_key (config_registry config) (msg_dealer message);
    if negb (len (commitment_coefficients (msg_commitment message)) =? config_threshold config)%Z
    then Err (InvalidCommitmentDegree (config_threshold config)
                (len (commitment_coefficients (msg_commitment message))))
    else
      let expected_root :=
        dealing_root (msg_session_id message) (msg_registry_root message) (msg_dealer message)
          (msg_msg_i message) (msg_commitment message) (msg_encrypted_shares message) in
      if negb (bool_decide (expected_root = msg_transcript_root message))
      then Err ProofVerificationFailed
      else
        _ ← ensure_public_share_keys message config;
        traverse (receiver_statement message config)
          (public_share_receivers config (msg_dealer message)).
End statements.

(** ** Creating a dealing *)
Section create.
Context `{GoldenGroup} `{!EvrfProofBackend} `{Sha256} `{CryptoRngCore R}.

(** [shares]: the dealer's evaluation for every registered index. *)
Definition dealing_shares (polynomial : Polynomial Scalar) (config : DkgConfig)
    : Result (list (ParticipantIndex * Scalar)) :=
  fold_result
    (λ shares receiver,
       share ← evaluate polynomial receiver;
       Ok (BTreeMap.insert receiver (share_value share) shares))
    BTreeMap.empty (registry_indexes (config_registry config)).

(** [shares.iter().filter(|(receiver, _)| **receiver != dealer)]. *)
Definition receiver_shares (dealer : ParticipantIndex) (shares : list (ParticipantIndex * Scalar))
    : list (ParticipantIndex * Scalar) :=
  filter (λ entry, entry.1 ≠ dealer) shares.

(** The loop that derives the pads and encrypts the shares. *)
Definition encrypt_shares (dealer : ParticipantIndex) (dealer_identity_secret : Scalar)
    (config : DkgConfig) (msg_i : DealerMessageNonce) (shares : list (ParticipantIndex * Scalar))
    : Result (EncryptedShares * list (ParticipantIndex * Scalar)) :=
  fold_result
    (λ '(encrypted_shares, pads) '(receiver, share),
       receiver_public_key ← registry_public_key (config_registry config) receiver;
       pad ← derive_pad msg_i (config_beta config) dealer_identity_secret
               receiver_public_key receiver_public_key;
       Ok (BTreeMap.insert receiver
             (MkEncryptedShare (mul_generator pad) (sadd share pad)) encrypted_shares,
           BTreeMap.insert receiver pad pads))
    (BTreeMap.empty, BTreeMap.empty) (receiver_shares dealer shares).

(** The loop that builds the statements and the witnesses. *)
Definition statements_and_witnesses (dealer : ParticipantIndex) (dealer_identity_secret : Scalar)
    (config : DkgConfig) (msg_i : DealerMessageNonce) (polynomial : Polynomial Scalar)
    (commitment : FeldmanCommitment) (encrypted_shares : EncryptedShares)
    (pads : list (ParticipantIndex * Scalar)) (transcript_root : TranscriptRoot)
    (shares : list (ParticipantIndex * Scalar))
    : Result (list EvrfStatement * list EvrfWitness) :=
  fold_result
    (λ '(statements, witnesses) '(receiver, share_value),
       let share_commitment := mul_generator share_value in
       encrypted ← ok_or (MissingShare (pi_get receiver)) (BTreeMap.get receiver encrypted_shares);
       statement ← statement_for_receiver config dealer receiver msg_i share_commitment
                     (commitment_coefficients commitment) encrypted transcript_root;
       pad ← ok_or (MissingShare (pi_get receiver)) (BTreeMap.get receiver pads);
       let witness :=
         MkEvrfWitness dealer_identity_secret (coefficients polynomial) share_value pad in
       Ok (statements ++ [statement], witnesses ++ [witness]))
    ([], []) (receiver_shares dealer shares).

Definition create_dealing_with_secret (dealer : ParticipantIndex)
    (dealer_identity_secret polynomial_secret : Scalar) (config : DkgConfig)
    : stateful R CoreError DkgDealing :=
  dealer_public_key ← lift (registry_public_key (config_registry config) dealer);
  if negb (bool_decide (mul_generator dealer_identity_secret = dealer_public_key))
  then lift (Err IdentityKeyMismatch)
  else
    polynomial ← random_with_secret polynomial_secret (config_threshold config) : stateful R _ _;
    commitment ← lift (commit polynomial);
    msg_i ← draw DealerMessageNonce_random;
    shares ← lift (dealing_shares polynomial config);
    '(encrypted_shares, pads) ←
      lift (encrypt_shares dealer dealer_identity_secret config msg_i shares);
    let transcript_root :=
      dealing_root (config_session_id config) (registry_root_field (config_registry config))
        dealer msg_i commitment encrypted_shares in
    '(statements, witnesses) ←
      lift (statements_and_witnesses dealer dealer_identity_secret config msg_i polynomial
              commitment encrypted_shares pads transcript_root shares);
    proof ← (if bool_decide (statements = []) then mret []
             else prove_batch statements witnesses);
    own_share ← lift (ok_or (MissingShare (pi_get dealer)) (BTreeMap.get dealer shares));
    let private_share := MkShare dealer own_share in
    verified ← lift (verify_share commitment private_share);
    if negb verified then lift (Err CommitmentVerificationFailed)
    else
      mret (MkDkgDealing
        (MkDealerMessage (config_session_id config)
           (registry_root_field (config_registry config)) dealer msg_i commitment
           encrypted_shares proof transcript_root)
        private_share).

Definition create_dealing (dealer : ParticipantIndex) (dealer_identity_secret : Scalar)
    (config : DkgConfig) : stateful R CoreError DkgDealing :=
  polynomial_secret ← draw srandom;
  create_dealing_with_secret dealer dealer_identity_secret polynomial_secret config.
End create.

(** ** Verifying and decrypting *)
Section verify.
Context `{GoldenGroup} `{!EvrfProofBackend} `{Sha256}.

Definition verify_dealing (message : DealerMessage) (config : DkgConfig) : Result unit :=
  statements ← dealing_statements message config;
  match statements with
  | [] => if bool_decide (msg_proof message = []) then Ok tt else Err ProofVerificationFailed
  | _ => verify_batch statements (msg_proof message)
  end.

Definition verify_dealings (messages : list DealerMessage) (config : DkgConfig) : Result unit :=
  match messages with
  | [] => Err ProofVerificationFailed
  | _ =>
      statement_batches ← traverse (λ message, dealing_statements message config) messages;
      if forallb (λ statements, bool_decide (statements = [])) statement_batches then
        for_each
          (λ message, reject_if (negb (bool_decide (msg_proof message = [])))
                        (DealerProofVerificationFailed (pi_get (msg_dealer message))))
          messages
      else
        let proof_batches :=
          zip_with (λ statements message, (statements, msg_proof message))
            statement_batches messages in
        match verify_proof_batch proof_batches with
        | Ok tt => Ok tt
        | Err batch_error =>
            _ ← for_each
                  (λ '((statements, proof), message),
                     reject_if (negb (is_ok (verify_batch statements proof)))
                       (DealerProofVerificationFailed (pi_get (msg_dealer message))))
                  (zip proof_batches messages);
            Err batch_error
        end
  end.

Definition derive_receiver_pad (config : DkgConfig) (dealer receiver : ParticipantIndex)
    (receiver_identity_secret : Scalar) (msg_i : DealerMessageNonce) : Result Scalar :=
  dealer_public_key ← registry_public_key (config_registry config) dealer;
  receiver_public_key ← registry_public_key (config_registry config) receiver;
  derive_pad msg_i (config_beta config) receiver_identity_secret
    dealer_public_key receiver_public_key.

Definition decrypt_share_for_receiver (receiver : ParticipantIndex)
    (receiver_identity_secret : Scalar) (message : DealerMessage) (config : DkgConfig)
    : Result (Share Scalar) :=
  encrypted ← ok_or (MissingShare (pi_get receiver))
                (BTreeMap.get receiver (msg_encrypted_shares message));
  pad ← derive_receiver_pad config (msg_dealer message) receiver receiver_identity_secret
          (msg_msg_i message);
  let share := MkShare receiver (ssub (encrypted_share encrypted) pad) in
  verified ← verify_share (msg_commitment message) share;
  if negb verified then Err CommitmentVerificationFailed else Ok share.

Definition verify_dealing_for_receiver (receiver : ParticipantIndex)
    (receiver_identity_secret : Scalar) (message : DealerMessage) (config : DkgConfig)
    : Result unit :=
  receiver_public_key ← registry_public_key (config_registry config) receiver;
  if negb (bool_decide (mul_generator receiver_identity_secret = receiver_public_key))
  then Err IdentityKeyMismatch
  else
    _ ← verify_dealing message config;
    if negb (bool_decide (receiver = msg_dealer message)) then
      _ ← decrypt_share_for_receiver receiver receiver_identity_secret message config;
      Ok tt
    else Ok tt.
End verify.

(** ** Completing the run *)

(** [for (a, b) in l.iter_mut().zip(k) { *a = f(a, b) }]. *)
Fixpoint zip_update {A B} (f : A → B → A) (l : list A) (k : list B) : list A :=
  match l, k with
  | a :: l, b :: k => f a b :: zip_update f l k
  | _, _ => l
  end.

Section complete.
Context `{GoldenGroup} `{!EvrfProofBackend} `{Sha256}.

(** [all_dealings]: the own message and the peers', by dealer. *)
Definition collect_step (all_dealings : list (ParticipantIndex * DealerMessage))
    (entry : ParticipantIndex * DealerMessage)
    : Result (list (ParticipantIndex * DealerMessage)) :=
  let '(dealer, message) := entry in
  if negb (bool_decide (dealer = msg_dealer message))
  then Err (DealerKeyMismatch (pi_get dealer) (pi_get (msg_dealer message)))
  else if BTreeMap.contains_key (msg_dealer message) all_dealings
  then Err (DuplicateParticipantIndex (pi_get (msg_dealer message)))
  else Ok (BTreeMap.insert (msg_dealer message) message all_dealings).

Definition collect_dealings (own : DealerMessage)
    (peer_dealings : list (ParticipantIndex * DealerMessage))
    : Result (list (ParticipantIndex * DealerMessage)) :=
  fold_result collect_step (BTreeMap.insert (msg_dealer own) own BTreeMap.empty) peer_dealings.

(** The aggregation loop: the sum of the shares and of the commitments. *)
Definition aggregate_step (receiver : ParticipantIndex) (receiver_identity_secret : Scalar)
    (own_dealing : DkgDealing) (config : DkgConfig) (state : Scalar * list Element)
    (message : DealerMessage) : Result (Scalar * list Element) :=
  let '(secret_share_value, aggregate_coefficients) := state in
  share ← (if bool_decide (msg_dealer message = receiver)
           then Ok (dealing_private_share own_dealing)
           else decrypt_share_for_receiver receiver receiver_identity_secret message config);
  verified ← verify_share (msg_commitment message) share;
  if negb verified then Err CommitmentVerificationFailed
  else Ok (sadd secret_share_value (share_value share),
           zip_update gadd aggregate_coefficients
             (commitment_coefficients (msg_commitment message))).

Definition aggregate_dealings (receiver : ParticipantIndex) (receiver_identity_secret : Scalar)
    (own_dealing : DkgDealing) (config : DkgConfig) (messages : list DealerMessage)
    : Result (Scalar * list Element) :=
  fold_result (aggregate_step receiver receiver_identity_secret own_dealing config)
    (szero, replicate (Z.to_nat (config_threshold config)) identity) messages.

Definition complete (receiver : ParticipantIndex) (receiver_identity_secret : Scalar)
    (own_dealing : DkgDealing) (peer_dealings : list (ParticipantIndex * DealerMessage))
    (config : DkgConfig) : Result DkgOutput :=
  let indexes := registry_indexes (config_registry config) in
  receiver_public_key ← registry_public_key (config_registry config) receiver;
  if negb (bool_decide (mul_generator receiver_identity_secret = receiver_public_key))
  then Err IdentityKeyMismatch
  else if negb (bool_decide (msg_dealer (dealing_message own_dealing) = receiver))
  then Err (DealerKeyMismatch (pi_get receiver)
              (pi_get (msg_dealer (dealing_message own_dealing))))
  else if negb (bool_decide (share_participant (dealing_private_share own_dealing) = receiver))
  then Err (PrivateShareParticipantMismatch (pi_get receiver)
              (pi_get (share_participant (dealing_private_share own_dealing))))
  else
    all_dealings ← collect_dealings (dealing_message own_dealing) peer_dealings;
    messages ← traverse
                 (λ dealer, ok_or (MissingDealing (pi_get dealer)) (BTreeMap.get dealer all_dealings))
                 indexes;
    _ ← verify_dealings messages config;
    '(secret_share_value, aggregate_coefficients) ←
      aggregate_dealings receiver receiver_identity_secret own_dealing config
        (BTreeMap.values all_dealings);
    aggregate_commitment ← FeldmanCommitment_from_coefficients aggregate_coefficients;
    let public_key := public_key aggregate_commitment in
    public_key_shares ←
      fold_result
        (λ public_key_shares participant,
           share ← public_key_share aggregate_commitment participant;
           Ok (BTreeMap.insert participant share public_key_shares))
        BTreeMap.empty indexes;
    Ok (MkDkgOutput public_key (MkShare receiver secret_share_value) public_key_shares
          (completion_root all_dealings)).
End complete.
