(* ===== verification/Wire.v ===== *)
(** * Canonical wire encoding (wire.rs)

    The reader, the length-delimited primitives, the envelope with its magic,
    tag and codec context, and the interface a wire type implements. *)

From Stdlib Require Import ZArith Lia Strings.Byte Sorted.
From stdpp Require Import prelude strings sorting.
From S2P Require Import Prelude BTree CoreError Group Algebra Participant Transcript TestSupport.

Local Open Scope Z_scope.

Definition MAGIC : list byte := bstr "golden-dkg-wire-v3".
Definition TAG_SESSION_ID : byte := x01.
Definition TAG_DEALER_MESSAGE_NONCE : byte := x02.
Definition TAG_ENCRYPTED_SHARE : byte := x03.
Definition TAG_FELDMAN_COMMITMENT : byte := x04.
Definition TAG_PARTICIPANT_REGISTRY : byte := x05.
Definition TAG_DKG_CONFIG : byte := x06.
Definition TAG_DEALER_MESSAGE : byte := x07.
Definition TAG_IDENTITY_KEY_PROOF : byte := x08.

(** ** [WireReader] *)
Record WireReader := MkWireReader { rd_bytes : list byte; rd_cursor : Z }.

(** A computation on [&mut WireReader]. *)
Abbreviation Reader A := (stateful WireReader CoreError A).

Definition WireReader_new (bytes : list byte) : WireReader := MkWireReader bytes 0.

Definition read_exact (n : Z) : Reader (list byte) := λ r,
  match checked_add (rd_cursor r) n with
  | None => (Err InvalidEncoding, r)
  | Some stop =>
      if len (rd_bytes r) <? stop then (Err InvalidEncoding, r)
      else (Ok (take (Z.to_nat n) (drop (Z.to_nat (rd_cursor r)) (rd_bytes r))),
            MkWireReader (rd_bytes r) stop)
  end.

(** [self.read_exact(1)?[0]]: the slice has one byte. *)
Definition read_u8 : Reader byte :=
  slice ← read_exact 1; mret (default x00 (head slice)).
Definition read_u32 : Reader Z := slice ← read_exact 4; mret (from_be_bytes slice).
Definition read_u64 : Reader Z := slice ← read_exact 8; mret (from_be_bytes slice).

(** [usize::try_from(u64)] on a 64-bit target. *)
Definition read_len : Reader Z :=
  n ← read_u64;
  if n <=? usize_MAX then mret n else lift (Err InvalidEncoding).

Definition remaining (r : WireReader) : Z := len (rd_bytes r) - rd_cursor r.

Definition ensure_remaining_items (count min_item_size : Z) : Reader unit := λ r,
  (required ← ok_or InvalidEncoding (checked_mul count min_item_size);
   (if required <=? remaining r then Ok tt else Err InvalidEncoding), r).

Definition read_array (n : Z) : Reader (list byte) := read_exact n.

Definition expect_magic : Reader unit :=
  slice ← read_exact (len MAGIC);
  if bool_decide (slice = MAGIC) then mret tt else lift (Err InvalidEncoding).

Definition finish : Reader unit := λ r,
  (if rd_cursor r =? len (rd_bytes r) then Ok tt else Err InvalidEncoding, r).

(** ** Primitives *)
Definition write_u32 (out : list byte) (value : Z) : list byte := out ++ to_be_bytes 4 value.
Definition write_len (out : list byte) (value : Z) : list byte := out ++ to_be_bytes 8 value.
Definition write_context_field (out bytes : list byte) : list byte :=
  write_len out (len bytes) ++ bytes.

Definition expect_context_field (expected : list byte) : Reader unit :=
  n ← read_len;
  slice ← read_exact n;
  if bool_decide (slice = expected) then mret tt else lift (Err InvalidEncoding).

Section group_primitives.
Context `{GoldenGroup}.

Definition write_scalar (out : list byte) (scalar : Scalar) : list byte :=
  out ++ repr_as_ref (to_repr scalar).
Definition read_scalar : Reader Scalar :=
  slice ← read_exact (REPR_BYTES (F:=Scalar));
  repr ← lift (ok_or InvalidEncoding (repr_try_from (F:=Scalar) slice));
  lift (from_repr repr).
Definition write_element (out : list byte) (element : Element) : list byte :=
  out ++ element_as_ref (encode_element element).
Definition read_element : Reader Element :=
  slice ← read_exact ELEMENT_REPR_BYTES;
  repr ← lift (ok_or InvalidEncoding (element_try_from slice));
  lift (decode_element repr).
End group_primitives.

Definition ensure_increasing (last : option ParticipantIndex) (next : ParticipantIndex)
    : Result (option ParticipantIndex) :=
  match last with
  | Some previous =>
      if pi_get next <=? pi_get previous then Err (DuplicateParticipantIndex (pi_get next))
      else Ok (Some next)
  | None => Ok (Some next)
  end.

(** [for _ in 0..n { body }], the body updating the local variables [s]. *)
Fixpoint read_fold {St} (body : St → Reader St) (n : nat) (s : St) : Reader St :=
  match n with
  | O => mret s
  | S n => s ← body s; read_fold body n s
  end.

(** ** The traits *)
Class WireEncode (T : Type) := {
  write_wire : T → list byte → list byte;
  wire_size_hint : T → Z;
}.

Definition default_wire_size_hint {T : Type} (_ : T) : Z := 0.

Definition to_nested_wire_bytes `{WireEncode T} (value : T) : list byte :=
  let out := [] in write_wire value out.

Class WireDecode (T : Type) := { read_wire : Reader T }.

Class WireMessage (T : Type) `{WireEncode T, WireDecode T} := {
  TAG : byte;
  CODEC_ID : list byte;
  write_wire_context : list byte → list byte;
  read_wire_context : Reader unit;
}.

(** The two context shapes: the default bodies, and those of the group types. *)
Definition default_write_wire_context (codec_id out : list byte) : list byte :=
  write_context_field out codec_id.
Definition default_read_wire_context (codec_id : list byte) : Reader unit :=
  expect_context_field codec_id.
Definition group_write_wire_context `{GoldenGroup} (codec_id out : list byte) : list byte :=
  let out := write_context_field out codec_id in
  write_context_field out BACKEND_ID.
Definition group_read_wire_context `{GoldenGroup} (codec_id : list byte) : Reader unit :=
  _ ← expect_context_field codec_id; expect_context_field BACKEND_ID.

(** ** The envelope *)
Definition to_wire_bytes `{WireMessage T} (value : T) : list byte :=
  let out := MAGIC in
  let out := out ++ [TAG (T:=T)] in
  let out := write_wire_context (T:=T) out in
  write_wire value out.

Definition read_envelope `{WireMessage T} : Reader T :=
  _ ← expect_magic;
  tag ← read_u8;
  if negb (bool_decide (tag = TAG (T:=T))) then lift (Err InvalidEncoding)
  else
    _ ← read_wire_context (T:=T);
    value ← read_wire;
    _ ← finish;
    mret value.

Definition from_wire_bytes `{WireMessage T} (bytes : list byte) : Result T :=
  (read_envelope (WireReader_new bytes)).1.

(** ** Parsers as relations

    [reads m P]: on a reader with the unread bytes [todo], [m] returns [a]
    exactly when [todo] starts with bytes [bs] in the relation [P a], and it
    leaves the reader after them. *)
Section reads.

Definition at_cursor (pre todo : list byte) : WireReader := MkWireReader (pre ++ todo) (len pre).

Definition reads {A} (m : Reader A) (P : A → list byte → Prop) : Prop :=
  ∀ pre todo a r, slice_ok (pre ++ todo) →
    m (at_cursor pre todo) = (Ok a, r) ↔
    ∃ bs rest, todo = bs ++ rest ∧ P a bs ∧ r = at_cursor (pre ++ bs) rest.

Lemma reads_ext {A} (m : Reader A) P Q :
  reads m P → (∀ a bs, slice_ok bs → P a bs ↔ Q a bs) → reads m Q.
Proof.
  intros Hm HPQ pre todo a r Hok. rewrite (Hm _ _ _ _ Hok).
  assert (Hs : ∀ bs rest, todo = bs ++ rest → slice_ok bs).
  { intros bs rest ->. unfold slice_ok, len in *. rewrite !length_app in Hok. lia. }
  split; intros (bs & rest & Ht & HP & Hr); exists bs, rest; (split; [done|]);
    (split; [|done]); apply HPQ; eauto.
Qed.

Lemma reads_ret {A} (a : A) : reads (mret a) (λ a' bs, a' = a ∧ bs = []).
Proof.
  intros pre todo a' r _. split.
  - intros [= <- <-]. exists [], todo. by rewrite app_nil_r.
  - intros (bs & rest & -> & [-> ->] & ->). by rewrite app_nil_r.
Qed.

Lemma reads_err {A} e : reads (A:=A) (lift (Err e)) (λ _ _, False).
Proof. intros pre todo a r _. split; [done|]. by intros (? & ? & _ & [] & _). Qed.

Lemma reads_lift {A} (x : Result A) : reads (lift x) (λ a bs, x = Ok a ∧ bs = []).
Proof.
  destruct x as [a|e].
  - eapply reads_ext; [apply (reads_ret a)|]. naive_solver.
  - eapply reads_ext; [apply reads_err|]. naive_solver.
Qed.

Lemma reads_bind {A B} (m : Reader A) (f : A → Reader B) P Q :
  reads m P → (∀ a bs, P a bs → reads (f a) (Q a)) →
  reads (m ≫= f) (λ b bs, ∃ a bs1 bs2, bs = bs1 ++ bs2 ∧ P a bs1 ∧ Q a b bs2).
Proof.
  intros Hm Hf pre todo b r Hok. rewrite stateful_bind_Ok. split.
  - intros (a & r1 & Ha & Hb). apply Hm in Ha as (bs1 & rest & -> & HP & ->); [|done].
    eapply (Hf a bs1 HP) in Hb as (bs2 & rest' & -> & HQ & ->); [|by rewrite <-app_assoc].
    exists (bs1 ++ bs2), rest'. rewrite !app_assoc. split; [done|]. split; [|done]. eauto 6.
  - intros (bs & rest & -> & (a & bs1 & bs2 & -> & HP & HQ) & ->).
    exists a, (at_cursor (pre ++ bs1) (bs2 ++ rest)). split.
    + apply Hm; [done|]. exists bs1, (bs2 ++ rest). by rewrite app_assoc.
    + eapply (Hf a bs1 HP); [by rewrite <-!app_assoc in *|]. exists bs2, rest.
      by rewrite !app_assoc.
Qed.

Lemma reads_if {A} (b : bool) (m : Reader A) e P :
  reads m P → reads (if b then m else lift (Err e)) (λ a bs, b = true ∧ P a bs).
Proof.
  intros Hm. destruct b; [|eapply reads_ext; [apply reads_err|naive_solver]].
  eapply reads_ext; [exact Hm|naive_solver].
Qed.

Lemma reads_guard {A} (b : bool) (m : Reader A) e P :
  reads m P → reads (if b then lift (Err e) else m) (λ a bs, b = false ∧ P a bs).
Proof.
  intros Hm. destruct b; [eapply reads_ext; [apply reads_err|naive_solver]|].
  eapply reads_ext; [exact Hm|naive_solver].
Qed.

Lemma reads_exact n : 0 ≤ n → reads (read_exact n) (λ a bs, a = bs ∧ len bs = n).
Proof.
  intros Hn pre todo a r Hok. unfold read_exact, at_cursor, checked_add, slice_ok, len in *.
  cbn [rd_bytes rd_cursor]. rewrite length_app in *. split.
  - case_bool_decide as Hadd; [|done]. case_match eqn:Hlt; [done|]. apply Z.ltb_ge in Hlt.
    intros [= <- <-]. exists (take (Z.to_nat n) todo), (drop (Z.to_nat n) todo).
    rewrite take_drop, Nat2Z.id, drop_app_length. split; [done|].
    rewrite length_take. split; [split; [done|lia]|].
    rewrite <-app_assoc, take_drop, length_app, length_take. f_equal. lia.
  - intros (bs & rest & -> & [-> Hl] & ->). rewrite length_app in *.
    rewrite bool_decide_eq_true_2 by lia. rewrite (proj2 (Z.ltb_ge _ _)) by lia.
    rewrite Nat2Z.id, drop_app_length, take_app_length' by lia.
    rewrite <-app_assoc, length_app. do 2 f_equal. lia.
Qed.
(** The same for a reader that must consume everything. *)
Definition reads_all {A} (m : Reader A) (P : A → list byte → Prop) : Prop :=
  ∀ pre todo a, slice_ok (pre ++ todo) → (m (at_cursor pre todo)).1 = Ok a ↔ P a todo.

Lemma reads_all_bind {A B} (m : Reader A) (f : A → Reader B) P Q :
  reads m P → (∀ a bs, P a bs → reads_all (f a) (Q a)) →
  reads_all (m ≫= f) (λ b bs, ∃ a bs1 bs2, bs = bs1 ++ bs2 ∧ P a bs1 ∧ Q a b bs2).
Proof.
  intros Hm Hf pre todo b Hok. split.
  - destruct ((m ≫= f) (at_cursor pre todo)) as [o r] eqn:Hr. intros Ho. simpl in Ho. subst o.
    apply stateful_bind_Ok in Hr as (a & r1 & Ha & Hb).
    apply Hm in Ha as (bs1 & rest & -> & HP & ->); [|done].
    exists a, bs1, rest. split; [done|]. split; [done|].
    apply (Hf a bs1 HP (pre ++ bs1)); [by rewrite <-app_assoc|]. by rewrite Hb.
  - intros (a & bs1 & bs2 & -> & HP & HQ).
    destruct (f a (at_cursor (pre ++ bs1) bs2)) as [o r] eqn:Hr.
    assert (o = Ok b) as ->.
    { change o with ((o, r).1). rewrite <-Hr.
      apply (Hf a bs1 HP); [by rewrite <-app_assoc|done]. }
    assert ((m ≫= f) (at_cursor pre (bs1 ++ bs2)) = (Ok b, r)) as ->; [|done].
    apply stateful_bind_Ok. exists a, (at_cursor (pre ++ bs1) bs2). split; [|done].
    apply Hm; eauto.
Qed.

Lemma reads_all_finish {A} (a : A) :
  reads_all (_ ← finish; mret a) (λ a' bs, a' = a ∧ bs = []).
Proof.
  intros pre todo a' _.
  assert (Hf : (_ ← finish; mret a : Reader A) (at_cursor pre todo) =
    (if bool_decide (todo = []) then Ok a else Err InvalidEncoding, at_cursor pre todo)).
  { unfold mbind, stateful_bind, finish, at_cursor, len. cbn [rd_bytes rd_cursor].
    rewrite length_app. case_bool_decide as Ht.
    - subst. by rewrite Nat.add_0_r, Z.eqb_refl.
    - rewrite (proj2 (Z.eqb_neq _ _)); [done|]. destruct todo; [done|simpl; lia]. }
  rewrite Hf. case_bool_decide; simpl; naive_solver.
Qed.

Lemma reads_all_guard {A} (b : bool) (m : Reader A) e P :
  reads_all m P → reads_all (if b then lift (Err e) else m) (λ a bs, b = false ∧ P a bs).
Proof.
  intros Hm pre todo a Hok. destruct b.
  - split; [done|]. by intros [? _].
  - rewrite (Hm _ _ _ Hok). naive_solver.
Qed.
End reads.

(** ** Specifications of the primitives *)
Section primitives.

Lemma reads_u8 : reads read_u8 (λ a bs, bs = [a]).
Proof.
  unfold read_u8. eapply reads_ext.
  { eapply reads_bind; [by apply reads_exact|]. intros a ? _. apply reads_ret. }
  intros a bs _. split.
  - intros (s & bs1 & bs2 & -> & [-> Hl] & -> & ->).
    destruct bs1 as [|c [|]]; [done|by rewrite app_nil_r|]. unfold len in Hl. simpl in Hl. lia.
  - intros ->. exists [a], [a], []. done.
Qed.

Lemma reads_be n (m : Reader (list byte)) :
  reads m (λ a bs, a = bs ∧ len bs = Z.of_nat n) →
  reads (slice ← m; mret (from_be_bytes slice))
    (λ z bs, 0 ≤ z < 256 ^ Z.of_nat n ∧ bs = to_be_bytes n z).
Proof.
  intros Hm. eapply reads_ext.
  { eapply reads_bind; [exact Hm|]. intros a ? _. apply reads_ret. }
  intros z bs _. split.
  - intros (s & bs1 & bs2 & -> & [-> Hl] & -> & ->). rewrite app_nil_r.
    assert (Hl' : length bs1 = n) by (unfold len in Hl; lia).
    pose proof (from_be_bytes_range bs1). rewrite Hl' in *. split; [done|].
    symmetry. by apply to_from_be_bytes.
  - intros [Hz ->]. exists (to_be_bytes n z), (to_be_bytes n z), []. rewrite app_nil_r.
    split; [done|]. split; [split; [done|unfold len; by rewrite length_to_be_bytes]|].
    split; [|done]. symmetry. by apply from_to_be_bytes_small.
Qed.

Lemma reads_u32 : reads read_u32 (λ z bs, is_u32 z ∧ bs = to_be_bytes 4 z).
Proof.
  eapply reads_ext; [apply (reads_be 4), reads_exact; done|].
  intros z bs _. unfold is_u32. rewrite u32_MAX_eq. split; intros [? ->]; (split; [lia|done]).
Qed.

Lemma reads_u64 : reads read_u64 (λ z bs, is_usize z ∧ bs = to_be_bytes 8 z).
Proof.
  eapply reads_ext; [apply (reads_be 8), reads_exact; done|].
  intros z bs _. unfold is_usize. rewrite usize_MAX_eq. split; intros [? ->]; (split; [lia|done]).
Qed.

Lemma reads_len : reads read_len (λ z bs, is_usize z ∧ bs = to_be_bytes 8 z).
Proof.
  unfold read_len. eapply reads_ext.
  { eapply reads_bind; [apply reads_u64|]. intros n ? _. apply reads_if, reads_ret. }
  intros z bs _. split.
  - intros (n & bs1 & bs2 & -> & [Hn ->] & _ & -> & ->). by rewrite app_nil_r.
  - intros [Hz ->]. exists z, (to_be_bytes 8 z), []. rewrite app_nil_r.
    split; [done|]. split; [done|]. split; [|done]. apply Z.leb_le. apply Hz.
Qed.

(** Comparing what was read with a constant. *)
Lemma reads_expect n expected :
  len expected = n →
  reads (slice ← read_exact n;
         if bool_decide (slice = expected) then mret tt else lift (Err InvalidEncoding))
    (λ _ bs, bs = expected).
Proof.
  intros <-. eapply reads_ext.
  { eapply reads_bind; [apply reads_exact; unfold len; lia|]. intros a ? _. apply reads_if, reads_ret. }
  intros [] bs _. split.
  - intros (a & bs1 & bs2 & -> & [-> _] & Ha%bool_decide_eq_true & _ & ->).
    by rewrite app_nil_r.
  - intros ->. exists expected, expected, []. rewrite app_nil_r, bool_decide_eq_true_2 by done. done.
Qed.

Lemma reads_magic : reads expect_magic (λ _ bs, bs = MAGIC).
Proof. by apply reads_expect. Qed.

Definition context_field (bytes : list byte) : list byte := to_be_bytes 8 (len bytes) ++ bytes.

Lemma reads_context_field expected :
  slice_ok expected → reads (expect_context_field expected) (λ _ bs, bs = context_field expected).
Proof.
  intros Hok. unfold expect_context_field. eapply reads_ext.
  { eapply reads_bind; [apply reads_len|]. intros n ? [[Hn _] _].
    eapply reads_bind; [by apply reads_exact|]. intros a ? _. apply reads_if, reads_ret. }
  intros [] bs _. split.
  - intros (n & bs1 & bs' & -> & [_ ->] & a & bs2 & bs3 & -> & [-> <-] &
      ->%bool_decide_eq_true & _ & ->). by rewrite app_nil_r.
  - intros ->. exists (len expected), (to_be_bytes 8 (len expected)), expected.
    split; [done|]. split; [split; [by apply slice_ok_is_usize|done]|].
    exists expected, expected, []. rewrite app_nil_r, bool_decide_eq_true_2 by done. done.
Qed.

(** A check that looks ahead is redundant when what follows consumes as much. *)
Lemma reads_ensure {A} (m : Reader A) P count k :
  0 ≤ count → 0 ≤ k → reads m P → (∀ a bs, P a bs → count * k ≤ len bs) →
  reads (_ ← ensure_remaining_items count k; m) P.
Proof.
  intros Hc Hk Hm HP pre todo a r Hok. rewrite stateful_bind_Ok. split.
  - intros ([] & r1 & He & Ha). injection He as _ <-. by apply Hm.
  - intros (bs & rest & -> & HPa & ->). exists (), (at_cursor pre (bs ++ rest)).
    specialize (HP a bs HPa). split; [|apply Hm; [done|]; eauto].
    unfold ensure_remaining_items, checked_mul, remaining, at_cursor, slice_ok, len in *.
    cbn [rd_bytes rd_cursor]. rewrite !length_app in *.
    rewrite bool_decide_eq_true_2 by lia. cbn [ok_or mbind result_bind].
    rewrite (proj2 (Z.leb_le _ _)) by lia. done.
Qed.

(** A loop whose body reads one item, encoded by [enc], and updates its state
    with it. *)
Lemma reads_fold {St I} (body : St → Reader St) (step : St → I → Result St)
    (wf : I → Prop) (enc : I → list byte) n s :
  (∀ s, reads (body s) (λ s' bs, ∃ i, wf i ∧ step s i = Ok s' ∧ bs = enc i)) →
  reads (read_fold body n s) (λ s' bs, ∃ items, length items = n ∧ Forall wf items ∧
    fold_result step s items = Ok s' ∧ bs = concat (enc <$> items)).
Proof.
  intros Hb. revert s. induction n as [|n IH]; intros s; cbn [read_fold].
  - eapply reads_ext; [apply (reads_ret s)|]. intros s' bs _. split.
    + intros [-> ->]. exists []. by repeat split.
    + intros ([|i l] & Hl & _ & Hf & ->); [|done]. injection Hf as ->. done.
  - eapply reads_ext; [eapply reads_bind; [apply Hb|]; intros ? ? _; apply IH|].
    intros s' bs _. split.
    + intros (s1 & ? & ? & -> & (i & Hwf & Hs & ->) & l & <- & Hl & Hf & ->).
      exists (i :: l). cbn [fold_result]. rewrite Hs. cbn [mbind result_bind]. split; [done|]. split; [by constructor|done].
    + intros ([|i l] & Hn & Hwf & Hf & ->); [done|].
      apply Forall_cons in Hwf as [Hi Hl]. cbn [fold_result] in Hf.
      apply bind_Ok in Hf as (s1 & Hs & Hf). injection Hn as Hn.
      exists s1, (enc i), (concat (enc <$> l)). split; [done|]. split; [by exists i|].
      by exists l.
Qed.
End primitives.

(** ** Increasing keys *)
Section increasing.
Context {A : Type} (idx : A → ParticipantIndex) (push : list A → A → list A).
Hypothesis push_sorted :
  ∀ l a, BTreeMap.sorted (idx <$> (l ++ [a])) → push l a = l ++ [a].

(** The loop state: what was read and the last index. *)
Definition increasing_step (state : list A * option ParticipantIndex) (a : A)
    : Result (list A * option ParticipantIndex) :=
  let '(l, last) := state in
  last ← ensure_increasing last (idx a);
  Ok (push l a, last).

Lemma sorted_snoc (l : list ParticipantIndex) p :
  BTreeMap.sorted (l ++ [p]) ↔
  BTreeMap.sorted l ∧ match last l with Some q => pi_get q < pi_get p | None => True end.
Proof.
  unfold BTreeMap.sorted. induction l as [|q l IH].
  { split; intros _; repeat constructor. }
  change ((q :: l) ++ [p]) with (q :: (l ++ [p])). rewrite !fmap_cons. split.
  - intros [Hs Hq]%StronglySorted_inv. apply IH in Hs as [Hs Hl].
    rewrite fmap_app in Hq. apply Forall_app in Hq as [Hq Hp].
    split; [by constructor|]. rewrite last_cons. destruct (last l); [done|].
    by inversion Hp.
  - intros [[Hs Hq]%StronglySorted_inv Hl]. rewrite last_cons in Hl.
    assert (Hqp : pi_get q < pi_get p).
    { destruct (last l) as [q'|] eqn:El; [|done].
      apply last_Some in El as [l' ->]. rewrite fmap_app in Hq.
      apply Forall_app in Hq as [_ Hq]. inversion Hq; subst. change (pi_get q < pi_get q') in H1. lia. }
    constructor; [apply IH; split; [done|]; by destruct (last l)|].
    rewrite fmap_app. apply Forall_app. split; [done|]. by apply Forall_singleton.
Qed.

Lemma increasing_fold l items l' last' :
  BTreeMap.sorted (idx <$> l) →
  fold_result increasing_step (l, last (idx <$> l)) items = Ok (l', last') ↔
  l' = l ++ items ∧ last' = last (idx <$> l') ∧ BTreeMap.sorted (idx <$> l').
Proof.
  revert l. induction items as [|a items IH]; intros l Hl; cbn [fold_result].
  { rewrite app_nil_r. naive_solver. }
  assert (Hsn : BTreeMap.sorted (idx <$> (l ++ [a])) ↔
    ∃ o, ensure_increasing (last (idx <$> l)) (idx a) = Ok o ∧ o = Some (idx a)).
  { rewrite fmap_app. cbn [fmap list_fmap]. rewrite sorted_snoc. unfold ensure_increasing.
    destruct (last (idx <$> l)) as [q|]; [|naive_solver].
    destruct (Z.leb_spec (pi_get (idx a)) (pi_get q)); split; intros Hx.
    - destruct Hx. lia.
    - by destruct Hx as (? & ? & _).
    - by eexists.
    - split; [done|lia]. }
  assert (Hlast : last (idx <$> (l ++ [a])) = Some (idx a)).
  { by rewrite fmap_app; cbn [fmap list_fmap]; rewrite last_snoc. }
  split.
  - intros ([l1 o1] & Hstep & Hf)%bind_Ok. apply bind_Ok in Hstep as (o & Ho & [= <- <-]).
    assert (o = Some (idx a)) as ->.
    { unfold ensure_increasing in Ho. repeat case_match; congruence. }
    assert (Hs : BTreeMap.sorted (idx <$> (l ++ [a]))) by (apply Hsn; eauto).
    rewrite (push_sorted _ _ Hs), <-Hlast in Hf. apply IH in Hf; [|done].
    by rewrite <-app_assoc in Hf.
  - intros (-> & -> & Hs).
    assert (Hs' : BTreeMap.sorted (idx <$> (l ++ [a]))).
    { rewrite cons_middle, app_assoc, fmap_app in Hs.
      unfold BTreeMap.sorted in *. rewrite fmap_app in Hs.
      by apply StronglySorted_app_1_l in Hs. }
    assert (increasing_step (l, last (idx <$> l)) a = Ok (l ++ [a], Some (idx a))) as ->.
    { pose proof Hs' as (o & Ho & ->)%Hsn. unfold increasing_step. rewrite Ho.
      cbn [mbind result_bind]. by rewrite (push_sorted _ _ Hs'). }
    cbn [mbind result_bind]. rewrite <-Hlast. apply IH; [done|].
    by rewrite <-app_assoc.
Qed.
End increasing.

Section group_specs.
Context `{GroupCodec}.

Definition scalar_bytes (s : Scalar) : list byte := repr_as_ref (to_repr s).
Definition element_bytes (P : Element) : list byte := element_as_ref (encode_element P).

Lemma len_scalar_bytes s : len (scalar_bytes s) = REPR_BYTES (F:=Scalar).
Proof. apply length_repr. Qed.
Lemma len_element_bytes P : len (element_bytes P) = ELEMENT_REPR_BYTES.
Proof. apply length_element_repr. Qed.

Lemma reads_scalar : reads read_scalar (λ s bs, bs = scalar_bytes s).
Proof.
  pose proof (REPR_BYTES_range (F:=Scalar)). unfold read_scalar. eapply reads_ext.
  { eapply reads_bind; [apply reads_exact; lia|]. intros a ? _.
    eapply reads_bind; [apply reads_lift|]. intros r ? _. apply reads_lift. }
  intros s bs _. split.
  - intros (a & bs1 & bs' & -> & [-> _] & r & bs2 & bs3 & -> & [Hr%ok_or_Ok ->] & Hs & ->).
    rewrite app_nil_r. apply to_from_repr in Hs as <-. symmetry. by apply repr_as_ref_try_from.
  - intros ->. eexists _, _, []. split; [by rewrite app_nil_r|].
    split; [split; [done|apply length_repr]|]. exists (to_repr s), [], []. split; [done|].
    split; [split; [by apply ok_or_Ok, repr_try_from_as_ref|done]|].
    split; [apply from_to_repr|done].
Qed.

Lemma reads_element : reads read_element (λ P bs, bs = element_bytes P).
Proof.
  pose proof ELEMENT_REPR_BYTES_range. unfold read_element. eapply reads_ext.
  { eapply reads_bind; [apply reads_exact; lia|]. intros a ? _.
    eapply reads_bind; [apply reads_lift|]. intros r ? _. apply reads_lift. }
  intros P bs _. split.
  - intros (a & bs1 & bs' & -> & [-> _] & r & bs2 & bs3 & -> & [Hr%ok_or_Ok ->] & HP & ->).
    rewrite app_nil_r. apply encode_decode_element in HP as <-.
    symmetry. by apply element_as_ref_try_from.
  - intros ->. eexists _, _, []. split; [by rewrite app_nil_r|].
    split; [split; [done|apply length_element_repr]|]. exists (encode_element P), [], [].
    split; [done|].
    split; [split; [by apply ok_or_Ok, element_try_from_as_ref|done]|].
    split; [apply decode_encode_element|done].
Qed.
End group_specs.

(** ** The contract of a wire type

    [read_wire] accepts exactly the encodings of well-formed values. *)
Class WireCodec (T : Type) `{WireEncode T, WireDecode T} (wf : T → Prop) : Prop := {
  write_wire_app t out : write_wire t out = out ++ to_nested_wire_bytes t;
  read_wire_reads : reads read_wire (λ t bs, wf t ∧ bs = to_nested_wire_bytes t);
}.

Class WireContext (T : Type) `{WireMessage T} (context : list byte) : Prop := {
  write_wire_context_app out : write_wire_context (T:=T) out = out ++ context;
  read_wire_context_reads : reads (read_wire_context (T:=T)) (λ _ bs, bs = context);
}.

Section envelope.
Context {T : Type} `{WireMessage T} {wf : T → Prop} {context : list byte}
  `{!WireCodec T wf} `{!WireContext T context}.

Lemma to_wire_bytes_eq (t : T) :
  to_wire_bytes t = MAGIC ++ [TAG (T:=T)] ++ context ++ to_nested_wire_bytes t.
Proof.
  unfold to_wire_bytes. rewrite write_wire_app, write_wire_context_app. by rewrite <-!app_assoc.
Qed.

Lemma from_wire_bytes_iff bytes (t : T) :
  slice_ok bytes → from_wire_bytes bytes = Ok t ↔ wf t ∧ bytes = to_wire_bytes t.
Proof.
  intros Hok. rewrite to_wire_bytes_eq.
  assert (Hall : reads_all read_envelope
    (λ t bs, wf t ∧ bs = MAGIC ++ [TAG (T:=T)] ++ context ++ to_nested_wire_bytes t)).
  { intros pre todo t' Ht. unfold read_envelope. etrans.
    { eapply reads_all_bind; [apply reads_magic| |exact Ht]. intros ? ? _.
      eapply reads_all_bind; [apply reads_u8|]. intros tag ? _.
      eapply reads_all_guard, reads_all_bind; [apply read_wire_context_reads|].
      intros ? ? _. eapply reads_all_bind; [apply read_wire_reads|].
      intros v ? _. apply reads_all_finish. }
    split.
    - intros ([] & ? & ? & -> & -> & tag & ? & ? & -> & -> & Htag & [] & ? & ? & -> & -> &
        v & ? & ? & -> & [Hwf ->] & -> & ->).
      apply negb_false_iff, bool_decide_eq_true in Htag as ->. by rewrite app_nil_r.
    - intros [Hwf ->]. eexists (), _, _. split; [done|]. split; [done|].
      eexists _, [_], _. split; [done|]. split; [done|].
      split; [by rewrite bool_decide_eq_true_2|].
      eexists (), _, _. split; [done|]. split; [done|].
      exists t', (to_nested_wire_bytes t'), []. by rewrite app_nil_r. }
  exact (Hall [] bytes t Hok).
Qed.
End envelope.
