(* ===== verification/WireDkg.v ===== *)
(** * Wire types of the key generation (wire.rs, lines 206-566 and 762-819)

    The encoders and decoders of the identifiers, of encrypted shares, Feldman
    commitments, identity-key proofs, registries, configurations and dealer
    messages, their envelopes, and their size hints. *)

From Stdlib Require Import ZArith Lia Strings.Byte Sorted.
From stdpp Require Import prelude strings sorting.
From S2P Require Import Prelude BTree CoreError Group Algebra Poly Participant Feldman Transcript.
From S2P Require Import IdentityKey Registry Statement Dkg TestSupport Wire.

Local Open Scope Z_scope.

#[export] Instance SessionId_encode : WireEncode SessionId := {|
  write_wire value out := out ++ session_bytes value;
  wire_size_hint := default_wire_size_hint;
|}.
#[export] Instance SessionId_decode : WireDecode SessionId := {|
  read_wire := bytes ← read_array 32; mret (MkSessionId bytes);
|}.
#[export] Instance SessionId_message : WireMessage SessionId := {|
  TAG := TAG_SESSION_ID;
  CODEC_ID := bstr "session-id-v1";
  write_wire_context := default_write_wire_context (bstr "session-id-v1");
  read_wire_context := default_read_wire_context (bstr "session-id-v1");
|}.

#[export] Instance DealerMessageNonce_encode : WireEncode DealerMessageNonce := {|
  write_wire value out := out ++ nonce_bytes value;
  wire_size_hint := default_wire_size_hint;
|}.
#[export] Instance DealerMessageNonce_decode : WireDecode DealerMessageNonce := {|
  read_wire := bytes ← read_array DEALER_MESSAGE_NONCE_BYTES; mret (MkDealerMessageNonce bytes);
|}.
#[export] Instance DealerMessageNonce_message : WireMessage DealerMessageNonce := {|
  TAG := TAG_DEALER_MESSAGE_NONCE;
  CODEC_ID := bstr "dealer-message-nonce-v1";
  write_wire_context := default_write_wire_context (bstr "dealer-message-nonce-v1");
  read_wire_context := default_read_wire_context (bstr "dealer-message-nonce-v1");
|}.

#[export] Instance ParticipantIndex_encode : WireEncode ParticipantIndex := {|
  write_wire value out := write_u32 out (pi_get value);
  wire_size_hint := default_wire_size_hint;
|}.
#[export] Instance ParticipantIndex_decode : WireDecode ParticipantIndex := {|
  read_wire := value ← read_u32; lift (ParticipantIndex_new value);
|}.

#[export] Instance TranscriptRoot_encode : WireEncode TranscriptRoot := {|
  write_wire value out := out ++ value;
  wire_size_hint := default_wire_size_hint;
|}.
#[export] Instance TranscriptRoot_decode : WireDecode TranscriptRoot := {|
  read_wire := read_array 32;
|}.

Section group_types.
Context `{GoldenGroup}.

#[export] Instance EncryptedShare_encode : WireEncode EncryptedShare := {|
  write_wire value out :=
    let out := write_element out (pad_commitment value) in
    write_scalar out (encrypted_share value);
  wire_size_hint := default_wire_size_hint;
|}.
#[export] Instance EncryptedShare_decode : WireDecode EncryptedShare := {|
  read_wire :=
    pad_commitment ← read_element;
    encrypted_share ← read_scalar;
    mret (MkEncryptedShare pad_commitment encrypted_share);
|}.
#[export] Instance EncryptedShare_message : WireMessage EncryptedShare := {|
  TAG := TAG_ENCRYPTED_SHARE;
  CODEC_ID := bstr "encrypted-share-v2";
  write_wire_context := group_write_wire_context (bstr "encrypted-share-v2");
  read_wire_context := group_read_wire_context (bstr "encrypted-share-v2");
|}.

#[export] Instance FeldmanCommitment_encode : WireEncode FeldmanCommitment := {|
  write_wire value out :=
    let out := write_len out (len (commitment_coefficients value)) in
    foldl write_element out (commitment_coefficients value);
  wire_size_hint := default_wire_size_hint;
|}.
#[export] Instance FeldmanCommitment_decode : WireDecode FeldmanCommitment := {|
  read_wire :=
    n ← read_len;
    _ ← ensure_remaining_items n ELEMENT_REPR_BYTES;
    coefficients ←
      read_fold (λ coefficients, element ← read_element; mret (coefficients ++ [element]))
        (Z.to_nat n) [];
    lift (FeldmanCommitment_from_coefficients coefficients);
|}.
#[export] Instance FeldmanCommitment_message : WireMessage FeldmanCommitment := {|
  TAG := TAG_FELDMAN_COMMITMENT;
  CODEC_ID := bstr "feldman-commitment-v1";
  write_wire_context := group_write_wire_context (bstr "feldman-commitment-v1");
  read_wire_context := group_read_wire_context (bstr "feldman-commitment-v1");
|}.

#[export] Instance IdentityKeyProof_encode : WireEncode IdentityKeyProof := {|
  write_wire value out :=
    let out := write_element out (nonce_point value) in
    write_scalar out (response value);
  wire_size_hint := default_wire_size_hint;
|}.
#[export] Instance IdentityKeyProof_decode : WireDecode IdentityKeyProof := {|
  read_wire :=
    nonce_point ← read_element;
    response ← read_scalar;
    mret (MkIdentityKeyProof nonce_point response);
|}.
#[export] Instance IdentityKeyProof_message : WireMessage IdentityKeyProof := {|
  TAG := TAG_IDENTITY_KEY_PROOF;
  CODEC_ID := bstr "identity-key-proof-v1";
  write_wire_context := group_write_wire_context (bstr "identity-key-proof-v1");
  read_wire_context := group_read_wire_context (bstr "identity-key-proof-v1");
|}.

Definition registry_entry_bytes (out : list byte)
    (entry : ParticipantIndex * Element * IdentityKeyProof) : list byte :=
  let '(participant, public_key, proof) := entry in
  let out := write_wire participant out in
  let out := write_element out public_key in
  write_wire proof out.

#[export] Instance ParticipantRegistry_encode : WireEncode ParticipantRegistry := {|
  write_wire value out :=
    let out := write_len out (registry_len value) in
    foldl registry_entry_bytes out (registry_entries_with_proofs value);
  wire_size_hint := default_wire_size_hint;
|}.
End group_types.

Section hashing_types.
Context `{GoldenGroup} `{Sha256}.

#[export] Instance ParticipantRegistry_decode : WireDecode ParticipantRegistry := {|
  read_wire :=
    n ← read_len;
    let entry_len := 4 + 2 * ELEMENT_REPR_BYTES + REPR_BYTES (F:=Scalar) in
    _ ← ensure_remaining_items n entry_len;
    '(entries, _) ←
      read_fold
        (λ '(entries, last),
           participant ← read_wire;
           last ← lift (ensure_increasing last participant);
           public_key ← read_element;
           proof ← read_wire;
           mret (entries ++ [(participant, public_key, proof)], last))
        (Z.to_nat n) ([], None);
    lift (ParticipantRegistry_new entries);
|}.
#[export] Instance ParticipantRegistry_message : WireMessage ParticipantRegistry := {|
  TAG := TAG_PARTICIPANT_REGISTRY;
  CODEC_ID := bstr "participant-registry-v2";
  write_wire_context := group_write_wire_context (bstr "participant-registry-v2");
  read_wire_context := group_read_wire_context (bstr "participant-registry-v2");
|}.

#[export] Instance DkgConfig_encode : WireEncode DkgConfig := {|
  write_wire value out :=
    let out := write_len out (config_threshold value) in
    let out := write_wire (config_session_id value) out in
    let out := write_scalar out (config_beta value) in
    write_wire (config_registry value) out;
  wire_size_hint := default_wire_size_hint;
|}.
#[export] Instance DkgConfig_decode : WireDecode DkgConfig := {|
  read_wire :=
    threshold ← read_len;
    session_id ← read_wire;
    beta ← read_scalar;
    registry ← read_wire;
    lift (DkgConfig_new threshold session_id beta registry);
|}.
#[export] Instance DkgConfig_message : WireMessage DkgConfig := {|
  TAG := TAG_DKG_CONFIG;
  CODEC_ID := bstr "dkg-config-v2";
  write_wire_context := group_write_wire_context (bstr "dkg-config-v2");
  read_wire_context := group_read_wire_context (bstr "dkg-config-v2");
|}.

Definition share_entry_bytes (out : list byte) (entry : ParticipantIndex * EncryptedShare)
    : list byte :=
  let '(receiver, encrypted_share) := entry in
  let out := write_wire receiver out in
  write_wire encrypted_share out.

(** Rust evaluates [wire_size_hint] with checked or wrapping machine
    arithmetic; the hint of a value that fits in memory does not overflow. *)
#[export] Instance DealerMessage_encode : WireEncode DealerMessage := {|
  write_wire value out :=
    let out := write_wire (msg_session_id value) out in
    let out := write_wire (msg_registry_root value) out in
    let out := write_wire (msg_dealer value) out in
    let out := write_wire (msg_msg_i value) out in
    let out := write_wire (msg_commitment value) out in
    let out := write_len out (len (msg_encrypted_shares value)) in
    let out := foldl share_entry_bytes out (msg_encrypted_shares value) in
    let out := write_len out (len (msg_proof value)) in
    out ++ msg_proof value;
  wire_size_hint value :=
    let encrypted_share_len := 4 + ELEMENT_REPR_BYTES + REPR_BYTES (F:=Scalar) in
    32 + 32 + 4 + 32
    + 8 + len (commitment_coefficients (msg_commitment value)) * ELEMENT_REPR_BYTES
    + 8 + len (msg_encrypted_shares value) * encrypted_share_len
    + 8 + len (msg_proof value);
|}.
#[export] Instance DealerMessage_decode : WireDecode DealerMessage := {|
  read_wire :=
    session_id ← read_wire;
    registry_root ← read_wire;
    dealer ← read_wire;
    msg_i ← read_wire;
    commitment ← read_wire;
    n ← read_len;
    let encrypted_share_len := 4 + ELEMENT_REPR_BYTES + REPR_BYTES (F:=Scalar) in
    _ ← ensure_remaining_items n encrypted_share_len;
    '(encrypted_shares, _) ←
      read_fold
        (λ '(encrypted_shares, last),
           receiver ← read_wire;
           last ← lift (ensure_increasing last receiver);
           encrypted_share ← read_wire;
           mret (BTreeMap.insert receiver encrypted_share encrypted_shares, last))
        (Z.to_nat n) (BTreeMap.empty, None);
    proof_len ← read_len;
    proof ← read_exact proof_len;
    let message :=
      MkDealerMessage session_id registry_root dealer msg_i commitment encrypted_shares proof
        (replicate 32 x00) in
    mret (MkDealerMessage session_id registry_root dealer msg_i commitment encrypted_shares proof
            (recompute_transcript_root message));
|}.
#[export] Instance DealerMessage_message : WireMessage DealerMessage := {|
  TAG := TAG_DEALER_MESSAGE;
  CODEC_ID := bstr "dealer-message-v3";
  write_wire_context := group_write_wire_context (bstr "dealer-message-v3");
  read_wire_context := group_read_wire_context (bstr "dealer-message-v3");
|}.
End hashing_types.

(** [miden_usize_size]: the length of a variable-length integer. *)
Definition leading_zeros_u64 (value : Z) : Z :=
  if value =? 0 then 64 else 64 - (Z.log2 value + 1).
Definition miden_usize_size (value : Z) : Z :=
  let zeros := leading_zeros_u64 value in
  let n := Z.max (zeros - 1) 0 / 7 in
  9 - Z.min n 8.
Definition miden_wire_size_hint `{WireMessage T} (value : T) : Z :=
  let n := len (to_wire_bytes value) in miden_usize_size n + n.

(** ** Identifiers *)
Section contexts.

Lemma default_context (codec_id : list byte) :
  slice_ok codec_id →
  (∀ out, default_write_wire_context codec_id out = out ++ context_field codec_id) ∧
  reads (default_read_wire_context codec_id) (λ _ bs, bs = context_field codec_id).
Proof.
  intros Hok. split; [|by apply reads_context_field]. intros out.
  unfold default_write_wire_context, write_context_field, write_len, context_field.
  by rewrite <-app_assoc.
Qed.

Definition group_context `{GoldenGroup} (codec_id : list byte) : list byte :=
  context_field codec_id ++ context_field BACKEND_ID.

Lemma group_context_spec `{GroupCodec} (codec_id : list byte) :
  slice_ok codec_id →
  (∀ out, group_write_wire_context codec_id out = out ++ group_context codec_id) ∧
  reads (group_read_wire_context codec_id) (λ _ bs, bs = group_context codec_id).
Proof.
  intros Hok. split.
  - intros out. unfold group_write_wire_context, write_context_field, write_len, group_context,
      context_field. by rewrite <-!app_assoc.
  - unfold group_read_wire_context. eapply reads_ext.
    { eapply reads_bind; [by apply reads_context_field|]. intros ? ? _.
      apply reads_context_field. exact BACKEND_ID_usize. }
    intros [] bs _. unfold group_context. split.
    + by intros ([] & ? & ? & -> & -> & ->).
    + intros ->. by exists (), (context_field codec_id), (context_field BACKEND_ID).
Qed.
End contexts.

#[export] Instance SessionId_context : WireContext SessionId (context_field (bstr "session-id-v1")).
Proof. by split; apply default_context. Qed.
#[export] Instance DealerMessageNonce_context :
  WireContext DealerMessageNonce (context_field (bstr "dealer-message-nonce-v1")).
Proof. by split; apply default_context. Qed.

Lemma reads_array n :
  0 ≤ n → reads (read_array n) (λ a bs, len a = n ∧ bs = a).
Proof.
  intros Hn. eapply reads_ext; [by apply reads_exact|]. intros a bs _. naive_solver.
Qed.

Lemma reads_map {A B} (m : Reader A) (f : A → B) P :
  reads m P → reads (a ← m; mret (f a)) (λ b bs, ∃ a, b = f a ∧ P a bs).
Proof.
  intros Hm. eapply reads_ext.
  { eapply reads_bind; [exact Hm|]. intros a ? _. apply reads_ret. }
  intros b bs _. split.
  - intros (a & bs1 & bs2 & -> & HP & -> & ->). rewrite app_nil_r. by exists a.
  - intros (a & -> & HP). exists a, bs, []. by rewrite app_nil_r.
Qed.

#[export] Instance SessionId_codec : WireCodec SessionId session_wf.
Proof.
  split; [done|]. cbn [read_wire SessionId_decode]. eapply reads_ext.
  { apply reads_map. by apply reads_array. }
  intros [t] bs _. unfold session_wf, len, to_nested_wire_bytes. simpl. split.
  - intros (a & [= ->] & Hl & ->). split; [lia|done].
  - intros [Hl ->]. exists t. split; [done|]. split; [lia|done].
Qed.

#[export] Instance DealerMessageNonce_codec : WireCodec DealerMessageNonce nonce_wf.
Proof.
  split; [done|]. cbn [read_wire DealerMessageNonce_decode]. eapply reads_ext.
  { apply reads_map. by apply reads_array. }
  intros [t] bs _. unfold nonce_wf, len, to_nested_wire_bytes, DEALER_MESSAGE_NONCE_BYTES.
  simpl. split.
  - intros (a & [= ->] & Hl & ->). split; [lia|done].
  - intros [Hl ->]. exists t. split; [done|]. split; [lia|done].
Qed.

#[export] Instance TranscriptRoot_codec : WireCodec TranscriptRoot root_wf.
Proof.
  split; [done|]. cbn [read_wire TranscriptRoot_decode]. eapply reads_ext; [by apply reads_array|].
  intros t bs _. unfold root_wf, len, to_nested_wire_bytes. simpl. split; intros [? ->]; (split; [lia|done]).
Qed.

#[export] Instance ParticipantIndex_codec : WireCodec ParticipantIndex participant_wf.
Proof.
  split; [done|]. cbn [read_wire ParticipantIndex_decode]. eapply reads_ext.
  { eapply reads_bind; [apply reads_u32|]. intros n ? _. apply reads_lift. }
  intros p bs _. unfold to_nested_wire_bytes. simpl. unfold write_u32. simpl. split.
  - intros (n & ? & ? & -> & [Hn ->] & Hp & ->). rewrite app_nil_r.
    by destruct (ParticipantIndex_new_wf _ _ Hn Hp) as [? ->].
  - intros [Hp ->]. exists (pi_get p), (to_be_bytes 4 (pi_get p)), []. rewrite app_nil_r.
    split; [done|]. split; [split; [unfold participant_wf, is_u32 in *; lia|done]|].
    split; [by apply ParticipantIndex_new_get|done].
Qed.

Lemma len_participant_bytes (p : ParticipantIndex) : len (to_nested_wire_bytes p) = 4.
Proof. change (len (to_be_bytes 4 (pi_get p)) = 4). unfold len. by rewrite length_to_be_bytes. Qed.

(** ** Fixed-size group types *)
Section group_codecs.
Context `{GroupCodec}.

#[export] Instance EncryptedShare_context :
  WireContext EncryptedShare (group_context (bstr "encrypted-share-v2")).
Proof. by split; apply group_context_spec. Qed.
#[export] Instance FeldmanCommitment_context :
  WireContext FeldmanCommitment (group_context (bstr "feldman-commitment-v1")).
Proof. by split; apply group_context_spec. Qed.
#[export] Instance IdentityKeyProof_context :
  WireContext IdentityKeyProof (group_context (bstr "identity-key-proof-v1")).
Proof. by split; apply group_context_spec. Qed.

(** An element followed by a scalar. *)
Lemma reads_element_scalar {A} (f : Element → Scalar → A) :
  reads (P ← read_element; s ← read_scalar; mret (f P s))
    (λ a bs, ∃ P s, a = f P s ∧ bs = element_bytes P ++ scalar_bytes s).
Proof.
  eapply reads_ext.
  { eapply reads_bind; [apply reads_element|]. intros P ? _. apply reads_map, reads_scalar. }
  intros a bs _. split.
  - intros (P & ? & ? & -> & -> & s & -> & ->). by exists P, s.
  - intros (P & s & -> & ->). exists P, (element_bytes P), (scalar_bytes s). eauto.
Qed.

#[export] Instance EncryptedShare_codec : WireCodec EncryptedShare (λ _, True).
Proof.
  split; [intros; unfold to_nested_wire_bytes; simpl; unfold write_element, write_scalar;
          by rewrite <-!app_assoc|].
  cbn [read_wire EncryptedShare_decode]. eapply reads_ext; [apply reads_element_scalar|].
  intros [P s] bs _. split.
  - by intros (? & ? & [= -> ->] & ->).
  - intros [_ ->]. by exists P, s.
Qed.

#[export] Instance IdentityKeyProof_codec : WireCodec IdentityKeyProof (λ _, True).
Proof.
  split; [intros; unfold to_nested_wire_bytes; simpl; unfold write_element, write_scalar;
          by rewrite <-!app_assoc|].
  cbn [read_wire IdentityKeyProof_decode]. eapply reads_ext; [apply reads_element_scalar|].
  intros [P s] bs _. split.
  - by intros (? & ? & [= -> ->] & ->).
  - intros [_ ->]. by exists P, s.
Qed.

Lemma len_app {A} (l k : list A) : len (l ++ k) = len l + len k.
Proof. unfold len. rewrite length_app. lia. Qed.

Lemma len_encrypted_share_bytes (e : EncryptedShare) :
  len (to_nested_wire_bytes e) = ELEMENT_REPR_BYTES + REPR_BYTES (F:=Scalar).
Proof.
  unfold to_nested_wire_bytes. simpl. unfold write_element, write_scalar. simpl.
  rewrite len_app. by rewrite length_element_repr, length_repr.
Qed.

Lemma len_identity_proof_bytes (π : IdentityKeyProof) :
  len (to_nested_wire_bytes π) = ELEMENT_REPR_BYTES + REPR_BYTES (F:=Scalar).
Proof.
  unfold to_nested_wire_bytes. simpl. unfold write_element, write_scalar. simpl.
  rewrite len_app. by rewrite length_element_repr, length_repr.
Qed.

Lemma len_concat_fixed {A} (enc : A → list byte) k (l : list A) :
  (∀ a, len (enc a) = k) → len (concat (enc <$> l)) = len l * k.
Proof.
  intros Hk. induction l as [|a l IH]; csimpl; [done|].
  rewrite len_app, Hk, IH. unfold len. simpl length. lia.
Qed.

Lemma foldl_app_enc {A} (f : list byte → A → list byte) (enc : A → list byte) out l :
  (∀ out a, f out a = out ++ enc a) → foldl f out l = out ++ concat (enc <$> l).
Proof.
  intros Hf. revert out. induction l as [|a l IH]; intros out; csimpl.
  - by rewrite app_nil_r.
  - by rewrite IH, Hf, <-app_assoc.
Qed.

(** [write_len] of a vector followed by its items, and the loop that reads it. *)
Definition vec_bytes {A} (enc : A → list byte) (l : list A) : list byte :=
  to_be_bytes 8 (len l) ++ concat (enc <$> l).

Lemma slice_ok_vec_bytes {A} (enc : A → list byte) k l :
  0 < k → (∀ a, len (enc a) = k) → slice_ok (vec_bytes enc l) → slice_ok l.
Proof.
  intros Hk He. unfold slice_ok, vec_bytes. rewrite len_app, (len_concat_fixed _ _ _ He).
  unfold len. nia.
Qed.

Lemma commitment_bytes (c : FeldmanCommitment) :
  to_nested_wire_bytes c = vec_bytes element_bytes (commitment_coefficients c).
Proof.
  unfold to_nested_wire_bytes. cbn [write_wire FeldmanCommitment_encode].
  by rewrite (foldl_app_enc _ element_bytes).
Qed.
End group_codecs.

(** ** Counted sequences *)
Section counted.

Lemma slice_ok_app {A} (l k : list A) : slice_ok (l ++ k) → slice_ok l ∧ slice_ok k.
Proof. unfold slice_ok, len. rewrite length_app. lia. Qed.

(** With the guard [g] on the length between its two reads. *)
Lemma reads_counted_guard {St I A} (g : Z → bool) (body : St → Reader St)
    (step : St → I → Result St) (wf : I → Prop) (enc : I → list byte) k s0 (f : St → Reader A) Q :
  0 < k → (∀ i, len (enc i) = k) →
  (∀ s, reads (body s) (λ s' bs, ∃ i, wf i ∧ step s i = Ok s' ∧ bs = enc i)) →
  (∀ s, reads (f s) (Q s)) →
  reads (n ← read_len;
         if g n then lift (Err InvalidEncoding)
         else (_ ← ensure_remaining_items n k; s ← read_fold body (Z.to_nat n) s0; f s))
    (λ a bs, ∃ items s bs2, bs = vec_bytes enc items ++ bs2 ∧ g (len items) = false ∧
       Forall wf items ∧ fold_result step s0 items = Ok s ∧ Q s a bs2).
Proof.
  intros Hk He Hb Hf.
  assert (Hloop : ∀ n, reads (s ← read_fold body (Z.to_nat n) s0; f s)
    (λ a bs, ∃ items s bs2, bs = concat (enc <$> items) ++ bs2 ∧ length items = Z.to_nat n ∧
       Forall wf items ∧ fold_result step s0 items = Ok s ∧ Q s a bs2)).
  { intros n. eapply reads_ext.
    { eapply reads_bind; [apply (reads_fold _ step wf enc), Hb|]. intros s ? _. apply Hf. }
    intros a bs _. split.
    - intros (s & ? & bs2 & -> & (items & Hl & Hwf & Hs & ->) & HQ). by exists items, s, bs2.
    - intros (items & s & bs2 & -> & Hl & Hwf & Hs & HQ).
      exists s, (concat (enc <$> items)), bs2. split; [done|]. split; [by exists items|done]. }
  eapply reads_ext.
  { eapply reads_bind; [apply reads_len|]. intros n ? [[Hn _] _]. apply reads_guard.
    apply reads_ensure; [done|lia|apply Hloop|].
    intros a ? (items & s & bs2 & -> & Hl & _). rewrite len_app, (len_concat_fixed _ k) by done.
    unfold len. rewrite Hl. lia. }
  intros a bs Hok. split.
  - intros (n & ? & ? & -> & [Hn ->] & Hg & items & s & bs2 & -> & Hl & Hwf & Hs & HQ).
    assert (n = len items) as -> by (unfold len; rewrite Hl; unfold is_usize in Hn; lia).
    exists items, s, bs2. split; [|done]. unfold vec_bytes. by rewrite <-app_assoc.
  - intros (items & s & bs2 & -> & Hg & Hwf & Hs & HQ).
    exists (len items), (to_be_bytes 8 (len items)), (concat (enc <$> items) ++ bs2).
    apply slice_ok_app in Hok as [Hok _]. apply (slice_ok_vec_bytes _ _ _ Hk He) in Hok.
    split; [unfold vec_bytes; by rewrite <-app_assoc|].
    split; [split; [by apply slice_ok_is_usize|done]|]. split; [done|].
    exists items, s, bs2. split; [done|]. split; [unfold len; lia|done].
Qed.

Lemma reads_counted {St I A} (body : St → Reader St) (step : St → I → Result St)
    (wf : I → Prop) (enc : I → list byte) k s0 (f : St → Reader A) Q :
  0 < k → (∀ i, len (enc i) = k) →
  (∀ s, reads (body s) (λ s' bs, ∃ i, wf i ∧ step s i = Ok s' ∧ bs = enc i)) →
  (∀ s, reads (f s) (Q s)) →
  reads (n ← read_len; _ ← ensure_remaining_items n k;
         s ← read_fold body (Z.to_nat n) s0; f s)
    (λ a bs, ∃ items s bs2, bs = vec_bytes enc items ++ bs2 ∧ Forall wf items ∧
       fold_result step s0 items = Ok s ∧ Q s a bs2).
Proof.
  intros Hk He Hb Hf. eapply reads_ext.
  { exact (reads_counted_guard (λ _, false) body step wf enc k s0 f Q Hk He Hb Hf). }
  intros a bs _. naive_solver.
Qed.

Lemma fold_push {A} (l items : list A) :
  fold_result (E:=CoreError) (λ l a, Ok (l ++ [a])) l items = Ok (l ++ items).
Proof.
  revert l. induction items as [|a items IH]; intros l; cbn [fold_result mbind result_bind].
  - by rewrite app_nil_r.
  - by rewrite IH, <-app_assoc.
Qed.
End counted.

(** ** Commitments *)
#[export] Instance FeldmanCommitment_codec `{GroupCodec} : WireCodec FeldmanCommitment (λ _, True).
Proof.
  pose proof ELEMENT_REPR_BYTES_range. split.
  { intros t out. rewrite commitment_bytes. cbn [write_wire FeldmanCommitment_encode].
    rewrite (foldl_app_enc _ element_bytes) by done. unfold write_len, vec_bytes.
    by rewrite <-app_assoc. }
  cbn [read_wire FeldmanCommitment_decode]. eapply reads_ext.
  { apply (reads_counted _ (λ l a, Ok (l ++ [a])) (λ _, True) element_bytes).
    - lia.
    - apply len_element_bytes.
    - intros s. eapply reads_ext; [apply reads_map, reads_element|]. intros l bs _. split.
      + intros (P & -> & ->). by exists P.
      + intros (P & _ & [= <-] & ->). by exists P.
    - intros s. apply reads_lift. }
  intros c bs _. rewrite commitment_bytes. split.
  - intros (items & s & ? & -> & _ & Hs & Hc & ->). rewrite fold_push in Hs.
    injection Hs as <-. rewrite app_nil_r. split; [done|].
    destruct items as [|P items]; [done|]. by injection Hc as <-.
  - intros [_ ->]. destruct c as [P Ps]. exists (P :: Ps), (P :: Ps), [].
    rewrite app_nil_r. split; [done|]. split; [by apply Forall_true|].
    by rewrite fold_push.
Qed.

(** ** Sequences in increasing key order *)

(** The body of the keyed loops; [check] is one of the two order checks. *)
Lemma reads_increasing {A B} (check : option ParticipantIndex → ParticipantIndex →
      Result (option ParticipantIndex)) (idx : A → ParticipantIndex) (push : list A → A → list A)
    (mk : ParticipantIndex → B → A) (enc : B → list byte) l last
    (f : ParticipantIndex → option ParticipantIndex → Reader (list A * option ParticipantIndex)) :
  (∀ last p o, check last p = Ok o ↔ ensure_increasing last p = Ok o) →
  (∀ p b, idx (mk p b) = p) →
  (∀ p o, reads (f p o) (λ s bs, ∃ b, s = (push l (mk p b), o) ∧ bs = enc b)) →
  reads (p ← read_wire; o ← lift (check last p); f p o)
    (λ s bs, ∃ i : ParticipantIndex * B, participant_wf i.1 ∧
       increasing_step idx push (l, last) (mk i.1 i.2) = Ok s ∧
       bs = to_nested_wire_bytes i.1 ++ enc i.2).
Proof.
  intros Hcheck Hidx Hf. eapply reads_ext.
  { eapply reads_bind; [apply read_wire_reads|]. intros p ? _.
    eapply reads_bind; [apply reads_lift|]. intros o ? _. apply Hf. }
  setoid_rewrite Hcheck.
  intros s bs _. unfold increasing_step. split.
  - intros (p & ? & ? & -> & [Hp ->] & o & ? & ? & -> & [Ho ->] & b & -> & ->).
    exists (p, b). simpl. rewrite Hidx, Ho. done.
  - intros ([p b] & Hp & Hs & ->). simpl in *. rewrite Hidx in Hs.
    apply bind_Ok in Hs as (o & Ho & [= <-]).
    exists p, (to_nested_wire_bytes p), (enc b). split; [done|]. split; [done|].
    exists o, [], (enc b). split; [done|]. split; [done|]. by exists b.
Qed.

(** The loop state of a map read in increasing key order. *)
Lemma keyed_fold {B} (items : list (ParticipantIndex * B)) s :
  fold_result (increasing_step fst (λ m e, BTreeMap.insert e.1 e.2 m)) ([], None) items = Ok s ↔
  s = (items, last (items.*1)) ∧ BTreeMap.wf items.
Proof.
  assert (Hpush : ∀ (l : list (ParticipantIndex * B)) e, BTreeMap.sorted (fst <$> (l ++ [e])) →
    BTreeMap.insert e.1 e.2 l = l ++ [e]).
  { intros l1 [p e] Hs. simpl. apply BTreeMap.insert_snoc. apply (BTreeMap.wf_snoc p e l1). exact Hs. }
  destruct s as [l last']. etrans; [apply (increasing_fold fst _ Hpush [] items l last'); constructor|].
  simpl. unfold BTreeMap.wf, BTreeMap.sorted, BTreeMap.keys. naive_solver.
Qed.

(** ** Dealer messages *)
Section dealer_message.
Context `{GroupCodec} `{Sha256}.

#[export] Instance DealerMessage_context :
  WireContext DealerMessage (group_context (bstr "dealer-message-v3")).
Proof. by split; apply group_context_spec. Qed.

Definition share_bytes (e : ParticipantIndex * EncryptedShare) : list byte :=
  to_nested_wire_bytes e.1 ++ to_nested_wire_bytes e.2.

Lemma share_entry_bytes_app out e : share_entry_bytes out e = out ++ share_bytes e.
Proof.
  destruct e as [p e]. unfold share_entry_bytes, share_bytes. simpl fst. simpl snd.
  by rewrite (write_wire_app e), (write_wire_app p), <-app_assoc.
Qed.

Lemma len_share_bytes e :
  len (share_bytes e) = 4 + ELEMENT_REPR_BYTES + REPR_BYTES (F:=Scalar).
Proof.
  unfold share_bytes. rewrite len_app, len_participant_bytes, len_encrypted_share_bytes. lia.
Qed.

Lemma message_bytes_app (m : DealerMessage) out :
  write_wire m out = out ++ session_bytes (msg_session_id m) ++ msg_registry_root m
    ++ to_nested_wire_bytes (msg_dealer m) ++ nonce_bytes (msg_msg_i m)
    ++ to_nested_wire_bytes (msg_commitment m) ++ vec_bytes share_bytes (msg_encrypted_shares m)
    ++ to_be_bytes 8 (len (msg_proof m)) ++ msg_proof m.
Proof.
  cbn [write_wire DealerMessage_encode]. unfold write_len.
  rewrite (foldl_app_enc _ share_bytes) by apply share_entry_bytes_app.
  rewrite (write_wire_app (msg_commitment m)), (write_wire_app (msg_msg_i m)),
    (write_wire_app (msg_dealer m)), (write_wire_app (msg_registry_root m)),
    (write_wire_app (msg_session_id m)).
  unfold vec_bytes. by rewrite <-!app_assoc.
Qed.

(** The values the decoder builds: array lengths, nonzero indexes, shares in
    increasing key order, and the root of the fields. *)
Definition wire_message_wf (m : DealerMessage) : Prop :=
  session_wf (msg_session_id m) ∧ root_wf (msg_registry_root m) ∧
  participant_wf (msg_dealer m) ∧ nonce_wf (msg_msg_i m) ∧
  BTreeMap.wf (msg_encrypted_shares m) ∧
  Forall participant_wf (BTreeMap.keys (msg_encrypted_shares m)) ∧
  msg_transcript_root m = recompute_transcript_root m.

(** Reading the shares and the proof. *)
Lemma reads_shares_proof {A} (f : EncryptedShares → list byte → A) :
  reads
    (n ← read_len;
     _ ← ensure_remaining_items n (4 + ELEMENT_REPR_BYTES + REPR_BYTES (F:=Scalar));
     '(encrypted_shares, _) ←
       read_fold
         (λ '(encrypted_shares, last),
            receiver ← read_wire;
            last ← lift (ensure_increasing last receiver);
            encrypted_share ← read_wire;
            mret (BTreeMap.insert receiver encrypted_share encrypted_shares, last))
         (Z.to_nat n) (BTreeMap.empty, None);
     proof_len ← read_len;
     proof ← read_exact proof_len;
     mret (f encrypted_shares proof))
    (λ a bs, ∃ shares proof, a = f shares proof ∧ BTreeMap.wf shares ∧
       Forall participant_wf (BTreeMap.keys shares) ∧
       bs = vec_bytes share_bytes shares ++ to_be_bytes 8 (len proof) ++ proof).
Proof.
  pose proof ELEMENT_REPR_BYTES_range. pose proof (REPR_BYTES_range (F:=Scalar)).
  eapply reads_ext.
  { apply (reads_counted _
      (increasing_step fst (λ m e, BTreeMap.insert e.1 e.2 m))
      (λ e, participant_wf e.1) share_bytes _ _ _
      (λ s a bs, ∃ proof, a = f s.1 proof ∧ slice_ok proof ∧
                          bs = to_be_bytes 8 (len proof) ++ proof)).
    - lia.
    - apply len_share_bytes.
    - intros [l last]. eapply reads_ext.
      { apply (reads_increasing ensure_increasing fst (λ m e, BTreeMap.insert e.1 e.2 m) pair
            to_nested_wire_bytes).
        - done.
        - done.
        - intros p o. eapply reads_ext; [apply reads_map, read_wire_reads|].
          intros s bs _. naive_solver. }
      intros s bs _. split; intros ([p e] & ?); by exists (p, e).
    - intros [shares last]. eapply reads_ext.
      { eapply reads_bind; [apply reads_len|]. intros n ? [[Hn _] _].
        by apply reads_map, reads_exact. }
      intros a bs _. simpl. split.
      + intros (n & ? & proof & -> & [[_ Hn] ->] & ? & -> & -> & <-). by exists proof.
      + intros (proof & -> & Hok & ->). exists (len proof), (to_be_bytes 8 (len proof)), proof.
        split; [done|]. split; [split; [by apply slice_ok_is_usize|done]|]. by exists proof. }
  intros a bs Hbs. split.
  - intros (items & s & bs2 & -> & Hp & [-> Hs]%keyed_fold & proof & -> & _ & ->).
    exists items, proof. unfold BTreeMap.keys. by rewrite Forall_fmap.
  - intros (items & proof & -> & Hwf & Hp & ->). unfold BTreeMap.keys in Hp.
    rewrite Forall_fmap in Hp. exists items, (items, last (items.*1)), (to_be_bytes 8 (len proof) ++ proof).
    split; [done|]. split; [done|]. split; [by apply keyed_fold|]. exists proof.
    apply slice_ok_app in Hbs as [_ [_ Hok]%slice_ok_app]. done.
Qed.

#[export] Instance DealerMessage_codec : WireCodec DealerMessage wire_message_wf.
Proof.
  assert (Hnested : ∀ m : DealerMessage, to_nested_wire_bytes m = [] ++ _)
    by (intros; apply message_bytes_app).
  split; [intros; rewrite Hnested; apply message_bytes_app|].
  cbn [read_wire DealerMessage_decode]. eapply reads_ext.
  { eapply reads_bind; [apply read_wire_reads|]. intros session ? _.
    eapply reads_bind; [apply (read_wire_reads (T:=TranscriptRoot))|]. intros root ? _.
    eapply reads_bind; [apply read_wire_reads|]. intros dealer ? _.
    eapply reads_bind; [apply read_wire_reads|]. intros nonce ? _.
    eapply reads_bind; [apply read_wire_reads|]. intros c ? _.
    apply (reads_shares_proof (λ shares proof,
      MkDealerMessage session root dealer nonce c shares proof
        (recompute_transcript_root
           (MkDealerMessage session root dealer nonce c shares proof (replicate 32 x00))))). }
  intros m bs _. rewrite Hnested. unfold wire_message_wf. split.
  - intros (session & ? & ? & -> & [? ->] & root & ? & ? & -> & [? ->] &
      dealer & ? & ? & -> & [? ->] & nonce & ? & ? & -> & [? ->] & c & ? & ? & -> & [_ ->] &
      shares & proof & -> & ? & ? & ->). done.
  - destruct m as [session root dealer nonce c shares proof troot]. simpl.
    intros [(? & ? & ? & ? & ? & ? & ->) ->].
    exists session, (session_bytes session). eexists. split; [done|]. split; [done|].
    exists root, root. eexists. split; [done|]. split; [done|].
    exists dealer, (to_nested_wire_bytes dealer). eexists. split; [done|]. split; [done|].
    exists nonce, (nonce_bytes nonce). eexists. split; [done|]. split; [done|].
    exists c, (to_nested_wire_bytes c). eexists. split; [done|]. split; [done|].
    exists shares, proof. done.
Qed.
End dealer_message.

(** ** Registries *)
Section registry.
Context `{GroupCodec} `{Sha256}.
Abbreviation Entry := (ParticipantIndex * Element * IdentityKeyProof)%type.

#[export] Instance ParticipantRegistry_context :
  WireContext ParticipantRegistry (group_context (bstr "participant-registry-v2")).
Proof. by split; apply group_context_spec. Qed.

(** A registry the constructor returns for its own entries. *)
Definition wire_registry_wf (registry : ParticipantRegistry) : Prop :=
  BTreeMap.wf (registry_participants registry) ∧
  Forall participant_wf (registry_indexes registry) ∧
  ParticipantRegistry_new (registry_entries_with_proofs registry) = Ok registry.

Definition entry_bytes (e : Entry) : list byte :=
  to_nested_wire_bytes e.1.1 ++ element_bytes e.1.2 ++ to_nested_wire_bytes e.2.

Lemma registry_entry_bytes_app out e : registry_entry_bytes out e = out ++ entry_bytes e.
Proof.
  destruct e as [[p k] π]. unfold registry_entry_bytes, entry_bytes, write_element. simpl fst.
  simpl snd. by rewrite (write_wire_app π), (write_wire_app p), <-!app_assoc.
Qed.

Lemma len_entry_bytes e :
  len (entry_bytes e) = 4 + 2 * ELEMENT_REPR_BYTES + REPR_BYTES (F:=Scalar).
Proof.
  unfold entry_bytes.
  rewrite !len_app, len_participant_bytes, len_element_bytes, len_identity_proof_bytes. lia.
Qed.

Lemma registry_bytes (registry : ParticipantRegistry) :
  to_nested_wire_bytes registry = vec_bytes entry_bytes (registry_entries_with_proofs registry).
Proof.
  unfold to_nested_wire_bytes. cbn [write_wire ParticipantRegistry_encode].
  rewrite (foldl_app_enc _ entry_bytes) by apply registry_entry_bytes_app.
  unfold write_len, vec_bytes, registry_len, len, registry_entries_with_proofs.
  by rewrite length_fmap.
Qed.

Lemma fold_registry_entries (entries : list Entry) ps pks ps' pks' :
  fold_result registry_entry (ps, pks) entries = Ok (ps', pks') →
  BTreeMap.sorted (BTreeMap.keys ps ++ entries.*1.*1) →
  ps' = ps ++ ((λ '(p, k, π), (p, (k, π))) <$> entries).
Proof.
  revert ps pks. induction entries as [|[[p k] π] entries IH]; intros ps pks; cbn [fold_result].
  { intros [= -> ->] _. by rewrite app_nil_r. }
  intros ([ps1 pks1] & Hstep & Hf)%bind_Ok Hs.
  assert (Hi : BTreeMap.insert p (k, π) ps = ps ++ [(p, (k, π))]).
  { apply BTreeMap.insert_snoc. apply (BTreeMap.wf_snoc p (k, π) ps). unfold BTreeMap.wf.
    unfold BTreeMap.keys. rewrite fmap_app. simpl in Hs. rewrite cons_middle, app_assoc in Hs.
    unfold BTreeMap.sorted in Hs. rewrite fmap_app in Hs.
    by apply StronglySorted_app_1_l in Hs. }
  unfold registry_entry in Hstep. repeat case_match; try discriminate.
  apply bind_Ok in Hstep as (? & _ & [= <- <-]). rewrite Hi in Hf.
  apply IH in Hf.
  - by rewrite Hf, <-app_assoc.
  - unfold BTreeMap.keys in *. rewrite fmap_app, <-app_assoc. exact Hs.
Qed.

Lemma registry_new_entries (entries : list Entry) registry :
  BTreeMap.sorted (entries.*1.*1) → ParticipantRegistry_new entries = Ok registry →
  registry_entries_with_proofs registry = entries ∧ BTreeMap.wf (registry_participants registry) ∧
  registry_indexes registry = entries.*1.*1.
Proof.
  unfold ParticipantRegistry_new. intros Hs ([ps pks] & Hf & [= <-])%bind_Ok.
  apply fold_registry_entries in Hf as ->; [|exact Hs].
  assert (Hkeys : BTreeMap.keys ((λ '(p, k, π), (p, (k, π))) <$> entries) = entries.*1.*1).
  { unfold BTreeMap.keys. rewrite <-!list_fmap_compose. apply list_fmap_ext. by intros ? [[??]?]. }
  unfold registry_entries_with_proofs, registry_indexes, BTreeMap.wf. simpl. rewrite Hkeys.
  split; [|done]. rewrite <-list_fmap_compose. etrans; [|apply list_fmap_id].
  apply list_fmap_ext. by intros ? [[??]?].
Qed.

Lemma entries_fold (items : list Entry) s :
  fold_result (increasing_step (λ e : Entry, e.1.1) (λ l e, l ++ [e])) ([], None) items = Ok s ↔
  s = (items, last ((λ e : Entry, e.1.1) <$> items)) ∧ BTreeMap.sorted (items.*1.*1).
Proof.
  destruct s as [l last'].
  etrans; [apply (increasing_fold (λ e : Entry, e.1.1) (λ l e, l ++ [e])
    (λ _ _ _, eq_refl) [] items l last'); constructor|].
  rewrite <-list_fmap_compose. simpl. naive_solver.
Qed.

#[export] Instance ParticipantRegistry_codec : WireCodec ParticipantRegistry wire_registry_wf.
Proof.
  pose proof ELEMENT_REPR_BYTES_range. pose proof (REPR_BYTES_range (F:=Scalar)).
  split.
  { intros r out. rewrite registry_bytes. cbn [write_wire ParticipantRegistry_encode].
    rewrite (foldl_app_enc _ entry_bytes) by apply registry_entry_bytes_app.
    unfold write_len, vec_bytes, registry_len, len, registry_entries_with_proofs.
    by rewrite length_fmap, <-app_assoc. }
  cbn [read_wire ParticipantRegistry_decode]. eapply reads_ext.
  { apply (reads_counted _
      (increasing_step (λ e : Entry, e.1.1) (λ l e, l ++ [e]))
      (λ e, participant_wf e.1.1) entry_bytes _ _ _
      (λ s r bs, ParticipantRegistry_new s.1 = Ok r ∧ bs = [])).
    - lia.
    - apply len_entry_bytes.
    - intros [l last]. eapply reads_ext.
      { apply (reads_increasing ensure_increasing (λ e : Entry, e.1.1) (λ l e, l ++ [e])
          (λ p (b : Element * IdentityKeyProof), (p, b.1, b.2))
          (λ b, element_bytes b.1 ++ to_nested_wire_bytes b.2)).
        - done.
        - done.
        - intros p o. eapply reads_ext.
          { eapply reads_bind; [apply reads_element|]. intros k ? _.
            apply reads_map, read_wire_reads. }
          intros s bs _. split.
          + intros (k & ? & ? & -> & -> & π & -> & _ & ->). by exists (k, π).
          + intros ([k π] & -> & ->). exists k, (element_bytes k), (to_nested_wire_bytes π).
            split; [done|]. split; [done|]. by exists π. }
      intros s bs _. split.
      + intros ([p [k π]] & ?). by exists (p, k, π).
      + intros ([[p k] π] & ?). by exists (p, (k, π)).
    - intros [entries last]. apply reads_lift. }
  intros r bs _. rewrite registry_bytes. unfold wire_registry_wf. split.
  - intros (items & s & ? & -> & Hp & [-> Hs]%entries_fold & Hr & ->). rewrite app_nil_r.
    simpl in Hr. destruct (registry_new_entries _ _ Hs Hr) as (-> & Hwf & ->).
    split; [|done]. split; [done|]. split; [|done]. by rewrite !Forall_fmap.
  - intros [(Hwf & Hp & Hr) ->].
    assert (Hkeys : (registry_entries_with_proofs r).*1.*1 = registry_indexes r).
    { unfold registry_entries_with_proofs, registry_indexes, BTreeMap.keys.
      rewrite <-!list_fmap_compose. apply list_fmap_ext. by intros ? [? [??]]. }
    exists (registry_entries_with_proofs r), (registry_entries_with_proofs r,
      last ((λ e : Entry, e.1.1) <$> registry_entries_with_proofs r)), [].
    rewrite app_nil_r. split; [done|]. split; [by rewrite <-Hkeys, !Forall_fmap in Hp|].
    split; [|done]. apply entries_fold. split; [done|]. by rewrite Hkeys.
Qed.

(** ** Configurations *)
#[export] Instance DkgConfig_context :
  WireContext DkgConfig (group_context (bstr "dkg-config-v2")).
Proof. by split; apply group_context_spec. Qed.

Definition wire_config_wf (config : DkgConfig) : Prop :=
  session_wf (config_session_id config) ∧ wire_registry_wf (config_registry config) ∧
  0 < config_threshold config ≤ registry_len (config_registry config).

Lemma DkgConfig_new_Ok t session beta registry (config : DkgConfig) :
  0 ≤ t →
  DkgConfig_new t session beta registry = Ok config ↔
  0 < t ≤ registry_len registry ∧ config = MkDkgConfig t session beta registry.
Proof.
  intros Ht. unfold DkgConfig_new.
  destruct (Z.eqb_spec t 0), (Z.ltb_spec (registry_len registry) t); simpl;
    (split; [intros [= <-]; split; [lia|done]|intros [? ->]; first [done|lia]]) ||
    (split; [done|lia]).
Qed.

Lemma registry_len_usize (registry : ParticipantRegistry) :
  slice_ok (to_nested_wire_bytes registry) → is_usize (registry_len registry).
Proof.
  pose proof ELEMENT_REPR_BYTES_range. pose proof (REPR_BYTES_range (F:=Scalar)).
  rewrite registry_bytes. intros Hok.
  apply (slice_ok_vec_bytes _ (4 + 2 * ELEMENT_REPR_BYTES + REPR_BYTES (F:=Scalar))) in Hok;
    [|lia|apply len_entry_bytes].
  apply slice_ok_is_usize in Hok. unfold registry_entries_with_proofs, len in Hok.
  by rewrite length_fmap in Hok.
Qed.

#[export] Instance DkgConfig_codec : WireCodec DkgConfig wire_config_wf.
Proof.
  assert (Happ : ∀ (c : DkgConfig) out, write_wire c out =
    out ++ to_be_bytes 8 (config_threshold c) ++ to_nested_wire_bytes (config_session_id c)
      ++ scalar_bytes (config_beta c) ++ to_nested_wire_bytes (config_registry c)).
  { intros c out. cbn [write_wire DkgConfig_encode]. unfold write_len, write_scalar.
    rewrite (write_wire_app (config_registry c)), (write_wire_app (config_session_id c)).
    by rewrite <-!app_assoc. }
  assert (Hnested : ∀ c : DkgConfig, to_nested_wire_bytes c = [] ++ _) by (intros; apply Happ).
  split; [intros; rewrite Hnested; apply Happ|].
  cbn [read_wire DkgConfig_decode]. eapply reads_ext.
  { eapply reads_bind; [apply reads_len|]. intros t ? _.
    eapply reads_bind; [apply read_wire_reads|]. intros session ? _.
    eapply reads_bind; [apply reads_scalar|]. intros beta ? _.
    eapply reads_bind; [apply read_wire_reads|]. intros registry ? _. apply reads_lift. }
  intros c bs Hbs. rewrite Hnested, app_nil_l. unfold wire_config_wf. split.
  - intros (t & ? & ? & -> & [Ht ->] & session & ? & ? & -> & [? ->] & beta & ? & ? & -> & -> &
      registry & ? & ? & -> & [? ->] & Hc & ->). rewrite app_nil_r.
    apply DkgConfig_new_Ok in Hc as [? ->]; [done|apply Ht].
  - destruct c as [t session beta registry].
    cbn [config_threshold config_session_id config_beta config_registry].
    intros [(Hs & Hr & Ht) ->].
    exists t, (to_be_bytes 8 t). eexists. split; [done|].
    split.
    { split; [|done]. do 3 apply slice_ok_app in Hbs as [_ Hbs].
      pose proof (registry_len_usize _ Hbs). unfold is_usize in *. lia. }
    exists session, (to_nested_wire_bytes session). eexists. split; [done|]. split; [done|].
    exists beta, (scalar_bytes beta). eexists. split; [done|]. split; [done|].
    exists registry, (to_nested_wire_bytes registry), []. rewrite app_nil_r.
    split; [done|]. split; [done|]. split; [|done]. by apply DkgConfig_new_Ok; [lia|].
Qed.
End registry.

(** ** Sizes *)
Section sizes.

Lemma miden_usize_size_small v n :
  0 < n ≤ 8 → 2 ^ (7 * (n - 1)) ≤ v < 2 ^ (7 * n) → miden_usize_size v = n.
Proof.
  intros Hn Hv. unfold miden_usize_size, leading_zeros_u64.
  assert (0 < 2 ^ (7 * (n - 1))) by (apply Z.pow_pos_nonneg; lia).
  rewrite (proj2 (Z.eqb_neq _ _)) by lia.
  assert (Hlog : 7 * (n - 1) ≤ Z.log2 v < 7 * n).
  { split; [by apply Z.log2_le_pow2; lia|]. apply Z.log2_lt_pow2; lia. }
  assert (Hdiv : Z.max (64 - (Z.log2 v + 1) - 1) 0 `div` 7 = (62 - Z.log2 v) `div` 7).
  { f_equal. lia. }
  rewrite Hdiv. assert ((62 - Z.log2 v) `div` 7 = 9 - n) as ->; [|lia].
  symmetry. apply Z.div_unique with (7 * n - 1 - Z.log2 v); lia.
Qed.

Lemma miden_usize_size_large v : 2 ^ 56 ≤ v ≤ usize_MAX → miden_usize_size v = 9.
Proof.
  rewrite usize_MAX_eq. intros Hv. unfold miden_usize_size, leading_zeros_u64.
  rewrite (proj2 (Z.eqb_neq _ _)) by lia.
  assert (Hlog : 56 ≤ Z.log2 v) by (apply Z.log2_le_pow2; lia).
  rewrite Z.div_small; lia.
Qed.
End sizes.

Section hints.
Context `{GroupCodec} `{Sha256}.

Lemma len_commitment_bytes (c : FeldmanCommitment) :
  len (to_nested_wire_bytes c) = 8 + len (commitment_coefficients c) * ELEMENT_REPR_BYTES.
Proof.
  rewrite commitment_bytes. unfold vec_bytes.
  rewrite len_app, (len_concat_fixed _ _ _ len_element_bytes). unfold len at 1.
  by rewrite length_to_be_bytes.
Qed.

Lemma len_message_bytes (m : DealerMessage) :
  len (to_nested_wire_bytes m) =
  len (session_bytes (msg_session_id m)) + len (msg_registry_root m) + 4
  + len (nonce_bytes (msg_msg_i m))
  + 8 + len (commitment_coefficients (msg_commitment m)) * ELEMENT_REPR_BYTES
  + 8 + len (msg_encrypted_shares m) * (4 + ELEMENT_REPR_BYTES + REPR_BYTES (F:=Scalar))
  + 8 + len (msg_proof m).
Proof.
  unfold to_nested_wire_bytes at 1. rewrite message_bytes_app, app_nil_l. unfold vec_bytes.
  assert (H8 : ∀ z, len (to_be_bytes 8 z) = 8) by (intros; unfold len; by rewrite length_to_be_bytes).
  rewrite !len_app, len_participant_bytes, len_commitment_bytes, !H8,
    (len_concat_fixed _ _ _ len_share_bytes). lia.
Qed.
End hints.

(** The constructors' results are well formed for the wire. *)
Section constructed.
Context `{GroupModule} `{!GroupCodec} `{Sha256Laws}.

Lemma registry_new_wire_wf entries (registry : ParticipantRegistry) :
  Forall (λ e, participant_wf (entry_index e)) entries →
  ParticipantRegistry_new entries = Ok registry → wire_registry_wf registry.
Proof.
  intros Hp Hnew. apply registry_new_canonical in Hnew as (Hcanon & Hwf & Hidx).
  split; [done|]. split; [|done]. apply Forall_forall. intros p Hin%Hidx.
  apply list_elem_of_fmap in Hin as (e & -> & He). rewrite Forall_forall in Hp. auto.
Qed.

Lemma config_new_wire_wf entries registry t session beta (config : DkgConfig) :
  Forall (λ e, participant_wf (entry_index e)) entries → session_wf session → 0 ≤ t →
  ParticipantRegistry_new entries = Ok registry →
  DkgConfig_new t session beta registry = Ok config → wire_config_wf config.
Proof.
  intros Hp Hs Ht Hnew [Ht' ->]%DkgConfig_new_Ok; [|done].
  split; [done|]. split; [|done]. by eapply registry_new_wire_wf.
Qed.
End constructed.

(** ** Properties *)

(** C28: the standalone encoding of a dealer message is canonical.  Decoding a
    byte string succeeds exactly when it is the encoding of a well-formed
    message — 32-byte fields, nonzero indexes, shares in strictly increasing
    receiver order, and the transcript root recomputed from the other fields —
    and the message decoded is that one: no second encoding, no trailing bytes,
    and no root taken from the wire. *)
Theorem dealer_message_wire_canonical `{GroupCodec} `{Sha256} bytes (m : DealerMessage) :
  slice_ok bytes →
  from_wire_bytes bytes = Ok m ↔
  (session_wf (msg_session_id m) ∧ root_wf (msg_registry_root m) ∧
   participant_wf (msg_dealer m) ∧ nonce_wf (msg_msg_i m) ∧
   BTreeMap.wf (msg_encrypted_shares m) ∧
   Forall participant_wf (BTreeMap.keys (msg_encrypted_shares m)) ∧
   msg_transcript_root m = recompute_transcript_root m) ∧
  bytes = to_wire_bytes m.
Proof. exact (from_wire_bytes_iff (wf:=wire_message_wf) bytes m). Qed.

(** The wire format of a configuration goes through the constructors.  What
    decodes is a configuration the constructors return for its own entries, and
    its encoding is the only one; conversely every configuration built with the
    constructors, from entries in any order, decodes back from its encoding. *)
Theorem config_wire_roundtrip `{GroupModule} `{!GroupCodec} `{Sha256Laws} :
  (∀ bytes (config : DkgConfig), slice_ok bytes → from_wire_bytes bytes = Ok config →
     bytes = to_wire_bytes config ∧
     Forall participant_wf (registry_indexes (config_registry config)) ∧
     ParticipantRegistry_new (registry_entries_with_proofs (config_registry config))
       = Ok (config_registry config) ∧
     DkgConfig_new (config_threshold config) (config_session_id config) (config_beta config)
       (config_registry config) = Ok config) ∧
  (∀ entries registry t session beta (config : DkgConfig),
     Forall (λ e, participant_wf (entry_index e)) entries → session_wf session → is_usize t →
     ParticipantRegistry_new entries = Ok registry →
     DkgConfig_new t session beta registry = Ok config →
     slice_ok (to_wire_bytes config) →
     from_wire_bytes (to_wire_bytes config) = Ok config).
Proof.
  split.
  - intros bytes config Hok [(Hs & (Hwf & Hp & Hr) & Ht) ->]%from_wire_bytes_iff; [|done].
    split; [done|]. split; [done|]. split; [done|].
    destruct config. apply DkgConfig_new_Ok; simpl in *; [lia|done].
  - intros entries registry t session beta config Hp Hs Ht Hnew Hc Hok.
    apply from_wire_bytes_iff; [done|]. split; [|done].
    eapply config_new_wire_wf; eauto. apply Ht.
Qed.

(** C33: [wire_size_hint] of a dealer message is the exact number of bytes
    [write_wire] appends, whatever the buffer held; so the nested encoding has exactly
    the length that [to_nested_wire_bytes] allocates, and the standalone encoding is the
    tagged header and the codec context, which is not in the hint, followed by that many
    bytes. *)
Theorem dealer_message_size_hint_exact `{GroupCodec} `{Sha256} (m : DealerMessage) :
  session_wf (msg_session_id m) → root_wf (msg_registry_root m) → nonce_wf (msg_msg_i m) →
  (∀ out, len (write_wire m out) = len out + wire_size_hint m) ∧
  len (to_nested_wire_bytes m) = wire_size_hint m ∧
  len (to_wire_bytes m)
  = len MAGIC + 1 + len (write_wire_context (T:=DealerMessage) []) + wire_size_hint m.
Proof.
  intros Hs Hr Hn.
  assert (Hhint : len (to_nested_wire_bytes m) = wire_size_hint m).
  { rewrite len_message_bytes. cbn [wire_size_hint DealerMessage_encode].
    unfold session_wf, root_wf, nonce_wf, len in *. rewrite Hs, Hr, Hn. lia. }
  split; [|split; [exact Hhint|]].
  - intros out. rewrite (write_wire_app m), len_app, Hhint. done.
  - rewrite to_wire_bytes_eq, !len_app, Hhint, write_wire_context_app, app_nil_l.
    change (len [TAG (T:=DealerMessage)]) with 1. lia.
Qed.

(** C36: [miden_usize_size] is the length of the variable-length integer: the
    least number of bytes, at one length bit each, that hold the value, and
    nine bytes for a value of more than 56 bits. *)
Theorem miden_usize_size_minimal v :
  is_usize v →
  1 ≤ miden_usize_size v ≤ 9 ∧
  (miden_usize_size v ≤ 8 → v < 2 ^ (7 * miden_usize_size v)) ∧
  (1 < miden_usize_size v → 2 ^ (7 * (miden_usize_size v - 1)) ≤ v).
Proof.
  intros Hv. destruct (Z.le_gt_cases (2 ^ 56) v) as [Hl|Hl].
  { rewrite miden_usize_size_large by (unfold is_usize in Hv; lia). simpl. lia. }
  destruct (Z.eq_dec v 0) as [->|Hv0]; [by vm_compute|].
  set (n := Z.log2 v / 7 + 1).
  assert (Hlog : 0 ≤ Z.log2 v < 56).
  { split; [apply Z.log2_nonneg|]. apply Z.log2_lt_pow2; unfold is_usize in Hv; lia. }
  pose proof (Z.div_mod (Z.log2 v) 7 ltac:(lia)). pose proof (Z.mod_pos_bound (Z.log2 v) 7 ltac:(lia)).
  assert (Hn : 0 < n ≤ 8) by (unfold n; lia).
  assert (Hb : 2 ^ (7 * (n - 1)) ≤ v < 2 ^ (7 * n)).
  { unfold is_usize in Hv. split; [apply Z.log2_le_pow2|apply Z.log2_lt_pow2]; unfold n; lia. }
  rewrite (miden_usize_size_small v n) by done. lia.
Qed.

(** ** Witnesses *)
Definition tiny_fields (root : TranscriptRoot) : DealerMessage (H:=TinyGroup) :=
  MkDealerMessage (H:=TinyGroup) (MkSessionId (replicate 32 x07))
    (registry_root_field (H:=TinyGroup) tiny_registry) (MkParticipantIndex 1)
    (MkDealerMessageNonce (replicate 32 x09)) (MkFeldmanCommitment (H:=TinyGroup) (tiny 10) [tiny 20])
    [(MkParticipantIndex 2, MkEncryptedShare (H:=TinyGroup) (tiny 3) (tiny 4));
     (MkParticipantIndex 3, MkEncryptedShare (H:=TinyGroup) (tiny 5) (tiny 6))]
    [x01; x02; x03] root.
Definition tiny_wire_message : DealerMessage (H:=TinyGroup) :=
  tiny_fields (recompute_transcript_root (H:=TinyGroup) (tiny_fields (replicate 32 x00))).

Definition tiny_wire_config : DkgConfig (H:=TinyGroup) :=
  MkDkgConfig (H:=TinyGroup) 2 (MkSessionId (replicate 32 x07)) (tiny 7) tiny_registry.

Lemma tiny_wire_message_wf : wire_message_wf (H:=TinyGroup) tiny_wire_message.
Proof.
  repeat split; try (apply (bool_decide_unpack _); vm_compute; exact I).
Qed.

Lemma dealer_message_wire_canonical_witness :
  slice_ok (to_wire_bytes tiny_wire_message) ∧
  from_wire_bytes (to_wire_bytes tiny_wire_message) = Ok tiny_wire_message.
Proof.
  assert (Hok : slice_ok (to_wire_bytes tiny_wire_message)).
  { apply (bool_decide_unpack _). vm_compute. exact I. }
  split; [exact Hok|].
  exact (proj2 (dealer_message_wire_canonical (H:=TinyGroup)
    (to_wire_bytes tiny_wire_message) tiny_wire_message Hok) (conj tiny_wire_message_wf eq_refl)).
Defined.

Lemma config_wire_roundtrip_witness :
  slice_ok (to_wire_bytes tiny_wire_config) ∧
  from_wire_bytes (to_wire_bytes tiny_wire_config) = Ok tiny_wire_config.
Proof.
  assert (Hok : slice_ok (to_wire_bytes tiny_wire_config)).
  { apply (bool_decide_unpack _). vm_compute. exact I. }
  split; [exact Hok|].
  refine (proj2 (config_wire_roundtrip (H:=TinyGroup)) [tiny_entry 2; tiny_entry 3; tiny_entry 1]
    tiny_registry 2 (MkSessionId (replicate 32 x07)) (tiny 7) tiny_wire_config _ _ _ _ _ Hok).
  - apply (bool_decide_unpack _). vm_compute. exact I.
  - reflexivity.
  - split; [discriminate|]. rewrite usize_MAX_eq. lia.
  - exact tiny_registry_new.
  - vm_refl.
Defined.

Lemma dealer_message_size_hint_exact_witness :
  wire_size_hint tiny_wire_message = 141 ∧
  len (write_wire tiny_wire_message MAGIC) = 18 + 141 ∧
  len (to_wire_bytes tiny_wire_message)
  = 18 + 1 + len (write_wire_context (T:=DealerMessage (H:=TinyGroup)) []) + 141.
Proof.
  destruct (dealer_message_size_hint_exact (H:=TinyGroup) tiny_wire_message eq_refl eq_refl eq_refl)
    as (Hw & _ & Ht).
  assert (Hh : wire_size_hint tiny_wire_message = 141) by vm_refl.
  rewrite Hh in Hw, Ht. split; [exact Hh|]. split; [exact (Hw MAGIC)|exact Ht].
Defined.

Lemma miden_usize_size_minimal_witness :
  miden_usize_size 300 = 2 ∧
  (1 ≤ miden_usize_size 300 ≤ 9 ∧
   (miden_usize_size 300 ≤ 8 → 300 < 2 ^ (7 * miden_usize_size 300)) ∧
   (1 < miden_usize_size 300 → 2 ^ (7 * (miden_usize_size 300 - 1)) ≤ 300)).
Proof.
  split; [reflexivity|]. apply (miden_usize_size_minimal 300).
  split; [discriminate|]. rewrite usize_MAX_eq. lia.
Defined.

(** A wrong tag, a trailing byte and shares out of order are refused. *)
Example tiny_wire_tag :
  from_wire_bytes (T:=DealerMessage (H:=TinyGroup)) (to_wire_bytes tiny_wire_config)
  = Err InvalidEncoding.
Proof. vm_refl. Qed.
Example tiny_wire_trailing :
  from_wire_bytes (T:=DealerMessage (H:=TinyGroup)) (to_wire_bytes tiny_wire_message ++ [x00])
  = Err InvalidEncoding.
Proof. vm_refl. Qed.
