(* ===== verification/DkgHonest.v ===== *)
(** * Honest dealings (dkg.rs)

    What [create_dealing_with_secret] builds, and that the public verification
    and every receiver accept it. *)

From Stdlib Require Import ZArith Lia Strings.Byte.
From stdpp Require Import prelude strings.
From S2P Require Import Prelude BTree CoreError Group Algebra Poly Participant Shamir Feldman.
From S2P Require Import Transcript IdentityKey Registry Statement FakeBackend Dkg TestSupport.

(** Loops over two accumulators. *)
Lemma foldl_pair {A S T} (f : S → A → S) (g : T → A → T) l s t :
  foldl (λ st a, let '(s, t) := st in (f s a, g t a)) (s, t) l = (foldl f s l, foldl g t l).
Proof. revert s t. induction l as [|a l IH]; intros s t; simpl; auto. Qed.

Lemma foldl_snoc_map {A B} (f : A → B) l acc :
  foldl (λ acc a, acc ++ [f a]) acc l = acc ++ (f <$> l).
Proof.
  revert acc. induction l as [|a l IH]; intros acc; csimpl; [by rewrite app_nil_r|].
  by rewrite IH, <-app_assoc.
Qed.

Definition config_wf `{GoldenGroup} (config : DkgConfig) : Prop :=
  registry_wf (config_registry config) ∧
  (0 < config_threshold config ≤ registry_len (config_registry config))%Z ∧
  session_wf (config_session_id config).

Section loops.
Context `{GroupModule} `{!EvrfProofBackend} `{Sha256} `{CryptoRngCore R}.
Implicit Types (config : DkgConfig).

Lemma registry_sorted registry : registry_wf registry → BTreeMap.sorted (registry_indexes registry).
Proof. by intros [? _]. Qed.

Lemma registry_index_wf registry p :
  registry_wf registry → p ∈ registry_indexes registry → participant_wf p.
Proof. intros (_ & Hp & _) Hin. by eapply Forall_forall in Hp. Qed.

Lemma receivers_sorted config dealer :
  registry_wf (config_registry config) →
  BTreeMap.sorted (public_share_receivers config dealer).
Proof. intros. by apply BTreeMap.sorted_filter, registry_sorted. Qed.

Lemma elem_of_receivers config dealer r :
  r ∈ public_share_receivers config dealer ↔
  r ≠ dealer ∧ r ∈ registry_indexes (config_registry config).
Proof. unfold public_share_receivers. by rewrite list_elem_of_filter. Qed.

(** The share value of a participant, [0] where the evaluation fails. *)
Definition share_at (poly : Polynomial Scalar) (r : ParticipantIndex) : Scalar :=
  share_value (unwrap_or (MkShare r szero) (evaluate poly r)).

Lemma evaluate_share_at poly r sh :
  evaluate poly r = Ok sh → evaluate poly r = Ok (MkShare r (share_at poly r)).
Proof.
  intros Hsh. unfold share_at. rewrite Hsh. simpl. apply evaluate_Ok in Hsh as [<- _].
  by destruct sh.
Qed.

Lemma dealing_shares_Ok poly config shares :
  registry_wf (config_registry config) →
  dealing_shares poly config = Ok shares →
  (∀ r, r ∈ registry_indexes (config_registry config) →
        evaluate poly r = Ok (MkShare r (share_at poly r))) ∧
  shares = BTreeMap.of_fun (share_at poly) (registry_indexes (config_registry config)).
Proof.
  intros Hwf Hs. unfold dealing_shares in Hs.
  apply (BTreeMap.fold_insert_of_fun (MkShare (MkParticipantIndex 0) szero)
           (evaluate poly) (λ _, share_value)) in Hs as [Hok ->]; [|by apply registry_sorted].
  split; [intros r Hr; by eapply evaluate_share_at, Hok|].
  unfold BTreeMap.of_fun. apply list_fmap_ext. intros i r Hi. f_equal.
  unfold share_at. by rewrite (Hok r) by (by eapply list_elem_of_lookup_2).
Qed.

Lemma receiver_shares_of_fun dealer poly config :
  receiver_shares dealer
    (BTreeMap.of_fun (share_at poly) (registry_indexes (config_registry config)))
  = BTreeMap.of_fun (share_at poly) (public_share_receivers config dealer).
Proof. exact (BTreeMap.filter_of_fun (λ r, r ≠ dealer) _ _). Qed.

(** The pad the dealer derives for a receiver. *)
Definition dealer_pad config (sk : Scalar) (msg_i : DealerMessageNonce) (r : ParticipantIndex)
    : Result Scalar :=
  pk ← registry_public_key (config_registry config) r;
  derive_pad msg_i (config_beta config) sk pk pk.
Definition pad_at config sk msg_i r : Scalar := unwrap_or szero (dealer_pad config sk msg_i r).
Definition encrypted_at config sk msg_i poly r : EncryptedShare :=
  MkEncryptedShare (mul_generator (pad_at config sk msg_i r))
    (sadd (share_at poly r) (pad_at config sk msg_i r)).

Lemma encrypt_shares_Ok dealer sk config msg_i poly enc pads :
  registry_wf (config_registry config) →
  let rs := public_share_receivers config dealer in
  encrypt_shares dealer sk config msg_i
    (BTreeMap.of_fun (share_at poly) (registry_indexes (config_registry config)))
  = Ok (enc, pads) →
  (∀ r, r ∈ rs → dealer_pad config sk msg_i r = Ok (pad_at config sk msg_i r)) ∧
  enc = BTreeMap.of_fun (encrypted_at config sk msg_i poly) rs ∧
  pads = BTreeMap.of_fun (pad_at config sk msg_i) rs.
Proof.
  intros Hwf rs. unfold encrypt_shares. rewrite receiver_shares_of_fun. fold rs.
  rewrite (fold_result_ext _ (λ s a, b ← dealer_pad config sk msg_i a.1;
    Ok ((λ s a pad, let '(e, p) := s in
           (BTreeMap.insert a.1 (MkEncryptedShare (mul_generator pad) (sadd a.2 pad)) e,
            BTreeMap.insert a.1 pad p)) s a b))).
  2: { intros [e p] [r v] _. unfold dealer_pad. simpl. by destruct (registry_public_key _ _). }
  rewrite fold_result_traverse. intros (bs & Hbs & Heq)%fmap_Ok.
  unfold BTreeMap.of_fun in Hbs at 1. rewrite traverse_fmap in Hbs.
  apply (traverse_unwrap szero) in Hbs as [Hok ->].
  split; [exact Hok|].
  unfold BTreeMap.of_fun in Heq at 1.
  rewrite zip_with_fmap_l, zip_with_fmap_r, zip_with_diag, foldl_fmap in Heq.
  assert (Hrs : BTreeMap.sorted rs) by by apply receivers_sorted.
  pose proof (eq_trans Heq (foldl_pair
    (λ e r, BTreeMap.insert r (encrypted_at config sk msg_i poly r) e)
    (λ p r, BTreeMap.insert r (pad_at config sk msg_i r) p) rs [] [])) as Heq'.
  injection Heq' as -> ->. by rewrite !BTreeMap.fold_insert_keys.
Qed.

(** The statement of receiver [r], as the dealer builds it. *)
Definition statement_at config dealer (sk : Scalar) (poly : Polynomial Scalar)
    (commitment : FeldmanCommitment) msg_i root (r : ParticipantIndex) : Result EvrfStatement :=
  statement_for_receiver config dealer r msg_i (mul_generator (share_at poly r))
    (commitment_coefficients commitment) (encrypted_at config sk msg_i poly r) root.
Definition witness_at config (sk : Scalar) (poly : Polynomial Scalar) msg_i
    (r : ParticipantIndex) : EvrfWitness :=
  MkEvrfWitness sk (coefficients poly) (share_at poly r) (pad_at config sk msg_i r).

Lemma statements_and_witnesses_Ok dealer sk config msg_i poly commitment root sts ws :
  let rs := public_share_receivers config dealer in
  statements_and_witnesses dealer sk config msg_i poly commitment
    (BTreeMap.of_fun (encrypted_at config sk msg_i poly) rs)
    (BTreeMap.of_fun (pad_at config sk msg_i) rs) root
    (BTreeMap.of_fun (share_at poly) (registry_indexes (config_registry config)))
  = Ok (sts, ws) →
  traverse (statement_at config dealer sk poly commitment msg_i root) rs = Ok sts ∧
  ws = witness_at config sk poly msg_i <$> rs.
Proof.
  intros rs. unfold statements_and_witnesses. rewrite receiver_shares_of_fun. fold rs.
  rewrite (fold_result_ext _ (λ s a,
    b ← statement_at config dealer sk poly commitment msg_i root a.1;
    Ok ((λ s a st, let '(sts, ws) := s in
           (sts ++ [st], ws ++ [witness_at config sk poly msg_i a.1])) s a b))).
  2: { intros [sts' ws'] [r v] Hr. apply list_elem_of_fmap in Hr as (r' & [= -> ->] & Hr).
       rewrite !BTreeMap.get_of_fun, !decide_True by done. cbn [ok_or mbind result_bind].
       unfold statement_at, witness_at. simpl. by destruct (statement_for_receiver _ _ _ _ _ _ _ _). }
  rewrite fold_result_traverse. intros (bs & Hbs & Heq)%fmap_Ok.
  unfold BTreeMap.of_fun in Hbs at 1. rewrite traverse_fmap in Hbs.
  change (traverse (statement_at config dealer sk poly commitment msg_i root) rs = Ok bs) in Hbs.
  pose proof (traverse_length _ _ _ Hbs) as Hlen.
  assert (Hf : ∀ (rs : list ParticipantIndex) bs acc1 acc2, length bs = length rs →
    foldl (λ (s : list EvrfStatement * list EvrfWitness) '(a, st), let '(sts, ws) := s in
             (sts ++ [st], ws ++ [witness_at config sk poly msg_i a.1])) (acc1, acc2)
      (zip (BTreeMap.of_fun (share_at poly) rs) bs)
    = (acc1 ++ bs, acc2 ++ (witness_at config sk poly msg_i <$> rs))).
  { clear. induction rs as [|r rs IH]; intros [|b bs] acc1 acc2 [=]; csimpl;
      [by rewrite !app_nil_r|]. rewrite IH by done. by rewrite <-!app_assoc. }
  rewrite Hf in Heq by done. injection Heq as -> ->. done.
Qed.

Lemma statement_for_receiver_Ok config dealer r msg_i sc cs enc root st :
  statement_for_receiver config dealer r msg_i sc cs enc root = Ok st →
  registry_public_key (config_registry config) dealer = Ok (st_dealer_public_key st) ∧
  registry_public_key (config_registry config) r = Ok (st_receiver_public_key st) ∧
  st_threshold st = config_threshold config ∧ st_dealer st = dealer ∧ st_receiver st = r ∧
  st_msg_i st = msg_i ∧ st_beta st = config_beta config ∧
  st_commitment_coefficients st = cs ∧ st_share_commitment st = sc ∧
  st_pad_commitment st = pad_commitment enc ∧ st_encrypted_share st = encrypted_share enc.
Proof.
  unfold statement_for_receiver. intros (dpk & Hd & Hst)%bind_Ok.
  apply bind_Ok in Hst as (rpk & Hr & [= <-]). simpl. auto 12.
Qed.

(** Everything a created dealing consists of. *)
Record honest_dealing config dealer (sk secret : Scalar) (d : DkgDealing)
    (poly : Polynomial Scalar) msg_i := {
  honest_config : registry_wf (config_registry config);
  honest_key : registry_public_key (config_registry config) dealer = Ok (mul_generator sk);
  honest_secret : head (coefficients poly) = Some secret;
  honest_degree : len (coefficients poly) = config_threshold config;
  honest_commit : commit poly = Ok (msg_commitment (dealing_message d));
  honest_shares r : r ∈ registry_indexes (config_registry config) →
    evaluate poly r = Ok (MkShare r (share_at poly r));
  honest_pads r : r ∈ public_share_receivers config dealer →
    dealer_pad config sk msg_i r = Ok (pad_at config sk msg_i r);
  honest_private : dealing_private_share d = MkShare dealer (share_at poly dealer);
  honest_session : msg_session_id (dealing_message d) = config_session_id config;
  honest_registry :
    msg_registry_root (dealing_message d) = registry_root_field (config_registry config);
  honest_dealer : msg_dealer (dealing_message d) = dealer;
  honest_msg_i : msg_msg_i (dealing_message d) = msg_i;
  honest_encrypted : msg_encrypted_shares (dealing_message d)
    = BTreeMap.of_fun (encrypted_at config sk msg_i poly) (public_share_receivers config dealer);
  honest_root :
    msg_transcript_root (dealing_message d) = recompute_transcript_root (dealing_message d);
  honest_proof : ∃ sts,
    traverse (statement_at config dealer sk poly (msg_commitment (dealing_message d)) msg_i
                (msg_transcript_root (dealing_message d)))
      (public_share_receivers config dealer) = Ok sts ∧
    (sts = [] → msg_proof (dealing_message d) = []) ∧
    (sts ≠ [] → ∃ rng1 rng2 : R,
       prove_batch sts (witness_at config sk poly msg_i <$> public_share_receivers config dealer)
         rng1 = (Ok (msg_proof (dealing_message d)), rng2));
}.

Lemma create_dealing_honest dealer sk secret config (rng rng' : R) d :
  config_wf config →
  create_dealing_with_secret dealer sk secret config rng = (Ok d, rng') →
  ∃ poly msg_i, honest_dealing config dealer sk secret d poly msg_i.
Proof.
  intros (Hreg & Ht & _). unfold create_dealing_with_secret.
  intros (pk & r1 & [Hpk ->]%lift_Ok & Hc)%stateful_bind_Ok.
  destruct (bool_decide (mul_generator sk = pk)) eqn:Hkey; cbn [negb] in Hc; [|done].
  apply bool_decide_eq_true in Hkey as <-.
  apply stateful_bind_Ok in Hc as (poly & r2 & Hpoly & Hc).
  apply stateful_bind_Ok in Hc as (cmt & r3 & [Hcmt ->]%lift_Ok & Hc).
  apply stateful_bind_Ok in Hc as (msg_i & r4 & _ & Hc).
  apply stateful_bind_Ok in Hc as (shares & r5 & [Hshares ->]%lift_Ok & Hc).
  apply (dealing_shares_Ok _ _ _ Hreg) in Hshares as [Hev ->].
  apply stateful_bind_Ok in Hc as ([enc pads] & r6 & [Henc ->]%lift_Ok & Hc).
  apply (encrypt_shares_Ok _ _ _ _ _ _ _ Hreg) in Henc as (Hpads & -> & ->).
  apply stateful_bind_Ok in Hc as ([sts ws] & r7 & [Hsw ->]%lift_Ok & Hc).
  apply statements_and_witnesses_Ok in Hsw as [Hsts ->].
  apply stateful_bind_Ok in Hc as (proof & r8 & Hproof & Hc).
  apply stateful_bind_Ok in Hc as (own & r9 & [Hown ->]%lift_Ok & Hc).
  apply stateful_bind_Ok in Hc as (verified & r10 & [_ ->]%lift_Ok & Hc).
  destruct verified; cbn [negb] in Hc; [|done]. injection Hc as <- _.
  rewrite ok_or_Ok, BTreeMap.get_of_fun in Hown. case_decide; [|done]. injection Hown as <-.
  destruct (random_with_secret_Ok secret (config_threshold config) rng) as (cs & r & Hr & Hl);
    [lia|]. rewrite Hr in Hpoly. injection Hpoly as <- <-.
  exists (MkPolynomial (secret :: cs)), msg_i. constructor; try done.
  exists sts. split; [done|]. simpl. split.
  - intros ->. rewrite bool_decide_eq_true_2 in Hproof by done. by injection Hproof as <- _.
  - intros Hne. rewrite bool_decide_eq_false_2 in Hproof by done. eauto.
Qed.
End loops.

(** ** Acceptance *)
Section acceptance.
Context `{EvrfBackendComplete} `{Sha256} `{CryptoRngCore R}.
Implicit Types (config : DkgConfig).

Lemma ensure_public_share_keys_Ok message config :
  ensure_public_share_keys message config = Ok () ↔
  (∀ r, r ∈ BTreeMap.keys (msg_encrypted_shares message)
        ↔ r ∈ public_share_receivers config (msg_dealer message)).
Proof.
  unfold ensure_public_share_keys. split.
  - intros ([] & Hkeys & Hall)%bind_Ok. rewrite for_each_Ok in Hkeys, Hall.
    intros r. split.
    + intros Hr. apply Hkeys, reject_if_Ok, orb_false_iff in Hr as [Hd Hk].
      apply bool_decide_eq_false in Hd. apply negb_false_iff in Hk.
      apply elem_of_receivers. split; [done|]. apply registry_public_key_indexes.
      destruct (registry_public_key _ _) as [pk|]; [by exists pk|done].
    + intros Hr. apply Hall, reject_if_Ok, negb_false_iff in Hr.
      by apply BTreeMap.contains_key_spec.
  - intros Hk. apply bind_Ok. exists (). split; apply for_each_Ok; intros r Hr; apply reject_if_Ok.
    + apply Hk, elem_of_receivers in Hr as [Hd Hr]. rewrite bool_decide_eq_false_2 by done.
      apply registry_public_key_indexes in Hr as [pk ->]. done.
    + apply negb_false_iff, BTreeMap.contains_key_spec. by apply Hk.
Qed.

Lemma honest_commitment_length poly c config :
  commit poly = Ok c → len (coefficients poly) = config_threshold config →
  len (commitment_coefficients c) = config_threshold config.
Proof. intros Hc%commit_Ok Hl. rewrite Hc. unfold len in *. by rewrite length_fmap. Qed.

Lemma honest_receiver_statement config dealer sk secret d poly msg_i r :
  honest_dealing (R:=R) config dealer sk secret d poly msg_i →
  r ∈ public_share_receivers config dealer →
  receiver_statement (dealing_message d) config r
  = statement_at config dealer sk poly (msg_commitment (dealing_message d)) msg_i
      (msg_transcript_root (dealing_message d)) r.
Proof.
  intros Hd Hr. unfold receiver_statement.
  rewrite (honest_encrypted _ _ _ _ _ _ _ Hd), BTreeMap.get_of_fun, decide_True by done.
  cbn [ok_or mbind result_bind]. rewrite (honest_dealer _ _ _ _ _ _ _ Hd).
  rewrite (honest_msg_i _ _ _ _ _ _ _ Hd). unfold statement_at. f_equal.
  unfold encrypted_at. simpl. by rewrite mul_generator_add, gadd_sub.
Qed.

Lemma honest_statements config dealer sk secret d poly msg_i :
  honest_dealing (R:=R) config dealer sk secret d poly msg_i →
  dealing_statements (dealing_message d) config =
  traverse (statement_at config dealer sk poly (msg_commitment (dealing_message d)) msg_i
              (msg_transcript_root (dealing_message d)))
    (public_share_receivers config dealer).
Proof.
  intros Hd. unfold dealing_statements.
  rewrite (honest_session _ _ _ _ _ _ _ Hd), bool_decide_eq_true_2 by done. cbn [negb].
  rewrite (honest_registry _ _ _ _ _ _ _ Hd), bool_decide_eq_true_2 by done. cbn [negb].
  rewrite (honest_dealer _ _ _ _ _ _ _ Hd), (honest_key _ _ _ _ _ _ _ Hd).
  cbn [mbind result_bind].
  rewrite (honest_commitment_length poly _ config) by apply Hd.
  rewrite Z.eqb_refl. cbn [negb].
  assert (Hroot := honest_root _ _ _ _ _ _ _ Hd). unfold recompute_transcript_root in Hroot.
  rewrite (honest_session _ _ _ _ _ _ _ Hd), (honest_registry _ _ _ _ _ _ _ Hd),
    (honest_dealer _ _ _ _ _ _ _ Hd) in Hroot.
  rewrite <-Hroot, bool_decide_eq_true_2 by done. cbn [negb].
  rewrite (proj2 (ensure_public_share_keys_Ok _ _)); cbn [mbind result_bind].
  - apply traverse_ext. intros. by apply (honest_receiver_statement _ _ _ secret).
  - intros r. rewrite (honest_encrypted _ _ _ _ _ _ _ Hd), (honest_dealer _ _ _ _ _ _ _ Hd).
    by rewrite BTreeMap.keys_of_fun.
Qed.

Lemma honest_relation config dealer sk secret d poly msg_i r st :
  honest_dealing (R:=R) config dealer sk secret d poly msg_i →
  r ∈ public_share_receivers config dealer →
  statement_at config dealer sk poly (msg_commitment (dealing_message d)) msg_i
    (msg_transcript_root (dealing_message d)) r = Ok st →
  evrf_relation st (witness_at config sk poly msg_i r).
Proof.
  intros Hd Hr Hst. pose proof (honest_config _ _ _ _ _ _ _ Hd) as Hreg.
  pose proof (proj1 (elem_of_receivers _ _ _) Hr) as [_ Hidx].
  apply statement_for_receiver_Ok in Hst as (Hdpk & Hrpk & Ht & _ & Hrec & Hm & Hb & Hcs & Hsc & Hpc & Hes).
  rewrite (honest_key _ _ _ _ _ _ _ Hd) in Hdpk. injection Hdpk as Hdpk.
  pose proof (honest_commit _ _ _ _ _ _ _ Hd) as Hc.
  pose proof (honest_shares _ _ _ _ _ _ _ Hd r Hidx) as Hev.
  repeat split.
  - rewrite Hcs, Ht. apply (honest_commitment_length poly); apply Hd.
  - apply evaluate_Ok in Hev as [_ Hev]. apply bind_Ok in Hev as (x & Hx & [= Hev]).
    exists x. rewrite Hrec. split; [done|]. rewrite Hcs, Hsc.
    rewrite (proj1 (commit_Ok _ _) Hc), meval_mul_generator. f_equal. exact Hev.
  - rewrite Hes, Hsc, Hpc. apply mul_generator_add.
  - done.
  - rewrite Hcs. symmetry. by apply commit_Ok.
  - done.
  - done.
  - rewrite Hm, Hb. pose proof (honest_pads _ _ _ _ _ _ _ Hd r Hr) as Hp.
    unfold dealer_pad in Hp at 1. rewrite Hrpk in Hp. exact Hp.
Qed.

Lemma honest_verifies config dealer sk secret d poly msg_i :
  honest_dealing (R:=R) config dealer sk secret d poly msg_i →
  verify_dealing (dealing_message d) config = Ok ().
Proof.
  intros Hd. unfold verify_dealing. rewrite (honest_statements _ _ _ _ _ _ _ Hd).
  destruct (honest_proof _ _ _ _ _ _ _ Hd) as (sts & Hsts & Hnil & Hcons).
  rewrite Hsts. cbn [mbind result_bind]. destruct sts as [|st sts].
  { by rewrite Hnil. }
  destruct Hcons as (rng1 & rng2 & Hprove); [done|].
  eapply prove_batch_complete; [|exact Hprove].
  apply traverse_Ok in Hsts. apply Forall2_fmap_r. apply Forall2_flip.
  eapply Forall2_impl; [apply Forall2_with_in, Hsts|].
  intros r st' [Hr Hst]. simpl. by eapply honest_relation.
Qed.

Lemma honest_decrypts config dealer sk secret d poly msg_i r sk_r :
  honest_dealing (R:=R) config dealer sk secret d poly msg_i → r ≠ dealer →
  registry_public_key (config_registry config) r = Ok (mul_generator sk_r) →
  decrypt_share_for_receiver r sk_r (dealing_message d) config
  = Ok (MkShare r (share_at poly r)).
Proof.
  intros Hd Hne Hpk.
  assert (Hr : r ∈ registry_indexes (config_registry config))
    by (apply registry_public_key_indexes; eauto).
  assert (Hrs : r ∈ public_share_receivers config dealer) by by apply elem_of_receivers.
  unfold decrypt_share_for_receiver.
  rewrite (honest_encrypted _ _ _ _ _ _ _ Hd), BTreeMap.get_of_fun, decide_True by done.
  cbn [ok_or mbind result_bind]. unfold derive_receiver_pad.
  rewrite (honest_dealer _ _ _ _ _ _ _ Hd), (honest_key _ _ _ _ _ _ _ Hd), Hpk.
  cbn [mbind result_bind]. rewrite (honest_msg_i _ _ _ _ _ _ _ Hd), <-derive_pad_symmetric.
  pose proof (honest_pads _ _ _ _ _ _ _ Hd r Hrs) as Hp. unfold dealer_pad in Hp at 1.
  rewrite Hpk in Hp. cbn [mbind result_bind] in Hp. rewrite Hp. cbn [mbind result_bind].
  unfold encrypted_at. cbn [encrypted_share]. rewrite sadd_sub.
  unfold verify_share. cbn [share_participant share_value].
  rewrite (commit_public_key_share poly _ r (MkShare r (share_at poly r))); cycle 1.
  - eapply registry_index_wf; [apply Hd|done].
  - apply Hd.
  - by apply Hd.
  - cbn [mbind result_bind share_value]. by rewrite bool_decide_eq_true_2.
Qed.
End acceptance.

(** ** Properties *)

(** C30: honest dealings are accepted.  Whatever polynomial constant the dealer
    chose, the message [create_dealing_with_secret] returns passes the public
    [verify_dealing], and [verify_dealing_for_receiver] of every registered
    participant that holds its identity secret, the dealer included. *)
Theorem honest_dealing_accepted {R} `{EvrfBackendComplete} `{Sha256} `{CryptoRngCore R}
    dealer sk secret config (rng rng' : R) d :
  config_wf config →
  create_dealing_with_secret dealer sk secret config rng = (Ok d, rng') →
  verify_dealing (dealing_message d) config = Ok () ∧
  ∀ receiver sk_r,
    registry_public_key (config_registry config) receiver = Ok (mul_generator sk_r) →
    verify_dealing_for_receiver receiver sk_r (dealing_message d) config = Ok ().
Proof.
  intros Hcfg Hc. destruct (create_dealing_honest _ _ _ _ _ _ _ Hcfg Hc) as (poly & m & Hd).
  pose proof (honest_verifies _ _ _ _ _ _ _ Hd) as Hv. split; [done|].
  intros r sk_r Hr. unfold verify_dealing_for_receiver. rewrite Hr. cbn [mbind result_bind].
  rewrite bool_decide_eq_true_2 by done. cbn [negb]. rewrite Hv. cbn [mbind result_bind].
  rewrite (honest_dealer _ _ _ _ _ _ _ Hd). case_bool_decide as Hrd; [done|]. cbn [negb].
  by rewrite (honest_decrypts _ _ _ _ _ _ _ _ _ Hd).
Qed.

(** Honest dealings carry the shares of one polynomial.  The dealing commits
    to a polynomial with [threshold] coefficients whose constant term is the
    chosen secret; the dealer keeps its evaluation at the dealer, and every
    other registered participant decrypts its evaluation at that participant. *)
Theorem honest_dealing_shares {R} `{EvrfBackendComplete} `{Sha256} `{CryptoRngCore R}
    dealer sk secret config (rng rng' : R) d :
  config_wf config →
  create_dealing_with_secret dealer sk secret config rng = (Ok d, rng') →
  ∃ poly,
    head (coefficients poly) = Some secret ∧
    len (coefficients poly) = config_threshold config ∧
    commit poly = Ok (msg_commitment (dealing_message d)) ∧
    evaluate poly dealer = Ok (dealing_private_share d) ∧
    ∀ receiver sk_r, receiver ≠ dealer →
      registry_public_key (config_registry config) receiver = Ok (mul_generator sk_r) →
      decrypt_share_for_receiver receiver sk_r (dealing_message d) config
      = evaluate poly receiver.
Proof.
  intros Hcfg Hc. destruct (create_dealing_honest _ _ _ _ _ _ _ Hcfg Hc) as (poly & m & Hd).
  exists poly. split; [apply Hd|]. split; [apply Hd|]. split; [apply Hd|].
  assert (Hidx : ∀ r pk, registry_public_key (config_registry config) r = Ok pk →
    evaluate poly r = Ok (MkShare r (share_at poly r))).
  { intros r pk Hr. apply Hd, registry_public_key_indexes. by exists pk. }
  split.
  - rewrite (honest_private _ _ _ _ _ _ _ Hd). eapply Hidx, Hd.
  - intros r sk_r Hne Hr. rewrite (Hidx _ _ Hr). by apply (honest_decrypts _ _ _ _ _ _ _ _ _ Hd).
Qed.

(** The run of the witnesses: threshold 2 over the registry of three. *)
Definition tiny_config : DkgConfig (H:=TinyGroup) :=
  MkDkgConfig (H:=TinyGroup) 2 (MkSessionId (replicate 32 x07)) (tiny 4) tiny_registry.

Lemma tiny_config_wf : config_wf (H:=TinyGroup) tiny_config.
Proof. split; [exact tiny_registry_wf|]. split; [split; vm_compute; congruence|reflexivity]. Qed.

Definition tiny_create (dealer : Z) (secret : TinyScalar) (rng : Z)
    : Result (DkgDealing (H:=TinyGroup)) * Z :=
  let p := MkParticipantIndex dealer in
  create_dealing_with_secret (H:=TinyGroup) p (tiny_identity_secret p) secret tiny_config rng.

Definition tiny_dealing (dealer : Z) (secret : TinyScalar) (rng : Z) : DkgDealing (H:=TinyGroup) :=
  match (tiny_create dealer secret rng).1 with
  | Ok d => d
  | Err _ =>
      MkDkgDealing (H:=TinyGroup)
        (MkDealerMessage (H:=TinyGroup) (MkSessionId []) [] (MkParticipantIndex 0)
           (MkDealerMessageNonce []) (MkFeldmanCommitment (H:=TinyGroup) (tiny 0) []) [] [] [])
        (MkShare (MkParticipantIndex 0) (tiny 0))
  end.

Lemma tiny_create_Ok :
  tiny_create 1 (tiny 42) 1 = (Ok (tiny_dealing 1 (tiny 42) 1), (tiny_create 1 (tiny 42) 1).2).
Proof. vm_refl. Qed.

Lemma honest_dealing_accepted_witness :
  let message := dealing_message (tiny_dealing 1 (tiny 42) 1) in
  verify_dealing (H:=TinyGroup) message tiny_config = Ok () ∧
  verify_dealing_for_receiver (H:=TinyGroup) (MkParticipantIndex 3) (tiny 20) message tiny_config
  = Ok ().
Proof.
  intros message.
  destruct (honest_dealing_accepted (H:=TinyGroup) _ _ _ _ _ _ _ tiny_config_wf tiny_create_Ok)
    as [Hv Hr].
  split; [exact Hv|]. apply Hr. vm_refl.
Defined.

Lemma honest_dealing_shares_witness :
  let d := tiny_dealing 1 (tiny 42) 1 in
  ∃ poly, head (coefficients poly) = Some (tiny 42) ∧
    evaluate poly (MkParticipantIndex 1) = Ok (dealing_private_share d) ∧
    decrypt_share_for_receiver (H:=TinyGroup) (MkParticipantIndex 2) (tiny 11)
      (dealing_message d) tiny_config = evaluate poly (MkParticipantIndex 2).
Proof.
  intros d.
  destruct (honest_dealing_shares (H:=TinyGroup) _ _ _ _ _ _ _ tiny_config_wf tiny_create_Ok)
    as (poly & Hhead & _ & _ & Hown & Hdec).
  exists poly. split; [exact Hhead|]. split; [exact Hown|].
  apply Hdec; [discriminate|vm_refl].
Defined.
