(* ===== verification/DkgComplete.v ===== *)
(** * Verified runs (dkg.rs)

    What the verification of dealings and the completion of a run guarantee. *)

From Stdlib Require Import ZArith Lia Field Strings.Byte.
From stdpp Require Import prelude strings.
From S2P Require Import Prelude BTree CoreError Group Algebra Poly Participant Shamir Feldman.
From S2P Require Import Transcript IdentityKey Registry Statement FakeBackend Dkg DkgHonest.
From S2P Require Import TestSupport.

Local Open Scope golden_scope.

(** ** The public checks *)
Section checks.
Context `{GroupModule} `{!EvrfProofBackend} `{Sha256}.
Implicit Types (config : DkgConfig) (message : DealerMessage).

(** What [dealing_statements] checks of a message. *)
Definition well_formed_dealing config message : Prop :=
  msg_session_id message = config_session_id config ∧
  msg_registry_root message = registry_root_field (config_registry config) ∧
  msg_dealer message ∈ registry_indexes (config_registry config) ∧
  len (commitment_coefficients (msg_commitment message)) = config_threshold config ∧
  msg_transcript_root message = recompute_transcript_root message ∧
  (∀ r, r ∈ BTreeMap.keys (msg_encrypted_shares message)
        ↔ r ∈ public_share_receivers config (msg_dealer message)).

Lemma dealing_statements_Ok message config sts :
  dealing_statements message config = Ok sts ↔
  well_formed_dealing config message ∧
  traverse (receiver_statement message config)
    (public_share_receivers config (msg_dealer message)) = Ok sts.
Proof.
  unfold dealing_statements, well_formed_dealing, recompute_transcript_root.
  rewrite <-ensure_public_share_keys_Ok, <-registry_public_key_indexes.
  case_bool_decide as Hs; cbn [negb]; [|naive_solver].
  case_bool_decide as Hr; cbn [negb]; [|naive_solver].
  destruct (registry_public_key _ (msg_dealer message)) as [pk|]; cbn [mbind result_bind];
    [|naive_solver].
  destruct (Z.eqb_spec (len (commitment_coefficients (msg_commitment message)))
              (config_threshold config)) as [Hl|Hl]; cbn [negb]; [|naive_solver].
  case_bool_decide as Hroot; cbn [negb]; [|naive_solver].
  destruct (ensure_public_share_keys message config) as [[]|]; cbn [mbind result_bind];
    naive_solver.
Qed.

(** The statement of a receiver exists once the keys are in place. *)
Lemma receiver_statement_total message config r :
  well_formed_dealing config message →
  r ∈ public_share_receivers config (msg_dealer message) →
  ∃ st enc, receiver_statement message config r = Ok st ∧
    BTreeMap.get r (msg_encrypted_shares message) = Some enc ∧
    st_receiver st = r ∧
    st_commitment_coefficients st = commitment_coefficients (msg_commitment message) ∧
    st_share_commitment st = mul_generator (encrypted_share enc) ⊟ pad_commitment enc ∧
    st_pad_commitment st = pad_commitment enc ∧ st_encrypted_share st = encrypted_share enc.
Proof.
  intros (_ & _ & Hd & _ & _ & Hkeys) Hr. pose proof Hr as [_ Hidx]%elem_of_receivers.
  apply Hkeys, BTreeMap.get_is_Some in Hr as [enc Henc]. unfold receiver_statement.
  rewrite Henc. cbn [ok_or mbind result_bind]. unfold statement_for_receiver.
  apply registry_public_key_indexes in Hd as [dpk ->], Hidx as [rpk ->].
  cbn [mbind result_bind]. eexists _, enc. split; [done|]. simpl. auto 10.
Qed.

Lemma dealing_statements_total message config :
  well_formed_dealing config message → ∃ sts, dealing_statements message config = Ok sts.
Proof.
  intros Hwf. destruct (traverse (receiver_statement message config)
    (public_share_receivers config (msg_dealer message))) as [sts|e] eqn:Hs.
  - exists sts. by apply dealing_statements_Ok.
  - apply traverse_Err in Hs as (l1 & r & l2 & k & Hl & _ & He).
    destruct (receiver_statement_total message config r Hwf) as (st & ? & Hst & _).
    { rewrite Hl. apply elem_of_app. right. left. }
    congruence.
Qed.

Lemma dealing_statements_length message config sts :
  dealing_statements message config = Ok sts →
  length sts = length (public_share_receivers config (msg_dealer message)).
Proof. intros [_ Hs]%dealing_statements_Ok. by eapply traverse_length. Qed.

(** No dealer has an empty statement list unless every dealer has. *)
Lemma receivers_empty config p q :
  registry_wf (config_registry config) →
  p ∈ registry_indexes (config_registry config) →
  q ∈ registry_indexes (config_registry config) →
  public_share_receivers config p = [] → public_share_receivers config q = [].
Proof.
  intros Hwf Hp Hq He.
  assert (Hall : ∀ r, r ∈ registry_indexes (config_registry config) → r = p).
  { intros r Hr. destruct (decide (r = p)) as [|Hne]; [done|]. exfalso.
    assert (Hin : r ∈ public_share_receivers config p) by by apply elem_of_receivers.
    rewrite He in Hin. by apply elem_of_nil in Hin. }
  apply elem_of_nil_inv. intros r [Hne Hr]%elem_of_receivers.
  apply Hne. rewrite (Hall r Hr). symmetry. by apply Hall.
Qed.

Lemma verify_dealing_Ok message config :
  verify_dealing message config = Ok () ↔
  ∃ sts, dealing_statements message config = Ok sts ∧
    (sts = [] → msg_proof message = []) ∧
    (sts ≠ [] → verify_batch sts (msg_proof message) = Ok ()).
Proof.
  unfold verify_dealing. destruct (dealing_statements message config) as [[|st sts]|e];
    cbn [mbind result_bind]; [case_bool_decide|..]; naive_solver.
Qed.
End checks.

(** ** The batched verification *)
Section batch.
Context `{GroupModule} `{!EvrfProofBackend} `{Sha256}.
Implicit Types (config : DkgConfig) (message : DealerMessage).

Abbreviation dealer_error message :=
  (DealerProofVerificationFailed (pi_get (msg_dealer message))).
Abbreviation proofs_of batches messages :=
  (zip_with (λ (statements : list EvrfStatement) message, (statements, msg_proof message))
     batches messages).

(** Reject the first message that [verify_dealing] does not accept. *)
Definition verify_each config (messages : list DealerMessage) : Result unit :=
  for_each (λ message, reject_if (negb (is_ok (verify_dealing message config)))
                         (dealer_error message)) messages.

(** Both loops of [verify_dealings] are [verify_each]. *)
Lemma empty_proofs_loop config messages :
  (∀ message, message ∈ messages → dealing_statements message config = Ok []) →
  for_each (λ message, reject_if (negb (bool_decide (msg_proof message = [])))
              (dealer_error message)) messages = verify_each config messages.
Proof.
  unfold verify_each. induction messages as [|x l IH]; intros Hs; cbn [for_each]; [done|].
  rewrite IH by (intros; apply Hs; by right). f_equal.
  unfold verify_dealing. rewrite Hs by left. cbn [mbind result_bind]. by case_bool_decide.
Qed.

Lemma retry_loop config messages batches :
  Forall2 (λ message sts, dealing_statements message config = Ok sts ∧ sts ≠ []) messages batches →
  for_each (λ '((statements, proof), message),
              reject_if (negb (is_ok (verify_batch statements proof))) (dealer_error message))
    (zip (proofs_of batches messages) messages) = verify_each config messages.
Proof.
  unfold verify_each. induction 1 as [|x sts l batches [Hs Hne] _ IH]; [done|].
  cbn [zip_with for_each]. rewrite IH. f_equal.
  unfold verify_dealing. rewrite Hs. cbn [mbind result_bind]. by destruct sts.
Qed.

(** Under one configuration either all statement lists are empty or none is. *)
Lemma batches_all_or_none config messages batches :
  registry_wf (config_registry config) →
  Forall2 (λ message sts, dealing_statements message config = Ok sts) messages batches →
  forallb (λ statements, bool_decide (statements = [])) batches = false →
  Forall2 (λ message sts, dealing_statements message config = Ok sts ∧ sts ≠ []) messages batches.
Proof.
  intros Hwf Hb Hall. apply not_true_iff_false in Hall. rewrite forallb_forall in Hall.
  eapply Forall2_impl; [apply Hb|]. intros x sts Hs. split; [done|]. intros ->.
  apply Hall. intros sts' (i & Hi)%list_elem_of_In%list_elem_of_lookup.
  apply bool_decide_eq_true, nil_length_inv.
  destruct (Forall2_lookup_r _ _ _ _ _ Hb Hi) as (y & Hy & Hs').
  rewrite (dealing_statements_length _ _ _ Hs').
  rewrite (receivers_empty config (msg_dealer x)); [done|done|..].
  - by apply dealing_statements_Ok in Hs as [(_ & _ & ? & _) _].
  - by apply dealing_statements_Ok in Hs' as [(_ & _ & ? & _) _].
  - apply nil_length_inv. symmetry. by apply (dealing_statements_length _ _ _ Hs).
Qed.

Lemma verify_each_Ok config messages :
  verify_each config messages = Ok () ↔
  ∀ message, message ∈ messages → verify_dealing message config = Ok ().
Proof.
  unfold verify_each. rewrite for_each_Ok. apply forall_proper. intros message.
  rewrite reject_if_Ok, negb_false_iff.
  destruct (verify_dealing message config) as [[]|]; naive_solver.
Qed.

(** A rejection names the dealer of the first message that [verify_dealing] rejects. *)
Definition names_first_rejected config (messages : list DealerMessage) (e : CoreError) : Prop :=
  ∃ before bad after, messages = before ++ bad :: after ∧ e = dealer_error bad ∧
    is_ok (verify_dealing bad config) = false ∧
    ∀ message, message ∈ before → verify_dealing message config = Ok ().

Lemma verify_each_Err config messages e :
  verify_each config messages = Err e → names_first_rejected config messages e.
Proof.
  intros (l1 & bad & l2 & Hl & Hl1 & He)%for_each_Err. unfold reject_if in He.
  destruct (is_ok (verify_dealing bad config)) eqn:Hbad; [done|]. injection He as <-.
  exists l1, bad, l2. split; [done|]. split; [done|]. split; [done|].
  intros x Hx. specialize (Hl1 x Hx). apply reject_if_Ok, negb_false_iff in Hl1.
  by destruct (verify_dealing x config) as [[]|].
Qed.

(** The outcome of [verify_dealings] once every message has its statements. *)
Lemma verify_dealings_cases config m ms batches :
  registry_wf (config_registry config) →
  traverse (λ message, dealing_statements message config) (m :: ms) = Ok batches →
  (Forall (λ sts, sts = []) batches ∧ verify_dealings (m :: ms) config = verify_each config (m :: ms)) ∨
  (Forall2 (λ message sts, dealing_statements message config = Ok sts ∧ sts ≠ []) (m :: ms) batches ∧
   verify_dealings (m :: ms) config
   = match verify_proof_batch (proofs_of batches (m :: ms)) with
     | Ok tt => Ok ()
     | Err e => _ ← verify_each config (m :: ms); Err e
     end).
Proof.
  intros Hwf Hb. unfold verify_dealings. rewrite Hb. cbn [mbind result_bind].
  apply traverse_Ok in Hb. destruct (forallb _ batches) eqn:Hall.
  - left. rewrite forallb_forall in Hall. split.
    + apply Forall_forall. intros sts Hs%list_elem_of_In. by apply Hall, bool_decide_eq_true in Hs.
    + apply empty_proofs_loop. intros x (i & Hi)%list_elem_of_lookup.
      destruct (Forall2_lookup_l _ _ _ _ _ Hb Hi) as (sts & Hi' & Hs).
      apply list_elem_of_lookup_2, list_elem_of_In, Hall in Hi'. by apply bool_decide_eq_true in Hi' as ->.
  - right. pose proof (batches_all_or_none _ _ _ Hwf Hb Hall) as Hne. split; [done|].
    destruct (verify_proof_batch _) as [[]|e]; [done|]. by rewrite (retry_loop config).
Qed.
End batch.

(** With a backend whose batched check agrees with its single checks. *)
Section agreeing_batch.
Context `{EvrfBackendComplete} `{Sha256}.
Implicit Types (config : DkgConfig) (message : DealerMessage).
Abbreviation proofs_of batches messages :=
  (zip_with (λ (statements : list EvrfStatement) message, (statements, msg_proof message))
     batches messages).

(** The batched check succeeds exactly when every single check does. *)
Lemma verify_proof_batch_each config messages batches :
  Forall2 (λ message sts, dealing_statements message config = Ok sts ∧ sts ≠ []) messages batches →
  verify_proof_batch (proofs_of batches messages) = Ok () ↔
  ∀ message, message ∈ messages → verify_dealing message config = Ok ().
Proof.
  intros Hb. rewrite verify_proof_batch_spec.
  assert (Hv : ∀ message sts, dealing_statements message config = Ok sts → sts ≠ [] →
      verify_dealing message config = verify_batch sts (msg_proof message)).
  { intros x sts Hs Hne. unfold verify_dealing. rewrite Hs. cbn [mbind result_bind].
    by destruct sts. }
  split.
  - intros Hall x (i & Hi)%list_elem_of_lookup.
    destruct (Forall2_lookup_l _ _ _ _ _ Hb Hi) as (sts & Hi' & Hs & Hne).
    rewrite (Hv x sts) by done. apply Hall, list_elem_of_lookup. exists i.
    apply lookup_zip_with_Some. eauto.
  - intros Hall sts π (i & Hi)%list_elem_of_lookup.
    apply lookup_zip_with_Some in Hi as (sts' & x & [= -> ->] & Hi & Hx).
    destruct (Forall2_lookup_lr _ _ _ _ _ _ Hb Hx Hi) as [Hs Hne].
    rewrite <-(Hv x sts') by done. apply Hall. by eapply list_elem_of_lookup_2.
Qed.

Lemma verify_dealings_statements config m ms batches :
  registry_wf (config_registry config) →
  traverse (λ message, dealing_statements message config) (m :: ms) = Ok batches →
  verify_dealings (m :: ms) config = verify_each config (m :: ms).
Proof.
  intros Hwf Hb. destruct (verify_dealings_cases config m ms batches Hwf Hb) as [[_ E]|[Hne E]]; [done|].
  rewrite E. pose proof (verify_proof_batch_each _ _ _ Hne) as Hbatch. rewrite <-verify_each_Ok in Hbatch.
  destruct (verify_proof_batch _) as [[]|e]; [symmetry; by apply Hbatch|].
  destruct (verify_each _ _) as [[]|]; [|done]. by apply Hbatch.
Qed.

Lemma verify_dealings_all messages config :
  registry_wf (config_registry config) → messages ≠ [] →
  (∀ message, message ∈ messages → verify_dealing message config = Ok ()) →
  verify_dealings messages config = Ok ().
Proof.
  intros Hreg Hne Hall. destruct messages as [|m ms]; [done|].
  destruct (traverse (λ message, dealing_statements message config) (m :: ms)) as [batches|e] eqn:Hb.
  - rewrite (verify_dealings_statements _ _ _ _ Hreg Hb). by apply verify_each_Ok.
  - apply traverse_Err in Hb as (l1 & bad & l2 & k & Hl & _ & He).
    specialize (Hall bad). rewrite Hl, elem_of_app, elem_of_cons in Hall.
    specialize (Hall ltac:(auto)). apply verify_dealing_Ok in Hall as (sts & Hs & _). congruence.
Qed.
End agreeing_batch.

(** ** Completion *)
Section completion.
Context `{GroupModule} `{!EvrfProofBackend} `{Sha256}.
Implicit Types (config : DkgConfig) (message : DealerMessage).

Lemma verify_dealings_well_formed messages config :
  verify_dealings messages config = Ok () →
  ∀ message, message ∈ messages → well_formed_dealing config message.
Proof.
  unfold verify_dealings. destruct messages as [|m ms]; [done|].
  intros (batches & Hb & _)%bind_Ok message (i & Hi)%list_elem_of_lookup.
  apply traverse_Ok in Hb. destruct (Forall2_lookup_l _ _ _ _ _ Hb Hi) as (sts & _ & Hs).
  by apply dealing_statements_Ok in Hs as [? _].
Qed.

(** The collected map: the own message and every peer message, by dealer. *)
Lemma collect_fold_Ok acc peers all :
  BTreeMap.wf acc → (∀ k m, BTreeMap.get k acc = Some m → msg_dealer m = k) →
  fold_result collect_step acc peers = Ok all →
  BTreeMap.wf all ∧
  ∀ k m, BTreeMap.get k all = Some m ↔
    BTreeMap.get k acc = Some m ∨ ((k, m) ∈ peers ∧ k = msg_dealer m).
Proof.
  revert acc. induction peers as [|[d m'] peers IH]; intros acc Hwf Hdealer; cbn [fold_result].
  { intros [= <-]. split; [done|]. intros k m. rewrite elem_of_nil. tauto. }
  unfold collect_step at 2; cbv beta iota.
  case_bool_decide as Hd; cbn [negb mbind result_bind]; [|done]. subst d.
  destruct (BTreeMap.contains_key (msg_dealer m') acc) eqn:Hc; cbn [mbind result_bind]; [done|].
  apply not_true_iff_false in Hc. rewrite BTreeMap.contains_key_spec in Hc.
  intros Hf. apply IH in Hf as [Hall Hget]; [|by apply BTreeMap.wf_insert|].
  - split; [done|]. intros k m. rewrite Hget, elem_of_cons.
    destruct (decide (k = msg_dealer m')) as [->|Hk].
    + rewrite BTreeMap.get_insert_eq. split.
      * intros [[= <-]|[Hin Hk]]; [right; split; [by left|done]|right; split; [by right|done]].
      * intros [Ha|[[[= ->]|Hin] Hk]]; [|by left|by right].
        exfalso. apply Hc, BTreeMap.get_is_Some. by exists m.
    + rewrite BTreeMap.get_insert_ne by done. naive_solver.
  - intros k m Hk. destruct (decide (k = msg_dealer m')) as [->|Hne].
    + rewrite BTreeMap.get_insert_eq in Hk. by injection Hk as <-.
    + rewrite BTreeMap.get_insert_ne in Hk by done. by apply Hdealer.
Qed.

Lemma collect_dealings_Ok own peers all :
  collect_dealings own peers = Ok all →
  BTreeMap.wf all ∧ (∀ k m, BTreeMap.get k all = Some m → msg_dealer m = k) ∧
  BTreeMap.get (msg_dealer own) all = Some own.
Proof.
  intros Hc. apply collect_fold_Ok in Hc as [Hwf Hget].
  - split; [done|]. split.
    + intros k m [Hk|[_ ->]]%Hget; [|done].
      destruct (decide (k = msg_dealer own)) as [->|Hne].
      * rewrite BTreeMap.get_insert_eq in Hk. by injection Hk as <-.
      * rewrite BTreeMap.get_insert_ne in Hk by done. done.
    + apply Hget. left. apply BTreeMap.get_insert_eq.
  - apply BTreeMap.wf_insert, BTreeMap.wf_empty.
  - intros k m Hk. destruct (decide (k = msg_dealer own)) as [->|Hne].
    + rewrite BTreeMap.get_insert_eq in Hk. by injection Hk as <-.
    + rewrite BTreeMap.get_insert_ne in Hk by done. done.
Qed.

(** The share taken from one dealing. *)
Definition contribution (receiver : ParticipantIndex) (sk : Scalar) (own : DkgDealing) config
    message : Result (Share Scalar) :=
  share ← (if bool_decide (msg_dealer message = receiver)
           then Ok (dealing_private_share own)
           else decrypt_share_for_receiver receiver sk message config);
  verified ← verify_share (msg_commitment message) share;
  if negb verified then Err CommitmentVerificationFailed else Ok share.

Lemma zip_update_zip_with {A B} (f : A → B → A) l k :
  length l = length k → zip_update f l k = zip_with f l k.
Proof. revert k. induction l as [|a l IH]; intros [|b k] [=]; simpl; [done|]. by rewrite IH. Qed.

Lemma aggregate_step_contribution receiver sk own config s a message :
  aggregate_step receiver sk own config (s, a) message
  = (sh ← contribution receiver sk own config message;
     Ok (s + share_value sh, zip_update gadd a (commitment_coefficients (msg_commitment message)))).
Proof.
  unfold aggregate_step, contribution. destruct (if bool_decide _ then _ else _) as [sh|]; [|done].
  cbn [mbind result_bind]. by destruct (verify_share _ _) as [[]|].
Qed.

(** The loop adds up the contributions. *)
Lemma aggregate_contributions receiver sk own config messages s0 a0 s aggs :
  fold_result (aggregate_step receiver sk own config) (s0, a0) messages = Ok (s, aggs) →
  ∃ shs, Forall2 (λ message sh, contribution receiver sk own config message = Ok sh) messages shs ∧
    s = s0 + msum (SM:=scalar_module Scalar) share_value shs ∧
    aggs = foldl (λ a message,
      zip_update gadd a (commitment_coefficients (msg_commitment message))) a0 messages.
Proof.
  revert s0 a0. induction messages as [|m ms IH]; intros s0 a0; cbn [fold_result].
  { intros [= <- <-]. exists []. split; [constructor|]. split; [|done].
    symmetry. apply sadd_0_r. }
  rewrite aggregate_step_contribution.
  intros ([s1 a1] & (sh & Hsh & [= <- <-])%bind_Ok & Hf)%bind_Ok.
  apply IH in Hf as (shs & Hshs & -> & ->). exists (sh :: shs).
  split; [by constructor|]. split; [|done]. simpl. by rewrite sadd_assoc.
Qed.

(** The coefficient-wise sum of the commitments evaluates to the sum of their
    evaluations. *)
Lemma aggregate_meval messages a0 :
  (∀ message, message ∈ messages →
     length (commitment_coefficients (msg_commitment message)) = length a0) →
  let aggs := foldl (λ a message,
    zip_update gadd a (commitment_coefficients (msg_commitment message))) a0 messages in
  length aggs = length a0 ∧
  ∀ y, meval (H0:=element_module) aggs y = meval (H0:=element_module) a0 y
    ⊞ msum (SM:=element_module) (λ message,
        meval (H0:=element_module) (commitment_coefficients (msg_commitment message)) y) messages.
Proof.
  revert a0. induction messages as [|m ms IH]; intros a0 Hlen; cbn [foldl].
  { split; [done|]. intros y. symmetry. apply gadd_id_r. }
  assert (Hlm := Hlen m ltac:(left)). rewrite zip_update_zip_with by done.
  destruct (IH (zip_with gadd a0 (commitment_coefficients (msg_commitment m)))) as [Hla Hev].
  { intros m' Hm'. rewrite length_zip_with, Hlm, Nat.min_id. apply Hlen. by right. }
  split; [rewrite Hla, length_zip_with; lia|].
  intros y. rewrite Hev, meval_zip_gadd, <-gadd_assoc by done. reflexivity.
Qed.

Lemma contribution_Ok receiver sk own config message sh :
  contribution receiver sk own config message = Ok sh →
  verify_share (msg_commitment message) sh = Ok true ∧
  (msg_dealer message = receiver ∧ sh = dealing_private_share own ∨
   msg_dealer message ≠ receiver ∧
   decrypt_share_for_receiver receiver sk message config = Ok sh).
Proof.
  unfold contribution. intros (sh' & Hsh & (v & Hv & Hs)%bind_Ok)%bind_Ok.
  destruct v; cbn [negb] in Hs; [|done]. injection Hs as ->. split; [done|].
  case_bool_decide; [left|right]; (split; [done|]); [by injection Hsh|done].
Qed.

Lemma decrypt_Ok receiver sk message config sh :
  decrypt_share_for_receiver receiver sk message config = Ok sh →
  share_participant sh = receiver ∧
  msg_dealer message ∈ registry_indexes (config_registry config).
Proof.
  unfold decrypt_share_for_receiver.
  intros (enc & _ & (pad & Hpad & (v & _ & Hs)%bind_Ok)%bind_Ok)%bind_Ok.
  destruct v; cbn [negb] in Hs; [|done]. injection Hs as <-. split; [done|].
  apply bind_Ok in Hpad as (pk & Hpk & _). apply registry_public_key_indexes. by exists pk.
Qed.

(** Everything a completed run consists of: the verified messages, one per
    registered dealer, and their aggregate commitment. *)
Record completed_run config receiver (sk : Scalar) own peers (out : DkgOutput)
    (all : list (ParticipantIndex * DealerMessage)) (agg : FeldmanCommitment) := {
  run_key : registry_public_key (config_registry config) receiver = Ok (mul_generator sk);
  run_dealings : collect_dealings (dealing_message own) peers = Ok all;
  run_dealers : BTreeMap.keys all = registry_indexes (config_registry config);
  run_verified : verify_dealings (BTreeMap.values all) config = Ok ();
  run_contributions : ∃ shs,
    Forall2 (λ message sh, contribution receiver sk own config message = Ok sh)
      (BTreeMap.values all) shs ∧
    out_secret_share out = MkShare receiver (msum (SM:=scalar_module Scalar) share_value shs) ∧
    Forall (λ sh, share_participant sh = receiver) shs;
  run_coefficients : commitment_coefficients agg
    = foldl (λ a message, zip_update gadd a (commitment_coefficients (msg_commitment message)))
        (replicate (Z.to_nat (config_threshold config)) identity) (BTreeMap.values all);
  run_degree : len (commitment_coefficients agg) = config_threshold config;
  run_aggregate : ∀ y, meval (H0:=element_module) (commitment_coefficients agg) y
    = msum (SM:=element_module) (λ message,
        meval (H0:=element_module) (commitment_coefficients (msg_commitment message)) y)
      (BTreeMap.values all);
  run_public_key : out_public_key out = public_key agg;
  run_public_key_shares p : p ∈ registry_indexes (config_registry config) →
    public_key_share agg p = Ok (unwrap_or identity (public_key_share agg p));
  run_share_map : out_public_key_shares out
    = BTreeMap.of_fun (λ p, unwrap_or identity (public_key_share agg p))
        (registry_indexes (config_registry config));
  run_root : out_transcript_root out = completion_root all;
}.

(** The dealers of a run are the registered participants. *)
Lemma run_dealers_registered config receiver sk own all shs :
  registry_wf (config_registry config) →
  receiver ∈ registry_indexes (config_registry config) →
  BTreeMap.wf all → (∀ k m, BTreeMap.get k all = Some m → msg_dealer m = k) →
  Forall2 (λ message sh, contribution receiver sk own config message = Ok sh)
    (BTreeMap.values all) shs →
  (∀ d, d ∈ registry_indexes (config_registry config) → ∃ m, BTreeMap.get d all = Some m) →
  BTreeMap.keys all = registry_indexes (config_registry config).
Proof.
  intros Hreg Hrec Hwf Hd Hshs Hall. apply BTreeMap.sorted_ext; [done|by apply registry_sorted|].
  intros k. rewrite <-BTreeMap.get_is_Some. split; [|by intros [m ->]%Hall].
  intros [m Hm]. pose proof (Hd _ _ Hm) as <-.
  assert (Hin : m ∈ BTreeMap.values all).
  { apply BTreeMap.get_Some_elem in Hm. unfold BTreeMap.values.
    apply list_elem_of_fmap. by exists (msg_dealer m, m). }
  apply list_elem_of_lookup in Hin as [i Hi].
  destruct (Forall2_lookup_l _ _ _ _ _ Hshs Hi) as (sh & _ & [_ [[-> _]|[_ Hdec]]]%contribution_Ok);
    [done|]. by apply decrypt_Ok in Hdec as [_ ?].
Qed.

Lemma contributions_participant config receiver sk own messages shs :
  share_participant (dealing_private_share own) = receiver →
  Forall2 (λ message sh, contribution receiver sk own config message = Ok sh) messages shs →
  Forall (λ sh, share_participant sh = receiver) shs.
Proof.
  intros Hown. induction 1 as [|m sh ms shs Hc _ IH]; constructor; [|done].
  apply contribution_Ok in Hc as [_ [[_ ->]|[_ Hdec]]]; [done|]. by apply decrypt_Ok in Hdec as [? _].
Qed.

Lemma complete_run config receiver sk own peers out :
  config_wf config → complete receiver sk own peers config = Ok out →
  ∃ all agg, completed_run config receiver sk own peers out all agg.
Proof.
  intros (Hreg & Ht & _). unfold complete. intros (pk & Hpk & Hc)%bind_Ok.
  destruct (bool_decide (mul_generator sk = pk)) eqn:Hkey; cbn [negb] in Hc; [|done].
  apply bool_decide_eq_true in Hkey as <-.
  destruct (bool_decide (msg_dealer (dealing_message own) = receiver)) eqn:Hd;
    cbn [negb] in Hc; [|done]. apply bool_decide_eq_true in Hd.
  destruct (bool_decide (share_participant (dealing_private_share own) = receiver)) eqn:Hp;
    cbn [negb] in Hc; [|done]. apply bool_decide_eq_true in Hp.
  apply bind_Ok in Hc as (all & Hall & Hc).
  apply bind_Ok in Hc as (messages & Hmsgs & ([] & Hver & Hc)%bind_Ok).
  apply bind_Ok in Hc as ([s aggs] & Hagg & (agg & Hcmt & (pks & Hpks & [= <-])%bind_Ok)%bind_Ok).
  pose proof (collect_dealings_Ok _ _ _ Hall) as (Hwf & Hdealer & Hown).
  apply from_coefficients_Ok in Hcmt as <-.
  assert (Hall' : ∀ d, d ∈ registry_indexes (config_registry config) →
    ∃ m, BTreeMap.get d all = Some m).
  { intros d (i & Hi)%list_elem_of_lookup. apply traverse_Ok in Hmsgs.
    destruct (Forall2_lookup_l _ _ _ _ _ Hmsgs Hi) as (m & _ & Hm%ok_or_Ok). by exists m. }
  pose proof (aggregate_contributions _ _ _ _ _ _ _ _ _ Hagg) as (shs & Hshs & -> & Haggs).
  assert (Hkeys : BTreeMap.keys all = registry_indexes (config_registry config)).
  { eapply run_dealers_registered; try done. apply registry_public_key_indexes. by eexists. }
  rewrite <-Hkeys, BTreeMap.traverse_get_keys in Hmsgs by done. injection Hmsgs as <-.
  destruct (aggregate_meval (BTreeMap.values all)
    (replicate (Z.to_nat (config_threshold config)) identity)) as [Hlen Hev].
  { intros m Hm. apply (verify_dealings_well_formed _ _ Hver) in Hm as (_ & _ & _ & Hl & _).
    rewrite length_replicate. unfold len in Hl. lia. }
  rewrite <-Haggs in Hlen, Hev. rewrite length_replicate in Hlen.
  apply (BTreeMap.fold_insert_of_fun identity (public_key_share agg) (λ _ P, P)) in Hpks
    as [Hok ->]; [|by apply registry_sorted].
  exists all, agg. constructor; try done.
  - exists shs. split; [done|]. split; [|by eapply contributions_participant].
    simpl. by rewrite sadd_0_l.
  - unfold len. lia.
  - intros y. rewrite Hev. pose proof (meval_zeros (SM:=element_module)
      (Z.to_nat (config_threshold config)) y) as Hz. simpl in Hz. rewrite Hz. apply gadd_id_l.
Qed.
End completion.

(** ** Consequences of a completed run *)
Section consequences.
Context `{GroupModule} `{!EvrfProofBackend} `{Sha256}.
Implicit Types (config : DkgConfig).

Lemma run_participant config receiver sk own peers out all agg :
  completed_run config receiver sk own peers out all agg →
  share_participant (out_secret_share out) = receiver ∧
  receiver ∈ registry_indexes (config_registry config).
Proof.
  intros Hrun. split.
  - destruct (run_contributions _ _ _ _ _ _ _ _ Hrun) as (shs & _ & -> & _). done.
  - apply registry_public_key_indexes. eexists. apply Hrun.
Qed.

Lemma public_key_share_to_scalar c p P :
  public_key_share c p = Ok P → ∃ x : Scalar, to_scalar p = Ok x.
Proof. unfold public_key_share. intros (x & Hx & _)%bind_Ok. by exists x. Qed.

(** The sum of verified contributions is verified by the sum of the commitments. *)
Lemma run_share_verifies config receiver sk own peers out all agg :
  registry_wf (config_registry config) →
  completed_run config receiver sk own peers out all agg →
  public_key_share agg receiver = Ok (mul_generator (share_value (out_secret_share out))) ∧
  verify_share agg (out_secret_share out) = Ok true.
Proof.
  intros Hreg Hrun. destruct (run_participant _ _ _ _ _ _ _ _ Hrun) as [Hrec Hidx].
  pose proof (registry_index_wf _ _ Hreg Hidx) as Hwf.
  destruct (public_key_share_to_scalar _ _ _ (run_public_key_shares _ _ _ _ _ _ _ _ Hrun _ Hidx))
    as [x Hx].
  destruct (run_contributions _ _ _ _ _ _ _ _ Hrun) as (shs & Hshs & Hout & Hparts).
  assert (Hv : mul_generator (share_value (out_secret_share out))
    = meval (H0:=element_module) (commitment_coefficients agg) x).
  { rewrite (run_aggregate _ _ _ _ _ _ _ _ Hrun), Hout. cbn [share_value].
    clear -Hshs Hparts Hwf Hx H0. induction Hshs as [|m sh ms shs Hc _ IH]; cbn [msum foldr].
    { exact mul_generator_0. }
    apply Forall_cons in Hparts as [Hp Hparts]. specialize (IH Hparts).
    apply contribution_Ok in Hc as [Hc _]. subst receiver.
    apply (verify_share_true _ _ x Hwf Hx) in Hc.
    etransitivity; [apply mul_generator_add|]. exact (f_equal2 gadd Hc IH). }
  split.
  - rewrite (public_key_share_meval _ _ x) by done. by rewrite Hv.
  - apply (verify_share_true _ _ x); rewrite ?Hrec; done.
Qed.

Lemma run_aggregate_unique config all r1 sk1 own1 peers1 out1 agg1 r2 sk2 own2 peers2 out2 agg2 :
  completed_run config r1 sk1 own1 peers1 out1 all agg1 →
  completed_run config r2 sk2 own2 peers2 out2 all agg2 → agg1 = agg2.
Proof.
  intros H1' H2'.
  assert (Hcs : commitment_coefficients agg1 = commitment_coefficients agg2).
  { by rewrite (run_coefficients _ _ _ _ _ _ _ _ H1'), (run_coefficients _ _ _ _ _ _ _ _ H2'). }
  destruct agg1, agg2. unfold commitment_coefficients in Hcs. simpl in Hcs. by simplify_eq.
Qed.

Lemma run_public_key_sum config receiver sk own peers out all agg :
  completed_run config receiver sk own peers out all agg →
  out_public_key out = msum (SM:=element_module) (λ message, public_key (msg_commitment message))
                         (BTreeMap.values all).
Proof.
  intros Hrun. rewrite (run_public_key _ _ _ _ _ _ _ _ Hrun).
  etransitivity; [symmetry; exact (meval_0 (SM:=element_module) (commitment_coefficients agg))|].
  rewrite (run_aggregate _ _ _ _ _ _ _ _ Hrun).
  apply msum_ext. intros m _. exact (meval_0 (SM:=element_module) _).
Qed.
End consequences.

(** ** A concrete run

    Participants 1, 2 and 3 deal the secrets 10, 20 and 30. *)
Definition tiny_run_dealing (p : ParticipantIndex) : DkgDealing (H:=TinyGroup) :=
  tiny_dealing (pi_get p) (tiny (10 * pi_get p)) (pi_get p).

Definition tiny_peers (r : ParticipantIndex)
    : list (ParticipantIndex * DealerMessage (H:=TinyGroup)) :=
  BTreeMap.of_fun (λ d, dealing_message (tiny_run_dealing d))
    (public_share_receivers (H:=TinyGroup) tiny_config r).

Definition tiny_complete (r : ParticipantIndex) : Result (DkgOutput (H:=TinyGroup)) :=
  complete (H:=TinyGroup) r (tiny_identity_secret r) (tiny_run_dealing r) (tiny_peers r) tiny_config.

Definition tiny_all : list (ParticipantIndex * DealerMessage (H:=TinyGroup)) :=
  BTreeMap.of_fun (λ d, dealing_message (tiny_run_dealing d))
    (registry_indexes (H:=TinyGroup) tiny_registry).

(** The output of [r] when the secret shares are the values of [key + slope X]. *)
Definition linear_output (key slope : Z) (root : byte) (r : ParticipantIndex)
    : DkgOutput (H:=TinyGroup) :=
  MkDkgOutput (H:=TinyGroup) (tiny key) (MkShare r (tiny (key + slope * pi_get r)))
    (BTreeMap.of_fun (λ p, tiny (key + slope * pi_get p)) (MkParticipantIndex <$> [1; 2; 3]%Z))
    (replicate 32 root).
Definition tiny_output : ParticipantIndex → DkgOutput (H:=TinyGroup) := linear_output 60 40 x00.

Lemma tiny_complete_Ok r :
  In r (registry_indexes (H:=TinyGroup) tiny_registry) →
  complete (H:=TinyGroup) r (tiny_identity_secret r) (tiny_run_dealing r) (tiny_peers r) tiny_config
  = Ok (tiny_output r).
Proof. simpl. intros [<-|[<-|[<-|[]]]]; vm_refl. Qed.

Lemma tiny_collect_Ok r :
  In r (registry_indexes (H:=TinyGroup) tiny_registry) →
  collect_dealings (H:=TinyGroup) (dealing_message (tiny_run_dealing r)) (tiny_peers r)
  = Ok tiny_all.
Proof. simpl. intros [<-|[<-|[<-|[]]]]; vm_refl. Qed.

(** ** Properties *)

(** C23: public soundness of a verified dealing.  A message [verify_dealing]
    accepts belongs to this session and registry, comes from a registered dealer,
    commits to exactly [threshold] coefficients under its own root, and carries
    one ciphertext for each other participant; and each ciphertext opens, with
    any opening of its pad commitment, to a share the commitment verifies. *)
Theorem verified_dealing_sound `{EvrfBackendSound} `{Sha256} message config :
  registry_wf (config_registry config) →
  verify_dealing message config = Ok () →
  well_formed_dealing config message ∧
  ∀ receiver encrypted pad,
    BTreeMap.get receiver (msg_encrypted_shares message) = Some encrypted →
    mul_generator pad = pad_commitment encrypted →
    verify_share (msg_commitment message)
      (MkShare receiver (encrypted_share encrypted - pad)) = Ok true.
Proof.
  intros Hreg (sts & Hsts & _ & Hv)%verify_dealing_Ok.
  pose proof Hsts as [Hwf Htr]%dealing_statements_Ok. split; [done|].
  intros r enc pad Henc Hpad. pose proof Hwf as (_ & _ & _ & _ & _ & Hkeys).
  assert (Hr : r ∈ public_share_receivers config (msg_dealer message))
    by (apply Hkeys, BTreeMap.get_is_Some; eauto).
  destruct (receiver_statement_total _ _ _ Hwf Hr)
    as (st & enc' & Hst & Henc' & Hrec & Hcs & Hsc & Hpc & Hes).
  rewrite Henc in Henc'. injection Henc' as <-.
  assert (Hin : st ∈ sts).
  { apply list_elem_of_lookup in Hr as [i Hi]. apply traverse_Ok in Htr.
    destruct (Forall2_lookup_l _ _ _ _ _ Htr Hi) as (st' & Hi' & Hst').
    assert (st' = st) as -> by congruence. by eapply list_elem_of_lookup_2. }
  destruct (verify_batch_sound sts (msg_proof message) st) as (_ & (x & Hx & Hm) & _);
    [apply Hv; intros ->; by apply elem_of_nil in Hin|done|].
  rewrite Hrec in Hx. apply elem_of_receivers in Hr as [_ Hidx].
  apply (verify_share_true _ _ x); [by eapply registry_index_wf|done|].
  cbn [share_value]. rewrite mul_generator_sub, Hpad, <-Hcs, Hm. by rewrite Hsc.
Qed.

Lemma verified_dealing_sound_witness :
  let message := dealing_message (tiny_dealing 1 (tiny 42) 1) in
  well_formed_dealing (H:=TinyGroup) tiny_config message.
Proof.
  intros message.
  refine (proj1 (verified_dealing_sound (H:=TinyGroup) message tiny_config _ _)).
  - exact tiny_registry_wf.
  - vm_refl.
Defined.

(** C27: the outcome of [verify_dealings] on a non-empty list, for every backend.  When a
    message is malformed, it is the error of the first such message.  When all are well
    formed and none has a receiver, the list is accepted exactly if no message carries
    proof bytes, that is, if [verify_dealing] accepts each, and otherwise the first
    dealer that fails is named.  When all are well formed with receivers, the list is
    accepted exactly if the backend's batched check accepts the proofs with their
    statements; if it does not, the error names the dealer of the first message that
    [verify_dealing] rejects, and is the backend's own error when it rejects none. *)
Theorem verify_dealings_correct `{GroupModule} `{!EvrfProofBackend} `{Sha256} messages config :
  registry_wf (config_registry config) → messages ≠ [] →
  match traverse (λ message, dealing_statements message config) messages with
  | Err e => verify_dealings messages config = Err e ∧
      ∃ before bad after, messages = before ++ bad :: after ∧ dealing_statements bad config = Err e ∧
        ∀ message, message ∈ before → is_ok (dealing_statements message config) = true
  | Ok batches =>
      Forall (λ sts, sts = []) batches ∧
        (verify_dealings messages config = Ok () ↔
           ∀ message, message ∈ messages → verify_dealing message config = Ok ()) ∧
        (∀ e, verify_dealings messages config = Err e → names_first_rejected config messages e) ∨
      Forall (λ sts, sts ≠ []) batches ∧
        match verify_proof_batch (zip batches (msg_proof <$> messages)) with
        | Ok _ => verify_dealings messages config = Ok ()
        | Err batch_error => ∃ e, verify_dealings messages config = Err e ∧
            (names_first_rejected config messages e ∨
             (∀ message, message ∈ messages → verify_dealing message config = Ok ()) ∧ e = batch_error)
        end
  end.
Proof.
  intros Hreg Hne. destruct messages as [|m ms]; [done|].
  destruct (traverse (λ message, dealing_statements message config) (m :: ms)) as [batches|e] eqn:Hb.
  - assert (Hzip : zip batches (msg_proof <$> m :: ms)
      = zip_with (λ (sts : list EvrfStatement) message, (sts, msg_proof message)) batches (m :: ms))
      by apply zip_with_fmap_r.
    destruct (verify_dealings_cases config m ms batches Hreg Hb) as [[Hall E]|[Hall E]]; rewrite E.
    + left. split; [done|]. split; [apply verify_each_Ok|]. apply verify_each_Err.
    + right. split.
      { apply Forall_lookup. intros i sts Hi. by destruct (Forall2_lookup_r _ _ _ _ _ Hall Hi) as (x & _ & _ & ?). }
      rewrite Hzip. destruct (verify_proof_batch _) as [[]|be]; [done|].
      destruct (verify_each config (m :: ms)) as [[]|e] eqn:Hv; cbn [mbind result_bind].
      * exists be. split; [done|]. right. split; [by apply verify_each_Ok|done].
      * exists e. split; [done|]. left. by apply verify_each_Err.
  - unfold verify_dealings. rewrite Hb. cbn [mbind result_bind]. split; [done|].
    apply traverse_Err in Hb as (l1 & bad & l2 & k & Hl & Hk & He).
    exists l1, bad, l2. split; [done|]. split; [done|].
    intros x (i & Hi)%list_elem_of_lookup. apply traverse_Ok in Hk.
    by destruct (Forall2_lookup_l _ _ _ _ _ Hk Hi) as (sts & _ & ->).
Qed.

(** A backend whose batched check refuses everything. *)
Definition BatchRejectingBackend : EvrfProofBackend (H:=TinyGroup) := {|
  PROOF_ID := FAKE_PROOF_ID;
  derive_pad := default_derive_pad;
  prove_batch := λ R rng statements witnesses, lift (fake_prove_batch statements witnesses);
  verify_batch := fake_verify_batch;
  verify_proof_batch := λ _, Err ProofVerificationFailed;
|}.

Lemma verify_dealings_correct_witness :
  let messages := [dealing_message (tiny_dealing 1 (tiny 42) 1);
                   dealing_message (tiny_dealing 2 (tiny 9) 77)] in
  (∀ message, message ∈ messages → verify_dealing (H:=TinyGroup) message tiny_config = Ok ()) ∧
  verify_dealings (H:=TinyGroup) messages tiny_config = Ok () ∧
  verify_dealings (H:=TinyGroup) (H0:=BatchRejectingBackend) messages tiny_config
  = Err ProofVerificationFailed.
Proof.
  intros messages.
  assert (Hall : ∀ message, message ∈ messages → verify_dealing (H:=TinyGroup) message tiny_config = Ok ()).
  { intros message [->|[->|[]%elem_of_nil]%elem_of_cons]%elem_of_cons; vm_refl. }
  split; [exact Hall|]. split; [vm_refl|].
  assert (Hb : match traverse (λ message, dealing_statements (H:=TinyGroup) message tiny_config) messages with
    | Ok ((_ :: _) :: _) => true | _ => false end = true) by vm_refl.
  pose proof (verify_dealings_correct (H:=TinyGroup) (H1:=BatchRejectingBackend) messages
    tiny_config tiny_registry_wf ltac:(discriminate)) as Hc.
  destruct (traverse _ messages) as [[|[|st sts] batches]|e]; try discriminate Hb.
  destruct Hc as [[Hf _]|[_ (e & He & Hcase)]].
  - inversion Hf. discriminate.
  - destruct Hcase as [(before & bad & after & Hm & _ & Hbad & _)|[_ ->]]; [|exact He].
    assert (Hin : bad ∈ messages) by (rewrite Hm; apply elem_of_app; right; left).
    specialize (Hall bad Hin). change (verify_dealing (H:=TinyGroup) bad tiny_config)
      with (verify_dealing (H:=TinyGroup) (H0:=BatchRejectingBackend) bad tiny_config) in Hall.
    rewrite Hall in Hbad. discriminate.
Defined.

(** C26: what a completed run hands out is consistent: the public key is the
    product of the constant-term commitments of all registered dealers, there is
    a public key share for exactly the registered participants, and the
    receiver's secret share is the discrete logarithm of its own public share. *)
Theorem complete_output_consistent `{GroupModule} `{!EvrfProofBackend} `{Sha256}
    receiver sk own peers config out :
  config_wf config → complete receiver sk own peers config = Ok out →
  ∃ all, collect_dealings (dealing_message own) peers = Ok all ∧
    BTreeMap.keys all = registry_indexes (config_registry config) ∧
    (∀ dealer message, BTreeMap.get dealer all = Some message →
       well_formed_dealing config message) ∧
    out_public_key out = msum (SM:=element_module) (λ message, public_key (msg_commitment message))
                           (BTreeMap.values all) ∧
    BTreeMap.keys (out_public_key_shares out) = registry_indexes (config_registry config) ∧
    share_participant (out_secret_share out) = receiver ∧
    BTreeMap.get receiver (out_public_key_shares out)
    = Some (mul_generator (share_value (out_secret_share out))) ∧
    out_transcript_root out = completion_root all.
Proof.
  intros Hcfg Hc. destruct (complete_run _ _ _ _ _ _ Hcfg Hc) as (all & agg & Hrun).
  pose proof (run_participant _ _ _ _ _ _ _ _ Hrun) as [Hrec Hidx].
  destruct (run_share_verifies _ _ _ _ _ _ _ _ (proj1 Hcfg) Hrun) as [Hshare _].
  exists all. split; [apply Hrun|]. split; [apply Hrun|]. split.
  { intros d m Hm. apply (verify_dealings_well_formed _ _ (run_verified _ _ _ _ _ _ _ _ Hrun)).
    apply BTreeMap.get_Some_elem in Hm. unfold BTreeMap.values.
    apply list_elem_of_fmap. by exists (d, m). }
  split; [by eapply run_public_key_sum|].
  rewrite (run_share_map _ _ _ _ _ _ _ _ Hrun), BTreeMap.keys_of_fun.
  split; [done|]. split; [done|]. split; [|apply Hrun].
  by rewrite BTreeMap.get_of_fun, decide_True, Hshare.
Qed.

Lemma complete_output_consistent_witness :
  let r := MkParticipantIndex 2 in
  complete (H:=TinyGroup) r (tiny_identity_secret r) (tiny_run_dealing r) (tiny_peers r) tiny_config
  = Ok (tiny_output r) ∧
  BTreeMap.get r (out_public_key_shares (tiny_output r))
  = Some (mul_generator (GoldenGroup:=TinyGroup) (share_value (out_secret_share (tiny_output r)))).
Proof.
  intros r. pose proof (tiny_complete_Ok r ltac:(simpl; auto)) as Hc. split; [exact Hc|].
  destruct (complete_output_consistent (H:=TinyGroup) r (tiny_identity_secret r)
    (tiny_run_dealing r) (tiny_peers r) tiny_config (tiny_output r) tiny_config_wf Hc)
    as (all & _ & _ & _ & _ & _ & _ & Hshare & _).
  exact Hshare.
Defined.

(** C2: threshold reconstruction.  The secret shares of any [threshold] or more
    participants that completed over the same dealings, at distinct points,
    reconstruct the discrete logarithm of the public key that all of them
    output; this holds for arbitrary (not only honest) dealings. *)
Theorem complete_threshold_reconstruct `{GroupModule} `{!EvrfProofBackend} `{Sha256}
    config all (outs : list DkgOutput) xs :
  config_wf config →
  Forall (λ out, ∃ receiver sk own peers,
    complete receiver sk own peers config = Ok out ∧
    collect_dealings (dealing_message own) peers = Ok all) outs →
  share_points (out_secret_share <$> outs) = Ok xs → NoDup xs →
  (config_threshold config ≤ len outs)%Z →
  ∃ secret,
    reconstruct_secret (out_secret_share <$> outs) (config_threshold config) = Ok secret ∧
    Forall (λ out, out_public_key out = mul_generator secret) outs.
Proof.
  intros Hcfg Houts Hxs Hnd Hlen. pose proof Hcfg as (Hreg & Ht & _).
  assert (Hruns : Forall (λ out, ∃ receiver sk own peers agg,
      completed_run config receiver sk own peers out all agg) outs).
  { eapply Forall_impl; [exact Houts|]. intros out (r & sk & own & peers & Hc & Hall).
    destruct (complete_run _ _ _ _ _ _ Hcfg Hc) as (all' & agg & Hrun).
    assert (all' = all) as ->; [|by eauto 6].
    pose proof (run_dealings _ _ _ _ _ _ _ _ Hrun). congruence. }
  destruct outs as [|out0 outs]; [unfold len in Hlen; simpl in Hlen; lia|].
  assert (∃ agg, Forall (λ out, ∃ receiver sk own peers,
      completed_run config receiver sk own peers out all agg) (out0 :: outs)) as [agg Hagg].
  { pose proof Hruns as [(r & sk & own & peers & agg & Hrun) _]%Forall_cons. exists agg.
    eapply Forall_impl; [exact Hruns|]. intros out (r' & sk' & own' & peers' & agg' & Hrun').
    by rewrite (run_aggregate_unique _ _ _ _ _ _ _ _ _ _ _ _ _ _ Hrun Hrun'); eauto. }
  pose proof Hagg as [(r & sk & own & peers & Hrun) _]%Forall_cons.
  destruct (accepted_reconstruct agg (out_secret_share <$> out0 :: outs) xs
    (config_threshold config)) as (secret & Hrec & Hsecret); [|done|done| | |].
  - apply Forall_fmap. eapply Forall_impl; [exact Hagg|].
    intros out (r' & sk' & own' & peers' & Hrun'). simpl.
    destruct (run_participant _ _ _ _ _ _ _ _ Hrun') as [-> Hidx].
    split; [by eapply registry_index_wf|]. by eapply run_share_verifies.
  - apply Hrun.
  - unfold len in *. by rewrite length_fmap.
  - exists secret. split; [done|]. eapply Forall_impl; [exact Hagg|].
    intros out (r' & sk' & own' & peers' & Hrun').
    by rewrite Hsecret, (run_public_key _ _ _ _ _ _ _ _ Hrun').
Qed.

Lemma complete_threshold_reconstruct_witness :
  let outs := [tiny_output (MkParticipantIndex 3); tiny_output (MkParticipantIndex 1)] in
  ∃ secret,
    reconstruct_secret (out_secret_share (H:=TinyGroup) <$> outs) 2 = Ok secret ∧
    Forall (λ out, out_public_key (H:=TinyGroup) out
                   = mul_generator (GoldenGroup:=TinyGroup) secret) outs.
Proof.
  intros outs.
  apply (complete_threshold_reconstruct (H:=TinyGroup) tiny_config tiny_all outs [tiny 3; tiny 1]
           tiny_config_wf).
  - apply Forall_cons. split; [|apply Forall_cons; split; [|apply Forall_nil; exact I]].
    + exists (MkParticipantIndex 3), (tiny 20), (tiny_run_dealing (MkParticipantIndex 3)),
        (tiny_peers (MkParticipantIndex 3)).
      split; [apply (tiny_complete_Ok (MkParticipantIndex 3))|apply tiny_collect_Ok]; simpl; auto.
    + exists (MkParticipantIndex 1), (tiny 5), (tiny_run_dealing (MkParticipantIndex 1)),
        (tiny_peers (MkParticipantIndex 1)).
      split; [apply (tiny_complete_Ok (MkParticipantIndex 1))|apply tiny_collect_Ok]; simpl; auto.
  - vm_refl.
  - apply (bool_decide_unpack _). vm_compute. exact I.
  - vm_compute. discriminate.
Defined.
