(* ===== verification/DkgAgreement.v ===== *)
(** * Agreement and completion of honest runs (dkg.rs)

    What the dealing and completion roots bind, agreement of completed runs, and
    that a run of honest dealers completes. *)

From Stdlib Require Import ZArith Lia Field Strings.Byte.
From stdpp Require Import prelude strings.
From S2P Require Import Prelude BTree CoreError Group Algebra Poly Participant Shamir Feldman.
From S2P Require Import Transcript IdentityKey Registry Statement FakeBackend Dkg DkgHonest.
From S2P Require Import DkgComplete TestSupport.

Local Open Scope golden_scope.

(** ** What the roots bind *)
Section binding.
Context `{GroupModule} `{!GroupCodec}.

(** The type invariants of a message's fields. *)
Definition message_wf (m : DealerMessage) : Prop :=
  session_wf (msg_session_id m) ∧ root_wf (msg_registry_root m) ∧
  participant_wf (msg_dealer m) ∧ nonce_wf (msg_msg_i m) ∧
  slice_ok (commitment_coefficients (msg_commitment m)) ∧
  slice_ok (msg_encrypted_shares m) ∧
  Forall participant_wf (BTreeMap.keys (msg_encrypted_shares m)) ∧
  root_wf (msg_transcript_root m).

#[export] Instance message_wf_dec m : Decision (message_wf m).
Proof. unfold message_wf. apply _. Defined.

(** The transcript behind [recompute_transcript_root]. *)
Definition message_transcript (m : DealerMessage) : TranscriptBuilder :=
  dealing_transcript (msg_session_id m) (msg_registry_root m) (msg_dealer m) (msg_msg_i m)
    (msg_commitment m) (msg_encrypted_shares m).

Definition share_item (e : ParticipantIndex * EncryptedShare) : list byte :=
  frame (bstr "encrypted-receiver") (to_be_bytes 4 (pi_get e.1))
  ++ frame (bstr "pad-commitment") (element_as_ref (encode_element (pad_commitment e.2)))
  ++ frame (bstr "encrypted-share") (repr_as_ref (to_repr (encrypted_share e.2))).

Lemma share_items_inj (es es' : EncryptedShares) :
  Forall participant_wf (BTreeMap.keys es) → Forall participant_wf (BTreeMap.keys es') →
  length es = length es' →
  concat (share_item <$> es) = concat (share_item <$> es') → es = es'.
Proof.
  intros Hes Hes' Hl Heq.
  rewrite <-(app_nil_r (concat (share_item <$> es))) in Heq.
  rewrite <-(app_nil_r (concat (share_item <$> es'))) in Heq.
  apply (items_app_inj (=)) in Heq as [Heq _]; [by apply list_eq_Forall2|clear Heq|done].
  intros [p [pc es1]] [q [qc es2]] r r' Hp Hq. unfold share_item. cbn [fst snd].
  rewrite <-!app_assoc. intros E. split_frame E. split_frame E. split_frame E.
  unfold BTreeMap.keys in *. rewrite Forall_fmap, Forall_forall in Hes, Hes'.
  specialize (Hes _ Hp). specialize (Hes' _ Hq). simpl in *.
  decode_fields. by subst.
Qed.

Lemma dealing_transcript_stream s r d m c es :
  hasher (dealing_transcript s r d m c es)
  = hasher (tb_bytes (bstr "backend") BACKEND_ID
      (tb_u32 (bstr "version") PROTOCOL_VERSION (tb_new (bstr "dealing"))))
    ++ frame (bstr "session") (session_bytes s) ++ frame (bstr "registry") r
    ++ frame (bstr "dealer") (to_be_bytes 4 (pi_get d)) ++ frame (bstr "msg-i") (nonce_bytes m)
    ++ frame (bstr "commitment-len") (to_be_bytes 8 (len (commitment_coefficients c)))
    ++ concat ((λ P, frame (bstr "commitment") (element_as_ref (encode_element P)))
                 <$> commitment_coefficients c)
    ++ frame (bstr "encrypted-shares-len") (to_be_bytes 8 (len es))
    ++ concat (share_item <$> es).
Proof.
  unfold dealing_transcript. rewrite (hasher_foldl _ share_item).
  2: { intros t [p [pc e]]. transcript_stream. unfold share_item. by rewrite <-!app_assoc. }
  transcript_stream.
  rewrite (hasher_foldl _ (λ P, frame (bstr "commitment") (element_as_ref (encode_element P)))).
  2: { intros t P. by transcript_stream. }
  transcript_stream. by rewrite <-!app_assoc.
Qed.

Lemma message_transcript_inj m m' :
  message_wf m → message_wf m' →
  hasher (message_transcript m) = hasher (message_transcript m') →
  msg_dealer m = msg_dealer m' ∧ msg_msg_i m = msg_msg_i m' ∧
  msg_commitment m = msg_commitment m' ∧ msg_encrypted_shares m = msg_encrypted_shares m' ∧
  msg_session_id m = msg_session_id m' ∧ msg_registry_root m = msg_registry_root m'.
Proof.
  intros (?&?&?&?&?&?&?&?) (?&?&?&?&?&?&?&?).
  unfold message_transcript. rewrite !dealing_transcript_stream. intros Heq%app_inv_head.
  do 5 (split_frame Heq). decode_fields.
  apply coefficients_stream_inj in Heq as [Hcs Heq]; [|done].
  split_frame Heq. decode_fields. apply share_items_inj in Heq; [|done..].
  destruct (msg_session_id m), (msg_session_id m'), (msg_msg_i m), (msg_msg_i m').
  destruct (msg_commitment m), (msg_commitment m').
  unfold commitment_coefficients in Hcs. simpl in *. by simplify_eq.
Qed.

Definition completion_item (e : ParticipantIndex * DealerMessage) : list byte :=
  frame (bstr "dealer") (to_be_bytes 4 (pi_get e.1))
  ++ frame (bstr "dealing-root") (msg_transcript_root e.2).

Lemma completion_transcript_inj ds ds' :
  Forall (λ e, participant_wf e.1 ∧ root_wf (msg_transcript_root e.2)) ds →
  Forall (λ e, participant_wf e.1 ∧ root_wf (msg_transcript_root e.2)) ds' →
  slice_ok ds → slice_ok ds' →
  hasher (completion_transcript ds) = hasher (completion_transcript ds') →
  Forall2 (λ e e', e.1 = e'.1 ∧ msg_transcript_root e.2 = msg_transcript_root e'.2) ds ds'.
Proof.
  intros Hds Hds' Hl Hl'. unfold completion_transcript.
  rewrite !(hasher_foldl _ completion_item)
    by (intros t [p m]; transcript_stream; unfold completion_item; by rewrite <-!app_assoc).
  transcript_stream. rewrite <-!app_assoc. intros Heq%app_inv_head%app_inv_head.
  split_frame Heq. decode_fields.
  rewrite <-(app_nil_r (concat (completion_item <$> ds))) in Heq.
  rewrite <-(app_nil_r (concat (completion_item <$> ds'))) in Heq.
  apply (items_app_inj (λ e e', e.1 = e'.1 ∧ msg_transcript_root e.2 = msg_transcript_root e'.2))
    in Heq as [Heq _]; [exact Heq|clear Heq|done].
  intros [p m] [q m'] r r' Hp Hq. unfold completion_item. cbn [fst snd].
  rewrite Forall_forall in Hds, Hds'. destruct (Hds _ Hp), (Hds' _ Hq). simpl in *.
  rewrite <-!app_assoc. intros E. split_frame E. split_frame E. decode_fields. done.
Qed.
End binding.

(** ** Agreement *)
Section agreement.
Context `{GroupModule} `{!GroupCodec} `{!EvrfProofBackend} `{Sha256}.

(** Everything hashed into the root of a run: the completion transcript and the
    transcripts of its dealings. *)
Definition run_transcripts (all : list (ParticipantIndex * DealerMessage)) : list (list byte) :=
  hasher (completion_transcript all)
  :: ((λ e, hasher (message_transcript (snd e))) <$> all).

Definition collision_in (ms1 ms2 : list (list byte)) : Prop :=
  ∃ m1 m2, m1 ∈ ms1 ∧ m2 ∈ ms2 ∧ m1 ≠ m2 ∧ sha256 m1 = sha256 m2.

Definition run_wf (all : list (ParticipantIndex * DealerMessage)) : Prop :=
  slice_ok all ∧ Forall (λ e, participant_wf e.1 ∧ message_wf e.2) all.

#[export] Instance run_wf_dec all : Decision (run_wf all).
Proof. unfold run_wf. apply _. Defined.

Lemma equal_roots_commitments config (all1 all2 : list (ParticipantIndex * DealerMessage)) :
  Forall (λ e, message_wf e.2 ∧ well_formed_dealing config e.2) all1 →
  Forall (λ e, message_wf e.2 ∧ well_formed_dealing config e.2) all2 →
  Forall2 (λ e e', e.1 = e'.1 ∧ msg_transcript_root e.2 = msg_transcript_root e'.2) all1 all2 →
  Forall2 (λ e e', msg_commitment e.2 = msg_commitment e'.2) all1 all2 ∨
  ∃ e1 e2, e1 ∈ all1 ∧ e2 ∈ all2 ∧
    hasher (message_transcript e1.2) ≠ hasher (message_transcript e2.2) ∧
    sha256 (hasher (message_transcript e1.2)) = sha256 (hasher (message_transcript e2.2)).
Proof.
  intros H1' H2' Hroots. induction Hroots as [|e e' all1 all2 [_ Hr] _ IH]; [left; constructor|].
  apply Forall_cons in H1' as [[Hm1 Hw1] H1'], H2' as [[Hm2 Hw2] H2'].
  destruct (IH H1' H2') as [Hcs|(e1 & e2 & Hin1 & Hin2 & Hc)].
  2: { right. exists e1, e2. split; [by right|]. split; [by right|done]. }
  destruct Hw1 as (_ & _ & _ & _ & Hr1 & _), Hw2 as (_ & _ & _ & _ & Hr2 & _).
  rewrite Hr1, Hr2 in Hr. apply tb_root_eq in Hr as [Hr|Hr].
  - left. constructor; [|done]. by apply message_transcript_inj in Hr as (_ & _ & ? & _).
  - right. exists e, e'. split; [left|]. split; [left|done].
Qed.

Lemma run_well_formed config receiver sk own peers out all agg :
  completed_run config receiver sk own peers out all agg →
  Forall (λ e, well_formed_dealing config e.2) all.
Proof.
  intros Hrun. apply Forall_forall. intros e He.
  apply (verify_dealings_well_formed _ _ (run_verified _ _ _ _ _ _ _ _ Hrun)).
  unfold BTreeMap.values. apply list_elem_of_fmap. by exists e.
Qed.

Lemma run_outputs_equal config r1 sk1 own1 peers1 out1 all1 agg1 r2 sk2 own2 peers2 out2 all2 agg2 :
  completed_run config r1 sk1 own1 peers1 out1 all1 agg1 →
  completed_run config r2 sk2 own2 peers2 out2 all2 agg2 →
  Forall2 (λ e e', msg_commitment e.2 = msg_commitment e'.2) all1 all2 →
  out_public_key out1 = out_public_key out2 ∧
  out_public_key_shares out1 = out_public_key_shares out2.
Proof.
  intros H1' H2' Hcs.
  assert (Hfold : ∀ a0, foldl (λ a message,
      zip_update gadd a (commitment_coefficients (msg_commitment message))) a0 (BTreeMap.values all1)
    = foldl (λ a message,
      zip_update gadd a (commitment_coefficients (msg_commitment message))) a0 (BTreeMap.values all2)).
  { unfold BTreeMap.values. clear -Hcs. induction Hcs as [|e e' l l' He _ IH]; intros a0; [done|].
    csimpl. by rewrite He, IH. }
  assert (agg1 = agg2) as ->.
  { destruct agg1, agg2. pose proof (run_coefficients _ _ _ _ _ _ _ _ H1') as E1.
    rewrite Hfold, <-(run_coefficients _ _ _ _ _ _ _ _ H2') in E1.
    unfold commitment_coefficients in E1. simpl in E1. by simplify_eq. }
  split.
  - by rewrite (run_public_key _ _ _ _ _ _ _ _ H1'), (run_public_key _ _ _ _ _ _ _ _ H2').
  - by rewrite (run_share_map _ _ _ _ _ _ _ _ H1'), (run_share_map _ _ _ _ _ _ _ _ H2').
Qed.
End agreement.

(** ** Runs of honest dealers *)
Section honest_run.
Context `{EvrfBackendComplete} `{Sha256} `{CryptoRngCore R}.

(** The dealing of every registered participant is an honest one. *)
Definition honest_run config (secret_key secret : ParticipantIndex → Scalar)
    (dealing : ParticipantIndex → DkgDealing) : Prop :=
  ∀ d, d ∈ registry_indexes (config_registry config) → ∃ rng rng' : R,
    create_dealing_with_secret d (secret_key d) (secret d) config rng = (Ok (dealing d), rng').

Definition peer_messages config (dealing : ParticipantIndex → DkgDealing) receiver :=
  BTreeMap.of_fun (λ d, dealing_message (dealing d)) (public_share_receivers config receiver).

Lemma collect_of_fun (f : ParticipantIndex → DealerMessage) own l :
  (∀ d, d ∈ l → msg_dealer (f d) = d ∧ d ≠ msg_dealer own) → NoDup l →
  ∃ all, collect_dealings own (BTreeMap.of_fun f l) = Ok all.
Proof.
  intros Hf Hnd. unfold collect_dealings.
  assert (Hgen : ∀ acc, (∀ d, d ∈ l → BTreeMap.get d acc = None) →
    ∃ all, fold_result collect_step acc (BTreeMap.of_fun f l) = Ok all).
  { induction Hnd as [|d l Hd Hnd IH]; intros acc Hacc; [by eexists|].
    cbn [BTreeMap.of_fun fmap list_fmap fold_result]. unfold collect_step at 2; cbv beta iota.
    rewrite (proj1 (Hf d ltac:(left))), bool_decide_eq_true_2 by done. cbn [negb].
    unfold BTreeMap.contains_key. rewrite Hacc by left. cbn [mbind result_bind].
    apply IH; [intros; apply Hf; by right|]. intros d' Hd'.
    rewrite BTreeMap.get_insert_ne by congruence. apply Hacc. by right. }
  apply Hgen. intros d Hd. apply Hf in Hd as [_ Hne].
  rewrite BTreeMap.get_insert_ne by congruence. done.
Qed.

Lemma collect_honest config secret_key secret dealing receiver :
  config_wf config → honest_run config secret_key secret dealing →
  receiver ∈ registry_indexes (config_registry config) →
  collect_dealings (dealing_message (dealing receiver)) (peer_messages config dealing receiver)
  = Ok (BTreeMap.of_fun (λ d, dealing_message (dealing d))
          (registry_indexes (config_registry config))).
Proof.
  intros Hcfg Hrun Hrec. pose proof (proj1 Hcfg) as Hreg.
  assert (Hdealer : ∀ d, d ∈ registry_indexes (config_registry config) →
      msg_dealer (dealing_message (dealing d)) = d).
  { intros d (rng & rng' & Hc)%Hrun.
    destruct (create_dealing_honest _ _ _ _ _ _ _ Hcfg Hc) as (poly & m & Hd). apply Hd. }
  destruct (collect_of_fun (λ d, dealing_message (dealing d)) (dealing_message (dealing receiver))
    (public_share_receivers config receiver)) as [all Hall].
  { intros d [Hne Hd]%elem_of_receivers. rewrite !Hdealer by done. done. }
  { by apply BTreeMap.sorted_NoDup, receivers_sorted. }
  unfold peer_messages. rewrite Hall. f_equal.
  pose proof Hall as (Hwf & Hkey & Hown)%collect_dealings_Ok.
  apply collect_fold_Ok in Hall as [_ Hget].
  - apply BTreeMap.wf_ext; [done|by apply BTreeMap.wf_of_fun, registry_sorted|].
    intros k. apply option_eq. intros m. rewrite Hget, BTreeMap.get_of_fun.
    rewrite Hdealer in * by done.
    assert (Hpeers : (k, m) ∈ BTreeMap.of_fun (λ d, dealing_message (dealing d))
        (public_share_receivers config receiver)
      ↔ m = dealing_message (dealing k) ∧ k ≠ receiver ∧
        k ∈ registry_indexes (config_registry config)).
    { unfold BTreeMap.of_fun. rewrite list_elem_of_fmap. setoid_rewrite elem_of_receivers.
      naive_solver. }
    rewrite Hpeers. destruct (decide (k = receiver)) as [->|Hne].
    + rewrite BTreeMap.get_insert_eq, decide_True by done. naive_solver.
    + rewrite BTreeMap.get_insert_ne by done. case_decide; [|naive_solver].
      split; [intros [?|[[-> _] _]]; done|]. intros [= <-]. right. by rewrite Hdealer.
  - apply BTreeMap.wf_insert, BTreeMap.wf_empty.
  - intros k m Hk. rewrite Hdealer in Hk by done. destruct (decide (k = receiver)) as [->|Hne].
    + rewrite BTreeMap.get_insert_eq in Hk. injection Hk as <-. by apply Hdealer.
    + by rewrite BTreeMap.get_insert_ne in Hk by done.
Qed.

Lemma aggregate_total receiver sk own config messages s0 a0 :
  (∀ m, m ∈ messages → ∃ sh, contribution receiver sk own config m = Ok sh) →
  ∃ s aggs, fold_result (aggregate_step receiver sk own config) (s0, a0) messages = Ok (s, aggs).
Proof.
  revert s0 a0. induction messages as [|m ms IH]; intros s0 a0 Hc; cbn [fold_result];
    [by eexists _, _|].
  rewrite aggregate_step_contribution. destruct (Hc m ltac:(left)) as [sh ->].
  cbn [mbind result_bind]. apply IH. intros; apply Hc; by right.
Qed.

Lemma honest_contribution config secret_key secret dealing receiver d :
  config_wf config → honest_run config secret_key secret dealing →
  receiver ∈ registry_indexes (config_registry config) →
  d ∈ registry_indexes (config_registry config) →
  ∃ sh, contribution receiver (secret_key receiver) (dealing receiver) config
          (dealing_message (dealing d)) = Ok sh.
Proof.
  intros Hcfg Hrun Hrec Hd.
  destruct (Hrun receiver Hrec) as (rng1 & rng2 & Hc1).
  destruct (create_dealing_honest _ _ _ _ _ _ _ Hcfg Hc1) as (poly1 & m1 & Hd1).
  destruct (Hrun d Hd) as (rng3 & rng4 & Hc2).
  destruct (create_dealing_honest _ _ _ _ _ _ _ Hcfg Hc2) as (poly2 & m2 & Hd2).
  exists (MkShare receiver (share_at poly2 receiver)). unfold contribution.
  rewrite (honest_dealer _ _ _ _ _ _ _ Hd2).
  assert (Hv : verify_share (msg_commitment (dealing_message (dealing d)))
      (MkShare receiver (share_at poly2 receiver)) = Ok true).
  { unfold verify_share. cbn [share_participant share_value].
    rewrite (commit_public_key_share poly2 _ receiver (MkShare receiver (share_at poly2 receiver))).
    - cbn [mbind result_bind share_value]. by rewrite bool_decide_eq_true_2.
    - eapply registry_index_wf; [apply Hcfg|done].
    - apply Hd2.
    - by apply Hd2. }
  case_bool_decide as Hdr; cbn [mbind result_bind].
  - subst d.
    rewrite (honest_private _ _ _ _ _ _ _ Hd2). by rewrite Hv.
  - rewrite (honest_decrypts _ _ _ _ _ _ _ receiver (secret_key receiver) Hd2);
      [|done|apply Hd1]. cbn [mbind result_bind]. by rewrite Hv.
Qed.

(** All messages of an honest run. *)
Definition run_messages config (dealing : ParticipantIndex → DkgDealing) :=
  BTreeMap.of_fun (λ d, dealing_message (dealing d)) (registry_indexes (config_registry config)).

Lemma elem_of_run_messages config dealing m :
  m ∈ BTreeMap.values (run_messages config dealing) ↔
  ∃ d, d ∈ registry_indexes (config_registry config) ∧ m = dealing_message (dealing d).
Proof.
  unfold BTreeMap.values, run_messages, BTreeMap.of_fun. rewrite <-list_fmap_compose.
  rewrite list_elem_of_fmap. naive_solver.
Qed.

Lemma honest_messages_verify config secret_key secret dealing receiver :
  config_wf config → honest_run config secret_key secret dealing →
  receiver ∈ registry_indexes (config_registry config) →
  verify_dealings (BTreeMap.values (run_messages config dealing)) config = Ok ().
Proof.
  intros Hcfg Hrun Hrec. apply verify_dealings_all; [apply Hcfg| |].
  - intros Hnil. eapply (elem_of_nil (dealing_message (dealing receiver))).
    rewrite <-Hnil. apply elem_of_run_messages. by exists receiver.
  - intros m (d & Hd & ->)%elem_of_run_messages. destruct (Hrun d Hd) as (r3 & r4 & Hc2).
    destruct (create_dealing_honest _ _ _ _ _ _ _ Hcfg Hc2) as (poly2 & m2 & Hd2).
    by eapply honest_verifies.
Qed.

Lemma honest_aggregate config secret_key secret dealing receiver :
  config_wf config → honest_run config secret_key secret dealing →
  receiver ∈ registry_indexes (config_registry config) →
  ∃ s a0 aggs,
    aggregate_dealings receiver (secret_key receiver) (dealing receiver) config
      (BTreeMap.values (run_messages config dealing)) = Ok (s, a0 :: aggs).
Proof.
  intros Hcfg Hrun Hrec. pose proof Hcfg as (Hreg & Ht & _).
  destruct (aggregate_total receiver (secret_key receiver) (dealing receiver) config
    (BTreeMap.values (run_messages config dealing)) szero
    (replicate (Z.to_nat (config_threshold config)) identity)) as (s & aggs & Hagg).
  { intros m (d & Hd & ->)%elem_of_run_messages. by eapply honest_contribution. }
  pose proof (aggregate_contributions _ _ _ _ _ _ _ _ _ Hagg) as (shs & _ & _ & Haggs).
  destruct (aggregate_meval (BTreeMap.values (run_messages config dealing))
    (replicate (Z.to_nat (config_threshold config)) identity)) as [Hlen _].
  { intros m Hm. pose proof (honest_messages_verify _ _ _ _ _ Hcfg Hrun Hrec) as Hver.
    apply (verify_dealings_well_formed _ _ Hver) in Hm as (_ & _ & _ & Hl & _).
    rewrite length_replicate. unfold len in Hl. lia. }
  rewrite <-Haggs, length_replicate in Hlen.
  destruct aggs as [|a0 aggs]; [simpl in Hlen; lia|]. by exists s, a0, aggs.
Qed.

(** The forward run of [complete], step by step. *)
Lemma honest_complete config secret_key secret dealing receiver :
  config_wf config → honest_run config secret_key secret dealing →
  receiver ∈ registry_indexes (config_registry config) →
  ∃ out, complete receiver (secret_key receiver) (dealing receiver)
           (peer_messages config dealing receiver) config = Ok out.
Proof.
  intros Hcfg Hrun Hrec. pose proof Hcfg as (Hreg & Ht & _).
  destruct (Hrun receiver Hrec) as (rng1 & rng2 & Hc1).
  destruct (create_dealing_honest _ _ _ _ _ _ _ Hcfg Hc1) as (poly1 & m1 & Hd1).
  destruct (honest_aggregate _ _ _ _ _ Hcfg Hrun Hrec) as (s & a0 & aggs & Hagg).
  destruct (fold_result_total (public_key_share (MkFeldmanCommitment a0 aggs))
    (λ m p P, BTreeMap.insert p P m) BTreeMap.empty (registry_indexes (config_registry config)))
    as [pks Hpks].
  { intros p Hp. pose proof (honest_shares _ _ _ _ _ _ _ Hd1 p Hp) as [_ Hev]%evaluate_Ok.
    apply bind_Ok in Hev as (x & Hx & _). unfold public_key_share. rewrite Hx. by eexists. }
  unfold complete. rewrite (honest_key _ _ _ _ _ _ _ Hd1). cbn [mbind result_bind].
  rewrite bool_decide_eq_true_2 by done. cbn [negb].
  rewrite (honest_dealer _ _ _ _ _ _ _ Hd1), bool_decide_eq_true_2 by done. cbn [negb].
  rewrite (honest_private _ _ _ _ _ _ _ Hd1), bool_decide_eq_true_2 by done. cbn [negb].
  rewrite (collect_honest config secret_key secret) by done.
  fold (run_messages config dealing). cbn [mbind result_bind].
  pose proof (BTreeMap.traverse_get_keys (λ d, MissingDealing (pi_get d))
    (run_messages config dealing)) as Htr.
  unfold run_messages at 3 in Htr. rewrite BTreeMap.keys_of_fun in Htr.
  rewrite Htr by by apply BTreeMap.wf_of_fun, registry_sorted. cbn [mbind result_bind].
  rewrite (honest_messages_verify config secret_key secret dealing receiver) by done.
  cbn [mbind result_bind]. rewrite Hagg.
  cbn [mbind result_bind FeldmanCommitment_from_coefficients].
  cbv beta in Hpks. rewrite Hpks. by eexists.
Qed.

Lemma honest_public_key config dealer sk secret d poly m :
  honest_dealing (R:=R) config dealer sk secret d poly m →
  public_key (msg_commitment (dealing_message d)) = mul_generator secret.
Proof.
  intros Hd. pose proof (honest_commit _ _ _ _ _ _ _ Hd) as Hc%commit_Ok.
  pose proof (honest_secret _ _ _ _ _ _ _ Hd) as Hs.
  destruct (coefficients poly) as [|c cs]; [done|]. injection Hs as ->.
  unfold commitment_coefficients in Hc. simpl in Hc. by simplify_eq.
Qed.
End honest_run.

(** ** Properties *)

(** C3: agreement.  Two participants that completed, over whatever dealings they
    received, and whose transcript roots are equal, output the same public key
    and the same public key shares; otherwise the transcripts behind the two
    roots contain an explicit SHA-256 collision. *)
Theorem complete_agreement `{GroupModule} `{!GroupCodec} `{!EvrfProofBackend} `{Sha256} config
    r1 sk1 own1 peers1 out1 all1 r2 sk2 own2 peers2 out2 all2 :
  config_wf config → run_wf all1 → run_wf all2 →
  complete r1 sk1 own1 peers1 config = Ok out1 →
  complete r2 sk2 own2 peers2 config = Ok out2 →
  collect_dealings (dealing_message own1) peers1 = Ok all1 →
  collect_dealings (dealing_message own2) peers2 = Ok all2 →
  out_transcript_root out1 = out_transcript_root out2 →
  (out_public_key out1 = out_public_key out2 ∧
   out_public_key_shares out1 = out_public_key_shares out2) ∨
  collision_in (run_transcripts all1) (run_transcripts all2).
Proof.
  intros Hcfg [Hl1 Hw1] [Hl2 Hw2] Hc1 Hc2 Ha1 Ha2 Hroot.
  destruct (complete_run _ _ _ _ _ _ Hcfg Hc1) as (a1 & agg1 & Hr1).
  destruct (complete_run _ _ _ _ _ _ Hcfg Hc2) as (a2 & agg2 & Hr2).
  assert (a1 = all1) as -> by (pose proof (run_dealings _ _ _ _ _ _ _ _ Hr1); congruence).
  assert (a2 = all2) as -> by (pose proof (run_dealings _ _ _ _ _ _ _ _ Hr2); congruence).
  rewrite (run_root _ _ _ _ _ _ _ _ Hr1), (run_root _ _ _ _ _ _ _ _ Hr2) in Hroot.
  apply tb_root_eq in Hroot as [Heq|[Hne Hsha]].
  2: { right. eexists _, _. split; [left|]. split; [left|done]. }
  assert (Hroots : ∀ all, Forall (λ e, participant_wf e.1 ∧ message_wf e.2) all →
    Forall (λ e, participant_wf e.1 ∧ root_wf (msg_transcript_root e.2)) all).
  { intros all Hall. eapply Forall_impl; [exact Hall|]. intros e [Hp Hm]. split; [done|apply Hm]. }
  apply completion_transcript_inj in Heq; [|by auto..].
  destruct (equal_roots_commitments config all1 all2) as [Hcs|(e1 & e2 & Hin1 & Hin2 & Hc)];
    [..|done| |].
  - apply Forall_and. split; [|by eapply run_well_formed].
    eapply Forall_impl; [exact Hw1|]. by intros e [_ ?].
  - apply Forall_and. split; [|by eapply run_well_formed].
    eapply Forall_impl; [exact Hw2|]. by intros e [_ ?].
  - left. by eapply run_outputs_equal.
  - right. eexists _, _. split; [right; apply list_elem_of_fmap; by exists e1|].
    split; [right; apply list_elem_of_fmap; by exists e2|done].
Qed.

(** The hypotheses of the agreement theorem at the concrete run. *)
Lemma tiny_run_wf : run_wf (H:=TinyGroup) tiny_all.
Proof. apply (bool_decide_unpack _). vm_compute. exact I. Qed.

Lemma tiny_roots_equal p q :
  In p (registry_indexes (H:=TinyGroup) tiny_registry) →
  In q (registry_indexes (H:=TinyGroup) tiny_registry) →
  out_transcript_root (tiny_output p) = out_transcript_root (tiny_output q).
Proof. simpl. intros [<-|[<-|[<-|[]]]] [<-|[<-|[<-|[]]]]; vm_refl. Qed.

Lemma complete_agreement_witness :
  (out_public_key (tiny_output (MkParticipantIndex 1))
     = out_public_key (tiny_output (MkParticipantIndex 3)) ∧
   out_public_key_shares (tiny_output (MkParticipantIndex 1))
     = out_public_key_shares (tiny_output (MkParticipantIndex 3))) ∨
  collision_in (run_transcripts tiny_all) (run_transcripts tiny_all).
Proof.
  assert (Hp : In (MkParticipantIndex 1) (registry_indexes (H:=TinyGroup) tiny_registry))
    by (simpl; auto).
  assert (Hq : In (MkParticipantIndex 3) (registry_indexes (H:=TinyGroup) tiny_registry))
    by (simpl; auto).
  exact (complete_agreement (H:=TinyGroup) tiny_config
    (MkParticipantIndex 1) (tiny_identity_secret (MkParticipantIndex 1))
    (tiny_run_dealing (MkParticipantIndex 1)) (tiny_peers (MkParticipantIndex 1))
    (tiny_output (MkParticipantIndex 1)) tiny_all
    (MkParticipantIndex 3) (tiny_identity_secret (MkParticipantIndex 3))
    (tiny_run_dealing (MkParticipantIndex 3)) (tiny_peers (MkParticipantIndex 3))
    (tiny_output (MkParticipantIndex 3)) tiny_all
    tiny_config_wf tiny_run_wf tiny_run_wf (tiny_complete_Ok _ Hp) (tiny_complete_Ok _ Hq)
    (tiny_collect_Ok _ Hp) (tiny_collect_Ok _ Hq) (tiny_roots_equal _ _ Hp Hq)).
Defined.

(** C4: liveness of honest runs.  When every registered participant's dealing is
    one [create_dealing_with_secret] returned, every participant completes with
    the others' messages; the public key is the generator times the sum of the
    dealers' secrets, and every participant gets the same one. *)
Theorem honest_run_completes {R} `{EvrfBackendComplete} `{Sha256} `{CryptoRngCore R}
    config secret_key secret dealing receiver :
  config_wf config → honest_run (R:=R) config secret_key secret dealing →
  receiver ∈ registry_indexes (config_registry config) →
  ∃ out,
    complete receiver (secret_key receiver) (dealing receiver)
      (peer_messages config dealing receiver) config = Ok out ∧
    out_public_key out = mul_generator (msum (SM:=scalar_module Scalar) secret
                                          (registry_indexes (config_registry config))).
Proof.
  intros Hcfg Hrun Hrec. destruct (honest_complete _ _ _ _ _ Hcfg Hrun Hrec) as [out Hout].
  exists out. split; [done|].
  destruct (complete_run _ _ _ _ _ _ Hcfg Hout) as (all & agg & Hr).
  rewrite (run_public_key_sum _ _ _ _ _ _ _ _ Hr).
  pose proof (run_dealings _ _ _ _ _ _ _ _ Hr) as Hall.
  rewrite (collect_honest config secret_key secret) in Hall by done. injection Hall as <-.
  unfold BTreeMap.values, BTreeMap.of_fun. rewrite <-list_fmap_compose, msum_fmap.
  rewrite (msum_linear (SModule0:=scalar_module Scalar) (SModule1:=element_module) mul_generator);
    [|exact mul_generator_0|exact mul_generator_add].
  apply msum_ext. intros d (rng & rng' & Hc)%Hrun. simpl.
  destruct (create_dealing_honest _ _ _ _ _ _ _ Hcfg Hc) as (poly & m & Hd).
  by eapply honest_public_key.
Qed.

Lemma honest_run_completes_witness :
  let secret p := tiny (10 * pi_get p) in
  honest_run (H:=TinyGroup) (R:=Z) tiny_config tiny_identity_secret secret tiny_run_dealing ∧
  ∃ out,
    complete (H:=TinyGroup) (MkParticipantIndex 2) (tiny 11)
      (tiny_run_dealing (MkParticipantIndex 2))
      (peer_messages (H:=TinyGroup) tiny_config tiny_run_dealing (MkParticipantIndex 2))
      tiny_config = Ok out ∧
    out_public_key out = mul_generator (GoldenGroup:=TinyGroup)
      (msum (SM:=scalar_module TinyScalar) secret (MkParticipantIndex <$> [1; 2; 3]%Z)).
Proof.
  intros secret.
  assert (Hrun : honest_run (H:=TinyGroup) (R:=Z) tiny_config tiny_identity_secret secret
                   tiny_run_dealing).
  { intros d Hd. exists (pi_get d), (tiny_create (pi_get d) (secret d) (pi_get d)).2.
    apply list_elem_of_In in Hd. simpl in Hd.
    destruct Hd as [<-|[<-|[<-|[]]]]; vm_refl. }
  split; [exact Hrun|].
  apply (honest_run_completes (H:=TinyGroup) tiny_config tiny_identity_secret secret
           tiny_run_dealing (MkParticipantIndex 2) tiny_config_wf Hrun).
  apply list_elem_of_In. simpl. auto.
Defined.
