(* ===== verification/Ehtdh1Context.v ===== *)
(** * Setup data of the threshold encryption (golden-ehtdh1/context.rs)

    Public key sets and their validation by interpolation in the exponent, the
    setup context and its root, the session derived for the zero sharing, and
    the error types. *)

From Stdlib Require Import ZArith Lia Field Strings.Byte.
From stdpp Require Import prelude strings.
From S2P Require Import Prelude BTree CoreError Group Algebra Poly Participant Shamir Transcript.
From S2P Require Import Registry TestSupport.

Local Open Scope golden_scope.

Definition TRANSCRIPT_PREFIX : list byte := bstr "golden-ehtdh1-v1".

(** The error types.  Their constructors share names with those of the core's. *)
Module Eh.
Inductive Error : Type :=
| InvalidThreshold
| InvalidEncoding
| ScalarDerivationFailed
| InvalidCiphertextProof
| AssociatedDataMismatch
| InvalidJointPublicKey
| InvalidPublicKeySet
| InvalidShareProof
| UnknownParticipant (participant : Z)
| DuplicateParticipant (participant : Z)
| InvalidBridge (reason : string)
| Golden (error : CoreError).

Inductive CombineError : Type :=
| Ciphertext (error : Error)
| InsufficientShares (required provided : Z)
| MalformedShares (participants : list Z).

#[export] Instance Error_eq_dec : EqDecision Error.
Proof. solve_decision. Defined.
#[export] Instance CombineError_eq_dec : EqDecision CombineError.
Proof. solve_decision. Defined.
End Eh.
#[export] Existing Instance Eh.Error_eq_dec.
#[export] Existing Instance Eh.CombineError_eq_dec.

Abbreviation EhResult A := (result Eh.Error A).

(** [#[from] golden_core::Error]: the conversion of [?]. *)
Definition golden {A} (r : Result A) : EhResult A := map_err Eh.Golden r.

Record PublicShare `{GoldenGroup} := MkPublicShare {
  ps_decryption : Element;
  ps_context : Element;
}.
Arguments MkPublicShare {_} _ _.

Record SecretShare `{GoldenGroup} := MkSecretShare {
  ss_participant : ParticipantIndex;
  ss_decryption : Scalar;
  ss_context : Scalar;
}.
Arguments MkSecretShare {_} _ _ _.

Abbreviation PublicShares := (list (ParticipantIndex * PublicShare)).

Record PublicKeySet `{GoldenGroup} := MkPublicKeySet {
  pks_threshold : Z;
  pks_joint_public_key : Element;
  pks_public_shares : PublicShares;
}.
Arguments MkPublicKeySet {_} _ _ _.

Record SetupContext := MkSetupContext {
  sc_backend_id : list byte;
  sc_threshold : Z;
  sc_registry_root : TranscriptRoot;
  sc_participants : list ParticipantIndex;
  sc_decryption_session_id : SessionId;
  sc_context_session_id : SessionId;
  sc_decryption_transcript_root : TranscriptRoot;
  sc_context_transcript_root : TranscriptRoot;
  sc_epoch : list byte;
}.

Section root.
Context `{Sha256}.

(** The transcript of [SetupContext::root], before it is hashed. *)
Definition setup_transcript (s : SetupContext) : TranscriptBuilder :=
  let transcript := tb_with_prefix TRANSCRIPT_PREFIX (bstr "setup-context") in
  let transcript := tb_bytes (bstr "backend") (sc_backend_id s) transcript in
  let transcript := tb_usize (bstr "threshold") (sc_threshold s) transcript in
  let transcript := tb_bytes (bstr "registry-root") (sc_registry_root s) transcript in
  let transcript := tb_usize (bstr "participants-len") (len (sc_participants s)) transcript in
  let transcript :=
    foldl (λ transcript participant, tb_participant (bstr "participant") participant transcript)
          transcript (sc_participants s) in
  let transcript :=
    tb_bytes (bstr "decryption-session") (session_bytes (sc_decryption_session_id s)) transcript in
  let transcript :=
    tb_bytes (bstr "context-session") (session_bytes (sc_context_session_id s)) transcript in
  let transcript :=
    tb_bytes (bstr "decryption-transcript-root") (sc_decryption_transcript_root s) transcript in
  let transcript :=
    tb_bytes (bstr "context-transcript-root") (sc_context_transcript_root s) transcript in
  tb_bytes (bstr "epoch") (sc_epoch s) transcript.

Definition setup_root (s : SetupContext) : TranscriptRoot := tb_root (setup_transcript s).

Definition derive_context_session_id (decryption_session_id : SessionId) : SessionId :=
  let transcript := tb_with_prefix TRANSCRIPT_PREFIX (bstr "context-session") in
  let transcript := tb_bytes (bstr "label") (bstr "zero-sharing") transcript in
  let transcript :=
    tb_bytes (bstr "decryption-session") (session_bytes decryption_session_id) transcript in
  MkSessionId (tb_root transcript).

Definition hash_to_nonzero_scalar `{GoldenGroup} (domain message : list byte) : EhResult Scalar :=
  map_err (λ _, Eh.ScalarDerivationFailed) (hash_to_scalar domain message).
End root.

Section interpolate.
Context `{GoldenGroup}.

Definition lagrange_at (participant : ParticipantIndex) (participants : list ParticipantIndex)
    (x : Scalar) : EhResult Scalar :=
  i ← golden (to_scalar (F:=Scalar) participant);
  '(numerator, denominator) ←
    fold_result
      (λ '(numerator, denominator) other,
         if bool_decide (other = participant) then Ok (numerator, denominator)
         else
           j ← golden (to_scalar (F:=Scalar) other);
           Ok (numerator * (x - j), denominator * (i - j)))
      (sone, sone) participants;
  inverse ← ok_or Eh.InvalidThreshold (sinvert denominator);
  Ok (numerator * inverse).

Definition interpolate_public_key_share (participants : list ParticipantIndex) (x : Scalar)
    (select : PublicShare → Element) (public_shares : PublicShares) : EhResult Element :=
  fold_result
    (λ point participant,
       lambda ← lagrange_at participant participants x;
       public_share ← ok_or (Eh.UnknownParticipant (pi_get participant))
                        (BTreeMap.get participant public_shares);
       Ok (point ⊞ select public_share ⊠ lambda))
    identity participants.

Definition validate_public_shares (threshold : Z) (joint_public_key : Element)
    (public_shares : PublicShares) : EhResult unit :=
  let participants := BTreeMap.keys public_shares in
  let basis := take (Z.to_nat threshold) participants in
  decryption ← interpolate_public_key_share basis szero ps_decryption public_shares;
  if negb (bool_decide (decryption = joint_public_key)) then Err Eh.InvalidPublicKeySet
  else
    context ← interpolate_public_key_share basis szero ps_context public_shares;
    if negb (is_identity context) then Err Eh.InvalidPublicKeySet
    else
      for_each
        (λ participant,
           x ← golden (to_scalar (F:=Scalar) participant);
           expected_decryption ← interpolate_public_key_share basis x ps_decryption public_shares;
           expected_context ← interpolate_public_key_share basis x ps_context public_shares;
           public_share ← ok_or (Eh.UnknownParticipant (pi_get participant))
                            (BTreeMap.get participant public_shares);
           reject_if (negb (bool_decide (expected_decryption = ps_decryption public_share))
                      || negb (bool_decide (expected_context = ps_context public_share)))
                     Eh.InvalidPublicKeySet)
        (drop (Z.to_nat threshold) participants).

Definition PublicKeySet_new (threshold : Z) (joint_public_key : Element)
    (public_shares : PublicShares) : EhResult PublicKeySet :=
  if (threshold =? 0)%Z || (len public_shares <? threshold)%Z then Err Eh.InvalidThreshold
  else if is_identity joint_public_key then Err Eh.InvalidJointPublicKey
  else
    _ ← validate_public_shares threshold joint_public_key public_shares;
    Ok (MkPublicKeySet threshold joint_public_key public_shares).

Definition public_share (keys : PublicKeySet) (participant : ParticipantIndex)
    : option PublicShare := BTreeMap.get participant (pks_public_shares keys).
End interpolate.

(** ** Interpolation in the exponent *)
Section lemmas.
Context `{GroupModule}.
Implicit Types (ps : list ParticipantIndex) (xs : list Scalar) (shs : PublicShares).
Add Field ehtdh1_field : (scalar_field_theory (F:=Scalar)).

(** The distinct interpolation points of participants. *)
Definition points (ps : list ParticipantIndex) (xs : list Scalar) : Prop :=
  Forall2 (λ p x, to_scalar (F:=Scalar) p = Ok x) ps xs ∧ NoDup xs.

Lemma points_NoDup ps xs : points ps xs → NoDup ps.
Proof.
  intros [Hf Hnd]. induction Hf as [|p x ps xs Hp Hps IH]; [constructor|].
  apply NoDup_cons in Hnd as [Hx Hnd]. constructor; [|auto].
  intros Hin. apply Hx. apply list_elem_of_lookup in Hin as [i Hi].
  destruct (Forall2_lookup_l _ _ _ _ _ Hps Hi) as (y & Hy & Hpy).
  assert (y = x) as -> by congruence. by eapply list_elem_of_lookup_2.
Qed.

Lemma points_take n ps xs : points ps xs → points (take n ps) (take n xs).
Proof.
  intros [Hf Hnd]. split; [by apply Forall2_take|]. rewrite <-(take_drop n xs) in Hnd.
  by apply NoDup_app in Hnd as [? _].
Qed.

Lemma points_elem ps xs p : points ps xs → p ∈ ps → ∃ x, x ∈ xs ∧ to_scalar p = Ok x.
Proof.
  intros [Hf _] Hin. apply list_elem_of_lookup in Hin as [i Hi].
  destruct (Forall2_lookup_l _ _ _ _ _ Hf Hi) as (x & Hx & Hpx).
  exists x. split; [by eapply list_elem_of_lookup_2|done].
Qed.

Lemma points_inj ps xs p q (x : Scalar) :
  points ps xs → p ∈ ps → q ∈ ps → to_scalar p = Ok x → to_scalar q = Ok x → p = q.
Proof.
  intros [Hf Hnd] Hp Hq Hpx Hqx. apply list_elem_of_lookup in Hq as [a Ha], Hp as [b Hb].
  destruct (Forall2_lookup_l _ _ _ _ _ Hf Ha) as (? & Hxa & Ea).
  destruct (Forall2_lookup_l _ _ _ _ _ Hf Hb) as (? & Hxb & Eb).
  rewrite Hqx in Ea. rewrite Hpx in Eb. injection Ea as <-. injection Eb as <-.
  assert (a = b) as -> by (by eapply NoDup_lookup). congruence.
Qed.

Lemma lagrange_at_loop p i x ps xs n d :
  Forall2 (λ p x, to_scalar (F:=Scalar) p = Ok x) ps xs →
  (∀ q y, q ∈ ps → to_scalar q = Ok y → q = p ↔ y = i) →
  fold_result
    (λ '(numerator, denominator) other,
       if bool_decide (other = p) then Ok (numerator, denominator)
       else
         j ← golden (to_scalar (F:=Scalar) other);
         Ok (numerator * (x - j), denominator * (i - j)))
    (n, d) ps = Ok (n * lnum xs i x, d * lnum xs i i).
Proof.
  intros Hf. revert n d. induction Hf as [|q y ps xs Hq Hps IH]; intros n d Hinj; cbn [fold_result].
  - simpl. do 2 f_equal; ring.
  - simpl. assert (Hy : q = p ↔ y = i) by (apply Hinj; [left|done]).
    assert (Hrest : ∀ q y, q ∈ ps → to_scalar q = Ok y → q = p ↔ y = i).
    { intros; apply Hinj; [by right|done]. }
    case_bool_decide as Hqp; cbn [mbind result_bind].
    + rewrite IH by done. rewrite decide_True by (by apply Hy). by rewrite decide_True by (by apply Hy).
    + rewrite Hq. cbn [golden map_err mbind result_bind]. rewrite IH by done.
      rewrite !decide_False by (intros E; by apply Hqp, Hy). do 2 f_equal; ring.
Qed.

Lemma lagrange_at_lbasis ps xs p i x :
  points ps xs → p ∈ ps → to_scalar p = Ok i →
  lagrange_at p ps x = Ok (lbasis xs i x).
Proof.
  intros Hpts Hp Hi. unfold lagrange_at. rewrite Hi. cbn [golden map_err mbind result_bind].
  rewrite (lagrange_at_loop p i x ps xs).
  - cbn [mbind result_bind]. unfold lbasis.
    rewrite sinvert_sinv; [cbn [ok_or mbind result_bind]; do 2 f_equal; [ring|f_equal; ring]|].
    pose proof (lnum_nonzero xs i). replace (1 * lnum xs i i) with (lnum xs i i) by ring. done.
  - apply Hpts.
  - intros q y Hq Hy. split; [intros ->; congruence|]. intros ->. by eapply points_inj.
Qed.

Abbreviation geval := (meval (H0:=element_module)).

(** [v] gives the selected component of every basis participant by its point. *)
Lemma interpolate_msum ps xs x select shs (v : Scalar → Element) :
  points ps xs →
  (∀ p i, p ∈ ps → to_scalar p = Ok i →
     ∃ sh, BTreeMap.get p shs = Some sh ∧ select sh = v i) →
  interpolate_public_key_share ps x select shs
  = Ok (msum (SM:=element_module) (λ i, v i ⊠ lbasis xs i x) xs).
Proof.
  intros Hpts Hv. unfold interpolate_public_key_share.
  assert (Hloop : ∀ ps' xs' acc,
    Forall2 (λ p x, to_scalar (F:=Scalar) p = Ok x) ps' xs' → ps' ⊆ ps →
    fold_result
      (λ point participant,
         lambda ← lagrange_at participant ps x;
         public_share ← ok_or (Eh.UnknownParticipant (pi_get participant))
                          (BTreeMap.get participant shs);
         Ok (point ⊞ select public_share ⊠ lambda))
      acc ps' = Ok (acc ⊞ msum (SM:=element_module) (λ i, v i ⊠ lbasis xs i x) xs')).
  { intros ps' xs' acc Hf. revert acc.
    induction Hf as [|p i ps' xs' Hp Hps IH]; intros acc Hsub; cbn [fold_result].
    - simpl. by rewrite gadd_id_r.
    - assert (Hin : p ∈ ps) by (apply Hsub; left).
      rewrite (lagrange_at_lbasis ps xs p i) by done. cbn [mbind result_bind].
      destruct (Hv p i Hin Hp) as (sh & Hg & Hs). rewrite Hg. cbn [ok_or mbind result_bind].
      rewrite Hs, IH by set_solver. simpl. by rewrite gadd_assoc. }
  rewrite (Hloop ps xs); [by rewrite gadd_id_l|apply Hpts|done].
Qed.

(** The selected components lie on the polynomial [Cs] in the exponent. *)
Definition shares_on (Cs : list Element) (select : PublicShare → Element) shs : Prop :=
  ∀ p sh x, (p, sh) ∈ shs → to_scalar p = Ok x → select sh = geval Cs x.

Lemma in_keys_get shs p :
  BTreeMap.wf shs → p ∈ BTreeMap.keys shs → ∃ sh, BTreeMap.get p shs = Some sh ∧ (p, sh) ∈ shs.
Proof.
  intros Hwf [sh Hsh]%BTreeMap.get_is_Some. exists sh. split; [done|].
  by apply BTreeMap.get_Some.
Qed.

Lemma interpolate_meval shs n xs select Cs x :
  BTreeMap.wf shs → points (BTreeMap.keys shs) xs → length Cs = n → (n ≤ length shs)%nat →
  shares_on Cs select shs →
  interpolate_public_key_share (take n (BTreeMap.keys shs)) x select shs = Ok (geval Cs x).
Proof.
  intros Hwf Hpts Hlen Hn Hon. pose proof (points_take n _ _ Hpts) as Hpts'.
  rewrite (interpolate_msum _ _ _ _ _ (geval Cs) Hpts').
  - f_equal. apply (lagrange_meval (SM:=element_module)); [apply Hpts'|].
    rewrite length_take. destruct Hpts as [Hf%Forall2_length _].
    unfold BTreeMap.keys in Hf. rewrite length_fmap in Hf. lia.
  - intros p i Hp%elem_of_take Hi. destruct Hp as (j & Hp & _).
    apply list_elem_of_lookup_2, in_keys_get in Hp as (sh & Hsh & Hin); [|done].
    exists sh. split; [done|]. by eapply Hon.
Qed.

(** The component of the participant with interpolation point [x]. *)
Definition value_at (select : PublicShare → Element) shs (x : Scalar) : Element :=
  match List.find (λ e, match to_scalar e.1 with Ok y => bool_decide (y = x) | Err _ => false end) shs with
  | Some e => select e.2
  | None => identity
  end.

Lemma value_at_spec select shs xs p sh x :
  points (BTreeMap.keys shs) xs → (p, sh) ∈ shs → to_scalar p = Ok x →
  value_at select shs x = select sh.
Proof.
  unfold value_at, BTreeMap.keys. revert xs. induction shs as [|[q sq] shs IH]; intros xs Hpts Hin Hx.
  { by apply elem_of_nil in Hin. }
  simpl. destruct Hpts as [Hf Hnd]. inversion Hf as [|? y ? ys Hq Hqs]; subst.
  simpl in Hq. rewrite Hq. apply NoDup_cons in Hnd as [Hy Hnd].
  apply elem_of_cons in Hin as [[= -> ->]|Hin].
  - rewrite Hq in Hx. injection Hx as ->. by rewrite bool_decide_eq_true_2.
  - rewrite bool_decide_eq_false_2; [by eapply IH|]. intros ->. apply Hy.
    destruct (points_elem shs.*1 ys p) as (x' & Hx' & E); [done| |congruence].
    apply list_elem_of_fmap. by exists (p, sh).
Qed.

Lemma interpolate_exists shs n xs select :
  BTreeMap.wf shs → points (BTreeMap.keys shs) xs → (n ≤ length shs)%nat →
  ∃ Cs, length Cs = n ∧
    (∀ x, interpolate_public_key_share (take n (BTreeMap.keys shs)) x select shs
          = Ok (geval Cs x)) ∧
    ∀ p sh x, p ∈ take n (BTreeMap.keys shs) → (p, sh) ∈ shs → to_scalar p = Ok x →
      select sh = geval Cs x.
Proof.
  intros Hwf Hpts Hn. pose proof (points_take n _ _ Hpts) as Hpts'.
  destruct (lagrange_exists (SM:=element_module) (take n xs) (value_at select shs)) as (Cs & Hlen & Hev);
    [apply Hpts'|].
  exists Cs. split; [|split].
  - rewrite Hlen, length_take. destruct Hpts as [Hf%Forall2_length _].
    unfold BTreeMap.keys in Hf. rewrite length_fmap in Hf. lia.
  - intros x. rewrite (interpolate_msum _ _ _ _ _ (value_at select shs) Hpts').
    + f_equal. symmetry. apply Hev.
    + intros p i Hp%elem_of_take Hi. destruct Hp as (j & Hp & _).
      apply list_elem_of_lookup_2, in_keys_get in Hp as (sh & Hsh & Hin); [|done].
      exists sh. split; [done|]. symmetry. by eapply value_at_spec.
  - intros p sh x Hp Hin Hx. rewrite Hev.
    destruct (points_elem _ _ _ Hpts' Hp) as (x' & Hx' & E).
    assert (x' = x) as -> by congruence.
    rewrite (msum_single (SM:=element_module) _ _ x).
    + simpl. rewrite lbasis_same, gmul_1. symmetry. by eapply value_at_spec.
    + apply Hpts'.
    + done.
    + intros y Hy Hne. simpl. rewrite lbasis_other by done. apply gmul_0.
Qed.

(** The shares are those of polynomials below the threshold degree, with the
    joint key and the identity at zero. *)
Definition consistent (threshold : Z) (joint_public_key : Element) shs : Prop :=
  ∃ Cs Ds, length Cs = Z.to_nat threshold ∧ length Ds = Z.to_nat threshold ∧
    geval Cs szero = joint_public_key ∧ geval Ds szero = identity ∧
    shares_on Cs ps_decryption shs ∧ shares_on Ds ps_context shs.

Lemma validate_spec threshold X shs xs :
  BTreeMap.wf shs → points (BTreeMap.keys shs) xs → (threshold ≤ len shs)%Z →
  match validate_public_shares threshold X shs with
  | Ok _ => consistent threshold X shs
  | Err e => e = Eh.InvalidPublicKeySet ∧ ¬ consistent threshold X shs
  end.
Proof.
  intros Hwf Hpts Ht. unfold validate_public_shares. set (n := Z.to_nat threshold).
  assert (Hn : (n ≤ length shs)%nat) by (unfold len, n in *; lia).
  assert (Hcon : ∀ Cs select x, length Cs = n → shares_on Cs select shs →
    interpolate_public_key_share (take n (BTreeMap.keys shs)) x select shs = Ok (geval Cs x)).
  { intros. by eapply interpolate_meval. }
  destruct (interpolate_exists shs n xs ps_decryption) as (Cs & HCl & HCi & HCs); [done..|].
  destruct (interpolate_exists shs n xs ps_context) as (Ds & HDl & HDi & HDs); [done..|].
  rewrite HCi. cbn [mbind result_bind]. case_bool_decide as HX; cbn [negb].
  2: { split; [done|]. intros (Cs' & Ds' & Hl & _ & HX' & _ & Hon & _). apply HX.
       pose proof (HCi szero) as E. rewrite (Hcon Cs') in E by done. congruence. }
  rewrite HDi. cbn [mbind result_bind]. destruct (is_identity (geval Ds 0)) eqn:Hid; cbn [negb].
  2: { split; [done|]. intros (Cs' & Ds' & _ & Hl & _ & HZ & _ & Hon).
       apply is_identity_false in Hid. apply Hid.
       pose proof (HDi szero) as E. rewrite (Hcon Ds') in E by done. congruence. }
  apply is_identity_true in Hid.
  assert (Hbody : ∀ p, p ∈ BTreeMap.keys shs → ∃ sh x, (p, sh) ∈ shs ∧ to_scalar p = Ok x ∧
    (x ← golden (to_scalar (F:=Scalar) p);
     expected_decryption ←
       interpolate_public_key_share (take n (BTreeMap.keys shs)) x ps_decryption shs;
     expected_context ←
       interpolate_public_key_share (take n (BTreeMap.keys shs)) x ps_context shs;
     public_share ← ok_or (Eh.UnknownParticipant (pi_get p)) (BTreeMap.get p shs);
     reject_if (negb (bool_decide (expected_decryption = ps_decryption public_share))
                || negb (bool_decide (expected_context = ps_context public_share)))
       Eh.InvalidPublicKeySet)
    = reject_if (negb (bool_decide (geval Cs x = ps_decryption sh))
                 || negb (bool_decide (geval Ds x = ps_context sh))) Eh.InvalidPublicKeySet).
  { intros p Hp. destruct (in_keys_get _ _ Hwf Hp) as (sh & Hsh & Hin).
    destruct (points_elem _ _ _ Hpts Hp) as (x & _ & Hx). exists sh, x.
    rewrite Hx, Hsh. cbn [golden map_err mbind result_bind ok_or]. by rewrite HCi, HDi. }
  destruct (for_each _ _) as [[]|e] eqn:Hfe.
  - exists Cs, Ds. split; [done|]. split; [done|]. split; [done|]. split; [done|].
    assert (Hall : ∀ p sh x, (p, sh) ∈ shs → to_scalar p = Ok x →
      ps_decryption sh = geval Cs x ∧ ps_context sh = geval Ds x).
    { intros p sh x Hin Hx.
      assert (Hp : p ∈ BTreeMap.keys shs) by (apply list_elem_of_fmap; by exists (p, sh)).
      rewrite <-(take_drop n (BTreeMap.keys shs)), elem_of_app in Hp.
      destruct Hp as [Hp|Hp]; [split; [by eapply HCs|by eapply HDs]|].
      pose proof (proj1 (for_each_Ok _ _) Hfe p Hp) as Hb.
      destruct (Hbody p) as (sh' & x' & Hin' & Hx' & Hb').
      { rewrite <-(take_drop n (BTreeMap.keys shs)), elem_of_app. by right. }
      cbv beta in Hb. rewrite Hb' in Hb. apply reject_if_Ok, orb_false_iff in Hb as [H1' H2'].
      apply negb_false_iff, bool_decide_eq_true in H1', H2'.
      assert (x' = x) as -> by congruence.
      apply (BTreeMap.get_Some p) in Hin; [|done]. apply (BTreeMap.get_Some p) in Hin'; [|done].
      assert (sh' = sh) as -> by congruence. done. }
    split; intros p sh x Hin Hx; by destruct (Hall p sh x Hin Hx).
  - apply for_each_Err in Hfe as (l1 & p & l2 & Hl & _ & He).
    assert (Hp : p ∈ BTreeMap.keys shs).
    { rewrite <-(take_drop n (BTreeMap.keys shs)), elem_of_app. right. rewrite Hl. set_solver. }
    destruct (Hbody p Hp) as (sh & x & Hin & Hx & Hb). cbv beta in He. rewrite Hb in He.
    unfold reject_if in He. destruct (_ || _)%bool eqn:Hor in He; [|done]. injection He as <-.
    split; [done|]. intros (Cs' & Ds' & HCl' & HDl' & _ & _ & HonC & HonD).
    pose proof (HCi x) as E1. rewrite (Hcon Cs') in E1 by done. injection E1 as E1.
    pose proof (HDi x) as E2. rewrite (Hcon Ds') in E2 by done. injection E2 as E2.
    rewrite (HonC p sh x Hin Hx), (HonD p sh x Hin Hx), E1, E2 in Hor.
    by rewrite !bool_decide_eq_true_2 in Hor.
Qed.
End lemmas.

(** ** The setup root *)
Section setup.

Definition setup_wf (s : SetupContext) : Prop :=
  slice_ok (sc_backend_id s) ∧ is_usize (sc_threshold s) ∧ root_wf (sc_registry_root s) ∧
  slice_ok (sc_participants s) ∧ Forall participant_wf (sc_participants s) ∧
  session_wf (sc_decryption_session_id s) ∧ session_wf (sc_context_session_id s) ∧
  root_wf (sc_decryption_transcript_root s) ∧ root_wf (sc_context_transcript_root s) ∧
  length (sc_epoch s) = 32%nat.

Definition participant_item (p : ParticipantIndex) : list byte :=
  frame (bstr "participant") (to_be_bytes 4 (pi_get p)).

Lemma setup_transcript_stream s :
  hasher (setup_transcript s)
  = hasher (tb_with_prefix TRANSCRIPT_PREFIX (bstr "setup-context"))
    ++ frame (bstr "backend") (sc_backend_id s)
    ++ frame (bstr "threshold") (to_be_bytes 8 (sc_threshold s))
    ++ frame (bstr "registry-root") (sc_registry_root s)
    ++ frame (bstr "participants-len") (to_be_bytes 8 (len (sc_participants s)))
    ++ concat (participant_item <$> sc_participants s)
    ++ frame (bstr "decryption-session") (session_bytes (sc_decryption_session_id s))
    ++ frame (bstr "context-session") (session_bytes (sc_context_session_id s))
    ++ frame (bstr "decryption-transcript-root") (sc_decryption_transcript_root s)
    ++ frame (bstr "context-transcript-root") (sc_context_transcript_root s)
    ++ frame (bstr "epoch") (sc_epoch s).
Proof.
  unfold setup_transcript. cbv beta iota zeta.
  rewrite !hasher_tb_bytes.
  rewrite (hasher_foldl _ participant_item) by (intros t p; transcript_stream; done).
  transcript_stream. by rewrite <-!app_assoc.
Qed.

Lemma setup_transcript_inj s s' :
  setup_wf s → setup_wf s' → hasher (setup_transcript s) = hasher (setup_transcript s') → s = s'.
Proof.
  intros (?&?&?&?&Hps&?&?&?&?&?) (?&?&?&?&Hps'&?&?&?&?&?).
  rewrite !setup_transcript_stream. intros Heq%app_inv_head.
  do 4 (split_frame Heq). decode_fields.
  apply (items_app_inj eq) in Heq as [Hparts%list_eq_Forall2 Heq]; [| |done].
  2: { intros p q r r' Hp Hq. unfold participant_item. intros E. split_frame E.
       rewrite Forall_forall in Hps, Hps'. specialize (Hps _ Hp). specialize (Hps' _ Hq).
       by decode_fields. }
  do 5 (split_frame Heq).
  destruct s as [? ? ? ? [?] [?] ? ? ?], s' as [? ? ? ? [?] [?] ? ? ?]. simpl in *. congruence.
Qed.
End setup.

(** ** Properties *)

(** C23: [PublicKeySet::new] accepts exactly the consistent key sets: a positive
    threshold within the number of shares, a joint key other than the identity,
    and public shares that are, in the exponent, the values at the participants'
    points of two polynomials of degree below the threshold, the first with the
    joint key at zero and the second with the identity at zero.  Every refusal
    names the first condition that fails. *)
Theorem public_key_set_new_correct `{GroupModule} threshold joint_public_key
    (public_shares : PublicShares) xs :
  BTreeMap.wf public_shares → points (BTreeMap.keys public_shares) xs → (0 ≤ threshold)%Z →
  let in_range := (0 < threshold ≤ len public_shares)%Z in
  match PublicKeySet_new threshold joint_public_key public_shares with
  | Ok keys =>
      keys = MkPublicKeySet threshold joint_public_key public_shares ∧
      in_range ∧ joint_public_key ≠ identity ∧
      consistent threshold joint_public_key public_shares
  | Err Eh.InvalidThreshold => ¬ in_range
  | Err Eh.InvalidJointPublicKey => in_range ∧ joint_public_key = identity
  | Err Eh.InvalidPublicKeySet =>
      in_range ∧ joint_public_key ≠ identity ∧
      ¬ consistent threshold joint_public_key public_shares
  | Err _ => False
  end.
Proof.
  intros Hwf Hpts Ht in_range. unfold PublicKeySet_new, in_range.
  destruct (Z.eqb_spec threshold 0), (Z.ltb_spec (len public_shares) threshold); cbn [orb]; try lia.
  destruct (is_identity joint_public_key) eqn:Hid.
  { apply is_identity_true in Hid. split; [lia|done]. }
  apply is_identity_false in Hid.
  pose proof (validate_spec threshold joint_public_key public_shares xs) as Hv.
  destruct (validate_public_shares _ _ _) as [[]|e]; cbn [mbind result_bind].
  - split; [done|]. split; [lia|]. split; [done|]. auto.
  - destruct Hv as [-> Hn]; [done..|]. split; [lia|]. done.
Qed.

(** The setup root binds every field of the context: contexts with equal
    roots are equal, or their two transcripts are a SHA-256 collision. *)
Theorem setup_root_binding `{Sha256} s1 s2 :
  setup_wf s1 → setup_wf s2 → setup_root s1 = setup_root s2 →
  s1 = s2 ∨
  (hasher (setup_transcript s1) ≠ hasher (setup_transcript s2) ∧
   sha256 (hasher (setup_transcript s1)) = sha256 (hasher (setup_transcript s2))).
Proof.
  intros H1 H2 [Heq|Hne]%tb_root_eq; [left|by right]. by apply setup_transcript_inj.
Qed.

(** ** Witnesses

    Two of three participants; [x = 11 + 7 X] and [z = 13 X] over the test
    field. *)
Definition tiny_x (p : ParticipantIndex) : TinyScalar := tiny (11 + 7 * pi_get p).
Definition tiny_z (p : ParticipantIndex) : TinyScalar := tiny (13 * pi_get p).
Definition tiny_three : list ParticipantIndex :=
  [MkParticipantIndex 1; MkParticipantIndex 2; MkParticipantIndex 3].
Definition tiny_public_shares : list (ParticipantIndex * PublicShare (H:=TinyGroup)) :=
  (λ p, (p, MkPublicShare (H:=TinyGroup)
              (mul_generator (GoldenGroup:=TinyGroup) (tiny_x p))
              (mul_generator (GoldenGroup:=TinyGroup) (tiny_z p)))) <$> tiny_three.
Definition tiny_joint_key : TinyScalar := tiny 11.
Definition tiny_key_set : PublicKeySet (H:=TinyGroup) :=
  MkPublicKeySet (H:=TinyGroup) 2 tiny_joint_key tiny_public_shares.
Definition tiny_setup : SetupContext :=
  MkSetupContext (bstr "golden-test-tiny-v1") 2 (replicate 32 x01) tiny_three
    (MkSessionId (replicate 32 x02)) (derive_context_session_id (MkSessionId (replicate 32 x02)))
    (replicate 32 x03) (replicate 32 x04) (replicate 32 x05).

Lemma tiny_points : points (H:=TinyGroup) tiny_three [tiny 1; tiny 2; tiny 3].
Proof.
  split; [repeat constructor; vm_refl|]. apply (bool_decide_unpack _). vm_compute. exact I.
Qed.

Lemma public_key_set_new_correct_witness :
  PublicKeySet_new (H:=TinyGroup) 2 tiny_joint_key tiny_public_shares = Ok tiny_key_set ∧
  consistent (H:=TinyGroup) 2 tiny_joint_key tiny_public_shares.
Proof.
  pose proof (public_key_set_new_correct (H:=TinyGroup) 2 tiny_joint_key tiny_public_shares
    [tiny 1; tiny 2; tiny 3]) as Hc.
  assert (Hnew : PublicKeySet_new (H:=TinyGroup) 2 tiny_joint_key tiny_public_shares
                 = Ok tiny_key_set) by vm_refl.
  rewrite Hnew in Hc. split; [exact Hnew|]. apply Hc.
  - repeat constructor.
  - exact tiny_points.
  - discriminate.
Defined.

Lemma setup_root_binding_witness :
  setup_wf tiny_setup ∧
  (tiny_setup = tiny_setup ∨
   (hasher (setup_transcript tiny_setup) ≠ hasher (setup_transcript tiny_setup) ∧
    sha256 (hasher (setup_transcript tiny_setup)) = sha256 (hasher (setup_transcript tiny_setup)))).
Proof.
  assert (Hwf : setup_wf tiny_setup).
  { repeat split; try (apply (bool_decide_unpack _); vm_compute; exact I);
      rewrite ?usize_MAX_eq; simpl; lia. }
  split; [exact Hwf|]. exact (setup_root_binding tiny_setup tiny_setup Hwf Hwf eq_refl).
Defined.
