(* ===== verification/Sampling.v ===== *)
(** * Sampling of nonzero scalars

    The rejection loop that the code writes once per crate ([random_nonzero_scalar]
    of golden-ehtdh1/encrypt.rs, golden-evrf/lib.rs and golden-evrf/paper.rs), and
    a condition on the generator under which it ends. *)

From Stdlib Require Import ZArith Lia Strings.Byte.
From stdpp Require Import prelude.
From S2P Require Import Prelude CoreError Group Algebra TestSupport.

(** ** Sampling

    [loop { ... }] of [random_nonzero_scalar], with fuel: [None] when the fuel
    ran out before a nonzero scalar was drawn. *)
Section sampling.
Context {F R : Type} `{FieldOps F} `{CryptoRngCore R}.

Fixpoint random_nonzero_scalar (fuel : nat) (rng : R) : option (F * R) :=
  match fuel with
  | O => None
  | S fuel =>
      let '(scalar, rng) := srandom rng in
      if negb (is_zero scalar) then Some (scalar, rng) else random_nonzero_scalar fuel rng
  end.

(** The generator state after [n] draws. *)
Fixpoint after_draws (n : nat) (rng : R) : R :=
  match n with O => rng | S n => after_draws n (srandom (F:=F) rng).2 end.

(** From this state on, the generator keeps producing nonzero scalars, with
    fewer than [n] zeros in a row. *)
Definition draws_nonzero (n : nat) (rng : R) : Prop :=
  ∀ k, ∃ j, (j < n)%nat ∧ (srandom (F:=F) (after_draws (k + j) rng)).1 ≠ szero.
End sampling.

Section sampling_lemmas.
Context {F R : Type} `{FieldLaws F} `{CryptoRngCore R}.

Lemma random_nonzero_scalar_nonzero fuel (rng rng' : R) (s : F) :
  random_nonzero_scalar fuel rng = Some (s, rng') → s ≠ szero.
Proof.
  revert rng. induction fuel as [|fuel IH]; intros rng; simpl; [done|].
  destruct (srandom rng) as [s1 rng1]. destruct (is_zero s1) eqn:Hz; simpl; [apply IH|].
  intros [= <- <-] ->. by rewrite (proj2 (is_zero_spec _) eq_refl) in Hz.
Qed.

Lemma after_draws_add n m (rng : R) :
  after_draws (F:=F) (n + m) rng = after_draws m (after_draws n rng).
Proof. revert rng. induction n as [|n IH]; intros rng; simpl; [done|apply IH]. Qed.

(** Enough fuel: the loop returns, after at most [n] draws. *)
Lemma random_nonzero_scalar_total n fuel (rng : R) :
  draws_nonzero (F:=F) n rng → (n ≤ fuel)%nat →
  ∃ s k, random_nonzero_scalar (F:=F) fuel rng = Some (s, after_draws k rng).
Proof.
  intros Hd Hn. destruct (Hd 0%nat) as (j & Hj & Hs). simpl in Hs.
  assert (Hfuel : (j < fuel)%nat) by lia. clear Hn Hj Hd. revert rng fuel Hs Hfuel.
  induction j as [|j IH]; intros rng [|fuel] Hs Hfuel; [lia| |lia|]; simpl in *;
    destruct (srandom rng) as [s1 rng1] eqn:Hr; simpl in *.
  - destruct (is_zero s1) eqn:Hz; [by apply is_zero_spec in Hz|].
    exists s1, 1%nat. simpl. by rewrite Hr.
  - destruct (is_zero s1) eqn:Hz.
    + destruct (IH rng1 fuel Hs) as (s & k & Hk); [lia|]. exists s, (S k). simpl. by rewrite Hr.
    + exists s1, 1%nat. simpl. by rewrite Hr.
Qed.

Lemma draws_nonzero_after n k (rng : R) :
  draws_nonzero (F:=F) n rng → draws_nonzero (F:=F) n (after_draws (F:=F) k rng).
Proof.
  intros Hd i. destruct (Hd (k + i)%nat) as (j & Hj & Hs). exists j.
  by rewrite <-after_draws_add, Nat.add_assoc.
Qed.
End sampling_lemmas.

(** A generator whose draws are all 5. *)
#[export] Instance const_rng : CryptoRngCore unit := {|
  fill_bytes := λ n st, (replicate n x05, st);
  next_u32 := λ st, (5%Z, st);
|}.

Lemma const_draws : draws_nonzero (F:=TinyScalar) 1 ().
Proof.
  intros k. exists 0%nat. split; [lia|]. destruct (after_draws (k + 0) ()).
  intros E%(f_equal tiny_val). vm_compute in E. discriminate.
Qed.
