(* ===== verification/Ehtdh1Encrypt.v ===== *)
(** * Sealing and ciphertext proofs (golden-ehtdh1/encrypt.rs)

    The sealing key, the encryption with its Schnorr proof, and the check of a
    ciphertext. *)

From Stdlib Require Import ZArith Lia Field Strings.Byte.
From stdpp Require Import prelude strings.
From S2P Require Import Sampling.
From S2P Require Import Prelude BTree CoreError Group Algebra Participant Transcript IdentityKey.
From S2P Require Import Registry TestSupport Ehtdh1Context.

Local Open Scope golden_scope.

(** ** External services

    [hkdf::Hkdf<Sha256>]: extract with a salt, then expand. *)
Class Hkdf := { hkdf_expand : list byte → list byte → list byte → nat → option (list byte) }.

(** [chacha20::XChaCha20]: construction from key and nonce, and the content of
    a buffer after [apply_keystream] on a fresh cipher. *)
Class XChaCha20 := {
  XCipher : Type;
  new_from_slices : list byte → list byte → option XCipher;
  apply_keystream : XCipher → list byte → list byte;
}.

(** A keystream applied twice from the start cancels. *)
Class XChaCha20Laws `{XChaCha20} : Prop := {
  apply_keystream_twice c bs : apply_keystream c (apply_keystream c bs) = bs;
}.

(** [hash_to_group] is documented to return a non-identity element. *)
Class HashToGroupLaws `{GoldenHashToGroup} : Prop := {
  hash_to_group_nonidentity domain message P :
    hash_to_group domain message = Ok P → P ≠ identity;
}.

Record SealingKey `{GoldenGroup} := MkSealingKey { sk_joint_public_key : Element }.
Arguments MkSealingKey {_} _.

Record Ciphertext `{GoldenGroup} := MkCiphertext {
  ct_associated_data : list byte;
  ct_encrypted_payload : list byte;
  ct_ephemeral_public : Element;
  ct_encryption_point : Element;
  ct_challenge : Scalar;
  ct_response : Scalar;
}.
Arguments MkCiphertext {_} _ _ _ _ _ _.

#[export] Instance Ciphertext_eq_dec `{GoldenGroup} : EqDecision Ciphertext.
Proof. solve_decision. Defined.

Definition SealingKey_new `{GoldenGroup} (joint_public_key : Element) : EhResult SealingKey :=
  if is_identity joint_public_key then Err Eh.InvalidJointPublicKey
  else Ok (MkSealingKey joint_public_key).

Section hashes.
Context `{GoldenHashToGroup} `{Sha256}.

(** The transcript of [encryption_group], before it is hashed. *)
Definition hegd_transcript (ephemeral_public proof_commitment : Element)
    (associated_data encrypted_payload : list byte) : TranscriptBuilder :=
  let transcript := tb_with_prefix TRANSCRIPT_PREFIX (bstr "hegd") in
  let transcript := tb_bytes (bstr "backend") BACKEND_ID transcript in
  let transcript := tb_element (bstr "R") ephemeral_public transcript in
  let transcript := tb_element (bstr "R-prime") proof_commitment transcript in
  let transcript := tb_bytes (bstr "ad") associated_data transcript in
  tb_bytes (bstr "ciphertext") encrypted_payload transcript.

Definition encryption_group (ephemeral_public proof_commitment : Element)
    (associated_data encrypted_payload : list byte) : EhResult Element :=
  map_err (λ _, Eh.InvalidEncoding)
    (hash_to_group (bstr "golden-ehtdh1-hegd-v1")
       (tb_root (hegd_transcript ephemeral_public proof_commitment associated_data
                   encrypted_payload))).

(** The transcript of [encryption_challenge], before it is hashed. *)
Definition hecd_transcript (encryption_group encryption_point encryption_commitment : Element)
    : TranscriptBuilder :=
  let transcript := tb_with_prefix TRANSCRIPT_PREFIX (bstr "hecd") in
  let transcript := tb_bytes (bstr "backend") BACKEND_ID transcript in
  let transcript := tb_element (bstr "Y") encryption_group transcript in
  let transcript := tb_element (bstr "V") encryption_point transcript in
  tb_element (bstr "V-prime") encryption_commitment transcript.

Definition encryption_challenge (encryption_group encryption_point encryption_commitment : Element)
    : EhResult Scalar :=
  hash_to_nonzero_scalar (bstr "golden-ehtdh1-hecd-v1")
    (tb_root (hecd_transcript encryption_group encryption_point encryption_commitment)).
End hashes.

(** ** The payload mask *)
Section mask.
Context `{GoldenGroup} `{Sha256} `{Hkdf} `{XChaCha20}.

Definition KEY_SIZE : nat := 32.
Definition NONCE_SIZE : nat := 24.
Definition MATERIAL_SIZE : nat := KEY_SIZE + NONCE_SIZE.

Definition derive_payload_mask_material (n : nat) (ephemeral_public dh_point : Element)
    : EhResult (list byte) :=
  let transcript := tb_with_prefix TRANSCRIPT_PREFIX (bstr "hkd-ikm") in
  let transcript := tb_bytes (bstr "backend") BACKEND_ID transcript in
  let transcript := tb_element (bstr "R") ephemeral_public transcript in
  let transcript := tb_element (bstr "U") dh_point transcript in
  ok_or Eh.InvalidEncoding
    (hkdf_expand (bstr "golden-ehtdh1-hkd-v1") (tb_root transcript)
       (bstr "golden-ehtdh1-xchacha20-mask-v1") n).

Definition apply_payload_mask (target : list byte) (ephemeral_public dh_point : Element)
    : EhResult (list byte) :=
  material ← derive_payload_mask_material MATERIAL_SIZE ephemeral_public dh_point;
  cipher ← ok_or Eh.InvalidEncoding
             (new_from_slices (take KEY_SIZE material) (drop KEY_SIZE material));
  Ok (apply_keystream cipher target).
End mask.

Section seal.
Context `{GoldenHashToGroup} `{Sha256} `{Hkdf} `{XChaCha20} `{CryptoRngCore R}.

(** The body after the two scalars are drawn. *)
Definition seal_with (key : SealingKey) (r r_prime : Scalar) (plaintext associated_data : list byte)
    : EhResult Ciphertext :=
  let ephemeral_public := mul_generator r in
  let dh_point := sk_joint_public_key key ⊠ r in
  encrypted_payload ← apply_payload_mask plaintext ephemeral_public dh_point;
  let proof_commitment := mul_generator r_prime in
  encryption_group ←
    encryption_group ephemeral_public proof_commitment associated_data encrypted_payload;
  let encryption_point := encryption_group ⊠ r in
  let encryption_commitment := encryption_group ⊠ r_prime in
  challenge ← encryption_challenge encryption_group encryption_point encryption_commitment;
  let response := r_prime + r * challenge in
  Ok (MkCiphertext associated_data encrypted_payload ephemeral_public encryption_point challenge
        response).

Definition seal_bytes_with_associated_data (fuel : nat) (key : SealingKey) (rng : R)
    (plaintext associated_data : list byte) : option (EhResult Ciphertext * R) :=
  '(r, rng) ← random_nonzero_scalar fuel rng;
  '(r_prime, rng) ← random_nonzero_scalar fuel rng;
  Some (seal_with key r r_prime plaintext associated_data, rng).

Definition seal_bytes (fuel : nat) (key : SealingKey) (rng : R) (plaintext : list byte)
    : option (EhResult Ciphertext * R) :=
  seal_bytes_with_associated_data fuel key rng plaintext [].
End seal.

Section verify.
Context `{GoldenHashToGroup} `{Sha256}.

Definition verify_ciphertext (message : Ciphertext) : EhResult unit :=
  if is_identity (ct_ephemeral_public message) || is_identity (ct_encryption_point message)
  then Err Eh.InvalidCiphertextProof
  else
    let proof_commitment :=
      mul_generator (ct_response message) ⊟ ct_ephemeral_public message ⊠ ct_challenge message in
    encryption_group ←
      encryption_group (ct_ephemeral_public message) proof_commitment
        (ct_associated_data message) (ct_encrypted_payload message);
    let encryption_commitment :=
      encryption_group ⊠ ct_response message ⊟ ct_encryption_point message ⊠ ct_challenge message in
    expected ←
      encryption_challenge encryption_group (ct_encryption_point message) encryption_commitment;
    if bool_decide (expected = ct_challenge message) then Ok tt
    else Err Eh.InvalidCiphertextProof.

Definition Ciphertext_verify (message : Ciphertext) : EhResult unit := verify_ciphertext message.

Definition verify_with_associated_data (message : Ciphertext)
    (expected_associated_data : list byte) : EhResult unit :=
  if negb (bool_decide (ct_associated_data message = expected_associated_data))
  then Err Eh.AssociatedDataMismatch
  else Ciphertext_verify message.
End verify.

#[global] Arguments encryption_group : simpl never.
#[global] Arguments encryption_challenge : simpl never.

(** ** Lemmas *)
Section lemmas.
Context `{GroupModule} `{!GoldenHashToGroup} `{!GroupCodec} `{Sha256Laws}.
Add Field encrypt_field : (scalar_field_theory (F:=Scalar)).

(** [z P - c (s P) = n P] for the response [z = n + s c]. *)
Lemma schnorr_commitment (P : Element) (n s c : Scalar) :
  P ⊠ (n + s * c) ⊟ P ⊠ s ⊠ c = P ⊠ n.
Proof. by rewrite gmul_add_r, gmul_mul, gadd_sub. Qed.

Lemma schnorr_commitment_generator (n s c : Scalar) :
  mul_generator (n + s * c) ⊟ mul_generator s ⊠ c = mul_generator n.
Proof. rewrite !mul_generator_gmul. apply schnorr_commitment. Qed.

Lemma gmul_neq_identity (P : Element) (s : Scalar) : P ≠ identity → s ≠ szero → P ⊠ s ≠ identity.
Proof.
  intros HP Hs E. apply Hs. apply (mscale_inj (SM:=element_module) P); [done|].
  change (P ⊠ s = P ⊠ szero). by rewrite E, gmul_0.
Qed.

Lemma hash_to_nonzero_scalar_nonzero domain message (s : Scalar) :
  hash_to_nonzero_scalar domain message = Ok s → s ≠ szero.
Proof. unfold hash_to_nonzero_scalar. intros Hs%map_err_Ok. by apply hash_to_scalar_nonzero in Hs. Qed.

Lemma encryption_group_nonidentity `{!HashToGroupLaws} R R' ad c (Y : Element) :
  encryption_group R R' ad c = Ok Y → Y ≠ identity.
Proof. unfold encryption_group. intros HY%map_err_Ok. by apply hash_to_group_nonidentity in HY. Qed.

(** What the check accepts. *)
Lemma verify_ciphertext_Ok message u :
  verify_ciphertext message = Ok u ↔
  ct_ephemeral_public message ≠ identity ∧ ct_encryption_point message ≠ identity ∧
  ∃ Y,
    encryption_group (ct_ephemeral_public message)
      (mul_generator (ct_response message) ⊟ ct_ephemeral_public message ⊠ ct_challenge message)
      (ct_associated_data message) (ct_encrypted_payload message) = Ok Y ∧
    encryption_challenge Y (ct_encryption_point message)
      (Y ⊠ ct_response message ⊟ ct_encryption_point message ⊠ ct_challenge message)
      = Ok (ct_challenge message).
Proof.
  unfold verify_ciphertext. destruct u.
  destruct (is_identity (ct_ephemeral_public message)) eqn:HR; cbn [orb].
  { apply is_identity_true in HR. split; [done|]. by intros [? _]. }
  destruct (is_identity (ct_encryption_point message)) eqn:HV.
  { apply is_identity_true in HV. split; [done|]. by intros (_ & ? & _). }
  apply is_identity_false in HR, HV. rewrite bind_Ok. split.
  - intros (Y & HY & (e & He & Hb)%bind_Ok). split; [done|]. split; [done|].
    exists Y. split; [done|]. case_bool_decide; [congruence|done].
  - intros (_ & _ & Y & HY & He). exists Y. split; [done|]. rewrite He. cbn [mbind result_bind].
    by rewrite bool_decide_eq_true_2.
Qed.

(** [injection] without reducing the values. *)
Lemma Ok_inj {E A} (a b : A) : Ok (E:=E) a = Ok b → a = b.
Proof. congruence. Qed.

(** The commitments a check recomputes. *)
Definition recomputed_commitment (m : Ciphertext) : Element :=
  mul_generator (ct_response m) ⊟ ct_ephemeral_public m ⊠ ct_challenge m.
Definition recomputed_encryption_commitment (Y : Element) (m : Ciphertext) : Element :=
  Y ⊠ ct_response m ⊟ ct_encryption_point m ⊠ ct_challenge m.
Definition hegd_query (m : Ciphertext) : TranscriptBuilder :=
  hegd_transcript (ct_ephemeral_public m) (recomputed_commitment m) (ct_associated_data m)
    (ct_encrypted_payload m).
Definition derived_point (m : Ciphertext) : EhResult Element :=
  encryption_group (ct_ephemeral_public m) (recomputed_commitment m) (ct_associated_data m)
    (ct_encrypted_payload m).
Definition hecd_query (m : Ciphertext) : EhResult TranscriptBuilder :=
  Y ← derived_point m;
  Ok (hecd_transcript Y (ct_encryption_point m) (recomputed_encryption_commitment Y m)).

Definition hecd_answer (m : Ciphertext) : EhResult Scalar :=
  Y ← derived_point m;
  encryption_challenge Y (ct_encryption_point m) (recomputed_encryption_commitment Y m).

Lemma hegd_transcript_inj R R' ad c T T' ad' c' :
  hegd_transcript R R' ad c = hegd_transcript T T' ad' c' → R = T ∧ R' = T'.
Proof.
  intros Heq%(f_equal hasher). revert Heq. unfold hegd_transcript. transcript_stream. rewrite <-!app_assoc.
  intros Heq%app_inv_head%app_inv_head. do 2 (split_frame Heq). by decode_fields.
Qed.

Lemma hecd_transcript_inj Y V V' Z W W' :
  hecd_transcript Y V V' = hecd_transcript Z W W' → Y = Z ∧ V = W ∧ V' = W'.
Proof.
  intros Heq%(f_equal hasher). revert Heq.
  unfold hecd_transcript. transcript_stream. rewrite <-!app_assoc.
  intros Heq%app_inv_head%app_inv_head. do 2 (split_frame Heq).
  split_frame Heq. by decode_fields.
Qed.

(** Two responses [A1], [A2] for one commitment, under two challenges. *)
Lemma response_extract_gen (A1 A2 D P : Element) (c1 c2 : Scalar) :
  c1 ≠ c2 → A1 ⊟ P ⊠ c1 = A2 ⊟ P ⊠ c2 → A1 = A2 ⊞ D → P = D ⊠ sinv (c1 - c2).
Proof.
  intros Hne E HD.
  assert (Hd : P ⊠ (c1 - c2) = D).
  { apply (gadd_cancel_r _ _ A2). rewrite (gadd_comm D), <-HD.
    rewrite <-(gsub_add A1 (P ⊠ c1)), E, gadd_comm.
    rewrite <-(ssub_add c1 c2) at 2. rewrite gmul_add_r, (gadd_comm (P ⊠ (c1 - c2))), gadd_assoc.
    by rewrite gsub_add. }
  rewrite <-Hd, gmul_mul, sinv_r, gmul_1; [done|]. by rewrite ssub_eq_0.
Qed.

Lemma response_extract (B P : Element) (z1 z2 c1 c2 : Scalar) :
  c1 ≠ c2 → B ⊠ z1 ⊟ P ⊠ c1 = B ⊠ z2 ⊟ P ⊠ c2 →
  P = B ⊠ ((z1 - z2) * sinv (c1 - c2)).
Proof.
  intros Hne E. rewrite <-gmul_mul. apply (response_extract_gen _ _ _ _ _ _ Hne E).
  by rewrite gadd_comm, <-gmul_add_r, ssub_add.
Qed.

Lemma seal_with_verifies `{!HashToGroupLaws} `{Hkdf} `{XChaCha20Laws} key (r r' : Scalar)
    plaintext ad message :
  r ≠ szero → seal_with key r r' plaintext ad = Ok message →
  ct_associated_data message = ad ∧ ct_ephemeral_public message = mul_generator r ∧
  verify_ciphertext message = Ok () ∧
  apply_payload_mask (ct_encrypted_payload message) (ct_ephemeral_public message)
    (sk_joint_public_key key ⊠ r) = Ok plaintext.
Proof.
  intros Hr. unfold seal_with.
  intros (c & Hc & (Y & HY & (e & He & [= <-])%bind_Ok)%bind_Ok)%bind_Ok.
  split; [done|]. split; [done|]. split.
  - apply verify_ciphertext_Ok. cbn [ct_ephemeral_public ct_encryption_point ct_response
      ct_challenge ct_associated_data ct_encrypted_payload].
    rewrite mul_generator_eq_identity. split; [done|]. split.
    { apply gmul_neq_identity; [by eapply encryption_group_nonidentity|done]. }
    exists Y. rewrite schnorr_commitment_generator, schnorr_commitment. done.
  - cbn [ct_ephemeral_public ct_encrypted_payload]. unfold apply_payload_mask in *.
    apply bind_Ok in Hc as (material & Hm & Hc). apply bind_Ok in Hc as (cipher & Hci & [= <-]).
    rewrite Hm. cbn [mbind result_bind]. rewrite Hci. cbn [mbind result_bind].
    by rewrite apply_keystream_twice.
Qed.

Lemma seal_with_Err `{Hkdf} `{XChaCha20} key (r r' : Scalar) plaintext ad e :
  seal_with key r r' plaintext ad = Err e → e = Eh.InvalidEncoding ∨ e = Eh.ScalarDerivationFailed.
Proof.
  unfold seal_with, apply_payload_mask, derive_payload_mask_material, encryption_group,
    encryption_challenge, hash_to_nonzero_scalar.
  destruct (hkdf_expand _ _ _ _); cbn [ok_or mbind result_bind]; [|intros [= <-]; auto].
  destruct (new_from_slices _ _); cbn [ok_or mbind result_bind]; [|intros [= <-]; auto].
  destruct (hash_to_group _ _); cbn [map_err mbind result_bind]; [|intros [= <-]; auto].
  destruct (hash_to_scalar _ _); cbn [map_err mbind result_bind]; [done|intros [= <-]; auto].
Qed.
End lemmas.

(** ** Properties *)

(** Sealing terminates and its ciphertexts verify.  With a generator that
    does not produce more than [n] zero scalars in a row, fuel [n] is enough for
    both rejection loops; the result is a refusal only when a hash or the cipher
    setup refuses, and a returned ciphertext carries the associated data, passes
    [verify_with_associated_data] with it, and unmasks to the plaintext under
    the Diffie-Hellman point [r X]. *)
Theorem seal_verifies `{GroupModule} `{!GoldenHashToGroup} `{!GroupCodec} `{Sha256Laws}
    `{!HashToGroupLaws} `{Hkdf} `{XChaCha20Laws} `{CryptoRngCore R}
    n fuel key (rng : R) plaintext ad :
  draws_nonzero (F:=Scalar) n rng → (n ≤ fuel)%nat →
  ∃ outcome rng',
    seal_bytes_with_associated_data fuel key rng plaintext ad = Some (outcome, rng') ∧
    match outcome with
    | Ok message =>
        verify_with_associated_data message ad = Ok () ∧
        ∃ r, r ≠ szero ∧ ct_ephemeral_public message = mul_generator r ∧
          apply_payload_mask (ct_encrypted_payload message) (ct_ephemeral_public message)
            (sk_joint_public_key key ⊠ r) = Ok plaintext
    | Err e => e = Eh.InvalidEncoding ∨ e = Eh.ScalarDerivationFailed
    end.
Proof.
  intros Hd Hn. destruct (random_nonzero_scalar_total n fuel rng Hd Hn) as (r & k & Hr).
  destruct (random_nonzero_scalar_total n fuel (after_draws (F:=Scalar) k rng)
    (draws_nonzero_after n k rng Hd) Hn) as (r' & k' & Hr').
  unfold seal_bytes_with_associated_data. rewrite Hr. simpl. rewrite Hr'. simpl.
  do 2 eexists. split; [done|].
  destruct (seal_with key r r' plaintext ad) as [message|e] eqn:Hs.
  - pose proof (random_nonzero_scalar_nonzero _ _ _ _ Hr) as Hnz.
    destruct (seal_with_verifies key r r' plaintext ad message Hnz Hs) as (Had & HR & Hv & Hm).
    split; [|by exists r]. unfold verify_with_associated_data.
    by rewrite bool_decide_eq_true_2.
  - by apply seal_with_Err in Hs.
Qed.

(** C31: special soundness of the ciphertext proof.  Take two accepting
    ciphertexts, each checked with its own hash function, that put the same
    queries to [Hegd] and to [Hecd] and whose [Hecd] answers differ.  Then
    [(R, Y, V)] is a Diffie-Hellman tuple: one nonzero scalar, computed from the
    two responses, takes the generator to [R] and the derived point [Y] to [V]. *)
Theorem ciphertext_proof_soundness `{GroupModule} `{!GoldenHashToGroup} `{!GroupCodec}
    (hash1 hash2 : Sha256) m1 m2 :
  @verify_ciphertext _ _ hash1 m1 = Ok () → @verify_ciphertext _ _ hash2 m2 = Ok () →
  hegd_query m1 = hegd_query m2 →
  @hecd_query _ _ hash1 m1 = @hecd_query _ _ hash2 m2 →
  @hecd_answer _ _ hash1 m1 ≠ @hecd_answer _ _ hash2 m2 →
  let r := (ct_response m1 - ct_response m2) * sinv (ct_challenge m1 - ct_challenge m2) in
  r ≠ szero ∧ ct_ephemeral_public m1 = mul_generator r ∧
  ∃ Y, @derived_point _ _ hash1 m1 = Ok Y ∧ ct_encryption_point m1 = Y ⊠ r.
Proof.
  intros Hv1 Hv2 Hg Hq Hans r. unfold hegd_query in Hg.
  apply hegd_transcript_inj in Hg as [HR Hcom].
  destruct (proj1 (verify_ciphertext_Ok (H3:=hash1) m1 tt) Hv1) as (HRid & _ & Y1 & HY1 & Hc1).
  destruct (proj1 (verify_ciphertext_Ok (H3:=hash2) m2 tt) Hv2) as (_ & _ & Y2 & HY2 & Hc2).
  unfold hecd_query, hecd_answer, derived_point, recomputed_commitment,
    recomputed_encryption_commitment in Hq, Hans, Hcom |- *.
  rewrite HY1, HY2 in Hq, Hans. cbn [mbind result_bind] in Hq, Hans.
  rewrite Hc1, Hc2 in Hans. assert (Hne : ct_challenge m1 ≠ ct_challenge m2) by congruence.
  apply Ok_inj, hecd_transcript_inj in Hq as (<- & HV & HV').
  rewrite <-HR in Hcom. rewrite <-HV in HV'.
  rewrite !mul_generator_gmul in Hcom.
  assert (E : ct_ephemeral_public m1 = mul_generator r).
  { rewrite mul_generator_gmul. by apply response_extract. }
  split; [|split; [done|]].
  - intros Hr. apply HRid. by rewrite E, Hr, mul_generator_0.
  - exists Y1. split; [done|]. by apply response_extract.
Qed.

(** ** Witnesses *)
#[export] Instance toy_hkdf : Hkdf := {|
  hkdf_expand := λ salt ikm info n, Some (replicate n (default x00 (head ikm)));
|}.

(** A byte-wise involution keyed by the first key byte. *)
Definition toy_flip (k c : byte) : byte := byte_of_Z (byte_to_Z k - byte_to_Z c)%Z.
#[export] Instance toy_xchacha : XChaCha20 := {|
  XCipher := byte;
  new_from_slices := λ key _, head key;
  apply_keystream := λ k bs, toy_flip k <$> bs;
|}.

#[export] Instance toy_xchacha_laws : XChaCha20Laws.
Proof.
  split. intros k bs. cbn [apply_keystream toy_xchacha]. rewrite <-list_fmap_compose.
  etrans; [|apply list_fmap_id]. apply list_fmap_ext. intros _ c _. unfold compose, toy_flip.
  rewrite byte_to_of_Z. apply byte_to_Z_inj. rewrite byte_to_of_Z, Zminus_mod_idemp_r.
  replace (byte_to_Z k - (byte_to_Z k - byte_to_Z c))%Z with (byte_to_Z c) by lia.
  apply Z.mod_small, byte_to_Z_range.
Qed.

#[export] Instance toy_hash_to_group_laws : HashToGroupLaws (H:=TinyGroup).
Proof.
  split. intros domain message P HP.
  exact (hash_to_scalar_nonzero (F:=TinyScalar) domain message P HP).
Qed.

Definition tiny_sealing_key : SealingKey (H:=TinyGroup) := MkSealingKey (H:=TinyGroup) tiny_joint_key.
Definition tiny_ciphertext : Ciphertext (H:=TinyGroup) :=
  MkCiphertext (H:=TinyGroup) (bstr "ad") (bstr "ix`mjxu") (tiny 5) (tiny 36) (tiny 17) (tiny 90).

Lemma seal_verifies_witness :
  seal_bytes_with_associated_data (H:=TinyGroup) 1 tiny_sealing_key () (bstr "payload") (bstr "ad")
    = Some (Ok tiny_ciphertext, ()) ∧
  verify_with_associated_data (H:=TinyGroup) tiny_ciphertext (bstr "ad") = Ok ().
Proof.
  assert (Hs : seal_bytes_with_associated_data (H:=TinyGroup) 1 tiny_sealing_key ()
                 (bstr "payload") (bstr "ad") = Some (Ok tiny_ciphertext, ())) by vm_refl.
  split; [exact Hs|].
  destruct (seal_verifies (H:=TinyGroup) 1 1 tiny_sealing_key () (bstr "payload") (bstr "ad")
    const_draws (le_n 1)) as (outcome & rng' & Ho & Hc).
  rewrite Hs in Ho. injection Ho as <- <-. exact (proj1 Hc).
Defined.

(** A random oracle that answers the inner query of [hash_to_scalar] with [c]. *)
Definition rewound (c : byte) : Sha256 := {|
  sha256 := λ m, replicate 32 (if bool_decide (take 16 m = bstr "golden-scalar-v1") then c else x00);
|}.
Definition rewound_ciphertext (Y : TinyScalar) (c : Z) : Ciphertext (H:=TinyGroup) :=
  MkCiphertext (H:=TinyGroup) (bstr "ad") (bstr "x") (tiny 5)
    (gmul (GoldenGroup:=TinyGroup) Y (tiny 5)) (tiny c) (tiny (7 + 5 * c)).

Lemma ciphertext_proof_soundness_witness :
  ∃ Y, let m1 := rewound_ciphertext Y 2 in let m2 := rewound_ciphertext Y 3 in
    @verify_ciphertext TinyGroup _ (rewound x02) m1 = Ok () ∧
    @verify_ciphertext TinyGroup _ (rewound x03) m2 = Ok () ∧
    let r := (ct_response m1 - ct_response m2) * sinv (ct_challenge m1 - ct_challenge m2) in
    r = tiny 5 ∧ r ≠ szero ∧
    ct_ephemeral_public m1 = mul_generator (GoldenGroup:=TinyGroup) r ∧
    ∃ Y, @derived_point TinyGroup _ (rewound x02) m1 = Ok Y ∧
         ct_encryption_point m1 = gmul (GoldenGroup:=TinyGroup) Y r.
Proof.
  exists (tiny 58). intros m1 m2.
  assert (H1 : @verify_ciphertext TinyGroup _ (rewound x02) m1 = Ok ()) by vm_refl.
  assert (H2 : @verify_ciphertext TinyGroup _ (rewound x03) m2 = Ok ()) by vm_refl.
  split; [exact H1|]. split; [exact H2|]. intros r. split; [vm_refl|].
  refine (ciphertext_proof_soundness (H:=TinyGroup) (rewound x02) (rewound x03) m1 m2 H1 H2 _ _ _).
  - vm_refl.
  - vm_refl.
  - assert (Ha1 : @hecd_answer TinyGroup _ (rewound x02) m1 = Ok (tiny 2)) by vm_refl.
    assert (Ha2 : @hecd_answer TinyGroup _ (rewound x03) m2 = Ok (tiny 3)) by vm_refl.
    rewrite Ha1, Ha2. intros E%Ok_inj%(f_equal tiny_val). vm_compute in E. discriminate.
Defined.
