(* ===== verification/Ehtdh1Decrypt.v ===== *)
(** * Decryption shares and combiners (golden-ehtdh1/decrypt.rs)

    The validator's share with its double Schnorr proof, its check, and the
    exact and the quorum combiner. *)

From Stdlib Require Import ZArith Lia Field Strings.Byte.
From stdpp Require Import prelude strings.
From S2P Require Import Sampling.
From S2P Require Import Prelude BTree CoreError Group Algebra Poly Participant Shamir Transcript.
From S2P Require Import IdentityKey Registry TestSupport Ehtdh1Context Ehtdh1Encrypt.

Local Open Scope golden_scope.

Record DecryptionShare `{GoldenGroup} := MkDecryptionShare {
  ds_participant : ParticipantIndex;
  ds_share : Element;
  ds_challenge : Scalar;
  ds_decryption_response : Scalar;
  ds_context_response : Scalar;
}.
Arguments MkDecryptionShare {_} _ _ _ _ _.

Record Combiner `{GoldenGroup} := MkCombiner {
  cb_public_key_set : PublicKeySet;
  cb_setup_context : SetupContext;
}.
Arguments MkCombiner {_} _ _.

Record ShareChallengeInputs `{GoldenGroup} := MkShareChallengeInputs {
  sci_setup_context : SetupContext;
  sci_decryption_group : Element;
  sci_public_decryption_share : Element;
  sci_public_context_share : Element;
  sci_share : Element;
  sci_public_decryption_commitment : Element;
  sci_public_context_commitment : Element;
  sci_share_commitment : Element;
}.
Arguments MkShareChallengeInputs {_} _ _ _ _ _ _ _ _.

Section hashes.
Context `{GoldenHashToGroup} `{Sha256}.

(** The transcript of [decryption_group], before it is hashed. *)
Definition hdgd_transcript (setup_context : SetupContext) (message : Ciphertext)
    (decryption_context : list byte) : TranscriptBuilder :=
  let transcript := tb_with_prefix TRANSCRIPT_PREFIX (bstr "hdgd") in
  let transcript := tb_bytes (bstr "backend") BACKEND_ID transcript in
  let transcript := tb_bytes (bstr "setup-context-root") (setup_root setup_context) transcript in
  let transcript := tb_bytes (bstr "ad") (ct_associated_data message) transcript in
  let transcript := tb_bytes (bstr "dc") decryption_context transcript in
  let transcript := tb_element (bstr "R") (ct_ephemeral_public message) transcript in
  let transcript := tb_element (bstr "V") (ct_encryption_point message) transcript in
  let transcript := tb_scalar (bstr "e") (ct_challenge message) transcript in
  let transcript := tb_scalar (bstr "r-response") (ct_response message) transcript in
  tb_bytes (bstr "ciphertext") (ct_encrypted_payload message) transcript.

Definition decryption_group (setup_context : SetupContext) (message : Ciphertext)
    (decryption_context : list byte) : EhResult Element :=
  map_err (λ _, Eh.InvalidEncoding)
    (hash_to_group (bstr "golden-ehtdh1-hdgd-v1")
       (tb_root (hdgd_transcript setup_context message decryption_context))).

(** The transcript of [share_challenge], before it is hashed. *)
Definition hdcd_transcript (inputs : ShareChallengeInputs) : TranscriptBuilder :=
  let transcript := tb_with_prefix TRANSCRIPT_PREFIX (bstr "hdcd") in
  let transcript := tb_bytes (bstr "backend") BACKEND_ID transcript in
  let transcript :=
    tb_bytes (bstr "setup-context-root") (setup_root (sci_setup_context inputs)) transcript in
  let transcript := tb_element (bstr "S") (sci_decryption_group inputs) transcript in
  let transcript := tb_element (bstr "X-i") (sci_public_decryption_share inputs) transcript in
  let transcript := tb_element (bstr "Z-i") (sci_public_context_share inputs) transcript in
  let transcript := tb_element (bstr "W-i") (sci_share inputs) transcript in
  let transcript :=
    tb_element (bstr "X-i-prime") (sci_public_decryption_commitment inputs) transcript in
  let transcript :=
    tb_element (bstr "Z-i-prime") (sci_public_context_commitment inputs) transcript in
  tb_element (bstr "W-i-prime") (sci_share_commitment inputs) transcript.

Definition share_challenge (inputs : ShareChallengeInputs) : EhResult Scalar :=
  hash_to_nonzero_scalar (bstr "golden-ehtdh1-hdcd-v1") (tb_root (hdcd_transcript inputs)).
End hashes.

(** [lagrange_coefficients_at_zero] of this file, over participants. *)
Definition lagrange_coefficients_of `{GoldenGroup} (participants : list ParticipantIndex)
    : EhResult (list Scalar) :=
  xs ← traverse (λ participant, golden (to_scalar (F:=Scalar) participant)) participants;
  map_err (λ _, Eh.InvalidThreshold) (lagrange_coefficients_at_zero xs).

(** ** The validator *)
Section decrypt.
Context `{GoldenHashToGroup} `{Sha256} `{CryptoRngCore R}.

(** The body after the two nonces are drawn. *)
Definition decrypt_share_with (sk : SecretShare) (setup_context : SetupContext)
    (message : Ciphertext) (decryption_group : Element) (decryption_nonce context_nonce : Scalar)
    : EhResult DecryptionShare :=
  let public_decryption_share := mul_generator (ss_decryption sk) in
  let public_context_share := mul_generator (ss_context sk) in
  let share :=
    ct_ephemeral_public message ⊠ ss_decryption sk ⊞ decryption_group ⊠ ss_context sk in
  let public_decryption_commitment := mul_generator decryption_nonce in
  let public_context_commitment := mul_generator context_nonce in
  let share_commitment :=
    ct_ephemeral_public message ⊠ decryption_nonce ⊞ decryption_group ⊠ context_nonce in
  challenge ← share_challenge
    (MkShareChallengeInputs setup_context decryption_group public_decryption_share
       public_context_share share public_decryption_commitment public_context_commitment
       share_commitment);
  let decryption_response := decryption_nonce + challenge * ss_decryption sk in
  let context_response := context_nonce + challenge * ss_context sk in
  Ok (MkDecryptionShare (ss_participant sk) share challenge decryption_response context_response).

(** [None]: the fuel of a sampling loop ran out. *)
Definition decrypt_share_with_associated_data (fuel : nat) (sk : SecretShare) (rng : R)
    (setup_context : SetupContext) (message : Ciphertext)
    (decryption_context expected_associated_data : list byte)
    : option (EhResult DecryptionShare * R) :=
  if negb (bool_decide (ct_associated_data message = expected_associated_data))
  then Some (Err Eh.AssociatedDataMismatch, rng)
  else
    match verify_ciphertext message with
    | Err e => Some (Err e, rng)
    | Ok _ =>
        match decryption_group setup_context message decryption_context with
        | Err e => Some (Err e, rng)
        | Ok decryption_group =>
            '(decryption_nonce, rng) ← random_nonzero_scalar fuel rng;
            '(context_nonce, rng) ← random_nonzero_scalar fuel rng;
            Some (decrypt_share_with sk setup_context message decryption_group decryption_nonce
                    context_nonce, rng)
        end
    end.

Definition decrypt_share (fuel : nat) (sk : SecretShare) (rng : R) (setup_context : SetupContext)
    (message : Ciphertext) (decryption_context : list byte)
    : option (EhResult DecryptionShare * R) :=
  decrypt_share_with_associated_data fuel sk rng setup_context message decryption_context
    (ct_associated_data message).
End decrypt.

(** ** The combiner *)
Section combine.
Context `{GoldenHashToGroup} `{Sha256} `{Hkdf} `{XChaCha20}.

Definition verify_decryption_share (setup_context : SetupContext) (decryption_group : Element)
    (message : Ciphertext) (share : DecryptionShare) (public_share : PublicShare)
    : EhResult unit :=
  let public_decryption_commitment :=
    mul_generator (ds_decryption_response share) ⊟ ps_decryption public_share ⊠ ds_challenge share in
  let public_context_commitment :=
    mul_generator (ds_context_response share) ⊟ ps_context public_share ⊠ ds_challenge share in
  let share_commitment :=
    ct_ephemeral_public message ⊠ ds_decryption_response share
      ⊞ decryption_group ⊠ ds_context_response share
      ⊟ ds_share share ⊠ ds_challenge share in
  expected ← share_challenge
    (MkShareChallengeInputs setup_context decryption_group (ps_decryption public_share)
       (ps_context public_share) (ds_share share) public_decryption_commitment
       public_context_commitment share_commitment);
  if bool_decide (expected = ds_challenge share) then Ok tt else Err Eh.InvalidShareProof.

Definition validate_combiner_setup (public_key_set : PublicKeySet) (setup_context : SetupContext)
    : EhResult unit :=
  if negb (bool_decide (sc_backend_id setup_context = BACKEND_ID))
  then Err (Eh.InvalidBridge "setup backend mismatch")
  else if negb (sc_threshold setup_context =? pks_threshold public_key_set)%Z
  then Err (Eh.InvalidBridge "setup threshold mismatch")
  else
    let public_participants := BTreeMap.keys (pks_public_shares public_key_set) in
    if negb (bool_decide (sc_participants setup_context = public_participants))
    then Err (Eh.InvalidBridge "setup participant mismatch")
    else if negb (bool_decide (sc_context_session_id setup_context
                    = derive_context_session_id (sc_decryption_session_id setup_context)))
    then Err (Eh.InvalidBridge "setup context session mismatch")
    else Ok tt.

Definition Combiner_new (public_key_set : PublicKeySet) (setup_context : SetupContext)
    : EhResult Combiner :=
  _ ← validate_combiner_setup public_key_set setup_context;
  Ok (MkCombiner public_key_set setup_context).

Definition combine_verified (message : Ciphertext) (shares : list DecryptionShare)
    : result Eh.CombineError (list byte) :=
  let participants := ds_participant <$> shares in
  lambdas ← map_err Eh.Ciphertext (lagrange_coefficients_of participants);
  let dh_point :=
    foldl (λ dh_point '(share, lambda), dh_point ⊞ ds_share share ⊠ lambda)
          identity (zip shares lambdas) in
  map_err Eh.Ciphertext
    (apply_payload_mask (ct_encrypted_payload message) (ct_ephemeral_public message) dh_point).

(** One pass of the loop of [combine_selected]; the state is [seen] and
    [malformed]. *)
Definition selected_step (self : Combiner) (decryption_group : Element) (message : Ciphertext)
    (state : list (ParticipantIndex * unit) * list Z) (share : DecryptionShare)
    : result Eh.CombineError (list (ParticipantIndex * unit) * list Z) :=
  let '(seen, malformed) := state in
  let '(new, seen) := BTreeSet.insert (ds_participant share) seen in
  if negb new then Ok (seen, malformed ++ [pi_get (ds_participant share)])
  else
    public_share ← map_err Eh.Ciphertext
      (ok_or (Eh.UnknownParticipant (pi_get (ds_participant share)))
         (public_share (cb_public_key_set self) (ds_participant share)));
    if is_ok (verify_decryption_share (cb_setup_context self) decryption_group message share
                public_share)
    then Ok (seen, malformed)
    else Ok (seen, malformed ++ [pi_get (ds_participant share)]).

Definition combine_selected (self : Combiner) (message : Ciphertext)
    (decryption_context : list byte) (shares : list DecryptionShare)
    : result Eh.CombineError (list byte) :=
  _ ← map_err Eh.Ciphertext (verify_ciphertext message);
  decryption_group ← map_err Eh.Ciphertext
    (decryption_group (cb_setup_context self) message decryption_context);
  '(_, malformed) ← fold_result (selected_step self decryption_group message) ([], []) shares;
  if negb (bool_decide (malformed = [])) then Err (Eh.MalformedShares malformed)
  else combine_verified message shares.

Definition combine_exact (self : Combiner) (message : Ciphertext)
    (decryption_context : list byte) (shares : list DecryptionShare)
    : result Eh.CombineError (list byte) :=
  if negb (len shares =? pks_threshold (cb_public_key_set self))%Z
  then Err (Eh.InsufficientShares (pks_threshold (cb_public_key_set self)) (len shares))
  else combine_selected self message decryption_context shares.

Definition combine_exact_with_associated_data (self : Combiner) (message : Ciphertext)
    (decryption_context expected_associated_data : list byte) (shares : list DecryptionShare)
    : result Eh.CombineError (list byte) :=
  if negb (bool_decide (ct_associated_data message = expected_associated_data))
  then Err (Eh.Ciphertext Eh.AssociatedDataMismatch)
  else combine_exact self message decryption_context shares.

(** One pass of the loop of [verify_shares]; the state is [accepted],
    [malformed] and [valid]. *)
Definition verify_shares_step (self : Combiner) (message : Ciphertext) (decryption_group : Element)
    (state : list (ParticipantIndex * unit) * list Z * list DecryptionShare)
    (share : DecryptionShare)
    : list (ParticipantIndex * unit) * list Z * list DecryptionShare :=
  let '(accepted, malformed, valid) := state in
  if BTreeSet.contains (ds_participant share) accepted
  then (accepted, malformed ++ [pi_get (ds_participant share)], valid)
  else
    match public_share (cb_public_key_set self) (ds_participant share) with
    | None => (accepted, malformed ++ [pi_get (ds_participant share)], valid)
    | Some public_share =>
        match verify_decryption_share (cb_setup_context self) decryption_group message share
                public_share with
        | Ok _ => ((BTreeSet.insert (ds_participant share) accepted).2, malformed, valid ++ [share])
        | Err _ => (accepted, malformed ++ [pi_get (ds_participant share)], valid)
        end
    end.

Definition verify_shares (self : Combiner) (message : Ciphertext) (decryption_group : Element)
    (shares : list DecryptionShare) : list DecryptionShare * list Z :=
  let '(_, malformed, valid) :=
    foldl (verify_shares_step self message decryption_group) ([], [], []) shares in
  (valid, malformed).

Definition combine_quorum (self : Combiner) (message : Ciphertext)
    (decryption_context : list byte) (shares : list DecryptionShare)
    : result Eh.CombineError (list byte) :=
  _ ← map_err Eh.Ciphertext (verify_ciphertext message);
  decryption_group ← map_err Eh.Ciphertext
    (decryption_group (cb_setup_context self) message decryption_context);
  let '(valid, malformed) := verify_shares self message decryption_group shares in
  if (len valid <? pks_threshold (cb_public_key_set self))%Z then
    if negb (bool_decide (malformed = [])) then Err (Eh.MalformedShares malformed)
    else Err (Eh.InsufficientShares (pks_threshold (cb_public_key_set self)) (len valid))
  else combine_verified message (take (Z.to_nat (pks_threshold (cb_public_key_set self))) valid).

Definition combine_quorum_with_associated_data (self : Combiner) (message : Ciphertext)
    (decryption_context expected_associated_data : list byte) (shares : list DecryptionShare)
    : result Eh.CombineError (list byte) :=
  if negb (bool_decide (ct_associated_data message = expected_associated_data))
  then Err (Eh.Ciphertext Eh.AssociatedDataMismatch)
  else combine_quorum self message decryption_context shares.
End combine.

#[global] Arguments share_challenge : simpl never.
#[global] Arguments decryption_group : simpl never.
#[global] Arguments verify_decryption_share : simpl never.

(** ** Interpolating the shares *)
Section lagrange.
Context `{GroupModule} `{!GoldenHashToGroup} `{Sha256} `{Hkdf} `{XChaCha20}.
Abbreviation geval := (meval (H0:=element_module)).
Add Field decrypt_field : (scalar_field_theory (F:=Scalar)).

Lemma traverse_golden_points ps xs :
  traverse (λ p, golden (to_scalar (F:=Scalar) p)) ps = Ok xs ↔
  Forall2 (λ p x, to_scalar (F:=Scalar) p = Ok x) ps xs.
Proof.
  rewrite traverse_Ok. split; intros Hf; (eapply Forall2_impl; [exact Hf|]); cbv beta;
    intros p x Hp; [by apply map_err_Ok in Hp|by apply map_err_Ok].
Qed.

Lemma lagrange_coefficients_of_points ps xs :
  points ps xs → lagrange_coefficients_of ps = Ok ((λ x, lbasis xs x 0) <$> xs).
Proof.
  intros [Hf Hnd]. unfold lagrange_coefficients_of.
  rewrite (proj2 (traverse_golden_points ps xs) Hf). cbn [mbind result_bind].
  by rewrite lagrange_coefficients_NoDup.
Qed.

Lemma dh_point_zip (shares : list DecryptionShare) (lambdas : list Scalar) acc :
  foldl (λ dh_point '(share, lambda), dh_point ⊞ ds_share share ⊠ lambda) acc (zip shares lambdas)
  = foldl (λ acc '(v, c), acc ⊞ v ⊠ c) acc (zip (ds_share <$> shares) lambdas).
Proof.
  revert lambdas acc. induction shares as [|s shares IH]; intros [|c lambdas] acc; csimpl; auto.
Qed.

(** Shares on an element polynomial of at most as many coefficients combine to
    its value at zero. *)
Lemma combine_verified_meval message (shares : list DecryptionShare) xs Ws :
  points (ds_participant <$> shares) xs → (length Ws ≤ length shares)%nat →
  (∀ share x, share ∈ shares → to_scalar (ds_participant share) = Ok x →
     ds_share share = geval Ws x) →
  combine_verified message shares
  = map_err Eh.Ciphertext
      (apply_payload_mask (ct_encrypted_payload message) (ct_ephemeral_public message)
         (geval Ws 0)).
Proof.
  intros Hpts Hlen Hon. unfold combine_verified.
  rewrite (lagrange_coefficients_of_points _ xs Hpts). cbn [map_err mbind result_bind].
  do 2 f_equal. rewrite dh_point_zip.
  assert (Hvals : ds_share <$> shares = geval Ws <$> xs).
  { destruct Hpts as [Hf _]. apply Forall2_fmap_l in Hf. clear Hlen.
    induction Hf as [|s x shares xs Hx _ IH]; [done|]. csimpl. f_equal.
    - apply Hon; [left|done].
    - apply IH. intros; apply Hon; [by right|done]. }
  rewrite Hvals. apply (lagrange_zip (SM:=element_module)); [apply Hpts|].
  destruct Hpts as [Hf%Forall2_length _]. rewrite length_fmap in Hf. lia.
Qed.

(** The polynomial [f(X) R + g(X) S]. *)
Definition pair_coefficients (R S : Element) (fs gs : list Scalar) : list Element :=
  zip_with (λ f g, R ⊠ f ⊞ S ⊠ g) fs gs.

Lemma pair_meval R S (fs gs : list Scalar) x :
  length fs = length gs →
  geval (pair_coefficients R S fs gs) x = R ⊠ meval fs x ⊞ S ⊠ meval gs x.
Proof.
  unfold pair_coefficients. revert gs.
  induction fs as [|f fs IH]; intros [|g gs] [=]; simpl.
  - by rewrite !gmul_0, gadd_id_l.
  - pose proof (IH gs ltac:(done)) as E. simpl in E. rewrite E.
    rewrite gmul_add_l, !gmul_mul, !gmul_add_r.
    exact (madd_interchange (SM:=element_module) _ _ _ _).
Qed.
End lagrange.

(** ** The share proof *)
Section share_proof.
Context `{GroupModule} `{!GoldenHashToGroup} `{!GroupCodec} `{Sha256}.
Add Field share_field : (scalar_field_theory (F:=Scalar)).

(** What a check recomputes and queries. *)
Definition share_query (setup : SetupContext) (S : Element) (message : Ciphertext)
    (share : DecryptionShare) (public_share : PublicShare) : ShareChallengeInputs :=
  MkShareChallengeInputs setup S (ps_decryption public_share) (ps_context public_share)
    (ds_share share)
    (mul_generator (ds_decryption_response share) ⊟ ps_decryption public_share ⊠ ds_challenge share)
    (mul_generator (ds_context_response share) ⊟ ps_context public_share ⊠ ds_challenge share)
    (ct_ephemeral_public message ⊠ ds_decryption_response share
       ⊞ S ⊠ ds_context_response share ⊟ ds_share share ⊠ ds_challenge share).

Lemma verify_decryption_share_Ok setup S message share public_share u :
  verify_decryption_share setup S message share public_share = Ok u ↔
  share_challenge (share_query setup S message share public_share) = Ok (ds_challenge share).
Proof.
  unfold verify_decryption_share, share_query. rewrite bind_Ok. destruct u. split.
  - intros (e & He & Hb). case_bool_decide; [congruence|done].
  - intros He. eexists. split; [exact He|]. by rewrite bool_decide_eq_true_2.
Qed.

(** [x'' P + z'' Q - e (x P + z Q) = x' P + z' Q]. *)
Lemma double_schnorr_commitment (P Q : Element) (x' z' x z e : Scalar) :
  P ⊠ (x' + e * x) ⊞ Q ⊠ (z' + e * z) ⊟ (P ⊠ x ⊞ Q ⊠ z) ⊠ e = P ⊠ x' ⊞ Q ⊠ z'.
Proof.
  apply (gadd_cancel_r _ _ ((P ⊠ x ⊞ Q ⊠ z) ⊠ e)). rewrite gsub_add, gmul_add_l, !gmul_mul.
  rewrite (smul_comm x e), (smul_comm z e), !gmul_add_r.
  exact (madd_interchange (SM:=element_module) _ _ _ _).
Qed.

Definition public_of (sk : SecretShare) : PublicShare :=
  MkPublicShare (mul_generator (ss_decryption sk)) (mul_generator (ss_context sk)).

Lemma decrypt_share_with_verifies sk setup message S (nx nz : Scalar) share :
  decrypt_share_with sk setup message S nx nz = Ok share →
  ds_participant share = ss_participant sk ∧
  ds_share share = ct_ephemeral_public message ⊠ ss_decryption sk ⊞ S ⊠ ss_context sk ∧
  verify_decryption_share setup S message share (public_of sk) = Ok ().
Proof.
  unfold decrypt_share_with. intros (e & He & [= <-])%bind_Ok.
  split; [done|]. split; [done|]. apply verify_decryption_share_Ok.
  unfold share_query. cbn [ds_share ds_challenge ds_decryption_response ds_context_response
    ps_decryption ps_context public_of].
  rewrite double_schnorr_commitment, !(smul_comm e), !schnorr_commitment_generator. exact He.
Qed.

Lemma hdcd_transcript_inj (hash1 hash2 : Sha256) q1 q2 :
  length (@setup_root hash1 (sci_setup_context q1)) = 32%nat →
  length (@setup_root hash2 (sci_setup_context q2)) = 32%nat →
  @hdcd_transcript _ hash1 q1 = @hdcd_transcript _ hash2 q2 →
  sci_public_decryption_commitment q1 = sci_public_decryption_commitment q2 ∧
  sci_public_context_commitment q1 = sci_public_context_commitment q2 ∧
  sci_share_commitment q1 = sci_share_commitment q2 ∧
  sci_decryption_group q1 = sci_decryption_group q2 ∧
  sci_public_decryption_share q1 = sci_public_decryption_share q2 ∧
  sci_public_context_share q1 = sci_public_context_share q2 ∧ sci_share q1 = sci_share q2.
Proof.
  intros Hr1 Hr2 Heq%(f_equal hasher). revert Heq. unfold hdcd_transcript. transcript_stream.
  rewrite <-!app_assoc. intros Heq%app_inv_head%app_inv_head.
  do 7 (split_frame Heq). split_frame Heq. by decode_fields.
Qed.
End share_proof.

(** ** The loops over shares *)
Section loops.
Context `{GroupModule} `{!GoldenHashToGroup} `{Sha256}.

(** A share the combiner accepts from its participant. *)
Definition valid_share (self : Combiner) (S : Element) (message : Ciphertext)
    (share : DecryptionShare) : Prop :=
  ∃ ps, public_share (cb_public_key_set self) (ds_participant share) = Some ps ∧
        verify_decryption_share (cb_setup_context self) S message share ps = Ok ().

Lemma contains_map_insert k k' (s : list (ParticipantIndex * unit)) :
  BTreeSet.contains k' (BTreeMap.insert k () s) = true ↔ k' = k ∨ BTreeSet.contains k' s = true.
Proof. apply BTreeSet.contains_insert. Qed.

Lemma contains_nil p : BTreeSet.contains p ([] : list (ParticipantIndex * unit)) = false.
Proof. done. Qed.

Lemma selected_loop self S message shares seen malformed st :
  fold_result (selected_step self S message) (seen, malformed) shares = Ok st →
  ∃ more, st.2 = malformed ++ more ∧
    (more = [] ↔
     NoDup (ds_participant <$> shares) ∧
     (∀ share, share ∈ shares →
        BTreeSet.contains (ds_participant share) seen = false ∧ valid_share self S message share)).
Proof.
  revert seen malformed. induction shares as [|share shares IH]; intros seen malformed;
    cbn [fold_result].
  { intros [= <-]. exists []. rewrite app_nil_r. split; [done|]. split; [|done]. intros _.
    split; [constructor|]. by intros share ?%elem_of_nil. }
  intros ([seen' malformed'] & Hstep & Hf)%bind_Ok.
  apply IH in Hf as (more & Hst & Hmore). unfold selected_step in Hstep.
  cbn [BTreeSet.insert] in Hstep. rewrite negb_involutive in Hstep.
  destruct (BTreeSet.contains (ds_participant share) seen) eqn:Hc.
  { injection Hstep as <- <-. exists (pi_get (ds_participant share) :: more).
    rewrite Hst, <-app_assoc. split; [done|]. split; [done|].
    intros [_ Hall]. destruct (Hall share ltac:(left)) as [Hc' _]. congruence. }
  apply bind_Ok in Hstep as (ps & Hps%map_err_Ok%ok_or_Ok & Hstep).
  destruct (verify_decryption_share _ _ _ _ _) as [[]|e] eqn:Hv; cbn [is_ok] in Hstep.
  - injection Hstep as <- <-. exists more. split; [done|]. rewrite Hmore, fmap_cons, NoDup_cons.
    setoid_rewrite elem_of_cons. split.
    + intros (Hnd & Hall). split; [split; [|done]|].
      * intros (s & Hs & Hin)%list_elem_of_fmap. destruct (Hall s Hin) as [Hcs _].
        rewrite <-Hs in Hcs. rewrite (proj2 (contains_map_insert _ _ seen)) in Hcs; [done|auto].
      * intros s [->|Hin]; [split; [done|by exists ps]|]. destruct (Hall s Hin) as [Hcs ?].
        split; [|done]. destruct (BTreeSet.contains (ds_participant s) seen) eqn:E; [|done].
        rewrite (proj2 (contains_map_insert _ _ seen)) in Hcs; [done|auto].
    + intros ((Hni & Hnd) & Hall). split; [done|]. intros s Hin.
      destruct (Hall s) as [Hcs ?]; [auto|]. split; [|done].
      destruct (BTreeSet.contains (ds_participant s)
        (BTreeMap.insert (ds_participant share) () seen)) eqn:E; [|done].
      apply contains_map_insert in E as [E|E]; [|congruence].
      destruct Hni. apply list_elem_of_fmap. by exists s.
  - injection Hstep as <- <-. exists (pi_get (ds_participant share) :: more).
    rewrite Hst, <-app_assoc. split; [done|]. split; [done|].
    intros [_ Hall]. destruct (Hall share ltac:(left)) as [_ (ps' & Hps' & Hv')]. congruence.
Qed.

(** Every known participant: the loop does not abort. *)
Lemma selected_loop_total self S message shares state :
  (∀ share, share ∈ shares → is_Some (public_share (cb_public_key_set self) (ds_participant share))) →
  ∃ st, fold_result (selected_step self S message) state shares = Ok st.
Proof.
  revert state. induction shares as [|share shares IH]; intros [seen malformed] Hall;
    cbn [fold_result]; [by eexists|].
  assert (∃ state', selected_step self S message (seen, malformed) share = Ok state')
    as (state' & ->).
  { unfold selected_step. cbn [BTreeSet.insert].
    destruct (negb (negb _)); [by eexists|]. destruct (Hall share ltac:(left)) as [ps ->].
    cbn [ok_or map_err mbind result_bind]. destruct (is_ok _); by eexists. }
  cbn [mbind result_bind]. apply IH. intros; apply Hall; by right.
Qed.

(** The quorum search keeps the first valid share of every participant. *)
Definition search_inv (self : Combiner) (S : Element) (message : Ciphertext)
    (done : list DecryptionShare)
    (state : list (ParticipantIndex * unit) * list Z * list DecryptionShare) : Prop :=
  let '(accepted, malformed, valid) := state in
  NoDup (ds_participant <$> valid) ∧
  (∀ p, BTreeSet.contains p accepted = true ↔ p ∈ ds_participant <$> valid) ∧
  (∀ share, share ∈ valid → share ∈ done ∧ valid_share self S message share) ∧
  (∀ share, share ∈ done → valid_share self S message share →
     ds_participant share ∈ ds_participant <$> valid) ∧
  (length valid + length malformed = length done)%nat.

Lemma search_step self S message done state share :
  search_inv self S message done state →
  search_inv self S message (done ++ [share]) (verify_shares_step self message S state share).
Proof.
  destruct state as [[accepted malformed] valid]. intros (Hnd & Hacc & Hval & Hdone & Hlen).
  assert (Hkeep : (∀ s, s ∈ done ++ [share] → valid_share self S message s →
      ds_participant s ∈ ds_participant <$> valid) →
    search_inv self S message (done ++ [share])
      (accepted, malformed ++ [pi_get (ds_participant share)], valid)).
  { intros Hd. split; [done|]. split; [done|]. split; [|split; [done|rewrite !length_app; simpl; lia]].
    intros s Hs. destruct (Hval s Hs). split; [|done]. apply elem_of_app. by left. }
  unfold verify_shares_step.
  destruct (BTreeSet.contains (ds_participant share) accepted) eqn:Hc.
  { apply Hkeep. intros s [Hs|Hs]%elem_of_app Hv; [by apply Hdone|].
    apply list_elem_of_singleton in Hs as ->. by apply Hacc. }
  assert (Hni : ds_participant share ∉ ds_participant <$> valid).
  { intros Hin. apply Hacc in Hin. congruence. }
  destruct (public_share _ _) as [ps|] eqn:Hps.
  2: { apply Hkeep. intros s [Hs|Hs]%elem_of_app Hv; [by apply Hdone|].
       apply list_elem_of_singleton in Hs as ->. destruct Hv as (? & ? & _). congruence. }
  destruct (verify_decryption_share _ _ _ _ _) as [[]|e] eqn:Hv'.
  2: { apply Hkeep. intros s [Hs|Hs]%elem_of_app Hv; [by apply Hdone|].
       apply list_elem_of_singleton in Hs as ->. destruct Hv as (ps' & Hps' & Hv). congruence. }
  assert (Hvs : valid_share self S message share) by (by exists ps).
  unfold search_inv. rewrite !fmap_app. split; [|split; [|split; [|split]]].
  - apply NoDup_app. split; [done|]. split; [|by apply NoDup_singleton].
    intros p Hp ->%list_elem_of_singleton. contradiction.
  - intros p. rewrite BTreeSet.contains_insert, Hacc, elem_of_app.
    change (ds_participant <$> [share]) with [ds_participant share].
    rewrite list_elem_of_singleton. tauto.
  - intros s [Hs|Hs]%elem_of_app; rewrite elem_of_app, list_elem_of_singleton.
    + destruct (Hval s Hs). auto.
    + apply list_elem_of_singleton in Hs as ->. auto.
  - intros s [Hs|Hs]%elem_of_app Hv; rewrite elem_of_app; [left; by apply Hdone|right].
    apply list_elem_of_singleton in Hs as ->. by apply list_elem_of_singleton.
  - rewrite !length_app. simpl. lia.
Qed.

Lemma verify_shares_spec self message S shares :
  let '(valid, malformed) := verify_shares self message S shares in
  NoDup (ds_participant <$> valid) ∧
  (∀ share, share ∈ valid → share ∈ shares ∧ valid_share self S message share) ∧
  (∀ share, share ∈ shares → valid_share self S message share →
     ds_participant share ∈ ds_participant <$> valid) ∧
  (length valid + length malformed = length shares)%nat.
Proof.
  unfold verify_shares.
  assert (Hinv : ∀ done state, search_inv self S message done state →
    search_inv self S message (done ++ shares)
      (foldl (verify_shares_step self message S) state shares)).
  { induction shares as [|share shares IH]; intros done state Hs; cbn [foldl].
    - by rewrite app_nil_r.
    - rewrite cons_middle, app_assoc. by apply IH, search_step. }
  specialize (Hinv [] ([], [], [])).
  destruct (foldl _ _ _) as [[accepted malformed] valid].
  destruct Hinv as (? & _ & ? & ? & ?); [|done].
  split; [constructor|]. split; [intros p; rewrite contains_nil, elem_of_nil; done|].
  split; [by intros s ?%elem_of_nil|]. split; [by intros s ?%elem_of_nil|done].
Qed.
End loops.

(** Sublists of participants with distinct points. *)
Lemma points_sub `{GroupModule} ps qs xs :
  points qs xs → NoDup ps → (∀ p, p ∈ ps → p ∈ qs) → ∃ ys, points ps ys.
Proof.
  intros Hpts Hnd Hsub.
  assert (Hex : ∀ ps', (∀ p, p ∈ ps' → p ∈ qs) →
    ∃ ys, Forall2 (λ p x, to_scalar (F:=Scalar) p = Ok x) ps' ys).
  { induction ps' as [|p ps' IH]; intros Hs; [by exists []|].
    destruct IH as [ys Hys]; [intros; apply Hs; by right|].
    destruct (points_elem _ _ p Hpts ltac:(apply Hs; left)) as (x & _ & Hx).
    exists (x :: ys). by constructor. }
  destruct (Hex ps Hsub) as [ys Hys]. exists ys. split; [done|].
  apply NoDup_alt. intros i j y Hi Hj.
  destruct (Forall2_lookup_r _ _ _ _ _ Hys Hi) as (p & Hp & Hpy).
  destruct (Forall2_lookup_r _ _ _ _ _ Hys Hj) as (q & Hq & Hqy).
  assert (p = q) as ->; [|by eapply NoDup_lookup].
  eapply points_inj; [exact Hpts|..|exact Hpy|exact Hqy];
    apply Hsub; by eapply list_elem_of_lookup_2.
Qed.

(** ** Combining *)
Section combining.
Context `{GroupModule} `{!GoldenHashToGroup} `{!GroupCodec} `{Sha256Laws} `{!HashToGroupLaws}
  `{Hkdf} `{XChaCha20Laws}.
Abbreviation geval := (meval (H0:=element_module)).
Add Field combine_field : (scalar_field_theory (F:=Scalar)).

(** The share of [p] is [f(p) R + g(p) S]. *)
Definition correct_share (fs gs : list Scalar) (S : Element) (message : Ciphertext)
    (share : DecryptionShare) : Prop :=
  ∀ x, to_scalar (ds_participant share) = Ok x →
    ds_share share = ct_ephemeral_public message ⊠ meval fs x ⊞ S ⊠ meval gs x.

Lemma combine_correct_shares message (shares : list DecryptionShare) xs fs gs S :
  points (ds_participant <$> shares) xs → length fs = length gs →
  (length fs ≤ length shares)%nat → meval gs 0 = 0 →
  (∀ share, share ∈ shares → correct_share fs gs S message share) →
  combine_verified message shares
  = map_err Eh.Ciphertext
      (apply_payload_mask (ct_encrypted_payload message) (ct_ephemeral_public message)
         (ct_ephemeral_public message ⊠ meval fs 0)).
Proof.
  intros Hpts Hfg Hlen Hg Hall.
  rewrite (combine_verified_meval message shares xs
    (pair_coefficients (ct_ephemeral_public message) S fs gs) Hpts).
  - rewrite pair_meval by done. by rewrite Hg, gmul_0, gadd_id_r.
  - unfold pair_coefficients. rewrite length_zip_with. lia.
  - intros share x Hin Hx. rewrite pair_meval by done. by apply Hall.
Qed.

Lemma combine_selected_Ok self message dc shares plaintext :
  combine_selected self message dc shares = Ok plaintext ↔
  verify_ciphertext message = Ok () ∧
  ∃ S, decryption_group (cb_setup_context self) message dc = Ok S ∧
    NoDup (ds_participant <$> shares) ∧
    (∀ share, share ∈ shares → valid_share self S message share) ∧
    combine_verified message shares = Ok plaintext.
Proof.
  unfold combine_selected. split.
  - intros ([] & Hv%map_err_Ok & (S & HS%map_err_Ok & ([seen malformed] & Hl & Hc)%bind_Ok)%bind_Ok)%bind_Ok.
    split; [done|]. exists S. split; [done|].
    destruct (selected_loop _ _ _ _ _ _ _ Hl) as (more & Hm & Hiff). simpl in Hm. subst malformed.
    destruct (bool_decide (more = [])) eqn:Hb; cbn [negb] in Hc; [|done].
    apply bool_decide_eq_true in Hb. apply Hiff in Hb as [Hnd Hall].
    split; [done|]. split; [|done]. intros share Hin. by apply Hall.
  - intros (Hv & S & HS & Hnd & Hall & Hc). rewrite Hv, HS. cbn [map_err mbind result_bind].
    destruct (selected_loop_total self S message shares ([], [])) as ([seen malformed] & Hl).
    { intros share Hin. destruct (Hall share Hin) as (ps & Hps & _). by exists ps. }
    rewrite Hl. cbn [mbind result_bind].
    destruct (selected_loop _ _ _ _ _ _ _ Hl) as (more & Hm & Hiff). simpl in Hm. subst malformed.
    assert (more = []) as ->; [|done]. apply Hiff. split; [done|]. intros share Hin.
    split; [apply contains_nil|auto].
Qed.

Lemma seal_Some `{CryptoRngCore R} fuel key (rng rng' : R) plaintext ad message :
  seal_bytes_with_associated_data fuel key rng plaintext ad = Some (Ok message, rng') →
  ∃ r r', r ≠ szero ∧ seal_with key r r' plaintext ad = Ok message.
Proof.
  unfold seal_bytes_with_associated_data.
  destruct (random_nonzero_scalar fuel rng) as [[r rng1]|] eqn:Hr; [|done]. simpl.
  destruct (random_nonzero_scalar fuel rng1) as [[r' rng2]|] eqn:Hr'; [|done]. simpl.
  intros Hs. exists r, r'. split; [by eapply random_nonzero_scalar_nonzero|congruence].
Qed.

Lemma decrypt_share_Some `{CryptoRngCore R} fuel sk (rng rng' : R) setup message dc share :
  decrypt_share fuel sk rng setup message dc = Some (Ok share, rng') →
  verify_ciphertext message = Ok () ∧
  ∃ S nx nz, decryption_group setup message dc = Ok S ∧
    decrypt_share_with sk setup message S nx nz = Ok share.
Proof.
  unfold decrypt_share, decrypt_share_with_associated_data. rewrite bool_decide_eq_true_2 by done.
  cbn [negb]. destruct (verify_ciphertext message) as [[]|]; [|done].
  destruct (decryption_group setup message dc) as [S|]; [|done].
  destruct (random_nonzero_scalar fuel rng) as [[nx rng1]|]; [|done]. simpl.
  destruct (random_nonzero_scalar fuel rng1) as [[nz rng2]|]; [|done]. simpl.
  intros Hs. split; [done|]. exists S, nx, nz. split; [done|congruence].
Qed.

(** Shares dealt with [f] and [g] and decrypted by their owners. *)
Definition dealt_share `{CryptoRngCore R} self message dc (fs gs : list Scalar)
    (share : DecryptionShare) (p : ParticipantIndex) : Prop :=
  ∃ x fuel (rng rng' : R),
    to_scalar p = Ok x ∧
    public_share (cb_public_key_set self) p
    = Some (MkPublicShare (mul_generator (meval fs x)) (mul_generator (meval gs x))) ∧
    decrypt_share fuel (MkSecretShare p (meval fs x) (meval gs x)) rng
      (cb_setup_context self) message dc = Some (Ok share, rng').

Lemma dealt_share_correct `{CryptoRngCore R} self message dc fs gs share p :
  dealt_share (R:=R) self message dc fs gs share p →
  ds_participant share = p ∧
  ∃ S, decryption_group (cb_setup_context self) message dc = Ok S ∧
    valid_share self S message share ∧ correct_share fs gs S message share.
Proof.
  intros (x & fuel' & rng1 & rng2 & Hx & Hpub & Hd).
  apply decrypt_share_Some in Hd as (_ & S & nx & nz & HS & Hd).
  destruct (decrypt_share_with_verifies _ _ _ _ _ _ _ Hd) as (Hp & HW & Hver).
  cbn [ss_participant ss_decryption ss_context] in Hp, HW. split; [done|]. exists S.
  split; [done|]. split.
  - exists (public_of (MkSecretShare p (meval fs x) (meval gs x))). by rewrite Hp.
  - intros y Hy. rewrite Hp, Hx in Hy. by injection Hy as <-.
Qed.

Lemma dealt_shares_correct `{CryptoRngCore R} self message dc fs gs shares ps :
  Forall2 (dealt_share (R:=R) self message dc fs gs) shares ps → ps ≠ [] →
  ds_participant <$> shares = ps ∧
  ∃ S, decryption_group (cb_setup_context self) message dc = Ok S ∧
    ∀ share, share ∈ shares →
      valid_share self S message share ∧ correct_share fs gs S message share.
Proof.
  intros Hshares Hne. split.
  - clear Hne. induction Hshares as [|share p shares ps Hsp _ IH]; [done|]. csimpl.
    destruct (dealt_share_correct _ _ _ _ _ _ _ Hsp) as [-> _]. by rewrite IH.
  - destruct Hshares as [|share p shares ps Hsp Hrest]; [done|].
    destruct (dealt_share_correct _ _ _ _ _ _ _ Hsp) as (_ & S & HS & Hv & Hc). exists S.
    split; [done|]. intros share' [->|Hin]%elem_of_cons; [done|].
    apply list_elem_of_lookup in Hin as [i Hi].
    destruct (Forall2_lookup_l _ _ _ _ _ Hrest Hi) as (q & _ & Hq).
    destruct (dealt_share_correct _ _ _ _ _ _ _ Hq) as (_ & S' & HS' & Hv' & Hc').
    assert (S' = S) as -> by congruence. done.
Qed.

(** The plaintext under the key [f(0) G]. *)
Lemma sealed_plaintext fs (r r' : Scalar) plaintext ad message :
  r ≠ szero →
  seal_with (MkSealingKey (mul_generator (meval fs 0))) r r' plaintext ad = Ok message →
  verify_ciphertext message = Ok () ∧
  apply_payload_mask (ct_encrypted_payload message) (ct_ephemeral_public message)
    (ct_ephemeral_public message ⊠ meval fs 0) = Ok plaintext.
Proof.
  intros Hr Hs. destruct (seal_with_verifies _ _ _ _ _ _ Hr Hs) as (_ & HR & Hv & Hm).
  split; [done|]. rewrite HR in *. cbn [sk_joint_public_key] in Hm.
  rewrite mul_generator_mul in *. by rewrite (smul_comm r).
Qed.

Lemma combine_exact_dealt self message dc shares (R : Type) (rng_ops : CryptoRngCore R) fs gs fuel
    (rng rng' : R) plaintext ad ps xs :
  let threshold := pks_threshold (cb_public_key_set self) in
  (0 < threshold)%Z → len fs = threshold → length gs = length fs → meval gs 0 = 0 →
  seal_bytes_with_associated_data fuel (MkSealingKey (mul_generator (meval fs 0))) rng
    plaintext ad = Some (Ok message, rng') →
  points ps xs → len ps = threshold →
  Forall2 (dealt_share (R:=R) self message dc fs gs) shares ps →
  combine_exact self message dc shares = Ok plaintext.
Proof.
  intros threshold Ht Hf Hgf Hg Hseal Hpts Hps Hshares. unfold combine_exact. fold threshold.
  destruct (seal_Some _ _ _ _ _ _ _ Hseal) as (r & r' & Hr & Hs).
  destruct (sealed_plaintext fs r r' plaintext ad message Hr Hs) as [Hv Hm].
  assert (Hlen : length shares = length ps) by (by apply Forall2_length in Hshares).
  destruct (dealt_shares_correct _ _ _ _ _ _ _ Hshares) as (Hparts & S & HS & Hall).
  { intros ->. unfold len in Hps. simpl in Hps. lia. }
  rewrite (proj2 (Z.eqb_eq _ _)) by (unfold len in *; lia). cbn [negb].
  apply combine_selected_Ok. split; [done|]. exists S. split; [done|].
  rewrite Hparts. split; [by eapply points_NoDup|]. split; [intros share Hin; by apply Hall|].
  rewrite (combine_correct_shares message shares xs fs gs S); [by rewrite Hm| |done| |done|].
  - by rewrite Hparts.
  - unfold len in *. lia.
  - intros share Hin. by apply Hall.
Qed.
End combining.

(** ** Properties *)

(** A validator's share verifies.  With a generator that does not produce
    more than [n] zeros in a row, [decrypt_share] on an accepted ciphertext
    terminates, and a share it returns is [x_i R + z_i S] for the validator's
    participant and passes the combiner's check against the public share
    [(x_i G, z_i G)]; the only refusal left is that of the challenge hash. *)
Theorem decrypt_share_verifies `{GroupModule} `{!GoldenHashToGroup} `{Sha256} `{CryptoRngCore R}
    n fuel sk (rng : R) setup message dc S :
  draws_nonzero (F:=Scalar) n rng → (n ≤ fuel)%nat →
  verify_ciphertext message = Ok () → decryption_group setup message dc = Ok S →
  ∃ outcome rng',
    decrypt_share fuel sk rng setup message dc = Some (outcome, rng') ∧
    match outcome with
    | Ok share =>
        ds_participant share = ss_participant sk ∧
        ds_share share = ct_ephemeral_public message ⊠ ss_decryption sk ⊞ S ⊠ ss_context sk ∧
        verify_decryption_share setup S message share
          (MkPublicShare (mul_generator (ss_decryption sk)) (mul_generator (ss_context sk)))
        = Ok ()
    | Err e => e = Eh.ScalarDerivationFailed
    end.
Proof.
  intros Hd Hn Hv HS. destruct (random_nonzero_scalar_total n fuel rng Hd Hn) as (nx & k & Hx).
  destruct (random_nonzero_scalar_total n fuel (after_draws (F:=Scalar) k rng)
    (draws_nonzero_after n k rng Hd) Hn) as (nz & k' & Hz).
  unfold decrypt_share, decrypt_share_with_associated_data. rewrite bool_decide_eq_true_2 by done.
  cbn [negb]. rewrite Hv, HS, Hx. simpl. rewrite Hz. simpl. do 2 eexists. split; [done|].
  destruct (decrypt_share_with sk setup message S nx nz) as [share|e] eqn:Hs.
  - exact (decrypt_share_with_verifies sk setup message S nx nz share Hs).
  - unfold decrypt_share_with, share_challenge, hash_to_nonzero_scalar in Hs.
    destruct (hash_to_scalar _ _); cbn [map_err mbind result_bind] in Hs; congruence.
Qed.

(** Special soundness of the share proof.  Two accepting shares of one
    ciphertext and one public share, each checked with its own hash function,
    that put the same query to [Hdcd] and got different answers, give both
    secrets of the participant, and the share point is [x_i R + z_i S] for
    them. *)
Theorem share_proof_soundness `{GroupModule} `{!GoldenHashToGroup} `{!GroupCodec}
    (hash1 hash2 : Sha256) (laws1 : @Sha256Laws hash1) (laws2 : @Sha256Laws hash2)
    setup S message share1 share2 public_share :
  @verify_decryption_share _ hash1 setup S message share1 public_share = Ok () →
  @verify_decryption_share _ hash2 setup S message share2 public_share = Ok () →
  @hdcd_transcript _ hash1 (share_query setup S message share1 public_share)
  = @hdcd_transcript _ hash2 (share_query setup S message share2 public_share) →
  @share_challenge _ hash1 (share_query setup S message share1 public_share)
  ≠ @share_challenge _ hash2 (share_query setup S message share2 public_share) →
  let d := sinv (ds_challenge share1 - ds_challenge share2) in
  let x := (ds_decryption_response share1 - ds_decryption_response share2) * d in
  let z := (ds_context_response share1 - ds_context_response share2) * d in
  ps_decryption public_share = mul_generator x ∧ ps_context public_share = mul_generator z ∧
  ds_share share1 = ct_ephemeral_public message ⊠ x ⊞ S ⊠ z.
Proof.
  intros Hv1 Hv2 Hq Hans d x z.
  apply (verify_decryption_share_Ok (H3:=hash1)) in Hv1.
  apply (verify_decryption_share_Ok (H3:=hash2)) in Hv2. rewrite Hv1, Hv2 in Hans.
  assert (Hne : ds_challenge share1 ≠ ds_challenge share2) by congruence.
  apply hdcd_transcript_inj in Hq as (HX & HZ & HW & _ & _ & _ & Hsh); [|apply length_sha256..].
  unfold share_query in HX, HZ, HW, Hsh.
  cbn [sci_public_decryption_commitment sci_public_context_commitment
    sci_share_commitment sci_share] in HX, HZ, HW, Hsh.
  rewrite !mul_generator_gmul in HX, HZ. rewrite <-Hsh in HW. rewrite !mul_generator_gmul.
  split; [by apply response_extract|]. split; [by apply response_extract|].
  unfold x, z. rewrite <-!gmul_mul, <-gmul_add_l.
  apply (response_extract_gen _ _ _ _ _ _ Hne HW).
  rewrite <-(ssub_add (ds_decryption_response share1) (ds_decryption_response share2)) at 1.
  rewrite <-(ssub_add (ds_context_response share1) (ds_context_response share2)) at 1.
  rewrite !gmul_add_r. etrans; [exact (madd_interchange (SM:=element_module) _ _ _ _)|].
  apply gadd_comm.
Qed.

(** C25: the exact combiner.  It returns bytes only for an accepted ciphertext and
    exactly threshold shares, from distinct participants, that all verify against
    the registered public shares.  And it decrypts: for keys dealt with the
    polynomials [f] and [g] of [threshold] coefficients, [g(0) = 0], a ciphertext
    that [seal_bytes_with_associated_data] returned for the key [f(0) G] and the
    shares that [decrypt_share] returned for it and for the same decryption
    context to [threshold] participants with distinct interpolation points, it
    returns the plaintext, whatever the order of the shares. *)
Theorem combine_exact_correct `{GroupModule} `{!GoldenHashToGroup} `{!GroupCodec} `{Sha256Laws}
    `{!HashToGroupLaws} `{Hkdf} `{XChaCha20Laws} self message dc shares :
  let keys := cb_public_key_set self in
  (∀ plaintext, combine_exact self message dc shares = Ok plaintext →
     verify_ciphertext message = Ok () ∧ len shares = pks_threshold keys ∧
     NoDup (ds_participant <$> shares) ∧
     ∃ S, decryption_group (cb_setup_context self) message dc = Ok S ∧
       ∀ share, share ∈ shares → ∃ ps,
         public_share keys (ds_participant share) = Some ps ∧
         verify_decryption_share (cb_setup_context self) S message share ps = Ok ()) ∧
  (∀ (R : Type) (rng_ops : CryptoRngCore R) fs gs fuel (rng rng' : R) plaintext ad ps xs,
     (0 < pks_threshold keys)%Z → len fs = pks_threshold keys → length gs = length fs →
     meval gs 0 = 0 →
     seal_bytes_with_associated_data fuel (MkSealingKey (mul_generator (meval fs 0))) rng
       plaintext ad = Some (Ok message, rng') →
     points ps xs → len ps = pks_threshold keys →
     Forall2 (dealt_share (R:=R) self message dc fs gs) shares ps →
     combine_exact self message dc shares = Ok plaintext).
Proof.
  intros keys. split.
  - intros plaintext. unfold combine_exact. fold keys. intros Hc.
    destruct (Z.eqb_spec (len shares) (pks_threshold keys)); [|done].
    apply combine_selected_Ok in Hc as (Hv & S & HS & Hnd & Hall & _).
    split; [done|]. split; [done|]. split; [done|]. by exists S.
  - intros. by eapply combine_exact_dealt.
Qed.

(** C24: the quorum search.  Whatever list of shares arrives — duplicates, shares
    of unknown participants, shares that fail their check — it returns the
    plaintext as soon as [threshold] registered participants have a share in it
    that verifies, and refuses the list otherwise.  The shares that verify are
    taken to be the correct ones, [f(p) R + g(p) S]: this is what the soundness
    of the share proof provides. *)
Theorem combine_quorum_correct `{GroupModule} `{!GoldenHashToGroup} `{!GroupCodec} `{Sha256Laws}
    `{!HashToGroupLaws} `{Hkdf} `{XChaCha20Laws} self message dc shares S xs fs gs plaintext :
  let keys := cb_public_key_set self in
  points (BTreeMap.keys (pks_public_shares keys)) xs →
  (0 < pks_threshold keys)%Z → len fs = pks_threshold keys → length gs = length fs →
  meval gs 0 = 0 →
  verify_ciphertext message = Ok () → decryption_group (cb_setup_context self) message dc = Ok S →
  (∀ share, share ∈ shares → valid_share self S message share →
     correct_share fs gs S message share) →
  apply_payload_mask (ct_encrypted_payload message) (ct_ephemeral_public message)
    (ct_ephemeral_public message ⊠ meval fs 0) = Ok plaintext →
  let quorum := ∃ ps, NoDup ps ∧ len ps = pks_threshold keys ∧
    ∀ p, p ∈ ps → ∃ share, share ∈ shares ∧ ds_participant share = p ∧
      valid_share self S message share in
  match combine_quorum self message dc shares with
  | Ok opened => quorum ∧ opened = plaintext
  | Err (Eh.MalformedShares ids) => ¬ quorum ∧ ids ≠ []
  | Err (Eh.InsufficientShares required provided) =>
      ¬ quorum ∧ required = pks_threshold keys ∧ provided = len shares
  | Err (Eh.Ciphertext _) => False
  end.
Proof.
  intros keys Hpts Ht Hf Hgf Hg Hv HS Hcorrect Hm quorum.
  unfold combine_quorum. rewrite Hv, HS. cbn [map_err mbind result_bind].
  pose proof (verify_shares_spec self message S shares) as Hspec.
  destruct (verify_shares self message S shares) as [valid malformed].
  destruct Hspec as (Hnd & Hval & Hall & Hlen). fold keys.
  destruct (Z.ltb_spec (len valid) (pks_threshold keys)) as [Hlt|Hge].
  - assert (Hno : ¬ quorum).
    { intros (ps & Hps & Hpl & Hq). assert (Hle : (length ps ≤ length (ds_participant <$> valid))%nat).
      { apply submseteq_length, NoDup_submseteq; [done|]. intros p Hp.
        destruct (Hq p Hp) as (share & Hin & <- & Hvs). by apply Hall. }
      rewrite length_fmap in Hle. unfold len in *. lia. }
    case_bool_decide as Hnil; cbn [negb]; [|done].
    split; [done|]. split; [done|]. subst malformed. simpl in Hlen. unfold len. lia.
  - set (picked := take (Z.to_nat (pks_threshold keys)) valid).
    assert (Hpicked : length picked = Z.to_nat (pks_threshold keys)).
    { unfold picked. rewrite length_take. unfold len in Hge. lia. }
    assert (Hpsub : ∀ share, share ∈ picked → share ∈ valid) 
      by (intros share (i & Hi & _)%elem_of_take; by eapply list_elem_of_lookup_2).
    destruct (points_sub (ds_participant <$> picked) _ xs Hpts) as (ys & Hys).
    { unfold picked. rewrite fmap_take.
      rewrite <-(take_drop (Z.to_nat (pks_threshold keys)) (ds_participant <$> valid)) in Hnd.
      by apply NoDup_app in Hnd as [? _]. }
    { intros p (share & -> & Hin)%list_elem_of_fmap.
      destruct (Hval share (Hpsub _ Hin)) as (_ & ps & Hps & _).
      apply BTreeMap.get_is_Some. by exists ps. }
    rewrite (combine_correct_shares message picked ys fs gs S Hys).
    + rewrite Hm. cbn [map_err]. split; [|done]. exists (ds_participant <$> picked).
      split; [by eapply points_NoDup|]. split; [unfold len; rewrite length_fmap; lia|].
      intros p (share & -> & Hin)%list_elem_of_fmap. exists share.
      destruct (Hval share (Hpsub _ Hin)). done.
    + done.
    + unfold len in *. lia.
    + done.
    + intros share Hin. destruct (Hval share (Hpsub _ Hin)). by apply Hcorrect.
Qed.

(** ** Witnesses *)
Definition tiny_context : list byte := bstr "context".
Definition tiny_sk (p : ParticipantIndex) : SecretShare (H:=TinyGroup) :=
  MkSecretShare (H:=TinyGroup) p (tiny_x p) (tiny_z p).
Definition tiny_decrypted (p : ParticipantIndex) : DecryptionShare (H:=TinyGroup) :=
  match decrypt_share (H:=TinyGroup) 1 (tiny_sk p) () tiny_setup tiny_ciphertext tiny_context with
  | Some (Ok share, _) => share
  | _ => MkDecryptionShare (H:=TinyGroup) p (tiny 0) (tiny 0) (tiny 0) (tiny 0)
  end.
Definition tiny_forged (p : ParticipantIndex) : DecryptionShare (H:=TinyGroup) :=
  let share := tiny_decrypted p in
  MkDecryptionShare (H:=TinyGroup) p (gadd (GoldenGroup:=TinyGroup) (ds_share share) (tiny 1))
    (ds_challenge share) (ds_decryption_response share) (ds_context_response share).
Definition tiny_combiner : Combiner (H:=TinyGroup) := MkCombiner (H:=TinyGroup) tiny_key_set tiny_setup.
Definition p1 : ParticipantIndex := MkParticipantIndex 1.
Definition p3 : ParticipantIndex := MkParticipantIndex 3.

Lemma tiny_decrypt_Some p :
  p ∈ tiny_three →
  decrypt_share (H:=TinyGroup) 1 (tiny_sk p) () tiny_setup tiny_ciphertext tiny_context
  = Some (Ok (tiny_decrypted p), ()).
Proof.
  intros Hp. unfold tiny_three in Hp. rewrite !elem_of_cons, elem_of_nil in Hp.
  destruct Hp as [->|[->|[->|[]]]]; vm_refl.
Qed.

Lemma tiny_decryption_group :
  decryption_group (H:=TinyGroup) tiny_setup tiny_ciphertext tiny_context = Ok (tiny 54).
Proof. vm_refl. Qed.
Lemma tiny_ciphertext_verifies : verify_ciphertext (H:=TinyGroup) tiny_ciphertext = Ok ().
Proof. vm_refl. Qed.

Lemma decrypt_share_verifies_witness :
  decrypt_share (H:=TinyGroup) 1 (tiny_sk p1) () tiny_setup tiny_ciphertext tiny_context
    = Some (Ok (tiny_decrypted p1), ()) ∧
  verify_decryption_share (H:=TinyGroup) tiny_setup (tiny 54) tiny_ciphertext (tiny_decrypted p1)
    (MkPublicShare (H:=TinyGroup) (mul_generator (GoldenGroup:=TinyGroup) (tiny_x p1))
       (mul_generator (GoldenGroup:=TinyGroup) (tiny_z p1))) = Ok ().
Proof.
  assert (Hd : decrypt_share (H:=TinyGroup) 1 (tiny_sk p1) () tiny_setup tiny_ciphertext tiny_context
               = Some (Ok (tiny_decrypted p1), ())) by (apply tiny_decrypt_Some; left).
  split; [exact Hd|].
  destruct (decrypt_share_verifies (H:=TinyGroup) 1 1 (tiny_sk p1) () tiny_setup tiny_ciphertext
    tiny_context (tiny 54) const_draws (le_n 1) tiny_ciphertext_verifies tiny_decryption_group)
    as (outcome & rng' & Ho & Hc).
  rewrite Hd in Ho. injection Ho as <- <-. exact (proj2 (proj2 Hc)).
Defined.

(** The shares of two rewound runs with the nonces 3 and 4. *)
Definition rewound_share (e : Z) : DecryptionShare (H:=TinyGroup) :=
  MkDecryptionShare (H:=TinyGroup) p1 (tiny (5 * 18 + 9 * 13)) (tiny e) (tiny (3 + e * 18))
    (tiny (4 + e * 13)).

Lemma rewound_laws c : @Sha256Laws (rewound c).
Proof. split. intros m. cbn [sha256 rewound]. apply length_replicate. Qed.

Lemma share_proof_soundness_witness :
  let ps := MkPublicShare (H:=TinyGroup) (tiny 18) (tiny 13) in
  @verify_decryption_share TinyGroup (rewound x02) tiny_setup (tiny 9) tiny_ciphertext
    (rewound_share 2) ps = Ok () ∧
  @verify_decryption_share TinyGroup (rewound x03) tiny_setup (tiny 9) tiny_ciphertext
    (rewound_share 3) ps = Ok () ∧
  let d := sinv (ds_challenge (rewound_share 2) - ds_challenge (rewound_share 3)) in
  let x := (ds_decryption_response (rewound_share 2) - ds_decryption_response (rewound_share 3)) * d in
  let z := (ds_context_response (rewound_share 2) - ds_context_response (rewound_share 3)) * d in
  ps_decryption ps = mul_generator (GoldenGroup:=TinyGroup) x ∧
  ps_context ps = mul_generator (GoldenGroup:=TinyGroup) z ∧
  ds_share (rewound_share 2) = gadd (GoldenGroup:=TinyGroup)
    (gmul (GoldenGroup:=TinyGroup) (ct_ephemeral_public tiny_ciphertext) x)
    (gmul (GoldenGroup:=TinyGroup) (tiny 9) z).
Proof.
  intros ps.
  assert (H1 : @verify_decryption_share TinyGroup (rewound x02) tiny_setup (tiny 9) tiny_ciphertext
                 (rewound_share 2) ps = Ok ()) by vm_refl.
  assert (H2 : @verify_decryption_share TinyGroup (rewound x03) tiny_setup (tiny 9) tiny_ciphertext
                 (rewound_share 3) ps = Ok ()) by vm_refl.
  split; [exact H1|]. split; [exact H2|].
  refine (share_proof_soundness (H:=TinyGroup) (rewound x02) (rewound x03) (rewound_laws x02)
    (rewound_laws x03) tiny_setup (tiny 9) tiny_ciphertext (rewound_share 2) (rewound_share 3) ps
    H1 H2 _ _).
  - vm_refl.
  - assert (Ha1 : @share_challenge TinyGroup (rewound x02)
      (share_query tiny_setup (tiny 9) tiny_ciphertext (rewound_share 2) ps) = Ok (tiny 2)) by vm_refl.
    assert (Ha2 : @share_challenge TinyGroup (rewound x03)
      (share_query tiny_setup (tiny 9) tiny_ciphertext (rewound_share 3) ps) = Ok (tiny 3)) by vm_refl.
    rewrite Ha1, Ha2. intros E%Ok_inj%(f_equal tiny_val). vm_compute in E. discriminate.
Defined.

Definition tiny_fs : list TinyScalar := [tiny 11; tiny 7].
Definition tiny_gs : list TinyScalar := [tiny 0; tiny 13].

Lemma tiny_dealt_share p :
  p ∈ tiny_three →
  dealt_share (H:=TinyGroup) (R:=unit) tiny_combiner tiny_ciphertext tiny_context tiny_fs tiny_gs
    (tiny_decrypted p) p.
Proof.
  intros Hp. exists (tiny (pi_get p)), 1%nat, (), (). split; [done|]. split.
  - unfold tiny_three in Hp. rewrite !elem_of_cons, elem_of_nil in Hp.
    destruct Hp as [->|[->|[->|[]]]]; vm_refl.
  - replace (MkSecretShare (H:=TinyGroup) p (meval (M:=TinyScalar) tiny_fs (tiny (pi_get p)))
      (meval (M:=TinyScalar) tiny_gs (tiny (pi_get p)))) with (tiny_sk p); [by apply tiny_decrypt_Some|].
    unfold tiny_three in Hp. rewrite !elem_of_cons, elem_of_nil in Hp.
    destruct Hp as [->|[->|[->|[]]]]; vm_refl.
Qed.

Lemma combine_exact_correct_witness :
  combine_exact (H:=TinyGroup) tiny_combiner tiny_ciphertext tiny_context
    [tiny_decrypted p3; tiny_decrypted p1] = Ok (bstr "payload").
Proof.
  refine (proj2 (combine_exact_correct (H:=TinyGroup) tiny_combiner tiny_ciphertext tiny_context
    [tiny_decrypted p3; tiny_decrypted p1]) unit const_rng tiny_fs tiny_gs 1%nat () ()
    (bstr "payload") (bstr "ad") [p3; p1] [tiny 3; tiny 1] _ _ _ _ _ _ _ _).
  - reflexivity.
  - reflexivity.
  - reflexivity.
  - vm_refl.
  - vm_refl.
  - split; [repeat constructor; vm_refl|]. apply (bool_decide_unpack _). vm_compute. exact I.
  - reflexivity.
  - constructor; [|constructor; [|constructor]]; apply tiny_dealt_share; set_solver.
Defined.

Lemma tiny_valid_correct share :
  share ∈ [tiny_forged p1; tiny_decrypted p1; tiny_decrypted p1; tiny_decrypted p3] →
  valid_share (H:=TinyGroup) tiny_combiner (tiny 54) tiny_ciphertext share →
  correct_share (H:=TinyGroup) tiny_fs tiny_gs (tiny 54) tiny_ciphertext share.
Proof.
  intros Hin Hv. apply elem_of_cons in Hin as [->|Hin].
  - destruct Hv as (ps & Hps & Hv).
    assert (Hall : match public_share (H:=TinyGroup) tiny_key_set p1 with
      | Some ps => is_ok (verify_decryption_share (H:=TinyGroup) tiny_setup (tiny 54)
                            tiny_ciphertext (tiny_forged p1) ps)
      | None => true end = false) by vm_refl.
    change (public_share (H:=TinyGroup) tiny_key_set p1 = Some ps) in Hps. rewrite Hps in Hall.
    change (verify_decryption_share (H:=TinyGroup) tiny_setup (tiny 54) tiny_ciphertext
      (tiny_forged p1) ps = Ok ()) in Hv. by rewrite Hv in Hall.
  - assert (∃ p, p ∈ tiny_three ∧ share = tiny_decrypted p) as (p & Hp & ->).
    { do 2 (apply elem_of_cons in Hin as [Hin|Hin]; [exists p1; split; [by left|exact Hin]|]).
      apply elem_of_cons in Hin as [Hin|Hin]; [exists p3|by apply elem_of_nil in Hin].
      split; [by right; right; left|exact Hin]. }
    destruct (dealt_share_correct _ _ _ _ _ _ _ (tiny_dealt_share p Hp)) as (_ & S & HS & _ & Hc).
    change (decryption_group (cb_setup_context tiny_combiner) tiny_ciphertext tiny_context)
      with (decryption_group (H:=TinyGroup) tiny_setup tiny_ciphertext tiny_context) in HS.
    rewrite tiny_decryption_group in HS. by apply Ok_inj in HS as <-.
Qed.

Lemma combine_quorum_correct_witness :
  let shares := [tiny_forged p1; tiny_decrypted p1; tiny_decrypted p1; tiny_decrypted p3] in
  combine_quorum (H:=TinyGroup) tiny_combiner tiny_ciphertext tiny_context shares
    = Ok (bstr "payload") ∧
  ∃ ps, NoDup ps ∧ len ps = 2%Z ∧ ∀ p, p ∈ ps → ∃ share, share ∈ shares ∧ ds_participant share = p ∧
    valid_share (H:=TinyGroup) tiny_combiner (tiny 54) tiny_ciphertext share.
Proof.
  intros shares.
  pose proof (combine_quorum_correct (H:=TinyGroup) tiny_combiner tiny_ciphertext tiny_context
    shares (tiny 54) [tiny 1; tiny 2; tiny 3] tiny_fs tiny_gs (bstr "payload")) as Hq.
  assert (Hc : combine_quorum (H:=TinyGroup) tiny_combiner tiny_ciphertext tiny_context shares
               = Ok (bstr "payload")) by vm_refl.
  rewrite Hc in Hq. split; [exact Hc|]. apply Hq.
  - exact tiny_points.
  - reflexivity.
  - reflexivity.
  - reflexivity.
  - vm_refl.
  - exact tiny_ciphertext_verifies.
  - exact tiny_decryption_group.
  - exact tiny_valid_correct.
  - vm_refl.
Defined.
