(* ===== verification/Ehtdh1Bridge.v ===== *)
(** * From key generation to threshold encryption (golden-ehtdh1/dkg_bridge.rs)

    The conversion of two completed runs of the key generation into the material
    of the threshold encryption, and the whole chain from the runs to the
    decryption of a sealed payload. *)

From Stdlib Require Import ZArith Lia Field Strings.Byte.
From stdpp Require Import prelude strings.
From S2P Require Import Sampling.
From S2P Require Import Prelude BTree CoreError Group Algebra Poly Participant Shamir Feldman.
From S2P Require Import Transcript IdentityKey Registry Statement Dkg DkgHonest DkgComplete.
From S2P Require Import FakeBackend TestSupport Ehtdh1Context Ehtdh1Encrypt Ehtdh1Decrypt.

Local Open Scope golden_scope.

Record Ehtdh1Material `{GoldenGroup} := MkEhtdh1Material {
  mat_sealing_key : SealingKey;
  mat_public_key_set : PublicKeySet;
  mat_secret_share : SecretShare;
  mat_setup_context : SetupContext;
}.
Arguments MkEhtdh1Material {_} _ _ _ _.

Section bridge.
Context `{GoldenGroup} `{Sha256}.

(** The loop that pairs the public shares. *)
Definition bridge_shares (decryption_output context_output : DkgOutput)
    (participants : list ParticipantIndex) : EhResult PublicShares :=
  fold_result
    (λ public_shares participant,
       decryption ← ok_or (Eh.InvalidBridge "missing decryption public share")
                      (BTreeMap.get participant (out_public_key_shares decryption_output));
       context ← ok_or (Eh.InvalidBridge "missing context public share")
                   (BTreeMap.get participant (out_public_key_shares context_output));
       Ok (BTreeMap.insert participant (MkPublicShare decryption context) public_shares))
    BTreeMap.empty participants.

Definition material_from_dkg_outputs (decryption_config : DkgConfig)
    (decryption_output : DkgOutput) (context_config : DkgConfig) (context_output : DkgOutput)
    (epoch : list byte) : EhResult Ehtdh1Material :=
  if negb (config_threshold decryption_config =? config_threshold context_config)%Z
  then Err (Eh.InvalidBridge "threshold mismatch")
  else if negb (bool_decide (registry_root_field (config_registry decryption_config)
                             = registry_root_field (config_registry context_config)))
  then Err (Eh.InvalidBridge "registry root mismatch")
  else if negb (bool_decide (config_session_id context_config
                  = derive_context_session_id (config_session_id decryption_config)))
  then Err (Eh.InvalidBridge "context session mismatch")
  else if negb (bool_decide (share_participant (out_secret_share decryption_output)
                             = share_participant (out_secret_share context_output)))
  then Err (Eh.InvalidBridge "local participant mismatch")
  else if negb (bool_decide (BTreeMap.keys (out_public_key_shares decryption_output)
                             = BTreeMap.keys (out_public_key_shares context_output)))
  then Err (Eh.InvalidBridge "public share participant mismatch")
  else if negb (is_identity (out_public_key context_output))
  then Err (Eh.InvalidBridge "zero-sharing public key is not identity")
  else if is_identity (out_public_key decryption_output)
  then Err (Eh.InvalidBridge "decryption public key is identity")
  else
    let participants := registry_indexes (config_registry decryption_config) in
    if negb (bool_decide (participants = registry_indexes (config_registry context_config)))
    then Err (Eh.InvalidBridge "participant set mismatch")
    else
      public_shares ← bridge_shares decryption_output context_output participants;
      public_key_set ← PublicKeySet_new (config_threshold decryption_config)
                         (out_public_key decryption_output) public_shares;
      let secret_share :=
        MkSecretShare (share_participant (out_secret_share decryption_output))
          (share_value (out_secret_share decryption_output))
          (share_value (out_secret_share context_output)) in
      let setup_context := {|
        sc_backend_id := BACKEND_ID;
        sc_threshold := config_threshold decryption_config;
        sc_registry_root := registry_root_field (config_registry decryption_config);
        sc_participants := participants;
        sc_decryption_session_id := config_session_id decryption_config;
        sc_context_session_id := config_session_id context_config;
        sc_decryption_transcript_root := out_transcript_root decryption_output;
        sc_context_transcript_root := out_transcript_root context_output;
        sc_epoch := epoch;
      |} in
      sealing_key ← SealingKey_new (out_public_key decryption_output);
      Ok (MkEhtdh1Material sealing_key public_key_set secret_share setup_context).
End bridge.

(** ** Completed runs *)
Section runs.
Context `{GroupModule} `{!EvrfProofBackend} `{Sha256}.
Abbreviation geval := (meval (H0:=element_module)).

(** The configurations of the two runs belong together. *)
Definition paired_configs (dc cc : DkgConfig) : Prop :=
  config_threshold dc = config_threshold cc ∧
  registry_root_field (config_registry dc) = registry_root_field (config_registry cc) ∧
  registry_indexes (config_registry dc) = registry_indexes (config_registry cc) ∧
  config_session_id cc = derive_context_session_id (config_session_id dc).

(** [participant] completed the run of the dealings [all] with the output [out]. *)
Definition participant_run (config : DkgConfig) (all : list (ParticipantIndex * DealerMessage))
    (participant : ParticipantIndex) (out : DkgOutput) : Prop :=
  ∃ sk own peers, complete participant sk own peers config = Ok out ∧
    collect_dealings (dealing_message own) peers = Ok all.

(** The public shares of two outputs, and the material of their owner. *)
Definition paired_shares (dout cout : DkgOutput) (ps : list ParticipantIndex) : PublicShares :=
  BTreeMap.of_fun (λ p,
    MkPublicShare (default identity (BTreeMap.get p (out_public_key_shares dout)))
      (default identity (BTreeMap.get p (out_public_key_shares cout)))) ps.

Definition paired_setup (dc : DkgConfig) (dout : DkgOutput) (cc : DkgConfig) (cout : DkgOutput)
    (epoch : list byte) : SetupContext :=
  MkSetupContext BACKEND_ID (config_threshold dc) (registry_root_field (config_registry dc))
    (registry_indexes (config_registry dc)) (config_session_id dc) (config_session_id cc)
    (out_transcript_root dout) (out_transcript_root cout) epoch.

Definition paired_material (dc : DkgConfig) (dout : DkgOutput) (cc : DkgConfig)
    (cout : DkgOutput) (epoch : list byte) : Ehtdh1Material :=
  MkEhtdh1Material (MkSealingKey (out_public_key dout))
    (MkPublicKeySet (config_threshold dc) (out_public_key dout)
       (paired_shares dout cout (registry_indexes (config_registry dc))))
    (MkSecretShare (share_participant (out_secret_share dout))
       (share_value (out_secret_share dout)) (share_value (out_secret_share cout)))
    (paired_setup dc dout cc cout epoch).

Lemma bridge_shares_total dout cout ps :
  BTreeMap.sorted ps →
  (∀ p, p ∈ ps → is_Some (BTreeMap.get p (out_public_key_shares dout)) ∧
                 is_Some (BTreeMap.get p (out_public_key_shares cout))) →
  bridge_shares dout cout ps = Ok (paired_shares dout cout ps).
Proof.
  intros Hsorted Hall. unfold bridge_shares, paired_shares, BTreeMap.empty.
  erewrite <-BTreeMap.fold_insert_keys by done.
  generalize (@nil (ParticipantIndex * PublicShare)) as m. clear Hsorted.
  induction ps as [|p ps IH]; intros m; [done|]. cbn [fold_result foldl].
  destruct (Hall p ltac:(left)) as [[P ->] [Q ->]]. cbn [ok_or mbind result_bind default].
  apply IH. intros q Hq. apply Hall. by right.
Qed.

(** Every condition is checked before material is handed out. *)
Lemma material_checks dc dout cc cout epoch m :
  material_from_dkg_outputs dc dout cc cout epoch = Ok m →
  paired_configs dc cc ∧
  share_participant (out_secret_share dout) = share_participant (out_secret_share cout) ∧
  out_public_key cout = identity ∧ out_public_key dout ≠ identity ∧
  ∃ shares,
    bridge_shares dout cout (registry_indexes (config_registry dc)) = Ok shares ∧
    PublicKeySet_new (config_threshold dc) (out_public_key dout) shares
    = Ok (mat_public_key_set m) ∧
    mat_sealing_key m = MkSealingKey (out_public_key dout) ∧
    mat_secret_share m
    = MkSecretShare (share_participant (out_secret_share dout))
        (share_value (out_secret_share dout)) (share_value (out_secret_share cout)) ∧
    mat_setup_context m = paired_setup dc dout cc cout epoch.
Proof.
  unfold material_from_dkg_outputs, paired_configs.
  destruct (Z.eqb_spec (config_threshold dc) (config_threshold cc)); cbn [negb]; [|done].
  do 4 (case_bool_decide; cbn [negb]; [|done]).
  destruct (is_identity (out_public_key cout)) eqn:Hc; cbn [negb]; [|done].
  destruct (is_identity (out_public_key dout)) eqn:Hd; cbn [negb]; [done|].
  apply is_identity_true in Hc. apply is_identity_false in Hd.
  case_bool_decide; cbn [negb]; [|done].
  intros (shares & Hs & (keys & Hk & (sealing & Hkey & [= <-])%bind_Ok)%bind_Ok)%bind_Ok.
  unfold SealingKey_new in Hkey. rewrite (proj2 (is_identity_false _)) in Hkey by done.
  injection Hkey as <-. do 4 (split; [done|]). exists shares. done.
Qed.

(** The conditions of [material_from_dkg_outputs] on outputs of completed runs. *)
Record paired_runs (dc cc : DkgConfig) (xs : list Scalar) (p : ParticipantIndex)
    (dall call : list (ParticipantIndex * DealerMessage)) (dagg cagg : FeldmanCommitment)
    (dout cout : DkgOutput) := {
  pr_registry : registry_wf (config_registry dc);
  pr_threshold : (0 < config_threshold dc ≤ registry_len (config_registry dc))%Z;
  pr_configs : paired_configs dc cc;
  pr_points : points (registry_indexes (config_registry dc)) xs;
  pr_decryption : ∃ sk own peers, completed_run dc p sk own peers dout dall dagg;
  pr_context : ∃ sk own peers, completed_run cc p sk own peers cout call cagg;
  pr_context_registry : registry_wf (config_registry cc);
}.

Lemma paired_runs_intro dc cc xs p dall call dout cout :
  config_wf dc → config_wf cc → paired_configs dc cc →
  points (registry_indexes (config_registry dc)) xs →
  participant_run dc dall p dout → participant_run cc call p cout →
  ∃ dagg cagg, paired_runs dc cc xs p dall call dagg cagg dout cout.
Proof.
  intros Hd Hc Hpair Hpts (sk & own & peers & Hcd & Hda) (sk' & own' & peers' & Hcc & Hca).
  destruct (complete_run _ _ _ _ _ _ Hd Hcd) as (dall' & dagg & Hrd).
  destruct (complete_run _ _ _ _ _ _ Hc Hcc) as (call' & cagg & Hrc).
  assert (dall' = dall) as ->.
  { pose proof (run_dealings _ _ _ _ _ _ _ _ Hrd). congruence. }
  assert (call' = call) as ->.
  { pose proof (run_dealings _ _ _ _ _ _ _ _ Hrc). congruence. }
  exists dagg, cagg. destruct Hd as (? & ? & _), Hc as (? & _). constructor; eauto.
Qed.

(** The public shares of a completed run are the values of its commitment. *)
Lemma run_share_value config p sk own peers out all agg q (x : Scalar) :
  registry_wf (config_registry config) →
  completed_run config p sk own peers out all agg →
  q ∈ registry_indexes (config_registry config) → to_scalar q = Ok x →
  BTreeMap.get q (out_public_key_shares out)
  = Some (geval (commitment_coefficients agg) x).
Proof.
  intros Hreg Hrun Hq Hx.
  rewrite (run_share_map _ _ _ _ _ _ _ _ Hrun), BTreeMap.get_of_fun, decide_True by done.
  by rewrite (public_key_share_meval _ _ x) by (done || by eapply registry_index_wf).
Qed.

Lemma run_secret_value config p sk own peers out all agg (x : Scalar) :
  registry_wf (config_registry config) →
  completed_run config p sk own peers out all agg → to_scalar p = Ok x →
  mul_generator (share_value (out_secret_share out)) = geval (commitment_coefficients agg) x.
Proof.
  intros Hreg Hrun Hx. destruct (run_participant _ _ _ _ _ _ _ _ Hrun) as [_ Hp].
  destruct (run_share_verifies _ _ _ _ _ _ _ _ Hreg Hrun) as [Hs _].
  rewrite (public_key_share_meval _ _ x) in Hs by (done || by eapply registry_index_wf).
  by injection Hs.
Qed.

Lemma run_public_key_value config p sk own peers out all agg :
  completed_run config p sk own peers out all agg →
  out_public_key out = geval (commitment_coefficients agg) 0.
Proof.
  intros Hrun. rewrite (run_public_key _ _ _ _ _ _ _ _ Hrun).
  symmetry. exact (meval_0 (SM:=element_module) (commitment_coefficients agg)).
Qed.

(** The registered public shares of the material. *)
Lemma paired_share dc cc xs p dall call dagg cagg dout cout q x :
  paired_runs dc cc xs p dall call dagg cagg dout cout →
  q ∈ registry_indexes (config_registry dc) → to_scalar q = Ok x →
  BTreeMap.get q (paired_shares dout cout (registry_indexes (config_registry dc)))
  = Some (MkPublicShare (geval (commitment_coefficients dagg) x)
            (geval (commitment_coefficients cagg) x)).
Proof.
  intros [Hreg _ (_ & _ & Hidx & _) _ (sk & own & peers & Hd) (sk' & own' & peers' & Hc) Hregc] Hq Hx.
  unfold paired_shares. rewrite BTreeMap.get_of_fun, decide_True by done.
  rewrite (run_share_value _ _ _ _ _ _ _ _ q x Hreg Hd Hq Hx).
  rewrite Hidx in Hq. by rewrite (run_share_value _ _ _ _ _ _ _ _ q x Hregc Hc Hq Hx).
Qed.

Lemma paired_consistent dc cc xs p dall call dagg cagg dout cout :
  paired_runs dc cc xs p dall call dagg cagg dout cout →
  out_public_key cout = identity →
  let shares := paired_shares dout cout (registry_indexes (config_registry dc)) in
  BTreeMap.wf shares ∧ BTreeMap.keys shares = registry_indexes (config_registry dc) ∧
  consistent (config_threshold dc) (out_public_key dout) shares.
Proof.
  intros Hpr Hid shares.
  assert (Hwf : BTreeMap.wf shares).
  { apply BTreeMap.wf_of_fun, registry_sorted, Hpr. }
  assert (Hkeys : BTreeMap.keys shares = registry_indexes (config_registry dc)).
  { apply BTreeMap.keys_of_fun. }
  assert (Hval : ∀ q sh x, (q, sh) ∈ shares → to_scalar q = Ok x →
    sh = MkPublicShare (geval (commitment_coefficients dagg) x)
           (geval (commitment_coefficients cagg) x)).
  { intros q sh x Hin Hx. apply (BTreeMap.get_Some q) in Hin; [|done].
    assert (Hq : q ∈ registry_indexes (config_registry dc)).
    { rewrite <-Hkeys. apply BTreeMap.get_is_Some. by exists sh. }
    pose proof (paired_share _ _ _ _ _ _ _ _ _ _ _ _ Hpr Hq Hx) as E.
    unfold shares in Hin. congruence. }
  split; [done|]. split; [done|].
  destruct Hpr as [_ _ (Ht & _) _ (sk & own & peers & Hd) (sk' & own' & peers' & Hc) _].
  exists (commitment_coefficients dagg), (commitment_coefficients cagg).
  pose proof (run_degree _ _ _ _ _ _ _ _ Hd) as Hld.
  pose proof (run_degree _ _ _ _ _ _ _ _ Hc) as Hlc. unfold len in Hld, Hlc.
  split; [lia|]. split; [lia|].
  split; [symmetry; by eapply run_public_key_value|].
  split; [symmetry; rewrite <-Hid; by eapply run_public_key_value|].
  split; intros q sh x Hin Hx; by rewrite (Hval q sh x Hin Hx).
Qed.

(** The material of two completed runs. *)
Lemma paired_material_Ok dc cc xs p dall call dagg cagg dout cout epoch :
  paired_runs dc cc xs p dall call dagg cagg dout cout →
  out_public_key cout = identity → out_public_key dout ≠ identity →
  material_from_dkg_outputs dc dout cc cout epoch = Ok (paired_material dc dout cc cout epoch).
Proof.
  intros Hpr Hid Hne.
  pose proof (paired_consistent _ _ _ _ _ _ _ _ _ _ Hpr Hid) as (Hwf & Hkeys & Hcon).
  pose proof Hpr as [Hreg Hth (Ht & Hroot & Hidx & Hsess) Hpts (sk & own & peers & Hd)
    (sk' & own' & peers' & Hc) Hregc].
  pose proof (run_participant _ _ _ _ _ _ _ _ Hd) as [Hpd _].
  pose proof (run_participant _ _ _ _ _ _ _ _ Hc) as [Hpc _].
  unfold material_from_dkg_outputs.
  rewrite (proj2 (Z.eqb_eq _ _) Ht). cbn [negb].
  rewrite !bool_decide_eq_true_2; try congruence.
  2: { rewrite (run_share_map _ _ _ _ _ _ _ _ Hd), (run_share_map _ _ _ _ _ _ _ _ Hc).
       by rewrite !BTreeMap.keys_of_fun. }
  cbn [negb]. rewrite (proj2 (is_identity_true _) Hid), (proj2 (is_identity_false _) Hne).
  cbn [negb]. rewrite bridge_shares_total; [|by apply registry_sorted|].
  2: { intros q Hq. destruct (points_elem _ _ _ Hpts Hq) as (x & _ & Hx).
       rewrite (run_share_value _ _ _ _ _ _ _ _ q x Hreg Hd Hq Hx).
       rewrite Hidx in Hq. rewrite (run_share_value _ _ _ _ _ _ _ _ q x Hregc Hc Hq Hx). done. }
  cbn [mbind result_bind]. unfold PublicKeySet_new.
  pose proof (validate_spec (config_threshold dc) (out_public_key dout) _ xs Hwf) as Hv.
  assert (Hlen : len (paired_shares dout cout (registry_indexes (config_registry dc)))
                 = registry_len (config_registry dc)).
  { unfold len, paired_shares, BTreeMap.of_fun. rewrite length_fmap.
    unfold registry_indexes, registry_len, BTreeMap.keys. by rewrite length_fmap. }
  rewrite Hkeys, Hlen in Hv. specialize (Hv Hpts ltac:(lia)).
  destruct (Z.eqb_spec (config_threshold dc) 0); [lia|]. rewrite Hlen.
  destruct (Z.ltb_spec (registry_len (config_registry dc)) (config_threshold dc)); [lia|].
  cbn [orb]. rewrite (proj2 (is_identity_false _) Hne).
  destruct (validate_public_shares _ _ _) as [[]|e]; [|by destruct Hv].
  cbn [mbind result_bind]. unfold SealingKey_new.
  by rewrite (proj2 (is_identity_false _) Hne).
Qed.
End runs.

(** ** The committee

    The participants that completed the two runs over the same dealings. *)
Section committee.
Context `{GroupModule} `{!EvrfProofBackend} `{Sha256}.
Abbreviation geval := (meval (H0:=element_module)).

Definition committee_member (dc cc : DkgConfig)
    (dall call : list (ParticipantIndex * DealerMessage)) (epoch : list byte)
    (participant : ParticipantIndex) (material : Ehtdh1Material) : Prop :=
  ∃ dout cout, participant_run dc dall participant dout ∧ participant_run cc call participant cout ∧
    material_from_dkg_outputs dc dout cc cout epoch = Ok material.

(** What the members share, and the secret share of each. *)
Record committee_material (dc : DkgConfig) (Cs Ds : list Element)
    (keys : PublicKeySet) (setup : SetupContext) (p : ParticipantIndex)
    (material : Ehtdh1Material) : Prop := {
  cm_sealing_key : mat_sealing_key material = MkSealingKey (geval Cs 0);
  cm_keys : mat_public_key_set material = keys;
  cm_setup : mat_setup_context material = setup;
  cm_participant : ss_participant (mat_secret_share material) = p;
  cm_registered : p ∈ registry_indexes (config_registry dc);
  cm_decryption (x : Scalar) : to_scalar p = Ok x →
    mul_generator (ss_decryption (mat_secret_share material)) = geval Cs x;
  cm_context (x : Scalar) : to_scalar p = Ok x →
    mul_generator (ss_context (mat_secret_share material)) = geval Ds x;
}.

(** The shared part: the keys and the setup of one committee. *)
Record committee_keys (dc : DkgConfig) (Cs Ds : list Element)
    (keys : PublicKeySet) (setup : SetupContext) : Prop := {
  ck_threshold : pks_threshold keys = config_threshold dc;
  ck_positive : (0 < config_threshold dc)%Z;
  ck_degree : len Cs = config_threshold dc;
  ck_context_degree : len Ds = config_threshold dc;
  ck_context_zero : geval Ds 0 = identity;
  ck_share q (x : Scalar) : q ∈ registry_indexes (config_registry dc) → to_scalar q = Ok x →
    public_share keys q = Some (MkPublicShare (geval Cs x) (geval Ds x));
  ck_combiner : Combiner_new keys setup = Ok (MkCombiner keys setup);
}.

Lemma committee_member_runs dc cc xs dall call epoch p material :
  config_wf dc → config_wf cc → points (registry_indexes (config_registry dc)) xs →
  committee_member dc cc dall call epoch p material →
  ∃ dagg cagg dout cout, paired_runs dc cc xs p dall call dagg cagg dout cout ∧
    out_public_key cout = identity ∧ out_public_key dout ≠ identity ∧
    material = paired_material dc dout cc cout epoch.
Proof.
  intros Hd Hc Hpts (dout & cout & Hrd & Hrc & Hm).
  pose proof (material_checks _ _ _ _ _ _ Hm) as (Hpair & _ & Hid & Hne & _).
  destruct (paired_runs_intro _ _ _ _ _ _ _ _ Hd Hc Hpair Hpts Hrd Hrc) as (dagg & cagg & Hpr).
  exists dagg, cagg, dout, cout. split; [done|]. split; [done|]. split; [done|].
  rewrite (paired_material_Ok _ _ _ _ _ _ _ _ _ _ epoch Hpr Hid Hne) in Hm. by injection Hm.
Qed.

Lemma paired_runs_agree dc cc xs dall call p dagg cagg dout cout q dagg' cagg' dout' cout' :
  paired_runs dc cc xs p dall call dagg cagg dout cout →
  paired_runs dc cc xs q dall call dagg' cagg' dout' cout' →
  dagg' = dagg ∧ cagg' = cagg ∧
  out_public_key dout' = out_public_key dout ∧
  (∀ ps, paired_shares dout' cout' ps = paired_shares dout cout ps) ∧
  ∀ epoch, paired_setup dc dout' cc cout' epoch = paired_setup dc dout cc cout epoch.
Proof.
  intros [_ _ _ _ (sk1 & own1 & peers1 & Hd1) (sk2 & own2 & peers2 & Hc1) _]
    [_ _ _ _ (sk3 & own3 & peers3 & Hd2) (sk4 & own4 & peers4 & Hc2) _].
  pose proof (run_aggregate_unique _ _ _ _ _ _ _ _ _ _ _ _ _ _ Hd1 Hd2) as <-.
  pose proof (run_aggregate_unique _ _ _ _ _ _ _ _ _ _ _ _ _ _ Hc1 Hc2) as <-.
  split; [done|]. split; [done|]. split; [|split].
  - by rewrite (run_public_key _ _ _ _ _ _ _ _ Hd1), (run_public_key _ _ _ _ _ _ _ _ Hd2).
  - intros ps. unfold paired_shares.
    by rewrite (run_share_map _ _ _ _ _ _ _ _ Hd1), (run_share_map _ _ _ _ _ _ _ _ Hd2),
      (run_share_map _ _ _ _ _ _ _ _ Hc1), (run_share_map _ _ _ _ _ _ _ _ Hc2).
  - intros epoch. unfold paired_setup.
    by rewrite (run_root _ _ _ _ _ _ _ _ Hd1), (run_root _ _ _ _ _ _ _ _ Hd2),
      (run_root _ _ _ _ _ _ _ _ Hc1), (run_root _ _ _ _ _ _ _ _ Hc2).
Qed.

Lemma paired_committee_keys dc cc xs p dall call dagg cagg dout cout epoch :
  paired_runs dc cc xs p dall call dagg cagg dout cout →
  out_public_key cout = identity →
  committee_keys dc (commitment_coefficients dagg) (commitment_coefficients cagg)
    (mat_public_key_set (paired_material dc dout cc cout epoch))
    (paired_setup dc dout cc cout epoch).
Proof.
  intros Hpr Hid. pose proof (paired_consistent _ _ _ _ _ _ _ _ _ _ Hpr Hid) as (_ & Hkeys & _).
  pose proof Hpr as [_ Ht (Hct & _ & _ & Hs) _ (sk & own & peers & Hd) (sk' & own' & peers' & Hc) _].
  constructor; try done.
  - lia.
  - by eapply run_degree.
  - rewrite Hct. by eapply run_degree.
  - rewrite <-Hid. symmetry. by eapply run_public_key_value.
  - intros q x. by apply (paired_share _ _ _ _ _ _ _ _ _ _ q x Hpr).
  - unfold Combiner_new, validate_combiner_setup, paired_material.
    cbn [mat_public_key_set pks_threshold pks_public_shares paired_setup sc_threshold
         sc_backend_id sc_participants sc_context_session_id sc_decryption_session_id].
    by rewrite Z.eqb_refl, Hkeys, Hs, !bool_decide_eq_true_2 by done.
Qed.

(** Everything about the members of a committee, from any one of them. *)
Lemma committee_common dc cc xs dall call epoch p0 material0 :
  config_wf dc → config_wf cc → points (registry_indexes (config_registry dc)) xs →
  committee_member dc cc dall call epoch p0 material0 →
  ∃ Cs Ds keys setup, committee_keys dc Cs Ds keys setup ∧
    ∀ p material, committee_member dc cc dall call epoch p material →
      committee_material dc Cs Ds keys setup p material.
Proof.
  intros Hd Hc Hpts Hm0.
  destruct (committee_member_runs _ _ _ _ _ _ _ _ Hd Hc Hpts Hm0)
    as (dagg & cagg & dout & cout & Hpr & Hid & Hne & ->).
  exists (commitment_coefficients dagg), (commitment_coefficients cagg),
    (mat_public_key_set (paired_material dc dout cc cout epoch)),
    (paired_setup dc dout cc cout epoch).
  split; [by eapply paired_committee_keys|]. intros p material Hm.
  destruct (committee_member_runs _ _ _ _ _ _ _ _ Hd Hc Hpts Hm)
    as (dagg' & cagg' & dout' & cout' & Hpr' & _ & _ & ->).
  destruct (paired_runs_agree _ _ _ _ _ _ _ _ _ _ _ _ _ _ _ Hpr Hpr')
    as (-> & -> & HX & Hshares & Hsetup).
  pose proof Hpr' as [Hreg _ _ _ (sk & own & peers & Hrd) (sk' & own' & peers' & Hrc) Hregc].
  destruct (run_participant _ _ _ _ _ _ _ _ Hrd) as [Hp Hin].
  constructor; simpl.
  - f_equal. by eapply run_public_key_value.
  - by rewrite HX, Hshares.
  - apply Hsetup.
  - done.
  - done.
  - intros x Hx. exact (run_secret_value _ _ _ _ _ _ _ _ x Hreg Hrd Hx).
  - intros x Hx. exact (run_secret_value _ _ _ _ _ _ _ _ x Hregc Hrc Hx).
Qed.
End committee.

(** Secrets whose public values lie on [Cs] come from one scalar polynomial,
    whose commitment agrees with [Cs] everywhere. *)
Section secrets.
Context `{GroupModule}.

Lemma secret_polynomial (xs vs : list Scalar) (Cs : list Element) :
  NoDup xs → length Cs = length xs →
  Forall2 (λ x v, mul_generator v = meval (H0:=element_module) Cs x) xs vs →
  ∃ fs : list Scalar, length fs = length xs ∧ Forall2 (λ x v, meval fs x = v) xs vs ∧
    ∀ y, mul_generator (meval fs y) = meval (H0:=element_module) Cs y.
Proof.
  intros Hxs Hlen Hvs.
  destruct (interpolant_exists (SM:=scalar_module Scalar) xs vs Hxs) as (fs & Hfl & Hfs).
  { symmetry. exact (Forall2_length _ _ _ Hvs). }
  exists fs. split; [done|]. split; [done|]. intros y. rewrite <-meval_mul_generator.
  apply (meval_agree (SM:=element_module) xs); [done|rewrite length_fmap; lia|lia|].
  intros x (i & Hi)%list_elem_of_lookup. rewrite meval_mul_generator.
  destruct (Forall2_lookup_l _ _ _ _ _ Hvs Hi) as (v & Hv & <-).
  f_equal. exact (Forall2_lookup_lr _ _ _ _ _ _ Hfs Hi Hv).
Qed.
End secrets.

(** ** The chain from key generation to decryption *)
Section chain.
Context `{GroupModule} `{!EvrfProofBackend} `{!GoldenHashToGroup} `{!GroupCodec} `{Sha256Laws}
  `{!HashToGroupLaws} `{Hkdf} `{XChaCha20Laws}.
Abbreviation geval := (meval (H0:=element_module)).

(** The members' secret shares are dealt with two scalar polynomials. *)
Lemma committee_polynomials dc Cs Ds keys setup members ys :
  committee_keys dc Cs Ds keys setup →
  Forall (λ '(p, m), committee_material dc Cs Ds keys setup p m) members →
  points members.*1 ys → len members = config_threshold dc →
  ∃ fs gs : list Scalar,
    len fs = config_threshold dc ∧ length gs = length fs ∧ meval gs 0 = 0 ∧
    mul_generator (meval fs 0) = geval Cs 0 ∧
    (∀ p m, (p, m) ∈ members → ∃ x, to_scalar p = Ok x ∧
       ss_decryption (mat_secret_share m) = meval fs x ∧
       ss_context (mat_secret_share m) = meval gs x) ∧
    (∀ x, mul_generator (meval fs x) = geval Cs x) ∧
    (∀ x, mul_generator (meval gs x) = geval Ds x).
Proof.
  intros Hk Hms [Hpts Hnd] Hlen.
  pose proof (Forall2_length _ _ _ Hpts) as Hl. rewrite length_fmap in Hl.
  pose proof (ck_degree _ _ _ _ _ Hk). pose proof (ck_context_degree _ _ _ _ _ Hk).
  assert (Hsec : ∀ (sec : Ehtdh1Material → Scalar) Es,
    (∀ p m x, (p, m) ∈ members → to_scalar p = Ok x → mul_generator (sec m) = geval Es x) →
    Forall2 (λ x v, mul_generator v = geval Es x) ys (sec <$> members.*2)).
  { intros sec Es. clear -Hpts. revert ys Hpts. induction members as [|[p m] ms IH]; intros ys Hpts Hs.
    - inversion Hpts; subst. constructor.
    - inversion Hpts as [|? y ? ys' Hy Hys]; subst. csimpl. constructor.
      + apply (Hs p); [left|done].
      + apply IH; [done|]. intros q m' x Hin. apply Hs. by right. }
  assert (Hval : ∀ (sec : Ehtdh1Material → Scalar) fs p m x,
    Forall2 (λ x v, meval fs x = v) ys (sec <$> members.*2) → (p, m) ∈ members →
    to_scalar p = Ok x → sec m = meval fs x).
  { intros sec fs p m x Hfs (i & Hi)%list_elem_of_lookup Hx.
    assert (Hp : members.*1 !! i = Some p) by (by rewrite list_lookup_fmap, Hi).
    destruct (Forall2_lookup_l _ _ _ _ _ Hpts Hp) as (y & Hy & Hyx).
    assert (y = x) as -> by congruence. symmetry.
    eapply (Forall2_lookup_lr _ _ _ _ _ _ Hfs Hy). by rewrite !list_lookup_fmap, Hi. }
  rewrite Forall_forall in Hms.
  destruct (secret_polynomial ys ((λ m, ss_decryption (mat_secret_share m)) <$> members.*2) Cs)
    as (fs & Hfl & Hfs & Hfe); [done|unfold len in *; lia| |].
  { apply Hsec. intros p m x Hin. eapply cm_decryption. exact (Hms _ Hin). }
  destruct (secret_polynomial ys ((λ m, ss_context (mat_secret_share m)) <$> members.*2) Ds)
    as (gs & Hgl & Hgs & Hge); [done|unfold len in *; lia| |].
  { apply Hsec. intros p m x Hin. eapply cm_context. exact (Hms _ Hin). }
  exists fs, gs. split; [unfold len in *; lia|]. split; [lia|]. split.
  { apply mul_generator_eq_identity. rewrite Hge. by eapply ck_context_zero. }
  split; [apply Hfe|]. split; [|done]. intros p m Hin.
  destruct (points_elem members.*1 ys p) as (x & _ & Hx); [done|by apply list_elem_of_fmap; eexists (_, _)|].
  exists x. split; [done|].
  by split; [eapply (Hval (λ m, ss_decryption (mat_secret_share m)))
            |eapply (Hval (λ m, ss_context (mat_secret_share m)))].
Qed.

(** What a member with that material decrypts is a dealt share. *)
Lemma committee_dealt_share `{CryptoRngCore R} dc Cs Ds keys setup p m message context share
    fuel (rng rng' : R) (fs gs : list Scalar) (x : Scalar) :
  committee_keys dc Cs Ds keys setup → committee_material dc Cs Ds keys setup p m →
  to_scalar p = Ok x →
  ss_decryption (mat_secret_share m) = meval fs x → ss_context (mat_secret_share m) = meval gs x →
  (∀ y, mul_generator (meval fs y) = geval Cs y) →
  (∀ y, mul_generator (meval gs y) = geval Ds y) →
  decrypt_share fuel (mat_secret_share m) rng (mat_setup_context m) message context
  = Some (Ok share, rng') →
  dealt_share (R:=R) (MkCombiner keys setup) message context fs gs share p.
Proof.
  intros Hk Hm Hx Hf Hg Hfe Hge Hdec. exists x, fuel, rng, rng'. split; [done|]. split.
  - rewrite Hfe, Hge. eapply ck_share; [done| |done]. by eapply cm_registered.
  - rewrite (cm_setup _ _ _ _ _ _ _ Hm) in Hdec. cbn [cb_setup_context]. rewrite <-Hdec.
    f_equal. rewrite <-(cm_participant _ _ _ _ _ _ _ Hm), <-Hf, <-Hg.
    by destruct (mat_secret_share m).
Qed.
End chain.

(** ** Properties *)

(** The bridge.  It hands out material only when the two configurations have
    the same threshold, registry root and participants and the session of the
    context run is the one derived from the decryption run, when both secret
    shares belong to the same participant, the key of the context run is the
    identity and that of the decryption run is not; and on the outputs that one
    participant has from two completed runs it does hand it out: a key set whose
    public shares are consistent with the joint key, a secret share that opens
    the participant's own registered public share, and a setup for which the
    combiner is accepted. *)
Theorem material_from_dkg_outputs_correct `{GroupModule} `{!EvrfProofBackend} `{Sha256}
    dc dout cc cout epoch :
  (∀ m, material_from_dkg_outputs dc dout cc cout epoch = Ok m →
     paired_configs dc cc ∧
     share_participant (out_secret_share dout) = share_participant (out_secret_share cout) ∧
     out_public_key cout = identity ∧ out_public_key dout ≠ identity) ∧
  ∀ xs p dall call,
    config_wf dc → config_wf cc → paired_configs dc cc →
    points (registry_indexes (config_registry dc)) xs →
    participant_run dc dall p dout → participant_run cc call p cout →
    out_public_key cout = identity → out_public_key dout ≠ identity →
    ∃ m, material_from_dkg_outputs dc dout cc cout epoch = Ok m ∧
      let keys := mat_public_key_set m in
      mat_sealing_key m = MkSealingKey (out_public_key dout) ∧
      consistent (config_threshold dc) (out_public_key dout) (pks_public_shares keys) ∧
      BTreeMap.keys (pks_public_shares keys) = registry_indexes (config_registry dc) ∧
      public_share keys p
      = Some (MkPublicShare (mul_generator (ss_decryption (mat_secret_share m)))
                (mul_generator (ss_context (mat_secret_share m)))) ∧
      Combiner_new keys (mat_setup_context m) = Ok (MkCombiner keys (mat_setup_context m)).
Proof.
  split.
  { intros m Hm. by apply material_checks in Hm as (? & ? & ? & ? & _). }
  intros xs p dall call Hd Hc Hpair Hpts Hrd Hrc Hid Hne.
  destruct (paired_runs_intro _ _ _ _ _ _ _ _ Hd Hc Hpair Hpts Hrd Hrc) as (dagg & cagg & Hpr).
  exists (paired_material dc dout cc cout epoch).
  split; [by eapply paired_material_Ok|]. intros keys.
  pose proof (paired_consistent _ _ _ _ _ _ _ _ _ _ Hpr Hid) as (_ & Hkeys & Hcon).
  pose proof (paired_committee_keys _ _ _ _ _ _ _ _ _ _ epoch Hpr Hid) as Hk.
  pose proof Hpr as [Hreg _ _ _ (sk & own & peers & Hrun) (sk' & own' & peers' & Hrun') Hregc].
  destruct (run_participant _ _ _ _ _ _ _ _ Hrun) as [_ Hin].
  destruct (points_elem _ _ _ Hpts Hin) as (x & _ & Hx).
  split; [done|]. split; [done|]. split; [done|]. split; [|by eapply ck_combiner].
  unfold keys. rewrite (ck_share _ _ _ _ _ Hk p x Hin Hx). simpl.
  by rewrite (run_secret_value _ _ _ _ _ _ _ _ x Hreg Hrun Hx),
    (run_secret_value _ _ _ _ _ _ _ _ x Hregc Hrun' Hx).
Qed.

(** C5: from key generation to decryption.  Let any [threshold] of the
    participants that completed a decryption run and a context run, over the same
    dealings, bridge them to their material.  A payload sealed under the sealing
    key of any of them, and decrypted share by share with their secret shares for
    one decryption context, is recovered by the combiner that any of them builds
    from its public material.  The dealings are only the ones that completion
    accepted; they need not be honest. *)
Theorem threshold_decryption_end_to_end `{GroupModule} `{!EvrfProofBackend}
    `{!GoldenHashToGroup} `{!GroupCodec} `{Sha256Laws} `{!HashToGroupLaws} `{Hkdf}
    `{XChaCha20Laws} `{CryptoRngCore R} dc cc xs dall call epoch sealer m0 combiner m1
    fuel (rng rng' : R) plaintext ad message context members shares :
  config_wf dc → config_wf cc → points (registry_indexes (config_registry dc)) xs →
  committee_member dc cc dall call epoch sealer m0 →
  committee_member dc cc dall call epoch combiner m1 →
  seal_bytes_with_associated_data fuel (mat_sealing_key m0) rng plaintext ad
  = Some (Ok message, rng') →
  Forall (λ '(p, m), committee_member dc cc dall call epoch p m) members →
  NoDup members.*1 → len members = config_threshold dc →
  Forall2 (λ share '(p, m), ∃ fuel (rng rng' : R),
      decrypt_share fuel (mat_secret_share m) rng (mat_setup_context m) message context
      = Some (Ok share, rng')) shares members →
  ∃ self, Combiner_new (mat_public_key_set m1) (mat_setup_context m1) = Ok self ∧
    combine_exact self message context shares = Ok plaintext.
Proof.
  intros Hd Hc Hpts Hm0 Hm1 Hseal Hms Hnd Hlen Hshares.
  destruct (committee_common _ _ _ _ _ _ _ _ Hd Hc Hpts Hm0) as (Cs & Ds & keys & setup & Hk & Hcm).
  assert (Hcms : Forall (λ '(p, m), committee_material dc Cs Ds keys setup p m) members).
  { eapply Forall_impl; [exact Hms|]. intros [p m]. apply Hcm. }
  destruct (points_sub members.*1 _ xs Hpts Hnd) as (ys & Hys).
  { intros p ([p' m] & -> & Hin)%list_elem_of_fmap. rewrite Forall_forall in Hcms.
    eapply cm_registered. exact (Hcms _ Hin). }
  destruct (committee_polynomials _ _ _ _ _ _ _ Hk Hcms Hys Hlen)
    as (fs & gs & Hf & Hgf & Hg & Hf0 & Hsec & Hfe & Hge).
  pose proof (Hcm _ _ Hm1) as Hcm1. pose proof (Hcm _ _ Hm0) as Hcm0.
  exists (MkCombiner keys setup).
  rewrite (cm_keys _ _ _ _ _ _ _ Hcm1), (cm_setup _ _ _ _ _ _ _ Hcm1).
  split; [by eapply ck_combiner|].
  rewrite (cm_sealing_key _ _ _ _ _ _ _ Hcm0), <-Hf0 in Hseal.
  pose proof (ck_threshold _ _ _ _ _ Hk) as Ht. pose proof (ck_positive _ _ _ _ _ Hk) as Hpos.
  eapply (combine_exact_dealt (MkCombiner keys setup) message context shares R _ fs gs);
    cbn [cb_public_key_set]; rewrite ?Ht; try done;
    [unfold len in *; by rewrite length_fmap|].
  apply Forall2_same_length_lookup.
  split; [rewrite length_fmap; by eapply Forall2_length|]. intros i share p Hshare Hp.
  destruct (Forall2_lookup_l _ _ _ _ _ Hshares Hshare) as ([p' m] & Hi & fuel' & rng1 & rng2 & Hdec).
  rewrite list_lookup_fmap, Hi in Hp. injection Hp as <-.
  apply list_elem_of_lookup_2 in Hi. destruct (Hsec _ _ Hi) as (x & Hx & Hxf & Hxg).
  rewrite Forall_forall in Hcms. 
  eapply committee_dealt_share; [exact Hk|exact (Hcms _ Hi)|done..].
Qed.

(** ** Witnesses

    The decryption run of the secrets 10, 20 and 30, and a context run of three
    zero dealings. *)
Definition zero_config : DkgConfig (H:=TinyGroup) :=
  MkDkgConfig (H:=TinyGroup) 2 (derive_context_session_id (config_session_id tiny_config))
    (config_beta tiny_config) tiny_registry.
Definition zero_dealing (p : ParticipantIndex) : DkgDealing (H:=TinyGroup) :=
  match (create_dealing_with_secret (H:=TinyGroup) (R:=Z) p (tiny_identity_secret p) (tiny 0)
           zero_config (20 + pi_get p)%Z).1 with
  | Ok d => d
  | Err _ => tiny_run_dealing p
  end.
Definition zero_peers (r : ParticipantIndex)
    : list (ParticipantIndex * DealerMessage (H:=TinyGroup)) :=
  BTreeMap.of_fun (λ d, dealing_message (zero_dealing d))
    (public_share_receivers (H:=TinyGroup) zero_config r).
Definition zero_all : list (ParticipantIndex * DealerMessage (H:=TinyGroup)) :=
  BTreeMap.of_fun (λ d, dealing_message (zero_dealing d))
    (registry_indexes (H:=TinyGroup) tiny_registry).
Definition zero_output : ParticipantIndex → DkgOutput (H:=TinyGroup) := linear_output 0 4 x40.

Definition tiny_epoch : list byte := replicate 32 x05.
Definition tiny_material (p : ParticipantIndex) : Ehtdh1Material (H:=TinyGroup) :=
  paired_material (H:=TinyGroup) tiny_config (tiny_output p) zero_config (zero_output p) tiny_epoch.

Lemma zero_config_wf : config_wf (H:=TinyGroup) zero_config.
Proof. split; [exact tiny_registry_wf|]. split; [split; vm_compute; congruence|vm_compute; reflexivity]. Qed.

Lemma tiny_registry_points :
  points (H:=TinyGroup) (registry_indexes (H:=TinyGroup) tiny_registry) [tiny 1; tiny 2; tiny 3].
Proof. exact tiny_points. Qed.

Lemma tiny_run r : In r tiny_three → participant_run (H:=TinyGroup) tiny_config tiny_all r (tiny_output r).
Proof.
  intros Hr. exists (tiny_identity_secret r), (tiny_run_dealing r), (tiny_peers r).
  split; [by apply tiny_complete_Ok|by apply tiny_collect_Ok].
Qed.

Lemma zero_run r : In r tiny_three → participant_run (H:=TinyGroup) zero_config zero_all r (zero_output r).
Proof.
  intros Hr. exists (tiny_identity_secret r), (zero_dealing r), (zero_peers r).
  simpl in Hr. destruct Hr as [<-|[<-|[<-|[]]]]; split; vm_refl.
Qed.

Lemma tiny_material_Ok r :
  In r tiny_three →
  material_from_dkg_outputs (H:=TinyGroup) tiny_config (tiny_output r) zero_config (zero_output r)
    tiny_epoch = Ok (tiny_material r).
Proof. simpl. intros [<-|[<-|[<-|[]]]]; vm_refl. Qed.

Lemma tiny_member r :
  In r tiny_three →
  committee_member (H:=TinyGroup) tiny_config zero_config tiny_all zero_all tiny_epoch r
    (tiny_material r).
Proof.
  intros Hr. exists (tiny_output r), (zero_output r).
  split; [by apply tiny_run|]. split; [by apply zero_run|by apply tiny_material_Ok].
Qed.

Lemma material_from_dkg_outputs_correct_witness :
  let r := MkParticipantIndex 2 in
  ∃ m, material_from_dkg_outputs (H:=TinyGroup) tiny_config (tiny_output r) zero_config
         (zero_output r) tiny_epoch = Ok m ∧
    mat_sealing_key m = MkSealingKey (H:=TinyGroup) (out_public_key (tiny_output r)) ∧
    consistent (H:=TinyGroup) 2 (out_public_key (tiny_output r))
      (pks_public_shares (mat_public_key_set m)).
Proof.
  intros r. assert (Hr : In r tiny_three) by (simpl; auto).
  destruct (proj2 (material_from_dkg_outputs_correct (H:=TinyGroup) tiny_config (tiny_output r)
    zero_config (zero_output r) tiny_epoch) [tiny 1; tiny 2; tiny 3] r tiny_all zero_all
    tiny_config_wf zero_config_wf) as (m & Hm & Hs & Hc & _).
  - repeat split.
  - exact tiny_registry_points.
  - exact (tiny_run r Hr).
  - exact (zero_run r Hr).
  - vm_refl.
  - intros E%(f_equal tiny_val). vm_compute in E. discriminate.
  - exists m. split; [exact Hm|]. split; [exact Hs|exact Hc].
Defined.

Definition tiny_sealing (p : ParticipantIndex) : SealingKey (H:=TinyGroup) :=
  mat_sealing_key (tiny_material p).
Definition tiny_secret (p : ParticipantIndex) : SecretShare (H:=TinyGroup) :=
  mat_secret_share (tiny_material p).
Definition tiny_setup_of (p : ParticipantIndex) : SetupContext := mat_setup_context (tiny_material p).
Definition bridge_ciphertext : Ciphertext (H:=TinyGroup) :=
  MkCiphertext (H:=TinyGroup) (bstr "ad") (bstr ";J2?<JG") (tiny 5) (tiny 55) (tiny 73) (tiny 79).
Definition bridge_share (p : ParticipantIndex) : DecryptionShare (H:=TinyGroup) :=
  match pi_get p with
  | 1 => MkDecryptionShare (H:=TinyGroup) p (tiny 44) (tiny 78) (tiny 45) (tiny 26)
  | 2 => MkDecryptionShare (H:=TinyGroup) p (tiny 79) (tiny 15) (tiny 68) (tiny 28)
  | _ => MkDecryptionShare (H:=TinyGroup) p (tiny 17) (tiny 68) (tiny 23) (tiny 45)
  end%Z.

Lemma bridge_share_Some p :
  In p tiny_three →
  decrypt_share (H:=TinyGroup) 1 (mat_secret_share (tiny_material p)) ()
    (mat_setup_context (tiny_material p)) bridge_ciphertext tiny_context
  = Some (Ok (bridge_share p), ()).
Proof. simpl. intros [<-|[<-|[<-|[]]]]; vm_refl. Qed.

Lemma threshold_decryption_end_to_end_witness :
  let m2 := tiny_material (MkParticipantIndex 2) in
  ∃ self, Combiner_new (H:=TinyGroup) (mat_public_key_set m2) (mat_setup_context m2) = Ok self ∧
    combine_exact (H:=TinyGroup) self bridge_ciphertext tiny_context
      [bridge_share p3; bridge_share p1] = Ok (bstr "payload").
Proof.
  intros m2. assert (Hin : ∀ z, z = 1%Z ∨ z = 2%Z ∨ z = 3%Z → In (MkParticipantIndex z) tiny_three).
  { intros z [->|[->| ->]]; simpl; auto. }
  refine (threshold_decryption_end_to_end (H:=TinyGroup) (R:=unit) tiny_config zero_config
    [tiny 1; tiny 2; tiny 3] tiny_all zero_all tiny_epoch p1 (tiny_material p1)
    (MkParticipantIndex 2) m2 1 () () (bstr "payload") (bstr "ad") bridge_ciphertext tiny_context
    [(p3, tiny_material p3); (p1, tiny_material p1)] [bridge_share p3; bridge_share p1]
    tiny_config_wf zero_config_wf tiny_registry_points _ _ _ _ _ _ _).
  - apply tiny_member. apply Hin. auto.
  - apply tiny_member. apply Hin. auto.
  - vm_refl.
  - constructor; [|constructor; [|constructor]]; apply tiny_member; apply Hin; auto.
  - apply (bool_decide_unpack _). vm_compute. exact I.
  - reflexivity.
  - constructor; [|constructor; [|constructor]]; exists 1%nat, (), ();
      apply bridge_share_Some; apply Hin; auto.
Defined.
