(* ===== verification/Ehtdh1Wire.v ===== *)
(** * Wire types of the threshold encryption (golden-ehtdh1/wire.rs, lines 31-419)

    The encoders and decoders of the setup context, public and secret shares, key
    sets, sealing keys, ciphertexts and decryption shares, in the envelope of the
    key generation. *)

From Stdlib Require Import ZArith Lia Strings.Byte Sorted.
From stdpp Require Import prelude strings.
From S2P Require Import Prelude BTree CoreError Group Algebra Poly Participant Shamir Feldman.
From S2P Require Import Transcript IdentityKey Registry Statement Dkg TestSupport Wire WireDkg.
From S2P Require Import DkgHonest DkgComplete.
From S2P Require Import Ehtdh1Context Ehtdh1Encrypt Ehtdh1Decrypt Ehtdh1Bridge.

Local Open Scope Z_scope.

Definition TAG_SETUP_CONTEXT : byte := x20.
Definition TAG_PUBLIC_KEY_SET : byte := x21.
Definition TAG_PUBLIC_SHARE : byte := x22.
Definition TAG_SECRET_SHARE : byte := x23.
Definition TAG_SEALING_KEY : byte := x24.
Definition TAG_CIPHERTEXT : byte := x25.
Definition TAG_DECRYPTION_SHARE : byte := x26.

Definition MAX_BACKEND_ID_BYTES : Z := 255.
Definition MAX_PARTICIPANTS : Z := Z.shiftl 1 20.
Definition MAX_CIPHERTEXT_FIELD_BYTES : Z := Z.shiftl 1 30.

Definition eh_to_wire_bytes `{WireMessage T} (value : T) : list byte := to_wire_bytes value.
Definition eh_from_wire_bytes `{WireMessage T} (bytes : list byte) : EhResult T :=
  map_err (λ _, Eh.InvalidEncoding) (from_wire_bytes bytes).

(** ** Helpers *)

(** [core::str::from_utf8]: the well-formed UTF-8 byte sequences. *)
Definition in_range (lo hi : Z) (b : byte) : bool := (lo <=? byte_to_Z b) && (byte_to_Z b <=? hi).
Fixpoint utf8_valid (bs : list byte) : bool :=
  match bs with
  | [] => true
  | b0 :: t0 =>
      if in_range 0 127 b0 then utf8_valid t0
      else match t0 with
      | [] => false
      | b1 :: t1 =>
          if in_range 194 223 b0 then in_range 128 191 b1 && utf8_valid t1
          else match t1 with
          | [] => false
          | b2 :: t2 =>
              if in_range 224 239 b0 then
                (if in_range 224 224 b0 then in_range 160 191 b1
                 else if in_range 237 237 b0 then in_range 128 159 b1
                 else in_range 128 191 b1)
                && in_range 128 191 b2 && utf8_valid t2
              else match t2 with
              | [] => false
              | b3 :: t3 =>
                  if in_range 240 244 b0 then
                    (if in_range 240 240 b0 then in_range 144 191 b1
                     else if in_range 244 244 b0 then in_range 128 143 b1
                     else in_range 128 191 b1)
                    && in_range 128 191 b2 && in_range 128 191 b3 && utf8_valid t3
                  else false
              end
          end
      end
  end.

Definition eh_ensure_increasing (previous : option ParticipantIndex) (next : ParticipantIndex)
    : Result (option ParticipantIndex) :=
  match previous with
  | Some value => if pi_get next <=? pi_get value then Err InvalidEncoding else Ok (Some next)
  | None => Ok (Some next)
  end.

Definition write_bytes (out bytes : list byte) : list byte := write_len out (len bytes) ++ bytes.
Definition read_bytes : Reader (list byte) :=
  n ← read_len;
  if MAX_CIPHERTEXT_FIELD_BYTES <? n then lift (Err InvalidEncoding) else read_exact n.

(** The vector of [read_participants] is allocated with the capacity [n]. *)
Definition read_participants (n : Z) : Reader (list ParticipantIndex) :=
  '(participants, _) ←
    read_fold
      (λ '(participants, previous),
         participant ← read_wire;
         previous ← lift (eh_ensure_increasing previous participant);
         mret (participants ++ [participant], previous))
      (Z.to_nat n) ([], None);
  mret participants.

(** ** The setup context *)
#[export] Instance SetupContext_encode : WireEncode SetupContext := {|
  write_wire value out :=
    let out := write_len out (len (sc_backend_id value)) in
    let out := out ++ sc_backend_id value in
    let out := write_len out (sc_threshold value) in
    let out := write_wire (T:=TranscriptRoot) (sc_registry_root value) out in
    let out := write_len out (len (sc_participants value)) in
    let out := foldl (λ out participant, write_wire participant out) out (sc_participants value) in
    let out := write_wire (sc_decryption_session_id value) out in
    let out := write_wire (sc_context_session_id value) out in
    let out := write_wire (T:=TranscriptRoot) (sc_decryption_transcript_root value) out in
    let out := write_wire (T:=TranscriptRoot) (sc_context_transcript_root value) out in
    out ++ sc_epoch value;
  wire_size_hint := default_wire_size_hint;
|}.

#[export] Instance SetupContext_decode `{Sha256} : WireDecode SetupContext := {|
  read_wire :=
    backend_len ← read_len;
    if (backend_len =? 0) || (MAX_BACKEND_ID_BYTES <? backend_len) then lift (Err InvalidEncoding)
    else
      slice ← read_exact backend_len;
      backend_id ← lift (if utf8_valid slice then Ok slice else Err InvalidEncoding);
      threshold ← read_len;
      registry_root ← read_wire (T:=TranscriptRoot);
      participant_count ← read_len;
      if MAX_PARTICIPANTS <? participant_count then lift (Err InvalidEncoding)
      else
        _ ← ensure_remaining_items participant_count 4;
        participants ← read_participants participant_count;
        if (threshold =? 0) || (len participants <? threshold) then lift (Err InvalidEncoding)
        else
          decryption_session_id ← read_wire;
          context_session_id ← read_wire;
          if negb (bool_decide
                     (context_session_id = derive_context_session_id decryption_session_id))
          then lift (Err InvalidEncoding)
          else
            decryption_transcript_root ← read_wire (T:=TranscriptRoot);
            context_transcript_root ← read_wire (T:=TranscriptRoot);
            epoch ← read_array 32;
            mret (MkSetupContext backend_id threshold registry_root participants
                    decryption_session_id context_session_id decryption_transcript_root
                    context_transcript_root epoch);
|}.

#[export] Instance SetupContext_message `{Sha256} : WireMessage SetupContext := {|
  TAG := TAG_SETUP_CONTEXT;
  CODEC_ID := bstr "ehtdh1-setup-context-v1";
  write_wire_context := default_write_wire_context (bstr "ehtdh1-setup-context-v1");
  read_wire_context := default_read_wire_context (bstr "ehtdh1-setup-context-v1");
|}.

(** ** The group types *)
Section group_types.
Context `{GoldenGroup}.

(** [write_group_context] and [read_group_context]. *)
Definition write_group_context (codec_id out : list byte) : list byte :=
  let out := write_context_field out codec_id in
  write_context_field out BACKEND_ID.
Definition read_group_context (codec_id : list byte) : Reader unit :=
  _ ← expect_context_field codec_id; expect_context_field BACKEND_ID.

#[export] Instance PublicShare_encode : WireEncode PublicShare := {|
  write_wire value out :=
    let out := write_element out (ps_decryption value) in
    write_element out (ps_context value);
  wire_size_hint := default_wire_size_hint;
|}.
#[export] Instance PublicShare_decode : WireDecode PublicShare := {|
  read_wire :=
    decryption ← read_element;
    context ← read_element;
    mret (MkPublicShare decryption context);
|}.
#[export] Instance PublicShare_message : WireMessage PublicShare := {|
  TAG := TAG_PUBLIC_SHARE;
  CODEC_ID := bstr "ehtdh1-public-share-v1";
  write_wire_context := write_group_context (bstr "ehtdh1-public-share-v1");
  read_wire_context := read_group_context (bstr "ehtdh1-public-share-v1");
|}.

#[export] Instance SecretShare_encode : WireEncode SecretShare := {|
  write_wire value out :=
    let out := write_wire (ss_participant value) out in
    let out := write_scalar out (ss_decryption value) in
    write_scalar out (ss_context value);
  wire_size_hint := default_wire_size_hint;
|}.
#[export] Instance SecretShare_decode : WireDecode SecretShare := {|
  read_wire :=
    participant ← read_wire;
    decryption ← read_scalar;
    context ← read_scalar;
    mret (MkSecretShare participant decryption context);
|}.
#[export] Instance SecretShare_message : WireMessage SecretShare := {|
  TAG := TAG_SECRET_SHARE;
  CODEC_ID := bstr "ehtdh1-secret-share-v1";
  write_wire_context := write_group_context (bstr "ehtdh1-secret-share-v1");
  read_wire_context := read_group_context (bstr "ehtdh1-secret-share-v1");
|}.

Definition key_entry_bytes (out : list byte) (entry : ParticipantIndex * PublicShare) : list byte :=
  let '(participant, share) := entry in
  let out := write_wire participant out in
  write_wire share out.

#[export] Instance PublicKeySet_encode : WireEncode PublicKeySet := {|
  write_wire value out :=
    let out := write_len out (pks_threshold value) in
    let out := write_element out (pks_joint_public_key value) in
    let out := write_len out (len (pks_public_shares value)) in
    foldl key_entry_bytes out (pks_public_shares value);
  wire_size_hint := default_wire_size_hint;
|}.
#[export] Instance PublicKeySet_decode : WireDecode PublicKeySet := {|
  read_wire :=
    threshold ← read_len;
    joint_public_key ← read_element;
    participant_count ← read_len;
    if MAX_PARTICIPANTS <? participant_count then lift (Err InvalidEncoding)
    else
      let entry_bytes := 4 + 2 * ELEMENT_REPR_BYTES in
      _ ← ensure_remaining_items participant_count entry_bytes;
      '(public_shares, _) ←
        read_fold
          (λ '(public_shares, previous),
             participant ← read_wire;
             previous ← lift (eh_ensure_increasing previous participant);
             share ← read_wire;
             mret (BTreeMap.insert participant share public_shares, previous))
          (Z.to_nat participant_count) (BTreeMap.empty, None);
      lift (map_err (λ _, InvalidEncoding)
              (PublicKeySet_new threshold joint_public_key public_shares));
|}.
#[export] Instance PublicKeySet_message : WireMessage PublicKeySet := {|
  TAG := TAG_PUBLIC_KEY_SET;
  CODEC_ID := bstr "ehtdh1-public-key-set-v1";
  write_wire_context := write_group_context (bstr "ehtdh1-public-key-set-v1");
  read_wire_context := read_group_context (bstr "ehtdh1-public-key-set-v1");
|}.

#[export] Instance SealingKey_encode : WireEncode SealingKey := {|
  write_wire value out := write_element out (sk_joint_public_key value);
  wire_size_hint := default_wire_size_hint;
|}.
#[export] Instance SealingKey_decode : WireDecode SealingKey := {|
  read_wire :=
    key ← read_element;
    lift (map_err (λ _, InvalidEncoding) (SealingKey_new key));
|}.
#[export] Instance SealingKey_message : WireMessage SealingKey := {|
  TAG := TAG_SEALING_KEY;
  CODEC_ID := bstr "ehtdh1-sealing-key-v1";
  write_wire_context := write_group_context (bstr "ehtdh1-sealing-key-v1");
  read_wire_context := read_group_context (bstr "ehtdh1-sealing-key-v1");
|}.

#[export] Instance Ciphertext_encode : WireEncode Ciphertext := {|
  write_wire value out :=
    let out := write_bytes out (ct_associated_data value) in
    let out := write_bytes out (ct_encrypted_payload value) in
    let out := write_element out (ct_ephemeral_public value) in
    let out := write_element out (ct_encryption_point value) in
    let out := write_scalar out (ct_challenge value) in
    write_scalar out (ct_response value);
  wire_size_hint := default_wire_size_hint;
|}.
#[export] Instance Ciphertext_decode : WireDecode Ciphertext := {|
  read_wire :=
    associated_data ← read_bytes;
    encrypted_payload ← read_bytes;
    ephemeral_public ← read_element;
    encryption_point ← read_element;
    challenge ← read_scalar;
    response ← read_scalar;
    mret (MkCiphertext associated_data encrypted_payload ephemeral_public encryption_point
            challenge response);
|}.
#[export] Instance Ciphertext_message : WireMessage Ciphertext := {|
  TAG := TAG_CIPHERTEXT;
  CODEC_ID := bstr "ehtdh1-ciphertext-v1";
  write_wire_context := write_group_context (bstr "ehtdh1-ciphertext-v1");
  read_wire_context := read_group_context (bstr "ehtdh1-ciphertext-v1");
|}.

#[export] Instance DecryptionShare_encode : WireEncode DecryptionShare := {|
  write_wire value out :=
    let out := write_wire (ds_participant value) out in
    let out := write_element out (ds_share value) in
    let out := write_scalar out (ds_challenge value) in
    let out := write_scalar out (ds_decryption_response value) in
    write_scalar out (ds_context_response value);
  wire_size_hint := default_wire_size_hint;
|}.
#[export] Instance DecryptionShare_decode : WireDecode DecryptionShare := {|
  read_wire :=
    participant ← read_wire;
    share ← read_element;
    challenge ← read_scalar;
    decryption_response ← read_scalar;
    context_response ← read_scalar;
    mret (MkDecryptionShare participant share challenge decryption_response context_response);
|}.
#[export] Instance DecryptionShare_message : WireMessage DecryptionShare := {|
  TAG := TAG_DECRYPTION_SHARE;
  CODEC_ID := bstr "ehtdh1-decryption-share-v1";
  write_wire_context := write_group_context (bstr "ehtdh1-decryption-share-v1");
  read_wire_context := read_group_context (bstr "ehtdh1-decryption-share-v1");
|}.
End group_types.

(** ** Specifications of the helpers *)

(** Supplies the value of the next field of a sequence. *)
Ltac read_field v := exists v; eexists; split; [done|]; split; [reflexivity|].

Section helpers.

(** A reader of an encoded value, followed by another reader. *)
Lemma reads_seq {A B} (m : Reader A) (f : A → Reader B) (P : A → Prop) (enc : A → list byte) Q :
  reads m (λ a bs, P a ∧ bs = enc a) → (∀ a, P a → reads (f a) (Q a)) →
  reads (m ≫= f) (λ b bs, ∃ a rest, P a ∧ bs = enc a ++ rest ∧ Q a b rest).
Proof.
  intros Hm Hf. eapply reads_ext.
  { eapply reads_bind; [exact Hm|]. intros a ? [HP _]. by apply Hf. }
  intros b bs _. split.
  - intros (a & ? & rest & -> & [HP ->] & HQ). eauto.
  - intros (a & rest & HP & -> & HQ). exists a, (enc a), rest. eauto.
Qed.

Lemma reads_enc {A} (m : Reader A) (enc : A → list byte) :
  reads m (λ a bs, bs = enc a) → reads m (λ a bs, True ∧ bs = enc a).
Proof. intros Hm. eapply reads_ext; [exact Hm|]. naive_solver. Qed.

Lemma reads_check {A B} (e : result CoreError A) (f : A → Reader B) Q :
  (∀ a, e = Ok a → reads (f a) (Q a)) →
  reads (a ← lift e; f a) (λ b bs, ∃ a, e = Ok a ∧ Q a b bs).
Proof.
  intros Hf. eapply reads_ext.
  { eapply reads_bind; [apply reads_lift|]. intros a ? [Ha _]. by apply Hf. }
  intros b bs _. split.
  - intros (a & ? & ? & -> & [? ->] & ?). eauto.
  - intros (a & ? & ?). exists a, [], bs. eauto.
Qed.

Definition length_prefixed (bs : list byte) : list byte := to_be_bytes 8 (len bs) ++ bs.

Lemma reads_bytes :
  reads read_bytes (λ a bs, len a ≤ MAX_CIPHERTEXT_FIELD_BYTES ∧ bs = length_prefixed a).
Proof.
  unfold read_bytes. eapply reads_ext.
  { eapply (reads_seq _ _ is_usize (to_be_bytes 8)); [apply reads_len|].
    intros n [Hn _]. by apply reads_guard, reads_exact. }
  intros a bs _. unfold length_prefixed. split.
  - intros (n & ? & _ & -> & Hg & -> & <-). apply Z.ltb_ge in Hg. done.
  - intros [Hl ->]. exists (len a), a.
    split; [unfold is_usize, len in *; rewrite usize_MAX_eq;
            change MAX_CIPHERTEXT_FIELD_BYTES with 1073741824 in Hl; lia|].
    split; [done|]. split; [by apply Z.ltb_ge|done].
Qed.

Lemma eh_ensure_increasing_Ok last p o :
  eh_ensure_increasing last p = Ok o ↔ ensure_increasing last p = Ok o.
Proof.
  unfold eh_ensure_increasing, ensure_increasing. destruct last as [q|]; [|done].
  by destruct (pi_get p <=? pi_get q).
Qed.

Lemma participants_fold (items : list ParticipantIndex) s :
  fold_result (increasing_step id (λ l p, l ++ [p])) ([], None) items = Ok s ↔
  s = (items, last items) ∧ BTreeMap.sorted items.
Proof.
  destruct s as [l last'].
  etrans; [apply (increasing_fold id (λ l p, l ++ [p]) (λ _ _ _, eq_refl) [] items l last');
           constructor|].
  rewrite list_fmap_id. naive_solver.
Qed.

(** A reader that starts by taking a pair apart. *)
Lemma reads_pattern {A B C} (s : A * B) (f : A → B → Reader C) P :
  reads (f s.1 s.2) P → reads (let '(a, b) := s in f a b) P.
Proof. by destruct s. Qed.

Lemma reads_participants n :
  reads (read_participants n) (λ ps bs, length ps = Z.to_nat n ∧ Forall participant_wf ps ∧
    BTreeMap.sorted ps ∧ bs = concat (to_nested_wire_bytes <$> ps)).
Proof.
  unfold read_participants. eapply reads_ext.
  { eapply reads_bind.
    - apply (reads_fold _ (increasing_step id (λ l p, l ++ [p])) participant_wf
        to_nested_wire_bytes). intros [l last]. eapply reads_ext.
      { apply (reads_increasing eh_ensure_increasing id (λ l p, l ++ [p]) (λ p (_ : unit), p)
          (λ _, [])).
        - apply eh_ensure_increasing_Ok.
        - done.
        - intros p o. eapply reads_ext; [apply reads_ret|]. intros s bs _. split.
          + intros [-> ->]. by exists ().
          + by intros ([] & -> & ->). }
      intros s bs _. split.
      + intros ([p []] & ? & ? & ->). exists p. by rewrite app_nil_r.
      + intros (p & ? & ? & ->). exists (p, ()). by rewrite app_nil_r.
    - intros s ? _. apply (reads_pattern s). apply reads_ret. }
  intros ps bs _. split.
  - intros (s & ? & ? & -> & (items & Hl & Hp & [-> Hs]%participants_fold & ->) & -> & ->).
    by rewrite app_nil_r.
  - intros (Hl & Hp & Hs & ->). exists (ps, last ps), (concat (to_nested_wire_bytes <$> ps)), [].
    rewrite app_nil_r. split; [done|]. split; [|done]. exists ps. split; [done|]. split; [done|].
    split; [by apply participants_fold|done].
Qed.

(** The counted participant list, and what follows it. *)
Lemma reads_counted_participants {A} (f : list ParticipantIndex → Reader A) Q :
  (∀ ps, reads (f ps) (Q ps)) →
  reads (participant_count ← read_len;
         if MAX_PARTICIPANTS <? participant_count then lift (Err InvalidEncoding)
         else _ ← ensure_remaining_items participant_count 4;
              participants ← read_participants participant_count; f participants)
    (λ a bs, ∃ ps rest, bs = vec_bytes to_nested_wire_bytes ps ++ rest ∧
       len ps ≤ MAX_PARTICIPANTS ∧ Forall participant_wf ps ∧ BTreeMap.sorted ps ∧ Q ps a rest).
Proof.
  intros Hf. eapply reads_ext.
  { eapply (reads_seq _ _ is_usize (to_be_bytes 8)); [apply reads_len|].
    intros n [Hn _]. apply reads_guard, reads_ensure; [done|done| |].
    - eapply reads_bind; [apply reads_participants|]. intros ps ? _. apply Hf.
    - intros a ? (ps & ? & rest & -> & (Hl & _ & _ & ->) & _).
      rewrite len_app, (len_concat_fixed _ 4) by apply len_participant_bytes.
      unfold len. rewrite Hl. lia. }
  intros a bs _. split.
  - intros (n & ? & [Hn _] & -> & Hg%Z.ltb_ge & ps & ? & rest & -> & (Hl & Hp & Hs & ->) & HQ).
    exists ps, rest. unfold vec_bytes. rewrite <-app_assoc.
    assert (len ps = n) as -> by (unfold len; lia). done.
  - intros (ps & rest & -> & Hl & Hp & Hs & HQ).
    exists (len ps), (concat (to_nested_wire_bytes <$> ps) ++ rest).
    split; [unfold is_usize, len in *; rewrite usize_MAX_eq;
            change MAX_PARTICIPANTS with 1048576 in Hl; lia|].
    split; [unfold vec_bytes; by rewrite <-app_assoc|]. split; [by apply Z.ltb_ge|].
    exists ps, (concat (to_nested_wire_bytes <$> ps)), rest. split; [done|]. split; [|done].
    split; [unfold len; lia|done].
Qed.
End helpers.

(** ** The group types *)
Section group_codecs.
Context `{GroupCodec}.

#[export] Instance PublicShare_context :
  WireContext PublicShare (group_context (bstr "ehtdh1-public-share-v1")).
Proof. by split; apply group_context_spec. Qed.
#[export] Instance SecretShare_context :
  WireContext SecretShare (group_context (bstr "ehtdh1-secret-share-v1")).
Proof. by split; apply group_context_spec. Qed.
#[export] Instance PublicKeySet_context :
  WireContext PublicKeySet (group_context (bstr "ehtdh1-public-key-set-v1")).
Proof. by split; apply group_context_spec. Qed.
#[export] Instance SealingKey_context :
  WireContext SealingKey (group_context (bstr "ehtdh1-sealing-key-v1")).
Proof. by split; apply group_context_spec. Qed.
#[export] Instance Ciphertext_context :
  WireContext Ciphertext (group_context (bstr "ehtdh1-ciphertext-v1")).
Proof. by split; apply group_context_spec. Qed.
#[export] Instance DecryptionShare_context :
  WireContext DecryptionShare (group_context (bstr "ehtdh1-decryption-share-v1")).
Proof. by split; apply group_context_spec. Qed.

#[export] Instance PublicShare_codec : WireCodec PublicShare (λ _, True).
Proof.
  split; [intros; unfold to_nested_wire_bytes; simpl; unfold write_element; by rewrite <-!app_assoc|].
  cbn [read_wire PublicShare_decode]. eapply reads_ext.
  { eapply reads_seq; [apply reads_enc, reads_element|]. intros P _.
    eapply reads_seq; [apply reads_enc, reads_element|]. intros Q _. apply reads_ret. }
  intros [P Q] bs _. unfold to_nested_wire_bytes. simpl. unfold write_element. simpl. split.
  - intros (? & ? & _ & -> & ? & ? & _ & -> & [= -> ->] & ->). by rewrite app_nil_r.
  - intros [_ ->]. exists P, (element_bytes Q). split; [done|]. split; [done|].
    exists Q, []. by rewrite app_nil_r.
Qed.

#[export] Instance SecretShare_codec :
  WireCodec SecretShare (λ s, participant_wf (ss_participant s)).
Proof.
  assert (Happ : ∀ (s : SecretShare) out, write_wire s out = out
    ++ to_nested_wire_bytes (ss_participant s) ++ scalar_bytes (ss_decryption s)
    ++ scalar_bytes (ss_context s)).
  { intros s out. cbn [write_wire SecretShare_encode]. unfold write_scalar.
    rewrite (write_wire_app (ss_participant s)). by rewrite <-!app_assoc. }
  assert (Hnested : ∀ s : SecretShare, to_nested_wire_bytes s = [] ++ _) by (intros; apply Happ).
  split; [intros; rewrite Hnested; apply Happ|]. cbn [read_wire SecretShare_decode]. eapply reads_ext.
  { eapply reads_seq; [apply read_wire_reads|]. intros p _.
    eapply reads_seq; [apply reads_enc, reads_scalar|]. intros x _.
    eapply reads_seq; [apply reads_enc, reads_scalar|]. intros z _. apply reads_ret. }
  intros [p x z] bs _. rewrite Hnested. simpl. split.
  - intros (? & ? & ? & -> & ? & ? & _ & -> & ? & ? & _ & -> & [= -> -> ->] & ->).
    by rewrite app_nil_r.
  - intros [Hp ->]. read_field p. read_field x. exists z, []. by rewrite app_nil_r.
Qed.

#[export] Instance SealingKey_codec :
  WireCodec SealingKey (λ k, is_identity (sk_joint_public_key k) = false).
Proof.
  split; [done|]. cbn [read_wire SealingKey_decode]. eapply reads_ext.
  { eapply reads_seq; [apply reads_enc, reads_element|]. intros P _. apply reads_lift. }
  intros [P] bs _. unfold to_nested_wire_bytes. simpl. unfold write_element. simpl. split.
  - intros (Q & ? & _ & -> & Hk%map_err_Ok & ->). rewrite app_nil_r. unfold SealingKey_new in Hk.
    destruct (is_identity Q) eqn:HQ; [done|]. by injection Hk as <-.
  - intros [HP ->]. exists P, []. rewrite app_nil_r. split; [done|]. split; [done|].
    split; [|done]. apply map_err_Ok. unfold SealingKey_new. by rewrite HP.
Qed.

Lemma write_bytes_app bytes out : write_bytes out bytes = out ++ length_prefixed bytes.
Proof. unfold write_bytes, write_len, length_prefixed. by rewrite <-app_assoc. Qed.

Definition wire_ciphertext_wf (c : Ciphertext) : Prop :=
  len (ct_associated_data c) ≤ MAX_CIPHERTEXT_FIELD_BYTES ∧
  len (ct_encrypted_payload c) ≤ MAX_CIPHERTEXT_FIELD_BYTES.

#[export] Instance Ciphertext_codec : WireCodec Ciphertext wire_ciphertext_wf.
Proof.
  assert (Happ : ∀ (c : Ciphertext) out, write_wire c out = out
    ++ length_prefixed (ct_associated_data c) ++ length_prefixed (ct_encrypted_payload c)
    ++ element_bytes (ct_ephemeral_public c) ++ element_bytes (ct_encryption_point c)
    ++ scalar_bytes (ct_challenge c) ++ scalar_bytes (ct_response c)).
  { intros c out. cbn [write_wire Ciphertext_encode]. unfold write_scalar, write_element.
    rewrite !write_bytes_app. by rewrite <-!app_assoc. }
  assert (Hnested : ∀ c : Ciphertext, to_nested_wire_bytes c = [] ++ _) by (intros; apply Happ).
  split; [intros; rewrite Hnested; apply Happ|]. cbn [read_wire Ciphertext_decode].
  eapply reads_ext.
  { eapply reads_seq; [apply reads_bytes|]. intros ad _.
    eapply reads_seq; [apply reads_bytes|]. intros payload _.
    eapply reads_seq; [apply reads_enc, reads_element|]. intros P _.
    eapply reads_seq; [apply reads_enc, reads_element|]. intros Q _.
    eapply reads_seq; [apply reads_enc, reads_scalar|]. intros x _.
    eapply reads_seq; [apply reads_enc, reads_scalar|]. intros y _. apply reads_ret. }
  intros [ad payload P Q x y] bs _. rewrite Hnested. unfold wire_ciphertext_wf. simpl. split.
  - intros (? & ? & ? & -> & ? & ? & ? & -> & ? & ? & _ & -> & ? & ? & _ & -> &
      ? & ? & _ & -> & ? & ? & _ & -> & [= -> -> -> -> -> ->] & ->). by rewrite app_nil_r.
  - intros [[Ha Hp] ->]. read_field ad. read_field payload. read_field P. read_field Q.
    read_field x. exists y, []. by rewrite app_nil_r.
Qed.

#[export] Instance DecryptionShare_codec :
  WireCodec DecryptionShare (λ s, participant_wf (ds_participant s)).
Proof.
  assert (Happ : ∀ (s : DecryptionShare) out, write_wire s out = out
    ++ to_nested_wire_bytes (ds_participant s) ++ element_bytes (ds_share s)
    ++ scalar_bytes (ds_challenge s) ++ scalar_bytes (ds_decryption_response s)
    ++ scalar_bytes (ds_context_response s)).
  { intros s out. cbn [write_wire DecryptionShare_encode]. unfold write_scalar, write_element.
    rewrite (write_wire_app (ds_participant s)). by rewrite <-!app_assoc. }
  assert (Hnested : ∀ s : DecryptionShare, to_nested_wire_bytes s = [] ++ _)
    by (intros; apply Happ).
  split; [intros; rewrite Hnested; apply Happ|]. cbn [read_wire DecryptionShare_decode].
  eapply reads_ext.
  { eapply reads_seq; [apply read_wire_reads|]. intros p _.
    eapply reads_seq; [apply reads_enc, reads_element|]. intros P _.
    eapply reads_seq; [apply reads_enc, reads_scalar|]. intros x _.
    eapply reads_seq; [apply reads_enc, reads_scalar|]. intros y _.
    eapply reads_seq; [apply reads_enc, reads_scalar|]. intros z _. apply reads_ret. }
  intros [p P x y z] bs _. rewrite Hnested. simpl. split.
  - intros (? & ? & ? & -> & ? & ? & _ & -> & ? & ? & _ & -> & ? & ? & _ & -> &
      ? & ? & _ & -> & [= -> -> -> -> ->] & ->). by rewrite app_nil_r.
  - intros [Hp ->]. read_field p. read_field P. read_field x. read_field y.
    exists z, []. by rewrite app_nil_r.
Qed.

(** The entries of a key set. *)
Definition key_bytes (e : ParticipantIndex * PublicShare) : list byte :=
  to_nested_wire_bytes e.1 ++ to_nested_wire_bytes e.2.

Lemma key_entry_bytes_app out e : key_entry_bytes out e = out ++ key_bytes e.
Proof.
  destruct e as [p sh]. unfold key_entry_bytes, key_bytes. simpl fst. simpl snd.
  by rewrite (write_wire_app sh), (write_wire_app p), <-app_assoc.
Qed.

Lemma len_key_bytes e : len (key_bytes e) = 4 + 2 * ELEMENT_REPR_BYTES.
Proof.
  unfold key_bytes. rewrite len_app, len_participant_bytes. unfold to_nested_wire_bytes. simpl.
  unfold write_element. simpl. rewrite len_app, !length_element_repr. lia.
Qed.

Definition wire_keys_wf (keys : PublicKeySet) : Prop :=
  0 < pks_threshold keys ∧ BTreeMap.wf (pks_public_shares keys) ∧
  Forall participant_wf (BTreeMap.keys (pks_public_shares keys)) ∧
  len (pks_public_shares keys) ≤ MAX_PARTICIPANTS ∧
  PublicKeySet_new (pks_threshold keys) (pks_joint_public_key keys) (pks_public_shares keys)
    = Ok keys.

Lemma PublicKeySet_new_Ok threshold joint shares keys :
  PublicKeySet_new threshold joint shares = Ok keys →
  keys = MkPublicKeySet threshold joint shares ∧ threshold ≠ 0 ∧ threshold ≤ len shares.
Proof.
  unfold PublicKeySet_new. destruct (_ || _) eqn:Ht; [done|].
  apply orb_false_iff in Ht as [?%Z.eqb_neq ?%Z.ltb_ge].
  destruct (is_identity joint); [done|]. intros ([] & _ & [= <-])%bind_Ok. done.
Qed.

(** The map, and the constructor it is passed to. *)
Lemma reads_public_shares threshold joint :
  0 ≤ threshold →
  reads
    (participant_count ← read_len;
     if MAX_PARTICIPANTS <? participant_count then lift (Err InvalidEncoding)
     else
       let entry_bytes := 4 + 2 * ELEMENT_REPR_BYTES in
       _ ← ensure_remaining_items participant_count entry_bytes;
       '(public_shares, _) ←
         read_fold
           (λ '(public_shares, previous),
              participant ← read_wire;
              previous ← lift (eh_ensure_increasing previous participant);
              share ← read_wire;
              mret (BTreeMap.insert participant share public_shares, previous))
           (Z.to_nat participant_count) (BTreeMap.empty, None);
       lift (map_err (λ _, InvalidEncoding) (PublicKeySet_new threshold joint public_shares)))
    (λ keys bs, wire_keys_wf keys ∧ pks_threshold keys = threshold ∧
       pks_joint_public_key keys = joint ∧ bs = vec_bytes key_bytes (pks_public_shares keys)).
Proof.
  intros Ht. pose proof ELEMENT_REPR_BYTES_range. eapply reads_ext.
  { apply (reads_counted_guard (λ n, MAX_PARTICIPANTS <? n) _
      (increasing_step fst (λ m e, BTreeMap.insert e.1 e.2 m))
      (λ e, participant_wf e.1) key_bytes _ _ _
      (λ s keys bs, PublicKeySet_new threshold joint s.1 = Ok keys ∧ bs = [])).
    - lia.
    - apply len_key_bytes.
    - intros [l last]. eapply reads_ext.
      { apply (reads_increasing eh_ensure_increasing fst (λ m e, BTreeMap.insert e.1 e.2 m) pair
            to_nested_wire_bytes).
        - apply eh_ensure_increasing_Ok.
        - done.
        - intros p o. eapply reads_ext; [apply reads_map, read_wire_reads|].
          intros s bs _. naive_solver. }
      intros s bs _. split; intros ([p e] & ?); by exists (p, e).
    - intros [shares last]. eapply reads_ext; [apply reads_lift|]. intros keys bs _.
      cbn beta. rewrite map_err_Ok. done. }
  intros keys bs _. unfold wire_keys_wf, BTreeMap.keys. rewrite Forall_fmap. split.
  - intros (items & s & ? & -> & Hmax%Z.ltb_ge & Hp & [-> Hwf]%keyed_fold & Hnew & ->).
    rewrite app_nil_r. simpl in Hnew. pose proof Hnew as (-> & ? & ?)%PublicKeySet_new_Ok.
    simpl. repeat split; try done; lia.
  - intros ((? & Hwf & Hp & Hmax & Hnew) & <- & <- & ->).
    exists (pks_public_shares keys), (pks_public_shares keys, last (pks_public_shares keys).*1), [].
    rewrite app_nil_r. split; [done|]. split; [by apply Z.ltb_ge|]. split; [done|].
    split; [by apply keyed_fold|done].
Qed.

#[export] Instance PublicKeySet_codec : WireCodec PublicKeySet wire_keys_wf.
Proof.
  assert (Happ : ∀ (k : PublicKeySet) out, write_wire k out = out
    ++ to_be_bytes 8 (pks_threshold k) ++ element_bytes (pks_joint_public_key k)
    ++ vec_bytes key_bytes (pks_public_shares k)).
  { intros k out. cbn [write_wire PublicKeySet_encode]. unfold write_len, write_element.
    rewrite (foldl_app_enc _ key_bytes) by apply key_entry_bytes_app.
    unfold vec_bytes. by rewrite <-!app_assoc. }
  assert (Hnested : ∀ k : PublicKeySet, to_nested_wire_bytes k = [] ++ _) by (intros; apply Happ).
  split; [intros; rewrite Hnested; apply Happ|]. cbn [read_wire PublicKeySet_decode].
  eapply reads_ext.
  { eapply (reads_seq _ _ is_usize (to_be_bytes 8)); [apply reads_len|]. intros t [Ht _].
    eapply reads_seq; [apply reads_enc, reads_element|]. intros P _.
    by apply reads_public_shares. }
  intros keys bs _. rewrite Hnested, app_nil_l. split.
  - intros (t & ? & _ & -> & P & ? & _ & -> & ? & <- & <- & ->). done.
  - intros [Hwf ->]. exists (pks_threshold keys). eexists.
    split.
    { destruct Hwf as (? & _ & _ & ? & (_ & _ & ?)%PublicKeySet_new_Ok).
      unfold is_usize. rewrite usize_MAX_eq. change MAX_PARTICIPANTS with 1048576 in *. lia. }
    split; [done|]. by read_field (pks_joint_public_key keys).
Qed.
End group_codecs.

(** ** The setup context *)
Section setup_codec.
Context `{Sha256}.

#[export] Instance SetupContext_context :
  WireContext SetupContext (context_field (bstr "ehtdh1-setup-context-v1")).
Proof. by split; apply default_context. Qed.

Definition wire_setup_wf (s : SetupContext) : Prop :=
  0 < len (sc_backend_id s) ≤ MAX_BACKEND_ID_BYTES ∧ utf8_valid (sc_backend_id s) = true ∧
  0 < sc_threshold s ≤ len (sc_participants s) ∧ root_wf (sc_registry_root s) ∧
  len (sc_participants s) ≤ MAX_PARTICIPANTS ∧ Forall participant_wf (sc_participants s) ∧
  BTreeMap.sorted (sc_participants s) ∧
  session_wf (sc_decryption_session_id s) ∧ session_wf (sc_context_session_id s) ∧
  sc_context_session_id s = derive_context_session_id (sc_decryption_session_id s) ∧
  root_wf (sc_decryption_transcript_root s) ∧ root_wf (sc_context_transcript_root s) ∧
  len (sc_epoch s) = 32.

(** The backend name: a bounded length, the bytes, and their validation. *)
Lemma reads_backend {A} (f : list byte → Reader A) Q :
  (∀ name, reads (f name) (Q name)) →
  reads (backend_len ← read_len;
         if (backend_len =? 0) || (MAX_BACKEND_ID_BYTES <? backend_len) then lift (Err InvalidEncoding)
         else slice ← read_exact backend_len;
              backend_id ← lift (if utf8_valid slice then Ok slice else Err InvalidEncoding);
              f backend_id)
    (λ a bs, ∃ name rest, bs = length_prefixed name ++ rest ∧
       (0 < len name ≤ MAX_BACKEND_ID_BYTES ∧ utf8_valid name = true) ∧ Q name a rest).
Proof.
  intros Hf. eapply reads_ext.
  { eapply (reads_seq _ _ is_usize (to_be_bytes 8)); [apply reads_len|].
    intros n [Hn _]. apply reads_guard. eapply reads_bind; [by apply reads_exact|].
    intros name ? _. apply reads_check. intros; apply Hf. }
  intros a bs _. unfold length_prefixed. split.
  - intros (n & ? & [Hn _] & -> & [?%Z.eqb_neq Hmax%Z.ltb_ge]%orb_false_iff & name & ? & rest & -> &
      [<- <-] & name' & Hutf & HQ).
    destruct (utf8_valid _) eqn:Hv; [|done]. injection Hutf as <-.
    exists name, rest. rewrite <-app_assoc. split; [done|]. split; [split; [lia|done]|done].
  - intros (name & rest & -> & [Hl Hv] & HQ). exists (len name), (name ++ rest).
    split; [unfold is_usize; rewrite usize_MAX_eq; change MAX_BACKEND_ID_BYTES with 255 in *; lia|].
    split; [by rewrite <-app_assoc|].
    split; [apply orb_false_iff; split; [apply Z.eqb_neq|apply Z.ltb_ge]; lia|].
    exists name, name, rest. split; [done|]. split; [done|]. exists name. by rewrite Hv.
Qed.

(** The sessions, roots and epoch that end the setup context. *)
Definition setup_tail (s : SetupContext) : list byte :=
  to_nested_wire_bytes (sc_decryption_session_id s) ++ to_nested_wire_bytes (sc_context_session_id s)
  ++ sc_decryption_transcript_root s ++ sc_context_transcript_root s ++ sc_epoch s.

Lemma reads_setup_tail name threshold root participants :
  reads
    (decryption_session_id ← read_wire;
     context_session_id ← read_wire;
     if negb (bool_decide (context_session_id = derive_context_session_id decryption_session_id))
     then lift (Err InvalidEncoding)
     else
       decryption_transcript_root ← read_wire (T:=TranscriptRoot);
       context_transcript_root ← read_wire (T:=TranscriptRoot);
       epoch ← read_array 32;
       mret (MkSetupContext name threshold root participants
               decryption_session_id context_session_id decryption_transcript_root
               context_transcript_root epoch))
    (λ s bs, sc_backend_id s = name ∧ sc_threshold s = threshold ∧ sc_registry_root s = root ∧
       sc_participants s = participants ∧
       session_wf (sc_decryption_session_id s) ∧ session_wf (sc_context_session_id s) ∧
       sc_context_session_id s = derive_context_session_id (sc_decryption_session_id s) ∧
       root_wf (sc_decryption_transcript_root s) ∧ root_wf (sc_context_transcript_root s) ∧
       len (sc_epoch s) = 32 ∧ bs = setup_tail s).
Proof.
  eapply reads_ext.
  { eapply reads_seq; [apply read_wire_reads|]. intros session _.
    eapply reads_seq; [apply read_wire_reads|]. intros context _. apply reads_guard.
    eapply reads_seq; [apply (read_wire_reads (T:=TranscriptRoot))|]. intros r1 _.
    eapply reads_seq; [apply (read_wire_reads (T:=TranscriptRoot))|]. intros r2 _.
    by apply reads_map, reads_array. }
  intros s bs _. split.
  - intros (? & ? & ? & -> & ? & ? & ? & -> & ?%negb_false_iff%bool_decide_eq_true & ? & ? & ? & -> &
      ? & ? & ? & -> & ? & -> & ? & ->). done.
  - destruct s as [? ? ? ? session csession r1 r2 epoch]. unfold setup_tail. simpl.
    intros (-> & -> & -> & -> & ? & ? & ? & ? & ? & ? & ->).
    read_field session. read_field csession.
    split; [by apply negb_false_iff, bool_decide_eq_true|].
    exists r1, (r2 ++ epoch). split; [done|]. split; [done|].
    exists r2, epoch. split; [done|]. split; [done|]. by exists epoch.
Qed.

Lemma setup_bytes_app (s : SetupContext) out :
  write_wire s out = out ++ length_prefixed (sc_backend_id s) ++ to_be_bytes 8 (sc_threshold s)
    ++ sc_registry_root s ++ vec_bytes to_nested_wire_bytes (sc_participants s) ++ setup_tail s.
Proof.
  cbn [write_wire SetupContext_encode]. unfold write_len.
  rewrite !(write_wire_app (T:=TranscriptRoot)).
  rewrite (write_wire_app (sc_context_session_id s)), (write_wire_app (sc_decryption_session_id s)).
  rewrite (foldl_app_enc _ to_nested_wire_bytes)
    by (intros; apply (write_wire_app (T:=ParticipantIndex))).
  unfold length_prefixed, vec_bytes, setup_tail. by rewrite <-!app_assoc.
Qed.

#[export] Instance SetupContext_codec : WireCodec SetupContext wire_setup_wf.
Proof.
  assert (Hnested : ∀ s : SetupContext, to_nested_wire_bytes s = [] ++ _)
    by (intros; apply setup_bytes_app).
  split; [intros; rewrite Hnested; apply setup_bytes_app|].
  cbn [read_wire SetupContext_decode]. eapply reads_ext.
  { apply reads_backend. intros name.
    eapply (reads_seq _ _ is_usize (to_be_bytes 8)); [apply reads_len|]. intros t _.
    eapply reads_seq; [apply (read_wire_reads (T:=TranscriptRoot))|]. intros root _.
    apply reads_counted_participants. intros ps. apply reads_guard, reads_setup_tail. }
  intros s bs _. rewrite Hnested, app_nil_l. unfold wire_setup_wf. split.
  - intros (name & ? & -> & [? ?] & t & ? & Ht & -> & root & ? & ? & -> & ps & ? & -> & ? & ? & ? &
      [?%Z.eqb_neq ?%Z.ltb_ge]%orb_false_iff & <- & <- & <- & <- & ? & ? & ? & ? & ? & ? & ->).
    unfold is_usize in Ht. split_and!; first [done|lia].
  - intros [([? ?] & ? & [? Hle] & ? & Hmax & ? & ? & ? & ? & ? & ? & ? & ?) ->].
    exists (sc_backend_id s). eexists. split; [done|]. split; [done|].
    exists (sc_threshold s). eexists.
    split; [unfold is_usize; rewrite usize_MAX_eq; change MAX_PARTICIPANTS with 1048576 in *; lia|].
    split; [done|]. exists (sc_registry_root s). eexists. split; [done|]. split; [done|].
    exists (sc_participants s). eexists. split; [done|]. split; [done|]. split; [done|]. split; [done|].
    split; [apply orb_false_iff; split; [apply Z.eqb_neq|apply Z.ltb_ge]; lia|]. done.
Qed.
End setup_codec.

(** ** Contracts of the whole codec *)

(** The standalone encoding of a type is canonical: [wf] are the values that have
    one, and no other byte string decodes to them. *)
Definition wire_canonical (T : Type) `{WireMessage T} (wf : T → Prop) : Prop :=
  ∀ bytes (v : T), slice_ok bytes →
    eh_from_wire_bytes bytes = Ok v ↔ wf v ∧ bytes = eh_to_wire_bytes v.

(** A value that fits a slice decodes back. *)
Definition survives_wire `{WireMessage T} (v : T) : Prop :=
  slice_ok (eh_to_wire_bytes v) → eh_from_wire_bytes (eh_to_wire_bytes v) = Ok v.

Section contracts.
Context {T : Type} `{WireMessage T} {wf : T → Prop} {context : list byte}
  `{!WireCodec T wf} `{!WireContext T context}.

Lemma codec_canonical : wire_canonical T wf.
Proof.
  intros bytes v Hok. unfold eh_from_wire_bytes, eh_to_wire_bytes. rewrite map_err_Ok.
  by apply from_wire_bytes_iff.
Qed.

Lemma codec_survives (v : T) : wf v → survives_wire v.
Proof. intros Hv Hok. by apply codec_canonical. Qed.
End contracts.

Section bridged.
Context `{GroupModule} `{!EvrfProofBackend} `{!GroupCodec} `{Sha256Laws}.

Lemma bridge_shares_paired dout cout ps shares :
  BTreeMap.sorted ps → bridge_shares dout cout ps = Ok shares →
  shares = paired_shares dout cout ps.
Proof.
  intros Hsorted Hb. pose proof Hb as Hb'. rewrite bridge_shares_total in Hb'; [congruence|done|].
  clear Hsorted Hb'. unfold bridge_shares in Hb. revert Hb.
  generalize (BTreeMap.empty : PublicShares). induction ps as [|q ps IH]; intros acc Hb p Hp.
  { by apply not_elem_of_nil in Hp. }
  cbn [fold_result] in Hb.
  apply bind_Ok in Hb as (acc' & (P & HP%ok_or_Ok & (Q & HQ%ok_or_Ok & _)%bind_Ok)%bind_Ok & Hb).
  apply elem_of_cons in Hp as [->|Hp]; [by rewrite HP, HQ|]. by eapply IH.
Qed.

Lemma participant_run_root config all p (out : DkgOutput) :
  config_wf config → participant_run config all p out →
  p ∈ registry_indexes (config_registry config) ∧
  share_participant (out_secret_share out) = p ∧ root_wf (out_transcript_root out).
Proof.
  intros Hc (sk & own & peers & Hcomp & _).
  destruct (complete_run _ _ _ _ _ _ Hc Hcomp) as (all' & agg & Hrun).
  destruct (run_participant _ _ _ _ _ _ _ _ Hrun) as [Hs Hp].
  split; [done|]. split; [done|]. rewrite (run_root _ _ _ _ _ _ _ _ Hrun). apply length_sha256.
Qed.
End bridged.

(** ** Properties *)

(** C34: the wire format of the threshold encryption is canonical, type by type.
    A byte string decodes exactly when it is the encoding of a well-formed value,
    and to that value.  Well formed means: a participant index is not zero; a
    sealing key is not the identity; the byte fields of a ciphertext have at most
    2^30 bytes each; a key set has at most 2^20 participants in strictly
    increasing order and is one the constructor accepts; a setup context has a
    backend name of 1 to 255 bytes of UTF-8, a threshold between one and the
    number of its strictly increasing participants, and the context session that
    is derived from its decryption session. *)
Theorem ehtdh1_wire_canonical `{GroupCodec} `{Sha256} :
  wire_canonical SetupContext wire_setup_wf ∧
  wire_canonical PublicKeySet wire_keys_wf ∧
  wire_canonical Ciphertext wire_ciphertext_wf ∧
  wire_canonical SealingKey (λ k, is_identity (sk_joint_public_key k) = false) ∧
  wire_canonical PublicShare (λ _, True) ∧
  wire_canonical SecretShare (λ s, participant_wf (ss_participant s)) ∧
  wire_canonical DecryptionShare (λ s, participant_wf (ds_participant s)).
Proof. split_and!; apply codec_canonical. Qed.

(** The material survives the wire.  What the bridge makes of one
    participant's two completed runs can be stored or sent and read back, the
    sealing key, the key set, the secret share and the setup context, when there
    are at most 2^20 participants, the backend has a name of 1 to 255 bytes of
    UTF-8 and the epoch has its 32 bytes: the checks of the decoders accept all
    that the bridge makes. *)
Theorem material_survives_wire `{GroupModule} `{!EvrfProofBackend} `{!GroupCodec}
    `{Sha256Laws} dc dout cc cout dall call p epoch m :
  config_wf dc → config_wf cc →
  participant_run dc dall p dout → participant_run cc call p cout →
  material_from_dkg_outputs dc dout cc cout epoch = Ok m →
  registry_len (config_registry dc) ≤ MAX_PARTICIPANTS →
  0 < len BACKEND_ID ≤ MAX_BACKEND_ID_BYTES → utf8_valid BACKEND_ID = true →
  len epoch = 32 →
  survives_wire (mat_sealing_key m) ∧ survives_wire (mat_public_key_set m) ∧
  survives_wire (mat_secret_share m) ∧ survives_wire (mat_setup_context m).
Proof.
  intros Hd Hc Hrd Hrc Hm Hmax Hname Hutf Hepoch.
  destruct (participant_run_root _ _ _ _ Hd Hrd) as (Hp & Hsp & Hroot).
  destruct (participant_run_root _ _ _ _ Hc Hrc) as (_ & _ & Hcroot).
  pose proof Hd as (Hreg & Hth & Hsess). pose proof Hc as (_ & _ & Hcsess).
  apply material_checks in Hm as ((_ & _ & _ & Hderived) & _ & _ & Hne & shares & Hshares & Hkeys &
    -> & -> & ->).
  apply bridge_shares_paired in Hshares as ->; [|by apply registry_sorted].
  pose proof Hkeys as (Hk & _)%PublicKeySet_new_Ok.
  assert (Hlen : len (registry_indexes (config_registry dc)) = registry_len (config_registry dc)).
  { unfold registry_indexes, registry_len, BTreeMap.keys, len. by rewrite length_fmap. }
  split; [|split; [|split]]; apply codec_survives; [|rewrite Hk|..].
  - by apply is_identity_false.
  - unfold wire_keys_wf. simpl. rewrite Hk in Hkeys.
    split; [lia|]. unfold paired_shares at 1 2 3. rewrite BTreeMap.keys_of_fun.
    split; [by apply BTreeMap.wf_of_fun, registry_sorted|]. split; [apply Hreg|].
    split; [|done]. unfold BTreeMap.of_fun, len in *. rewrite length_fmap. lia.
  - simpl. rewrite Hsp. by eapply registry_index_wf.
  - unfold wire_setup_wf. simpl. rewrite Hlen. split_and!; try done; try lia; apply Hreg.
Qed.

(** ** Witnesses *)
Lemma ehtdh1_wire_canonical_witness :
  slice_ok (eh_to_wire_bytes bridge_ciphertext) ∧
  eh_from_wire_bytes (eh_to_wire_bytes bridge_ciphertext) = Ok bridge_ciphertext.
Proof.
  assert (Hok : slice_ok (eh_to_wire_bytes bridge_ciphertext)).
  { apply (bool_decide_unpack _). vm_compute. exact I. }
  split; [exact Hok|].
  destruct (ehtdh1_wire_canonical (H:=TinyGroup)) as (_ & _ & Hc & _).
  apply (proj2 (Hc _ bridge_ciphertext Hok)). split; [|reflexivity].
  split; vm_compute; discriminate.
Defined.

Lemma material_survives_wire_witness :
  let m := tiny_material (MkParticipantIndex 2) in
  survives_wire (H:=PublicKeySet_encode (H:=TinyGroup)) (mat_public_key_set m) ∧
  survives_wire (mat_setup_context m).
Proof.
  intros m. assert (Hr : In (MkParticipantIndex 2) tiny_three) by (simpl; auto).
  destruct (material_survives_wire (H:=TinyGroup) tiny_config (tiny_output (MkParticipantIndex 2))
    zero_config (zero_output (MkParticipantIndex 2)) tiny_all zero_all (MkParticipantIndex 2)
    tiny_epoch m tiny_config_wf zero_config_wf (tiny_run _ Hr) (zero_run _ Hr)
    (tiny_material_Ok _ Hr)) as (_ & Hk & _ & Hs).
  - vm_compute. discriminate.
  - split; vm_compute; [reflexivity|discriminate].
  - vm_compute. reflexivity.
  - vm_compute. reflexivity.
  - split; [exact Hk|exact Hs].
Defined.

(** An identity sealing key, unsorted participants and a wrong epoch length. *)
Example tiny_identity_sealing_key :
  eh_from_wire_bytes (T:=SealingKey (H:=TinyGroup))
    (eh_to_wire_bytes (MkSealingKey (H:=TinyGroup) (tiny 0))) = Err Eh.InvalidEncoding.
Proof. vm_refl. Qed.
Example tiny_setup_participants_unsorted :
  let s := tiny_setup_of p1 in
  eh_from_wire_bytes (T:=SetupContext) (eh_to_wire_bytes
    (MkSetupContext (sc_backend_id s) 2 (sc_registry_root s) [p3; p1] (sc_decryption_session_id s)
       (sc_context_session_id s) (sc_decryption_transcript_root s) (sc_context_transcript_root s)
       (sc_epoch s))) = Err Eh.InvalidEncoding.
Proof. intros s. vm_refl. Qed.
