(* ===== verification/Cycle.v ===== *)
(** * Curve cycles and the proof transcript (bulletproofs-cycle/cycle.rs, transcript.rs, errors.rs)

    The trait [Cycle] as a class of operations, what the proof system relies on
    its implementations for as a class of laws, the Merlin transcript, the
    helpers that append to it and draw challenges from it, and the inversion
    routines of the halo2curves implementation. *)

From Stdlib Require Import ZArith Lia Field Strings.Byte.
From stdpp Require Import prelude strings.
From S2P Require Import Prelude CoreError Group Algebra TestSupport.

Local Open Scope golden_scope.

(** ** Errors *)
Inductive ProofError : Type :=
  | ProofVerificationError
  | ProofFormatError
  | ProofInvalidGeneratorsLength
  | ProofInvalidInputLength.

Inductive R1CSError : Type :=
  | R1CSInvalidGeneratorsLength
  | R1CSFormatError
  | R1CSVerificationError
  | R1CSMissingAssignment.

#[export] Instance ProofError_eq_dec : EqDecision ProofError.
Proof. solve_decision. Defined.
#[export] Instance R1CSError_eq_dec : EqDecision R1CSError.
Proof. solve_decision. Defined.

(** [impl From<ProofError> for R1CSError]. *)
Definition R1CSError_from (e : ProofError) : R1CSError :=
  match e with
  | ProofInvalidGeneratorsLength => R1CSInvalidGeneratorsLength
  | ProofFormatError => R1CSFormatError
  | ProofVerificationError => R1CSVerificationError
  | ProofInvalidInputLength => R1CSVerificationError
  end.

(** ** [trait Cycle]

    [cscalar_ops] are the methods of [ff::Field], [cpoint_*] those of
    [group::Group]. *)
Class Cycle := {
  CScalar : Type;
  cscalar_ops :: FieldOps CScalar;
  CPoint : Type;
  cpoint_eq_dec :: EqDecision CPoint;
  cpoint_generator : CPoint;
  cpoint_identity : CPoint;
  cpoint_add : CPoint → CPoint → CPoint;
  cpoint_mul : CPoint → CScalar → CPoint;
  CAffine : Type;
  caffine_eq_dec :: EqDecision CAffine;
  Compressed : Type;
  COMPRESSED_BYTES : nat;
  scalar_from_wide : list byte → CScalar;
  scalar_from_canonical : list byte → option CScalar;
  scalar_to_canonical : CScalar → list byte;
  scalar_invert : CScalar → CScalar;
  (** The inverses, and the product of all of them. *)
  scalar_batch_invert : list CScalar → list CScalar * CScalar;
  point_compress : CPoint → Compressed;
  compressed_decompress : Compressed → option CPoint;
  compressed_identity : Compressed;
  compressed_is_identity : Compressed → bool;
  compressed_from_bytes : list byte → Compressed;
  compressed_as_bytes : Compressed → list byte;
  point_hash_from_uniform : list byte → CPoint;
  points_hash_from_uniform : list (list byte) → list CPoint;
  point_to_affine : CPoint → CAffine;
  affine_to_point : CAffine → CPoint;
  batch_normalize : list CPoint → list CAffine;
  affine_compress : CAffine → Compressed;
  vartime_msm : list CScalar → list CPoint → CPoint;
  vartime_msm_affine : list CScalar → list CAffine → CPoint;
  vartime_msm_mixed :
    list (list CScalar * list CAffine) → list CScalar → list CPoint → CPoint;
}.

(** Values for indexing, which the code does in bounds. *)
#[export] Instance cscalar_inhabited `{Cycle} : Inhabited CScalar := populate szero.
#[export] Instance caffine_inhabited `{Cycle} : Inhabited CAffine :=
  populate (point_to_affine cpoint_identity).

Declare Scope cycle_scope.
Delimit Scope cycle_scope with cycle.
Infix "⊕" := cpoint_add (at level 50, left associativity) : cycle_scope.
Infix "⊙" := cpoint_mul (at level 40, left associativity) : cycle_scope.
Open Scope cycle_scope.

Section defaults.
Context `{Cycle}.

(** The provided methods. *)
Definition default_points_hash_from_uniform (bytes : list (list byte)) : list CPoint :=
  point_hash_from_uniform <$> bytes.
Definition default_vartime_msm_mixed (affine_batches : list (list CScalar * list CAffine))
    (dynamic_scalars : list CScalar) (dynamic_points : list CPoint) : CPoint :=
  let result := vartime_msm dynamic_scalars dynamic_points in
  foldl (λ result '(scalars, points), result ⊕ vartime_msm_affine scalars points)
    result affine_batches.

Definition random_scalar `{CryptoRngCore R} (rng : R) : CScalar * R := srandom rng.
End defaults.

(** ** What the proof system relies on *)
Class CyclePoints `{Cycle} : Prop := {
  cycle_field :: FieldLaws CScalar;
  cpoint_add_comm (P Q : CPoint) : P ⊕ Q = Q ⊕ P;
  cpoint_add_assoc (P Q R : CPoint) : P ⊕ (Q ⊕ R) = P ⊕ Q ⊕ R;
  cpoint_add_id_l (P : CPoint) : cpoint_identity ⊕ P = P;
  cpoint_mul_add_l (P Q : CPoint) (a : CScalar) : (P ⊕ Q) ⊙ a = P ⊙ a ⊕ Q ⊙ a;
  cpoint_mul_add_r (P : CPoint) (a b : CScalar) : P ⊙ (a + b) = P ⊙ a ⊕ P ⊙ b;
  cpoint_mul_mul (P : CPoint) (a b : CScalar) : P ⊙ a ⊙ b = P ⊙ (a * b);
  cpoint_mul_1 (P : CPoint) : P ⊙ 1 = P;
  cpoint_mul_0 (P : CPoint) : P ⊙ 0 = cpoint_identity;
}.

#[export] Program Instance cycle_module `{CyclePoints} : SModule CScalar CPoint := {|
  mzero := cpoint_identity; madd := cpoint_add; mscale := cpoint_mul;
|}.
Solve Obligations with
  intros; (apply cpoint_add_comm || apply cpoint_add_assoc || apply cpoint_add_id_l
           || apply cpoint_mul_add_l || apply cpoint_mul_add_r || apply cpoint_mul_mul
           || apply cpoint_mul_1 || apply cpoint_mul_0).

(** The sum that a multiscalar multiplication computes. *)
Definition lincomb `{CyclePoints} (scalars : list CScalar) (points : list CPoint) : CPoint :=
  msum (SM:=cycle_module) (λ sP : CScalar * CPoint, sP.2 ⊙ sP.1) (zip scalars points).

(** The documented behaviour of the methods: the multiscalar multiplications are
    the sum of the products on slices of equal length, the conversions between
    the point representations lose nothing, and the inversions invert nonzero
    scalars. *)
Class CycleLaws `{Cycle} : Prop := {
  cycle_points :: CyclePoints;
  vartime_msm_spec scalars points :
    length scalars = length points → vartime_msm scalars points = lincomb scalars points;
  vartime_msm_affine_spec scalars points :
    length scalars = length points →
    vartime_msm_affine scalars points = lincomb scalars (affine_to_point <$> points);
  vartime_msm_mixed_spec batches scalars points :
    Forall (λ b, length b.1 = length b.2) batches → length scalars = length points →
    vartime_msm_mixed batches scalars points = default_vartime_msm_mixed batches scalars points;
  affine_to_point_to_affine P : affine_to_point (point_to_affine P) = P;
  batch_normalize_spec points : batch_normalize points = point_to_affine <$> points;
  decompress_compress P : compressed_decompress (point_compress P) = Some P;
  compressed_identity_spec : compressed_identity = point_compress cpoint_identity;
  compressed_is_identity_spec P :
    compressed_is_identity (point_compress P) = bool_decide (P = cpoint_identity);
  (** The inverse of zero is zero. *)
  scalar_invert_spec (a : CScalar) : scalar_invert a = sinv a;
  scalar_batch_invert_spec (items : list CScalar) :
    Forall (λ a, a ≠ szero) items →
    scalar_batch_invert items = (sinv <$> items, sinv (foldl smul 1 items));
}.

(** Fixed-width encodings, one per point and per scalar. *)
Class CycleCodec `{Cycle} : Prop := {
  length_compressed c : length (compressed_as_bytes c) = COMPRESSED_BYTES;
  COMPRESSED_BYTES_positive : (0 < COMPRESSED_BYTES)%nat;
  compressed_from_as_bytes c : compressed_from_bytes (compressed_as_bytes c) = c;
  compressed_as_from_bytes bs :
    length bs = COMPRESSED_BYTES → compressed_as_bytes (compressed_from_bytes bs) = bs;
  length_scalar_canonical s : length (scalar_to_canonical s) = 32%nat;
  scalar_from_to_canonical s : scalar_from_canonical (scalar_to_canonical s) = Some s;
  scalar_to_from_canonical bs s :
    scalar_from_canonical bs = Some s → scalar_to_canonical s = bs;
}.

(** ** The Merlin transcript

    [merlin::Transcript] and its generators: a state, and what the code does to
    it.  [build_rng] starts a [TranscriptRngBuilder]. *)
Class Merlin := {
  Transcript : Type;
  transcript_new : list byte → Transcript;
  append_message : list byte → list byte → Transcript → Transcript;
  append_u64 : list byte → Z → Transcript → Transcript;
  challenge_bytes : list byte → nat → Transcript → list byte * Transcript;
  TranscriptRngBuilder : Type;
  build_rng : Transcript → TranscriptRngBuilder;
  rekey_with_witness_bytes : list byte → list byte → TranscriptRngBuilder → TranscriptRngBuilder;
  TranscriptRng : Type;
  transcript_rng :: CryptoRngCore TranscriptRng;
  finalize : ∀ {R : Type} {rng : CryptoRngCore R}, R → TranscriptRngBuilder → TranscriptRng * R;
}.

Section transcript.
Context `{Cycle} `{Merlin}.

(** [impl R1csDomain for Transcript]. *)
Definition innerproduct_domain_sep (n : Z) (t : Transcript) : Transcript :=
  let t := append_message (bstr "dom-sep") (bstr "ipp v1") t in
  append_u64 (bstr "n") n t.
Definition r1cs_domain_sep (t : Transcript) : Transcript :=
  append_message (bstr "dom-sep") (bstr "r1cs v1") t.
Definition r1cs_1phase_domain_sep (t : Transcript) : Transcript :=
  append_message (bstr "dom-sep") (bstr "r1cs-1phase") t.
Definition r1cs_2phase_domain_sep (t : Transcript) : Transcript :=
  append_message (bstr "dom-sep") (bstr "r1cs-2phase") t.

Definition append_scalar (label : list byte) (scalar : CScalar) (t : Transcript) : Transcript :=
  append_message label (scalar_to_canonical scalar) t.
Definition append_point (label : list byte) (point : Compressed) (t : Transcript) : Transcript :=
  append_message label (compressed_as_bytes point) t.
Definition validate_and_append_point (label : list byte) (point : Compressed)
    : stateful Transcript ProofError unit := λ t,
  if compressed_is_identity point then (Err ProofVerificationError, t)
  else (Ok tt, append_message label (compressed_as_bytes point) t).
Definition challenge_scalar (label : list byte) (t : Transcript) : CScalar * Transcript :=
  let '(buf, t) := challenge_bytes label 64 t in
  (scalar_from_wide buf, t).
End transcript.

(** ** Equations between points

    Scalars and points together are a commutative ring, with [P * Q = 0] for
    points, in which the [ring] tactic decides the equations of the module. *)
Section idealization.
Context `{CyclePoints}.
Add Field ideal_field : (scalar_field_theory (F:=CScalar)).

Record ideal := Ideal { ideal_scalar : CScalar; ideal_point : CPoint }.

Definition of_scalar (a : CScalar) : ideal := Ideal a cpoint_identity.
Definition of_point (P : CPoint) : ideal := Ideal 0 P.
Definition ideal_add (x y : ideal) : ideal :=
  Ideal (ideal_scalar x + ideal_scalar y) (ideal_point x ⊕ ideal_point y).
Definition ideal_mul (x y : ideal) : ideal :=
  Ideal (ideal_scalar x * ideal_scalar y)
    (ideal_point x ⊙ ideal_scalar y ⊕ ideal_point y ⊙ ideal_scalar x).
Definition ideal_opp (x : ideal) : ideal :=
  Ideal (- ideal_scalar x) (ideal_point x ⊙ (- (1))).
Definition ideal_sub (x y : ideal) : ideal := ideal_add x (ideal_opp y).

Lemma ideal_ring_theory :
  ring_theory (of_scalar 0) (of_scalar 1) ideal_add ideal_mul ideal_sub ideal_opp (@eq ideal).
Proof.
  assert (Hid : ∀ a, cpoint_identity ⊙ a = cpoint_identity).
  { intros a. exact (mscale_mzero (SM:=cycle_module) a). }
  assert (Hext : ∀ a b P Q, a = b → P = Q → Ideal a P = Ideal b Q) by congruence.
  constructor.
  - intros [a P]. apply Hext; cbn; [ring|apply cpoint_add_id_l].
  - intros [a P] [b Q]. apply Hext; cbn; [ring|apply cpoint_add_comm].
  - intros [a P] [b Q] [c R]. apply Hext; cbn; [ring|apply cpoint_add_assoc].
  - intros [a P]. apply Hext; cbn; [ring|].
    by rewrite Hid, cpoint_add_id_l, cpoint_mul_1.
  - intros [a P] [b Q]. apply Hext; cbn; [ring|apply cpoint_add_comm].
  - intros [a P] [b Q] [c R]. apply Hext; cbn; [ring|].
    rewrite !cpoint_mul_add_l, !cpoint_mul_mul, <-cpoint_add_assoc.
    by rewrite (smul_comm c a), (smul_comm b a).
  - intros [a P] [b Q] [c R]. apply Hext; cbn; [ring|].
    rewrite cpoint_mul_add_l, cpoint_mul_add_r.
    apply (madd_interchange (SM:=cycle_module)).
  - done.
  - intros [a P]. apply Hext; cbn; [ring|].
    rewrite <-(cpoint_mul_1 P) at 1. rewrite <-cpoint_mul_add_r, sneg_r. apply cpoint_mul_0.
Qed.

Lemma of_point_inj P Q : of_point P = of_point Q → P = Q.
Proof. by intros [= ->]. Qed.
Lemma of_point_add P Q : of_point (P ⊕ Q) = ideal_add (of_point P) (of_point Q).
Proof. unfold of_point, ideal_add. cbn. by rewrite sadd_0_l. Qed.
Lemma of_point_mul P a : of_point (P ⊙ a) = ideal_mul (of_point P) (of_scalar a).
Proof.
  unfold of_point, of_scalar, ideal_mul. cbn. rewrite cpoint_mul_0, cpoint_add_comm, cpoint_add_id_l.
  f_equal. ring.
Qed.
Lemma of_point_identity : of_point cpoint_identity = of_scalar 0.
Proof. done. Qed.
Lemma of_scalar_add a b : of_scalar (a + b) = ideal_add (of_scalar a) (of_scalar b).
Proof. unfold of_scalar, ideal_add. cbn. by rewrite cpoint_add_id_l. Qed.
Lemma of_scalar_mul a b : of_scalar (a * b) = ideal_mul (of_scalar a) (of_scalar b).
Proof.
  unfold of_scalar, ideal_mul. cbn. f_equal.
  assert (Hid : ∀ a, cpoint_identity ⊙ a = cpoint_identity).
  { intros c. exact (mscale_mzero (SM:=cycle_module) c). }
  by rewrite !Hid, cpoint_add_id_l.
Qed.
Lemma of_scalar_opp a : of_scalar (- a) = ideal_opp (of_scalar a).
Proof.
  unfold of_scalar, ideal_opp. cbn. f_equal. symmetry.
  exact (mscale_mzero (SM:=cycle_module) _).
Qed.
Lemma of_scalar_sub a b : of_scalar (a - b) = ideal_sub (of_scalar a) (of_scalar b).
Proof. unfold ideal_sub. by rewrite ssub_def, of_scalar_add, of_scalar_opp. Qed.
End idealization.

(** To be used where [ideal_ring_theory] is declared as a ring; the second form
    also uses a scalar equation. *)
Ltac push_points :=
  repeat first [ rewrite of_point_add | rewrite of_point_mul | rewrite of_point_identity
               | rewrite of_scalar_add | rewrite of_scalar_mul | rewrite of_scalar_opp
               | rewrite of_scalar_sub ].
Ltac point_ring := apply of_point_inj; push_points; ring.
Ltac point_ring_using e :=
  let H := fresh in
  pose proof (f_equal of_scalar e) as H; rewrite of_scalar_mul in H;
  apply of_point_inj; push_points; ring [H].

(** ** Linear combinations of points *)
Section lincomb.
Context `{CyclePoints}.
Add Field cycle_scalar_field : (scalar_field_theory (F:=CScalar)).
Implicit Types (s : list CScalar) (Ps Qs : list CPoint) (P Q : CPoint) (a b : CScalar).

Lemma lincomb_nil_l Ps : lincomb [] Ps = cpoint_identity.
Proof. done. Qed.
Lemma lincomb_nil_r s : lincomb s [] = cpoint_identity.
Proof. by destruct s. Qed.
Lemma lincomb_cons a s P Ps : lincomb (a :: s) (P :: Ps) = P ⊙ a ⊕ lincomb s Ps.
Proof. done. Qed.

Lemma cpoint_add_id_r P : P ⊕ cpoint_identity = P.
Proof. by rewrite cpoint_add_comm, cpoint_add_id_l. Qed.

Lemma lincomb_app s1 s2 Ps1 Ps2 :
  length s1 = length Ps1 →
  lincomb (s1 ++ s2) (Ps1 ++ Ps2) = lincomb s1 Ps1 ⊕ lincomb s2 Ps2.
Proof. intros Hl. unfold lincomb. rewrite zip_with_app by done. apply (msum_app (SM:=cycle_module)). Qed.

Lemma lincomb_single a P : lincomb [a] [P] = P ⊙ a.
Proof. by rewrite lincomb_cons, lincomb_nil_l, cpoint_add_id_r. Qed.

Lemma lincomb_snoc s a Ps P :
  length s = length Ps → lincomb (s ++ [a]) (Ps ++ [P]) = lincomb s Ps ⊕ P ⊙ a.
Proof. intros. by rewrite lincomb_app, lincomb_single. Qed.

Lemma cpoint_identity_mul a : cpoint_identity ⊙ a = cpoint_identity.
Proof. exact (mscale_mzero (SM:=cycle_module) a). Qed.

Lemma lincomb_scale s Ps a : lincomb s Ps ⊙ a = lincomb ((λ x, x * a) <$> s) Ps.
Proof.
  revert Ps. induction s as [|x s IH]; intros [|P Ps]; csimpl;
    rewrite ?lincomb_nil_l, ?lincomb_nil_r, ?cpoint_identity_mul; try done.
  by rewrite !lincomb_cons, cpoint_mul_add_l, IH, cpoint_mul_mul.
Qed.

Lemma lincomb_scale_points s Ps a : lincomb s Ps ⊙ a = lincomb s ((λ P, P ⊙ a) <$> Ps).
Proof.
  revert Ps. induction s as [|x s IH]; intros [|P Ps]; csimpl;
    rewrite ?lincomb_nil_l, ?lincomb_nil_r, ?cpoint_identity_mul; try done.
  by rewrite !lincomb_cons, cpoint_mul_add_l, IH, !cpoint_mul_mul, (smul_comm a).
Qed.

(** Scaling a vector against its bases. *)
Lemma lincomb_mul s fs Ps :
  lincomb (zip_with smul s fs) Ps = lincomb s (zip_with cpoint_mul Ps fs).
Proof.
  unfold lincomb. revert fs Ps.
  induction s as [|a s IH]; intros [|f fs] [|P Ps]; csimpl; try done.
  by rewrite IH, cpoint_mul_mul, (smul_comm f).
Qed.

Lemma lincomb_add_l s1 s2 Ps :
  length s1 = length s2 →
  lincomb (zip_with sadd s1 s2) Ps = lincomb s1 Ps ⊕ lincomb s2 Ps.
Proof.
  unfold lincomb. revert s2 Ps.
  induction s1 as [|a s1 IH]; intros [|b s2] [|P Ps] Hl; csimpl; try done;
    rewrite ?cpoint_add_id_l; try done.
  rewrite IH by (simpl in Hl; lia). rewrite cpoint_mul_add_r.
  apply (madd_interchange (SM:=cycle_module)).
Qed.

Lemma lincomb_add_r s Ps Qs :
  length Ps = length Qs →
  lincomb s (zip_with cpoint_add Ps Qs) = lincomb s Ps ⊕ lincomb s Qs.
Proof.
  unfold lincomb. revert Ps Qs.
  induction s as [|a s IH]; intros [|P Ps] [|Q Qs] Hl; csimpl; try done;
    rewrite ?cpoint_add_id_l; try done.
  rewrite IH by (simpl in Hl; lia). rewrite cpoint_mul_add_l.
  apply (madd_interchange (SM:=cycle_module)).
Qed.

Lemma lincomb_zeros n Ps : lincomb (replicate n 0) Ps = cpoint_identity.
Proof.
  unfold lincomb. revert Ps. induction n as [|n IH]; intros [|P Ps]; csimpl; try done.
  by rewrite IH, cpoint_mul_0, cpoint_add_id_l.
Qed.

Lemma lincomb_neg s Ps : lincomb (sneg <$> s) Ps = lincomb s Ps ⊙ (- (1)).
Proof.
  rewrite lincomb_scale. f_equal. apply list_fmap_ext. intros. ring.
Qed.

(** A sum of terms in any order is the combination of its coefficients. *)
Lemma cpoint_mul_neg_add P a : P ⊙ a ⊕ P ⊙ (- a) = cpoint_identity.
Proof. rewrite <-cpoint_mul_add_r, sneg_r. apply cpoint_mul_0. Qed.
End lincomb.

Create Rewrite HintDb lengths.
#[export] Hint Rewrite @length_zip_with @length_fmap @length_app @length_take @length_drop
  @length_replicate @length_reverse @length_seq @length_imap : lengths.
Ltac lengths := autorewrite with lengths in *; simpl length in *; try lia.

(** ** A cycle over the test field *)
Definition tiny_from_canonical (bs : list byte) : option TinyScalar :=
  match bs with
  | b :: rest => if bool_decide (rest = replicate 31 x00)
                 then match tiny_from_repr b with Ok s => Some s | Err _ => None end else None
  | [] => None
  end.

#[export] Instance TinyCycle : Cycle := {|
  CScalar := TinyScalar;
  CPoint := TinyScalar;
  cpoint_generator := tiny 1;
  cpoint_identity := tiny 0;
  cpoint_add := sadd;
  cpoint_mul := smul;
  CAffine := TinyScalar;
  Compressed := byte;
  COMPRESSED_BYTES := 1;
  scalar_from_wide := λ bs, tiny (from_be_bytes bs);
  scalar_from_canonical := tiny_from_canonical;
  scalar_to_canonical := λ s, tiny_to_repr s :: replicate 31 x00;
  scalar_invert := λ s, default szero (sinvert s);
  scalar_batch_invert := λ items,
    if bool_decide (szero ∈ items) then ((λ _, szero) <$> items, szero)
    else ((λ s, default szero (sinvert s)) <$> items, default szero (sinvert (foldl smul sone items)));
  point_compress := tiny_to_repr;
  compressed_decompress := λ c, match tiny_from_repr c with Ok s => Some s | Err _ => None end;
  compressed_identity := x00;
  compressed_is_identity := λ c, bool_decide (c = x00);
  compressed_from_bytes := λ bs, default x00 (head bs);
  compressed_as_bytes := λ c, [c];
  point_hash_from_uniform := λ bs, tiny (from_be_bytes bs);
  points_hash_from_uniform := λ bss, (λ bs, tiny (from_be_bytes bs)) <$> bss;
  point_to_affine := id;
  affine_to_point := id;
  batch_normalize := id;
  affine_compress := tiny_to_repr;
  vartime_msm := λ ss Ps, foldr sadd szero (zip_with smul Ps ss);
  vartime_msm_affine := λ ss Ps, foldr sadd szero (zip_with smul Ps ss);
  vartime_msm_mixed := λ bs ss Ps,
    foldl (λ r b, sadd r (foldr sadd szero (zip_with smul b.2 b.1)))
      (foldr sadd szero (zip_with smul Ps ss)) bs;
|}.

#[export] Instance TinyCycle_points : CyclePoints.
Proof.
  split; simpl.
  - exact TinyScalar_laws.
  - exact sadd_comm.
  - exact sadd_assoc.
  - exact sadd_0_l.
  - exact smul_add_distr_l.
  - intros P a b. exact (gmul_add_r (GroupModule:=TinyGroup_module) P a b).
  - intros P a b. exact (gmul_mul (GroupModule:=TinyGroup_module) P a b).
  - exact smul_1_r.
  - exact smul_0_r.
Qed.

Lemma tiny_lincomb ss Ps : foldr sadd szero (zip_with smul Ps ss) = lincomb ss Ps.
Proof.
  unfold lincomb. revert Ps. induction ss as [|a ss IH]; intros [|P Ps]; simpl; try done.
  by rewrite IH.
Qed.

#[export] Instance TinyCycle_laws : CycleLaws.
Proof.
  unshelve econstructor.
  - intros ss Ps _. apply tiny_lincomb.
  - intros ss Ps _. simpl. rewrite list_fmap_id. apply tiny_lincomb.
  - intros bs ss Ps _ _. unfold default_vartime_msm_mixed.
    change (foldl (λ (r : TinyScalar) b, sadd r (foldr sadd szero (zip_with smul b.2 b.1)))
      (foldr sadd szero (zip_with smul Ps ss)) bs
      = foldl (λ r '(scalars, points), sadd r (foldr sadd szero (zip_with smul points scalars)))
      (foldr sadd szero (zip_with smul Ps ss)) bs).
    generalize (foldr sadd szero (zip_with smul Ps ss)). induction bs as [|[s P] bs IH]; intros r; [done|].
    cbn [foldl]. apply IH.
  - done.
  - intros Ps. simpl. symmetry. apply list_fmap_id.
  - intros P. simpl. by rewrite tiny_from_to_repr.
  - done.
  - intros P. simpl. apply bool_decide_ext. split.
    + intros E. apply (f_equal tiny_from_repr) in E. rewrite tiny_from_to_repr in E.
      change x00 with (tiny_to_repr (tiny 0)) in E. rewrite tiny_from_to_repr in E. by injection E.
    + by intros ->.
  - done.
  - intros items Hz. simpl. rewrite bool_decide_eq_false_2; [done|].
    rewrite Forall_forall in Hz. intros Hin. by apply (Hz _ Hin).
Qed.

#[export] Instance TinyCycle_codec : CycleCodec.
Proof.
  split; try done.
  - simpl. lia.
  - intros [|c [|]]; done.
  - intros s. change (tiny_from_canonical (tiny_to_repr s :: replicate 31 x00) = Some s).
    unfold tiny_from_canonical. by rewrite bool_decide_eq_true_2, tiny_from_to_repr.
  - intros [|c bs] s; [done|]. change (scalar_from_canonical (c :: bs)) with
      (tiny_from_canonical (c :: bs)). unfold tiny_from_canonical. case_bool_decide as E; [|done]. rewrite E.
    destruct (tiny_from_repr c) as [s'|] eqn:Hc; [|done]. intros [= <-].
    change (tiny_to_repr s' :: replicate 31 x00 = c :: replicate 31 x00). f_equal.
    by apply tiny_to_from_repr.
Qed.

(** A transcript that logs what is appended and draws a rolling sum of it. *)
Definition toy_sum (m : list byte) (seed : Z) : Z :=
  foldl (λ acc c, (acc * 31 + byte_to_Z c + 1) `mod` 65521)%Z seed m.

#[export] Instance ToyMerlin : Merlin := {|
  Transcript := Z;
  transcript_new := λ label, toy_sum label 7;
  append_message := λ label message t, toy_sum (label ++ message) t;
  append_u64 := λ label n t, toy_sum (label ++ to_be_bytes 8 n) t;
  challenge_bytes := λ label n t,
    let t := toy_sum label t in (to_be_bytes n (1 + t `mod` 96)%Z, t);
  TranscriptRngBuilder := Z;
  build_rng := id;
  rekey_with_witness_bytes := λ label witness b, toy_sum (label ++ witness) b;
  TranscriptRng := Z;
  transcript_rng := toy_rng;
  finalize := λ R rng r b, let '(v, r) := next_u32 r in (toy_sum (to_be_bytes 4 v) b, r);
|}.
