(* ===== verification/BpUtil.v ===== *)
(** * Scalar polynomials and vectors (bulletproofs-cycle/util.rs)

    Powers, inner products, sums of powers, and the two polynomials of the R1CS
    proof, with the identity that lets the prover skip two of its limbs. *)

From Stdlib Require Import ZArith Lia Field Strings.Byte.
From stdpp Require Import prelude strings.
From S2P Require Import Prelude CoreError Group Algebra TestSupport.

Local Open Scope golden_scope.

Section util.
Context {F : Type} `{FieldOps F}.

(** [VecPoly3] and [Poly6]; the tuple fields are numbered. *)
Record VecPoly3 := MkVecPoly3 {
  vp_0 : list F;
  vp_1 : list F;
  vp_2 : list F;
  vp_3 : list F;
}.
Record Poly6 := MkPoly6 { t1 : F; t2 : F; t3 : F; t4 : F; t5 : F; t6 : F }.

(** [exp_iter], and the first [n] items the iterator yields. *)
Record ScalarExp := MkScalarExp { se_x : F; next_exp_x : F }.
Definition ScalarExp_next (it : ScalarExp) : F * ScalarExp :=
  let exp_x := next_exp_x it in
  (exp_x, MkScalarExp (se_x it) (next_exp_x it * se_x it)).
Definition exp_iter (x : F) : ScalarExp := MkScalarExp x 1.
Fixpoint exp_take (n : nat) (it : ScalarExp) : list F :=
  match n with
  | O => []
  | S n => let '(v, it) := ScalarExp_next it in v :: exp_take n it
  end.

(** The loop runs to the shorter of the two lengths. *)
Definition inner_product (a b : list F) : F :=
  foldl (λ out '(a_i, b_i), out + a_i * b_i) 0 (zip a b).

Definition special_inner_product (lhs rhs : VecPoly3) : Poly6 :=
  let t1 := inner_product (vp_1 lhs) (vp_0 rhs) in
  let t2 := inner_product (vp_1 lhs) (vp_1 rhs) + inner_product (vp_2 lhs) (vp_0 rhs) in
  let t3 := inner_product (vp_2 lhs) (vp_1 rhs) + inner_product (vp_3 lhs) (vp_0 rhs) in
  let t4 := inner_product (vp_1 lhs) (vp_3 rhs) + inner_product (vp_3 lhs) (vp_1 rhs) in
  let t5 := inner_product (vp_2 lhs) (vp_3 rhs) in
  let t6 := inner_product (vp_3 lhs) (vp_3 rhs) in
  MkPoly6 t1 t2 t3 t4 t5 t6.

(** [v.get(i).copied().unwrap_or(ZERO)]. *)
Definition at_or_zero (v : list F) (i : nat) : F := default 0 (v !! i).

Definition VecPoly3_eval (p : VecPoly3) (x : F) : list F :=
  let n := Nat.max (Nat.max (Nat.max (length (vp_0 p)) (length (vp_1 p))) (length (vp_2 p))) (length (vp_3 p)) in
  (λ i, at_or_zero (vp_0 p) i
        + x * (at_or_zero (vp_1 p) i + x * (at_or_zero (vp_2 p) i + x * at_or_zero (vp_3 p) i)))
  <$> seq 0 n.

Definition Poly6_eval (p : Poly6) (x : F) : F :=
  x * (t1 p + x * (t2 p + x * (t3 p + x * (t4 p + x * (t5 p + x * t6 p))))).

(** [usize::is_power_of_two]. *)
Definition is_power_of_two (n : nat) : bool :=
  negb (Nat.eqb n 0) && Nat.eqb (2 ^ Nat.log2 n) n.

Definition sum_of_powers_slow (x : F) (n : nat) : F := foldl sadd 0 (exp_take n (exp_iter x)).

(** The doubling loop; [m] halves each time, so [n] passes are enough. *)
Fixpoint doubling_loop (fuel m : nat) (factor result : F) : F :=
  match fuel with
  | O => result
  | S fuel =>
      if Nat.ltb 2 m then
        let factor := factor * factor in
        let result := result + factor * result in
        doubling_loop fuel (Nat.div m 2) factor result
      else result
  end.

Definition sum_of_powers (x : F) (n : nat) : F :=
  if negb (is_power_of_two n) then sum_of_powers_slow x n
  else if (Nat.eqb n 0 || Nat.eqb n 1)%bool then snat n
  else doubling_loop n n x (1 + x).
End util.
Arguments VecPoly3 _ : clear implicits.
Arguments Poly6 _ : clear implicits.
Arguments ScalarExp _ : clear implicits.

(** [read32]: callers pass at least 32 bytes. *)
Definition read32 (data : list byte) : list byte := take 32 data.

(** ** Loops *)
Lemma foldl_ext_in {A B} (f g : A → B → A) l acc :
  (∀ a b, b ∈ l → f a b = g a b) → foldl f acc l = foldl g acc l.
Proof.
  revert acc. induction l as [|b l IH]; intros acc Hfg; [done|]. simpl.
  rewrite Hfg by left. apply IH. intros. apply Hfg. by right.
Qed.

(** ** Inner products *)
Section inner_products.
Context {F : Type} `{FieldLaws F}.
Add Field util_field : (scalar_field_theory (F:=F)).
Implicit Types (a b : list F) (x y : F).

Lemma inner_product_acc a b acc :
  foldl (λ out '(a_i, b_i), out + a_i * b_i) acc (zip a b) = acc + inner_product a b.
Proof.
  unfold inner_product. revert b acc.
  induction a as [|x a IH]; intros [|y b] acc; simpl; try ring.
  rewrite (IH b (acc + x * y)), (IH b (0 + x * y)). ring.
Qed.

Lemma inner_product_nil_l b : inner_product [] b = 0.
Proof. done. Qed.
Lemma inner_product_nil_r a : inner_product a [] = 0.
Proof. by destruct a. Qed.
Lemma inner_product_cons x a y b : inner_product (x :: a) (y :: b) = x * y + inner_product a b.
Proof.
  unfold inner_product at 1. simpl. rewrite inner_product_acc. ring.
Qed.

Lemma inner_product_app a1 a2 b1 b2 :
  length a1 = length b1 →
  inner_product (a1 ++ a2) (b1 ++ b2) = inner_product a1 b1 + inner_product a2 b2.
Proof.
  revert b1. induction a1 as [|x a1 IH]; intros [|y b1] Hl; try done; csimpl.
  - rewrite inner_product_nil_l. ring.
  - rewrite !inner_product_cons, IH by (simpl in Hl; lia). ring.
Qed.

Lemma inner_product_comm a b : inner_product a b = inner_product b a.
Proof.
  revert b. induction a as [|x a IH]; intros [|y b]; try done.
  rewrite !inner_product_cons, IH. ring.
Qed.

Lemma inner_product_add_l a1 a2 b :
  length a1 = length a2 →
  inner_product (zip_with sadd a1 a2) b = inner_product a1 b + inner_product a2 b.
Proof.
  revert a2 b. induction a1 as [|x a1 IH]; intros [|y a2] [|z b] Hl; try done; csimpl;
    rewrite ?inner_product_nil_r, ?inner_product_nil_l; try ring.
  rewrite !inner_product_cons, IH by (simpl in Hl; lia). ring.
Qed.

Lemma inner_product_add_r a b1 b2 :
  length b1 = length b2 →
  inner_product a (zip_with sadd b1 b2) = inner_product a b1 + inner_product a b2.
Proof. intros. rewrite !(inner_product_comm a). by apply inner_product_add_l. Qed.

Lemma inner_product_scale_l a b x :
  inner_product ((λ y, y * x) <$> a) b = inner_product a b * x.
Proof.
  revert b. induction a as [|y a IH]; intros [|z b]; csimpl;
    rewrite ?inner_product_nil_r, ?inner_product_nil_l; try ring.
  rewrite !inner_product_cons, IH. ring.
Qed.

Lemma inner_product_scale_r a b x :
  inner_product a ((λ y, y * x) <$> b) = inner_product a b * x.
Proof. rewrite !(inner_product_comm a). apply inner_product_scale_l. Qed.

Lemma inner_product_zeros n b : inner_product (replicate n 0) b = 0.
Proof.
  revert b. induction n as [|n IH]; intros [|z b]; csimpl; try done.
  rewrite inner_product_cons, IH. ring.
Qed.

(** Moving a pointwise factor across. *)
Lemma inner_product_mul a fs b :
  inner_product (zip_with smul a fs) b = inner_product a (zip_with smul b fs).
Proof.
  revert fs b. induction a as [|x a IH]; intros [|f fs] [|y b]; csimpl; try done.
  rewrite !inner_product_cons, IH. ring.
Qed.

Lemma inner_product_msum a b :
  inner_product a b = msum (SM:=scalar_module F) (λ p, p.1 * p.2) (zip a b).
Proof.
  revert b. induction a as [|x a IH]; intros [|y b]; try done.
  rewrite inner_product_cons, IH. done.
Qed.

(** ** Powers *)
Lemma exp_take_spec n x y :
  exp_take n (MkScalarExp x y) = (λ i, y * spow x i) <$> seq 0 n.
Proof.
  revert y. induction n as [|n IH]; intros y; [done|]. cbn [exp_take ScalarExp_next next_exp_x se_x].
  rewrite IH. cbn [seq]. rewrite <-(fmap_S_seq 0 n). csimpl. f_equal; [ring|].
  rewrite <-list_fmap_compose. apply list_fmap_ext. intros. simpl. ring.
Qed.

Lemma exp_iter_spec n x : exp_take n (exp_iter x) = spow x <$> seq 0 n.
Proof. unfold exp_iter. rewrite exp_take_spec. apply list_fmap_ext. intros. ring. Qed.

Lemma length_exp_take n it : length (exp_take n it) = n.
Proof. destruct it. by rewrite exp_take_spec, length_fmap, length_seq. Qed.

(** [1 + x + ... + x^(n-1)]. *)
Definition power_sum (x : F) (n : nat) : F := msum (SM:=scalar_module F) (spow x) (seq 0 n).

Lemma power_sum_add x n m : power_sum x (n + m) = power_sum x n + spow x n * power_sum x m.
Proof.
  unfold power_sum. rewrite seq_app, (msum_app (SM:=scalar_module F)). cbn [madd scalar_module].
  f_equal. replace (seq (0 + n) m) with (Nat.add n <$> seq 0 m) by (rewrite fmap_add_seq; f_equal; lia).
  rewrite (msum_fmap (SM:=scalar_module F)).
  rewrite (msum_ext (SM:=scalar_module F) _ (λ i, mscale (SModule:=scalar_module F) (spow x i) (spow x n))).
  - rewrite (msum_scale (SM:=scalar_module F)). cbn [mscale scalar_module]. ring.
  - intros i _. cbn [compose mscale scalar_module]. rewrite spow_add. ring.
Qed.

Lemma sum_of_powers_slow_spec x n : sum_of_powers_slow x n = power_sum x n.
Proof.
  unfold sum_of_powers_slow, power_sum. rewrite exp_iter_spec, foldl_fmap.
  etrans; [exact (msum_foldl (SM:=scalar_module F) (spow x) (seq 0 n) 0)|].
  cbn [madd scalar_module]. ring.
Qed.

Lemma doubling_loop_spec x k fuel j :
  (0 < k ≤ fuel)%nat →
  doubling_loop fuel (2 ^ k) (spow x (2 ^ j)) (power_sum x (2 ^ (j + 1)))
  = power_sum x (2 ^ (j + k)).
Proof.
  revert k j. induction fuel as [|fuel IH]; intros k j Hk; [lia|]. cbn [doubling_loop].
  destruct k as [|[|k]]; [lia|done|].
  assert (Nat.ltb 2 (2 ^ S (S k)) = true)%nat as ->.
  { apply Nat.ltb_lt. rewrite !Nat.pow_succ_r'. pose proof (Nat.pow_nonzero 2 k). lia. }
  assert (2 ^ S (S k) / 2 = 2 ^ S k)%nat as ->.
  { rewrite (Nat.pow_succ_r' 2 (S k)), Nat.mul_comm. apply Nat.div_mul. lia. }
  assert (Hf : spow x (2 ^ j) * spow x (2 ^ j) = spow x (2 ^ (j + 1))).
  { rewrite <-spow_add. f_equal. rewrite Nat.pow_add_r. simpl. lia. }
  rewrite Hf, <-power_sum_add.
  replace (2 ^ (j + 1) + 2 ^ (j + 1))%nat with (2 ^ (j + 1 + 1))%nat
    by (rewrite (Nat.pow_add_r 2 (j + 1) 1); simpl; lia).
  rewrite IH by lia. f_equal. f_equal. lia.
Qed.

Lemma is_power_of_two_spec n : is_power_of_two n = true ↔ ∃ k, n = (2 ^ k)%nat.
Proof.
  unfold is_power_of_two. rewrite andb_true_iff, negb_true_iff, Nat.eqb_neq, Nat.eqb_eq. split.
  - intros [_ <-]. by eexists.
  - intros [k ->]. pose proof (Nat.pow_nonzero 2 k). split; [lia|]. by rewrite Nat.log2_pow2 by lia.
Qed.

Lemma sum_of_powers_spec x n : sum_of_powers x n = power_sum x n.
Proof.
  unfold sum_of_powers. destruct (is_power_of_two n) eqn:Hp; cbn [negb];
    [|by apply sum_of_powers_slow_spec].
  apply is_power_of_two_spec in Hp as [k Hp]. pose proof (Nat.pow_nonzero 2 k).
  destruct (Nat.eqb_spec n 0), (Nat.eqb_spec n 1) as [->|Hn1]; try done; try lia; cbn [orb].
  rewrite Hp at 2. symmetry in Hp.
  assert (0 < k)%nat. { destruct k; [simpl in Hp; lia|lia]. }
  pose proof (doubling_loop_spec x k n 0) as Hloop. simpl in Hloop.
  rewrite <-Hp at 2. rewrite <-Hloop; [f_equal; try ring|].
  - unfold power_sum. simpl. ring.
  - split; [done|]. pose proof (Nat.pow_gt_lin_r 2 k). lia.
Qed.

(** ** The product of the two vector polynomials *)
Lemma inner_product_fmap {A} (f g : A → F) l :
  inner_product (f <$> l) (g <$> l) = msum (SM:=scalar_module F) (λ i, f i * g i) l.
Proof.
  induction l as [|i l IH]; [done|]. csimpl. by rewrite inner_product_cons, IH.
Qed.

Lemma at_or_zero_fmap v n : length v = n → at_or_zero v <$> seq 0 n = v.
Proof.
  intros <-. apply list_eq. intros i. rewrite list_lookup_fmap.
  destruct (decide (i < length v)%nat) as [Hi|Hi].
  - rewrite lookup_seq_lt by done. simpl. unfold at_or_zero.
    by destruct (lookup_lt_is_Some_2 v i Hi) as [y ->].
  - rewrite lookup_seq_ge, lookup_ge_None_2 by lia. done.
Qed.

(** Padding with zeros on either side adds nothing. *)
Lemma inner_product_at a b n :
  (length a ≤ n)%nat ∨ (length b ≤ n)%nat →
  inner_product a b = msum (SM:=scalar_module F) (λ i, at_or_zero a i * at_or_zero b i) (seq 0 n).
Proof.
  revert b n. induction a as [|x a IH]; intros [|y b] n Hn.
  1,2,3: rewrite ?inner_product_nil_l, ?inner_product_nil_r, (msum_zero (SM:=scalar_module F));
    [done|]; intros i _; unfold at_or_zero; simpl; ring.
  destruct n as [|n]; [simpl in Hn; lia|]. rewrite inner_product_cons, (IH b n) by (simpl in Hn; lia).
  cbn [seq]. rewrite <-fmap_S_seq. simpl. by rewrite (msum_fmap (SM:=scalar_module F)).
Qed.

Lemma msum_cons_scalar {A} (f : A → F) i l :
  msum (SM:=scalar_module F) f (i :: l) = f i + msum (SM:=scalar_module F) f l.
Proof. done. Qed.

Lemma product_coefficients {A} (l1 l2 l3 r0 r1 r3 : A → F) x l :
  let sum f := msum (SM:=scalar_module F) f l in
  sum (λ i, (0 + x * (l1 i + x * (l2 i + x * l3 i))) * (r0 i + x * (r1 i + x * (0 + x * r3 i))))
  = x * (sum (λ i, l1 i * r0 i)
    + x * (sum (λ i, l1 i * r1 i) + sum (λ i, l2 i * r0 i)
    + x * (sum (λ i, l2 i * r1 i) + sum (λ i, l3 i * r0 i)
    + x * (sum (λ i, l1 i * r3 i) + sum (λ i, l3 i * r1 i)
    + x * (sum (λ i, l2 i * r3 i) + x * sum (λ i, l3 i * r3 i)))))).
Proof.
  intros sum. unfold sum. clear sum. induction l as [|i l IH]; [simpl; ring|].
  rewrite !msum_cons_scalar, IH. ring.
Qed.

(** Evaluating the two polynomials and taking the inner product is evaluating
    their product, whose [x^0] coefficient is absent and whose coefficients skip
    the constant limb of one side and the quadratic limb of the other. *)
Lemma special_inner_product_eval lhs rhs x :
  vp_0 lhs = [] → vp_2 rhs = [] →
  (length (vp_1 lhs) = length (vp_2 lhs)) → length (vp_1 lhs) = length (vp_3 lhs) →
  length (vp_1 lhs) = length (vp_0 rhs) → length (vp_1 lhs) = length (vp_1 rhs) →
  length (vp_1 lhs) = length (vp_3 rhs) →
  inner_product (VecPoly3_eval lhs x) (VecPoly3_eval rhs x)
  = Poly6_eval (special_inner_product lhs rhs) x.
Proof.
  destruct lhs as [l0 l1 l2 l3], rhs as [r0 r1 r2 r3]. cbn [vp_0 vp_1 vp_2 vp_3].
  intros -> -> H2 H3 H4 H5 H6. unfold VecPoly3_eval. cbn [vp_0 vp_1 vp_2 vp_3 length].
  set (n := length l1) in *. rewrite <-H2, <-H3, <-H4, <-H5, <-H6.
  repeat rewrite ?Nat.max_id, ?Nat.max_0_l, ?Nat.max_0_r. rewrite inner_product_fmap.
  unfold special_inner_product, Poly6_eval. cbn [vp_0 vp_1 vp_2 vp_3 t1 t2 t3 t4 t5 t6].
  rewrite !(inner_product_at _ _ n) by lia.
  exact (product_coefficients (at_or_zero l1) (at_or_zero l2) (at_or_zero l3) (at_or_zero r0)
    (at_or_zero r1) (at_or_zero r3) x (seq 0 n)).
Qed.
End inner_products.
