(* ===== verification/InnerProduct.v ===== *)
(** * The inner-product argument (bulletproofs-cycle/inner_product_proof.rs)

    Prover, verifier and encoding.  The prover works on the original generators
    for the first rounds and on folded ones afterwards, and the verifier checks
    one multiscalar multiplication; both are shown to be the textbook protocol,
    which folds the generators by the challenge in every round. *)

From Stdlib Require Import ZArith Lia Field Strings.Byte.
From stdpp Require Import prelude strings.
From S2P Require Import Prelude CoreError Group Algebra TestSupport Cycle BpUtil.

Local Open Scope golden_scope.

Section model.
Context `{Cycle} `{Merlin}.

Record InnerProductProof := MkInnerProductProof {
  ipp_L_vec : list Compressed;
  ipp_R_vec : list Compressed;
  ipp_a : CScalar;
  ipp_b : CScalar;
}.

(** [n.next_power_of_two().trailing_zeros()]. *)
Definition lg (n : nat) : nat := Nat.log2_up n.

(** ** The prover *)

(** The vectors that the loop [for j in 0..n] pushes to in one round. *)
Record Terms := MkTerms {
  scalars_l : list CScalar;
  points_l : list CAffine;
  scalars_r : list CScalar;
  points_r : list CAffine;
}.

Definition push_terms (shift mask : nat) (a_L a_R b_L b_R g_coef h_coef : list CScalar)
    (G H : list CAffine) (ts : Terms) (j : nat) : Terms :=
  let idx := Nat.land j mask in
  if Nat.eqb (Nat.land (Nat.shiftr j shift) 1) 1 then
    {| scalars_l := scalars_l ts ++ [a_L !!! idx * g_coef !!! j];
       points_l := points_l ts ++ [G !!! j];
       scalars_r := scalars_r ts ++ [b_L !!! idx * h_coef !!! j];
       points_r := points_r ts ++ [H !!! j] |}
  else
    {| scalars_r := scalars_r ts ++ [a_R !!! idx * g_coef !!! j];
       points_r := points_r ts ++ [G !!! j];
       scalars_l := scalars_l ts ++ [b_R !!! idx * h_coef !!! j];
       points_l := points_l ts ++ [H !!! j] |}.

(** The local variables of [create]. *)
Record CreateState := MkCreateState {
  cs_transcript : Transcript;
  cs_a : list CScalar;
  cs_b : list CScalar;
  cs_g_coef : list CScalar;
  cs_h_coef : list CScalar;
  cs_L_vec : list Compressed;
  cs_R_vec : list Compressed;
}.

(** [if (j >> shift) & 1 == 1 { x } else { y }]. *)
Definition by_bit (shift j : nat) (x y : CScalar) : CScalar :=
  if Nat.eqb (Nat.land (Nat.shiftr j shift) 1) 1 then x else y.

Definition original_round (n lg_n : nat) (Q_affine : CAffine) (G H : list CAffine)
    (st : CreateState) (round : nat) : CreateState :=
  let m := Nat.shiftr n (round + 1) in
  let shift := (lg_n - round - 1)%nat in
  let mask := (m - 1)%nat in
  let a_L := take m (cs_a st) in
  let a_R := drop m (cs_a st) in
  let b_L := take m (cs_b st) in
  let b_R := drop m (cs_b st) in
  let c_L := inner_product a_L b_R in
  let c_R := inner_product a_R b_L in
  let ts :=
    foldl (push_terms shift mask a_L a_R b_L b_R (cs_g_coef st) (cs_h_coef st) G H)
      (MkTerms [] [] [] []) (seq 0 n) in
  let L := vartime_msm_affine (scalars_l ts ++ [c_L]) (points_l ts ++ [Q_affine]) in
  let R := vartime_msm_affine (scalars_r ts ++ [c_R]) (points_r ts ++ [Q_affine]) in
  let L := point_compress L in
  let R := point_compress R in
  let transcript := append_point (bstr "L") L (cs_transcript st) in
  let transcript := append_point (bstr "R") R transcript in
  let '(u, transcript) := challenge_scalar (bstr "u") transcript in
  let u_inv := scalar_invert u in
  {| cs_transcript := transcript;
     cs_a := zip_with (λ a_L_i a_R_i, a_L_i * u + u_inv * a_R_i) a_L a_R;
     cs_b := zip_with (λ b_L_i b_R_i, b_L_i * u_inv + u * b_R_i) b_L b_R;
     cs_g_coef := imap (λ j gc, gc * by_bit shift j u u_inv) (cs_g_coef st);
     cs_h_coef := imap (λ j hc, hc * by_bit shift j u_inv u) (cs_h_coef st);
     cs_L_vec := cs_L_vec st ++ [L];
     cs_R_vec := cs_R_vec st ++ [R] |}.

(** [iter().step_by(k)], for [0 < k]: every [k]-th item, the first included;
    [skip] items are passed over before the next one. *)
Fixpoint step_by {A} (k skip : nat) (l : list A) : list A :=
  match l with
  | [] => []
  | x :: l =>
      match skip with
      | O => x :: step_by k (k - 1)%nat l
      | S skip => step_by k skip l
      end
  end.

(** The closure [fold]. *)
Definition fold_bases (remaining : nat) (coefficients : list CScalar) (bases : list CAffine)
    : list CAffine :=
  let points :=
    (λ i, vartime_msm_affine (step_by remaining 0 (drop i coefficients))
            (step_by remaining 0 (drop i bases))) <$> seq 0 remaining in
  batch_normalize points.

(** [a[0]]. *)
Definition first_scalar (l : list CScalar) : CScalar := l !!! 0%nat.

(** The loop [while a.len() > 1] halves [a], so [fuel = a.len()] passes are
    enough. *)
Fixpoint create_folded_tail (fuel : nat) (transcript : Transcript) (Q : CAffine)
    (a b : list CScalar) (G H : list CAffine) (L_vec R_vec : list Compressed)
    : InnerProductProof * Transcript :=
  match fuel with
  | O => (MkInnerProductProof L_vec R_vec (first_scalar a) (first_scalar b), transcript)
  | S fuel =>
      if Nat.ltb 1 (length a) then
        let m := Nat.div (length a) 2 in
        let a_L := take m a in
        let a_R := drop m a in
        let b_L := take m b in
        let b_R := drop m b in
        let c_L := inner_product a_L b_R in
        let c_R := inner_product a_R b_L in
        let L := vartime_msm_affine (a_L ++ b_R ++ [c_L]) (drop m G ++ take m H ++ [Q]) in
        let R := vartime_msm_affine (a_R ++ b_L ++ [c_R]) (take m G ++ drop m H ++ [Q]) in
        let L := point_compress L in
        let R := point_compress R in
        let transcript := append_point (bstr "L") L transcript in
        let transcript := append_point (bstr "R") R transcript in
        let L_vec := L_vec ++ [L] in
        let R_vec := R_vec ++ [R] in
        let '(u, transcript) := challenge_scalar (bstr "u") transcript in
        let u_inv := scalar_invert u in
        let a_L := zip_with (λ l r, l * u + r * u_inv) a_L a_R in
        let b_L := zip_with (λ l r, l * u_inv + r * u) b_L b_R in
        let '(G, H) :=
          if Nat.ltb 1 m then
            let g_points :=
              (λ i, vartime_msm_affine [u_inv; u] [G !!! i; G !!! (m + i)%nat]) <$> seq 0 m in
            let h_points :=
              (λ i, vartime_msm_affine [u; u_inv] [H !!! i; H !!! (m + i)%nat]) <$> seq 0 m in
            (batch_normalize g_points, batch_normalize h_points)
          else (G, H) in
        create_folded_tail fuel transcript Q a_L b_L G H L_vec R_vec
      else (MkInnerProductProof L_vec R_vec (first_scalar a) (first_scalar b), transcript)
  end.

Definition ORIGINAL_BASE_ROUNDS : nat := 8.

(** [if n < 4096 { lg_n } else { ORIGINAL_BASE_ROUNDS }]. *)
Definition original_rounds (n : nat) : nat :=
  if (Z.of_nat n <? 4096)%Z then lg n else ORIGINAL_BASE_ROUNDS.

Definition create (transcript : Transcript) (Q : CPoint) (G_factors H_factors : list CScalar)
    (G H : list CAffine) (a_vec b_vec : list CScalar) : InnerProductProof * Transcript :=
  let Q_affine := point_to_affine Q in
  let n := length G in
  let transcript := innerproduct_domain_sep (Z.of_nat n) transcript in
  let lg_n := lg n in
  let st :=
    foldl (original_round n lg_n Q_affine G H)
      (MkCreateState transcript a_vec b_vec G_factors H_factors [] [])
      (seq 0 (original_rounds n)) in
  if Nat.ltb 1 (length (cs_a st)) then
    let remaining := length (cs_a st) in
    let folded_g := fold_bases remaining (cs_g_coef st) G in
    let folded_h := fold_bases remaining (cs_h_coef st) H in
    create_folded_tail remaining (cs_transcript st) Q_affine (cs_a st) (cs_b st) folded_g folded_h
      (cs_L_vec st) (cs_R_vec st)
  else
    (MkInnerProductProof (cs_L_vec st) (cs_R_vec st) (first_scalar (cs_a st))
       (first_scalar (cs_b st)), cs_transcript st).

(** ** The verifier *)

(** A change of the transcript that cannot fail. *)
Definition modify {St E} (f : St → St) : stateful St E unit := λ s, (Ok tt, f s).

(** The loop over the rounds of the proof. *)
Fixpoint replay_challenges (LRs : list (Compressed * Compressed))
    : stateful Transcript ProofError (list CScalar) :=
  match LRs with
  | [] => mret []
  | (L, R) :: LRs =>
      _ ← validate_and_append_point (bstr "L") L;
      _ ← validate_and_append_point (bstr "R") R;
      u ← draw (challenge_scalar (bstr "u"));
      challenges ← replay_challenges LRs;
      mret (u :: challenges)
  end.

(** The loop [for i in 1..n] that extends [s] by [s[i - k] * factors[..]]. *)
Definition subset_products (lg_n n : nat) (first : CScalar) (factors : list CScalar)
    : list CScalar :=
  foldl (λ s i,
           let lg_i := Nat.log2 i in
           let k := (2 ^ lg_i)%nat in
           s ++ [s !!! (i - k)%nat * factors !!! ((lg_n - 1) - lg_i)%nat])
    [first] (seq 1 (n - 1)).

Definition verification_scalars (self : InnerProductProof) (n : nat)
    : stateful Transcript ProofError (list CScalar * list CScalar * list CScalar) :=
  let lg_n := length (ipp_L_vec self) in
  if Nat.leb 32 lg_n then lift (Err ProofVerificationError)
  else if negb (Nat.eqb n (2 ^ lg_n)) then lift (Err ProofVerificationError)
  else
    _ ← modify (innerproduct_domain_sep (Z.of_nat n));
    challenges ← replay_challenges (zip (ipp_L_vec self) (ipp_R_vec self));
    let '(challenges_inv, allinv) := scalar_batch_invert challenges in
    let challenges_sq := (λ c, c * c) <$> challenges in
    let challenges_inv_sq := (λ c, c * c) <$> challenges_inv in
    let s := subset_products lg_n n allinv challenges_sq in
    mret (challenges_sq, challenges_inv_sq, s).

(** [C::compressed_decompress(p).ok_or(VerificationError)], collected. *)
Definition decompress_all (points : list Compressed) : result ProofError (list CPoint) :=
  traverse (λ p, ok_or ProofVerificationError (compressed_decompress p)) points.

Definition ipp_verify (self : InnerProductProof) (n : nat) (G_factors H_factors : list CScalar)
    (P Q : CPoint) (G H : list CPoint) : stateful Transcript ProofError unit :=
  if (negb (Nat.eqb (length G) n) || negb (Nat.eqb (length H) n))%bool
  then lift (Err ProofVerificationError)
  else
    let G_factors := take (n + 1) G_factors in
    let H_factors := take (n + 1) H_factors in
    if (negb (Nat.eqb (length G_factors) n) || negb (Nat.eqb (length H_factors) n))%bool
    then lift (Err ProofVerificationError)
    else
      '(u_sq, u_inv_sq, s) ← verification_scalars self n;
      let a := ipp_a self in
      let b := ipp_b self in
      let g_times_a_times_s := take n (zip_with (λ g_i s_i, a * s_i * g_i) G_factors s) in
      let inv_s := reverse s in
      let h_times_b_div_s := take n (zip_with (λ h_i s_i_inv, b * s_i_inv * h_i) H_factors inv_s) in
      let neg_u_sq := sneg <$> u_sq in
      let neg_u_inv_sq := sneg <$> u_inv_sq in
      Ls ← lift (decompress_all (ipp_L_vec self));
      Rs ← lift (decompress_all (ipp_R_vec self));
      let scalars :=
        [a * b] ++ g_times_a_times_s ++ h_times_b_div_s ++ neg_u_sq ++ neg_u_inv_sq in
      let points := [Q] ++ G ++ H ++ Ls ++ Rs in
      let expect_P := vartime_msm scalars points in
      lift (if bool_decide (expect_P = P) then Ok tt else Err ProofVerificationError).

(** ** The encoding *)
Definition serialized_size_for_rounds (lg_n : nat) : nat :=
  (lg_n * 2 * COMPRESSED_BYTES + 2 * 32)%nat.
Definition ipp_serialized_size (self : InnerProductProof) : nat :=
  serialized_size_for_rounds (length (ipp_L_vec self)).

(** The pairs of compressed points. *)
Definition pair_bytes (LRs : list (Compressed * Compressed)) : list byte :=
  foldl (λ buf '(l, r), (buf ++ compressed_as_bytes l) ++ compressed_as_bytes r) [] LRs.

Definition ipp_to_bytes (self : InnerProductProof) : list byte :=
  let buf := pair_bytes (zip (ipp_L_vec self) (ipp_R_vec self)) in
  let buf := buf ++ scalar_to_canonical (ipp_a self) in
  buf ++ scalar_to_canonical (ipp_b self).

(** [&slice[i..j]]. *)
Definition subslice {A} (i j : nat) (l : list A) : list A := take (j - i) (drop i l).

(** The loop that reads the pairs. *)
Definition read_pairs (lg_n cb : nat) (slice : list byte) : list Compressed * list Compressed :=
  foldl (λ '(L_vec, R_vec) i,
           let pos := (2 * i * cb)%nat in
           let l := compressed_from_bytes (subslice pos (pos + cb) slice) in
           let r := compressed_from_bytes (subslice (pos + cb) (pos + 2 * cb) slice) in
           (L_vec ++ [l], R_vec ++ [r]))
    ([], []) (seq 0 lg_n).

Definition ipp_from_bytes (slice : list byte) : result ProofError InnerProductProof :=
  let cb := COMPRESSED_BYTES in
  let unit := (2 * cb)%nat in
  if Nat.ltb (length slice) 64 then Err ProofFormatError
  else
    let body_len := (length slice - 64)%nat in
    if negb (Nat.eqb (Nat.modulo body_len unit) 0) then Err ProofFormatError
    else
      let lg_n := Nat.div body_len unit in
      let '(L_vec, R_vec) := read_pairs lg_n cb slice in
      let pos := (2 * lg_n * cb)%nat in
      a ← ok_or ProofFormatError (scalar_from_canonical (read32 (drop pos slice)));
      b ← ok_or ProofFormatError (scalar_from_canonical (read32 (drop (pos + 32) slice)));
      Ok (MkInnerProductProof L_vec R_vec a b).
End model.

(** ** The textbook protocol

    Vectors and bases are halved and folded in every round. *)
Section textbook.
Context {CY : Cycle} {CL : CycleLaws} {ME : Merlin}.
Add Field ipp_field : (scalar_field_theory (F:=CScalar)).
Add Ring ipp_ring : ideal_ring_theory.
Implicit Types (a b s : list CScalar) (G H : list CPoint) (P Q : CPoint) (u v : CScalar).

Definition fold_scalars u v (l : list CScalar) : list CScalar :=
  let m := Nat.div (length l) 2 in
  zip_with (λ x y, x * u + y * v) (take m l) (drop m l).
Definition fold_points u v (Ps : list CPoint) : list CPoint :=
  let m := Nat.div (length Ps) 2 in
  zip_with (λ P R, P ⊙ u ⊕ R ⊙ v) (take m Ps) (drop m Ps).

(** What the argument proves of the point [P]. *)
Definition committed P Q G H a b : Prop :=
  P = lincomb a G ⊕ lincomb b H ⊕ Q ⊙ inner_product a b.

Definition cross_L Q G H a b : CPoint :=
  let m := Nat.div (length a) 2 in
  lincomb (take m a) (drop m G) ⊕ lincomb (drop m b) (take m H)
  ⊕ Q ⊙ inner_product (take m a) (drop m b).
Definition cross_R Q G H a b : CPoint :=
  let m := Nat.div (length a) 2 in
  lincomb (drop m a) (take m G) ⊕ lincomb (take m b) (drop m H)
  ⊕ Q ⊙ inner_product (drop m a) (take m b).

(** The verifier: fold the bases and [P] by every challenge, then check the
    committed value of the last pair. *)
Fixpoint textbook_accepts (rounds : list (CScalar * CPoint * CPoint)) Q P G H
    (a b : CScalar) : Prop :=
  match rounds with
  | [] => committed P Q G H [a] [b]
  | (u, L, R) :: rounds =>
      textbook_accepts rounds Q (L ⊙ (u * u) ⊕ P ⊕ R ⊙ (sinv u * sinv u))
        (fold_points (sinv u) u G) (fold_points u (sinv u) H) a b
  end.

Lemma halves {A} (l : list A) m :
  length l = (2 * m)%nat → ∃ x y, l = x ++ y ∧ length x = m ∧ length y = m ∧
    take (Nat.div (length l) 2) l = x ∧ drop (Nat.div (length l) 2) l = y.
Proof.
  intros Hl. exists (take m l), (drop m l). rewrite take_drop, Hl, Nat.mul_comm, Nat.div_mul by lia.
  split; [done|]. rewrite length_take, length_drop. split; [lia|]. split; [lia|done].
Qed.

Lemma lincomb_fold_points u v a G m :
  length a = m → length G = (2 * m)%nat →
  lincomb a (fold_points u v G)
  = lincomb a (take m G) ⊙ u ⊕ lincomb a (drop m G) ⊙ v.
Proof.
  intros Ha HG. unfold fold_points. rewrite HG, Nat.mul_comm, Nat.div_mul by lia.
  assert (Hf : ∀ Ps Qs, length Ps = length Qs →
    lincomb a (zip_with (λ P R, P ⊙ u ⊕ R ⊙ v) Ps Qs) = lincomb a Ps ⊙ u ⊕ lincomb a Qs ⊙ v).
  { clear. intros Ps Qs Hl. rewrite !lincomb_scale_points, <-lincomb_add_r by lengths.
    f_equal. by rewrite zip_with_fmap_l, zip_with_fmap_r. }
  apply Hf. lengths.
Qed.

Lemma lincomb_fold_scalars u v a G m :
  length a = (2 * m)%nat →
  lincomb (fold_scalars u v a) G
  = lincomb (take m a) G ⊙ u ⊕ lincomb (drop m a) G ⊙ v.
Proof.
  intros Ha. unfold fold_scalars. rewrite Ha, Nat.mul_comm, Nat.div_mul by lia.
  assert (Hf : ∀ s t, length s = length t →
    lincomb (zip_with (λ x y, x * u + y * v) s t) G = lincomb s G ⊙ u ⊕ lincomb t G ⊙ v).
  { clear. intros s t Hl. rewrite !lincomb_scale, <-lincomb_add_l by lengths.
    f_equal. by rewrite zip_with_fmap_l, zip_with_fmap_r. }
  apply Hf. lengths.
Qed.

Lemma inner_product_fold_scalars u v a b m :
  length a = (2 * m)%nat →
  inner_product (fold_scalars u v a) b
  = inner_product (take m a) b * u + inner_product (drop m a) b * v.
Proof.
  intros Ha. unfold fold_scalars. rewrite Ha, Nat.mul_comm, Nat.div_mul by lia.
  assert (Hf : ∀ s t, length s = length t →
    inner_product (zip_with (λ x y, x * u + y * v) s t) b
    = inner_product s b * u + inner_product t b * v).
  { clear a m Ha. intros s t Hl. rewrite <-!inner_product_scale_l, <-inner_product_add_l by lengths.
    f_equal. by rewrite zip_with_fmap_l, zip_with_fmap_r. }
  apply Hf. lengths.
Qed.

Lemma length_fold_scalars u v a m : length a = (2 * m)%nat → length (fold_scalars u v a) = m.
Proof.
  intros Ha. unfold fold_scalars. rewrite Ha, Nat.mul_comm, Nat.div_mul by lia. lengths.
Qed.
Lemma length_fold_points u v G m : length G = (2 * m)%nat → length (fold_points u v G) = m.
Proof.
  intros Ha. unfold fold_points. rewrite Ha, Nat.mul_comm, Nat.div_mul by lia. lengths.
Qed.

Lemma lincomb_halves a G m :
  length a = (2 * m)%nat → length G = (2 * m)%nat →
  lincomb a G = lincomb (take m a) (take m G) ⊕ lincomb (drop m a) (drop m G).
Proof.
  intros Ha HG. rewrite <-(take_drop m a), <-(take_drop m G) at 1.
  rewrite lincomb_app; [done|lengths].
Qed.
Lemma inner_product_halves a b m :
  length a = (2 * m)%nat → length b = (2 * m)%nat →
  inner_product a b = inner_product (take m a) (take m b) + inner_product (drop m a) (drop m b).
Proof.
  intros Ha HG. rewrite <-(take_drop m a), <-(take_drop m b) at 1.
  rewrite inner_product_app; [done|lengths].
Qed.

(** One round preserves what is committed. *)
Lemma committed_fold u Q P G H a b m :
  u ≠ szero → length a = (2 * m)%nat → length b = (2 * m)%nat →
  length G = (2 * m)%nat → length H = (2 * m)%nat →
  committed P Q G H a b →
  committed (cross_L Q G H a b ⊙ (u * u) ⊕ P ⊕ cross_R Q G H a b ⊙ (sinv u * sinv u)) Q
    (fold_points (sinv u) u G) (fold_points u (sinv u) H)
    (fold_scalars u (sinv u) a) (fold_scalars (sinv u) u b).
Proof.
  intros Hu Ha Hb HG HH ->. unfold committed, cross_L, cross_R.
  rewrite Ha, Nat.mul_comm, Nat.div_mul by lia.
  rewrite (lincomb_halves a G m), (lincomb_halves b H m), (inner_product_halves a b m) by done.
  rewrite (inner_product_fold_scalars _ _ a _ m) by done.
  rewrite !(inner_product_comm _ (fold_scalars _ _ b)), !(inner_product_fold_scalars _ _ b _ m) by done.
  rewrite !(lincomb_fold_scalars _ _ _ _ m), !(lincomb_fold_points _ _ _ _ m) by lengths.
  rewrite (inner_product_comm (take m b)), (inner_product_comm (drop m b)),
    (inner_product_comm (take m b) (drop m a)), (inner_product_comm (drop m b) (drop m a)).
  pose proof (sinv_r u Hu) as Hinv. point_ring_using Hinv.
Qed.

(** ** One multiscalar multiplication for all rounds *)

(** The coefficient of every original base in the last one. *)
Fixpoint s_vector (us : list CScalar) : list CScalar :=
  match us with
  | [] => [1]
  | u :: us => ((λ x, x * sinv u) <$> s_vector us) ++ ((λ x, x * u) <$> s_vector us)
  end.

Lemma length_s_vector us : length (s_vector us) = (2 ^ length us)%nat.
Proof.
  induction us as [|u us IH]; [done|]. cbn [s_vector length]. rewrite Nat.pow_succ_r'. lengths.
Qed.

Lemma lincomb_unfold_points u v t G m :
  length t = m → length G = (2 * m)%nat →
  lincomb t (fold_points u v G) = lincomb (((λ x, x * u) <$> t) ++ ((λ x, x * v) <$> t)) G.
Proof.
  intros Ht HG. rewrite (lincomb_fold_points _ _ _ _ m), (lincomb_halves (_ ++ _) G m) by lengths.
  rewrite take_app_length', drop_app_length' by lengths. by rewrite <-!lincomb_scale.
Qed.

Lemma reverse_s_vector u us :
  reverse (s_vector (u :: us))
  = ((λ x, x * u) <$> reverse (s_vector us)) ++ ((λ x, x * sinv u) <$> reverse (s_vector us)).
Proof. cbn [s_vector]. by rewrite reverse_app, !fmap_reverse. Qed.

Definition lr_sum (rounds : list (CScalar * CPoint * CPoint)) : CPoint :=
  msum (SM:=cycle_module)
    (λ r, r.1.2 ⊙ (r.1.1 * r.1.1) ⊕ r.2 ⊙ (sinv r.1.1 * sinv r.1.1)) rounds.

Lemma fmap_mul_swap (a c : CScalar) (l : list CScalar) :
  (λ x, x * c) <$> ((λ x, a * x) <$> l) = (λ x, a * x) <$> ((λ x, x * c) <$> l).
Proof. rewrite <-!list_fmap_compose. apply list_fmap_ext. intros. simpl. ring. Qed.

Lemma textbook_accepts_unrolled rounds Q P G H (a b : CScalar) :
  length G = (2 ^ length rounds)%nat → length H = (2 ^ length rounds)%nat →
  let s := s_vector (rounds.*1.*1) in
  textbook_accepts rounds Q P G H a b ↔
  lr_sum rounds ⊕ P
  = lincomb ((λ x, a * x) <$> s) G ⊕ lincomb ((λ x, b * x) <$> reverse s) H ⊕ Q ⊙ (a * b).
Proof.
  revert P G H. induction rounds as [|[[u L] R] rounds IH]; intros P G H HG HH s; unfold s.
  - cbn. unfold committed. rewrite inner_product_cons, inner_product_nil_l.
    replace (a * 1) with a by ring. replace (b * 1) with b by ring.
    rewrite sadd_0_r, cpoint_add_id_l. done.
  - cbn [textbook_accepts length] in *. rewrite Nat.pow_succ_r' in HG, HH.
    rewrite IH by (by apply length_fold_points). clear IH.
    rewrite !fmap_cons. set (us := rounds.*1.*1).
    assert (Hus : length us = length rounds) by (unfold us; lengths).
    pose proof (length_s_vector us) as Hs. rewrite Hus in Hs.
    rewrite !(lincomb_unfold_points _ _ _ _ (2 ^ length rounds)) by lengths.
    change (u, L, R).1.1 with u. rewrite reverse_s_vector. cbn [s_vector].
    rewrite !fmap_app, !fmap_mul_swap.
    change (lr_sum ((u, L, R) :: rounds)) with
      (L ⊙ (u * u) ⊕ R ⊙ (sinv u * sinv u) ⊕ lr_sum rounds).
    assert (E : lr_sum rounds ⊕ (L ⊙ (u * u) ⊕ P ⊕ R ⊙ (sinv u * sinv u))
      = L ⊙ (u * u) ⊕ R ⊙ (sinv u * sinv u) ⊕ lr_sum rounds ⊕ P) by point_ring.
    by rewrite E.
Qed.

(** ** The loop that computes the coefficients *)
Fixpoint bit_products (x : CScalar) (factors : list CScalar) : list CScalar :=
  match factors with
  | [] => [x]
  | f :: factors => bit_products x factors ++ ((λ y, y * f) <$> bit_products x factors)
  end.

Lemma length_bit_products x fs : length (bit_products x fs) = (2 ^ length fs)%nat.
Proof.
  induction fs as [|f fs IH]; [done|]. cbn [bit_products length]. rewrite Nat.pow_succ_r'. lengths.
Qed.

Lemma upper_half (t : list CScalar) f k m :
  length t = k → (m ≤ k)%nat →
  foldl (λ s i, s ++ [s !!! (i - k)%nat * f]) t (seq k m) = t ++ take m ((λ y, y * f) <$> t).
Proof.
  intros Ht. induction m as [|m IH]; intros Hm; [by rewrite app_nil_r|].
  rewrite seq_S, foldl_app, IH by lia. simpl. rewrite <-app_assoc. f_equal.
  replace (k + m - k)%nat with m by lia.
  destruct (lookup_lt_is_Some_2 t m) as [y Hy]; [lia|].
  rewrite lookup_total_app_l by lia. rewrite (list_lookup_total_correct _ _ _ Hy).
  symmetry. apply take_S_r. by rewrite list_lookup_fmap, Hy.
Qed.

Lemma subset_products_spec x fs :
  subset_products (length fs) (2 ^ length fs) x fs = bit_products x fs.
Proof.
  unfold subset_products. induction fs as [|f fs IH]; [done|].
  cbn [length bit_products]. set (l := length fs) in *.
  pose proof (Nat.pow_nonzero 2 l).
  replace (seq 1 (2 ^ S l - 1)) with (seq 1 (2 ^ l - 1) ++ seq (2 ^ l) (2 ^ l)).
  2: { rewrite Nat.pow_succ_r'. replace (2 * 2 ^ l - 1)%nat with ((2 ^ l - 1) + 2 ^ l)%nat by lia.
       rewrite seq_app. do 2 f_equal. lia. }
  rewrite foldl_app.
  erewrite (foldl_ext_in _ (λ s i, s ++ [s !!! (i - 2 ^ Nat.log2 i)%nat
    * fs !!! (l - 1 - Nat.log2 i)%nat]) (seq 1 _)).
  2: { intros t i [Hi1 Hi2]%elem_of_seq. do 3 f_equal.
       assert (Nat.log2 i < l)%nat by (apply Nat.log2_lt_pow2; lia).
       replace (S l - 1 - Nat.log2 i)%nat with (S (l - 1 - Nat.log2 i)) by lia. done. }
  rewrite IH. erewrite (foldl_ext_in _ (λ s i, s ++ [s !!! (i - 2 ^ l)%nat * f])).
  - rewrite upper_half by (rewrite ?length_bit_products; unfold l; lia).
    rewrite firstn_all2; [done|]. rewrite length_fmap, length_bit_products. done.
  - intros s i [Hi1 Hi2]%elem_of_seq.
    assert (Nat.log2 i = l) as ->.
    { apply Nat.log2_unique; [lia|]. rewrite Nat.pow_succ_r'. lia. }
    by replace (S l - 1 - l)%nat with O by lia.
Qed.

Lemma bit_products_scale x c fs :
  bit_products (x * c) fs = (λ y, y * c) <$> bit_products x fs.
Proof.
  induction fs as [|f fs IH]; [done|]. cbn [bit_products]. rewrite IH, fmap_app. f_equal.
  rewrite <-!list_fmap_compose. apply list_fmap_ext. intros. simpl. ring.
Qed.

Lemma product_from us x : foldl smul x us = x * foldl smul 1 us.
Proof.
  revert x. induction us as [|u us IH]; intros x; simpl; [ring|].
  rewrite (IH (x * u)), (IH (1 * u)). ring.
Qed.

Lemma challenge_product_nonzero us : Forall (λ u, u ≠ szero) us → foldl smul 1 us ≠ szero.
Proof.
  induction 1 as [|u us Hu _ IH]; [apply sone_neq_zero|]. simpl. rewrite product_from.
  apply smul_nonzero; [|done]. by rewrite smul_1_l.
Qed.

(** The squared challenges and the product of the inverses give the vector. *)
Lemma bit_products_s_vector us :
  Forall (λ u, u ≠ szero) us →
  bit_products (sinv (foldl smul 1 us)) ((λ u, u * u) <$> us) = s_vector us.
Proof.
  induction 1 as [|u us Hu Hus IH].
  - cbn. f_equal. rewrite <-(smul_1_l (sinv 1)). apply sinv_r, sone_neq_zero.
  - pose proof (challenge_product_nonzero us Hus).
    rewrite fmap_cons. cbn [bit_products s_vector foldl]. rewrite product_from.
    replace (sinv (1 * u * foldl smul 1 us)) with (sinv (foldl smul 1 us) * sinv u)
      by (field; done).
    rewrite bit_products_scale, IH. f_equal. rewrite <-list_fmap_compose.
    apply list_fmap_ext. intros i y _. simpl. field. done.
Qed.
End textbook.

(** ** The verifier is the textbook verifier *)
Section verifier.
Context {CY : Cycle} {CL : CycleLaws} {ME : Merlin}.
Add Field ipp_verifier_field : (scalar_field_theory (F:=CScalar)).
Add Ring ipp_verifier_ring : ideal_ring_theory.

(** The challenges that the transcript gives for the points of a proof. *)
Fixpoint ipp_challenges (LRs : list (Compressed * Compressed)) (t : Transcript)
    : list CScalar * Transcript :=
  match LRs with
  | [] => ([], t)
  | (L, R) :: LRs =>
      let t := append_point (bstr "R") R (append_point (bstr "L") L t) in
      let '(u, t) := challenge_scalar (bstr "u") t in
      let '(us, t) := ipp_challenges LRs t in
      (u :: us, t)
  end.

Definition nonidentity (c : Compressed) : Prop := compressed_is_identity c = false.
#[export] Instance nonidentity_dec c : Decision (nonidentity c).
Proof. unfold nonidentity. apply _. Defined.

Lemma length_ipp_challenges LRs t : length (ipp_challenges LRs t).1 = length LRs.
Proof.
  revert t. induction LRs as [|[L R] LRs IH]; intros t; [done|]. cbn [ipp_challenges].
  destruct (challenge_scalar _ _) as [u t1]. specialize (IH t1).
  destruct (ipp_challenges LRs t1) as [us t2]. simpl in *. lia.
Qed.

Lemma replay_challenges_Ok LRs t :
  Forall (λ LR, nonidentity LR.1 ∧ nonidentity LR.2) LRs →
  replay_challenges LRs t = (Ok (ipp_challenges LRs t).1, (ipp_challenges LRs t).2).
Proof.
  intros Hid. revert t. induction Hid as [|[L R] LRs [HL HR] _ IH]; intros t; [done|].
  cbn [replay_challenges ipp_challenges]. unfold mbind, stateful_bind, validate_and_append_point.
  unfold nonidentity in HL, HR. simpl in HL, HR. rewrite HL, HR. unfold draw.
  change (append_message (bstr "R") (compressed_as_bytes R)
    (append_message (bstr "L") (compressed_as_bytes L) t))
    with (append_point (bstr "R") R (append_point (bstr "L") L t)).
  destruct (challenge_scalar _ _) as [u t1]. rewrite IH.
  by destruct (ipp_challenges LRs t1).
Qed.

Lemma replay_challenges_inv LRs t us t' :
  replay_challenges LRs t = (Ok us, t') →
  Forall (λ LR, nonidentity LR.1 ∧ nonidentity LR.2) LRs.
Proof.
  revert t us t'. induction LRs as [|[L R] LRs IH]; intros t us t'; [constructor|].
  cbn [replay_challenges]. intros (? & t1 & HL & (? & t2 & HR & (u & t3 & Hu & H3)%stateful_bind_Ok)
    %stateful_bind_Ok)%stateful_bind_Ok.
  apply stateful_bind_Ok in H3 as (us' & t4 & Hus & _).
  constructor; [|by eapply IH]. unfold validate_and_append_point, nonidentity in *. simpl.
  destruct (compressed_is_identity L), (compressed_is_identity R); done.
Qed.

Lemma decompress_all_Ok cs Ps :
  decompress_all cs = Ok Ps ↔ Forall2 (λ c P, compressed_decompress c = Some P) cs Ps.
Proof.
  unfold decompress_all. rewrite traverse_Ok.
  split; intros Hf; (eapply Forall2_impl; [exact Hf|]); 
    cbn; intros ??; apply (ok_or_Ok ProofVerificationError).
Qed.

(** The sum over the rounds as two linear combinations. *)
Lemma lr_sum_lincomb us Ls Rs :
  length us = length Ls → length us = length Rs →
  lr_sum (zip (zip us Ls) Rs)
  = lincomb ((λ u, u * u) <$> us) Ls ⊕ lincomb ((λ u, sinv u * sinv u) <$> us) Rs.
Proof.
  revert Ls Rs. induction us as [|u us IH]; intros [|L Ls] [|R Rs] HL HR; try done; csimpl.
  { by rewrite lincomb_nil_l, cpoint_add_id_l. }
  rewrite !lincomb_cons. unfold lr_sum in *. simpl. rewrite IH by (simpl in *; lia). point_ring.
Qed.

Lemma lincomb_weights (a : CScalar) fs s Ps :
  lincomb (zip_with (λ f s_i, a * s_i * f) fs s) Ps
  = lincomb ((λ x, a * x) <$> s) (zip_with cpoint_mul Ps fs).
Proof.
  rewrite <-lincomb_mul. f_equal. rewrite zip_with_fmap_l. revert s.
  induction fs as [|f fs IH]; intros [|x s]; csimpl; try done. by rewrite IH.
Qed.

(** The check of [ipp_verify], once the challenges are known. *)
Lemma ipp_equation us Gf Hf P Q G H Ls Rs (a b : CScalar) :
  length G = (2 ^ length us)%nat → length H = (2 ^ length us)%nat →
  length Gf = (2 ^ length us)%nat → length Hf = (2 ^ length us)%nat →
  length us = length Ls → length us = length Rs →
  lincomb ([a * b] ++ zip_with (λ g s, a * s * g) Gf (s_vector us)
    ++ zip_with (λ h s, b * s * h) Hf (reverse (s_vector us))
    ++ (sneg <$> ((λ u, u * u) <$> us)) ++ (sneg <$> ((λ u, sinv u * sinv u) <$> us)))
    ([Q] ++ G ++ H ++ Ls ++ Rs) = P ↔
  textbook_accepts (zip (zip us Ls) Rs) Q P (zip_with cpoint_mul G Gf) (zip_with cpoint_mul H Hf)
    a b.
Proof.
  intros HG HH HGf HHf HL HR. pose proof (length_s_vector us) as Hs.
  assert (Hz : length (zip (zip us Ls) Rs) = length us) by lengths.
  rewrite textbook_accepts_unrolled by (rewrite Hz; lengths).
  assert ((zip (zip us Ls) Rs).*1.*1 = us) as ->.
  { rewrite fst_zip by lengths. apply fst_zip. lia. }
  rewrite lr_sum_lincomb, !lincomb_app, lincomb_single, !lincomb_weights, !lincomb_neg by lengths.
  set (X := lincomb _ (zip_with cpoint_mul G Gf)). set (Y := lincomb _ (zip_with cpoint_mul H Hf)).
  set (U := lincomb _ Ls). set (V := lincomb _ Rs).
  split; [intros <-; point_ring|]. intros E.
  apply (madd_cancel_r (SM:=cycle_module) _ _ (U ⊕ V)). cbn [madd cycle_module].
  rewrite (cpoint_add_comm P), E. point_ring.
Qed.

(** What [ipp_verify] accepts. *)
Definition ipp_accepts (self : InnerProductProof) (us : list CScalar) Gf Hf P Q G H : Prop :=
  ∃ Ls Rs, decompress_all (ipp_L_vec self) = Ok Ls ∧ decompress_all (ipp_R_vec self) = Ok Rs ∧
    textbook_accepts (zip (zip us Ls) Rs) Q P (zip_with cpoint_mul G Gf)
      (zip_with cpoint_mul H Hf) (ipp_a self) (ipp_b self).

(** The challenges of a proof, after the domain separator. *)
Definition proof_challenges (self : InnerProductProof) (n : nat) (t : Transcript)
    : list CScalar * Transcript :=
  ipp_challenges (zip (ipp_L_vec self) (ipp_R_vec self)) (innerproduct_domain_sep (Z.of_nat n) t).

(** A proof of [k < 32] rounds for vectors of length [2^k], without identity points. *)
Definition proof_shape (self : InnerProductProof) (n : nat) : Prop :=
  (length (ipp_L_vec self) < 32)%nat ∧ n = (2 ^ length (ipp_L_vec self))%nat ∧
  Forall (λ LR, nonidentity LR.1 ∧ nonidentity LR.2) (zip (ipp_L_vec self) (ipp_R_vec self)).

Lemma verification_scalars_spec self n t v t' :
  length (ipp_L_vec self) = length (ipp_R_vec self) →
  let us := (proof_challenges self n t).1 in
  Forall (λ u, u ≠ szero) us →
  verification_scalars self n t = (Ok v, t') ↔
  proof_shape self n ∧ t' = (proof_challenges self n t).2 ∧
  v = ((λ u, u * u) <$> us, (λ u, sinv u * sinv u) <$> us, s_vector us).
Proof.
  intros Hlr us Hus. unfold verification_scalars, proof_shape.
  destruct (Nat.leb_spec 32 (length (ipp_L_vec self))) as [Hk|Hk].
  { split; [done|]. intros [[? _] _]. lia. }
  destruct (Nat.eqb_spec n (2 ^ length (ipp_L_vec self))) as [Hn|Hn]; cbn [negb].
  2: { split; [done|]. intros [(_ & ? & _) _]. done. }
  assert (Hl : length us = length (ipp_L_vec self)).
  { unfold us, proof_challenges. rewrite length_ipp_challenges. lengths. }
  assert (Hval : subset_products (length (ipp_L_vec self)) n (sinv (foldl smul 1 us))
    ((λ u, u * u) <$> us) = s_vector us).
  { rewrite <-bit_products_s_vector, <-subset_products_spec by done.
    rewrite length_fmap, Hl, <-Hn. done. }
  rewrite stateful_bind_Ok. split.
  - intros ([] & t1 & [= <-] & (us' & t2 & Hr & Hv)%stateful_bind_Ok).
    pose proof (replay_challenges_inv _ _ _ _ Hr) as Hid.
    rewrite replay_challenges_Ok in Hr by done. injection Hr as <- <-.
    change (ipp_challenges _ _).1 with us in Hv.
    rewrite (scalar_batch_invert_spec us), Hval, <-list_fmap_compose in Hv by done.
    injection Hv as <- <-. done.
  - intros ((_ & _ & Hid) & -> & ->). eexists (), _. split; [done|].
    apply stateful_bind_Ok. eexists us, _. split; [by apply replay_challenges_Ok|].
    rewrite (scalar_batch_invert_spec us), Hval, <-list_fmap_compose by done. done.
Qed.

Lemma take_exact {A} (l : list A) n :
  (length (take (n + 1) l) =? n)%nat = (length l =? n)%nat ∧
  (length l = n → take (n + 1) l = l).
Proof.
  rewrite length_take. split; [|intros; apply firstn_all2; lia].
  destruct (Nat.eqb_spec (length l) n), (Nat.eqb_spec ((n + 1) `min` length l) n); lia || done.
Qed.

(** The decision of the verifier, when no challenge is zero. *)
Lemma ipp_verify_spec self n Gf Hf P Q G H t t' :
  length (ipp_L_vec self) = length (ipp_R_vec self) →
  let us := (proof_challenges self n t).1 in
  Forall (λ u, u ≠ szero) us →
  ipp_verify self n Gf Hf P Q G H t = (Ok (), t') ↔
  proof_shape self n ∧ length G = n ∧ length H = n ∧ length Gf = n ∧ length Hf = n ∧
  ipp_accepts self us Gf Hf P Q G H ∧ t' = (proof_challenges self n t).2.
Proof.
  intros Hlr us Hus. unfold ipp_verify, ipp_accepts.
  destruct (take_exact Gf n) as [-> HGf], (take_exact Hf n) as [-> HHf].
  destruct (Nat.eqb_spec (length G) n), (Nat.eqb_spec (length H) n); cbn [negb orb];
    [|split; [done|]; intros (_ & ? & ? & _); done..].
  destruct (Nat.eqb_spec (length Gf) n), (Nat.eqb_spec (length Hf) n); cbn [negb orb];
    [|split; [done|]; intros (_ & _ & _ & ? & ? & _); done..].
  rewrite HGf, HHf, stateful_bind_Ok by done.
  assert (Heq : ∀ Ls Rs, proof_shape self n →
    decompress_all (ipp_L_vec self) = Ok Ls → decompress_all (ipp_R_vec self) = Ok Rs →
    vartime_msm ([ipp_a self * ipp_b self]
      ++ take n (zip_with (λ g s, ipp_a self * s * g) Gf (s_vector us))
      ++ take n (zip_with (λ h s, ipp_b self * s * h) Hf (reverse (s_vector us)))
      ++ (sneg <$> ((λ u, u * u) <$> us)) ++ (sneg <$> ((λ u, sinv u * sinv u) <$> us)))
      ([Q] ++ G ++ H ++ Ls ++ Rs) = P ↔
    textbook_accepts (zip (zip us Ls) Rs) Q P (zip_with cpoint_mul G Gf)
      (zip_with cpoint_mul H Hf) (ipp_a self) (ipp_b self)).
  { intros Ls Rs (_ & Hn & _) HL%decompress_all_Ok%Forall2_length HR%decompress_all_Ok%Forall2_length.
    assert (Hl : length us = length (ipp_L_vec self)).
    { unfold us, proof_challenges. rewrite length_ipp_challenges. lengths. }
    pose proof (length_s_vector us) as Hs. rewrite Hl in Hs.
    rewrite !firstn_all2 by lengths. rewrite vartime_msm_spec by lengths.
    apply ipp_equation; rewrite ?Hl; lia. }
  split.
  - intros (v & t1 & Hv & Hres). apply verification_scalars_spec in Hv as (Hshape & -> & ->); [|done..].
    apply stateful_bind_Ok in Hres as (Ls & t2 & [= HL <-] & Hres).
    apply stateful_bind_Ok in Hres as (Rs & t3 & [= HR <-] & Hres).
    case_bool_decide as HP; [|done]. injection Hres as <-.
    repeat (split; [done|]). split; [|done]. exists Ls, Rs.
    split; [done|]. split; [done|]. by apply Heq.
  - intros (Hshape & _ & _ & _ & _ & (Ls & Rs & HL & HR & Hacc) & ->).
    eexists _, _. split; [by apply verification_scalars_spec|]. cbn beta iota.
    apply stateful_bind_Ok. eexists Ls, _. split; [unfold lift; by rewrite HL|].
    apply stateful_bind_Ok. eexists Rs, _. split; [unfold lift; by rewrite HR|].
    rewrite bool_decide_eq_true_2; [done|]. by apply Heq.
Qed.
End verifier.

(** ** The prover is the textbook prover *)
Section prover.
Context {CY : Cycle} {CL : CycleLaws} {ME : Merlin}.
Add Field ipp_prover_field : (scalar_field_theory (F:=CScalar)).
Add Ring ipp_prover_ring : ideal_ring_theory.

#[local] Instance cpoint_inhabited : Inhabited CPoint := populate cpoint_identity.

(** Send [L] and [R], fold by the challenge, and reveal the last pair. *)
Fixpoint textbook_prove (rounds : nat) (t : Transcript) Q G H (a b : list CScalar)
    (L_vec R_vec : list Compressed) : InnerProductProof * Transcript :=
  match rounds with
  | O => (MkInnerProductProof L_vec R_vec (first_scalar a) (first_scalar b), t)
  | S rounds =>
      let L := point_compress (cross_L Q G H a b) in
      let R := point_compress (cross_R Q G H a b) in
      let t := append_point (bstr "R") R (append_point (bstr "L") L t) in
      let '(u, t) := challenge_scalar (bstr "u") t in
      textbook_prove rounds t Q (fold_points (sinv u) u G) (fold_points u (sinv u) H)
        (fold_scalars u (sinv u) a) (fold_scalars (sinv u) u b) (L_vec ++ [L]) (R_vec ++ [R])
  end.

Abbreviation points := (fmap (M:=list) affine_to_point).

Lemma points_batch_normalize Ps : points (batch_normalize Ps) = Ps.
Proof.
  rewrite batch_normalize_spec, <-list_fmap_compose. rewrite <-(list_fmap_id Ps) at 2.
  apply list_fmap_ext. intros. apply affine_to_point_to_affine.
Qed.

(** Folding with a two-point multiplication for each index. *)
Lemma folded_points u v G m :
  length G = (2 * m)%nat →
  (λ i, vartime_msm_affine [u; v] [G !!! i; G !!! (m + i)%nat]) <$> seq 0 m
  = fold_points u v (points G).
Proof.
  intros HG. unfold fold_points. rewrite length_fmap, HG, Nat.mul_comm, Nat.div_mul by lia.
  apply list_eq. intros i. rewrite list_lookup_fmap, lookup_zip_with.
  destruct (decide (i < m)%nat) as [Hi|Hi].
  - rewrite lookup_seq_lt by done. simpl.
    rewrite lookup_take, decide_True, lookup_drop, !list_lookup_fmap by done.
    rewrite !list_lookup_lookup_total_lt by lia. simpl. f_equal.
    rewrite vartime_msm_affine_spec by done. csimpl.
    by rewrite !lincomb_cons, lincomb_nil_l, cpoint_add_id_r.
  - rewrite lookup_seq_ge by lia. rewrite lookup_take_ge by lia. done.
Qed.

Lemma create_folded_tail_spec k fuel t Q (a b : list CScalar) G H L_vec R_vec :
  (2 ^ k ≤ fuel)%nat → length a = (2 ^ k)%nat → length b = (2 ^ k)%nat →
  (0 < k → length G = 2 ^ k ∧ length H = 2 ^ k)%nat →
  create_folded_tail fuel t (point_to_affine Q) a b G H L_vec R_vec
  = textbook_prove k t Q (points G) (points H) a b L_vec R_vec.
Proof.
  revert fuel t a b G H L_vec R_vec.
  induction k as [|k IH]; intros fuel t a b G H L_vec R_vec Hf Ha Hb HGH.
  { destruct fuel; [simpl in Hf; lia|]. cbn [create_folded_tail textbook_prove]. by rewrite Ha. }
  pose proof (Nat.pow_nonzero 2 k). rewrite Nat.pow_succ_r' in *.
  destruct HGH as [HG HH]; [lia|].
  destruct fuel as [|fuel]; [lia|]. cbn [create_folded_tail textbook_prove].
  rewrite (proj2 (Nat.ltb_lt _ _)) by lia.
  assert (Hm : (length a / 2 = 2 ^ k)%nat) by (rewrite Ha, Nat.mul_comm, Nat.div_mul; lia).
  assert (HL : vartime_msm_affine
      (take (length a / 2) a ++ drop (length a / 2) b
         ++ [inner_product (take (length a / 2) a) (drop (length a / 2) b)])
      (drop (length a / 2) G ++ take (length a / 2) H ++ [point_to_affine Q])
    = cross_L Q (points G) (points H) a b).
  { rewrite Hm, vartime_msm_affine_spec by lengths. unfold cross_L. rewrite Hm.
    rewrite !fmap_app, fmap_take, fmap_drop, !lincomb_app, cpoint_add_assoc by lengths.
    csimpl. by rewrite lincomb_single, affine_to_point_to_affine. }
  assert (HR : vartime_msm_affine
      (drop (length a / 2) a ++ take (length a / 2) b
         ++ [inner_product (drop (length a / 2) a) (take (length a / 2) b)])
      (take (length a / 2) G ++ drop (length a / 2) H ++ [point_to_affine Q])
    = cross_R Q (points G) (points H) a b).
  { rewrite Hm, vartime_msm_affine_spec by lengths. unfold cross_R. rewrite Hm.
    rewrite !fmap_app, fmap_take, fmap_drop, !lincomb_app, cpoint_add_assoc by lengths.
    csimpl. by rewrite lincomb_single, affine_to_point_to_affine. }
  rewrite HL, HR.
  destruct (challenge_scalar _ _) as [u t1]. rewrite scalar_invert_spec.
  assert (Hfa : zip_with (λ l r, l * u + r * sinv u) (take (length a / 2) a) (drop (length a / 2) a)
    = fold_scalars u (sinv u) a) by done.
  assert (Hfb : zip_with (λ l r, l * sinv u + r * u) (take (length a / 2) b) (drop (length a / 2) b)
    = fold_scalars (sinv u) u b) by (unfold fold_scalars; by rewrite Hb, Ha).
  rewrite Hfa, Hfb, Hm.
  pose proof (length_fold_scalars u (sinv u) a _ Ha). pose proof (length_fold_scalars (sinv u) u b _ Hb).
  rewrite !folded_points by done. destruct (Nat.ltb_spec 1 (2 ^ k)) as [Hk|Hk].
  - rewrite IH by (rewrite ?batch_normalize_spec; rewrite ?length_fmap;
      rewrite ?(length_fold_points _ _ _ (2 ^ k)%nat) by (by rewrite length_fmap); lia).
    by rewrite !points_batch_normalize.
  - assert (k = O) as ->. { destruct k as [|k]; [done|]. pose proof (Nat.pow_nonzero 2 k). rewrite Nat.pow_succ_r' in Hk. lia. }
    rewrite IH by lia. done.
Qed.

(** ** Rounds on the original bases

    [m] bases are left; the [i]-th collects the original ones whose index is [i]
    modulo [m], each with its accumulated coefficient. *)
Abbreviation psum := (msum (SM:=cycle_module)).

Definition only (b : bool) (P : CPoint) : CPoint := if b then P else cpoint_identity.

Definition class_sum (m i : nat) (cs : list CScalar) (Ps : list CPoint) : CPoint :=
  psum (λ j, only (bool_decide (j mod m = i)) (Ps !!! j ⊙ cs !!! j)) (seq 0 (length Ps)).
Definition folded (m : nat) (cs : list CScalar) (Ps : list CPoint) : list CPoint :=
  (λ i, class_sum m i cs Ps) <$> seq 0 m.

Lemma length_folded m cs Ps : length (folded m cs Ps) = m.
Proof. unfold folded. lengths. Qed.

Lemma only_add b P R : only b P ⊕ only b R = only b (P ⊕ R).
Proof. destruct b; [done|apply cpoint_add_id_l]. Qed.
Lemma only_mul b P (x : CScalar) : only b P ⊙ x = only b (P ⊙ x).
Proof. destruct b; [done|]. apply cpoint_identity_mul. Qed.

Lemma psum_mul {A} (f : A → CPoint) l (x : CScalar) : psum f l ⊙ x = psum (λ i, f i ⊙ x) l.
Proof. symmetry. exact (msum_scale (SM:=cycle_module) f l x). Qed.

Lemma psum_add {A} (f g : A → CPoint) l : psum (λ i, f i ⊕ g i) l = psum f l ⊕ psum g l.
Proof. exact (msum_add (SM:=cycle_module) f g l). Qed.

Lemma lincomb_fmap {A} (f : A → CScalar) (g : A → CPoint) l :
  lincomb (f <$> l) (g <$> l) = psum (λ j, g j ⊙ f j) l.
Proof. induction l as [|j l IH]; [done|]. csimpl. by rewrite lincomb_cons, IH. Qed.

Lemma scalars_as_fmap (x : list CScalar) m : length x = m → x = (λ i, x !!! i) <$> seq 0 m.
Proof.
  intros <-. apply list_eq. intros i. rewrite list_lookup_fmap.
  destruct (decide (i < length x)%nat) as [Hi|Hi].
  - rewrite lookup_seq_lt by done. simpl. by rewrite list_lookup_lookup_total_lt.
  - rewrite lookup_seq_ge, lookup_ge_None_2 by lia. done.
Qed.

(** At most one term of the sum is selected. *)
Lemma psum_select (f : nat → CPoint) o r m :
  psum (λ i, only (bool_decide (r = o + i)%nat) (f i)) (seq 0 m)
  = only (bool_decide (o ≤ r < o + m)%nat) (f (r - o)%nat).
Proof.
  case_bool_decide as Hr.
  - rewrite (msum_single (SM:=cycle_module) _ _ (r - o)%nat).
    + rewrite bool_decide_eq_true_2 by lia. done.
    + apply NoDup_seq.
    + apply elem_of_seq. lia.
    + intros i Hi Hne. by rewrite bool_decide_eq_false_2 by lia.
  - apply (msum_zero (SM:=cycle_module)). intros i [_ Hi]%elem_of_seq.
    by rewrite bool_decide_eq_false_2 by lia.
Qed.

(** A vector against half of the bases, in terms of the original ones. *)
Lemma lincomb_classes (x cs : list CScalar) Ps o m k :
  length x = m →
  lincomb x ((λ i, class_sum k (o + i) cs Ps) <$> seq 0 m)
  = psum (λ j, only (bool_decide (o ≤ j mod k < o + m)%nat)
                 (Ps !!! j ⊙ (x !!! (j mod k - o)%nat * cs !!! j))) (seq 0 (length Ps)).
Proof.
  intros Hx. rewrite (scalars_as_fmap x m Hx) at 1. rewrite lincomb_fmap. unfold class_sum.
  rewrite (msum_ext (SM:=cycle_module) _ (λ i, psum (λ j, only (bool_decide (j mod k = o + i)%nat)
    (Ps !!! j ⊙ (x !!! i * cs !!! j))) (seq 0 (length Ps)))).
  - rewrite (msum_swap (SM:=cycle_module)). apply (msum_ext (SM:=cycle_module)). intros j _.
    apply (psum_select (λ i, Ps !!! j ⊙ (x !!! i * cs !!! j))).
  - intros i _. rewrite psum_mul. apply (msum_ext (SM:=cycle_module)). intros j _.
    rewrite only_mul, cpoint_mul_mul. by rewrite (smul_comm (cs !!! j)).
Qed.

Lemma lincomb_take_folded (x cs : list CScalar) Ps m :
  length x = m →
  lincomb x (take m (folded (2 * m) cs Ps))
  = psum (λ j, only (bool_decide (j mod (2 * m) < m)%nat)
                 (Ps !!! j ⊙ (x !!! (j mod (2 * m)) * cs !!! j))) (seq 0 (length Ps)).
Proof.
  intros Hx. unfold folded. rewrite <-fmap_take, take_seq, Nat.min_l by lia.
  etrans; [exact (lincomb_classes x cs Ps 0 m (2 * m) Hx)|]. apply (msum_ext (SM:=cycle_module)).
  intros j _. rewrite Nat.sub_0_r. f_equal. apply bool_decide_ext. lia.
Qed.

Lemma lincomb_drop_folded (x cs : list CScalar) Ps m :
  length x = m →
  lincomb x (drop m (folded (2 * m) cs Ps))
  = psum (λ j, only (bool_decide (m ≤ j mod (2 * m) < 2 * m)%nat)
                 (Ps !!! j ⊙ (x !!! (j mod (2 * m) - m)%nat * cs !!! j))) (seq 0 (length Ps)).
Proof.
  intros Hx. unfold folded. rewrite <-fmap_drop, drop_seq. replace (0 + m)%nat with (m + 0)%nat by lia.
  replace (2 * m - m)%nat with m by lia. rewrite <-fmap_add_seq, <-list_fmap_compose.
  etrans; [exact (lincomb_classes x cs Ps m m (2 * m) Hx)|]. apply (msum_ext (SM:=cycle_module)).
  intros j _. f_equal. apply bool_decide_ext. lia.
Qed.

(** Bits and masks as residues. *)
Lemma bit_residue j s :
  Nat.eqb (Nat.land (Nat.shiftr j s) 1) 1 = bool_decide (2 ^ s ≤ j mod (2 * 2 ^ s))%nat.
Proof.
  change 1%nat with (Nat.ones 1) at 1. rewrite Nat.land_ones, Nat.shiftr_div_pow2.
  rewrite (Nat.mul_comm 2), Nat.Div0.mod_mul_r. pose proof (Nat.pow_nonzero 2 s).
  pose proof (Nat.mod_upper_bound j (2 ^ s)). pose proof (Nat.mod_upper_bound (j / 2 ^ s) 2).
  change (2 ^ 1)%nat with 2%nat. destruct ((j / 2 ^ s) mod 2)%nat as [|[|]] eqn:E; [| |lia].
  - rewrite bool_decide_eq_false_2 by lia. done.
  - rewrite bool_decide_eq_true_2 by lia. done.
Qed.

Lemma mask_residue j s : Nat.land j (2 ^ s - 1) = (j mod 2 ^ s)%nat.
Proof. rewrite <-Nat.land_ones. f_equal. rewrite Nat.ones_equiv. lia. Qed.

Lemma residue_low j m : (0 < m)%nat → (j mod (2 * m) < m → j mod m = j mod (2 * m))%nat.
Proof.
  intros Hm Hj. rewrite (Nat.mul_comm 2), Nat.Div0.mod_mul_r in *.
  pose proof (Nat.mod_upper_bound (j / m) 2). destruct ((j / m) mod 2)%nat as [|[|]]; lia.
Qed.
Lemma residue_high j m : (0 < m)%nat → (m ≤ j mod (2 * m) → j mod m = j mod (2 * m) - m)%nat.
Proof.
  intros Hm Hj. rewrite (Nat.mul_comm 2), Nat.Div0.mod_mul_r in *.
  pose proof (Nat.mod_upper_bound (j / m) 2). pose proof (Nat.mod_upper_bound j m).
  destruct ((j / m) mod 2)%nat as [|[|]]; lia.
Qed.

(** What the pushes of one round collect. *)
Lemma push_terms_spec shift mask a_L a_R b_L b_R gc hc G H ts l :
  let bit j := Nat.eqb (Nat.land (Nat.shiftr j shift) 1) 1 in
  let idx j := Nat.land j mask in
  foldl (push_terms shift mask a_L a_R b_L b_R gc hc G H) ts l
  = MkTerms
      (scalars_l ts ++ ((λ j, if bit j then a_L !!! idx j * gc !!! j
                              else b_R !!! idx j * hc !!! j) <$> l))
      (points_l ts ++ ((λ j, if bit j then G !!! j else H !!! j) <$> l))
      (scalars_r ts ++ ((λ j, if bit j then b_L !!! idx j * hc !!! j
                              else a_R !!! idx j * gc !!! j) <$> l))
      (points_r ts ++ ((λ j, if bit j then H !!! j else G !!! j) <$> l)).
Proof.
  intros bit idx. revert ts. induction l as [|j l IH]; intros ts.
  { destruct ts. simpl. by rewrite !app_nil_r. }
  cbn [foldl]. rewrite IH. unfold push_terms. fold (bit j) (idx j). rewrite !fmap_cons.
  destruct (bit j); cbn [scalars_l points_l scalars_r points_r]; by rewrite <-!app_assoc.
Qed.

(** One of the two multiplications: [x] against the upper half of the folded [G],
    [y] against the lower half of the folded [H]. *)
Lemma round_msm s (x y gc hc : list CScalar) G H c Q n :
  let m := (2 ^ s)%nat in
  let bit j := Nat.eqb (Nat.land (Nat.shiftr j s) 1) 1 in
  length x = m → length y = m → length G = n → length H = n →
  vartime_msm_affine
    (((λ j, if bit j then x !!! Nat.land j (m - 1) * gc !!! j
            else y !!! Nat.land j (m - 1) * hc !!! j) <$> seq 0 n) ++ [c])
    (((λ j, if bit j then G !!! j else H !!! j) <$> seq 0 n) ++ [point_to_affine Q])
  = lincomb x (drop m (folded (2 * m) gc (points G)))
    ⊕ lincomb y (take m (folded (2 * m) hc (points H))) ⊕ Q ⊙ c.
Proof.
  intros m bit Hx Hy HG HH. pose proof (Nat.pow_nonzero 2 s).
  rewrite vartime_msm_affine_spec by lengths.
  rewrite fmap_app, lincomb_app by lengths. csimpl.
  rewrite lincomb_single, affine_to_point_to_affine. f_equal.
  rewrite lincomb_drop_folded, lincomb_take_folded by done.
  rewrite !length_fmap, HG, HH, <-psum_add.
  rewrite <-list_fmap_compose, lincomb_fmap. apply (msum_ext (SM:=cycle_module)).
  intros j [_ Hj]%elem_of_seq. unfold bit, m. cbn [compose].
  rewrite bit_residue, mask_residue.
  rewrite !(list_lookup_total_fmap affine_to_point) by lia.
  pose proof (Nat.mod_upper_bound j (2 * 2 ^ s)).
  case_bool_decide as Hb.
  - rewrite bool_decide_eq_true_2, bool_decide_eq_false_2, (residue_high j (2 ^ s)) by lia.
    symmetry. apply cpoint_add_id_r.
  - rewrite bool_decide_eq_false_2, bool_decide_eq_true_2, (residue_low j (2 ^ s)) by lia.
    symmetry. apply cpoint_add_id_l.
Qed.

Lemma class_sum_update s (u v : CScalar) gc Ps i :
  length gc = length Ps → (i < 2 ^ s)%nat →
  class_sum (2 ^ s) i (imap (λ j g, g * by_bit s j u v) gc) Ps
  = class_sum (2 * 2 ^ s) i gc Ps ⊙ v ⊕ class_sum (2 * 2 ^ s) (2 ^ s + i) gc Ps ⊙ u.
Proof.
  intros Hl Hi. unfold class_sum. rewrite !psum_mul, <-psum_add.
  apply (msum_ext (SM:=cycle_module)). intros j [_ Hj]%elem_of_seq.
  assert (imap (λ j g, g * by_bit s j u v) gc !!! j = gc !!! j * by_bit s j u v) as ->.
  { apply list_lookup_total_correct. rewrite list_lookup_imap.
    rewrite list_lookup_lookup_total_lt by lia. done. }
  rewrite !only_mul, !cpoint_mul_mul. unfold by_bit. rewrite bit_residue.
  pose proof (Nat.pow_nonzero 2 s). destruct (decide (2 ^ s ≤ j mod (2 * 2 ^ s))%nat) as [Hb|Hb].
  - rewrite (bool_decide_eq_true_2 (2 ^ s ≤ _)%nat), (residue_high j (2 ^ s)) by lia.
    rewrite (bool_decide_eq_false_2 (j mod (2 * 2 ^ s) = i)%nat) by lia.
    cbn [only]. rewrite cpoint_add_id_l. f_equal. apply bool_decide_ext. lia.
  - rewrite (bool_decide_eq_false_2 (2 ^ s ≤ _)%nat), (residue_low j (2 ^ s)) by lia.
    rewrite (bool_decide_eq_false_2 (j mod (2 * 2 ^ s) = 2 ^ s + i)%nat) by lia.
    cbn [only]. by rewrite cpoint_add_id_r.
Qed.

Lemma folded_update s (u v : CScalar) gc Ps :
  length gc = length Ps →
  folded (2 ^ s) (imap (λ j g, g * by_bit s j u v) gc) Ps
  = fold_points v u (folded (2 * 2 ^ s) gc Ps).
Proof.
  intros Hl. unfold fold_points. rewrite length_folded, Nat.mul_comm, Nat.div_mul by lia.
  rewrite (Nat.mul_comm (2 ^ s)). unfold folded.
  rewrite <-fmap_take, <-fmap_drop, take_seq, drop_seq, Nat.min_l by lia.
  replace (0 + 2 ^ s)%nat with (2 ^ s + 0)%nat by lia.
  replace (2 * 2 ^ s - 2 ^ s)%nat with (2 ^ s)%nat by lia.
  rewrite <-fmap_add_seq, <-list_fmap_compose, zip_with_fmap_l, zip_with_fmap_r, zip_with_diag.
  apply list_fmap_ext. intros i j [-> Hj]%lookup_seq. by apply class_sum_update.
Qed.

(** The prover after some original rounds, [s] rounds before the end. *)
Definition state_ok (s : nat) (G H : list CAffine) (st : CreateState) : Prop :=
  length (cs_a st) = (2 ^ s)%nat ∧ length (cs_b st) = (2 ^ s)%nat ∧
  length (cs_g_coef st) = length G ∧ length (cs_h_coef st) = length G.
Definition rest_of_proof (s : nat) Q (G H : list CAffine) (st : CreateState)
    : InnerProductProof * Transcript :=
  textbook_prove s (cs_transcript st) Q (folded (2 ^ s) (cs_g_coef st) (points G))
    (folded (2 ^ s) (cs_h_coef st) (points H)) (cs_a st) (cs_b st) (cs_L_vec st) (cs_R_vec st).

Lemma original_round_spec s r k Q G H st :
  (r + S s = k)%nat → length G = (2 ^ k)%nat → length H = length G → state_ok (S s) G H st →
  let st' := original_round (length G) k (point_to_affine Q) G H st r in
  state_ok s G H st' ∧ rest_of_proof (S s) Q G H st = rest_of_proof s Q G H st'.
Proof.
  intros Hr HG HH (Ha & Hb & Hgc & Hhc). unfold original_round, rest_of_proof, state_ok.
  assert (Hm : Nat.shiftr (length G) (r + 1) = (2 ^ s)%nat).
  { rewrite HG, Nat.shiftr_div_pow2, <-Hr. replace (r + S s)%nat with (s + (r + 1))%nat by lia.
    rewrite Nat.pow_add_r. apply Nat.div_mul, Nat.pow_nonzero. lia. }
  replace (k - r - 1)%nat with s by lia. rewrite Hm, push_terms_spec.
  cbn [scalars_l points_l scalars_r points_r app]. rewrite Nat.pow_succ_r' in *.
  rewrite !round_msm by lengths. cbn [textbook_prove].
  assert (HL : lincomb (take (2 ^ s) (cs_a st))
        (drop (2 ^ s) (folded (2 * 2 ^ s) (cs_g_coef st) (points G)))
      ⊕ lincomb (drop (2 ^ s) (cs_b st)) (take (2 ^ s) (folded (2 * 2 ^ s) (cs_h_coef st) (points H)))
      ⊕ Q ⊙ inner_product (take (2 ^ s) (cs_a st)) (drop (2 ^ s) (cs_b st))
    = cross_L Q (folded (2 * 2 ^ s) (cs_g_coef st) (points G))
        (folded (2 * 2 ^ s) (cs_h_coef st) (points H)) (cs_a st) (cs_b st)).
  { unfold cross_L. by rewrite Ha, Nat.mul_comm, Nat.div_mul by lia. }
  assert (HR : lincomb (take (2 ^ s) (cs_b st))
        (drop (2 ^ s) (folded (2 * 2 ^ s) (cs_h_coef st) (points H)))
      ⊕ lincomb (drop (2 ^ s) (cs_a st)) (take (2 ^ s) (folded (2 * 2 ^ s) (cs_g_coef st) (points G)))
      ⊕ Q ⊙ inner_product (drop (2 ^ s) (cs_a st)) (take (2 ^ s) (cs_b st))
    = cross_R Q (folded (2 * 2 ^ s) (cs_g_coef st) (points G))
        (folded (2 * 2 ^ s) (cs_h_coef st) (points H)) (cs_a st) (cs_b st)).
  { unfold cross_R. rewrite Ha, Nat.mul_comm, Nat.div_mul by lia.
    rewrite Nat.mul_comm. f_equal. apply cpoint_add_comm. }
  rewrite HL, HR. destruct (challenge_scalar _ _) as [u t1].
  cbn [cs_transcript cs_a cs_b cs_g_coef cs_h_coef cs_L_vec cs_R_vec].
  rewrite scalar_invert_spec, !folded_update by lengths. split; [lengths; done|].
  f_equal; unfold fold_scalars; rewrite ?Ha, ?Hb, Nat.mul_comm, Nat.div_mul by lia.
  - apply zip_with_ext; [|done..]. intros. f_equal. apply smul_comm.
  - apply zip_with_ext; [|done..]. intros. f_equal. apply smul_comm.
Qed.

(** ** Collapsing the bases *)
Lemma mod_succ j k s :
  (S s < k)%nat → (S j mod k = S s ↔ j mod k = s)%nat.
Proof.
  intros Hk. pose proof (Nat.mod_upper_bound j k). rewrite <-Nat.add_1_r, Nat.Div0.add_mod.
  rewrite (Nat.mod_small 1) by lia. destruct (decide (j mod k + 1 < k)%nat).
  - rewrite Nat.mod_small by done. lia.
  - assert ((j mod k + 1) = k)%nat as -> by lia. rewrite Nat.Div0.mod_same. lia.
Qed.

Lemma mod_wrap j k : (0 < k)%nat → (S j mod k = 0 ↔ j mod k = k - 1)%nat.
Proof.
  intros Hk. destruct (decide (k = 1)%nat) as [->|Hk1]; [by rewrite !Nat.mod_1_r|].
  pose proof (Nat.mod_upper_bound j k). rewrite <-Nat.add_1_r, Nat.Div0.add_mod.
  rewrite (Nat.mod_small 1) by lia. destruct (decide (j mod k + 1 < k)%nat).
  - rewrite Nat.mod_small by done. lia.
  - assert ((j mod k + 1) = k)%nat as -> by lia. rewrite Nat.Div0.mod_same. lia.
Qed.

Lemma step_by_zip {A B} k s (l : list A) (l' : list B) :
  length l = length l' → zip (step_by k s l) (step_by k s l') = step_by k s (zip l l').
Proof.
  revert s l'. induction l as [|x l IH]; intros s [|y l'] Hl; try done.
  simpl in Hl. destruct s as [|s]; cbn [step_by zip_with]; rewrite IH by lia; done.
Qed.

Lemma step_by_fmap {A B} (f : A → B) k s l : f <$> step_by k s l = step_by k s (f <$> l).
Proof.
  revert s. induction l as [|x l IH]; intros s; [done|].
  destruct s as [|s]; cbn [step_by fmap list_fmap]; by rewrite <-IH.
Qed.

Lemma length_step_by {A B} k s (l : list A) (l' : list B) :
  length l = length l' → length (step_by k s l) = length (step_by k s l').
Proof.
  revert s l'. induction l as [|x l IH]; intros s [|y l'] Hl; try done.
  simpl in Hl. destruct s as [|s]; cbn [step_by length]; rewrite (IH _ l') by lia; done.
Qed.

Lemma psum_seq_shift (f : nat → CPoint) i n :
  psum f (seq i n) = psum (λ j, f (i + j)%nat) (seq 0 n).
Proof.
  replace (seq i n) with (Nat.add i <$> seq 0 n) by (rewrite fmap_add_seq; f_equal; lia).
  exact (msum_fmap (SM:=cycle_module) f (Nat.add i) (seq 0 n)).
Qed.

Lemma psum_step_by {A} `{Inhabited A} (g : A → CPoint) k s l :
  (s < k)%nat →
  psum g (step_by k s l)
  = psum (λ j, only (bool_decide (j mod k = s)%nat) (g (l !!! j))) (seq 0 (length l)).
Proof.
  revert s. induction l as [|x l IH]; intros s Hs; [done|].
  cbn [length seq]. change (psum ?f (?i :: ?l)) with (f i ⊕ psum f l).
  rewrite (psum_seq_shift _ 1), Nat.mod_small by lia. change ((x :: l) !!! O) with x.
  destruct s as [|s]; cbn [step_by].
  - change (psum g (x :: ?r)) with (g x ⊕ psum g r). rewrite IH by lia. f_equal.
    apply (msum_ext (SM:=cycle_module)). intros j _. change ((x :: l) !!! (1 + j)%nat) with (l !!! j).
    f_equal. apply bool_decide_ext. symmetry. apply mod_wrap. lia.
  - rewrite IH by lia. change (only (bool_decide (0%nat = S s)) (g x)) with cpoint_identity.
    rewrite cpoint_add_id_l.
    apply (msum_ext (SM:=cycle_module)). intros j _. change ((x :: l) !!! (1 + j)%nat) with (l !!! j).
    f_equal. apply bool_decide_ext. symmetry. apply mod_succ. lia.
Qed.

Lemma lincomb_step_by k i (cs : list CScalar) (Ps : list CPoint) :
  (i < k)%nat → length cs = length Ps → (i ≤ length Ps)%nat →
  lincomb (step_by k 0 (drop i cs)) (step_by k 0 (drop i Ps)) = class_sum k i cs Ps.
Proof.
  intros Hi Hl Hn. unfold lincomb. rewrite step_by_zip by lengths.
  rewrite <-zip_with_drop.
  rewrite (psum_step_by _ k 0) by lia. unfold class_sum.
  assert (seq 0 (length Ps) = seq 0 i ++ seq i (length Ps - i)) as ->.
  { rewrite <-(seq_app i _ 0). f_equal. lia. }
  etrans; [|symmetry; exact (msum_app (SM:=cycle_module) _ (seq 0 i) (seq i (length Ps - i)))].
  rewrite (msum_zero (SM:=cycle_module) _ (seq 0 i)).
  2: { intros j [_ Hj]%elem_of_seq. rewrite Nat.mod_small by lia.
       by rewrite bool_decide_eq_false_2 by lia. }
  cbn [madd cycle_module mzero]. rewrite cpoint_add_id_l, (psum_seq_shift _ i).
  replace (length (drop i (zip cs Ps))) with (length Ps - i)%nat by lengths.
  apply (msum_ext (SM:=cycle_module)). intros j [_ Hj]%elem_of_seq.
  rewrite lookup_total_drop. 
  assert (zip cs Ps !!! (i + j)%nat = (cs !!! (i + j)%nat, Ps !!! (i + j)%nat)) as ->.
  { apply list_lookup_total_correct. rewrite lookup_zip_with.
    rewrite !list_lookup_lookup_total_lt by lia. done. }
  f_equal. apply bool_decide_ext.
  pose proof (Nat.mod_upper_bound j k). pose proof (Nat.Div0.add_mod i j k) as E.
  rewrite (Nat.mod_small i k) in E by lia. rewrite E. split.
  - intros ->. rewrite Nat.add_0_r. apply Nat.mod_small. lia.
  - intros Hr. destruct (decide (i + j mod k < k)%nat) as [Hlt|Hge].
    + rewrite Nat.mod_small in Hr; lia.
    + assert (i + j mod k = (i + j mod k - k) + 1 * k)%nat as Hw by lia.
      rewrite Hw, Nat.Div0.mod_add, Nat.mod_small in Hr; lia.
Qed.

Lemma fold_bases_spec m (cs : list CScalar) G :
  length cs = length G → (m ≤ length G)%nat → points (fold_bases m cs G) = folded m cs (points G).
Proof.
  intros Hl Hm. unfold fold_bases, folded. rewrite points_batch_normalize.
  apply list_fmap_ext. intros i j [-> Hj]%lookup_seq. cbn [Nat.add].
  rewrite vartime_msm_affine_spec by (apply length_step_by; lengths).
  rewrite step_by_fmap, fmap_drop. apply lincomb_step_by; lengths.
Qed.

Lemma folded_all (cs : list CScalar) Ps :
  length cs = length Ps → folded (length Ps) cs Ps = zip_with cpoint_mul Ps cs.
Proof.
  intros Hl. unfold folded. apply list_eq. intros i. rewrite list_lookup_fmap, lookup_zip_with.
  destruct (decide (i < length Ps)%nat) as [Hi|Hi].
  - rewrite lookup_seq_lt by done. rewrite !list_lookup_lookup_total_lt by lia. simpl. f_equal.
    unfold class_sum. rewrite (msum_single (SM:=cycle_module) _ _ i).
    + rewrite Nat.mod_small by lia. by rewrite bool_decide_eq_true_2.
    + apply NoDup_seq.
    + apply elem_of_seq. lia.
    + intros j [_ Hj]%elem_of_seq Hne. rewrite Nat.mod_small by lia.
      by rewrite bool_decide_eq_false_2.
  - rewrite lookup_seq_ge by lia. rewrite (lookup_ge_None_2 Ps) by lia. done.
Qed.

(** ** The whole prover *)
Lemma original_rounds_spec k Q G H st r :
  length G = (2 ^ k)%nat → length H = length G → (r ≤ k)%nat → state_ok k G H st →
  let st' := foldl (original_round (length G) k (point_to_affine Q) G H) st (seq 0 r) in
  state_ok (k - r) G H st' ∧ rest_of_proof k Q G H st = rest_of_proof (k - r) Q G H st'.
Proof.
  intros HG HH Hr Hok. induction r as [|r IH].
  { rewrite Nat.sub_0_r. done. }
  destruct IH as [IHok IHp]; [lia|]. rewrite seq_S, foldl_app. cbn [foldl Nat.add].
  set (st1 := foldl _ _ _) in *. replace (k - r)%nat with (S (k - S r)) in * by lia.
  rewrite IHp. apply original_round_spec; (done || lia).
Qed.

Lemma create_spec k t Q Gf Hf G H (a b : list CScalar) :
  length G = (2 ^ k)%nat → length H = (2 ^ k)%nat → length Gf = (2 ^ k)%nat →
  length Hf = (2 ^ k)%nat → length a = (2 ^ k)%nat → length b = (2 ^ k)%nat →
  create t Q Gf Hf G H a b
  = textbook_prove k (innerproduct_domain_sep (Z.of_nat (2 ^ k)) t) Q
      (zip_with cpoint_mul (points G) Gf) (zip_with cpoint_mul (points H) Hf) a b [] [].
Proof.
  intros HG HH HGf HHf Ha Hb. unfold create.
  assert (Hlg : lg (length G) = k) by (rewrite HG; apply Nat.log2_up_pow2; lia).
  set (r := original_rounds (length G)).
  assert (Hr : (r ≤ k)%nat).
  { unfold r, original_rounds. rewrite Hlg. case_match eqn:Hn; [done|]. apply Z.ltb_ge in Hn.
    unfold ORIGINAL_BASE_ROUNDS. rewrite HG in Hn. destruct (decide (k < 8)%nat) as [Hk|]; [|lia].
    assert (2 ^ k ≤ 2 ^ 8)%nat as Hp by (apply Nat.pow_le_mono_r; lia). change (2 ^ 8)%nat with 256%nat in Hp.
    lia. }
  set (st0 := MkCreateState _ a b Gf Hf [] []).
  destruct (original_rounds_spec k Q G H st0 r) as [(Hsa & Hsb & Hsg & Hsh) Hp];
    [done|lia|done|by repeat split; simpl; lia|].
  rewrite Hlg. set (st := foldl _ _ _) in *.
  assert (H0 : rest_of_proof k Q G H st0 = textbook_prove k (cs_transcript st0) Q
      (zip_with cpoint_mul (points G) Gf) (zip_with cpoint_mul (points H) Hf) a b [] []).
  { unfold rest_of_proof. simpl. f_equal.
    - rewrite <-folded_all by lengths. f_equal. lengths.
    - rewrite <-folded_all by lengths. f_equal. lengths. }
  unfold st0 in H0 at 2. cbn [cs_transcript] in H0. rewrite <-HG, <-H0, Hp. clear H0 Hp.
  destruct (Nat.ltb_spec 1 (length (cs_a st))) as [Hlt|Hge].
  - rewrite Hsa in *. pose proof (Nat.pow_le_mono_r 2 (k - r) k).
    rewrite (create_folded_tail_spec (k - r)); try done.
    + by rewrite !fold_bases_spec by lia.
    + intros _. unfold fold_bases. rewrite !batch_normalize_spec. lengths.
  - rewrite Hsa in Hge. destruct (k - r)%nat as [|s]; [done|].
    pose proof (Nat.pow_nonzero 2 s). rewrite Nat.pow_succ_r' in Hge. lia.
Qed.

(** ** Completeness *)
Lemma textbook_complete k t Q G H (a b : list CScalar) L_vec R_vec proof t' :
  length G = (2 ^ k)%nat → length H = (2 ^ k)%nat → length a = (2 ^ k)%nat →
  length b = (2 ^ k)%nat →
  textbook_prove k t Q G H a b L_vec R_vec = (proof, t') →
  ∃ Ls Rs, length Ls = k ∧ length Rs = k ∧
    ipp_L_vec proof = L_vec ++ (point_compress <$> Ls) ∧
    ipp_R_vec proof = R_vec ++ (point_compress <$> Rs) ∧
    let '(us, t1) := ipp_challenges (zip (point_compress <$> Ls) (point_compress <$> Rs)) t in
    t' = t1 ∧
    (Forall (λ u, u ≠ szero) us → ∀ P, committed P Q G H a b →
       textbook_accepts (zip (zip us Ls) Rs) Q P G H (ipp_a proof) (ipp_b proof)).
Proof.
  revert t G H a b L_vec R_vec. induction k as [|k IH]; intros t G H a b L_vec R_vec HG HH Ha Hb.
  { intros [= <- <-]. exists [], []. cbn [fmap list_fmap ipp_L_vec ipp_R_vec]. rewrite !app_nil_r.
    do 4 (split; [done|]). cbn [zip_with ipp_challenges]. split; [done|]. intros _ P HP.
    destruct a as [|x [|]], b as [|y [|]]; done. }
  cbn [textbook_prove]. rewrite Nat.pow_succ_r' in *.
  destruct (challenge_scalar _ _) as [u t1] eqn:Hu. intros Hrun.
  apply IH in Hrun as (Ls & Rs & HLs & HRs & HL & HR & Hrest);
    try by (apply length_fold_points || apply length_fold_scalars).
  exists (cross_L Q G H a b :: Ls), (cross_R Q G H a b :: Rs). rewrite !fmap_cons.
  split; [simpl; lia|]. split; [simpl; lia|]. rewrite HL, HR, <-!app_assoc.
  split; [done|]. split; [done|]. cbn [zip_with ipp_challenges]. rewrite Hu.
  destruct (ipp_challenges (zip (point_compress <$> Ls) (point_compress <$> Rs)) t1) as [us t2].
  destruct Hrest as [-> Hacc]. split; [done|]. intros [Hnz Hus]%Forall_cons P HP.
  cbn [zip_with textbook_accepts]. apply Hacc; [done|]. by apply (committed_fold _ _ _ _ _ _ _ (2 ^ k)).
Qed.

Lemma decompress_all_compress Ps : decompress_all (point_compress <$> Ps) = Ok Ps.
Proof.
  apply decompress_all_Ok, Forall2_fmap_l, Forall_Forall2_diag, Forall_forall.
  intros P _. apply decompress_compress.
Qed.

(** A proof of a true statement verifies, and leaves both transcripts equal. *)
Lemma create_complete k t Q Gf Hf G H (a b : list CScalar) P proof t' :
  (k < 32)%nat → length G = (2 ^ k)%nat → length H = (2 ^ k)%nat → length Gf = (2 ^ k)%nat →
  length Hf = (2 ^ k)%nat → length a = (2 ^ k)%nat → length b = (2 ^ k)%nat →
  P = lincomb (zip_with smul a Gf) (points G) ⊕ lincomb (zip_with smul b Hf) (points H)
      ⊕ Q ⊙ inner_product a b →
  create t Q Gf Hf G H a b = (proof, t') →
  length (ipp_L_vec proof) = k ∧ length (ipp_R_vec proof) = k ∧
  t' = (proof_challenges proof (2 ^ k) t).2 ∧
  (Forall nonidentity (ipp_L_vec proof ++ ipp_R_vec proof) →
   Forall (λ u, u ≠ szero) (proof_challenges proof (2 ^ k) t).1 →
   proof_shape proof (2 ^ k) ∧
   ipp_accepts proof (proof_challenges proof (2 ^ k) t).1 Gf Hf P Q (points G) (points H)).
Proof.
  intros Hk HG HH HGf HHf Ha Hb HP. rewrite (create_spec k) by done. intros Hrun.
  apply textbook_complete in Hrun as (Ls & Rs & HLs & HRs & HL & HR & Hrest); [|lengths..].
  cbn [app] in HL, HR. unfold proof_challenges, proof_shape, ipp_accepts.
  rewrite HL, HR. rewrite !length_fmap, HLs, HRs.
  destruct (ipp_challenges _ _) as [us t1]. destruct Hrest as [-> Hacc]. simpl.
  do 3 (split; [done|]). intros [HidL HidR]%Forall_app Hus. split.
  - split; [lia|]. split; [done|]. apply Forall_forall. intros [L R] Hin.
    rewrite Forall_forall in HidL, HidR.
    split; [apply HidL|apply HidR]; [by eapply elem_of_zip_l|by eapply elem_of_zip_r].
  - exists Ls, Rs. rewrite !decompress_all_compress. split; [done|]. split; [done|].
    apply Hacc; [done|]. unfold committed. rewrite HP, !lincomb_mul. done.
Qed.
End prover.

(** ** Properties *)

(** C36: [verify] is the textbook verifier.  With the challenges that the
    transcript gives for the points of the proof, none of them zero, the single
    multiscalar multiplication accepts exactly when the proof has fewer than 32
    rounds, for vectors of length [n = 2^rounds], no identity among its points,
    factors and bases of that length, points that decompress, and folding the
    bases and the point [P] by every challenge, round by round, ends with [P]
    being the commitment to the two revealed scalars.  No other length, and in
    particular no length that is not a power of two, is accepted. *)
Theorem ipp_verify_textbook `{CycleLaws} `{Merlin} self n Gf Hf P Q Gs Hs t t' :
  length (ipp_L_vec self) = length (ipp_R_vec self) →
  let '(us, t1) := proof_challenges self n t in
  Forall (λ u, u ≠ szero) us →
  ipp_verify self n Gf Hf P Q Gs Hs t = (Ok (), t') ↔
  ((length (ipp_L_vec self) < 32)%nat ∧ n = (2 ^ length (ipp_L_vec self))%nat ∧
   Forall (λ LR, nonidentity LR.1 ∧ nonidentity LR.2) (zip (ipp_L_vec self) (ipp_R_vec self))) ∧
  length Gs = n ∧ length Hs = n ∧ length Gf = n ∧ length Hf = n ∧
  (∃ Ls Rs, decompress_all (ipp_L_vec self) = Ok Ls ∧ decompress_all (ipp_R_vec self) = Ok Rs ∧
     textbook_accepts (zip (zip us Ls) Rs) Q P (zip_with cpoint_mul Gs Gf)
       (zip_with cpoint_mul Hs Hf) (ipp_a self) (ipp_b self)) ∧
  t' = t1.
Proof.
  intros Hlr. pose proof (ipp_verify_spec self n Gf Hf P Q Gs Hs t t' Hlr) as Hspec.
  by destruct (proof_challenges self n t).
Qed.

(** C35: completeness of the inner-product argument.  On vectors of length
    [2^k], [k < 32], the proof that [create] makes, with its first rounds on the
    original bases and the rest on collapsed ones, is the proof of the textbook
    prover that folds in every round; and for the point that commits to the two
    vectors and their inner product, [verify] accepts it and leaves its
    transcript in the state of the prover's, unless a commitment of the proof is
    the identity or a challenge is zero. *)
Theorem ipp_create_verifies `{CycleLaws} `{Merlin} k t Q Gf Hf Gs Hs (a b : list CScalar) :
  let points := fmap (M:=list) affine_to_point in
  let P := lincomb (zip_with smul a Gf) (points Gs) ⊕ lincomb (zip_with smul b Hf) (points Hs)
           ⊕ Q ⊙ inner_product a b in
  let '(proof, t') := create t Q Gf Hf Gs Hs a b in
  (k < 32)%nat → length Gs = (2 ^ k)%nat → length Hs = (2 ^ k)%nat →
  length Gf = (2 ^ k)%nat → length Hf = (2 ^ k)%nat →
  length a = (2 ^ k)%nat → length b = (2 ^ k)%nat →
  (proof, t') = textbook_prove k (innerproduct_domain_sep (Z.of_nat (2 ^ k)) t) Q
    (zip_with cpoint_mul (points Gs) Gf) (zip_with cpoint_mul (points Hs) Hf) a b [] [] ∧
  (Forall nonidentity (ipp_L_vec proof ++ ipp_R_vec proof) →
   Forall (λ u, u ≠ szero) (proof_challenges proof (2 ^ k) t).1 →
   ipp_verify proof (2 ^ k) Gf Hf P Q (points Gs) (points Hs) t = (Ok (), t')).
Proof.
  intros points P. destruct (create t Q Gf Hf Gs Hs a b) as [proof t'] eqn:Hrun.
  intros Hk HG HH HGf HHf Ha Hb.
  split; [rewrite <-Hrun; by apply create_spec|].
  destruct (create_complete k t Q Gf Hf Gs Hs a b P proof t') as (HL & HR & -> & Hacc); try done.
  intros Hid Hus. destruct (Hacc Hid Hus) as [Hshape Hok].
  apply ipp_verify_spec; [lia|done|]. unfold points. rewrite !length_fmap. done.
Qed.

(** ** Witnesses

    Two rounds over the test cycle. *)
Definition tiny_G : list TinyScalar := [tiny 1; tiny 2; tiny 3; tiny 5].
Definition tiny_H : list TinyScalar := [tiny 7; tiny 11; tiny 13; tiny 17].
Definition tiny_Gf : list TinyScalar := [tiny 1; tiny 1; tiny 4; tiny 4].
Definition tiny_Hf : list TinyScalar := [tiny 1; tiny 3; tiny 9; tiny 27].
Definition tiny_a : list TinyScalar := [tiny 10; tiny 20; tiny 30; tiny 40].
Definition tiny_b : list TinyScalar := [tiny 6; tiny 5; tiny 4; tiny 3].
Definition tiny_ipp : InnerProductProof (H:=TinyCycle) :=
  MkInnerProductProof (H:=TinyCycle) [x37; x12] [x3e; x30] (tiny 10) (tiny 12).

Lemma tiny_ipp_create :
  create (H:=TinyCycle) (H0:=ToyMerlin) 7%Z (tiny 29) tiny_Gf tiny_Hf tiny_G tiny_H tiny_a tiny_b
  = (tiny_ipp, 3421%Z).
Proof. vm_refl. Qed.
Lemma tiny_ipp_challenges :
  proof_challenges (CY:=TinyCycle) (ME:=ToyMerlin) tiny_ipp 4 7%Z = ([tiny 34; tiny 62], 3421%Z).
Proof. vm_refl. Qed.
Lemma tiny_nonzero : Forall (λ u, u ≠ szero) [tiny 34; tiny 62].
Proof. apply (bool_decide_unpack _). vm_compute. exact I. Qed.

Lemma ipp_create_verifies_witness :
  ipp_verify (H:=TinyCycle) (H0:=ToyMerlin) tiny_ipp 4 tiny_Gf tiny_Hf (tiny 21) (tiny 29)
    tiny_G tiny_H 7%Z = (Ok (), 3421%Z).
Proof.
  pose proof (ipp_create_verifies (H:=TinyCycle) (H1:=ToyMerlin) 2 7%Z (tiny 29) tiny_Gf tiny_Hf tiny_G
    tiny_H tiny_a tiny_b) as Hc.
  rewrite tiny_ipp_create in Hc. cbn beta iota zeta in Hc.
  destruct Hc as [_ Hv]; [lia|reflexivity..|].
  replace (tiny 21) with
    (lincomb (zip_with smul tiny_a tiny_Gf) (affine_to_point <$> tiny_G)
     ⊕ lincomb (zip_with smul tiny_b tiny_Hf) (affine_to_point <$> tiny_H)
     ⊕ tiny 29 ⊙ inner_product tiny_a tiny_b) by vm_refl.
  apply Hv.
  - apply (bool_decide_unpack _). vm_compute. exact I.
  - change (2 ^ 2)%nat with 4%nat. rewrite tiny_ipp_challenges. exact tiny_nonzero.
Defined.

Lemma ipp_verify_textbook_witness :
  ∃ Ls Rs, textbook_accepts (CY:=TinyCycle) (zip (zip [tiny 34; tiny 62] Ls) Rs) (tiny 29) (tiny 21)
    (zip_with cpoint_mul tiny_G tiny_Gf) (zip_with cpoint_mul tiny_H tiny_Hf) (tiny 10) (tiny 12).
Proof.
  pose proof (ipp_verify_textbook (H:=TinyCycle) (H1:=ToyMerlin) tiny_ipp 4 tiny_Gf tiny_Hf (tiny 21)
    (tiny 29) tiny_G tiny_H 7%Z 3421%Z eq_refl) as Hc.
  rewrite tiny_ipp_challenges in Hc.
  destruct (proj1 (Hc tiny_nonzero)) as (_ & _ & _ & _ & _ & (Ls & Rs & _ & _ & Hacc) & _).
  - vm_refl.
  - by exists Ls, Rs.
Defined.

(** A wrong length and a wrong commitment are rejected. *)
Example tiny_ipp_wrong_length :
  (ipp_verify (H:=TinyCycle) (H0:=ToyMerlin) tiny_ipp 3 (take 3 tiny_Gf) (take 3 tiny_Hf) (tiny 21)
     (tiny 29) (take 3 tiny_G) (take 3 tiny_H) 7%Z).1 = Err ProofVerificationError.
Proof. vm_refl. Qed.
Example tiny_ipp_wrong_commitment :
  (ipp_verify (H:=TinyCycle) (H0:=ToyMerlin) tiny_ipp 4 tiny_Gf tiny_Hf (tiny 22) (tiny 29)
     tiny_G tiny_H 7%Z).1 = Err ProofVerificationError.
Proof. vm_refl. Qed.
