(* ===== verification/LinearProof.v ===== *)
(** * The linear proof (bulletproofs-cycle/linear_proof.rs)

    The variant of the inner-product argument with one secret and one public
    vector: prover, verifier, encoding, and the completeness of the argument. *)

From Stdlib Require Import ZArith Lia Field Strings.Byte.
From stdpp Require Import prelude strings.
From S2P Require Import Prelude CoreError Group Algebra TestSupport Cycle BpUtil InnerProduct.

Local Open Scope golden_scope.

Section model.
Context {CY : Cycle} {ME : Merlin}.

Record LinearProof := MkLinearProof {
  lp_L_vec : list Compressed;
  lp_R_vec : list Compressed;
  lp_S : Compressed;
  lp_a : CScalar;
  lp_r : CScalar;
}.

#[local] Instance linear_cpoint_inhabited : Inhabited CPoint := populate cpoint_identity.

(** What both sides append before the rounds. *)
Definition linear_prologue (n : nat) (C_commit : Compressed) (b_vec : list CScalar)
    (G : list CPoint) (F B : CPoint) (transcript : Transcript) : Transcript :=
  let transcript := innerproduct_domain_sep (Z.of_nat n) transcript in
  let transcript := append_point (bstr "C") C_commit transcript in
  let transcript := foldl (λ t b_i, append_scalar (bstr "b_i") b_i t) transcript b_vec in
  let transcript :=
    foldl (λ t G_i, append_point (bstr "G_i") (point_compress G_i) t) transcript G in
  let F_comp := point_compress F in
  let B_comp := point_compress B in
  let transcript := append_point (bstr "F") F_comp transcript in
  append_point (bstr "B") B_comp transcript.

Section create.
Context `{CryptoRngCore Rng}.

(** The local variables of the loop in [create]. *)
Record LinearState := MkLinearState {
  ls_transcript : Transcript;
  ls_rng : Rng;
  ls_r : CScalar;
  ls_a : list CScalar;
  ls_b : list CScalar;
  ls_G : list CPoint;
  ls_L_vec : list Compressed;
  ls_R_vec : list Compressed;
}.

(** One pass of the loop; [n] is already halved. *)
Definition linear_round (n : nat) (F B : CPoint) (st : LinearState) : LinearState :=
  let a_L := take n (ls_a st) in
  let a_R := drop n (ls_a st) in
  let b_L := take n (ls_b st) in
  let b_R := drop n (ls_b st) in
  let G_L := take n (ls_G st) in
  let G_R := drop n (ls_G st) in
  let c_L := inner_product a_L b_R in
  let c_R := inner_product a_R b_L in
  let '(s_j, rng) := random_scalar (ls_rng st) in
  let '(t_j, rng) := random_scalar rng in
  let scalars_l := (a_L ++ [s_j]) ++ [c_L] in
  let points_l := (G_R ++ [B]) ++ [F] in
  let L := point_compress (vartime_msm scalars_l points_l) in
  let scalars_r := (a_R ++ [t_j]) ++ [c_R] in
  let points_r := (G_L ++ [B]) ++ [F] in
  let R := point_compress (vartime_msm scalars_r points_r) in
  let transcript := append_point (bstr "L") L (ls_transcript st) in
  let transcript := append_point (bstr "R") R transcript in
  let '(x_j, transcript) := challenge_scalar (bstr "x_j") transcript in
  let x_j_inv := scalar_invert x_j in
  {| ls_transcript := transcript;
     ls_rng := rng;
     ls_r := ls_r st + x_j * s_j + x_j_inv * t_j;
     ls_a := zip_with (λ l r, l + x_j_inv * r) a_L a_R;
     ls_b := zip_with (λ l r, l + x_j * r) b_L b_R;
     ls_G := zip_with (λ l r, vartime_msm [1; x_j] [l; r]) G_L G_R;
     ls_L_vec := ls_L_vec st ++ [L];
     ls_R_vec := ls_R_vec st ++ [R] |}.

(** [while n != 1]: [n] halves, so [n] passes are enough. *)
Fixpoint linear_rounds (fuel n : nat) (F B : CPoint) (st : LinearState) : LinearState :=
  match fuel with
  | O => st
  | S fuel =>
      if Nat.eqb n 1 then st
      else
        let n := Nat.div n 2 in
        linear_rounds fuel n F B (linear_round n F B st)
  end.

Definition linear_create (transcript : Transcript) (rng : Rng) (C_commit : Compressed)
    (r : CScalar) (a_vec b_vec : list CScalar) (G_vec : list CPoint) (F B : CPoint)
    : result ProofError LinearProof * Transcript * Rng :=
  let n := length b_vec in
  if negb (Nat.eqb (length G_vec) n) then (Err ProofInvalidGeneratorsLength, transcript, rng)
  else if negb (Nat.eqb (length a_vec) n) then (Err ProofInvalidInputLength, transcript, rng)
  else if negb (is_power_of_two n) then (Err ProofInvalidInputLength, transcript, rng)
  else
    let transcript := linear_prologue n C_commit b_vec G_vec F B transcript in
    let st := linear_rounds n n F B (MkLinearState transcript rng r a_vec b_vec G_vec [] []) in
    let '(s_star, rng) := random_scalar (ls_rng st) in
    let '(t_star, rng) := random_scalar rng in
    let S :=
      point_compress
        (vartime_msm [t_star; s_star * first_scalar (ls_b st); s_star]
           [B; F; ls_G st !!! 0%nat]) in
    let transcript := append_point (bstr "S") S (ls_transcript st) in
    let '(x_star, transcript) := challenge_scalar (bstr "x_star") transcript in
    let a_star := s_star + x_star * first_scalar (ls_a st) in
    let r_star := t_star + x_star * ls_r st in
    (Ok (MkLinearProof (ls_L_vec st) (ls_R_vec st) S a_star r_star), transcript, rng).
End create.

(** The loop of [verification_scalars], with the public vector it folds. *)
Fixpoint linear_replay (LRs : list (Compressed * Compressed)) (n_mut : nat) (b : list CScalar)
    : stateful Transcript ProofError (list CScalar * list CScalar) :=
  match LRs with
  | [] => mret ([], b)
  | (L, R) :: LRs =>
      _ ← validate_and_append_point (bstr "L") L;
      _ ← validate_and_append_point (bstr "R") R;
      x_j ← draw (challenge_scalar (bstr "x_j"));
      let n_mut := Nat.div n_mut 2 in
      let b_L := take n_mut b in
      let b_R := drop n_mut b in
      let b := zip_with (λ l r, l + x_j * r) b_L b_R in
      '(challenges, b) ← linear_replay LRs n_mut b;
      mret (x_j :: challenges, b)
  end.

Definition linear_verification_scalars (self : LinearProof) (n : nat) (b_vec : list CScalar)
    : stateful Transcript ProofError (list CScalar * list CScalar * CScalar) :=
  let lg_n := length (lp_L_vec self) in
  if Nat.leb 32 lg_n then lift (Err ProofVerificationError)
  else if negb (Nat.eqb n (2 ^ lg_n)) then lift (Err ProofVerificationError)
  else
    '(challenges, b) ← linear_replay (zip (lp_L_vec self) (lp_R_vec self)) n b_vec;
    let '(challenges_inv, _) := scalar_batch_invert challenges in
    mret (challenges, challenges_inv, first_scalar b).

Definition subset_product (self : LinearProof) (n : nat) (challenges : list CScalar)
    : list CScalar :=
  subset_products (length (lp_L_vec self)) n 1 challenges.

Definition linear_verify (self : LinearProof) (C_commit : Compressed) (G : list CPoint)
    (F B : CPoint) (b_vec : list CScalar) : stateful Transcript ProofError unit :=
  let n := length b_vec in
  if negb (Nat.eqb (length G) n) then lift (Err ProofInvalidGeneratorsLength)
  else
    _ ← modify (linear_prologue n C_commit b_vec G F B);
    '(x_vec, x_inv_vec, b_0) ← linear_verification_scalars self n b_vec;
    _ ← modify (append_point (bstr "S") (lp_S self));
    x_star ← draw (challenge_scalar (bstr "x_star"));
    Ls ← lift (decompress_all (lp_L_vec self));
    Rs ← lift (decompress_all (lp_R_vec self));
    let L_R_factors := vartime_msm (x_vec ++ x_inv_vec) (Ls ++ Rs) in
    let s := subset_product self n x_vec in
    let G_0 := vartime_msm s G in
    S ← lift (ok_or ProofVerificationError (compressed_decompress (lp_S self)));
    C_dec ← lift (ok_or ProofVerificationError (compressed_decompress C_commit));
    let scalars := [lp_r self; lp_a self * b_0; - x_star; - x_star; lp_a self] in
    let points := [B; F; C_dec; L_R_factors; G_0] in
    let expect_S := vartime_msm scalars points in
    lift (if bool_decide (expect_S = S) then Ok tt else Err ProofVerificationError).

(** ** The encoding *)
Definition linear_serialized_size (self : LinearProof) : nat :=
  ((length (lp_L_vec self) * 2 + 1) * COMPRESSED_BYTES + 2 * 32)%nat.

Definition linear_to_bytes (self : LinearProof) : list byte :=
  let buf := pair_bytes (zip (lp_L_vec self) (lp_R_vec self)) in
  let buf := buf ++ compressed_as_bytes (lp_S self) in
  let buf := buf ++ scalar_to_canonical (lp_a self) in
  buf ++ scalar_to_canonical (lp_r self).

Definition linear_from_bytes (slice : list byte) : result ProofError LinearProof :=
  let cb := COMPRESSED_BYTES in
  let unit := (2 * cb)%nat in
  let tail := (cb + 2 * 32)%nat in
  if Nat.ltb (length slice) tail then Err ProofFormatError
  else
    let body_len := (length slice - tail)%nat in
    if negb (Nat.eqb (Nat.modulo body_len unit) 0) then Err ProofFormatError
    else
      let lg_n := Nat.div body_len unit in
      if Nat.leb 32 lg_n then Err ProofFormatError
      else
        let '(L_vec, R_vec) := read_pairs lg_n cb slice in
        let pos := (2 * lg_n * cb)%nat in
        let S := compressed_from_bytes (subslice pos (pos + cb) slice) in
        a ← ok_or ProofFormatError (scalar_from_canonical (read32 (drop (pos + cb) slice)));
        r ← ok_or ProofFormatError (scalar_from_canonical (read32 (drop (pos + cb + 32) slice)));
        Ok (MkLinearProof L_vec R_vec S a r).
End model.
Arguments MkLinearState {_ _ _} _ _ _ _ _ _ _ _.

(** ** Folding *)
Section folding.
Context {CY : Cycle} {CL : CycleLaws} {ME : Merlin}.
Add Field linear_field : (scalar_field_theory (F:=CScalar)).
Add Ring linear_ring : ideal_ring_theory.
Implicit Types (a b xs : list CScalar) (G : list CPoint) (P F B : CPoint) (x r : CScalar).

(** The commitment to [a] and to its product with [b], blinded by [r]. *)
Definition linear_commitment F B G a b r : CPoint :=
  lincomb a G ⊕ B ⊙ r ⊕ F ⊙ inner_product a b.

Definition linear_L F B G a b (s_j : CScalar) : CPoint :=
  let m := Nat.div (length a) 2 in
  lincomb (take m a) (drop m G) ⊕ B ⊙ s_j ⊕ F ⊙ inner_product (take m a) (drop m b).
Definition linear_R F B G a b (t_j : CScalar) : CPoint :=
  let m := Nat.div (length a) 2 in
  lincomb (drop m a) (take m G) ⊕ B ⊙ t_j ⊕ F ⊙ inner_product (drop m a) (take m b).

(** One round preserves what is committed. *)
Lemma linear_commitment_fold F B G a b r m x s_j t_j :
  x ≠ szero → length a = (2 * m)%nat → length b = (2 * m)%nat → length G = (2 * m)%nat →
  linear_commitment F B G a b r
    ⊕ (linear_L F B G a b s_j ⊙ x ⊕ linear_R F B G a b t_j ⊙ sinv x)
  = linear_commitment F B (fold_points 1 x G) (fold_scalars 1 (sinv x) a) (fold_scalars 1 x b)
      (r + x * s_j + sinv x * t_j).
Proof.
  intros Hx Ha Hb HG. unfold linear_commitment, linear_L, linear_R.
  rewrite Ha, Nat.mul_comm, Nat.div_mul by lia.
  rewrite (lincomb_halves a G m), (inner_product_halves a b m) by done.
  rewrite (inner_product_fold_scalars _ _ a _ m) by done.
  rewrite !(inner_product_comm _ (fold_scalars _ _ b)), !(inner_product_fold_scalars _ _ b _ m) by done.
  rewrite !(lincomb_fold_scalars _ _ _ _ m), !(lincomb_fold_points _ _ _ _ m) by lengths.
  rewrite (inner_product_comm (take m b)), (inner_product_comm (drop m b)),
    (inner_product_comm (take m b) (drop m a)), (inner_product_comm (drop m b) (drop m a)).
  pose proof (sinv_r x Hx) as Hinv. point_ring_using Hinv.
Qed.

(** The last base and the last public scalar, after all challenges. *)
Fixpoint fold_bases_by xs G : list CPoint :=
  match xs with [] => G | x :: xs => fold_bases_by xs (fold_points 1 x G) end.
Fixpoint fold_public xs b : list CScalar :=
  match xs with [] => b | x :: xs => fold_public xs (fold_scalars 1 x b) end.

Lemma fold_bases_by_lincomb xs G :
  length G = (2 ^ length xs)%nat → fold_bases_by xs G = [lincomb (bit_products 1 xs) G].
Proof.
  revert G. induction xs as [|x xs IH]; intros G HG.
  { destruct G as [|P [|]]; try done. cbn. f_equal. rewrite cpoint_mul_1. symmetry. apply cpoint_add_id_r. }
  cbn [fold_bases_by bit_products length] in *. rewrite Nat.pow_succ_r' in HG.
  rewrite IH by (by apply length_fold_points). f_equal.
  rewrite (lincomb_unfold_points _ _ _ _ (2 ^ length xs)) by (rewrite ?length_bit_products; done).
  do 2 f_equal. rewrite <-(list_fmap_id (bit_products 1 xs)) at 2. apply list_fmap_ext.
  intros. unfold id. ring.
Qed.

Lemma fold_public_inner xs b :
  length b = (2 ^ length xs)%nat → fold_public xs b = [inner_product (bit_products 1 xs) b].
Proof.
  revert b. induction xs as [|x xs IH]; intros b Hb.
  { destruct b as [|y [|]]; try done. cbn. f_equal. ring. }
  cbn [fold_public bit_products length] in *. rewrite Nat.pow_succ_r' in Hb.
  pose proof (length_bit_products 1 xs) as Hl.
  rewrite IH by (by apply length_fold_scalars). f_equal.
  rewrite inner_product_comm, (inner_product_fold_scalars _ _ _ _ (2 ^ length xs)) by done.
  rewrite (inner_product_halves (_ ++ _) b (2 ^ length xs)) by lengths.
  rewrite take_app_length', drop_app_length' by lengths.
  rewrite inner_product_scale_l, !(inner_product_comm _ (bit_products _ _)). ring.
Qed.

Lemma zip_fold x l m :
  length l = (2 * m)%nat →
  zip_with (λ y z, y + x * z) (take m l) (drop m l) = fold_scalars 1 x l.
Proof.
  intros Hl. unfold fold_scalars. rewrite Hl, Nat.mul_comm, Nat.div_mul by lia.
  generalize (take m l), (drop m l). intros s t. revert t.
  induction s as [|y s IH]; intros [|z t]; csimpl; try done. rewrite IH. f_equal. ring.
Qed.

Lemma zip_fold_points x G m :
  length G = (2 * m)%nat →
  zip_with (λ U V : CPoint, vartime_msm [1; x] [U; V]) (take m G) (drop m G) = fold_points 1 x G.
Proof.
  intros HG. unfold fold_points. rewrite HG, Nat.mul_comm, Nat.div_mul by lia.
  generalize (take m G), (drop m G). intros s t. revert t.
  induction s as [|y s IH]; intros [|z t]; csimpl; try done. rewrite IH. f_equal.
  rewrite vartime_msm_spec by done. cbn. by rewrite cpoint_add_id_r.
Qed.
End folding.

(** ** The verifier *)
Section verifier.
Context {CY : Cycle} {CL : CycleLaws} {ME : Merlin}.
Add Field linear_verifier_field : (scalar_field_theory (F:=CScalar)).
Add Ring linear_verifier_ring : ideal_ring_theory.

(** The challenges that the transcript gives for the points of a proof. *)
Fixpoint linear_challenges (LRs : list (Compressed * Compressed)) (t : Transcript)
    : list CScalar * Transcript :=
  match LRs with
  | [] => ([], t)
  | (L, R) :: LRs =>
      let t := append_point (bstr "R") R (append_point (bstr "L") L t) in
      let '(x_j, t) := challenge_scalar (bstr "x_j") t in
      let '(xs, t) := linear_challenges LRs t in
      (x_j :: xs, t)
  end.

Lemma length_linear_challenges LRs t : length (linear_challenges LRs t).1 = length LRs.
Proof.
  revert t. induction LRs as [|[L R] LRs IH]; intros t; [done|]. cbn [linear_challenges].
  destruct (challenge_scalar _ _) as [x t1]. specialize (IH t1).
  destruct (linear_challenges LRs t1) as [xs t2]. simpl in *. lia.
Qed.

Lemma linear_replay_Ok LRs n b t :
  Forall (λ LR, nonidentity LR.1 ∧ nonidentity LR.2) LRs →
  n = (2 ^ length LRs)%nat → length b = n →
  linear_replay LRs n b t
  = (Ok ((linear_challenges LRs t).1, fold_public (linear_challenges LRs t).1 b),
     (linear_challenges LRs t).2).
Proof.
  intros Hid. revert n b t. induction Hid as [|[L R] LRs [HL HR] _ IH]; intros n b t Hn Hb; [done|].
  cbn [linear_replay linear_challenges]. unfold mbind, stateful_bind, validate_and_append_point.
  unfold nonidentity in HL, HR. simpl in HL, HR. rewrite HL, HR. unfold draw.
  change (append_message (bstr "R") (compressed_as_bytes R)
    (append_message (bstr "L") (compressed_as_bytes L) t))
    with (append_point (bstr "R") R (append_point (bstr "L") L t)).
  destruct (challenge_scalar _ _) as [x t1].
  cbn [length] in Hn. rewrite Nat.pow_succ_r' in Hn.
  assert (Hm : Nat.div n 2 = (2 ^ length LRs)%nat) by (rewrite Hn, Nat.mul_comm, Nat.div_mul; lia).
  rewrite Hm, (zip_fold x b (2 ^ length LRs)) by lia.
  rewrite IH; [|done|apply length_fold_scalars; lia].
  by destruct (linear_challenges LRs t1).
Qed.

Lemma linear_replay_inv LRs n b t v t' :
  linear_replay LRs n b t = (Ok v, t') →
  Forall (λ LR, nonidentity LR.1 ∧ nonidentity LR.2) LRs.
Proof.
  revert n b t v t'. induction LRs as [|[L R] LRs IH]; intros n b t v t'; [constructor|].
  cbn [linear_replay]. intros (? & t1 & HL & (? & t2 & HR & (x & t3 & Hx & H3)%stateful_bind_Ok)
    %stateful_bind_Ok)%stateful_bind_Ok.
  apply stateful_bind_Ok in H3 as (v' & t4 & Hv & _).
  constructor; [|by eapply IH]. unfold validate_and_append_point, nonidentity in *. simpl.
  destruct (compressed_is_identity L), (compressed_is_identity R); done.
Qed.

(** The challenges of the rounds, and the last one. *)
Definition linear_proof_challenges (self : LinearProof) C_commit (G : list CPoint) F B
    (b : list CScalar) (t : Transcript) : list CScalar * CScalar * Transcript :=
  let t := linear_prologue (length b) C_commit b G F B t in
  let '(xs, t) := linear_challenges (zip (lp_L_vec self) (lp_R_vec self)) t in
  let '(x_star, t) := challenge_scalar (bstr "x_star") (append_point (bstr "S") (lp_S self) t) in
  (xs, x_star, t).

(** The equation of the last step: a Schnorr proof that [C], with the points of
    all rounds, is committed on the folded base. *)
Definition linear_equation (self : LinearProof) (C S : CPoint) (Ls Rs : list CPoint)
    (xs : list CScalar) (x_star : CScalar) (G : list CPoint) F B (b : list CScalar) : Prop :=
  let G_0 := lincomb (bit_products 1 xs) G in
  let b_0 := inner_product (bit_products 1 xs) b in
  G_0 ⊙ lp_a self ⊕ B ⊙ lp_r self ⊕ F ⊙ (lp_a self * b_0)
  = S ⊕ (C ⊕ (lincomb xs Ls ⊕ lincomb (sinv <$> xs) Rs)) ⊙ x_star.

Definition linear_shape (self : LinearProof) (n : nat) : Prop :=
  (length (lp_L_vec self) < 32)%nat ∧ n = (2 ^ length (lp_L_vec self))%nat ∧
  Forall (λ LR, nonidentity LR.1 ∧ nonidentity LR.2) (zip (lp_L_vec self) (lp_R_vec self)).

Lemma linear_scalars_Ok self b t :
  length (lp_L_vec self) = length (lp_R_vec self) → linear_shape self (length b) →
  let '(xs, t1) := linear_challenges (zip (lp_L_vec self) (lp_R_vec self)) t in
  Forall (λ x, x ≠ szero) xs →
  linear_verification_scalars self (length b) b t
  = (Ok (xs, sinv <$> xs, inner_product (bit_products 1 xs) b), t1).
Proof.
  intros Hlr (Hk & Hn & Hid). unfold linear_verification_scalars.
  rewrite (proj2 (Nat.leb_gt _ _)) by lia. rewrite (proj2 (Nat.eqb_eq _ _)) by done. cbn [negb].
  pose proof (length_linear_challenges (zip (lp_L_vec self) (lp_R_vec self)) t) as Hl.
  assert (Hz : length (zip (lp_L_vec self) (lp_R_vec self)) = length (lp_L_vec self)) by lengths.
  unfold mbind, stateful_bind. rewrite linear_replay_Ok by (rewrite ?Hz; done).
  destruct (linear_challenges _ _) as [xs t1]. cbn [fst snd] in *. intros Hnz.
  rewrite scalar_batch_invert_spec by done.
  rewrite fold_public_inner by (rewrite Hl, Hz; done). done.
Qed.

Lemma linear_scalars_shape self n b t v t' :
  linear_verification_scalars self n b t = (Ok v, t') → linear_shape self n.
Proof.
  unfold linear_verification_scalars, linear_shape.
  destruct (Nat.leb_spec 32 (length (lp_L_vec self))) as [Hk|Hk]; [done|].
  destruct (Nat.eqb_spec n (2 ^ length (lp_L_vec self))) as [Hn|Hn]; cbn [negb]; [|done].
  intros (v' & t1 & Hr & _)%stateful_bind_Ok. split; [done|]. split; [done|].
  by eapply linear_replay_inv.
Qed.

(** The last multiscalar multiplications of [linear_verify]. *)
Lemma linear_equation_msm self C S Ls Rs xs x_star G F B b :
  length xs = length (lp_L_vec self) → length G = (2 ^ length xs)%nat →
  length Ls = length xs → length Rs = length xs →
  vartime_msm [lp_r self; lp_a self * inner_product (bit_products 1 xs) b; - x_star; - x_star; lp_a self]
    [B; F; C; vartime_msm (xs ++ (sinv <$> xs)) (Ls ++ Rs);
     vartime_msm (subset_product self (length G) xs) G] = S ↔
  linear_equation self C S Ls Rs xs x_star G F B b.
Proof.
  intros Hxs HG HL HR. unfold linear_equation, subset_product.
  rewrite <-Hxs, HG, subset_products_spec.
  rewrite (vartime_msm_spec (bit_products 1 xs)) by (rewrite length_bit_products; lia).
  rewrite (vartime_msm_spec (xs ++ _)), lincomb_app by lengths.
  rewrite vartime_msm_spec by done. rewrite !lincomb_cons, lincomb_nil_l.
  set (G_0 := lincomb (bit_products 1 xs) G). set (b_0 := inner_product _ _).
  set (X := lincomb xs Ls). set (Y := lincomb _ Rs).
  split; [intros <-; point_ring|]. intros E.
  apply (madd_cancel_r (SM:=cycle_module) _ _ ((C ⊕ (X ⊕ Y)) ⊙ x_star)). cbn [madd cycle_module].
  rewrite <-E. point_ring.
Qed.

Lemma linear_verify_spec self C_commit G F B b t t' :
  length (lp_L_vec self) = length (lp_R_vec self) →
  let '(xs, x_star, t1) := linear_proof_challenges self C_commit G F B b t in
  Forall (λ x, x ≠ szero) xs →
  linear_verify self C_commit G F B b t = (Ok (), t') ↔
  linear_shape self (length b) ∧ length G = length b ∧
  (∃ Ls Rs S C, decompress_all (lp_L_vec self) = Ok Ls ∧ decompress_all (lp_R_vec self) = Ok Rs ∧
     compressed_decompress (lp_S self) = Some S ∧ compressed_decompress C_commit = Some C ∧
     linear_equation self C S Ls Rs xs x_star G F B b) ∧ t' = t1.
Proof.
  intros Hlr. unfold linear_proof_challenges, linear_verify.
  pose proof (linear_scalars_Ok self b (linear_prologue (length b) C_commit b G F B t) Hlr) as Hsc.
  pose proof (length_linear_challenges (zip (lp_L_vec self) (lp_R_vec self))
      (linear_prologue (length b) C_commit b G F B t)) as Hl.
  destruct (linear_challenges _ _) as [xs t0].
  destruct (challenge_scalar (bstr "x_star") _) as [x_star t1] eqn:Hstar. intros Hnz.
  destruct (Nat.eqb_spec (length G) (length b)) as [HG|HG]; cbn [negb];
    [|split; [done|]; intros (_ & ? & _); done].
  assert (Heq : ∀ Ls Rs S C, linear_shape self (length b) →
    decompress_all (lp_L_vec self) = Ok Ls → decompress_all (lp_R_vec self) = Ok Rs →
    vartime_msm [lp_r self; lp_a self * inner_product (bit_products 1 xs) b; - x_star; - x_star;
        lp_a self]
      [B; F; C; vartime_msm (xs ++ (sinv <$> xs)) (Ls ++ Rs);
       vartime_msm (subset_product self (length b) xs) G] = S ↔
    linear_equation self C S Ls Rs xs x_star G F B b).
  { intros Ls Rs S C (_ & Hn & _) HL%decompress_all_Ok%Forall2_length
      HR%decompress_all_Ok%Forall2_length. cbn [fst] in Hl.
    assert (length xs = length (lp_L_vec self)) by lengths.
    rewrite <-HG. apply linear_equation_msm; [lengths|rewrite HG; congruence|lia|lia]. }
  split.
  - intros ([] & u1 & [= <-] & (v & u2 & Hv & Hres)%stateful_bind_Ok)%stateful_bind_Ok.
    pose proof (linear_scalars_shape _ _ _ _ _ _ Hv) as Hshape.
    rewrite Hsc in Hv by done. injection Hv as <- <-. cbn beta iota in Hres.
    apply stateful_bind_Ok in Hres as ([] & u3 & [= <-] & Hres).
    apply stateful_bind_Ok in Hres as (x & u4 & Hx & Hres).
    unfold draw in Hx. rewrite Hstar in Hx. injection Hx as <- <-.
    apply stateful_bind_Ok in Hres as (Ls & u5 & [= HL <-] & Hres).
    apply stateful_bind_Ok in Hres as (Rs & u6 & [= HR <-] & Hres). cbn beta zeta in Hres.
    apply stateful_bind_Ok in Hres as (S & u7 & [= HS%ok_or_Ok <-] & Hres).
    apply stateful_bind_Ok in Hres as (C & u8 & [= HC%ok_or_Ok <-] & Hres).
    case_bool_decide as HP; [|done]. injection Hres as <-.
    split; [done|]. split; [done|]. split; [|done]. exists Ls, Rs, S, C.
    do 4 (split; [done|]). by apply Heq.
  - intros (Hshape & _ & (Ls & Rs & S & C & HL & HR & HS & HC & Hacc) & ->).
    apply stateful_bind_Ok. eexists (), _. split; [done|].
    apply stateful_bind_Ok. eexists _, _. split; [by apply Hsc|]. cbn beta iota.
    apply stateful_bind_Ok. eexists (), _. split; [done|].
    apply stateful_bind_Ok. eexists _, _. split; [unfold draw; by rewrite Hstar|].
    apply stateful_bind_Ok. eexists Ls, _. split; [unfold lift; by rewrite HL|].
    apply stateful_bind_Ok. eexists Rs, _. split; [unfold lift; by rewrite HR|]. cbn zeta.
    apply stateful_bind_Ok. eexists S, _. split; [unfold lift; by rewrite HS|].
    apply stateful_bind_Ok. eexists C, _. split; [unfold lift; by rewrite HC|].
    rewrite bool_decide_eq_true_2; [done|]. by apply Heq.
Qed.
End verifier.

(** ** The prover *)
Section prover.
Context {CY : Cycle} {CL : CycleLaws} {ME : Merlin} `{CryptoRngCore Rng}.
Add Field linear_prover_field : (scalar_field_theory (F:=CScalar)).
Add Ring linear_prover_ring : ideal_ring_theory.

(** The vectors of the loop all have length [n]. *)
Definition linear_sized (n : nat) (st : LinearState (Rng:=Rng)) : Prop :=
  length (ls_a st) = n ∧ length (ls_b st) = n ∧ length (ls_G st) = n.

(** One pass of the loop. *)
Lemma linear_round_spec m F B (st : LinearState (Rng:=Rng)) :
  linear_sized (2 * m) st →
  let st' := linear_round m F B st in
  ∃ s_j t_j,
    let L := linear_L F B (ls_G st) (ls_a st) (ls_b st) s_j in
    let R := linear_R F B (ls_G st) (ls_a st) (ls_b st) t_j in
    let '(x, t) := challenge_scalar (bstr "x_j")
      (append_point (bstr "R") (point_compress R)
         (append_point (bstr "L") (point_compress L) (ls_transcript st))) in
    linear_sized m st' ∧ ls_transcript st' = t ∧
    ls_L_vec st' = ls_L_vec st ++ [point_compress L] ∧
    ls_R_vec st' = ls_R_vec st ++ [point_compress R] ∧
    ls_a st' = fold_scalars 1 (sinv x) (ls_a st) ∧ ls_b st' = fold_scalars 1 x (ls_b st) ∧
    ls_G st' = fold_points 1 x (ls_G st) ∧ ls_r st' = ls_r st + x * s_j + sinv x * t_j.
Proof.
  intros (Ha & Hb & HG) st'. unfold st', linear_round.
  destruct (random_scalar (ls_rng st)) as [s_j rng1]. destruct (random_scalar rng1) as [t_j rng2].
  exists s_j, t_j.
  assert (HL : vartime_msm ((take m (ls_a st) ++ [s_j])
        ++ [inner_product (take m (ls_a st)) (drop m (ls_b st))]) ((drop m (ls_G st) ++ [B]) ++ [F])
    = linear_L F B (ls_G st) (ls_a st) (ls_b st) s_j).
  { unfold linear_L. rewrite Ha, (Nat.mul_comm 2 m), Nat.div_mul by lia.
    rewrite vartime_msm_spec, !lincomb_snoc by lengths. done. }
  assert (HR : vartime_msm ((drop m (ls_a st) ++ [t_j])
        ++ [inner_product (drop m (ls_a st)) (take m (ls_b st))]) ((take m (ls_G st) ++ [B]) ++ [F])
    = linear_R F B (ls_G st) (ls_a st) (ls_b st) t_j).
  { unfold linear_R. rewrite Ha, (Nat.mul_comm 2 m), Nat.div_mul by lia.
    rewrite vartime_msm_spec, !lincomb_snoc by lengths. done. }
  rewrite HL, HR. destruct (challenge_scalar _ _) as [x t].
  unfold linear_sized. cbn [ls_a ls_b ls_G ls_transcript ls_L_vec ls_R_vec ls_r].
  rewrite scalar_invert_spec, !(zip_fold _ _ m), zip_fold_points by done.
  split; [|done].
  split; [by apply length_fold_scalars|]. split; [by apply length_fold_scalars|].
  by apply length_fold_points.
Qed.

(** What the loop leaves: the challenges of its points, the vectors folded by
    them, and the commitment to what is left. *)
Definition linear_loop_inv (k : nat) (F B : CPoint) (st st' : LinearState (Rng:=Rng)) : Prop :=
  ∃ Ls Rs, length Ls = k ∧ length Rs = k ∧
    ls_L_vec st' = ls_L_vec st ++ (point_compress <$> Ls) ∧
    ls_R_vec st' = ls_R_vec st ++ (point_compress <$> Rs) ∧
    linear_sized 1 st' ∧
    let '(xs, t1) := linear_challenges (zip (point_compress <$> Ls) (point_compress <$> Rs))
      (ls_transcript st) in
    ls_transcript st' = t1 ∧ ls_b st' = fold_public xs (ls_b st) ∧
    ls_G st' = fold_bases_by xs (ls_G st) ∧
    (Forall (λ x, x ≠ szero) xs →
     linear_commitment F B (ls_G st') (ls_a st') (ls_b st') (ls_r st')
     = linear_commitment F B (ls_G st) (ls_a st) (ls_b st) (ls_r st)
       ⊕ (lincomb xs Ls ⊕ lincomb (sinv <$> xs) Rs)).

Lemma linear_rounds_spec k fuel F B st :
  (k ≤ fuel)%nat → linear_sized (2 ^ k) st →
  linear_loop_inv k F B st (linear_rounds fuel (2 ^ k) F B st).
Proof.
  revert fuel st. induction k as [|k IH]; intros fuel st Hf Hst.
  { replace (linear_rounds fuel (2 ^ 0) F B st) with st by (by destruct fuel).
    exists [], []. cbn. rewrite !app_nil_r, !cpoint_add_id_r. done. }
  destruct fuel as [|fuel]; [lia|]. cbn [linear_rounds].
  pose proof (Nat.pow_nonzero 2 k). rewrite Nat.pow_succ_r' in *.
  rewrite (proj2 (Nat.eqb_neq _ _)) by lia. rewrite (Nat.mul_comm 2), Nat.div_mul by lia.
  destruct (linear_round_spec (2 ^ k) F B st Hst) as (s_j & t_j & Hround).
  set (st1 := linear_round _ _ _ _) in *.
  set (L := linear_L _ _ _ _ _ _) in *. set (R := linear_R _ _ _ _ _ _) in *. cbn zeta in Hround.
  destruct (challenge_scalar _ _) as [x t1] eqn:Hx.
  destruct Hround as (Hst1 & Ht1 & HL & HR & Ha & Hb & HG & Hr).
  destruct (IH fuel st1) as (Ls & Rs & HLs & HRs & HL' & HR' & Hone & Hrest); [lia|done|].
  exists (L :: Ls), (R :: Rs). split; [simpl; lia|]. split; [simpl; lia|].
  rewrite HL', HR', HL, HR, <-!app_assoc. split; [done|]. split; [done|]. split; [done|].
  rewrite !fmap_cons. cbn [zip_with linear_challenges]. rewrite Hx, <-Ht1.
  destruct (linear_challenges _ (ls_transcript st1)) as [xs t2].
  destruct Hrest as (Ht2 & Hb' & HG' & Hcom). cbn [fold_public fold_bases_by]. rewrite <-Hb, <-HG.
  split; [done|]. split; [done|]. split; [done|].
  intros [Hx0 Hxs]%Forall_cons. rewrite Hcom by done. rewrite Ha, Hb, HG, Hr.
  destruct Hst as (Hla & Hlb & HlG).
  rewrite <-(linear_commitment_fold F B (ls_G st) (ls_a st) (ls_b st) (ls_r st) (2 ^ k) x s_j t_j)
    by done.
  fold L R. rewrite fmap_cons, !lincomb_cons. point_ring.
Qed.

(** The proof of a committed vector, and the equation that it satisfies. *)
Lemma linear_create_spec k t (rng : Rng) C r (a b : list CScalar) G F B :
  length a = (2 ^ k)%nat → length b = (2 ^ k)%nat → length G = (2 ^ k)%nat →
  ∃ proof t' rng' Ls Rs S,
    linear_create t rng (point_compress C) r a b G F B = (Ok proof, t', rng') ∧
    length Ls = k ∧ length Rs = k ∧ lp_L_vec proof = point_compress <$> Ls ∧
    lp_R_vec proof = point_compress <$> Rs ∧ lp_S proof = point_compress S ∧
    let '(xs, x_star, t1) := linear_proof_challenges proof (point_compress C) G F B b t in
    t' = t1 ∧
    (C = linear_commitment F B G a b r → Forall (λ x, x ≠ szero) xs →
     linear_equation proof C S Ls Rs xs x_star G F B b).
Proof.
  intros Ha Hb HG. unfold linear_create. rewrite HG, Ha, Hb, Nat.eqb_refl. cbn [negb].
  assert (is_power_of_two (2 ^ k) = true) as -> by (apply is_power_of_two_spec; by exists k).
  cbn [negb]. set (t0 := linear_prologue _ _ _ _ _ _ _).
  pose proof (linear_rounds_spec k (2 ^ k) F B (MkLinearState t0 rng r a b G [] [])) as Hrounds.
  destruct Hrounds as (Ls & Rs & HLs & HRs & HL & HR & (Ha1 & Hb1 & HG1) & Hrest);
    [apply Nat.lt_le_incl, Nat.pow_gt_lin_r; lia|done|].
  set (st := linear_rounds _ _ _ _ _) in *.
  destruct (random_scalar (ls_rng st)) as [s_star rng1]. destruct (random_scalar rng1) as [t_star rng2].
  destruct (ls_a st) as [|a_0 [|]] eqn:Hla; try done. destruct (ls_b st) as [|b_0 [|]] eqn:Hlb; try done.
  destruct (ls_G st) as [|G_0 [|]] eqn:HlG; try done. unfold first_scalar. cbn.
  set (S := vartime_msm _ _). destruct (challenge_scalar _ _) as [x_star t1] eqn:Hstar.
  eexists _, _, _, Ls, Rs, S. split; [done|]. split; [done|]. split; [done|].
  split; [done|]. split; [done|]. split; [done|].
  unfold linear_proof_challenges. cbn [lp_L_vec lp_R_vec lp_S]. rewrite HL, HR, Hb. fold t0.
  cbn [ls_transcript ls_L_vec ls_R_vec app ls_a ls_b ls_G ls_r] in Hrest |- *.
  pose proof (length_linear_challenges (zip (point_compress <$> Ls) (point_compress <$> Rs)) t0) as Hlen.
  destruct (linear_challenges _ _) as [xs t2]. destruct Hrest as (Ht & Hb' & HG' & Hcom).
  rewrite Ht in Hstar. rewrite Hstar. split; [done|]. intros HC Hnz.
  assert (Hk : length xs = k) by (cbn [fst] in Hlen; lengths).
  unfold linear_equation. cbn [lp_a lp_r].
  rewrite fold_bases_by_lincomb in HG' by congruence. injection HG' as HG'.
  rewrite fold_public_inner in Hb' by congruence. injection Hb' as Hb'.
  rewrite <-HG', <-Hb', HC, <-Hcom by done. unfold linear_commitment, S.
  rewrite vartime_msm_spec by done. rewrite inner_product_cons, inner_product_nil_l.
  rewrite !lincomb_cons, !lincomb_nil_l. point_ring.
Qed.
End prover.

(** ** Properties *)

(** What [verify] of a linear proof accepts.  With the challenges that the
    transcript gives, those of the rounds not zero, it accepts exactly when the
    proof has fewer than 32 rounds, for vectors of length [2^rounds], none of
    its round points is the identity, every point decompresses, and the two
    revealed scalars answer the last challenge for [C + Σ x_j L_j + x_j⁻¹ R_j],
    committed on the base [Σ s_i G_i] with the public scalar [<s, b>], where [s]
    are the products of the challenges over the bits of the index. *)
Theorem linear_verify_textbook `{CycleLaws} `{Merlin} self C_commit Gs F B b t t' :
  length (lp_L_vec self) = length (lp_R_vec self) →
  let '(xs, x_star, t1) := linear_proof_challenges self C_commit Gs F B b t in
  Forall (λ x, x ≠ szero) xs →
  linear_verify self C_commit Gs F B b t = (Ok (), t') ↔
  ((length (lp_L_vec self) < 32)%nat ∧ length b = (2 ^ length (lp_L_vec self))%nat ∧
   Forall (λ LR, nonidentity LR.1 ∧ nonidentity LR.2) (zip (lp_L_vec self) (lp_R_vec self))) ∧
  length Gs = length b ∧
  (∃ Ls Rs S C, decompress_all (lp_L_vec self) = Ok Ls ∧ decompress_all (lp_R_vec self) = Ok Rs ∧
     compressed_decompress (lp_S self) = Some S ∧ compressed_decompress C_commit = Some C ∧
     let s := bit_products 1 xs in
     lincomb s Gs ⊙ lp_a self ⊕ B ⊙ lp_r self ⊕ F ⊙ (lp_a self * inner_product s b)
     = S ⊕ (C ⊕ (lincomb xs Ls ⊕ lincomb (sinv <$> xs) Rs)) ⊙ x_star) ∧
  t' = t1.
Proof. exact (linear_verify_spec self C_commit Gs F B b t t'). Qed.

(** C37: completeness of the linear proof.  On vectors of length [2^k],
    [k < 32], [create] gives a proof that [<a, b>] is the value in the
    commitment to [a], and [verify] accepts it and leaves its transcript in the
    state of the prover's, unless a round point is the identity or a round
    challenge is zero.  Vectors of another length, the empty ones included, are
    refused. *)
Theorem linear_proof_complete `{CycleLaws} `{Merlin} `{CryptoRngCore Rng} k t (rng : Rng) r
    (a b : list CScalar) Gs F B :
  let C := lincomb a Gs ⊕ B ⊙ r ⊕ F ⊙ inner_product a b in
  let '(res, t', _) := linear_create t rng (point_compress C) r a b Gs F B in
  ((k < 32)%nat → length a = (2 ^ k)%nat → length b = (2 ^ k)%nat → length Gs = (2 ^ k)%nat →
   ∃ proof, res = Ok proof ∧
     (Forall nonidentity (lp_L_vec proof ++ lp_R_vec proof) →
      Forall (λ x, x ≠ szero)
        (linear_proof_challenges proof (point_compress C) Gs F B b t).1.1 →
      linear_verify proof (point_compress C) Gs F B b t = (Ok (), t'))) ∧
  ((∀ j, length b ≠ 2 ^ j)%nat →
   res = Err ProofInvalidInputLength ∨ res = Err ProofInvalidGeneratorsLength).
Proof.
  intros C. destruct (linear_create _ _ _ _ _ _ _ _ _) as [[res t'] rng'] eqn:Hrun. split.
  - intros Hk Ha Hb HG.
    destruct (linear_create_spec k t rng C r a b Gs F B Ha Hb HG)
      as (proof & t1 & rng1 & Ls & Rs & S & Hcreate & HLs & HRs & HL & HR & HS & Hrest).
    rewrite Hrun in Hcreate. injection Hcreate as -> -> ->. exists proof. split; [done|].
    pose proof (linear_verify_spec proof (point_compress C) Gs F B b t t1) as Hspec.
    destruct (linear_proof_challenges _ _ _ _ _ _ _) as [[xs x_star] t2].
    destruct Hrest as [-> Heq]. cbn [fst]. intros Hid Hnz.
    apply Hspec; [rewrite HL, HR; lengths|done|]. unfold linear_shape.
    rewrite HL, HR, HS in *. apply Forall_app in Hid as [HidL HidR]. rewrite length_fmap, HLs.
    split; [split; [done|]; split; [done|]|split; [congruence|]; split; [|done]].
    + rewrite Forall_forall in HidL, HidR. apply Forall_forall. intros [L R] Hin.
      split; [apply HidL|apply HidR]; [by eapply elem_of_zip_l|by eapply elem_of_zip_r].
    + exists Ls, Rs, S, C. rewrite !decompress_all_compress, !decompress_compress.
      do 4 (split; [done|]). by apply Heq.
  - intros Hlen. unfold linear_create in Hrun. repeat case_match; simplify_eq; try (by auto).
    exfalso. match goal with H : negb (is_power_of_two _) = false |- _ =>
      apply negb_false_iff, is_power_of_two_spec in H as [j Hj] end. by apply (Hlen j).
Qed.

(** ** Witnesses

    Two rounds over the test cycle. *)
Definition tiny_linear : LinearProof (CY:=TinyCycle) :=
  MkLinearProof (CY:=TinyCycle) [x4b; x4e] [x1f; x1e] x2d (tiny 2) (tiny 87).

Lemma tiny_linear_create :
  linear_create (CY:=TinyCycle) (ME:=ToyMerlin) (Rng:=Z) 7%Z 3%Z x0d (tiny 6) tiny_a tiny_b tiny_G
    (tiny 31) (tiny 29) = (Ok tiny_linear, 8282%Z, 1035215989%Z).
Proof. vm_refl. Qed.
Lemma tiny_linear_challenges :
  linear_proof_challenges (CY:=TinyCycle) (ME:=ToyMerlin) tiny_linear x0d tiny_G (tiny 31) (tiny 29)
    tiny_b 7%Z = ([tiny 47; tiny 76], tiny 27, 8282%Z).
Proof. vm_refl. Qed.
Lemma tiny_linear_nonzero : Forall (λ u, u ≠ szero) [tiny 47; tiny 76].
Proof. apply (bool_decide_unpack _). vm_compute. exact I. Qed.

Lemma linear_proof_complete_witness :
  linear_verify (CY:=TinyCycle) (ME:=ToyMerlin) tiny_linear x0d tiny_G (tiny 31) (tiny 29) tiny_b 7%Z
  = (Ok (), 8282%Z).
Proof.
  pose proof (linear_proof_complete (H:=TinyCycle) (H1:=ToyMerlin) (Rng:=Z) 2 7%Z 3%Z (tiny 6) tiny_a
    tiny_b tiny_G (tiny 31) (tiny 29)) as Hc. cbv zeta in Hc.
  match type of Hc with context [linear_create _ _ (point_compress ?C)] =>
    replace (point_compress C) with x0d in Hc by vm_refl end.
  rewrite tiny_linear_create in Hc. destruct Hc as [Hc _].
  destruct Hc as (proof & [= <-] & Hv); [lia|reflexivity..|].
  apply Hv.
  - apply (bool_decide_unpack _). vm_compute. exact I.
  - rewrite tiny_linear_challenges. exact tiny_linear_nonzero.
Defined.

Lemma linear_verify_textbook_witness :
  ∃ Ls Rs S C, decompress_all (H:=TinyCycle) [x4b; x4e] = Ok Ls ∧
    decompress_all (H:=TinyCycle) [x1f; x1e] = Ok Rs ∧
    let s := bit_products (CY:=TinyCycle) 1 [tiny 47; tiny 76] in
    lincomb s tiny_G ⊙ tiny 2 ⊕ tiny 29 ⊙ tiny 87 ⊕ tiny 31 ⊙ (tiny 2 * inner_product s tiny_b)
    = S ⊕ (C ⊕ (lincomb [tiny 47; tiny 76] Ls ⊕ lincomb (sinv <$> [tiny 47; tiny 76]) Rs)) ⊙ tiny 27.
Proof.
  pose proof (linear_verify_textbook (H:=TinyCycle) (H1:=ToyMerlin) tiny_linear x0d tiny_G (tiny 31)
    (tiny 29) tiny_b 7%Z 8282%Z eq_refl) as Hc.
  rewrite tiny_linear_challenges in Hc.
  destruct (proj1 (Hc tiny_linear_nonzero)) as (_ & _ & (Ls & Rs & S & C & HL & HR & _ & _ & Heq) & _).
  - vm_refl.
  - exists Ls, Rs, S, C. split; [exact HL|]. split; [exact HR|]. exact Heq.
Defined.

(** The empty vectors are refused, a wrong public vector does not verify. *)
Example tiny_linear_empty :
  (linear_create (CY:=TinyCycle) (ME:=ToyMerlin) (Rng:=Z) 7%Z 3%Z x0d (tiny 6) [] [] []
     (tiny 31) (tiny 29)).1.1 = Err ProofInvalidInputLength.
Proof. vm_refl. Qed.
Example tiny_linear_wrong_public :
  (linear_verify (CY:=TinyCycle) (ME:=ToyMerlin) tiny_linear x0d tiny_G (tiny 31) (tiny 29)
     (reverse tiny_b) 7%Z).1 = Err ProofVerificationError.
Proof. vm_refl. Qed.
