(* ===== verification/Generators.v ===== *)
(** * Generators (bulletproofs-cycle/generators.rs)

    Pedersen generators, the chain of independent generators under a label, the
    process-wide cache of its prefixes, and the generator sets built from it.
    The cache is shared between threads: [derive] is modelled once as a function
    and once as a step relation that interleaves the callers. *)

From Stdlib Require Import ZArith Lia Strings.Byte.
From stdpp Require Import prelude strings functions.
From S2P Require Import Prelude CoreError Group Algebra TestSupport Cycle.

Local Open Scope golden_scope.

(** SHAKE256: the output stream of everything passed to [update]. *)
Class Shake256 := { shake256 : list byte → nat → byte }.

Section pedersen.
Context `{Cycle}.

Record PedersenGens := MkPedersenGens { pc_B : CPoint; pc_B_blinding : CPoint }.

Definition pc_commit (self : PedersenGens) (value blinding : CScalar) : CPoint :=
  vartime_msm [value; blinding] [pc_B self; pc_B_blinding self].

(** [impl Default for PedersenGens]: the first 64 bytes of the stream. *)
Definition pedersen_default `{Shake256} : PedersenGens :=
  let B := cpoint_generator in
  let B_compressed := point_compress B in
  let B_bytes := compressed_as_bytes B_compressed in
  let stream := shake256 (bstr "bulletproofs-cycle/pedersen-blinding" ++ B_bytes) in
  let uniform := stream <$> seq 0 64 in
  let B_blinding := point_hash_from_uniform uniform in
  MkPedersenGens B B_blinding.
End pedersen.

(** ** The chain *)
Section chain.
Context `{Shake256}.

(** [Shake256Reader]: the absorbed bytes and the position in the output. *)
Record GeneratorsChain := MkGeneratorsChain { gc_absorbed : list byte; gc_position : nat }.

Definition GeneratorsChain_new (label : list byte) : GeneratorsChain :=
  MkGeneratorsChain (bstr "GeneratorsChain" ++ label) 0.
Definition gc_read (n : nat) (self : GeneratorsChain) : list byte * GeneratorsChain :=
  (shake256 (gc_absorbed self) <$> seq (gc_position self) n,
   MkGeneratorsChain (gc_absorbed self) (gc_position self + n)).
Fixpoint fast_forward (self : GeneratorsChain) (n : nat) : GeneratorsChain :=
  match n with
  | O => self
  | S n => fast_forward (gc_read 64 self).2 n
  end.
Definition GeneratorsChain_next (self : GeneratorsChain) : list byte * GeneratorsChain :=
  gc_read 64 self.
(** [take(n).collect()]. *)
Fixpoint gc_take (n : nat) (self : GeneratorsChain) : list (list byte) :=
  match n with
  | O => []
  | S n => let '(uniform, self) := GeneratorsChain_next self in uniform :: gc_take n self
  end.
End chain.

(** ** The cache *)
Section cache.
Context `{Cycle} `{Shake256}.

Definition div_ceil (a b : nat) : nat := Nat.div (a + b - 1) b.
Definition MAX_HASH_CHUNK_SIZE : nat := 64.
Definition hash_chunk_size (current_num_threads count : nat) : nat :=
  let threads := Nat.max current_num_threads 1 in
  Nat.min (Nat.max (div_ceil count (4 * threads)) 1) MAX_HASH_CHUNK_SIZE.

(** [par_chunks(size)], for a positive [size]: an empty slice has no chunks. *)
Fixpoint chunks {A} (fuel size : nat) (l : list A) : list (list A) :=
  match fuel, l with
  | O, _ | _, [] => []
  | S fuel, _ => take size l :: chunks fuel size (drop size l)
  end.

(** The entries of one [Cycle] type, by label. *)
Definition GeneratorCache : Type := list byte → option (list CAffine).
Definition cache_empty : GeneratorCache := λ _, None.

Definition cache_get (label : list byte) (cache : GeneratorCache) : list CAffine :=
  default [] (cache label).

(** The part of a pass that runs without the lock. *)
Definition derive_extended (threads : nat) (label : list byte) (capacity : nat)
    (have : list CAffine) : list CAffine :=
  let uniforms :=
    gc_take (capacity - length have)
      (fast_forward (GeneratorsChain_new label) (length have)) in
  let points :=
    mjoin (points_hash_from_uniform
             <$> chunks (length uniforms) (hash_chunk_size threads (length uniforms)) uniforms) in
  have ++ batch_normalize points.

(** The part at the end, under the lock: the entry is replaced only when it has
    not changed its length. *)
Definition cache_store (label : list byte) (have extended : list CAffine)
    (cache : GeneratorCache) : GeneratorCache :=
  let slot := default [] (cache label) in
  if Nat.eqb (length slot) (length have) then <[label := Some extended]> cache
  else <[label := Some slot]> cache.

(** [derive], with fuel for its loop. *)
Fixpoint derive (fuel threads : nat) (label : list byte) (capacity : nat) (cache : GeneratorCache)
    : option (list CAffine * GeneratorCache) :=
  match fuel with
  | O => None
  | S fuel =>
      let have := cache_get label cache in
      if Nat.leb capacity (length have) then Some (have, cache)
      else
        let extended := derive_extended threads label capacity have in
        derive fuel threads label capacity (cache_store label have extended cache)
  end.

(** Calls of [derive] on several threads.  A pass is two critical sections: the
    one that reads the entry and the one that stores the extension. *)
Inductive DeriveCall : Type :=
  | AtLoop (label : list byte) (capacity : nat)
  | Deriving (label : list byte) (capacity : nat) (have : list CAffine)
  | Returned (label : list byte) (capacity : nat) (result : list CAffine).

Definition CacheWorld : Type := GeneratorCache * list DeriveCall.

Inductive cache_step (threads : nat) : CacheWorld → CacheWorld → Prop :=
  | step_call cache calls label capacity :
      cache_step threads (cache, calls) (cache, calls ++ [AtLoop label capacity])
  | step_return cache calls i label capacity :
      calls !! i = Some (AtLoop label capacity) →
      (capacity ≤ length (cache_get label cache))%nat →
      cache_step threads (cache, calls)
        (cache, <[i := Returned label capacity (cache_get label cache)]> calls)
  | step_miss cache calls i label capacity :
      calls !! i = Some (AtLoop label capacity) →
      (length (cache_get label cache) < capacity)%nat →
      cache_step threads (cache, calls)
        (cache, <[i := Deriving label capacity (cache_get label cache)]> calls)
  | step_store cache calls i label capacity have :
      calls !! i = Some (Deriving label capacity have) →
      cache_step threads (cache, calls)
        (cache_store label have (derive_extended threads label capacity have) cache,
         <[i := AtLoop label capacity]> calls)
  | step_clear cache calls :
      cache_step threads (cache, calls) (cache_empty, calls).

(** ** Generator sets *)
Record BulletproofGens := MkBulletproofGens {
  gens_capacity : nat;
  party_capacity : nat;
  G_vec : list (list CAffine);
  H_vec : list (list CAffine);
}.

(** [b'G'] or [b'H'] and the little-endian bytes of [i as u32]. *)
Definition party_label (prefix : byte) (i : nat) : list byte :=
  prefix :: reverse (to_be_bytes 4 (Z.of_nat i)).

(** The body of the loop over the parties; the cache makes two passes enough. *)
Definition increase_party (threads new_capacity : nat)
    (st : option (BulletproofGens * GeneratorCache)) (i : nat)
    : option (BulletproofGens * GeneratorCache) :=
  '(self, cache) ← st;
  '(g, cache) ← derive 2 threads (party_label x47 i) new_capacity cache;
  '(h, cache) ← derive 2 threads (party_label x48 i) new_capacity cache;
  Some (MkBulletproofGens (gens_capacity self) (party_capacity self) (<[i := g]> (G_vec self))
          (<[i := h]> (H_vec self)), cache).

Definition increase_capacity (threads : nat) (self : BulletproofGens) (new_capacity : nat)
    (cache : GeneratorCache) : option (BulletproofGens * GeneratorCache) :=
  if Nat.leb new_capacity (gens_capacity self) then Some (self, cache)
  else
    '(self, cache) ←
      foldl (increase_party threads new_capacity) (Some (self, cache)) (seq 0 (party_capacity self));
    Some (MkBulletproofGens new_capacity (party_capacity self) (G_vec self) (H_vec self), cache).

Definition BulletproofGens_new (threads gens_capacity party_capacity : nat)
    (cache : GeneratorCache) : option (BulletproofGens * GeneratorCache) :=
  let gens :=
    MkBulletproofGens 0 party_capacity (replicate party_capacity []) (replicate party_capacity []) in
  increase_capacity threads gens gens_capacity cache.

(** [share(j)] with [G(n)], [H(n)], [shared_G] and [shared_H]; [None] when the
    party does not exist, where the code panics. *)
Definition shared_G (self : BulletproofGens) (share : nat) : option (list CAffine) :=
  G_vec self !! share.
Definition shared_H (self : BulletproofGens) (share : nat) : option (list CAffine) :=
  H_vec self !! share.
Definition share_G (self : BulletproofGens) (share n : nat) : option (list CAffine) :=
  take n <$> shared_G self share.
Definition share_H (self : BulletproofGens) (share n : nat) : option (list CAffine) :=
  take n <$> shared_H self share.

(** [validate], of the deserializer, for [usize] of 64 bits. *)
Definition gens_validate (parties : list (list CAffine)) (gens_capacity party_capacity : nat) : bool :=
  (Z.of_nat gens_capacity * Z.of_nat party_capacity <? 2 ^ 64)%Z
  && negb (negb (Nat.eqb (length parties) party_capacity)
           || existsb (λ party : list CAffine, negb (Nat.eqb (length party) gens_capacity)) parties)
  && forallb (λ point, negb (compressed_is_identity (affine_compress point))) (mjoin parties).

Definition gens_from_repr (repr : BulletproofGens) : option BulletproofGens :=
  if (gens_validate (G_vec repr) (gens_capacity repr) (party_capacity repr)
      && gens_validate (H_vec repr) (gens_capacity repr) (party_capacity repr))%bool
  then Some repr else None.
End cache.

(** ** The chain, point by point *)
Section chain_lemmas.
Context {CY : Cycle} {CL : CycleLaws} {X : Shake256}.

(** The documented contract of an override of [points_hash_from_uniform]. *)
Class CycleHash : Prop := {
  points_hash_spec bytes : points_hash_from_uniform bytes = default_points_hash_from_uniform bytes;
}.
Context {CH : CycleHash}.

(** The [j]-th generator of a label. *)
Definition chain_uniform (label : list byte) (j : nat) : list byte :=
  shake256 (bstr "GeneratorsChain" ++ label) <$> seq (64 * j) 64.
Definition generator (label : list byte) (j : nat) : CAffine :=
  point_to_affine (point_hash_from_uniform (chain_uniform label j)).
Definition generators (label : list byte) (n : nat) : list CAffine :=
  generator label <$> seq 0 n.

Lemma length_generators label n : length (generators label n) = n.
Proof. unfold generators. by rewrite length_fmap, length_seq. Qed.

Lemma take_generators label m n :
  (m ≤ n)%nat → take m (generators label n) = generators label m.
Proof. intros. unfold generators. rewrite <-fmap_take, take_seq. f_equal. f_equal. lia. Qed.

Lemma fast_forward_position self n :
  fast_forward self n = MkGeneratorsChain (gc_absorbed self) (gc_position self + 64 * n).
Proof.
  revert self. induction n as [|n IH]; intros [seed pos].
  - cbn. f_equal. lia.
  - cbn [fast_forward]. rewrite IH. cbn. f_equal. lia.
Qed.

Lemma gc_take_uniforms label j n :
  gc_take n (MkGeneratorsChain (bstr "GeneratorsChain" ++ label) (64 * j))
  = chain_uniform label <$> seq j n.
Proof.
  revert j. induction n as [|n IH]; intros j; [done|]. cbn [gc_take seq fmap list_fmap].
  unfold GeneratorsChain_next, gc_read. cbn [gc_absorbed gc_position]. f_equal.
  rewrite <-IH. do 2 f_equal. lia.
Qed.

Lemma mjoin_chunks {A B} (f : A → B) fuel size (l : list A) :
  (0 < size)%nat → (length l ≤ fuel)%nat →
  mjoin (fmap (M:=list) f <$> chunks fuel size l) = f <$> l.
Proof.
  intros Hs. revert l. induction fuel as [|fuel IH]; intros l Hl; [by destruct l; simpl in Hl; [|lia]|].
  destruct l as [|x l]; [done|]. cbn [chunks]. rewrite fmap_cons. cbn [mjoin list_join].
  rewrite IH by (rewrite length_drop; simpl in *; lia).
  rewrite <-fmap_app, take_drop. done.
Qed.

Lemma derive_extended_spec threads label capacity have :
  have = generators label (length have) → (length have ≤ capacity)%nat →
  derive_extended threads label capacity have = generators label capacity.
Proof.
  intros Hhave Hlen. unfold derive_extended, GeneratorsChain_new.
  rewrite fast_forward_position. cbn [gc_absorbed gc_position Nat.add].
  rewrite gc_take_uniforms, batch_normalize_spec.
  assert (Hpts : ∀ css : list (list (list byte)), points_hash_from_uniform <$> css
    = fmap (M:=list) point_hash_from_uniform <$> css).
  { intros css. apply list_fmap_ext. intros. apply points_hash_spec. }
  rewrite Hpts, mjoin_chunks; [|unfold hash_chunk_size, MAX_HASH_CHUNK_SIZE; lia|done].
  rewrite Hhave at 1. unfold generators. rewrite <-!list_fmap_compose.
  replace capacity with (length have + (capacity - length have))%nat at 2 by lia.
  rewrite seq_app, fmap_app. done.
Qed.

(** ** The cache holds prefixes of the chains *)
Definition cache_ok (cache : GeneratorCache) : Prop :=
  ∀ label, cache_get label cache = generators label (length (cache_get label cache)).

Lemma cache_empty_ok : cache_ok cache_empty.
Proof. done. Qed.

Lemma cache_get_store label label' have extended cache :
  cache_get label' (cache_store label have extended cache)
  = if decide (label = label' ∧ length (cache_get label cache) = length have)
    then extended else cache_get label' cache.
Proof.
  unfold cache_store, cache_get. destruct (Nat.eqb_spec (length (default [] (cache label))) (length have));
    unfold insert, fn_insert; destruct (decide (label = label')) as [->|]; case_decide; naive_solver.
Qed.

Lemma cache_store_ok threads label capacity have cache :
  cache_ok cache → have = generators label (length have) → (length have ≤ capacity)%nat →
  cache_ok (cache_store label have (derive_extended threads label capacity have) cache).
Proof.
  intros Hc Hh Hl label'. rewrite cache_get_store. case_decide as Hd; [|apply Hc].
  destruct Hd as [<- _]. rewrite derive_extended_spec by done. by rewrite length_generators.
Qed.

Lemma derive_spec threads label capacity cache fuel :
  cache_ok cache → (2 ≤ fuel)%nat →
  ∃ n cache', derive fuel threads label capacity cache = Some (generators label n, cache') ∧
    (capacity ≤ n)%nat ∧ cache_ok cache'.
Proof.
  intros Hc Hf. destruct fuel as [|[|fuel]]; [lia..|]. cbn [derive].
  destruct (Nat.leb_spec capacity (length (cache_get label cache))) as [Hle|Hlt].
  { eexists _, _. rewrite <-Hc. done. }
  rewrite cache_get_store, decide_True by done.
  rewrite derive_extended_spec by (done || lia).
  rewrite length_generators, (proj2 (Nat.leb_le _ _)) by lia.
  eexists _, _. split; [done|]. split; [done|].
  rewrite <-(derive_extended_spec threads label capacity (cache_get label cache)) by (done || lia).
  by apply cache_store_ok; [|done|lia].
Qed.

Definition call_ok (call : DeriveCall) : Prop :=
  match call with
  | AtLoop _ _ => True
  | Deriving label capacity have =>
      have = generators label (length have) ∧ (length have < capacity)%nat
  | Returned label capacity result =>
      result = generators label (length result) ∧ (capacity ≤ length result)%nat
  end.

Lemma cache_step_ok threads w w' :
  cache_step threads w w' → cache_ok w.1 ∧ Forall call_ok w.2 → cache_ok w'.1 ∧ Forall call_ok w'.2.
Proof.
  intros Hstep [Hc Hcalls]. destruct Hstep as
    [cache calls label capacity|cache calls i label capacity Hi Hle|cache calls i label capacity Hi Hlt
    |cache calls i label capacity have Hi|cache calls]; cbn [fst snd] in *.
  - split; [done|]. apply Forall_app. by split; [|apply Forall_singleton].
  - split; [done|]. apply Forall_insert; [done|]. cbn. by rewrite <-Hc.
  - split; [done|]. apply Forall_insert; [done|]. cbn. by rewrite <-Hc.
  - destruct (proj1 (Forall_lookup _ _) Hcalls _ _ Hi) as [Hh Hl].
    split; [|by apply Forall_insert]. apply cache_store_ok; [done|done|lia].
  - split; [apply cache_empty_ok|done].
Qed.

(** ** Generator sets *)
Definition party_gens (new_capacity : nat) (prefix : byte) (vecs : list (list CAffine)) (i : nat)
    : Prop :=
  ∃ n, (new_capacity ≤ n)%nat ∧ vecs !! i = Some (generators (party_label prefix i) n).

Lemma increase_party_loop threads new_capacity self cache k :
  cache_ok cache → length (G_vec self) = party_capacity self →
  length (H_vec self) = party_capacity self → (k ≤ party_capacity self)%nat →
  ∃ self' cache', foldl (increase_party threads new_capacity) (Some (self, cache)) (seq 0 k)
      = Some (self', cache') ∧ cache_ok cache' ∧
    party_capacity self' = party_capacity self ∧ length (G_vec self') = party_capacity self ∧
    length (H_vec self') = party_capacity self ∧
    ∀ i, (i < k)%nat → party_gens new_capacity x47 (G_vec self') i ∧
                       party_gens new_capacity x48 (H_vec self') i.
Proof.
  intros Hc HG HH. induction k as [|k IH]; intros Hk.
  { exists self, cache. repeat (split; [done|]). intros; lia. }
  destruct IH as (self1 & cache1 & Hrun & Hc1 & Hp & HG1 & HH1 & Hgens); [lia|].
  rewrite seq_S, foldl_app, Hrun. cbn [foldl Nat.add]. unfold increase_party. cbn [mbind option_bind].
  destruct (derive_spec threads (party_label x47 k) new_capacity cache1 2) as (n & c2 & -> & Hn & Hc2);
    [done|lia|]. cbn [mbind option_bind].
  destruct (derive_spec threads (party_label x48 k) new_capacity c2 2) as (m & c3 & -> & Hm & Hc3);
    [done|lia|]. cbn [mbind option_bind].
  eexists _, _. split; [done|]. split; [done|]. cbn [party_capacity G_vec H_vec].
  split; [done|]. rewrite !length_insert. split; [done|]. split; [done|].
  intros i Hi. unfold party_gens. destruct (decide (i = k)) as [->|Hne].
  - rewrite !list_lookup_insert_eq by lia. split; [by exists n|by exists m].
  - rewrite !list_lookup_insert_ne by done. apply Hgens. lia.
Qed.
Lemma gens_new_run threads capacity parties cache :
  cache_ok cache →
  ∃ gens cache', BulletproofGens_new threads capacity parties cache = Some (gens, cache') ∧
    cache_ok cache' ∧ gens_capacity gens = capacity ∧ party_capacity gens = parties ∧
    ∀ i, (i < parties)%nat →
      party_gens capacity x47 (G_vec gens) i ∧ party_gens capacity x48 (H_vec gens) i.
Proof.
  intros Hc. unfold BulletproofGens_new, increase_capacity. cbn [gens_capacity party_capacity].
  destruct (Nat.leb_spec capacity 0) as [Hz|Hz].
  { eexists _, _. split; [done|]. split; [done|]. assert (capacity = O) as -> by lia.
    split; [done|]. split; [done|]. intros i Hi. unfold party_gens. cbn [G_vec H_vec].
    rewrite lookup_replicate_2 by done. split; by exists O. }
  destruct (increase_party_loop threads capacity
    (MkBulletproofGens 0 parties (replicate parties []) (replicate parties [])) cache parties)
    as (self & cache' & -> & Hc' & Hp & HG & HH & Hgens);
    [done|apply length_replicate..|done|]. cbn [mbind option_bind].
  eexists _, _. split; [done|]. split; [done|]. split; [done|]. split; [done|]. exact Hgens.
Qed.
End chain_lemmas.

(** ** Properties *)

(** Threads that race for the generator cache.  Whatever the interleaving of
    calls, their passes, and resets of the cache, a call that has returned got at
    least as many generators as it asked for, and what it got is the beginning
    of the one sequence that belongs to the label; so any two calls with one
    label agree on their common prefix. *)
Theorem generator_cache_prefix `{CycleLaws} `{Shake256} `{!CycleHash} threads cache calls i j label
    capacity capacity' r r' :
  rtc (cache_step threads) (cache_empty, []) (cache, calls) →
  calls !! i = Some (Returned label capacity r) → calls !! j = Some (Returned label capacity' r') →
  (capacity ≤ length r)%nat ∧ r = generators label (length r) ∧
  (r `prefix_of` r' ∨ r' `prefix_of` r).
Proof.
  intros Hreach Hi Hj.
  assert (Hok : cache_ok cache ∧ Forall call_ok calls).
  { change (cache_ok (cache, calls).1 ∧ Forall call_ok (cache, calls).2).
    refine (rtc_ind_r (λ w, cache_ok w.1 ∧ Forall call_ok w.2) (cache_empty, []) _ _ _ Hreach).
    - split; [apply cache_empty_ok|constructor].
    - intros w w' _ Hstep Hw. by eapply cache_step_ok. }
  destruct Hok as [_ Hcalls]. rewrite Forall_lookup in Hcalls.
  destruct (Hcalls _ _ Hi) as [Hr Hcap], (Hcalls _ _ Hj) as [Hr' _].
  split; [done|]. split; [done|].
  destruct (Nat.le_ge_cases (length r) (length r')) as [Hl|Hl]; [left|right].
  - rewrite Hr, <-(take_generators label _ _ Hl), <-Hr'. apply prefix_take.
  - rewrite Hr', <-(take_generators label _ _ Hl), <-Hr. apply prefix_take.
Qed.

(** C40: [new] and the cache.  From a cache that holds prefixes of the chains, a
    generator set is built in two passes per label: every party has, for [G] and
    for [H], at least [gens_capacity] generators, the first ones of its own
    label, whatever the number of threads and the state of the cache. *)
Theorem bulletproof_gens_new_correct `{CycleLaws} `{Shake256} `{!CycleHash} threads capacity parties
    cache i :
  cache_ok cache → (i < parties)%nat →
  ∃ gens cache', BulletproofGens_new threads capacity parties cache = Some (gens, cache') ∧
    cache_ok cache' ∧ gens_capacity gens = capacity ∧ party_capacity gens = parties ∧
    share_G gens i capacity = Some (generators (party_label x47 i) capacity) ∧
    share_H gens i capacity = Some (generators (party_label x48 i) capacity).
Proof.
  intros Hc Hi. destruct (gens_new_run threads capacity parties cache Hc)
    as (gens & cache' & Hrun & Hc' & Hcap & Hp & Hgens).
  exists gens, cache'. do 4 (split; [done|]). destruct (Hgens i Hi) as [(n & Hn & HGi) (m & Hm & HHi)].
  unfold share_G, share_H, shared_G, shared_H. rewrite HGi, HHi. cbn. by rewrite !take_generators.
Qed.

(** ** Witnesses *)
#[export] Instance ToyShake : Shake256 := {|
  shake256 := λ seed i, default x00 (to_be_bytes 1 ((toy_sum seed 5 + 7 * Z.of_nat i) `mod` 251)%Z !! 0%nat);
|}.
#[export] Instance TinyCycle_hash : CycleHash (CY:=TinyCycle).
Proof. by split. Qed.

(** Two calls read the empty entry; the shorter one stores first, so the longer
    one finds a changed entry, does another pass, and extends it. *)
Definition race_label : list byte := party_label x47 0.
Definition race_have (n : nat) : list CAffine := generators (CY:=TinyCycle) race_label n.

Lemma race_reachable :
  ∃ cache, rtc (cache_step (H:=TinyCycle) 4) (cache_empty, [])
    (cache, [Returned race_label 2 (race_have 2); Returned race_label 3 (race_have 3)]).
Proof.
  eexists.
  eapply rtc_l; [apply (step_call _ _ [] race_label 2)|].
  eapply rtc_l; [apply (step_call _ _ _ race_label 3)|]. simpl app.
  eapply rtc_l; [apply (step_miss _ _ _ 0 race_label 2); [done|vm_compute; lia]|].
  eapply rtc_l; [apply (step_miss _ _ _ 1 race_label 3); [done|vm_compute; lia]|].
  eapply rtc_l; [apply (step_store _ _ _ 0 race_label 2); done|].
  eapply rtc_l; [apply (step_store _ _ _ 1 race_label 3); done|].
  eapply rtc_l; [apply (step_return _ _ _ 0 race_label 2); [done|vm_compute; lia]|].
  eapply rtc_l; [apply (step_miss _ _ _ 1 race_label 3); [done|vm_compute; lia]|].
  eapply rtc_l; [apply (step_store _ _ _ 1 race_label 3); done|].
  eapply rtc_l; [apply (step_return _ _ _ 1 race_label 3); [done|vm_compute; lia]|].
  match goal with |- rtc _ (?c, ?calls) _ =>
    replace calls with [Returned race_label 2 (race_have 2); Returned race_label 3 (race_have 3)]
      by vm_refl end.
  apply rtc_refl.
Qed.

Lemma generator_cache_prefix_witness :
  race_have 2 `prefix_of` race_have 3 ∨ race_have 3 `prefix_of` race_have 2.
Proof.
  destruct race_reachable as [cache Hr].
  exact (proj2 (proj2 (generator_cache_prefix (H:=TinyCycle) 4 _ _ 0 1 race_label 2 3 _ _ Hr
    eq_refl eq_refl))).
Defined.

Lemma bulletproof_gens_new_correct_witness :
  ∃ gens cache', BulletproofGens_new (H:=TinyCycle) 4 2 3 cache_empty = Some (gens, cache') ∧
    share_G gens 1 2 = Some (generators (CY:=TinyCycle) (party_label x47 1) 2).
Proof.
  destruct (bulletproof_gens_new_correct (H:=TinyCycle) 4 2 3 cache_empty 1)
    as (gens & cache' & Hnew & _ & _ & _ & HG & _).
  - exact (cache_empty_ok (CY:=TinyCycle)).
  - lia.
  - exists gens, cache'. by split.
Defined.
