(* ===== verification/ConstraintSystem.v ===== *)
(** * Constraint systems (bulletproofs-cycle/r1cs: linear_combination.rs,
    constraint_system.rs, metrics.rs)

    Variables, linear combinations and their operators, and the interface that
    prover and verifier share.  A circuit is a program over that interface. *)

From Stdlib Require Import ZArith Lia Field Strings.Byte.
From stdpp Require Import prelude strings.
From S2P Require Import Prelude CoreError Group Algebra TestSupport Cycle BpUtil.

Local Open Scope golden_scope.

(** ** Panics

    [None]: the code panics, which here means an index out of range. *)
Definition outcome (E A : Type) : Type := option (result E A).
#[export] Instance outcome_ret E : MRet (outcome E) := λ A a, Some (Ok a).
#[export] Instance outcome_bind E : MBind (outcome E) := λ A B f m,
  match m with
  | Some (Ok a) => f a
  | Some (Err e) => Some (Err e)
  | None => None
  end.
Definition no_panic {E A} (o : option A) : outcome E A := Ok <$> o.
Definition returns {E A} (m : result E A) : outcome E A := Some m.

Lemma outcome_bind_Ok {E A B} (m : outcome E A) (f : A → outcome E B) b :
  m ≫= f = Some (Ok b) ↔ ∃ a, m = Some (Ok a) ∧ f a = Some (Ok b).
Proof. destruct m as [[a|e]|]; cbn; naive_solver. Qed.
Lemma no_panic_Ok {E A} (o : option A) a : no_panic (E:=E) o = Some (Ok a) ↔ o = Some a.
Proof. destruct o; cbn; naive_solver. Qed.
Lemma no_panic_inv {E A} (o : option A) a : no_panic (E:=E) o = Some (Ok a) → o = Some a.
Proof. apply no_panic_Ok. Qed.
Lemma returns_Ok {E A} (m : result E A) a : returns m = Some (Ok a) ↔ m = Ok a.
Proof. unfold returns. naive_solver. Qed.

(** [&v[i..j]], [v[i] = x] and [v[i] += x]. *)
Definition slice {A} (i j : nat) (v : list A) : option (list A) :=
  if (Nat.leb i j && Nat.leb j (length v))%bool then Some (take (j - i) (drop i v)) else None.
Definition set_at {A} (i : nat) (x : A) (v : list A) : option (list A) :=
  match v !! i with Some _ => Some (<[i := x]> v) | None => None end.
Definition add_at {F} `{FieldOps F} (i : nat) (x : F) (v : list F) : option (list F) :=
  match v !! i with Some y => Some (<[i := y + x]> v) | None => None end.

(** ** Variables and linear combinations *)
Section linear_combination.
Context {F : Type} `{FieldOps F}.

(** [Variable] is its kind, tagged with a field. *)
Inductive CSVariable : Type :=
  | Committed (i : nat)
  | MultiplierLeft (i : nat)
  | MultiplierRight (i : nat)
  | MultiplierOutput (i : nat)
  | One.

#[export] Instance CSVariable_eq_dec : EqDecision CSVariable.
Proof. solve_decision. Defined.

(** [terms]. *)
Definition LinearCombination : Type := list (CSVariable * F).

Definition lc_from_variable (v : CSVariable) : LinearCombination := [(v, 1)].
Definition lc_from_scalar (s : F) : LinearCombination := [(One, s)].
Definition lc_default : LinearCombination := [].

Definition lc_add (self rhs : LinearCombination) : LinearCombination := self ++ rhs.
Definition lc_sub (self rhs : LinearCombination) : LinearCombination :=
  foldl (λ terms '(var, coeff), terms ++ [(var, - coeff)]) self rhs.
Definition lc_neg (self : LinearCombination) : LinearCombination :=
  (λ '(var, s), (var, - s)) <$> self.
Definition lc_mul (self : LinearCombination) (other : F) : LinearCombination :=
  (λ '(var, s), (var, s * other)) <$> self.

Definition var_neg (self : CSVariable) : LinearCombination := lc_neg (lc_from_variable self).
Definition var_add (self : CSVariable) (other : LinearCombination) : LinearCombination :=
  lc_add (lc_from_variable self) other.
Definition var_sub (self : CSVariable) (other : LinearCombination) : LinearCombination :=
  lc_sub (lc_from_variable self) other.
Definition var_mul (self : CSVariable) (other : F) : LinearCombination := [(self, other)].

Definition scaled_by_coefficient (factor coefficient : F) : F :=
  if bool_decide (coefficient = 1) then factor
  else if bool_decide (coefficient = - (1)) then - factor
  else factor * coefficient.

(** The value of a linear combination under an assignment. *)
Definition lc_value (assignment : CSVariable → F) (lc : LinearCombination) : F :=
  foldr (λ '(var, coeff) acc, coeff * assignment var + acc) 0 lc.
End linear_combination.
Arguments LinearCombination : clear implicits.

Section linear_combination_lemmas.
Context {F : Type} `{FieldLaws F}.
Add Field lc_field : (scalar_field_theory (F:=F)).
Implicit Types (a b : LinearCombination F) (σ : CSVariable → F).

Lemma lc_value_app σ a b : lc_value σ (a ++ b) = lc_value σ a + lc_value σ b.
Proof.
  induction a as [|[v c] a IH]; simpl; [ring|]. rewrite IH. ring.
Qed.
Lemma lc_value_add σ a b : lc_value σ (lc_add a b) = lc_value σ a + lc_value σ b.
Proof. apply lc_value_app. Qed.
Lemma lc_value_neg σ a : lc_value σ (lc_neg a) = - lc_value σ a.
Proof.
  induction a as [|[v c] a IH]; [simpl; ring|].
  change (- c * σ v + lc_value σ (lc_neg a) = - (c * σ v + lc_value σ a)). rewrite IH. ring.
Qed.
Lemma lc_value_mul σ a c : lc_value σ (lc_mul a c) = lc_value σ a * c.
Proof.
  induction a as [|[v d] a IH]; [simpl; ring|].
  change (d * c * σ v + lc_value σ (lc_mul a c) = (d * σ v + lc_value σ a) * c). rewrite IH. ring.
Qed.
Lemma lc_sub_add a b : lc_sub a b = lc_add a (lc_neg b).
Proof.
  unfold lc_sub, lc_add, lc_neg. revert a.
  induction b as [|[v c] b IH]; intros a; csimpl; [by rewrite app_nil_r|].
  by rewrite IH, <-app_assoc.
Qed.
Lemma lc_value_sub σ a b : lc_value σ (lc_sub a b) = lc_value σ a - lc_value σ b.
Proof. rewrite lc_sub_add, lc_value_add, lc_value_neg. ring. Qed.
Lemma lc_value_variable σ v : lc_value σ (lc_from_variable v) = σ v.
Proof. simpl. ring. Qed.
Lemma lc_value_scalar σ s : lc_value σ (lc_from_scalar s) = s * σ One.
Proof. simpl. ring. Qed.

Lemma scaled_by_coefficient_spec (factor coefficient : F) :
  scaled_by_coefficient factor coefficient = factor * coefficient.
Proof.
  unfold scaled_by_coefficient. repeat case_bool_decide; subst; ring.
Qed.
End linear_combination_lemmas.

(** ** The interface *)
Record Metrics := MkMetrics {
  multipliers : nat;
  constraints : nat;
  phase_one_constraints : nat;
  phase_two_constraints : nat;
}.

Section interface.
Context `{Cycle} `{Merlin}.

(** [trait ConstraintSystem]; [transcript] lends the transcript to a function of
    the caller.  The methods that index the caller's variables may panic. *)
Class ConstraintSystem (St : Type) := {
  cs_transcript : ∀ {X : Type}, (Transcript → X * Transcript) → St → X * St;
  cs_multiply :
    LinearCombination CScalar → LinearCombination CScalar → St →
    option ((CSVariable * CSVariable * CSVariable) * St);
  cs_allocate : option CScalar → St → option (result R1CSError CSVariable * St);
  cs_allocate_multiplier :
    option (CScalar * CScalar) → St →
    result R1CSError (CSVariable * CSVariable * CSVariable) * St;
  cs_metrics : St → Metrics;
  cs_constrain : LinearCombination CScalar → St → St;
}.

(** A program over the interface: what the code that builds a constraint system,
    generic in the trait, can do with it. *)
Inductive circuit (A : Type) : Type :=
  | Done (a : A)
  | WithTranscript (X : Type) (f : Transcript → X * Transcript) (k : X → circuit A)
  | Multiply (left_ right_ : LinearCombination CScalar)
      (k : CSVariable * CSVariable * CSVariable → circuit A)
  | Allocate (assignment : option CScalar) (k : result R1CSError CSVariable → circuit A)
  | AllocateMultiplier (input_assignments : option (CScalar * CScalar))
      (k : result R1CSError (CSVariable * CSVariable * CSVariable) → circuit A)
  | ReadMetrics (k : Metrics → circuit A)
  | Constrain (lc : LinearCombination CScalar) (k : circuit A).

Fixpoint run_circuit {St A} `{ConstraintSystem St} (c : circuit A) (st : St) : option (A * St) :=
  match c with
  | Done _ a => Some (a, st)
  | WithTranscript _ X f k => let '(x, st) := cs_transcript f st in run_circuit (k x) st
  | Multiply _ left_ right_ k => '(vars, st) ← cs_multiply left_ right_ st; run_circuit (k vars) st
  | Allocate _ assignment k => '(v, st) ← cs_allocate assignment st; run_circuit (k v) st
  | AllocateMultiplier _ input_assignments k =>
      let '(vars, st) := cs_allocate_multiplier input_assignments st in run_circuit (k vars) st
  | ReadMetrics _ k => run_circuit (k (cs_metrics st)) st
  | Constrain _ lc k => run_circuit k (cs_constrain lc st)
  end.

(** The circuit of a prover and that of a verifier: the same calls, the prover
    with an assignment for every allocated variable. *)
Inductive same_circuit {A : Type} : circuit A → circuit A → Prop :=
  | same_done a : same_circuit (Done _ a) (Done _ a)
  | same_transcript X (f : Transcript → X * Transcript) k k' :
      (∀ x, same_circuit (k x) (k' x)) →
      same_circuit (WithTranscript _ X f k) (WithTranscript _ X f k')
  | same_multiply left_ right_ k k' :
      (∀ vars, same_circuit (k vars) (k' vars)) →
      same_circuit (Multiply _ left_ right_ k) (Multiply _ left_ right_ k')
  | same_allocate w o k k' :
      (∀ v, same_circuit (k (Ok v)) (k' (Ok v))) →
      same_circuit (Allocate _ (Some w) k) (Allocate _ o k')
  | same_allocate_multiplier lr o k k' :
      (∀ vars, same_circuit (k (Ok vars)) (k' (Ok vars))) →
      same_circuit (AllocateMultiplier _ (Some lr) k) (AllocateMultiplier _ o k')
  | same_metrics k k' :
      (∀ m, same_circuit (k m) (k' m)) → same_circuit (ReadMetrics _ k) (ReadMetrics _ k')
  | same_constrain lc k k' :
      same_circuit k k' → same_circuit (Constrain _ lc k) (Constrain _ lc k').
End interface.
Arguments Done {_ _ _} _.
Arguments WithTranscript {_ _ _ _} _ _.
Arguments Multiply {_ _ _} _ _ _.
Arguments Allocate {_ _ _} _ _.
Arguments AllocateMultiplier {_ _ _} _ _.
Arguments ReadMetrics {_ _ _} _.
Arguments Constrain {_ _ _} _ _.
