(* ===== verification/R1csProof.v ===== *)
(** * Proof encodings (bulletproofs-cycle: r1cs/proof.rs, and the byte formats of
    inner_product_proof.rs and linear_proof.rs)

    The R1CS proof with its encoding, and what the three decoders accept. *)

From Stdlib Require Import ZArith Lia Strings.Byte.
From stdpp Require Import prelude strings.
From S2P Require Import Prelude CoreError Group Algebra TestSupport Cycle BpUtil InnerProduct LinearProof.

Local Open Scope golden_scope.

Section model.
Context `{Cycle}.

Definition ONE_PHASE_COMMITMENTS : byte := x00.
Definition TWO_PHASE_COMMITMENTS : byte := x01.

Record R1CSProof := MkR1CSProof {
  A_I1 : Compressed;
  A_O1 : Compressed;
  S1 : Compressed;
  A_I2 : Compressed;
  A_O2 : Compressed;
  S2 : Compressed;
  T_1 : Compressed;
  T_3 : Compressed;
  T_4 : Compressed;
  T_5 : Compressed;
  T_6 : Compressed;
  t_x : CScalar;
  t_x_blinding : CScalar;
  e_blinding : CScalar;
  ipp_proof : InnerProductProof;
}.

Definition single_phase_wire_len (lg_n : nat) : nat :=
  let VERSION_TAG_BYTES := 1%nat in
  let ONE_PHASE_POINTS := (3 + 5)%nat in
  let SCALARS := 3%nat in
  let SCALAR_BYTES := 32%nat in
  (VERSION_TAG_BYTES + ONE_PHASE_POINTS * COMPRESSED_BYTES + SCALARS * SCALAR_BYTES
   + serialized_size_for_rounds lg_n)%nat.

Definition missing_phase2_commitments (self : R1CSProof) : bool :=
  compressed_is_identity (A_I2 self) && compressed_is_identity (A_O2 self)
  && compressed_is_identity (S2 self).

(** [for p in points { buf.extend_from_slice(compressed_as_bytes(p)) }]. *)
Definition extend_points (buf : list byte) (points : list Compressed) : list byte :=
  foldl (λ buf p, buf ++ compressed_as_bytes p) buf points.

Definition r1cs_to_bytes (self : R1CSProof) : list byte :=
  let buf :=
    if missing_phase2_commitments self then
      extend_points [ONE_PHASE_COMMITMENTS] [A_I1 self; A_O1 self; S1 self]
    else
      extend_points [TWO_PHASE_COMMITMENTS]
        [A_I1 self; A_O1 self; S1 self; A_I2 self; A_O2 self; S2 self] in
  let buf := extend_points buf [T_1 self; T_3 self; T_4 self; T_5 self; T_6 self] in
  let buf := buf ++ scalar_to_canonical (t_x self) in
  let buf := buf ++ scalar_to_canonical (t_x_blinding self) in
  let buf := buf ++ scalar_to_canonical (e_blinding self) in
  buf ++ ipp_to_bytes (ipp_proof self).

(** The closure [next_point]. *)
Definition next_point (s : list byte) : Compressed * list byte :=
  (compressed_from_bytes (take COMPRESSED_BYTES s), drop COMPRESSED_BYTES s).

Definition r1cs_from_bytes (slice : list byte) : result R1CSError R1CSProof :=
  match slice with
  | [] => Err R1CSFormatError
  | version :: slice =>
      '(phase1_points, has_phase2) ←
        (if Byte.eqb version ONE_PHASE_COMMITMENTS then Ok (3%nat, false)
         else if Byte.eqb version TWO_PHASE_COMMITMENTS then Ok (6%nat, true)
         else Err R1CSFormatError);
      let points_needed := (phase1_points + 5)%nat in
      let scalar_bytes := (3 * 32)%nat in
      let min_body := (points_needed * COMPRESSED_BYTES + scalar_bytes)%nat in
      if Nat.ltb (length slice) min_body then Err R1CSFormatError
      else
        let '(A_I1, slice) := next_point slice in
        let '(A_O1, slice) := next_point slice in
        let '(S1, slice) := next_point slice in
        let '(A_I2, A_O2, S2, slice) :=
          if (has_phase2 : bool) then
            let '(A_I2, slice) := next_point slice in
            let '(A_O2, slice) := next_point slice in
            let '(S2, slice) := next_point slice in
            (A_I2, A_O2, S2, slice)
          else (compressed_identity, compressed_identity, compressed_identity, slice) in
        let '(T_1, slice) := next_point slice in
        let '(T_3, slice) := next_point slice in
        let '(T_4, slice) := next_point slice in
        let '(T_5, slice) := next_point slice in
        let '(T_6, slice) := next_point slice in
        t_x ← ok_or R1CSFormatError (scalar_from_canonical (read32 slice));
        t_x_blinding ← ok_or R1CSFormatError (scalar_from_canonical (read32 (drop 32 slice)));
        e_blinding ← ok_or R1CSFormatError (scalar_from_canonical (read32 (drop 64 slice)));
        let slice := drop 96 slice in
        ipp_proof ← map_err (λ _, R1CSFormatError) (ipp_from_bytes slice);
        Ok (MkR1CSProof A_I1 A_O1 S1 A_I2 A_O2 S2 T_1 T_3 T_4 T_5 T_6 t_x t_x_blinding e_blinding
              ipp_proof)
  end.
End model.

(** ** The pairs of points *)
Section codec.
Context {CY : Cycle} {CC : CycleCodec}.

Lemma pair_bytes_snoc LRs l r :
  pair_bytes (LRs ++ [(l, r)]) = pair_bytes LRs ++ compressed_as_bytes l ++ compressed_as_bytes r.
Proof. unfold pair_bytes. rewrite foldl_app. simpl. by rewrite <-app_assoc. Qed.

Lemma length_pair_bytes LRs :
  length (pair_bytes LRs) = (2 * length LRs * COMPRESSED_BYTES)%nat.
Proof.
  induction LRs as [|[l r] LRs IH] using rev_ind; [done|].
  rewrite pair_bytes_snoc, !length_app, IH, !length_compressed. simpl. lia.
Qed.

Lemma read_pairs_S n cb slice :
  read_pairs (S n) cb slice
  = ((read_pairs n cb slice).1 ++ [compressed_from_bytes (subslice (2 * n * cb) (2 * n * cb + cb) slice)],
     (read_pairs n cb slice).2
       ++ [compressed_from_bytes (subslice (2 * n * cb + cb) (2 * n * cb + 2 * cb) slice)]).
Proof.
  unfold read_pairs. rewrite seq_S, foldl_app. cbn [foldl Nat.add]. by destruct (foldl _ _ _).
Qed.

Lemma length_read_pairs n cb slice :
  length (read_pairs n cb slice).1 = n ∧ length (read_pairs n cb slice).2 = n.
Proof.
  induction n as [|n [IH1 IH2]]; [done|]. rewrite read_pairs_S. cbn [fst snd].
  rewrite !length_app, IH1, IH2. simpl. lia.
Qed.

Lemma subslice_split {A} i j k (l : list A) :
  (i ≤ j)%nat → (j ≤ k)%nat → subslice i j l ++ subslice j k l = subslice i k l.
Proof.
  intros Hij Hjk. unfold subslice.
  assert (drop j l = drop (j - i) (drop i l)) as -> by (rewrite drop_drop; f_equal; lia).
  replace (k - i)%nat with ((j - i) + (k - j))%nat by lia. apply take_take_drop.
Qed.

Lemma length_subslice {A} i j (l : list A) :
  (i ≤ j)%nat → (j ≤ length l)%nat → length (subslice i j l) = (j - i)%nat.
Proof. intros. unfold subslice. rewrite length_take, length_drop. lia. Qed.

(** Reading pairs and writing them back gives the bytes that were read. *)
Lemma read_pairs_bytes n slice :
  (2 * n * COMPRESSED_BYTES ≤ length slice)%nat →
  pair_bytes (zip (read_pairs n COMPRESSED_BYTES slice).1 (read_pairs n COMPRESSED_BYTES slice).2)
  = take (2 * n * COMPRESSED_BYTES) slice.
Proof.
  induction n as [|n IH]; intros Hl; [done|].
  destruct (length_read_pairs n COMPRESSED_BYTES slice) as [H1 H2].
  rewrite read_pairs_S. cbn [fst snd]. rewrite zip_with_app by congruence.
  cbn [zip_with]. rewrite pair_bytes_snoc, IH by lia.
  rewrite !compressed_as_from_bytes by (rewrite length_subslice; lia).
  rewrite subslice_split by lia.
  change (take (2 * n * COMPRESSED_BYTES) slice) with
    (take (2 * n * COMPRESSED_BYTES) (drop 0 slice)).
  replace (2 * n * COMPRESSED_BYTES)%nat with (2 * n * COMPRESSED_BYTES - 0)%nat at 1 by lia.
  change (subslice 0 (2 * n * COMPRESSED_BYTES) slice
    ++ subslice (2 * n * COMPRESSED_BYTES) (2 * n * COMPRESSED_BYTES + 2 * COMPRESSED_BYTES) slice
    = take (2 * S n * COMPRESSED_BYTES) slice).
  rewrite subslice_split by lia. unfold subslice. rewrite drop_0. f_equal. lia.
Qed.

(** Writing pairs and reading them back. *)
Lemma read_pairs_pair_bytes LRs rest :
  read_pairs (length LRs) COMPRESSED_BYTES (pair_bytes LRs ++ rest) = (LRs.*1, LRs.*2).
Proof.
  revert rest. induction LRs as [|[l r] LRs IH] using rev_ind; intros rest; [done|].
  rewrite length_app. cbn [length]. rewrite Nat.add_1_r, read_pairs_S, pair_bytes_snoc.
  rewrite <-app_assoc, IH. cbn [fst snd]. rewrite !fmap_app. cbn [fmap list_fmap].
  pose proof (length_pair_bytes LRs) as Hp. pose proof (length_compressed l) as Hl.
  pose proof (length_compressed r) as Hr.
  unfold subslice. rewrite <-Hp. rewrite <-!app_assoc.
  replace (length (pair_bytes LRs) + COMPRESSED_BYTES - length (pair_bytes LRs))%nat
    with (length (compressed_as_bytes l)) by lia.
  replace (length (pair_bytes LRs) + 2 * COMPRESSED_BYTES
    - (length (pair_bytes LRs) + COMPRESSED_BYTES))%nat with (length (compressed_as_bytes r)) by lia.
  rewrite drop_app_length, take_app_length.
  replace (length (pair_bytes LRs) + COMPRESSED_BYTES)%nat
    with (length (pair_bytes LRs) + length (compressed_as_bytes l))%nat by lia.
  rewrite drop_app_add, drop_app_length, take_app_length.
  by rewrite !compressed_from_as_bytes.
Qed.

Lemma fst_zip_all {A B} (l : list A) (k : list B) : length l = length k → (zip l k).*1 = l.
Proof. intros. apply fst_zip. lia. Qed.
Lemma snd_zip_all {A B} (l : list A) (k : list B) : length l = length k → (zip l k).*2 = k.
Proof. intros. apply snd_zip. lia. Qed.

(** A 32-byte field at the front of what is left. *)
Lemma scalar_field_bytes bs s :
  (32 ≤ length bs)%nat → scalar_from_canonical (read32 bs) = Some s →
  bs = scalar_to_canonical s ++ drop 32 bs.
Proof. intros Hl Hs. apply scalar_to_from_canonical in Hs as ->. symmetry. apply take_drop. Qed.

Lemma read32_scalar s rest : read32 (scalar_to_canonical s ++ rest) = scalar_to_canonical s.
Proof. unfold read32. apply take_app_length'. by rewrite length_scalar_canonical. Qed.
Lemma drop32_scalar s rest : drop 32 (scalar_to_canonical s ++ rest) = rest.
Proof. apply drop_app_length'. by rewrite length_scalar_canonical. Qed.

(** A proof is the pairs of its rounds and a tail of fixed length. *)
Lemma read_rounds bs tail :
  (tail ≤ length bs)%nat → Nat.modulo (length bs - tail) (2 * COMPRESSED_BYTES) = 0%nat →
  let n := Nat.div (length bs - tail) (2 * COMPRESSED_BYTES) in
  ∃ Ls Rs rest, read_pairs n COMPRESSED_BYTES bs = (Ls, Rs) ∧ length Ls = n ∧ length Rs = n ∧
    bs = pair_bytes (zip Ls Rs) ++ rest ∧ length rest = tail ∧
    drop (2 * n * COMPRESSED_BYTES) bs = rest.
Proof.
  pose proof COMPRESSED_BYTES_positive as Hcb. intros Hlen Hmod n.
  assert (Hpos : (2 * n * COMPRESSED_BYTES = length bs - tail)%nat).
  { pose proof (Nat.div_mod (length bs - tail) (2 * COMPRESSED_BYTES)). unfold n. nia. }
  pose proof (length_read_pairs n COMPRESSED_BYTES bs) as [HL HR].
  pose proof (read_pairs_bytes n bs ltac:(lia)) as Hbytes.
  destruct (read_pairs n COMPRESSED_BYTES bs) as [Ls Rs]. cbn [fst snd] in *.
  exists Ls, Rs, (drop (2 * n * COMPRESSED_BYTES) bs). split; [done|]. split; [done|]. split; [done|].
  rewrite Hbytes, take_drop. split; [done|]. rewrite length_drop. split; [lia|done].
Qed.

Lemma written_rounds Ls Rs rest :
  length Ls = length Rs →
  let bs := pair_bytes (zip Ls Rs) ++ rest in
  let n := length Ls in
  (length rest ≤ length bs)%nat ∧
  Nat.modulo (length bs - length rest) (2 * COMPRESSED_BYTES) = 0%nat ∧
  Nat.div (length bs - length rest) (2 * COMPRESSED_BYTES) = n ∧
  read_pairs n COMPRESSED_BYTES bs = (Ls, Rs) ∧
  ∀ k, drop (2 * n * COMPRESSED_BYTES + k) bs = drop k rest.
Proof.
  pose proof COMPRESSED_BYTES_positive as Hcb. intros Hl bs n.
  assert (HLRs : length (zip Ls Rs) = n) by (unfold n; lengths).
  pose proof (length_pair_bytes (zip Ls Rs)) as Hp. rewrite HLRs in Hp.
  assert (Hlen : (length bs - length rest)%nat = (n * (2 * COMPRESSED_BYTES))%nat)
    by (unfold bs; rewrite length_app; lia).
  split; [unfold bs; rewrite length_app; lia|]. rewrite Hlen, Nat.Div0.mod_mul, Nat.div_mul by lia.
  split; [done|]. split; [done|]. split.
  - unfold bs. rewrite <-HLRs, read_pairs_pair_bytes. by rewrite fst_zip_all, snd_zip_all.
  - intros k. unfold bs. rewrite <-Hp. apply drop_app_add.
Qed.

(** Two scalars at the end. *)
Lemma two_scalars_bytes fields a b :
  length fields = 64%nat → scalar_from_canonical (read32 fields) = Some a →
  scalar_from_canonical (read32 (drop 32 fields)) = Some b →
  fields = scalar_to_canonical a ++ scalar_to_canonical b.
Proof.
  intros Hf Ha Hb. pose proof (scalar_field_bytes fields a ltac:(lia) Ha) as Ea.
  pose proof (scalar_field_bytes (drop 32 fields) b ltac:(rewrite length_drop; lia) Hb) as Eb.
  rewrite drop_drop, (drop_ge fields (32 + 32)), app_nil_r in Eb by lia. by rewrite <-Eb.
Qed.
Lemma read32_scalar_all s : read32 (scalar_to_canonical s) = scalar_to_canonical s.
Proof. rewrite <-(app_nil_r (scalar_to_canonical s)) at 1. apply read32_scalar. Qed.

Lemma ipp_bytes_canonical bs p :
  ipp_from_bytes bs = Ok p ↔
  length (ipp_L_vec p) = length (ipp_R_vec p) ∧ ipp_to_bytes p = bs.
Proof.
  unfold ipp_from_bytes, ipp_to_bytes. split.
  - destruct (Nat.ltb_spec (length bs) 64) as [|Hlen]; [done|].
    destruct (Nat.eqb_spec (Nat.modulo (length bs - 64) (2 * COMPRESSED_BYTES)) 0) as [Hmod|];
      cbn [negb]; [|done].
    destruct (read_rounds bs 64 Hlen Hmod) as (Ls & Rs & rest & -> & HL & HR & Hbs & Hrest & Hdrop).
    intros (a & Ha%ok_or_Ok & (b & Hb%ok_or_Ok & [= <-])%bind_Ok)%bind_Ok.
    cbn [ipp_L_vec ipp_R_vec ipp_a ipp_b]. split; [congruence|].
    rewrite <-drop_drop in Hb. rewrite Hdrop in Ha, Hb.
    rewrite Hbs, <-app_assoc. f_equal. symmetry. by apply two_scalars_bytes.
  - destruct p as [Ls Rs a b]. cbn [ipp_L_vec ipp_R_vec ipp_a ipp_b]. intros [Hl <-].
    rewrite <-app_assoc. set (rest := scalar_to_canonical a ++ scalar_to_canonical b).
    destruct (written_rounds Ls Rs rest Hl) as (Hlen & Hmod & Hdiv & Hread & Hdrop).
    replace (length rest) with 64%nat in * by (unfold rest; rewrite length_app, !length_scalar_canonical; lia).
    rewrite (proj2 (Nat.ltb_ge _ _) Hlen), Hmod, Hdiv, Hread. cbn [Nat.eqb negb].
    rewrite Hdrop. pose proof (Hdrop 0%nat) as Hdrop0. rewrite Nat.add_0_r in Hdrop0. rewrite Hdrop0.
    unfold rest. rewrite drop_0, read32_scalar, drop32_scalar, read32_scalar_all.
    by rewrite !scalar_from_to_canonical.
Qed.

Lemma linear_bytes_canonical bs p :
  linear_from_bytes bs = Ok p ↔
  length (lp_L_vec p) = length (lp_R_vec p) ∧ (length (lp_L_vec p) < 32)%nat ∧ linear_to_bytes p = bs.
Proof.
  unfold linear_from_bytes, linear_to_bytes. set (tail := (COMPRESSED_BYTES + 2 * 32)%nat). split.
  - destruct (Nat.ltb_spec (length bs) tail) as [|Hlen]; [done|].
    destruct (Nat.eqb_spec (Nat.modulo (length bs - tail) (2 * COMPRESSED_BYTES)) 0) as [Hmod|];
      cbn [negb]; [|done].
    destruct (read_rounds bs tail Hlen Hmod) as (Ls & Rs & rest & -> & HL & HR & Hbs & Hrest & Hdrop).
    destruct (Nat.leb_spec 32 (Nat.div (length bs - tail) (2 * COMPRESSED_BYTES))); [done|].
    set (pos := (2 * _ * COMPRESSED_BYTES)%nat) in *. clearbody pos.
    intros (a & Ha%ok_or_Ok & (b & Hb%ok_or_Ok & [= <-])%bind_Ok)%bind_Ok.
    cbn [lp_L_vec lp_R_vec lp_a lp_r lp_S]. split; [congruence|]. split; [lia|].
    rewrite <-Nat.add_assoc, <-drop_drop, Hdrop, <-drop_drop in Hb. rewrite <-drop_drop, Hdrop in Ha.
    unfold subslice. rewrite Hdrop, Nat.add_comm, Nat.add_sub.
    rewrite compressed_as_from_bytes by (rewrite length_take; unfold tail in Hrest; lia).
    rewrite Hbs, <-!app_assoc. f_equal. rewrite <-(take_drop COMPRESSED_BYTES rest) at 2. f_equal.
    symmetry. apply two_scalars_bytes; [rewrite length_drop; unfold tail in Hrest; lia|done|done].
  - destruct p as [Ls Rs S a r]. cbn [lp_L_vec lp_R_vec lp_a lp_r lp_S]. intros (Hl & H32 & <-).
    rewrite <-!app_assoc.
    set (rest := compressed_as_bytes S ++ scalar_to_canonical a ++ scalar_to_canonical r).
    destruct (written_rounds Ls Rs rest Hl) as (Hlen & Hmod & Hdiv & Hread & Hdrop).
    replace (length rest) with tail in * by
      (unfold rest, tail; rewrite !length_app, !length_scalar_canonical, length_compressed; lia).
    rewrite (proj2 (Nat.ltb_ge _ _) Hlen), Hmod, Hdiv, Hread, (proj2 (Nat.leb_gt _ _) H32).
    cbn [Nat.eqb negb]. unfold subslice.
    rewrite <-Nat.add_assoc, !Hdrop. pose proof (Hdrop 0%nat) as Hdrop0.
    rewrite Nat.add_0_r in Hdrop0. rewrite Hdrop0, drop_0.
    set (pos := (2 * _ * COMPRESSED_BYTES)%nat) in *. clearbody pos.
    rewrite Nat.add_comm, Nat.add_sub. unfold rest.
    rewrite take_app_length' by (by rewrite length_compressed).
    rewrite <-drop_drop, drop_app_length' by (by rewrite length_compressed).
    rewrite read32_scalar, drop32_scalar, read32_scalar_all.
    rewrite !scalar_from_to_canonical, compressed_from_as_bytes. done.
Qed.

(** ** The R1CS proof *)
Definition points_bytes (ps : list Compressed) : list byte := mjoin (compressed_as_bytes <$> ps).

Lemma extend_points_bytes buf ps : extend_points buf ps = buf ++ points_bytes ps.
Proof.
  unfold extend_points, points_bytes. revert buf.
  induction ps as [|c ps IH]; intros buf; [by rewrite app_nil_r|].
  cbn [foldl]. rewrite IH, <-app_assoc. done.
Qed.

(** The bytes after the tag, with or without the second commitments. *)
Definition r1cs_encoding (two_phases : bool) (p : R1CSProof) : list byte :=
  (if two_phases then TWO_PHASE_COMMITMENTS else ONE_PHASE_COMMITMENTS)
  :: points_bytes ([A_I1 p; A_O1 p; S1 p] ++ (if two_phases then [A_I2 p; A_O2 p; S2 p] else [])
                   ++ [T_1 p; T_3 p; T_4 p; T_5 p; T_6 p])
  ++ scalar_to_canonical (t_x p) ++ scalar_to_canonical (t_x_blinding p)
  ++ scalar_to_canonical (e_blinding p) ++ ipp_to_bytes (ipp_proof p).

Lemma points_bytes_app ps qs : points_bytes (ps ++ qs) = points_bytes ps ++ points_bytes qs.
Proof. unfold points_bytes. by rewrite fmap_app, join_app. Qed.
Lemma points_bytes_cons c ps : points_bytes (c :: ps) = compressed_as_bytes c ++ points_bytes ps.
Proof. done. Qed.
Lemma length_points_bytes ps : length (points_bytes ps) = (length ps * COMPRESSED_BYTES)%nat.
Proof.
  induction ps as [|c ps IH]; [done|].
  rewrite points_bytes_cons, length_app, IH, length_compressed. simpl. lia.
Qed.

Lemma r1cs_to_bytes_encoding p : r1cs_to_bytes p = r1cs_encoding (negb (missing_phase2_commitments p)) p.
Proof.
  unfold r1cs_to_bytes, r1cs_encoding. destruct (missing_phase2_commitments p); cbn [negb];
    rewrite !extend_points_bytes; rewrite !points_bytes_app; rewrite <-!app_assoc; simpl; [done|].
  by rewrite (app_assoc (points_bytes [_; _; _]) (points_bytes [_; _; _])), <-points_bytes_app.
Qed.

Lemma next_point_bytes c s : next_point (compressed_as_bytes c ++ s) = (c, s).
Proof.
  unfold next_point. rewrite take_app_length', drop_app_length' by (by rewrite length_compressed).
  by rewrite compressed_from_as_bytes.
Qed.
Lemma next_point_read n s :
  (COMPRESSED_BYTES + n ≤ length s)%nat →
  ∃ c s', next_point s = (c, s') ∧ s = compressed_as_bytes c ++ s' ∧ (n ≤ length s')%nat.
Proof.
  intros Hl. eexists _, _. split; [done|]. rewrite compressed_as_from_bytes.
  - rewrite take_drop, length_drop. split; [done|lia].
  - rewrite length_take. lia.
Qed.

(** Reads the next point of a decoder that has checked the length. *)
Ltac read_point :=
  match goal with
  | Hl : (?m ≤ length ?s)%nat |- context [next_point ?s] =>
      let c := fresh "c" in let s' := fresh "s" in let E := fresh "E" in
      let n := match m with (COMPRESSED_BYTES + ?n)%nat => n end in
      destruct (next_point_read n s Hl) as (c & s' & -> & E & ?); clear Hl
  end.

Lemma r1cs_fields_read s tx txb eb :
  (96 ≤ length s)%nat → scalar_from_canonical (read32 s) = Some tx →
  scalar_from_canonical (read32 (drop 32 s)) = Some txb →
  scalar_from_canonical (read32 (drop 64 s)) = Some eb →
  s = scalar_to_canonical tx ++ scalar_to_canonical txb ++ scalar_to_canonical eb ++ drop 96 s.
Proof.
  intros Hl H1 H2 H3. pose proof (scalar_field_bytes s tx ltac:(lia) H1) as E1.
  pose proof (scalar_field_bytes (drop 32 s) txb ltac:(rewrite length_drop; lia) H2) as E2.
  pose proof (scalar_field_bytes (drop 64 s) eb ltac:(rewrite length_drop; lia) H3) as E3.
  rewrite drop_drop in E2, E3. change (32 + 32)%nat with 64%nat in E2.
  change (64 + 32)%nat with 96%nat in E3. by rewrite E1 at 1; rewrite E2 at 1; rewrite E3 at 1.
Qed.

Lemma r1cs_from_bytes_inv bs p :
  r1cs_from_bytes bs = Ok p →
  length (ipp_L_vec (ipp_proof p)) = length (ipp_R_vec (ipp_proof p)) ∧
  (bs = r1cs_encoding true p ∨
   bs = r1cs_encoding false p ∧ A_I2 p = compressed_identity ∧ A_O2 p = compressed_identity ∧
     S2 p = compressed_identity).
Proof.
  destruct bs as [|version s]; [done|]. cbn [r1cs_from_bytes].
  intros ([points two] & Hv & Hrest)%bind_Ok. revert Hrest. cbn beta iota.
  assert (version = (if two then TWO_PHASE_COMMITMENTS else ONE_PHASE_COMMITMENTS)
    ∧ points = (if two then 6 else 3)%nat) as [-> ->].
  { destruct (Byte.eqb version ONE_PHASE_COMMITMENTS) eqn:E1.
    - apply Byte.byte_dec_bl in E1 as ->. by injection Hv as <- <-.
    - destruct (Byte.eqb version TWO_PHASE_COMMITMENTS) eqn:E2; [|done].
      apply Byte.byte_dec_bl in E2 as ->. by injection Hv as <- <-. }
  clear Hv. destruct (Nat.ltb_spec (length s)
    (((if two then 6 else 3) + 5) * COMPRESSED_BYTES + 3 * 32)) as [|Hl]; [done|].
  destruct two.
  - replace ((6 + 5) * COMPRESSED_BYTES + 3 * 32)%nat with (COMPRESSED_BYTES + (COMPRESSED_BYTES
      + (COMPRESSED_BYTES + (COMPRESSED_BYTES + (COMPRESSED_BYTES + (COMPRESSED_BYTES
      + (COMPRESSED_BYTES + (COMPRESSED_BYTES + (COMPRESSED_BYTES + (COMPRESSED_BYTES
      + (COMPRESSED_BYTES + 96)))))))))))%nat in Hl by lia.
    do 11 read_point. subst.
    intros (tx & Htx%ok_or_Ok & (txb & Htxb%ok_or_Ok & (eb & Heb%ok_or_Ok
      & (ipp & Hipp%map_err_Ok & [= <-])%bind_Ok)%bind_Ok)%bind_Ok)%bind_Ok.
    apply ipp_bytes_canonical in Hipp as [Hlr Hipp]. cbn [ipp_proof]. split; [done|]. left.
    unfold r1cs_encoding. cbn [A_I1 A_O1 S1 A_I2 A_O2 S2 T_1 T_3 T_4 T_5 T_6 t_x t_x_blinding
      e_blinding ipp_proof app].
    rewrite Hipp, <-r1cs_fields_read by done. rewrite !points_bytes_cons, <-!app_assoc. done.
  - replace ((3 + 5) * COMPRESSED_BYTES + 3 * 32)%nat with (COMPRESSED_BYTES + (COMPRESSED_BYTES
      + (COMPRESSED_BYTES + (COMPRESSED_BYTES + (COMPRESSED_BYTES + (COMPRESSED_BYTES
      + (COMPRESSED_BYTES + (COMPRESSED_BYTES + 96))))))))%nat in Hl by lia.
    do 8 read_point. subst.
    intros (tx & Htx%ok_or_Ok & (txb & Htxb%ok_or_Ok & (eb & Heb%ok_or_Ok
      & (ipp & Hipp%map_err_Ok & [= <-])%bind_Ok)%bind_Ok)%bind_Ok)%bind_Ok.
    apply ipp_bytes_canonical in Hipp as [Hlr Hipp]. cbn [ipp_proof]. split; [done|]. right.
    split; [|done].
    unfold r1cs_encoding. cbn [A_I1 A_O1 S1 A_I2 A_O2 S2 T_1 T_3 T_4 T_5 T_6 t_x t_x_blinding
      e_blinding ipp_proof app].
    rewrite Hipp, <-r1cs_fields_read by done. rewrite !points_bytes_cons, <-!app_assoc. done.
Qed.

Lemma length_r1cs_encoding two p :
  length (ipp_L_vec (ipp_proof p)) = length (ipp_R_vec (ipp_proof p)) →
  length (r1cs_encoding two p)
  = (1 + ((if two then 6 else 3) + 5) * COMPRESSED_BYTES + 3 * 32
     + serialized_size_for_rounds (length (ipp_L_vec (ipp_proof p))))%nat.
Proof.
  intros Hlr. unfold r1cs_encoding, ipp_to_bytes, serialized_size_for_rounds. cbn [length].
  rewrite !length_app, length_points_bytes, !length_scalar_canonical, length_pair_bytes.
  rewrite length_zip_with, <-Hlr, Nat.min_id. destruct two; simpl; lia.
Qed.

Lemma r1cs_from_encoding two p :
  length (ipp_L_vec (ipp_proof p)) = length (ipp_R_vec (ipp_proof p)) →
  (two = false → A_I2 p = compressed_identity ∧ A_O2 p = compressed_identity ∧
     S2 p = compressed_identity) →
  r1cs_from_bytes (r1cs_encoding two p) = Ok p.
Proof.
  intros Hlr Hid. pose proof (length_r1cs_encoding two p Hlr) as Hlen.
  unfold r1cs_encoding in *. cbn [length] in Hlen. cbn [r1cs_from_bytes].
  assert (Hlt : ∀ n l, (n ≤ length l)%nat → Nat.ltb (length (A:=byte) l) n = false)
    by (intros; by apply Nat.ltb_ge).
  assert (Hipp : ipp_from_bytes (ipp_to_bytes (ipp_proof p)) = Ok (ipp_proof p))
    by by apply ipp_bytes_canonical.
  assert (Hf : ∀ s, drop 64 (scalar_to_canonical (t_x p) ++ scalar_to_canonical (t_x_blinding p) ++ s) = s
    ∧ drop 96 (scalar_to_canonical (t_x p) ++ scalar_to_canonical (t_x_blinding p)
        ++ scalar_to_canonical (e_blinding p) ++ s) = s).
  { intros s. split; [rewrite <-(drop_drop _ 32 32)|rewrite <-(drop_drop _ 64 32), <-(drop_drop _ 32 32)];
      by repeat rewrite drop32_scalar. }
  destruct two; unfold TWO_PHASE_COMMITMENTS, ONE_PHASE_COMMITMENTS;
    change (Byte.eqb x01 x00) with false; change (Byte.eqb x01 x01) with true;
    change (Byte.eqb x00 x00) with true; cbn [mbind result_bind].
  - rewrite Hlt by lia. cbn [app]. rewrite !points_bytes_cons, <-!app_assoc.
    repeat (rewrite next_point_bytes; cbn beta iota). cbn [points_bytes fmap list_fmap mjoin list_join app].
    rewrite (proj1 (Hf _)), (proj2 (Hf _)), drop32_scalar, !read32_scalar, !scalar_from_to_canonical, Hipp.
    by destruct p.
  - rewrite Hlt by lia. cbn [app]. rewrite !points_bytes_cons, <-!app_assoc.
    repeat (rewrite next_point_bytes; cbn beta iota). cbn [points_bytes fmap list_fmap mjoin list_join app].
    rewrite (proj1 (Hf _)), (proj2 (Hf _)), drop32_scalar, !read32_scalar, !scalar_from_to_canonical, Hipp.
    destruct p. cbn in Hid |- *. by destruct (Hid eq_refl) as (-> & -> & ->).
Qed.
End codec.

(** ** Properties *)

(** The proof formats.  The decoders of the inner-product argument and of
    the linear proof accept exactly the bytes that the encoders write, so no
    proof has two encodings, and a linear proof of 32 or more rounds is refused.
    An R1CS proof is decoded from its own encoding, which has the announced
    length when the second commitments are missing; and whatever else the
    decoder accepts is the long form, with three identity commitments, of a
    proof that is written in the short form. *)
Theorem proof_bytes_canonical `{CycleLaws} `{!CycleCodec} :
  (∀ bs p, ipp_from_bytes bs = Ok p ↔
     length (ipp_L_vec p) = length (ipp_R_vec p) ∧ ipp_to_bytes p = bs) ∧
  (∀ bs p, linear_from_bytes bs = Ok p ↔
     length (lp_L_vec p) = length (lp_R_vec p) ∧ (length (lp_L_vec p) < 32)%nat ∧
     linear_to_bytes p = bs) ∧
  (∀ p, length (ipp_L_vec (ipp_proof p)) = length (ipp_R_vec (ipp_proof p)) →
     (missing_phase2_commitments p = true →
      A_I2 p = compressed_identity ∧ A_O2 p = compressed_identity ∧ S2 p = compressed_identity) →
     r1cs_from_bytes (r1cs_to_bytes p) = Ok p ∧
     (missing_phase2_commitments p = true →
      length (r1cs_to_bytes p) = single_phase_wire_len (length (ipp_L_vec (ipp_proof p))))) ∧
  (∀ bs p, r1cs_from_bytes bs = Ok p →
     length (ipp_L_vec (ipp_proof p)) = length (ipp_R_vec (ipp_proof p)) ∧
     (bs = r1cs_to_bytes p ∨ missing_phase2_commitments p = true ∧ bs = r1cs_encoding true p)).
Proof.
  split; [exact ipp_bytes_canonical|]. split; [exact linear_bytes_canonical|]. split.
  - intros p Hlr Hid. rewrite r1cs_to_bytes_encoding. split.
    + apply r1cs_from_encoding; [done|]. intros Hm. by apply Hid, negb_false_iff.
    + intros ->. cbn [negb]. rewrite length_r1cs_encoding by done.
      unfold single_phase_wire_len. simpl. lia.
  - intros bs p [Hlr Hbs]%r1cs_from_bytes_inv. split; [done|]. rewrite r1cs_to_bytes_encoding.
    destruct Hbs as [->|(-> & E1 & E2 & E3)].
    + destruct (missing_phase2_commitments p); [by right|by left].
    + left. unfold missing_phase2_commitments. rewrite E1, E2, E3.
      rewrite compressed_identity_spec, compressed_is_identity_spec, bool_decide_eq_true_2 by done.
      done.
Qed.

(** The two encodings of a proof whose second commitments are the identity. *)
Definition tiny_r1cs_proof : R1CSProof (H:=TinyCycle) :=
  MkR1CSProof (H:=TinyCycle) x01 x02 x03 x00 x00 x00 x04 x05 x06 x07 x08 (tiny 9) (tiny 10) (tiny 11)
    tiny_ipp.
Example tiny_two_encodings :
  r1cs_from_bytes (H:=TinyCycle) (r1cs_encoding true tiny_r1cs_proof) = Ok tiny_r1cs_proof ∧
  r1cs_from_bytes (H:=TinyCycle) (r1cs_encoding false tiny_r1cs_proof) = Ok tiny_r1cs_proof ∧
  r1cs_to_bytes tiny_r1cs_proof = r1cs_encoding false tiny_r1cs_proof.
Proof. split; [vm_refl|split; vm_refl]. Qed.
Lemma proof_bytes_canonical_witness :
  r1cs_from_bytes (H:=TinyCycle) (r1cs_to_bytes tiny_r1cs_proof) = Ok tiny_r1cs_proof ∧
  length (r1cs_to_bytes tiny_r1cs_proof) = single_phase_wire_len (H:=TinyCycle) 2.
Proof.
  destruct (proof_bytes_canonical (H:=TinyCycle)) as (_ & _ & Hr & _).
  destruct (Hr tiny_r1cs_proof eq_refl) as [Hrt Hlen].
  - intros _. split; [vm_refl|]. split; vm_refl.
  - split; [exact Hrt|]. apply Hlen. vm_refl.
Defined.
