(* ===== verification/Prover.v ===== *)
(** * The R1CS prover (bulletproofs-cycle/r1cs/prover.rs)

    The prover's constraint system, its randomization phase, and the proof.  The
    fields that both phases use are [ProverCore], which is also what a callback
    of the randomization phase gets: its list of callbacks has been taken. *)

From Stdlib Require Import ZArith Lia Strings.Byte.
From stdpp Require Import prelude strings.
From S2P Require Import Prelude CoreError Group Algebra TestSupport Cycle BpUtil InnerProduct ConstraintSystem Generators R1csProof.

Local Open Scope golden_scope.

(** A loop whose body may panic. *)
Fixpoint fold_option {St A} (f : St → A → option St) (s : St) (l : list A) : option St :=
  match l with
  | [] => Some s
  | a :: l => s ← f s a; fold_option f s l
  end.

(** [usize::next_power_of_two]. *)
Definition next_power_of_two (n : nat) : nat := (2 ^ Nat.log2_up n)%nat.

Section flattening.
Context {F : Type} `{FieldOps F}.

Definition sub_at (i : nat) (x : F) (v : list F) : option (list F) :=
  match v !! i with Some y => Some (<[i := y - x]> v) | None => None end.

(** The weights of the variables of every kind. *)
Record Weights := MkWeights { wL : list F; wR : list F; wO : list F; wV : list F }.

(** [(0..n).map(|_| Scalar::random(rng)).collect()]. *)
Fixpoint random_vec `{CryptoRngCore R} (n : nat) (rng : R) : list F * R :=
  match n with
  | O => ([], rng)
  | S n =>
      let '(s, rng) := srandom rng in
      let '(ss, rng) := random_vec n rng in
      (s :: ss, rng)
  end.
End flattening.
Arguments Weights : clear implicits.

Section model.
Context `{Cycle} `{Merlin}.

Record Secrets := MkSecrets {
  a_L : list CScalar;
  a_R : list CScalar;
  a_O : list CScalar;
  sec_v : list CScalar;
  v_blinding : list CScalar;
}.
Definition Secrets_new : Secrets := MkSecrets [] [] [] [] [].

Record ProverCore := MkProverCore {
  p_transcript : Transcript;
  p_pc_gens : PedersenGens;
  p_constraints : list (LinearCombination CScalar);
  p_secrets : Secrets;
  p_pending : option nat;
}.

(** A callback has no other access to the prover than the methods of
    [RandomizedConstraintSystem]. *)
Definition Callback : Type := circuit (result R1CSError unit).

Record Prover := MkProver { p_core : ProverCore; p_deferred : list Callback }.

(** ** [impl ConstraintSystem for Prover] *)
Definition set_transcript (self : ProverCore) (t : Transcript) : ProverCore :=
  MkProverCore t (p_pc_gens self) (p_constraints self) (p_secrets self) (p_pending self).

(** The value of a term, and of a linear combination. *)
Definition eval_variable (secrets : Secrets) (var : CSVariable) : option CScalar :=
  match var with
  | MultiplierLeft i => a_L secrets !! i
  | MultiplierRight i => a_R secrets !! i
  | MultiplierOutput i => a_O secrets !! i
  | Committed i => sec_v secrets !! i
  | One => Some 1
  end.
Definition prover_eval (self : ProverCore) (lc : LinearCombination CScalar) : option CScalar :=
  fold_option (λ acc '(var, coeff), val ← eval_variable (p_secrets self) var; Some (acc + coeff * val))
    0 lc.

Definition push_multiplier (self : ProverCore) (l r o : CScalar) : ProverCore :=
  MkProverCore (p_transcript self) (p_pc_gens self) (p_constraints self)
    (MkSecrets (a_L (p_secrets self) ++ [l]) (a_R (p_secrets self) ++ [r])
       (a_O (p_secrets self) ++ [o]) (sec_v (p_secrets self)) (v_blinding (p_secrets self)))
    (p_pending self).

Definition prover_constrain (lc : LinearCombination CScalar) (self : ProverCore) : ProverCore :=
  MkProverCore (p_transcript self) (p_pc_gens self) (p_constraints self ++ [lc]) (p_secrets self)
    (p_pending self).

(** The variables that the next multiplier gets. *)
Definition prover_vars (self : ProverCore) : CSVariable * CSVariable * CSVariable :=
  (MultiplierLeft (length (a_L (p_secrets self))), MultiplierRight (length (a_R (p_secrets self))),
   MultiplierOutput (length (a_O (p_secrets self)))).

Definition prover_multiply (left_ right_ : LinearCombination CScalar) (self : ProverCore)
    : option ((CSVariable * CSVariable * CSVariable) * ProverCore) :=
  l ← prover_eval self left_;
  r ← prover_eval self right_;
  let o := l * r in
  let '(l_var, r_var, o_var) := prover_vars self in
  let self := push_multiplier self l r o in
  let left_ := left_ ++ [(l_var, - (1))] in
  let right_ := right_ ++ [(r_var, - (1))] in
  let self := prover_constrain left_ self in
  let self := prover_constrain right_ self in
  Some ((l_var, r_var, o_var), self).

Definition prover_allocate (assignment : option CScalar) (self : ProverCore)
    : option (result R1CSError CSVariable * ProverCore) :=
  match assignment with
  | None => Some (Err R1CSMissingAssignment, self)
  | Some scalar =>
      let secrets := p_secrets self in
      match p_pending self with
      | None =>
          let i := length (a_L secrets) in
          let self := push_multiplier self scalar 0 0 in
          Some (Ok (MultiplierLeft i),
            MkProverCore (p_transcript self) (p_pc_gens self) (p_constraints self) (p_secrets self)
              (Some i))
      | Some i =>
          a_R' ← set_at i scalar (a_R secrets);
          l ← a_L secrets !! i;
          r ← a_R' !! i;
          a_O' ← set_at i (l * r) (a_O secrets);
          Some (Ok (MultiplierRight i),
            MkProverCore (p_transcript self) (p_pc_gens self) (p_constraints self)
              (MkSecrets (a_L secrets) a_R' a_O' (sec_v secrets) (v_blinding secrets)) None)
      end
  end.

Definition prover_allocate_multiplier (input_assignments : option (CScalar * CScalar))
    (self : ProverCore) : result R1CSError (CSVariable * CSVariable * CSVariable) * ProverCore :=
  match input_assignments with
  | None => (Err R1CSMissingAssignment, self)
  | Some (l, r) => (Ok (prover_vars self), push_multiplier self l r (l * r))
  end.

(** [metrics], with the number of callbacks that are queued. *)
Definition prover_metrics (deferred : nat) (self : ProverCore) : Metrics :=
  MkMetrics (length (a_L (p_secrets self))) (length (p_constraints self) + deferred)
    (length (p_constraints self)) deferred.

#[export] Instance RandomizingProver_cs : ConstraintSystem ProverCore := {|
  cs_transcript := λ X f self, let '(x, t) := f (p_transcript self) in (x, set_transcript self t);
  cs_multiply := prover_multiply;
  cs_allocate := prover_allocate;
  cs_allocate_multiplier := prover_allocate_multiplier;
  cs_metrics := prover_metrics 0;
  cs_constrain := prover_constrain;
|}.

(** Operations of the core on the whole prover. *)
Definition with_core {A} (deferred : list Callback) (r : A * ProverCore) : A * Prover :=
  let '(a, core) := r in (a, MkProver core deferred).

#[export] Instance Prover_cs : ConstraintSystem Prover := {|
  cs_transcript := λ X f self, with_core (p_deferred self) (cs_transcript f (p_core self));
  cs_multiply := λ l r self, with_core (p_deferred self) <$> prover_multiply l r (p_core self);
  cs_allocate := λ a self, with_core (p_deferred self) <$> prover_allocate a (p_core self);
  cs_allocate_multiplier := λ a self,
    with_core (p_deferred self) (prover_allocate_multiplier a (p_core self));
  cs_metrics := λ self, prover_metrics (length (p_deferred self)) (p_core self);
  cs_constrain := λ lc self, MkProver (prover_constrain lc (p_core self)) (p_deferred self);
|}.

Definition prover_specify_randomized_constraints (callback : Callback) (self : Prover) : Prover :=
  MkProver (p_core self) (p_deferred self ++ [callback]).

(** [challenge_scalar] of the randomization phase is a use of the transcript. *)
Definition randomized_challenge_scalar (label : list byte) : circuit CScalar :=
  WithTranscript (challenge_scalar label) Done.

Definition Prover_new (pc_gens : PedersenGens) (transcript : Transcript) : Prover :=
  MkProver (MkProverCore (r1cs_domain_sep transcript) pc_gens [] Secrets_new None) [].

Definition prover_commit (v v_blind : CScalar) (self : Prover)
    : (Compressed * CSVariable) * Prover :=
  let core := p_core self in
  let secrets := p_secrets core in
  let i := length (sec_v secrets) in
  let V := point_compress (pc_commit (p_pc_gens core) v v_blind) in
  ((V, Committed i),
   MkProver
     (MkProverCore (append_point (bstr "V") V (p_transcript core)) (p_pc_gens core)
        (p_constraints core)
        (MkSecrets (a_L secrets) (a_R secrets) (a_O secrets) (sec_v secrets ++ [v])
           (v_blinding secrets ++ [v_blind]))
        (p_pending core))
     (p_deferred self)).

(** ** Flattening *)
Definition prover_weigh (exp_z : CScalar) (w : Weights CScalar) (term : CSVariable * CScalar)
    : option (Weights CScalar) :=
  let '(var, coeff) := term in
  let weighted := scaled_by_coefficient exp_z coeff in
  match var with
  | MultiplierLeft i => l ← add_at i weighted (wL w); Some (MkWeights l (wR w) (wO w) (wV w))
  | MultiplierRight i => r ← add_at i weighted (wR w); Some (MkWeights (wL w) r (wO w) (wV w))
  | MultiplierOutput i => o ← add_at i weighted (wO w); Some (MkWeights (wL w) (wR w) o (wV w))
  | Committed i => v ← sub_at i weighted (wV w); Some (MkWeights (wL w) (wR w) (wO w) v)
  | One => Some w
  end.

Definition prover_flattened_constraints (self : ProverCore) (z : CScalar)
    : option (Weights CScalar) :=
  let n := length (a_L (p_secrets self)) in
  let m := length (sec_v (p_secrets self)) in
  let w := MkWeights (replicate n 0) (replicate n 0) (replicate n 0) (replicate m 0) in
  '(w, _) ←
    fold_option
      (λ '(w, exp_z) lc, w ← fold_option (prover_weigh exp_z) w lc; Some (w, exp_z * z))
      (w, z) (p_constraints self);
  Some w.

(** ** The randomization phase *)
Fixpoint prover_callbacks (callbacks : list Callback) (self : ProverCore)
    : outcome R1CSError ProverCore :=
  match callbacks with
  | [] => mret self
  | callback :: callbacks =>
      '(res, self) ← no_panic (run_circuit callback self);
      _ ← returns res;
      prover_callbacks callbacks self
  end.

Definition prover_create_randomized_constraints (self : Prover) : outcome R1CSError ProverCore :=
  let core := p_core self in
  let core :=
    MkProverCore (p_transcript core) (p_pc_gens core) (p_constraints core) (p_secrets core) None in
  match p_deferred self with
  | [] => mret (set_transcript core (r1cs_1phase_domain_sep (p_transcript core)))
  | callbacks =>
      prover_callbacks callbacks (set_transcript core (r1cs_2phase_domain_sep (p_transcript core)))
  end.
End model.

(** ** The proof *)
Section prove.
Context `{Cycle} `{Merlin}.

(** The blindings and the blinding vectors of one phase. *)
Record PhaseSecrets := MkPhaseSecrets {
  i_blinding : CScalar;
  o_blinding : CScalar;
  s_blinding : CScalar;
  s_L : list CScalar;
  s_R : list CScalar;
}.

Definition draw_phase `{CryptoRngCore R} (n : nat) (rng : R) : PhaseSecrets * R :=
  let '(i, rng) := srandom rng in
  let '(o, rng) := srandom rng in
  let '(s, rng) := srandom rng in
  let '(l, rng) := random_vec n rng in
  let '(r, rng) := random_vec n rng in
  (MkPhaseSecrets i o s l r, rng).

(** The second phase has no blindings when it has no multipliers. *)
Definition draw_phase2 `{CryptoRngCore R} (n2 : nat) (rng : R) : PhaseSecrets * R :=
  let '((i, o, s), rng) :=
    if Nat.ltb 0 n2 then
      let '(i, rng) := srandom rng in
      let '(o, rng) := srandom rng in
      let '(s, rng) := srandom rng in
      ((i, o, s), rng)
    else ((0, 0, 0), rng) in
  let '(l, rng) := random_vec n2 rng in
  let '(r, rng) := random_vec n2 rng in
  (MkPhaseSecrets i o s l r, rng).

(** The three commitments of a phase to its rows of the secrets. *)
Definition phase_commitments (pc_gens : PedersenGens) (l r o : list CScalar) (ps : PhaseSecrets)
    (g h : list CAffine) : CPoint * CPoint * CPoint :=
  let gh := g ++ h in
  (vartime_msm_affine (l ++ r) gh ⊕ pc_B_blinding pc_gens ⊙ i_blinding ps,
   vartime_msm_affine o g ⊕ pc_B_blinding pc_gens ⊙ o_blinding ps,
   vartime_msm_affine (s_L ps ++ s_R ps) gh ⊕ pc_B_blinding pc_gens ⊙ s_blinding ps).

(** The loop that fills the coefficients of [l_poly] and [r_poly]: the rows
    [(l1, l2, l3, r0, r1, r3)], and [exp_y] at its end. *)
Fixpoint poly_rows (i : nat) (exp_y y : CScalar) (secrets : Secrets) (w : Weights CScalar)
    (exp_y_inv : list CScalar) (sLsR : list (CScalar * CScalar))
    : list (CScalar * CScalar * CScalar * CScalar * CScalar * CScalar) * CScalar :=
  match sLsR with
  | [] => ([], exp_y)
  | (sl, sr) :: sLsR =>
      let row :=
        (a_L secrets !!! i + exp_y_inv !!! i * wR w !!! i, a_O secrets !!! i, sl,
         wO w !!! i - exp_y, exp_y * a_R secrets !!! i + wL w !!! i, exp_y * sr) in
      let '(rows, exp_y_end) :=
        poly_rows (S i) (exp_y * y) y secrets w exp_y_inv sLsR in
      (row :: rows, exp_y_end)
  end.

Definition l_poly_of (rows : list (CScalar * CScalar * CScalar * CScalar * CScalar * CScalar))
    : VecPoly3 CScalar :=
  MkVecPoly3 [] (rows.*1.*1.*1.*1.*1) (rows.*1.*1.*1.*1.*2) (rows.*1.*1.*1.*2).
Definition r_poly_of (rows : list (CScalar * CScalar * CScalar * CScalar * CScalar * CScalar))
    : VecPoly3 CScalar :=
  MkVecPoly3 (rows.*1.*1.*2) (rows.*1.*2) [] (rows.*2).

(** The slots of [r_vec] from [n] on. *)
Fixpoint pad_slots (pad : nat) (exp_y y : CScalar) : list CScalar :=
  match pad with
  | O => []
  | S pad => - exp_y :: pad_slots pad (exp_y * y) y
  end.

Definition append_points (labels : list (list byte)) (points : list Compressed) (t : Transcript)
    : Transcript :=
  foldl (λ t '(label, p), append_point label p t) t (zip labels points).

(** What the prover appends before the randomization phase, and after it. *)
Definition append_phase1 : list Compressed → Transcript → Transcript :=
  append_points [bstr "A_I1"; bstr "A_O1"; bstr "S1"].
Definition append_phase2 : list Compressed → Transcript → Transcript :=
  append_points [bstr "A_I2"; bstr "A_O2"; bstr "S2"].
Definition append_T : list Compressed → Transcript → Transcript :=
  append_points [bstr "T_1"; bstr "T_3"; bstr "T_4"; bstr "T_5"; bstr "T_6"].
Definition append_evaluations (t_x t_x_blinding e_blinding : CScalar) (t : Transcript)
    : Transcript :=
  let t := append_scalar (bstr "t_x") t_x t in
  let t := append_scalar (bstr "t_x_blinding") t_x_blinding t in
  append_scalar (bstr "e_blinding") e_blinding t.

Definition G_factors_of (n1 rest : nat) (u : CScalar) : list CScalar :=
  replicate n1 1 ++ replicate rest u.
Definition H_factors_of (exp_y_inv G_factors : list CScalar) : list CScalar :=
  zip_with smul exp_y_inv G_factors.

(** The part of [prove_and_return_transcript] after the second commitments. *)
Definition prove_polynomials `{CryptoRngCore R} (core : ProverCore) (trng : R) (n1 padded_n : nat)
    (ps1 ps2 : PhaseSecrets) (commitments1 commitments2 : Compressed * Compressed * Compressed)
    (g h : list CAffine) (transcript : Transcript)
    : option (R1CSProof * Transcript) :=
  let pc_gens := p_pc_gens core in
  let secrets := p_secrets core in
  let n := length (a_L secrets) in
  let n2 := (n - n1)%nat in
  let pad := (padded_n - n)%nat in
  let '(y, transcript) := challenge_scalar (bstr "y") transcript in
  let '(z, transcript) := challenge_scalar (bstr "z") transcript in
  w ← prover_flattened_constraints core z;
  let y_inv := scalar_invert y in
  let exp_y_inv := exp_take padded_n (exp_iter y_inv) in
  let sLsR := zip (s_L ps1 ++ s_L ps2) (s_R ps1 ++ s_R ps2) in
  let '(rows, exp_y) := poly_rows 0 1 y secrets w exp_y_inv sLsR in
  let l_poly := l_poly_of rows in
  let r_poly := r_poly_of rows in
  let t_poly := special_inner_product l_poly r_poly in
  let '(t_1_blinding, trng) := srandom trng in
  let '(t_3_blinding, trng) := srandom trng in
  let '(t_4_blinding, trng) := srandom trng in
  let '(t_5_blinding, trng) := srandom trng in
  let '(t_6_blinding, trng) := srandom trng in
  let T_1 := point_compress (pc_commit pc_gens (t1 t_poly) t_1_blinding) in
  let T_3 := point_compress (pc_commit pc_gens (t3 t_poly) t_3_blinding) in
  let T_4 := point_compress (pc_commit pc_gens (t4 t_poly) t_4_blinding) in
  let T_5 := point_compress (pc_commit pc_gens (t5 t_poly) t_5_blinding) in
  let T_6 := point_compress (pc_commit pc_gens (t6 t_poly) t_6_blinding) in
  let transcript := append_T [T_1; T_3; T_4; T_5; T_6] transcript in
  let '(u, transcript) := challenge_scalar (bstr "u") transcript in
  let '(x, transcript) := challenge_scalar (bstr "x") transcript in
  let t_2_blinding :=
    foldl sadd 0 (zip_with (λ c v_b, c * v_b) (wV w) (v_blinding secrets)) in
  let t_x := Poly6_eval t_poly x in
  let t_x_blinding :=
    let x2 := x * x in
    let x3 := x2 * x in
    x * (t_1_blinding + x * t_2_blinding + x2 * t_3_blinding + x3 * t_4_blinding
         + x3 * x * t_5_blinding + x3 * x2 * t_6_blinding) in
  let l_vec := resize padded_n 0 (VecPoly3_eval l_poly x) in
  let r_vec := take n (resize padded_n 0 (VecPoly3_eval r_poly x)) ++ pad_slots pad exp_y y in
  let i_bl := i_blinding ps1 + u * i_blinding ps2 in
  let o_bl := o_blinding ps1 + u * o_blinding ps2 in
  let s_bl := s_blinding ps1 + u * s_blinding ps2 in
  let e_blinding := x * (i_bl + x * (o_bl + x * s_bl)) in
  let transcript := append_evaluations t_x t_x_blinding e_blinding transcript in
  let '(w_ch, transcript) := challenge_scalar (bstr "w") transcript in
  let Q := pc_B pc_gens ⊙ w_ch in
  let G_factors := G_factors_of n1 (n2 + pad) u in
  let H_factors := H_factors_of exp_y_inv G_factors in
  g_all ← slice 0 padded_n g;
  h_all ← slice 0 padded_n h;
  let '(ipp, transcript) := create transcript Q G_factors H_factors g_all h_all l_vec r_vec in
  let '(A_I1, A_O1, S1) := commitments1 in
  let '(A_I2, A_O2, S2) := commitments2 in
  Some (MkR1CSProof A_I1 A_O1 S1 A_I2 A_O2 S2 T_1 T_3 T_4 T_5 T_6 t_x t_x_blinding e_blinding ipp,
        transcript).

(** The commitments of the second phase. *)
Definition phase2_commitments (core : ProverCore) (n1 : nat) (ps2 : PhaseSecrets)
    (bp_gens : BulletproofGens) : option (Compressed * Compressed * Compressed) :=
  let secrets := p_secrets core in
  let n := length (a_L secrets) in
  if Nat.ltb 0 (n - n1) then
    g_arc ← shared_G bp_gens 0;
    h_arc ← shared_H bp_gens 0;
    g_tail ← slice n1 n g_arc;
    h_tail ← slice n1 n h_arc;
    let '(i, o, s) :=
      phase_commitments (p_pc_gens core) (drop n1 (a_L secrets)) (drop n1 (a_R secrets))
        (drop n1 (a_O secrets)) ps2 g_tail h_tail in
    Some (point_compress i, point_compress o, point_compress s)
  else Some (compressed_identity, compressed_identity, compressed_identity).

(** What the first part of [prove_and_return_transcript] leaves: the prover with
    its randomized constraints, and the data of the first phase. *)
Record FirstPhase (R : Type) := MkFirstPhase {
  fp_core : ProverCore;
  fp_rng : R;
  fp_secrets : PhaseSecrets;
  fp_commitments : Compressed * Compressed * Compressed;
}.

(** [prove_and_return_transcript], from the seeded generator up to the
    randomized constraints. *)
Definition prove_first_phase `{CryptoRngCore R} (self : Prover) (bp_gens : BulletproofGens)
    (trng : R) (transcript : Transcript) : outcome R1CSError (FirstPhase R) :=
  let core := p_core self in
  let secrets := p_secrets core in
  let n1 := length (a_L secrets) in
  if Nat.ltb (gens_capacity bp_gens) n1 then returns (Err R1CSInvalidGeneratorsLength)
  else
    let '(ps1, trng) := draw_phase n1 trng in
    g_arc ← no_panic (shared_G bp_gens 0);
    h_arc ← no_panic (shared_H bp_gens 0);
    g_points ← no_panic (slice 0 n1 g_arc);
    h_points ← no_panic (slice 0 n1 h_arc);
    let '(i_commit1, o_commit1, s_commit1) :=
      phase_commitments (p_pc_gens core) (a_L secrets) (a_R secrets) (a_O secrets) ps1
        g_points h_points in
    let A_I1 := point_compress i_commit1 in
    let A_O1 := point_compress o_commit1 in
    let S1 := point_compress s_commit1 in
    let transcript := append_phase1 [A_I1; A_O1; S1] transcript in
    core ← prover_create_randomized_constraints
             (MkProver (set_transcript core transcript) (p_deferred self));
    mret (MkFirstPhase R core trng ps1 (A_I1, A_O1, S1)).

(** The rest of it, for [n1] multipliers of the first phase. *)
Definition prove_second_phase `{CryptoRngCore R} (n1 : nat) (bp_gens : BulletproofGens)
    (fp : FirstPhase R) : outcome R1CSError (R1CSProof * Transcript) :=
  let core := fp_core R fp in
  let n := length (a_L (p_secrets core)) in
  let n2 := (n - n1)%nat in
  let padded_n := next_power_of_two n in
  if Nat.ltb (gens_capacity bp_gens) padded_n then returns (Err R1CSInvalidGeneratorsLength)
  else
    let '(ps2, trng) := draw_phase2 n2 (fp_rng R fp) in
    '(A_I2, A_O2, S2) ← no_panic (phase2_commitments core n1 ps2 bp_gens);
    let transcript := append_phase2 [A_I2; A_O2; S2] (p_transcript core) in
    g_arc ← no_panic (shared_G bp_gens 0);
    h_arc ← no_panic (shared_H bp_gens 0);
    no_panic
      (prove_polynomials core trng n1 padded_n (fp_secrets R fp) ps2 (fp_commitments R fp)
         (A_I2, A_O2, S2) g_arc h_arc transcript).

(** The transcript and the generator that [prove_and_return_transcript] starts
    with. *)
Definition prove_transcript (self : Prover) : Transcript :=
  append_u64 (bstr "m") (Z.of_nat (length (sec_v (p_secrets (p_core self)))))
    (p_transcript (p_core self)).
Definition prove_rng `{CryptoRngCore R} (self : Prover) (rng : R) : TranscriptRng * R :=
  finalize rng
    (foldl (λ b v_b, rekey_with_witness_bytes (bstr "v_blinding") (scalar_to_canonical v_b) b)
       (build_rng (prove_transcript self)) (v_blinding (p_secrets (p_core self)))).

Definition prove_and_return_transcript `{CryptoRngCore R} (self : Prover)
    (bp_gens : BulletproofGens) (rng : R) : outcome R1CSError (R1CSProof * Transcript) * R :=
  let n1 := length (a_L (p_secrets (p_core self))) in
  let '(trng, rng) := prove_rng self rng in
  ((fp ← prove_first_phase self bp_gens trng (prove_transcript self);
    prove_second_phase n1 bp_gens fp), rng).

Definition r1cs_prove `{CryptoRngCore R} (self : Prover) (bp_gens : BulletproofGens) (rng : R)
    : outcome R1CSError R1CSProof * R :=
  let '(res, rng) := prove_and_return_transcript self bp_gens rng in
  ('(proof, _) ← res; mret proof, rng).
End prove.
