(* ===== verification/Verifier.v ===== *)
(** * The R1CS verifier (bulletproofs-cycle/r1cs/verifier.rs)

    The verifier's constraint system, the verification equation that it prepares
    for a proof, and the check of one equation or of a batch of them. *)

From Stdlib Require Import ZArith Lia Strings.Byte.
From stdpp Require Import prelude strings.
From S2P Require Import Prelude CoreError Group Algebra TestSupport Cycle BpUtil InnerProduct ConstraintSystem Generators R1csProof Prover.

Local Open Scope golden_scope.

Section model.
Context `{Cycle} `{Merlin}.

Record VerifierCore := MkVerifierCore {
  v_transcript : Transcript;
  v_constraints : list (LinearCombination CScalar);
  num_vars : nat;
  v_V : list Compressed;
  v_pending : option nat;
}.
Record Verifier := MkVerifier { v_core : VerifierCore; v_deferred : list Callback }.

(** ** [impl ConstraintSystem for Verifier] *)
Definition v_set_transcript (self : VerifierCore) (t : Transcript) : VerifierCore :=
  MkVerifierCore t (v_constraints self) (num_vars self) (v_V self) (v_pending self).
Definition v_next_var (self : VerifierCore) : VerifierCore :=
  MkVerifierCore (v_transcript self) (v_constraints self) (num_vars self + 1) (v_V self)
    (v_pending self).
Definition v_set_pending (pending : option nat) (self : VerifierCore) : VerifierCore :=
  MkVerifierCore (v_transcript self) (v_constraints self) (num_vars self) (v_V self) pending.
Definition verifier_constrain (lc : LinearCombination CScalar) (self : VerifierCore) : VerifierCore :=
  MkVerifierCore (v_transcript self) (v_constraints self ++ [lc]) (num_vars self) (v_V self)
    (v_pending self).

Definition verifier_multiply (left_ right_ : LinearCombination CScalar) (self : VerifierCore)
    : (CSVariable * CSVariable * CSVariable) * VerifierCore :=
  let var := num_vars self in
  let self := v_next_var self in
  let l_var := MultiplierLeft var in
  let r_var := MultiplierRight var in
  let o_var := MultiplierOutput var in
  let left_ := left_ ++ [(l_var, - (1))] in
  let right_ := right_ ++ [(r_var, - (1))] in
  let self := verifier_constrain left_ self in
  let self := verifier_constrain right_ self in
  ((l_var, r_var, o_var), self).

Definition verifier_allocate (_ : option CScalar) (self : VerifierCore)
    : result R1CSError CSVariable * VerifierCore :=
  match v_pending self with
  | None =>
      let i := num_vars self in
      (Ok (MultiplierLeft i), v_set_pending (Some i) (v_next_var self))
  | Some i => (Ok (MultiplierRight i), v_set_pending None self)
  end.

Definition verifier_allocate_multiplier (_ : option (CScalar * CScalar)) (self : VerifierCore)
    : result R1CSError (CSVariable * CSVariable * CSVariable) * VerifierCore :=
  let var := num_vars self in
  (Ok (MultiplierLeft var, MultiplierRight var, MultiplierOutput var), v_next_var self).

Definition verifier_metrics (deferred : nat) (self : VerifierCore) : Metrics :=
  MkMetrics (num_vars self) (length (v_constraints self) + deferred) (length (v_constraints self))
    deferred.

#[export] Instance RandomizingVerifier_cs : ConstraintSystem VerifierCore := {|
  cs_transcript := λ X f self, let '(x, t) := f (v_transcript self) in (x, v_set_transcript self t);
  cs_multiply := λ l r self, Some (verifier_multiply l r self);
  cs_allocate := λ a self, Some (verifier_allocate a self);
  cs_allocate_multiplier := verifier_allocate_multiplier;
  cs_metrics := verifier_metrics 0;
  cs_constrain := verifier_constrain;
|}.

Definition with_verifier_core {A} (deferred : list Callback) (r : A * VerifierCore) : A * Verifier :=
  let '(a, core) := r in (a, MkVerifier core deferred).

#[export] Instance Verifier_cs : ConstraintSystem Verifier := {|
  cs_transcript := λ X f self, with_verifier_core (v_deferred self) (cs_transcript f (v_core self));
  cs_multiply := λ l r self,
    Some (with_verifier_core (v_deferred self) (verifier_multiply l r (v_core self)));
  cs_allocate := λ a self,
    Some (with_verifier_core (v_deferred self) (verifier_allocate a (v_core self)));
  cs_allocate_multiplier := λ a self,
    with_verifier_core (v_deferred self) (verifier_allocate_multiplier a (v_core self));
  cs_metrics := λ self, verifier_metrics (length (v_deferred self)) (v_core self);
  cs_constrain := λ lc self, MkVerifier (verifier_constrain lc (v_core self)) (v_deferred self);
|}.

Definition verifier_specify_randomized_constraints (callback : Callback) (self : Verifier)
    : Verifier :=
  MkVerifier (v_core self) (v_deferred self ++ [callback]).

Definition Verifier_new (transcript : Transcript) : Verifier :=
  MkVerifier (MkVerifierCore (r1cs_domain_sep transcript) [] 0 [] None) [].

Definition verifier_commit (commitment : Compressed) (self : Verifier) : CSVariable * Verifier :=
  let core := v_core self in
  let i := length (v_V core) in
  (Committed i,
   MkVerifier
     (MkVerifierCore (append_point (bstr "V") commitment (v_transcript core)) (v_constraints core)
        (num_vars core) (v_V core ++ [commitment]) (v_pending core))
     (v_deferred self)).

(** ** Flattening

    The weights, and the weight [wc] of the constant. *)
Definition verifier_weigh (exp_z : CScalar) (st : Weights CScalar * CScalar)
    (term : CSVariable * CScalar) : option (Weights CScalar * CScalar) :=
  let '(w, wc) := st in
  let '(var, coeff) := term in
  let weighted := scaled_by_coefficient exp_z coeff in
  match var with
  | MultiplierLeft i => l ← add_at i weighted (wL w); Some (MkWeights l (wR w) (wO w) (wV w), wc)
  | MultiplierRight i => r ← add_at i weighted (wR w); Some (MkWeights (wL w) r (wO w) (wV w), wc)
  | MultiplierOutput i => o ← add_at i weighted (wO w); Some (MkWeights (wL w) (wR w) o (wV w), wc)
  | Committed i => v ← sub_at i weighted (wV w); Some (MkWeights (wL w) (wR w) (wO w) v, wc)
  | One => Some (w, wc - weighted)
  end.

Definition verifier_flattened_constraints (self : VerifierCore) (z : CScalar)
    : option (Weights CScalar * CScalar) :=
  let n := num_vars self in
  let m := length (v_V self) in
  let w := MkWeights (replicate n 0) (replicate n 0) (replicate n 0) (replicate m 0) in
  '(w, _) ←
    fold_option
      (λ '(w, exp_z) lc, w ← fold_option (verifier_weigh exp_z) w lc; Some (w, exp_z * z))
      (w, 0, z) (v_constraints self);
  Some w.

(** ** The randomization phase *)
Fixpoint verifier_callbacks (callbacks : list Callback) (self : VerifierCore)
    : outcome R1CSError VerifierCore :=
  match callbacks with
  | [] => mret self
  | callback :: callbacks =>
      '(res, self) ← no_panic (run_circuit callback self);
      _ ← returns res;
      verifier_callbacks callbacks self
  end.

Definition verifier_create_randomized_constraints (self : Verifier)
    : outcome R1CSError VerifierCore :=
  let core := v_set_pending None (v_core self) in
  match v_deferred self with
  | [] => mret (v_set_transcript core (r1cs_1phase_domain_sep (v_transcript core)))
  | callbacks =>
      verifier_callbacks callbacks
        (v_set_transcript core (r1cs_2phase_domain_sep (v_transcript core)))
  end.
End model.

(** ** The verification equation *)
Section equation.
Context `{Cycle} `{Merlin}.

Record VerificationEquation := MkVerificationEquation {
  pedersen_scalars : CScalar * CScalar;
  pedersen_points : CPoint * CPoint;
  g_scalars : list CScalar;
  g_points : list CAffine;
  h_scalars : list CScalar;
  h_points : list CAffine;
  proof_scalars : list CScalar;
  proof_points : list (option CPoint);
}.

(** [validate_and_append_point(..)?] for several points. *)
Fixpoint validate_points (points : list (list byte * Compressed))
    : stateful Transcript R1CSError unit := λ t,
  match points with
  | [] => (Ok tt, t)
  | (label, p) :: points =>
      match validate_and_append_point label p t with
      | (Ok _, t) => validate_points points t
      | (Err e, t) => (Err (R1CSError_from e), t)
      end
  end.

(** The coefficients of the equation, from the challenges, the weights and the
    scalars of the inner-product argument. *)
Section coefficients.
Context (x u y_inv : CScalar) (w : Weights CScalar) (a b : CScalar) (n1 : nat).

Definition u_or_1 (i : nat) : CScalar := if Nat.ltb i n1 then 1 else u.

Definition g_scalars_of (yneg_wR s : list CScalar) : list CScalar :=
  imap (λ i '(yneg_wRi, s_i), u_or_1 i * (x * yneg_wRi - a * s_i)) (zip yneg_wR s).

Definition h_scalars_of (y_inv_vec s : list CScalar) : list CScalar :=
  imap (λ i '(y_inv_i, s_i_inv),
          let wLi := default 0 (wL w !! i) in
          let wOi := default 0 (wO w !! i) in
          u_or_1 i * (y_inv_i * (x * wLi + wOi - b * s_i_inv) - 1)) (zip y_inv_vec (reverse s)).
End coefficients.

(** [verification_equation_and_return_transcript] up to the second challenges:
    the verifier with its randomized constraints and the padded length. *)
Definition equation_prologue (self : Verifier) (proof : R1CSProof) (bp_gens : BulletproofGens)
    : outcome R1CSError (VerifierCore * Transcript) :=
  let core := v_core self in
  let transcript := append_u64 (bstr "m") (Z.of_nat (length (v_V core))) (v_transcript core) in
  let '(res, transcript) :=
    validate_points [(bstr "A_I1", A_I1 proof); (bstr "A_O1", A_O1 proof); (bstr "S1", S1 proof)]
      transcript in
  _ ← returns res;
  core ← verifier_create_randomized_constraints
           (MkVerifier (v_set_transcript core transcript) (v_deferred self));
  let padded_n := next_power_of_two (num_vars core) in
  if Nat.ltb (gens_capacity bp_gens) padded_n then returns (Err R1CSInvalidGeneratorsLength)
  else
    let transcript := append_phase2 [A_I2 proof; A_O2 proof; S2 proof] (v_transcript core) in
    mret (core, transcript).

(** The rest of it.  The batching scalar [r] is drawn from the transcript's
    generator, after everything that can fail but the generators' existence. *)
Definition equation_coefficients (core : VerifierCore) (n1 : nat) (proof : R1CSProof)
    (pc_gens : PedersenGens) (y u x w_ch : CScalar)
    (scalars : list CScalar * list CScalar * list CScalar) (weights : Weights CScalar * CScalar)
    (g h : list CAffine) (r : CScalar) : VerificationEquation :=
  let '(u_sq, u_inv_sq, s) := scalars in
  let '(w, wc) := weights in
  let n := num_vars core in
  let padded_n := next_power_of_two n in
  let pad := (padded_n - n)%nat in
  let a := ipp_a (ipp_proof proof) in
  let b := ipp_b (ipp_proof proof) in
  let y_inv := scalar_invert y in
  let y_inv_vec := exp_take padded_n (exp_iter y_inv) in
  let yneg_wR := zip_with (λ wRi ey, wRi * ey) (wR w) y_inv_vec ++ replicate pad 0 in
  let delta := inner_product (take n yneg_wR) (wL w) in
  let g_scalars := g_scalars_of x u a n1 yneg_wR s in
  let h_scalars := h_scalars_of x u w b n1 y_inv_vec s in
  let xx := x * x in
  let rxx := r * xx in
  let xxx := x * xx in
  let T_scalars := [r * x; rxx * x; rxx * xx; rxx * xxx; rxx * xx * xx] in
  let T_points := [T_1 proof; T_3 proof; T_4 proof; T_5 proof; T_6 proof] in
  let proof_scalars :=
    [x; xx; xxx; u * x; u * xx; u * xxx] ++ ((λ wVi, wVi * rxx) <$> wV w) ++ T_scalars
    ++ u_sq ++ u_inv_sq in
  let proof_points :=
    compressed_decompress
      <$> ([A_I1 proof; A_O1 proof; S1 proof; A_I2 proof; A_O2 proof; S2 proof] ++ v_V core
           ++ T_points ++ ipp_L_vec (ipp_proof proof) ++ ipp_R_vec (ipp_proof proof)) in
  let pedersen_scalars :=
    (w_ch * (t_x proof - a * b) + r * (xx * (wc + delta) - t_x proof),
     - e_blinding proof - r * t_x_blinding proof) in
  MkVerificationEquation pedersen_scalars (pc_B pc_gens, pc_B_blinding pc_gens) g_scalars g
    h_scalars h proof_scalars proof_points.

Definition verification_equation_and_return_transcript `{CryptoRngCore R} (self : Verifier)
    (proof : R1CSProof) (pc_gens : PedersenGens) (bp_gens : BulletproofGens) (rng : R)
    : outcome R1CSError (VerificationEquation * Transcript) * R :=
  let n1 := num_vars (v_core self) in
  match equation_prologue self proof bp_gens with
  | None => (None, rng)
  | Some (Err e) => (Some (Err e), rng)
  | Some (Ok (core, transcript)) =>
      let '(y, transcript) := challenge_scalar (bstr "y") transcript in
      let '(z, transcript) := challenge_scalar (bstr "z") transcript in
      match
        validate_points [(bstr "T_1", T_1 proof); (bstr "T_3", T_3 proof); (bstr "T_4", T_4 proof);
                         (bstr "T_5", T_5 proof); (bstr "T_6", T_6 proof)] transcript
      with
      | (Err e, _) => (Some (Err e), rng)
      | (Ok _, transcript) =>
          let '(u, transcript) := challenge_scalar (bstr "u") transcript in
          let '(x, transcript) := challenge_scalar (bstr "x") transcript in
          let transcript :=
            append_evaluations (t_x proof) (t_x_blinding proof) (e_blinding proof) transcript in
          let '(w_ch, transcript) := challenge_scalar (bstr "w") transcript in
          match verifier_flattened_constraints core z with
          | None => (None, rng)
          | Some weights =>
              match
                verification_scalars (ipp_proof proof) (next_power_of_two (num_vars core)) transcript
              with
              | (Err _, _) => (Some (Err R1CSVerificationError), rng)
              | (Ok scalars, transcript) =>
                  let builder := build_rng transcript in
                  let '(trng, rng) := finalize rng builder in
                  let '(r, _) := srandom trng in
                  ((g ← no_panic (shared_G bp_gens 0);
                    h ← no_panic (shared_H bp_gens 0);
                    mret (equation_coefficients core n1 proof pc_gens y u x w_ch scalars weights
                            g h r, transcript)), rng)
              end
          end
      end
  end.

(** ** Checking equations *)
Definition collect_points (points : list (option CPoint)) : option (list CPoint) := mapM id points.

(** The last steps of [verify] and of [verify_batch_iter]; the slices are in
    bounds after the length checks. *)
Definition check_msm (pedersen_scalars : CScalar * CScalar) (pedersen_points : CPoint * CPoint)
    (g_scalars : list CScalar) (g_points : list CAffine) (h_scalars : list CScalar)
    (h_points : list CAffine) (proof_scalars : list CScalar) (proof_points : list (option CPoint))
    : outcome R1CSError unit :=
  let scalars := [pedersen_scalars.1; pedersen_scalars.2] ++ proof_scalars in
  points ← returns (ok_or R1CSVerificationError
             (collect_points ([Some pedersen_points.1; Some pedersen_points.2] ++ proof_points)));
  g_slice ← no_panic (slice 0 (length g_scalars) g_points);
  h_slice ← no_panic (slice 0 (length h_scalars) h_points);
  let check := vartime_msm_mixed [(g_scalars, g_slice); (h_scalars, h_slice)] scalars points in
  if bool_decide (check = cpoint_identity) then mret tt else returns (Err R1CSVerificationError).

Definition equation_verify (self : VerificationEquation) : outcome R1CSError unit :=
  if (Nat.ltb (length (g_points self)) (length (g_scalars self))
      || Nat.ltb (length (h_points self)) (length (h_scalars self))
      || negb (Nat.eqb (length (proof_scalars self)) (length (proof_points self))))%bool
  then returns (Err R1CSVerificationError)
  else
    check_msm (pedersen_scalars self) (pedersen_points self) (g_scalars self) (g_points self)
      (h_scalars self) (h_points self) (proof_scalars self) (proof_points self).

Definition verify_and_return_transcript `{CryptoRngCore R} (self : Verifier) (proof : R1CSProof)
    (pc_gens : PedersenGens) (bp_gens : BulletproofGens) (rng : R)
    : outcome R1CSError Transcript * R :=
  let '(res, rng) := verification_equation_and_return_transcript self proof pc_gens bp_gens rng in
  (('(equation, transcript) ← res; _ ← equation_verify equation; mret transcript), rng).

Definition r1cs_verify `{CryptoRngCore R} (self : Verifier) (proof : R1CSProof)
    (pc_gens : PedersenGens) (bp_gens : BulletproofGens) (rng : R) : outcome R1CSError unit * R :=
  let '(res, rng) := verify_and_return_transcript self proof pc_gens bp_gens rng in
  ((_ ← res; mret tt), rng).
End equation.
