(* ===== verification/R1csSync.v ===== *)
(** * Prover and verifier build the same constraint system

    A simulation between two implementations of the constraint-system interface
    extends to every circuit; the prover's and the verifier's states are related
    by one, and the invariants of the prover's assignment hold after every
    circuit.  The weights into which both flatten the constraints agree, and add
    up to the value of the constraints under the assignment. *)

From Stdlib Require Import ZArith Lia Field Strings.Byte.
From stdpp Require Import prelude strings.
From S2P Require Import Prelude CoreError Group Algebra TestSupport Cycle BpUtil InnerProduct ConstraintSystem Generators R1csProof Prover Verifier.

Local Open Scope golden_scope.

(** ** Circuits preserve simulations and invariants *)
Section circuits.
Context {CY : Cycle} {ME : Merlin}.

Class CsSimulation {StP StV} `{!ConstraintSystem StP} `{!ConstraintSystem StV}
    (Rel : StP → StV → Prop) : Prop := {
  sim_transcript {X} (f : Transcript → X * Transcript) P V x P' :
    Rel P V → cs_transcript f P = (x, P') → ∃ V', cs_transcript f V = (x, V') ∧ Rel P' V';
  sim_multiply l r P V vars P' :
    Rel P V → cs_multiply l r P = Some (vars, P') →
    ∃ V', cs_multiply l r V = Some (vars, V') ∧ Rel P' V';
  sim_allocate w o P V v P' :
    Rel P V → cs_allocate (Some w) P = Some (v, P') →
    ∃ x V', v = Ok x ∧ cs_allocate o V = Some (Ok x, V') ∧ Rel P' V';
  sim_allocate_multiplier lr o P V v P' :
    Rel P V → cs_allocate_multiplier (Some lr) P = (v, P') →
    ∃ vars V', v = Ok vars ∧ cs_allocate_multiplier o V = (Ok vars, V') ∧ Rel P' V';
  sim_metrics P V : Rel P V → cs_metrics P = cs_metrics V;
  sim_constrain lc P V : Rel P V → Rel (cs_constrain lc P) (cs_constrain lc V);
}.

Lemma run_circuit_simulation {StP StV} `{!ConstraintSystem StP} `{!ConstraintSystem StV}
    {Rel : StP → StV → Prop} `{!CsSimulation Rel} {A} (c c' : circuit A) P V a P' :
  same_circuit c c' → Rel P V → run_circuit c P = Some (a, P') →
  ∃ V', run_circuit c' V = Some (a, V') ∧ Rel P' V'.
Proof.
  intros Hc. revert P V. induction Hc as
    [a0|X f k k' _ IH|l r k k' _ IH|w o k k' _ IH|lr o k k' _ IH|k k' _ IH|lc k k' _ IH];
    intros P V HR Hrun; cbn [run_circuit] in *.
  - injection Hrun as <- <-. by exists V.
  - destruct (cs_transcript f P) as [x P1] eqn:E.
    destruct (sim_transcript f P V x P1 HR E) as (V1 & -> & HR1). by apply IH with P1.
  - apply bind_Some in Hrun as ([vars P1] & E & Hrun).
    destruct (sim_multiply l r P V vars P1 HR E) as (V1 & -> & HR1). by apply IH with P1.
  - apply bind_Some in Hrun as ([v P1] & E & Hrun).
    destruct (sim_allocate w o P V v P1 HR E) as (x & V1 & -> & -> & HR1). by apply IH with P1.
  - destruct (cs_allocate_multiplier (Some lr) P) as [v P1] eqn:E.
    destruct (sim_allocate_multiplier lr o P V v P1 HR E) as (x & V1 & -> & -> & HR1).
    by apply IH with P1.
  - rewrite <-(sim_metrics P V HR). by apply IH with P.
  - apply IH with (cs_constrain lc P); [by apply sim_constrain|done].
Qed.

Class CsInvariant {St} `{!ConstraintSystem St} (I : St → Prop) : Prop := {
  inv_transcript {X} (f : Transcript → X * Transcript) st x st' :
    I st → cs_transcript f st = (x, st') → I st';
  inv_multiply l r st vars st' : I st → cs_multiply l r st = Some (vars, st') → I st';
  inv_allocate o st v st' : I st → cs_allocate o st = Some (v, st') → I st';
  inv_allocate_multiplier o st v st' : I st → cs_allocate_multiplier o st = (v, st') → I st';
  inv_constrain lc st : I st → I (cs_constrain lc st);
}.

Lemma run_circuit_invariant {St} `{!ConstraintSystem St} {I : St → Prop} `{!CsInvariant I} {A} (c : circuit A) st a st' :
  I st → run_circuit c st = Some (a, st') → I st'.
Proof.
  revert st. induction c as [a0|X f k IH|l r k IH|o k IH|o k IH|k IH|lc k IH];
    intros st HI Hrun; cbn [run_circuit] in *.
  - by injection Hrun as <- <-.
  - destruct (cs_transcript f st) as [x st1] eqn:E. eapply IH; [|exact Hrun]. by eapply inv_transcript.
  - apply bind_Some in Hrun as ([vars st1] & E & Hrun). eapply IH; [|exact Hrun]. by eapply inv_multiply.
  - apply bind_Some in Hrun as ([v st1] & E & Hrun). eapply IH; [|exact Hrun]. by eapply inv_allocate.
  - destruct (cs_allocate_multiplier o st) as [v st1] eqn:E. eapply IH; [|exact Hrun].
    by eapply inv_allocate_multiplier.
  - by eapply IH.
  - eapply IH; [|exact Hrun]. by apply inv_constrain.
Qed.
End circuits.

(** ** The relation between prover and verifier *)
Section sync.
Context {CY : Cycle} {ME : Merlin}.

(** The commitments to the committed values. *)
Definition value_commitments (pc_gens : PedersenGens) (secrets : Secrets) : list Compressed :=
  zip_with (λ v v_b, point_compress (pc_commit pc_gens v v_b)) (sec_v secrets) (v_blinding secrets).

Record core_sync (P : ProverCore) (V : VerifierCore) : Prop := MkCoreSync {
  sync_transcript : p_transcript P = v_transcript V;
  sync_constraints : p_constraints P = v_constraints V;
  sync_pending : p_pending P = v_pending V;
  sync_L : length (a_L (p_secrets P)) = num_vars V;
  sync_R : length (a_R (p_secrets P)) = num_vars V;
  sync_O : length (a_O (p_secrets P)) = num_vars V;
  sync_v : length (sec_v (p_secrets P)) = length (v_blinding (p_secrets P));
  sync_V : v_V V = value_commitments (p_pc_gens P) (p_secrets P);
}.

Lemma set_at_Some {A} i (x : A) v v' :
  set_at i x v = Some v' → (i < length v)%nat ∧ v' = <[i := x]> v.
Proof.
  unfold set_at. destruct (v !! i) eqn:E; [|done]. intros [= <-].
  split; [by eapply lookup_lt_Some|done].
Qed.

#[export] Instance core_simulation : CsSimulation core_sync.
Proof.
  split.
  - intros X f P V x P' [] Hf. cbn in *. rewrite <-sync_transcript0.
    destruct (f (p_transcript P)) as [y t]. injection Hf as <- <-. eexists. split; [done|]. by split.
  - intros l r P V vars P' [] Hm. cbn in *. unfold prover_multiply in Hm.
    apply bind_Some in Hm as (x & _ & Hm). apply bind_Some in Hm as (y & _ & Hm).
    injection Hm as <- <-. eexists. unfold verifier_multiply, prover_vars.
    rewrite sync_L0, sync_R0, sync_O0. split; [done|]. split; cbn; try done; rewrite ?length_app;
      cbn; try lia. by rewrite sync_constraints0.
  - intros w o P V v P' [] Ha. cbn in *. unfold prover_allocate, verifier_allocate in *.
    rewrite <-sync_pending0. destruct (p_pending P) as [i|].
    + apply bind_Some in Ha as (aR & HaR & Ha). apply bind_Some in Ha as (x & Hx & Ha).
      apply bind_Some in Ha as (y & Hy & Ha). apply bind_Some in Ha as (aO & HaO & Ha).
      injection Ha as <- <-. apply set_at_Some in HaR as [_ ->], HaO as [_ ->].
      eexists _, _. split; [done|]. split; [done|]. split; cbn; rewrite ?length_insert; done.
    + injection Ha as <- <-. eexists _, _. rewrite sync_L0. split; [done|]. split; [done|].
      split; cbn; rewrite ?length_app; cbn; try done; try lia.
  - intros [l r] o P V v P' [] Ha. cbn in *. injection Ha as <- <-.
    eexists _, _. unfold prover_vars. rewrite sync_L0, sync_R0, sync_O0.
    split; [done|]. split; [done|]. split; cbn; rewrite ?length_app; cbn; try done; try lia.
  - intros P V []. cbn. unfold prover_metrics, verifier_metrics. by rewrite sync_L0, sync_constraints0.
  - intros lc P V []. cbn. split; cbn; try done. by rewrite sync_constraints0.
Qed.

Definition full_sync (P : Prover) (V : Verifier) : Prop :=
  core_sync (p_core P) (v_core V) ∧ Forall2 same_circuit (p_deferred P) (v_deferred V).

#[export] Instance full_simulation : CsSimulation full_sync.
Proof.
  split.
  - intros X f [P ds] [V es] x P' [HR Hd] Hf.
    destruct (cs_transcript f P) as [y P1] eqn:E.
    destruct (@sim_transcript _ _ _ _ _ _ _ core_simulation X f P V y P1 HR E) as (V1 & E' & HR1).
    exists (MkVerifier V1 es). cbn [cs_transcript Prover_cs Verifier_cs p_core p_deferred v_core v_deferred] in *.
    rewrite E in Hf. injection Hf as <- <-. rewrite E'. by split.
  - intros l r [P ds] [V es] vars P' [HR Hd] Hm. cbn [cs_multiply Prover_cs p_core p_deferred] in Hm.
    destruct (prover_multiply l r P) as [[vs P1]|] eqn:E; [|done]. injection Hm as <- <-.
    destruct (@sim_multiply _ _ _ _ _ _ _ core_simulation l r P V vs P1 HR E) as (V1 & E' & HR1). 
    change (Some (verifier_multiply l r V) = Some (vs, V1)) in E'. apply (inj Some) in E'.
    exists (MkVerifier V1 es). cbn [cs_multiply Verifier_cs v_core v_deferred].
    rewrite E'. by split.
  - intros w o [P ds] [V es] v P' [HR Hd] Ha. cbn [cs_allocate Prover_cs p_core p_deferred] in Ha.
    destruct (prover_allocate (Some w) P) as [[vs P1]|] eqn:E; [|done]. injection Ha as <- <-.
    destruct (@sim_allocate _ _ _ _ _ _ _ core_simulation w o P V vs P1 HR E) as (x & V1 & -> & E' & HR1). 
    change (Some (verifier_allocate o V) = Some (Ok x, V1)) in E'. apply (inj Some) in E'.
    exists x, (MkVerifier V1 es). cbn [cs_allocate Verifier_cs v_core v_deferred].
    rewrite E'. by split.
  - intros lr o [P ds] [V es] v P' [HR Hd] Ha.
    cbn [cs_allocate_multiplier Prover_cs p_core p_deferred] in Ha.
    destruct (prover_allocate_multiplier (Some lr) P) as [vs P1] eqn:E. injection Ha as <- <-.
    destruct (@sim_allocate_multiplier _ _ _ _ _ _ _ core_simulation lr o P V vs P1 HR E) as (x & V1 & -> & E' & HR1).
    exists x, (MkVerifier V1 es). cbn [cs_allocate_multiplier Verifier_cs v_core v_deferred] in *.
    cbn [cs_allocate_multiplier RandomizingVerifier_cs] in E'. rewrite E'. by split.
  - intros [P ds] [V es] [[] Hd]. cbn in *. unfold prover_metrics, verifier_metrics.
    pose proof (Forall2_length _ _ _ Hd) as Hl. unfold Callback in *.
    by rewrite sync_L0, sync_constraints0, Hl.
  - intros lc [P ds] [V es] [HR Hd]. split; [|done]. by apply (@sim_constrain _ _ _ _ _ _ _ core_simulation lc P V).
Qed.

(** The states in which both start, commitments, and callbacks. *)
Lemma new_sync pc_gens t : full_sync (Prover_new pc_gens t) (Verifier_new t).
Proof. split; [by split|constructor]. Qed.

Lemma commit_sync P V v v_b :
  full_sync P V →
  let '((C, var), P') := prover_commit v v_b P in
  let '(var', V') := verifier_commit C V in
  var = var' ∧ full_sync P' V'.
Proof.
  intros [[] Hd]. cbn. split.
  { rewrite sync_V0. unfold value_commitments. rewrite length_zip_with, <-sync_v0, Nat.min_id. done. }
  split; [|done]. split; cbn; try done.
  - by rewrite sync_transcript0.
  - rewrite !length_app, sync_v0. done.
  - unfold value_commitments in *. cbn. rewrite zip_with_app by done. by rewrite sync_V0.
Qed.

Lemma specify_sync P V c c' :
  full_sync P V → same_circuit c c' →
  full_sync (prover_specify_randomized_constraints c P) (verifier_specify_randomized_constraints c' V).
Proof. intros [HR Hd] Hc. split; [done|]. apply Forall2_app; [done|]. by constructor. Qed.

Lemma callbacks_sync ds es P V P' :
  Forall2 same_circuit ds es → core_sync P V → prover_callbacks ds P = Some (Ok P') →
  ∃ V', verifier_callbacks es V = Some (Ok V') ∧ core_sync P' V'.
Proof.
  intros Hd. revert P V. induction Hd as [|c c' ds es Hc _ IH]; intros P V HR; cbn [prover_callbacks].
  { intros [= <-]. by exists V. }
  intros ([res P1] & Hrun & Hrest)%outcome_bind_Ok.
  apply no_panic_inv in Hrun.
  apply outcome_bind_Ok in Hrest as ([] & Hres & Hrest). apply returns_Ok in Hres.
  destruct (run_circuit_simulation c c' P V res P1 Hc HR Hrun) as (V1 & Hrun' & HR1).
  destruct (IH P1 V1 HR1 Hrest) as (V' & Hv & HR'). exists V'. split; [|done].
  cbn [verifier_callbacks]. rewrite Hrun', Hres. exact Hv.
Qed.

Lemma randomized_sync P V P' :
  full_sync P V → prover_create_randomized_constraints P = Some (Ok P') →
  ∃ V', verifier_create_randomized_constraints V = Some (Ok V') ∧ core_sync P' V'.
Proof.
  intros [[] Hd] HP. unfold prover_create_randomized_constraints in HP.
  unfold verifier_create_randomized_constraints. destruct Hd as [|c c' ds es Hc Hd].
  - injection HP as <-. eexists. split; [done|]. split; cbn; try done. by rewrite sync_transcript0.
  - revert HP. apply callbacks_sync; [by constructor|]. split; cbn; try done.
    by rewrite sync_transcript0.
Qed.
End sync.

(** ** The prover's assignment *)
Section assignment.
Context {CY : Cycle} {CL : CycleLaws} {ME : Merlin}.
Add Field sync_field : (scalar_field_theory (F:=CScalar)).

(** Every multiplier is assigned on its three wires, and its output is the product of
    its inputs; a multiplier that waits for its right input has a zero there. *)
Record core_wf (P : ProverCore) : Prop := MkCoreWf {
  wf_R : length (a_R (p_secrets P)) = length (a_L (p_secrets P));
  wf_O : a_O (p_secrets P) = zip_with smul (a_L (p_secrets P)) (a_R (p_secrets P));
  wf_v : length (sec_v (p_secrets P)) = length (v_blinding (p_secrets P));
  wf_pending i : p_pending P = Some i → (i < length (a_L (p_secrets P)))%nat;
}.

Lemma zip_with_snoc {A B C} (f : A → B → C) l k x y :
  length l = length k → zip_with f (l ++ [x]) (k ++ [y]) = zip_with f l k ++ [f x y].
Proof. intros. by rewrite zip_with_app. Qed.

Lemma push_wf P l r o pending constraints t :
  core_wf P → o = l * r →
  (∀ i, pending = Some i → (i < S (length (a_L (p_secrets P))))%nat) →
  core_wf (MkProverCore t (p_pc_gens P) constraints (p_secrets (push_multiplier P l r o)) pending).
Proof.
  intros [] -> Hp. split; cbn.
  - rewrite !length_app, wf_R0. done.
  - rewrite zip_with_snoc by done. by rewrite wf_O0.
  - done.
  - intros i Hi. rewrite length_app. simpl. pose proof (Hp i Hi). lia.
Qed.

#[export] Instance wf_invariant : CsInvariant core_wf.
Proof.
  split.
  - intros X f P x P' [] Hf. cbn in Hf. destruct (f _). injection Hf as <- <-. by split.
  - intros l r P vars P' HP Hm. cbn in Hm. unfold prover_multiply in Hm.
    apply bind_Some in Hm as (x & _ & Hm). apply bind_Some in Hm as (y & _ & Hm).
    injection Hm as <- <-. refine (push_wf P x y (x * y) (p_pending P) _ _ HP eq_refl _).
    destruct HP. intros i Hi%wf_pending0. lia.
  - intros o P v P' HP Ha. cbn in Ha. unfold prover_allocate in Ha.
    destruct o as [w|]; [|by injection Ha as <- <-]. destruct (p_pending P) as [i|] eqn:Hi.
    + apply bind_Some in Ha as (aR & HaR & Ha). apply bind_Some in Ha as (x & Hx & Ha).
      apply bind_Some in Ha as (y & Hy & Ha). apply bind_Some in Ha as (aO & HaO & Ha).
      injection Ha as <- <-. apply set_at_Some in HaR as [Hlt ->], HaO as [_ ->].
      rewrite list_lookup_insert_eq in Hy by done. injection Hy as <-. destruct HP. split; cbn; try done.
      * by rewrite length_insert.
      * rewrite wf_O0, insert_zip_with, (list_insert_id _ _ _ Hx). done.
    + injection Ha as <- <-. refine (push_wf P w 0 0 (Some _) _ _ HP _ _); [ring|]. intros j [= <-]. lia.
  - intros [[l r]|] P v P' HP Ha; injection Ha as <- <-; [|done].
    refine (push_wf P l r (l * r) (p_pending P) _ _ HP eq_refl _). destruct HP. intros i Hi%wf_pending0. lia.
  - intros lc P []. by split.
Qed.

(** What the randomization phase leaves of the [k] multipliers of [P0]. *)
Record core_extends (k : nat) (P0 P : ProverCore) : Prop := MkCoreExtends {
  ext_wf : core_wf P;
  ext_k : (k ≤ length (a_L (p_secrets P)))%nat;
  ext_L : take k (a_L (p_secrets P)) = take k (a_L (p_secrets P0));
  ext_R : take k (a_R (p_secrets P)) = take k (a_R (p_secrets P0));
  ext_O : take k (a_O (p_secrets P)) = take k (a_O (p_secrets P0));
  ext_pending i : p_pending P = Some i → (k ≤ i)%nat;
  ext_gens : p_pc_gens P = p_pc_gens P0;
  ext_v : sec_v (p_secrets P) = sec_v (p_secrets P0);
  ext_v_blinding : v_blinding (p_secrets P) = v_blinding (p_secrets P0);
}.

Lemma push_extends k P0 P l r o pending constraints t :
  core_extends k P0 P → o = l * r →
  (∀ i, pending = Some i → (k ≤ i < S (length (a_L (p_secrets P))))%nat) →
  core_extends k P0
    (MkProverCore t (p_pc_gens P) constraints (p_secrets (push_multiplier P l r o)) pending).
Proof.
  intros [] Ho Hp. pose proof ext_wf0 as []. split; cbn; try done.
  - apply push_wf; [done|done|]. intros i Hi%Hp. lia.
  - rewrite length_app. lia.
  - by rewrite take_app_le by lia.
  - by rewrite take_app_le by lia.
  - rewrite take_app_le; [done|]. rewrite wf_O0, length_zip_with. lia.
  - intros i Hi%Hp. lia.
Qed.

#[export] Instance extends_invariant k P0 : CsInvariant (core_extends k P0).
Proof.
  split.
  - intros X f P x P' HP Hf. pose proof (ext_wf _ _ _ HP) as Hw.
    pose proof (inv_transcript (I:=core_wf) f P x P' Hw Hf) as Hw'. destruct HP.
    cbn in Hf. destruct (f _). injection Hf as <- <-. by split.
  - intros l r P vars P' HP Hm. cbn in Hm. unfold prover_multiply in Hm.
    apply bind_Some in Hm as (x & _ & Hm). apply bind_Some in Hm as (y & _ & Hm).
    injection Hm as <- <-. refine (push_extends k P0 P x y (x * y) (p_pending P) _ _ HP eq_refl _).
    destruct HP as [[] ? ? ? ? Hpend].
    intros i Hi. pose proof (wf_pending0 i Hi). pose proof (Hpend i Hi). lia.
  - intros o P v P' HP Ha. pose proof (ext_wf _ _ _ HP) as Hw.
    pose proof (inv_allocate (I:=core_wf) o P v P' Hw Ha) as Hw'. cbn in Ha. unfold prover_allocate in Ha.
    destruct o as [w|]; [|by injection Ha as <- <-]. destruct (p_pending P) as [i|] eqn:Hi.
    + apply bind_Some in Ha as (aR & HaR & Ha). apply bind_Some in Ha as (x & Hx & Ha).
      apply bind_Some in Ha as (y & Hy & Ha). apply bind_Some in Ha as (aO & HaO & Ha).
      injection Ha as <- <-. apply set_at_Some in HaR as [Hlt ->], HaO as [_ ->]. destruct HP.
      pose proof (ext_pending0 i Hi). split; cbn in *; try done.
      * by rewrite take_insert_ge.
      * by rewrite take_insert_ge.
    + injection Ha as <- <-. pose proof (ext_k _ _ _ HP).
      refine (push_extends k P0 P w 0 0 (Some _) _ _ HP _ _); [ring|]. intros j [= <-]. lia.
  - intros [[l r]|] P v P' HP Ha; injection Ha as <- <-; [|done].
    refine (push_extends k P0 P l r (l * r) (p_pending P) _ _ HP eq_refl _). destruct HP as [[] ? ? ? ? Hpend].
    intros i Hi. pose proof (wf_pending0 i Hi). pose proof (Hpend i Hi). lia.
  - intros lc P HP. pose proof (ext_wf _ _ _ HP) as Hw.
    pose proof (inv_constrain (I:=core_wf) lc P Hw). destruct HP. by split.
Qed.

(** An invariant of the fields is one of the whole prover. *)
#[export] Instance prover_invariant (I : ProverCore → Prop) `{!CsInvariant I} :
  CsInvariant (λ P : Prover, I (p_core P)).
Proof.
  split.
  - intros X f [P ds] x P' HP Hf. cbn [cs_transcript Prover_cs p_core p_deferred] in *.
    destruct (cs_transcript f P) as [y P1] eqn:E. injection Hf as <- <-. by eapply inv_transcript.
  - intros l r [P ds] vars P' HP Hm. cbn [cs_multiply Prover_cs p_core p_deferred] in *.
    destruct (prover_multiply l r P) as [[vs P1]|] eqn:E; [|done]. injection Hm as <- <-.
    by eapply (inv_multiply (I:=I)).
  - intros o [P ds] v P' HP Ha. cbn [cs_allocate Prover_cs p_core p_deferred] in *.
    destruct (prover_allocate o P) as [[vs P1]|] eqn:E; [|done]. injection Ha as <- <-.
    by eapply (inv_allocate (I:=I)).
  - intros o [P ds] v P' HP Ha. cbn [cs_allocate_multiplier Prover_cs p_core p_deferred] in *.
    destruct (prover_allocate_multiplier o P) as [vs P1] eqn:E. injection Ha as <- <-.
    by eapply (inv_allocate_multiplier (I:=I)).
  - intros lc [P ds] HP. exact (inv_constrain (I:=I) lc P HP).
Qed.

Lemma callbacks_invariant (I : ProverCore → Prop) `{!CsInvariant I} ds P P' :
  I P → prover_callbacks ds P = Some (Ok P') → I P'.
Proof.
  revert P. induction ds as [|c ds IH]; intros P HP; cbn [prover_callbacks].
  { by intros [= <-]. }
  intros ([res P1] & Hrun & Hrest)%outcome_bind_Ok. apply no_panic_inv in Hrun.
  apply outcome_bind_Ok in Hrest as ([] & _ & Hrest). eapply IH; [|exact Hrest].
  by eapply run_circuit_invariant.
Qed.

(** Callbacks never touch what the first phase committed to. *)
Lemma randomized_extends P P' :
  core_wf (p_core P) → prover_create_randomized_constraints P = Some (Ok P') →
  core_extends (length (a_L (p_secrets (p_core P)))) (p_core P) P'.
Proof.
  intros Hw HP. unfold prover_create_randomized_constraints in HP.
  assert (Hstart : ∀ t, core_extends (length (a_L (p_secrets (p_core P)))) (p_core P)
    (set_transcript (MkProverCore (p_transcript (p_core P)) (p_pc_gens (p_core P))
       (p_constraints (p_core P)) (p_secrets (p_core P)) None) t)).
  { intros t. destruct Hw. split; cbn; try done. }
  destruct (p_deferred P) as [|c ds].
  - injection HP as <-. apply Hstart.
  - revert HP. apply (callbacks_invariant (core_extends _ _)), Hstart.
Qed.
End assignment.

(** ** Flattening *)
Section flattening.
Context {CY : Cycle} {CL : CycleLaws} {ME : Merlin}.
Add Field flatten_field : (scalar_field_theory (F:=CScalar)).

(** The value of a variable; flattening and [eval] panic where there is none. *)
Definition assignment (s : Secrets) (var : CSVariable) : CScalar := default 0 (eval_variable s var).

Definition satisfied (P : ProverCore) : Prop :=
  Forall (λ lc, lc_value (assignment (p_secrets P)) lc = 0) (p_constraints P).

Definition weights_sized (s : Secrets) (w : Weights CScalar) : Prop :=
  length (wL w) = length (a_L s) ∧ length (wR w) = length (a_R s) ∧
  length (wO w) = length (a_O s) ∧ length (wV w) = length (sec_v s).

Definition weights_value (s : Secrets) (w : Weights CScalar) : CScalar :=
  inner_product (wL w) (a_L s) + inner_product (wR w) (a_R s) + inner_product (wO w) (a_O s)
  - inner_product (wV w) (sec_v s).

Lemma insert_inner_product i (x y : CScalar) w a :
  w !! i = Some y → length w = length a →
  inner_product (<[i := x]> w) a = inner_product w a + (x - y) * default 0 (a !! i).
Proof.
  revert i a. induction w as [|z w IH]; intros i [|b a] Hi Hl; try done.
  destruct i as [|i]; simpl in Hi.
  - injection Hi as ->. simpl. rewrite !inner_product_cons. ring.
  - change (<[S i:=x]> (z :: w)) with (z :: <[i:=x]> w). rewrite !inner_product_cons, (IH i a Hi) by (simpl in Hl; lia).
    simpl. ring.
Qed.

Lemma add_at_inner_product i x w w' a :
  add_at i x w = Some w' → length w = length a →
  length w' = length w ∧ inner_product w' a = inner_product w a + x * default 0 (a !! i).
Proof.
  unfold add_at. destruct (w !! i) as [y|] eqn:E; [|done]. intros [= <-] Hl.
  rewrite length_insert, (insert_inner_product _ _ y) by done. split; [done|]. ring.
Qed.
Lemma sub_at_inner_product i x w w' a :
  sub_at i x w = Some w' → length w = length a →
  length w' = length w ∧ inner_product w' a = inner_product w a - x * default 0 (a !! i).
Proof.
  unfold sub_at. destruct (w !! i) as [y|] eqn:E; [|done]. intros [= <-] Hl.
  rewrite length_insert, (insert_inner_product _ _ y) by done. split; [done|]. ring.
Qed.

Lemma weigh_value exp_z s w wc term w' :
  weights_sized s w → prover_weigh exp_z w term = Some w' →
  weights_sized s w' ∧ ∃ wc', verifier_weigh exp_z (w, wc) term = Some (w', wc') ∧
    weights_value s w' - wc'
    = weights_value s w - wc + exp_z * (term.2 * assignment s term.1).
Proof.
  destruct term as [var coeff]. intros (HL & HR & HO & HV). unfold weights_sized, weights_value.
  unfold prover_weigh, verifier_weigh, assignment. cbn [fst snd].
  rewrite scaled_by_coefficient_spec. destruct var as [i|i|i|i|]; cbn [eval_variable].
  - intros (v & Hv & [= <-])%bind_Some. rewrite Hv. cbn [wL wR wO wV mbind option_bind].
    destruct (sub_at_inner_product _ _ _ _ _ Hv HV) as [-> ->]. split; [done|].
    eexists. split; [done|]. ring.
  - intros (v & Hv & [= <-])%bind_Some. rewrite Hv. cbn [wL wR wO wV mbind option_bind].
    destruct (add_at_inner_product _ _ _ _ _ Hv HL) as [-> ->]. split; [done|].
    eexists. split; [done|]. ring.
  - intros (v & Hv & [= <-])%bind_Some. rewrite Hv. cbn [wL wR wO wV mbind option_bind].
    destruct (add_at_inner_product _ _ _ _ _ Hv HR) as [-> ->]. split; [done|].
    eexists. split; [done|]. ring.
  - intros (v & Hv & [= <-])%bind_Some. rewrite Hv. cbn [wL wR wO wV mbind option_bind].
    destruct (add_at_inner_product _ _ _ _ _ Hv HO) as [-> ->]. split; [done|].
    eexists. split; [done|]. ring.
  - intros [= <-]. split; [done|]. eexists. split; [done|]. simpl. ring.
Qed.

Lemma weigh_terms_value exp_z s w wc lc w' :
  weights_sized s w → fold_option (prover_weigh exp_z) w lc = Some w' →
  weights_sized s w' ∧ ∃ wc', fold_option (verifier_weigh exp_z) (w, wc) lc = Some (w', wc') ∧
    weights_value s w' - wc' = weights_value s w - wc + exp_z * lc_value (assignment s) lc.
Proof.
  revert w wc. induction lc as [|[var coeff] lc IH]; intros w wc Hs; cbn [fold_option].
  { intros [= <-]. split; [done|]. exists wc. split; [done|]. simpl. ring. }
  intros (w1 & Hw1 & Hrest)%bind_Some.
  destruct (weigh_value exp_z s w wc _ w1 Hs Hw1) as (Hs1 & wc1 & E & Hval).
  destruct (IH w1 wc1 Hs1 Hrest) as (Hs' & wc' & E' & Hval').
  split; [done|]. exists wc'. rewrite E. cbn [mbind option_bind]. split; [done|].
  rewrite Hval', Hval. simpl. ring.
Qed.

(** The sum of the constraints, each weighted by its power of [z]. *)
Fixpoint weighted_sum (s : Secrets) (exp_z z : CScalar) (lcs : list (LinearCombination CScalar))
    : CScalar :=
  match lcs with
  | [] => 0
  | lc :: lcs => exp_z * lc_value (assignment s) lc + weighted_sum s (exp_z * z) z lcs
  end.

Lemma weigh_constraints_value z s exp_z w wc lcs w' exp_z' :
  weights_sized s w →
  fold_option (λ '(w, exp_z) lc, w ← fold_option (prover_weigh exp_z) w lc; Some (w, exp_z * z))
    (w, exp_z) lcs = Some (w', exp_z') →
  weights_sized s w' ∧ ∃ wc',
    fold_option (λ '(w, exp_z) lc, w ← fold_option (verifier_weigh exp_z) w lc; Some (w, exp_z * z))
      (w, wc, exp_z) lcs = Some (w', wc', exp_z') ∧
    weights_value s w' - wc' = weights_value s w - wc + weighted_sum s exp_z z lcs.
Proof.
  revert w wc exp_z. induction lcs as [|lc lcs IH]; intros w wc exp_z Hs; cbn [fold_option].
  { intros [= <- <-]. split; [done|]. exists wc. split; [done|]. simpl. ring. }
  intros ([w1 e1] & (w2 & Hw1 & [= <- <-])%bind_Some & Hrest)%bind_Some.
  destruct (weigh_terms_value exp_z s w wc lc w2 Hs Hw1) as (Hs1 & wc1 & E & Hval).
  destruct (IH w2 wc1 (exp_z * z) Hs1 Hrest) as (Hs' & wc' & E' & Hval').
  split; [done|]. exists wc'. rewrite E. cbn [mbind option_bind]. split; [done|].
  rewrite Hval', Hval. simpl. ring.
Qed.

Lemma weighted_sum_satisfied s exp_z z lcs :
  Forall (λ lc, lc_value (assignment s) lc = 0) lcs → weighted_sum s exp_z z lcs = 0.
Proof.
  intros Hs. revert exp_z. induction Hs as [|lc lcs H _ IH]; intros exp_z; [done|].
  simpl. rewrite H, IH. ring.
Qed.

Lemma flattened_sync P V z w :
  core_sync P V → prover_flattened_constraints P z = Some w →
  weights_sized (p_secrets P) w ∧ ∃ wc, verifier_flattened_constraints V z = Some (w, wc) ∧
    (satisfied P → weights_value (p_secrets P) w = wc).
Proof.
  intros [] Hw. unfold prover_flattened_constraints in Hw.
  apply bind_Some in Hw as ([w1 e1] & Hw & [= <-]).
  apply (weigh_constraints_value _ (p_secrets P) _ _ 0) in Hw as (Hs & wc & Hv & Hval).
  2: { unfold weights_sized. cbn. rewrite !length_replicate. repeat split; congruence. }
  split; [done|]. exists wc. split.
  - unfold verifier_flattened_constraints. rewrite <-sync_L0, <-sync_constraints0.
    assert (Hm : length (v_V V) = length (sec_v (p_secrets P))).
    { rewrite sync_V0. unfold value_commitments. rewrite length_zip_with, <-sync_v0. lia. }
    rewrite Hm, Hv. done.
  - intros Hsat. rewrite weighted_sum_satisfied in Hval by done.
    unfold weights_value in Hval at 2. cbn [wL wR wO wV] in Hval. rewrite !inner_product_zeros in Hval.
    apply (f_equal (λ x, x + wc)) in Hval. ring_simplify in Hval. rewrite Hval. ring.
Qed.
End flattening.

(** ** Properties *)
Section properties.
Context {CY : Cycle} {CL : CycleLaws} {ME : Merlin}.

(** C38: prover and verifier build the same constraint system.  A prover and a
    verifier in related states (equal transcripts and constraints, as many
    multipliers on both sides, commitments to the prover's committed values) that
    run the same circuit, the verifier without assignments, give the circuit the
    same variables, metrics and challenges and end in related states, and so do
    the callbacks that they deferred.  The weights into which the two then flatten
    their constraints are equal for every challenge, and if the assignment
    satisfies the constraints, the weighted assignment adds up to the constant
    that only the verifier computes. *)
Theorem constraint_systems_agree {A} (c c' : circuit A) P V a P' core z w :
  full_sync P V → same_circuit c c' → run_circuit c P = Some (a, P') →
  prover_create_randomized_constraints P' = Some (Ok core) →
  prover_flattened_constraints core z = Some w →
  ∃ V' vcore wc,
    run_circuit c' V = Some (a, V') ∧
    full_sync P' V' ∧
    verifier_create_randomized_constraints V' = Some (Ok vcore) ∧
    core_sync core vcore ∧
    verifier_flattened_constraints vcore z = Some (w, wc) ∧
    (satisfied core → weights_value (p_secrets core) w = wc).
Proof.
  intros HPV Hc Hrun Hrand Hw.
  destruct (run_circuit_simulation (Rel:=full_sync) c c' P V a P' Hc HPV Hrun) as (V' & HV' & Hsync).
  destruct (randomized_sync P' V' core Hsync Hrand) as (vcore & Hvr & Hcore).
  destruct (flattened_sync core vcore z w Hcore Hw) as (_ & wc & Hvw & Hval).
  by exists V', vcore, wc.
Qed.

(** C39: the prover's assignment stays well-formed.  Every circuit, run on a
    prover whose multipliers have an assignment on each wire with the output the
    product of the inputs, leaves such a prover, also while a multiplier waits for
    its right input; and the callbacks of the randomization phase only add
    multipliers: they change none that the first phase committed to, nor the
    committed values. *)
Theorem assignment_invariant {A} (c : circuit A) (P : Prover) a P' core :
  core_wf (p_core P) → run_circuit c P = Some (a, P') →
  prover_create_randomized_constraints P' = Some (Ok core) →
  core_wf (p_core P') ∧
  core_extends (length (a_L (p_secrets (p_core P')))) (p_core P') core.
Proof.
  intros Hw Hrun Hrand.
  assert (core_wf (p_core P')) as Hw'; [|split; [done|by apply randomized_extends]].
  exact (run_circuit_invariant (I:=λ P : Prover, core_wf (p_core P)) c P a P' Hw Hrun).
Qed.
End properties.

(** ** Witnesses

    The square of a committed value is 9; an allocated value is 5; and a callback
    multiplies the value, shifted by a challenge, with the allocated value. *)
Definition square_gens : PedersenGens (H:=TinyCycle) := MkPedersenGens (H:=TinyCycle) (tiny 2) (tiny 3).
Definition square_circuit (w : option TinyScalar) : circuit (H:=TinyCycle) (H0:=ToyMerlin) unit :=
  Multiply (lc_from_variable (Committed 0)) (lc_from_variable (Committed 0)) (λ '(_, _, o),
    Constrain (lc_sub (lc_from_variable o) (lc_from_scalar (tiny 9)))
      (Allocate w (λ v,
         match v with
         | Ok v => Constrain (var_sub v (lc_from_scalar (tiny 5))) (Done ())
         | Err _ => Done ()
         end))).
Definition square_callback : Callback (H:=TinyCycle) (H0:=ToyMerlin) :=
  WithTranscript (challenge_scalar (bstr "shift")) (λ c,
    Multiply (var_add (Committed 0) (lc_from_scalar c)) (lc_from_variable (MultiplierLeft 1))
      (λ '(_, _, o),
         Constrain (lc_sub (lc_sub (lc_from_variable o) (var_mul (Committed 0) (tiny 5)))
                      (lc_from_scalar (c * tiny 5))) (Done (Ok ())))).

(** The states before and after the circuit, after the callback, and the weights. *)
Definition square_prover : Prover (H:=TinyCycle) (H0:=ToyMerlin) :=
  MkProver
    (MkProverCore (H0:=ToyMerlin) 33156%Z square_gens []
       (MkSecrets (H:=TinyCycle) [] [] [] [tiny 3] [tiny 8]) None)
    [square_callback].
Definition square_verifier : Verifier (H:=TinyCycle) (H0:=ToyMerlin) :=
  MkVerifier (MkVerifierCore (H:=TinyCycle) (H0:=ToyMerlin) 33156%Z [] 0 [x1e] None)
    [square_callback].
Definition square_constraints : list (LinearCombination TinyScalar) :=
  [[(Committed 0, tiny 1); (MultiplierLeft 0, tiny 96)];
   [(Committed 0, tiny 1); (MultiplierRight 0, tiny 96)];
   [(MultiplierOutput 0, tiny 1); (One, tiny 88)];
   [(MultiplierLeft 1, tiny 1); (One, tiny 92)]].
Definition square_prover' : Prover (H:=TinyCycle) (H0:=ToyMerlin) :=
  MkProver
    (MkProverCore (H0:=ToyMerlin) 33156%Z square_gens square_constraints
       (MkSecrets (H:=TinyCycle) [tiny 3; tiny 5] [tiny 3; tiny 0] [tiny 9; tiny 0] [tiny 3] [tiny 8])
       (Some 1%nat))
    [square_callback].
Definition square_core : ProverCore (H:=TinyCycle) (H0:=ToyMerlin) :=
  MkProverCore (H0:=ToyMerlin) 5382%Z square_gens
    (square_constraints ++
     [[(Committed 0, tiny 1); (One, tiny 7); (MultiplierLeft 2, tiny 96)];
      [(MultiplierLeft 1, tiny 1); (MultiplierRight 2, tiny 96)];
      [(MultiplierOutput 2, tiny 1); (Committed 0, tiny 92); (One, tiny 62)]])
    (MkSecrets (H:=TinyCycle) [tiny 3; tiny 5; tiny 10] [tiny 3; tiny 0; tiny 5]
       [tiny 9; tiny 0; tiny 50] [tiny 3] [tiny 8]) None.
Definition square_weights : Weights TinyScalar :=
  MkWeights [tiny 66; tiny 31; tiny 11] [tiny 9; tiny 0; tiny 50] [tiny 12; tiny 0; tiny 2] [tiny 96].

Lemma square_prover_new :
  prover_specify_randomized_constraints square_callback
    (prover_commit (tiny 3) (tiny 8) (Prover_new (H0:=ToyMerlin) square_gens 7%Z)).2 = square_prover.
Proof. vm_refl. Qed.
Lemma square_verifier_new :
  verifier_specify_randomized_constraints square_callback
    (verifier_commit x1e (Verifier_new (H:=TinyCycle) (H0:=ToyMerlin) 7%Z)).2 = square_verifier.
Proof. vm_refl. Qed.
Lemma square_sync : full_sync (CY:=TinyCycle) square_prover square_verifier.
Proof.
  split; [split; vm_refl|]. repeat (constructor || intros [[? ?] ?] || intros ?).
Qed.
Lemma square_same : same_circuit (square_circuit (Some (tiny 5))) (square_circuit None).
Proof. repeat (constructor || intros [[? ?] ?] || intros ?). Qed.
Lemma square_wf : core_wf (CY:=TinyCycle) (p_core square_prover).
Proof. by split. Qed.
Lemma square_run :
  run_circuit (square_circuit (Some (tiny 5))) square_prover = Some ((), square_prover').
Proof. vm_refl. Qed.
Lemma square_randomized :
  prover_create_randomized_constraints square_prover' = Some (Ok square_core).
Proof. vm_refl. Qed.
Lemma square_satisfied : satisfied (CY:=TinyCycle) square_core.
Proof. apply (bool_decide_unpack _). vm_compute. exact I. Qed.

Lemma constraint_systems_agree_witness :
  ∃ V' vcore wc,
    run_circuit (square_circuit None) square_verifier = Some ((), V') ∧
    verifier_create_randomized_constraints V' = Some (Ok vcore) ∧
    verifier_flattened_constraints vcore (tiny 31) = Some (square_weights, wc) ∧
    weights_value (p_secrets square_core) square_weights = wc.
Proof.
  destruct (constraint_systems_agree (CY:=TinyCycle) (square_circuit (Some (tiny 5)))
    (square_circuit None) square_prover square_verifier () square_prover' square_core (tiny 31)
    square_weights) as (V' & vcore & wc & H1 & _ & H2 & _ & H3 & H4).
  - exact square_sync.
  - exact square_same.
  - exact square_run.
  - exact square_randomized.
  - vm_refl.
  - exists V', vcore, wc. repeat (split; [assumption|]). exact (H4 square_satisfied).
Defined.

Lemma assignment_invariant_witness :
  core_wf (CY:=TinyCycle) (p_core square_prover') ∧
  core_extends (CY:=TinyCycle) 2 (p_core square_prover') square_core.
Proof.
  exact (assignment_invariant (CY:=TinyCycle) (square_circuit (Some (tiny 5))) square_prover ()
    square_prover' square_core square_wf square_run square_randomized).
Defined.
