(* ===== verification/R1csVerify.v ===== *)
(** * The verification equation (bulletproofs-cycle/r1cs/verifier.rs)

    The one multiscalar multiplication that the verifier prepares is the sum of
    two equations: that of the textbook verifier of the inner-product argument for
    the point the commitments determine, and, scaled by the batching scalar, that
    of the polynomial commitments. *)

From Stdlib Require Import ZArith Lia Field Strings.Byte.
From stdpp Require Import prelude strings.
From S2P Require Import Prelude CoreError Group Algebra TestSupport Cycle BpUtil InnerProduct ConstraintSystem Generators R1csProof Prover Verifier R1csSync.

Local Open Scope golden_scope.

(** ** Linear combinations with coefficients by index *)
Section indexed.
Context {CY : Cycle} {CL : CycleLaws}.
Add Field indexed_field : (scalar_field_theory (F:=CScalar)).
Add Ring indexed_ring : ideal_ring_theory.
Implicit Types (f g : nat → CScalar) (Ps : list CPoint) (v : list CScalar) (c : CScalar).

Definition index_sum (n : nat) f Ps : CPoint := lincomb (f <$> seq 0 n) Ps.

Lemma index_sum_ext n f g Ps :
  (∀ i, (i < n)%nat → f i = g i) → index_sum n f Ps = index_sum n g Ps.
Proof.
  intros Hfg. unfold index_sum. f_equal. apply list_fmap_ext. intros i j [-> Hj]%lookup_seq.
  by apply Hfg.
Qed.
Lemma index_sum_add n f g Ps :
  index_sum n (λ i, f i + g i) Ps = index_sum n f Ps ⊕ index_sum n g Ps.
Proof.
  unfold index_sum. rewrite <-lincomb_add_l by lengths. f_equal.
  by rewrite zip_with_fmap_l, zip_with_fmap_r, zip_with_diag.
Qed.
Lemma index_sum_scale n f c Ps : index_sum n (λ i, f i * c) Ps = index_sum n f Ps ⊙ c.
Proof. unfold index_sum. rewrite lincomb_scale. f_equal. by rewrite <-list_fmap_compose. Qed.

Lemma lincomb_shift_seq f n o Ps :
  lincomb (f <$> seq o n) Ps = index_sum n (λ i, f (o + i)%nat) Ps.
Proof. unfold index_sum. by rewrite <-(Nat.add_0_r o) at 1; rewrite <-fmap_add_seq, <-list_fmap_compose. Qed.

Lemma index_sum_S n f P Ps :
  index_sum (S n) f (P :: Ps) = P ⊙ f O ⊕ index_sum n (λ i, f (S i)) Ps.
Proof.
  unfold index_sum at 1. cbn [seq]. rewrite fmap_cons, lincomb_cons.
  by rewrite (lincomb_shift_seq f n 1).
Qed.
Lemma index_sum_nil n f : index_sum n f [] = cpoint_identity.
Proof. unfold index_sum. by rewrite lincomb_nil_r. Qed.
Lemma index_sum_zero n Ps : index_sum n (λ _, 0) Ps = cpoint_identity.
Proof.
  revert Ps. induction n as [|n IH]; intros [|P Ps]; try done.
  rewrite index_sum_S, IH, cpoint_mul_0. apply cpoint_add_id_l.
Qed.

Lemma lincomb_index v n Ps : (length v ≤ n)%nat → lincomb v Ps = index_sum n (at_or_zero v) Ps.
Proof.
  revert n Ps. induction v as [|x v IH]; intros n [|P Ps] Hn; rewrite ?lincomb_nil_r, ?index_sum_nil;
    try done.
  - rewrite lincomb_nil_l, <-(index_sum_zero n (P :: Ps)). by apply index_sum_ext.
  - destruct n as [|n]; [simpl in Hn; lia|]. rewrite lincomb_cons, index_sum_S, (IH n) by (simpl in Hn; lia).
    done.
Qed.

Lemma lincomb_take v k Ps : (length v ≤ k)%nat → lincomb v (take k Ps) = lincomb v Ps.
Proof.
  revert k Ps. induction v as [|x v IH]; intros k [|P Ps] Hk; rewrite ?take_nil, ?lincomb_nil_l; try done.
  destruct k as [|k]; [simpl in Hk; lia|]. simpl take. rewrite !lincomb_cons, IH by (simpl in Hk; lia).
  done.
Qed.

(** The two phases of a commitment. *)
Lemma index_sum_phases k c v n Ps :
  (k ≤ length v)%nat → (length v ≤ n)%nat →
  lincomb (take k v) Ps ⊕ lincomb (drop k v) (drop k Ps) ⊙ c
  = index_sum n (λ i, (if Nat.ltb i k then 1 else c) * at_or_zero v i) Ps.
Proof.
  revert v n Ps. induction k as [|k IH]; intros v n Ps Hk Hn.
  - rewrite take_0, lincomb_nil_l, cpoint_add_id_l, !drop_0, (lincomb_index v n), <-index_sum_scale by done.
    apply index_sum_ext. intros i _. cbn [Nat.ltb Nat.leb]. ring.
  - destruct v as [|x v]; [simpl in Hk; lia|]. destruct n as [|n]; [simpl in Hn; lia|].
    destruct Ps as [|P Ps].
    { rewrite drop_nil, !lincomb_nil_r, index_sum_nil, cpoint_identity_mul. apply cpoint_add_id_l. }
    simpl take. simpl drop. rewrite lincomb_cons, index_sum_S, <-cpoint_add_assoc.
    rewrite (IH v n) by (simpl in *; lia). f_equal. simpl. f_equal. unfold at_or_zero. simpl. ring.
Qed.

Lemma index_sum_factors n f Ps Gf :
  length Gf = n → (n ≤ length Ps)%nat →
  index_sum n f (zip_with cpoint_mul (take n Ps) Gf) = index_sum n (λ i, f i * at_or_zero Gf i) Ps.
Proof.
  intros Hl HP. unfold index_sum. rewrite <-lincomb_mul, lincomb_take by lengths.
  f_equal. rewrite <-(at_or_zero_fmap Gf n) at 1 by done.
  by rewrite zip_with_fmap_l, zip_with_fmap_r, zip_with_diag.
Qed.

Lemma imap_zip_at {A} (F : nat → CScalar * CScalar → A) l k n :
  length l = n → length k = n →
  imap F (zip l k) = (λ i, F i (at_or_zero l i, at_or_zero k i)) <$> seq 0 n.
Proof.
  intros Hl Hk. apply list_eq. intros i. rewrite list_lookup_imap, list_lookup_fmap, lookup_zip_with.
  destruct (decide (i < n)%nat) as [Hi|Hi].
  - rewrite lookup_seq_lt by done. simpl. unfold at_or_zero.
    destruct (lookup_lt_is_Some_2 l i) as [x ->]; [lia|].
    by destruct (lookup_lt_is_Some_2 k i) as [y ->]; [lia|].
  - by rewrite lookup_seq_ge, (lookup_ge_None_2 l) by lia.
Qed.

Lemma at_or_zero_lookup v i : (i < length v)%nat → v !! i = Some (at_or_zero v i).
Proof. intros [x Hx]%lookup_lt_is_Some_2. unfold at_or_zero. by rewrite Hx. Qed.
Lemma at_or_zero_ge v i : (length v ≤ i)%nat → at_or_zero v i = 0.
Proof. intros Hi. unfold at_or_zero. by rewrite lookup_ge_None_2. Qed.
Lemma at_or_zero_of f n i : (i < n)%nat → at_or_zero (f <$> seq 0 n) i = f i.
Proof. intros Hi. unfold at_or_zero. by rewrite list_lookup_fmap, lookup_seq_lt. Qed.
Lemma at_or_zero_app_zeros v k i : at_or_zero (v ++ replicate k 0) i = at_or_zero v i.
Proof.
  unfold at_or_zero. destruct (decide (i < length v)%nat) as [Hi|Hi].
  - by rewrite lookup_app_l.
  - rewrite lookup_app_r, (lookup_ge_None_2 v) by lia.
    destruct (replicate k 0 !! (i - length v)%nat) eqn:E; [|done].
    apply lookup_replicate in E as [-> _]. done.
Qed.
Lemma at_or_zero_zip_smul v w n i :
  (length v ≤ n)%nat → length w = n →
  at_or_zero (zip_with smul v w) i = at_or_zero v i * at_or_zero w i.
Proof.
  intros Hv Hw. unfold at_or_zero. rewrite lookup_zip_with.
  destruct (decide (i < length v)%nat) as [Hi|Hi].
  - rewrite (at_or_zero_lookup v), (at_or_zero_lookup w) by lia. done.
  - rewrite (lookup_ge_None_2 v) by lia. simpl. ring.
Qed.
End indexed.

(** ** The two equations *)
Section equations.
Context {CY : Cycle} {CL : CycleLaws} {ME : Merlin}.
Add Field equations_field : (scalar_field_theory (F:=CScalar)).
Add Ring equations_ring : ideal_ring_theory.
Abbreviation points := (fmap (M:=list) affine_to_point).

(** The point to which the inner-product argument opens: the commitments of both
    phases, the public weights on the bases, and the claimed value at [x]. *)
Definition opened_point (x u y_inv : CScalar) (n1 n : nat) (w : Weights CScalar)
    (e tx : CScalar) (Q Bb : CPoint) (A : list CPoint) (Gs Hs : list CPoint) : CPoint :=
  lincomb [x; x * x; x * (x * x); u * x; u * (x * x); u * (x * (x * x))] A
  ⊕ index_sum n (λ i, u_or_1 u n1 i * (x * (at_or_zero (wR w) i * spow y_inv i))) Gs
  ⊕ index_sum n (λ i, u_or_1 u n1 i
      * (spow y_inv i * (x * at_or_zero (wL w) i + at_or_zero (wO w) i) - 1)) Hs
  ⊕ Bb ⊙ (- e) ⊕ Q ⊙ tx.

(** [delta(y, z)] of the paper. *)
Definition delta_of (y_inv : CScalar) (w : Weights CScalar) : CScalar :=
  inner_product (zip_with smul (wR w) (spow y_inv <$> seq 0 (length (wR w)))) (wL w).

(** The commitments to the polynomial, opened at [x]. *)
Definition polynomial_check (x : CScalar) (wv : list CScalar) (constant tx txb : CScalar)
    (B Bb : CPoint) (Vs Ts : list CPoint) : CPoint :=
  B ⊙ (x * x * constant - tx) ⊕ Bb ⊙ (- txb) ⊕ lincomb wv Vs ⊙ (x * x)
  ⊕ lincomb [x; x * x * x; x * x * (x * x); x * x * (x * (x * x)); x * x * (x * x) * (x * x)] Ts.

Definition H_weights (u y_inv : CScalar) (n1 n : nat) : list CScalar :=
  (λ i, spow y_inv i * u_or_1 u n1 i) <$> seq 0 n.
Definition G_weights (u : CScalar) (n1 n : nat) : list CScalar := u_or_1 u n1 <$> seq 0 n.

(** The equation of the textbook verifier, as a point that is to be the identity. *)
Definition argument_check (us : list CScalar) (Ls Rs : list CPoint) (P Q : CPoint) (n : nat)
    (Gf Hf : list CScalar) (Gs Hs : list CPoint) (a b : CScalar) : CPoint :=
  lr_sum (zip (zip us Ls) Rs) ⊕ P
  ⊕ (lincomb ((λ x, a * x) <$> s_vector us) (zip_with cpoint_mul (take n Gs) Gf)
     ⊕ lincomb ((λ x, b * x) <$> reverse (s_vector us)) (zip_with cpoint_mul (take n Hs) Hf)
     ⊕ Q ⊙ (a * b)) ⊙ (- (1)).

Lemma argument_check_textbook us Ls Rs P Q n Gf Hf Gs Hs (a b : CScalar) :
  n = (2 ^ length us)%nat → length Ls = length us → length Rs = length us →
  length Gf = n → length Hf = n → (n ≤ length Gs)%nat → (n ≤ length Hs)%nat →
  argument_check us Ls Rs P Q n Gf Hf Gs Hs a b = cpoint_identity ↔
  textbook_accepts (zip (zip us Ls) Rs) Q P (zip_with cpoint_mul (take n Gs) Gf)
    (zip_with cpoint_mul (take n Hs) Hf) a b.
Proof.
  intros Hn HL HR HGf HHf HG HH.
  assert (Hz : length (zip (zip us Ls) Rs) = length us) by lengths.
  rewrite textbook_accepts_unrolled by (rewrite Hz, <-Hn; lengths).
  assert ((zip (zip us Ls) Rs).*1.*1 = us) as ->.
  { rewrite fst_zip by lengths. apply fst_zip. lia. }
  unfold argument_check. set (X := lr_sum _ ⊕ P). set (Y := lincomb _ _ ⊕ _ ⊕ _).
  split.
  - intros E. apply (madd_cancel_r (SM:=cycle_module) _ _ (Y ⊙ (- (1)))). cbn [madd cycle_module].
    rewrite E. point_ring.
  - intros ->. point_ring.
Qed.

Lemma collect_points_Some (l : list CPoint) : collect_points (Some <$> l) = Some l.
Proof. apply mapM_Some_2, Forall2_fmap_l, Forall_Forall2_diag, Forall_true. done. Qed.

Lemma slice_take {A} n (l : list A) : (n ≤ length l)%nat → slice 0 n l = Some (take n l).
Proof.
  intros Hn. unfold slice. rewrite (proj2 (Nat.leb_le 0 n)), (proj2 (Nat.leb_le n (length l))) by lia.
  cbn [andb]. by rewrite Nat.sub_0_r, drop_0.
Qed.

Lemma lincomb_factors (a : CScalar) s n Ps Gf :
  length s = n → length Gf = n → (n ≤ length Ps)%nat →
  lincomb ((λ x, a * x) <$> s) (zip_with cpoint_mul (take n Ps) Gf)
  = index_sum n (λ i, a * at_or_zero s i * at_or_zero Gf i) Ps.
Proof.
  intros Hs HG HP. rewrite <-(at_or_zero_fmap s n) at 1 by done. rewrite <-list_fmap_compose.
  by rewrite <-index_sum_factors.
Qed.

(** The coefficients of the bases. *)
Lemma at_yneg (wr : list CScalar) y_inv n i :
  (length wr ≤ n)%nat → (i < n)%nat →
  at_or_zero (zip_with (λ wRi ey, wRi * ey) wr (exp_take n (exp_iter y_inv))
    ++ replicate (n - length wr) 0) i = at_or_zero wr i * spow y_inv i.
Proof.
  intros Hl Hi. rewrite at_or_zero_app_zeros, exp_iter_spec.
  change (zip_with (λ wRi ey, wRi * ey) wr ?k) with (zip_with smul wr k).
  rewrite (at_or_zero_zip_smul _ _ n), at_or_zero_of by lengths. done.
Qed.

Lemma g_scalars_sum x u a n1 (wr s : list CScalar) y_inv n Gs :
  (length wr ≤ n)%nat → length s = n → (n ≤ length Gs)%nat →
  lincomb (g_scalars_of x u a n1
      (zip_with (λ wRi ey, wRi * ey) wr (exp_take n (exp_iter y_inv)) ++ replicate (n - length wr) 0) s)
    (take n Gs)
  = index_sum n (λ i, u_or_1 u n1 i * (x * (at_or_zero wr i * spow y_inv i))) Gs
    ⊕ lincomb ((λ x, a * x) <$> s) (zip_with cpoint_mul (take n Gs) (G_weights u n1 n)) ⊙ (- (1)).
Proof.
  intros Hw Hs HG. unfold g_scalars_of.
  rewrite (imap_zip_at _ _ s n), lincomb_take by (rewrite ?length_exp_take; lengths; rewrite length_exp_take; lia).
  rewrite (lincomb_factors a s n) by (unfold G_weights; lengths).
  rewrite <-index_sum_scale, <-index_sum_add. apply index_sum_ext. intros i Hi.
  rewrite at_yneg by done. unfold G_weights. rewrite at_or_zero_of by done. simpl. ring.
Qed.

Lemma h_scalars_sum x u w b n1 (s : list CScalar) y_inv n Hs :
  length s = n → (n ≤ length Hs)%nat →
  lincomb (h_scalars_of x u w b n1 (exp_take n (exp_iter y_inv)) s) (take n Hs)
  = index_sum n (λ i, u_or_1 u n1 i
      * (spow y_inv i * (x * at_or_zero (wL w) i + at_or_zero (wO w) i) - 1)) Hs
    ⊕ lincomb ((λ x, b * x) <$> reverse s) (zip_with cpoint_mul (take n Hs) (H_weights u y_inv n1 n))
      ⊙ (- (1)).
Proof.
  intros Hs' HH. unfold h_scalars_of. rewrite exp_iter_spec.
  rewrite (imap_zip_at _ _ (reverse s) n), lincomb_take by lengths.
  rewrite (lincomb_factors b (reverse s) n) by (unfold H_weights; lengths).
  rewrite <-index_sum_scale, <-index_sum_add. apply index_sum_ext. intros i Hi.
  rewrite !at_or_zero_of by done. unfold H_weights. rewrite at_or_zero_of by done. simpl.
  fold (at_or_zero (wL w) i). fold (at_or_zero (wO w) i). ring.
Qed.
End equations.

Lemma next_power_of_two_ge n : (n ≤ next_power_of_two n)%nat.
Proof.
  unfold next_power_of_two. destruct (decide (n ≤ 1)%nat) as [H1|H1].
  - pose proof (Nat.pow_nonzero 2 (Nat.log2_up n)). lia.
  - apply Nat.log2_up_spec. lia.
Qed.

(** ** The equation of a proof *)
Section equation_of_proof.
Context {CY : Cycle} {CL : CycleLaws} {ME : Merlin}.
Add Field equation_field : (scalar_field_theory (F:=CScalar)).
Add Ring equation_ring : ideal_ring_theory.
Abbreviation points := (fmap (M:=list) affine_to_point).

Context (core : VerifierCore) (n1 : nat) (proof : R1CSProof) (pc_gens : PedersenGens).
Context (y u x w_ch : CScalar) (us : list CScalar) (w : Weights CScalar) (wc : CScalar).
Context (g h : list CAffine) (A Vs Ts Ls Rs : list CPoint).
Let n := num_vars core.
Let padded_n := next_power_of_two n.
Let a := ipp_a (ipp_proof proof).
Let b := ipp_b (ipp_proof proof).
Let scalars : list CScalar * list CScalar * list CScalar :=
  ((λ u, u * u) <$> us, (λ u, sinv u * sinv u) <$> us, s_vector us).

(** The points of the proof and the commitments decompress. *)
Definition points_decompress : Prop :=
  compressed_decompress <$> [A_I1 proof; A_O1 proof; S1 proof; A_I2 proof; A_O2 proof; S2 proof]
    = Some <$> A ∧
  compressed_decompress <$> v_V core = Some <$> Vs ∧
  compressed_decompress <$> [T_1 proof; T_3 proof; T_4 proof; T_5 proof; T_6 proof] = Some <$> Ts ∧
  compressed_decompress <$> ipp_L_vec (ipp_proof proof) = Some <$> Ls ∧
  compressed_decompress <$> ipp_R_vec (ipp_proof proof) = Some <$> Rs.

(** Weights of the lengths that flattening gives, one challenge per round, enough
    rounds for the padded length, and enough generators. *)
Definition equation_sized : Prop :=
  length (wR w) = n ∧ length (wL w) = n ∧ length (wV w) = length (v_V core) ∧
  padded_n = (2 ^ length us)%nat ∧ length (ipp_L_vec (ipp_proof proof)) = length us ∧
  length (ipp_R_vec (ipp_proof proof)) = length us ∧
  (padded_n ≤ length g)%nat ∧ (padded_n ≤ length h)%nat.

Definition the_opened_point : CPoint :=
  opened_point x u (sinv y) n1 padded_n w (e_blinding proof) (t_x proof) (pc_B pc_gens ⊙ w_ch)
    (pc_B_blinding pc_gens) A (points g) (points h).
Definition the_argument_check : CPoint :=
  argument_check us Ls Rs the_opened_point (pc_B pc_gens ⊙ w_ch) padded_n (G_weights u n1 padded_n)
    (H_weights u (sinv y) n1 padded_n) (points g) (points h) a b.
Definition the_polynomial_check : CPoint :=
  polynomial_check x (wV w) (wc + delta_of (sinv y) w) (t_x proof) (t_x_blinding proof)
    (pc_B pc_gens) (pc_B_blinding pc_gens) Vs Ts.

Definition the_equation (r : CScalar) : VerificationEquation :=
  equation_coefficients core n1 proof pc_gens y u x w_ch scalars (w, wc) g h r.

Lemma decompressed_length cs Ps :
  compressed_decompress <$> cs = Some <$> Ps → length cs = length Ps.
Proof. intros E%(f_equal length). by rewrite !length_fmap in E. Qed.

Lemma delta_computed :
  length (wR w) = n →
  inner_product (take n (zip_with (λ wRi ey, wRi * ey) (wR w) (exp_take padded_n (exp_iter (sinv y)))
    ++ replicate (padded_n - n) 0)) (wL w) = delta_of (sinv y) w.
Proof.
  intros Hl. pose proof (next_power_of_two_ge n). unfold delta_of. f_equal.
  rewrite exp_iter_spec, take_app_length' by (unfold padded_n; lengths).
  change (λ wRi ey : CScalar, wRi * ey) with smul. rewrite Hl. unfold padded_n.
  replace (next_power_of_two n) with (n + (next_power_of_two n - n))%nat by lia.
  rewrite seq_app, fmap_app. rewrite <-(app_nil_r (wR w)) at 1.
  rewrite zip_with_app by lengths. by rewrite app_nil_r.
Qed.

Lemma equation_lengths r :
  points_decompress → equation_sized →
  length (g_scalars (the_equation r)) = padded_n ∧ length (h_scalars (the_equation r)) = padded_n ∧
  proof_points (the_equation r) = Some <$> (A ++ Vs ++ Ts ++ Ls ++ Rs) ∧
  length (proof_scalars (the_equation r)) = length (A ++ Vs ++ Ts ++ Ls ++ Rs).
Proof.
  intros (HA & HV & HT & HL & HR) (HwR & HwL & HwV & Hk & HkL & HkR & Hg & Hh).
  pose proof (next_power_of_two_ge n) as Hge. fold padded_n in Hge.
  pose proof (length_s_vector us) as Hs. rewrite <-Hk in Hs.
  pose proof (decompressed_length _ _ HA) as lA. pose proof (decompressed_length _ _ HV) as lV.
  pose proof (decompressed_length _ _ HT) as lT. pose proof (decompressed_length _ _ HL) as lL.
  pose proof (decompressed_length _ _ HR) as lR.
  unfold the_equation, equation_coefficients, scalars. cbn [g_scalars h_scalars proof_scalars proof_points].
  fold n padded_n. unfold g_scalars_of, h_scalars_of. split; [|split; [|split]].
  - rewrite length_imap, length_zip_with. lengths. rewrite length_exp_take. lia.
  - rewrite length_imap, length_zip_with, length_exp_take. lengths.
  - rewrite !fmap_app. by rewrite <-HA, <-HV, <-HT, <-HL, <-HR.
  - repeat rewrite ?length_app, ?length_fmap. simpl in lA, lT. simpl length. lia.
Qed.

Lemma the_equation_value r :
  points_decompress → equation_sized →
  lincomb ([(pedersen_scalars (the_equation r)).1; (pedersen_scalars (the_equation r)).2]
             ++ proof_scalars (the_equation r))
    ([pc_B pc_gens; pc_B_blinding pc_gens] ++ A ++ Vs ++ Ts ++ Ls ++ Rs)
  ⊕ lincomb (g_scalars (the_equation r)) (take padded_n (points g))
  ⊕ lincomb (h_scalars (the_equation r)) (take padded_n (points h))
  = the_argument_check ⊕ the_polynomial_check ⊙ r.
Proof.
  intros (HA & HV & HT & HL & HR) (HwR & HwL & HwV & Hk & HkL & HkR & Hg & Hh).
  pose proof (next_power_of_two_ge n) as Hge. fold padded_n in Hge.
  pose proof (length_s_vector us) as Hs. rewrite <-Hk in Hs.
  pose proof (decompressed_length _ _ HA) as lA. pose proof (decompressed_length _ _ HV) as lV.
  pose proof (decompressed_length _ _ HT) as lT. pose proof (decompressed_length _ _ HL) as lL.
  pose proof (decompressed_length _ _ HR) as lR.
  unfold the_equation, equation_coefficients, scalars.
  cbn [g_scalars h_scalars proof_scalars proof_points pedersen_scalars fst snd].
  fold n padded_n a b. rewrite scalar_invert_spec.
  rewrite delta_computed by done.
  replace (padded_n - n)%nat with (padded_n - length (wR w))%nat by (by rewrite HwR).
  rewrite g_scalars_sum, h_scalars_sum by lengths.
  unfold the_argument_check, argument_check, the_polynomial_check, polynomial_check, the_opened_point,
    opened_point.
  do 5 (rewrite lincomb_app by lengths). rewrite <-lr_sum_lincomb by lia.
  rewrite <-(lincomb_scale (wV w)).
  match goal with |- context [lincomb [r * x; ?t3; ?t4; ?t5; ?t6] Ts] =>
    replace [r * x; t3; t4; t5; t6] with
      ((λ c, c * r) <$> [x; x * x * x; x * x * (x * x); x * x * (x * (x * x)); x * x * (x * x) * (x * x)])
      by (cbn [fmap list_fmap]; repeat (apply (f_equal2 cons); [ring|]); done) end.
  rewrite <-lincomb_scale, !lincomb_cons, lincomb_nil_l. point_ring.
Qed.

(** The check of the equation passes exactly when the sum of the two is zero. *)
Lemma the_equation_verify r :
  points_decompress → equation_sized →
  equation_verify (the_equation r) = Some (Ok ()) ↔
  the_argument_check ⊕ the_polynomial_check ⊙ r = cpoint_identity.
Proof.
  intros Hp Hs. pose proof (the_equation_value r Hp Hs) as Hval.
  destruct (equation_lengths r Hp Hs) as (Hgs & Hhs & Hpts & Hlen).
  destruct Hs as (_ & _ & _ & _ & _ & _ & Hg & Hh).
  unfold equation_verify. rewrite Hgs, Hhs, Hpts, Hlen.
  change (g_points (the_equation r)) with g. change (h_points (the_equation r)) with h.
  rewrite (proj2 (Nat.ltb_ge (length g) padded_n)), (proj2 (Nat.ltb_ge (length h) padded_n)) by done.
  rewrite length_fmap, Nat.eqb_refl. cbn [orb negb]. unfold check_msm.
  change (pedersen_points (the_equation r)) with (pc_B pc_gens, pc_B_blinding pc_gens).
  cbn [fst snd]. change ([Some (pc_B pc_gens); Some (pc_B_blinding pc_gens)] ++ (Some <$> ?l))
    with (Some <$> ([pc_B pc_gens; pc_B_blinding pc_gens] ++ l)).
  rewrite collect_points_Some. cbn [ok_or]. unfold returns.
  rewrite Hgs, Hhs, !slice_take by done. cbn [no_panic fmap option_fmap option_map mbind outcome_bind].
  rewrite vartime_msm_mixed_spec.
  - unfold default_vartime_msm_mixed. cbn [foldl].
    rewrite vartime_msm_spec, !vartime_msm_affine_spec, !fmap_take by lengths.
    rewrite Hval. case_bool_decide as E; split; (done || by intros ?).
  - repeat constructor; cbn [fst snd]; lengths.
  - lengths.
Qed.
End equation_of_proof.

(** ** Properties *)
Section properties.
Context {CY : Cycle} {CL : CycleLaws} {ME : Merlin}.
Add Ring properties_ring : ideal_ring_theory.

(** C17: the equation of a proof batches two checks soundly.  For a proof whose
    points decompress, with weights, rounds and generators of fitting lengths, two
    things are equivalent up to the batching scalar [r] that the verifier draws:
    the equation that it prepares passes, and both the textbook verifier of the
    inner-product argument accepts, for the point that the commitments, the
    weights and the claimed value determine, and the commitments to the polynomial
    open to that value.  The two checks imply the equation for every [r], and the
    equation for two different [r] implies both. *)
Theorem r1cs_equation_textbook core n1 proof pc_gens y u x w_ch us w wc g h A Vs Ts Ls Rs :
  points_decompress core proof A Vs Ts Ls Rs → equation_sized core proof us w g h →
  let n := next_power_of_two (num_vars core) in
  let Gs := take n (affine_to_point <$> g) in
  let Hs := take n (affine_to_point <$> h) in
  let Q := pc_B pc_gens ⊙ w_ch in
  let argument :=
    textbook_accepts (zip (zip us Ls) Rs) Q
      (the_opened_point core n1 proof pc_gens y u x w_ch w g h A)
      (zip_with cpoint_mul Gs (G_weights u n1 n)) (zip_with cpoint_mul Hs (H_weights u (sinv y) n1 n))
      (ipp_a (ipp_proof proof)) (ipp_b (ipp_proof proof)) in
  let polynomial := the_polynomial_check proof pc_gens y x w wc Vs Ts = cpoint_identity in
  let passes r :=
    equation_verify
      (equation_coefficients core n1 proof pc_gens y u x w_ch
         ((λ u, u * u) <$> us, (λ u, sinv u * sinv u) <$> us, s_vector us) (w, wc) g h r)
    = Some (Ok ()) in
  (argument ∧ polynomial → ∀ r, passes r) ∧
  (∀ r r', r ≠ r' → passes r → passes r' → argument ∧ polynomial).
Proof.
  intros Hp Hs n Gs Hs' Q argument polynomial passes.
  assert (Harg : the_argument_check core n1 proof pc_gens y u x w_ch us w g h A Ls Rs = cpoint_identity
    ↔ argument).
  { destruct Hp as (_ & _ & _ & HL & HR), Hs as (_ & _ & _ & Hk & HkL & HkR & Hg & Hh).
    apply decompressed_length in HL, HR.
    apply argument_check_textbook; unfold G_weights, H_weights; lengths. }
  assert (Hpass : ∀ r, passes r ↔ the_argument_check core n1 proof pc_gens y u x w_ch us w g h A Ls Rs
    ⊕ the_polynomial_check proof pc_gens y x w wc Vs Ts ⊙ r = cpoint_identity).
  { intros r. by apply the_equation_verify. }
  split.
  - intros [Ha%Harg Hpol] r. apply Hpass. rewrite Ha, Hpol, cpoint_identity_mul. apply cpoint_add_id_l.
  - intros r r' Hne Hr%Hpass Hr'%Hpass.
    assert (polynomial) as Hpol.
    { destruct (decide (the_polynomial_check proof pc_gens y x w wc Vs Ts = cpoint_identity))
        as [E|Hn0]; [done|]. exfalso. apply Hne.
      apply (mscale_inj (SM:=cycle_module) _ _ _ Hn0).
      apply (madd_cancel_r (SM:=cycle_module) _ _
        (the_argument_check core n1 proof pc_gens y u x w_ch us w g h A Ls Rs)).
      cbn [madd mscale cycle_module]. by rewrite !(cpoint_add_comm (_ ⊙ _)), Hr, Hr'. }
    split; [|done]. apply Harg. rewrite <-Hr. unfold polynomial in Hpol.
    by rewrite Hpol, cpoint_identity_mul, cpoint_add_id_r.
Qed.
End properties.

(** ** Witnesses

    The proof of the square circuit, on four generators. *)
Definition square_proof : R1CSProof (H:=TinyCycle) :=
  MkR1CSProof (H:=TinyCycle) x15 x28 x23 x31 x20 x3b x36 x48 x51 x3c x13 (tiny 41) (tiny 19) (tiny 19)
    (MkInnerProductProof (H:=TinyCycle) [x50; x03] [x31; x28] (tiny 38) (tiny 23)).
Definition square_G : list TinyScalar := [tiny 5; tiny 7; tiny 11; tiny 13].
Definition square_H : list TinyScalar := [tiny 17; tiny 19; tiny 23; tiny 29].
Definition proved_constraints : list (LinearCombination TinyScalar) :=
  square_constraints ++
  [[(Committed 0, tiny 1); (One, tiny 54); (MultiplierLeft 2, tiny 96)];
   [(MultiplierLeft 1, tiny 1); (MultiplierRight 2, tiny 96)];
   [(MultiplierOutput 2, tiny 1); (Committed 0, tiny 92); (One, tiny 21)]].
Definition proved_weights : Weights TinyScalar :=
  MkWeights [tiny 20; tiny 29; tiny 67] [tiny 85; tiny 0; tiny 18] [tiny 51; tiny 0; tiny 69] [tiny 32].
Definition proved_vcore : VerifierCore (H:=TinyCycle) (H0:=ToyMerlin) :=
  MkVerifierCore (H:=TinyCycle) (H0:=ToyMerlin) 41429%Z proved_constraints 3 [x1e] None.
Definition square_A : list TinyScalar := [tiny 21; tiny 40; tiny 35; tiny 49; tiny 32; tiny 59].
Definition square_T : list TinyScalar := [tiny 54; tiny 72; tiny 81; tiny 60; tiny 19].
Definition square_us : list TinyScalar := [tiny 25; tiny 23].

Lemma proved_flattened :
  verifier_flattened_constraints proved_vcore (tiny 77) = Some (proved_weights, tiny 50).
Proof. vm_refl. Qed.

Lemma r1cs_equation_textbook_witness :
  textbook_accepts (CY:=TinyCycle)
    (zip (zip square_us [tiny 80; tiny 3]) [tiny 49; tiny 40]) (tiny 2 ⊙ tiny 59)
    (the_opened_point (CY:=TinyCycle) (ME:=ToyMerlin) proved_vcore 2 square_proof square_gens (tiny 22)
       (tiny 24) (tiny 94) (tiny 59) proved_weights square_G square_H square_A)
    (zip_with cpoint_mul square_G (G_weights (CY:=TinyCycle) (tiny 24) 2 4))
    (zip_with cpoint_mul square_H (H_weights (CY:=TinyCycle) (tiny 24) (sinv (tiny 22)) 2 4))
    (tiny 38) (tiny 23) ∧
  the_polynomial_check (CY:=TinyCycle) square_proof square_gens (tiny 22) (tiny 94) proved_weights
    (tiny 50) [tiny 30] square_T = tiny 0.
Proof.
  destruct (r1cs_equation_textbook (CY:=TinyCycle) (ME:=ToyMerlin) proved_vcore 2 square_proof
    square_gens (tiny 22) (tiny 24) (tiny 94) (tiny 59) square_us proved_weights (tiny 50) square_G
    square_H square_A [tiny 30] square_T [tiny 80; tiny 3] [tiny 49; tiny 40]) as [_ Hsound].
  - repeat split; vm_refl.
  - repeat split; (vm_refl || (apply Nat.leb_le; vm_refl)).
  - apply (Hsound (tiny 1) (tiny 2)); [done| vm_refl | vm_refl].
Defined.
