(* ===== verification/R1csComplete.v ===== *)
(** * Completeness of the R1CS argument (bulletproofs-cycle/r1cs/prover.rs, verifier.rs)

    The proof that the prover makes for a satisfied constraint system passes both
    checks that the verifier's equation batches. *)

From Stdlib Require Import ZArith Lia Field Strings.Byte.
From stdpp Require Import prelude strings.
From S2P Require Import Prelude CoreError Group Algebra TestSupport Cycle BpUtil InnerProduct ConstraintSystem Generators R1csProof Prover Verifier R1csSync R1csVerify.

Local Open Scope golden_scope.

(** ** The polynomials of the prover *)
Section polynomials.
Context {CY : Cycle} {CL : CycleLaws} {ME : Merlin}.
Add Field polynomials_field : (scalar_field_theory (F:=CScalar)).
Abbreviation ssum := (msum (SM:=scalar_module CScalar)).

Context (secrets : Secrets) (w : Weights CScalar) (sL sR : list CScalar) (y : CScalar).
Let n := length (a_L secrets).
Let y_inv := sinv y.

(** The coefficients by index. *)
Definition l1_at (i : nat) : CScalar :=
  at_or_zero (a_L secrets) i + spow y_inv i * at_or_zero (wR w) i.
Definition l2_at (i : nat) : CScalar := at_or_zero (a_O secrets) i.
Definition l3_at (i : nat) : CScalar := at_or_zero sL i.
Definition r0_at (i : nat) : CScalar := at_or_zero (wO w) i - spow y i.
Definition r1_at (i : nat) : CScalar := spow y i * at_or_zero (a_R secrets) i + at_or_zero (wL w) i.
Definition r3_at (i : nat) : CScalar := spow y i * at_or_zero sR i.

Definition l_at (x : CScalar) (i : nat) : CScalar :=
  0 + x * (l1_at i + x * (l2_at i + x * l3_at i)).
Definition r_at (x : CScalar) (i : nat) : CScalar :=
  r0_at i + x * (r1_at i + x * (0 + x * r3_at i)).

Hypothesis HR : length (a_R secrets) = n.
Hypothesis HO : length (a_O secrets) = n.
Hypothesis Hw : weights_sized secrets w.
Hypothesis HsL : length sL = n.
Hypothesis HsR : length sR = n.

Lemma at_or_zero_total v i : (i < length v)%nat → v !!! i = at_or_zero v i.
Proof. intros Hi. apply list_lookup_total_correct. by apply at_or_zero_lookup. Qed.

Lemma poly_rows_spec exp_y_inv pairs i exp_y :
  exp_y_inv = spow y_inv <$> seq 0 (length exp_y_inv) → (n ≤ length exp_y_inv)%nat →
  exp_y = spow y i → (i + length pairs = n)%nat → pairs = drop i (zip sL sR) →
  poly_rows i exp_y y secrets w exp_y_inv pairs
  = ((λ j, (l1_at j, l2_at j, l3_at j, r0_at j, r1_at j, r3_at j)) <$> seq i (length pairs), spow y n).
Proof.
  intros Hinv Hn. destruct Hw as (HwL & HwR & HwO & _).
  revert i exp_y. induction pairs as [|[sl sr] pairs IH]; intros i exp_y -> Hi Hp.
  { cbn. by rewrite <-Hi, Nat.add_0_r. }
  cbn [poly_rows]. simpl in Hi. rewrite (IH (S i)); [| |lia|].
  3: { pose proof (f_equal (drop 1) Hp) as Hd. rewrite drop_drop in Hd.
       change (drop 1 ((sl, sr) :: pairs)) with pairs in Hd. rewrite Hd. f_equal. lia. }
  2: { simpl. ring. }
  cbn [length seq]. rewrite fmap_cons.
  assert (Hz : zip sL sR !! i = Some (sl, sr)).
  { rewrite <-(Nat.add_0_r i), <-lookup_drop, <-Hp. done. }
  apply lookup_zip_Some in Hz as [Hsl Hsr].
  do 2 f_equal. unfold l1_at, l2_at, l3_at, r0_at, r1_at, r3_at.
  rewrite !at_or_zero_total by lia.
  rewrite Hinv, at_or_zero_of by lia.
  assert (at_or_zero sL i = sl) as -> by (unfold at_or_zero; by rewrite Hsl).
  assert (at_or_zero sR i = sr) as -> by (unfold at_or_zero; by rewrite Hsr).
  done.
Qed.

Definition the_rows : list (CScalar * CScalar * CScalar * CScalar * CScalar * CScalar) :=
  (λ j, (l1_at j, l2_at j, l3_at j, r0_at j, r1_at j, r3_at j)) <$> seq 0 n.

Lemma l_poly_rows :
  l_poly_of the_rows = MkVecPoly3 [] (l1_at <$> seq 0 n) (l2_at <$> seq 0 n) (l3_at <$> seq 0 n).
Proof. unfold l_poly_of, the_rows. by rewrite <-!list_fmap_compose. Qed.
Lemma r_poly_rows :
  r_poly_of the_rows = MkVecPoly3 (r0_at <$> seq 0 n) (r1_at <$> seq 0 n) [] (r3_at <$> seq 0 n).
Proof. unfold r_poly_of, the_rows. by rewrite <-!list_fmap_compose. Qed.

Lemma l_eval x : VecPoly3_eval (l_poly_of the_rows) x = l_at x <$> seq 0 n.
Proof.
  rewrite l_poly_rows. unfold VecPoly3_eval. cbn [vp_0 vp_1 vp_2 vp_3].
  rewrite !length_fmap, !length_seq. simpl length.
  repeat rewrite ?Nat.max_id, ?Nat.max_0_l, ?Nat.max_0_r.
  apply list_fmap_ext. intros i j [-> Hj]%lookup_seq. simpl.
  rewrite !at_or_zero_of by done. done.
Qed.
Lemma r_eval x : VecPoly3_eval (r_poly_of the_rows) x = r_at x <$> seq 0 n.
Proof.
  rewrite r_poly_rows. unfold VecPoly3_eval. cbn [vp_0 vp_1 vp_2 vp_3].
  rewrite !length_fmap, !length_seq. simpl length.
  repeat rewrite ?Nat.max_id, ?Nat.max_0_l, ?Nat.max_0_r.
  apply list_fmap_ext. intros i j [-> Hj]%lookup_seq. simpl.
  rewrite !at_or_zero_of by done. done.
Qed.

(** Beyond the multipliers, [l] is zero and [r] is minus a power of [y]. *)
Lemma l_at_pad x i : (n ≤ i)%nat → l_at x i = 0.
Proof.
  intros Hi. destruct Hw as (_ & HwR & _). unfold l_at, l1_at, l2_at, l3_at.
  rewrite !at_or_zero_ge by lia. ring.
Qed.
Lemma r_at_pad x i : (n ≤ i)%nat → r_at x i = - spow y i.
Proof.
  intros Hi. destruct Hw as (HwL & _ & HwO & _). unfold r_at, r0_at, r1_at, r3_at.
  rewrite !at_or_zero_ge by lia. ring.
Qed.

Lemma l_vec_padded x padded_n :
  (n ≤ padded_n)%nat →
  resize padded_n 0 (VecPoly3_eval (l_poly_of the_rows) x) = l_at x <$> seq 0 padded_n.
Proof.
  intros Hn. rewrite l_eval, resize_ge by lengths.
  replace (seq 0 padded_n) with (seq 0 n ++ seq n (padded_n - n)).
  2: { rewrite <-seq_app. f_equal. lia. }
  rewrite fmap_app. f_equal. rewrite length_fmap, length_seq. symmetry.
  rewrite (list_fmap_ext _ (λ _, 0)).
  - rewrite <-(length_seq (padded_n - n) n) at 2. apply const_fmap. done.
  - intros k i [-> _]%lookup_seq. apply l_at_pad. lia.
Qed.

Lemma pad_slots_spec k m : pad_slots k (spow y m) y = (λ i, - spow y i) <$> seq m k.
Proof.
  revert m. induction k as [|k IH]; intros m; [done|]. cbn [pad_slots seq]. rewrite fmap_cons. f_equal.
  rewrite <-IH. f_equal. simpl. ring.
Qed.
Lemma r_vec_padded x padded_n :
  (n ≤ padded_n)%nat →
  take n (resize padded_n 0 (VecPoly3_eval (r_poly_of the_rows) x))
    ++ pad_slots (padded_n - n) (spow y n) y = r_at x <$> seq 0 padded_n.
Proof.
  intros Hn. rewrite r_eval, resize_ge, take_app_length' by lengths.
  replace (seq 0 padded_n) with (seq 0 n ++ seq n (padded_n - n)).
  2: { rewrite <-seq_app. f_equal. lia. }
  rewrite fmap_app, pad_slots_spec. f_equal. apply list_fmap_ext.
  intros k i [-> _]%lookup_seq. rewrite r_at_pad; [done|lia].
Qed.

(** The value that the prover claims is the inner product of the two vectors. *)
Lemma t_x_inner_product x padded_n :
  (n ≤ padded_n)%nat →
  Poly6_eval (special_inner_product (l_poly_of the_rows) (r_poly_of the_rows)) x
  = inner_product (l_at x <$> seq 0 padded_n) (r_at x <$> seq 0 padded_n).
Proof.
  intros Hn. rewrite <-special_inner_product_eval; [|by rewrite ?l_poly_rows, ?r_poly_rows; cbn [vp_0 vp_1 vp_2 vp_3]; lengths..].
  rewrite l_eval, r_eval.
  replace (seq 0 padded_n) with (seq 0 n ++ seq n (padded_n - n)).
  2: { rewrite <-seq_app. f_equal. lia. }
  rewrite !fmap_app, inner_product_app by lengths.
  rewrite (inner_product_fmap (l_at x) (r_at x) (seq n _)), (msum_zero (SM:=scalar_module CScalar)).
  - cbn [mzero scalar_module]. ring.
  - intros i [Hi _]%elem_of_seq. rewrite l_at_pad by done. cbn [mzero scalar_module]. ring.
Qed.

Lemma t2_terms (aL aR aO wl wr wo p q : nat → CScalar) l :
  (∀ i, i ∈ l → p i * q i = 1) → (∀ i, i ∈ l → aO i = aL i * aR i) →
  ssum (λ i, (aL i + q i * wr i) * (p i * aR i + wl i)) l + ssum (λ i, aO i * (wo i - p i)) l
  = ssum (λ i, wl i * aL i) l + ssum (λ i, wr i * aR i) l + ssum (λ i, wo i * aO i) l
    + ssum (λ i, wr i * q i * wl i) l.
Proof.
  intros Hpq Ho. induction l as [|i l IH]; [simpl; ring|].
  rewrite !msum_cons_scalar.
  assert (IH' := IH (λ j Hj, Hpq j (list_elem_of_further _ _ _ Hj))
    (λ j Hj, Ho j (list_elem_of_further _ _ _ Hj))). clear IH.
  pose proof (Hpq i (list_elem_of_here _ _)) as E. rewrite (Ho i (list_elem_of_here _ _)).
  match goal with |- ?a + ?A + (?b + ?B) = ?c + ?C + (?d + ?D) + (?e + ?E0) + (?f + ?F0) =>
    transitivity (a + b + (A + B)); [ring|]; rewrite IH';
    transitivity (c + d + e + f + (C + D + E0 + F0)); [|ring] end.
  f_equal. ring [E].
Qed.

Lemma spow_inverse i : y ≠ szero → spow y i * spow y_inv i = 1.
Proof.
  intros Hy. rewrite <-spow_mul_l. unfold y_inv. rewrite sinv_r by done.
  induction i as [|i IH]; [done|]. simpl. rewrite IH. ring.
Qed.

(** The quadratic coefficient, which has no commitment of its own. *)
Lemma t2_value wc :
  y ≠ szero → a_O secrets = zip_with smul (a_L secrets) (a_R secrets) →
  weights_value secrets w = wc →
  t2 (special_inner_product (l_poly_of the_rows) (r_poly_of the_rows))
  = wc + delta_of y_inv w + inner_product (wV w) (sec_v secrets).
Proof.
  intros Hy HaO Hwc. destruct Hw as (HwL & HwR & HwO & _).
  rewrite l_poly_rows, r_poly_rows. unfold special_inner_product. cbn [vp_0 vp_1 vp_2 vp_3 t2].
  rewrite !inner_product_fmap. unfold l1_at, l2_at, r0_at, r1_at.
  rewrite (t2_terms (at_or_zero (a_L secrets)) (at_or_zero (a_R secrets)) (at_or_zero (a_O secrets))
    (at_or_zero (wL w)) (at_or_zero (wR w)) (at_or_zero (wO w)) (spow y) (spow y_inv)).
  - rewrite <-Hwc. unfold weights_value, delta_of.
    rewrite (inner_product_at (wL w) (a_L secrets) n), (inner_product_at (wR w) (a_R secrets) n),
      (inner_product_at (wO w) (a_O secrets) n) by lia.
    rewrite (inner_product_at (zip_with _ _ _) (wL w) n) by lia.
    rewrite (msum_ext (SM:=scalar_module CScalar)
      (λ i, at_or_zero (zip_with smul (wR w) _) i * at_or_zero (wL w) i)
      (λ i, at_or_zero (wR w) i * spow y_inv i * at_or_zero (wL w) i)); [ring|].
    intros i [_ Hi]%elem_of_seq. rewrite (at_or_zero_zip_smul _ _ n), at_or_zero_of by lengths. done.
  - intros. by apply spow_inverse.
  - intros i [_ Hi]%elem_of_seq. rewrite HaO. apply (at_or_zero_zip_smul _ _ n); lia.
Qed.
End polynomials.

(** ** The commitments of the prover *)
Section commitments.
Context {CY : Cycle} {CL : CycleLaws} {ME : Merlin}.
Add Field commitments_field : (scalar_field_theory (F:=CScalar)).
Add Ring commitments_ring : ideal_ring_theory.
Abbreviation points := (fmap (M:=list) affine_to_point).

(** What [phase_commitments] commits to, for the bases from some index on. *)
Definition phase_points (pc_gens : PedersenGens) (l r o : list CScalar) (ps : PhaseSecrets)
    (Gs Hs : list CPoint) : CPoint * CPoint * CPoint :=
  (lincomb l Gs ⊕ lincomb r Hs ⊕ pc_B_blinding pc_gens ⊙ i_blinding ps,
   lincomb o Gs ⊕ pc_B_blinding pc_gens ⊙ o_blinding ps,
   lincomb (s_L ps) Gs ⊕ lincomb (s_R ps) Hs ⊕ pc_B_blinding pc_gens ⊙ s_blinding ps).

Lemma phase_commitments_spec pc_gens l r o ps g h k :
  length l = k → length r = k → length o = k → length (s_L ps) = k → length (s_R ps) = k →
  (k ≤ length g)%nat → (k ≤ length h)%nat →
  phase_commitments pc_gens l r o ps (take k g) (take k h)
  = phase_points pc_gens l r o ps (points g) (points h).
Proof.
  intros Hl Hr Ho HL HR Hg Hh. unfold phase_commitments, phase_points.
  rewrite !vartime_msm_affine_spec by lengths. rewrite !fmap_app, !lincomb_app by lengths.
  rewrite !fmap_take, !lincomb_take by lia. done.
Qed.

Lemma slice_Some {A} i j (l k : list A) :
  slice i j l = Some k → (i ≤ j ≤ length l)%nat ∧ k = take (j - i) (drop i l).
Proof.
  unfold slice. destruct (Nat.leb_spec i j), (Nat.leb_spec j (length l)); cbn [andb]; try done.
  intros [= <-]. done.
Qed.

Lemma phase2_commitments_spec core n1 ps2 bp_gens g h c :
  phase2_commitments core n1 ps2 bp_gens = Some c →
  shared_G bp_gens 0 = Some g → shared_H bp_gens 0 = Some h →
  let s := p_secrets core in
  let n := length (a_L s) in
  (n1 ≤ n)%nat → length (a_R s) = n → length (a_O s) = n →
  length (s_L ps2) = (n - n1)%nat → length (s_R ps2) = (n - n1)%nat →
  (n = n1 → i_blinding ps2 = 0 ∧ o_blinding ps2 = 0 ∧ s_blinding ps2 = 0) →
  let '(i, o, sc) :=
    phase_points (p_pc_gens core) (drop n1 (a_L s)) (drop n1 (a_R s)) (drop n1 (a_O s)) ps2
      (drop n1 (points g)) (drop n1 (points h)) in
  c = (point_compress i, point_compress o, point_compress sc).
Proof.
  intros Hc Hg Hh s n Hn HR HO HsL HsR Hbl. unfold phase2_commitments in Hc. rewrite Hg, Hh in Hc.
  fold s n in Hc. destruct (Nat.ltb_spec 0 (n - n1)) as [Hlt|Hge].
  - cbn [mbind option_bind] in Hc.
    apply bind_Some in Hc as (gt & [Hgl ->]%slice_Some & Hc).
    apply bind_Some in Hc as (ht & [Hhl ->]%slice_Some & Hc).
    rewrite (phase_commitments_spec _ _ _ _ _ (drop n1 g) (drop n1 h) (n - n1)) in Hc by lengths.
    rewrite !fmap_drop in Hc. destruct (phase_points _ _ _ _ _ _ _) as [[i o] sc].
    by injection Hc as <-.
  - injection Hc as <-. assert (n = n1) as Hnn by lia. destruct (Hbl Hnn) as (Hi & Ho & Hsb).
    unfold phase_points. rewrite (drop_ge (a_L s)), (drop_ge (a_R s)), (drop_ge (a_O s)) by lia.
    assert (s_L ps2 = []) as -> by (apply nil_length_inv; lia).
    assert (s_R ps2 = []) as -> by (apply nil_length_inv; lia).
    rewrite Hi, Ho, Hsb, !lincomb_nil_l, !cpoint_mul_0, !cpoint_add_id_l, <-compressed_identity_spec.
    done.
Qed.

Context (pc_gens : PedersenGens) (secrets : Secrets) (w : Weights CScalar) (ps1 ps2 : PhaseSecrets).
Context (n1 padded_n : nat) (y u x : CScalar) (Gs Hs : list CPoint).
Let n := length (a_L secrets).
Let sL := s_L ps1 ++ s_L ps2.
Let sR := s_R ps1 ++ s_R ps2.
Hypothesis HR : length (a_R secrets) = n.
Hypothesis HO : length (a_O secrets) = n.
Hypothesis Hn1 : (n1 ≤ n ≤ padded_n)%nat.
Hypothesis HsL1 : length (s_L ps1) = n1.
Hypothesis HsR1 : length (s_R ps1) = n1.
Hypothesis HsL2 : length (s_L ps2) = (n - n1)%nat.
Hypothesis HsR2 : length (s_R ps2) = (n - n1)%nat.

Let phase1 := phase_points pc_gens (take n1 (a_L secrets)) (take n1 (a_R secrets))
  (take n1 (a_O secrets)) ps1 Gs Hs.
Let phase2 := phase_points pc_gens (drop n1 (a_L secrets)) (drop n1 (a_R secrets))
  (drop n1 (a_O secrets)) ps2 (drop n1 Gs) (drop n1 Hs).

Definition honest_commitments : list CPoint :=
  [phase1.1.1; phase1.1.2; phase1.2; phase2.1.1; phase2.1.2; phase2.2].
Definition honest_e : CScalar :=
  x * (i_blinding ps1 + u * i_blinding ps2 + x * (o_blinding ps1 + u * o_blinding ps2
    + x * (s_blinding ps1 + u * s_blinding ps2))).

Lemma combined_phases v Ps :
  length v = n →
  lincomb (drop n1 v) (drop n1 Ps) ⊙ u
  = index_sum padded_n (λ i, u_or_1 u n1 i * at_or_zero v i) Ps ⊕ lincomb (take n1 v) Ps ⊙ (- (1)).
Proof.
  intros Hv. unfold u_or_1. rewrite <-index_sum_phases by lia. point_ring.
Qed.

(** The public parts of the two vectors. *)
Let public_G := index_sum padded_n (λ i, u_or_1 u n1 i * (x * (at_or_zero (wR w) i * spow (sinv y) i))) Gs.
Let public_H := index_sum padded_n (λ i, u_or_1 u n1 i
  * (spow (sinv y) i * (x * at_or_zero (wL w) i + at_or_zero (wO w) i) - 1)) Hs.
Let secret v Ps := index_sum padded_n (λ i, u_or_1 u n1 i * at_or_zero v i) Ps.

Lemma l_index_sum :
  index_sum padded_n (λ i, l_at secrets w sL y x i * u_or_1 u n1 i) Gs
  = secret (a_L secrets) Gs ⊙ x ⊕ secret (a_O secrets) Gs ⊙ (x * x) ⊕ secret sL Gs ⊙ (x * (x * x))
    ⊕ public_G.
Proof.
  unfold secret, public_G. rewrite <-!index_sum_scale, <-!index_sum_add. apply index_sum_ext.
  intros i _. unfold l_at, l1_at, l2_at, l3_at. ring.
Qed.
Lemma r_index_sum :
  y ≠ szero →
  index_sum padded_n (λ i, r_at secrets w sR y x i * (spow (sinv y) i * u_or_1 u n1 i)) Hs
  = secret (a_R secrets) Hs ⊙ x ⊕ secret sR Hs ⊙ (x * (x * x)) ⊕ public_H.
Proof.
  intros Hy. unfold secret, public_H. rewrite <-!index_sum_scale, <-!index_sum_add. apply index_sum_ext.
  intros i _. pose proof (spow_inverse y i Hy) as E. unfold r_at, r0_at, r1_at, r3_at. ring [E].
Qed.

(** The commitments of both phases open to the two vectors at [x]. *)
Lemma honest_opened_point tx Q :
  y ≠ szero →
  opened_point x u (sinv y) n1 padded_n w honest_e tx Q (pc_B_blinding pc_gens) honest_commitments Gs Hs
  = index_sum padded_n (λ i, l_at secrets w sL y x i * u_or_1 u n1 i) Gs
    ⊕ index_sum padded_n (λ i, r_at secrets w sR y x i * (spow (sinv y) i * u_or_1 u n1 i)) Hs
    ⊕ Q ⊙ tx.
Proof.
  intros Hy. unfold opened_point, honest_commitments, honest_e, phase1, phase2, phase_points.
  cbn [fst snd]. rewrite !lincomb_cons, lincomb_nil_l.
  assert (HsL : take n1 sL = s_L ps1 ∧ drop n1 sL = s_L ps2).
  { unfold sL. by rewrite take_app_length', drop_app_length'. }
  assert (HsR : take n1 sR = s_R ps1 ∧ drop n1 sR = s_R ps2).
  { unfold sR. by rewrite take_app_length', drop_app_length'. }
  pose proof (combined_phases (a_L secrets) Gs eq_refl) as EL.
  pose proof (combined_phases (a_R secrets) Hs HR) as ER.
  pose proof (combined_phases (a_O secrets) Gs HO) as EO.
  assert (ESL := combined_phases sL Gs ltac:(unfold sL; lengths)).
  assert (ESR := combined_phases sR Hs ltac:(unfold sR; lengths)).
  destruct HsL as [EsL1 EsL2], HsR as [EsR1 EsR2]. rewrite EsL1, EsL2 in ESL. rewrite EsR1, EsR2 in ESR.
  rewrite l_index_sum, r_index_sum by done.
  match goal with |- ?lhs = _ => match type of EL with ?dL = _ => match type of ER with ?dR = _ =>
    match type of EO with ?dO = _ => match type of ESL with ?dSL = _ => match type of ESR with ?dSR = _ =>
    transitivity ((lincomb (take n1 (a_L secrets)) Gs ⊕ dL ⊕ (lincomb (take n1 (a_R secrets)) Hs ⊕ dR)) ⊙ x
      ⊕ (lincomb (take n1 (a_O secrets)) Gs ⊕ dO) ⊙ (x * x)
      ⊕ (lincomb (s_L ps1) Gs ⊕ dSL ⊕ (lincomb (s_R ps1) Hs ⊕ dSR)) ⊙ (x * (x * x))
      ⊕ public_G ⊕ public_H ⊕ Q ⊙ tx) end end end end end end.
  - unfold public_G, public_H. clear. point_ring.
  - rewrite EL, ER, EO, ESL, ESR. unfold secret. clear. point_ring.
Qed.
End commitments.

(** ** The commitments to the polynomial *)
Section polynomial.
Context {CY : Cycle} {CL : CycleLaws} {ME : Merlin}.
Add Field polynomial_field : (scalar_field_theory (F:=CScalar)).
Add Ring polynomial_ring : ideal_ring_theory.

Lemma pc_commit_spec pc_gens v b :
  pc_commit pc_gens v b = pc_B pc_gens ⊙ v ⊕ pc_B_blinding pc_gens ⊙ b.
Proof. unfold pc_commit. by rewrite vartime_msm_spec, lincomb_cons, lincomb_single. Qed.

Lemma blinded_inner_product (c b : list CScalar) acc :
  foldl sadd acc (zip_with (λ c v_b, c * v_b) c b) = acc + inner_product c b.
Proof.
  revert b acc. induction c as [|x c IH]; intros [|y b] acc; simpl;
    rewrite ?inner_product_nil_l, ?inner_product_nil_r; try ring.
  rewrite IH, inner_product_cons. ring.
Qed.

Lemma lincomb_commitments pc_gens (c v b : list CScalar) :
  length v = length b →
  lincomb c (zip_with (pc_commit pc_gens) v b)
  = pc_B pc_gens ⊙ inner_product c v ⊕ pc_B_blinding pc_gens ⊙ inner_product c b.
Proof.
  revert v b. induction c as [|x c IH]; intros [|v vs] [|b bs] Hl; try done; csimpl;
    rewrite ?lincomb_nil_l, ?lincomb_nil_r, ?inner_product_nil_l, ?inner_product_nil_r, ?cpoint_mul_0;
    try (symmetry; apply cpoint_add_id_l).
  rewrite lincomb_cons, IH, !inner_product_cons, pc_commit_spec by (simpl in Hl; lia). point_ring.
Qed.

(** [t_2] and its blinding are those of the committed values, so that the
    verifier can do without a commitment to it. *)
Lemma honest_polynomial_check pc_gens x (wv v vb : list CScalar) constant (t : Poly6 CScalar)
    b1 b3 b4 b5 b6 :
  length v = length vb →
  t2 t = constant + inner_product wv v →
  polynomial_check x wv constant (Poly6_eval t x)
    (let x2 := x * x in
     let x3 := x2 * x in
     x * (b1 + x * foldl sadd 0 (zip_with (λ c v_b, c * v_b) wv vb) + x2 * b3 + x3 * b4
          + x3 * x * b5 + x3 * x2 * b6))
    (pc_B pc_gens) (pc_B_blinding pc_gens) (zip_with (pc_commit pc_gens) v vb)
    [pc_commit pc_gens (t1 t) b1; pc_commit pc_gens (t3 t) b3; pc_commit pc_gens (t4 t) b4;
     pc_commit pc_gens (t5 t) b5; pc_commit pc_gens (t6 t) b6]
  = cpoint_identity.
Proof.
  intros Hl Ht2. unfold polynomial_check. cbv zeta.
  rewrite lincomb_commitments, blinded_inner_product, !lincomb_cons, lincomb_nil_l, !pc_commit_spec by done.
  unfold Poly6_eval. rewrite Ht2. destruct t as [c1 c2 c3 c4 c5 c6]. cbn [t1 t3 t4 t5 t6].
  clear -CL. point_ring.
Qed.
End polynomial.

(** ** What the prover returns *)
Section prover.
Context {CY : Cycle} {CL : CycleLaws} {ME : Merlin}.
Add Field prover_field : (scalar_field_theory (F:=CScalar)).
Abbreviation points := (fmap (M:=list) affine_to_point).

(** The challenges [y], [z], [u], [x] and [w] that the transcript gives for a
    proof, after the commitments of both phases. *)
Definition r1cs_challenges (proof : R1CSProof) (t : Transcript)
    : CScalar * CScalar * CScalar * CScalar * CScalar * Transcript :=
  let '(y, t) := challenge_scalar (bstr "y") t in
  let '(z, t) := challenge_scalar (bstr "z") t in
  let t := append_T [T_1 proof; T_3 proof; T_4 proof; T_5 proof; T_6 proof] t in
  let '(u, t) := challenge_scalar (bstr "u") t in
  let '(x, t) := challenge_scalar (bstr "x") t in
  let t := append_evaluations (t_x proof) (t_x_blinding proof) (e_blinding proof) t in
  let '(w_ch, t) := challenge_scalar (bstr "w") t in
  (y, z, u, x, w_ch, t).

Definition poly_t (secrets : Secrets) (w : Weights CScalar) (sL sR : list CScalar) (y : CScalar)
    : Poly6 CScalar :=
  special_inner_product (l_poly_of (the_rows secrets w sL sR y))
    (r_poly_of (the_rows secrets w sL sR y)).

Record honest_proof (core : ProverCore) (ps1 ps2 : PhaseSecrets) (n1 padded_n : nat)
    (g h : list CAffine) (y u x w_ch : CScalar) (w : Weights CScalar) (t_end : Transcript)
    (blindings : CScalar * CScalar * CScalar * CScalar * CScalar)
    (proof : R1CSProof) (t' : Transcript) : Prop := MkHonestProof {
  hp_g : (padded_n ≤ length g)%nat;
  hp_h : (padded_n ≤ length h)%nat;
  hp_T :
    let t := poly_t (p_secrets core) w (s_L ps1 ++ s_L ps2) (s_R ps1 ++ s_R ps2) y in
    let '(b1, b3, b4, b5, b6) := blindings in
    [T_1 proof; T_3 proof; T_4 proof; T_5 proof; T_6 proof]
    = point_compress <$>
        [pc_commit (p_pc_gens core) (t1 t) b1; pc_commit (p_pc_gens core) (t3 t) b3;
         pc_commit (p_pc_gens core) (t4 t) b4; pc_commit (p_pc_gens core) (t5 t) b5;
         pc_commit (p_pc_gens core) (t6 t) b6];
  hp_t_x : t_x proof
    = Poly6_eval (poly_t (p_secrets core) w (s_L ps1 ++ s_L ps2) (s_R ps1 ++ s_R ps2) y) x;
  hp_t_x_blinding :
    let '(b1, b3, b4, b5, b6) := blindings in
    let x2 := x * x in
    let x3 := x2 * x in
    t_x_blinding proof
    = x * (b1 + x * foldl sadd 0 (zip_with (λ c v_b, c * v_b) (wV w) (v_blinding (p_secrets core)))
           + x2 * b3 + x3 * b4 + x3 * x * b5 + x3 * x2 * b6);
  hp_e_blinding : e_blinding proof = honest_e ps1 ps2 u x;
  hp_ipp :
    create t_end (pc_B (p_pc_gens core) ⊙ w_ch) (G_weights u n1 padded_n)
      (H_weights u (sinv y) n1 padded_n) (take padded_n g) (take padded_n h)
      (l_at (p_secrets core) w (s_L ps1 ++ s_L ps2) y x <$> seq 0 padded_n)
      (r_at (p_secrets core) w (s_R ps1 ++ s_R ps2) y x <$> seq 0 padded_n)
    = (ipp_proof proof, t');
}.

Lemma G_factors_weights n1 rest u : G_factors_of n1 rest u = G_weights u n1 (n1 + rest).
Proof.
  unfold G_factors_of, G_weights, u_or_1. rewrite seq_app, fmap_app. f_equal; symmetry.
  - rewrite (list_fmap_ext _ (λ _, 1)).
    + rewrite <-(length_seq n1 0) at 2. by apply const_fmap.
    + intros k i [-> Hi]%lookup_seq. rewrite (proj2 (Nat.ltb_lt _ _)) by lia. done.
  - rewrite (list_fmap_ext _ (λ _, u)).
    + rewrite <-(length_seq rest n1) at 2. by apply const_fmap.
    + intros k i [-> Hi]%lookup_seq. rewrite (proj2 (Nat.ltb_ge _ _)) by lia. done.
Qed.

Lemma H_factors_weights u y_inv n1 n :
  H_factors_of (exp_take n (exp_iter y_inv)) (G_weights u n1 n) = H_weights u y_inv n1 n.
Proof.
  unfold H_factors_of, H_weights, G_weights. rewrite exp_iter_spec.
  by rewrite zip_with_fmap_l, zip_with_fmap_r, zip_with_diag.
Qed.

Lemma prove_polynomials_spec {R} `{CryptoRngCore R} core (trng : R) n1 padded_n ps1 ps2 c1 c2 g h t
    proof t' :
  prove_polynomials core trng n1 padded_n ps1 ps2 c1 c2 g h t = Some (proof, t') →
  let s := p_secrets core in
  let n := length (a_L s) in
  let '(y, z, u, x, w_ch, t_end) := r1cs_challenges proof t in
  (n1 ≤ n ≤ padded_n)%nat → length (s_L ps1) = n1 → length (s_R ps1) = n1 →
  length (s_L ps2) = (n - n1)%nat → length (s_R ps2) = (n - n1)%nat →
  length (a_R s) = n → length (a_O s) = n →
  (∀ w, prover_flattened_constraints core z = Some w → weights_sized s w) →
  ∃ w blindings, prover_flattened_constraints core z = Some w ∧
    c1 = (A_I1 proof, A_O1 proof, S1 proof) ∧ c2 = (A_I2 proof, A_O2 proof, S2 proof) ∧
    honest_proof core ps1 ps2 n1 padded_n g h y u x w_ch w t_end blindings proof t'.
Proof.
  intros Hrun s n. unfold prove_polynomials in Hrun.
  destruct (challenge_scalar (bstr "y") t) as [y ty] eqn:Ey.
  destruct (challenge_scalar (bstr "z") ty) as [z tz] eqn:Ez.
  apply bind_Some in Hrun as (w & Hw & Hrun).
  destruct (poly_rows _ _ _ _ _ _ _) as [rows exp_y] eqn:Erows.
  remember (special_inner_product (l_poly_of rows) (r_poly_of rows)) as tp eqn:Htp in Hrun.
  destruct (srandom trng) as [b1 trng1]. destruct (srandom trng1) as [b3 trng3].
  destruct (srandom trng3) as [b4 trng4]. destruct (srandom trng4) as [b5 trng5].
  destruct (srandom trng5) as [b6 trng6].
  destruct (challenge_scalar (bstr "u") _) as [u tu] eqn:Eu.
  destruct (challenge_scalar (bstr "x") tu) as [x tx] eqn:Ex.
  destruct (challenge_scalar (bstr "w") _) as [w_ch tw] eqn:Ew.
  apply bind_Some in Hrun as (g_all & [Hg ->]%slice_Some & Hrun).
  apply bind_Some in Hrun as (h_all & [Hh ->]%slice_Some & Hrun).
  destruct (create _ _ _ _ _ _ _ _) as [ipp tc] eqn:Ec.
  destruct c1 as [[AI1 AO1] S1], c2 as [[AI2 AO2] S2]. injection Hrun as <- <-.
  unfold r1cs_challenges. cbn [T_1 T_3 T_4 T_5 T_6 t_x t_x_blinding e_blinding].
  rewrite Ey. cbv beta iota zeta. rewrite Ez. cbv beta iota zeta. rewrite Eu, Ex, Ew. intros Hn HsL1 HsR1 HsL2 HsR2 HaR HaO Hsized.
  specialize (Hsized w Hw). rewrite scalar_invert_spec in *.
  assert (HsLR : length (zip (s_L ps1 ++ s_L ps2) (s_R ps1 ++ s_R ps2)) = n) by lengths.
  assert (HsL : length (s_L ps1 ++ s_L ps2) = n) by lengths.
  assert (HsR : length (s_R ps1 ++ s_R ps2) = n) by lengths.
  set (sL := s_L ps1 ++ s_L ps2) in *. set (sR := s_R ps1 ++ s_R ps2) in *.
  assert (rows = the_rows s w sL sR y ∧ exp_y = spow y n) as [-> ->].
  { rewrite (poly_rows_spec s w sL sR y) in Erows; try done.
    - rewrite HsLR in Erows. injection Erows as <- <-. done.
    - by rewrite length_exp_take, exp_iter_spec.
    - rewrite length_exp_take. lia. }
  exists w, (b1, b3, b4, b5, b6). split; [done|]. split; [done|]. split; [done|].
  rewrite G_factors_weights, !Nat.sub_0_r, !drop_0 in Ec.
  change (p_secrets core) with s in Ec. change (length (a_L s)) with n in Ec.
  replace (n1 + (n - n1 + (padded_n - n)))%nat with padded_n in Ec by lia. unfold n in Ec.
  rewrite H_factors_weights, l_vec_padded, r_vec_padded in Ec by (done || lia).
  split; cbn [T_1 T_3 T_4 T_5 T_6 t_x t_x_blinding e_blinding ipp_proof]; try lia; by rewrite ?Htp.
Qed.

Lemma length_random_vec {R} `{CryptoRngCore R} k (rng : R) :
  length (random_vec (F:=CScalar) k rng).1 = k.
Proof.
  revert rng. induction k as [|k IH]; intros rng; [done|]. cbn [random_vec].
  destruct (srandom rng) as [s rng1]. specialize (IH rng1).
  destruct (random_vec k rng1) as [ss rng2]. simpl in *. lia.
Qed.

Lemma draw_phase_lengths {R} `{CryptoRngCore R} k (rng : R) :
  length (s_L (draw_phase (H:=CY) k rng).1) = k ∧ length (s_R (draw_phase (H:=CY) k rng).1) = k.
Proof.
  unfold draw_phase. destruct (srandom rng) as [i r1]. destruct (srandom r1) as [o r2].
  destruct (srandom r2) as [sc r3]. pose proof (length_random_vec k r3) as H1.
  destruct (random_vec k r3) as [l r4]. pose proof (length_random_vec k r4) as H2.
  by destruct (random_vec k r4) as [r r5].
Qed.

Lemma draw_phase2_spec {R} `{CryptoRngCore R} k (rng : R) :
  let ps := (draw_phase2 (H:=CY) k rng).1 in
  length (s_L ps) = k ∧ length (s_R ps) = k ∧
  (k = 0%nat → i_blinding ps = 0 ∧ o_blinding ps = 0 ∧ s_blinding ps = 0).
Proof.
  unfold draw_phase2.
  destruct (if Nat.ltb 0 k then _ else _) as [[[i o] sc] r3] eqn:Eb.
  pose proof (length_random_vec k r3) as H1. destruct (random_vec k r3) as [l r4].
  pose proof (length_random_vec k r4) as H2. destruct (random_vec k r4) as [r r5].
  cbn [fst s_L s_R i_blinding o_blinding s_blinding] in *. split; [done|]. split; [done|].
  intros ->. by injection Eb as <- <- <- _.
Qed.

(** The first phase commits to the multipliers that the circuit made. *)
Lemma first_phase_spec {R} `{CryptoRngCore R} (self : Prover) bp_gens (trng : R) t fp :
  core_wf (p_core self) → prove_first_phase self bp_gens trng t = Some (Ok fp) →
  let s := p_secrets (p_core self) in
  let n1 := length (a_L s) in
  ∃ g h, shared_G bp_gens 0 = Some g ∧ shared_H bp_gens 0 = Some h ∧
    length (s_L (fp_secrets R fp)) = n1 ∧ length (s_R (fp_secrets R fp)) = n1 ∧
    (let '(i, o, sc) := phase_points (p_pc_gens (p_core self)) (a_L s) (a_R s) (a_O s)
        (fp_secrets R fp) (points g) (points h) in
     fp_commitments R fp = (point_compress i, point_compress o, point_compress sc)) ∧
    let '(A_I, A_O, A_S) := fp_commitments R fp in
    prover_create_randomized_constraints
      (MkProver (set_transcript (p_core self) (append_phase1 [A_I; A_O; A_S] t)) (p_deferred self))
    = Some (Ok (fp_core R fp)).
Proof.
  intros [HwR HwO _ _] Hrun s n1. unfold prove_first_phase in Hrun.
  destruct (Nat.ltb _ _); [done|]. pose proof (draw_phase_lengths n1 trng) as [HsL HsR].
  fold s n1 in Hrun. destruct (draw_phase n1 trng) as [ps1 trng1]. cbn [fst] in *.
  apply outcome_bind_Ok in Hrun as (g & Hg%no_panic_inv & Hrun).
  apply outcome_bind_Ok in Hrun as (h & Hh%no_panic_inv & Hrun).
  apply outcome_bind_Ok in Hrun as (gp & [Hgl ->]%no_panic_inv%slice_Some & Hrun).
  apply outcome_bind_Ok in Hrun as (hp & [Hhl ->]%no_panic_inv%slice_Some & Hrun).
  rewrite Nat.sub_0_r, !drop_0 in Hrun. fold s in HwR, HwO.
  rewrite (phase_commitments_spec _ _ _ _ _ g h n1) in Hrun; try lia; try done.
  2: { rewrite HwO. fold s n1. lengths. }
  exists g, h. destruct (phase_points _ _ _ _ _ _ _) as [[i o] sc] eqn:Epp.
  apply outcome_bind_Ok in Hrun as (core & Hcore & [= <-]).
  cbn [fp_secrets fp_commitments fp_core]. by rewrite Epp.
Qed.

Lemma second_phase_spec {R} `{CryptoRngCore R} n1 bp_gens (fp : FirstPhase R) proof t' :
  prove_second_phase n1 bp_gens fp = Some (Ok (proof, t')) →
  let core := fp_core R fp in
  let n := length (a_L (p_secrets core)) in
  (next_power_of_two n ≤ gens_capacity bp_gens)%nat ∧
  ∃ ps2 trng c2 g h,
    length (s_L ps2) = (n - n1)%nat ∧ length (s_R ps2) = (n - n1)%nat ∧
    (n - n1 = 0 → i_blinding ps2 = szero ∧ o_blinding ps2 = szero ∧ s_blinding ps2 = szero)%nat ∧
    phase2_commitments core n1 ps2 bp_gens = Some c2 ∧
    shared_G bp_gens 0 = Some g ∧ shared_H bp_gens 0 = Some h ∧
    let '(A_I, A_O, A_S) := c2 in
    prove_polynomials core (trng : R) n1 (next_power_of_two n) (fp_secrets R fp) ps2
      (fp_commitments R fp) c2 g h (append_phase2 [A_I; A_O; A_S] (p_transcript core))
    = Some (proof, t').
Proof.
  intros Hrun core n. unfold prove_second_phase in Hrun. fold core n in Hrun.
  destruct (Nat.ltb_spec (gens_capacity bp_gens) (next_power_of_two n)) as [|Hcap]; [done|].
  split; [done|]. pose proof (draw_phase2_spec (n - n1) (fp_rng R fp)) as (HsL & HsR & Hz).
  destruct (draw_phase2 (n - n1) (fp_rng R fp)) as [ps2 trng]. cbn [fst] in *.
  apply outcome_bind_Ok in Hrun as ([[AI AO] AS] & Hc%no_panic_inv & Hrun).
  apply outcome_bind_Ok in Hrun as (g & Hg%no_panic_inv & Hrun).
  apply outcome_bind_Ok in Hrun as (h & Hh%no_panic_inv & Hrun%no_panic_inv).
  by exists ps2, trng, (AI, AO, AS), g, h.
Qed.
End prover.

(** ** What the verifier does with it *)
Section verifier.
Context {CY : Cycle} {CL : CycleLaws} {ME : Merlin}.
Add Field verifier_field : (scalar_field_theory (F:=CScalar)).
Abbreviation points := (fmap (M:=list) affine_to_point).

Lemma validate_points_Ok labels ps t :
  Forall nonidentity ps → validate_points (zip labels ps) t = (Ok (), append_points labels ps t).
Proof.
  intros Hp. revert labels t. induction Hp as [|p ps Hp _ IH]; intros [|l labels] t; try done.
  cbn [zip_with validate_points]. unfold validate_and_append_point. unfold nonidentity in Hp. rewrite Hp.
  by rewrite IH.
Qed.

Lemma sync_committed P V : core_sync P V → length (v_V V) = length (sec_v (p_secrets P)).
Proof.
  intros HPV. rewrite (sync_V _ _ HPV). unfold value_commitments. rewrite length_zip_with.
  pose proof (sync_v _ _ HPV). lia.
Qed.

Lemma value_commitments_points pc_gens s :
  value_commitments pc_gens s
  = point_compress <$> zip_with (pc_commit pc_gens) (sec_v s) (v_blinding s).
Proof.
  unfold value_commitments. rewrite (zip_with_zip (pc_commit _)), <-list_fmap_compose.
  rewrite zip_with_zip. apply list_fmap_ext. by intros i [v b].
Qed.

Lemma prologue_complete self V proof bp_gens core t :
  full_sync self V → Forall nonidentity [A_I1 proof; A_O1 proof; S1 proof] →
  t = append_phase1 [A_I1 proof; A_O1 proof; S1 proof] (prove_transcript self) →
  prover_create_randomized_constraints (MkProver (set_transcript (p_core self) t) (p_deferred self))
  = Some (Ok core) →
  (next_power_of_two (length (a_L (p_secrets core))) ≤ gens_capacity bp_gens)%nat →
  ∃ vcore, core_sync core vcore ∧
    equation_prologue V proof bp_gens
    = Some (Ok (vcore, append_phase2 [A_I2 proof; A_O2 proof; S2 proof] (p_transcript core))).
Proof.
  intros [HPV Hd] Hid Ht Hcore Hcap.
  assert (Ht' : append_phase1 [A_I1 proof; A_O1 proof; S1 proof]
    (append_u64 (bstr "m") (Z.of_nat (length (v_V (v_core V)))) (v_transcript (v_core V))) = t).
  { rewrite Ht. unfold prove_transcript. rewrite (sync_committed _ _ HPV). by rewrite (sync_transcript _ _ HPV). }
  destruct (randomized_sync (MkProver (set_transcript (p_core self) t) (p_deferred self))
    (MkVerifier (v_set_transcript (v_core V) t) (v_deferred V)) core) as (vcore & Hvr & Hsync).
  - split; [|done]. destruct HPV. split; done.
  - done.
  - exists vcore. split; [done|]. unfold equation_prologue.
    change [(bstr "A_I1", A_I1 proof); (bstr "A_O1", A_O1 proof); (bstr "S1", S1 proof)] with
      (zip [bstr "A_I1"; bstr "A_O1"; bstr "S1"] [A_I1 proof; A_O1 proof; S1 proof]).
    rewrite validate_points_Ok by done. fold append_phase1. rewrite Ht'.
    cbn [returns mbind outcome_bind]. rewrite Hvr. cbn [mbind outcome_bind].
    rewrite <-(sync_L _ _ Hsync), <-(sync_transcript _ _ Hsync).
    by rewrite (proj2 (Nat.ltb_ge _ _)).
Qed.

(** Once the challenges, the weights and the rounds are known, the verifier gets to
    its equation. *)
Lemma verifier_reaches_equation {R} `{CryptoRngCore R} self proof pc_gens bp_gens vcore t y z u x w_ch
    t_end w wc g h (rng : R) :
  equation_prologue self proof bp_gens = Some (Ok (vcore, t)) →
  r1cs_challenges proof t = (y, z, u, x, w_ch, t_end) →
  Forall nonidentity [T_1 proof; T_3 proof; T_4 proof; T_5 proof; T_6 proof] →
  verifier_flattened_constraints vcore z = Some (w, wc) →
  shared_G bp_gens 0 = Some g → shared_H bp_gens 0 = Some h →
  let ipp := ipp_proof proof in
  let n := next_power_of_two (num_vars vcore) in
  length (ipp_L_vec ipp) = length (ipp_R_vec ipp) → proof_shape ipp n →
  let us := (proof_challenges ipp n t_end).1 in
  Forall (λ u, u ≠ szero) us →
  ∃ r rng', verification_equation_and_return_transcript self proof pc_gens bp_gens rng
    = (Some (Ok (the_equation vcore (num_vars (v_core self)) proof pc_gens y u x w_ch us w wc g h r,
                 (proof_challenges ipp n t_end).2)), rng').
Proof.
  intros Hpro Hch Hid Hfl Hg Hh ipp n Hlr Hshape us Hus.
  unfold verification_equation_and_return_transcript. rewrite Hpro. unfold r1cs_challenges in Hch.
  destruct (challenge_scalar (bstr "y") t) as [y' ty]. destruct (challenge_scalar (bstr "z") ty) as [z' tz].
  change [(bstr "T_1", T_1 proof); (bstr "T_3", T_3 proof); (bstr "T_4", T_4 proof);
          (bstr "T_5", T_5 proof); (bstr "T_6", T_6 proof)] with
    (zip [bstr "T_1"; bstr "T_3"; bstr "T_4"; bstr "T_5"; bstr "T_6"]
       [T_1 proof; T_3 proof; T_4 proof; T_5 proof; T_6 proof]).
  rewrite validate_points_Ok by done. fold append_T.
  destruct (challenge_scalar (bstr "u") _) as [u' tu]. destruct (challenge_scalar (bstr "x") tu) as [x' tx].
  destruct (challenge_scalar (bstr "w") _) as [w' tw]. injection Hch as -> -> -> -> -> ->.
  rewrite Hfl. fold ipp n.
  assert (Hvs : verification_scalars ipp n t_end
    = (Ok ((λ u, u * u) <$> us, (λ u, sinv u * sinv u) <$> us, s_vector us),
       (proof_challenges ipp n t_end).2)).
  { by apply verification_scalars_spec. }
  rewrite Hvs. destruct (finalize _ _) as [trng rng']. destruct (srandom trng) as [r trng'].
  exists r, rng'. by rewrite Hg, Hh.
Qed.

Lemma index_sum_zip n (f : nat → CScalar) (F : nat → CScalar) g :
  index_sum n (λ i, f i * F i) (points g)
  = lincomb (zip_with smul (f <$> seq 0 n) (F <$> seq 0 n)) (points (take n g)).
Proof.
  rewrite zip_with_fmap_l, zip_with_fmap_r, zip_with_diag, fmap_take, lincomb_take by lengths.
  done.
Qed.

Lemma decompress_all_fmap cs Ps :
  decompress_all cs = Ok Ps → compressed_decompress <$> cs = Some <$> Ps.
Proof.
  intros Hf%decompress_all_Ok. induction Hf as [|c P cs Ps Hc _ IH]; [done|].
  by rewrite !fmap_cons, Hc, IH.
Qed.

Lemma decompress_compressed (Ps : list CPoint) : compressed_decompress <$> (point_compress <$> Ps) = Some <$> Ps.
Proof. rewrite <-list_fmap_compose. apply list_fmap_ext. intros. apply decompress_compress. Qed.

(** The argument of an honest proof is accepted for the point that its commitments
    determine. *)
Lemma honest_argument core ps1 ps2 n1 k g h y u x w_ch w t_end blindings proof t' A :
  let s := p_secrets core in
  let n := length (a_L s) in
  let padded_n := (2 ^ k)%nat in
  honest_proof core ps1 ps2 n1 padded_n g h y u x w_ch w t_end blindings proof t' →
  (k < 32)%nat → (n1 ≤ n ≤ padded_n)%nat → length (a_R s) = n → length (a_O s) = n →
  weights_sized s w →
  length (s_L ps1) = n1 → length (s_R ps1) = n1 →
  length (s_L ps2) = (n - n1)%nat → length (s_R ps2) = (n - n1)%nat → y ≠ szero →
  A = honest_commitments (p_pc_gens core) s ps1 ps2 n1 (points g) (points h) →
  let ipp := ipp_proof proof in
  let us := (proof_challenges ipp padded_n t_end).1 in
  Forall nonidentity (ipp_L_vec ipp ++ ipp_R_vec ipp) → Forall (λ u, u ≠ szero) us →
  length (ipp_L_vec ipp) = k ∧ length (ipp_R_vec ipp) = k ∧ proof_shape ipp padded_n ∧
  t' = (proof_challenges ipp padded_n t_end).2 ∧
  ∃ Ls Rs, decompress_all (ipp_L_vec ipp) = Ok Ls ∧ decompress_all (ipp_R_vec ipp) = Ok Rs ∧
    argument_check us Ls Rs
      (opened_point x u (sinv y) n1 padded_n w (e_blinding proof) (t_x proof)
         (pc_B (p_pc_gens core) ⊙ w_ch) (pc_B_blinding (p_pc_gens core)) A (points g) (points h))
      (pc_B (p_pc_gens core) ⊙ w_ch) padded_n (G_weights u n1 padded_n)
      (H_weights u (sinv y) n1 padded_n) (points g) (points h) (ipp_a ipp) (ipp_b ipp)
    = cpoint_identity.
Proof.
  intros s n padded_n [Hg Hh HT Htx Htxb He Hipp] Hk Hn HaR HaO Hw HsL1 HsR1 HsL2 HsR2 Hy -> ipp us Hid Hus.
  set (P := opened_point _ _ _ _ _ _ _ _ _ _ _ _ _).
  assert (HsL : length (s_L ps1 ++ s_L ps2) = n) by lengths.
  assert (HsR : length (s_R ps1 ++ s_R ps2) = n) by lengths.
  assert (HP : P = lincomb (zip_with smul (l_at s w (s_L ps1 ++ s_L ps2) y x <$> seq 0 padded_n)
        (G_weights u n1 padded_n)) (points (take padded_n g))
      ⊕ lincomb (zip_with smul (r_at s w (s_R ps1 ++ s_R ps2) y x <$> seq 0 padded_n)
        (H_weights u (sinv y) n1 padded_n)) (points (take padded_n h))
      ⊕ (pc_B (p_pc_gens core) ⊙ w_ch) ⊙ inner_product
          (l_at s w (s_L ps1 ++ s_L ps2) y x <$> seq 0 padded_n)
          (r_at s w (s_R ps1 ++ s_R ps2) y x <$> seq 0 padded_n)).
  { unfold P. rewrite He, honest_opened_point by done. unfold G_weights, H_weights.
    rewrite <-!index_sum_zip, Htx. unfold poly_t. fold s.
    by rewrite (t_x_inner_product s w _ _ y HaR HaO Hw HsL HsR x padded_n (proj2 Hn)). }
  set (lv := l_at s w (s_L ps1 ++ s_L ps2) y x <$> seq 0 padded_n) in *.
  set (rv := r_at s w (s_R ps1 ++ s_R ps2) y x <$> seq 0 padded_n) in *.
  destruct (create_complete k t_end (pc_B (p_pc_gens core) ⊙ w_ch) (G_weights u n1 padded_n)
    (H_weights u (sinv y) n1 padded_n) (take padded_n g) (take padded_n h) lv rv P ipp t' Hk)
    as (HL & HR & Ht' & Hacc); [..|exact HP|exact Hipp|];
    try (unfold G_weights, H_weights, lv, rv; lengths; done).
  destruct (Hacc Hid Hus) as [Hshape (Ls & Rs & HLs & HRs & Htb)].
  split; [done|]. split; [done|]. split; [done|]. split; [done|]. exists Ls, Rs.
  split; [done|]. split; [done|].
  pose proof (decompressed_length _ _ (decompress_all_fmap _ _ HLs)).
  pose proof (decompressed_length _ _ (decompress_all_fmap _ _ HRs)).
  assert (Hlus : length us = k).
  { unfold us, proof_challenges. rewrite length_ipp_challenges. lengths. }
  rewrite !fmap_take in Htb. apply argument_check_textbook; [by rewrite Hlus|lia|lia| | |lengths|lengths|done];
    unfold G_weights, H_weights; lengths.
Qed.

Lemma flattened_sized P z w :
  core_wf P → prover_flattened_constraints P z = Some w → weights_sized (p_secrets P) w.
Proof.
  intros Hwf Hw.
  destruct (flattened_sync P (MkVerifierCore (p_transcript P) (p_constraints P) (length (a_L (p_secrets P)))
    (value_commitments (p_pc_gens P) (p_secrets P)) (p_pending P)) z w) as [Hs _]; [|done..].
  pose proof (wf_R _ Hwf) as HR. pose proof (wf_O _ Hwf) as HO. pose proof (wf_v _ Hwf).
  split; try done. cbn. rewrite HO. lengths.
Qed.

(** All that a successful run of the prover establishes. *)
Lemma prover_run {R} `{CryptoRngCore R} (self : Prover) bp_gens (trng : R) t fp proof t' :
  let n1 := length (a_L (p_secrets (p_core self))) in
  let core := fp_core R fp in
  let s := p_secrets core in
  let padded_n := next_power_of_two (length (a_L s)) in
  core_wf (p_core self) →
  prove_first_phase self bp_gens trng t = Some (Ok fp) →
  prove_second_phase n1 bp_gens fp = Some (Ok (proof, t')) →
  let '(y, z, u, x, w_ch, t_end) :=
    r1cs_challenges proof (append_phase2 [A_I2 proof; A_O2 proof; S2 proof] (p_transcript core)) in
  (n1 ≤ length (a_L s))%nat ∧ core_wf core ∧ p_pc_gens core = p_pc_gens (p_core self) ∧
  (padded_n ≤ gens_capacity bp_gens)%nat ∧
  prover_create_randomized_constraints
    (MkProver (set_transcript (p_core self) (append_phase1 [A_I1 proof; A_O1 proof; S1 proof] t))
       (p_deferred self)) = Some (Ok core) ∧
  ∃ ps1 ps2 g h w blindings,
    shared_G bp_gens 0 = Some g ∧ shared_H bp_gens 0 = Some h ∧
    prover_flattened_constraints core z = Some w ∧
    length (s_L ps1) = n1 ∧ length (s_R ps1) = n1 ∧
    length (s_L ps2) = (length (a_L s) - n1)%nat ∧ length (s_R ps2) = (length (a_L s) - n1)%nat ∧
    honest_proof core ps1 ps2 n1 padded_n g h y u x w_ch w t_end blindings proof t' ∧
    [A_I1 proof; A_O1 proof; S1 proof; A_I2 proof; A_O2 proof; S2 proof]
    = point_compress <$> honest_commitments (p_pc_gens core) s ps1 ps2 n1 (points g) (points h).
Proof.
  intros n1 core s padded_n Hwf Hfirst Hsecond.
  apply first_phase_spec in Hfirst as (g & h & Hg & Hh & HsL1 & HsR1 & Hc1 & Hcore); [|done].
  apply second_phase_spec in Hsecond as (Hcap & ps2 & trng2 & c2 & g' & h' & HsL2 & HsR2 & Hz & Hc2
    & Hg' & Hh' & Hpoly).
  rewrite Hg in Hg'. rewrite Hh in Hh'. injection Hg' as <-. injection Hh' as <-.
  fold core s padded_n in Hcore, Hcap, HsL2, HsR2, Hz, Hc2, Hpoly. fold n1 in HsL1, HsR1.
  set (ps1 := fp_secrets R fp) in *.
  assert (Hext : core_extends n1 (p_core self) core).
  { destruct (fp_commitments R fp) as [[AI AO] AS].
    apply (randomized_extends (MkProver _ _)) in Hcore; [|destruct Hwf; by split].
    destruct Hcore. by split. }
  pose proof (ext_wf _ _ _ Hext) as Hwfc. pose proof (ext_k _ _ _ Hext) as Hk. fold s in Hk.
  pose proof (next_power_of_two_ge (length (a_L s))) as Hge. fold padded_n in Hge.
  pose proof (wf_R _ Hwfc) as HaR. pose proof (wf_O _ Hwfc) as HO. fold s in HaR, HO.
  assert (HaO : length (a_O s) = length (a_L s)) by (rewrite HO; lengths).
  destruct (fp_commitments R fp) as [[AI AO] AS]. destruct c2 as [[AI2 AO2] AS2].
  pose proof (prove_polynomials_spec _ _ _ _ _ _ _ _ _ _ _ _ _ Hpoly) as Hspec.
  destruct (r1cs_challenges proof _) as [[[[[y z] u] x] w_ch] t_end] eqn:Ech.
  destruct Hspec as (w & blindings & Hw & [= -> -> ->] & [= -> -> ->] & Hhonest); try done.
  { intros w. by apply flattened_sized. }
  rewrite Ech. split; [done|]. split; [done|]. split; [by destruct Hext|]. split; [done|]. split; [done|].
  exists ps1, ps2, g, h, w, blindings. do 8 (split; [done|]).
  pose proof (phase2_commitments_spec _ _ _ _ _ _ _ Hc2 Hg Hh Hk HaR HaO HsL2 HsR2) as Hph2.
  unfold honest_commitments. fold s in Hph2.
  rewrite (ext_gens _ _ _ Hext) in *.
  pose proof (ext_L _ _ _ Hext) as EL. pose proof (ext_R _ _ _ Hext) as ER.
  pose proof (ext_O _ _ _ Hext) as EO. fold s in EL, ER, EO. rewrite EL, ER, EO. clear EL ER EO.
  pose proof (wf_R _ Hwf). assert (length (a_O (p_secrets (p_core self))) = n1).
  { rewrite (wf_O _ Hwf). unfold n1. lengths. }
  rewrite !firstn_all2 by (unfold n1 in *; lia).
  destruct (phase_points _ (a_L _) _ _ _ _ _) as [[i o] sc].
  destruct (phase_points _ (drop _ _) _ _ _ _ _) as [[i2 o2] sc2].
  injection Hc1 as -> -> ->.
  assert ((A_I2 proof, A_O2 proof, S2 proof) = (point_compress i2, point_compress o2, point_compress sc2))
    as [= -> -> ->]; [|done].
  apply Hph2. intros Hn. apply Hz. lia.
Qed.

Definition honest_T (core : ProverCore) (w : Weights CScalar) (ps1 ps2 : PhaseSecrets) (y : CScalar)
    (blindings : CScalar * CScalar * CScalar * CScalar * CScalar) : list CPoint :=
  let t := poly_t (p_secrets core) w (s_L ps1 ++ s_L ps2) (s_R ps1 ++ s_R ps2) y in
  let '(b1, b3, b4, b5, b6) := blindings in
  let commit := pc_commit (p_pc_gens core) in
  [commit (t1 t) b1; commit (t3 t) b3; commit (t4 t) b4; commit (t5 t) b5; commit (t6 t) b6].

Lemma honest_T_points core ps1 ps2 n1 padded_n g h y u x w_ch w t_end blindings proof t' :
  honest_proof core ps1 ps2 n1 padded_n g h y u x w_ch w t_end blindings proof t' →
  [T_1 proof; T_3 proof; T_4 proof; T_5 proof; T_6 proof]
  = point_compress <$> honest_T core w ps1 ps2 y blindings.
Proof.
  intros Hh. pose proof (hp_T _ _ _ _ _ _ _ _ _ _ _ _ _ _ _ _ Hh) as HT.
  by destruct blindings as [[[[b1 b3] b4] b5] b6].
Qed.

(** The commitments to the polynomial of an honest proof open to the claimed value. *)
Lemma honest_polynomial core ps1 ps2 n1 padded_n g h y u x w_ch w t_end blindings proof t' wc :
  let s := p_secrets core in
  let n := length (a_L s) in
  honest_proof core ps1 ps2 n1 padded_n g h y u x w_ch w t_end blindings proof t' →
  core_wf core → length (a_O s) = n → weights_sized s w →
  length (s_L ps1 ++ s_L ps2) = n → length (s_R ps1 ++ s_R ps2) = n → y ≠ szero →
  weights_value s w = wc →
  the_polynomial_check proof (p_pc_gens core) y x w wc
    (zip_with (pc_commit (p_pc_gens core)) (sec_v s) (v_blinding s))
    (honest_T core w ps1 ps2 y blindings) = cpoint_identity.
Proof.
  intros s n Hh Hwf HaO Hw HsL HsR Hy Hval. unfold the_polynomial_check.
  rewrite (hp_t_x _ _ _ _ _ _ _ _ _ _ _ _ _ _ _ _ Hh).
  pose proof (hp_t_x_blinding _ _ _ _ _ _ _ _ _ _ _ _ _ _ _ _ Hh) as Hb. unfold honest_T.
  destruct blindings as [[[[b1 b3] b4] b5] b6]. cbv zeta in Hb. rewrite Hb.
  apply honest_polynomial_check; [by destruct Hwf|]. unfold poly_t.
  apply (t2_value s w _ _ y (wf_R _ Hwf) HaO Hw HsL HsR wc Hy (wf_O _ Hwf) Hval).
Qed.

Lemma length_proof_challenges ipp n t k :
  length (ipp_L_vec ipp) = k → length (ipp_R_vec ipp) = k → length (proof_challenges ipp n t).1 = k.
Proof. intros HL HR. unfold proof_challenges. rewrite length_ipp_challenges. lengths. Qed.

(** The equation that a synchronised verifier prepares for an honest proof passes,
    whatever the batching scalar. *)
Lemma honest_equation core vcore n1 ps1 ps2 g h y u x w_ch w wc t_end blindings proof t' :
  let s := p_secrets core in
  let n := length (a_L s) in
  let padded_n := next_power_of_two n in
  let ipp := ipp_proof proof in
  let us := (proof_challenges ipp padded_n t_end).1 in
  core_sync core vcore → core_wf core →
  honest_proof core ps1 ps2 n1 padded_n g h y u x w_ch w t_end blindings proof t' →
  weights_sized s w → weights_value s w = wc → (Nat.log2_up n < 32)%nat → (n1 ≤ n)%nat →
  length (s_L ps1) = n1 → length (s_R ps1) = n1 →
  length (s_L ps2) = (n - n1)%nat → length (s_R ps2) = (n - n1)%nat → y ≠ szero →
  [A_I1 proof; A_O1 proof; S1 proof; A_I2 proof; A_O2 proof; S2 proof]
    = point_compress <$> honest_commitments (p_pc_gens core) s ps1 ps2 n1 (points g) (points h) →
  Forall nonidentity (ipp_L_vec ipp ++ ipp_R_vec ipp) → Forall (λ u, u ≠ szero) us →
  length (ipp_L_vec ipp) = length (ipp_R_vec ipp) ∧ proof_shape ipp padded_n ∧
  t' = (proof_challenges ipp padded_n t_end).2 ∧
  ∀ r, equation_verify
    (the_equation vcore n1 proof (p_pc_gens core) y u x w_ch us w wc g h r) = Some (Ok ()).
Proof.
  intros s n padded_n ipp us Hvs Hwf Hhonest Hws Hval Hlog Hn1 HsL1 HsR1 HsL2 HsR2 Hy HA HidLR Hus.
  pose proof (next_power_of_two_ge n) as Hge. pose proof (wf_R _ Hwf) as HaR.
  pose proof (wf_O _ Hwf) as HO. fold s in HaR, HO.
  assert (HlO : length (a_O s) = n) by (rewrite HO; unfold n; lengths).
  destruct (honest_argument core ps1 ps2 n1 (Nat.log2_up n) g h y u x w_ch w t_end blindings proof t' _
    Hhonest Hlog (conj Hn1 Hge) HaR HlO Hws HsL1 HsR1 HsL2 HsR2 Hy eq_refl HidLR Hus)
    as (HlL & HlR & Hshape & Ht' & Ls & Rs & HLs & HRs & Harg).
  split; [unfold ipp; congruence|]. split; [done|]. split; [done|]. intros r.
  assert (Hnv : num_vars vcore = n) by (by rewrite <-(sync_L _ _ Hvs)).
  apply (the_equation_verify vcore n1 proof (p_pc_gens core) y u x w_ch us w wc g h
    (honest_commitments (p_pc_gens core) s ps1 ps2 n1 (points g) (points h))
    (zip_with (pc_commit (p_pc_gens core)) (sec_v s) (v_blinding s))
    (honest_T core w ps1 ps2 y blindings) Ls Rs).
  - split; [by rewrite HA, decompress_compressed|]. split.
    { by rewrite (sync_V _ _ Hvs), <-decompress_compressed, value_commitments_points. }
    split; [by rewrite (honest_T_points _ _ _ _ _ _ _ _ _ _ _ _ _ _ _ _ Hhonest), decompress_compressed|].
    split; by apply decompress_all_fmap.
  - destruct Hws as (HwL & HwR & _ & HwV). pose proof (sync_committed _ _ Hvs).
    pose proof (hp_g _ _ _ _ _ _ _ _ _ _ _ _ _ _ _ _ Hhonest).
    pose proof (hp_h _ _ _ _ _ _ _ _ _ _ _ _ _ _ _ _ Hhonest).
    assert (Hlus : length us = Nat.log2_up n) by (by apply length_proof_challenges).
    unfold equation_sized. rewrite Hnv, Hlus. fold s n in HaR, HwL, HwR. fold ipp in HlL, HlR.
    repeat split; try done; unfold s in *; congruence.
  - unfold the_argument_check, the_opened_point. rewrite Hnv.
    assert (HsL : length (s_L ps1 ++ s_L ps2) = n) by lengths.
    assert (HsR : length (s_R ps1 ++ s_R ps2) = n) by lengths.
    pose proof (honest_polynomial core ps1 ps2 n1 _ g h y u x w_ch w t_end blindings proof t' wc Hhonest Hwf
      HlO Hws HsL HsR Hy Hval) as Hpol. fold s in Hpol.
    rewrite Hpol, cpoint_identity_mul, cpoint_add_id_r. exact Harg.
Qed.
(** A successful run of an honest prover convinces a verifier of the same circuit. *)
Lemma run_accepted {R R'} `{CryptoRngCore R} `{CryptoRngCore R'} (self : Prover) (V : Verifier)
    bp_gens (trng : R) fp proof t' :
  full_sync self V → core_wf (p_core self) →
  prove_first_phase self bp_gens trng (prove_transcript self) = Some (Ok fp) →
  prove_second_phase (length (a_L (p_secrets (p_core self)))) bp_gens fp = Some (Ok (proof, t')) →
  satisfied (fp_core _ fp) →
  let n := length (a_L (p_secrets (fp_core _ fp))) in
  let ipp := ipp_proof proof in
  (Nat.log2_up n < 32)%nat →
  Forall nonidentity [A_I1 proof; A_O1 proof; S1 proof] →
  Forall nonidentity [T_1 proof; T_3 proof; T_4 proof; T_5 proof; T_6 proof] →
  Forall nonidentity (ipp_L_vec ipp ++ ipp_R_vec ipp) →
  let '(y, _, _, _, _, t) :=
    r1cs_challenges proof
      (append_phase2 [A_I2 proof; A_O2 proof; S2 proof] (p_transcript (fp_core _ fp))) in
  y ≠ szero → Forall (λ u, u ≠ szero) (proof_challenges ipp (next_power_of_two n) t).1 →
  length (ipp_L_vec ipp) = length (ipp_R_vec ipp) ∧ ∀ rng' : R',
  (verify_and_return_transcript V proof (p_pc_gens (p_core self)) bp_gens rng').1 = Some (Ok t').
Proof.
  intros Hsync Hwf Hfirst Hprove Hsat n ipp Hlog HidA HidT HidLR.
  set (core := fp_core _ fp) in *. set (n1 := length (a_L (p_secrets (p_core self)))) in *.
  pose proof (prover_run self bp_gens trng (prove_transcript self) fp proof t' Hwf Hfirst Hprove) as Hrun. fold core n in Hrun.
  destruct (r1cs_challenges _ _) as [[[[[y z] u] x] w_ch] t_end] eqn:Ech.
  destruct Hrun as (Hn1 & Hwfc & Hgens & Hcap & Hcore & ps1 & ps2 & g & h & w & blindings & Hg & Hh & Hw
    & HsL1 & HsR1 & HsL2 & HsR2 & Hhonest & HA).
  intros Hy Hus.
  destruct (prologue_complete self V proof bp_gens core _ Hsync HidA eq_refl Hcore Hcap) as (vcore & Hvs & Hpro).
  destruct (flattened_sync core vcore z w Hvs Hw) as (Hws & wc & Hvw & Hval).
  specialize (Hval Hsat).
  pose proof (next_power_of_two_ge n) as Hge.
  pose proof (wf_R _ Hwfc) as HaR. pose proof (wf_O _ Hwfc) as HaO.
  assert (HlO : length (a_O (p_secrets core)) = n) by (rewrite HaO; unfold n; lengths).
  assert (Hnv : num_vars vcore = n) by (by rewrite <-(sync_L _ _ Hvs)).
  assert (Hn1' : num_vars (v_core V) = n1) by (destruct Hsync as [Hs _]; by rewrite <-(sync_L _ _ Hs)).
  destruct (honest_equation core vcore n1 ps1 ps2 g h y u x w_ch w wc t_end blindings proof t')
    as (Hlr & Hshape & -> & Hver); try done.
  split; [exact Hlr|]. intros rng'.
  unfold verify_and_return_transcript.
  destruct (verifier_reaches_equation V proof (p_pc_gens (p_core self)) bp_gens vcore _ y z u x w_ch t_end
    w wc g h rng' Hpro Ech HidT Hvw Hg Hh) as (r & rng2' & ->); [done|by rewrite Hnv..|].
  rewrite Hnv, Hn1', <-Hgens. cbn [mbind outcome_bind fst]. by rewrite Hver.
Qed.
End verifier.

(** ** Properties *)
Section properties.
Context {CY : Cycle} {CL : CycleLaws} {ME : Merlin}.

(** C16: completeness of the R1CS argument.  A prover and a verifier have built the
    same constraint system, with randomized constraints or without; the prover's
    assignment, once its callbacks have run, satisfies every constraint; and
    [prove] returns a proof.  Then [verify], with whatever randomness, accepts it
    and leaves its transcript in the state of the prover's, unless a point that
    must not be the identity is, or the challenge [y] or a challenge of the
    inner-product argument is zero.  The argument has fewer than 32 rounds. *)
Theorem r1cs_complete {R R'} `{CryptoRngCore R} `{CryptoRngCore R'} (self : Prover) (V : Verifier)
    bp_gens (rng rng1 : R) fp proof t' :
  full_sync self V → core_wf (p_core self) →
  prove_first_phase self bp_gens (prove_rng self rng).1 (prove_transcript self) = Some (Ok fp) →
  prove_and_return_transcript self bp_gens rng = (Some (Ok (proof, t')), rng1) →
  satisfied (fp_core _ fp) →
  let n := length (a_L (p_secrets (fp_core _ fp))) in
  let ipp := ipp_proof proof in
  (Nat.log2_up n < 32)%nat →
  Forall nonidentity [A_I1 proof; A_O1 proof; S1 proof] →
  Forall nonidentity [T_1 proof; T_3 proof; T_4 proof; T_5 proof; T_6 proof] →
  Forall nonidentity (ipp_L_vec ipp ++ ipp_R_vec ipp) →
  let '(y, _, _, _, _, t) :=
    r1cs_challenges proof
      (append_phase2 [A_I2 proof; A_O2 proof; S2 proof] (p_transcript (fp_core _ fp))) in
  y ≠ szero → Forall (λ u, u ≠ szero) (proof_challenges ipp (next_power_of_two n) t).1 →
  ∀ rng' : R',
  (verify_and_return_transcript V proof (p_pc_gens (p_core self)) bp_gens rng').1 = Some (Ok t').
Proof.
  intros Hsync Hwf Hfirst Hprove Hsat n ipp Hlog HidA HidT HidLR.
  unfold prove_and_return_transcript in Hprove. destruct (prove_rng self rng) as [trng rng2].
  cbn [fst] in Hfirst. rewrite Hfirst in Hprove. apply (f_equal fst) in Hprove.
  pose proof (run_accepted (R':=R') self V bp_gens trng fp proof t' Hsync Hwf Hfirst Hprove Hsat Hlog
    HidA HidT HidLR) as Hrun.
  destruct (r1cs_challenges _ _) as [[[[[y z] u] x] w_ch] t_end]. intros Hy Hus. by apply Hrun.
Qed.
End properties.

(** ** Witnesses

    The proof of the square circuit, which runs one callback. *)
Definition square_bp : BulletproofGens (H:=TinyCycle) :=
  MkBulletproofGens (H:=TinyCycle) 4 1 [square_G] [square_H].
Definition square_verifier' : Verifier (H:=TinyCycle) (H0:=ToyMerlin) :=
  MkVerifier
    (MkVerifierCore (H:=TinyCycle) (H0:=ToyMerlin) 33156%Z square_constraints 2 [x1e] (Some 1%nat))
    [square_callback].
Definition square_first_phase : FirstPhase (H:=TinyCycle) (H0:=ToyMerlin) Z :=
  MkFirstPhase (H:=TinyCycle) (H0:=ToyMerlin) Z
    (MkProverCore (H0:=ToyMerlin) 41429%Z square_gens proved_constraints
       (MkSecrets (H:=TinyCycle) [tiny 3; tiny 5; tiny 57] [tiny 3; tiny 0; tiny 5]
          [tiny 9; tiny 0; tiny 91] [tiny 3] [tiny 8]) None)
    1797602976%Z
    (MkPhaseSecrets (H:=TinyCycle) (tiny 38) (tiny 63) (tiny 24) [tiny 39; tiny 49] [tiny 75; tiny 66])
    (x15, x28, x23).

Lemma square_verifier_run :
  run_circuit (square_circuit None) square_verifier = Some ((), square_verifier').
Proof. vm_refl. Qed.
Lemma square_sync' : full_sync (CY:=TinyCycle) square_prover' square_verifier'.
Proof. split; [split; vm_refl|]. repeat (constructor || intros [[? ?] ?] || intros ?). Qed.
Lemma square_wf' : core_wf (CY:=TinyCycle) (p_core square_prover').
Proof. split; try vm_refl. intros i [= <-]. simpl. lia. Qed.
Lemma square_first :
  prove_first_phase square_prover' square_bp (prove_rng square_prover' 3%Z).1
    (prove_transcript square_prover') = Some (Ok square_first_phase).
Proof. vm_refl. Qed.
Lemma square_proved :
  prove_and_return_transcript square_prover' square_bp 3%Z
  = (Some (Ok (square_proof, 50230%Z)), 1163074432%Z).
Proof. vm_refl. Qed.
Lemma proved_satisfied :
  satisfied (CY:=TinyCycle) (ME:=ToyMerlin) (fp_core (H:=TinyCycle) (H0:=ToyMerlin) _ square_first_phase).
Proof. apply (bool_decide_unpack _). vm_compute. exact I. Qed.
Lemma square_challenges :
  r1cs_challenges (CY:=TinyCycle) (ME:=ToyMerlin) square_proof
    (append_phase2 (H:=TinyCycle) (H0:=ToyMerlin) [x31; x20; x3b] 41429%Z)
  = (tiny 22, tiny 77, tiny 24, tiny 94, tiny 59, 44122%Z).
Proof. vm_refl. Qed.
Lemma square_ipp_challenges :
  proof_challenges (CY:=TinyCycle) (ME:=ToyMerlin) (ipp_proof square_proof) (next_power_of_two 3) 44122%Z
  = (square_us, 50230%Z).
Proof. vm_refl. Qed.

Lemma r1cs_complete_witness :
  (verify_and_return_transcript square_verifier' square_proof square_gens square_bp 5%Z).1
  = Some (Ok 50230%Z).
Proof.
  pose proof (r1cs_complete (CY:=TinyCycle) (ME:=ToyMerlin) (R:=Z) (R':=Z) square_prover' square_verifier'
    square_bp 3%Z 1163074432%Z square_first_phase square_proof 50230%Z square_sync' square_wf' square_first
    square_proved proved_satisfied) as Hc.
  cbv zeta in Hc.
  change (append_phase2 _ _) with (append_phase2 (H:=TinyCycle) (H0:=ToyMerlin) [x31; x20; x3b] 41429%Z) in Hc.
  rewrite square_challenges in Hc. apply Hc.
  - apply Nat.ltb_lt. vm_refl.
  - apply (bool_decide_unpack _). vm_compute. exact I.
  - apply (bool_decide_unpack _). vm_compute. exact I.
  - apply (bool_decide_unpack _). vm_compute. exact I.
  - by apply (bool_decide_unpack _).
  - match goal with |- Forall _ ?l.1 => change l with
      (proof_challenges (CY:=TinyCycle) (ME:=ToyMerlin) (ipp_proof square_proof) (next_power_of_two 3) 44122%Z)
    end. rewrite square_ipp_challenges. apply (bool_decide_unpack _). vm_compute. exact I.
Defined.
