(* ===== verification/BatchVerify.v ===== *)
(** * Batch verification (bulletproofs-cycle/r1cs/verifier.rs)

    [verify_batch] and [verify_batch_iter]: the prepared equations of several
    proofs, each scaled by a fresh nonzero coefficient, in one multiscalar
    multiplication over the shared generators. *)

From Stdlib Require Import ZArith Lia Field Strings.Byte.
From stdpp Require Import prelude strings.
From S2P Require Import Prelude CoreError Group Algebra TestSupport Cycle BpUtil InnerProduct ConstraintSystem Generators R1csProof Prover Verifier R1csSync R1csVerify.

Local Open Scope golden_scope.

Section model.
Context `{Cycle} `{Merlin}.

(** The accumulators of the loop. *)
Record BatchState := MkBatchState {
  b_pedersen_scalars : CScalar * CScalar;
  b_g_scalars : list CScalar;
  b_g_points : list CAffine;
  b_h_scalars : list CScalar;
  b_h_points : list CAffine;
  b_proof_scalars : list CScalar;
  b_proof_points : list (option CPoint);
}.

(** [for_each(|(accumulator, scalar)| *accumulator += coefficient * scalar)]: what
    is longer than the scalars stays. *)
Definition accumulate (accumulator scalars : list CScalar) (coefficient : CScalar) : list CScalar :=
  zip_with (λ acc scalar, acc + coefficient * scalar) accumulator scalars
  ++ drop (length scalars) accumulator.

(** Equal vectors have equal prefixes, so the test for the same allocation only
    saves the comparison. *)
Definition accumulate_generator_prefix (accumulator_scalars : list CScalar)
    (accumulator_points : list CAffine) (scalars : list CScalar) (points : list CAffine)
    (coefficient : CScalar) : result R1CSError (list CScalar * list CAffine) :=
  if Nat.ltb (length points) (length scalars) then Err R1CSVerificationError
  else
    let shared_len := Nat.min (length accumulator_points) (length scalars) in
    if negb (bool_decide (take shared_len accumulator_points = take shared_len points))
    then Err R1CSVerificationError
    else
      let accumulator_points :=
        if Nat.ltb (length accumulator_points) (length scalars) then points else accumulator_points in
      let accumulator_scalars :=
        if Nat.ltb (length accumulator_scalars) (length scalars)
        then resize (length scalars) 0 accumulator_scalars else accumulator_scalars in
      Ok (accumulate accumulator_scalars scalars coefficient, accumulator_points).

(** The loop that draws until the candidate is not zero; [None] without fuel. *)
Fixpoint nonzero_coefficient `{CryptoRngCore R} (fuel : nat) (rng : R) : option (CScalar * R) :=
  match fuel with
  | O => None
  | S fuel =>
      let '(candidate, rng) := srandom rng in
      if negb (bool_decide (candidate = 0)) then Some (candidate, rng)
      else nonzero_coefficient fuel rng
  end.

(** The loop over the equations. *)
Definition batch_accumulate (st : BatchState) (equation : VerificationEquation) (coefficient : CScalar)
    : result R1CSError BatchState :=
  let pedersen_scalars :=
    ((b_pedersen_scalars st).1 + coefficient * (pedersen_scalars equation).1,
     (b_pedersen_scalars st).2 + coefficient * (pedersen_scalars equation).2) in
  '(g_scalars, g_points) ←
    accumulate_generator_prefix (b_g_scalars st) (b_g_points st) (g_scalars equation)
      (g_points equation) coefficient;
  '(h_scalars, h_points) ←
    accumulate_generator_prefix (b_h_scalars st) (b_h_points st) (h_scalars equation)
      (h_points equation) coefficient;
  Ok (MkBatchState pedersen_scalars g_scalars g_points h_scalars h_points
        (b_proof_scalars st ++ ((λ scalar, coefficient * scalar) <$> proof_scalars equation))
        (b_proof_points st ++ proof_points equation)).

Fixpoint batch_loop `{CryptoRngCore R} (fuel : nat) (points : CPoint * CPoint) (st : BatchState)
    (equations : list (result R1CSError VerificationEquation)) (rng : R)
    : option (result R1CSError BatchState * R) :=
  match equations with
  | [] => Some (Ok st, rng)
  | Err e :: _ => Some (Err e, rng)
  | Ok equation :: equations =>
      if (negb (bool_decide (pedersen_points equation = points))
          || Nat.ltb (length (g_points equation)) (length (g_scalars equation))
          || Nat.ltb (length (h_points equation)) (length (h_scalars equation))
          || negb (Nat.eqb (length (proof_scalars equation)) (length (proof_points equation))))%bool
      then Some (Err R1CSVerificationError, rng)
      else
        '(coefficient, rng) ← nonzero_coefficient fuel rng;
        match batch_accumulate st equation coefficient with
        | Err e => Some (Err e, rng)
        | Ok st => batch_loop fuel points st equations rng
        end
  end.

Definition verify_batch_iter `{CryptoRngCore R} (fuel : nat)
    (equations : list (result R1CSError VerificationEquation)) (rng : R)
    : option (outcome R1CSError unit * R) :=
  match equations with
  | [] => Some (returns (Err R1CSVerificationError), rng)
  | Err e :: _ => Some (returns (Err e), rng)
  | Ok first :: _ =>
      let points := pedersen_points first in
      let st := MkBatchState (0, 0) [] (g_points first) [] (h_points first) [] [] in
      '(res, rng) ← batch_loop fuel points st equations rng;
      Some ((st ← returns res;
             check_msm (b_pedersen_scalars st) points (b_g_scalars st) (b_g_points st)
               (b_h_scalars st) (b_h_points st) (b_proof_scalars st) (b_proof_points st)), rng)
  end.

Definition verify_batch `{CryptoRngCore R} (fuel : nat) (equations : list VerificationEquation)
    (rng : R) : option (outcome R1CSError unit * R) :=
  verify_batch_iter fuel (Ok <$> equations) rng.
End model.

(** ** What an equation states *)
Section values.
Context {CY : Cycle} {CL : CycleLaws} {ME : Merlin}.
Add Field values_field : (scalar_field_theory (F:=CScalar)).
Add Ring values_ring : ideal_ring_theory.
Abbreviation points := (fmap (M:=list) affine_to_point).

Definition msm_value (ps : CScalar * CScalar) (pp : CPoint * CPoint) (gs : list CScalar)
    (gp : list CAffine) (hs : list CScalar) (hp : list CAffine) (ss : list CScalar)
    (sp : list (option CPoint)) : CPoint :=
  pp.1 ⊙ ps.1 ⊕ pp.2 ⊙ ps.2 ⊕ lincomb ss (default cpoint_identity <$> sp)
  ⊕ lincomb gs (points gp) ⊕ lincomb hs (points hp).
Definition equation_value (e : VerificationEquation) : CPoint :=
  msm_value (pedersen_scalars e) (pedersen_points e) (g_scalars e) (g_points e) (h_scalars e)
    (h_points e) (proof_scalars e) (proof_points e).

Definition equation_lengths_ok (e : VerificationEquation) : Prop :=
  (length (g_scalars e) ≤ length (g_points e))%nat ∧
  (length (h_scalars e) ≤ length (h_points e))%nat ∧
  length (proof_scalars e) = length (proof_points e).

Lemma collect_points_iff l Ps :
  collect_points l = Some Ps ↔ Forall is_Some l ∧ Ps = default cpoint_identity <$> l.
Proof.
  unfold collect_points. revert Ps. induction l as [|[P|] l IH]; intros Ps.
  - simpl. split; [by intros [= <-]|]. by intros [_ ->].
  - change (mapM id (Some P :: l)) with (k ← mapM id l; mret (P :: k)). rewrite bind_Some.
    setoid_rewrite IH. rewrite Forall_cons. split.
    + intros (? & [Hl ->] & [= <-]). split; [split; [by eexists|done]|done].
    + intros [[_ Hl] ->]. by eexists.
  - split; [done|]. intros [[[? [=]] _]%Forall_cons _].
Qed.

(** The last steps of both verifiers. *)
Lemma check_msm_Ok ps pp gs gp hs hp ss sp :
  (length gs ≤ length gp)%nat → (length hs ≤ length hp)%nat → length ss = length sp →
  check_msm ps pp gs gp hs hp ss sp = Some (Ok ()) ↔
  Forall is_Some sp ∧ msm_value ps pp gs gp hs hp ss sp = cpoint_identity.
Proof.
  intros Hg Hh Hs. unfold check_msm. rewrite outcome_bind_Ok. setoid_rewrite returns_Ok.
  setoid_rewrite ok_or_Ok. setoid_rewrite collect_points_iff.
  rewrite !slice_take by done. cbn [no_panic fmap option_fmap option_map mbind outcome_bind].
  assert (Hval : ∀ Ps, Ps = default cpoint_identity <$> ([Some pp.1; Some pp.2] ++ sp) →
    vartime_msm_mixed [(gs, take (length gs) gp); (hs, take (length hs) hp)] ([ps.1; ps.2] ++ ss) Ps
    = msm_value ps pp gs gp hs hp ss sp).
  { intros Ps ->. rewrite vartime_msm_mixed_spec; [|repeat constructor; cbn [fst snd]; lengths|lengths].
    unfold default_vartime_msm_mixed, msm_value. cbn [foldl].
    rewrite vartime_msm_spec, !vartime_msm_affine_spec by lengths.
    rewrite fmap_app, lincomb_app, !fmap_take, !lincomb_take by lengths. csimpl.
    rewrite !lincomb_cons, lincomb_nil_l. point_ring. }
  split.
  - intros (Ps & [Hsome HPs] & Hcheck). rewrite (Hval _ HPs) in Hcheck.
    apply Forall_app in Hsome as [_ Hsome]. split; [done|]. by case_bool_decide.
  - intros [Hsome Hid]. eexists. split; [split; [|done]|].
    + apply Forall_app. split; [repeat constructor; by eexists|done].
    + rewrite Hval by done. by rewrite bool_decide_eq_true_2.
Qed.

Lemma equation_verify_Ok e :
  equation_verify e = Some (Ok ()) ↔
  equation_lengths_ok e ∧ Forall is_Some (proof_points e) ∧ equation_value e = cpoint_identity.
Proof.
  unfold equation_verify, equation_lengths_ok.
  destruct (Nat.ltb_spec (length (g_points e)) (length (g_scalars e))),
    (Nat.ltb_spec (length (h_points e)) (length (h_scalars e))),
    (Nat.eqb_spec (length (proof_scalars e)) (length (proof_points e))); cbn [orb negb];
    try (split; [done|intros ((? & ? & ?) & _); lia || done]).
  rewrite check_msm_Ok by done. naive_solver.
Qed.
End values.

(** ** The accumulators *)
Section accumulators.
Context {CY : Cycle} {CL : CycleLaws} {ME : Merlin}.
Add Field accumulators_field : (scalar_field_theory (F:=CScalar)).
Add Ring accumulators_ring : ideal_ring_theory.
Abbreviation points := (fmap (M:=list) affine_to_point).

Implicit Types (acc s : list CScalar) (c : CScalar) (Ps : list CPoint).

Lemma length_accumulate acc s c :
  (length s ≤ length acc)%nat → length (accumulate acc s c) = length acc.
Proof. intros Hs. unfold accumulate. lengths. Qed.

Lemma lincomb_accumulate acc s (c : CScalar) Ps :
  (length s ≤ length acc)%nat →
  lincomb (accumulate acc s c) Ps = lincomb acc Ps ⊕ lincomb s Ps ⊙ c.
Proof.
  unfold accumulate. revert s Ps. induction acc as [|x acc IH]; intros [|y s] [|P Ps] Hl;
    simpl in Hl; try lia; cbn [zip_with app length drop];
    rewrite ?lincomb_nil_l, ?lincomb_nil_r, ?cpoint_identity_mul, ?cpoint_add_id_r; try done.
  rewrite !lincomb_cons, IH by lia. point_ring.
Qed.

Lemma lincomb_resize n acc Ps : (length acc ≤ n)%nat → lincomb (resize n 0 acc) Ps = lincomb acc Ps.
Proof.
  intros Hn. rewrite resize_ge by done.
  rewrite (lincomb_index acc n), (lincomb_index (acc ++ _) n) by lengths.
  apply index_sum_ext. intros. apply at_or_zero_app_zeros.
Qed.

Lemma lincomb_prefix s (P P' : list CAffine) :
  (length s ≤ length P)%nat → P `prefix_of` P' → lincomb s (points P') = lincomb s (points P).
Proof.
  intros Hs [k ->]. rewrite <-(lincomb_take s (length P) (points (P ++ k))) by done.
  rewrite fmap_app, take_app_length' by lengths. done.
Qed.

Lemma take_length_prefix {A} (P P' : list A) : P = take (length P) P' → P `prefix_of` P'.
Proof. intros ->. apply prefix_take. Qed.

(** What a successful accumulation did: the generators have only grown, the
    equation uses a prefix of them, and its sum was added. *)
Lemma accumulate_prefix_Ok acc P s Q c acc' P' :
  accumulate_generator_prefix acc P s Q c = Ok (acc', P') → (length acc ≤ length P)%nat →
  (length acc' ≤ length P')%nat ∧ P `prefix_of` P' ∧ take (length s) Q `prefix_of` P' ∧
  lincomb acc' (points P') = lincomb acc (points P) ⊕ lincomb s (points Q) ⊙ c.
Proof.
  intros Hrun Hacc. unfold accumulate_generator_prefix in Hrun.
  destruct (Nat.ltb_spec (length Q) (length s)) as [|HQ]; [done|].
  case_bool_decide as Heq; [|done]. cbn [negb] in Hrun. injection Hrun as <- <-.
  set (P' := if Nat.ltb (length P) (length s) then Q else P).
  set (acc' := if Nat.ltb (length acc) (length s) then _ else acc).
  assert (HPP : P `prefix_of` P' ∧ take (length s) Q `prefix_of` P').
  { unfold P'. destruct (Nat.ltb_spec (length P) (length s)) as [Hlt|Hge].
    - rewrite Nat.min_l, firstn_all in Heq by lia.
      split; [by apply take_length_prefix|apply prefix_take].
    - rewrite Nat.min_r in Heq by lia. rewrite <-Heq. split; [done|apply prefix_take]. }
  assert (Hacc' : (length s ≤ length acc' ≤ length P')%nat ∧
    lincomb acc' (points P') = lincomb acc (points P)).
  { destruct HPP as [HP HQ']. pose proof (prefix_length _ _ HP). pose proof (prefix_length _ _ HQ').
    rewrite length_take in *. unfold acc'. destruct (Nat.ltb_spec (length acc) (length s)).
    - rewrite length_resize. split; [lia|]. rewrite lincomb_resize by lia. by apply lincomb_prefix.
    - split; [lia|]. by apply lincomb_prefix. }
  destruct HPP as [HP HQ'], Hacc' as [Hl Hval].
  rewrite length_accumulate, lincomb_accumulate, Hval by lia.
  split; [lia|]. split; [done|]. split; [done|]. do 2 f_equal.
  rewrite (lincomb_prefix s (take (length s) Q) P'), fmap_take, lincomb_take by (done || lengths). done.
Qed.

(** Prefixes of one list of generators are compatible. *)
Lemma accumulate_prefix_total acc P s Q c U :
  P `prefix_of` U → Q `prefix_of` U → (length s ≤ length Q)%nat →
  ∃ acc' P', accumulate_generator_prefix acc P s Q c = Ok (acc', P') ∧ P' `prefix_of` U.
Proof.
  intros HP HQ Hs. unfold accumulate_generator_prefix.
  rewrite (proj2 (Nat.ltb_ge _ _)) by done.
  assert (∀ n, (n ≤ length P)%nat → (n ≤ length Q)%nat → take n P = take n Q) as Heq.
  { intros n Hn Hm. destruct HP as [k ->], HQ as [l HU].
    rewrite <-(take_app_le P k) by done. by rewrite HU, take_app_le. }
  rewrite bool_decide_eq_true_2 by (apply Heq; lia). cbn [negb].
  eexists _, _. split; [done|]. by case_match.
Qed.
End accumulators.

(** ** The loop *)
Section loop.
Context {CY : Cycle} {CL : CycleLaws} {ME : Merlin} {R : Type} `{CryptoRngCore R}.
Add Field loop_field : (scalar_field_theory (F:=CScalar)).
Add Ring loop_ring : ideal_ring_theory.
Abbreviation points := (fmap (M:=list) affine_to_point).

(** The generator after a number of draws; and that it keeps producing nonzero
    scalars, with fewer than [n] zeros in a row. *)
Definition draws (k : nat) (rng : R) : R := Nat.iter k (λ rng, (srandom (F:=CScalar) rng).2) rng.
Definition draws_coefficients (n : nat) (rng : R) : Prop :=
  ∀ k, ∃ j, (j < n)%nat ∧ (srandom (F:=CScalar) (draws (k + j) rng)).1 ≠ szero.

Lemma draws_S k rng : draws (S k) rng = draws k (srandom (F:=CScalar) rng).2.
Proof. unfold draws. by rewrite Nat.iter_succ_r. Qed.
Lemma draws_add k j rng : draws (j + k) rng = draws j (draws k rng).
Proof. unfold draws. apply Nat.iter_add. Qed.
Lemma draws_coefficients_after n k rng :
  draws_coefficients n rng → draws_coefficients n (draws k rng).
Proof.
  intros Hd i. destruct (Hd (i + k)%nat) as (j & Hj & Hs). exists j. split; [done|].
  rewrite <-draws_add. by replace (i + j + k)%nat with (i + k + j)%nat by lia.
Qed.

(** The coefficients of a batch are the first nonzero scalars that the generator draws,
    one after the other. *)
Definition first_nonzero (rng : R) (c : CScalar) (rng' : R) : Prop :=
  ∃ j, c = (srandom (draws j rng)).1 ∧ c ≠ szero ∧
    (∀ i, (i < j)%nat → (srandom (F:=CScalar) (draws i rng)).1 = szero) ∧ rng' = draws (S j) rng.
Inductive drawn_coefficients : R → list CScalar → R → Prop :=
  | drawn_nil rng : drawn_coefficients rng [] rng
  | drawn_cons rng c rng1 cs rng2 :
      first_nonzero rng c rng1 → drawn_coefficients rng1 cs rng2 → drawn_coefficients rng (c :: cs) rng2.

Lemma nonzero_coefficient_drawn fuel rng (c : CScalar) rng' :
  nonzero_coefficient fuel rng = Some (c, rng') → first_nonzero rng c rng'.
Proof.
  revert rng. induction fuel as [|fuel IH]; intros rng; [done|]. cbn [nonzero_coefficient].
  destruct (srandom rng) as [c1 rng1] eqn:E. case_bool_decide as Hc; cbn [negb].
  - intros (j & -> & Hnz & Hz & ->)%IH.
    assert (Hd : ∀ k, draws k rng1 = draws (S k) rng) by (intros k; by rewrite draws_S, E).
    exists (S j). rewrite <-!Hd. split; [done|]. split; [done|]. split; [|done].
    intros [|i] Hi; [unfold draws; simpl; by rewrite E|]. rewrite <-Hd. apply Hz. lia.
  - intros [= <- <-]. exists 0%nat. unfold draws. simpl. rewrite E. split; [done|]. split; [done|].
    split; [lia|done].
Qed.
Lemma first_nonzero_unique rng (c c' : CScalar) r r' :
  first_nonzero rng c r → first_nonzero rng c' r' → c = c' ∧ r = r'.
Proof.
  intros (j & -> & Hj & Hzj & ->) (k & -> & Hk & Hzk & ->).
  assert (j = k) as ->; [|done]. destruct (Nat.lt_trichotomy j k) as [Hl|[->|Hl]]; [|done|].
  - by destruct Hj; apply Hzk.
  - by destruct Hk; apply Hzj.
Qed.
(** There is one such list for every number of equations. *)
Lemma drawn_unique rng cs r cs' r' :
  drawn_coefficients rng cs r → drawn_coefficients rng cs' r' → length cs = length cs' → cs = cs' ∧ r = r'.
Proof.
  intros Hd. revert cs' r'. induction Hd as [|rng c rng1 cs rng2 Hc _ IH]; intros cs' r' Hd' Hl.
  - by inversion Hd'; subst.
  - inversion Hd' as [|? c' rng1' cs'' ? Hc' Hd'']; subst; [done|].
    destruct (first_nonzero_unique _ _ _ _ _ Hc Hc') as [<- <-].
    by destruct (IH _ _ Hd'' ltac:(by injection Hl)) as [<- <-].
Qed.
Lemma drawn_nonzero rng cs r : drawn_coefficients rng cs r → Forall (λ c, c ≠ szero) cs.
Proof. induction 1 as [|rng c rng1 cs rng2 (j & _ & Hc & _) _ IH]; by constructor. Qed.

(** Enough fuel: the loop returns. *)
Lemma nonzero_coefficient_total n fuel rng :
  draws_coefficients n rng → (n ≤ fuel)%nat →
  ∃ c k, nonzero_coefficient fuel rng = Some (c, draws k rng).
Proof.
  intros Hd Hn. destruct (Hd 0%nat) as (j & Hj & Hs). cbn [Nat.add] in Hs.
  assert (Hfuel : (j < fuel)%nat) by lia. clear Hn Hj Hd. revert rng fuel Hs Hfuel.
  induction j as [|j IH]; intros rng [|fuel] Hs Hfuel; [lia| |lia|]; cbn [nonzero_coefficient].
  - destruct (srandom rng) as [c rng1] eqn:E. unfold draws in Hs. simpl in Hs. rewrite E in Hs.
    rewrite bool_decide_eq_false_2 by done. exists c, 1%nat. unfold draws. simpl. by rewrite E.
  - destruct (srandom rng) as [c rng1] eqn:E. case_bool_decide; cbn [negb].
    + rewrite draws_S, E in Hs. destruct (IH rng1 fuel Hs) as (c' & k & Hk); [lia|].
      exists c', (S k). by rewrite draws_S, E.
    + exists c, 1%nat. unfold draws. simpl. by rewrite E.
Qed.

Definition state_ok (st : BatchState) : Prop :=
  (length (b_g_scalars st) ≤ length (b_g_points st))%nat ∧
  (length (b_h_scalars st) ≤ length (b_h_points st))%nat ∧
  length (b_proof_scalars st) = length (b_proof_points st).
Definition state_value (pp : CPoint * CPoint) (st : BatchState) : CPoint :=
  msm_value (b_pedersen_scalars st) pp (b_g_scalars st) (b_g_points st) (b_h_scalars st)
    (b_h_points st) (b_proof_scalars st) (b_proof_points st).

Lemma batch_accumulate_Ok pp st e c st' :
  batch_accumulate st e c = Ok st' → state_ok st → pedersen_points e = pp → equation_lengths_ok e →
  state_ok st' ∧ b_proof_points st' = b_proof_points st ++ proof_points e ∧
  state_value pp st' = state_value pp st ⊕ equation_value e ⊙ c.
Proof.
  intros Hrun (Hg & Hh & Hp) <- (Heg & Heh & Hep). unfold batch_accumulate in Hrun.
  apply bind_Ok in Hrun as ([gs gp] & HG & Hrun). apply bind_Ok in Hrun as ([hs hp] & HH & [= <-]).
  apply accumulate_prefix_Ok in HG as (Hg' & _ & _ & HGval); [|done].
  apply accumulate_prefix_Ok in HH as (Hh' & _ & _ & HHval); [|done].
  unfold state_ok, state_value, equation_value, msm_value.
  cbn [b_pedersen_scalars b_g_scalars b_g_points b_h_scalars b_h_points b_proof_scalars b_proof_points
    fst snd].
  split; [split; [done|]; split; [done|lengths]|]. split; [done|].
  rewrite HGval, HHval, fmap_app, lincomb_app by lengths.
  replace ((λ scalar, c * scalar) <$> proof_scalars e) with ((λ scalar, scalar * c) <$> proof_scalars e).
  2: { apply list_fmap_ext. intros. ring. }
  rewrite <-lincomb_scale. point_ring.
Qed.

Lemma batch_loop_Ok fuel pp st items rng st' rng' :
  batch_loop fuel pp st items rng = Some (Ok st', rng') → state_ok st →
  ∃ es cs, items = Ok <$> es ∧ length cs = length es ∧ drawn_coefficients rng cs rng' ∧
    Forall (λ e, pedersen_points e = pp ∧ equation_lengths_ok e) es ∧ state_ok st' ∧
    b_proof_points st' = b_proof_points st ++ mjoin (proof_points <$> es) ∧
    state_value pp st' = state_value pp st ⊕ lincomb cs (equation_value <$> es).
Proof.
  revert st rng. induction items as [|[e|err] items IH]; intros st rng; cbn [batch_loop]; [|..|done].
  { intros [= <- <-] Hst. exists [], []. do 2 (split; [done|]). split; [constructor|].
    do 2 (split; [done|]). split; [by rewrite app_nil_r|].
    by rewrite lincomb_nil_l, cpoint_add_id_r. }
  case_bool_decide as Hpp; [|done].
  destruct (Nat.ltb_spec (length (g_points e)) (length (g_scalars e))) as [|Hg]; [done|].
  destruct (Nat.ltb_spec (length (h_points e)) (length (h_scalars e))) as [|Hh]; [done|].
  destruct (Nat.eqb_spec (length (proof_scalars e)) (length (proof_points e))) as [Hp|]; [|done].
  cbn [negb orb]. intros ([c rng1] & Hc & Hrun)%bind_Some Hst.
  destruct (batch_accumulate st e c) as [st1|err] eqn:Hacc; [|done].
  destruct (batch_accumulate_Ok pp st e c st1 Hacc Hst Hpp) as (Hst1 & Hpp1 & Hval1); [by split_and!|].
  destruct (IH st1 rng1 Hrun Hst1) as (es & cs & -> & Hl & Hcs & Hes & Hst' & Hpts & Hval).
  exists (e :: es), (c :: cs). split; [done|]. split; [simpl; lia|].
  split; [econstructor; [by eapply nonzero_coefficient_drawn|done]|].
  split; [constructor; [by split_and!|done]|]. split; [done|].
  rewrite Hpts, Hpp1, Hval, Hval1, !fmap_cons, lincomb_cons. split.
  - simpl. by rewrite <-app_assoc.
  - point_ring.
Qed.

(** Equations over prefixes of common generators are never rejected by the loop. *)
Definition batchable (pp : CPoint * CPoint) (U W : list CAffine) (e : VerificationEquation) : Prop :=
  pedersen_points e = pp ∧ equation_lengths_ok e ∧ g_points e `prefix_of` U ∧ h_points e `prefix_of` W.

Lemma batch_loop_total n fuel pp U W st es rng :
  draws_coefficients n rng → (n ≤ fuel)%nat → Forall (batchable pp U W) es →
  b_g_points st `prefix_of` U → b_h_points st `prefix_of` W →
  ∃ st' rng', batch_loop fuel pp st (Ok <$> es) rng = Some (Ok st', rng').
Proof.
  intros Hd Hn Hes. revert st rng Hd.
  induction Hes as [|e es (Hpp & (Hg & Hh & Hp) & HU & HW) _ IH]; intros st rng Hd HsU HsW.
  { by eexists _, _. }
  rewrite fmap_cons. cbn [batch_loop]. rewrite bool_decide_eq_true_2 by done.
  rewrite (proj2 (Nat.ltb_ge _ _)), (proj2 (Nat.ltb_ge _ _)), (proj2 (Nat.eqb_eq _ _)) by done.
  cbn [negb orb]. destruct (nonzero_coefficient_total n fuel rng Hd Hn) as (c & k & ->).
  cbn [mbind option_bind]. unfold batch_accumulate.
  destruct (accumulate_prefix_total (b_g_scalars st) (b_g_points st) (g_scalars e) (g_points e) c U)
    as (gs & gp & -> & HgU); [done..|].
  destruct (accumulate_prefix_total (b_h_scalars st) (b_h_points st) (h_scalars e) (h_points e) c W)
    as (hs & hp & -> & HhW); [done..|].
  cbn [mbind result_bind]. apply IH; [by apply draws_coefficients_after|done|done].
Qed.
End loop.

(** ** Batches *)
Section batches.
Context {CY : Cycle} {CL : CycleLaws} {ME : Merlin} {R : Type} `{CryptoRngCore R}.
Add Field batches_field : (scalar_field_theory (F:=CScalar)).
Add Ring batches_ring : ideal_ring_theory.
Implicit Types (cs : list CScalar) (Ps : list CPoint) (es : list VerificationEquation) (rng : R).

Lemma lincomb_one_left cs Ps i c P :
  cs !! i = Some c → Ps !! i = Some P →
  (∀ j Q, j ≠ i → Ps !! j = Some Q → Q = cpoint_identity) → lincomb cs Ps = P ⊙ c.
Proof.
  revert cs i. induction Ps as [|Q Ps IH]; intros [|d cs] [|i] Hc HP Ho; try done; simpl in Hc, HP.
  - injection Hc as ->. injection HP as ->. rewrite lincomb_cons.
    assert (lincomb cs Ps = cpoint_identity) as ->; [|by rewrite cpoint_add_id_r].
    clear IH. revert cs. assert (Forall (λ Q, Q = cpoint_identity) Ps) as Hall.
    { apply Forall_lookup. intros j Q Hj. by apply (Ho (S j)). }
    induction Hall as [|Q Ps -> _ IH]; intros [|d cs]; try done.
    rewrite lincomb_cons, IH, cpoint_identity_mul; [apply cpoint_add_id_l|].
    intros [|j] Q' Hne HQ'; [done|]. apply (Ho (S (S j))); [lia|done].
  - rewrite lincomb_cons, (IH cs i Hc HP), (Ho 0%nat Q), cpoint_identity_mul; try done.
    + apply cpoint_add_id_l.
    + intros j Q' Hne HQ'. apply (Ho (S j)); [lia|done].
Qed.

Lemma scaled_identity (P : CPoint) (c : CScalar) :
  c ≠ szero → P ⊙ c = cpoint_identity → P = cpoint_identity.
Proof.
  intros Hc HP. rewrite <-(cpoint_mul_1 P), <-(sinv_r c Hc), <-cpoint_mul_mul, HP.
  apply cpoint_identity_mul.
Qed.

Lemma all_some_mjoin es :
  Forall is_Some (mjoin (proof_points <$> es)) ↔ Forall (λ e, Forall is_Some (proof_points e)) es.
Proof.
  induction es as [|e es IH]; [by split|]. rewrite fmap_cons, Forall_cons. simpl.
  by rewrite Forall_app, IH.
Qed.

Lemma Ok_list_inj es es' :
  Ok (E:=R1CSError) <$> es = Ok <$> es' → es = es'.
Proof.
  revert es'. induction es as [|e es IH]; intros [|e' es'] E; try done.
  rewrite !fmap_cons in E. injection E as -> E%IH. by rewrite E.
Qed.

(** When the loop has run, the check is that of the weighted sum. *)
Lemma batch_check fuel first items rng st rng' :
  batch_loop fuel (pedersen_points first)
    (MkBatchState (0, 0) [] (g_points first) [] (h_points first) [] []) (Ok first :: items) rng
  = Some (Ok st, rng') →
  ∃ es cs res, items = Ok <$> es ∧ length cs = length (first :: es) ∧ drawn_coefficients rng cs rng' ∧
    Forall (λ e, pedersen_points e = pedersen_points first ∧ equation_lengths_ok e) (first :: es) ∧
    verify_batch_iter fuel (Ok first :: items) rng = Some (res, rng') ∧
    (res = Some (Ok ()) ↔ Forall (λ e, Forall is_Some (proof_points e)) (first :: es) ∧
                          lincomb cs (equation_value <$> first :: es) = cpoint_identity).
Proof.
  intros Hrun. pose proof Hrun as Hloop.
  apply batch_loop_Ok in Hloop as (es & cs & Hitems & Hl & Hcs & Hes & (Hg & Hh & Hp) & Hpts & Hval);
    [|repeat split; simpl; lia].
  destruct es as [|e es]; [done|]. rewrite fmap_cons in Hitems. injection Hitems as <- ->.
  exists es, cs. eexists. split; [done|]. split; [done|]. split; [done|]. split; [done|].
  split; [unfold verify_batch_iter; by rewrite Hrun|].
  unfold returns. cbn [mbind outcome_bind].
  rewrite check_msm_Ok by done. unfold state_value in Hval. rewrite Hval, Hpts.
  cbn [b_proof_points app]. rewrite all_some_mjoin.
  assert (E : msm_value (0, 0) (pedersen_points first) [] (g_points first) [] (h_points first) [] []
    = cpoint_identity).
  { unfold msm_value. cbn [fst snd fmap list_fmap].
    rewrite !lincomb_nil_l, !cpoint_mul_0, !cpoint_add_id_l. done. }
  cbn [b_pedersen_scalars b_g_scalars b_g_points b_h_scalars b_h_points b_proof_scalars].
  by rewrite E, cpoint_add_id_l.
Qed.

Lemma lincomb_insert cs Ps i c d P :
  cs !! i = Some d → Ps !! i = Some P → lincomb (<[i:=c]> cs) Ps = lincomb cs Ps ⊕ P ⊙ (c - d).
Proof.
  revert cs i. induction Ps as [|Q Ps IH]; intros [|b cs] [|i] Hd HP; try done; simpl in Hd, HP.
  - injection Hd as ->. injection HP as ->. cbn [insert list_insert]. rewrite !lincomb_cons. point_ring.
  - change (<[S i:=c]> (b :: cs)) with (b :: <[i:=c]> cs). rewrite !lincomb_cons, (IH cs i Hd HP). point_ring.
Qed.

(** A failing equation is caught for all but one value of its coefficient. *)
Lemma failing_coefficient cs es i e c :
  length cs = length es → es !! i = Some e →
  Forall equation_lengths_ok es → Forall (λ e, Forall is_Some (proof_points e)) es →
  lincomb cs (equation_value <$> es) = cpoint_identity →
  equation_verify e ≠ Some (Ok ()) → cs !! i ≠ Some c →
  lincomb (<[i:=c]> cs) (equation_value <$> es) ≠ cpoint_identity.
Proof.
  intros Hl He Hlen Hsome Hsum Hfail Hc Hsum'.
  destruct (lookup_lt_is_Some_2 cs i) as [d Hd]; [rewrite Hl; by eapply lookup_lt_Some|].
  rewrite (lincomb_insert cs _ i c d (equation_value e)), Hsum, cpoint_add_id_l in Hsum';
    [|done|by rewrite list_lookup_fmap, He].
  apply Hfail, equation_verify_Ok. split; [by eapply (Forall_lookup_1 _ _ _ _ Hlen)|].
  split; [by eapply (Forall_lookup_1 _ _ _ _ Hsome)|].
  apply (scaled_identity _ (c - d)); [|done]. intros E. apply Hc. rewrite Hd. f_equal.
  apply (proj1 (ssub_eq_0 _ _)) in E. congruence.
Qed.

(** What the loop establishes of an accepted batch. *)
Lemma batch_accepted_sum fuel (items : list (result R1CSError VerificationEquation)) rng rng' :
  verify_batch_iter fuel items rng = Some (Some (Ok ()), rng') →
  ∃ es cs, es ≠ [] ∧ items = Ok <$> es ∧ length cs = length es ∧ drawn_coefficients rng cs rng' ∧
    (∃ pp, Forall (λ e, pedersen_points e = pp) es) ∧ Forall equation_lengths_ok es ∧
    Forall (λ e, Forall is_Some (proof_points e)) es ∧
    lincomb cs (equation_value <$> es) = cpoint_identity.
Proof.
  intros Hver. destruct items as [|[first|err] items]; [done| |done].
  pose proof Hver as Hv. unfold verify_batch_iter in Hv. apply bind_Some in Hv as ([res rng1] & Hloop & Hres).
  destruct res as [st|err]; [|done].
  destruct (batch_check _ _ _ _ _ _ Hloop) as (es & cs & res & -> & Hl & Hcs & Hes & Hv & Hiff).
  rewrite Hver in Hv. injection Hv as <- ->. destruct (proj1 Hiff eq_refl) as [Hsome Hsum].
  apply Forall_and in Hes as [Hpp Hlen].
  exists (first :: es), cs. repeat (split; [done|]). split; [by eexists|]. by repeat (split; [done|]).
Qed.

(** One equation alone cannot fail in a sum that is the identity. *)
Lemma lone_equation_passes cs es i e :
  length cs = length es → Forall (λ c, c ≠ szero) cs →
  Forall equation_lengths_ok es → Forall (λ e, Forall is_Some (proof_points e)) es →
  lincomb cs (equation_value <$> es) = cpoint_identity →
  es !! i = Some e →
  (∀ j e', j ≠ i → es !! j = Some e' → equation_verify e' = Some (Ok ())) →
  equation_verify e = Some (Ok ()).
Proof.
  intros Hl Hcs Hlen Hsome Hsum He Hothers. apply equation_verify_Ok.
  split; [by eapply Forall_lookup_1 in Hlen|]. split; [by eapply (Forall_lookup_1 _ _ _ _ Hsome)|].
  destruct (lookup_lt_is_Some_2 cs i) as [c Hc]; [rewrite Hl; by eapply lookup_lt_Some|].
  apply (scaled_identity _ c); [by eapply (Forall_lookup_1 _ _ _ _ Hcs)|].
  rewrite <-Hsum. symmetry. apply (lincomb_one_left _ _ i); [done|by rewrite list_lookup_fmap, He|].
  intros j Q Hne HQ. rewrite list_lookup_fmap in HQ.
  destruct (es !! j) as [e'|] eqn:He'; [|done]. injection HQ as <-.
  by destruct (proj1 (equation_verify_Ok e') (Hothers j e' Hne He')) as (_ & _ & Hv').
Qed.

(** Equations that pass pass together. *)
Lemma all_pass_sum cs es :
  Forall (λ e, equation_verify e = Some (Ok ())) es →
  Forall (λ e, Forall is_Some (proof_points e)) es ∧ lincomb cs (equation_value <$> es) = cpoint_identity.
Proof.
  intros Hall. split.
  - eapply Forall_impl; [exact Hall|]. cbn. by intros e (_ & ? & _)%equation_verify_Ok.
  - assert (Forall (λ P, P = cpoint_identity) (equation_value <$> es)) as Hid.
    { apply Forall_fmap. eapply Forall_impl; [exact Hall|]. cbn. by intros e (_ & _ & ?)%equation_verify_Ok. }
    clear -Hid. revert cs. induction Hid as [|P Ps -> _ IH]; intros [|c cs]; try done.
    rewrite lincomb_cons, IH, cpoint_identity_mul. apply cpoint_add_id_l.
Qed.

(** The batch runs to a verdict, that of the weighted sum. *)
Lemma verify_batch_runs n fuel first es rng U W :
  draws_coefficients n rng → (n ≤ fuel)%nat →
  Forall (batchable (pedersen_points first) U W) (first :: es) →
  ∃ cs res rng', drawn_coefficients rng cs rng' ∧ length cs = length (first :: es) ∧
    verify_batch fuel (first :: es) rng = Some (res, rng') ∧ res ≠ None ∧
    (res = Some (Ok ()) ↔ Forall (λ e, Forall is_Some (proof_points e)) (first :: es) ∧
                          lincomb cs (equation_value <$> first :: es) = cpoint_identity).
Proof.
  intros Hd Hn Hes.
  set (st := MkBatchState (0, 0) [] (g_points first) [] (h_points first) [] []).
  pose proof Hes as [(_ & _ & HU & HW) _]%Forall_cons.
  destruct (batch_loop_total n fuel _ U W st (first :: es) rng Hd Hn Hes HU HW) as (st' & rng' & Hloop).
  rewrite fmap_cons in Hloop.
  destruct (batch_check _ _ _ _ _ _ Hloop) as (es' & cs & res & Hinj & Hl & Hcs & _ & Hv & Hiff).
  apply Ok_list_inj in Hinj as <-.
  exists cs, res, rng'. split; [done|]. split; [done|]. split; [done|]. split; [|done].
  unfold verify_batch_iter in Hv. fold st in Hv. rewrite Hloop in Hv. injection Hv as <-.
  apply batch_loop_Ok in Hloop as (_ & _ & _ & _ & _ & _ & (Hg & Hh & _) & _); [|by repeat split; simpl; lia].
  unfold returns. cbn [mbind outcome_bind]. unfold check_msm. rewrite !slice_take by done.
  unfold returns. destruct (ok_or _ _); [|done]. cbn [mbind outcome_bind no_panic fmap option_fmap option_map].
  by case_bool_decide.
Qed.

(** C19: what an accepted batch says.  If [verify_batch_iter] accepts, then the
    batch was not empty and every item was prepared without error, all on the same
    Pedersen generators, with no more scalars than generators and only points that
    decompress; and the equations sum to the identity when each is scaled by its
    coefficient, the next nonzero scalar that the generator draws.  The batch would have
    been refused with any other coefficient for an equation that fails on its own; and
    a batch in which every equation but one passes on its own is accepted only if that
    one passes too. *)
Theorem batch_accepted_sound fuel (items : list (result R1CSError VerificationEquation)) rng rng' :
  verify_batch_iter fuel items rng = Some (Some (Ok ()), rng') →
  ∃ es cs, es ≠ [] ∧ items = Ok <$> es ∧ length cs = length es ∧ drawn_coefficients rng cs rng' ∧
    (∃ pp, Forall (λ e, pedersen_points e = pp) es) ∧ Forall equation_lengths_ok es ∧
    Forall (λ e, Forall is_Some (proof_points e)) es ∧
    lincomb cs (equation_value <$> es) = cpoint_identity ∧
    (∀ i e c, es !! i = Some e → equation_verify e ≠ Some (Ok ()) → cs !! i ≠ Some c →
       lincomb (<[i:=c]> cs) (equation_value <$> es) ≠ cpoint_identity) ∧
    ∀ i e, es !! i = Some e →
      (∀ j e', j ≠ i → es !! j = Some e' → equation_verify e' = Some (Ok ())) →
      equation_verify e = Some (Ok ()).
Proof.
  intros (es & cs & Hne & Hi & Hl & Hcs & Hpp & Hlen & Hsome & Hsum)%batch_accepted_sum.
  exists es, cs. repeat (split; [done|]). split.
  - intros i e c He Hf Hc. by apply (failing_coefficient cs es i e c).
  - intros i e He Hothers. apply (lone_equation_passes cs es i e); try done. by eapply drawn_nonzero.
Qed.

(** C18: the batch decides the weighted sum.  On equations over prefixes of common
    generators, with a generator of randomness that draws fewer than [n] zeros in a
    row, [n] steps of fuel are enough for every coefficient and nothing panics.  The
    coefficients are the first nonzero scalars that the generator draws, which are
    unique; and [verify_batch] accepts exactly if all points decompress and the
    equations, scaled by these coefficients, sum to the identity.  In particular it
    accepts every batch whose equations all pass on their own. *)
Theorem verify_batch_correct n fuel first es rng U W :
  draws_coefficients n rng → (n ≤ fuel)%nat →
  Forall (batchable (pedersen_points first) U W) (first :: es) →
  ∃ cs res rng',
    drawn_coefficients rng cs rng' ∧ length cs = length (first :: es) ∧
    (∀ cs' r, drawn_coefficients rng cs' r → length cs' = length (first :: es) → cs' = cs) ∧
    verify_batch fuel (first :: es) rng = Some (res, rng') ∧ res ≠ None ∧
    (res = Some (Ok ()) ↔ Forall (λ e, Forall is_Some (proof_points e)) (first :: es) ∧
                          lincomb cs (equation_value <$> first :: es) = cpoint_identity) ∧
    (Forall (λ e, equation_verify e = Some (Ok ())) (first :: es) → res = Some (Ok ())).
Proof.
  intros Hd Hn Hes.
  destruct (verify_batch_runs n fuel first es rng U W Hd Hn Hes) as (cs & res & rng' & Hcs & Hl & Hv & Hres & Hiff).
  exists cs, res, rng'. split; [done|]. split; [done|]. split.
  { intros cs' r Hd' Hl'. by destruct (drawn_unique _ _ _ _ _ Hd' Hcs) as [-> _]; [congruence|]. }
  split; [done|]. split; [done|]. split; [done|].
  intros Hall. by apply Hiff, all_pass_sum.
Qed.
End batches.

(** ** Witnesses

    Two equations over prefixes of the same generators, of different lengths. *)
#[local] Instance constant_rng : CryptoRngCore unit := {|
  fill_bytes := λ n _, (replicate n x01, tt);
  next_u32 := λ _, (1%Z, tt);
|}.

Definition short_equation : VerificationEquation (H:=TinyCycle) :=
  MkVerificationEquation (H:=TinyCycle) (tiny 29, tiny 0) (tiny 2, tiny 3) [tiny 1] [tiny 5; tiny 7]
    [tiny 2] [tiny 11] [tiny 3] [Some (tiny 4)].
Definition long_equation : VerificationEquation (H:=TinyCycle) :=
  MkVerificationEquation (H:=TinyCycle) (tiny 41, tiny 1) (tiny 2, tiny 3) [tiny 1; tiny 1]
    [tiny 5; tiny 7] [] [tiny 11; tiny 13] [] [].
Lemma short_verifies : equation_verify short_equation = Some (Ok ()).
Proof. vm_refl. Qed.
Lemma long_verifies : equation_verify long_equation = Some (Ok ()).
Proof. vm_refl. Qed.

Lemma constant_draws : draws_coefficients (CY:=TinyCycle) 1 ().
Proof.
  intros k. exists 0%nat. split; [lia|]. destruct (draws _ ()). intros E%(f_equal tiny_val).
  vm_compute in E. discriminate.
Qed.

Lemma verify_batch_correct_witness :
  ∃ rng', verify_batch 1 [short_equation; long_equation] () = Some (Some (Ok ()), rng').
Proof.
  destruct (verify_batch_correct (CY:=TinyCycle) 1 1 short_equation [long_equation] ()
    [tiny 5; tiny 7] [tiny 11; tiny 13]) as (cs & res & rng' & _ & _ & _ & Hv & _ & _ & Hall).
  - exact constant_draws.
  - lia.
  - repeat constructor; try (vm_compute; lia).
    + exists []. reflexivity.
    + exists [tiny 13]. reflexivity.
    + exists []. reflexivity.
    + exists []. reflexivity.
  - exists rng'. rewrite Hv, Hall; [reflexivity|].
    apply Forall_cons; split; [exact short_verifies|].
    apply Forall_cons; split; [exact long_verifies|constructor].
Defined.

Lemma batch_accepted_sound_witness :
  ∃ cs rng', drawn_coefficients (CY:=TinyCycle) () cs rng' ∧ length cs = 2%nat ∧
    lincomb (H:=TinyCycle) cs (equation_value (CY:=TinyCycle) <$> [short_equation; long_equation])
    = cpoint_identity.
Proof.
  destruct (batch_accepted_sound (CY:=TinyCycle) 1 [Ok short_equation; Ok long_equation] () ())
    as (es & cs & _ & Hes & Hl & Hcs & _ & _ & _ & Hsum & _); [vm_refl|].
  destruct es as [|e [|e' [|]]]; try discriminate Hes. injection Hes as <- <-.
  exists cs, (). split; [exact Hcs|]. split; [exact Hl|exact Hsum].
Defined.

(** One wrong equation is found. *)
Example batch_rejects :
  (fst <$> verify_batch 1
     [short_equation; MkVerificationEquation (H:=TinyCycle) (tiny 41, tiny 2) (tiny 2, tiny 3)
        [tiny 1; tiny 1] [tiny 5; tiny 7] [] [tiny 11; tiny 13] [] []] ())
  = Some (Some (Err R1CSVerificationError)).
Proof. vm_refl. Qed.
