(* ===== verification/ProofStream.v ===== *)
(** * Proof streams (golden-evrf/proof_stream.rs)

    The prover writes proof bytes and the verifier reads them, each with one
    transcript that absorbs exactly what is written and read.  The adapters for a
    group and for a curve cycle are instances of [ProofStreamCurve]; the lemmas say
    that a verifier accepts what the prover writes and nothing else. *)

From Stdlib Require Import ZArith Lia Strings.Byte.
From stdpp Require Import prelude strings.
From S2P Require Import Prelude CoreError Group Algebra TestSupport Cycle.

Definition PROOF_ID_LEN_BYTES : Z := 4.
Definition NESTED_LEN_BYTES : Z := 8.

Inductive IdentityPolicy : Type := Allow | Reject.

#[export] Instance IdentityPolicy_eq_dec : EqDecision IdentityPolicy.
Proof. solve_decision. Defined.

Definition stream_error : CoreError := ProofVerificationFailed.

(** ** [trait ProofStreamCurve] *)
Class ProofStreamCurve := {
  PSPoint : Type;
  PSScalar : Type;
  POINT_BYTES : Z;
  SCALAR_BYTES : Z;
  ps_encode_point : PSPoint → list byte;
  ps_decode_point : list byte → Result PSPoint;
  ps_is_identity : PSPoint → bool;
  ps_encode_scalar : PSScalar → list byte;
  ps_decode_scalar : list byte → Result PSScalar;
}.

(** Canonical encodings of fixed width. *)
Class ProofStreamLaws `{ProofStreamCurve} : Prop := {
  len_encode_point P : len (ps_encode_point P) = POINT_BYTES;
  decode_encode_point P : ps_decode_point (ps_encode_point P) = Ok P;
  encode_decode_point bs P : ps_decode_point bs = Ok P → ps_encode_point P = bs;
  len_encode_scalar s : len (ps_encode_scalar s) = SCALAR_BYTES;
  decode_encode_scalar s : ps_decode_scalar (ps_encode_scalar s) = Ok s;
  encode_decode_scalar bs s : ps_decode_scalar bs = Ok s → ps_encode_scalar s = bs;
}.

(** *** The adapter of a [GoldenGroup] *)
Section golden_curve.
Context `{GoldenGroup}.

Definition golden_decode_point (bytes : list byte) : Result Element :=
  _ ← reject_if (negb (len bytes =? ELEMENT_REPR_BYTES)%Z) stream_error;
  repr ← ok_or stream_error (element_try_from bytes);
  point ← map_err (λ _, stream_error) (decode_element repr);
  if bool_decide (element_as_ref (encode_element point) = bytes) then Ok point
  else Err stream_error.

Definition golden_decode_scalar (bytes : list byte) : Result Scalar :=
  _ ← reject_if (negb (len bytes =? REPR_BYTES (F:=Scalar))%Z) stream_error;
  repr ← ok_or stream_error (repr_try_from (F:=Scalar) bytes);
  scalar ← map_err (λ _, stream_error) (from_repr (F:=Scalar) repr);
  if bool_decide (repr_as_ref (to_repr scalar) = bytes) then Ok scalar
  else Err stream_error.

Definition GoldenCurve : ProofStreamCurve := {|
  PSPoint := Element;
  PSScalar := Scalar;
  POINT_BYTES := ELEMENT_REPR_BYTES;
  SCALAR_BYTES := REPR_BYTES (F:=Scalar);
  ps_encode_point := λ point, element_as_ref (encode_element point);
  ps_decode_point := golden_decode_point;
  ps_is_identity := is_identity;
  ps_encode_scalar := λ scalar, repr_as_ref (to_repr scalar);
  ps_decode_scalar := golden_decode_scalar;
|}.
End golden_curve.

(** *** The adapter of a [Cycle] *)
Section cycle_curve.
Context `{Cycle}.

Definition cycle_decode_point (bytes : list byte) : Result CPoint :=
  _ ← reject_if (negb (len bytes =? Z.of_nat COMPRESSED_BYTES)%Z) stream_error;
  let compressed := compressed_from_bytes bytes in
  point ← ok_or stream_error (compressed_decompress compressed);
  let canonical := point_compress point in
  let canonical_bytes := compressed_as_bytes canonical in
  if negb (len canonical_bytes =? Z.of_nat COMPRESSED_BYTES)%Z
     || negb (bool_decide (canonical_bytes = bytes))
  then Err stream_error else Ok point.

Definition cycle_decode_scalar (bytes : list byte) : Result CScalar :=
  _ ← reject_if (negb (len bytes =? 32)%Z) stream_error;
  scalar ← ok_or stream_error (scalar_from_canonical bytes);
  if bool_decide (scalar_to_canonical scalar = bytes) then Ok scalar else Err stream_error.

Definition CycleCurve : ProofStreamCurve := {|
  PSPoint := CPoint;
  PSScalar := CScalar;
  POINT_BYTES := Z.of_nat COMPRESSED_BYTES;
  SCALAR_BYTES := 32;
  ps_encode_point := λ point, compressed_as_bytes (point_compress point);
  ps_decode_point := cycle_decode_point;
  ps_is_identity := λ point, compressed_is_identity (point_compress point);
  ps_encode_scalar := scalar_to_canonical;
  ps_decode_scalar := cycle_decode_scalar;
|}.
End cycle_curve.

(** ** Checked encodings *)
Section checked.
Context `{C : ProofStreamCurve}.

Definition enforce_identity (point : PSPoint) (identity : IdentityPolicy) : Result unit :=
  if bool_decide (identity = Reject) && ps_is_identity point then Err stream_error else Ok tt.

Definition checked_point_encoding (point : PSPoint) (identity : IdentityPolicy)
    : Result (list byte) :=
  _ ← enforce_identity point identity;
  let encoded := ps_encode_point point in
  if negb (len encoded =? POINT_BYTES)%Z then Err stream_error else Ok encoded.

Definition decode_point (encoded : list byte) (identity : IdentityPolicy) : Result PSPoint :=
  point ← ps_decode_point encoded;
  _ ← enforce_identity point identity;
  Ok point.

Definition checked_scalar_encoding (scalar : PSScalar) : Result (list byte) :=
  let encoded := ps_encode_scalar scalar in
  if negb (len encoded =? SCALAR_BYTES)%Z then Err stream_error
  else
    _ ← ps_decode_scalar encoded;
    Ok encoded.

(** The points a policy lets through. *)
Definition admits (identity : IdentityPolicy) (point : PSPoint) : Prop :=
  identity = Reject → ps_is_identity point = false.
End checked.

(** ** [trait Observe]

    [transcript_mut] gives access to the transcript of a state. *)
Section streams.
Context `{Merlin}.

Class Observe (St : Type) := {
  transcript_of : St → Transcript;
  with_transcript : Transcript → St → St;
}.

Class ObserveLaws (St : Type) `{Observe St} : Prop := {
  transcript_of_with t (s : St) : transcript_of (with_transcript t s) = t;
  with_transcript_of (s : St) : with_transcript (transcript_of s) s = s;
  with_transcript_twice t t' (s : St) :
    with_transcript t (with_transcript t' s) = with_transcript t s;
}.

Section observe.
Context {St : Type} `{Observe St}.

Definition observe_bytes (label value : list byte) (s : St) : St :=
  with_transcript (append_message label value (transcript_of s)) s.

Definition observe_point (C : ProofStreamCurve) (label : list byte) (point : PSPoint)
    (identity : IdentityPolicy) : stateful St CoreError unit :=
  encoded ← lift (checked_point_encoding point identity);
  draw (λ s, (tt, observe_bytes label encoded s)).

Definition observe_scalar (C : ProofStreamCurve) (label : list byte) (scalar : PSScalar)
    : stateful St CoreError unit :=
  encoded ← lift (checked_scalar_encoding scalar);
  draw (λ s, (tt, observe_bytes label encoded s)).

Definition challenge (label : list byte) (n : nat) (s : St) : list byte * St :=
  let '(output, t) := challenge_bytes label n (transcript_of s) in (output, with_transcript t s).
End observe.

#[export] Instance Transcript_observe : Observe Transcript := {|
  transcript_of := λ t, t;
  with_transcript := λ t _, t;
|}.

(** ** The prover's stream *)
Record ProverProofStream := MkProverProofStream {
  pps_transcript : Transcript;
  pps_proof : list byte;
}.

#[export] Instance ProverProofStream_observe : Observe ProverProofStream := {|
  transcript_of := pps_transcript;
  with_transcript := λ t s, MkProverProofStream t (pps_proof s);
|}.

Definition ProverProofStream_new (proof_id : list byte) : Result ProverProofStream :=
  _ ← reject_if (negb (bool_decide (is_u32 (len proof_id)))) ProofVerificationFailed;
  _ ← ok_or stream_error (checked_add PROOF_ID_LEN_BYTES (len proof_id));
  Ok (MkProverProofStream (transcript_new proof_id) (to_be_bytes 4 (len proof_id) ++ proof_id)).

Definition send_bytes (label value : list byte) (s : ProverProofStream) : ProverProofStream :=
  observe_bytes label value (MkProverProofStream (pps_transcript s) (pps_proof s ++ value)).

Definition send_point (C : ProofStreamCurve) (label : list byte) (point : PSPoint)
    (identity : IdentityPolicy) : stateful ProverProofStream CoreError unit :=
  encoded ← lift (checked_point_encoding point identity);
  draw (λ s, (tt, send_bytes label encoded s)).

Definition send_scalar (C : ProofStreamCurve) (label : list byte) (scalar : PSScalar)
    : stateful ProverProofStream CoreError unit :=
  encoded ← lift (checked_scalar_encoding scalar);
  draw (λ s, (tt, send_bytes label encoded s)).

(** [X] is what the closure [build] captures by mutable reference; [Err None] stands
    for a closure that does not return. *)
Definition send_nested {X : Type} (build : stateful (Transcript * X) (option CoreError) (list byte))
    : stateful (ProverProofStream * X) (option CoreError) unit := λ '(s, x),
  let transcript_before := pps_transcript s in
  match build (pps_transcript s, x) with
  | (Err err, (_, x)) => (Err err, (with_transcript transcript_before s, x))
  | (Ok payload, (t, x)) =>
      if bool_decide (is_usize (len payload)) then
        (Ok tt, (MkProverProofStream t (pps_proof s ++ to_be_bytes 8 (len payload) ++ payload), x))
      else (Err (Some stream_error), (with_transcript transcript_before s, x))
  end.

Definition prover_finish (s : ProverProofStream) : list byte := pps_proof s.

(** ** The verifier's stream *)
Record VerifierProofStream := MkVerifierProofStream {
  vps_transcript : Transcript;
  vps_proof : list byte;
  vps_cursor : Z;
}.

#[export] Instance VerifierProofStream_observe : Observe VerifierProofStream := {|
  transcript_of := vps_transcript;
  with_transcript := λ t s, MkVerifierProofStream t (vps_proof s) (vps_cursor s);
|}.

(** [bytes.get(start..end)]. *)
Definition get_range (start end_ : Z) (bytes : list byte) : option (list byte) :=
  if bool_decide (start ≤ end_ ≤ len bytes)%Z
  then Some (take (Z.to_nat (end_ - start)) (drop (Z.to_nat start) bytes)) else None.

Definition VerifierProofStream_new (proof_id proof : list byte) : Result VerifierProofStream :=
  length_bytes ← ok_or stream_error (get_range 0 PROOF_ID_LEN_BYTES proof);
  let encoded_len := from_be_bytes length_bytes in
  _ ← reject_if (negb (encoded_len =? len proof_id)%Z) stream_error;
  cursor ← ok_or stream_error (checked_add PROOF_ID_LEN_BYTES encoded_len);
  encoded_id ← ok_or stream_error (get_range PROOF_ID_LEN_BYTES cursor proof);
  _ ← reject_if (negb (bool_decide (encoded_id = proof_id))) stream_error;
  Ok (MkVerifierProofStream (transcript_new proof_id) proof cursor).

Definition checked_end (start len : Z) : Result Z := ok_or stream_error (checked_add start len).

(** What both [receive_point] and [receive_scalar] do when the bytes at the cursor
    have been decoded: they are absorbed and the cursor moves. *)
Definition received {A : Type} (label : list byte) (decoded : Result (A * list byte * Z))
    (s : VerifierProofStream) : Result A * VerifierProofStream :=
  match decoded with
  | Ok (a, encoded, end_) =>
      (Ok a, MkVerifierProofStream (append_message label encoded (vps_transcript s)) (vps_proof s)
               end_)
  | Err e => (Err e, s)
  end.

Definition receive_point (C : ProofStreamCurve) (label : list byte) (identity : IdentityPolicy)
    : stateful VerifierProofStream CoreError PSPoint := λ s,
  let start := vps_cursor s in
  received label
    (end_ ← checked_end start POINT_BYTES;
     encoded ← ok_or stream_error (get_range start end_ (vps_proof s));
     point ← decode_point encoded identity;
     Ok (point, encoded, end_)) s.

Definition receive_scalar (C : ProofStreamCurve) (label : list byte)
    : stateful VerifierProofStream CoreError PSScalar := λ s,
  let start := vps_cursor s in
  received label
    (end_ ← checked_end start SCALAR_BYTES;
     encoded ← ok_or stream_error (get_range start end_ (vps_proof s));
     scalar ← ps_decode_scalar encoded;
     Ok (scalar, encoded, end_)) s.

(** The framed payload at the cursor, and where it ends. *)
Definition nested_payload (s : VerifierProofStream) : Result (list byte * Z) :=
  let length_start := vps_cursor s in
  payload_start ← checked_end length_start NESTED_LEN_BYTES;
  length_bytes ← ok_or stream_error (get_range length_start payload_start (vps_proof s));
  let payload_len := from_be_bytes length_bytes in
  frame_end ← checked_end payload_start payload_len;
  payload ← ok_or stream_error (get_range payload_start frame_end (vps_proof s));
  Ok (payload, frame_end).

Definition receive_nested {X T : Type}
    (consume : list byte → stateful (Transcript * X) (option CoreError) T)
    : stateful (VerifierProofStream * X) (option CoreError) T := λ '(s, x),
  match nested_payload s with
  | Err e => (Err (Some e), (s, x))
  | Ok (payload, frame_end) =>
      let transcript_before := vps_transcript s in
      match consume payload (vps_transcript s, x) with
      | (Ok value, (t, x)) => (Ok value, (MkVerifierProofStream t (vps_proof s) frame_end, x))
      | (Err err, (_, x)) => (Err err, (with_transcript transcript_before s, x))
      end
  end.

Definition verifier_finish (s : VerifierProofStream) : Result unit :=
  if (vps_cursor s =? len (vps_proof s))%Z then Ok tt else Err stream_error.
End streams.

(** ** Streams with a generator

    A computation over a stream that also draws from a generator, and may not
    return: [Err None] stands for a sampling loop without fuel, or for an
    allocation that fails. *)
Fixpoint sfor_each {St E A} (f : A → stateful St E unit) (l : list A) : stateful St E unit :=
  match l with
  | [] => mret tt
  | a :: l => _ ← f a; sfor_each f l
  end.

Section with_rng.
Context {S R E : Type}.

Definition on_stream {A} (m : stateful S E A) : stateful (S * R) (option E) A := λ '(s, r),
  let '(res, s) := m s in (map_err Some res, (s, r)).

Definition on_rng {A} (f : R → option (A * R)) : stateful (S * R) (option E) A := λ '(s, r),
  match f r with
  | Some (a, r) => (Ok a, (s, r))
  | None => (Err None, (s, r))
  end.

Lemma on_stream_Ok {A} (m : stateful S E A) s r a s' r' :
  on_stream m (s, r) = (Ok a, (s', r')) ↔ m s = (Ok a, s') ∧ r' = r.
Proof. unfold on_stream. destruct (m s) as [[b|e] s1]; simpl; naive_solver. Qed.

Lemma on_rng_Ok {A} (f : R → option (A * R)) s r a s' r' :
  on_rng f (s, r) = (Ok a, (s', r')) ↔ f r = Some (a, r') ∧ s' = s.
Proof. unfold on_rng. destruct (f r) as [[b r1]|]; naive_solver. Qed.
End with_rng.

(** A vector has at most as many bytes as fit its length. *)
Definition allocated {E} (bytes : list byte) : result (option E) (list byte) :=
  if bool_decide (len bytes ≤ usize_MAX)%Z then Ok bytes else Err None.

(** ** Laws of the adapters *)
#[export] Instance GoldenCurve_laws `{GroupModule} `{!GroupCodec} : ProofStreamLaws (H:=GoldenCurve).
Proof.
  split; simpl.
  - intros P. apply length_element_repr.
  - intros P. unfold golden_decode_point. rewrite length_element_repr, Z.eqb_refl. simpl.
    rewrite element_try_from_as_ref. simpl. rewrite decode_encode_element. simpl.
    by rewrite bool_decide_eq_true_2.
  - intros bs P. unfold golden_decode_point. intros E. simplify_result.
    case_bool_decide; by simplify_result.
  - intros s. apply length_repr.
  - intros s. unfold golden_decode_scalar. rewrite length_repr, Z.eqb_refl. simpl.
    rewrite repr_try_from_as_ref. simpl. rewrite from_to_repr. simpl.
    by rewrite bool_decide_eq_true_2.
  - intros bs s. unfold golden_decode_scalar. intros E. simplify_result.
    case_bool_decide; by simplify_result.
Qed.

#[export] Instance CycleCurve_laws `{CycleLaws} `{!CycleCodec} : ProofStreamLaws (H:=CycleCurve).
Proof.
  split; simpl.
  - intros P. unfold len. by rewrite length_compressed.
  - intros P. unfold cycle_decode_point, len. rewrite length_compressed, Z.eqb_refl. simpl.
    rewrite compressed_from_as_bytes, decompress_compress. simpl.
    by rewrite length_compressed, Z.eqb_refl, bool_decide_eq_true_2.
  - intros bs P. unfold cycle_decode_point. intros E. simplify_result.
    destruct (_ || _) eqn:Hc; simplify_result.
    apply orb_false_iff in Hc as [_ Hc]. apply negb_false_iff, bool_decide_eq_true in Hc. done.
  - intros s. unfold len. by rewrite length_scalar_canonical.
  - intros s. unfold cycle_decode_scalar, len. rewrite length_scalar_canonical. simpl.
    rewrite scalar_from_to_canonical. simpl. by rewrite bool_decide_eq_true_2.
  - intros bs s. unfold cycle_decode_scalar. intros E. simplify_result.
    case_bool_decide; by simplify_result.
Qed.

(** ** Checked encodings *)
Lemma encoding_app_inj {A} (encode : A → list byte) (decode : list byte → Result A) width x y r r' :
  (∀ a, len (encode a) = width) → (∀ a, decode (encode a) = Ok a) →
  encode x ++ r = encode y ++ r' → x = y ∧ r = r'.
Proof.
  intros Hl Hd E. apply app_inj_1 in E as [E ->].
  - split; [|done]. apply (f_equal decode) in E. rewrite !Hd in E. by injection E.
  - pose proof (Hl x). pose proof (Hl y). unfold len in *. lia.
Qed.

Section checked_lemmas.
Context `{C : ProofStreamCurve} {CL : ProofStreamLaws}.

Lemma enforce_identity_Ok P policy u : enforce_identity P policy = Ok u ↔ admits policy P.
Proof.
  unfold enforce_identity, admits. destruct u.
  case_bool_decide; destruct (ps_is_identity P); simpl; naive_solver.
Qed.

Lemma checked_point_encoding_Ok P policy bs :
  checked_point_encoding P policy = Ok bs ↔ admits policy P ∧ bs = ps_encode_point P.
Proof.
  unfold checked_point_encoding. rewrite bind_Ok. setoid_rewrite enforce_identity_Ok.
  rewrite len_encode_point, Z.eqb_refl. simpl. split; [naive_solver|].
  intros [Ha ->]. by exists ().
Qed.

Lemma decode_point_Ok bs policy P :
  decode_point bs policy = Ok P ↔ admits policy P ∧ bs = ps_encode_point P.
Proof.
  unfold decode_point. rewrite bind_Ok. setoid_rewrite bind_Ok.
  setoid_rewrite enforce_identity_Ok. split.
  - intros (P' & Hd & _ & Ha & [= <-]). split; [done|]. symmetry. by apply encode_decode_point.
  - intros [Ha ->]. exists P. split; [apply decode_encode_point|]. by exists ().
Qed.

Lemma checked_scalar_encoding_eq s : checked_scalar_encoding s = Ok (ps_encode_scalar s).
Proof.
  unfold checked_scalar_encoding. rewrite len_encode_scalar, Z.eqb_refl. simpl.
  by rewrite decode_encode_scalar.
Qed.

Lemma decode_scalar_Ok bs s : ps_decode_scalar bs = Ok s ↔ bs = ps_encode_scalar s.
Proof.
  split; [|intros ->; apply decode_encode_scalar].
  intros Hd. symmetry. by apply encode_decode_scalar.
Qed.
Lemma encode_point_app_inj x y r r' :
  ps_encode_point x ++ r = ps_encode_point y ++ r' → x = y ∧ r = r'.
Proof. apply (encoding_app_inj _ ps_decode_point POINT_BYTES); [apply len_encode_point|apply decode_encode_point]. Qed.
Lemma encode_scalar_app_inj x y r r' :
  ps_encode_scalar x ++ r = ps_encode_scalar y ++ r' → x = y ∧ r = r'.
Proof. apply (encoding_app_inj _ ps_decode_scalar SCALAR_BYTES); [apply len_encode_scalar|apply decode_encode_scalar]. Qed.
End checked_lemmas.

(** ** Reading ranges *)
Lemma get_range_Some start end_ bytes slice :
  (0 ≤ start)%Z →
  get_range start end_ bytes = Some slice ↔
  ∃ pre post, bytes = pre ++ slice ++ post ∧ len pre = start ∧ len slice = (end_ - start)%Z.
Proof.
  intros H0. unfold get_range, len. split.
  - case_bool_decide as Hr; [|done]. intros [= <-].
    exists (take (Z.to_nat start) bytes), (drop (Z.to_nat (end_ - start)) (drop (Z.to_nat start) bytes)).
    rewrite take_drop, take_drop, !length_take, length_drop. split; [done|]. lia.
  - intros (pre & post & -> & Hp & Hs). rewrite !length_app.
    rewrite bool_decide_eq_true_2 by lia. f_equal.
    replace (Z.to_nat start) with (length pre) by lia. rewrite drop_app_length.
    replace (Z.to_nat (end_ - start)) with (length slice) by lia. apply take_app_length.
Qed.

(** The bytes after the first [start]. *)
Lemma get_range_app pre todo n :
  (0 ≤ n)%Z →
  get_range (len pre) (len pre + n) (pre ++ todo)
  = if bool_decide (n ≤ len todo)%Z then Some (take (Z.to_nat n) todo) else None.
Proof.
  intros Hn. unfold get_range, len. rewrite length_app.
  replace (Z.to_nat (Z.of_nat (length pre) + n - Z.of_nat (length pre))) with (Z.to_nat n) by lia.
  rewrite Nat2Z.id, drop_app_length. repeat case_bool_decide; try done; lia.
Qed.

Lemma checked_end_Ok start n e :
  checked_end start n = Ok e ↔ e = (start + n)%Z ∧ (start + n ≤ usize_MAX)%Z.
Proof.
  unfold checked_end, checked_add. rewrite ok_or_Ok. case_bool_decide; naive_solver.
Qed.

(** ** Verifier and prover take the same steps *)
Section stream_lemmas.
Context `{Merlin}.

(** A verifier's stream that has read [pre] and still has [todo] to read. *)
Definition stream_at (t : Transcript) (pre todo : list byte) : VerifierProofStream :=
  MkVerifierProofStream t (pre ++ todo) (len pre).

(** Reading a checked encoding at the cursor. *)
Lemma received_at {A} (decode : list byte → Result A) (encode : A → list byte) (ok : A → Prop)
    width label t pre todo a s' :
  (0 ≤ width)%Z → (len (pre ++ todo) ≤ usize_MAX)%Z →
  (∀ a, len (encode a) = width) → (∀ bs a, decode bs = Ok a ↔ ok a ∧ bs = encode a) →
  received label
    (end_ ← checked_end (len pre) width;
     encoded ← ok_or stream_error (get_range (len pre) end_ (pre ++ todo));
     a ← decode encoded;
     Ok (a, encoded, end_)) (stream_at t pre todo) = (Ok a, s') ↔
  ∃ rest, todo = encode a ++ rest ∧ ok a ∧
    s' = stream_at (append_message label (encode a) t) (pre ++ encode a) rest.
Proof.
  intros Hw Hu Hlen Hdec. split.
  - unfold received.
    destruct (_ ≫= _) as [[[a' bs] e]|] eqn:E; [|done]. intros [= -> <-].
    apply bind_Ok in E as (e' & He & E). apply checked_end_Ok in He as [-> _].
    apply bind_Ok in E as (bs' & Hb & E). apply ok_or_Ok in Hb.
    apply bind_Ok in E as (a' & Ha & [= <- <- <-]). apply Hdec in Ha as [Hok ->].
    rewrite get_range_app in Hb by done. case_bool_decide; [|done]. injection Hb as Hb.
    exists (drop (Z.to_nat width) todo). split; [by rewrite <-Hb, take_drop|]. split; [done|].
    unfold stream_at. rewrite <-app_assoc, <-Hb, take_drop. f_equal.
    unfold len in *. rewrite length_app, length_take. lia.
  - intros (rest & -> & Hok & ->).
    assert (Hin : len (pre ++ encode a) = (len pre + width)%Z).
    { rewrite <-(Hlen a). unfold len. rewrite length_app. lia. }
    assert (Hend : (len pre + width ≤ usize_MAX)%Z).
    { rewrite <-Hin. revert Hu. unfold len. rewrite !length_app. lia. }
    rewrite (proj2 (checked_end_Ok (len pre) width _) (conj eq_refl Hend)). cbn [mbind result_bind].
    rewrite get_range_app by done. rewrite bool_decide_eq_true_2.
    2: { rewrite <-(Hlen a). unfold len. rewrite length_app. lia. }
    replace (Z.to_nat width) with (length (encode a)) by (rewrite <-(Hlen a); unfold len; lia).
    rewrite take_app_length. cbn [ok_or mbind result_bind].
    rewrite (proj2 (Hdec (encode a) a) (conj Hok eq_refl)). cbn [mbind result_bind received].
    unfold stream_at. cbn [vps_transcript vps_proof]. by rewrite <-app_assoc, Hin.
Qed.

Section curve.
Context (C : ProofStreamCurve) {CL : ProofStreamLaws}.

Lemma POINT_BYTES_nonneg (P : PSPoint) : (0 ≤ POINT_BYTES)%Z.
Proof. rewrite <-(len_encode_point P). unfold len. lia. Qed.

(** What the verifier reads is what the prover writes. *)
Lemma send_point_Ok label P policy s u s' :
  send_point C label P policy s = (Ok u, s') ↔
  admits policy P ∧ s' = send_bytes label (ps_encode_point P) s.
Proof.
  unfold send_point. rewrite stateful_bind_Ok. split.
  - intros (bs & s1 & [Hc ->]%lift_Ok & [= <-]).
    by apply checked_point_encoding_Ok in Hc as [Ha ->].
  - intros [Ha ->]. exists (ps_encode_point P), s. destruct u. split; [|done].
    apply lift_Ok. by rewrite (proj2 (checked_point_encoding_Ok P policy _) (conj Ha eq_refl)).
Qed.

Lemma send_scalar_eq label x s :
  send_scalar C label x s = (Ok (), send_bytes label (ps_encode_scalar x) s).
Proof. unfold send_scalar. by rewrite checked_scalar_encoding_eq. Qed.

Lemma receive_point_Ok label policy t pre todo P s' :
  (0 ≤ POINT_BYTES)%Z → (len (pre ++ todo) ≤ usize_MAX)%Z →
  receive_point C label policy (stream_at t pre todo) = (Ok P, s') ↔
  ∃ rest, todo = ps_encode_point P ++ rest ∧ admits policy P ∧
    s' = stream_at (append_message label (ps_encode_point P) t) (pre ++ ps_encode_point P) rest.
Proof.
  intros Hw Hu. apply (received_at (λ bs, decode_point bs policy)); [done|done|..].
  - apply len_encode_point.
  - intros bs a. apply decode_point_Ok.
Qed.

Lemma receive_scalar_Ok label t pre todo x s' :
  (0 ≤ SCALAR_BYTES)%Z → (len (pre ++ todo) ≤ usize_MAX)%Z →
  receive_scalar C label (stream_at t pre todo) = (Ok x, s') ↔
  ∃ rest, todo = ps_encode_scalar x ++ rest ∧
    s' = stream_at (append_message label (ps_encode_scalar x) t) (pre ++ ps_encode_scalar x) rest.
Proof.
  intros Hw Hu.
  etransitivity;
    [apply (received_at ps_decode_scalar ps_encode_scalar (λ _, True)); [done|done|..]|naive_solver].
  - apply len_encode_scalar.
  - intros bs a. rewrite decode_scalar_Ok. naive_solver.
Qed.

Lemma observe_scalar_eq {St} `{!Observe St} label x (s : St) :
  observe_scalar C label x s = (Ok (), observe_bytes label (ps_encode_scalar x) s).
Proof. unfold observe_scalar. by rewrite checked_scalar_encoding_eq. Qed.

Lemma observe_point_Ok {St} `{!Observe St} label P policy (s : St) u s' :
  observe_point C label P policy s = (Ok u, s') ↔
  admits policy P ∧ s' = observe_bytes label (ps_encode_point P) s.
Proof.
  unfold observe_point. rewrite stateful_bind_Ok. split.
  - intros (bs & s1 & [Hc ->]%lift_Ok & [= <-]).
    by apply checked_point_encoding_Ok in Hc as [Ha ->].
  - intros [Ha ->]. exists (ps_encode_point P), s. destruct u. split; [|done].
    apply lift_Ok. by rewrite (proj2 (checked_point_encoding_Ok P policy _) (conj Ha eq_refl)).
Qed.
End curve.

#[export] Instance Transcript_observe_laws : ObserveLaws Transcript.
Proof. by split. Qed.
#[export] Instance ProverProofStream_observe_laws : ObserveLaws ProverProofStream.
Proof. split; try done. by intros []. Qed.
#[export] Instance VerifierProofStream_observe_laws : ObserveLaws VerifierProofStream.
Proof. split; try done. by intros []. Qed.

(** The header that identifies the proof. *)
Definition stream_header (proof_id : list byte) : list byte :=
  to_be_bytes 4 (len proof_id) ++ proof_id.

Lemma prover_new_Ok proof_id s :
  is_u32 (len proof_id) →
  ProverProofStream_new proof_id = Ok s ↔
  s = MkProverProofStream (transcript_new proof_id) (stream_header proof_id).
Proof.
  intros Hid. unfold ProverProofStream_new. rewrite bool_decide_eq_true_2 by done. simpl.
  unfold checked_add, PROOF_ID_LEN_BYTES. rewrite bool_decide_eq_true_2; [|unfold is_u32, u32_MAX, usize_MAX in *; lia].
  simpl. naive_solver.
Qed.

Lemma get_range_be n pre rest z :
  get_range (len pre) (len pre + Z.of_nat n) (pre ++ to_be_bytes n z ++ rest) = Some (to_be_bytes n z).
Proof.
  apply get_range_Some; [unfold len; lia|]. exists pre, rest. split; [done|]. split; [done|].
  unfold len. rewrite length_to_be_bytes. lia.
Qed.

Lemma get_range_be_inv n pre todo slice :
  get_range (len pre) (len pre + Z.of_nat n) (pre ++ todo) = Some slice →
  ∃ rest, todo = to_be_bytes n (from_be_bytes slice) ++ rest ∧ length slice = n.
Proof.
  rewrite get_range_app by lia. case_bool_decide as Hn; [|done]. intros [= <-].
  exists (drop n todo). rewrite Nat2Z.id in *.
  assert (length (take n todo) = n) as Hl by (rewrite length_take; unfold len in Hn; lia).
  split; [|done]. by rewrite to_from_be_bytes, take_drop by done.
Qed.

Lemma verifier_new_Ok proof_id proof s :
  is_u32 (len proof_id) → (len proof ≤ usize_MAX)%Z →
  VerifierProofStream_new proof_id proof = Ok s ↔
  ∃ body, proof = stream_header proof_id ++ body ∧
    s = stream_at (transcript_new proof_id) (stream_header proof_id) body.
Proof.
  intros Hid Hp. unfold VerifierProofStream_new, stream_header.
  assert (Hh : ∀ body : list byte, to_be_bytes 4 (len proof_id) ++ proof_id ++ body
    = (to_be_bytes 4 (len proof_id) ++ proof_id) ++ body) by (intros; by rewrite app_assoc).
  assert (Hl : len (to_be_bytes 4 (len proof_id)) = 4%Z) by (unfold len; by rewrite length_to_be_bytes).
  assert (Hadd : checked_add 4 (len proof_id) = Some (4 + len proof_id)%Z).
  { unfold checked_add. rewrite bool_decide_eq_true_2; [done|unfold is_u32, u32_MAX, usize_MAX in *; lia]. }
  split.
  - intros E. apply bind_Ok in E as (lb & Hlb & E). apply ok_or_Ok in Hlb.
    destruct (get_range_be_inv 4 [] proof lb Hlb) as (rest & -> & Hlen).
    cbn zeta in E. apply bind_Ok in E as ([] & Hn & E). apply reject_if_Ok, negb_false_iff, Z.eqb_eq in Hn.
    rewrite Hn in *. unfold PROOF_ID_LEN_BYTES in E. rewrite Hadd in E. cbn [ok_or mbind result_bind] in E.
    apply bind_Ok in E as (id & Hidr & E). apply ok_or_Ok in Hidr.
    rewrite <-Hl, get_range_app in Hidr by (unfold len; lia). destruct (bool_decide (len proof_id ≤ _)%Z); [|done].
    injection Hidr as Hidr. unfold len in Hidr at 1. rewrite Nat2Z.id in Hidr.
    apply bind_Ok in E as ([] & Heq & [= <-]).
    apply reject_if_Ok, negb_false_iff, bool_decide_eq_true in Heq. subst id.
    assert (Hrest : proof_id ++ drop (length proof_id) rest = rest).
    { rewrite <-Heq at 1. apply take_drop. }
    exists (drop (length proof_id) rest). unfold stream_at. rewrite <-Hh, Hrest. split; [done|].
    f_equal. unfold len in *. rewrite length_app, length_to_be_bytes. lia.
  - intros (body & -> & ->). rewrite <-Hh.
    pose proof (get_range_be 4 [] (proof_id ++ body) (len proof_id)) as G.
    change (get_range 0 4 (to_be_bytes 4 (len proof_id) ++ proof_id ++ body)
            = Some (to_be_bytes 4 (len proof_id))) in G.
    unfold PROOF_ID_LEN_BYTES. rewrite G. cbn [ok_or mbind result_bind].
    rewrite from_to_be_bytes_small by (unfold is_u32, u32_MAX in Hid; lia).
    rewrite Z.eqb_refl. cbn [negb reject_if mbind result_bind].
    rewrite Hadd. cbn [ok_or mbind result_bind].
    rewrite (proj2 (get_range_Some 4 (4 + len proof_id) _ proof_id ltac:(lia))).
    2: { exists (to_be_bytes 4 (len proof_id)), body. split; [done|]. split; [done|lia]. }
    cbn [ok_or mbind result_bind]. rewrite bool_decide_eq_true_2 by done. cbn [negb reject_if mbind result_bind].
    unfold stream_at. rewrite <-Hh. do 2 f_equal. unfold len. rewrite length_app, length_to_be_bytes. lia.
Qed.

Lemma verifier_finish_Ok t pre todo : verifier_finish (stream_at t pre todo) = Ok () ↔ todo = [].
Proof.
  unfold verifier_finish, stream_at, len. simpl. rewrite length_app.
  destruct (Z.eqb_spec (Z.of_nat (length pre)) (Z.of_nat (length pre + length todo))) as [E|E].
  - split; [|done]. intros _. apply length_zero_iff_nil. lia.
  - split; [done|]. intros ->. simpl in E. lia.
Qed.

(** ** Nested protocols *)
Lemma nested_payload_Ok t pre todo payload e :
  (len (pre ++ todo) ≤ usize_MAX)%Z →
  nested_payload (stream_at t pre todo) = Ok (payload, e) ↔
  ∃ rest, todo = to_be_bytes 8 (len payload) ++ payload ++ rest ∧
    e = len (pre ++ to_be_bytes 8 (len payload) ++ payload).
Proof.
  intros Hu. unfold nested_payload, stream_at. cbn [vps_cursor vps_proof].
  split.
  - intros E. apply bind_Ok in E as (ps & Hps & E). apply checked_end_Ok in Hps as [-> _].
    apply bind_Ok in E as (lb & Hlb & E). apply ok_or_Ok in Hlb.
    destruct (get_range_be_inv 8 pre todo lb Hlb) as (rest & -> & Hlen).
    cbn zeta in E. apply bind_Ok in E as (fe & Hfe & E). apply checked_end_Ok in Hfe as [-> Hfe].
    apply bind_Ok in E as (pl & Hpl & [= -> <-]). apply ok_or_Ok in Hpl.
    set (n := from_be_bytes lb) in *.
    pose proof (from_be_bytes_range lb) as Hn. fold n in Hn.
    assert (Hpre : (len pre + NESTED_LEN_BYTES)%Z = len (pre ++ to_be_bytes 8 n)).
    { unfold len, NESTED_LEN_BYTES. rewrite length_app, length_to_be_bytes. lia. }
    rewrite Hpre, app_assoc, get_range_app in Hpl by lia.
    case_bool_decide as Hr; [|done]. injection Hpl as <-.
    assert (Hl : len (take (Z.to_nat n) rest) = n).
    { unfold len in *. rewrite length_take. lia. }
    exists (drop (Z.to_nat n) rest). rewrite Hl, take_drop. split; [done|].
    rewrite Hpre. unfold len in *. rewrite !length_app in *. lia.
  - intros (rest & -> & ->).
    assert (Hbe : (len pre + NESTED_LEN_BYTES)%Z = len (pre ++ to_be_bytes 8 (len payload))).
    { unfold len, NESTED_LEN_BYTES. rewrite length_app, length_to_be_bytes. lia. }
    assert (Hlen : len (pre ++ to_be_bytes 8 (len payload) ++ payload)
                   = (len pre + NESTED_LEN_BYTES + len payload)%Z).
    { unfold len, NESTED_LEN_BYTES. rewrite !length_app, length_to_be_bytes. lia. }
    assert (Hle : (len pre + NESTED_LEN_BYTES + len payload ≤ usize_MAX)%Z).
    { rewrite <-Hlen. revert Hu. unfold len. rewrite !length_app. lia. }
    assert (0 ≤ len payload)%Z by (unfold len; lia).
    assert (0 ≤ len pre)%Z by (unfold len; lia).
    assert (Hps : (len pre + NESTED_LEN_BYTES ≤ usize_MAX)%Z) by lia.
    rewrite (proj2 (checked_end_Ok (len pre) NESTED_LEN_BYTES _) (conj eq_refl Hps)).
    cbn [mbind result_bind]. rewrite (get_range_be 8 pre _ (len payload)). cbn [ok_or mbind result_bind].
    rewrite from_to_be_bytes_small by (unfold usize_MAX, NESTED_LEN_BYTES in *; lia).
    rewrite (proj2 (checked_end_Ok _ (len payload) _) (conj eq_refl Hle)). cbn [mbind result_bind].
    rewrite Hbe at 1 2. rewrite app_assoc, get_range_app by lia.
    rewrite bool_decide_eq_true_2 by (unfold len; rewrite length_app; lia).
    replace (Z.to_nat (len payload)) with (length payload) by (unfold len; lia).
    rewrite take_app_length. cbn [ok_or mbind result_bind]. by rewrite Hlen, Hbe.
Qed.

Lemma send_nested_Ok {X} (build : stateful (Transcript * X) (option CoreError) (list byte)) t proof x u s' x' :
  send_nested build (MkProverProofStream t proof, x) = (Ok u, (s', x')) ↔
  ∃ payload t', build (t, x) = (Ok payload, (t', x')) ∧ is_usize (len payload) ∧
    s' = MkProverProofStream t' (proof ++ to_be_bytes 8 (len payload) ++ payload).
Proof.
  unfold send_nested. cbn [pps_transcript pps_proof]. destruct u.
  destruct (build (t, x)) as [[payload|e] [t' x1]]; [|naive_solver].
  case_bool_decide; naive_solver.
Qed.

Lemma receive_nested_Ok {X T} (consume : list byte → stateful (Transcript * X) (option CoreError) T)
    t pre todo x v s' x' :
  (len (pre ++ todo) ≤ usize_MAX)%Z →
  receive_nested consume (stream_at t pre todo, x) = (Ok v, (s', x')) ↔
  ∃ payload rest t', todo = to_be_bytes 8 (len payload) ++ payload ++ rest ∧
    consume payload (t, x) = (Ok v, (t', x')) ∧
    s' = stream_at t' (pre ++ to_be_bytes 8 (len payload) ++ payload) rest.
Proof.
  intros Hu. unfold receive_nested.
  destruct (nested_payload _) as [[payload fe]|e] eqn:E.
  - apply nested_payload_Ok in E as (rest & -> & ->); [|done]. cbn [vps_transcript vps_proof stream_at].
    split.
    + destruct (consume payload (t, x)) as [[v'|e] [t' x1]] eqn:Hc; [|done]. intros [= -> <- <-].
      exists payload, rest, t'. split; [done|]. split; [done|]. unfold stream_at.
      by rewrite <-!app_assoc.
    + intros (payload' & rest' & t' & Htodo & Hc & ->).
      assert (payload' = payload ∧ rest' = rest) as [-> ->].
      { assert (nested_payload (stream_at t pre (to_be_bytes 8 (len payload) ++ payload ++ rest))
          = Ok (payload, len (pre ++ to_be_bytes 8 (len payload) ++ payload))) as E1.
        { apply nested_payload_Ok; [done|]. by exists rest. }
        assert (nested_payload (stream_at t pre (to_be_bytes 8 (len payload) ++ payload ++ rest))
          = Ok (payload', len (pre ++ to_be_bytes 8 (len payload') ++ payload'))) as E2.
        { apply nested_payload_Ok; [done|]. by exists rest'. }
        rewrite E1 in E2. injection E2 as <- _. split; [done|].
        apply app_inv_head, app_inv_head in Htodo. done. }
      rewrite Hc. unfold stream_at. by rewrite <-!app_assoc.
  - split; [done|]. intros (payload & rest & t' & Htodo & _ & _).
    assert (nested_payload (stream_at t pre todo)
      = Ok (payload, len (pre ++ to_be_bytes 8 (len payload) ++ payload))) as E1.
    { apply nested_payload_Ok; [done|]. by exists rest. }
    congruence.
Qed.
End stream_lemmas.
