(* ===== verification/ShareOpening.v ===== *)
(** * The share-opening backend (golden-evrf/lib.rs, module prototype)

    Schnorr proofs that the dealer opens the share and pad commitments of every
    statement, on one proof stream.  The backend discharges both contracts of
    [EvrfProofBackend], so the theorems about the key generation hold with it. *)

From Stdlib Require Import ZArith Lia Field Strings.Byte Sorting.Sorted.
From stdpp Require Import prelude strings.
From S2P Require Import Prelude BTree CoreError Group Algebra Poly Participant Shamir Feldman.
From S2P Require Import Transcript IdentityKey Registry Statement TestSupport FakeBackend Sampling Cycle ProofStream.

Local Open Scope golden_scope.

Definition SHARE_OPENING_PROOF_ID : list byte := bstr "golden-evrf/prototype-share-opening/v3".

Section model.
Context `{GoldenGroup} `{Sha256} `{Merlin}.

(** ** Statement checks *)
Definition ensure_backend_matches (statement : EvrfStatement) : Result unit :=
  if (bool_decide (st_protocol_version statement = PROTOCOL_VERSION)
      && bool_decide (st_backend_id statement = BACKEND_ID))%bool
  then Ok tt else Err ProofVerificationFailed.

Definition ensure_encrypted_share_relation (statement : EvrfStatement) : Result unit :=
  let encrypted_share_commitment := mul_generator (st_encrypted_share statement) in
  let expected_encrypted_share_commitment :=
    st_share_commitment statement ⊞ st_pad_commitment statement in
  if bool_decide (encrypted_share_commitment = expected_encrypted_share_commitment)
  then Ok tt else Err ProofVerificationFailed.

Definition ensure_feldman_share_relation (statement : EvrfStatement) : Result unit :=
  if (bool_decide (st_commitment_coefficients statement = [])
      || negb (len (st_commitment_coefficients statement) =? st_threshold statement)%Z)%bool
  then Err ProofVerificationFailed
  else
    x ← to_scalar (st_receiver statement);
    let '(expected, _) :=
      foldl (λ '(expected, x_pow) coefficient, (expected ⊞ coefficient ⊠ x_pow, x_pow * x))
        (identity, sone) (st_commitment_coefficients statement) in
    if bool_decide (expected = st_share_commitment statement)
    then Ok tt else Err ProofVerificationFailed.

Definition validate_statement (statement : EvrfStatement)
    (previous_receiver : option ParticipantIndex) : Result (option ParticipantIndex) :=
  if match previous_receiver with
     | Some previous => (pi_get (st_receiver statement) <=? pi_get previous)%Z
     | None => false
     end
  then Err ProofVerificationFailed
  else
    _ ← ensure_backend_matches statement;
    _ ← ensure_feldman_share_relation statement;
    _ ← ensure_encrypted_share_relation statement;
    Ok (Some (st_receiver statement)).

(** ** What both roles absorb and draw *)
Section observe.
Context {St : Type} `{!Observe St}.

Fixpoint observe_statements (statements : list EvrfStatement)
    (previous_receiver : option ParticipantIndex) : stateful St CoreError unit :=
  match statements with
  | [] => mret tt
  | statement :: statements =>
      previous_receiver ← lift (validate_statement statement previous_receiver);
      _ ← draw (λ s, (tt, observe_bytes (bstr "statement-root") (statement_root statement) s));
      observe_statements statements previous_receiver
  end.

Definition observe_batch (statements : list EvrfStatement) : stateful St CoreError unit :=
  _ ← lift (reject_if (negb (bool_decide (is_usize (len statements)))) ProofVerificationFailed);
  _ ← draw (λ s, (tt, observe_bytes (bstr "group-backend") BACKEND_ID s));
  _ ← draw (λ s, (tt,
        observe_bytes (bstr "statement-count") (to_be_bytes 8 (len statements)) s));
  observe_statements statements None.

Definition opening_challenge : stateful St CoreError Scalar :=
  challenge_bytes ← draw (challenge (bstr "opening-challenge") 32);
  lift (hash_to_scalar (bstr "golden-share-opening-challenge-v3") challenge_bytes).
End observe.

(** ** Proving *)
Section prover.
Context `{CryptoRngCore R}.

(** The body of the loop over the witnesses. *)
Definition prove_opening (fuel : nat) (witness : EvrfWitness)
    : stateful (ProverProofStream * R) (option CoreError) unit :=
  share_nonce ← on_rng (random_nonzero_scalar fuel);
  pad_nonce ← on_rng (random_nonzero_scalar fuel);
  let share_nonce_point := mul_generator share_nonce in
  let pad_nonce_point := mul_generator pad_nonce in
  _ ← on_stream (send_point GoldenCurve (bstr "share-nonce-point") share_nonce_point Reject);
  _ ← on_stream (send_point GoldenCurve (bstr "pad-nonce-point") pad_nonce_point Reject);
  challenge ← on_stream opening_challenge;
  let share_response := share_nonce + challenge * w_share witness in
  let pad_response := pad_nonce + challenge * w_pad witness in
  _ ← on_stream (send_scalar GoldenCurve (bstr "share-response") share_response);
  on_stream (send_scalar GoldenCurve (bstr "pad-response") pad_response).

Definition share_opening_prove_batch (fuel : nat) (statements : list EvrfStatement)
    (witnesses : list EvrfWitness) : stateful R (option CoreError) (list byte) := λ rng,
  if negb (Nat.eqb (length statements) (length witnesses))
  then (Err (Some ProofVerificationFailed), rng)
  else
    match ProverProofStream_new SHARE_OPENING_PROOF_ID with
    | Err e => (Err (Some e), rng)
    | Ok stream =>
        let '(res, (stream, rng)) :=
          (_ ← on_stream (observe_batch statements);
           sfor_each (prove_opening fuel) witnesses) (stream, rng) in
        (_ ← res; allocated (prover_finish stream), rng)
    end.
End prover.

(** ** Verifying *)
Definition verify_opening (statement : EvrfStatement)
    : stateful VerifierProofStream CoreError unit :=
  share_nonce_point ← receive_point GoldenCurve (bstr "share-nonce-point") Reject;
  pad_nonce_point ← receive_point GoldenCurve (bstr "pad-nonce-point") Reject;
  challenge ← opening_challenge;
  share_response ← receive_scalar GoldenCurve (bstr "share-response");
  pad_response ← receive_scalar GoldenCurve (bstr "pad-response");
  let share_left := mul_generator share_response in
  let share_right := share_nonce_point ⊞ st_share_commitment statement ⊠ challenge in
  let pad_left := mul_generator pad_response in
  let pad_right := pad_nonce_point ⊞ st_pad_commitment statement ⊠ challenge in
  if (negb (bool_decide (share_left = share_right)) || negb (bool_decide (pad_left = pad_right)))%bool
  then lift (Err ProofVerificationFailed)
  else mret tt.

Definition share_opening_verify_batch (statements : list EvrfStatement) (proof : list byte)
    : Result unit :=
  stream ← VerifierProofStream_new SHARE_OPENING_PROOF_ID proof;
  let '(res, stream) :=
    (_ ← observe_batch statements; sfor_each verify_opening statements) stream in
  _ ← res;
  verifier_finish stream.
End model.

(** [impl EvrfProofBackend for ShareOpeningBackend].  A proof that the code does not
    return is an error of the interface. *)
Definition returned {A} (m : result (option CoreError) A) : Result A :=
  map_err (default ProofVerificationFailed) m.

Definition ShareOpeningBackend `{GoldenGroup} `{Sha256} `{Merlin} (fuel : nat)
    : EvrfProofBackend := {|
  PROOF_ID := SHARE_OPENING_PROOF_ID;
  derive_pad := default_derive_pad;
  prove_batch := λ R rng_ops statements witnesses rng,
    let '(res, rng) := share_opening_prove_batch fuel statements witnesses rng in
    (returned res, rng);
  verify_batch := share_opening_verify_batch;
  verify_proof_batch := default_verify_proof_batch share_opening_verify_batch;
|}.

(** ** What an accepted proof contains *)
Section accepted.
Context `{GoldenGroup} `{Sha256} `{Merlin}.

Record Opening := MkOpening {
  op_share_nonce_point : Element;
  op_pad_nonce_point : Element;
  op_share_response : Scalar;
  op_pad_response : Scalar;
}.

Abbreviation point_bytes := (ps_encode_point (ProofStreamCurve:=GoldenCurve)).
Abbreviation scalar_bytes := (ps_encode_scalar (ProofStreamCurve:=GoldenCurve)).

Definition opening_bytes (o : Opening) : list byte :=
  point_bytes (op_share_nonce_point o) ++ point_bytes (op_pad_nonce_point o)
  ++ scalar_bytes (op_share_response o) ++ scalar_bytes (op_pad_response o).

(** The transcript at the challenge of an opening, and after the opening. *)
Definition nonce_transcript (o : Opening) (t : Transcript) : Transcript :=
  append_message (bstr "pad-nonce-point") (point_bytes (op_pad_nonce_point o))
    (append_message (bstr "share-nonce-point") (point_bytes (op_share_nonce_point o)) t).
Definition opening_transcript (o : Opening) (t : Transcript) : Transcript :=
  append_message (bstr "pad-response") (scalar_bytes (op_pad_response o))
    (append_message (bstr "share-response") (scalar_bytes (op_share_response o))
       (challenge_bytes (bstr "opening-challenge") 32 (nonce_transcript o t)).2).
Definition opening_challenge_at (o : Opening) (t : Transcript) : Result Scalar :=
  hash_to_scalar (bstr "golden-share-opening-challenge-v3")
    (challenge_bytes (bstr "opening-challenge") 32 (nonce_transcript o t)).1.

(** The Schnorr equations of the share and of the pad. *)
Definition opening_valid (st : EvrfStatement) (o : Opening) (c : Scalar) : Prop :=
  mul_generator (op_share_response o) = op_share_nonce_point o ⊞ st_share_commitment st ⊠ c ∧
  mul_generator (op_pad_response o) = op_pad_nonce_point o ⊞ st_pad_commitment st ⊠ c.

Definition opening_accepted (t : Transcript) (st : EvrfStatement) (o : Opening) : Prop :=
  is_identity (op_share_nonce_point o) = false ∧ is_identity (op_pad_nonce_point o) = false ∧
  ∃ c, opening_challenge_at o t = Ok c ∧ opening_valid st o c.

Fixpoint openings_accepted (t : Transcript) (sts : list EvrfStatement) (os : list Opening) : Prop :=
  match sts, os with
  | [], [] => True
  | st :: sts, o :: os =>
      opening_accepted t st o ∧ openings_accepted (opening_transcript o t) sts os
  | _, _ => False
  end.

(** The transcript after the statements. *)
Definition batch_transcript (sts : list EvrfStatement) (t : Transcript) : Transcript :=
  foldl (λ t st, append_message (bstr "statement-root") (statement_root st) t)
    (append_message (bstr "statement-count") (to_be_bytes 8 (len sts))
       (append_message (bstr "group-backend") BACKEND_ID t)) sts.

Definition statement_checked (st : EvrfStatement) : Prop :=
  ensure_backend_matches st = Ok () ∧ ensure_feldman_share_relation st = Ok () ∧
  ensure_encrypted_share_relation st = Ok ().
Definition receiver_before (st st' : EvrfStatement) : Prop :=
  (pi_get (st_receiver st) < pi_get (st_receiver st'))%Z.
Definition batch_checked (sts : list EvrfStatement) : Prop :=
  is_usize (len sts) ∧ Forall statement_checked sts ∧ Sorted receiver_before sts.

(** *** The loop over the statements *)
Definition after_previous (previous : option ParticipantIndex) (st : EvrfStatement) : Prop :=
  match previous with Some p => (pi_get p < pi_get (st_receiver st))%Z | None => True end.

Lemma validate_statement_Ok st previous r :
  validate_statement st previous = Ok r ↔
  r = Some (st_receiver st) ∧ statement_checked st ∧ after_previous previous st.
Proof.
  unfold validate_statement, statement_checked, after_previous.
  destruct previous as [p|]; [destruct (Z.leb_spec (pi_get (st_receiver st)) (pi_get p))|];
    rewrite ?bind_Ok; [split; [done|lia]|..].
  all: repeat setoid_rewrite bind_Ok.
  all: split; [intros ([] & H1' & [] & H2' & [] & H3' & [= <-]); auto|].
  all: intros (-> & (Hb & Hf & He) & _); do 3 (exists (); split; [done|]); done.
Qed.

Context {St : Type} `{!Observe St} `{!ObserveLaws St}.

Lemma observe_statements_Ok sts previous (s s' : St) u :
  observe_statements sts previous s = (Ok u, s') ↔
  Forall statement_checked sts ∧ Sorted receiver_before sts ∧
  match sts with [] => True | st :: _ => after_previous previous st end ∧
  s' = with_transcript
         (foldl (λ t st, append_message (bstr "statement-root") (statement_root st) t)
            (transcript_of s) sts) s.
Proof.
  revert previous s. induction sts as [|st sts IH]; intros previous s; cbn [observe_statements foldl].
  - rewrite with_transcript_of. destruct u.
    split; [intros [= <-]|intros (_ & _ & _ & ->); done].
    split_and!; auto using Forall_nil_2, Sorted_nil.
  - rewrite stateful_bind_Ok. split.
    + intros (r & s1 & [Hv ->]%lift_Ok & E). apply validate_statement_Ok in Hv as (-> & Hst & Hp).
      apply stateful_bind_Ok in E as ([] & s1 & [= <-] & E).
      apply IH in E as (Hall & Hsorted & Hhd & ->).
      split; [by constructor|]. split; [|split; [done|]].
      * constructor; [done|]. destruct sts; by constructor.
      * unfold observe_bytes. by rewrite with_transcript_twice, transcript_of_with.
    + intros (Hall & Hsorted & Hp & ->). inversion Hall as [|?? Hst Hall']; subst.
      inversion Hsorted as [|?? Hs' Hhd]; subst. exists (Some (st_receiver st)), s. split.
      { apply lift_Ok. split; [|done]. by apply validate_statement_Ok. }
      apply stateful_bind_Ok. eexists (), _. split; [reflexivity|].
      apply IH. split; [done|]. split; [done|]. split.
      * destruct sts; [done|]. by inversion Hhd.
      * unfold observe_bytes. by rewrite with_transcript_twice, transcript_of_with.
Qed.

Lemma observe_batch_Ok sts (s s' : St) u :
  observe_batch sts s = (Ok u, s') ↔
  batch_checked sts ∧ s' = with_transcript (batch_transcript sts (transcript_of s)) s.
Proof.
  unfold observe_batch, batch_checked, batch_transcript. rewrite stateful_bind_Ok. split.
  - intros ([] & s1 & [Hu ->]%lift_Ok & E). apply reject_if_Ok, negb_false_iff, bool_decide_eq_true in Hu.
    apply stateful_bind_Ok in E as ([] & s1 & [= <-] & E).
    apply stateful_bind_Ok in E as ([] & s1 & [= <-] & E).
    apply observe_statements_Ok in E as (Hall & Hsorted & _ & ->). split; [done|].
    unfold observe_bytes. by rewrite !with_transcript_twice, !transcript_of_with.
  - intros [(Hu & Hall & Hsorted) ->]. exists (), s. split.
    { by rewrite bool_decide_eq_true_2. }
    apply stateful_bind_Ok. eexists (), _. split; [reflexivity|].
    apply stateful_bind_Ok. eexists (), _. split; [reflexivity|].
    apply observe_statements_Ok. split; [done|]. split; [done|]. split; [by destruct sts|].
    unfold observe_bytes. by rewrite !with_transcript_twice, !transcript_of_with.
Qed.

Lemma opening_challenge_Ok (s s' : St) c :
  opening_challenge s = (Ok c, s') ↔
  let r := challenge_bytes (bstr "opening-challenge") 32 (transcript_of s) in
  hash_to_scalar (bstr "golden-share-opening-challenge-v3") r.1 = Ok c ∧
  s' = with_transcript r.2 s.
Proof.
  unfold opening_challenge. rewrite stateful_bind_Ok. unfold draw, challenge.
  destruct (challenge_bytes _ _ _) as [bytes t]. cbn zeta. cbn [fst snd]. split.
  - intros (a & s1 & [= <- <-] & [E ->]%lift_Ok). done.
  - intros [E ->]. eexists _, _. split; [reflexivity|]. by rewrite E.
Qed.
End accepted.

(** ** The verifier reads openings *)
Section verifier.
Context `{GroupModule} `{!GroupCodec} `{Sha256} `{Merlin}.

Lemma point_width : (0 ≤ POINT_BYTES (ProofStreamCurve:=GoldenCurve))%Z.
Proof. pose proof ELEMENT_REPR_BYTES_range. simpl. lia. Qed.
Lemma scalar_width : (0 ≤ SCALAR_BYTES (ProofStreamCurve:=GoldenCurve))%Z.
Proof. pose proof (REPR_BYTES_range (F:=Scalar)). simpl. lia. Qed.

Lemma admits_reject P :
  admits (C:=GoldenCurve) Reject P ↔ is_identity P = false.
Proof. unfold admits. naive_solver. Qed.

(** The fields that are read, each at the cursor that the previous one left. *)
Ltac fit := unfold len in *; rewrite ?length_app in *; lia.

Lemma verify_opening_Ok st t pre todo u s' :
  (len (pre ++ todo) ≤ usize_MAX)%Z →
  verify_opening st (stream_at t pre todo) = (Ok u, s') ↔
  ∃ o rest, todo = opening_bytes o ++ rest ∧ opening_accepted t st o ∧
    s' = stream_at (opening_transcript o t) (pre ++ opening_bytes o) rest.
Proof.
  intros Hu. unfold verify_opening, opening_bytes, opening_accepted. split.
  - intros E. apply stateful_bind_Ok in E as (A & s1 & E1 & E).
    apply (receive_point_Ok GoldenCurve) in E1 as (r1 & -> & HA & ->); [|apply point_width|done].
    apply stateful_bind_Ok in E as (B & s2 & E2 & E).
    apply (receive_point_Ok GoldenCurve) in E2 as (r2 & -> & HB & ->); [|apply point_width|fit].
    apply stateful_bind_Ok in E as (c & s3 & E3 & E).
    apply opening_challenge_Ok in E3 as [Hc ->].
    apply stateful_bind_Ok in E as (z & s4 & E4 & E).
    apply (receive_scalar_Ok GoldenCurve) in E4 as (r3 & -> & ->); [|apply scalar_width|fit].
    apply stateful_bind_Ok in E as (z' & s5 & E5 & E).
    apply (receive_scalar_Ok GoldenCurve) in E5 as (r4 & -> & ->); [|apply scalar_width|fit].
    destruct (_ || _)%bool eqn:Heq; [done|]. injection E as _ <-.
    apply orb_false_iff in Heq as [Hs%negb_false_iff%bool_decide_eq_true
      Hp%negb_false_iff%bool_decide_eq_true].
    exists (MkOpening A B z z'), r4. cbn [op_share_nonce_point op_pad_nonce_point op_share_response
      op_pad_response]. rewrite <-!app_assoc. split; [done|].
    split; [|done].
    split; [exact (proj1 (admits_reject A) HA)|]. split; [exact (proj1 (admits_reject B) HB)|].
    by exists c.
  - intros (o & rest & -> & (HA & HB & c & Hc & Hs & Hp) & ->).
    rewrite <-!app_assoc in *.
    apply stateful_bind_Ok. eexists _, _. split.
    { apply (receive_point_Ok GoldenCurve); [apply point_width|done|].
      eexists. split; [reflexivity|]. split; [by apply admits_reject|reflexivity]. }
    apply stateful_bind_Ok. eexists _, _. split.
    { apply (receive_point_Ok GoldenCurve); [apply point_width|fit|].
      eexists. split; [reflexivity|]. split; [by apply admits_reject|reflexivity]. }
    apply stateful_bind_Ok. eexists _, _. split.
    { apply opening_challenge_Ok. split; [exact Hc|reflexivity]. }
    apply stateful_bind_Ok. eexists _, _. split.
    { apply (receive_scalar_Ok GoldenCurve); [apply scalar_width|fit|].
      eexists. split; reflexivity. }
    apply stateful_bind_Ok. eexists _, _. split.
    { apply (receive_scalar_Ok GoldenCurve); [apply scalar_width|fit|].
      eexists. split; reflexivity. }
    rewrite Hs, Hp, !bool_decide_eq_true_2 by done. destruct u. unfold stream_at. 
    by rewrite <-!app_assoc.
Qed.

Lemma verify_openings_Ok sts t pre todo u s' :
  (len (pre ++ todo) ≤ usize_MAX)%Z →
  sfor_each verify_opening sts (stream_at t pre todo) = (Ok u, s') ↔
  ∃ os rest t', todo = concat (opening_bytes <$> os) ++ rest ∧ openings_accepted t sts os ∧
    t' = foldl (λ t o, opening_transcript o t) t os ∧
    s' = stream_at t' (pre ++ concat (opening_bytes <$> os)) rest.
Proof.
  revert t pre todo. induction sts as [|st sts IH]; intros t pre todo Hu; cbn [sfor_each].
  - destruct u. split.
    + intros [= <-]. exists [], todo, t. by rewrite app_nil_r.
    + intros (os & rest & t' & -> & Hos & -> & ->). destruct os; [|done]. csimpl.
      by rewrite app_nil_r.
  - rewrite stateful_bind_Ok. split.
    + intros ([] & s1 & E1 & E). apply verify_opening_Ok in E1 as (o & rest & -> & Ho & ->); [|done].
      apply IH in E as (os & rest' & t' & -> & Hos & -> & ->); [|fit].
      exists (o :: os), rest', (foldl (λ t o, opening_transcript o t) (opening_transcript o t) os).
      csimpl. by rewrite <-!app_assoc.
    + intros (os & rest & t' & -> & Hos & -> & ->). destruct os as [|o os]; [done|].
      destruct Hos as [Ho Hos]. csimpl in *. rewrite <-!app_assoc in *. eexists (), _. split.
      { apply verify_opening_Ok; [done|]. by exists o, (concat (opening_bytes <$> os) ++ rest). }
      apply IH; [fit|]. exists os, rest. eexists. split; [done|]. split; [done|].
      split; [reflexivity|]. by rewrite <-!app_assoc.
Qed.

Lemma proof_id_len : is_u32 (len SHARE_OPENING_PROOF_ID).
Proof. split; vm_compute; congruence. Qed.

(** The transcript at the first opening. *)
Definition openings_transcript (sts : list EvrfStatement) : Transcript :=
  batch_transcript sts (transcript_new SHARE_OPENING_PROOF_ID).

Lemma share_opening_verify_Ok sts π :
  (len π ≤ usize_MAX)%Z →
  share_opening_verify_batch sts π = Ok () ↔
  batch_checked sts ∧
  ∃ os, π = stream_header SHARE_OPENING_PROOF_ID ++ concat (opening_bytes <$> os) ∧
    openings_accepted (openings_transcript sts) sts os.
Proof.
  intros Hu. unfold share_opening_verify_batch. rewrite bind_Ok.
  setoid_rewrite (verifier_new_Ok _ _ _ proof_id_len Hu). split.
  - intros (s & (body & -> & ->) & E).
    destruct (mbind (M:=stateful _ _) _ _ _) as [[u|e] s'] eqn:Hm; [|done]. cbn [mbind result_bind] in E.
    apply stateful_bind_Ok in Hm as ([] & s1 & E1 & E2).
    apply observe_batch_Ok in E1 as [Hb ->].
    change (with_transcript (batch_transcript sts _) _)
      with (stream_at (openings_transcript sts) (stream_header SHARE_OPENING_PROOF_ID) body) in E2.
    apply verify_openings_Ok in E2 as (os & rest & t' & -> & Hos & _ & ->); [|done].
    apply verifier_finish_Ok in E as ->. split; [done|]. exists os. by rewrite app_nil_r.
  - intros [Hb (os & -> & Hos)]. eexists. split; [by eexists|].
    assert (Hm : mbind (M:=stateful _ _) (λ _, sfor_each verify_opening sts) (observe_batch sts)
      (stream_at (transcript_new SHARE_OPENING_PROOF_ID) (stream_header SHARE_OPENING_PROOF_ID)
         (concat (opening_bytes <$> os)))
      = (Ok (), stream_at (foldl (λ t o, opening_transcript o t) (openings_transcript sts) os)
          (stream_header SHARE_OPENING_PROOF_ID ++ concat (opening_bytes <$> os)) [])).
    { apply stateful_bind_Ok. eexists (), _. split; [by apply observe_batch_Ok|].
      apply (verify_openings_Ok sts (openings_transcript sts)); [done|].
      exists os, []. eexists. rewrite app_nil_r. done. }
    rewrite Hm. cbn [mbind result_bind]. by apply verifier_finish_Ok.
Qed.

(** ** The prover writes openings *)
Lemma prove_opening_Ok `{CryptoRngCore R} fuel w t proof (rng : R) u s' rng' :
  prove_opening fuel w (MkProverProofStream t proof, rng) = (Ok u, (s', rng')) →
  ∃ o c, s' = MkProverProofStream (opening_transcript o t) (proof ++ opening_bytes o) ∧
    is_identity (op_share_nonce_point o) = false ∧ is_identity (op_pad_nonce_point o) = false ∧
    opening_challenge_at o t = Ok c ∧
    mul_generator (op_share_response o)
      = op_share_nonce_point o ⊞ mul_generator (w_share w) ⊠ c ∧
    mul_generator (op_pad_response o) = op_pad_nonce_point o ⊞ mul_generator (w_pad w) ⊠ c.
Proof.
  unfold prove_opening. intros E.
  apply stateful_bind_Ok in E as (k & [s1 r1] & [_ ->]%on_rng_Ok & E).
  apply stateful_bind_Ok in E as (k' & [s2 r2] & [_ ->]%on_rng_Ok & E).
  apply stateful_bind_Ok in E as ([] & [s3 r3] & [E1 ->]%on_stream_Ok & E).
  apply (send_point_Ok GoldenCurve) in E1 as [HA ->].
  apply stateful_bind_Ok in E as ([] & [s4 r4] & [E2 ->]%on_stream_Ok & E).
  apply (send_point_Ok GoldenCurve) in E2 as [HB ->].
  apply stateful_bind_Ok in E as (c & [s5 r5] & [Hc ->]%on_stream_Ok & E).
  apply opening_challenge_Ok in Hc as [Hc ->].
  apply stateful_bind_Ok in E as ([] & [s6 r6] & [E3 ->]%on_stream_Ok & E).
  rewrite (send_scalar_eq GoldenCurve) in E3. injection E3 as <-.
  apply on_stream_Ok in E as [E4 ->].
  rewrite (send_scalar_eq GoldenCurve) in E4. injection E4 as _ <-.
  exists (MkOpening (mul_generator k) (mul_generator k') (k + c * w_share w) (k' + c * w_pad w)), c.
  unfold opening_bytes. cbn [op_share_nonce_point op_pad_nonce_point op_share_response op_pad_response].
  split. { cbn. by rewrite <-!app_assoc. }
  split; [exact (proj1 (admits_reject _) HA)|]. split; [exact (proj1 (admits_reject _) HB)|].
  split; [done|].
  by rewrite !mul_generator_add, !mul_generator_mul, !(smul_comm c).
Qed.

Definition witness_opens (st : EvrfStatement) (w : EvrfWitness) : Prop :=
  mul_generator (w_share w) = st_share_commitment st ∧
  mul_generator (w_pad w) = st_pad_commitment st.

Lemma prove_openings_Ok `{CryptoRngCore R} fuel sts ws t proof (rng : R) u s' rng' :
  Forall2 witness_opens sts ws →
  sfor_each (prove_opening fuel) ws (MkProverProofStream t proof, rng) = (Ok u, (s', rng')) →
  ∃ os, pps_proof s' = proof ++ concat (opening_bytes <$> os) ∧ openings_accepted t sts os.
Proof.
  intros Hw. revert t proof rng. induction Hw as [|st w sts ws [Hs Hp] _ IH]; intros t proof rng;
    cbn [sfor_each].
  - intros [= _ <- <-]. exists []. split; [by rewrite app_nil_r|done].
  - intros E. apply stateful_bind_Ok in E as ([] & [s1 r1] & E1 & E).
    apply prove_opening_Ok in E1 as (o & c & -> & HA & HB & Hc & Hzs & Hzp).
    rewrite Hs in Hzs. rewrite Hp in Hzp.
    apply IH in E as (os & -> & Hos). exists (o :: os). csimpl. rewrite app_assoc. split; [done|].
    split; [|done]. split; [done|]. split; [done|]. by exists c.
Qed.

Lemma share_opening_complete `{CryptoRngCore R} fuel sts ws (rng rng' : R) π :
  Forall2 witness_opens sts ws →
  share_opening_prove_batch fuel sts ws rng = (Ok π, rng') →
  share_opening_verify_batch sts π = Ok ().
Proof.
  intros Hw. unfold share_opening_prove_batch.
  destruct (negb _); [done|].
  assert (Hnew := proj2 (prover_new_Ok SHARE_OPENING_PROOF_ID _ proof_id_len) eq_refl).
  rewrite Hnew.
  destruct (mbind (M:=stateful _ _) _ _ _) as [[u|e] [s r]] eqn:Hm; [|done]. cbn [mbind result_bind].
  unfold allocated. case_bool_decide as Hu; [|done]. intros [= <- <-].
  apply stateful_bind_Ok in Hm as ([] & [s1 r1] & [E1 ->]%on_stream_Ok & E2).
  apply observe_batch_Ok in E1 as [Hb ->].
  apply prove_openings_Ok with (sts:=sts) in E2 as (os & Hπ & Hos); [|done].
  apply share_opening_verify_Ok; [done|]. split; [done|]. exists os. by split.
Qed.
End verifier.

(** ** The backend keeps its contracts *)
Section contracts.
Context `{GroupModule} `{!GroupCodec} `{Sha256} `{Merlin}.
Add Field opening_field : (scalar_field_theory (F:=Scalar)).

Lemma feldman_share_relation_Ok st :
  ensure_feldman_share_relation st = Ok () ↔
  st_commitment_coefficients st ≠ [] ∧
  len (st_commitment_coefficients st) = st_threshold st ∧
  ∃ x, to_scalar (st_receiver st) = Ok x ∧
       meval (H0:=element_module) (st_commitment_coefficients st) x = st_share_commitment st.
Proof.
  unfold ensure_feldman_share_relation.
  case_bool_decide as Hnil; [naive_solver|]. cbn [orb].
  destruct (Z.eqb_spec (len (st_commitment_coefficients st)) (st_threshold st)); [|naive_solver].
  cbn [negb]. destruct (to_scalar (st_receiver st)) as [x|]; cbn [mbind result_bind]; [|naive_solver].
  pose proof (power_loop_meval (st_commitment_coefficients st) x identity sone) as Hp.
  destruct (foldl _ _ _) as [sc xp]. simpl in Hp. rewrite gadd_id_l, gmul_1 in Hp. subst sc.
  case_bool_decide; naive_solver.
Qed.

(** The checks on a statement, in terms of the public relation. *)
Lemma statement_checked_iff st :
  statement_checked st ↔
  st_protocol_version st = PROTOCOL_VERSION ∧ st_backend_id st = BACKEND_ID ∧
  st_commitment_coefficients st ≠ [] ∧ public_relation st.
Proof.
  unfold statement_checked, public_relation. rewrite feldman_share_relation_Ok.
  unfold ensure_backend_matches, ensure_encrypted_share_relation.
  repeat case_bool_decide; simpl; naive_solver.
Qed.

Lemma ShareOpening_sound fuel :
  EvrfBackendSound (H1:=ShareOpeningBackend fuel).
Proof.
  split. intros sts π st Hv Hst. cbn [verify_batch ShareOpeningBackend] in Hv.
  unfold share_opening_verify_batch in Hv. apply bind_Ok in Hv as (s & _ & Hv).
  destruct (mbind (M:=stateful _ _) _ _ _) as [[u|e] s'] eqn:Hm; [|done].
  apply stateful_bind_Ok in Hm as ([] & s1 & E1 & _).
  apply observe_batch_Ok in E1 as [(_ & Hall & _) _].
  rewrite Forall_forall in Hall. by apply Hall, statement_checked_iff in Hst as (_ & _ & _ & ?).
Qed.

Lemma ShareOpening_complete fuel :
  EvrfBackendComplete (H1:=ShareOpeningBackend fuel).
Proof.
  split.
  - intros. apply default_derive_pad_symmetric.
  - intros R rng_ops sts ws r1 r2 π Hw Hp. cbn [prove_batch verify_batch ShareOpeningBackend] in *.
    destruct (share_opening_prove_batch fuel sts ws r1) as [[π'|e] r] eqn:E; [|done].
    injection Hp as <- <-. apply (share_opening_complete fuel sts ws r1 r); [|done].
    eapply Forall2_impl; [exact Hw|]. intros st w (_ & _ & _ & Hs & Hp & _). by split.
  - intros batches. apply default_verify_proof_batch_spec.
Qed.

Lemma opening_challenge_total {St} `{!Observe St} (s : St) :
  ∃ s', (∃ c, opening_challenge s = (Ok c, s')) ∨ opening_challenge s = (Err InvalidEncoding, s').
Proof.
  unfold opening_challenge, mbind, stateful_bind, draw, lift.
  destruct (challenge _ _ s) as [bytes s']. exists s'.
  destruct (hash_to_scalar _ bytes) as [c|e] eqn:Hh; [left; by exists c|].
  apply hash_to_scalar_Err in Hh as ->. by right.
Qed.

(** A round of the prover ends with the opening, or because the challenge does not
    hash to a scalar. *)
Lemma prove_opening_total `{CryptoRngCore R} n fuel w t proof (rng : R) :
  draws_nonzero (F:=Scalar) n rng → (n ≤ fuel)%nat →
  ∃ s' k, (prove_opening fuel w (MkProverProofStream t proof, rng)
           = (Ok (), (s', after_draws (F:=Scalar) k rng)) ∨
           prove_opening fuel w (MkProverProofStream t proof, rng)
           = (Err (Some InvalidEncoding), (s', after_draws (F:=Scalar) k rng))).
Proof.
  intros Hd Hn. unfold prove_opening.
  destruct (random_nonzero_scalar_total n fuel rng Hd Hn) as (a & i & Ha).
  pose proof (random_nonzero_scalar_nonzero _ _ _ _ Ha) as Ha0.
  destruct (random_nonzero_scalar_total n fuel _ (draws_nonzero_after n i rng Hd) Hn) as (b & j & Hb).
  pose proof (random_nonzero_scalar_nonzero _ _ _ _ Hb) as Hb0.
  rewrite <-after_draws_add in Hb.
  assert (HA : ∀ label x s, x ≠ szero →
    send_point GoldenCurve label (mul_generator x) Reject s
    = (Ok (), send_bytes label (ps_encode_point (ProofStreamCurve:=GoldenCurve) (mul_generator x)) s)).
  { intros label x s Hx. apply (send_point_Ok GoldenCurve). split; [|done]. apply admits_reject.
    apply is_identity_false. by rewrite mul_generator_eq_identity. }
  unfold mbind, stateful_bind, on_rng, on_stream. rewrite Ha, Hb, (HA _ a), (HA _ b) by done.
  cbn [map_err].
  destruct (opening_challenge_total
    (send_bytes (bstr "pad-nonce-point") (ps_encode_point (ProofStreamCurve:=GoldenCurve) (mul_generator b))
       (send_bytes (bstr "share-nonce-point") (ps_encode_point (ProofStreamCurve:=GoldenCurve) (mul_generator a))
          (MkProverProofStream t proof)))) as (s' & [(c & Hc)|Hc]).
  - rewrite Hc. cbn [map_err]. rewrite !(send_scalar_eq GoldenCurve). cbn [map_err].
    eexists _, (i + j)%nat. left. reflexivity.
  - rewrite Hc. cbn [map_err]. eexists _, (i + j)%nat. right. reflexivity.
Qed.

Lemma prove_openings_total `{CryptoRngCore R} n fuel ws t proof (rng : R) :
  draws_nonzero (F:=Scalar) n rng → (n ≤ fuel)%nat →
  ∃ s' rng', sfor_each (prove_opening fuel) ws (MkProverProofStream t proof, rng)
               = (Ok (), (s', rng')) ∨
             sfor_each (prove_opening fuel) ws (MkProverProofStream t proof, rng)
               = (Err (Some InvalidEncoding), (s', rng')).
Proof.
  intros Hd Hn. revert t proof rng Hd. induction ws as [|w ws IH]; intros t proof rng Hd; cbn [sfor_each].
  - eexists _, _. left. reflexivity.
  - destruct (prove_opening_total n fuel w t proof rng Hd Hn) as ([t1 p1] & k & [E|E]);
      unfold mbind, stateful_bind; rewrite E; [|by eexists _, _; right].
    by apply IH, draws_nonzero_after.
Qed.

Lemma len_openings os :
  len (concat (opening_bytes <$> os))
  = (Z.of_nat (length os) * (2 * ELEMENT_REPR_BYTES + 2 * REPR_BYTES (F:=Scalar)))%Z.
Proof.
  induction os as [|o os IH]; [done|]. csimpl. unfold opening_bytes, len in *.
  rewrite !length_app.
  pose proof (len_encode_point (H:=GoldenCurve) (op_share_nonce_point o)) as E1.
  pose proof (len_encode_point (H:=GoldenCurve) (op_pad_nonce_point o)) as E2.
  pose proof (len_encode_scalar (H:=GoldenCurve) (op_share_response o)) as E3.
  pose proof (len_encode_scalar (H:=GoldenCurve) (op_pad_response o)) as E4.
  simpl POINT_BYTES in *. simpl SCALAR_BYTES in *. unfold len in *. lia.
Qed.

Lemma opening_bytes_inj o o' : opening_bytes o = opening_bytes o' → o = o'.
Proof.
  unfold opening_bytes. intros E.
  rewrite <-(app_nil_r (ps_encode_scalar (ProofStreamCurve:=GoldenCurve) (op_pad_response o))) in E.
  rewrite <-(app_nil_r (ps_encode_scalar (ProofStreamCurve:=GoldenCurve) (op_pad_response o'))) in E.
  pose proof (GoldenCurve_laws (H:=H)) as L.
  apply (encode_point_app_inj (C:=GoldenCurve)) in E as [E1 E].
  apply (encode_point_app_inj (C:=GoldenCurve)) in E as [E2 E].
  apply (encode_scalar_app_inj (C:=GoldenCurve)) in E as [E3 E].
  apply (encode_scalar_app_inj (C:=GoldenCurve)) in E as [E4 _].
  destruct o, o'. simpl in *. by subst.
Qed.

(** An accepted proof of one statement. *)
Lemma single_opening st o :
  let proof := stream_header SHARE_OPENING_PROOF_ID ++ opening_bytes o in
  (len proof ≤ usize_MAX)%Z → share_opening_verify_batch [st] proof = Ok () →
  ∃ c, opening_challenge_at o (openings_transcript [st]) = Ok c ∧ opening_valid st o c.
Proof.
  intros proof Hu (_ & os & Heq & Hos)%share_opening_verify_Ok; [|done].
  destruct os as [|o' [|]]; [done| |by destruct Hos].
  apply app_inv_head in Heq. csimpl in Heq. rewrite app_nil_r in Heq.
  apply opening_bytes_inj in Heq as <-. by destruct Hos as [(_ & _ & ?) _].
Qed.
End contracts.

(** ** Properties *)
Section properties.
Context `{GroupModule} `{!GroupCodec} `{Sha256}.
Add Field share_opening_field : (scalar_field_theory (F:=Scalar)).

(** C20: what the share-opening verifier accepts, exactly: the statements are of
    this protocol version and group, satisfy the public relation and come in
    strictly increasing order of their receivers, and the proof is the identified
    header followed by one opening per statement, with canonically encoded
    non-identity nonce points and responses that satisfy the two Schnorr equations
    for the challenge of the transcript at that opening, and nothing more. *)
Theorem share_opening_accepts_exactly `{Merlin} sts π :
  (len π ≤ usize_MAX)%Z →
  share_opening_verify_batch sts π = Ok () ↔
  is_usize (len sts) ∧
  Forall (λ st, st_protocol_version st = PROTOCOL_VERSION ∧ st_backend_id st = BACKEND_ID ∧
                st_commitment_coefficients st ≠ [] ∧ public_relation st) sts ∧
  Sorted receiver_before sts ∧
  ∃ os, π = stream_header SHARE_OPENING_PROOF_ID ++ concat (opening_bytes <$> os) ∧
    openings_accepted (openings_transcript sts) sts os.
Proof.
  intros Hu. rewrite share_opening_verify_Ok by done. unfold batch_checked.
  assert (Hall : Forall statement_checked sts ↔
    Forall (λ st, st_protocol_version st = PROTOCOL_VERSION ∧ st_backend_id st = BACKEND_ID ∧
                st_commitment_coefficients st ≠ [] ∧ public_relation st) sts).
  { apply Forall_iff. intros st. apply statement_checked_iff. }
  rewrite Hall. tauto.
Qed.

(** C21: completeness and termination of the share-opening prover.  For checked
    statements whose commitments the witnesses open, a generator that draws a
    nonzero scalar in every [n] draws, fuel for [n] draws and a proof that fits
    in memory, the prover returns a proof, which the verifier accepts, unless a
    challenge does not hash to a scalar. *)
Theorem share_opening_proves `{Merlin} {R} `{CryptoRngCore R} n fuel sts ws (rng : R) :
  batch_checked sts → Forall2 witness_opens sts ws →
  draws_nonzero (F:=Scalar) n rng → (n ≤ fuel)%nat →
  (len (stream_header SHARE_OPENING_PROOF_ID)
   + len sts * (2 * ELEMENT_REPR_BYTES + 2 * REPR_BYTES (F:=Scalar)) ≤ usize_MAX)%Z →
  (∃ π, (share_opening_prove_batch fuel sts ws rng).1 = Ok π ∧
        share_opening_verify_batch sts π = Ok ()) ∨
  (share_opening_prove_batch fuel sts ws rng).1 = Err (Some InvalidEncoding).
Proof.
  intros Hb Hw Hd Hn Hsize.
  destruct (share_opening_prove_batch fuel sts ws rng) as [res rng'] eqn:E. cbn [fst].
  pose proof (Forall2_length _ _ _ Hw) as Hlen.
  assert (Hres : res = Err (Some InvalidEncoding) ∨ ∃ π, res = Ok π).
  2: { destruct Hres as [->|[π ->]]; [by right|left]. exists π. split; [done|].
       by apply (share_opening_complete fuel sts ws rng rng'). }
  unfold share_opening_prove_batch in E. rewrite Hlen, Nat.eqb_refl in E. cbn [negb] in E.
  rewrite (proj2 (prover_new_Ok SHARE_OPENING_PROOF_ID _ proof_id_len) eq_refl) in E.
  set (s0 := MkProverProofStream _ _) in E.
  assert (Hobs : on_stream (R:=R) (observe_batch sts) (s0, rng)
    = (Ok (), (MkProverProofStream (openings_transcript sts) (stream_header SHARE_OPENING_PROOF_ID), rng))).
  { apply on_stream_Ok. split; [|done]. apply observe_batch_Ok. by split. }
  unfold mbind at 1, stateful_bind in E. rewrite Hobs in E.
  destruct (prove_openings_total n fuel ws (openings_transcript sts)
    (stream_header SHARE_OPENING_PROOF_ID) rng Hd Hn) as ([t1 p1] & r1 & [Ep|Ep]);
    rewrite Ep in E; [|left; by injection E as <- _].
  right. exists p1. apply (prove_openings_Ok _ sts) in Ep as (os & Hp & Hos); [|done].
  cbn [pps_proof] in Hp. cbn [mbind result_bind prover_finish pps_proof] in E.
  unfold allocated in E. rewrite bool_decide_eq_true_2 in E; [by injection E|].
  rewrite Hp. unfold len in Hsize |- *. rewrite length_app. pose proof (len_openings os) as Hl.
  unfold len in Hl.
  replace (length os) with (length sts) in Hl; [lia|].
  clear -Hos. revert Hos. generalize (openings_transcript sts). revert os.
  induction sts as [|st sts IH]; intros [|o os] t Hos; try done.
  destruct Hos as [_ Hos]. cbn [length]. f_equal. by eapply IH.
Qed.

(** C22: special soundness of the share-opening proof.  Run against two transcript
    functions (the prover rewound at its challenge query), two accepted proofs of a
    statement with the same nonce points and different challenges determine the
    dealer's secrets: the quotient of the differences of the share responses and of the
    challenges opens the share commitment and is a logarithm of the committed
    polynomial at the receiver; the one of the pad responses opens the pad commitment;
    and the encrypted share of the statement is the sum of the two. *)
Theorem share_opening_extracts (M1 M2 : Merlin) st o1 o2 c1 c2 :
  let proof o := stream_header SHARE_OPENING_PROOF_ID ++ opening_bytes o in
  (len (proof o1) ≤ usize_MAX)%Z → (len (proof o2) ≤ usize_MAX)%Z →
  share_opening_verify_batch (H1:=M1) [st] (proof o1) = Ok () →
  share_opening_verify_batch (H1:=M2) [st] (proof o2) = Ok () →
  op_share_nonce_point o1 = op_share_nonce_point o2 →
  op_pad_nonce_point o1 = op_pad_nonce_point o2 →
  opening_challenge_at (H1:=M1) o1 (openings_transcript (H3:=M1) [st]) = Ok c1 →
  opening_challenge_at (H1:=M2) o2 (openings_transcript (H3:=M2) [st]) = Ok c2 → c1 ≠ c2 →
  let share := (op_share_response o1 - op_share_response o2) * sinv (c1 - c2) in
  let pad := (op_pad_response o1 - op_pad_response o2) * sinv (c1 - c2) in
  st_share_commitment st = mul_generator share ∧ st_pad_commitment st = mul_generator pad ∧
  (∃ x, to_scalar (st_receiver st) = Ok x ∧
     meval (H0:=element_module) (st_commitment_coefficients st) x = mul_generator share) ∧
  st_encrypted_share st = share + pad.
Proof.
  intros proof Hu1 Hu2 Hv1 Hv2 HA HB Hc1 Hc2 Hc share pad.
  assert (Hrel : public_relation st).
  { apply (share_opening_verify_Ok (H3:=M1)) in Hv1 as [(_ & Hall & _) _]; [|done].
    inversion Hall as [|? ? Hst _]. by apply statement_checked_iff in Hst as (_ & _ & _ & ?). }
  apply (single_opening (H3:=M1)) in Hv1 as (c1' & Hc1' & Hs1 & Hp1); [|done].
  apply (single_opening (H3:=M2)) in Hv2 as (c2' & Hc2' & Hs2 & Hp2); [|done].
  rewrite Hc1 in Hc1'. rewrite Hc2 in Hc2'. injection Hc1' as <-. injection Hc2' as <-.
  rewrite HA in Hs1. rewrite HB in Hp1.
  assert (Hshare : st_share_commitment st = mul_generator share) by exact (schnorr_extract _ _ _ _ _ _ Hs1 Hs2 Hc).
  assert (Hpad : st_pad_commitment st = mul_generator pad) by exact (schnorr_extract _ _ _ _ _ _ Hp1 Hp2 Hc).
  destruct Hrel as (_ & Hpoly & Hsum). rewrite Hshare in Hpoly. rewrite Hshare, Hpad, <-mul_generator_add in Hsum.
  split; [done|]. split; [done|]. split; [done|]. by apply mul_generator_inj.
Qed.
End properties.

(** ** Witnesses *)
Definition tiny_opening_witness : EvrfWitness (H:=TinyGroup) :=
  MkEvrfWitness (H:=TinyGroup) (tiny 5) [tiny 42; tiny 11] (tiny 75) (tiny 6).
Definition tiny_opening : Opening (H:=TinyGroup) :=
  MkOpening (H:=TinyGroup) (tiny 61) (tiny 22) (tiny 23) (tiny 50).
Definition tiny_opening_proof : list byte :=
  to_be_bytes 4 38 ++ bstr "golden-evrf/prototype-share-opening/v3" ++ [x3d; x16; x17; x32].

Lemma tiny_opening_verifies :
  share_opening_verify_batch (H:=TinyGroup) (H1:=ToyMerlin) [tiny_statement] tiny_opening_proof = Ok ().
Proof. vm_refl. Qed.

Lemma share_opening_accepts_exactly_witness :
  share_opening_verify_batch (H:=TinyGroup) (H1:=ToyMerlin) [tiny_statement] tiny_opening_proof = Ok () ∧
  public_relation (H:=TinyGroup) tiny_statement.
Proof.
  split; [exact tiny_opening_verifies|].
  assert (Hu : (len tiny_opening_proof ≤ usize_MAX)%Z) by (vm_compute; congruence).
  destruct (proj1 (share_opening_accepts_exactly (H:=TinyGroup) (H3:=ToyMerlin) [tiny_statement]
    tiny_opening_proof Hu) tiny_opening_verifies) as (_ & Hall & _).
  inversion Hall as [|?? (_ & _ & _ & Hst) _]. exact Hst.
Defined.

Lemma tiny_batch_checked : batch_checked (H:=TinyGroup) [tiny_statement].
Proof.
  apply (share_opening_verify_Ok (H:=TinyGroup) (H3:=ToyMerlin) [tiny_statement] tiny_opening_proof);
    [vm_compute; congruence|exact tiny_opening_verifies].
Qed.

Lemma share_opening_proves_witness :
  (∃ π, (share_opening_prove_batch (H:=TinyGroup) (H1:=ToyMerlin) 1 [tiny_statement]
           [tiny_opening_witness] ()).1 = Ok π ∧
     share_opening_verify_batch (H:=TinyGroup) (H1:=ToyMerlin) [tiny_statement] π = Ok ()) ∨
  (share_opening_prove_batch (H:=TinyGroup) (H1:=ToyMerlin) 1 [tiny_statement]
     [tiny_opening_witness] ()).1 = Err (Some InvalidEncoding).
Proof.
  apply (share_opening_proves (H:=TinyGroup) (H3:=ToyMerlin) 1 1 [tiny_statement]
    [tiny_opening_witness] () tiny_batch_checked).
  - constructor; [split; vm_refl|constructor].
  - exact const_draws.
  - lia.
  - vm_compute. congruence.
Defined.

(** A transcript with a fixed challenge. *)
Definition flip_merlin : Merlin := {|
  Cycle.Transcript := Z;
  transcript_new := λ _, 0%Z;
  append_message := λ _ _ t, t;
  append_u64 := λ _ _ t, t;
  challenge_bytes := λ _ n t, (replicate n x01, t);
  TranscriptRngBuilder := Z;
  build_rng := id;
  rekey_with_witness_bytes := λ _ _ b, b;
  TranscriptRng := Z;
  transcript_rng := toy_rng;
  finalize := λ R rng r b, (b, r);
|}.
Definition tiny_reopening : Opening (H:=TinyGroup) :=
  MkOpening (H:=TinyGroup) (tiny 61) (tiny 22) (tiny 63) (tiny 92).

Lemma share_opening_extracts_witness :
  let proof o := stream_header SHARE_OPENING_PROOF_ID ++ opening_bytes (H:=TinyGroup) o in
  share_opening_verify_batch (H:=TinyGroup) (H1:=ToyMerlin) [tiny_statement] (proof tiny_opening) = Ok () ∧
  share_opening_verify_batch (H:=TinyGroup) (H1:=flip_merlin) [tiny_statement] (proof tiny_reopening) = Ok () ∧
  let share := (op_share_response tiny_opening - op_share_response tiny_reopening) * sinv (tiny 37 - tiny 44) in
  let pad := (op_pad_response tiny_opening - op_pad_response tiny_reopening) * sinv (tiny 37 - tiny 44) in
  share = tiny 75 ∧ pad = tiny 6 ∧
  st_share_commitment tiny_statement = mul_generator (GoldenGroup:=TinyGroup) share ∧
  st_pad_commitment tiny_statement = mul_generator (GoldenGroup:=TinyGroup) pad ∧
  st_encrypted_share tiny_statement = share + pad.
Proof.
  intros proof.
  assert (H1 : share_opening_verify_batch (H:=TinyGroup) (H1:=ToyMerlin) [tiny_statement]
    (proof tiny_opening) = Ok ()) by vm_refl.
  assert (H2 : share_opening_verify_batch (H:=TinyGroup) (H1:=flip_merlin) [tiny_statement]
    (proof tiny_reopening) = Ok ()) by vm_refl.
  split; [exact H1|]. split; [exact H2|]. intros share pad. split; [vm_refl|]. split; [vm_refl|].
  destruct (share_opening_extracts (H:=TinyGroup) ToyMerlin flip_merlin tiny_statement tiny_opening
    tiny_reopening (tiny 37) (tiny 44)) as (Hs & Hp & _ & He).
  - vm_compute. congruence.
  - vm_compute. congruence.
  - exact H1.
  - exact H2.
  - reflexivity.
  - reflexivity.
  - vm_refl.
  - vm_refl.
  - intros E%(f_equal tiny_val). vm_compute in E. discriminate.
  - split; [exact Hs|]. split; [exact Hp|exact He].
Defined.
