(* ===== verification/CircuitLogic.v ===== *)
(** * Reasoning about circuits

    Circuits are sequenced with a monad of fallible programs over the interface of
    [ConstraintSystem].  Three structural readings of a circuit say what every
    satisfying assignment of its constraints fulfils, what values an honest prover
    gives its variables, and how many multipliers it takes; each is shown to
    agree with running the circuit on the verifier or on the prover. *)

From Stdlib Require Import ZArith Lia Field Strings.Byte.
From stdpp Require Import prelude strings list_numbers.
From S2P Require Import Prelude CoreError Group Algebra TestSupport Cycle BpUtil InnerProduct ConstraintSystem Generators R1csProof Prover Verifier R1csSync.

Local Open Scope golden_scope.

(** ** Sequencing *)
Section monad.
Context {CY : Cycle} {ME : Merlin}.

Fixpoint circuit_bind {A B} (c : circuit A) (f : A → circuit B) : circuit B :=
  match c with
  | Done a => f a
  | WithTranscript g k => WithTranscript g (λ x, circuit_bind (k x) f)
  | Multiply l r k => Multiply l r (λ vars, circuit_bind (k vars) f)
  | Allocate o k => Allocate o (λ v, circuit_bind (k v) f)
  | AllocateMultiplier o k => AllocateMultiplier o (λ vars, circuit_bind (k vars) f)
  | ReadMetrics k => ReadMetrics (λ m, circuit_bind (k m) f)
  | Constrain lc k => Constrain lc (circuit_bind k f)
  end.

(** What a function over [&mut impl ConstraintSystem] that may fail does. *)
Definition gadget (A : Type) : Type := circuit (result R1CSError A).
Definition gret {A} (a : A) : gadget A := Done (Ok a).
#[export] Instance gadget_bind : MBind gadget := λ A B f m,
  circuit_bind m (λ r, match r with Ok a => f a | Err e => Done (Err e) end).
Definition fails {A} (e : R1CSError) : gadget A := Done (Err e).
Definition require (b : bool) (e : R1CSError) : gadget unit := if b then gret tt else fails e.

(** The methods of the interface. *)
Definition constrain (lc : LinearCombination CScalar) : gadget unit := Constrain lc (Done (Ok tt)).
Definition multiply (left_ right_ : LinearCombination CScalar)
    : gadget (CSVariable * CSVariable * CSVariable) := Multiply left_ right_ (λ vars, Done (Ok vars)).
Definition allocate (assignment : option CScalar) : gadget CSVariable := Allocate assignment Done.
Definition allocate_multiplier (assignments : option (CScalar * CScalar))
    : gadget (CSVariable * CSVariable * CSVariable) := AllocateMultiplier assignments Done.

(** A loop over a list that threads a state. *)
Fixpoint gfold {St A} (f : St → A → gadget St) (s : St) (l : list A) : gadget St :=
  match l with
  | [] => gret s
  | a :: l => s ← f s a; gfold f s l
  end.

Lemma run_circuit_bind {St A B} `{!ConstraintSystem St} (c : circuit A) (f : A → circuit B) st :
  run_circuit (circuit_bind c f) st = '(a, st) ← run_circuit c st; run_circuit (f a) st.
Proof.
  revert st. induction c as [a|X g k IH|l r k IH|o k IH|o k IH|k IH|lc k IH]; intros st;
    cbn [circuit_bind run_circuit]; try done.
  - destruct (cs_transcript g st) as [x st']. apply IH.
  - destruct (cs_multiply l r st) as [[vars st']|]; [apply IH|done].
  - destruct (cs_allocate o st) as [[v st']|]; [apply IH|done].
  - destruct (cs_allocate_multiplier o st) as [vars st']. apply IH.
Qed.

Lemma run_gadget_bind {St A B} `{!ConstraintSystem St} (m : gadget A) (f : A → gadget B) (st st' : St) b :
  run_circuit (m ≫= f) st = Some (Ok b, st') →
  ∃ a st1, run_circuit m st = Some (Ok a, st1) ∧ run_circuit (f a) st1 = Some (Ok b, st').
Proof.
  intros Hrun. unfold mbind, gadget_bind in Hrun. rewrite run_circuit_bind in Hrun.
  apply bind_Some in Hrun as ([[a|e] st1] & H1 & H2); [by exists a, st1|done].
Qed.

(** The circuits of a prover and of a verifier: the same calls, the prover with an
    assignment for every allocated variable, and related results. *)
Inductive similar {A A'} (R : A → A' → Prop) : circuit A → circuit A' → Prop :=
  | similar_done a a' : R a a' → similar R (Done a) (Done a')
  | similar_transcript X (f : Transcript → X * Transcript) k k' :
      (∀ x, similar R (k x) (k' x)) → similar R (WithTranscript f k) (WithTranscript f k')
  | similar_multiply l r k k' :
      (∀ vars, similar R (k vars) (k' vars)) → similar R (Multiply l r k) (Multiply l r k')
  | similar_allocate w o k k' :
      (∀ v, similar R (k (Ok v)) (k' (Ok v))) → similar R (Allocate (Some w) k) (Allocate o k')
  | similar_allocate_multiplier lr o k k' :
      (∀ vars, similar R (k (Ok vars)) (k' (Ok vars))) →
      similar R (AllocateMultiplier (Some lr) k) (AllocateMultiplier o k')
  | similar_metrics k k' :
      (∀ m, similar R (k m) (k' m)) → similar R (ReadMetrics k) (ReadMetrics k')
  | similar_constrain lc k k' : similar R k k' → similar R (Constrain lc k) (Constrain lc k').

Lemma similar_same {A} (c c' : circuit A) : similar eq c c' → same_circuit c c'.
Proof. induction 1; subst; constructor; auto. Qed.

Lemma similar_circuit_bind {A A' B B'} (R : A → A' → Prop) (R' : B → B' → Prop)
    (c : circuit A) (c' : circuit A') (f : A → circuit B) (f' : A' → circuit B') :
  similar R c c' → (∀ a a', R a a' → similar R' (f a) (f' a')) →
  similar R' (circuit_bind c f) (circuit_bind c' f').
Proof. intros Hc Hf. induction Hc; cbn [circuit_bind]; try constructor; auto. Qed.

Definition gsimilar {A A'} (R : A → A' → Prop) (m : gadget A) (m' : gadget A') : Prop :=
  similar (λ r r', match r, r' with
                   | Ok a, Ok a' => R a a' | Err e, Err e' => e = e' | _, _ => False end) m m'.

Lemma gsimilar_bind {A A' B B'} (R : A → A' → Prop) (R' : B → B' → Prop)
    (m : gadget A) (m' : gadget A') (f : A → gadget B) (f' : A' → gadget B') :
  gsimilar R m m' → (∀ a a', R a a' → gsimilar R' (f a) (f' a')) →
  gsimilar R' (m ≫= f) (m' ≫= f').
Proof.
  intros Hm Hf. eapply similar_circuit_bind; [exact Hm|].
  intros [a|e] [a'|e'] HR; try done; [by apply Hf|by constructor].
Qed.
Lemma gsimilar_same {A} (m m' : gadget A) : gsimilar eq m m' → same_circuit m m'.
Proof.
  intros Hm. apply similar_same. revert Hm. unfold gsimilar. 
  induction 1; constructor; auto. destruct a, a'; naive_solver.
Qed.
Lemma gsimilar_ret {A A'} (R : A → A' → Prop) a a' : R a a' → gsimilar R (gret a) (gret a').
Proof. by constructor. Qed.
Lemma gsimilar_fails {A A'} (R : A → A' → Prop) e : gsimilar R (fails e) (fails e).
Proof. by constructor. Qed.
Lemma gsimilar_constrain lc : gsimilar eq (constrain lc) (constrain lc).
Proof. by repeat constructor. Qed.
Lemma gsimilar_multiply l r : gsimilar eq (multiply l r) (multiply l r).
Proof. by repeat constructor. Qed.
Lemma gsimilar_allocate w o : gsimilar eq (allocate (Some w)) (allocate o).
Proof. by repeat constructor. Qed.
Lemma gsimilar_allocate_multiplier w o :
  gsimilar eq (allocate_multiplier (Some w)) (allocate_multiplier o).
Proof. by repeat constructor. Qed.
Lemma gsimilar_gfold {St St' A A'} (R : St → St' → Prop) (RA : A → A' → Prop)
    (f : St → A → gadget St) (f' : St' → A' → gadget St') s s' l l' :
  R s s' → Forall2 RA l l' →
  (∀ s s' a a', R s s' → RA a a' → gsimilar R (f s a) (f' s' a')) →
  gsimilar R (gfold f s l) (gfold f' s' l').
Proof.
  intros Hs Hl Hf. revert s s' Hs. induction Hl as [|a a' l l' Ha _ IH]; intros s s' Hs; cbn [gfold].
  - by apply gsimilar_ret.
  - eapply gsimilar_bind; [by apply Hf|]. intros t t' Ht. by apply IH.
Qed.
End monad.

(** One call of the interface on both sides. *)
Ltac similar_step :=
  eapply gsimilar_bind;
  [first [apply gsimilar_constrain | apply gsimilar_multiply | apply gsimilar_allocate
         | apply gsimilar_allocate_multiplier]|].

(** ** Satisfying assignments *)
Section soundness.
Context {CY : Cycle} {CL : CycleLaws} {ME : Merlin}.
Add Field soundness_field : (scalar_field_theory (F:=CScalar)).
Implicit Types (σ : CSVariable → CScalar) (lc : LinearCombination CScalar).

(** [σ] satisfies the constraints and the multipliers of the verifier. *)
Record satisfies σ (V : Verifier) : Prop := MkSatisfies {
  sat_one : σ One = 1;
  sat_constraints : Forall (λ lc, lc_value σ lc = 0) (v_constraints (v_core V));
  sat_multipliers i : (i < num_vars (v_core V))%nat →
    σ (MultiplierLeft i) * σ (MultiplierRight i) = σ (MultiplierOutput i);
}.

Fixpoint implies {A} σ (c : circuit A) (Q : A → Prop) : Prop :=
  match c with
  | Done a => Q a
  | WithTranscript _ k => ∀ x, implies σ (k x) Q
  | Multiply l r k => ∀ vl vr vo,
      σ vl = lc_value σ l → σ vr = lc_value σ r → σ vo = σ vl * σ vr →
      implies σ (k (vl, vr, vo)) Q
  | Allocate _ k => ∀ v, implies σ (k (Ok v)) Q
  | AllocateMultiplier _ k => ∀ vl vr vo,
      σ vo = σ vl * σ vr → implies σ (k (Ok (vl, vr, vo))) Q
  | ReadMetrics k => ∀ m, implies σ (k m) Q
  | Constrain lc k => lc_value σ lc = 0 → implies σ k Q
  end.

(** What the result of a gadget fulfils, if it has one. *)
Definition gimplies {A} σ (m : gadget A) (Q : A → Prop) : Prop :=
  implies σ m (λ r, ∀ a, r = Ok a → Q a).

Lemma implies_bind {A B} σ (c : circuit A) (f : A → circuit B) Q :
  implies σ c (λ a, implies σ (f a) Q) → implies σ (circuit_bind c f) Q.
Proof. induction c; cbn [circuit_bind implies]; auto. Qed.

Lemma implies_mono {A} σ (c : circuit A) (Q Q' : A → Prop) :
  implies σ c Q → (∀ a, Q a → Q' a) → implies σ c Q'.
Proof. intros Hc HQ. induction c; cbn [implies] in *; auto. Qed.

Lemma gimplies_mono {A} σ (m : gadget A) (Q Q' : A → Prop) :
  gimplies σ m Q → (∀ a, Q a → Q' a) → gimplies σ m Q'.
Proof. intros Hm HQ. eapply implies_mono; [exact Hm|]. intros r Hr a ->. auto. Qed.

Lemma implies_trivial {A} σ (c : circuit A) (Q : A → Prop) : (∀ a, Q a) → implies σ c Q.
Proof. intros HQ. induction c; cbn [implies]; auto. Qed.
Lemma gimplies_trivial {A} σ (m : gadget A) (Q : A → Prop) : (∀ a, Q a) → gimplies σ m Q.
Proof. intros HQ. apply implies_trivial. intros r a _. apply HQ. Qed.

Lemma gimplies_bind {A B} σ (m : gadget A) (f : A → gadget B) Q R :
  gimplies σ m Q → (∀ a, Q a → gimplies σ (f a) R) → gimplies σ (m ≫= f) R.
Proof.
  intros Hm Hf. apply implies_bind. eapply implies_mono; [exact Hm|].
  intros [a|e] HQ; [by apply Hf, HQ|]. by intros a.
Qed.

Lemma gimplies_ret {A} σ (a : A) (Q : A → Prop) : Q a → gimplies σ (gret a) Q.
Proof. by intros HQ b [= <-]. Qed.
Lemma gimplies_fails {A} σ e (Q : A → Prop) : gimplies σ (fails e) Q.
Proof. by intros a. Qed.
Lemma gimplies_require σ b e (Q : unit → Prop) : (b = true → Q tt) → gimplies σ (require b e) Q.
Proof. destruct b; intros HQ; [by apply gimplies_ret, HQ|apply gimplies_fails]. Qed.
Lemma gimplies_constrain σ lc : gimplies σ (constrain lc) (λ _, lc_value σ lc = 0).
Proof. by intros Hlc a [= <-]. Qed.
Lemma gimplies_multiply σ l r :
  gimplies σ (multiply l r) (λ '(vl, vr, vo),
    σ vl = lc_value σ l ∧ σ vr = lc_value σ r ∧ σ vo = σ vl * σ vr).
Proof. by intros vl vr vo Hl Hr Ho a [= <-]. Qed.
Lemma gimplies_allocate σ o : gimplies σ (allocate o) (λ _, True).
Proof. by intros v a [= <-]. Qed.
Lemma gimplies_allocate_multiplier σ o :
  gimplies σ (allocate_multiplier o) (λ '(vl, vr, vo), σ vo = σ vl * σ vr).
Proof. by intros vl vr vo Ho a [= <-]. Qed.

(** A loop whose body keeps an invariant of the items seen and the state. *)
Lemma gimplies_gfold_from {St A} σ (I : list A → St → Prop) (f : St → A → gadget St) s seen todo :
  I seen s →
  (∀ l1 a l2 s, seen ++ todo = l1 ++ a :: l2 → I l1 s → gimplies σ (f s a) (I (l1 ++ [a]))) →
  gimplies σ (gfold f s todo) (I (seen ++ todo)).
Proof.
  revert s seen. induction todo as [|a todo IH]; intros s seen H0 Hf; cbn [gfold].
  - rewrite app_nil_r. by apply gimplies_ret.
  - eapply gimplies_bind; [by apply (Hf seen a todo)|]. intros s' Hs'.
    assert (E : seen ++ a :: todo = (seen ++ [a]) ++ todo) by by rewrite <-app_assoc.
    rewrite E in Hf |- *. by apply IH.
Qed.

Lemma gimplies_gfold {St A} σ (I : list A → St → Prop) (f : St → A → gadget St) s l :
  I [] s →
  (∀ l1 a l2 s, l = l1 ++ a :: l2 → I l1 s → gimplies σ (f s a) (I (l1 ++ [a]))) →
  gimplies σ (gfold f s l) (I l).
Proof. apply (gimplies_gfold_from σ I f s [] l). Qed.

Lemma satisfies_new_constraint σ lc V :
  satisfies σ (cs_constrain lc V) → satisfies σ V ∧ lc_value σ lc = 0.
Proof.
  intros [H1 Hc Hm]. cbn in Hc. apply Forall_app in Hc as [Hc Hlc].
  split; [by split|]. exact (proj1 (Forall_singleton _ _) Hlc).
Qed.

Lemma lc_value_link σ lc v :
  lc_value σ (lc ++ [(v, - (1))]) = 0 → σ v = lc_value σ lc.
Proof.
  rewrite lc_value_app. cbn. intros E.
  rewrite <-(sadd_0_r (σ v)), <-E. ring.
Qed.

(** Running the circuit on the verifier only adds constraints and multipliers. *)
Lemma multiply_satisfies σ l r V vars V' :
  cs_multiply l r V = Some (vars, V') → satisfies σ V' →
  satisfies σ V ∧ σ vars.1.1 = lc_value σ l ∧ σ vars.1.2 = lc_value σ r ∧
  σ vars.2 = σ vars.1.1 * σ vars.1.2.
Proof.
  intros [= <- <-] [H1 Hcs Hm]. cbn in Hcs, Hm |- *.
  apply Forall_app in Hcs as [Hcs Hr]. apply Forall_app in Hcs as [Hcs Hl].
  apply (proj1 (Forall_singleton _ _)), lc_value_link in Hl, Hr.
  split; [split; [done|done|intros j Hj; apply Hm; lia]|].
  split; [done|]. split; [done|]. symmetry. apply Hm. lia.
Qed.

Lemma allocate_satisfies σ o V r V' :
  cs_allocate o V = Some (r, V') → satisfies σ V' → satisfies σ V ∧ ∃ v, r = Ok v.
Proof.
  intros E [H1 Hcs Hm]. cbn in E. unfold verifier_allocate in E.
  destruct (v_pending _); injection E as <- <-; cbn in Hcs, Hm;
    (split; [split; [done|done|intros j Hj; apply Hm; lia]|by eexists]).
Qed.

Lemma allocate_multiplier_satisfies σ o V r V' :
  cs_allocate_multiplier o V = (r, V') → satisfies σ V' →
  satisfies σ V ∧ ∃ vl vr vo, r = Ok (vl, vr, vo) ∧ σ vo = σ vl * σ vr.
Proof.
  intros [= <- <-] [H1 Hcs Hm]. cbn in Hcs, Hm.
  split; [split; [done|done|intros j Hj; apply Hm; lia]|].
  do 3 eexists. split; [reflexivity|]. symmetry. apply Hm. lia.
Qed.

Lemma transcript_satisfies σ {X} (g : Transcript → X * Transcript) V x V' :
  cs_transcript g V = (x, V') → satisfies σ V' → satisfies σ V.
Proof. cbn. destruct (g _). intros [= _ <-] []. by split. Qed.

Lemma run_satisfies {A} σ (c : circuit A) (V : Verifier) a V' :
  run_circuit c V = Some (a, V') → satisfies σ V' → satisfies σ V.
Proof.
  intros Hrun Hsat. revert V Hrun.
  induction c as [a0|X g k IH|l r k IH|o k IH|o k IH|k IH|lc k IH]; intros V Hrun;
    cbn [run_circuit] in Hrun.
  - by injection Hrun as <- <-.
  - destruct (cs_transcript g V) as [x V1] eqn:E. by eapply transcript_satisfies; [|eapply IH].
  - apply bind_Some in Hrun as ([vars V1] & E & Hrun). by eapply multiply_satisfies; [|eapply IH].
  - apply bind_Some in Hrun as ([v V1] & E & Hrun). by eapply allocate_satisfies; [|eapply IH].
  - destruct (cs_allocate_multiplier o V) as [vars V1] eqn:E.
    by eapply allocate_multiplier_satisfies; [|eapply IH].
  - by eapply IH.
  - by eapply satisfies_new_constraint, IH.
Qed.

(** An assignment that satisfies the constraints after the circuit has run fulfils
    what the circuit implies. *)
Lemma implies_sound {A} σ (c : circuit A) Q (V : Verifier) a V' :
  implies σ c Q → run_circuit c V = Some (a, V') → satisfies σ V' → Q a.
Proof.
  intros Hc Hrun Hsat. revert V Hc Hrun.
  induction c as [a0|X g k IH|l r k IH|o k IH|o k IH|k IH|lc k IH]; intros V Hc Hrun;
    cbn [run_circuit implies] in *.
  - by injection Hrun as <- <-.
  - destruct (cs_transcript g V) as [x V1]. by eapply IH.
  - apply bind_Some in Hrun as ([[[vl vr] vo] V1] & E & Hrun).
    pose proof (run_satisfies σ _ _ _ _ Hrun Hsat) as H1.
    destruct (multiply_satisfies _ _ _ _ _ _ E H1) as (_ & Hl & Hr & Ho).
    eapply IH; [|exact Hrun]. by apply Hc.
  - apply bind_Some in Hrun as ([v V1] & E & Hrun).
    pose proof (run_satisfies σ _ _ _ _ Hrun Hsat) as H1.
    destruct (allocate_satisfies _ _ _ _ _ E H1) as (_ & v' & ->).
    eapply IH; [|exact Hrun]. apply Hc.
  - destruct (cs_allocate_multiplier o V) as [vars V1] eqn:E.
    pose proof (run_satisfies σ _ _ _ _ Hrun Hsat) as H1.
    destruct (allocate_multiplier_satisfies _ _ _ _ _ E H1) as (_ & vl & vr & vo & -> & Ho).
    eapply IH; [|exact Hrun]. by apply Hc.
  - by eapply IH.
  - pose proof (run_satisfies σ _ _ _ _ Hrun Hsat) as H1.
    apply satisfies_new_constraint in H1 as [_ Hlc]. eapply IH; [|exact Hrun]. by apply Hc.
Qed.
Lemma gimplies_sound {A} σ (m : gadget A) (Q : A → Prop) (V : Verifier) a V' :
  gimplies σ m Q → run_circuit m V = Some (Ok a, V') → satisfies σ V' → Q a.
Proof. intros Hm Hrun Hsat. by apply (implies_sound _ _ _ _ _ _ Hm Hrun Hsat). Qed.
End soundness.

(** ** Honest assignments *)
Section completeness.
Context {CY : Cycle} {CL : CycleLaws} {ME : Merlin}.
Add Field completeness_field : (scalar_field_theory (F:=CScalar)).

(** The values known of some variables. *)
Definition env : Type := CSVariable → CScalar → Prop.
Implicit Types (Γ : env) (lc : LinearCombination CScalar).
Definition extends Γ Γ' : Prop := ∀ v x, Γ v x → Γ' v x.
Lemma extends_trans Γ1 Γ2 Γ3 : extends Γ1 Γ2 → extends Γ2 Γ3 → extends Γ1 Γ3.
Proof. intros H12 H23 v x Hv. by apply H23, H12. Qed.

#[export] Instance extends_preorder : PreOrder extends.
Proof. split; [by intros Γ v x|]. intros Γ1 Γ2 Γ3 H12 H23 v x ?. auto. Qed.

Inductive lc_known Γ : LinearCombination CScalar → CScalar → Prop :=
  | known_nil : lc_known Γ [] 0
  | known_cons v c lc x y : Γ v x → lc_known Γ lc y → lc_known Γ ((v, c) :: lc) (c * x + y).

Fixpoint produces {A} Γ (c : circuit A) (Q : env → A → Prop) : Prop :=
  match c with
  | Done a => Q Γ a
  | WithTranscript _ k => ∀ x, produces Γ (k x) Q
  | Multiply l r k => ∃ x y, lc_known Γ l x ∧ lc_known Γ r y ∧
      ∀ Γ' vl vr vo, extends Γ Γ' → Γ' vl x → Γ' vr y → Γ' vo (x * y) →
        produces Γ' (k (vl, vr, vo)) Q
  | Allocate o k => ∃ x, o = Some x ∧
      ∀ Γ' v, extends Γ Γ' → Γ' v x → produces Γ' (k (Ok v)) Q
  | AllocateMultiplier o k => ∃ x y, o = Some (x, y) ∧
      ∀ Γ' vl vr vo, extends Γ Γ' → Γ' vl x → Γ' vr y → Γ' vo (x * y) →
        produces Γ' (k (Ok (vl, vr, vo))) Q
  | ReadMetrics k => ∀ m, produces Γ (k m) Q
  | Constrain lc k => lc_known Γ lc 0 ∧ produces Γ k Q
  end.

(** A gadget that returns, with values for its result. *)
Definition gproduces {A} Γ (m : gadget A) (Q : env → A → Prop) : Prop :=
  produces Γ m (λ Γ' r, ∃ a, r = Ok a ∧ extends Γ Γ' ∧ Q Γ' a).

(** *** Linear combinations *)
Lemma lc_known_mono Γ Γ' lc x : extends Γ Γ' → lc_known Γ lc x → lc_known Γ' lc x.
Proof. intros HΓ. induction 1; constructor; auto. Qed.
Lemma lc_known_app Γ a b x y : lc_known Γ a x → lc_known Γ b y → lc_known Γ (a ++ b) (x + y).
Proof.
  induction 1 as [|v c a x x' Hv _ IH]; intros Hb; cbn [app].
  - by replace (0 + y) with y by ring.
  - replace (c * x + x' + y) with (c * x + (x' + y)) by ring. constructor; auto.
Qed.
Lemma known_add Γ a b x y : lc_known Γ a x → lc_known Γ b y → lc_known Γ (lc_add a b) (x + y).
Proof. apply lc_known_app. Qed.
Lemma known_neg Γ a x : lc_known Γ a x → lc_known Γ (lc_neg a) (- x).
Proof.
  induction 1 as [|v c a x x' Hv _ IH]; [replace (- 0) with (0 : CScalar) by ring; constructor|].
  replace (- (c * x + x')) with (- c * x + - x') by ring. by constructor.
Qed.
Lemma known_sub Γ a b x y : lc_known Γ a x → lc_known Γ b y → lc_known Γ (lc_sub a b) (x - y).
Proof.
  intros Ha Hb. rewrite lc_sub_add. replace (x - y) with (x + - y) by ring.
  apply known_add; [done|by apply known_neg].
Qed.
Lemma known_mul Γ a x c : lc_known Γ a x → lc_known Γ (lc_mul a c) (x * c).
Proof.
  induction 1 as [|v d a x x' Hv _ IH]; [replace (0 * c) with (0 : CScalar) by ring; constructor|].
  replace ((d * x + x') * c) with (d * c * x + x' * c) by ring. by constructor.
Qed.
Lemma known_eq Γ a x y : lc_known Γ a x → x = y → lc_known Γ a y.
Proof. by intros ? <-. Qed.
Lemma known_variable Γ v x : Γ v x → lc_known Γ (lc_from_variable v) x.
Proof. intros Hv. eapply known_eq; [repeat constructor; done|ring]. Qed.
Lemma known_scalar Γ s : Γ One 1 → lc_known Γ (lc_from_scalar s) s.
Proof. intros Hv. eapply known_eq; [repeat constructor; done|ring]. Qed.
Lemma known_var_mul Γ v x c : Γ v x → lc_known Γ (var_mul v c) (x * c).
Proof. intros Hv. eapply known_eq; [repeat constructor; done|ring]. Qed.
Lemma known_default Γ : lc_known Γ lc_default 0.
Proof. constructor. Qed.

(** *** Rules *)
Lemma produces_mono {A} Γ (c : circuit A) (Q Q' : env → A → Prop) :
  produces Γ c Q → (∀ Γ' a, Q Γ' a → Q' Γ' a) → produces Γ c Q'.
Proof.
  intros Hc HQ. revert Γ Hc. induction c; intros Γ Hc; cbn [produces] in *; naive_solver.
Qed.

Lemma produces_bind {A B} Γ (c : circuit A) (f : A → circuit B) Q :
  produces Γ c (λ Γ' a, produces Γ' (f a) Q) → produces Γ (circuit_bind c f) Q.
Proof.
  revert Γ. induction c; intros Γ Hc; cbn [produces circuit_bind] in *; naive_solver.
Qed.

Lemma gproduces_bind {A B} Γ (m : gadget A) (f : A → gadget B) Q R :
  gproduces Γ m Q → (∀ Γ' a, extends Γ Γ' → Q Γ' a → gproduces Γ' (f a) R) →
  gproduces Γ (m ≫= f) R.
Proof.
  intros Hm Hf. apply produces_bind. eapply produces_mono; [exact Hm|].
  intros Γ' r (a & -> & HΓ & HQ). eapply produces_mono; [by apply Hf|].
  intros Γ'' r (b & -> & HΓ' & HR). exists b. split; [done|]. split; [by etransitivity|done].
Qed.
Lemma gproduces_mono {A} Γ (m : gadget A) (Q Q' : env → A → Prop) :
  gproduces Γ m Q → (∀ Γ' a, extends Γ Γ' → Q Γ' a → Q' Γ' a) → gproduces Γ m Q'.
Proof.
  intros Hm HQ. eapply produces_mono; [exact Hm|].
  intros Γ' r (a & -> & HΓ & Ha). exists a. auto.
Qed.
Lemma gproduces_ret {A} Γ (a : A) (Q : env → A → Prop) : Q Γ a → gproduces Γ (gret a) Q.
Proof. intros HQ. by exists a. Qed.
Lemma gproduces_require Γ b e (Q : env → unit → Prop) :
  b = true → Q Γ tt → gproduces Γ (require b e) Q.
Proof. intros -> HQ. by exists tt. Qed.
Lemma gproduces_constrain Γ lc (Q : env → unit → Prop) :
  lc_known Γ lc 0 → Q Γ tt → gproduces Γ (constrain lc) Q.
Proof. intros Hlc HQ. split; [done|]. by exists tt. Qed.
Lemma gproduces_multiply Γ l r x y Q :
  lc_known Γ l x → lc_known Γ r y →
  (∀ Γ' vl vr vo, extends Γ Γ' → Γ' vl x → Γ' vr y → Γ' vo (x * y) → Q Γ' (vl, vr, vo)) →
  gproduces Γ (multiply l r) Q.
Proof.
  intros Hl Hr HQ. exists x, y. split; [done|]. split; [done|].
  intros Γ' vl vr vo HΓ ???. exists (vl, vr, vo). auto.
Qed.
Lemma gproduces_allocate Γ x (Q : env → CSVariable → Prop) :
  (∀ Γ' v, extends Γ Γ' → Γ' v x → Q Γ' v) → gproduces Γ (allocate (Some x)) Q.
Proof.
  intros HQ. exists x. split; [done|]. intros Γ' v HΓ Hv. exists v. auto.
Qed.
Lemma gproduces_allocate_multiplier Γ x y Q :
  (∀ Γ' vl vr vo, extends Γ Γ' → Γ' vl x → Γ' vr y → Γ' vo (x * y) → Q Γ' (vl, vr, vo)) →
  gproduces Γ (allocate_multiplier (Some (x, y))) Q.
Proof.
  intros HQ. exists x, y. split; [done|]. intros Γ' vl vr vo HΓ ???. exists (vl, vr, vo). auto.
Qed.

Lemma gproduces_gfold_from {St A} Γ (I : list A → env → St → Prop) (f : St → A → gadget St)
    s seen todo :
  I seen Γ s →
  (∀ l1 a l2 Γ' s, seen ++ todo = l1 ++ a :: l2 → extends Γ Γ' → I l1 Γ' s →
     gproduces Γ' (f s a) (I (l1 ++ [a]))) →
  gproduces Γ (gfold f s todo) (I (seen ++ todo)).
Proof.
  revert Γ s seen. induction todo as [|a todo IH]; intros Γ s seen H0 Hf; cbn [gfold].
  - rewrite app_nil_r. by apply gproduces_ret.
  - eapply gproduces_bind; [exact (Hf seen a todo Γ s eq_refl (reflexivity Γ) H0)|].
    intros Γ' s' HΓ Hs'.
    assert (E : seen ++ a :: todo = (seen ++ [a]) ++ todo) by by rewrite <-app_assoc.
    rewrite E in Hf |- *. apply IH; [done|]. intros l1 b l2 Γ'' s'' El HΓ'. apply (Hf _ _ l2); [done|].
    by etransitivity.
Qed.
Lemma gproduces_gfold {St A} Γ (I : list A → env → St → Prop) (f : St → A → gadget St) s l :
  I [] Γ s →
  (∀ l1 a l2 Γ' s, l = l1 ++ a :: l2 → extends Γ Γ' → I l1 Γ' s →
     gproduces Γ' (f s a) (I (l1 ++ [a]))) →
  gproduces Γ (gfold f s l) (I l).
Proof. apply (gproduces_gfold_from Γ I f s [] l). Qed.
End completeness.

#[export] Hint Resolve known_add known_sub known_mul known_neg known_variable known_scalar
  known_var_mul known_default : golden.

(** *** Running the circuit on the prover *)
Section honest_run.
Context {CY : Cycle} {CL : CycleLaws} {ME : Merlin}.
Add Field honest_run_field : (scalar_field_theory (F:=CScalar)).

(** A multiplier that waits for its right input has no values there yet. *)
Definition settled (P : ProverCore) (v : CSVariable) : Prop :=
  match v with
  | MultiplierRight i | MultiplierOutput i => p_pending P ≠ Some i
  | _ => True
  end.
Definition known_by (P : ProverCore) : env := λ v x,
  eval_variable (p_secrets P) v = Some x ∧ settled P v.
Record honest (P : ProverCore) : Prop := MkHonest {
  honest_wf : core_wf P;
  honest_constraints : Forall (λ lc, lc_known (known_by P) lc 0) (p_constraints P);
}.

Lemma known_eval P lc x : lc_known (known_by P) lc x → prover_eval P lc = Some x.
Proof.
  unfold prover_eval.
  assert (Hacc : ∀ acc, lc_known (known_by P) lc x →
    fold_option (λ acc '(var, coeff), val ← eval_variable (p_secrets P) var; Some (acc + coeff * val))
      acc lc = Some (acc + x)).
  2: { intros Hk. rewrite (Hacc 0 Hk). f_equal. ring. }
  intros acc Hk. revert acc. induction Hk as [|v c lc x y [Hv _] _ IH]; intros acc.
  - cbn. f_equal. ring.
  - cbn [fold_option]. rewrite Hv. cbn [mbind option_bind]. rewrite IH. f_equal. ring.
Qed.

Lemma known_value P lc x : lc_known (known_by P) lc x → lc_value (assignment (p_secrets P)) lc = x.
Proof.
  induction 1 as [|v c lc x y [Hv _] _ IH]; [done|]. cbn [lc_value foldr].
  change (foldr _ 0 lc) with (lc_value (assignment (p_secrets P)) lc). rewrite IH.
  unfold assignment. by rewrite Hv.
Qed.

Lemma honest_satisfied P : honest P → satisfied P.
Proof.
  intros [_ Hc]. eapply Forall_impl; [exact Hc|]. intros lc Hlc. by apply known_value.
Qed.

Lemma settled_fresh P v x i :
  core_wf P → eval_variable (p_secrets P) v = Some x → i = length (a_L (p_secrets P)) →
  v ≠ MultiplierRight i ∧ v ≠ MultiplierOutput i.
Proof.
  intros Hwf Hv ->. pose proof (wf_R _ Hwf) as HR. pose proof (wf_O _ Hwf) as HO.
  split; intros ->; cbn in Hv; apply lookup_lt_Some in Hv; rewrite ?HO, ?length_zip_with in Hv; lia.
Qed.

(** A new multiplier settles its three variables and changes no other. *)
Lemma push_known P l r o constraints t pending :
  core_wf P → (∀ i, pending = Some i → p_pending P = Some i ∨ i = length (a_L (p_secrets P))) →
  let P' := MkProverCore t (p_pc_gens P) constraints (p_secrets (push_multiplier P l r o)) pending in
  extends (known_by P) (known_by P').
Proof.
  intros Hwf Hp P' v x [Hv Hs].
  pose proof (settled_fresh P v x _ Hwf Hv eq_refl) as [HR HO]. split.
  - destruct v; cbn in *; try done; by apply lookup_app_l_Some.
  - destruct v; cbn in *; try done; intros Hpend; destruct (Hp i Hpend) as [E| ->]; try done.
Qed.

Lemma push_vars P l r o constraints t pending :
  core_wf P → pending ≠ Some (length (a_L (p_secrets P))) →
  let P' := MkProverCore t (p_pc_gens P) constraints (p_secrets (push_multiplier P l r o)) pending in
  let '(vl, vr, vo) := prover_vars P in
  known_by P' vl l ∧ known_by P' vr r ∧ known_by P' vo o.
Proof.
  intros Hwf Hp P'. pose proof (wf_R _ Hwf) as HR.
  assert (HO : length (a_O (p_secrets P)) = length (a_L (p_secrets P))).
  { rewrite (wf_O _ Hwf), length_zip_with. lia. }
  split_and!; (split; [cbn; by rewrite lookup_app_r, Nat.sub_diag by lia|]); cbn; try done; congruence.
Qed.

Lemma extends_constraints P P' :
  extends (known_by P) (known_by P') →
  Forall (λ lc, lc_known (known_by P) lc 0) (p_constraints P) →
  Forall (λ lc, lc_known (known_by P') lc 0) (p_constraints P).
Proof.
  intros HΓ Hc. eapply Forall_impl; [exact Hc|]. intros lc. by apply lc_known_mono.
Qed.

Lemma honest_multiply P l r x y :
  honest P → lc_known (known_by P) l x → lc_known (known_by P) r y →
  ∃ vl vr vo P', prover_multiply l r P = Some ((vl, vr, vo), P') ∧ honest P' ∧
    extends (known_by P) (known_by P') ∧
    known_by P' vl x ∧ known_by P' vr y ∧ known_by P' vo (x * y).
Proof.
  intros [Hwf Hc] Hl Hr. unfold prover_multiply.
  rewrite (known_eval _ _ _ Hl), (known_eval _ _ _ Hr). cbn [mbind option_bind].
  destruct (prover_vars P) as [[vl vr] vo] eqn:Ev. do 4 eexists. split; [reflexivity|].
  set (P' := prover_constrain _ _).
  assert (Hpend : ∀ i, p_pending P = Some i → p_pending P = Some i ∨ i = length (a_L (p_secrets P)))
    by auto.
  assert (Hne : p_pending P ≠ Some (length (a_L (p_secrets P)))).
  { intros E%(wf_pending _ Hwf). lia. }
  pose proof (push_known P x y (x * y) (p_constraints P') (p_transcript P) (p_pending P) Hwf Hpend) as HΓ.
  pose proof (push_vars P x y (x * y) (p_constraints P') (p_transcript P) (p_pending P) Hwf Hne) as Hvars.
  rewrite Ev in Hvars. destruct Hvars as (H1 & H2 & H3).
  change (extends (known_by P) (known_by P')) in HΓ.
  assert (Hlink : ∀ lc v z, lc_known (known_by P) lc z → known_by P' v z →
    lc_known (known_by P') (lc ++ [(v, - (1))]) 0).
  { intros lc v z Hlc Hv. eapply known_eq; [apply lc_known_app; [by eapply lc_known_mono|]|].
    - constructor; [exact Hv|constructor].
    - ring. }
  split; [|split; [done|by split_and!]]. split.
  - apply (push_wf P x y (x * y) (p_pending P)); [done|done|]. intros i Hi%(wf_pending _ Hwf). lia.
  - cbn. rewrite !Forall_app, !Forall_singleton. split; [split|].
    + by apply (extends_constraints P P').
    + by eapply Hlink.
    + by eapply Hlink.
Qed.

Lemma honest_allocate_multiplier P x y :
  honest P →
  ∃ vl vr vo P', prover_allocate_multiplier (Some (x, y)) P = (Ok (vl, vr, vo), P') ∧ honest P' ∧
    extends (known_by P) (known_by P') ∧
    known_by P' vl x ∧ known_by P' vr y ∧ known_by P' vo (x * y).
Proof.
  intros [Hwf Hc]. unfold prover_allocate_multiplier.
  destruct (prover_vars P) as [[vl vr] vo] eqn:Ev. do 4 eexists. split; [reflexivity|].
  set (P' := push_multiplier _ _ _ _).
  assert (Hpend : ∀ i, p_pending P = Some i → p_pending P = Some i ∨ i = length (a_L (p_secrets P)))
    by auto.
  assert (Hne : p_pending P ≠ Some (length (a_L (p_secrets P)))).
  { intros E%(wf_pending _ Hwf). lia. }
  pose proof (push_known P x y (x * y) (p_constraints P') (p_transcript P) (p_pending P) Hwf Hpend) as HΓ.
  pose proof (push_vars P x y (x * y) (p_constraints P') (p_transcript P) (p_pending P) Hwf Hne) as Hvars.
  rewrite Ev in Hvars. destruct Hvars as (H1 & H2 & H3).
  change (extends (known_by P) (known_by P')) in HΓ.
  split; [|split; [done|by split_and!]]. split.
  - apply (push_wf P x y (x * y) (p_pending P)); [done|done|]. intros i Hi%(wf_pending _ Hwf). lia.
  - by apply (extends_constraints P P').
Qed.

Lemma honest_allocate P x :
  honest P →
  ∃ v P', prover_allocate (Some x) P = Some (Ok v, P') ∧ honest P' ∧
    extends (known_by P) (known_by P') ∧ known_by P' v x.
Proof.
  intros [Hwf Hc]. unfold prover_allocate. pose proof (wf_R _ Hwf) as HR.
  assert (HO : length (a_O (p_secrets P)) = length (a_L (p_secrets P))).
  { rewrite (wf_O _ Hwf), length_zip_with. lia. }
  destruct (p_pending P) as [i|] eqn:Ep.
  - pose proof (wf_pending _ Hwf i Ep) as Hi.
    destruct (lookup_lt_is_Some_2 (a_L (p_secrets P)) i Hi) as [l Hl].
    destruct (lookup_lt_is_Some_2 (a_R (p_secrets P)) i ltac:(lia)) as [r Hr].
    destruct (lookup_lt_is_Some_2 (a_O (p_secrets P)) i ltac:(lia)) as [o Ho].
    unfold set_at. rewrite Hr. cbn [mbind option_bind]. rewrite Hl. cbn [mbind option_bind].
    rewrite list_lookup_insert_eq by lia. cbn [mbind option_bind]. rewrite Ho. cbn [mbind option_bind].
    do 2 eexists. split; [reflexivity|]. set (P' := MkProverCore _ _ _ _ _).
    assert (HΓ : extends (known_by P) (known_by P')).
    { intros v z [Hv Hs]. destruct v as [j|j|j|j|]; cbn in *; (split; [|done]); cbn; try done;
        rewrite list_lookup_insert_ne; congruence. }
    split; [|split; [done|]].
    + split; [|by apply (extends_constraints P P')]. split; cbn; try done.
      * by rewrite length_insert.
      * by rewrite (wf_O _ Hwf), insert_zip_with, (list_insert_id _ _ _ Hl).
      * exact (wf_v _ Hwf).
    + split; [|done]. cbn. apply list_lookup_insert_eq. lia.
  - do 2 eexists. split; [reflexivity|]. set (P' := MkProverCore _ _ _ _ _).
    assert (HΓ : extends (known_by P) (known_by P')).
    { refine (push_known P x 0 0 _ _ _ Hwf _). intros j [= <-]. by right. }
    split; [|split; [done|]].
    + split; [|by apply (extends_constraints P P')].
      refine (push_wf P x 0 0 (Some _) _ _ Hwf _ _); [ring|]. intros j [= <-]. lia.
    + split; [|done]. cbn. by rewrite lookup_app_r, Nat.sub_diag by lia.
Qed.

(** An honest prover runs the circuit to its end and stays honest. *)
Lemma produces_run {A} (c : circuit A) Q (P : Prover) :
  honest (p_core P) → produces (known_by (p_core P)) c Q →
  ∃ a P', run_circuit c P = Some (a, P') ∧ honest (p_core P') ∧
    p_deferred P' = p_deferred P ∧ p_pc_gens (p_core P') = p_pc_gens (p_core P) ∧
    extends (known_by (p_core P)) (known_by (p_core P')) ∧ Q (known_by (p_core P')) a.
Proof.
  revert P. induction c as [a|X g k IH|l r k IH|o k IH|o k IH|k IH|lc k IH]; intros P Hh Hc;
    cbn [produces run_circuit] in *.
  - by exists a, P.
  - cbn. destruct (g (p_transcript (p_core P))) as [x t]. cbn.
    apply (IH x (MkProver (set_transcript (p_core P) t) (p_deferred P))); [|apply Hc].
    destruct Hh as [[] Hcs]. by split.
  - destruct Hc as (x & y & Hl & Hr & Hk).
    destruct (honest_multiply _ l r x y Hh Hl Hr) as (vl & vr & vo & core & E & Hh1 & HΓ & H1 & H2 & H3).
    cbn. rewrite E. cbn.
    destruct (IH (vl, vr, vo) (MkProver core (p_deferred P)) Hh1) as (a & P' & Hrun & Hh' & Hd & Hg & HΓ' & HQ);
      [by apply Hk|].
    exists a, P'. split_and!; try done; [|by etransitivity].
    rewrite Hg. unfold prover_multiply in E. apply bind_Some in E as (? & _ & E).
    apply bind_Some in E as (? & _ & E). destruct (prover_vars _) as [[??]?].
    by injection E as _ _ _ <-.
  - destruct Hc as (x & -> & Hk).
    destruct (honest_allocate _ x Hh) as (v & core & E & Hh1 & HΓ & Hv).
    cbn [cs_allocate Prover_cs]. rewrite E. cbn.
    destruct (IH (Ok v) (MkProver core (p_deferred P)) Hh1) as (a & P' & Hrun & Hh' & Hd & Hg & HΓ' & HQ);
      [by apply Hk|].
    exists a, P'. split_and!; try done; [|by etransitivity].
    rewrite Hg. unfold prover_allocate in E. destruct (p_pending _); [|by injection E as _ <-].
    do 4 (apply bind_Some in E as (? & _ & E)). by injection E as _ <-.
  - destruct Hc as (x & y & -> & Hk).
    destruct (honest_allocate_multiplier _ x y Hh) as (vl & vr & vo & core & E & Hh1 & HΓ & H1 & H2 & H3).
    cbn [cs_allocate_multiplier Prover_cs]. rewrite E. cbn [with_core].
    destruct (IH (Ok (vl, vr, vo)) (MkProver core (p_deferred P)) Hh1)
      as (a & P' & Hrun & Hh' & Hd & Hg & HΓ' & HQ); [by apply Hk|].
    exists a, P'. split_and!; try done; [|by etransitivity].
    rewrite Hg. unfold prover_allocate_multiplier in E. by injection E as _ _ _ <-.
  - by apply IH.
  - destruct Hc as [Hlc Hk]. destruct Hh as [Hwf Hcs].
    apply (IH (MkProver (prover_constrain lc (p_core P)) (p_deferred P))); [|exact Hk].
    split; [destruct Hwf; by split|]. cbn. rewrite Forall_app, Forall_singleton. by split.
Qed.

(** A prover starts honest, and stays so when it commits. *)
Lemma honest_new pc_gens t : honest (p_core (Prover_new pc_gens t)).
Proof. split; [by split|constructor]. Qed.
Lemma known_one P : known_by P One 1.
Proof. by split. Qed.

Lemma honest_commit P v b :
  honest (p_core P) →
  let '((_, var), P') := prover_commit v b P in
  honest (p_core P') ∧ extends (known_by (p_core P)) (known_by (p_core P')) ∧
  known_by (p_core P') var v.
Proof.
  intros [Hwf Hc]. destruct (prover_commit v b P) as [[C var] P'] eqn:E. injection E as _ <- <-.
  set (P' := MkProver _ _).
  assert (HΓ : extends (known_by (p_core P)) (known_by (p_core P'))).
  { intros w x [Hw Hs]. split; [|by destruct w].
    destruct w; cbn in *; try done. by apply lookup_app_l_Some. }
  split; [|split; [done|]].
  - split; [|exact (extends_constraints (p_core P) (p_core P') HΓ Hc)].
    destruct Hwf as [HR HO Hv Hp]. split; cbn; try done. rewrite !length_app. cbn. lia.
  - split; [|done]. cbn. by rewrite lookup_app_r, Nat.sub_diag by lia.
Qed.

(** The verifier's constraints hold of the assignment of an honest prover that made
    the same calls. *)
Lemma honest_satisfies P V :
  honest P → core_sync P (v_core V) → satisfies (assignment (p_secrets P)) V.
Proof.
  intros Hh Hs. pose proof (honest_satisfied _ Hh) as Hsat. destruct Hh as [Hwf _]. destruct Hs. split.
  - done.
  - by rewrite <-sync_constraints.
  - intros i Hi. rewrite <-sync_L in Hi. pose proof (wf_R _ Hwf) as HR.
    destruct (lookup_lt_is_Some_2 (a_L (p_secrets P)) i Hi) as [l Hl].
    destruct (lookup_lt_is_Some_2 (a_R (p_secrets P)) i ltac:(lia)) as [r Hr].
    unfold assignment. cbn. rewrite (wf_O _ Hwf), lookup_zip_with, Hl, Hr. done.
Qed.

(** What an honest prover reaches, the verifier's constraints allow. *)
Lemma circuit_satisfiable {A} (c c' : circuit A) Q (P : Prover) (V : Verifier) :
  same_circuit c c' → full_sync P V → honest (p_core P) → produces (known_by (p_core P)) c Q →
  ∃ a P' V', run_circuit c P = Some (a, P') ∧ run_circuit c' V = Some (a, V') ∧
    honest (p_core P') ∧ full_sync P' V' ∧ satisfies (assignment (p_secrets (p_core P'))) V' ∧
    extends (known_by (p_core P)) (known_by (p_core P')) ∧ Q (known_by (p_core P')) a.
Proof.
  intros Hc Hs Hh Hp. destruct (produces_run c Q P Hh Hp) as (a & P' & Hrun & Hh' & _ & _ & HΓ & HQ).
  destruct (run_circuit_simulation (Rel:=full_sync) c c' P V a P' Hc Hs Hrun) as (V' & HV & Hs').
  exists a, P', V'. split_and!; try done. apply honest_satisfies; [done|apply Hs'].
Qed.
Lemma gadget_satisfiable {A} (m m' : gadget A) Q (P : Prover) (V : Verifier) :
  same_circuit m m' → full_sync P V → honest (p_core P) → gproduces (known_by (p_core P)) m Q →
  ∃ a P' V', run_circuit m P = Some (Ok a, P') ∧ run_circuit m' V = Some (Ok a, V') ∧
    honest (p_core P') ∧ full_sync P' V' ∧ satisfies (assignment (p_secrets (p_core P'))) V' ∧
    extends (known_by (p_core P)) (known_by (p_core P')) ∧ Q (known_by (p_core P')) a.
Proof.
  intros Hc Hs Hh Hp.
  destruct (circuit_satisfiable m m' _ P V Hc Hs Hh Hp) as
    (r & P' & V' & H1 & H2 & H3 & H4 & H5 & H6 & a & -> & _ & HQ).
  by exists a, P', V'.
Qed.
Lemma known_assignment P v x : known_by P v x → assignment (p_secrets P) v = x.
Proof. intros [Hv _]. unfold assignment. by rewrite Hv. Qed.
End honest_run.

(** ** Sizes

    [m] multipliers from [multiply] and [allocate_multiplier], and [a] calls of
    [allocate], two of which share a multiplier. *)
Section sizes.
Context {CY : Cycle} {ME : Merlin}.

Fixpoint sized {A} (c : circuit A) (m a : nat) (Q : nat → nat → A → Prop) : Prop :=
  match c with
  | Done x => Q m a x
  | WithTranscript _ k => ∀ x, sized (k x) m a Q
  | Multiply _ _ k => ∀ vars, sized (k vars) (S m) a Q
  | Allocate _ k => ∀ v, sized (k (Ok v)) m (S a) Q
  | AllocateMultiplier _ k => ∀ vars, sized (k (Ok vars)) (S m) a Q
  | ReadMetrics k => ∀ x, sized (k x) m a Q
  | Constrain _ k => sized k m a Q
  end.

(** A gadget that returns, for every [m] and [a], after so many of each. *)
Definition gsized {A} (g : gadget A) (dm da : nat) (Q : A → Prop) : Prop := ∀ m a,
  sized g m a (λ m' a' r, ∃ x, r = Ok x ∧ m' = (m + dm)%nat ∧ a' = (a + da)%nat ∧ Q x).

Lemma sized_mono {A} (c : circuit A) m a (Q Q' : nat → nat → A → Prop) :
  sized c m a Q → (∀ m a x, Q m a x → Q' m a x) → sized c m a Q'.
Proof. intros Hc HQ. revert m a Hc. induction c; intros m0 a0 Hc; cbn [sized] in *; auto. Qed.

Lemma sized_bind {A B} (c : circuit A) (f : A → circuit B) m a Q :
  sized c m a (λ m a x, sized (f x) m a Q) → sized (circuit_bind c f) m a Q.
Proof. revert m a. induction c; intros m' a' Hc; cbn [sized circuit_bind] in *; auto. Qed.

Lemma gsized_bind {A B} (g : gadget A) (f : A → gadget B) m1 a1 m2 a2 Q R :
  gsized g m1 a1 Q → (∀ x, Q x → gsized (f x) m2 a2 R) →
  gsized (g ≫= f) (m1 + m2) (a1 + a2) R.
Proof.
  intros Hg Hf m a. apply sized_bind. eapply sized_mono; [apply Hg|].
  intros m' a' r (x & -> & -> & -> & HQ). eapply sized_mono; [by apply Hf|].
  intros m' a' r (y & -> & -> & -> & HR). exists y. split_and!; try done; lia.
Qed.
Lemma gsized_eq {A} (g : gadget A) m a m' a' Q :
  gsized g m a Q → m = m' → a = a' → gsized g m' a' Q.
Proof. by intros ? <- <-. Qed.
Lemma gsized_mono {A} (g : gadget A) m a (Q Q' : A → Prop) :
  gsized g m a Q → (∀ x, Q x → Q' x) → gsized g m a Q'.
Proof.
  intros Hg HQ m' a'. eapply sized_mono; [apply Hg|].
  intros ? ? ? (x & -> & -> & -> & Hx). exists x. auto.
Qed.
Lemma gsized_ret {A} (x : A) (Q : A → Prop) : Q x → gsized (gret x) 0 0 Q.
Proof. intros HQ m a. exists x. split_and!; [done|lia|lia|done]. Qed.
(** The same, from the total down. *)
Lemma gsized_step {A B} (g : gadget A) (f : A → gadget B) m1 a1 m a Q R :
  gsized g m1 a1 Q → (m1 ≤ m)%nat → (a1 ≤ a)%nat →
  (∀ x, Q x → gsized (f x) (m - m1) (a - a1) R) → gsized (g ≫= f) m a R.
Proof.
  intros Hg Hm Ha Hf. eapply gsized_eq; [by eapply gsized_bind|lia|lia].
Qed.
Lemma gsized_done {A} (x : A) m a (Q : A → Prop) :
  Q x → m = 0%nat → a = 0%nat → gsized (gret x) m a Q.
Proof. intros HQ -> ->. by apply gsized_ret. Qed.
Lemma gsized_require b e : b = true → gsized (require b e) 0 0 (λ _, True).
Proof. intros ->. by apply gsized_ret. Qed.
Lemma gsized_constrain lc : gsized (constrain lc) 0 0 (λ _, True).
Proof. intros m a. exists tt. split_and!; [done|lia|lia|done]. Qed.
Lemma gsized_multiply l r : gsized (multiply l r) 1 0 (λ _, True).
Proof. intros m a vars. exists vars. split_and!; [done|lia|lia|done]. Qed.
Lemma gsized_allocate o : gsized (allocate o) 0 1 (λ _, True).
Proof. intros m a v. exists v. split_and!; [done|lia|lia|done]. Qed.
Lemma gsized_allocate_multiplier o : gsized (allocate_multiplier o) 1 0 (λ _, True).
Proof. intros m a vars. exists vars. split_and!; [done|lia|lia|done]. Qed.

(** A loop, given the number of multipliers and allocations of every iteration. *)
Lemma gsized_gfold {St A} (I : nat → St → Prop) (f : St → A → gadget St) (dm da : A → nat) s l :
  I 0%nat s →
  (∀ i a s, l !! i = Some a → I i s → gsized (f s a) (dm a) (da a) (I (S i))) →
  gsized (gfold f s l) (sum_list_with dm l) (sum_list_with da l) (I (length l)).
Proof.
  revert I s. induction l as [|a l IH]; intros I s H0 Hf; cbn [gfold length sum_list_with].
  - by apply gsized_ret.
  - eapply gsized_bind; [by apply (Hf 0%nat)|].
    intros s' Hs'. apply (IH (λ i, I (S i))); [done|].
    intros i b s'' Hb. by apply Hf.
Qed.
Lemma sum_list_with_const {A} (l : list A) n : sum_list_with (λ _, n) l = (length l * n)%nat.
Proof. induction l as [|a l IH]; cbn; [done|]. by rewrite IH. Qed.

(** What sizing shows of the results holds of the results on both sides. *)
Lemma similar_sized {A A'} (R : A → A' → Prop) (c : circuit A) (c' : circuit A') m a Q :
  similar R c c' → sized c' m a Q → similar (λ x x', R x x' ∧ ∃ m' a', Q m' a' x') c c'.
Proof.
  intros Hs. revert m a. induction Hs; intros m0 a0 Hc; cbn [sized] in Hc; constructor; eauto.
Qed.
Lemma gsimilar_sized {A A'} (R : A → A' → Prop) (m : gadget A) (m' : gadget A') dm da Q :
  gsimilar R m m' → gsized m' dm da Q → gsimilar (λ x x', R x x' ∧ Q x') m m'.
Proof.
  intros Hs Hm. pose proof (similar_sized _ _ _ _ _ _ Hs (Hm 0%nat 0%nat)) as Hr.
  unfold gsimilar. revert Hr. generalize m m'. induction 1; constructor; auto.
  destruct H as [Hr (m1 & a1 & x & -> & _ & _ & HQ)]. by destruct a.
Qed.

(** What the verifier counts. *)
Definition counted (V : Verifier) (m a : nat) : Prop :=
  num_vars (v_core V) = (m + (a + 1) / 2)%nat ∧
  (v_pending (v_core V) = None ↔ Nat.even a = true).

Lemma half_succ a :
  ((S a + 1) / 2 = (a + 1) / 2 + if Nat.even a then 1 else 0)%nat.
Proof.
  destruct (Nat.Even_or_Odd a) as [[k ->]|[k ->]].
  - rewrite Nat.even_even.
    assert (E1 : ((2 * k + 1) / 2 = k)%nat) by (symmetry; apply (Nat.div_unique _ 2 _ 1); lia).
    assert (E2 : ((S (2 * k) + 1) / 2 = k + 1)%nat) by (symmetry; apply (Nat.div_unique _ 2 _ 0); lia).
    lia.
  - rewrite Nat.even_odd.
    assert (E1 : ((2 * k + 1 + 1) / 2 = k + 1)%nat) by (symmetry; apply (Nat.div_unique _ 2 _ 0); lia).
    assert (E2 : ((S (2 * k + 1) + 1) / 2 = k + 1)%nat) by (symmetry; apply (Nat.div_unique _ 2 _ 1); lia).
    lia.
Qed.

Lemma counted_allocate V m a o r V' :
  counted V m a → cs_allocate o V = Some (r, V') → counted V' m (S a) ∧ ∃ v, r = Ok v.
Proof.
  intros [Hn Hp] E. cbn in E. unfold verifier_allocate in E.
  unfold counted. rewrite half_succ, Nat.even_succ, <-Nat.negb_even.
  destruct (v_pending (v_core V)) as [i|] eqn:Ep; injection E as <- <-;
    (split; [|by eexists]); cbn [v_core num_vars v_pending v_set_pending v_next_var].
  - destruct (Nat.even a); [by pose proof (proj2 Hp eq_refl)|]. split; [lia|done].
  - rewrite (proj1 Hp eq_refl). split; [lia|done].
Qed.

Lemma sized_run {A} (c : circuit A) m a Q (V : Verifier) :
  sized c m a Q → counted V m a →
  ∃ x V' m' a', run_circuit c V = Some (x, V') ∧ counted V' m' a' ∧ Q m' a' x.
Proof.
  revert m a V. induction c as [x|X g k IH|l r k IH|o k IH|o k IH|k IH|lc k IH]; intros m a V Hc HV;
    cbn [sized run_circuit] in *.
  - by exists x, V, m, a.
  - cbn. destruct (g _) as [x t]. by apply (IH x m a).
  - cbn [cs_multiply Verifier_cs mbind option_bind].
    destruct (with_verifier_core _ _) as [vars V1] eqn:E.
    apply (IH vars (S m) a); [done|]. injection E as _ <-. destruct HV as [Hn Hp].
    split; [|done]. change (num_vars (v_core V) + 1 = S m + (a + 1) / 2)%nat. lia.
  - destruct (cs_allocate o V) as [[r V1]|] eqn:E; [|done].
    destruct (counted_allocate V m a o r V1 HV E) as [HV1 (v & ->)]. by apply (IH (Ok v) m (S a)).
  - cbn [cs_allocate_multiplier Verifier_cs].
    destruct (with_verifier_core _ _) as [vars V1] eqn:E. injection E as <- <-.
    apply (IH (Ok _) (S m) a); [done|]. destruct HV as [Hn Hp]. split; [|done].
    change (num_vars (v_core V) + 1 = S m + (a + 1) / 2)%nat. lia.
  - by apply (IH _ m a).
  - by apply (IH m a).
Qed.
Lemma gsized_run {A} (g : gadget A) m a Q (V : Verifier) :
  gsized g m a Q → counted V 0%nat 0%nat →
  ∃ x V', run_circuit g V = Some (Ok x, V') ∧ counted V' m a ∧ Q x.
Proof.
  intros Hg HV.
  destruct (sized_run g 0%nat 0%nat _ V (Hg 0%nat 0%nat) HV)
    as (r & V' & m' & a' & Hrun & Hc & x & -> & -> & -> & HQ).
  by exists x, V'.
Qed.
End sizes.

(** Counting through a gadget, a primitive at a time. *)
Ltac size_primitive :=
  first [ apply gsized_allocate_multiplier | apply gsized_constrain | apply gsized_multiply
        | apply gsized_allocate ].
Ltac size_step := eapply gsized_step; [size_primitive|lia|lia|].
Ltac size_last := eapply gsized_eq; [size_primitive|lia|lia].
Ltac size_done := apply gsized_done; [|lia|lia].
