(* ===== verification/R1csOnePhase.v ===== *)
(** * R1CS proofs of circuits without randomized constraints

    How the clients of the constraint system use it: a circuit is built on a prover
    and on a verifier, no callback is queued, and the proof travels in its canonical
    encoding. *)

From Stdlib Require Import ZArith Lia Strings.Byte.
From stdpp Require Import prelude strings.
From S2P Require Import Prelude CoreError Group Algebra TestSupport Cycle BpUtil InnerProduct ConstraintSystem Generators R1csProof Prover Verifier R1csSync R1csVerify R1csComplete CircuitLogic.

Local Open Scope golden_scope.

Section one_phase.
Context {CY : Cycle} {CL : CycleLaws} {ME : Merlin}.

(** The transcript at the challenges of a proof, for [m] commitments and the
    transcript [t] after the circuit. *)
Definition one_phase_transcript (proof : R1CSProof) (m : nat) (t : Transcript) : Transcript :=
  append_phase2 [A_I2 proof; A_O2 proof; S2 proof]
    (r1cs_1phase_domain_sep
       (append_phase1 [A_I1 proof; A_O1 proof; S1 proof] (append_u64 (bstr "m") (Z.of_nat m) t))).

(** The cases, negligible for random challenges, in which an honest proof is refused. *)
Definition r1cs_unexceptional (proof : R1CSProof) (n m : nat) (t : Transcript) : Prop :=
  let ipp := ipp_proof proof in
  Forall nonidentity [A_I1 proof; A_O1 proof; S1 proof] ∧
  Forall nonidentity [T_1 proof; T_3 proof; T_4 proof; T_5 proof; T_6 proof] ∧
  Forall nonidentity (ipp_L_vec ipp ++ ipp_R_vec ipp) ∧
  let '(y, _, _, _, _, t) := r1cs_challenges proof (one_phase_transcript proof m t) in
  y ≠ szero ∧ Forall (λ u, u ≠ szero) (proof_challenges ipp (next_power_of_two n) t).1.

Lemma one_phase_core P gens (trng : TranscriptRng) fp :
  p_deferred P = [] → prove_first_phase P gens trng (prove_transcript P) = Some (Ok fp) →
  let '(A_I, A_O, A_S) := fp_commitments _ fp in
  p_secrets (fp_core _ fp) = p_secrets (p_core P) ∧ p_constraints (fp_core _ fp) = p_constraints (p_core P) ∧
  p_transcript (fp_core _ fp) = r1cs_1phase_domain_sep (append_phase1 [A_I; A_O; A_S] (prove_transcript P)).
Proof.
  intros Hd Hrun. unfold prove_first_phase in Hrun. destruct (Nat.ltb _ _); [done|].
  destruct (draw_phase _ _) as [ps1 trng1].
  do 4 apply outcome_bind_Ok in Hrun as (? & _ & Hrun).
  destruct (phase_commitments _ _ _ _ _ _ _) as [[i o] s].
  apply outcome_bind_Ok in Hrun as (core & Hcore & [= <-]).
  cbn [fp_core fp_commitments]. rewrite Hd in Hcore. by injection Hcore as <-.
Qed.

Lemma polynomials_fields core (trng : TranscriptRng) n1 padded_n ps1 ps2 c1 c2 g h t proof t' :
  prove_polynomials core trng n1 padded_n ps1 ps2 c1 c2 g h t = Some (proof, t') →
  c1 = (A_I1 proof, A_O1 proof, S1 proof) ∧ c2 = (A_I2 proof, A_O2 proof, S2 proof).
Proof.
  unfold prove_polynomials. intros Hrun.
  repeat match type of Hrun with
  | (let '(_, _) := ?x in _) = _ => destruct x
  | mbind _ _ = _ => apply bind_Some in Hrun as (? & _ & Hrun)
  | Some _ = _ => fail 1
  | _ => progress cbv zeta in Hrun
  end.
  by injection Hrun as <- _.
Qed.

Lemma one_phase_fields P gens (fp : FirstPhase TranscriptRng) proof t' :
  p_secrets (fp_core _ fp) = p_secrets (p_core P) →
  prove_second_phase (length (a_L (p_secrets (p_core P)))) gens fp = Some (Ok (proof, t')) →
  fp_commitments _ fp = (A_I1 proof, A_O1 proof, S1 proof) ∧
  A_I2 proof = compressed_identity ∧ A_O2 proof = compressed_identity ∧ S2 proof = compressed_identity.
Proof.
  intros Hs Hrun. unfold prove_second_phase in Hrun. destruct (Nat.ltb _ _); [done|].
  destruct (draw_phase2 _ _) as [ps2 trng1].
  apply outcome_bind_Ok in Hrun as (c2 & Hc%no_panic_inv & Hrun). destruct c2 as [[AI AO] AS].
  unfold phase2_commitments in Hc. rewrite Hs, Nat.sub_diag in Hc. injection Hc as <- <- <-.
  apply outcome_bind_Ok in Hrun as (g & _ & Hrun). apply outcome_bind_Ok in Hrun as (h & _ & Hrun%no_panic_inv).
  apply polynomials_fields in Hrun as [Hc1 [= E1 E2 E3]]. done.
Qed.

(** The constraints and the assignment are those of the circuit; so the proof of an
    honest prover is accepted, from its canonical bytes. *)
Lemma one_phase_complete {R R'} `{CryptoRngCore R} `{CryptoRngCore R'} {CC : CycleCodec} (P : Prover)
    (V : Verifier) gens (rng rng1 : R) proof t' :
  full_sync P V → honest (p_core P) → p_deferred P = [] →
  (Nat.log2_up (num_vars (v_core V)) < 32)%nat →
  prove_and_return_transcript P gens rng = (Some (Ok (proof, t')), rng1) →
  r1cs_unexceptional proof (num_vars (v_core V)) (length (v_V (v_core V))) (v_transcript (v_core V)) →
  r1cs_from_bytes (r1cs_to_bytes proof) = Ok proof ∧
  ∀ rng' : R',
    (verify_and_return_transcript V proof (p_pc_gens (p_core P)) gens rng').1 = Some (Ok t').
Proof.
  intros Hs Hh Hd Hlog Hrun Hex. unfold prove_and_return_transcript in Hrun.
  destruct (prove_rng P rng) as [trng rng2]. apply (f_equal fst) in Hrun. cbn [fst] in Hrun.
  apply outcome_bind_Ok in Hrun as (fp & Hfirst & Hsecond).
  pose proof (one_phase_core P gens trng fp Hd Hfirst) as Hcore.
  destruct (fp_commitments _ fp) as [[A_I A_O] A_S] eqn:Efp. destruct Hcore as (Hsec & Hcons & Htr).
  destruct (one_phase_fields P gens fp proof t' Hsec Hsecond) as (Hc & HI & HO & HS).
  rewrite Efp in Hc. injection Hc as -> -> ->.
  assert (Hsat : satisfied (fp_core _ fp)).
  { pose proof (honest_satisfied _ Hh) as Hsat. unfold satisfied in *. by rewrite Hsec, Hcons. }
  destruct Hs as [Hcs Hdef]. pose proof (sync_L _ _ Hcs) as HL.
  destruct Hex as (HidA & HidT & HidLR & Hch).
  pose proof (run_accepted (R':=R') P V gens trng fp proof t' (conj Hcs Hdef) (honest_wf _ Hh) Hfirst Hsecond Hsat) as Hacc.
  rewrite Hsec, HL in Hacc. specialize (Hacc Hlog HidA HidT HidLR).
  assert (Ht : append_phase2 [A_I2 proof; A_O2 proof; S2 proof] (p_transcript (fp_core _ fp))
    = one_phase_transcript proof (length (v_V (v_core V))) (v_transcript (v_core V))).
  { unfold one_phase_transcript. rewrite Htr. unfold prove_transcript.
    by rewrite (sync_committed _ _ Hcs), (sync_transcript _ _ Hcs). }
  rewrite Ht in Hacc. destruct (r1cs_challenges _ _) as [[[[[y z] u] x] w_ch] t_end].
  destruct Hch as [Hy Hus]. destruct (Hacc Hy Hus) as [Hlr Hver]. split; [|exact Hver].
  rewrite r1cs_to_bytes_encoding. apply r1cs_from_encoding; [done|]. done.
Qed.
(** ** The prover of an honest circuit returns a proof *)
Lemma weigh_total exp_z (P : ProverCore) w term :
  core_wf P → weights_sized (p_secrets P) w → is_Some (eval_variable (p_secrets P) term.1) →
  ∃ w', prover_weigh exp_z w term = Some w' ∧ weights_sized (p_secrets P) w'.
Proof.
  intros [HR HO _ _] Hw Hin. destruct term as [var c]. cbn [fst] in Hin.
  assert (Hex : is_Some (prover_weigh exp_z w (var, c))).
  { pose proof Hw as (HwL & HwR & HwO & HwV). unfold prover_weigh, add_at, sub_at.
    destruct var as [i|i|i|i|]; cbn [eval_variable] in Hin; [| | | |by eexists];
      apply lookup_lt_is_Some_1 in Hin.
    - destruct (lookup_lt_is_Some_2 (wV w) i) as [y ->]; [lia|by eexists].
    - destruct (lookup_lt_is_Some_2 (wL w) i) as [y ->]; [lia|by eexists].
    - destruct (lookup_lt_is_Some_2 (wR w) i) as [y ->]; [lia|by eexists].
    - destruct (lookup_lt_is_Some_2 (wO w) i) as [y ->]; [lia|by eexists]. }
  destruct Hex as [w' Hw']. exists w'. split; [done|].
  by destruct (weigh_value exp_z (p_secrets P) w 0 (var, c) w' Hw Hw').
Qed.

Lemma known_in_range (P : ProverCore) lc x :
  lc_known (known_by P) lc x → Forall (λ term, is_Some (eval_variable (p_secrets P) term.1)) lc.
Proof. induction 1 as [|v c lc x y [Hv _] _ IH]; [done|]. constructor; [by eexists|done]. Qed.

Lemma weigh_terms_total exp_z (P : ProverCore) w lc :
  core_wf P → weights_sized (p_secrets P) w →
  Forall (λ term, is_Some (eval_variable (p_secrets P) term.1)) lc →
  ∃ w', fold_option (prover_weigh exp_z) w lc = Some w' ∧ weights_sized (p_secrets P) w'.
Proof.
  intros Hwf Hw Hlc. revert w Hw. induction Hlc as [|term lc Hterm _ IH]; intros w Hw; [by exists w|].
  destruct (weigh_total exp_z P w term Hwf Hw Hterm) as (w1 & E1 & Hw1). cbn [fold_option].
  rewrite E1. apply IH, Hw1.
Qed.

Lemma flattened_total (P : ProverCore) z : honest P → ∃ w, prover_flattened_constraints P z = Some w.
Proof.
  intros [Hwf Hc]. unfold prover_flattened_constraints.
  match goal with |- context [fold_option ?f (?w0, z) _] =>
    assert (Hloop : ∀ lcs w e, Forall (λ lc, lc_known (known_by P) lc 0) lcs →
      weights_sized (p_secrets P) w → ∃ r, fold_option f (w, e) lcs = Some r) end.
  { intros lcs. induction lcs as [|lc lcs IH]; intros w e Hlcs Hw; [by eexists|].
    apply Forall_cons in Hlcs as [Hlc Hlcs].
    destruct (weigh_terms_total e P w lc Hwf Hw (known_in_range _ _ _ Hlc)) as (w1 & E1 & Hw1).
    cbn [fold_option]. rewrite E1. cbn [mbind option_bind]. by apply IH. }
  destruct (Hloop (p_constraints P) (MkWeights (replicate (length (a_L (p_secrets P))) 0)
    (replicate (length (a_L (p_secrets P))) 0) (replicate (length (a_L (p_secrets P))) 0)
    (replicate (length (sec_v (p_secrets P))) 0)) z) as [[w e] Hw]; [done| |].
  { destruct Hwf as [HR HO _ _]. unfold weights_sized. cbn [wL wR wO wV].
    rewrite !length_replicate, HO. by rewrite length_zip_with_r_eq by lia. }
  rewrite Hw. by exists w.
Qed.

(** Enough generators for a padded circuit. *)
Definition generators_cover (gens : BulletproofGens) (n : nat) : Prop :=
  (n ≤ gens_capacity gens)%nat ∧
  ∃ g h, shared_G gens 0 = Some g ∧ shared_H gens 0 = Some h ∧ (n ≤ length g)%nat ∧ (n ≤ length h)%nat.

Lemma polynomials_total core (trng : TranscriptRng) n1 n ps1 ps2 c1 c2 g h t :
  honest core → (n ≤ length g)%nat → (n ≤ length h)%nat →
  is_Some (prove_polynomials core trng n1 n ps1 ps2 c1 c2 g h t).
Proof.
  intros Hh Hg Hhl. unfold prove_polynomials.
  destruct (challenge_scalar _ t) as [y t1]. destruct (challenge_scalar _ t1) as [z t2].
  destruct (flattened_total core z Hh) as [w ->]. cbn [mbind option_bind].
  rewrite (slice_take n g Hg), (slice_take n h Hhl).
  repeat match goal with
  | |- context [let '(_, _) := ?x in _] => destruct x
  | _ => progress cbn [mbind option_bind]
  end. by eexists.
Qed.

(** The randomization phase clears the waiting multiplier, which only settles more. *)
Lemma honest_settled P t : honest P → honest (MkProverCore t (p_pc_gens P) (p_constraints P) (p_secrets P) None).
Proof.
  intros [[HR HO Hv _] Hc]. split; [by split|]. eapply Forall_impl; [exact Hc|]. intros lc Hlc.
  eapply lc_known_mono; [|exact Hlc]. intros v x [Hx _]. split; [exact Hx|by destruct v].
Qed.

Lemma first_phase_total {R} `{CryptoRngCore R} (P : Prover) gens (trng : R) t :
  honest (p_core P) → p_deferred P = [] →
  generators_cover gens (length (a_L (p_secrets (p_core P)))) →
  ∃ fp, prove_first_phase P gens trng t = Some (Ok fp) ∧ honest (fp_core _ fp).
Proof.
  intros Hh Hd (Hcap & g & h & Hg & Hhv & Hlg & Hlh). unfold prove_first_phase.
  rewrite (proj2 (Nat.ltb_ge _ _) Hcap). destruct (draw_phase _ trng) as [ps trng1].
  rewrite Hg, Hhv. cbn [no_panic fmap option_fmap option_map mbind outcome_bind].
  rewrite (slice_take _ g Hlg), (slice_take _ h Hlh).
  cbn [no_panic fmap option_fmap option_map mbind outcome_bind].
  destruct (phase_commitments _ _ _ _ _ _ _) as [[i o] s].
  rewrite Hd. eexists. split; [reflexivity|]. cbn. apply (honest_settled (p_core P)), Hh.
Qed.

Lemma second_phase_total n1 gens (fp : FirstPhase TranscriptRng) :
  honest (fp_core _ fp) → n1 = length (a_L (p_secrets (fp_core _ fp))) →
  generators_cover gens (next_power_of_two n1) →
  ∃ proof t', prove_second_phase n1 gens fp = Some (Ok (proof, t')).
Proof.
  intros Hh Hn (Hcap & g & h & Hg & Hhv & Hlg & Hlh). unfold prove_second_phase. rewrite <-Hn.
  rewrite (proj2 (Nat.ltb_ge _ _) Hcap). destruct (draw_phase2 _ _) as [ps trng1].
  unfold phase2_commitments. rewrite <-Hn, Nat.sub_diag.
  cbn [Nat.ltb Nat.leb no_panic fmap option_fmap option_map mbind outcome_bind]. rewrite Hg, Hhv.
  cbn [no_panic fmap option_fmap option_map mbind outcome_bind].
  destruct (polynomials_total (fp_core _ fp) trng1 n1 (next_power_of_two n1) (fp_secrets _ fp) ps
    (fp_commitments _ fp) (compressed_identity, compressed_identity, compressed_identity) g h
    (append_phase2 [compressed_identity; compressed_identity; compressed_identity] (p_transcript (fp_core _ fp)))
    Hh Hlg Hlh) as [[proof t'] E].
  rewrite E. by exists proof, t'.
Qed.

(** The prover of an honest circuit without callbacks does not fail. *)
Lemma one_phase_total {R} `{CryptoRngCore R} (P : Prover) gens (rng : R) :
  honest (p_core P) → p_deferred P = [] →
  generators_cover gens (next_power_of_two (length (a_L (p_secrets (p_core P))))) →
  ∃ proof t' rng', prove_and_return_transcript P gens rng = (Some (Ok (proof, t')), rng').
Proof.
  intros Hh Hd Hgens. unfold prove_and_return_transcript. destruct (prove_rng P rng) as [trng rng'].
  destruct (first_phase_total P gens trng (prove_transcript P) Hh Hd) as (fp & E & Hfp).
  { destruct Hgens as (Hcap & g & h & Hg & Hhv & Hlg & Hlh).
    pose proof (next_power_of_two_ge (length (a_L (p_secrets (p_core P))))).
    split; [lia|]. exists g, h. split_and!; try done; lia. }
  pose proof (one_phase_core P gens trng fp Hd E) as Hcore.
  destruct (fp_commitments _ fp) as [[i o] s]. destruct Hcore as (Hs & _).
  destruct (second_phase_total (length (a_L (p_secrets (p_core P)))) gens fp Hfp) as (proof & t' & E2);
    [by rewrite Hs|done|].
  exists proof, t', rng'. rewrite E. cbn [mbind outcome_bind]. by rewrite E2.
Qed.
(** ** The size of a proof

    A bound that needs nothing of the run: every round halves the vectors or is
    one of [original_rounds]. *)
Lemma tail_rounds fuel t Q (a b : list CScalar) G H L_vec R_vec :
  (length (ipp_L_vec (create_folded_tail fuel t Q a b G H L_vec R_vec).1) ≤ length L_vec + fuel)%nat.
Proof.
  revert t a b G H L_vec R_vec. induction fuel as [|fuel IH]; intros t a b G H L_vec R_vec; [cbn; lia|].
  cbn [create_folded_tail]. destruct (Nat.ltb 1 (length a)); [|cbn; lia].
  destruct (challenge_scalar _ _) as [u t'].
  match goal with |- context [let '(_, _) := ?x in _] => destruct x as [G' H'] end.
  etransitivity; [apply IH|]. rewrite length_app. cbn [length]. lia.
Qed.

Lemma original_round_size n lg_n Q G H st i :
  let st' := original_round n lg_n Q G H st i in
  length (cs_L_vec st') = S (length (cs_L_vec st)) ∧ (length (cs_a st') ≤ length (cs_a st))%nat.
Proof.
  unfold original_round. destruct (challenge_scalar _ _) as [u t']. cbn [cs_L_vec cs_a].
  rewrite length_app, length_zip_with, length_take. cbn [length]. lia.
Qed.
Lemma original_rounds_size n lg_n Q G H rounds st :
  let st' := foldl (original_round n lg_n Q G H) st rounds in
  length (cs_L_vec st') = (length (cs_L_vec st) + length rounds)%nat ∧
  (length (cs_a st') ≤ length (cs_a st))%nat.
Proof.
  revert st. induction rounds as [|i rounds IH]; intros st; cbn [foldl length]; [lia|].
  destruct (IH (original_round n lg_n Q G H st i)) as [E1 E2].
  destruct (original_round_size n lg_n Q G H st i) as [F1 F2]. cbv zeta in *. lia.
Qed.

Lemma create_rounds t Q Gf Hf G H (a b : list CScalar) :
  (length (ipp_L_vec (create t Q Gf Hf G H a b).1) ≤ original_rounds (length G) + length a)%nat.
Proof.
  unfold create.
  destruct (original_rounds_size (length G) (lg (length G)) (point_to_affine Q) G H
    (seq 0 (original_rounds (length G)))
    (MkCreateState (innerproduct_domain_sep (Z.of_nat (length G)) t) a b Gf Hf [] [])) as [E1 E2].
  cbn [cs_L_vec cs_a length] in E1, E2. rewrite length_seq in E1.
  destruct (Nat.ltb 1 _).
  - etransitivity; [apply tail_rounds|]. lia.
  - cbn. lia.
Qed.

Lemma polynomials_rounds core (trng : TranscriptRng) n1 n ps1 ps2 c1 c2 g h t proof t' :
  prove_polynomials core trng n1 n ps1 ps2 c1 c2 g h t = Some (proof, t') →
  (length (ipp_L_vec (ipp_proof proof)) ≤ original_rounds n + n)%nat.
Proof.
  unfold prove_polynomials. intros Hrun.
  repeat match type of Hrun with
  | (let '(_, _) := create _ _ _ _ _ _ _ _ in _) = _ => fail 1
  | (let '(_, _) := ?x in _) = _ => destruct x
  | mbind _ (slice _ _ _) = _ => apply bind_Some in Hrun as (? & [? ->]%slice_Some & Hrun)
  | mbind _ _ = _ => apply bind_Some in Hrun as (? & _ & Hrun)
  | _ => progress cbv zeta in Hrun
  end.
  match type of Hrun with (let '(_, _) := create ?t ?Q ?Gf ?Hf ?G ?H ?a ?b in _) = _ =>
    pose proof (create_rounds t Q Gf Hf G H a b) as Hl; destruct (create t Q Gf Hf G H a b) as [ipp t_end] end.
  repeat match type of Hrun with (let '(_, _) := ?x in _) = _ => destruct x end.
  injection Hrun as <- _. cbn [ipp_proof fst] in *. etransitivity; [exact Hl|].
  rewrite drop_0, length_take, length_resize. rewrite Nat.min_l by lia. rewrite Nat.sub_0_r. lia.
Qed.

Lemma one_phase_rounds {R} `{CryptoRngCore R} P gens (rng rng1 : R) proof t' :
  p_deferred P = [] → prove_and_return_transcript P gens rng = (Some (Ok (proof, t')), rng1) →
  let n := next_power_of_two (length (a_L (p_secrets (p_core P)))) in
  (length (ipp_L_vec (ipp_proof proof)) ≤ original_rounds n + n)%nat.
Proof.
  intros Hd Hrun n. unfold prove_and_return_transcript in Hrun. destruct (prove_rng P rng) as [trng rng2].
  apply (f_equal fst) in Hrun. cbn [fst] in Hrun. apply outcome_bind_Ok in Hrun as (fp & Hfirst & Hrun).
  pose proof (one_phase_core P gens trng fp Hd Hfirst) as Hcore.
  destruct (fp_commitments _ fp) as [[i o] s] eqn:Efp. destruct Hcore as (Hs & _).
  unfold prove_second_phase in Hrun. rewrite Hs in Hrun. destruct (Nat.ltb _ _); [done|].
  destruct (draw_phase2 _ _) as [ps2 trng1].
  apply outcome_bind_Ok in Hrun as ([[AI AO] AS] & _ & Hrun).
  apply outcome_bind_Ok in Hrun as (g & _ & Hrun). apply outcome_bind_Ok in Hrun as (h & _ & Hrun%no_panic_inv).
  by apply polynomials_rounds in Hrun.
Qed.

Lemma length_r1cs_to_bytes {CC : CycleCodec} proof :
  (length (r1cs_to_bytes proof)
   ≤ 161 + (11 + 2 * length (ipp_L_vec (ipp_proof proof))) * COMPRESSED_BYTES)%nat.
Proof.
  rewrite r1cs_to_bytes_encoding. unfold r1cs_encoding, ipp_to_bytes. cbn [length].
  rewrite !length_app, length_points_bytes, !length_scalar_canonical, length_pair_bytes.
  rewrite length_zip_with. set (m := Nat.min _ _).
  assert (m ≤ length (ipp_L_vec (ipp_proof proof)))%nat as Hm by (unfold m; lia).
  destruct (negb _); cbn [length app]; nia.
Qed.
End one_phase.
