(* ===== verification/EvrfBits.v ===== *)
(** * Bit decomposition in the circuit (golden-evrf/paper.rs, module secp_secq)

    The gadgets that split a committed value into bits, bound the integer the bits
    encode by a modulus, and bound it further under a condition.  They are exact:
    an assignment satisfies them if and only if the bits are those of such an
    integer. *)

From Stdlib Require Import ZArith Lia Field Strings.Byte InitialRing.
From stdpp Require Import prelude strings list_numbers.
From S2P Require Import Prelude CoreError Group Algebra TestSupport Cycle BpUtil InnerProduct ConstraintSystem Generators R1csProof Prover Verifier R1csSync CircuitLogic.

Local Open Scope golden_scope.

(** ** Integers in the field *)
Section of_Z.
Context {F : Type} `{FieldLaws F}.
Add Field of_Z_field : (scalar_field_theory (F:=F)).

Definition of_Z : Z → F := gen_phiZ szero sone sadd smul sneg.

Lemma of_Z_morph : ring_morph (R:=F) 0 1 sadd smul ssub sneg (@eq F) 0%Z 1%Z Z.add Z.mul Z.sub Z.opp
  Z.eqb of_Z.
Proof.
  apply (gen_phiZ_morph (Eqsth F) (Eq_ext sadd smul sneg) (F_R (scalar_field_theory (F:=F)))).
Qed.
Lemma of_Z_add a b : of_Z (a + b) = of_Z a + of_Z b.
Proof. apply (morph_add of_Z_morph). Qed.
Lemma of_Z_mul a b : of_Z (a * b) = of_Z a * of_Z b.
Proof. apply (morph_mul of_Z_morph). Qed.
Lemma of_Z_sub a b : of_Z (a - b) = of_Z a - of_Z b.
Proof. apply (morph_sub of_Z_morph). Qed.
Lemma of_Z_opp a : of_Z (- a) = - of_Z a.
Proof. apply (morph_opp of_Z_morph). Qed.
Lemma of_Z_0 : of_Z 0 = 0.
Proof. done. Qed.
Lemma of_Z_1 : of_Z 1 = 1.
Proof. done. Qed.
Lemma of_Z_double a : of_Z (2 * a) = of_Z a + of_Z a.
Proof. rewrite <-of_Z_add. f_equal. lia. Qed.
End of_Z.
#[global] Arguments of_Z : simpl never.
#[global] Opaque of_Z.

(** ** Bits, little-endian *)
Definition bits_value (bs : list bool) : Z := foldr (λ b acc, Z.b2z b + 2 * acc)%Z 0%Z bs.
Definition le_value (bytes : list byte) : Z :=
  foldr (λ b acc, byte_to_Z b + 256 * acc)%Z 0%Z bytes.

Section bits_lemmas.
Local Open Scope Z_scope.

Lemma bits_value_app bs1 bs2 :
  bits_value (bs1 ++ bs2) = bits_value bs1 + 2 ^ len bs1 * bits_value bs2.
Proof.
  induction bs1 as [|b bs1 IH].
  { change (bits_value bs2 = 0 + 1 * bits_value bs2). lia. }
  cbn [app bits_value foldr].
  change (foldr _ 0 (bs1 ++ bs2)) with (bits_value (bs1 ++ bs2)). rewrite IH.
  change (foldr _ 0 bs1) with (bits_value bs1). unfold len. cbn [length].
  rewrite Nat2Z.inj_succ, Z.pow_succ_r by lia. lia.
Qed.

Lemma bits_value_range bs : 0 ≤ bits_value bs < 2 ^ len bs.
Proof.
  induction bs as [|b bs IH]; [done|]. cbn [bits_value foldr].
  change (foldr _ 0 bs) with (bits_value bs). unfold len in *. cbn [length].
  rewrite Nat2Z.inj_succ, Z.pow_succ_r by lia. destruct b; cbn [Z.b2z]; lia.
Qed.

(** The integer without its [j] lowest bits. *)
Lemma bits_value_drop bs j :
  (j ≤ length bs)%nat → bits_value (drop j bs) = bits_value bs / 2 ^ Z.of_nat j.
Proof.
  intros Hj. rewrite <-(take_drop j bs) at 2. rewrite bits_value_app.
  pose proof (bits_value_range (take j bs)) as Hr. unfold len in *.
  rewrite length_take, Nat.min_l in * by lia.
  rewrite (Z.mul_comm (2 ^ _)), Z.div_add, Z.div_small by lia. lia.
Qed.

Lemma bits_value_drop_step bs j b :
  bs !! j = Some b → bits_value (drop j bs) = Z.b2z b + 2 * bits_value (drop (S j) bs).
Proof. intros Hb. by rewrite (drop_S _ _ _ Hb). Qed.

Lemma le_value_nonneg bytes : 0 ≤ le_value bytes.
Proof.
  induction bytes as [|b bytes IH]; [done|]. cbn [le_value foldr].
  change (foldr _ 0 bytes) with (le_value bytes). pose proof (byte_to_Z_range b). lia.
Qed.
Lemma le_value_range bytes : 0 ≤ le_value bytes < 256 ^ len bytes.
Proof.
  split; [apply le_value_nonneg|].
  induction bytes as [|b bytes IH]; [done|]. cbn [le_value foldr].
  change (foldr _ 0 bytes) with (le_value bytes). pose proof (byte_to_Z_range b).
  unfold len in *. cbn [length]. rewrite Nat2Z.inj_succ, Z.pow_succ_r by lia. lia.
Qed.

Lemma div2_step m j :
  0 ≤ m → m / 2 ^ Z.of_nat j = Z.b2z (Z.testbit m (Z.of_nat j)) + 2 * (m / 2 ^ Z.of_nat (S j)).
Proof.
  intros Hm. rewrite Nat2Z.inj_succ, Z.pow_succ_r by lia.
  rewrite (Z.mul_comm 2 (2 ^ Z.of_nat j)), <-Z.div_div by (try apply Z.pow_nonzero; lia).
  rewrite Z.testbit_spec' by lia. pose proof (Z.div_mod (m / 2 ^ Z.of_nat j) 2 ltac:(lia)). lia.
Qed.
End bits_lemmas.

(** ** Constants *)
Definition K_BITS : nat := 256.

Definition SECP256K1_BASE_MODULUS_LE : list byte :=
  [x2f; xfc; xff; xff; xfe; xff; xff; xff; xff; xff; xff; xff; xff; xff; xff;
   xff; xff; xff; xff; xff; xff; xff; xff; xff; xff; xff; xff; xff; xff; xff;
   xff; xff].
Definition SECP256K1_SCALAR_MODULUS_LE : list byte :=
  [x41; x41; x36; xd0; x8c; x5e; xd2; xbf; x3b; xa0; x48; xaf; xe6; xdc; xae;
   xba; xfe; xff; xff; xff; xff; xff; xff; xff; xff; xff; xff; xff; xff; xff;
   xff; xff].
Definition SECP256K1_P_MINUS_Q_LE : list byte :=
  [xee; xba; xc9; x2f; x72; xa1; x2d; x40; xc4; x5f; xb7; x50; x19; x23; x51;
   x45; x01; x00; x00; x00; x00; x00; x00; x00; x00; x00; x00; x00; x00; x00;
   x00; x00].

(** The bytes are indexed in bounds, which the code checks first. *)
Definition modulus_bit (modulus_le : list byte) (j : nat) : bool :=
  let byte_idx := (j / 8)%nat in
  let bit_idx := (j mod 8)%nat in
  Nat.ltb byte_idx (length modulus_le)
  && (Z.land (Z.shiftr (byte_to_Z (nth byte_idx modulus_le x00)) (Z.of_nat bit_idx)) 1 =? 1)%Z.

Lemma byte_testbit_high b i : (8 ≤ i)%Z → Z.testbit (byte_to_Z b) i = false.
Proof.
  intros Hi. pose proof (byte_to_Z_range b).
  destruct (Z.eq_dec (byte_to_Z b) 0%Z) as [->|]; [apply Z.testbit_0_l|].
  apply Z.bits_above_log2; [lia|].
  assert (Z.log2 (byte_to_Z b) < 8)%Z by (apply Z.log2_lt_pow2; lia). lia.
Qed.

Lemma le_value_testbit bytes j :
  Z.testbit (le_value bytes) (Z.of_nat j)
  = match bytes !! (j / 8)%nat with
    | Some b => Z.testbit (byte_to_Z b) (Z.of_nat (j mod 8))
    | None => false
    end.
Proof.
  revert j. induction bytes as [|b bytes IH]; intros j; [by rewrite lookup_nil, Z.testbit_0_l|].
  cbn [le_value foldr]. change (foldr _ 0%Z bytes) with (le_value bytes).
  pose proof (byte_to_Z_range b) as Hb.
  assert (Hsplit : (byte_to_Z b + 256 * le_value bytes = Z.lor (byte_to_Z b) (Z.shiftl (le_value bytes) 8))%Z).
  { assert (Hland : Z.land (byte_to_Z b) (Z.shiftl (le_value bytes) 8%Z) = 0%Z).
    2: { rewrite <-Z.lxor_lor, <-Z.add_nocarry_lxor, Z.shiftl_mul_pow2 by done.
         change (2 ^ 8)%Z with 256%Z. lia. }
    apply Z.bits_inj'; intros i Hi; rewrite Z.land_spec, Z.testbit_0_l, Z.shiftl_spec by done.
    destruct (Z.lt_ge_cases i 8%Z); [rewrite (Z.testbit_neg_r _ (i - 8)%Z) by lia; apply andb_false_r
      |by rewrite byte_testbit_high]. }
  rewrite Hsplit, Z.lor_spec, Z.shiftl_spec by lia.
  destruct (Nat.lt_ge_cases j 8) as [Hj|Hj].
  - rewrite Nat.div_small, Nat.mod_small by done. cbn.
    rewrite (Z.testbit_neg_r _ (Z.of_nat j - 8)%Z) by lia. by rewrite orb_false_r.
  - rewrite byte_testbit_high by lia. cbn [orb].
    replace (Z.of_nat j - 8)%Z with (Z.of_nat (j - 8)) by lia. rewrite IH.
    assert (Hdiv : (j / 8 = S ((j - 8) / 8))%nat).
    { pose proof (Nat.div_add (j - 8) 1 8 ltac:(lia)) as E.
      replace (j - 8 + 1 * 8)%nat with j in E by lia. rewrite E. apply Nat.add_1_r. }
    assert (Hmod : (j mod 8 = (j - 8) mod 8)%nat).
    { pose proof (Nat.Div0.mod_add (j - 8) 1 8) as E.
      by replace (j - 8 + 1 * 8)%nat with j in E by lia. }
    by rewrite Hdiv, Hmod.
Qed.

Lemma modulus_bit_spec modulus_le j :
  modulus_bit modulus_le j = Z.testbit (le_value modulus_le) (Z.of_nat j).
Proof.
  unfold modulus_bit. rewrite le_value_testbit, nth_lookup.
  destruct (Nat.ltb_spec (j / 8) (length modulus_le)) as [Hj|Hj].
  - destruct (lookup_lt_is_Some_2 _ _ Hj) as [b ->]. cbn [default from_option id andb].
    pose proof (Z.testbit_spec' (byte_to_Z b) (Z.of_nat (j mod 8)) ltac:(lia)) as E.
    rewrite Z.shiftr_div_pow2 by lia.
    set (x := (byte_to_Z b / 2 ^ Z.of_nat (j mod 8))%Z) in *.
    pose proof (Z.land_ones x 1%Z ltac:(lia)) as L. change (Z.land x 1 = x mod 2)%Z in L.
    rewrite L, <-E. by destruct (Z.testbit _ _).
  - by rewrite lookup_ge_None_2.
Qed.

(** ** The gadgets *)
#[export] Instance variable_inhabited : Inhabited CSVariable := populate One.

Section gadgets.
Context `{Cycle} `{Merlin}.

(** One multiplier per bit: [left = k_j], [right = 1 - k_j], [out = k_j (1 - k_j)]. *)
Definition decompose_bit
    (st : list CSVariable * LinearCombination CScalar * CScalar) (bit : option CScalar)
    : gadget (list CSVariable * LinearCombination CScalar * CScalar) :=
  let '(bit_vars, k_lc, coefficient) := st in
  '(left_, right_, out) ← allocate_multiplier ((λ bit, (bit, 1 - bit)) <$> bit);
  _ ← constrain (var_sub right_ (lc_sub (lc_from_scalar 1) (lc_from_variable left_)));
  _ ← constrain (lc_from_variable out);
  gret (bit_vars ++ [left_], lc_add k_lc (var_mul left_ coefficient), coefficient + coefficient).

(** The assignment of the next multiplier of the scan. *)
Definition product_assignment (eq bit : option CScalar) : option (CScalar * CScalar) :=
  match eq, bit with Some eq, Some bit => Some (eq, bit) | _, _ => None end.
Definition matched_assignment (eq bit : option CScalar) : option CScalar :=
  match eq, bit with Some eq, Some bit => Some (eq * bit) | _, _ => None end.
Definition unmatched_assignment (eq bit : option CScalar) : option CScalar :=
  match eq, bit with Some eq, Some bit => Some (eq * (1 - bit)) | _, _ => None end.

(** One step of the scan from the most significant bit. *)
Definition compare_bit (bit_vars : list CSVariable) (bit_assignments : list (option CScalar))
    (modulus_le : list byte) (st : LinearCombination CScalar * option CScalar) (j : nat)
    : gadget (LinearCombination CScalar * option CScalar) :=
  let '(prefix_equal, prefix_equal_assignment) := st in
  let bit_assignment := bit_assignments !!! j in
  '(left_, right_, out) ←
    allocate_multiplier (product_assignment prefix_equal_assignment bit_assignment);
  _ ← constrain (var_sub left_ prefix_equal);
  _ ← constrain (var_sub right_ (lc_from_variable (bit_vars !!! j)));
  let product_lc := lc_from_variable out in
  if modulus_bit modulus_le j
  then gret (product_lc, matched_assignment prefix_equal_assignment bit_assignment)
  else
    _ ← constrain product_lc;
    gret (lc_sub prefix_equal product_lc,
          unmatched_assignment prefix_equal_assignment bit_assignment).

Definition bit_decompose_bounded (k_var : CSVariable) (bit_assignments : list (option CScalar))
    (modulus_le : list byte) : gadget (list CSVariable) :=
  if negb (Nat.eqb (length bit_assignments) (K_BITS + 1)) then fails R1CSFormatError
  else
    '(bit_vars, k_lc, _) ← gfold decompose_bit ([], lc_default, 1) bit_assignments;
    _ ← constrain (lc_sub k_lc (lc_from_variable k_var));
    '(prefix_equal, _) ←
      gfold (compare_bit bit_vars bit_assignments modulus_le) (lc_from_scalar 1, Some 1)
        (reverse (seq 0 (K_BITS + 1)));
    _ ← constrain prefix_equal;
    gret bit_vars.

Definition bit_decompose (k_var : CSVariable) (bit_assignments : list (option CScalar))
    : gadget (list CSVariable) :=
  bit_decompose_bounded k_var bit_assignments SECP256K1_BASE_MODULUS_LE.
Definition bit_decompose_q (k_var : CSVariable) (bit_assignments : list (option CScalar))
    : gadget (list CSVariable) :=
  bit_decompose_bounded k_var bit_assignments SECP256K1_SCALAR_MODULUS_LE.

(** One step of the conditional scan. *)
Definition compare_bit_when (bit_vars : list CSVariable) (bit_assignments : list (option CScalar))
    (bound_le : list byte) (condition_lc : LinearCombination CScalar)
    (st : LinearCombination CScalar * option CScalar) (j : nat)
    : gadget (LinearCombination CScalar * option CScalar) :=
  let '(prefix_equal, prefix_equal_assignment) := st in
  let bit_assignment := bit_assignments !!! j in
  '(left_, right_, out) ←
    allocate_multiplier (product_assignment prefix_equal_assignment bit_assignment);
  _ ← constrain (var_sub left_ prefix_equal);
  _ ← constrain (var_sub right_ (lc_from_variable (bit_vars !!! j)));
  let product_lc := lc_from_variable out in
  if modulus_bit bound_le j
  then gret (product_lc, matched_assignment prefix_equal_assignment bit_assignment)
  else
    '(_, _, violation) ← multiply condition_lc product_lc;
    _ ← constrain (lc_from_variable violation);
    gret (lc_sub prefix_equal product_lc,
          unmatched_assignment prefix_equal_assignment bit_assignment).

(** The bits from this index on are zero in the bound. *)
Definition lower_bits_start (bound_le : list byte) : nat :=
  match List.find (λ j, modulus_bit bound_le j) (reverse (seq 0 (K_BITS + 1))) with
  | Some msb => msb + 1
  | None => 0
  end.

Definition constrain_bits_lt_bound_when (bit_vars : list CSVariable)
    (bit_assignments : list (option CScalar)) (bound_le : list byte) (condition_var : CSVariable)
    : gadget unit :=
  if negb (Nat.eqb (length bit_vars) (K_BITS + 1))
     || negb (Nat.eqb (length bit_assignments) (K_BITS + 1))
  then fails R1CSFormatError
  else
    let condition_lc := lc_from_variable condition_var in
    let start := lower_bits_start bound_le in
    _ ← (if Nat.ltb start (length bit_vars) then
           let high_sum :=
             foldl (λ lc bit, lc_add lc (lc_from_variable bit)) lc_default (drop start bit_vars) in
           '(_, _, violation) ← multiply condition_lc high_sum;
           constrain (lc_from_variable violation)
         else gret tt);
    '(prefix_equal, _) ←
      gfold (compare_bit_when bit_vars bit_assignments bound_le condition_lc)
        (lc_from_scalar 1, Some 1) (reverse (seq 0 start));
    '(_, _, equality_violation) ← multiply condition_lc prefix_equal;
    constrain (lc_from_variable equality_violation).
End gadgets.

(** ** The scan over integers *)
Section scan.
Local Open Scope Z_scope.
Context (bs : list bool) (m : Z) (Hm : 0 ≤ m).

(** Equality of the bits from [j] on. *)
Definition prefix_matches (j : nat) : bool := bool_decide (bits_value (drop j bs) = m / 2 ^ Z.of_nat j).
Definition prefix_le (j : nat) : Prop := bits_value (drop j bs) ≤ m / 2 ^ Z.of_nat j.

Lemma prefix_step j b :
  bs !! j = Some b →
  (prefix_le j ↔ prefix_le (S j) ∧
     (Z.testbit m (Z.of_nat j) = false → prefix_matches (S j) = true → b = false)) ∧
  (prefix_le (S j) → (Z.testbit m (Z.of_nat j) = false → prefix_matches (S j) = true → b = false) →
   prefix_matches j = prefix_matches (S j) && (b || negb (Z.testbit m (Z.of_nat j)))).
Proof using Hm.
  intros Hb. unfold prefix_le, prefix_matches.
  rewrite (bits_value_drop_step _ _ _ Hb), (div2_step m j Hm).
  set (x := bits_value (drop (S j) bs)). set (y := m / 2 ^ Z.of_nat (S j)).
  destruct (Z.testbit m (Z.of_nat j)), b; cbn [Z.b2z orb negb andb]; split;
    repeat case_bool_decide; split_and?; try naive_solver lia; try done.
  all: intros; try lia; try (exfalso; lia); naive_solver lia.
Qed.

Lemma prefix_start j : (length bs ≤ j)%nat → m < 2 ^ Z.of_nat j → prefix_matches j = true ∧ prefix_le j.
Proof using Hm.
  intros Hl Hj. unfold prefix_matches, prefix_le. rewrite drop_ge by done.
  rewrite Z.div_small by lia. by split.
Qed.

Lemma prefix_end :
  prefix_le 0 ∧ prefix_matches 0 = false ↔ bits_value bs < m.
Proof using Hm.
  unfold prefix_matches, prefix_le. rewrite drop_0, Z.div_1_r, bool_decide_eq_false. lia.
Qed.

(** A value below the modulus stays below it, prefix by prefix. *)
Lemma prefix_le_below j : bits_value bs < m → (j ≤ length bs)%nat → prefix_le j.
Proof using Hm.
  intros Hlt Hj. unfold prefix_le. rewrite bits_value_drop by done.
  apply Z.div_le_mono; [apply Z.pow_pos_nonneg; lia|lia].
Qed.
End scan.

(** ** Soundness *)
Section bit_soundness.
Context {CY : Cycle} {CL : CycleLaws} {ME : Merlin}.
Add Field bit_field : (scalar_field_theory (F:=CScalar)).
Implicit Types (σ : CSVariable → CScalar) (lc : LinearCombination CScalar).

Definition bit_scalar (b : bool) : CScalar := if b then 1 else 0.
(** The variables have these bits as values. *)
Definition bits_are σ (vars : list CSVariable) (bs : list bool) : Prop :=
  Forall2 (λ v b, σ v = bit_scalar b) vars bs.

Lemma bit_scalar_of_Z b : bit_scalar b = of_Z (Z.b2z b).
Proof. by destruct b. Qed.
Lemma bit_scalar_and a b : bit_scalar (a && b) = bit_scalar a * bit_scalar b.
Proof. destruct a, b; cbn; ring. Qed.
Lemma bit_scalar_inj a b : bit_scalar a = bit_scalar b → a = b.
Proof. pose proof sone_neq_zero. destruct a, b; cbn; congruence. Qed.

Lemma var_sub_value σ v lc : lc_value σ (var_sub v lc) = σ v - lc_value σ lc.
Proof. unfold var_sub. by rewrite lc_value_sub, lc_value_variable. Qed.
Lemma var_mul_value σ v c : lc_value σ (var_mul v c) = σ v * c.
Proof. cbn. ring. Qed.
Lemma scalar_value σ s : σ One = 1 → lc_value σ (lc_from_scalar s) = s.
Proof. intros H1. rewrite lc_value_scalar, H1. ring. Qed.

(** The code's boolean constraint on a multiplier. *)
Lemma boolean_multiplier σ l r o :
  σ One = 1 → σ o = σ l * σ r → lc_value σ (var_sub r (lc_sub (lc_from_scalar 1) (lc_from_variable l))) = 0 →
  lc_value σ (lc_from_variable o) = 0 → ∃ b, σ l = bit_scalar b.
Proof.
  intros Hone Ho Hr Hz. rewrite var_sub_value, lc_value_sub, lc_value_variable, scalar_value in Hr by done.
  rewrite lc_value_variable in Hz. apply (proj1 (ssub_eq_0 _ _)) in Hr. rewrite Hz, Hr in Ho.
  symmetry in Ho. apply smul_integral in Ho as [Hl|Hl]; [by exists false|exists true].
  cbn. symmetry. by apply ssub_eq_0.
Qed.

Lemma decompose_bit_sound σ vars k_lc c bit bs :
  σ One = 1 → bits_are σ vars bs → lc_value σ k_lc = of_Z (bits_value bs) → c = of_Z (2 ^ len bs) →
  gimplies σ (decompose_bit (vars, k_lc, c) bit) (λ '(vars', k_lc', c'), ∃ bs',
    length bs' = S (length bs) ∧ bits_are σ vars' bs' ∧
    lc_value σ k_lc' = of_Z (bits_value bs') ∧ c' = of_Z (2 ^ len bs')).
Proof.
  intros H1 Hbits Hk ->. unfold decompose_bit.
  eapply gimplies_bind; [apply gimplies_allocate_multiplier|].
  intros [[l r] o] Ho. cbn beta in Ho.
  eapply gimplies_bind; [apply gimplies_constrain|]. intros [] Hr.
  eapply gimplies_bind; [apply gimplies_constrain|]. intros [] Hz. apply gimplies_ret.
  pose proof (boolean_multiplier σ l r o H1 Ho Hr Hz) as Hbit.
  destruct Hbit as [b Hb]. exists (bs ++ [b]).
  rewrite length_app, Nat.add_1_r. split; [done|].
  split; [apply Forall2_app; [done|constructor; [done|constructor]]|].
  assert (Hlen : len (bs ++ [b]) = (len bs + 1)%Z) by (unfold len; rewrite length_app; cbn; lia).
  rewrite Hlen, bits_value_app. change (bits_value [b]) with (Z.b2z b + 2 * 0)%Z.
  assert (0 ≤ len bs)%Z by (unfold len; lia).
  rewrite lc_value_add, var_mul_value, Hk, Hb, bit_scalar_of_Z. split.
  - rewrite Z.mul_0_r, Z.add_0_r, of_Z_add, of_Z_mul. ring.
  - rewrite Z.add_1_r, Z.pow_succ_r, of_Z_double by done. done.
Qed.

(** The step of both scans: what the product and the next prefix are. *)
Lemma scan_product σ bs m j b l r o lc :
  bs !! j = Some b → lc_value σ lc = bit_scalar (prefix_matches bs m (S j)) →
  σ o = σ l * σ r → lc_value σ (var_sub l lc) = 0 → σ r = bit_scalar b →
  σ o = bit_scalar (prefix_matches bs m (S j) && b).
Proof.
  intros Hb Hlc Ho Hl Hr. rewrite var_sub_value in Hl. apply (proj1 (ssub_eq_0 _ _)) in Hl.
  by rewrite Ho, Hl, Hlc, Hr, bit_scalar_and.
Qed.

Lemma bits_are_lookup σ vars bs j b :
  bits_are σ vars bs → bs !! j = Some b → σ (vars !!! j) = bit_scalar b.
Proof.
  intros Hbits Hb. destruct (Forall2_lookup_r _ _ _ _ _ Hbits Hb) as (v & Hv & Hvb).
  by rewrite (list_lookup_total_correct _ _ _ Hv).
Qed.

Lemma compare_bit_sound σ vars bits modulus bs st j b :
  σ One = 1 → bits_are σ vars bs → bs !! j = Some b →
  let m := le_value modulus in
  lc_value σ st.1 = bit_scalar (prefix_matches bs m (S j)) → prefix_le bs m (S j) →
  gimplies σ (compare_bit vars bits modulus st j) (λ st',
    lc_value σ st'.1 = bit_scalar (prefix_matches bs m j) ∧ prefix_le bs m j).
Proof.
  intros H1 Hbits Hb m Hlc Hle. destruct st as [lc eq]. cbn [fst] in Hlc. unfold compare_bit.
  destruct (prefix_step bs m (le_value_nonneg _) j b Hb) as [Hle' Hmatch].
  eapply gimplies_bind; [apply gimplies_allocate_multiplier|].
  intros [[l r] o] Ho. cbn beta in Ho.
  eapply gimplies_bind; [apply gimplies_constrain|]. intros [] Hl.
  eapply gimplies_bind; [apply gimplies_constrain|]. intros [] Hr.
  rewrite var_sub_value, lc_value_variable in Hr. apply (proj1 (ssub_eq_0 _ _)) in Hr.
  rewrite (bits_are_lookup _ _ _ _ _ Hbits Hb) in Hr.
  pose proof (scan_product σ bs m j b l r o lc Hb Hlc Ho Hl Hr) as Hprod.
  rewrite modulus_bit_spec. fold m. destruct (Z.testbit m (Z.of_nat j)).
  - apply gimplies_ret. cbn [fst]. rewrite lc_value_variable, Hprod, Hmatch, Hle' by done.
    cbn [negb]. rewrite orb_false_r. split; [done|]. by split.
  - eapply gimplies_bind; [apply gimplies_constrain|]. intros [] Hz. apply gimplies_ret. cbn [fst].
    rewrite lc_value_variable, Hprod in Hz. apply (bit_scalar_inj _ false) in Hz.
    assert (Hb0 : prefix_matches bs m (S j) = true → b = false).
    { intros E. by rewrite E in Hz. }
    rewrite Hmatch, Hle' by done. rewrite orb_true_r, andb_true_r.
    rewrite lc_value_sub, lc_value_variable, Hlc, Hprod, Hz. split; [cbn; ring|by split].
Qed.

(** Position [k] of the scan is bit [n - 1 - k]. *)
Lemma reverse_seq_position n l1 j l2 :
  reverse (seq 0 n) = l1 ++ j :: l2 → j = (n - 1 - length l1)%nat ∧ (length l1 < n)%nat.
Proof.
  intros E. assert (Hl : (length l1 < n)%nat).
  { apply (f_equal length) in E. rewrite length_reverse, length_seq, length_app in E. cbn in E. lia. }
  split; [|done].
  assert (Hj : reverse (seq 0 n) !! length l1 = Some j) by by rewrite E, list_lookup_middle.
  rewrite reverse_lookup in Hj by (rewrite length_seq; lia).
  rewrite length_seq in Hj. apply lookup_seq in Hj. lia.
Qed.

(** The decomposition: an assignment that satisfies it gives the bits of an integer
    below the modulus whose image is the decomposed value. *)
Lemma bit_decompose_bounded_sound σ k_var bits modulus :
  σ One = 1 → (le_value modulus < 2 ^ Z.of_nat (K_BITS + 1))%Z →
  gimplies σ (bit_decompose_bounded k_var bits modulus) (λ vars, ∃ bs,
    length bs = (K_BITS + 1)%nat ∧ bits_are σ vars bs ∧ σ k_var = of_Z (bits_value bs) ∧
    (bits_value bs < le_value modulus)%Z).
Proof.
  intros H1 Hm. unfold bit_decompose_bounded.
  destruct (Nat.eqb_spec (length bits) (K_BITS + 1)) as [Hlen|]; cbn [negb]; [|apply gimplies_fails].
  eapply gimplies_bind.
  { eapply (gimplies_gfold _ (λ seen '(vars, k_lc, c), ∃ bs, length bs = length seen ∧
      bits_are σ vars bs ∧ lc_value σ k_lc = of_Z (bits_value bs) ∧ c = of_Z (2 ^ len bs))).
    - exists []. split; [done|]. split; [constructor|]. by rewrite of_Z_0, of_Z_1.
    - intros l1 bit l2 [[vars k_lc] c] _ (bs & Hl & Hb & Hk & Hc).
      eapply gimplies_mono; [by apply (decompose_bit_sound _ _ _ _ _ bs)|].
      intros [[vars' k_lc'] c'] (bs' & Hl' & ?). exists bs'. rewrite length_app, Hl', Hl. cbn.
      split; [lia|done]. }
  intros [[vars k_lc] c] (bs & Hl & Hb & Hk & _). rewrite Hlen in Hl.
  eapply gimplies_bind; [apply gimplies_constrain|]. intros [] Hkv.
  rewrite lc_value_sub, lc_value_variable, Hk in Hkv. apply (proj1 (ssub_eq_0 _ _)) in Hkv.
  set (n := (K_BITS + 1)%nat) in *. set (m := le_value modulus) in *.
  eapply gimplies_bind.
  { eapply (gimplies_gfold _ (λ seen st,
      lc_value σ st.1 = bit_scalar (prefix_matches bs m (n - length seen)) ∧
      prefix_le bs m (n - length seen))).
    - cbn [length fst]. rewrite Nat.sub_0_r, scalar_value by done.
      destruct (prefix_start bs m (le_value_nonneg _) n) as [-> ?]; [lia|done|]. by split.
    - intros l1 j l2 st E [Hpe Hpl]. apply reverse_seq_position in E as [-> Hlt].
      destruct (lookup_lt_is_Some_2 bs (n - 1 - length l1)) as [b Hbj]; [lia|].
      replace (n - length l1)%nat with (S (n - 1 - length l1)) in Hpe, Hpl by lia.
      rewrite length_app. replace (n - (length l1 + length [n - 1 - length l1]))%nat
        with (n - 1 - length l1)%nat by (cbn; lia).
      by apply (compare_bit_sound _ _ _ _ _ _ _ b). }
  intros [lc eq] [Hpe Hpl]. cbn [fst] in Hpe.
  rewrite length_reverse, length_seq, Nat.sub_diag in Hpe, Hpl.
  eapply gimplies_bind; [apply gimplies_constrain|]. intros [] Hz. apply gimplies_ret.
  rewrite Hpe in Hz. apply (bit_scalar_inj _ false) in Hz.
  exists bs. split; [done|]. split; [done|]. split; [done|].
  apply (prefix_end bs m (le_value_nonneg _)). by split.
Qed.

(** *** The conditional bound *)
Lemma find_split {A} (f : A → bool) l x :
  List.find f l = Some x → ∃ l1 l2, l = l1 ++ x :: l2 ∧ f x = true ∧ ∀ y, y ∈ l1 → f y = false.
Proof.
  induction l as [|a l IH]; cbn; [done|]. destruct (f a) eqn:Hf.
  - intros [= ->]. exists [], l. split; [done|]. split; [done|]. by intros y ?%elem_of_nil.
  - intros (l1 & l2 & -> & Hx & Hl)%IH. exists (a :: l1), l2. split; [done|]. split; [done|].
    intros y [->|Hy]%elem_of_cons; auto.
Qed.

Lemma below_power m k :
  (0 ≤ m)%Z → (∀ j, (k ≤ j)%nat → Z.testbit m (Z.of_nat j) = false) → (m < 2 ^ Z.of_nat k)%Z.
Proof.
  intros Hm Hbits.
  assert (Hz : Z.shiftr m (Z.of_nat k) = 0%Z).
  { apply Z.bits_inj'. intros i Hi. rewrite Z.shiftr_spec, Z.testbit_0_l by done.
    replace (i + Z.of_nat k)%Z with (Z.of_nat (Z.to_nat i + k)) by lia. apply Hbits. lia. }
  rewrite Z.shiftr_div_pow2 in Hz by lia.
  assert (0 < 2 ^ Z.of_nat k)%Z by (apply Z.pow_pos_nonneg; lia).
  apply Z.div_small_iff in Hz; lia.
Qed.

Lemma lower_bits_start_spec bound :
  (le_value bound < 2 ^ Z.of_nat (K_BITS + 1))%Z →
  (le_value bound < 2 ^ Z.of_nat (lower_bits_start bound))%Z ∧ (lower_bits_start bound ≤ K_BITS + 1)%nat.
Proof.
  intros Hm. set (n := (K_BITS + 1)%nat) in *.
  assert (Hhigh : ∀ j, (n ≤ j)%nat → Z.testbit (le_value bound) (Z.of_nat j) = false).
  { intros j Hj. destruct (Z.eq_dec (le_value bound) 0%Z) as [->|]; [apply Z.testbit_0_l|].
    pose proof (le_value_nonneg bound). apply Z.bits_above_log2; [lia|].
    apply Z.log2_lt_pow2; [lia|]. eapply Z.lt_le_trans; [exact Hm|]. apply Z.pow_le_mono_r; lia. }
  unfold lower_bits_start. fold n.
  destruct (List.find _ _) as [msb|] eqn:Hf.
  - apply find_split in Hf as (l1 & l2 & E & _ & Hl1).
    destruct (reverse_seq_position _ _ _ _ E) as [-> Hlt]. split; [|lia].
    apply below_power; [apply le_value_nonneg|]. intros j Hj.
    destruct (Nat.le_gt_cases n j); [by apply Hhigh|].
    rewrite <-modulus_bit_spec. apply Hl1.
    apply list_elem_of_lookup. exists (n - 1 - j)%nat.
    assert (Hr : reverse (seq 0 n) !! (n - 1 - j)%nat = Some j).
    { rewrite reverse_lookup by (rewrite length_seq; lia). rewrite length_seq. apply lookup_seq. lia. }
    rewrite E, lookup_app_l in Hr by lia. done.
  - split; [|lia]. apply below_power; [apply le_value_nonneg|]. intros j _.
    destruct (Nat.le_gt_cases n j); [by apply Hhigh|].
    rewrite <-modulus_bit_spec. apply (List.find_none _ _ Hf).
    apply list_elem_of_In. rewrite elem_of_reverse. apply elem_of_seq. lia.
Qed.

(** The number of set bits, and their sum in the field. *)
Definition count_bits (bs : list bool) : Z := foldr (λ b acc, Z.b2z b + acc)%Z 0%Z bs.
Lemma count_bits_cons b bs : count_bits (b :: bs) = (Z.b2z b + count_bits bs)%Z.
Proof. done. Qed.
Lemma count_bits_range bs : (0 ≤ count_bits bs ≤ len bs)%Z.
Proof.
  induction bs as [|b bs IH]; [done|]. rewrite count_bits_cons. unfold len in *. cbn [length].
  destruct b; cbn [Z.b2z]; lia.
Qed.
Lemma count_bits_0 bs : count_bits bs = 0%Z → bits_value bs = 0%Z.
Proof.
  induction bs as [|b bs IH]; [done|]. pose proof (count_bits_range bs). rewrite count_bits_cons.
  change (bits_value (b :: bs)) with (Z.b2z b + 2 * bits_value bs)%Z. destruct b; cbn [Z.b2z]; lia.
Qed.
Lemma high_sum_value σ vars bs lc :
  bits_are σ vars bs →
  lc_value σ (foldl (λ lc bit, lc_add lc (lc_from_variable bit)) lc vars)
  = lc_value σ lc + of_Z (count_bits bs).
Proof.
  intros Hb. revert lc. induction Hb as [|v b vars bs Hv _ IH]; intros lc; cbn [foldl].
  - change (count_bits []) with 0%Z. rewrite of_Z_0. ring.
  - rewrite IH, lc_value_add, lc_value_variable, Hv, bit_scalar_of_Z.
    rewrite count_bits_cons, of_Z_add. ring.
Qed.

Lemma compare_bit_when_sound σ vars bits bound cond bs st j b :
  σ One = 1 → bits_are σ vars bs → bs !! j = Some b → lc_value σ cond = 1 →
  let m := le_value bound in
  lc_value σ st.1 = bit_scalar (prefix_matches bs m (S j)) → prefix_le bs m (S j) →
  gimplies σ (compare_bit_when vars bits bound cond st j) (λ st',
    lc_value σ st'.1 = bit_scalar (prefix_matches bs m j) ∧ prefix_le bs m j).
Proof.
  intros H1 Hbits Hb Hcond m Hlc Hle. destruct st as [lc eq]. cbn [fst] in Hlc. unfold compare_bit_when.
  destruct (prefix_step bs m (le_value_nonneg _) j b Hb) as [Hle' Hmatch].
  eapply gimplies_bind; [apply gimplies_allocate_multiplier|].
  intros [[l r] o] Ho. cbn beta in Ho.
  eapply gimplies_bind; [apply gimplies_constrain|]. intros [] Hl.
  eapply gimplies_bind; [apply gimplies_constrain|]. intros [] Hr.
  rewrite var_sub_value, lc_value_variable in Hr. apply (proj1 (ssub_eq_0 _ _)) in Hr.
  rewrite (bits_are_lookup _ _ _ _ _ Hbits Hb) in Hr.
  pose proof (scan_product σ bs m j b l r o lc Hb Hlc Ho Hl Hr) as Hprod.
  rewrite modulus_bit_spec. fold m. destruct (Z.testbit m (Z.of_nat j)).
  - apply gimplies_ret. cbn [fst]. rewrite lc_value_variable, Hprod, Hmatch, Hle' by done.
    cbn [negb]. rewrite orb_false_r. split; [done|]. by split.
  - eapply gimplies_bind; [apply gimplies_multiply|]. intros [[vl vr] vo] (Hvl & Hvr & Hvo).
    eapply gimplies_bind; [apply gimplies_constrain|]. intros [] Hz. apply gimplies_ret. cbn [fst].
    rewrite lc_value_variable, Hvo, Hvl, Hvr, Hcond, smul_1_l, lc_value_variable, Hprod in Hz.
    apply (bit_scalar_inj _ false) in Hz.
    assert (Hb0 : prefix_matches bs m (S j) = true → b = false).
    { intros E. by rewrite E in Hz. }
    rewrite Hmatch, Hle' by done. rewrite orb_true_r, andb_true_r.
    rewrite lc_value_sub, lc_value_variable, Hlc, Hprod, Hz. split; [cbn; ring|by split].
Qed.

(** Under the condition, the bits encode an integer below the bound, when the
    characteristic exceeds the number of bits. *)
Lemma constrain_bits_lt_bound_when_sound σ vars bits bound cond bs c :
  σ One = 1 → (le_value bound < 2 ^ Z.of_nat (K_BITS + 1))%Z →
  (∀ n, (0 < n ≤ Z.of_nat (K_BITS + 1))%Z → of_Z (F:=CScalar) n ≠ 0) →
  length bs = (K_BITS + 1)%nat → bits_are σ vars bs → σ cond = bit_scalar c →
  gimplies σ (constrain_bits_lt_bound_when vars bits bound cond) (λ _,
    c = true → (bits_value bs < le_value bound)%Z).
Proof.
  intros H1 Hm Hchar Hlen Hbits Hc. destruct c; [|by apply gimplies_trivial].
  assert (Hcond : lc_value σ (lc_from_variable cond) = 1) by by rewrite lc_value_variable.
  unfold constrain_bits_lt_bound_when.
  destruct (negb _ || negb _)%bool; [apply gimplies_fails|].
  destruct (lower_bits_start_spec bound Hm) as [Hstart Hsn].
  set (start := lower_bits_start bound) in *. set (m := le_value bound) in *.
  pose proof (Forall2_length _ _ _ Hbits) as Hlv.
  eapply (gimplies_bind _ _ _ (λ _, bits_value (drop start bs) = 0%Z)).
  { destruct (Nat.ltb_spec start (length vars)) as [Hlt|Hge].
    - eapply gimplies_bind; [apply gimplies_multiply|]. intros [[vl vr] vo] (Hvl & Hvr & Hvo).
      eapply gimplies_mono; [apply gimplies_constrain|]. intros [] Hz.
      rewrite lc_value_variable, Hvo, Hvl, Hvr, Hcond, smul_1_l in Hz.
      rewrite (high_sum_value _ _ (drop start bs)) in Hz by by apply Forall2_drop.
      change (lc_value σ lc_default) with (0 : CScalar) in Hz. rewrite sadd_0_l in Hz.
      apply count_bits_0. pose proof (count_bits_range (drop start bs)) as Hr.
      unfold len in Hr. rewrite length_drop in Hr.
      destruct (Z.eq_dec (count_bits (drop start bs)) 0%Z) as [|Hne]; [done|].
      exfalso. by apply (Hchar (count_bits (drop start bs))); [lia|].
    - apply gimplies_ret. by rewrite drop_ge by lia. }
  intros [] Hhigh.
  eapply gimplies_bind.
  { eapply (gimplies_gfold _ (λ seen st,
      lc_value σ st.1 = bit_scalar (prefix_matches bs m (start - length seen)) ∧
      prefix_le bs m (start - length seen))).
    - cbn [length fst]. rewrite Nat.sub_0_r, scalar_value by done.
      unfold prefix_matches, prefix_le. rewrite Hhigh, Z.div_small by (split; [apply le_value_nonneg|done]).
      by rewrite bool_decide_eq_true_2.
    - intros l1 j l2 st E [Hpe Hpl]. apply reverse_seq_position in E as [-> Hlt].
      destruct (lookup_lt_is_Some_2 bs (start - 1 - length l1)) as [b Hbj]; [lia|].
      replace (start - length l1)%nat with (S (start - 1 - length l1)) in Hpe, Hpl by lia.
      rewrite length_app. replace (start - (length l1 + length [start - 1 - length l1]))%nat
        with (start - 1 - length l1)%nat by (cbn; lia).
      by apply (compare_bit_when_sound _ _ _ _ _ _ _ _ b). }
  intros [lc eq] [Hpe Hpl]. cbn [fst] in Hpe.
  rewrite length_reverse, length_seq, Nat.sub_diag in Hpe, Hpl.
  eapply gimplies_bind; [apply gimplies_multiply|]. intros [[vl vr] vo] (Hvl & Hvr & Hvo).
  eapply gimplies_mono; [apply gimplies_constrain|]. intros [] Hz _.
  rewrite lc_value_variable, Hvo, Hvl, Hvr, Hcond, smul_1_l, Hpe in Hz.
  apply (bit_scalar_inj _ false) in Hz.
  apply (prefix_end bs m (le_value_nonneg _)). by split.
Qed.

(** Variables have the values of one list of bits only. *)
Lemma bits_are_inj σ vars bs bs' : bits_are σ vars bs → bits_are σ vars bs' → bs = bs'.
Proof.
  intros Hb. revert bs'. induction Hb as [|v b vars bs Hv _ IH]; intros bs' Hb';
    inversion Hb' as [|? b2 ? bs2 Hv2 Hσ2]; subst; [done|].
  f_equal; [|by apply IH]. apply bit_scalar_inj. by rewrite <-Hv, <-Hv2.
Qed.
End bit_soundness.

(** ** Completeness *)
Section bit_completeness.
Context {CY : Cycle} {CL : CycleLaws} {ME : Merlin}.
Add Field bit_complete_field : (scalar_field_theory (F:=CScalar)).
Implicit Types (Γ : env) (lc : LinearCombination CScalar).

Definition bit_options (bits : list bool) : list (option CScalar) :=
  (λ b : bool, if b then Some 1 else Some 0) <$> bits.
Definition bits_known Γ (vars : list CSVariable) (bs : list bool) : Prop :=
  Forall2 (λ v b, Γ v (bit_scalar b)) vars bs.

Lemma bits_known_mono Γ Γ' vars bs : extends Γ Γ' → bits_known Γ vars bs → bits_known Γ' vars bs.
Proof. intros HΓ Hb. eapply Forall2_impl; [exact Hb|]. intros v b. apply HΓ. Qed.
Lemma bits_known_lookup Γ vars bs j b :
  bits_known Γ vars bs → bs !! j = Some b → Γ (vars !!! j) (bit_scalar b).
Proof.
  intros Hbits Hb. destruct (Forall2_lookup_r _ _ _ _ _ Hbits Hb) as (v & Hv & Hvb).
  by rewrite (list_lookup_total_correct _ _ _ Hv).
Qed.
Lemma bit_options_lookup bs j b : bs !! j = Some b → bit_options bs !!! j = Some (bit_scalar b).
Proof.
  intros Hb. apply list_lookup_total_correct. unfold bit_options. rewrite list_lookup_fmap, Hb.
  by destruct b.
Qed.

(** Known values that a constraint equates. *)
Lemma gproduces_equal Γ lc x (Q : env → unit → Prop) :
  lc_known Γ lc x → x = 0 → Q Γ tt → gproduces Γ (constrain lc) Q.
Proof. intros Hlc -> HQ. by apply gproduces_constrain. Qed.
Lemma known_var_sub Γ v lc x y : Γ v x → lc_known Γ lc y → lc_known Γ (var_sub v lc) (x - y).
Proof. intros. apply known_sub; [by apply known_variable|done]. Qed.

Lemma decompose_bit_complete Γ vars k_lc bs b :
  Γ One 1 → bits_known Γ vars bs → lc_known Γ k_lc (of_Z (bits_value bs)) →
  gproduces Γ (decompose_bit (vars, k_lc, of_Z (2 ^ len bs)) (Some (bit_scalar b)))
    (λ Γ' '(vars', k_lc', c'), bits_known Γ' vars' (bs ++ [b]) ∧
       lc_known Γ' k_lc' (of_Z (bits_value (bs ++ [b]))) ∧ c' = of_Z (2 ^ len (bs ++ [b]))).
Proof.
  intros H1 Hbits Hk. unfold decompose_bit. cbn [fmap option_fmap option_map].
  eapply gproduces_bind; [by apply gproduces_allocate_multiplier with
    (Q := λ Γ' '(vl, vr, vo), Γ' vl (bit_scalar b) ∧ Γ' vr (1 - bit_scalar b) ∧
            Γ' vo (bit_scalar b * (1 - bit_scalar b)))|].
  intros Γ1 [[l r] o] HΓ1 (Hl & Hr & Ho).
  eapply gproduces_bind.
  { eapply gproduces_equal with (Q := λ _ _, True);
      [apply known_var_sub; [exact Hr|apply known_sub; [apply known_scalar; by apply HΓ1|
       apply known_variable; exact Hl]]|ring|done]. }
  intros Γ2 _ HΓ2 _. eapply gproduces_bind.
  { eapply gproduces_equal with (Q := λ _ _, True);
      [apply known_variable; by apply HΓ2|destruct b; cbn; ring|done]. }
  intros Γ3 _ HΓ3 _. apply gproduces_ret.
  assert (HΓ : extends Γ Γ3) by (etransitivity; [exact HΓ1|by etransitivity]).
  assert (HΓ13 : extends Γ1 Γ3) by by etransitivity.
  split.
  { apply Forall2_app; [exact (bits_known_mono _ _ _ _ HΓ Hbits)|].
    constructor; [exact (HΓ13 _ _ Hl)|constructor]. }
  assert (Hlen : len (bs ++ [b]) = (len bs + 1)%Z) by (unfold len; rewrite length_app; cbn; lia).
  assert (0 ≤ len bs)%Z by (unfold len; lia).
  rewrite Hlen, bits_value_app. change (bits_value [b]) with (Z.b2z b + 2 * 0)%Z. split.
  - eapply known_eq; [apply known_add; [exact (lc_known_mono _ _ _ _ HΓ Hk)|apply known_var_mul; apply HΓ13, Hl]|].
    rewrite bit_scalar_of_Z, Z.mul_0_r, Z.add_0_r, of_Z_add, of_Z_mul. ring.
  - rewrite Z.add_1_r, Z.pow_succ_r, of_Z_double by done. done.
Qed.

Lemma compare_bit_complete Γ vars modulus bs lc j b :
  Γ One 1 → bits_known Γ vars bs → bs !! j = Some b →
  let m := le_value modulus in
  lc_known Γ lc (bit_scalar (prefix_matches bs m (S j))) → prefix_le bs m (S j) → prefix_le bs m j →
  gproduces Γ (compare_bit vars (bit_options bs) modulus
      (lc, Some (bit_scalar (prefix_matches bs m (S j)))) j)
    (λ Γ' '(lc', eq'), lc_known Γ' lc' (bit_scalar (prefix_matches bs m j)) ∧
       eq' = Some (bit_scalar (prefix_matches bs m j))).
Proof.
  intros H1 Hbits Hb m Hlc HleS Hle. unfold compare_bit.
  destruct (prefix_step bs m (le_value_nonneg _) j b Hb) as [Hstep Hmatch].
  apply Hstep in Hle as [_ Hb0]. specialize (Hmatch HleS Hb0).
  rewrite (bit_options_lookup _ _ _ Hb). cbn [product_assignment].
  set (e := prefix_matches bs m (S j)) in *.
  eapply gproduces_bind; [by apply gproduces_allocate_multiplier with
    (Q := λ Γ' '(vl, vr, vo), Γ' vl (bit_scalar e) ∧ Γ' vr (bit_scalar b) ∧
            Γ' vo (bit_scalar e * bit_scalar b))|].
  intros Γ1 [[l r] o] HΓ1 (Hl & Hr & Ho). rewrite <-bit_scalar_and in Ho.
  eapply gproduces_bind.
  { eapply gproduces_equal with (Q := λ _ _, True);
      [apply known_var_sub; [exact Hl|exact (lc_known_mono _ _ _ _ HΓ1 Hlc)]|apply ssub_diag|done]. }
  intros Γ2 _ HΓ2 _. eapply gproduces_bind.
  { eapply gproduces_equal with (Q := λ _ _, True);
      [apply known_var_sub; [apply HΓ2, Hr|apply known_variable, HΓ2, HΓ1;
         exact (bits_known_lookup _ _ _ _ _ Hbits Hb)]|apply ssub_diag|done]. }
  intros Γ3 _ HΓ3 _. assert (HΓ13 : extends Γ1 Γ3) by by etransitivity.
  assert (HΓ : extends Γ Γ3) by by etransitivity.
  rewrite modulus_bit_spec. fold m. destruct (Z.testbit m (Z.of_nat j)) eqn:Hbit.
  - apply gproduces_ret. cbn [matched_assignment]. cbn [negb] in Hmatch.
    rewrite orb_false_r in Hmatch. rewrite Hmatch. split; [apply known_variable, HΓ13, Ho|].
    by rewrite bit_scalar_and.
  - cbn [negb] in Hmatch. rewrite orb_true_r, andb_true_r in Hmatch.
    assert (Hand : e && b = false) by (destruct e; [by apply Hb0|done]).
    eapply gproduces_bind.
    { eapply gproduces_equal with (Q := λ _ _, True);
        [apply known_variable, HΓ13, Ho|by rewrite Hand|done]. }
    intros Γ4 _ HΓ4 _. apply gproduces_ret. cbn [unmatched_assignment]. rewrite Hmatch. split.
    + eapply known_eq; [apply known_sub; [exact (lc_known_mono _ _ _ _ (transitivity HΓ HΓ4) Hlc)|
        apply known_variable, HΓ4, HΓ13, Ho]|]. rewrite Hand. cbn. ring.
    + f_equal. assert (E : bit_scalar e * bit_scalar b = 0) by by rewrite <-bit_scalar_and, Hand.
      replace (bit_scalar e * (1 - bit_scalar b)) with (bit_scalar e - bit_scalar e * bit_scalar b) by ring.
      rewrite E. ring.
Qed.

Lemma bit_decompose_bounded_complete Γ k_var modulus bs :
  Γ One 1 → (le_value modulus < 2 ^ Z.of_nat (K_BITS + 1))%Z → length bs = (K_BITS + 1)%nat →
  Γ k_var (of_Z (bits_value bs)) → (bits_value bs < le_value modulus)%Z →
  gproduces Γ (bit_decompose_bounded k_var (bit_options bs) modulus)
    (λ Γ' vars, bits_known Γ' vars bs).
Proof.
  intros H1 Hm Hlen Hk Hlt. unfold bit_decompose_bounded.
  assert (Hlo : length (bit_options bs) = (K_BITS + 1)%nat) by (unfold bit_options; by rewrite length_fmap).
  rewrite Hlo, Nat.eqb_refl. cbn [negb]. set (n := (K_BITS + 1)%nat) in *.
  set (m := le_value modulus) in *.
  eapply gproduces_bind.
  { eapply (gproduces_gfold _ (λ seen Γ' '(vars, k_lc, c), Γ' One 1 ∧
      bits_known Γ' vars (take (length seen) bs) ∧
      lc_known Γ' k_lc (of_Z (bits_value (take (length seen) bs))) ∧
      c = of_Z (2 ^ len (take (length seen) bs)))).
    - cbn. split; [done|]. split; [constructor|]. split; [|by rewrite of_Z_1].
      change (bits_value []) with 0%Z. rewrite of_Z_0. constructor.
    - intros l1 bit l2 Γ' [[vars k_lc] c] E HΓ (H1' & Hb & Hkl & ->).
      assert (Hbit : bit_options bs !! length l1 = Some bit) by by rewrite E, list_lookup_middle.
      unfold bit_options in Hbit. apply list_lookup_fmap_Some in Hbit as (b & -> & Hbb).
      replace (if b then Some 1 else Some 0) with (Some (bit_scalar b)) by by destruct b.
      eapply gproduces_mono; [by apply decompose_bit_complete|].
      intros Γ'' [[vars' k_lc'] c'] HΓ' (Hb' & Hk' & ->). rewrite length_app. cbn [length].
      rewrite Nat.add_1_r, (take_S_r _ _ _ Hbb). auto. }
  intros Γ1 [[vars k_lc] c] HΓ1 (H1' & Hb & Hkl & _).
  rewrite Hlo, take_ge in Hb, Hkl by lia.
  eapply gproduces_bind.
  { eapply gproduces_equal with (Q := λ _ _, True);
      [apply known_sub; [exact Hkl|apply known_variable, HΓ1, Hk]|apply ssub_diag|done]. }
  intros Γ2 _ HΓ2 _.
  assert (Hle : ∀ j, (j ≤ n)%nat → prefix_le bs m j).
  { intros j Hj. apply prefix_le_below; [apply le_value_nonneg|done|lia]. }
  eapply gproduces_bind.
  { eapply (gproduces_gfold _ (λ seen Γ' '(lc, eq), Γ' One 1 ∧ bits_known Γ' vars bs ∧
      lc_known Γ' lc (bit_scalar (prefix_matches bs m (n - length seen))) ∧
      eq = Some (bit_scalar (prefix_matches bs m (n - length seen))))).
    - cbn [length]. rewrite Nat.sub_0_r.
      destruct (prefix_start bs m (le_value_nonneg _) n) as [-> _]; [lia|done|].
      split; [by apply HΓ2|]. split; [by eapply bits_known_mono|]. split; [|done].
      apply known_scalar. by apply HΓ2.
    - intros l1 j l2 Γ' [lc eq] E HΓ (H1'' & Hb' & Hlc & ->).
      apply reverse_seq_position in E as [-> Hl1].
      destruct (lookup_lt_is_Some_2 bs (n - 1 - length l1)) as [b Hbj]; [lia|].
      replace (n - length l1)%nat with (S (n - 1 - length l1)) in Hlc |- * by lia.
      rewrite length_app. replace (n - (length l1 + length [n - 1 - length l1]))%nat
        with (n - 1 - length l1)%nat by (cbn; lia).
      eapply gproduces_mono; [by apply (compare_bit_complete _ _ _ _ _ _ b); try apply Hle; try lia|].
      intros Γ'' [lc' eq'] HΓ' [Hlc' ->]. split; [by apply HΓ'|]. split; [by eapply bits_known_mono|done]. }
  intros Γ3 [lc eq] HΓ3 (_ & Hb' & Hlc & _). rewrite length_reverse, length_seq, Nat.sub_diag in Hlc.
  destruct (proj2 (prefix_end bs m (le_value_nonneg _)) Hlt) as [_ H0].
  eapply gproduces_bind.
  { eapply gproduces_equal with (Q := λ _ _, True); [exact Hlc|by rewrite H0|done]. }
  intros Γ4 _ HΓ4 _. apply gproduces_ret. by eapply bits_known_mono.
Qed.

(** *** The conditional bound *)
Lemma prefix_matches_step bs m j b :
  (0 ≤ m)%Z → bs !! j = Some b →
  prefix_matches bs m j = prefix_matches bs m (S j) && Bool.eqb b (Z.testbit m (Z.of_nat j)).
Proof.
  intros Hm Hb. unfold prefix_matches. rewrite (bits_value_drop_step _ _ _ Hb), (div2_step m j Hm).
  set (x := bits_value (drop (S j) bs)). set (y := (m / 2 ^ Z.of_nat (S j))%Z).
  destruct (Z.testbit m (Z.of_nat j)), b; cbn [Z.b2z Bool.eqb]; repeat case_bool_decide; try done; lia.
Qed.

Lemma count_bits_value_0 bs : bits_value bs = 0%Z → count_bits bs = 0%Z.
Proof.
  induction bs as [|b bs IH]; [done|]. pose proof (bits_value_range bs). rewrite count_bits_cons.
  change (bits_value (b :: bs)) with (Z.b2z b + 2 * bits_value bs)%Z. destruct b; cbn [Z.b2z]; lia.
Qed.

Lemma high_sum_known Γ vars bs lc x :
  bits_known Γ vars bs → lc_known Γ lc x →
  lc_known Γ (foldl (λ lc bit, lc_add lc (lc_from_variable bit)) lc vars) (x + of_Z (count_bits bs)).
Proof.
  intros Hb. revert lc x. induction Hb as [|v b vars bs Hv _ IH]; intros lc x Hlc; cbn [foldl].
  - change (count_bits []) with 0%Z. eapply known_eq; [exact Hlc|]. rewrite of_Z_0. ring.
  - eapply known_eq; [apply IH, known_add; [exact Hlc|apply known_variable, Hv]|].
    rewrite count_bits_cons, of_Z_add, bit_scalar_of_Z. ring.
Qed.

Lemma compare_bit_when_complete Γ vars bound bs lbs cond lc c j b :
  Γ One 1 → bits_known Γ vars bs → bs !! j = Some b → lbs !! j = Some b →
  lc_known Γ cond (bit_scalar c) →
  let m := le_value bound in
  lc_known Γ lc (bit_scalar (prefix_matches lbs m (S j))) →
  (c = true → prefix_le lbs m (S j) ∧ prefix_le lbs m j) →
  gproduces Γ (compare_bit_when vars (bit_options bs) bound cond
      (lc, Some (bit_scalar (prefix_matches lbs m (S j)))) j)
    (λ Γ' '(lc', eq'), lc_known Γ' lc' (bit_scalar (prefix_matches lbs m j)) ∧
       eq' = Some (bit_scalar (prefix_matches lbs m j))).
Proof.
  intros H1 Hbits Hb Hlb Hcond m Hlc Hle. unfold compare_bit_when.
  pose proof (prefix_matches_step lbs m j b (le_value_nonneg _) Hlb) as Hmatch.
  rewrite (bit_options_lookup _ _ _ Hb). cbn [product_assignment].
  set (e := prefix_matches lbs m (S j)) in *.
  eapply gproduces_bind; [by apply gproduces_allocate_multiplier with
    (Q := λ Γ' '(vl, vr, vo), Γ' vl (bit_scalar e) ∧ Γ' vr (bit_scalar b) ∧
            Γ' vo (bit_scalar e * bit_scalar b))|].
  intros Γ1 [[l r] o] HΓ1 (Hl & Hr & Ho). rewrite <-bit_scalar_and in Ho.
  eapply gproduces_bind.
  { eapply gproduces_equal with (Q := λ _ _, True);
      [apply known_var_sub; [exact Hl|exact (lc_known_mono _ _ _ _ HΓ1 Hlc)]|apply ssub_diag|done]. }
  intros Γ2 _ HΓ2 _. eapply gproduces_bind.
  { eapply gproduces_equal with (Q := λ _ _, True);
      [apply known_var_sub; [apply HΓ2, Hr|apply known_variable, HΓ2, HΓ1;
         exact (bits_known_lookup _ _ _ _ _ Hbits Hb)]|apply ssub_diag|done]. }
  intros Γ3 _ HΓ3 _. assert (HΓ13 : extends Γ1 Γ3) by by etransitivity.
  assert (HΓ : extends Γ Γ3) by by etransitivity.
  rewrite modulus_bit_spec. fold m. destruct (Z.testbit m (Z.of_nat j)) eqn:Hbit.
  - apply gproduces_ret. cbn [matched_assignment].
    assert (Hj : prefix_matches lbs m j = e && b) by (rewrite Hmatch; by destruct e, b).
    rewrite Hj. split; [apply known_variable, HΓ13, Ho|]. by rewrite bit_scalar_and.
  - assert (Hj : prefix_matches lbs m j = e && negb b) by (rewrite Hmatch; by destruct e, b).
    assert (Hviol : bit_scalar c * bit_scalar (e && b) = 0).
    { rewrite <-bit_scalar_and. destruct c; [|done]. destruct (Hle eq_refl) as [HleS Hlej].
      destruct (prefix_step lbs m (le_value_nonneg _) j b Hlb) as [Hstep _].
      apply Hstep in Hlej as [_ Hb0]. destruct e eqn:He; [|done]. by rewrite (Hb0 Hbit He). }
    eapply gproduces_bind; [by eapply gproduces_multiply with
      (Q := λ Γ' '(_, _, vo), Γ' vo (bit_scalar c * bit_scalar (e && b)));
      [exact (lc_known_mono _ _ _ _ HΓ Hcond)|apply known_variable, HΓ13, Ho|]|].
    intros Γ4 [[vl vr] vo] HΓ4 Hvo. eapply gproduces_bind.
    { eapply gproduces_equal with (Q := λ _ _, True); [apply known_variable, Hvo|exact Hviol|done]. }
    intros Γ5 _ HΓ5 _. apply gproduces_ret. cbn [unmatched_assignment]. rewrite Hj.
    assert (Hval : bit_scalar e - bit_scalar (e && b) = bit_scalar (e && negb b)).
    { destruct e, b; cbn; ring. }
    assert (HΓ35 : extends Γ3 Γ5) by by etransitivity. split.
    + eapply known_eq; [apply known_sub; [exact (lc_known_mono _ _ _ _ (transitivity HΓ HΓ35) Hlc)|
        apply known_variable, HΓ35, HΓ13, Ho]|exact Hval].
    + f_equal. rewrite <-Hval, bit_scalar_and. ring.
Qed.

Lemma constrain_bits_lt_bound_when_complete Γ vars bound cond bs c :
  Γ One 1 → (le_value bound < 2 ^ Z.of_nat (K_BITS + 1))%Z → length bs = (K_BITS + 1)%nat →
  bits_known Γ vars bs → Γ cond (bit_scalar c) →
  (c = true → (bits_value bs < le_value bound)%Z) →
  gproduces Γ (constrain_bits_lt_bound_when vars (bit_options bs) bound cond) (λ _ _, True).
Proof.
  intros H1 Hm Hlen Hbits Hc Hlt. unfold constrain_bits_lt_bound_when.
  assert (Hlo : length (bit_options bs) = (K_BITS + 1)%nat) by (unfold bit_options; by rewrite length_fmap).
  pose proof (Forall2_length _ _ _ Hbits) as Hlv. rewrite Hlo, Hlv, Hlen, Nat.eqb_refl. cbn [negb orb].
  destruct (lower_bits_start_spec bound Hm) as [Hstart Hsn].
  set (start := lower_bits_start bound) in *. set (m := le_value bound) in *.
  assert (Hcond : lc_known Γ (lc_from_variable cond) (bit_scalar c)) by by apply known_variable.
  set (lbs := take start bs).
  assert (Hhigh : c = true → bits_value (drop start bs) = 0%Z ∧ (bits_value lbs < m)%Z).
  { intros Hc1. specialize (Hlt Hc1). pose proof (bits_value_range bs) as Hr.
    assert (E : bits_value (drop start bs) = 0%Z).
    { rewrite bits_value_drop by lia. apply Z.div_small. lia. }
    split; [done|]. rewrite <-(take_drop start bs), bits_value_app, E in Hlt. fold lbs in Hlt. lia. }
  eapply (gproduces_bind _ _ _ (λ _ _, True)).
  { destruct (Nat.ltb_spec start (K_BITS + 1)) as [Hs|Hs].
    - eapply gproduces_bind; [eapply gproduces_multiply with
        (Q := λ Γ' '(_, _, vo), Γ' vo (bit_scalar c * (0 + of_Z (count_bits (drop start bs)))));
        [exact Hcond|apply high_sum_known; [by apply Forall2_drop|constructor]|done]|].
      intros Γ1 [[vl vr] vo] HΓ1 Hvo.
      eapply gproduces_equal; [apply known_variable, Hvo| |done].
      destruct c; [|cbn; ring]. destruct (Hhigh eq_refl) as [E _].
      rewrite (count_bits_value_0 _ E), of_Z_0. ring.
    - by apply gproduces_ret. }
  intros Γ1 _ HΓ1 _.
  assert (Hle : c = true → ∀ j, (j ≤ start)%nat → prefix_le lbs m j).
  { intros Hc1 j Hj. apply prefix_le_below; [apply le_value_nonneg|by apply Hhigh|].
    unfold lbs. rewrite length_take. lia. }
  eapply gproduces_bind.
  { eapply (gproduces_gfold _ (λ seen Γ' '(lc, eq), Γ' One 1 ∧ bits_known Γ' vars bs ∧
      lc_known Γ' (lc_from_variable cond) (bit_scalar c) ∧
      lc_known Γ' lc (bit_scalar (prefix_matches lbs m (start - length seen))) ∧
      eq = Some (bit_scalar (prefix_matches lbs m (start - length seen))))).
    - cbn [length]. rewrite Nat.sub_0_r.
      destruct (prefix_start lbs m (le_value_nonneg _) start) as [-> _];
        [unfold lbs; rewrite length_take; lia|done|].
      split; [by apply HΓ1|]. split; [by eapply bits_known_mono|].
      split; [by eapply lc_known_mono|]. split; [|done]. apply known_scalar. by apply HΓ1.
    - intros l1 j l2 Γ' [lc eq] E HΓ (H1' & Hb' & Hcond' & Hlc & ->).
      apply reverse_seq_position in E as [-> Hl1].
      destruct (lookup_lt_is_Some_2 bs (start - 1 - length l1)) as [b Hbj]; [lia|].
      assert (Hlbj : lbs !! (start - 1 - length l1)%nat = Some b).
      { unfold lbs. by rewrite lookup_take_lt by lia. }
      replace (start - length l1)%nat with (S (start - 1 - length l1)) in Hlc |- * by lia.
      rewrite length_app. replace (start - (length l1 + length [start - 1 - length l1]))%nat
        with (start - 1 - length l1)%nat by (cbn; lia).
      eapply gproduces_mono; [apply (compare_bit_when_complete _ _ _ _ lbs _ _ c _ b); try done|].
      + intros Hc1. split; apply Hle; try done; lia.
      + intros Γ'' [lc' eq'] HΓ' [Hlc' ->]. split; [by apply HΓ'|].
        split; [by eapply bits_known_mono|]. split; [by eapply lc_known_mono|done]. }
  intros Γ2 [lc eq] HΓ2 (_ & Hb' & Hcond' & Hlc & _).
  rewrite length_reverse, length_seq, Nat.sub_diag in Hlc.
  eapply gproduces_bind; [eapply gproduces_multiply with
    (Q := λ Γ' '(_, _, vo), Γ' vo (bit_scalar c * bit_scalar (prefix_matches lbs m 0)));
    [exact Hcond'|exact Hlc|done]|].
  intros Γ3 [[vl vr] vo] HΓ3 Hvo.
  eapply gproduces_equal; [apply known_variable, Hvo| |done].
  destruct c; [|cbn; ring]. destruct (Hhigh eq_refl) as [_ Hlb].
  destruct (proj2 (prefix_end lbs m (le_value_nonneg _)) Hlb) as [_ ->]. cbn. ring.
Qed.
End bit_completeness.

(** ** Sizes, and the same calls on both sides *)
Section bit_sizes.
Context {CY : Cycle} {ME : Merlin}.

Lemma decompose_bit_sized vars k_lc c bit :
  gsized (decompose_bit (vars, k_lc, c) bit) 1 0
    (λ '(vars', _, _), length vars' = S (length vars)).
Proof.
  unfold decompose_bit.
  size_step. intros [[l r] o] _. size_step. intros [] _. size_step. intros [] _.
  size_done. rewrite length_app. cbn. lia.
Qed.

Lemma compare_bit_sized vars bits modulus st j :
  gsized (compare_bit vars bits modulus st j) 1 0 (λ _, True).
Proof.
  unfold compare_bit. destruct st as [lc eq].
  size_step. intros [[l r] o] _. size_step. intros [] _. size_step. intros [] _.
  destruct (modulus_bit modulus j); [by size_done|].
  size_step. intros [] _. by size_done.
Qed.

(** 257 multipliers for the bits and 257 for the scan. *)
Lemma bit_decompose_bounded_sized k_var bits modulus :
  length bits = (K_BITS + 1)%nat →
  gsized (bit_decompose_bounded k_var bits modulus) 514 0 (λ vars, length vars = (K_BITS + 1)%nat).
Proof.
  intros Hl. unfold bit_decompose_bounded. rewrite Hl, Nat.eqb_refl. cbn [negb].
  eapply (gsized_step _ _ 257 0).
  { eapply gsized_eq; [apply (gsized_gfold (λ i '(vars, _, _), length vars = i) _ (λ _, 1%nat) (λ _, 0%nat));
      [done|]|by rewrite sum_list_with_const, Hl|by rewrite sum_list_with_const, Hl].
    intros i bit [[vars lc] c] _ <-. apply decompose_bit_sized. }
  1, 2: lia.
  intros [[vars lc] c] Hvars. size_step. intros [] _. eapply (gsized_step _ _ 257 0).
  { eapply gsized_eq; [apply (gsized_gfold (λ _ _, True) _ (λ _, 1%nat) (λ _, 0%nat)); [done|]|..].
    - intros i j st _ _. apply compare_bit_sized.
    - by rewrite sum_list_with_const, length_reverse, length_seq.
    - by rewrite sum_list_with_const, length_reverse, length_seq. }
  1, 2: lia.
  intros [pe eq] _. size_step. intros [] _. size_done. by rewrite Hvars, Hl.
Qed.

Definition when_cost (bound_le : list byte) (j : nat) : nat := if modulus_bit bound_le j then 1 else 2.
Lemma compare_bit_when_sized vars bits bound cond st j :
  gsized (compare_bit_when vars bits bound cond st j) (when_cost bound j) 0 (λ _, True).
Proof.
  unfold compare_bit_when, when_cost. destruct st as [lc eq].
  eapply (gsized_step _ _ 1 0); [size_primitive|by destruct (modulus_bit bound j); lia|lia|].
  intros [[l r] o] _. size_step. intros [] _. size_step. intros [] _.
  destruct (modulus_bit bound j); [by size_done|].
  size_step. intros [[vl vr] vo] _. size_step. intros [] _. by size_done.
Qed.

Lemma constrain_bits_lt_bound_when_sized vars bits bound cond :
  length vars = (K_BITS + 1)%nat → length bits = (K_BITS + 1)%nat →
  let start := lower_bits_start bound in
  gsized (constrain_bits_lt_bound_when vars bits bound cond)
    ((if Nat.ltb start (K_BITS + 1) then 1 else 0) +
     sum_list_with (when_cost bound) (reverse (seq 0 start)) + 1) 0 (λ _, True).
Proof.
  intros Hv Hb start. unfold constrain_bits_lt_bound_when. rewrite Hv, Hb, Nat.eqb_refl. cbn [negb orb].
  fold start. set (high := if Nat.ltb start (K_BITS + 1) then 1%nat else 0%nat).
  eapply (gsized_step _ _ high 0 _ _ (λ _, True)).
  { unfold high. destruct (Nat.ltb start (K_BITS + 1)); [|by apply gsized_ret].
    size_step. intros [[vl vr] vo] _. size_last. }
  1, 2: lia.
  intros [] _. eapply gsized_step.
  { apply (gsized_gfold (λ _ _, True) _ (when_cost bound) (λ _, 0%nat)); [done|].
    intros i j st _ _. apply compare_bit_when_sized. }
  { lia. }
  { by rewrite sum_list_with_const, Nat.mul_0_r. }
  intros [pe eq] _. size_step. intros [[vl vr] vo] _. size_last.
Qed.

(** *** The prover's and the verifier's calls *)
Definition scan_similar (s s' : LinearCombination CScalar * option CScalar) : Prop :=
  s.1 = s'.1 ∧ is_Some s.2.

Lemma decompose_bit_similar st b o :
  gsimilar eq (decompose_bit st (Some b)) (decompose_bit st o).
Proof.
  unfold decompose_bit. destruct st as [[vars lc] c]. similar_step. intros [[l r] out] _ <-.
  similar_step. intros [] _ <-. similar_step. intros [] _ <-. by apply gsimilar_ret.
Qed.

Lemma compare_bit_similar vars bits bits' modulus st st' j :
  scan_similar st st' → is_Some (bits !!! j) →
  gsimilar scan_similar (compare_bit vars bits modulus st j) (compare_bit vars bits' modulus st' j).
Proof.
  destruct st as [lc eq], st' as [lc' eq']. intros [E [x Hx]] [y Hy]. cbn in E, Hx. subst.
  unfold compare_bit. rewrite Hy. cbn [product_assignment]. similar_step. intros [[l r] out] _ <-.
  similar_step. intros [] _ <-. similar_step. intros [] _ <-.
  destruct (modulus_bit modulus j); [by apply gsimilar_ret; split|].
  similar_step. intros [] _ <-. by apply gsimilar_ret; split.
Qed.

Lemma bit_options_is_Some bs j : is_Some (default None (bit_options bs !! j)) ↔ (j < length bs)%nat.
Proof.
  unfold bit_options. rewrite list_lookup_fmap. destruct (bs !! j) as [b|] eqn:E; cbn.
  - apply lookup_lt_Some in E. destruct b; split; naive_solver.
  - apply lookup_ge_None in E. split; [by intros []|lia].
Qed.

Lemma bit_decompose_bounded_similar k_var bs bits' modulus :
  length bits' = length bs →
  gsimilar eq (bit_decompose_bounded k_var (bit_options bs) modulus)
    (bit_decompose_bounded k_var bits' modulus).
Proof.
  intros Hl. unfold bit_decompose_bounded, bit_options at 1. rewrite length_fmap, Hl.
  destruct (Nat.eqb_spec (length bs) (K_BITS + 1)) as [Hn|]; cbn [negb]; [|apply gsimilar_fails].
  eapply gsimilar_bind.
  { apply (gsimilar_gfold eq (λ o _, is_Some o)); [done| |].
    - apply Forall2_same_length_lookup_2; [unfold bit_options; by rewrite length_fmap|].
      intros i o o' Ho _. unfold bit_options in Ho. apply list_lookup_fmap_Some in Ho as (b & -> & _).
      by destruct b.
    - intros s _ o o' <- [x ->]. apply decompose_bit_similar. }
  intros [[vars lc] c] _ <-. similar_step. intros [] _ <-.
  eapply gsimilar_bind.
  { apply (gsimilar_gfold scan_similar (λ j j', j = j' ∧ (j < length bs)%nat)); [by split| |].
    - apply Forall_Forall2_diag, Forall_forall. intros j Hj. split; [done|].
      apply elem_of_reverse, elem_of_seq in Hj. lia.
    - intros s s' j _ Hs [<- Hj]. apply compare_bit_similar; [done|].
      rewrite list_lookup_total_alt. by apply bit_options_is_Some. }
  intros [lc1 e1] [lc2 e2] [E _]. cbn in E. subst lc2. similar_step. intros [] _ <-.
  by apply gsimilar_ret.
Qed.

Lemma compare_bit_when_similar vars bits bits' modulus cond st st' j :
  scan_similar st st' → is_Some (bits !!! j) →
  gsimilar scan_similar (compare_bit_when vars bits modulus cond st j)
    (compare_bit_when vars bits' modulus cond st' j).
Proof.
  destruct st as [lc eq], st' as [lc' eq']. intros [E [x Hx]] [y Hy]. cbn in E, Hx. subst.
  unfold compare_bit_when. rewrite Hy. cbn [product_assignment]. similar_step. intros [[l r] out] _ <-.
  similar_step. intros [] _ <-. similar_step. intros [] _ <-.
  destruct (modulus_bit modulus j); [by apply gsimilar_ret; split|].
  similar_step. intros [[vl vr] vo] _ <-. similar_step. intros [] _ <-. by apply gsimilar_ret; split.
Qed.

Lemma constrain_bits_lt_bound_when_similar vars bs bits' bound cond :
  length bits' = length bs →
  gsimilar eq (constrain_bits_lt_bound_when vars (bit_options bs) bound cond)
    (constrain_bits_lt_bound_when vars bits' bound cond).
Proof.
  intros Hl. unfold constrain_bits_lt_bound_when, bit_options at 1. rewrite length_fmap, Hl.
  destruct (Nat.eqb (length vars) (K_BITS + 1)); cbn [negb orb]; [|apply gsimilar_fails].
  destruct (Nat.eqb_spec (length bs) (K_BITS + 1)) as [Hn|]; cbn [negb]; [|apply gsimilar_fails].
  eapply (gsimilar_bind eq).
  { destruct (Nat.ltb _ _); [|by apply gsimilar_ret].
    similar_step. intros [[vl vr] vo] _ <-. apply gsimilar_constrain. }
  intros [] _ <-. eapply gsimilar_bind.
  { apply (gsimilar_gfold scan_similar (λ j j', j = j' ∧ (j < length bs)%nat)); [by split| |].
    - apply Forall_Forall2_diag, Forall_forall. intros j Hj. split; [done|].
      apply elem_of_reverse, elem_of_seq in Hj. rewrite Hn.
      assert (lower_bits_start bound ≤ K_BITS + 1)%nat; [|lia].
      unfold lower_bits_start. destruct (List.find _ _) as [msb|] eqn:Hf; [|lia].
      apply List.find_some in Hf as [Hin _]. apply list_elem_of_In, elem_of_reverse, elem_of_seq in Hin. lia.
    - intros s s' j _ Hs [<- Hj]. apply compare_bit_when_similar; [done|].
      rewrite list_lookup_total_alt. by apply bit_options_is_Some. }
  intros [lc1 e1] [lc2 e2] [E _]. cbn in E. subst lc2. similar_step. intros [[vl vr] vo] _ <-.
  apply gsimilar_constrain.
Qed.
End bit_sizes.

(** ** Properties *)
Section properties.
Context {CY : Cycle} {CL : CycleLaws} {ME : Merlin}.

(** C14: bit decomposition is exact.  Over a commitment to [k], the verifier's gadget
    returns, with 514 multipliers, 257 variables; and an assignment of the variables
    that satisfies all constraints and gives the commitment the value [k] and the
    variables the values of given bits exists if and only if the bits are those of an
    integer below the modulus whose image in the field is [k].  In particular the
    integer [k + p], which has the same image, is excluded. *)
Theorem bit_decompose_exact pc_gens t (k k_blinding : CScalar) (modulus : list byte) :
  length modulus = 32%nat →
  let '((V_k, k_var), _) := prover_commit k k_blinding (Prover_new pc_gens t) in
  ∃ vars V',
    run_circuit (bit_decompose_bounded k_var (replicate (K_BITS + 1) None) modulus)
      (verifier_commit V_k (Verifier_new t)).2 = Some (Ok vars, V') ∧
    num_vars (v_core V') = 514%nat ∧ length vars = (K_BITS + 1)%nat ∧
    ∀ bs, length bs = (K_BITS + 1)%nat →
      (∃ σ, satisfies σ V' ∧ σ k_var = k ∧ bits_are σ vars bs) ↔
      k = of_Z (bits_value bs) ∧ (bits_value bs < le_value modulus)%Z.
Proof.
  intros Hl. pose proof (commit_sync _ _ k k_blinding (new_sync pc_gens t)) as Hs.
  pose proof (honest_commit _ k k_blinding (honest_new pc_gens t)) as Hh.
  destruct (prover_commit k k_blinding (Prover_new pc_gens t)) as [[V_k k_var] P0] eqn:EP.
  destruct (verifier_commit V_k (Verifier_new t)) as [k_var' V0] eqn:EV. cbn [snd].
  destruct Hs as [<- Hs], Hh as (Hh & _ & Hk).
  assert (Hm : (le_value modulus < 2 ^ Z.of_nat (K_BITS + 1))%Z).
  { pose proof (le_value_range modulus) as Hr. unfold len in Hr. rewrite Hl in Hr.
    change (256 ^ Z.of_nat 32)%Z with (2 ^ 256)%Z in Hr. change (Z.of_nat (K_BITS + 1)) with 257%Z. lia. }
  assert (HV0 : counted V0 0%nat 0%nat).
  { injection EV as _ <-. by split. }
  set (c' := bit_decompose_bounded k_var (replicate (K_BITS + 1) None) modulus).
  destruct (gsized_run c' 514%nat 0%nat _ V0 (bit_decompose_bounded_sized k_var _ modulus (length_replicate _ _)) HV0)
    as (vars & V' & Hrun & [Hn _] & Hvars).
  exists vars, V'. split; [exact Hrun|]. split; [rewrite Hn; reflexivity|]. split; [exact Hvars|].
  intros bs Hbs. split.
  - intros (σ & Hsat & Hσk & Hσ).
    pose proof (bit_decompose_bounded_sound σ k_var (replicate (K_BITS + 1) None) modulus (sat_one _ _ Hsat) Hm)
      as Hsound.
    destruct (gimplies_sound σ c' _ V0 vars V' Hsound Hrun Hsat) as (bs' & _ & Hb & Hkv & Hlt).
    rewrite (bits_are_inj _ _ _ _ Hσ Hb). split; [rewrite <-Hσk; exact Hkv|exact Hlt].
  - intros [Hkv Hlt]. rewrite Hkv in Hk.
    pose proof (bit_decompose_bounded_complete _ k_var modulus bs (known_one _) Hm Hbs Hk Hlt) as Hp.
    assert (Hsame : same_circuit (bit_decompose_bounded k_var (bit_options bs) modulus) c').
    { apply gsimilar_same, bit_decompose_bounded_similar. by rewrite length_replicate. }
    destruct (gadget_satisfiable _ _ _ P0 V0 Hsame Hs Hh Hp)
      as (vars' & P' & V1 & _ & Hrun1 & _ & _ & Hsat & HΓ & Hb).
    rewrite Hrun in Hrun1. injection Hrun1 as <- <-.
    exists (assignment (p_secrets (p_core P'))). split; [done|]. split.
    + rewrite Hkv. apply known_assignment, HΓ, Hk.
    + eapply Forall2_impl; [exact Hb|]. intros v b. apply known_assignment.
Qed.
End properties.

(** A commitment to 5, and its bits. *)
Lemma bit_decompose_exact_witness :
  length SECP256K1_BASE_MODULUS_LE = 32%nat ∧
  ∃ vars V',
    run_circuit (H:=TinyCycle) (H0:=ToyMerlin)
      (bit_decompose_bounded (H:=TinyCycle) (H0:=ToyMerlin) (Committed 0) (replicate (K_BITS + 1) None)
         SECP256K1_BASE_MODULUS_LE)
      (verifier_commit x1f (Verifier_new (H:=TinyCycle) (H0:=ToyMerlin) 7%Z)).2 = Some (Ok vars, V') ∧
    ∃ σ, satisfies (CY:=TinyCycle) (ME:=ToyMerlin) σ V' ∧ σ (Committed 0) = tiny 5 ∧
      bits_are (CY:=TinyCycle) σ vars ([true; false; true] ++ replicate 254 false).
Proof.
  split; [reflexivity|].
  destruct (bit_decompose_exact (CY:=TinyCycle) (ME:=ToyMerlin) square_gens 7%Z (tiny 5) (tiny 7)
    SECP256K1_BASE_MODULUS_LE eq_refl) as (vars & V' & Hrun & _ & _ & Hsat).
  exists vars, V'. split; [exact Hrun|]. apply Hsat; [reflexivity|].
  split; [vm_refl|reflexivity].
Defined.
