(* ===== verification/EvrfCurves.v ===== *)
(** * The curves of the eVRF (golden-evrf/paper.rs, module secp_secq)

    The input curve, whose points are exponentiated in the circuit, and the cycle
    of the commitments, whose scalars are the coordinates of the input curve.  The
    curves themselves are code of other crates: [EvrfCurves] are the operations
    that are used of them, [EvrfCurveLaws] what is relied on. *)

From Stdlib Require Import ZArith Lia Field Strings.Byte.
From stdpp Require Import prelude strings list_numbers.
From S2P Require Import Prelude CoreError Group Algebra TestSupport Cycle BpUtil InnerProduct ConstraintSystem Generators R1csProof Prover Verifier R1csSync CircuitLogic EvrfBits.

Local Open Scope golden_scope.

(** [Gin], [Fq] and [Fp] of the code are the points and scalars of [gin_cycle]
    ([Secp256k1Cycle]) and the scalars of [gout_cycle] ([Secq256k1Cycle]). *)
Class EvrfCurves := {
  gin_cycle : Cycle;
  gout_cycle : Cycle;
  (** [CurveAffine::coordinates], [None] for the identity. *)
  coordinates : CAffine (Cycle:=gin_cycle) →
    option (CScalar (Cycle:=gout_cycle) * CScalar (Cycle:=gout_cycle));
  gin_double : CPoint (Cycle:=gin_cycle) → CPoint (Cycle:=gin_cycle);
  (** [golden_group::mul_generator], with a table of the generator's multiples. *)
  gin_mul_generator : CScalar (Cycle:=gin_cycle) → CPoint (Cycle:=gin_cycle);
  (** [CurveExt::hash_to_curve]. *)
  hash_to_curve : list byte → list byte → CPoint (Cycle:=gin_cycle);
  (** [From<u64>] of the scalars of the input curve. *)
  fq_from_u64 : Z → CScalar (Cycle:=gin_cycle);
  (** [PrimeField::to_repr] of both fields, and [from_raw] from 64-bit limbs. *)
  fp_to_repr : CScalar (Cycle:=gout_cycle) → list byte;
  fq_to_repr : CScalar (Cycle:=gin_cycle) → list byte;
  fp_from_raw : list Z → CScalar (Cycle:=gout_cycle);
  fq_from_raw : list Z → CScalar (Cycle:=gin_cycle);
}.

Abbreviation Gin := (CPoint (Cycle:=gin_cycle)).
Abbreviation Fq := (CScalar (Cycle:=gin_cycle)).
Abbreviation Gout := (CPoint (Cycle:=gout_cycle)).
Abbreviation Fp := (CScalar (Cycle:=gout_cycle)).

(** The value of little-endian limbs. *)
Definition limbs_value (limbs : list Z) : Z := foldr (λ l acc, l + 2 ^ 64 * acc)%Z 0%Z limbs.

(** [affine]: the coordinates of a point that is not the identity. *)
Section affine.
Context `{EvrfCurves}.

Definition affine (point : Gin) : Result (Fp * Fp) :=
  ok_or ProofVerificationFailed (coordinates (point_to_affine point)).

Definition gin_is_identity (point : Gin) : bool := bool_decide (point = cpoint_identity).

Definition batch_affine (points : list Gin) : Result (list (Fp * Fp)) :=
  traverse (λ aff, ok_or ProofVerificationFailed (coordinates aff)) (batch_normalize points).
End affine.

(** ** What the code relies on

    Both cycles keep their laws, their scalars are canonical little-endian
    integers below the secp256k1 moduli, and points with different first
    coordinates are added with the chord rule.  Reducing a canonical integer of
    [Fp] modulo the order of [Fq] subtracts that order at most once, and a canonical
    integer of [Fq], the smaller field, is one of [Fp]. *)
Class EvrfCurveLaws `{EvrfCurves} : Prop := {
  gin_laws :: CycleLaws (H:=gin_cycle);
  gout_laws :: CycleLaws (H:=gout_cycle);
  coordinates_identity : coordinates (point_to_affine (cpoint_identity (Cycle:=gin_cycle))) = None;
  coordinates_some (P : Gin) :
    P ≠ cpoint_identity → ∃ xy, coordinates (point_to_affine P) = Some xy;
  coordinates_inj (P Q : Gin) xy :
    coordinates (point_to_affine P) = Some xy → coordinates (point_to_affine Q) = Some xy → P = Q;
  (** Points with the same first coordinate are equal or opposite. *)
  coordinates_x (P Q : Gin) x y y' :
    coordinates (point_to_affine P) = Some (x, y) → coordinates (point_to_affine Q) = Some (x, y') →
    P = Q ∨ P ⊕ Q = cpoint_identity;
  chord_rule (P Q : Gin) x1 y1 x2 y2 :
    coordinates (point_to_affine P) = Some (x1, y1) →
    coordinates (point_to_affine Q) = Some (x2, y2) → x1 ≠ x2 →
    let s := (y1 - y2) * sinv (x1 - x2) in
    let x3 := s * s - x1 - x2 in
    coordinates (point_to_affine (P ⊕ Q)) = Some (x3, s * (x1 - x3) - y1);
  gin_double_spec (P : Gin) : gin_double P = P ⊕ P;
  gin_mul_generator_spec (s : Fq) : gin_mul_generator s = cpoint_generator ⊙ s;
  fq_from_u64_spec z : is_usize z → fq_from_u64 z = of_Z z;
  fp_characteristic n : (0 < n ≤ Z.of_nat (K_BITS + 1))%Z → of_Z (F:=Fp) n ≠ 0;
  length_fp_to_repr (x : Fp) : length (fp_to_repr x) = 32%nat;
  length_fq_to_repr (x : Fq) : length (fq_to_repr x) = 32%nat;
  fp_to_repr_value (x : Fp) : of_Z (le_value (fp_to_repr x)) = x;
  fq_to_repr_value (x : Fq) : of_Z (le_value (fq_to_repr x)) = x;
  fp_to_repr_below (x : Fp) : (le_value (fp_to_repr x) < le_value SECP256K1_BASE_MODULUS_LE)%Z;
  fq_to_repr_below (x : Fq) : (le_value (fq_to_repr x) < le_value SECP256K1_SCALAR_MODULUS_LE)%Z;
  fp_from_raw_spec limbs : fp_from_raw limbs = of_Z (limbs_value limbs);
  fq_from_raw_spec limbs : fq_from_raw limbs = of_Z (limbs_value limbs);
  reduce_once (x : Fp) :
    let z := le_value (fp_to_repr x) in
    let w := le_value (fq_to_repr (of_Z z)) in
    w = z ∨ (w + le_value SECP256K1_SCALAR_MODULUS_LE)%Z = z;
  fp_repr_of_fq (x : Fq) :
    le_value (fp_to_repr (of_Z (le_value (fq_to_repr x)))) = le_value (fq_to_repr x);
}.

Section affine_lemmas.
Context `{EvrfCurveLaws}.

Lemma affine_Ok P xy : affine P = Ok xy ↔ coordinates (point_to_affine P) = Some xy.
Proof. apply ok_or_Ok. Qed.
Lemma affine_nonidentity P : P ≠ cpoint_identity → ∃ xy, affine P = Ok xy.
Proof. intros [xy Hxy]%coordinates_some. exists xy. by apply affine_Ok. Qed.
Lemma affine_identity P xy : affine P = Ok xy → P ≠ cpoint_identity.
Proof. intros E%affine_Ok ->. by rewrite coordinates_identity in E. Qed.
Lemma affine_inj P Q xy : affine P = Ok xy → affine Q = Ok xy → P = Q.
Proof. rewrite !affine_Ok. apply coordinates_inj. Qed.

(** The batch conversion is the single one, point by point. *)
Lemma batch_affine_Ok points l :
  batch_affine points = Ok l ↔ Forall2 (λ P xy, affine P = Ok xy) points l.
Proof.
  unfold batch_affine. rewrite batch_normalize_spec, traverse_fmap, traverse_Ok. done.
Qed.
Lemma batch_affine_total points :
  Forall (λ P, P ≠ cpoint_identity) points → ∃ l, batch_affine points = Ok l.
Proof.
  induction 1 as [|P points HP _ [l Hl]].
  - exists []. by apply batch_affine_Ok.
  - destruct (affine_nonidentity P HP) as [xy Hxy]. exists (xy :: l). apply batch_affine_Ok.
    apply batch_affine_Ok in Hl. by constructor.
Qed.
End affine_lemmas.
