(* ===== verification/EvrfToy.v ===== *)
(** * A small instance of the eVRF's curves

    The field of 65521 elements and, over it, the nonsingular points of the cuspidal
    cubic y^2 = x^3: the point with parameter [t] has coordinates [1/t^2] and
    [1/t^3], and parameters add.  All that is relied on of the curves holds of it;
    the theorems about the eVRF are instantiated here. *)

From Stdlib Require Import ZArith Lia Field Strings.Byte Eqdep_dec Znumtheory.
From stdpp Require Import prelude strings list_numbers.
From S2P Require Import Prelude CoreError Group Algebra TestSupport Cycle BpUtil InnerProduct ConstraintSystem Generators R1csProof Prover Verifier R1csSync CircuitLogic EvrfBits EvrfCurves.

(** ** The field *)
Section modular.
Local Open Scope Z_scope.

Definition TOY_P : Z := 65521.
Definition toy_range (v : Z) : bool := (0 <=? v) && (v <? TOY_P).
End modular.

Record Toy := MkToy { toy_val : Z; toy_ok : toy_range toy_val = true }.

Definition toy (z : Z) : Toy :=
  match Bool.bool_dec (toy_range (z `mod` TOY_P)) true with
  | left ok => MkToy (z `mod` TOY_P) ok
  | right _ => MkToy 0 eq_refl
  end.
#[global] Arguments toy : simpl never.

Section toy_lemmas.
Local Open Scope Z_scope.

Lemma toy_eq (x y : Toy) : toy_val x = toy_val y → x = y.
Proof.
  destruct x as [x Hx], y as [y Hy]. cbn. intros ->. f_equal. apply UIP_dec, Bool.bool_dec.
Qed.
Lemma toy_val_range x : 0 ≤ toy_val x < 65521.
Proof. destruct x as [x Hx]. unfold toy_range, TOY_P in Hx. cbn. lia. Qed.
Lemma toy_val_toy z : toy_val (toy z) = z `mod` 65521.
Proof.
  unfold toy. destruct (Bool.bool_dec _ _) as [|Hn]; [done|].
  exfalso. apply Hn. unfold toy_range, TOY_P. pose proof (Z.mod_pos_bound z 65521). lia.
Qed.
Lemma toy_toy_val x : toy (toy_val x) = x.
Proof. apply toy_eq. rewrite toy_val_toy. apply Z.mod_small, toy_val_range. Qed.

#[export] Instance toy_eq_dec : EqDecision Toy.
Proof.
  intros x y. destruct (decide (toy_val x = toy_val y)) as [E|E]; [left; by apply toy_eq|right; congruence].
Defined.

(** The extended Euclidean algorithm; its steps halve the product of the remainders. *)
Fixpoint toy_egcd (n : nat) (r0 s0 r1 s1 : Z) : Z :=
  match n with
  | O => s0
  | S n => if r1 =? 0 then s0 else toy_egcd n r1 s1 (r0 `mod` r1) (s0 - r0 `div` r1 * s1)
  end.

Lemma toy_egcd_spec p x n r0 s0 r1 s1 :
  0 ≤ r1 < r0 → r0 * r1 < 2 ^ Z.of_nat n → Z.gcd r0 r1 = 1 →
  (p | s0 * x - r0) → (p | s1 * x - r1) → (p | toy_egcd n r0 s0 r1 s1 * x - 1).
Proof.
  revert r0 s0 r1 s1. induction n as [|n IH]; intros r0 s0 r1 s1 Hr Hprod Hgcd H0 H1; cbn [toy_egcd].
  - change (2 ^ Z.of_nat 0) with 1 in Hprod.
    assert (r1 = 0) as -> by (destruct (Z.eq_dec r1 0); [done|]; assert (1 * 1 ≤ r0 * r1) by (apply Z.mul_le_mono_nonneg; lia); lia).
    rewrite Z.gcd_0_r, Z.abs_eq in Hgcd by lia. by rewrite Hgcd in H0.
  - destruct (Z.eqb_spec r1 0) as [->|Hne].
    { rewrite Z.gcd_0_r, Z.abs_eq in Hgcd by lia. by rewrite Hgcd in H0. }
    pose proof (Z.mod_pos_bound r0 r1 ltac:(lia)) as Hm. pose proof (Z.div_mod r0 r1 Hne) as Hdm.
    apply IH; [lia| | |done|].
    + rewrite Nat2Z.inj_succ, Z.pow_succ_r in Hprod by lia.
      assert (1 ≤ r0 / r1) by (apply Z.div_le_lower_bound; lia).
      assert (r1 * 1 ≤ r1 * (r0 / r1)) by (apply Z.mul_le_mono_nonneg_l; lia).
      assert (r1 * (2 * (r0 mod r1)) ≤ r1 * r0) by (apply Z.mul_le_mono_nonneg_l; lia). lia.
    + by rewrite Z.gcd_comm, Z.gcd_mod, Z.gcd_comm by done.
    + destruct H0 as [a Ha], H1 as [b Hb]. exists (a - r0 / r1 * b). nia.
Qed.

Lemma toy_coprime x : 0 < x < 65521 → Z.gcd 65521 x = 1.
Proof.
  intros Hx. set (d := Z.gcd 65521 x).
  assert (Hall : forallb (λ d, negb (65521 `mod` d =? 0)) (seqZ 2 254) = true) by (vm_compute; reflexivity).
  assert (Hnone : ∀ e, 2 ≤ e < 256 → ¬ (e | 65521)).
  { intros e He Hdiv. rewrite forallb_forall in Hall.
    assert (Hin : In e (seqZ 2 254)) by (apply list_elem_of_In, elem_of_seqZ; lia).
    specialize (Hall e Hin).
    apply Z.mod_divide in Hdiv; [|lia]. by rewrite Hdiv in Hall. }
  assert (Hd : (d | 65521)) by apply Z.gcd_divide_l.
  assert (0 ≤ d) by apply Z.gcd_nonneg.
  assert (d ≤ x) by (apply Z.divide_pos_le; [lia|apply Z.gcd_divide_r]).
  destruct Hd as [e He]. destruct (decide (d = 1)) as [|Hd1]; [done|]. exfalso.
  assert (d ≠ 0) by nia. assert (2 ≤ e) by nia.
  destruct (decide (d < 256)).
  - apply (Hnone d); [lia|]. by exists e.
  - apply (Hnone e); [nia|]. exists d. lia.
Qed.
End toy_lemmas.

Definition toy_invert (x : Toy) : option Toy :=
  if decide (toy_val x = 0%Z) then None
  else Some (toy (toy_egcd 32 TOY_P 0 (toy_val x) 1)).

Definition Toy_ops : FieldOps Toy := {|
  szero := toy 0;
  sone := toy 1;
  srandom := λ R rng st, let '(v, st) := next_u32 st in (toy v, st);
  sadd := λ x y, toy (toy_val x + toy_val y);
  ssub := λ x y, toy (toy_val x - toy_val y);
  smul := λ x y, toy (toy_val x * toy_val y);
  sneg := λ x, toy (- toy_val x);
  sinvert := toy_invert;
|}.

Section toy_field.
#[local] Existing Instance Toy_ops | 0.
Local Open Scope Z_scope.

Lemma Toy_laws : FieldLaws Toy.
Proof.
  split.
  - intros a c. apply toy_eq. cbn. by rewrite Z.add_comm.
  - intros a c d. apply toy_eq. cbn. rewrite !toy_val_toy.
    rewrite Zplus_mod_idemp_r, Zplus_mod_idemp_l. f_equal; lia.
  - intros a. apply toy_eq. cbn. rewrite !toy_val_toy. apply Z.mod_small, toy_val_range.
  - intros a c. apply toy_eq. cbn. by rewrite Z.mul_comm.
  - intros a c d. apply toy_eq. cbn. rewrite !toy_val_toy.
    rewrite Zmult_mod_idemp_r, Zmult_mod_idemp_l. f_equal; lia.
  - intros a. apply toy_eq. cbn. rewrite !toy_val_toy, Zmult_mod_idemp_l, Z.mul_1_l.
    apply Z.mod_small, toy_val_range.
  - intros a c d. apply toy_eq. cbn. rewrite !toy_val_toy.
    rewrite Zmult_mod_idemp_l, <-Zplus_mod. f_equal; lia.
  - intros a c. apply toy_eq. cbn. rewrite !toy_val_toy, Zplus_mod_idemp_r. f_equal; lia.
  - intros a. apply toy_eq. cbn. rewrite !toy_val_toy, Zplus_mod_idemp_r. f_equal; lia.
  - intros E. apply (f_equal toy_val) in E. vm_compute in E. discriminate.
  - reflexivity.
  - intros a Ha. pose proof (toy_val_range a) as Hr.
    assert (Hz : toy_val a ≠ 0). { intros Hz. apply Ha, toy_eq. by rewrite Hz. }
    exists (toy (toy_egcd 32 TOY_P 0 (toy_val a) 1)). split.
    { change (toy_invert a = Some (toy (toy_egcd 32 TOY_P 0 (toy_val a) 1))). unfold toy_invert.
      rewrite decide_False by exact Hz. reflexivity. }
    apply toy_eq.
    change (toy_val (toy (toy_val (toy (toy_egcd 32 TOY_P 0 (toy_val a) 1)) * toy_val a)) = toy_val (toy 1)).
    rewrite !toy_val_toy, Zmult_mod_idemp_l.
    destruct (toy_egcd_spec 65521 (toy_val a) 32 65521 0 (toy_val a) 1) as [q Hq].
    + lia.
    + change (2 ^ Z.of_nat 32) with 4294967296. lia.
    + apply toy_coprime. lia.
    + exists (-1). lia.
    + exists 0. lia.
    + unfold TOY_P. replace (toy_egcd 32 65521 0 (toy_val a) 1 * toy_val a) with (1 + q * 65521) by lia.
      by rewrite Z.mod_add.
Qed.
#[local] Existing Instance Toy_laws | 0.

Lemma toy_add a b : toy (a + b) = sadd (toy a) (toy b).
Proof. apply toy_eq. cbn. rewrite !toy_val_toy. apply Zplus_mod. Qed.
Lemma toy_of_Z z : of_Z (F:=Toy) z = toy z.
Proof.
  induction z as [|z IH|z IH] using Z.peano_ind.
  - done.
  - by rewrite <-Z.add_1_r, of_Z_add, toy_add, IH, of_Z_1.
  - rewrite <-Z.sub_1_r, of_Z_sub, IH, of_Z_1. apply toy_eq. cbn. rewrite !toy_val_toy.
    by rewrite Zminus_mod_idemp_l.
Qed.
End toy_field.

(** ** The cycle

    Points are their parameters; a compressed point is two bytes. *)
Definition toy_compress (t : Toy) : byte * byte :=
  (byte_of_Z (toy_val t / 256), byte_of_Z (toy_val t)).
Definition toy_decompress (c : byte * byte) : option Toy :=
  let v := (byte_to_Z c.1 * 256 + byte_to_Z c.2)%Z in
  if bool_decide (v < TOY_P)%Z then Some (toy v) else None.
Definition toy_to_canonical (s : Toy) : list byte := reverse (to_be_bytes 32 (toy_val s)).
Definition toy_from_canonical (bs : list byte) : option Toy :=
  let v := from_be_bytes (reverse bs) in
  if bool_decide (length bs = 32%nat ∧ v < TOY_P)%Z then Some (toy v) else None.
Definition pair_from_bytes (bs : list byte) : byte * byte := (nth 0 bs x00, nth 1 bs x00).

Section toy_cycle.
#[local] Existing Instance Toy_ops | 0.
#[local] Existing Instance Toy_laws | 0.

Definition ToyCycle : Cycle := {|
  CScalar := Toy;
  cscalar_ops := Toy_ops;
  CPoint := Toy;
  cpoint_generator := toy 1;
  cpoint_identity := toy 0;
  cpoint_add := sadd;
  cpoint_mul := smul;
  CAffine := Toy;
  Compressed := byte * byte;
  COMPRESSED_BYTES := 2;
  scalar_from_wide := λ bs, toy (from_be_bytes bs);
  scalar_from_canonical := toy_from_canonical;
  scalar_to_canonical := toy_to_canonical;
  scalar_invert := sinv;
  scalar_batch_invert := λ items, (sinv <$> items, sinv (foldl smul sone items));
  point_compress := toy_compress;
  compressed_decompress := toy_decompress;
  compressed_identity := (x00, x00);
  compressed_is_identity := λ c, bool_decide (c = (x00, x00));
  compressed_from_bytes := pair_from_bytes;
  compressed_as_bytes := λ c, [c.1; c.2];
  point_hash_from_uniform := λ bs, toy (from_be_bytes bs);
  points_hash_from_uniform := λ bss, (λ bs, toy (from_be_bytes bs)) <$> bss;
  point_to_affine := id;
  affine_to_point := id;
  batch_normalize := id;
  affine_compress := toy_compress;
  vartime_msm := λ ss Ps, foldr sadd szero (zip_with smul Ps ss);
  vartime_msm_affine := λ ss Ps, foldr sadd szero (zip_with smul Ps ss);
  vartime_msm_mixed := λ bs ss Ps,
    foldl (λ r '(scalars, points), sadd r (foldr sadd szero (zip_with smul points scalars)))
      (foldr sadd szero (zip_with smul Ps ss)) bs;
|}.

Lemma ToyCycle_points : CyclePoints (H:=ToyCycle).
Proof.
  split; cbn.
  - exact Toy_laws.
  - exact sadd_comm.
  - exact sadd_assoc.
  - exact sadd_0_l.
  - exact smul_add_distr_l.
  - intros P a b. change (smul P (sadd a b) = sadd (smul P a) (smul P b)).
    rewrite !(smul_comm P). apply smul_add_distr_l.
  - intros P a b. exact (eq_sym (smul_assoc P a b)).
  - exact smul_1_r.
  - exact smul_0_r.
Qed.
#[local] Existing Instance ToyCycle_points | 0.

Lemma toy_decompress_compress t : toy_decompress (toy_compress t) = Some t.
Proof.
  unfold toy_decompress, toy_compress. cbn [fst snd]. rewrite !byte_to_of_Z.
  pose proof (toy_val_range t). rewrite (Z.mod_small (_ / 256)) by (split; [apply Z.div_pos|apply Z.div_lt_upper_bound]; lia).
  replace (toy_val t / 256 * 256 + toy_val t mod 256)%Z with (toy_val t)
    by (pose proof (Z.div_mod (toy_val t) 256); lia).
  rewrite bool_decide_eq_true_2 by (unfold TOY_P; lia). by rewrite toy_toy_val.
Qed.

Lemma toy_lincomb ss Ps : foldr sadd szero (zip_with smul Ps ss) = lincomb (H:=ToyCycle) ss Ps.
Proof.
  unfold lincomb. revert Ps. induction ss as [|a ss IH]; intros [|P Ps]; cbn; try done.
  by rewrite IH.
Qed.

Lemma ToyCycle_laws : CycleLaws (H:=ToyCycle).
Proof.
  unshelve econstructor.
  - intros ss Ps _. apply toy_lincomb.
  - intros ss Ps _. cbn. rewrite list_fmap_id. apply toy_lincomb.
  - done.
  - done.
  - intros Ps. cbn. symmetry. apply list_fmap_id.
  - apply toy_decompress_compress.
  - done.
  - intros P. apply bool_decide_ext. split; [|by intros ->].
    intros E. apply (f_equal toy_decompress) in E. change (toy_decompress (toy_compress P)
      = toy_decompress (toy_compress (toy 0))) in E. rewrite !toy_decompress_compress in E. by injection E.
  - done.
  - done.
Qed.

Lemma ToyCycle_codec : CycleCodec (H:=ToyCycle).
Proof.
  assert (Hv : ∀ s, from_be_bytes (reverse (toy_to_canonical s)) = toy_val s).
  { intros s. unfold toy_to_canonical. rewrite reverse_involutive, from_to_be_bytes_small; [done|].
    pose proof (toy_val_range s). change (256 ^ Z.of_nat 32)%Z with (2 ^ 256)%Z. lia. }
  assert (Hl : ∀ s, length (toy_to_canonical s) = 32%nat).
  { intros s. unfold toy_to_canonical. by rewrite length_reverse, length_to_be_bytes. }
  split.
  - done.
  - cbn. lia.
  - by intros [].
  - by intros [|a [|b []]].
  - exact Hl.
  - intros s. change (toy_from_canonical (toy_to_canonical s) = Some s). unfold toy_from_canonical.
    rewrite Hv, bool_decide_eq_true_2, toy_toy_val; [done|]. pose proof (toy_val_range s).
    split; [apply Hl|unfold TOY_P; lia].
  - intros bs s. change (toy_from_canonical bs = Some s → toy_to_canonical s = bs).
    unfold toy_from_canonical. case_bool_decide as E; [|done]. destruct E as [Hlen Hlt]. intros [= <-].
    unfold toy_to_canonical. pose proof (from_be_bytes_range (reverse bs)). unfold TOY_P in Hlt.
    rewrite toy_val_toy, Z.mod_small, to_from_be_bytes, reverse_involutive by (rewrite ?length_reverse; lia).
    done.
Qed.
End toy_cycle.

(** ** The curves *)
Definition toy_hash (domain message : list byte) : Toy :=
  toy (3 + 7 * foldl (λ acc c, (acc * 31 + byte_to_Z c + 1) `mod` 65521)%Z 7%Z (domain ++ message)).

Section toy_curves.
#[local] Existing Instance Toy_ops | 0.
#[local] Existing Instance Toy_laws | 0.
Add Field toy_field : (scalar_field_theory (F:=Toy)).

Definition toy_coordinates (t : Toy) : option (Toy * Toy) :=
  if bool_decide (t = toy 0) then None
  else let i := sinv t in Some (smul i i, smul (smul i i) i).

Definition ToyCurves : EvrfCurves := {|
  gin_cycle := ToyCycle;
  gout_cycle := ToyCycle;
  coordinates := toy_coordinates;
  gin_double := λ t, sadd t t;
  gin_mul_generator := λ s, smul (toy 1) s;
  hash_to_curve := toy_hash;
  fq_from_u64 := toy;
  fp_to_repr := toy_to_canonical;
  fq_to_repr := toy_to_canonical;
  fp_from_raw := λ limbs, toy (limbs_value limbs);
  fq_from_raw := λ limbs, toy (limbs_value limbs);
|}.

Lemma toy_coordinates_Some t x y :
  toy_coordinates t = Some (x, y) ↔
  t ≠ szero ∧ x = smul (sinv t) (sinv t) ∧ y = smul (smul (sinv t) (sinv t)) (sinv t).
Proof.
  unfold toy_coordinates. change (toy 0) with (szero (F:=Toy)).
  case_bool_decide; [naive_solver|]. split; [|by intros (_ & -> & ->)].
  intros E. split; [done|]. apply Some_inj, pair_equal_spec in E as [<- <-]. done.
Qed.

Lemma sinv_nonzero (t : Toy) : t ≠ szero → sinv t ≠ szero.
Proof.
  intros Ht E. pose proof (sinv_r t Ht) as Hr. rewrite E in Hr.
  apply (sone_neq_zero (F:=Toy)). rewrite <-Hr. ring.
Qed.

Lemma toy_parameter t : t ≠ szero → smul (smul (smul (sinv t) (sinv t)) (sinv t)) t = smul (sinv t) (sinv t).
Proof. intros Ht. field. done. Qed.

Lemma toy_inverse_inj (P Q : Toy) : P ≠ szero → Q ≠ szero → sinv P = sinv Q → P = Q.
Proof.
  intros HP HQ E. apply (smul_cancel_l (sinv P)); [by apply sinv_nonzero|].
  rewrite sinv_l by done. by rewrite E, sinv_l.
Qed.
Lemma toy_opposite (P Q : Toy) :
  P ≠ szero → Q ≠ szero → smul (sinv P) (sinv P) = smul (sinv Q) (sinv Q) → P = Q ∨ sadd P Q = szero.
Proof.
  intros HP HQ E. set (a := sinv P) in *. set (b := sinv Q) in *.
  assert (Hab : smul (ssub a b) (sadd a b) = szero).
  { replace (smul (ssub a b) (sadd a b)) with (ssub (smul a a) (smul b b)) by ring. rewrite E. ring. }
  apply smul_integral in Hab as [Hab|Hab].
  - left. apply toy_inverse_inj; try done. by apply ssub_eq_0.
  - right. apply (smul_cancel_l a); [by apply sinv_nonzero|].
    replace (smul a (sadd P Q)) with (sadd (smul a P) (ssub (smul (sadd a b) Q) (smul b Q))) by ring.
    unfold a at 1, b at 2. rewrite Hab, !sinv_l by done. ring.
Qed.

Lemma toy_chord_rule (P Q : Toy) x1 y1 x2 y2 :
  toy_coordinates P = Some (x1, y1) → toy_coordinates Q = Some (x2, y2) → x1 ≠ x2 →
  let s := smul (ssub y1 y2) (sinv (ssub x1 x2)) in
  let x3 := ssub (ssub (smul s s) x1) x2 in
  toy_coordinates (sadd P Q) = Some (x3, ssub (smul s (ssub x1 x3)) y1).
Proof.
  intros (HP & -> & ->)%toy_coordinates_Some (HQ & -> & ->)%toy_coordinates_Some Hne s x3.
  assert (Hd : ssub (smul Q Q) (smul P P) ≠ szero).
  { intros E. apply Hne. apply (proj1 (ssub_eq_0 _ _)) in E.
    apply (smul_cancel_l (smul P P)); [by apply smul_nonzero|].
    transitivity (sone (F:=Toy)); [field; done|]. rewrite <-E. field. done. }
  assert (Hsum : sadd P Q ≠ szero).
  { intros E. apply Hd. replace (ssub (smul Q Q) (smul P P)) with (smul (sadd P Q) (ssub Q P)) by ring.
    rewrite E. ring. }
  assert (Hx : smul (sinv (sadd P Q)) (sinv (sadd P Q)) = x3).
  { unfold x3, s. field. split_and!; try done. }
  apply toy_coordinates_Some. split; [done|]. split; [done|].
  rewrite Hx. unfold x3, s. field. split_and!; try done.
Qed.

Lemma le_value_app a b : le_value (a ++ b) = (le_value a + 256 ^ len a * le_value b)%Z.
Proof.
  induction a as [|x a IH].
  { change (le_value b = 0 + 1 * le_value b)%Z. lia. }
  cbn [app le_value foldr]. change (foldr _ 0%Z (a ++ b)) with (le_value (a ++ b)). rewrite IH.
  change (foldr _ 0%Z a) with (le_value a). unfold len. cbn [length].
  rewrite Nat2Z.inj_succ, Z.pow_succ_r by lia. lia.
Qed.
Lemma le_value_reverse bs : le_value (reverse bs) = from_be_bytes bs.
Proof.
  induction bs as [|b bs IH]; [done|].
  rewrite reverse_cons, le_value_app, IH, from_be_bytes_cons. unfold len. rewrite length_reverse.
  change (le_value [b]) with (byte_to_Z b + 256 * 0)%Z. lia.
Qed.
Lemma toy_repr_value t : le_value (toy_to_canonical t) = toy_val t.
Proof.
  unfold toy_to_canonical. rewrite le_value_reverse. apply from_to_be_bytes_small.
  pose proof (toy_val_range t). change (256 ^ Z.of_nat 32)%Z with (2 ^ 256)%Z. lia.
Qed.

Lemma ToyCurves_laws : EvrfCurveLaws (H:=ToyCurves).
Proof.
  split; cbn -[toy_coordinates smul sadd ssub sinv toy_to_canonical].
  - exact ToyCycle_laws.
  - exact ToyCycle_laws.
  - done.
  - intros P HP. eexists (_, _). by apply toy_coordinates_Some.
  - intros P Q [x y] (HP & -> & ->)%toy_coordinates_Some (HQ & Hx & Hy)%toy_coordinates_Some.
    rewrite Hx in Hy. apply smul_cancel_l in Hy; [|by apply smul_nonzero; apply sinv_nonzero].
    apply toy_inverse_inj; done.
  - intros P Q x y y' (HP & -> & ->)%toy_coordinates_Some (HQ & Hx & _)%toy_coordinates_Some.
    by apply toy_opposite.
  - exact toy_chord_rule.
  - done.
  - done.
  - intros z _. symmetry. apply toy_of_Z.
  - intros n Hn. rewrite toy_of_Z. intros E%(f_equal toy_val). cbn in E. rewrite toy_val_toy in E.
    rewrite Z.mod_small in E by lia. vm_compute in E. lia.
  - intros x. apply (length_scalar_canonical (CycleCodec:=ToyCycle_codec)).
  - intros x. apply (length_scalar_canonical (CycleCodec:=ToyCycle_codec)).
  - intros x. by rewrite toy_of_Z, toy_repr_value, toy_toy_val.
  - intros x. by rewrite toy_of_Z, toy_repr_value, toy_toy_val.
  - intros x. rewrite toy_repr_value. pose proof (toy_val_range x).
    assert (65521 < le_value SECP256K1_BASE_MODULUS_LE)%Z by (vm_compute; reflexivity). lia.
  - intros x. rewrite toy_repr_value. pose proof (toy_val_range x).
    assert (65521 < le_value SECP256K1_SCALAR_MODULUS_LE)%Z by (vm_compute; reflexivity). lia.
  - intros l. symmetry. apply toy_of_Z.
  - intros l. symmetry. apply toy_of_Z.
  - intros x. rewrite toy_repr_value, toy_of_Z, toy_repr_value, toy_toy_val. by left.
  - intros x. change (le_value (toy_to_canonical (of_Z (le_value (toy_to_canonical x))))
      = le_value (toy_to_canonical x)).
    by rewrite (toy_repr_value x), toy_of_Z, toy_toy_val, toy_repr_value.
Qed.
End toy_curves.
