(* ===== verification/EvrfChord.v ===== *)
(** * Exponentiation in the circuit (golden-evrf/paper.rs, module secp_secq)

    The chord-rule exponentiation of a point of the input curve: the public tables
    of a base, the prover's witness, and the gadget, which adds one point of a table
    per two bits of the exponent.  When no addition of the chain is exceptional,
    the gadget's result is exactly the coordinates of the power. *)

From Stdlib Require Import ZArith Lia Field Strings.Byte.
From stdpp Require Import prelude strings list_numbers.
From S2P Require Import Prelude CoreError Group Algebra TestSupport Cycle BpUtil InnerProduct ConstraintSystem Generators R1csProof Prover Verifier R1csSync CircuitLogic EvrfBits EvrfCurves.

Local Open Scope golden_scope.

(** ** Tables *)
Section tables.
Context {EC : EvrfCurves}.
#[local] Existing Instance gout_cycle | 0.

#[export] Instance gin_inhabited : Inhabited Gin := populate cpoint_identity.
#[export] Instance fp_inhabited : Inhabited Fp := populate 0.

Definition CHORD_CORRECTION_DOMAIN : list byte := bstr "golden-paper-evrf-chord-correction-v1".
Definition chord_correction_generator (X : Gin) : Gin :=
  hash_to_curve CHORD_CORRECTION_DOMAIN (compressed_as_bytes (point_compress X)).

Definition chord_cj (j lambda : nat) : Fq :=
  if Nat.eqb j 0 then 1
  else if Nat.ltb j lambda then fq_from_u64 2
  else 1 - fq_from_u64 (Z.of_nat (2 * lambda)).

(** The coordinates of the four candidates of a window, [Q00, Q10, Q01, Q11]. *)
Definition Window : Type := (Fp * Fp) * (Fp * Fp) * (Fp * Fp) * (Fp * Fp).
#[export] Instance window_inhabited : Inhabited Window := _.

Record ChordPrecomp := MkChordPrecomp {
  c0 : Fp * Fp;
  d0 : Fp * Fp;
  windows : list Window;
  powers : list Gin;
  corrections : Gin * Gin * Gin;
}.

(** The correction point of an index, out of the three distinct ones. *)
Definition chord_correction (corrections : Gin * Gin * Gin) (lambda j : nat) : Gin :=
  let '(c_first, c_mid, c_last) := corrections in
  if Nat.eqb j 0 then c_first else if Nat.ltb j lambda then c_mid else c_last.

Definition chord_corrections (X : Gin) (lambda : nat) : Gin * Gin * Gin :=
  let g_s := chord_correction_generator X in
  (g_s, g_s ⊙ fq_from_u64 2, g_s ⊙ chord_cj lambda lambda).

(** [as_chunks::<4>]: the remainder is left out. *)
Fixpoint as_chunks4 {A} (l : list A) : list (A * A * A * A) :=
  match l with
  | a :: b :: c :: d :: l => (a, b, c, d) :: as_chunks4 l
  | _ => []
  end.

(** The loop over the bits: the doublings, the corrections and their sums. *)
Definition precompute_step (cs : Gin * Gin * Gin) (lambda : nat)
    (st : Gin * list Gin * list Gin * list Gin) (j : nat) : Gin * list Gin * list Gin * list Gin :=
  let '(p_j, powers, c_points, d_points) := st in
  let c_j_point := chord_correction cs lambda j in
  (gin_double p_j, powers ++ [p_j], c_points ++ [c_j_point], d_points ++ [p_j ⊕ c_j_point]).

Definition window_points (c_points d_points : list Gin) (w : nat) : list Gin :=
  let j1 := (2 * w - 1)%nat in
  let j2 := (2 * w)%nat in
  let c1 := c_points !!! j1 in
  let d1 := d_points !!! j1 in
  let c2 := c_points !!! j2 in
  let d2 := d_points !!! j2 in
  [c1 ⊕ c2; d1 ⊕ c2; c1 ⊕ d2; d1 ⊕ d2].

(** The points of the table, before they are normalized: the powers, the candidates. *)
Definition chord_points (X : Gin) (lambda : nat) : list Gin * list Gin :=
  let '(_, powers, c_points, d_points) :=
    foldl (precompute_step (chord_corrections X lambda) lambda) (X, [], [], []) (seq 0 (lambda + 1)) in
  let num_windows := (lambda / 2)%nat in
  (powers, [c_points !!! 0%nat; d_points !!! 0%nat] ++
     mjoin (window_points c_points d_points <$> seq 1 num_windows)).

Definition precompute_chord (X : Gin) (lambda : nat) : Result ChordPrecomp :=
  if Nat.eqb lambda 0 || negb (Nat.even lambda) then Err ProofVerificationFailed
  else
    let '(powers, points) := chord_points X lambda in
    affines ← batch_affine points;
    let base := take 2 affines in
    Ok (MkChordPrecomp (base !!! 0%nat) (base !!! 1%nat) (as_chunks4 (drop 2 affines)) powers
          (chord_corrections X lambda)).

(** [chord_evaluate_point]: the same sum natively. *)
Definition evaluate_step (cs : Gin * Gin * Gin) (lambda : nat) (st : Gin * Gin) (jbit : nat * bool)
    : Gin * Gin :=
  let '(p_j, l) := st in
  let '(j, bit) := jbit in
  let c_j_point := chord_correction cs lambda j in
  let delta := if bit : bool then p_j ⊕ c_j_point else c_j_point in
  (gin_double p_j, if Nat.eqb j 0 then delta else l ⊕ delta).

Definition chord_evaluate_point (bits : list bool) (X : Gin) (lambda : nat) : Result Gin :=
  if negb (Nat.eqb (length bits) (lambda + 1)) then Err ProofVerificationFailed
  else
    let cs := chord_corrections X lambda in
    let '(_, l) := foldl (evaluate_step cs lambda) (X, cpoint_identity) (imap pair bits) in
    Ok l.

(** ** The witness *)
Definition CHORD_CHECKPOINT_INTERVAL : nat := 16.
Definition chord_is_checkpoint_window (w num_windows : nat) : bool :=
  Nat.eqb (w mod CHORD_CHECKPOINT_INTERVAL) 0 || Nat.eqb w num_windows.
Definition chord_checkpoint_count (num_windows : nat) : nat :=
  let full_intervals := (num_windows / CHORD_CHECKPOINT_INTERVAL)%nat in
  if Nat.eqb (num_windows mod CHORD_CHECKPOINT_INTERVAL) 0 then full_intervals
  else (full_intervals + 1)%nat.

Record ChordWitness := MkChordWitness {
  checkpoint_coords : list (Fp * Fp);
  slopes : list Fp;
  denominators : list Fp;
}.

(** Pass 1, a window: its point is added to the running one. *)
Definition window_delta (bits : list bool) (powers : list Gin) (cs : Gin * Gin * Gin) (lambda w : nat)
    : Gin :=
  let j1 := (2 * w - 1)%nat in
  let j2 := (2 * w)%nat in
  let delta := chord_correction cs lambda j1 ⊕ chord_correction cs lambda j2 in
  let delta := if bits !!! j1 : bool then delta ⊕ powers !!! j1 else delta in
  if bits !!! j2 : bool then delta ⊕ powers !!! j2 else delta.

Definition accumulate_step (bits : list bool) (powers : list Gin) (cs : Gin * Gin * Gin)
    (lambda : nat) (st : Gin * list Gin * list Gin) (w : nat) : Gin * list Gin * list Gin :=
  let '(l, l_points, delta_points) := st in
  let delta := window_delta bits powers cs lambda w in
  let l := l ⊕ delta in
  (l, l_points ++ [l], delta_points ++ [delta]).

(** The running points and the points added. *)
Definition chord_walk (bits : list bool) (powers : list Gin) (cs : Gin * Gin * Gin) (lambda : nat)
    : list Gin * list Gin :=
  let l := if bits !!! 0%nat : bool then powers !!! 0%nat ⊕ chord_correction cs lambda 0
           else chord_correction cs lambda 0 in
  let '(_, l_points, delta_points) :=
    foldl (accumulate_step bits powers cs lambda) (l, [l], []) (seq 1 (lambda / 2)) in
  (l_points, delta_points).

(** Pass 2, a window: the differences of the coordinates. *)
Definition slope_step (l_coords delta_coords : list (Fp * Fp)) (st : list Fp * list Fp) (w : nat)
    : Result (list Fp * list Fp) :=
  let '(dxs, dys) := st in
  let '(x_prev, y_prev) := l_coords !!! (w - 1)%nat in
  let '(x_delta, y_delta) := delta_coords !!! (w - 1)%nat in
  let dx := x_prev - x_delta in
  let dy := y_prev - y_delta in
  if bool_decide (dx = 0) then Err ProofVerificationFailed
  else Ok (dxs ++ [dx], dys ++ [dy]).

Definition chord_compute_witness_precomputed (bits : list bool) (precomp : ChordPrecomp)
    : Result ChordWitness :=
  let lambda := (length (powers precomp) - 1)%nat in
  if negb (Nat.eqb (length bits) (lambda + 1)) then Err ProofVerificationFailed
  else
    let num_windows := (lambda / 2)%nat in
    let '(l_points, delta_points) := chord_walk bits (powers precomp) (corrections precomp) lambda in
    affines ← batch_affine (l_points ++ delta_points);
    let l_coords := take (num_windows + 1) affines in
    let delta_coords := drop (num_windows + 1) affines in
    '(dxs, dys) ← fold_result (slope_step l_coords delta_coords) ([], []) (seq 1 num_windows);
    let denominators := dxs in
    let '(dxs, _) := scalar_batch_invert dxs in
    let slopes := zip_with (λ dy dx_inv, dy * dx_inv) dys dxs in
    let checkpoint_coords := (λ w, l_coords !!! w) <$>
      filter (λ w, chord_is_checkpoint_window w num_windows) (seq 1 num_windows) in
    Ok (MkChordWitness checkpoint_coords slopes denominators).
(** No addition of the chain is exceptional: no candidate of the table, running point
    or added point is the identity, and no two points that are added have the same
    first coordinate. *)
Definition chord_regular (X : Gin) (lambda : nat) (bits : list bool) : bool :=
  let '(powers, points) := chord_points X lambda in
  let '(ls, ds) := chord_walk bits powers (chord_corrections X lambda) lambda in
  forallb (λ P, negb (gin_is_identity P)) (points ++ ls ++ ds) &&
  forallb (λ '(l, d), negb (bool_decide (l = d)) && negb (gin_is_identity (l ⊕ d))) (zip ls ds).
End tables.

(** ** The gadgets *)
Section gadgets.
Context {EC : EvrfCurves} {ME : Merlin}.
#[local] Existing Instance gout_cycle | 0.
Local Abbreviation LC := (LinearCombination Fp).

Definition delta0_x_lc (k0_var : CSVariable) (precomp : ChordPrecomp) : LC :=
  let '(cx, _) := c0 precomp in
  let '(dx, _) := d0 precomp in
  lc_add (lc_from_scalar cx) (var_mul k0_var (dx - cx)).
Definition delta0_y_lc (k0_var : CSVariable) (precomp : ChordPrecomp) : LC :=
  let '(_, cy) := c0 precomp in
  let '(_, dy) := d0 precomp in
  lc_add (lc_from_scalar cy) (var_mul k0_var (dy - cy)).

Definition window_delta_x_lc (s0_var s1_var and_var : CSVariable) (window : Window) : LC :=
  let '((q00x, _), (q10x, _), (q01x, _), (q11x, _)) := window in
  lc_add (lc_add (lc_add (lc_from_scalar q00x) (var_mul s0_var (q10x - q00x)))
            (var_mul s1_var (q01x - q00x)))
    (var_mul and_var (q11x - q10x - q01x + q00x)).
Definition window_delta_y_lc (s0_var s1_var and_var : CSVariable) (window : Window) : LC :=
  let '((_, q00y), (_, q10y), (_, q01y), (_, q11y)) := window in
  lc_add (lc_add (lc_add (lc_from_scalar q00y) (var_mul s0_var (q10y - q00y)))
            (var_mul s1_var (q01y - q00y)))
    (var_mul and_var (q11y - q10y - q01y + q00y)).

Definition chord_window_products (bit_vars : list CSVariable) : gadget (list CSVariable) :=
  if Nat.ltb (length bit_vars) 3 || Nat.even (length bit_vars) then fails R1CSFormatError
  else
    let num_windows := ((length bit_vars - 1) / 2)%nat in
    gfold (λ products w,
        '(_, _, and_var) ← multiply (lc_from_variable (bit_vars !!! (2 * w - 1)%nat))
                             (lc_from_variable (bit_vars !!! (2 * w)%nat));
        gret (products ++ [and_var]))
      [] (seq 1 num_windows).

(** The state of the loop: the running point, the last checkpoint, and the index of
    the next one. *)
Definition ChordState : Type := LC * LC * option (CSVariable * CSVariable) * nat.

Definition chord_step (bit_vars : list CSVariable) (precomp : ChordPrecomp)
    (window_products : list CSVariable) (witness : option ChordWitness) (num_windows : nat)
    (st : ChordState) (w : nat) : gadget ChordState :=
  let '(x_prev, y_prev, checkpoint, checkpoint_idx) := st in
  let s0_var := bit_vars !!! (2 * w - 1)%nat in
  let s1_var := bit_vars !!! (2 * w)%nat in
  let and_var := window_products !!! (w - 1)%nat in
  let window := windows precomp !!! (w - 1)%nat in
  let dx_w := window_delta_x_lc s0_var s1_var and_var window in
  let dy_w := window_delta_y_lc s0_var s1_var and_var window in
  let denom_delta := lc_sub x_prev dx_w in
  let assignment : option (Fp * Fp) :=
    (λ wit, (slopes wit !!! (w - 1)%nat, denominators wit !!! (w - 1)%nat)) <$> witness in
  '(s_var, denominator, out1) ← allocate_multiplier assignment;
  _ ← constrain (var_sub denominator denom_delta);
  _ ← constrain (var_sub out1 (lc_sub y_prev dy_w));
  '(_, _, out2) ← multiply (lc_from_variable s_var) (lc_from_variable s_var);
  let x_l := lc_sub (var_sub out2 x_prev) dx_w in
  let denom_result := lc_sub x_prev x_l in
  '(_, _, out3) ← multiply (lc_from_variable s_var) denom_result;
  let y_l := var_sub out3 y_prev in
  if chord_is_checkpoint_window w num_windows then
    let ck : option (Fp * Fp) := (λ wit, checkpoint_coords wit !!! checkpoint_idx) <$> witness in
    x_ck ← allocate (fst <$> ck);
    y_ck ← allocate (snd <$> ck);
    _ ← constrain (lc_sub x_l (lc_from_variable x_ck));
    _ ← constrain (lc_sub y_l (lc_from_variable y_ck));
    gret (lc_from_variable x_ck, lc_from_variable y_ck, Some (x_ck, y_ck), S checkpoint_idx)
  else gret (x_l, y_l, checkpoint, checkpoint_idx).

(** The lengths that the gadget checks of a witness. *)
Definition witness_fits (num_windows : nat) (witness : option ChordWitness) : bool :=
  match witness with
  | Some w => Nat.eqb (length (checkpoint_coords w)) (chord_checkpoint_count num_windows)
              && Nat.eqb (length (slopes w)) num_windows
              && Nat.eqb (length (denominators w)) num_windows
  | None => true
  end.

(** The code unwraps the last checkpoint: the last window always sets it, as
    [chord_exponentiate_sized] shows, so the last branch is never taken. *)
Definition chord_exponentiate_r1cs_with_result (bit_vars : list CSVariable)
    (precomp : ChordPrecomp) (window_products : list CSVariable) (result : option (Fp * Fp))
    (witness : option ChordWitness) : gadget (CSVariable * CSVariable) :=
  let lambda_plus_one := length bit_vars in
  if Nat.ltb lambda_plus_one 3 || Nat.even lambda_plus_one then fails R1CSFormatError
  else
    let num_windows := ((lambda_plus_one - 1) / 2)%nat in
    if negb (Nat.eqb (length (windows precomp)) num_windows)
       || negb (Nat.eqb (length window_products) num_windows)
    then fails R1CSFormatError
    else if negb (witness_fits num_windows witness) then fails R1CSFormatError
    else
      let x_prev := delta0_x_lc (bit_vars !!! 0%nat) precomp in
      let y_prev := delta0_y_lc (bit_vars !!! 0%nat) precomp in
      '(_, _, checkpoint, _) ←
        gfold (chord_step bit_vars precomp window_products witness num_windows)
          (x_prev, y_prev, None, 0%nat) (seq 1 num_windows);
      match checkpoint with
      | Some (x_final, y_final) =>
          _ ← match result with
              | Some (result_x, result_y) =>
                  _ ← constrain (var_sub x_final (lc_from_scalar result_x));
                  constrain (var_sub y_final (lc_from_scalar result_y))
              | None => gret tt
              end;
          gret (x_final, y_final)
      | None => fails R1CSFormatError
      end.

Definition chord_exponentiate_r1cs (bit_vars : list CSVariable) (precomp : ChordPrecomp)
    (window_products : list CSVariable) (result_x result_y : Fp) (witness : option ChordWitness)
    : gadget (CSVariable * CSVariable) :=
  chord_exponentiate_r1cs_with_result bit_vars precomp window_products
    (Some (result_x, result_y)) witness.
End gadgets.

(** ** The tables hold the points they are meant to *)
Lemma foldl_seq_invariant {St} (f : St → nat → St) (I : nat → St → Prop) s i n :
  I i s → (∀ j s, (i ≤ j < i + n)%nat → I j s → I (S j) (f s j)) → I (i + n)%nat (foldl f s (seq i n)).
Proof.
  revert s i. induction n as [|n IH]; intros s i H0 Hf; cbn [seq foldl].
  - by rewrite Nat.add_0_r.
  - rewrite Nat.add_succ_r, <-Nat.add_succ_l. apply IH; [apply Hf; [lia|done]|].
    intros j s' Hj. apply Hf. lia.
Qed.

Lemma lookup_total_map_seq {A} `{Inhabited A} (f : nat → A) i n :
  (i < n)%nat → (f <$> seq 0 n) !!! i = f i.
Proof.
  intros Hi. apply list_lookup_total_correct. by rewrite list_lookup_fmap, lookup_seq_lt.
Qed.

Lemma lambda_windows lambda : Nat.even lambda = true → lambda = (2 * (lambda / 2))%nat.
Proof.
  intros [k ->]%Nat.even_spec.
  assert (E : (2 * k / 2 = k)%nat) by (rewrite Nat.mul_comm; by apply Nat.div_mul).
  by rewrite E.
Qed.

Section chord_points.
Context {EC : EvrfCurves} {ECL : EvrfCurveLaws}.
#[local] Existing Instance gout_cycle | 0.
Add Field gin_field : (scalar_field_theory (F:=Fq)).
Add Ring gin_ring : (ideal_ring_theory (H:=gin_cycle)).
Context (X : Gin).

(** [P_j] and [C_j] of the code. *)
Definition chord_power (j : nat) : Gin := X ⊙ of_Z (2 ^ Z.of_nat j).
Lemma chord_power_0 : chord_power 0 = X.
Proof using ECL. unfold chord_power. by rewrite of_Z_1, cpoint_mul_1. Qed.
Lemma chord_power_S j : gin_double (chord_power j) = chord_power (S j).
Proof using ECL.
  unfold chord_power. rewrite gin_double_spec, Nat2Z.inj_succ, Z.pow_succ_r, of_Z_double by lia.
  by rewrite cpoint_mul_add_r.
Qed.


Context (lambda : nat).
Definition chord_shift (j : nat) : Gin := chord_correction_generator X ⊙ chord_cj j lambda.
Definition chord_term (b : bool) (j : nat) : Gin :=
  if b then chord_power j ⊕ chord_shift j else chord_shift j.

Lemma chord_correction_at (Hlambda : lambda ≠ 0%nat) j :
  chord_correction (chord_corrections X lambda) lambda j = chord_shift j.
Proof using ECL.
  unfold chord_correction, chord_corrections, chord_shift, chord_cj.
  destruct (Nat.eqb_spec j 0) as [->|Hj]; [by rewrite cpoint_mul_1|].
  destruct (Nat.ltb_spec j lambda); [done|].
  destruct (Nat.eqb_spec lambda 0); [done|]. by rewrite Nat.ltb_irrefl.
Qed.

(** The sum of the first correction scalars, which the last one makes zero. *)
Fixpoint chord_csum (n : nat) : Fq :=
  match n with 0%nat => 0 | S n => chord_csum n + chord_cj n lambda end.

Context (Hsize : is_usize (Z.of_nat (2 * lambda))).
Lemma chord_csum_below n :
  (0 < n ≤ lambda)%nat → chord_csum n = of_Z (2 * Z.of_nat n - 1).
Proof using ECL Hsize.
  induction n as [|n IH]; [lia|]. intros Hn. cbn [chord_csum]. unfold chord_cj.
  destruct (Nat.eqb_spec n 0) as [->|Hne].
  - cbn [chord_csum]. change (2 * Z.of_nat 1 - 1)%Z with 1%Z. rewrite of_Z_1. ring.
  - destruct (Nat.ltb_spec n lambda); [|lia]. rewrite IH by lia.
    rewrite fq_from_u64_spec, <-of_Z_add by (unfold is_usize in *; lia). f_equal. lia.
Qed.
Lemma chord_csum_total : lambda ≠ 0%nat → chord_csum (lambda + 1) = 0.
Proof using ECL Hsize.
  intros Hlambda. rewrite Nat.add_1_r. cbn [chord_csum]. rewrite chord_csum_below by lia. unfold chord_cj.
  destruct (Nat.eqb_spec lambda 0); [done|]. rewrite Nat.ltb_irrefl, fq_from_u64_spec by done.
  rewrite of_Z_sub, of_Z_1. replace (2 * Z.of_nat lambda)%Z with (Z.of_nat (2 * lambda)) by lia. ring.
Qed.

(** The running sum after [n] bits. *)
Definition chord_partial (bs : list bool) (n : nat) : Gin :=
  X ⊙ of_Z (bits_value (take n bs)) ⊕ chord_correction_generator X ⊙ chord_csum n.

Lemma chord_partial_S bs n b :
  bs !! n = Some b → chord_partial bs (S n) = chord_partial bs n ⊕ chord_term b n.
Proof using ECL.
  intros Hb. unfold chord_partial, chord_term, chord_shift, chord_power.
  assert (Hn : (n < length bs)%nat) by by eapply lookup_lt_Some.
  rewrite (take_S_r _ _ _ Hb), bits_value_app. change (bits_value [b]) with (Z.b2z b + 2 * 0)%Z.
  unfold len. rewrite length_take, Nat.min_l by lia. cbn [chord_csum].
  rewrite Z.mul_0_r, Z.add_0_r, of_Z_add, of_Z_mul. destruct b; cbn [Z.b2z].
  - rewrite of_Z_1. point_ring.
  - rewrite of_Z_0. point_ring.
Qed.
Lemma chord_partial_1 bs b : bs !! 0%nat = Some b → chord_partial bs 1 = chord_term b 0.
Proof using ECL.
  intros Hb. rewrite (chord_partial_S _ _ _ Hb). unfold chord_partial. rewrite take_0.
  change (bits_value []) with 0%Z. cbn [chord_csum]. rewrite of_Z_0, !cpoint_mul_0, !cpoint_add_id_l. done.
Qed.

(** The whole sum is the power. *)
Lemma chord_partial_total bs :
  lambda ≠ 0%nat → length bs = (lambda + 1)%nat →
  chord_partial bs (lambda + 1) = X ⊙ of_Z (bits_value bs).
Proof using ECL Hsize.
  intros Hlambda Hl. unfold chord_partial. rewrite take_ge, chord_csum_total by (done || lia).
  by rewrite cpoint_mul_0, cpoint_add_id_r.
Qed.

(** *** [precompute_chord] *)
Lemma precompute_loop (Hlambda : lambda ≠ 0%nat) n :
  foldl (precompute_step (chord_corrections X lambda) lambda) (X, [], [], []) (seq 0 n)
  = (chord_power n, chord_power <$> seq 0 n, chord_shift <$> seq 0 n,
     (λ j, chord_power j ⊕ chord_shift j) <$> seq 0 n).
Proof using ECL.
  apply (foldl_seq_invariant _ (λ j st, st = (chord_power j, chord_power <$> seq 0 j,
    chord_shift <$> seq 0 j, (λ j, chord_power j ⊕ chord_shift j) <$> seq 0 j)) _ 0 n).
  - by rewrite chord_power_0.
  - intros j st _ ->. cbn [precompute_step].
    by rewrite chord_power_S, chord_correction_at, seq_S, !fmap_app by done.
Qed.

(** The table of a base. *)
Record chord_table (pc : ChordPrecomp) : Prop := MkChordTable {
  table_c0 : affine (chord_shift 0) = Ok (c0 pc);
  table_d0 : affine (chord_power 0 ⊕ chord_shift 0) = Ok (d0 pc);
  table_windows : Forall2 (λ w '(q00, q10, q01, q11),
    let j1 := (2 * w - 1)%nat in let j2 := (2 * w)%nat in
    affine (chord_term false j1 ⊕ chord_term false j2) = Ok q00 ∧
    affine (chord_term true j1 ⊕ chord_term false j2) = Ok q10 ∧
    affine (chord_term false j1 ⊕ chord_term true j2) = Ok q01 ∧
    affine (chord_term true j1 ⊕ chord_term true j2) = Ok q11) (seq 1 (lambda / 2)) (windows pc);
  table_powers : powers pc = chord_power <$> seq 0 (lambda + 1);
  table_corrections : corrections pc = chord_corrections X lambda;
}.

Lemma Forall2_app_chunks {A B} (R : A → B → Prop) (f : nat → list A) ws l (S : nat → B * B * B * B → Prop) :
  Forall2 R (mjoin (f <$> ws)) l →
  (∀ w a b c d l', w ∈ ws → Forall2 R (f w) (a :: b :: c :: d :: l') → l' = [] → S w (a, b, c, d)) →
  (∀ w, w ∈ ws → length (f w) = 4%nat) →
  Forall2 S ws (as_chunks4 l).
Proof.
  revert l. induction ws as [|w ws IH]; intros l Hl HS Hlen.
  - cbn in Hl. inversion Hl. constructor.
  - cbn in Hl. apply Forall2_app_inv_l in Hl as (l1 & l2 & Hl1 & Hl2 & ->).
    pose proof (Forall2_length _ _ _ Hl1) as E. rewrite Hlen in E by by left.
    destruct l1 as [|a [|b [|c [|d [|]]]]]; try done. cbn [app as_chunks4]. constructor.
    + by eapply HS; [left|exact Hl1|].
    + apply IH; [done| |intros; apply Hlen; by right]. intros; eapply HS; try done. by right.
Qed.

Lemma precompute_chord_Ok pc :
  precompute_chord X lambda = Ok pc → lambda ≠ 0%nat ∧ Nat.even lambda = true ∧ chord_table pc.
Proof using ECL.
  unfold precompute_chord. destruct (Nat.eqb_spec lambda 0) as [|Hlambda]; [done|].
  destruct (Nat.even lambda) eqn:Heven; [|done]. cbn [negb orb].
  unfold chord_points. rewrite precompute_loop by done. intros E. split; [done|]. split; [done|].
  apply bind_Ok in E as (l & Hl & [= <-]). apply batch_affine_Ok in Hl.
  assert (Hc : ∀ j, (j ≤ lambda)%nat → (chord_shift <$> seq 0 (lambda + 1)) !!! j = chord_term false j).
  { intros j Hj. apply lookup_total_map_seq. lia. }
  assert (Hd : ∀ j, (j ≤ lambda)%nat →
    ((λ j, chord_power j ⊕ chord_shift j) <$> seq 0 (lambda + 1)) !!! j = chord_term true j).
  { intros j Hj. rewrite lookup_total_map_seq by lia. done. }
  apply Forall2_app_inv_l in Hl as (l1 & l2 & Hl1 & Hl2 & ->).
  pose proof (Forall2_length _ _ _ Hl1) as E. destruct l1 as [|q0 [|q1 []]]; try done.
  apply Forall2_cons in Hl1 as [H0 [H1 _]%Forall2_cons].
  rewrite Hc in H0 by lia. rewrite Hd in H1 by lia.
  split; cbn [c0 d0 windows powers corrections]; try done.
  change (drop 2 ([q0; q1] ++ l2)) with (drop 0 l2). rewrite drop_0.
  eapply Forall2_app_chunks; [exact Hl2| |done].
  intros w a b c d l' Hw%elem_of_seq Hwl ->. cbn beta zeta.
  assert (2 * w ≤ lambda)%nat.
  { pose proof (Nat.Div0.mul_div_le lambda 2). lia. }
  unfold window_points in Hwl. cbv zeta in Hwl. rewrite !Hc, !Hd in Hwl by lia.
  rewrite !Forall2_cons in Hwl. tauto.
Qed.

(** *** [chord_evaluate_point] *)
Lemma evaluate_loop (Hlambda : lambda ≠ 0%nat) bs :
  foldl (evaluate_step (chord_corrections X lambda) lambda) (X, cpoint_identity) (imap pair bs)
  = (chord_power (length bs), if decide (bs = []) then cpoint_identity else chord_partial bs (length bs)).
Proof using ECL.
  induction bs as [|b bs IH] using rev_ind; [by cbn; rewrite chord_power_0|].
  rewrite imap_app, foldl_app, IH, length_app, Nat.add_1_r. cbn [imap foldl evaluate_step].
  rewrite Nat.add_0_r, chord_power_S, chord_correction_at by done.
  rewrite (decide_False (P:=bs ++ [b] = [])) by by destruct bs. f_equal.
  rewrite (chord_partial_S (bs ++ [b]) (length bs) b) by by apply list_lookup_middle.
  unfold chord_partial at 2. rewrite take_app_length.
  destruct bs as [|b0 bs'].
  2: { rewrite decide_False by done. unfold chord_partial. by rewrite take_ge. }
  cbn [length Nat.eqb bits_value foldr chord_csum].
  by rewrite of_Z_0, !cpoint_mul_0, !cpoint_add_id_l.
Qed.

Lemma chord_evaluate_point_eq (Hlambda : lambda ≠ 0%nat) bs :
  length bs = (lambda + 1)%nat → chord_evaluate_point bs X lambda = Ok (X ⊙ of_Z (bits_value bs)).
Proof using ECL Hsize.
  intros Hl. unfold chord_evaluate_point. rewrite Hl, Nat.eqb_refl. cbn [negb].
  rewrite evaluate_loop by done. rewrite decide_False by (destruct bs; [cbn in Hl; lia|done]).
  by rewrite Hl, chord_partial_total.
Qed.

(** *** The witness *)
Context (Hlambda : lambda ≠ 0%nat) (Heven : Nat.even lambda = true).
Context (bs : list bool) (Hbs : length bs = (lambda + 1)%nat).
Local Abbreviation n := (lambda / 2)%nat.

(** The point that a window adds, and the running point after it. *)
Definition chord_window (w : nat) : Gin :=
  chord_term (bs !!! (2 * w - 1)%nat) (2 * w - 1) ⊕ chord_term (bs !!! (2 * w)%nat) (2 * w).
Definition chord_running (w : nat) : Gin := chord_partial bs (2 * w + 1).

Lemma bs_at j : (j ≤ lambda)%nat → bs !! j = Some (bs !!! j).
Proof using All. intros Hj. apply list_lookup_lookup_total_lt. lia. Qed.

Lemma chord_running_S w :
  (S w ≤ n)%nat → chord_running (S w) = chord_running w ⊕ chord_window (S w).
Proof using All.
  intros Hw. pose proof (lambda_windows lambda Heven). unfold chord_running, chord_window.
  replace (2 * S w + 1)%nat with (S (S (2 * w + 1))) by lia.
  rewrite (chord_partial_S _ _ (bs !!! S (2 * w + 1))), (chord_partial_S _ (2 * w + 1) (bs !!! (2 * w + 1)%nat))
    by (apply bs_at; lia).
  replace (2 * S w - 1)%nat with (2 * w + 1)%nat by lia. replace (2 * S w)%nat with (S (2 * w + 1)) by lia.
  by rewrite cpoint_add_assoc.
Qed.
Lemma chord_running_0 : chord_running 0 = chord_term (bs !!! 0%nat) 0.
Proof using All. apply chord_partial_1, bs_at. lia. Qed.
Lemma chord_running_last : chord_running n = X ⊙ of_Z (bits_value bs).
Proof using All.
  unfold chord_running. rewrite <-(lambda_windows lambda Heven). by apply chord_partial_total.
Qed.

Local Abbreviation table_powers_of := (chord_power <$> seq 0 (lambda + 1)).
Local Abbreviation cs := (chord_corrections X lambda).
Lemma window_delta_eq w : (1 ≤ w ≤ n)%nat → window_delta bs table_powers_of cs lambda w = chord_window w.
Proof using All.
  intros Hw. pose proof (lambda_windows lambda Heven). unfold window_delta, chord_window, chord_term.
  rewrite !chord_correction_at by done. rewrite !lookup_total_map_seq by lia.
  destruct (bs !!! (2 * w - 1)%nat), (bs !!! (2 * w)%nat); point_ring.
Qed.

Lemma accumulate_loop m :
  (m ≤ n)%nat →
  foldl (accumulate_step bs table_powers_of cs lambda) (chord_running 0, [chord_running 0], []) (seq 1 m)
  = (chord_running m, chord_running <$> seq 0 (m + 1), chord_window <$> seq 1 m).
Proof using All.
  induction m as [|m IH]; intros Hm; [done|].
  rewrite seq_S, foldl_app, IH by lia. cbn [foldl accumulate_step].
  rewrite window_delta_eq by lia. rewrite Nat.add_1_l, <-chord_running_S by lia.
  rewrite fmap_app. rewrite (Nat.add_1_r (S m)), seq_S, fmap_app, Nat.add_0_l, Nat.add_1_r. done.
Qed.

Lemma chord_walk_eq :
  chord_walk bs table_powers_of cs lambda = (chord_running <$> seq 0 (n + 1), chord_window <$> seq 1 n).
Proof using All.
  unfold chord_walk. rewrite chord_correction_at by done. rewrite lookup_total_map_seq by lia.
  fold (chord_term (bs !!! 0%nat) 0). by rewrite <-chord_running_0, accumulate_loop.
Qed.

(** The coordinates of the running points and of the windows, with no exceptional
    addition among them. *)
Record chord_chain (L D : nat → Fp * Fp) : Prop := MkChordChain {
  chain_point w : (w ≤ n)%nat → affine (chord_running w) = Ok (L w);
  chain_window w : (1 ≤ w ≤ n)%nat → affine (chord_window w) = Ok (D w);
  chain_regular w : (1 ≤ w ≤ n)%nat → (L (w - 1)%nat).1 ≠ (D w).1;
}.

Definition chord_slope (L D : nat → Fp * Fp) (w : nat) : Fp :=
  ((L (w - 1)%nat).2 - (D w).2) * sinv ((L (w - 1)%nat).1 - (D w).1).
Definition chain_witness (L D : nat → Fp * Fp) : ChordWitness :=
  MkChordWitness (L <$> filter (λ w, chord_is_checkpoint_window w n) (seq 1 n))
    (chord_slope L D <$> seq 1 n) ((λ w, (L (w - 1)%nat).1 - (D w).1) <$> seq 1 n).

Lemma slope_loop ls ds m dxs dys :
  fold_result (slope_step ls ds) ([], []) (seq 1 m) = Ok (dxs, dys) →
  dxs = (λ w, (ls !!! (w - 1)%nat).1 - (ds !!! (w - 1)%nat).1) <$> seq 1 m ∧
  dys = (λ w, (ls !!! (w - 1)%nat).2 - (ds !!! (w - 1)%nat).2) <$> seq 1 m ∧
  Forall (λ a, a ≠ 0) dxs.
Proof using All.
  revert dxs dys. induction m as [|m IH]; intros dxs dys E; [by injection E as <- <-|].
  rewrite seq_S, fold_result_app in E. apply bind_Ok in E as ([dxs' dys'] & E1 & E2).
  destruct (IH _ _ E1) as (-> & -> & Hne). cbn [fold_result mbind result_bind slope_step] in E2.
  rewrite seq_S, !fmap_app.
  destruct (ls !!! _) as [x1 y1] eqn:El. destruct (ds !!! _) as [x2 y2] eqn:Ed.
  case_bool_decide as Hdx; [done|]. injection E2 as <- <-. cbn [fmap list_fmap]. rewrite El, Ed.
  split; [done|]. split; [done|]. apply Forall_app. split; [done|]. by constructor.
Qed.

Lemma chord_compute_witness_Ok pc (Hpc : chord_table pc) wit :
  chord_compute_witness_precomputed bs pc = Ok wit → ∃ L D, chord_chain L D ∧ wit = chain_witness L D.
Proof using All.
  unfold chord_compute_witness_precomputed.
  assert (Hlen : length (powers pc) = (lambda + 1)%nat).
  { by rewrite (table_powers _ Hpc), length_fmap, length_seq. }
  rewrite Hlen, Nat.add_sub, Hbs, Nat.eqb_refl. cbn [negb].
  rewrite (table_powers _ Hpc), (table_corrections _ Hpc), chord_walk_eq. intros E.
  apply bind_Ok in E as (l & Hl & E). apply batch_affine_Ok in Hl.
  apply bind_Ok in E as ([dxs dys] & Hslope & E).
  apply slope_loop in Hslope as (-> & -> & Hne).
  rewrite (scalar_batch_invert_spec _ Hne) in E. injection E as <-.
  pose proof (Forall2_length _ _ _ Hl) as Hll.
  rewrite length_app, !length_fmap, !length_seq in Hll.
  set (L := λ w : nat, take (n + 1) l !!! w). set (D := λ w : nat, drop (n + 1) l !!! (w - 1)%nat).
  exists L, D. split; [split|].
  - intros w Hw. destruct (lookup_lt_is_Some_2 l w) as [xy Hxy]; [lia|].
    assert (E : L w = xy) by (apply list_lookup_total_correct; by rewrite lookup_take_lt by lia).
    rewrite E. destruct (Forall2_lookup_r _ _ _ _ _ Hl Hxy) as (P & HP & HPxy).
    rewrite lookup_app_l, list_lookup_fmap, lookup_seq_lt in HP by (rewrite ?length_fmap, ?length_seq; lia).
    by injection HP as <-.
  - intros w Hw. destruct (lookup_lt_is_Some_2 l (n + 1 + (w - 1))) as [xy Hxy]; [lia|].
    assert (E : D w = xy) by (apply list_lookup_total_correct; by rewrite lookup_drop).
    rewrite E. destruct (Forall2_lookup_r _ _ _ _ _ Hl Hxy) as (P & HP & HPxy).
    rewrite lookup_app_r in HP by (rewrite length_fmap, length_seq; lia).
    rewrite length_fmap, length_seq, Nat.add_comm, Nat.add_sub, list_lookup_fmap, lookup_seq_lt in HP by lia.
    injection HP as <-. by replace w with (1 + (w - 1))%nat at 1 by lia.
  - intros w Hw E. rewrite Forall_fmap, Forall_forall in Hne.
    apply (Hne w); [apply elem_of_seq; lia|]. cbn beta.
    by apply ssub_eq_0.
  - unfold chain_witness. f_equal.
    change (Nat.divmod lambda 1 0 1).1 with n. clear. unfold chord_slope, L, D.
    induction (seq 1 n) as [|w ws IH]; [done|]. cbn. by f_equal.
Qed.

(** *** Regular chains *)
Lemma nonidentity_Forall (l : list Gin) :
  forallb (λ P, negb (gin_is_identity P)) l = true ↔ Forall (λ P, P ≠ cpoint_identity) l.
Proof using Type.
  rewrite forallb_forall, Forall_forall. setoid_rewrite list_elem_of_In.
  split; intros Hl P HP; specialize (Hl P HP); unfold gin_is_identity in *.
  - intros ->. by rewrite bool_decide_eq_true_2 in Hl.
  - by rewrite bool_decide_eq_false_2.
Qed.

Lemma slope_loop_total ls ds m :
  (∀ w, (1 ≤ w ≤ m)%nat → (ls !!! (w - 1)%nat).1 ≠ (ds !!! (w - 1)%nat).1) →
  ∃ st, fold_result (slope_step ls ds) ([], []) (seq 1 m) = Ok st.
Proof using All.
  induction m as [|m IH]; intros Hne; [by eexists|].
  destruct IH as [[dxs dys] E]; [intros w Hw; apply Hne; lia|].
  rewrite seq_S, fold_result_app, E. cbn [fold_result mbind result_bind slope_step].
  specialize (Hne (1 + m)%nat ltac:(lia)).
  destruct (ls !!! _) as [x1 y1], (ds !!! _) as [x2 y2]. cbn [fst] in Hne.
  rewrite bool_decide_eq_false_2; [by eexists|]. intros E'. by apply (proj1 (ssub_eq_0 _ _)) in E'.
Qed.

Local Abbreviation walked := ((chord_running <$> seq 0 (n + 1)) ++ (chord_window <$> seq 1 n)).
Lemma regular_differ l w :
  forallb (λ '(l, d), negb (bool_decide (l = d)) && negb (gin_is_identity (l ⊕ d)))
    (zip (chord_running <$> seq 0 (n + 1)) (chord_window <$> seq 1 n)) = true →
  Forall2 (λ P xy, affine P = Ok xy) walked l → (1 ≤ w ≤ n)%nat →
  (take (n + 1) l !!! (w - 1)%nat).1 ≠ (drop (n + 1) l !!! (w - 1)%nat).1.
Proof using All.
  intros Hreg Hl Hw. rewrite forallb_forall in Hreg.
  set (P := chord_running (w - 1)). set (Q := chord_window w).
  assert (HPQ : zip (chord_running <$> seq 0 (n + 1)) (chord_window <$> seq 1 n) !! (w - 1)%nat = Some (P, Q)).
  { apply lookup_zip_with_Some. exists P, Q. split; [done|].
    rewrite !list_lookup_fmap, !lookup_seq_lt by lia. cbn [fmap option_fmap option_map].
    by replace (1 + (w - 1))%nat with w by lia. }
  specialize (Hreg (P, Q) (proj1 (list_elem_of_In _ _) (list_elem_of_lookup_2 _ _ _ HPQ))).
  apply andb_prop in Hreg as [Hne Hadd].
  apply lookup_zip_with_Some in HPQ as (P' & Q' & [= <- <-] & HP & HQ).
  assert (HPa : walked !! (w - 1)%nat = Some P)
    by by apply lookup_app_l_Some.
  assert (HQa : walked !! (n + 1 + (w - 1))%nat = Some Q).
  { rewrite lookup_app_r by (rewrite length_fmap, length_seq; lia).
    rewrite length_fmap, length_seq. by replace (n + 1 + (w - 1) - (n + 1))%nat with (w - 1)%nat by lia. }
  destruct (Forall2_lookup_l _ _ _ _ _ Hl HPa) as ([x1 y1] & H1 & HP1).
  destruct (Forall2_lookup_l _ _ _ _ _ Hl HQa) as ([x2 y2] & H2 & HQ2).
  rewrite (list_lookup_total_correct (take (n + 1) l) (w - 1) (x1, y1)) by (rewrite lookup_take_lt by lia; done).
  rewrite (list_lookup_total_correct (drop (n + 1) l) (w - 1) (x2, y2)) by (by rewrite lookup_drop).
  cbn [fst]. intros ->. apply affine_Ok in HP1, HQ2.
  destruct (coordinates_x _ _ _ _ _ HP1 HQ2) as [E|E].
  - by rewrite bool_decide_eq_true_2 in Hne.
  - unfold gin_is_identity in Hadd. by rewrite bool_decide_eq_true_2 in Hadd.
Qed.

Lemma chord_regular_Ok :
  chord_regular X lambda bs = true →
  ∃ pc L D, precompute_chord X lambda = Ok pc ∧ chord_table pc ∧ chord_chain L D ∧
    chord_compute_witness_precomputed bs pc = Ok (chain_witness L D).
Proof using All.
  unfold chord_regular. destruct (chord_points X lambda) as [ps points] eqn:Epts.
  assert (Hps : ps = table_powers_of).
  { unfold chord_points in Epts. rewrite precompute_loop in Epts by done. by injection Epts. }
  rewrite Hps, chord_walk_eq. intros [Hid Hreg]%andb_prop.
  apply nonidentity_Forall, Forall_app in Hid as [Hpts Hwalk].
  assert (Hpc : ∃ pc, precompute_chord X lambda = Ok pc).
  { unfold precompute_chord. destruct (Nat.eqb_spec lambda 0); [done|]. rewrite Heven, Epts. cbn [negb orb].
    destruct (batch_affine_total points Hpts) as [l ->]. by eexists. }
  destruct Hpc as [pc Hpc]. destruct (precompute_chord_Ok _ Hpc) as (_ & _ & Htab).
  assert (Hwit : ∃ wit, chord_compute_witness_precomputed bs pc = Ok wit).
  { unfold chord_compute_witness_precomputed.
    rewrite (table_powers _ Htab), (table_corrections _ Htab), length_fmap, length_seq, Nat.add_sub, Hbs,
      Nat.eqb_refl, chord_walk_eq. cbn [negb].
    destruct (batch_affine_total _ Hwalk) as [l Hl]. rewrite Hl. cbn [mbind result_bind].
    apply batch_affine_Ok in Hl.
    destruct (slope_loop_total (take (n + 1) l) (drop (n + 1) l) n) as [[dxs dys] ->].
    2: { cbn [mbind result_bind]. destruct (scalar_batch_invert dxs). by eexists. }
    intros w Hw. by apply regular_differ. }
  destruct Hwit as [wit Hwit].
  destruct (chord_compute_witness_Ok pc Htab wit Hwit) as (L & D & Hchain & ->).
  by exists pc, L, D.
Qed.
End chord_points.

(** ** The result of the gadget *)
Lemma seq_position i n l1 a l2 :
  seq i n = l1 ++ a :: l2 → a = (i + length l1)%nat ∧ (length l1 < n)%nat.
Proof.
  intros E.
  assert (Ha : seq i n !! length l1 = Some a) by by rewrite E, list_lookup_middle.
  apply lookup_seq in Ha. lia.
Qed.

(** *** Checkpoints *)
Definition checkpoints_below (n w : nat) : list nat :=
  filter (λ w, chord_is_checkpoint_window w n) (seq 1 w).
Lemma checkpoints_below_S n w :
  checkpoints_below n (S w)
  = checkpoints_below n w ++ if chord_is_checkpoint_window (S w) n then [S w] else [].
Proof.
  unfold checkpoints_below. rewrite seq_S, filter_app, filter_cons, filter_nil.
  change (1 + w)%nat with (S w). f_equal. by destruct (chord_is_checkpoint_window (S w) n).
Qed.
Lemma last_is_checkpoint n : chord_is_checkpoint_window n n = true.
Proof. unfold chord_is_checkpoint_window. by rewrite Nat.eqb_refl, orb_true_r. Qed.
Lemma checkpoint_lookup n w :
  (S w ≤ n)%nat → chord_is_checkpoint_window (S w) n = true →
  checkpoints_below n n !! length (checkpoints_below n w) = Some (S w).
Proof.
  intros Hw Hck. unfold checkpoints_below at 2.
  assert (E : seq 1 n = seq 1 (S w) ++ seq (1 + S w) (n - S w)) by (rewrite <-seq_app; f_equal; lia).
  rewrite E, filter_app.
  fold (checkpoints_below n (S w)). rewrite checkpoints_below_S, Hck, <-app_assoc.
  cbn [app]. by rewrite list_lookup_middle.
Qed.

Lemma chord_checkpoint_count_eq m :
  m ≠ 0%nat →
  length (filter (λ w, chord_is_checkpoint_window w m) (seq 1 m)) = chord_checkpoint_count m.
Proof.
  intros Hm. destruct m as [|m]; [done|].
  assert (Hc : chord_checkpoint_count (S m) = S (m / 16)).
  { unfold chord_checkpoint_count, CHORD_CHECKPOINT_INTERVAL.
    pose proof (Nat.div_mod_eq m 16). pose proof (Nat.mod_upper_bound m 16 ltac:(lia)).
    pose proof (Nat.div_mod_eq (S m) 16). pose proof (Nat.mod_upper_bound (S m) 16 ltac:(lia)).
    destruct (Nat.eqb_spec (S m mod 16) 0); nia. }
  rewrite Hc. clear Hc Hm. rewrite seq_S, filter_app, length_app.
  rewrite filter_cons_True; [|unfold chord_is_checkpoint_window; by rewrite Nat.add_1_l, Nat.eqb_refl, orb_true_r].
  rewrite filter_nil. cbn [length]. rewrite Nat.add_1_r. f_equal.
  assert (H : ∀ k, (k ≤ m)%nat →
    length (filter (λ w, chord_is_checkpoint_window w (S m)) (seq 1 k)) = (k / 16)%nat).
  2: by apply H.
  induction k as [|k IH]; intros Hk; [done|]. rewrite seq_S, filter_app, length_app, IH by lia.
  rewrite filter_cons, filter_nil. unfold chord_is_checkpoint_window, CHORD_CHECKPOINT_INTERVAL.
  change (1 + k)%nat with (S k). destruct (Nat.eqb_spec (S k) (S m)); [lia|]. rewrite orb_false_r.
  pose proof (Nat.div_mod_eq k 16). pose proof (Nat.mod_upper_bound k 16 ltac:(lia)).
  pose proof (Nat.div_mod_eq (S k) 16). pose proof (Nat.mod_upper_bound (S k) 16 ltac:(lia)).
  destruct (Nat.eqb_spec (S k mod 16) 0); case_decide; try done; cbn [length]; nia.
Qed.

Section chord_gadget.
Context {EC : EvrfCurves} {ECL : EvrfCurveLaws} {ME : Merlin}.
#[local] Existing Instance gout_cycle | 0.
Add Field chord_field : (scalar_field_theory (F:=Fp)).
Context (X : Gin) (lambda : nat) (Hsize : is_usize (Z.of_nat (2 * lambda))).
Context (Hlambda : lambda ≠ 0%nat) (Heven : Nat.even lambda = true).
Context (pc : ChordPrecomp) (Hpc : chord_table X lambda pc).
Context (bs : list bool) (Hbs : length bs = (lambda + 1)%nat).
Context (L D : nat → Fp * Fp) (Hchain : chord_chain X lambda bs L D).
Local Abbreviation n := (lambda / 2)%nat.

(** The candidate that two bits select. *)
Definition window_select (window : Window) (b0 b1 : bool) : Fp * Fp :=
  let '(q00, q10, q01, q11) := window in
  match b0, b1 with
  | false, false => q00 | true, false => q10 | false, true => q01 | true, true => q11
  end.

Lemma length_windows : length (windows pc) = n.
Proof using All. pose proof (Forall2_length _ _ _ (table_windows _ _ _ Hpc)) as E. by rewrite length_seq in E. Qed.

Lemma window_select_eq w :
  (1 ≤ w ≤ n)%nat →
  window_select (windows pc !!! (w - 1)%nat) (bs !!! (2 * w - 1)%nat) (bs !!! (2 * w)%nat) = D w.
Proof using All.
  intros Hw. destruct (lookup_lt_is_Some_2 (windows pc) (w - 1)) as [win Hwin]; [rewrite length_windows; lia|].
  rewrite (list_lookup_total_correct _ _ _ Hwin).
  destruct (Forall2_lookup_r _ _ _ _ _ (table_windows _ _ _ Hpc) Hwin) as (w' & Hw' & Hq).
  apply lookup_seq in Hw' as [-> _]. replace (1 + (w - 1))%nat with w in Hq by lia.
  destruct win as [[[q00 q10] q01] q11]. destruct Hq as (H00 & H10 & H01 & H11).
  pose proof (chain_window _ _ _ _ _ Hchain w Hw) as HD. unfold chord_window in HD.
  unfold window_select. destruct (bs !!! (2 * w - 1)%nat), (bs !!! (2 * w)%nat); congruence.
Qed.

(** The base case is the first point of the chain. *)
Lemma base_select_eq : (if (bs !!! 0%nat : bool) then d0 pc else c0 pc) = L 0%nat.
Proof using All.
  pose proof (chain_point _ _ _ _ _ Hchain 0 ltac:(lia)) as H0.
  rewrite (chord_running_0 X lambda Hsize Hlambda Heven bs Hbs) in H0. unfold chord_term in H0.
  pose proof (table_c0 _ _ _ Hpc). pose proof (table_d0 _ _ _ Hpc).
  destruct (bs !!! 0%nat); congruence.
Qed.

(** The chord rule along the chain. *)
Lemma chain_next w :
  (1 ≤ w ≤ n)%nat →
  let s := chord_slope L D w in
  let x3 := s * s - (L (w - 1)%nat).1 - (D w).1 in
  L w = (x3, s * ((L (w - 1)%nat).1 - x3) - (L (w - 1)%nat).2).
Proof using All.
  intros Hw s x3. destruct w as [|w]; [lia|].
  pose proof (chain_point _ _ _ _ _ Hchain w ltac:(lia)) as H1.
  pose proof (chain_point _ _ _ _ _ Hchain (S w) ltac:(lia)) as H3.
  pose proof (chain_window _ _ _ _ _ Hchain (S w) Hw) as H2.
  pose proof (chain_regular _ _ _ _ _ Hchain (S w) Hw) as Hne.
  rewrite (chord_running_S X lambda Hsize Hlambda Heven bs Hbs) in H3 by lia.
  subst x3 s. unfold chord_slope. replace (S w - 1)%nat with w in * by lia.
  apply affine_Ok in H1, H2, H3. rewrite (surjective_pairing (L w)) in H1.
  rewrite (surjective_pairing (D (S w))) in H2.
  pose proof (chord_rule _ _ _ _ _ _ H1 H2 Hne) as Hrule. cbv zeta in Hrule. congruence.
Qed.

Lemma chord_slope_mul w :
  (1 ≤ w ≤ n)%nat →
  chord_slope L D w * ((L (w - 1)%nat).1 - (D w).1) = (L (w - 1)%nat).2 - (D w).2.
Proof using All.
  intros Hw. unfold chord_slope.
  assert (Hne : (L (w - 1)%nat).1 - (D w).1 ≠ 0).
  { intros E. apply (chain_regular _ _ _ _ _ Hchain w Hw). by apply ssub_eq_0. }
  pose proof (sinv_r _ Hne) as Hinv. set (d := (L (w - 1)%nat).1 - (D w).1) in *.
  set (e := (L (w - 1)%nat).2 - (D w).2). replace (e * sinv d * d) with (e * (d * sinv d)) by ring.
  rewrite Hinv. ring.
Qed.


(** *** Soundness *)
Section soundness.
Context (σ : CSVariable → Fp) (Hone : σ One = 1).

(** The selection polynomial takes the candidate's coordinate. *)
Lemma select_value (a b : bool) (q00 q10 q01 q11 : Fp) :
  q00 + bit_scalar a * (q10 - q00) + bit_scalar b * (q01 - q00)
    + bit_scalar (a && b) * (q11 - q10 - q01 + q00)
  = match a, b with false, false => q00 | true, false => q10 | false, true => q01 | true, true => q11 end.
Proof using ECL. destruct a, b; cbn; ring. Qed.

Lemma window_delta_value s0 s1 va window a b :
  σ s0 = bit_scalar a → σ s1 = bit_scalar b → σ va = bit_scalar (a && b) →
  lc_value σ (window_delta_x_lc s0 s1 va window) = (window_select window a b).1 ∧
  lc_value σ (window_delta_y_lc s0 s1 va window) = (window_select window a b).2.
Proof using All.
  intros Ha Hb Hab. destruct window as [[[[q00x q00y] [q10x q10y]] [q01x q01y]] [q11x q11y]].
  unfold window_delta_x_lc, window_delta_y_lc.
  rewrite !lc_value_add, !var_mul_value, !scalar_value, Ha, Hb, Hab, !select_value by done.
  by destruct a, b.
Qed.

Lemma delta0_value k0 b :
  σ k0 = bit_scalar b →
  lc_value σ (delta0_x_lc k0 pc) = (if b then d0 pc else c0 pc).1 ∧
  lc_value σ (delta0_y_lc k0 pc) = (if b then d0 pc else c0 pc).2.
Proof using All.
  intros Hk. unfold delta0_x_lc, delta0_y_lc. destruct (c0 pc) as [cx cy], (d0 pc) as [dx dy].
  rewrite !lc_value_add, !var_mul_value, !scalar_value, Hk by done. destruct b; cbn; split; ring.
Qed.

(** The window products of the bits. *)
Definition products_are (products : list CSVariable) : Prop :=
  length products = n ∧ ∀ w, (1 ≤ w ≤ n)%nat →
    σ (products !!! (w - 1)%nat) = bit_scalar (bs !!! (2 * w - 1)%nat && bs !!! (2 * w)%nat).

Context (vars : list CSVariable) (Hvars : bits_are σ vars bs).

Lemma var_value j : (j ≤ lambda)%nat → σ (vars !!! j) = bit_scalar (bs !!! j).
Proof using All.
  intros Hj. eapply bits_are_lookup; [exact Hvars|]. apply list_lookup_lookup_total_lt. lia.
Qed.

Lemma length_vars : length vars = (lambda + 1)%nat.
Proof using All. rewrite <-Hbs. exact (Forall2_length _ _ _ Hvars). Qed.

Lemma vars_windows :
  (Nat.ltb (length vars) 3 || Nat.even (length vars)) = false ∧ ((length vars - 1) / 2 = n)%nat.
Proof using All.
  rewrite length_vars, Nat.add_sub. split; [|done].
  pose proof (proj1 (Nat.even_spec _) Heven) as [k Hk].
  rewrite Nat.add_1_r, Nat.even_succ, <-Nat.negb_even, Heven. cbn [negb]. rewrite orb_false_r.
  apply Nat.ltb_ge. lia.
Qed.

Lemma chord_window_products_sound : gimplies σ (chord_window_products vars) products_are.
Proof using All.
  unfold chord_window_products. destruct vars_windows as [-> ->]. 
  eapply gimplies_mono.
  { apply (gimplies_gfold _ (λ seen products, length products = length seen ∧
      ∀ w, (1 ≤ w ≤ length seen)%nat →
        σ (products !!! (w - 1)%nat) = bit_scalar (bs !!! (2 * w - 1)%nat && bs !!! (2 * w)%nat))).
    - split; [done|]. cbn. lia.
    - intros l1 w l2 products E [Hl Hp]. apply seq_position in E as [-> Hn].
      eapply gimplies_bind; [apply gimplies_multiply|]. intros [[vl vr] va] (Hvl & Hvr & Hva).
      apply gimplies_ret. rewrite !length_app. cbn [length]. split; [lia|]. intros w Hw.
      pose proof (lambda_windows lambda Heven).
      destruct (decide (w = S (length l1))) as [->|].
      + rewrite list_lookup_total_middle by lia. rewrite Hva, Hvl, Hvr, !lc_value_variable, !var_value by lia.
        by rewrite bit_scalar_and.
      + rewrite lookup_total_app_l by lia. apply Hp. lia. }
  intros products. by rewrite length_seq.
Qed.

(** The state of the loop after [w] windows. *)
Definition chord_state_at (w : nat) (st : ChordState) : Prop :=
  let '(x, y, checkpoint, _) := st in
  lc_value σ x = (L w).1 ∧ lc_value σ y = (L w).2 ∧
  (w ≠ 0%nat → chord_is_checkpoint_window w n = true →
   ∃ xc yc, checkpoint = Some (xc, yc) ∧ σ xc = (L w).1 ∧ σ yc = (L w).2).

Lemma chord_step_sound products wit w st :
  products_are products → (S w ≤ n)%nat → chord_state_at w st →
  gimplies σ (chord_step vars pc products wit n st (S w)) (chord_state_at (S w)).
Proof using All.
  intros [_ Hprod] Hw Hst. destruct st as [[[x y] ck] idx]. destruct Hst as (Hx & Hy & _).
  pose proof (lambda_windows lambda Heven).
  pose proof (window_delta_value (vars !!! (2 * S w - 1)%nat) (vars !!! (2 * S w)%nat)
    (products !!! (S w - 1)%nat) (windows pc !!! (S w - 1)%nat) _ _ (var_value (2 * S w - 1) ltac:(lia))
    (var_value (2 * S w) ltac:(lia)) (Hprod (S w) ltac:(lia))) as [Hdx Hdy].
  rewrite window_select_eq in Hdx, Hdy by lia.
  pose proof (chain_next (S w) ltac:(lia)) as Hnext.
  pose proof (chord_slope_mul (S w) ltac:(lia)) as Hslope.
  pose proof (chain_regular _ _ _ _ _ Hchain (S w) ltac:(lia)) as Hreg.
  cbv zeta in Hnext. unfold chord_step. cbv zeta.
  set (dxw := window_delta_x_lc _ _ _ _) in *. set (dyw := window_delta_y_lc _ _ _ _) in *.
  replace (S w - 1)%nat with w in Hnext, Hslope, Hreg |- * by lia.
  eapply gimplies_bind; [apply gimplies_allocate_multiplier|]. intros [[vs vd] o1] Ho1. cbn beta in Ho1.
  eapply gimplies_bind; [apply gimplies_constrain|]. intros [] Hd.
  eapply gimplies_bind; [apply gimplies_constrain|]. intros [] Hn1.
  rewrite var_sub_value in Hd, Hn1. apply (proj1 (ssub_eq_0 _ _)) in Hd, Hn1.
  rewrite lc_value_sub, Hx, Hdx in Hd. rewrite lc_value_sub, Hy, Hdy in Hn1.
  assert (Hs : σ vs = chord_slope L D (S w)).
  { rewrite Hd, Hn1, <-Hslope in Ho1. symmetry in Ho1.
    apply (smul_cancel_l ((L w).1 - (D (S w)).1)); 
      [intros E; by apply (proj1 (ssub_eq_0 _ _)) in E|].
    by rewrite smul_comm, Ho1, smul_comm. }
  eapply gimplies_bind; [apply gimplies_multiply|]. intros [[a2 b2] o2] (Ha2 & Hb2 & Ho2).
  eapply gimplies_bind; [apply gimplies_multiply|]. intros [[a3 b3] o3] (Ha3 & Hb3 & Ho3).
  rewrite lc_value_variable, Hs in Ha2, Hb2, Ha3. rewrite Ha2, Hb2 in Ho2.
  assert (Hxl : lc_value σ (lc_sub (var_sub o2 x) dxw) = (L (S w)).1).
  { rewrite lc_value_sub, var_sub_value, Ho2, Hx, Hdx, Hnext. cbn [fst]. ring. }
  rewrite lc_value_sub, Hx, Hxl in Hb3.
  assert (Hyl : lc_value σ (var_sub o3 y) = (L (S w)).2).
  { rewrite var_sub_value, Ho3, Ha3, Hb3, Hy, Hnext. cbn [fst snd]. ring. }
  destruct (chord_is_checkpoint_window (S w) n) eqn:Hck.
  - eapply gimplies_bind; [apply gimplies_allocate|]. intros xc _.
    eapply gimplies_bind; [apply gimplies_allocate|]. intros yc _.
    eapply gimplies_bind; [apply gimplies_constrain|]. intros [] Hxc.
    eapply gimplies_bind; [apply gimplies_constrain|]. intros [] Hyc. apply gimplies_ret.
    rewrite lc_value_sub, lc_value_variable in Hxc, Hyc. apply (proj1 (ssub_eq_0 _ _)) in Hxc, Hyc.
    cbn [chord_state_at]. rewrite !lc_value_variable. split; [congruence|]. split; [congruence|].
    intros _ _. exists xc, yc. split; [done|]. split; congruence.
  - apply gimplies_ret. split; [done|]. split; [done|]. congruence.
Qed.

Lemma chord_exponentiate_sound products result wit :
  products_are products →
  gimplies σ (chord_exponentiate_r1cs_with_result vars pc products result wit)
    (λ '(x, y), (σ x, σ y) = L n ∧ match result with Some xy => xy = L n | None => True end).
Proof using All.
  intros Hprod. unfold chord_exponentiate_r1cs_with_result. destruct vars_windows as [-> ->].
  destruct (negb _ || negb _)%bool; [apply gimplies_fails|].
  destruct (witness_fits n wit); cbn [negb]; [|apply gimplies_fails].
  pose proof (lambda_windows lambda Heven).
  eapply (gimplies_bind _ _ _ (chord_state_at n)).
  { rewrite <-(length_seq n 1) at 3.
    apply (gimplies_gfold _ (λ seen, chord_state_at (length seen))).
    - pose proof (delta0_value (vars !!! 0%nat) _ (var_value 0 ltac:(lia))) as [Hx Hy].
      rewrite base_select_eq in Hx, Hy. cbn [chord_state_at length]. by split.
    - intros l1 w l2 st E Hst. apply seq_position in E as [-> Hn].
      rewrite length_app, Nat.add_1_r. by apply chord_step_sound. }
  intros [[[x y] ck] idx] (_ & _ & Hck).
  destruct (Hck ltac:(lia) (last_is_checkpoint n)) as (xc & yc & -> & Hxc & Hyc).
  assert (E : (σ xc, σ yc) = L n) by (rewrite Hxc, Hyc; by destruct (L n)).
  apply (gimplies_bind _ _ _ (λ _, match result with Some xy => xy = L n | None => True end));
    [|by intros [] Hr; apply gimplies_ret].
  destruct result as [[rx ry]|]; [|by apply gimplies_ret].
  eapply gimplies_bind; [apply gimplies_constrain|]. intros [] Hrx.
  eapply gimplies_mono; [apply gimplies_constrain|]. intros [] Hry.
  rewrite var_sub_value, scalar_value in Hrx, Hry by done.
  apply (proj1 (ssub_eq_0 _ _)) in Hrx, Hry. congruence.
Qed.
End soundness.

(** *** Completeness *)
Section completeness.
Context (vars : list CSVariable).

Lemma window_delta_known Γ s0 s1 va window a b :
  Γ One 1 → Γ s0 (bit_scalar a) → Γ s1 (bit_scalar b) → Γ va (bit_scalar (a && b)) →
  lc_known Γ (window_delta_x_lc s0 s1 va window) (window_select window a b).1 ∧
  lc_known Γ (window_delta_y_lc s0 s1 va window) (window_select window a b).2.
Proof using All.
  intros H1 Ha Hb Hab. destruct window as [[[[q00x q00y] [q10x q10y]] [q01x q01y]] [q11x q11y]].
  unfold window_delta_x_lc, window_delta_y_lc. split.
  all: eapply known_eq; [apply known_add; [apply known_add; [apply known_add; [by apply known_scalar|]|]|];
    apply known_var_mul; eassumption|]; rewrite select_value; by destruct a, b.
Qed.

Lemma delta0_known Γ k0 b :
  Γ One 1 → Γ k0 (bit_scalar b) →
  lc_known Γ (delta0_x_lc k0 pc) (if b then d0 pc else c0 pc).1 ∧
  lc_known Γ (delta0_y_lc k0 pc) (if b then d0 pc else c0 pc).2.
Proof using All.
  intros H1 Hk. unfold delta0_x_lc, delta0_y_lc. destruct (c0 pc) as [cx cy], (d0 pc) as [dx dy].
  split; (eapply known_eq; [apply known_add; [by apply known_scalar|apply known_var_mul; exact Hk]|]);
    destruct b; cbn; ring.
Qed.

Definition products_known (Γ : env) (products : list CSVariable) : Prop :=
  length products = n ∧ ∀ w, (1 ≤ w ≤ n)%nat →
    Γ (products !!! (w - 1)%nat) (bit_scalar (bs !!! (2 * w - 1)%nat && bs !!! (2 * w)%nat)).
Lemma products_known_mono Γ Γ' products :
  extends Γ Γ' → products_known Γ products → products_known Γ' products.
Proof using All. intros HΓ [Hl Hp]. split; [done|]. intros w Hw. by apply HΓ, Hp. Qed.

Lemma var_known Γ j : bits_known Γ vars bs → (j ≤ lambda)%nat → Γ (vars !!! j) (bit_scalar (bs !!! j)).
Proof using All.
  intros Hb Hj. eapply bits_known_lookup; [exact Hb|]. apply list_lookup_lookup_total_lt. lia.
Qed.

Context (Hlen : length vars = (lambda + 1)%nat).
Lemma known_windows :
  (Nat.ltb (length vars) 3 || Nat.even (length vars)) = false ∧ ((length vars - 1) / 2 = n)%nat.
Proof using All.
  rewrite Hlen, Nat.add_sub. split; [|done]. pose proof (lambda_windows lambda Heven).
  rewrite Nat.add_1_r, Nat.even_succ, <-Nat.negb_even, Heven. cbn [negb]. rewrite orb_false_r.
  apply Nat.ltb_ge. lia.
Qed.

Lemma chord_window_products_complete Γ :
  bits_known Γ vars bs → gproduces Γ (chord_window_products vars) products_known.
Proof using All.
  intros Hbits. unfold chord_window_products. destruct known_windows as [-> ->].
  eapply gproduces_mono.
  { apply (gproduces_gfold _ (λ seen Γ' products, bits_known Γ' vars bs ∧ length products = length seen ∧
      ∀ w, (1 ≤ w ≤ length seen)%nat →
        Γ' (products !!! (w - 1)%nat) (bit_scalar (bs !!! (2 * w - 1)%nat && bs !!! (2 * w)%nat)))).
    - split; [done|]. split; [done|]. cbn. lia.
    - intros l1 w l2 Γ' products E HΓ (Hb & Hl & Hp). apply seq_position in E as [-> Hn].
      pose proof (lambda_windows lambda Heven).
      eapply gproduces_bind.
      { eapply gproduces_multiply with (Q := λ Γ' '(_, _, vo), Γ' vo
          (bit_scalar (bs !!! (2 * (1 + length l1) - 1)%nat) * bit_scalar (bs !!! (2 * (1 + length l1))%nat)));
          [apply known_variable, (var_known Γ'); [done|lia]|apply known_variable, (var_known Γ'); [done|lia]|done]. }
      intros Γ'' [[vl vr] va] HΓ' Hva. rewrite <-bit_scalar_and in Hva.
      apply gproduces_ret. rewrite !length_app. cbn [length].
      split; [by eapply bits_known_mono|]. split; [lia|]. intros w Hw.
      destruct (decide (w = S (length l1))) as [->|].
      + rewrite list_lookup_total_middle by lia. exact Hva.
      + rewrite lookup_total_app_l by lia. apply HΓ', Hp. lia. }
  intros Γ' products _ (_ & Hl & Hp). by rewrite length_seq in Hl, Hp.
Qed.

Definition chord_state_known (w : nat) (Γ : env) (st : ChordState) : Prop :=
  let '(x, y, checkpoint, idx) := st in
  lc_known Γ x (L w).1 ∧ lc_known Γ y (L w).2 ∧ idx = length (checkpoints_below n w) ∧
  (w ≠ 0%nat → chord_is_checkpoint_window w n = true →
   ∃ xc yc, checkpoint = Some (xc, yc) ∧ Γ xc (L w).1 ∧ Γ yc (L w).2).

Lemma chain_witness_checkpoint w :
  (S w ≤ n)%nat → chord_is_checkpoint_window (S w) n = true →
  checkpoint_coords (chain_witness lambda L D) !!! length (checkpoints_below n w) = L (S w).
Proof using All.
  intros Hw Hck. apply list_lookup_total_correct. cbn [chain_witness checkpoint_coords].
  rewrite list_lookup_fmap. pose proof (checkpoint_lookup n w Hw Hck) as E.
  unfold checkpoints_below at 2 in E. by rewrite E.
Qed.

Lemma chord_step_complete Γ products w st :
  Γ One 1 → bits_known Γ vars bs → products_known Γ products → (S w ≤ n)%nat →
  chord_state_known w Γ st →
  gproduces Γ (chord_step vars pc products (Some (chain_witness lambda L D)) n st (S w))
    (chord_state_known (S w)).
Proof using All.
  intros H1 Hbits [_ Hprod] Hw Hst. destruct st as [[[x y] ck] idx]. destruct Hst as (Hx & Hy & -> & _).
  pose proof (lambda_windows lambda Heven).
  pose proof (window_delta_known Γ (vars !!! (2 * S w - 1)%nat) (vars !!! (2 * S w)%nat)
    (products !!! (S w - 1)%nat) (windows pc !!! (S w - 1)%nat) _ _ H1
    (var_known Γ (2 * S w - 1) Hbits ltac:(lia)) (var_known Γ (2 * S w) Hbits ltac:(lia))
    (Hprod (S w) ltac:(lia))) as [Hdx Hdy].
  rewrite window_select_eq in Hdx, Hdy by lia.
  pose proof (chain_next (S w) ltac:(lia)) as Hnext. cbv zeta in Hnext.
  pose proof (chord_slope_mul (S w) ltac:(lia)) as Hslope.
  unfold chord_step. cbv zeta. cbn [fmap option_fmap option_map].
  assert (Hsl : slopes (chain_witness lambda L D) !!! (S w - 1)%nat = chord_slope L D (S w)).
  { apply list_lookup_total_correct. cbn [chain_witness slopes].
    rewrite list_lookup_fmap, lookup_seq_lt by lia. cbn. by replace (S (w - 0)) with (S w) by lia. }
  assert (Hdn : denominators (chain_witness lambda L D) !!! (S w - 1)%nat = (L w).1 - (D (S w)).1).
  { apply list_lookup_total_correct. cbn [chain_witness denominators].
    rewrite list_lookup_fmap, lookup_seq_lt by lia. cbn. by rewrite !Nat.sub_0_r. }
  rewrite Hsl, Hdn. clear Hsl Hdn.
  set (dxw := window_delta_x_lc _ _ _ _) in *. set (dyw := window_delta_y_lc _ _ _ _) in *.
  assert (Ew : (S w - 1)%nat = w) by lia. rewrite Ew in Hnext, Hslope.
  set (s := chord_slope L D (S w)) in *. set (d := (L w).1 - (D (S w)).1) in *.
  eapply gproduces_bind; [by apply gproduces_allocate_multiplier with
    (Q := λ Γ' '(vl, vr, vo), Γ' vl s ∧ Γ' vr d ∧ Γ' vo (s * d))|].
  intros Γ1 [[vs vd] o1] HΓ1 (Hs & Hd & Ho1).
  apply (lc_known_mono _ _ _ _ HΓ1) in Hx, Hy, Hdx, Hdy.
  eapply gproduces_bind.
  { eapply gproduces_equal with (Q := λ _ _, True);
      [apply known_var_sub; [exact Hd|apply known_sub; [exact Hx|exact Hdx]]|apply ssub_diag|done]. }
  intros Γ2 _ HΓ2 _. eapply gproduces_bind.
  { eapply gproduces_equal with (Q := λ _ _, True);
      [apply known_var_sub; [apply HΓ2, Ho1|apply known_sub;
         [exact (lc_known_mono _ _ _ _ HΓ2 Hy)|exact (lc_known_mono _ _ _ _ HΓ2 Hdy)]]
      |rewrite Hslope; apply ssub_diag|done]. }
  intros Γ3 _ HΓ3 _. assert (HΓ13 : extends Γ1 Γ3) by by etransitivity.
  apply (lc_known_mono _ _ _ _ HΓ13) in Hx, Hy, Hdx, Hdy. apply HΓ13 in Hs.
  eapply gproduces_bind; [by eapply gproduces_multiply with (Q := λ Γ' '(_, _, vo), Γ' vo (s * s));
    [apply known_variable, Hs|apply known_variable, Hs|]|].
  intros Γ4 [[a2 b2] o2] HΓ4 Ho2. apply (lc_known_mono _ _ _ _ HΓ4) in Hx, Hy, Hdx, Hdy.
  apply HΓ4 in Hs.
  assert (Hxl : lc_known Γ4 (lc_sub (var_sub o2 x) dxw) (L (S w)).1).
  { eapply known_eq; [apply known_sub; [apply known_var_sub; [exact Ho2|exact Hx]|exact Hdx]|].
    rewrite Hnext. cbn [fst]. ring. }
  eapply gproduces_bind; [by eapply gproduces_multiply with
    (Q := λ Γ' '(_, _, vo), Γ' vo (s * ((L w).1 - (L (S w)).1)));
    [apply known_variable, Hs|apply known_sub; [exact Hx|exact Hxl]|]|].
  intros Γ5 [[a3 b3] o3] HΓ5 Ho3. apply (lc_known_mono _ _ _ _ HΓ5) in Hy, Hxl.
  assert (Hyl : lc_known Γ5 (var_sub o3 y) (L (S w)).2).
  { eapply known_eq; [apply known_var_sub; [exact Ho3|exact Hy]|]. rewrite Hnext. cbn [fst snd]. ring. }
  destruct (chord_is_checkpoint_window (S w) n) eqn:Hck.
  2: { apply gproduces_ret. split; [done|]. split; [done|].
       rewrite checkpoints_below_S, Hck, app_nil_r. split; [done|]. congruence. }
  rewrite (chain_witness_checkpoint w Hw Hck).
  eapply gproduces_bind; [by apply gproduces_allocate with (Q := λ Γ' v, Γ' v (L (S w)).1)|].
  intros Γ6 xc HΓ6 Hxc.
  eapply gproduces_bind; [by apply gproduces_allocate with (Q := λ Γ' v, Γ' v (L (S w)).2)|].
  intros Γ7 yc HΓ7 Hyc. apply HΓ7 in Hxc.
  assert (HΓ57 : extends Γ5 Γ7) by by etransitivity. apply (lc_known_mono _ _ _ _ HΓ57) in Hxl, Hyl.
  eapply gproduces_bind.
  { eapply gproduces_equal with (Q := λ _ _, True);
      [apply known_sub; [exact Hxl|apply known_variable, Hxc]|apply ssub_diag|done]. }
  intros Γ8 _ HΓ8 _. eapply gproduces_bind.
  { eapply gproduces_equal with (Q := λ _ _, True);
      [apply known_sub; [exact (lc_known_mono _ _ _ _ HΓ8 Hyl)|apply known_variable, HΓ8, Hyc]
      |apply ssub_diag|done]. }
  intros Γ9 _ HΓ9 _. assert (HΓ79 : extends Γ7 Γ9) by by etransitivity.
  apply gproduces_ret. split; [apply known_variable, HΓ79, Hxc|].
  split; [apply known_variable, HΓ79, Hyc|].
  rewrite checkpoints_below_S, Hck, length_app, Nat.add_1_r. split; [done|].
  intros _ _. exists xc, yc. split; [done|]. split; by apply HΓ79.
Qed.

Lemma chain_witness_fits : witness_fits n (Some (chain_witness lambda L D)) = true.
Proof using All.
  pose proof (lambda_windows lambda Heven). cbn [witness_fits chain_witness checkpoint_coords slopes denominators].
  rewrite !length_fmap, length_seq, chord_checkpoint_count_eq, !Nat.eqb_refl by lia. done.
Qed.

Lemma chord_exponentiate_complete Γ products result :
  Γ One 1 → bits_known Γ vars bs → products_known Γ products →
  match result with Some xy => xy = L n | None => True end →
  gproduces Γ (chord_exponentiate_r1cs_with_result vars pc products result (Some (chain_witness lambda L D)))
    (λ Γ' '(x, y), Γ' x (L n).1 ∧ Γ' y (L n).2).
Proof using All.
  intros H1 Hbits Hprod Hres. unfold chord_exponentiate_r1cs_with_result.
  destruct known_windows as [-> ->].
  rewrite length_windows, (proj1 Hprod), Nat.eqb_refl, chain_witness_fits. cbn [negb orb].
  pose proof (lambda_windows lambda Heven).
  eapply gproduces_bind.
  { apply (gproduces_gfold _ (λ seen Γ' st, Γ' One 1 ∧ bits_known Γ' vars bs ∧ products_known Γ' products ∧
      chord_state_known (length seen) Γ' st)).
    - pose proof (delta0_known Γ (vars !!! 0%nat) _ H1 (var_known Γ 0 Hbits ltac:(lia))) as [Hx Hy].
      rewrite base_select_eq in Hx, Hy. by split_and!.
    - intros l1 w l2 Γ' st E HΓ (H1' & Hb & Hp & Hst). apply seq_position in E as [-> Hn].
      rewrite length_app, Nat.add_1_r.
      eapply gproduces_mono; [by apply chord_step_complete|]. intros Γ'' st' HΓ' Hst'.
      split; [by apply HΓ'|]. split; [by eapply bits_known_mono|]. split; [by eapply products_known_mono|done]. }
  intros Γ1 [[[x y] ck] idx] HΓ1 (H1' & _ & _ & _ & _ & _ & Hck). rewrite length_seq in Hck.
  destruct (Hck ltac:(lia) (last_is_checkpoint n)) as (xc & yc & -> & Hxc & Hyc).
  eapply (gproduces_bind _ _ _ (λ _ _, True)).
  { destruct result as [[rx ry]|]; [|by apply gproduces_ret]. rewrite <-Hres in Hxc, Hyc.
    cbn [fst snd] in Hxc, Hyc.
    eapply gproduces_bind.
    { eapply gproduces_equal with (Q := λ _ _, True);
        [apply known_var_sub; [exact Hxc|by apply known_scalar]|apply ssub_diag|done]. }
    intros Γ2 _ HΓ2 _. eapply gproduces_equal;
      [apply known_var_sub; [apply HΓ2, Hyc|apply known_scalar; by apply HΓ2]|apply ssub_diag|done]. }
  intros Γ2 _ HΓ2 _. apply gproduces_ret. split; by apply HΓ2.
Qed.
End completeness.
End chord_gadget.

(** ** Sizes, and the same calls on both sides *)
Section chord_sizes.
Context {EC : EvrfCurves} {ME : Merlin}.
#[local] Existing Instance gout_cycle | 0.

Lemma chord_window_products_sized vars lambda :
  lambda ≠ 0%nat → Nat.even lambda = true → length vars = (lambda + 1)%nat →
  gsized (chord_window_products vars) (lambda / 2) 0 (λ products, length products = (lambda / 2)%nat).
Proof.
  intros Hl He Hv. unfold chord_window_products. pose proof (lambda_windows lambda He).
  rewrite Hv, Nat.add_sub, Nat.add_1_r, Nat.even_succ, <-Nat.negb_even, He, orb_false_r.
  destruct (Nat.ltb_spec (S lambda) 3); [lia|].
  eapply gsized_eq.
  { eapply gsized_mono; [apply (gsized_gfold (λ i (products : list CSVariable), length products = i) _
      (λ _, 1%nat) (λ _, 0%nat)); [done|]|].
    - intros i w products _ <-. size_step. intros [[vl vr] va] _. size_done. rewrite length_app. cbn. lia.
    - intros products Hp. by rewrite length_seq in Hp. }
  - by rewrite sum_list_with_const, length_seq, Nat.mul_1_r.
  - by rewrite sum_list_with_const, Nat.mul_0_r.
Qed.

Definition checkpoint_cost (num_windows w : nat) : nat :=
  if chord_is_checkpoint_window w num_windows then 2 else 0.

Lemma chord_step_sized vars pc products wit num st w :
  gsized (chord_step vars pc products wit num st w) 3 (checkpoint_cost num w)
    (λ '(_, _, checkpoint, _), chord_is_checkpoint_window w num = true → is_Some checkpoint).
Proof.
  destruct st as [[[x y] ck] idx]. unfold chord_step, checkpoint_cost. cbv zeta.
  destruct (chord_is_checkpoint_window w num).
  - size_step. intros [[vs vd] o1] _. size_step. intros [] _. size_step. intros [] _.
    size_step. intros [[a2 b2] o2] _. size_step. intros [[a3 b3] o3] _.
    size_step. intros xc _. size_step. intros yc _. size_step. intros [] _. size_step. intros [] _.
    by size_done.
  - size_step. intros [[vs vd] o1] _. size_step. intros [] _. size_step. intros [] _.
    size_step. intros [[a2 b2] o2] _. size_step. intros [[a3 b3] o3] _. by size_done.
Qed.

Lemma checkpoint_cost_sum num ws :
  sum_list_with (checkpoint_cost num) ws
  = (2 * length (filter (λ w, chord_is_checkpoint_window w num) ws))%nat.
Proof.
  induction ws as [|w ws IH]; [done|]. cbn [sum_list_with]. rewrite IH, filter_cons.
  unfold checkpoint_cost. destruct (chord_is_checkpoint_window w num); cbn [length]; case_decide; try done;
    cbn [length]; lia.
Qed.

(** Three multipliers per window, and an allocated pair per checkpoint. *)
Lemma chord_exponentiate_sized vars pc products result wit lambda :
  lambda ≠ 0%nat → Nat.even lambda = true → length vars = (lambda + 1)%nat →
  let num := (lambda / 2)%nat in
  length (windows pc) = num → length products = num → witness_fits num wit = true →
  gsized (chord_exponentiate_r1cs_with_result vars pc products result wit)
    (3 * num) (2 * chord_checkpoint_count num) (λ _, True).
Proof.
  intros Hl He Hv num Hw Hp Hwit. unfold chord_exponentiate_r1cs_with_result.
  pose proof (lambda_windows lambda He) as Hlw. fold num in Hlw.
  rewrite Hv, Nat.add_sub, Nat.add_1_r, Nat.even_succ, <-Nat.negb_even, He, orb_false_r.
  destruct (Nat.ltb_spec (S lambda) 3); [lia|]. fold num.
  rewrite Hw, Hp, Nat.eqb_refl, Hwit. cbn [negb orb].
  eapply (gsized_step _ _ (3 * num) (2 * chord_checkpoint_count num)); [|lia|lia|].
  { eapply gsized_eq; [apply (gsized_gfold (λ i '(_, _, checkpoint, _), i = num → is_Some checkpoint) _
      (λ _, 3%nat) (checkpoint_cost num))| |].
    - lia.
    - intros i w st Hi _. eapply gsized_mono; [apply chord_step_sized|].
      intros [[[x y] ck] idx] Hck Hn. apply Hck. apply lookup_seq in Hi as [-> _].
      replace (1 + i)%nat with num by lia. apply last_is_checkpoint.
    - rewrite sum_list_with_const, length_seq. lia.
    - rewrite checkpoint_cost_sum, chord_checkpoint_count_eq by lia. done. }
  intros [[[x y] ck] idx] Hck. rewrite length_seq in Hck. destruct (Hck eq_refl) as [[xc yc] ->].
  rewrite !Nat.sub_diag. eapply (gsized_step _ _ 0 0 _ _ (λ _, True)); [|lia|lia|].
  - destruct result as [[rx ry]|]; [|by apply gsized_ret]. size_step. intros [] _. size_last.
  - intros [] _. by size_done.
Qed.

(** *** The prover's and the verifier's calls *)
Lemma chord_step_similar vars pc products wit num st w :
  gsimilar eq (chord_step vars pc products (Some wit) num st w) (chord_step vars pc products None num st w).
Proof.
  destruct st as [[[x y] ck] idx]. unfold chord_step. cbv zeta. cbn [fmap option_fmap option_map].
  similar_step. intros [[vs vd] o1] _ <-. similar_step. intros [] _ <-. similar_step. intros [] _ <-.
  similar_step. intros [[a2 b2] o2] _ <-. similar_step. intros [[a3 b3] o3] _ <-.
  destruct (chord_is_checkpoint_window w num); [|by apply gsimilar_ret].
  similar_step. intros xc _ <-. similar_step. intros yc _ <-.
  similar_step. intros [] _ <-. similar_step. intros [] _ <-. by apply gsimilar_ret.
Qed.

Lemma chord_window_products_similar vars :
  gsimilar eq (chord_window_products vars) (chord_window_products vars).
Proof.
  unfold chord_window_products. destruct (_ || _)%bool; [apply gsimilar_fails|].
  apply (gsimilar_gfold eq eq); [done|by apply Forall_Forall2_diag, Forall_true|].
  intros ps _ w _ <- <-. similar_step. intros [[vl vr] va] _ <-. by apply gsimilar_ret.
Qed.

Lemma chord_exponentiate_similar vars pc products result wit :
  witness_fits ((length vars - 1) / 2) (Some wit) = true →
  gsimilar eq (chord_exponentiate_r1cs_with_result vars pc products result (Some wit))
    (chord_exponentiate_r1cs_with_result vars pc products result None).
Proof.
  intros Hwit. unfold chord_exponentiate_r1cs_with_result.
  destruct (_ || _)%bool; [apply gsimilar_fails|]. destruct (_ || _)%bool; [apply gsimilar_fails|].
  rewrite Hwit. cbn [witness_fits negb].
  eapply gsimilar_bind.
  { apply (gsimilar_gfold eq eq); [done|by apply Forall_Forall2_diag, Forall_true|].
    intros st _ w _ <- <-. apply chord_step_similar. }
  intros [[[x y] ck] idx] _ <-. destruct ck as [[xc yc]|]; [|apply gsimilar_fails].
  eapply (gsimilar_bind eq).
  { destruct result as [[rx ry]|]; [|by apply gsimilar_ret]. similar_step. intros [] _ <-.
    apply gsimilar_constrain. }
  intros [] _ <-. by apply gsimilar_ret.
Qed.
End chord_sizes.

(** ** Exponentiation with the witness that the code computes

    For exponents of [K_BITS + 1] bits: the gadget over the table of a base gives the
    coordinates of the power, and no other value satisfies it, whenever the prover's
    own computation of its witness succeeds, which it does on regular chains. *)
Section chord_power.
Context {EC : EvrfCurves} {ECL : EvrfCurveLaws} {ME : Merlin}.
#[local] Existing Instance gout_cycle | 0.

Lemma K_BITS_size : is_usize (Z.of_nat (2 * K_BITS)).
Proof. split; [lia|]. vm_compute. discriminate. Qed.
Lemma K_BITS_nonzero : K_BITS ≠ 0%nat.
Proof. done. Qed.
Lemma K_BITS_even : Nat.even K_BITS = true.
Proof. done. Qed.

(** The table and the witness of a base and a list of bits. *)
Definition chord_computed (X : Gin) (bs : list bool) (pc : ChordPrecomp) (wit : ChordWitness) : Prop :=
  precompute_chord X K_BITS = Ok pc ∧ chord_compute_witness_precomputed bs pc = Ok wit ∧
  length bs = (K_BITS + 1)%nat.

Lemma chord_regular_computed X bs :
  length bs = (K_BITS + 1)%nat → chord_regular X K_BITS bs = true → ∃ pc wit, chord_computed X bs pc wit.
Proof.
  intros Hl Hr.
  destruct (chord_regular_Ok X K_BITS K_BITS_size K_BITS_nonzero K_BITS_even bs Hl Hr)
    as (pc & L & D & Hpc & _ & _ & Hw).
  exists pc, (chain_witness K_BITS L D). exact (conj Hpc (conj Hw Hl)).
Qed.

Lemma chord_computed_chain X bs pc wit :
  chord_computed X bs pc wit →
  chord_table X K_BITS pc ∧ ∃ L D, chord_chain X K_BITS bs L D ∧ wit = chain_witness K_BITS L D ∧
    affine (X ⊙ of_Z (bits_value bs)) = Ok (L (K_BITS / 2)%nat).
Proof.
  intros (Hpc & Hwit & Hl). destruct (precompute_chord_Ok X K_BITS pc Hpc) as (_ & _ & Htab).
  split; [done|].
  destruct (chord_compute_witness_Ok X K_BITS K_BITS_size K_BITS_nonzero K_BITS_even bs Hl pc Htab wit Hwit)
    as (L & D & Hchain & ->).
  exists L, D. split; [done|]. split; [done|].
  rewrite <-(chord_running_last X K_BITS K_BITS_size K_BITS_nonzero K_BITS_even bs Hl).
  by apply (chain_point _ _ _ _ _ Hchain).
Qed.

Lemma chord_computed_windows X bs pc wit :
  chord_computed X bs pc wit → length (windows pc) = (K_BITS / 2)%nat.
Proof.
  intros Hc. destruct (chord_computed_chain _ _ _ _ Hc) as [Htab _].
  pose proof (Forall2_length _ _ _ (table_windows _ _ _ Htab)) as E. by rewrite length_seq in E.
Qed.
Lemma chord_computed_fits X bs pc wit :
  chord_computed X bs pc wit → witness_fits (K_BITS / 2) (Some wit) = true.
Proof.
  intros Hc. destruct (chord_computed_chain _ _ _ _ Hc) as (Htab & L & D & Hchain & -> & _).
  destruct Hc as (_ & _ & Hl).
  exact (chain_witness_fits X K_BITS K_BITS_size K_BITS_nonzero K_BITS_even pc Htab bs Hl L D Hchain
    (replicate (K_BITS + 1) One) (length_replicate _ _)).
Qed.

Lemma window_products_sound σ X bs pc wit vars :
  σ One = 1 → chord_computed X bs pc wit → bits_are σ vars bs →
  gimplies σ (chord_window_products vars) (products_are K_BITS bs σ).
Proof.
  intros H1 Hc Hb. destruct (chord_computed_chain _ _ _ _ Hc) as (Htab & L & D & Hchain & _).
  destruct Hc as (_ & _ & Hl).
  by apply (chord_window_products_sound X K_BITS K_BITS_size K_BITS_nonzero K_BITS_even pc Htab bs Hl L D).
Qed.
Lemma products_extends Γ Γ' bs products :
  extends Γ Γ' → products_known K_BITS bs Γ products → products_known K_BITS bs Γ' products.
Proof. intros HΓ [Hl Hp]. split; [exact Hl|]. intros w Hw. apply HΓ, Hp, Hw. Qed.
Lemma window_products_complete Γ X bs pc wit vars :
  chord_computed X bs pc wit → bits_known Γ vars bs →
  gproduces Γ (chord_window_products vars) (products_known K_BITS bs).
Proof.
  intros Hc Hb. destruct (chord_computed_chain _ _ _ _ Hc) as (Htab & L & D & Hchain & _).
  destruct Hc as (_ & _ & Hl).
  apply (chord_window_products_complete X K_BITS K_BITS_size K_BITS_nonzero K_BITS_even pc Htab bs Hl L D);
    try done. rewrite <-Hl. exact (Forall2_length _ _ _ Hb).
Qed.

Abbreviation result_is result xy := match result with Some r => r = xy | None => True end.

Lemma chord_power_sound σ X bs pc wit vars products result wit' :
  σ One = 1 → chord_computed X bs pc wit → bits_are σ vars bs → products_are K_BITS bs σ products →
  gimplies σ (chord_exponentiate_r1cs_with_result vars pc products result wit') (λ '(x, y),
    affine (X ⊙ of_Z (bits_value bs)) = Ok (σ x, σ y) ∧ result_is result (σ x, σ y)).
Proof.
  intros H1 Hc Hb Hp. destruct (chord_computed_chain _ _ _ _ Hc) as (Htab & L & D & Hchain & _ & Haff).
  destruct Hc as (_ & _ & Hl).
  eapply gimplies_mono;
    [by apply (chord_exponentiate_sound X K_BITS K_BITS_size K_BITS_nonzero K_BITS_even pc Htab bs Hl L D)|].
  intros [x y] [E Hr]. by rewrite E.
Qed.

Lemma chord_power_complete Γ X bs pc wit vars products result xy :
  Γ One 1 → chord_computed X bs pc wit → affine (X ⊙ of_Z (bits_value bs)) = Ok xy →
  bits_known Γ vars bs → products_known K_BITS bs Γ products → result_is result xy →
  gproduces Γ (chord_exponentiate_r1cs_with_result vars pc products result (Some wit))
    (λ Γ' '(x, y), Γ' x xy.1 ∧ Γ' y xy.2).
Proof.
  intros H1 Hc Hxy Hb Hp Hr. destruct (chord_computed_chain _ _ _ _ Hc) as (Htab & L & D & Hchain & -> & Haff).
  rewrite Haff in Hxy. injection Hxy as <-. destruct Hc as (_ & _ & Hl).
  apply (chord_exponentiate_complete X K_BITS K_BITS_size K_BITS_nonzero K_BITS_even pc Htab bs Hl L D Hchain);
    try done. rewrite <-Hl. exact (Forall2_length _ _ _ Hb).
Qed.
End chord_power.
