(* ===== verification/EvrfSigma.v ===== *)
(** * Native proofs of the eVRF (golden-evrf/paper.rs, module secp_secq)

    The Schnorr-style proofs that accompany the circuits on the proof stream: equal
    discrete logarithms (Chaum-Pedersen), the constant term of the dealer's
    polynomial, and the discrete logarithm of the output.  Each is shown to accept
    exactly the encodings of a transcript that satisfies its equations, to accept
    what its prover writes, and to determine the secret from two answers. *)

From Stdlib Require Import ZArith Lia Field Strings.Byte.
From stdpp Require Import prelude strings list_numbers.
From S2P Require Import Prelude CoreError Group Algebra TestSupport Sampling Cycle BpUtil InnerProduct ConstraintSystem Generators R1csProof Prover Verifier R1csSync CircuitLogic EvrfBits EvrfCurves EvrfToy ProofStream.

Local Open Scope golden_scope.

(** ** Challenges *)
Section challenge.
Context {CY : Cycle} {ME : Merlin} {St : Type} `{!Observe St}.

Definition stream_challenge_scalar (label : list byte) (stream : St) : CScalar * St :=
  let '(bytes, stream) := challenge label 64 stream in (scalar_from_wide bytes, stream).
End challenge.

Section model.
Context {EC : EvrfCurves} {ME : Merlin}.
#[local] Existing Instance gout_cycle | 0.

Definition GinStreamCurve : ProofStreamCurve := CycleCurve (H:=gin_cycle).
Definition GoutStreamCurve : ProofStreamCurve := CycleCurve (H:=gout_cycle).

(** ** Proving *)
Section provers.
Context `{CryptoRngCore R}.
Abbreviation proving := (stateful (ProverProofStream * R) (option CoreError)).

Definition chaum_pedersen_prove (fuel : nat) (g_in pk2 : Gin) (sk1 : Fq) : proving unit :=
  nonce ← on_rng (random_nonzero_scalar fuel);
  let r1 := g_in ⊙ nonce in
  let r2 := pk2 ⊙ nonce in
  _ ← on_stream (send_point GinStreamCurve (bstr "cp.r1") r1 Reject);
  _ ← on_stream (send_point GinStreamCurve (bstr "cp.r2") r2 Reject);
  challenge ← on_stream (draw (stream_challenge_scalar (CY:=gin_cycle) (bstr "cp.challenge")));
  let response := nonce + challenge * sk1 in
  on_stream (send_scalar GinStreamCurve (bstr "cp.z") response).

Definition constant_term_prove (fuel : nat) (constant_commitment : Gin) (polynomial_constant : Fq)
    : proving unit :=
  if negb (bool_decide (gin_mul_generator polynomial_constant = constant_commitment))
  then lift (Err (Some ProofVerificationFailed))
  else
    nonce ← on_rng (random_nonzero_scalar fuel);
    let nonce_commitment := gin_mul_generator nonce in
    _ ← on_stream (send_point GinStreamCurve (bstr "constant-term.a") nonce_commitment Reject);
    challenge ← on_stream (draw (stream_challenge_scalar (CY:=gin_cycle) (bstr "constant-term.challenge")));
    let response := nonce + challenge * polynomial_constant in
    on_stream (send_scalar GinStreamCurve (bstr "constant-term.t") response).

Definition dlog_prove (fuel : nat) (g_out : Gout) (r : Fp) : proving unit :=
  nonce ← on_rng (random_nonzero_scalar fuel);
  let a := g_out ⊙ nonce in
  _ ← on_stream (send_point GoutStreamCurve (bstr "dlog.a") a Reject);
  challenge ← on_stream (draw (stream_challenge_scalar (CY:=gout_cycle) (bstr "dlog.challenge")));
  let response := nonce + challenge * r in
  on_stream (send_scalar GoutStreamCurve (bstr "dlog.t") response).
End provers.

(** ** Verifying *)
Abbreviation verifying := (stateful VerifierProofStream CoreError).

Definition chaum_pedersen_verify (g_in pk1 pk2 s : Gin) : verifying unit :=
  r1 ← receive_point GinStreamCurve (bstr "cp.r1") Reject;
  r2 ← receive_point GinStreamCurve (bstr "cp.r2") Reject;
  challenge ← draw (stream_challenge_scalar (CY:=gin_cycle) (bstr "cp.challenge"));
  response ← receive_scalar GinStreamCurve (bstr "cp.z");
  let first_equation_holds := bool_decide (g_in ⊙ response = r1 ⊕ pk1 ⊙ challenge) in
  let second_equation_holds := bool_decide (pk2 ⊙ response = r2 ⊕ s ⊙ challenge) in
  if (negb first_equation_holds || negb second_equation_holds)%bool
  then lift (Err ProofVerificationFailed)
  else mret tt.

Definition constant_term_verify (constant_commitment : Gin) : verifying unit :=
  nonce_commitment ← receive_point GinStreamCurve (bstr "constant-term.a") Reject;
  challenge ← draw (stream_challenge_scalar (CY:=gin_cycle) (bstr "constant-term.challenge"));
  response ← receive_scalar GinStreamCurve (bstr "constant-term.t");
  if negb (bool_decide (gin_mul_generator response = nonce_commitment ⊕ constant_commitment ⊙ challenge))
  then lift (Err ProofVerificationFailed)
  else mret tt.

Definition dlog_verify (g_out r_point : Gout) : verifying unit :=
  a ← receive_point GoutStreamCurve (bstr "dlog.a") Reject;
  challenge ← draw (stream_challenge_scalar (CY:=gout_cycle) (bstr "dlog.challenge"));
  response ← receive_scalar GoutStreamCurve (bstr "dlog.t");
  if negb (bool_decide (g_out ⊙ response = a ⊕ r_point ⊙ challenge))
  then lift (Err ProofVerificationFailed)
  else mret tt.

(** ** Framed R1CS proofs *)
Definition pedersen_prefix_link (g_out_blinding r_point : Gout) (v_r : Compressed) : Result unit :=
  let expected := r_point ⊕ g_out_blinding in
  let expected_compressed := point_compress expected in
  if negb (bool_decide (compressed_as_bytes expected_compressed = compressed_as_bytes v_r))
  then Err ProofVerificationFailed
  else Ok tt.

Definition parse_canonical_r1cs_proof (bytes : list byte) : Result R1CSProof :=
  proof ← map_err (λ _, ProofVerificationFailed) (r1cs_from_bytes bytes);
  if negb (bool_decide (r1cs_to_bytes proof = bytes)) then Err ProofVerificationFailed
  else Ok proof.

Definition parse_nested_commitment (payload : list byte) (cursor : Z) (identity : IdentityPolicy)
    : Result (Compressed * Z) :=
  end_ ← ok_or ProofVerificationFailed
           (checked_add cursor (POINT_BYTES (ProofStreamCurve:=GoutStreamCurve)));
  encoded ← ok_or ProofVerificationFailed (get_range cursor end_ payload);
  point ← decode_point (C:=GoutStreamCurve) encoded identity;
  Ok (point_compress point, end_).

(** ** The hash bases and the scalar conversions *)
Definition MESSAGE_BYTES : nat := 32.
Definition H_GIN_1_DOMAIN : list byte := bstr "golden-paper-evrf-H-Gin-1-v1".
Definition H_GIN_2_DOMAIN : list byte := bstr "golden-paper-evrf-H-Gin-2-v1".

(** The message, of [MESSAGE_BYTES] bytes, at the start of a 64-byte buffer. *)
Definition h_gin_buffer (msg : list byte) : list byte := msg ++ replicate (64 - length msg) x00.
Definition h_gin_1 (msg : list byte) : Gin := hash_to_curve H_GIN_1_DOMAIN (h_gin_buffer msg).
Definition h_gin_2 (msg : list byte) : Gin := hash_to_curve H_GIN_2_DOMAIN (h_gin_buffer msg).

(** The bits [0..n] of the canonical bytes. *)
Definition decompose_k_fp (k : Fp) (n : nat) : list bool :=
  let bytes := fp_to_repr k in
  (λ i,
    let byte_idx := (i / 8)%nat in
    let bit_idx := (i mod 8)%nat in
    Nat.ltb byte_idx (length bytes) &&
    (Z.land (Z.shiftr (byte_to_Z (nth byte_idx bytes x00)) (Z.of_nat bit_idx)) 1 =? 1)%Z) <$> seq 0 n.

(** The four 64-bit limbs of 32 little-endian bytes. *)
Definition repr_limbs (bytes : list byte) : list Z :=
  (λ i, le_value (take 8 (drop (i * 8) bytes))) <$> seq 0 4.
Definition fp_to_fq (fp : Fp) : Fq := fq_from_raw (repr_limbs (fp_to_repr fp)).
Definition fq_to_fp (fq : Fq) : Fp := fp_from_raw (repr_limbs (fq_to_repr fq)).
Definition Q_AS_FP : Fp :=
  fp_from_raw [0xbfd25e8cd0364141; 0xbaaedce6af48a03b; 0xfffffffffffffffe; 0xffffffffffffffff]%Z.
End model.

(** ** Conversions *)
Section conversions.
Context {EC : EvrfCurves} {ECL : EvrfCurveLaws}.
#[local] Existing Instance gout_cycle | 0.

Lemma decompose_k_fp_bits k n : decompose_k_fp k n = modulus_bit (fp_to_repr k) <$> seq 0 n.
Proof. done. Qed.
Lemma length_decompose_k_fp k n : length (decompose_k_fp k n) = n.
Proof. by rewrite decompose_k_fp_bits, length_fmap, length_seq. Qed.

Lemma bits_value_testbits m n :
  (0 ≤ m)%Z → bits_value ((λ j, Z.testbit m (Z.of_nat j)) <$> seq 0 n) = (m mod 2 ^ Z.of_nat n)%Z.
Proof.
  intros Hm. revert m Hm. induction n as [|n IH]; intros m Hm; [by rewrite Z.mod_1_r|].
  cbn [seq fmap list_fmap bits_value foldr].
  assert (E : ((λ j, Z.testbit m (Z.of_nat j)) <$> seq 1 n)
    = (λ j, Z.testbit (m / 2) (Z.of_nat j)) <$> seq 0 n).
  { rewrite <-fmap_S_seq, <-list_fmap_compose. apply list_fmap_ext. intros _ j _. cbn [compose].
    by rewrite Nat2Z.inj_succ, <-Z.div2_div, Z.div2_spec, Z.shiftr_spec by lia. }
  rewrite E. change (foldr _ 0%Z ?l) with (bits_value l). rewrite IH by (apply Z.div_pos; lia).
  rewrite Nat2Z.inj_succ, Z.pow_succ_r by lia. rewrite Z.rem_mul_r by lia.
  change (Z.of_nat 0) with 0%Z. by rewrite Z.bit0_mod.
Qed.

(** The bits are those of the canonical integer. *)
Lemma decompose_k_fp_value k :
  bits_value (decompose_k_fp k (K_BITS + 1)) = le_value (fp_to_repr k).
Proof.
  rewrite decompose_k_fp_bits.
  rewrite (list_fmap_ext _ (λ j, Z.testbit (le_value (fp_to_repr k)) (Z.of_nat j)) _)
    by (intros; apply modulus_bit_spec).
  pose proof (le_value_range (fp_to_repr k)) as Hr. unfold len in Hr. rewrite length_fp_to_repr in Hr.
  change (256 ^ Z.of_nat 32)%Z with (2 ^ 256)%Z in Hr.
  rewrite bits_value_testbits by lia. apply Z.mod_small. change (Z.of_nat (K_BITS + 1)) with 257%Z. lia.
Qed.
Lemma decompose_k_fp_image k : of_Z (bits_value (decompose_k_fp k (K_BITS + 1))) = k.
Proof. rewrite decompose_k_fp_value. apply fp_to_repr_value. Qed.
Lemma decompose_k_fp_below k :
  (bits_value (decompose_k_fp k (K_BITS + 1)) < le_value SECP256K1_BASE_MODULUS_LE)%Z.
Proof. rewrite decompose_k_fp_value. apply fp_to_repr_below. Qed.

Lemma limbs_value_repr bs : length bs = 32%nat → limbs_value (repr_limbs bs) = le_value bs.
Proof.
  intros Hl. unfold repr_limbs. cbn [seq fmap list_fmap Nat.mul Nat.add].
  assert (Hsplit : ∀ l, (8 ≤ length l)%nat →
    le_value l = (le_value (take 8 l) + 2 ^ 64 * le_value (drop 8 l))%Z).
  { intros l Hle. rewrite <-(take_drop 8 l) at 1. rewrite le_value_app. unfold len.
    by rewrite length_take, Nat.min_l by lia. }
  rewrite (Hsplit bs), (Hsplit (drop 8 bs)), (Hsplit (drop 8 (drop 8 bs))),
    (Hsplit (drop 8 (drop 8 (drop 8 bs)))) by (rewrite ?length_drop; lia).
  rewrite !drop_drop. cbn [Nat.add]. rewrite (drop_ge bs 32) by lia. unfold limbs_value. cbn [foldr].
  rewrite drop_0. change (le_value []) with 0%Z. lia.
Qed.
Lemma fp_to_fq_value fp : fp_to_fq fp = of_Z (le_value (fp_to_repr fp)).
Proof. unfold fp_to_fq. by rewrite fq_from_raw_spec, limbs_value_repr by apply length_fp_to_repr. Qed.
Lemma fq_to_fp_value fq : fq_to_fp fq = of_Z (le_value (fq_to_repr fq)).
Proof. unfold fq_to_fp. by rewrite fp_from_raw_spec, limbs_value_repr by apply length_fq_to_repr. Qed.
Lemma Q_AS_FP_value : Q_AS_FP = of_Z (F:=Fp) (le_value SECP256K1_SCALAR_MODULUS_LE).
Proof. unfold Q_AS_FP. rewrite fp_from_raw_spec. exact (f_equal of_Z eq_refl). Qed.
End conversions.

(** ** What the verifiers accept *)
Section schnorr.
Context {CY : Cycle} {CP : CyclePoints}.
Add Ring schnorr_ring : (ideal_ring_theory (H:=CY)).
Add Field schnorr_field : (scalar_field_theory (F:=CScalar)).

(** Two answers to different challenges determine the logarithm. *)
Definition extracted (z1 z2 c1 c2 : CScalar) : CScalar := (z1 - z2) * sinv (c1 - c2).
Lemma cycle_extract (P A Y : CPoint) (z1 z2 c1 c2 : CScalar) :
  c1 ≠ c2 → P ⊙ z1 = A ⊕ Y ⊙ c1 → P ⊙ z2 = A ⊕ Y ⊙ c2 → Y = P ⊙ extracted z1 z2 c1 c2.
Proof.
  intros Hne E1 E2. unfold extracted.
  assert (Hc : c1 - c2 ≠ 0) by (intros E; by apply Hne, ssub_eq_0).
  assert (E : P ⊙ (z1 - z2) = Y ⊙ (c1 - c2)).
  { transitivity (P ⊙ z1 ⊕ P ⊙ z2 ⊙ (- (1))); [point_ring|]. rewrite E1, E2. point_ring. }
  rewrite <-cpoint_mul_mul, E, cpoint_mul_mul, sinv_r, cpoint_mul_1 by done. done.
Qed.

Lemma schnorr_answers (P Y : CPoint) (nonce sk c : CScalar) :
  Y = P ⊙ sk → P ⊙ (nonce + c * sk) = P ⊙ nonce ⊕ Y ⊙ c.
Proof. intros ->. point_ring. Qed.
End schnorr.

(** A point of a cycle passes the identity check. *)
Lemma cycle_admits {CY : Cycle} {CL : CycleLaws} (P : CPoint) :
  admits (C:=CycleCurve) Reject P ↔ P ≠ cpoint_identity.
Proof.
  unfold admits. cbn [ps_is_identity CycleCurve]. rewrite compressed_is_identity_spec.
  rewrite bool_decide_eq_false. naive_solver.
Qed.

Section accepted.
Context {EC : EvrfCurves} {ME : Merlin}.
#[local] Existing Instance gout_cycle | 0.

Abbreviation gin_point := (ps_encode_point (ProofStreamCurve:=GinStreamCurve)).
Abbreviation gin_scalar := (ps_encode_scalar (ProofStreamCurve:=GinStreamCurve)).
Abbreviation gout_point := (ps_encode_point (ProofStreamCurve:=GoutStreamCurve)).
Abbreviation gout_scalar := (ps_encode_scalar (ProofStreamCurve:=GoutStreamCurve)).

(** *** Chaum-Pedersen *)
Record CpProof := MkCpProof { cp_r1 : Gin; cp_r2 : Gin; cp_z : Fq }.
Definition cp_bytes (p : CpProof) : list byte :=
  gin_point (cp_r1 p) ++ gin_point (cp_r2 p) ++ gin_scalar (cp_z p).
Definition cp_nonces (p : CpProof) (t : Transcript) : Transcript :=
  append_message (bstr "cp.r2") (gin_point (cp_r2 p))
    (append_message (bstr "cp.r1") (gin_point (cp_r1 p)) t).
Definition cp_challenge (p : CpProof) (t : Transcript) : Fq * Transcript :=
  stream_challenge_scalar (CY:=gin_cycle) (bstr "cp.challenge") (cp_nonces p t).
Definition cp_transcript (p : CpProof) (t : Transcript) : Transcript :=
  append_message (bstr "cp.z") (gin_scalar (cp_z p)) (cp_challenge p t).2.
Definition cp_accepted (g_in pk1 pk2 s : Gin) (t : Transcript) (p : CpProof) : Prop :=
  let c := (cp_challenge p t).1 in
  cp_r1 p ≠ cpoint_identity ∧ cp_r2 p ≠ cpoint_identity ∧
  g_in ⊙ cp_z p = cp_r1 p ⊕ pk1 ⊙ c ∧ pk2 ⊙ cp_z p = cp_r2 p ⊕ s ⊙ c.

(** *** One nonce: the constant term, and the discrete logarithm *)
Record TermProof := MkTermProof { term_a : Gin; term_t : Fq }.
Definition term_bytes (p : TermProof) : list byte := gin_point (term_a p) ++ gin_scalar (term_t p).
Definition term_challenge (p : TermProof) (t : Transcript) : Fq * Transcript :=
  stream_challenge_scalar (CY:=gin_cycle) (bstr "constant-term.challenge")
    (append_message (bstr "constant-term.a") (gin_point (term_a p)) t).
Definition term_transcript (p : TermProof) (t : Transcript) : Transcript :=
  append_message (bstr "constant-term.t") (gin_scalar (term_t p)) (term_challenge p t).2.
Definition term_accepted (A_0 : Gin) (t : Transcript) (p : TermProof) : Prop :=
  term_a p ≠ cpoint_identity ∧
  cpoint_generator ⊙ term_t p = term_a p ⊕ A_0 ⊙ (term_challenge p t).1.

Record DlogProof := MkDlogProof { dlog_a : Gout; dlog_t : Fp }.
Definition dlog_bytes (p : DlogProof) : list byte := gout_point (dlog_a p) ++ gout_scalar (dlog_t p).
Definition dlog_challenge (p : DlogProof) (t : Transcript) : Fp * Transcript :=
  stream_challenge_scalar (CY:=gout_cycle) (bstr "dlog.challenge")
    (append_message (bstr "dlog.a") (gout_point (dlog_a p)) t).
Definition dlog_transcript (p : DlogProof) (t : Transcript) : Transcript :=
  append_message (bstr "dlog.t") (gout_scalar (dlog_t p)) (dlog_challenge p t).2.
Definition dlog_accepted (g_out r_point : Gout) (t : Transcript) (p : DlogProof) : Prop :=
  dlog_a p ≠ cpoint_identity ∧
  g_out ⊙ dlog_t p = dlog_a p ⊕ r_point ⊙ (dlog_challenge p t).1.
End accepted.

Section exact.
Context {EC : EvrfCurves} {ECL : EvrfCurveLaws} {ME : Merlin}.
Context {CC1 : CycleCodec (H:=gin_cycle)} {CC2 : CycleCodec (H:=gout_cycle)}.
#[local] Existing Instance gout_cycle | 0.
#[local] Instance gin_stream_laws : ProofStreamLaws (H:=GinStreamCurve) := CycleCurve_laws.
#[local] Instance gout_stream_laws : ProofStreamLaws (H:=GoutStreamCurve) := CycleCurve_laws.

Lemma gin_point_width : (0 ≤ POINT_BYTES (ProofStreamCurve:=GinStreamCurve))%Z.
Proof. cbn. lia. Qed.
Lemma gout_point_width : (0 ≤ POINT_BYTES (ProofStreamCurve:=GoutStreamCurve))%Z.
Proof. cbn. lia. Qed.
Lemma scalar_width_32 : (0 ≤ 32)%Z.
Proof. lia. Qed.

Lemma stream_challenge_Ok {CY : Cycle} label t pre todo c s' :
  draw (E:=CoreError) (stream_challenge_scalar label) (stream_at t pre todo) = (Ok c, s') ↔
  c = (stream_challenge_scalar (CY:=CY) label t).1 ∧
  s' = stream_at (stream_challenge_scalar (CY:=CY) label t).2 pre todo.
Proof.
  rewrite draw_Ok. unfold stream_challenge_scalar, challenge. cbn. destruct (challenge_bytes _ _ _).
  cbn. naive_solver.
Qed.

(** Reading one field after the other. *)
Ltac fit := unfold len in *; rewrite ?length_app in *; lia.
Ltac read_point C W H :=
  let P := fresh "P" in let s1 := fresh "s" in let E := fresh "E" in let r := fresh "r" in let HA := fresh "HA" in
  apply stateful_bind_Ok in H as (P & s1 & E & H);
  apply (receive_point_Ok C) in E as (r & -> & HA & ->); [|apply W|fit];
  apply (proj1 (cycle_admits _)) in HA.
Ltac read_challenge H :=
  let c := fresh "c" in let s1 := fresh "s" in let E := fresh "E" in
  apply stateful_bind_Ok in H as (c & s1 & E & H);
  apply stream_challenge_Ok in E as [-> ->].
Ltac read_scalar C H :=
  let z := fresh "z" in let s1 := fresh "s" in let E := fresh "E" in let r := fresh "r" in
  apply stateful_bind_Ok in H as (z & s1 & E & H);
  apply (receive_scalar_Ok C) in E as (r & -> & ->); [|apply scalar_width_32|fit].
Ltac give_point C W :=
  apply stateful_bind_Ok; eexists _, _; split;
  [apply (receive_point_Ok C); [apply W|fit|]; eexists; split; [reflexivity|];
   split; [by apply cycle_admits|reflexivity]|].
Ltac give_challenge :=
  apply stateful_bind_Ok; eexists _, _; split; [apply stream_challenge_Ok; split; reflexivity|].
Ltac give_scalar C :=
  apply stateful_bind_Ok; eexists _, _; split;
  [apply (receive_scalar_Ok C); [apply scalar_width_32|fit|]; eexists; split; reflexivity|].

(** Reading one field after the other accepts the encoding of the fields. *)
Lemma chaum_pedersen_verify_Ok g_in pk1 pk2 s t pre todo u s' :
  (len (pre ++ todo) ≤ usize_MAX)%Z →
  chaum_pedersen_verify g_in pk1 pk2 s (stream_at t pre todo) = (Ok u, s') ↔
  ∃ p rest, todo = cp_bytes p ++ rest ∧ cp_accepted g_in pk1 pk2 s t p ∧
    s' = stream_at (cp_transcript p t) (pre ++ cp_bytes p) rest.
Proof.
  intros Hu. unfold chaum_pedersen_verify, cp_bytes, cp_accepted. split.
  - intros E. read_point GinStreamCurve gin_point_width E. read_point GinStreamCurve gin_point_width E.
    read_challenge E. read_scalar GinStreamCurve E.
    destruct (_ || _)%bool eqn:Heq; [done|]. injection E as _ <-.
    apply orb_false_iff in Heq as [H1%negb_false_iff%bool_decide_eq_true H2%negb_false_iff%bool_decide_eq_true].
    exists (MkCpProof P P0 z), r. cbn [cp_r1 cp_r2 cp_z]. by rewrite <-!app_assoc.
  - intros (p & rest & -> & (H1 & H2 & E1 & E2) & ->). destruct u. rewrite <-!app_assoc in *.
    give_point GinStreamCurve gin_point_width. give_point GinStreamCurve gin_point_width.
    give_challenge. give_scalar GinStreamCurve.
    change (stream_challenge_scalar _ _) with (cp_challenge p t).
    rewrite E1, E2, !bool_decide_eq_true_2 by done. cbn [negb orb]. by rewrite <-!app_assoc.
Qed.

(** The encoding determines the proof, and the verifier accepts the one at the cursor. *)
Lemma cp_bytes_app_inj p p' rest rest' : cp_bytes p ++ rest = cp_bytes p' ++ rest' → p = p' ∧ rest = rest'.
Proof.
  unfold cp_bytes. rewrite <-!app_assoc. intros E.
  apply (encode_point_app_inj (C:=GinStreamCurve)) in E as [E1 E].
  apply (encode_point_app_inj (C:=GinStreamCurve)) in E as [E2 E].
  apply (encode_scalar_app_inj (C:=GinStreamCurve)) in E as [E3 E].
  destruct p, p'. cbn [cp_r1 cp_r2 cp_z] in *. by subst.
Qed.
Lemma chaum_pedersen_verify_accepted g_in pk1 pk2 s t pre p rest s' :
  (len (pre ++ cp_bytes p ++ rest) ≤ usize_MAX)%Z →
  chaum_pedersen_verify g_in pk1 pk2 s (stream_at t pre (cp_bytes p ++ rest)) = (Ok (), s') →
  cp_accepted g_in pk1 pk2 s t p.
Proof.
  intros Hu E. apply chaum_pedersen_verify_Ok in E as (p' & rest' & E & Hp & _); [|exact Hu].
  by apply cp_bytes_app_inj in E as [-> ->].
Qed.

Lemma constant_term_verify_Ok A_0 t pre todo u s' :
  (len (pre ++ todo) ≤ usize_MAX)%Z →
  constant_term_verify A_0 (stream_at t pre todo) = (Ok u, s') ↔
  ∃ p rest, todo = term_bytes p ++ rest ∧ term_accepted A_0 t p ∧
    s' = stream_at (term_transcript p t) (pre ++ term_bytes p) rest.
Proof.
  intros Hu. unfold constant_term_verify, term_bytes, term_accepted. split.
  - intros E. read_point GinStreamCurve gin_point_width E. read_challenge E. read_scalar GinStreamCurve E.
    rewrite gin_mul_generator_spec in E.
    case_bool_decide as Heq; [|done]. injection E as _ <-.
    exists (MkTermProof P z), r0. cbn [term_a term_t]. by rewrite <-!app_assoc.
  - intros (p & rest & -> & (H1 & E1) & ->). destruct u. rewrite <-!app_assoc in *.
    give_point GinStreamCurve gin_point_width. give_challenge. give_scalar GinStreamCurve.
    change (stream_challenge_scalar _ _) with (term_challenge p t).
    rewrite gin_mul_generator_spec, E1, bool_decide_eq_true_2 by done. cbn [negb]. by rewrite <-!app_assoc.
Qed.

Lemma dlog_verify_Ok g_out r_point t pre todo u s' :
  (len (pre ++ todo) ≤ usize_MAX)%Z →
  dlog_verify g_out r_point (stream_at t pre todo) = (Ok u, s') ↔
  ∃ p rest, todo = dlog_bytes p ++ rest ∧ dlog_accepted g_out r_point t p ∧
    s' = stream_at (dlog_transcript p t) (pre ++ dlog_bytes p) rest.
Proof.
  intros Hu. unfold dlog_verify, dlog_bytes, dlog_accepted. split.
  - intros E. read_point GoutStreamCurve gout_point_width E. read_challenge E. read_scalar GoutStreamCurve E.
    case_bool_decide as Heq; [|done]. injection E as _ <-.
    exists (MkDlogProof P z), r0. cbn [dlog_a dlog_t]. by rewrite <-!app_assoc.
  - intros (p & rest & -> & (H1 & E1) & ->). destruct u. rewrite <-!app_assoc in *.
    give_point GoutStreamCurve gout_point_width. give_challenge. give_scalar GoutStreamCurve.
    change (stream_challenge_scalar _ _) with (dlog_challenge p t).
    rewrite E1, bool_decide_eq_true_2 by done. cbn [negb]. by rewrite <-!app_assoc.
Qed.

(** ** What the provers write *)
Section prover_lemmas.
Context `{CryptoRngCore R}.
Lemma prover_challenge_Ok {CY : Cycle} label (s s' : ProverProofStream) c :
  draw (E:=CoreError) (stream_challenge_scalar label) s = (Ok c, s') ↔
  c = (stream_challenge_scalar (CY:=CY) label (pps_transcript s)).1 ∧
  s' = MkProverProofStream (stream_challenge_scalar (CY:=CY) label (pps_transcript s)).2 (pps_proof s).
Proof.
  rewrite draw_Ok. unfold stream_challenge_scalar, challenge. cbn. destruct (challenge_bytes _ _ _).
  cbn. naive_solver.
Qed.

Ltac draw_nonce H :=
  let k := fresh "k" in let s1 := fresh "s" in let r1 := fresh "r" in
  apply stateful_bind_Ok in H as (k & [s1 r1] & [_ ->]%on_rng_Ok & H).
Ltac sent_point C H :=
  let s1 := fresh "s" in let r1 := fresh "r" in let E := fresh "E" in let HA := fresh "HA" in
  apply stateful_bind_Ok in H as ([] & [s1 r1] & [E ->]%on_stream_Ok & H);
  apply (send_point_Ok C) in E as [HA ->]; apply (proj1 (cycle_admits _)) in HA.
Ltac drawn_challenge H :=
  let c := fresh "c" in let s1 := fresh "s" in let r1 := fresh "r" in let E := fresh "E" in
  apply stateful_bind_Ok in H as (c & [s1 r1] & [E ->]%on_stream_Ok & H);
  apply prover_challenge_Ok in E as [-> ->].
Ltac sent_scalar C H :=
  let E := fresh "E" in
  apply on_stream_Ok in H as [E ->]; rewrite (send_scalar_eq C) in E; injection E as _ <-.

Lemma chaum_pedersen_prove_Ok fuel g_in pk2 sk1 t proof (rng : R) u s' rng' :
  chaum_pedersen_prove fuel g_in pk2 sk1 (MkProverProofStream t proof, rng) = (Ok u, (s', rng')) →
  ∃ p, s' = MkProverProofStream (cp_transcript p t) (proof ++ cp_bytes p) ∧
    cp_accepted g_in (g_in ⊙ sk1) pk2 (pk2 ⊙ sk1) t p.
Proof.
  unfold chaum_pedersen_prove. intros E. draw_nonce E. sent_point GinStreamCurve E.
  sent_point GinStreamCurve E. drawn_challenge E. sent_scalar GinStreamCurve E.
  exists (MkCpProof (g_in ⊙ k) (pk2 ⊙ k) (k + (cp_challenge (MkCpProof (g_in ⊙ k) (pk2 ⊙ k) 0) t).1 * sk1)).
  split; [|split; [done|split; [done|split; by apply schnorr_answers]]].
  unfold cp_bytes. cbn [cp_r1 cp_r2 cp_z]. rewrite !app_assoc. reflexivity.
Qed.

Lemma constant_term_prove_Ok fuel A_0 a_0 t proof (rng : R) u s' rng' :
  constant_term_prove fuel A_0 a_0 (MkProverProofStream t proof, rng) = (Ok u, (s', rng')) →
  A_0 = cpoint_generator ⊙ a_0 ∧
  ∃ p, s' = MkProverProofStream (term_transcript p t) (proof ++ term_bytes p) ∧ term_accepted A_0 t p.
Proof.
  unfold constant_term_prove. rewrite gin_mul_generator_spec. case_bool_decide as HA0; [|done].
  cbn [negb]. intros E. split; [done|]. draw_nonce E. rewrite gin_mul_generator_spec in E.
  sent_point GinStreamCurve E. drawn_challenge E. sent_scalar GinStreamCurve E.
  set (A := cpoint_generator ⊙ k) in *.
  exists (MkTermProof A (k + (term_challenge (MkTermProof A 0) t).1 * a_0)).
  split; [|split; [done|by apply schnorr_answers]].
  unfold term_bytes. cbn [term_a term_t]. rewrite !app_assoc. reflexivity.
Qed.

Lemma dlog_prove_Ok fuel g_out r t proof (rng : R) u s' rng' :
  dlog_prove fuel g_out r (MkProverProofStream t proof, rng) = (Ok u, (s', rng')) →
  ∃ p, s' = MkProverProofStream (dlog_transcript p t) (proof ++ dlog_bytes p) ∧
    dlog_accepted g_out (g_out ⊙ r) t p.
Proof.
  unfold dlog_prove. intros E. draw_nonce E. sent_point GoutStreamCurve E. drawn_challenge E.
  sent_scalar GoutStreamCurve E.
  exists (MkDlogProof (g_out ⊙ k) (k + (dlog_challenge (MkDlogProof (g_out ⊙ k) 0) t).1 * r)).
  split; [|split; [done|by apply schnorr_answers]].
  unfold dlog_bytes. cbn [dlog_a dlog_t]. rewrite !app_assoc. reflexivity.
Qed.
(** *** The provers return *)
Lemma nonce_point {CY : Cycle} {CP : CyclePoints} (P : CPoint) (s : CScalar) :
  P ≠ cpoint_identity → s ≠ szero → P ⊙ s ≠ cpoint_identity.
Proof.
  intros HP Hs E. apply HP. rewrite <-(cpoint_mul_1 P), <-(sinv_r s Hs), <-cpoint_mul_mul, E.
  apply cpoint_identity_mul.
Qed.

Lemma nonce_drawn {F S} `{FieldLaws F} n fuel (rng : R) (s : S) :
  draws_nonzero (F:=F) n rng → (n ≤ fuel)%nat →
  ∃ k rng', k ≠ szero ∧ on_rng (E:=CoreError) (random_nonzero_scalar (F:=F) fuel) (s, rng) = (Ok k, (s, rng')).
Proof.
  intros Hd Hn. destruct (random_nonzero_scalar_total n fuel rng Hd Hn) as (k & i & E).
  exists k, (after_draws (F:=F) i rng). split; [by eapply random_nonzero_scalar_nonzero|].
  unfold on_rng. by rewrite E.
Qed.

Ltac give_nonce F n H :=
  let k := fresh "k" in let r := fresh "r" in let Hk := fresh "Hk" in let E := fresh "E" in
  match goal with |- context [on_rng (random_nonzero_scalar ?fuel)] =>
    edestruct (nonce_drawn (F:=F) (S:=ProverProofStream) n fuel) as (k & r & Hk & E); [exact H|assumption|] end;
  eexists _, _; apply stateful_bind_Ok; eexists _, (_, _); split; [exact E|].
Ltac sends_point C :=
  apply stateful_bind_Ok; eexists (), (_, _); split;
  [apply on_stream_Ok; split; [apply (send_point_Ok C); split; [apply cycle_admits; by apply nonce_point|reflexivity]|reflexivity]|].
Ltac draws_challenge :=
  apply stateful_bind_Ok; eexists _, (_, _); split;
  [apply on_stream_Ok; split; [apply prover_challenge_Ok; split; reflexivity|reflexivity]|].
Ltac sends_scalar C := apply on_stream_Ok; split; [apply (send_scalar_eq C)|reflexivity].

Lemma chaum_pedersen_prove_total n fuel g_in pk2 sk1 s (rng : R) :
  g_in ≠ cpoint_identity → pk2 ≠ cpoint_identity → draws_nonzero (F:=Fq) n rng → (n ≤ fuel)%nat →
  ∃ s' rng', chaum_pedersen_prove fuel g_in pk2 sk1 (s, rng) = (Ok (), (s', rng')).
Proof.
  intros Hg Hpk Hd Hn. unfold chaum_pedersen_prove. give_nonce constr:(Fq) n Hd.
  sends_point GinStreamCurve. sends_point GinStreamCurve. draws_challenge. sends_scalar GinStreamCurve.
Qed.
Lemma dlog_prove_total n fuel g_out r s (rng : R) :
  g_out ≠ cpoint_identity → draws_nonzero (F:=Fp) n rng → (n ≤ fuel)%nat →
  ∃ s' rng', dlog_prove fuel g_out r (s, rng) = (Ok (), (s', rng')).
Proof.
  intros Hg Hd Hn. unfold dlog_prove. give_nonce constr:(Fp) n Hd.
  sends_point GoutStreamCurve. draws_challenge. sends_scalar GoutStreamCurve.
Qed.
Lemma constant_term_prove_total n fuel a_0 s (rng : R) :
  (cpoint_generator : Gin) ≠ cpoint_identity → draws_nonzero (F:=Fq) n rng → (n ≤ fuel)%nat →
  ∃ s' rng', constant_term_prove fuel (cpoint_generator ⊙ a_0) a_0 (s, rng) = (Ok (), (s', rng')).
Proof.
  intros Hg Hd Hn. unfold constant_term_prove. rewrite gin_mul_generator_spec.
  rewrite bool_decide_eq_true_2 by done. cbn [negb]. give_nonce constr:(Fq) n Hd. rewrite gin_mul_generator_spec.
  sends_point GinStreamCurve. draws_challenge. sends_scalar GinStreamCurve.
Qed.
End prover_lemmas.
End exact.

(** ** Properties *)
Section properties.
Context {EC : EvrfCurves} {ECL : EvrfCurveLaws} {ME : Merlin}.
Context {CC1 : CycleCodec (H:=gin_cycle)} {CC2 : CycleCodec (H:=gout_cycle)}.
#[local] Existing Instance gout_cycle | 0.

(** C15: special soundness of the Chaum-Pedersen proof.  Two proofs with the same nonce
    points that the verifier accepts at transcripts that give different challenges (the
    prover rewound at its challenge query) determine the secret key: one scalar is the
    logarithm of the first key to the base [g_in] and of the shared point to the base of
    the second key. *)
Theorem chaum_pedersen_extracts g_in pk1 pk2 s t1 t2 pre1 pre2 rest1 rest2 p1 p2 s1 s2 :
  (len (pre1 ++ cp_bytes p1 ++ rest1) ≤ usize_MAX)%Z → (len (pre2 ++ cp_bytes p2 ++ rest2) ≤ usize_MAX)%Z →
  chaum_pedersen_verify g_in pk1 pk2 s (stream_at t1 pre1 (cp_bytes p1 ++ rest1)) = (Ok (), s1) →
  chaum_pedersen_verify g_in pk1 pk2 s (stream_at t2 pre2 (cp_bytes p2 ++ rest2)) = (Ok (), s2) →
  cp_r1 p1 = cp_r1 p2 → cp_r2 p1 = cp_r2 p2 → (cp_challenge p1 t1).1 ≠ (cp_challenge p2 t2).1 →
  ∃ sk1, pk1 = g_in ⊙ sk1 ∧ s = pk2 ⊙ sk1.
Proof.
  intros Hu1 Hu2 Hv1 Hv2 H1 H2 Hne.
  apply chaum_pedersen_verify_accepted in Hv1 as (_ & _ & E1 & F1); [|exact Hu1].
  apply chaum_pedersen_verify_accepted in Hv2 as (_ & _ & E2 & F2); [|exact Hu2].
  rewrite H1 in E1. rewrite H2 in F1.
  exists (extracted (cp_z p1) (cp_z p2) (cp_challenge p1 t1).1 (cp_challenge p2 t2).1).
  split; eapply (cycle_extract (CY:=gin_cycle)); eassumption.
Qed.
End properties.

(** The key 3, proved at two transcripts with the nonce 5. *)
Definition toy_cp (t : Z) : CpProof (EC:=ToyCurves) :=
  let c := (cp_challenge (EC:=ToyCurves) (ME:=ToyMerlin) (MkCpProof (EC:=ToyCurves) (toy 5) (toy 20) (toy 0)) t).1 in
  MkCpProof (EC:=ToyCurves) (toy 5) (toy 20)
    (sadd (FieldOps:=Toy_ops) (toy 5) (smul (FieldOps:=Toy_ops) c (toy 3))).

Definition toy_cp_run (t : Z) :=
  chaum_pedersen_verify (EC:=ToyCurves) (ME:=ToyMerlin) (toy 1) (toy 3) (toy 4) (toy 12)
    (stream_at (H:=ToyMerlin) t [] (cp_bytes (EC:=ToyCurves) (toy_cp t) ++ [])).
Lemma toy_cp_run_Ok t : (toy_cp_run t).1 = Ok () → toy_cp_run t = (Ok (), (toy_cp_run t).2).
Proof. destruct (toy_cp_run t) as [res s]. cbn. by intros ->. Qed.

Lemma chaum_pedersen_extracts_witness :
  (toy_cp_run 7).1 = Ok () ∧ (toy_cp_run 8).1 = Ok () ∧
  ∃ sk1 : Toy, toy 3 = smul (FieldOps:=Toy_ops) (toy 1) sk1 ∧ toy 12 = smul (FieldOps:=Toy_ops) (toy 4) sk1.
Proof.
  assert (H1 : (toy_cp_run 7).1 = Ok ()) by vm_refl.
  assert (H2 : (toy_cp_run 8).1 = Ok ()) by vm_refl.
  split; [exact H1|]. split; [exact H2|].
  apply (chaum_pedersen_extracts (EC:=ToyCurves) (ECL:=ToyCurves_laws) (ME:=ToyMerlin)
    (CC1:=ToyCycle_codec) (toy 1) (toy 3) (toy 4) (toy 12) 7%Z 8%Z [] [] [] []
    (toy_cp 7) (toy_cp 8) (toy_cp_run 7).2 (toy_cp_run 8).2).
  - vm_compute. congruence.
  - vm_compute. congruence.
  - exact (toy_cp_run_Ok 7 H1).
  - exact (toy_cp_run_Ok 8 H2).
  - reflexivity.
  - reflexivity.
  - intros E%(f_equal toy_val). vm_compute in E. discriminate.
Defined.
