(* ===== verification/EvrfOneReceiver.v ===== *)
(** * The one-receiver relation (golden-evrf/paper.rs, module secp_secq)

    The circuit that ties the committed exponent to the shared point, exponentiates
    both hash bases and outputs their combination; and the proof that frames it
    between the two native proofs on one stream. *)

From Stdlib Require Import ZArith Lia Field Strings.Byte.
From stdpp Require Import prelude strings list_numbers.
From S2P Require Import Prelude CoreError Group Algebra TestSupport Sampling Cycle BpUtil InnerProduct ConstraintSystem Generators R1csProof Prover Verifier R1csSync CircuitLogic EvrfBits EvrfCurves EvrfToy EvrfChord ProofStream EvrfSigma.

Local Open Scope golden_scope.

Definition ONE_RECEIVER_PROOF_ID : list byte := bstr "golden-paper-evrf-one-receiver-v4".
Definition R1CS_GENS_CAPACITY : nat := Z.to_nat 8192.

Section model.
Context {EC : EvrfCurves} {ME : Merlin}.
#[local] Existing Instance gout_cycle | 0.

Record SecpSecqEvrfStatement := MkSecpSecqEvrfStatement {
  se_msg : list byte;
  se_pk1 : Gin;
  se_pk2 : Gin;
  se_s : Gin;
  se_h1 : Gin;
  se_h2 : Gin;
  se_t1 : Gin;
  se_t2 : Gin;
  se_r_point : Gout;
  se_beta : Fp;
}.
Record SecpSecqEvrfWitness := MkSecpSecqEvrfWitness { se_sk1 : Fq }.

(** ** The statement on the stream *)
Definition observe_one_receiver_statement {St} `{!Observe St} (statement : SecpSecqEvrfStatement)
    : stateful St CoreError unit :=
  _ ← draw (λ s, (tt, observe_bytes (bstr "statement.msg") (se_msg statement) s));
  _ ← observe_point GinStreamCurve (bstr "statement.pk1") (se_pk1 statement) Reject;
  _ ← observe_point GinStreamCurve (bstr "statement.pk2") (se_pk2 statement) Reject;
  _ ← observe_point GinStreamCurve (bstr "statement.s") (se_s statement) Reject;
  _ ← observe_point GinStreamCurve (bstr "statement.h1") (se_h1 statement) Reject;
  _ ← observe_point GinStreamCurve (bstr "statement.h2") (se_h2 statement) Reject;
  _ ← observe_point GinStreamCurve (bstr "statement.t1") (se_t1 statement) Reject;
  _ ← observe_point GinStreamCurve (bstr "statement.t2") (se_t2 statement) Reject;
  _ ← observe_point GoutStreamCurve (bstr "statement.r") (se_r_point statement) Allow;
  observe_scalar GoutStreamCurve (bstr "statement.beta") (se_beta statement).

(** ** The circuit *)
Definition build_one_receiver_r1cs (var_k var_r : CSVariable) (s_x : Fp)
    (precomp1 precomp2 : ChordPrecomp) (t1_x t1_y t2_x t2_y beta : Fp)
    (bit_assignments : list (option Fp)) (witness1 witness2 : option ChordWitness) : gadget unit :=
  _ ← constrain (var_sub var_k (lc_from_scalar s_x));
  bit_vars ← bit_decompose var_k bit_assignments;
  k_window_products ← chord_window_products bit_vars;
  '(x_t1, _) ← chord_exponentiate_r1cs bit_vars precomp1 k_window_products t1_x t1_y witness1;
  '(x_t2, _) ← chord_exponentiate_r1cs bit_vars precomp2 k_window_products t2_x t2_y witness2;
  _ ← constrain (var_sub var_r (lc_add (var_mul x_t1 beta) (lc_from_variable x_t2)));
  gret tt.

(** ** Generators *)
Section proofs.
Context {X : Shake256}.

Definition shared_bp_gens (threads : nat) : option BulletproofGens :=
  fst <$> BulletproofGens_new threads R1CS_GENS_CAPACITY 1 cache_empty.
Definition shared_pc_gens : PedersenGens := pedersen_default.

(** What the code returns of a computation that may panic, with the errors of the
    constraint system mapped to one error. *)
Definition r1cs_result {A} (m : outcome R1CSError A) : result (option CoreError) A :=
  match m with
  | Some (Ok a) => Ok a
  | Some (Err _) => Err (Some ProofVerificationFailed)
  | None => Err None
  end.

Definition same_encoding {C : Cycle} (P Q : CPoint) : bool :=
  bool_decide (compressed_as_bytes (point_compress P) = compressed_as_bytes (point_compress Q)).

(** The hash bases are derived from the message; the statement has to repeat them. *)
Definition check_hash_bases (statement : SecpSecqEvrfStatement) : Result (Gin * Gin) :=
  let h1 := h_gin_1 (se_msg statement) in
  let h2 := h_gin_2 (se_msg statement) in
  if (negb (same_encoding h1 (se_h1 statement)) || negb (same_encoding h2 (se_h2 statement)))%bool
  then Err ProofVerificationFailed
  else Ok (h1, h2).

(** *** Proving *)
Section prove.
Context `{CryptoRngCore R}.

(** The closure that [evrf_prove] passes to [send_nested]. *)
Definition one_receiver_payload (bp_gens : BulletproofGens) (k r s_x : Fp)
    (precomp1 precomp2 : ChordPrecomp) (t1_x t1_y t2_x t2_y beta : Fp)
    (bit_assignments : list (option Fp)) (witness1 witness2 : ChordWitness)
    : stateful (Transcript * R) (option CoreError) (list byte) := λ '(transcript, rng),
  let '(k_blinding, rng) := random_scalar rng in
  let r_blinding := 1 in
  let prover := Prover_new shared_pc_gens transcript in
  let '((v_k, var_k), prover) := prover_commit k k_blinding prover in
  let '((v_r, var_r), prover) := prover_commit r r_blinding prover in
  match
    run_circuit
      (build_one_receiver_r1cs var_k var_r s_x precomp1 precomp2 t1_x t1_y t2_x t2_y beta
         bit_assignments (Some witness1) (Some witness2)) prover
  with
  | None => (Err None, (transcript, rng))
  | Some (Err _, _) => (Err (Some ProofVerificationFailed), (transcript, rng))
  | Some (Ok _, prover) =>
      let '(res, rng) := prove_and_return_transcript prover bp_gens rng in
      match r1cs_result res with
      | Err e => (Err e, (transcript, rng))
      | Ok (r1cs_proof, transcript) =>
          let r1cs_bytes := r1cs_to_bytes r1cs_proof in
          ((prefix_bytes ← ok_or (Some ProofVerificationFailed)
                             (checked_mul 2 (Z.of_nat COMPRESSED_BYTES));
            _ ← ok_or (Some ProofVerificationFailed) (checked_add prefix_bytes (len r1cs_bytes));
            Ok (compressed_as_bytes v_k ++ compressed_as_bytes v_r ++ r1cs_bytes)),
           (transcript, rng))
      end
  end.

Definition evrf_prove (fuel threads : nat) (statement : SecpSecqEvrfStatement)
    (witness : SecpSecqEvrfWitness) : stateful R (option CoreError) (list byte) := λ rng,
  let g_in : Gin := cpoint_generator in
  match ProverProofStream_new ONE_RECEIVER_PROOF_ID with
  | Err e => (Err (Some e), rng)
  | Ok stream =>
      let '(res, (stream, rng)) :=
        (_ ← on_stream (observe_one_receiver_statement statement);
         let s_computed := se_pk2 statement ⊙ se_sk1 witness in
         _ ← lift (reject_if (negb (same_encoding s_computed (se_s statement)))
                     (Some ProofVerificationFailed));
         '(s_x, _) ← lift (map_err Some (affine (se_s statement)));
         let k := s_x in
         '(h1, h2) ← lift (map_err Some (check_hash_bases statement));
         let bits := decompose_k_fp k (K_BITS + 1) in
         let bit_assignments := bit_options bits in
         precomp1 ← lift (map_err Some (precompute_chord h1 K_BITS));
         precomp2 ← lift (map_err Some (precompute_chord h2 K_BITS));
         witness1 ← lift (map_err Some (chord_compute_witness_precomputed bits precomp1));
         witness2 ← lift (map_err Some (chord_compute_witness_precomputed bits precomp2));
         '(t1_x, t1_y) ← lift (map_err Some (affine (se_t1 statement)));
         '(t2_x, t2_y) ← lift (map_err Some (affine (se_t2 statement)));
         let r := se_beta statement * t1_x + t2_x in
         let g_out : Gout := cpoint_generator in
         let r_computed := g_out ⊙ r in
         _ ← lift (reject_if (negb (same_encoding r_computed (se_r_point statement)))
                     (Some ProofVerificationFailed));
         _ ← chaum_pedersen_prove fuel g_in (se_pk2 statement) (se_sk1 witness);
         bp_gens ← lift (ok_or None (shared_bp_gens threads));
         _ ← send_nested
               (one_receiver_payload bp_gens k r s_x precomp1 precomp2
                  t1_x t1_y t2_x t2_y (se_beta statement) bit_assignments witness1 witness2);
         dlog_prove fuel g_out r) (stream, rng) in
      (_ ← res; allocated (prover_finish stream), rng)
  end.
End prove.

(** *** Verifying *)
Section verify.
Context `{CryptoRngCore R}.

(** The closure that [evrf_verify] passes to [receive_nested]. *)
Definition one_receiver_check (bp_gens : BulletproofGens) (statement : SecpSecqEvrfStatement)
    (s_x : Fp) (precomp1 precomp2 : ChordPrecomp) (t1_x t1_y t2_x t2_y : Fp) (payload : list byte)
    : stateful (Transcript * R) (option CoreError) unit := λ '(transcript, rng),
  match
    ('(v_k, cursor) ← parse_nested_commitment payload 0 Allow;
     '(v_r, cursor) ← parse_nested_commitment payload cursor Allow;
     r1cs_bytes ← ok_or ProofVerificationFailed (get_range cursor (len payload) payload);
     r1cs_proof ← parse_canonical_r1cs_proof r1cs_bytes;
     _ ← pedersen_prefix_link (pc_B_blinding shared_pc_gens) (se_r_point statement) v_r;
     Ok (v_k, v_r, r1cs_proof))
  with
  | Err e => (Err (Some e), (transcript, rng))
  | Ok (v_k, v_r, r1cs_proof) =>
      let verifier := Verifier_new transcript in
      let '(var_k, verifier) := verifier_commit v_k verifier in
      let '(var_r, verifier) := verifier_commit v_r verifier in
      let verifier_bits := replicate (K_BITS + 1) None in
      match
        run_circuit
          (build_one_receiver_r1cs var_k var_r s_x precomp1 precomp2 t1_x t1_y t2_x t2_y
             (se_beta statement) verifier_bits None None) verifier
      with
      | None => (Err None, (transcript, rng))
      | Some (Err _, _) => (Err (Some ProofVerificationFailed), (transcript, rng))
      | Some (Ok _, verifier) =>
          let '(res, rng) :=
            verify_and_return_transcript verifier r1cs_proof shared_pc_gens bp_gens rng in
          match r1cs_result res with
          | Err e => (Err e, (transcript, rng))
          | Ok transcript => (Ok tt, (transcript, rng))
          end
      end
  end.

Definition evrf_verify (threads : nat) (statement : SecpSecqEvrfStatement) (proof : list byte)
    : stateful R (option CoreError) unit := λ rng,
  let g_in : Gin := cpoint_generator in
  let g_out : Gout := cpoint_generator in
  match
    (bp_gens ← ok_or None (shared_bp_gens threads);
     stream ← map_err Some (VerifierProofStream_new ONE_RECEIVER_PROOF_ID proof);
     Ok (bp_gens, stream))
  with
  | Err e => (Err e, rng)
  | Ok (bp_gens, stream) =>
      let '(res, (stream, rng)) :=
        (_ ← on_stream (observe_one_receiver_statement statement);
         _ ← on_stream (chaum_pedersen_verify g_in (se_pk1 statement) (se_pk2 statement)
                          (se_s statement));
         '(s_x, _) ← lift (map_err Some (affine (se_s statement)));
         '(h1, h2) ← lift (map_err Some (check_hash_bases statement));
         precomp1 ← lift (map_err Some (precompute_chord h1 K_BITS));
         precomp2 ← lift (map_err Some (precompute_chord h2 K_BITS));
         '(t1_x, t1_y) ← lift (map_err Some (affine (se_t1 statement)));
         '(t2_x, t2_y) ← lift (map_err Some (affine (se_t2 statement)));
         _ ← receive_nested (one_receiver_check bp_gens statement s_x precomp1 precomp2
                               t1_x t1_y t2_x t2_y);
         on_stream (dlog_verify g_out (se_r_point statement))) (stream, rng) in
      (_ ← res; map_err Some (verifier_finish stream), rng)
  end.
End verify.
End proofs.
End model.

(** ** What the circuit states *)
Section circuit.
Context {EC : EvrfCurves} {ECL : EvrfCurveLaws} {ME : Merlin}.
#[local] Existing Instance gout_cycle | 0.
Add Field one_receiver_field : (scalar_field_theory (F:=Fp)).

(** The exponent [k] has the bits [bs], the bases have the powers [T1] and [T2], and
    [r] is their combination. *)
Record one_receiver_relation (H1 H2 : Gin) (s_x β : Fp) (T1 T2 : Fp * Fp) (k r : Fp) (bs : list bool)
    : Prop := MkOneReceiverRelation {
  rel_k : k = s_x;
  rel_bits : s_x = of_Z (bits_value bs);
  rel_below : (bits_value bs < le_value SECP256K1_BASE_MODULUS_LE)%Z;
  rel_t1 : affine (H1 ⊙ of_Z (bits_value bs)) = Ok T1;
  rel_t2 : affine (H2 ⊙ of_Z (bits_value bs)) = Ok T2;
  rel_r : r = β * T1.1 + T2.1;
}.

(** The part after the decomposition. *)
Definition one_receiver_powers (var_r : CSVariable) (pc1 pc2 : ChordPrecomp) (T1 T2 : Fp * Fp) (β : Fp)
    (wit1 wit2 : option ChordWitness) (bit_vars : list CSVariable) : gadget unit :=
  products ← chord_window_products bit_vars;
  '(x_t1, _) ← chord_exponentiate_r1cs bit_vars pc1 products T1.1 T1.2 wit1;
  '(x_t2, _) ← chord_exponentiate_r1cs bit_vars pc2 products T2.1 T2.2 wit2;
  _ ← constrain (var_sub var_r (lc_add (var_mul x_t1 β) (lc_from_variable x_t2)));
  gret tt.

Lemma one_receiver_split var_k var_r s_x pc1 pc2 T1 T2 β bits wit1 wit2 :
  build_one_receiver_r1cs var_k var_r s_x pc1 pc2 T1.1 T1.2 T2.1 T2.2 β bits wit1 wit2
  = (_ ← constrain (var_sub var_k (lc_from_scalar s_x));
     bit_vars ← bit_decompose var_k bits;
     one_receiver_powers var_r pc1 pc2 T1 T2 β wit1 wit2 bit_vars).
Proof. done. Qed.

Context (H1 H2 : Gin) (pc1 pc2 : ChordPrecomp) (wit1 wit2 : ChordWitness) (bs : list bool).
Context (Hc1 : chord_computed H1 bs pc1 wit1) (Hc2 : chord_computed H2 bs pc2 wit2).
Context (s_x β : Fp) (T1 T2 : Fp * Fp).

Lemma powers_sound σ var_r w1 w2 vars :
  σ One = 1 → bits_are σ vars bs →
  gimplies σ (one_receiver_powers var_r pc1 pc2 T1 T2 β w1 w2 vars) (λ _,
    affine (H1 ⊙ of_Z (bits_value bs)) = Ok T1 ∧ affine (H2 ⊙ of_Z (bits_value bs)) = Ok T2 ∧
    σ var_r = β * T1.1 + T2.1).
Proof.
  intros Hone Hb. unfold one_receiver_powers, chord_exponentiate_r1cs.
  eapply gimplies_bind; [by apply (window_products_sound σ H1 bs pc1 wit1)|]. intros products Hp.
  eapply gimplies_bind; [apply (chord_power_sound σ H1 bs pc1 wit1); done|]. intros [x1 y1] [A1 R1].
  eapply gimplies_bind; [apply (chord_power_sound σ H2 bs pc2 wit2); done|]. intros [x2 y2] [A2 R2].
  eapply gimplies_bind; [apply gimplies_constrain|]. intros [] Hr. apply gimplies_ret.
  cbn beta iota in R1, R2. rewrite <-surjective_pairing in R1, R2. rewrite A1, A2, R1, R2.
  split; [done|]. split; [done|]. rewrite var_sub_value in Hr. apply (proj1 (ssub_eq_0 _ _)) in Hr.
  rewrite Hr, lc_value_add, var_mul_value, lc_value_variable. cbn [fst]. ring.
Qed.

Lemma powers_complete Γ var_r vars :
  Γ One 1 → bits_known Γ vars bs →
  affine (H1 ⊙ of_Z (bits_value bs)) = Ok T1 → affine (H2 ⊙ of_Z (bits_value bs)) = Ok T2 →
  Γ var_r (β * T1.1 + T2.1) →
  gproduces Γ (one_receiver_powers var_r pc1 pc2 T1 T2 β (Some wit1) (Some wit2) vars) (λ _ _, True).
Proof.
  intros Hone Hb A1 A2 Hr. unfold one_receiver_powers, chord_exponentiate_r1cs.
  eapply gproduces_bind; [by apply (window_products_complete Γ H1 bs pc1 wit1)|].
  intros Γ1 products HΓ1 Hp.
  eapply gproduces_bind.
  { apply (chord_power_complete Γ1 H1 bs pc1 wit1 vars products _ T1); try done;
      [by apply HΓ1|exact (bits_known_mono _ _ _ _ HΓ1 Hb)|by destruct T1]. }
  intros Γ2 [x1 y1] HΓ2 [K1 _]. pose proof (extends_trans _ _ _ HΓ1 HΓ2) as HΓ12.
  eapply gproduces_bind.
  { apply (chord_power_complete Γ2 H2 bs pc2 wit2 vars products _ T2); try done;
      [by apply HΓ12|exact (bits_known_mono _ _ _ _ HΓ12 Hb)|exact (products_extends _ _ _ _ HΓ2 Hp)|by destruct T2]. }
  intros Γ3 [x2 y2] HΓ3 [K2 _]. pose proof (extends_trans _ _ _ HΓ12 HΓ3) as HΓ13.
  eapply gproduces_bind.
  { eapply gproduces_equal with (Q := λ _ _, True); [|apply ssub_diag|done].
    apply known_var_sub; [apply HΓ13, Hr|]. eapply known_eq.
    - apply known_add; [apply known_var_mul, HΓ3, K1|apply known_variable, K2].
    - ring. }
  intros Γ4 [] _ _. by apply gproduces_ret.
Qed.

Lemma powers_sized var_r vars :
  length vars = (K_BITS + 1)%nat →
  gsized (one_receiver_powers var_r pc1 pc2 T1 T2 β None None vars) 896 32 (λ _, True).
Proof.
  intros Hv. unfold one_receiver_powers, chord_exponentiate_r1cs.
  eapply (gsized_step _ _ 128 0);
    [apply (chord_window_products_sized vars K_BITS); [done|done|exact Hv]|lia|lia|].
  intros products Hp. change (896 - 128)%nat with 768%nat. change (32 - 0)%nat with 32%nat.
  eapply (gsized_step _ _ 384 16).
  { apply (chord_exponentiate_sized vars pc1 products _ None K_BITS); try done. exact (chord_computed_windows _ _ _ _ Hc1). }
  1, 2: lia.
  intros [x1 y1] _. eapply (gsized_step _ _ 384 16).
  { apply (chord_exponentiate_sized vars pc2 products _ None K_BITS); try done. exact (chord_computed_windows _ _ _ _ Hc2). }
  1, 2: lia.
  intros [x2 y2] _. size_step. intros [] _. by size_done.
Qed.

Lemma one_receiver_sized var_k var_r bits :
  length bits = (K_BITS + 1)%nat →
  gsized (build_one_receiver_r1cs var_k var_r s_x pc1 pc2 T1.1 T1.2 T2.1 T2.2 β bits None None)
    1410 32 (λ _, True).
Proof.
  intros Hb. rewrite one_receiver_split. size_step. intros [] _.
  eapply (gsized_step _ _ 514 0); [by apply bit_decompose_bounded_sized|lia|lia|].
  intros vars Hv. eapply gsized_eq; [by apply powers_sized|lia|lia].
Qed.

Lemma powers_similar var_r vars :
  length vars = (K_BITS + 1)%nat →
  gsimilar eq (one_receiver_powers var_r pc1 pc2 T1 T2 β (Some wit1) (Some wit2) vars)
    (one_receiver_powers var_r pc1 pc2 T1 T2 β None None vars).
Proof.
  intros Hv. unfold one_receiver_powers, chord_exponentiate_r1cs.
  eapply gsimilar_bind; [apply chord_window_products_similar|]. intros products _ <-.
  eapply gsimilar_bind; [by apply chord_exponentiate_similar; rewrite Hv; apply chord_computed_fits with (1:=Hc1)|].
  intros [x1 y1] _ <-.
  eapply gsimilar_bind; [by apply chord_exponentiate_similar; rewrite Hv; apply chord_computed_fits with (1:=Hc2)|].
  intros [x2 y2] _ <-. similar_step. intros [] _ <-. by apply gsimilar_ret.
Qed.
Lemma one_receiver_similar var_k var_r bits' :
  length bits' = length bs →
  gsimilar eq
    (build_one_receiver_r1cs var_k var_r s_x pc1 pc2 T1.1 T1.2 T2.1 T2.2 β (bit_options bs)
       (Some wit1) (Some wit2))
    (build_one_receiver_r1cs var_k var_r s_x pc1 pc2 T1.1 T1.2 T2.1 T2.2 β bits' None None).
Proof.
  intros Hl. rewrite !one_receiver_split. similar_step. intros [] _ <-.
  assert (Hbits : length bits' = (K_BITS + 1)%nat) by (rewrite Hl; apply Hc1).
  eapply gsimilar_bind.
  { eapply gsimilar_sized; [by apply bit_decompose_bounded_similar|].
    by apply bit_decompose_bounded_sized. }
  intros vars _ [<- Hv]. by apply powers_similar.
Qed.

(** The prover's values satisfy the whole circuit. *)
Lemma one_receiver_complete Γ var_k var_r k r :
  Γ One 1 → Γ var_k k → Γ var_r r → one_receiver_relation H1 H2 s_x β T1 T2 k r bs →
  gproduces Γ (build_one_receiver_r1cs var_k var_r s_x pc1 pc2 T1.1 T1.2 T2.1 T2.2 β (bit_options bs)
    (Some wit1) (Some wit2)) (λ _ _, True).
Proof.
  intros Hone Hk Hr [Rk Rb Rlt R1 R2 Rr]. subst k r. rewrite one_receiver_split.
  eapply gproduces_bind.
  { eapply gproduces_equal with (Q := λ _ _, True); [|apply ssub_diag|done].
    apply known_var_sub; [exact Hk|by apply known_scalar]. }
  intros Γ1 [] HΓ1 _. eapply gproduces_bind.
  { apply bit_decompose_bounded_complete; [by apply HΓ1|vm_compute; reflexivity|apply Hc1| |exact Rlt].
    apply HΓ1. by rewrite <-Rb. }
  intros Γ2 vars HΓ2 Hb. pose proof (extends_trans _ _ _ HΓ1 HΓ2) as HΓ.
  apply powers_complete; [by apply HΓ|exact Hb|exact R1|exact R2|by apply HΓ].
Qed.
End circuit.

(** ** Properties *)
Section properties.
Context {EC : EvrfCurves} {ECL : EvrfCurveLaws} {ME : Merlin}.
#[local] Existing Instance gout_cycle | 0.

(** C7: the one-receiver circuit states exactly its relation.  For commitments to [k]
    and [r], and bits for which the prover's witnesses exist, the verifier's circuit
    takes 1426 multipliers; every satisfying assignment gives 257 of its variables the
    bits of an integer below the modulus whose image is the public coordinate [s_x];
    and an assignment with the committed [k] and [r] and the given bits satisfies it if
    and only if [k] is [s_x], the bits encode it, [T1] and [T2] are the coordinates of
    the powers of the two bases by that integer, and [r] is [beta * T1.x + T2.x]. *)
Theorem one_receiver_circuit_exact pc_gens t (k k_blinding r : Fp) (H1 H2 : Gin) bs pc1 wit1 pc2 wit2
    (s_x β : Fp) (T1 T2 : Fp * Fp) :
  chord_computed H1 bs pc1 wit1 → chord_computed H2 bs pc2 wit2 →
  let '((V_k, var_k), P) := prover_commit k k_blinding (Prover_new pc_gens t) in
  let '((V_r, var_r), _) := prover_commit r 1 P in
  ∃ vars V',
    run_circuit
      (build_one_receiver_r1cs var_k var_r s_x pc1 pc2 T1.1 T1.2 T2.1 T2.2 β
         (replicate (K_BITS + 1) None) None None)
      (verifier_commit V_r (verifier_commit V_k (Verifier_new t)).2).2 = Some (Ok (), V') ∧
    Z.of_nat (num_vars (v_core V')) = 1426%Z ∧
    (∀ σ, satisfies σ V' → ∃ bs', length bs' = (K_BITS + 1)%nat ∧ bits_are σ vars bs' ∧
       s_x = of_Z (bits_value bs') ∧ (bits_value bs' < le_value SECP256K1_BASE_MODULUS_LE)%Z) ∧
    ((∃ σ, satisfies σ V' ∧ σ var_k = k ∧ σ var_r = r ∧ bits_are σ vars bs) ↔
     one_receiver_relation H1 H2 s_x β T1 T2 k r bs).
Proof.
  intros Hc1 Hc2.
  pose proof (commit_sync _ _ k k_blinding (new_sync pc_gens t)) as Hs.
  pose proof (honest_commit _ k k_blinding (honest_new pc_gens t)) as Hh.
  destruct (prover_commit k k_blinding (Prover_new pc_gens t)) as [[V_k var_k] P0] eqn:EP.
  destruct (verifier_commit V_k (Verifier_new t)) as [var_k' V0] eqn:EV. cbn [snd].
  destruct Hs as [<- Hs], Hh as (Hh & _ & Hk).
  pose proof (commit_sync _ _ r 1 Hs) as Hs'. pose proof (honest_commit _ r 1 Hh) as Hh'.
  destruct (prover_commit r 1 P0) as [[V_r var_r] P1] eqn:EP'.
  destruct (verifier_commit V_r V0) as [var_r' V1] eqn:EV'. cbn [snd].
  destruct Hs' as [<- Hs'], Hh' as (Hh' & HΓ & Hr). apply HΓ in Hk.
  assert (HV1 : counted V1 0%nat 0%nat) by (injection EV as _ <-; injection EV' as _ <-; by split).
  set (c := build_one_receiver_r1cs _ _ _ _ _ _ _ _ _ _ (replicate _ None) _ _).
  assert (Hn : length (replicate (K_BITS + 1) (None (A:=Fp))) = length bs)
    by (rewrite length_replicate; symmetry; apply Hc1).
  destruct (gsized_run c 1410%nat 32%nat _ V1
    (one_receiver_sized H1 H2 pc1 pc2 wit1 wit2 bs Hc1 Hc2 s_x β T1 T2 var_k var_r _ (length_replicate _ _)) HV1)
    as ([] & V' & Hrun & [Hnum _] & _).
  pose proof Hrun as Hrun'. unfold c in Hrun'. rewrite one_receiver_split in Hrun'.
  apply run_gadget_bind in Hrun' as ([] & V2 & Hrun1 & Hrun').
  apply run_gadget_bind in Hrun' as (vars & V3 & Hrun2 & Hrun3).
  assert (Hm : (le_value SECP256K1_BASE_MODULUS_LE < 2 ^ Z.of_nat (K_BITS + 1))%Z) by (vm_compute; reflexivity).
  assert (Hdecomposed : ∀ σ, satisfies σ V' → σ var_k = s_x ∧ ∃ bs', length bs' = (K_BITS + 1)%nat ∧
    bits_are σ vars bs' ∧ s_x = of_Z (bits_value bs') ∧
    (bits_value bs' < le_value SECP256K1_BASE_MODULUS_LE)%Z).
  { intros σ Hsat. pose proof (run_satisfies σ _ _ _ _ Hrun3 Hsat) as Hsat3.
    pose proof (run_satisfies σ _ _ _ _ Hrun2 Hsat3) as Hsat2.
    pose proof (gimplies_sound σ _ _ _ _ _ (gimplies_constrain σ _) Hrun1 Hsat2) as Hk1. cbn beta in Hk1.
    rewrite var_sub_value, scalar_value in Hk1 by apply (sat_one _ _ Hsat).
    apply (proj1 (ssub_eq_0 _ _)) in Hk1. split; [done|].
    destruct (gimplies_sound σ _ _ _ _ _
      (bit_decompose_bounded_sound σ var_k _ SECP256K1_BASE_MODULUS_LE (sat_one _ _ Hsat) Hm) Hrun2 Hsat3)
      as (bs' & Hl & Hb & Hv & Hlt).
    exists bs'. rewrite <-Hk1. exact (conj Hl (conj Hb (conj Hv Hlt))). }
  exists vars, V'. split; [exact Hrun|]. split; [rewrite Hnum; vm_compute; reflexivity|].
  split; [by intros σ Hsat; apply Hdecomposed|]. split.
  - intros (σ & Hsat & Hσk & Hσr & Hσb). destruct (Hdecomposed σ Hsat) as (Hσs & bs' & _ & Hb' & Hv & Hlt).
    rewrite (bits_are_inj _ _ _ _ Hb' Hσb) in Hv, Hlt.
    destruct (gimplies_sound σ _ _ _ _ _
      (powers_sound H1 H2 pc1 pc2 wit1 wit2 bs Hc1 Hc2 β T1 T2 σ var_r None None vars (sat_one _ _ Hsat) Hσb)
      Hrun3 Hsat) as (A1 & A2 & Hr').
    split; [rewrite <-Hσk; exact Hσs|exact Hv|exact Hlt|exact A1|exact A2|rewrite <-Hσr; exact Hr'].
  - intros [Rk Rb Rlt R1 R2 Rr]. rewrite Rr in Hr. rewrite Rk in Hk.
    destruct (gadget_satisfiable (constrain (var_sub var_k (lc_from_scalar s_x))) _ (λ _ _, True) P1 V1
      (gsimilar_same _ _ (gsimilar_constrain _)) Hs' Hh')
      as ([] & P2 & V2' & _ & Hv2 & Hh2 & Hs2 & _ & HΓ2 & _).
    { eapply gproduces_equal with (Q := λ _ _, True); [|apply ssub_diag|done].
      apply known_var_sub; [exact Hk|by apply known_scalar, known_one]. }
    rewrite Hrun1 in Hv2. injection Hv2 as <-. apply HΓ2 in Hk, Hr.
    destruct (gadget_satisfiable (bit_decompose var_k (bit_options bs)) (bit_decompose var_k (replicate (K_BITS + 1) None))
      (λ Γ vars, bits_known Γ vars bs) P2 V2)
      as (vars' & P3 & V3' & _ & Hv3 & Hh3 & Hs3 & _ & HΓ3 & Hb3); [|done|done| |].
    { apply gsimilar_same, bit_decompose_bounded_similar. done. }
    { apply bit_decompose_bounded_complete; [apply known_one|done|apply Hc1|by rewrite <-Rb|done]. }
    rewrite Hrun2 in Hv3. injection Hv3 as <- <-. apply HΓ3 in Hk, Hr.
    destruct (gadget_satisfiable (one_receiver_powers var_r pc1 pc2 T1 T2 β (Some wit1) (Some wit2) vars)
      (one_receiver_powers var_r pc1 pc2 T1 T2 β None None vars) (λ _ _, True) P3 V3)
      as ([] & P4 & V4' & _ & Hv4 & _ & _ & Hsat & HΓ4 & _); [|done|done| |].
    { apply gsimilar_same. apply powers_similar with H1 H2 bs; [done|done|].
      rewrite (Forall2_length _ _ _ Hb3). apply Hc1. }
    { by apply (powers_complete H1 H2 pc1 pc2 wit1 wit2 bs); [done|done|apply known_one|..]. }
    rewrite Hrun3 in Hv4. injection Hv4 as <-.
    exists (assignment (p_secrets (p_core P4))). split; [exact Hsat|]. rewrite Rk, Rr.
    split; [apply known_assignment, HΓ4, Hk|]. split; [apply known_assignment, HΓ4, Hr|].
    eapply Forall2_impl; [exact Hb3|]. intros v b Hvb. apply known_assignment, HΓ4, Hvb.
Qed.
End properties.

(** The exponent 9 on two bases of the small curve. *)
Definition nine_bits : list bool := [true; false; false; true] ++ replicate 253 false.
Lemma nine_bits_length : length nine_bits = (K_BITS + 1)%nat.
Proof. reflexivity. Qed.
Lemma nine_computed_1 :
  ∃ pc wit, chord_computed (EC:=ToyCurves) (toy 5) nine_bits pc wit.
Proof. apply (chord_regular_computed (EC:=ToyCurves) (ECL:=ToyCurves_laws)); [exact nine_bits_length|vm_refl]. Qed.
Lemma nine_computed_2 :
  ∃ pc wit, chord_computed (EC:=ToyCurves) (toy 11) nine_bits pc wit.
Proof. apply (chord_regular_computed (EC:=ToyCurves) (ECL:=ToyCurves_laws)); [exact nine_bits_length|vm_refl]. Qed.
Lemma nine_relation :
  one_receiver_relation (EC:=ToyCurves) (toy 5) (toy 11) (toy 9) (toy 3)
    (toy 23264, toy 1973) (toy 19427, toy 8800) (toy 9) (toy 23698) nine_bits.
Proof. split; try vm_refl. reflexivity. Qed.
Definition toy_gens : PedersenGens (H:=ToyCycle) := MkPedersenGens (H:=ToyCycle) (toy 1) (toy 3).

Lemma one_receiver_circuit_exact_witness :
  ∃ pc1 wit1 pc2 wit2,
    chord_computed (EC:=ToyCurves) (toy 5) nine_bits pc1 wit1 ∧
    chord_computed (EC:=ToyCurves) (toy 11) nine_bits pc2 wit2 ∧
    ∃ vars V' σ,
      run_circuit (H:=ToyCycle) (H0:=ToyMerlin)
        (build_one_receiver_r1cs (EC:=ToyCurves) (Committed 0) (Committed 1) (toy 9) pc1 pc2
           (toy 23264) (toy 1973) (toy 19427) (toy 8800) (toy 3) (replicate (K_BITS + 1) None) None None)
        (verifier_commit (H:=ToyCycle) (toy_compress (toy 23701))
           (verifier_commit (H:=ToyCycle) (toy_compress (toy 12))
              (Verifier_new (H:=ToyCycle) (H0:=ToyMerlin) 7%Z)).2).2 = Some (Ok (), V') ∧
      satisfies (CY:=ToyCycle) (ME:=ToyMerlin) σ V' ∧ σ (Committed 0) = toy 9 ∧
      σ (Committed 1) = toy 23698 ∧ bits_are (CY:=ToyCycle) σ vars nine_bits.
Proof.
  destruct nine_computed_1 as (pc1 & wit1 & Hc1), nine_computed_2 as (pc2 & wit2 & Hc2).
  exists pc1, wit1, pc2, wit2. split; [exact Hc1|]. split; [exact Hc2|].
  destruct (one_receiver_circuit_exact (EC:=ToyCurves) (ECL:=ToyCurves_laws) (ME:=ToyMerlin) toy_gens 7%Z
    (toy 9) (toy 1) (toy 23698) (toy 5) (toy 11) nine_bits pc1 wit1 pc2 wit2 (toy 9) (toy 3)
    (toy 23264, toy 1973) (toy 19427, toy 8800) Hc1 Hc2) as (vars & V' & Hrun & _ & _ & Hiff).
  destruct (proj2 Hiff nine_relation) as (σ & Hsat & Hk & Hr & Hb).
  exists vars, V', σ. split; [exact Hrun|]. split; [exact Hsat|]. split; [exact Hk|]. split; [exact Hr|exact Hb].
Defined.
