(* ===== verification/EvrfOneReceiverProof.v ===== *)
(** * Correctness of the one-receiver proof (golden-evrf/paper.rs, module secp_secq)

    What the verifier accepts, byte by byte, and that it accepts what the prover
    writes. *)

From Stdlib Require Import ZArith Lia Field Strings.Byte.
From stdpp Require Import prelude strings list_numbers.
From S2P Require Import Prelude CoreError Group Algebra TestSupport Sampling Cycle BpUtil InnerProduct ConstraintSystem Generators R1csProof Prover Verifier R1csSync R1csComplete CircuitLogic R1csOnePhase EvrfBits EvrfCurves EvrfToy EvrfChord ProofStream EvrfSigma EvrfOneReceiver.

Local Open Scope golden_scope.

Lemma get_range_rest pre todo : get_range (len pre) (len (pre ++ todo)) (pre ++ todo) = Some todo.
Proof.
  unfold get_range, len. rewrite length_app, Nat2Z.id, drop_app_length.
  rewrite bool_decide_eq_true_2 by lia. rewrite take_ge by lia. done.
Qed.

(** ** Framed R1CS proofs *)
Section framing.
Context {CY : Cycle} {CL : CycleLaws} {CC : CycleCodec}.

Lemma compressed_as_bytes_inj (a b : Compressed) : compressed_as_bytes a = compressed_as_bytes b → a = b.
Proof. intros E%(f_equal compressed_from_bytes). by rewrite !compressed_from_as_bytes in E. Qed.
Lemma point_compress_inj (P Q : CPoint) : point_compress P = point_compress Q → P = Q.
Proof. intros E%(f_equal compressed_decompress). rewrite !decompress_compress in E. by injection E. Qed.
Lemma same_encoding_spec (P Q : CPoint) : same_encoding P Q = bool_decide (P = Q).
Proof.
  unfold same_encoding. apply bool_decide_ext. split; [|by intros ->].
  intros E. by apply point_compress_inj, compressed_as_bytes_inj.
Qed.
End framing.

Section nested.
Context {EC : EvrfCurves} {ECL : EvrfCurveLaws} {ME : Merlin} {CC2 : CycleCodec (H:=gout_cycle)}.
#[local] Existing Instance gout_cycle | 0.
#[local] Instance gout_stream_laws' : ProofStreamLaws (H:=GoutStreamCurve) := CycleCurve_laws.
Abbreviation encoded P := (compressed_as_bytes (point_compress P)).

Lemma parse_nested_commitment_Ok pre todo C e :
  (len (pre ++ todo) ≤ usize_MAX)%Z →
  parse_nested_commitment (pre ++ todo) (len pre) Allow = Ok (C, e) ↔
  ∃ (P : Gout) rest, todo = encoded P ++ rest ∧ C = point_compress P ∧ e = len (pre ++ encoded P).
Proof.
  intros Hu. unfold parse_nested_commitment. pose proof (gout_point_width (EC:=EC)) as Hw.
  split.
  - intros (e' & He%ok_or_Ok & E)%bind_Ok. unfold checked_add in He. case_bool_decide; [|done].
    injection He as <-. apply bind_Ok in E as (bs & Hb%ok_or_Ok & E).
    apply bind_Ok in E as (P & HP & [= <- <-]). apply (decode_point_Ok (C:=GoutStreamCurve)) in HP as [_ ->].
    rewrite get_range_app in Hb by done. case_bool_decide as Hin; [|done]. injection Hb as Hb.
    exists P, (drop (Z.to_nat (Z.of_nat COMPRESSED_BYTES)) todo).
    split; [by rewrite <-Hb, take_drop|]. split; [done|]. rewrite <-Hb.
    change (POINT_BYTES (ProofStreamCurve:=GoutStreamCurve)) with (Z.of_nat COMPRESSED_BYTES).
    unfold len in *. rewrite length_app, length_take. lia.
  - intros (P & rest & -> & -> & ->).
    change (encoded P) with (ps_encode_point (ProofStreamCurve:=GoutStreamCurve) P) in *.
    assert (Hl : len (ps_encode_point (ProofStreamCurve:=GoutStreamCurve) P)
      = POINT_BYTES (ProofStreamCurve:=GoutStreamCurve)) by apply len_encode_point.
    unfold checked_add. rewrite bool_decide_eq_true_2.
    2: { rewrite <-Hl. unfold len in *. rewrite !length_app in Hu. lia. }
    cbn [ok_or mbind result_bind]. rewrite get_range_app by done.
    rewrite bool_decide_eq_true_2 by (rewrite <-Hl; unfold len; rewrite length_app; lia).
    rewrite take_app_length' by (rewrite <-Hl; unfold len; lia). cbn [ok_or mbind result_bind].
    rewrite (proj2 (decode_point_Ok (C:=GoutStreamCurve) _ Allow P)) by (by split). cbn [mbind result_bind].
    rewrite <-Hl. do 2 f_equal. unfold len. rewrite length_app. lia.
Qed.

Lemma parse_canonical_Ok bs p :
  parse_canonical_r1cs_proof bs = Ok p ↔ bs = r1cs_to_bytes p ∧ r1cs_from_bytes (r1cs_to_bytes p) = Ok p.
Proof.
  unfold parse_canonical_r1cs_proof. rewrite bind_Ok. setoid_rewrite map_err_Ok. split.
  - intros (p' & Hp & E). case_bool_decide as Hb; [|done]. injection E as <-. by rewrite Hb.
  - intros [-> Hp]. exists p. split; [done|]. by rewrite bool_decide_eq_true_2.
Qed.

Lemma pedersen_prefix_link_Ok B R_point C u :
  pedersen_prefix_link B R_point C = Ok u ↔ C = point_compress (R_point ⊕ B).
Proof.
  unfold pedersen_prefix_link. destruct u. case_bool_decide as E; cbn [negb].
  - apply compressed_as_bytes_inj in E. by rewrite E.
  - split; [done|]. by intros ->.
Qed.
End nested.

(** ** The statement *)
Section statement.
Context {EC : EvrfCurves} {ECL : EvrfCurveLaws} {ME : Merlin}.
Context {CC1 : CycleCodec (H:=gin_cycle)} {CC2 : CycleCodec (H:=gout_cycle)}.
#[local] Existing Instance gout_cycle | 0.
#[local] Instance gin_laws1 : ProofStreamLaws (H:=GinStreamCurve) := CycleCurve_laws.
#[local] Instance gout_laws1 : ProofStreamLaws (H:=GoutStreamCurve) := CycleCurve_laws.

Definition append_all (messages : list (list byte * list byte)) (t : Transcript) : Transcript :=
  foldl (λ t '(label, bytes), append_message label bytes t) t messages.

Abbreviation gin_encoded P := (ps_encode_point (ProofStreamCurve:=GinStreamCurve) P).
Definition statement_messages (st : SecpSecqEvrfStatement) : list (list byte * list byte) :=
  [(bstr "statement.msg", se_msg st);
   (bstr "statement.pk1", gin_encoded (se_pk1 st)); (bstr "statement.pk2", gin_encoded (se_pk2 st));
   (bstr "statement.s", gin_encoded (se_s st)); (bstr "statement.h1", gin_encoded (se_h1 st));
   (bstr "statement.h2", gin_encoded (se_h2 st)); (bstr "statement.t1", gin_encoded (se_t1 st));
   (bstr "statement.t2", gin_encoded (se_t2 st));
   (bstr "statement.r", ps_encode_point (ProofStreamCurve:=GoutStreamCurve) (se_r_point st));
   (bstr "statement.beta", scalar_to_canonical (se_beta st))].
Definition statement_points (st : SecpSecqEvrfStatement) : list Gin :=
  [se_pk1 st; se_pk2 st; se_s st; se_h1 st; se_h2 st; se_t1 st; se_t2 st].
Definition nonzero_points (Ps : list Gin) : Prop := Forall (λ P, P ≠ cpoint_identity) Ps.

Lemma observe_gin_Ok {St} `{!Observe St} label P (s s' : St) u :
  observe_point GinStreamCurve label P Reject s = (Ok u, s') ↔
  P ≠ cpoint_identity ∧ s' = observe_bytes label (gin_encoded P) s.
Proof.
  etransitivity; [apply (observe_point_Ok GinStreamCurve)|].
  by pose proof (cycle_admits (CY:=gin_cycle) P) as [H1 H2]; naive_solver.
Qed.

Lemma observe_one_receiver_statement_Ok {St} `{!Observe St} `{!ObserveLaws St} st (s s' : St) u :
  observe_one_receiver_statement st s = (Ok u, s') ↔
  nonzero_points (statement_points st) ∧
  s' = with_transcript (append_all (statement_messages st) (transcript_of s)) s.
Proof.
  unfold observe_one_receiver_statement, nonzero_points, statement_points. rewrite !Forall_cons.
  split.
  - intros E. apply stateful_bind_Ok in E as ([] & s0 & [= <-] & E).
    do 7 (apply stateful_bind_Ok in E as ([] & ? & [? ->]%observe_gin_Ok & E)).
    apply stateful_bind_Ok in E as ([] & ? & [_ ->]%(observe_point_Ok GoutStreamCurve) & E).
    rewrite (observe_scalar_eq GoutStreamCurve) in E. injection E as _ <-. split; [by split_and!|].
    unfold observe_bytes. rewrite !with_transcript_twice, !transcript_of_with. reflexivity.
  - intros [(? & ? & ? & ? & ? & ? & ? & _) ->]. destruct u.
    apply stateful_bind_Ok. eexists (), _. split; [reflexivity|].
    do 7 (apply stateful_bind_Ok; eexists (), _; split; [apply observe_gin_Ok; split; [assumption|reflexivity]|]).
    apply stateful_bind_Ok; eexists (), _; split;
      [apply (observe_point_Ok GoutStreamCurve); split; [done|reflexivity]|].
    rewrite (observe_scalar_eq GoutStreamCurve).
    unfold observe_bytes. rewrite !with_transcript_twice, !transcript_of_with. reflexivity.
Qed.
End statement.

(** ** What the verifier accepts *)
Section verifier.
Context {EC : EvrfCurves} {ECL : EvrfCurveLaws} {ME : Merlin} {X : Shake256}.
Context {CC1 : CycleCodec (H:=gin_cycle)} {CC2 : CycleCodec (H:=gout_cycle)}.
#[local] Existing Instance gout_cycle | 0.
Context `{CryptoRngCore R}.

(** The public data of the circuit. *)
Record CircuitData := MkCircuitData {
  cd_s : Fp * Fp;
  cd_pc1 : ChordPrecomp;
  cd_pc2 : ChordPrecomp;
  cd_t1 : Fp * Fp;
  cd_t2 : Fp * Fp;
}.
Record circuit_data (st : SecpSecqEvrfStatement) (d : CircuitData) : Prop := MkCircuitDataOk {
  cdo_s : affine (se_s st) = Ok (cd_s d);
  cdo_h1 : se_h1 st = h_gin_1 (se_msg st);
  cdo_h2 : se_h2 st = h_gin_2 (se_msg st);
  cdo_pc1 : precompute_chord (se_h1 st) K_BITS = Ok (cd_pc1 d);
  cdo_pc2 : precompute_chord (se_h2 st) K_BITS = Ok (cd_pc2 d);
  cdo_t1 : affine (se_t1 st) = Ok (cd_t1 d);
  cdo_t2 : affine (se_t2 st) = Ok (cd_t2 d);
}.

Definition data_circuit (st : SecpSecqEvrfStatement) (d : CircuitData) (var_k var_r : CSVariable) : gadget unit :=
  build_one_receiver_r1cs var_k var_r (cd_s d).1 (cd_pc1 d) (cd_pc2 d)
    (cd_t1 d).1 (cd_t1 d).2 (cd_t2 d).1 (cd_t2 d).2 (se_beta st) (replicate (K_BITS + 1) None) None None.

(** The commitment to [k], with the one to the output that [R] determines, and the
    proof of the circuit over both. *)
Record R1csPart := MkR1csPart { rp_k : Gout; rp_proof : R1CSProof }.
Definition payload_bytes (st : SecpSecqEvrfStatement) (rp : R1csPart) : list byte :=
  compressed_as_bytes (point_compress (rp_k rp))
  ++ compressed_as_bytes (point_compress (se_r_point st ⊕ pc_B_blinding shared_pc_gens))
  ++ r1cs_to_bytes (rp_proof rp).
Definition circuit_verifier (st : SecpSecqEvrfStatement) (d : CircuitData) (rp : R1csPart) (t : Transcript)
    : option (result R1CSError unit * Verifier) :=
  run_circuit (data_circuit st d (Committed 0) (Committed 1))
    (verifier_commit (point_compress (se_r_point st ⊕ pc_B_blinding shared_pc_gens))
       (verifier_commit (point_compress (rp_k rp)) (Verifier_new t)).2).2.
Definition r1cs_accepted (gens : BulletproofGens) (st : SecpSecqEvrfStatement) (d : CircuitData)
    (rp : R1csPart) (t t' : Transcript) (rng rng' : R) : Prop :=
  r1cs_from_bytes (r1cs_to_bytes (rp_proof rp)) = Ok (rp_proof rp) ∧
  ∃ V, circuit_verifier st d rp t = Some (Ok (), V) ∧
    verify_and_return_transcript V (rp_proof rp) shared_pc_gens gens rng = (Some (Ok t'), rng').

Lemma one_receiver_check_Ok gens st d payload t (rng : R) u t' rng' :
  (len payload ≤ usize_MAX)%Z →
  one_receiver_check gens st (cd_s d).1 (cd_pc1 d) (cd_pc2 d) (cd_t1 d).1 (cd_t1 d).2 (cd_t2 d).1
    (cd_t2 d).2 payload (t, rng) = (Ok u, (t', rng')) ↔
  ∃ rp, payload = payload_bytes st rp ∧ r1cs_accepted gens st d rp t t' rng rng'.
Proof.
  intros Hu. unfold one_receiver_check, payload_bytes, r1cs_accepted, circuit_verifier, data_circuit. split.
  - match goal with |- context [match ?m with Ok _ => _ | Err _ => _ end] => destruct m as [[[v_k v_r] proof]|e] eqn:Ep end;
      [|done].
    apply bind_Ok in Ep as ([v_k1 e1] & E1 & Ep).
    apply (parse_nested_commitment_Ok []) in E1 as (K & r1 & -> & -> & ->); [|exact Hu].
    apply bind_Ok in Ep as ([v_r1 e2] & E2 & Ep).
    apply (parse_nested_commitment_Ok (compressed_as_bytes (point_compress K)) r1) in E2
      as (W & r2 & -> & -> & ->); [|exact Hu].
    rewrite app_assoc, get_range_rest in Ep. cbn [ok_or mbind result_bind] in Ep.
    apply bind_Ok in Ep as (p & [-> Hp]%parse_canonical_Ok & Ep).
    apply bind_Ok in Ep as ([] & Hlink%pedersen_prefix_link_Ok & [= <- <- <-]).
    rewrite Hlink. cbn [verifier_commit].
    match goal with |- context [match ?m with Some _ => _ | None => _ end] => destruct m as [[[[]|e] V]|] eqn:Erun end;
      [|done|done].
    destruct (verify_and_return_transcript V p shared_pc_gens gens rng) as [res rng1] eqn:Ev.
    destruct res as [[t1|e]|]; cbn [r1cs_result]; [|done|done]. intros [= _ <- <-].
    exists (MkR1csPart K p). cbn [rp_k rp_proof]. split; [reflexivity|]. split; [exact Hp|].
    exists V. split; [exact Erun|exact Ev].
  - intros ([K p] & -> & Hp & V & Hrun & Hv). cbn [rp_k rp_proof] in *.
    set (W := se_r_point st ⊕ pc_B_blinding shared_pc_gens) in *.
    set (bK := compressed_as_bytes (point_compress K)) in *.
    set (bW := compressed_as_bytes (point_compress W)) in *. set (bp := r1cs_to_bytes p) in *.
    assert (E1 : parse_nested_commitment (bK ++ bW ++ bp) 0 Allow = Ok (point_compress K, len bK))
      by (apply (parse_nested_commitment_Ok []); [exact Hu|]; do 2 eexists; split; [reflexivity|split; reflexivity]).
    assert (E2 : parse_nested_commitment (bK ++ bW ++ bp) (len bK) Allow = Ok (point_compress W, len (bK ++ bW)))
      by (apply (parse_nested_commitment_Ok bK); [exact Hu|]; do 2 eexists; split; [reflexivity|split; reflexivity]).
    rewrite E1. cbn [mbind result_bind]. rewrite E2.
    cbn [mbind result_bind]. rewrite app_assoc, get_range_rest. cbn [ok_or mbind result_bind].
    rewrite (proj2 (parse_canonical_Ok bp p)) by exact (conj eq_refl Hp). cbn [mbind result_bind].
    rewrite (proj2 (pedersen_prefix_link_Ok _ _ (point_compress W) ())) by reflexivity. cbn [mbind result_bind].
    unfold verifier_commit in Hrun |- *. cbn [snd v_core v_deferred v_V Verifier_new length app] in Hrun |- *.
    rewrite Hrun, Hv. cbn [r1cs_result]. by destruct u.
Qed.

Lemma one_receiver_id_len : is_u32 (len ONE_RECEIVER_PROOF_ID).
Proof. split; vm_compute; congruence. Qed.

(** The circuit's public data, as the code computes it. *)
Lemma circuit_data_computed st d :
  circuit_data st d ↔
  affine (se_s st) = Ok (cd_s d) ∧ check_hash_bases st = Ok (h_gin_1 (se_msg st), h_gin_2 (se_msg st)) ∧
  precompute_chord (h_gin_1 (se_msg st)) K_BITS = Ok (cd_pc1 d) ∧
  precompute_chord (h_gin_2 (se_msg st)) K_BITS = Ok (cd_pc2 d) ∧
  affine (se_t1 st) = Ok (cd_t1 d) ∧ affine (se_t2 st) = Ok (cd_t2 d).
Proof.
  assert (Hbases : check_hash_bases st = Ok (h_gin_1 (se_msg st), h_gin_2 (se_msg st)) ↔
    se_h1 st = h_gin_1 (se_msg st) ∧ se_h2 st = h_gin_2 (se_msg st)).
  { unfold check_hash_bases. rewrite !(same_encoding_spec (CY:=gin_cycle)).
    destruct (bool_decide_reflect (h_gin_1 (se_msg st) = se_h1 st)) as [E1|E1];
      destruct (bool_decide_reflect (h_gin_2 (se_msg st) = se_h2 st)) as [E2|E2]; cbn [negb orb];
      (split; [try discriminate; intros _; split; congruence|]).
    - reflexivity.
    - intros [_ E]. by destruct E2.
    - intros [E _]. by destruct E1.
    - intros [E _]. by destruct E1. }
  split.
  - intros [H1 H2 H3 H4 H5 H6 H7]. rewrite Hbases. rewrite H2 in H4. rewrite H3 in H5. tauto.
  - intros (H1 & Hb & H4 & H5 & H6 & H7). apply Hbases in Hb as [H2 H3].
    split; [exact H1|exact H2|exact H3|rewrite H2; exact H4|rewrite H3; exact H5|exact H6|exact H7].
Qed.

Record OneReceiverProof := MkOneReceiverProof {
  orp_cp : CpProof;
  orp_r1cs : R1csPart;
  orp_dlog : DlogProof;
}.
Definition one_receiver_bytes (st : SecpSecqEvrfStatement) (π : OneReceiverProof) : list byte :=
  let payload := payload_bytes st (orp_r1cs π) in
  stream_header ONE_RECEIVER_PROOF_ID ++ cp_bytes (orp_cp π)
  ++ (to_be_bytes 8 (len payload) ++ payload) ++ dlog_bytes (orp_dlog π).
Definition start_transcript (st : SecpSecqEvrfStatement) : Transcript :=
  append_all (statement_messages st) (transcript_new ONE_RECEIVER_PROOF_ID).

Definition one_receiver_accepted (gens : BulletproofGens) (st : SecpSecqEvrfStatement)
    (π : OneReceiverProof) (rng rng' : R) : Prop :=
  nonzero_points (statement_points st) ∧
  cp_accepted cpoint_generator (se_pk1 st) (se_pk2 st) (se_s st) (start_transcript st) (orp_cp π) ∧
  ∃ d t, circuit_data st d ∧
    r1cs_accepted gens st d (orp_r1cs π) (cp_transcript (orp_cp π) (start_transcript st)) t rng rng' ∧
    dlog_accepted cpoint_generator (se_r_point st) t (orp_dlog π).

Lemma evrf_verify_Ok threads st proof (rng rng' : R) u :
  (len proof ≤ usize_MAX)%Z →
  evrf_verify threads st proof rng = (Ok u, rng') ↔
  ∃ gens π, shared_bp_gens threads = Some gens ∧ proof = one_receiver_bytes st π ∧
    one_receiver_accepted gens st π rng rng'.
Proof.
  intros Hu. unfold evrf_verify. split.
  - destruct (_ ≫= _) as [[gens s]|e] eqn:E0; [|done].
    apply bind_Ok in E0 as (gens' & Hg%ok_or_Ok & E0). apply bind_Ok in E0 as (s' & Hs%map_err_Ok & [= <- <-]).
    apply (verifier_new_Ok _ _ _ one_receiver_id_len Hu) in Hs as (body & -> & ->).
    destruct (mbind (M:=stateful _ _) _ _ _) as [[[]|e] [s1 rng1]] eqn:Em; [|done].
    cbn [mbind result_bind]. intros [= Hfin <-]. apply map_err_Ok in Hfin.
    apply stateful_bind_Ok in Em as ([] & [s2 r2] & [E2 ->]%on_stream_Ok & Em).
    apply observe_one_receiver_statement_Ok in E2 as [Hpts ->].
    change (with_transcript _ (stream_at _ _ _))
      with (stream_at (start_transcript st) (stream_header ONE_RECEIVER_PROOF_ID) body) in Em.
    apply stateful_bind_Ok in Em as ([] & [s3 r3] & [E3 ->]%on_stream_Ok & Em).
    apply chaum_pedersen_verify_Ok in E3 as (cp & rest & -> & Hcp & ->); [|exact Hu].
    apply stateful_bind_Ok in Em as ([s_x s_y] & s4 & [Hs%map_err_Ok ->]%lift_Ok & Em).
    apply stateful_bind_Ok in Em as ([h1 h2] & s5 & [Hh%map_err_Ok ->]%lift_Ok & Em).
    apply stateful_bind_Ok in Em as (pc1 & s6 & [Hpc1%map_err_Ok ->]%lift_Ok & Em).
    apply stateful_bind_Ok in Em as (pc2 & s7 & [Hpc2%map_err_Ok ->]%lift_Ok & Em).
    apply stateful_bind_Ok in Em as ([t1_x t1_y] & s8 & [Ht1%map_err_Ok ->]%lift_Ok & Em).
    apply stateful_bind_Ok in Em as ([t2_x t2_y] & s9 & [Ht2%map_err_Ok ->]%lift_Ok & Em).
    assert (h1 = h_gin_1 (se_msg st) ∧ h2 = h_gin_2 (se_msg st)) as [-> ->].
    { unfold check_hash_bases in Hh. destruct (_ || _)%bool; [discriminate|].
      injection Hh as <- <-. split; reflexivity. }
    set (d := MkCircuitData (s_x, s_y) pc1 pc2 (t1_x, t1_y) (t2_x, t2_y)).
    assert (Hd : circuit_data st d) by (apply circuit_data_computed; by split_and!).
    apply stateful_bind_Ok in Em as ([] & [s10 r10] & E10 & Em).
    apply receive_nested_Ok in E10 as (payload & rest' & t' & -> & Hcheck & ->);
      [|revert Hu; unfold len; rewrite !length_app; lia].
    apply (one_receiver_check_Ok gens' st d) in Hcheck as (rp & -> & Hrp);
      [|revert Hu; unfold len; rewrite !length_app; lia].
    apply on_stream_Ok in Em as [Em ->].
    apply dlog_verify_Ok in Em as (dl & rest'' & -> & Hdl & ->);
      [|revert Hu; unfold len; rewrite !length_app; lia].
    destruct u. apply verifier_finish_Ok in Hfin as ->.
    exists gens', (MkOneReceiverProof cp rp dl). split; [exact Hg|]. split.
    { unfold one_receiver_bytes. cbn [orp_cp orp_r1cs orp_dlog]. by rewrite app_nil_r, <-!app_assoc. }
    split; [exact Hpts|]. split; [exact Hcp|]. exists d, t'. split; [exact Hd|]. split; [exact Hrp|exact Hdl].
  - intros (gens & [cp rp dl] & Hg & -> & Hpts & Hcp & d & t & Hd & Hrp & Hdl).
    unfold one_receiver_bytes in *. cbn [orp_cp orp_r1cs orp_dlog] in *.
    rewrite Hg. cbn [ok_or mbind result_bind].
    rewrite (proj2 (verifier_new_Ok _ _ _ one_receiver_id_len Hu)) by (eexists; split; reflexivity).
    cbn [map_err mbind result_bind].
    apply circuit_data_computed in Hd as (Hs & Hb & Hpc1 & Hpc2 & Ht1 & Ht2).
    assert (Hfit : ∀ l : list byte, (len l ≤ len (stream_header ONE_RECEIVER_PROOF_ID ++ cp_bytes cp
      ++ (to_be_bytes 8 (len (payload_bytes st rp)) ++ payload_bytes st rp) ++ dlog_bytes dl))%Z →
      (len l ≤ usize_MAX)%Z) by (intros; lia).
    match goal with |- (let '(_, _) := ?e in _) = _ =>
      assert (∃ t' pre, e = (Ok (), (stream_at t' pre [], rng'))) as (t' & pre & ->) end.
    2: { cbn [mbind result_bind]. rewrite (proj2 (verifier_finish_Ok t' pre []) eq_refl). by destruct u. }
    eexists _, _.
    apply stateful_bind_Ok. eexists (), (_, _). split.
    { apply on_stream_Ok. split; [|reflexivity]. apply observe_one_receiver_statement_Ok.
      split; [exact Hpts|reflexivity]. }
    change (with_transcript _ (stream_at _ ?a ?b)) with (stream_at (start_transcript st) a b).
    apply stateful_bind_Ok. eexists (), (_, _). split.
    { apply on_stream_Ok. split; [|reflexivity]. apply chaum_pedersen_verify_Ok; [exact Hu|].
      eexists cp, _. split; [reflexivity|]. split; [exact Hcp|reflexivity]. }
    apply stateful_bind_Ok. exists (cd_s d). eexists (_, _). split; [rewrite Hs; reflexivity|].
    destruct (cd_s d) as [s_x s_y] eqn:Es.
    apply stateful_bind_Ok. eexists (_, _), (_, _). split; [rewrite Hb; reflexivity|].
    apply stateful_bind_Ok. exists (cd_pc1 d). eexists (_, _). split; [rewrite Hpc1; reflexivity|].
    apply stateful_bind_Ok. exists (cd_pc2 d). eexists (_, _). split; [rewrite Hpc2; reflexivity|].
    apply stateful_bind_Ok. exists (cd_t1 d). eexists (_, _). split; [rewrite Ht1; reflexivity|].
    destruct (cd_t1 d) as [t1_x t1_y] eqn:E1.
    apply stateful_bind_Ok. exists (cd_t2 d). eexists (_, _). split; [rewrite Ht2; reflexivity|].
    destruct (cd_t2 d) as [t2_x t2_y] eqn:E2.
    apply stateful_bind_Ok. eexists (), (_, _). split.
    { apply receive_nested_Ok; [apply Hfit; unfold len; rewrite !length_app; lia|].
      eexists (payload_bytes st rp), (dlog_bytes dl), t. rewrite <-!app_assoc. split; [reflexivity|].
      split; [|reflexivity].
      pose proof (one_receiver_check_Ok gens st d (payload_bytes st rp)
        (cp_transcript cp (start_transcript st)) rng () t rng') as Hc.
      rewrite Es, E1, E2 in Hc. apply Hc; [apply Hfit; unfold len; rewrite !length_app; lia|].
      exists rp. split; [reflexivity|exact Hrp]. }
    apply on_stream_Ok. split; [|reflexivity]. apply dlog_verify_Ok;
      [rewrite <-!app_assoc; apply Hfit; unfold len; rewrite !length_app; lia|].
    exists dl, []. rewrite app_nil_r. split; [reflexivity|]. split; [exact Hdl|reflexivity].
Qed.
End verifier.

(** ** Properties *)
Section properties.
Context {EC : EvrfCurves} {ECL : EvrfCurveLaws} {ME : Merlin} {X : Shake256}.
Context {CC1 : CycleCodec (H:=gin_cycle)} {CC2 : CycleCodec (H:=gout_cycle)}.
#[local] Existing Instance gout_cycle | 0.
Context `{CryptoRngCore R}.

(** C8: the verifier of the one-receiver proof accepts exactly one language.  It
    accepts a byte string if and only if the string is the framed encoding, with no
    trailing byte, of a Chaum-Pedersen proof, a commitment to the exponent with an R1CS
    proof in canonical form, and a proof of the logarithm of the output, such that: none
    of the two keys, the shared point, the hash bases and their powers is the identity
    (the output point may be); the hash bases of the statement are those
    of its message; the Chaum-Pedersen equations hold for the keys and the shared point;
    the R1CS verifier accepts the proof for the circuit over the statement's data, with
    the commitment to the output that its point determines; and the logarithm equation
    holds; each at the challenge of the one transcript that absorbed the statement and
    everything before it. *)
Theorem evrf_verify_exact threads st proof (rng rng' : R) :
  (len proof ≤ usize_MAX)%Z →
  evrf_verify threads st proof rng = (Ok (), rng') ↔
  ∃ gens π, shared_bp_gens threads = Some gens ∧ proof = one_receiver_bytes st π ∧
    one_receiver_accepted gens st π rng rng'.
Proof. apply evrf_verify_Ok. Qed.
End properties.

Definition toy_statement : SecpSecqEvrfStatement (EC:=ToyCurves) :=
  MkSecpSecqEvrfStatement (EC:=ToyCurves) (replicate 32 x07) (toy 3) (toy 3) (toy 9) (toy 5) (toy 11)
    (toy 45) (toy 99) (toy 23698) (toy 3).

(** Whatever the bytes: a statement with other hash bases than those of its message is
    refused, and so is one in which a key is the identity. *)
Definition toy_identity_statement : SecpSecqEvrfStatement (EC:=ToyCurves) :=
  MkSecpSecqEvrfStatement (EC:=ToyCurves) (replicate 32 x07) (toy 0) (toy 3) (toy 0) (toy 4605) (toy 47764)
    (toy 45) (toy 99) (toy 23698) (toy 3).
Lemma evrf_verify_exact_witness :
  (len (replicate 3 x01) ≤ usize_MAX)%Z ∧
  ∀ proof rng', (len proof ≤ usize_MAX)%Z →
    evrf_verify (EC:=ToyCurves) (ME:=ToyMerlin) 4 toy_statement proof () ≠ (Ok (), rng') ∧
    evrf_verify (EC:=ToyCurves) (ME:=ToyMerlin) 4 toy_identity_statement proof () ≠ (Ok (), rng').
Proof.
  split; [vm_compute; congruence|]. intros proof rng' Hu.
  pose proof (λ st, evrf_verify_exact (EC:=ToyCurves) (ECL:=ToyCurves_laws) (ME:=ToyMerlin)
    (CC1:=ToyCycle_codec) (CC2:=ToyCycle_codec) 4 st proof () rng' Hu) as Hiff.
  split; intros E.
  - apply Hiff in E as (gens & π & _ & _ & _ & _ & d & t & [_ Hh _ _ _ _ _] & _).
    apply (f_equal toy_val) in Hh. vm_compute in Hh. discriminate.
  - apply Hiff in E as (gens & π & _ & _ & Hpts & _).
    unfold nonzero_points, statement_points in Hpts. rewrite Forall_cons in Hpts.
    destruct Hpts as [Hpk _]. apply Hpk. vm_refl.
Defined.
