(* ===== verification/EvrfOneReceiverComplete.v ===== *)
(** * Completeness of the one-receiver proof (golden-evrf/paper.rs, module secp_secq)

    The prover returns a proof of every true statement, and the verifier accepts it. *)

From Stdlib Require Import ZArith Lia Field Strings.Byte.
From stdpp Require Import prelude strings list_numbers.
From S2P Require Import Prelude CoreError Group Algebra TestSupport Sampling Cycle BpUtil InnerProduct ConstraintSystem Generators R1csProof Prover Verifier R1csSync R1csComplete CircuitLogic R1csOnePhase EvrfBits EvrfCurves EvrfToy EvrfChord ProofStream EvrfSigma EvrfOneReceiver EvrfOneReceiverProof.

Local Open Scope golden_scope.

Section complete.
Context {EC : EvrfCurves} {ECL : EvrfCurveLaws} {ME : Merlin} {X : Shake256}.
Context {CC1 : CycleCodec (H:=gin_cycle)} {CC2 : CycleCodec (H:=gout_cycle)} {CH : CycleHash (CY:=gout_cycle)}.
#[local] Existing Instance gout_cycle | 0.
Add Ring complete_ring : (ideal_ring_theory (H:=gout_cycle)).
Context `{CryptoRngCore R}.

(** The bits of the exponent, and the statements that are true for a key. *)
Definition exponent_bits (d : CircuitData) : list bool := decompose_k_fp (cd_s d).1 (K_BITS + 1).
Definition exponent (d : CircuitData) : Fq := of_Z (le_value (fp_to_repr (cd_s d).1)).
Definition output (st : SecpSecqEvrfStatement) (d : CircuitData) : Fp :=
  se_beta st * (cd_t1 d).1 + (cd_t2 d).1.

Record one_receiver_true (st : SecpSecqEvrfStatement) (w : SecpSecqEvrfWitness) (d : CircuitData)
    (wit1 wit2 : ChordWitness) : Prop := MkOneReceiverTrue {
  ort_points : nonzero_points (statement_points st);
  ort_key : se_pk1 st = cpoint_generator ⊙ se_sk1 w;
  ort_s : se_s st = se_pk2 st ⊙ se_sk1 w;
  ort_data : circuit_data st d;
  ort_chord1 : chord_computed (se_h1 st) (exponent_bits d) (cd_pc1 d) wit1;
  ort_chord2 : chord_computed (se_h2 st) (exponent_bits d) (cd_pc2 d) wit2;
  ort_t1 : se_t1 st = se_h1 st ⊙ exponent d;
  ort_t2 : se_t2 st = se_h2 st ⊙ exponent d;
  ort_r : se_r_point st = cpoint_generator ⊙ output st d;
}.

Lemma true_relation st w d wit1 wit2 :
  one_receiver_true st w d wit1 wit2 →
  one_receiver_relation (se_h1 st) (se_h2 st) (cd_s d).1 (se_beta st) (cd_t1 d) (cd_t2 d) (cd_s d).1
    (output st d) (exponent_bits d).
Proof.
  intros [_ _ _ [_ _ _ _ _ A1 A2] _ _ T1 T2 _]. split; try done.
  - symmetry. apply decompose_k_fp_image.
  - apply decompose_k_fp_below.
  - unfold exponent_bits. rewrite decompose_k_fp_value. change (of_Z _) with (exponent d). by rewrite <-T1.
  - unfold exponent_bits. rewrite decompose_k_fp_value. change (of_Z _) with (exponent d). by rewrite <-T2.
Qed.

(** The shared generators are enough for a circuit of up to 8192 multipliers. *)
Lemma shared_gens_cover threads n :
  (n ≤ R1CS_GENS_CAPACITY)%nat →
  ∃ gens, shared_bp_gens threads = Some gens ∧ generators_cover gens n.
Proof.
  intros Hn. destruct (gens_new_run threads R1CS_GENS_CAPACITY 1 cache_empty cache_empty_ok)
    as (gens & cache & Hrun & _ & Hcap & _ & Hgens).
  exists gens. unfold shared_bp_gens. rewrite Hrun. split; [done|].
  destruct (Hgens 0%nat ltac:(lia)) as [(i & Hi & HG) (j & Hj & HH)].
  split; [by rewrite Hcap|]. eexists _, _. split; [exact HG|]. split; [exact HH|].
  rewrite !length_generators. lia.
Qed.

(** The multipliers of the circuit, and their padding. *)
Definition one_receiver_multipliers : nat := Z.to_nat 1426.
Lemma one_receiver_padded : next_power_of_two one_receiver_multipliers = Z.to_nat 2048.
Proof. vm_compute. reflexivity. Qed.

(** The cases, negligible for random challenges, in which the proof is refused. *)
Definition one_receiver_unexceptional (st : SecpSecqEvrfStatement) (π : OneReceiverProof) : Prop :=
  ∀ d V, circuit_data st d →
    circuit_verifier st d (orp_r1cs π) (cp_transcript (orp_cp π) (start_transcript st)) = Some (Ok (), V) →
    r1cs_unexceptional (rp_proof (orp_r1cs π)) (num_vars (v_core V)) (length (v_V (v_core V)))
      (v_transcript (v_core V)).
(** *** The framed R1CS proof *)
Definition payload_run (gens : BulletproofGens) (st : SecpSecqEvrfStatement) (d : CircuitData)
    (wit1 wit2 : ChordWitness) : stateful (Transcript * R) (option CoreError) (list byte) :=
  one_receiver_payload gens (cd_s d).1 (output st d) (cd_s d).1 (cd_pc1 d) (cd_pc2 d)
    (cd_t1 d).1 (cd_t1 d).2 (cd_t2 d).1 (cd_t2 d).2 (se_beta st) (bit_options (exponent_bits d)) wit1 wit2.

(** Points are short enough for the lengths of a proof to fit a word. *)
Definition points_short : Prop :=
  (Z.of_nat (COMPRESSED_BYTES (Cycle:=gin_cycle)) ≤ 2 ^ 32)%Z ∧
  (Z.of_nat (COMPRESSED_BYTES (Cycle:=gout_cycle)) ≤ 2 ^ 32)%Z.

Lemma prover_circuit st w d wit1 wit2 t k_blinding :
  one_receiver_true st w d wit1 wit2 →
  let '((V_k, var_k), P0) := prover_commit (cd_s d).1 k_blinding (Prover_new shared_pc_gens t) in
  let '((V_r, var_r), P1) := prover_commit (output st d) 1 P0 in
  V_r = point_compress (se_r_point st ⊕ pc_B_blinding shared_pc_gens) ∧
  ∃ P V,
    run_circuit (build_one_receiver_r1cs var_k var_r (cd_s d).1 (cd_pc1 d) (cd_pc2 d)
      (cd_t1 d).1 (cd_t1 d).2 (cd_t2 d).1 (cd_t2 d).2 (se_beta st) (bit_options (exponent_bits d))
      (Some wit1) (Some wit2)) P1 = Some (Ok (), P) ∧
    run_circuit (data_circuit st d var_k var_r)
      (verifier_commit V_r (verifier_commit V_k (Verifier_new t)).2).2 = Some (Ok (), V) ∧
    honest (p_core P) ∧ full_sync P V ∧ p_deferred P = [] ∧ p_pc_gens (p_core P) = shared_pc_gens ∧
    length (a_L (p_secrets (p_core P))) = one_receiver_multipliers ∧
    num_vars (v_core V) = one_receiver_multipliers.
Proof.
  intros Ht. pose proof (true_relation _ _ _ _ _ Ht) as Hrel. destruct Ht as [_ _ _ _ Hc1 Hc2 _ _ HR].
  pose proof (commit_sync _ _ (cd_s d).1 k_blinding (new_sync shared_pc_gens t)) as Hs.
  pose proof (honest_commit _ (cd_s d).1 k_blinding (honest_new shared_pc_gens t)) as Hh.
  destruct (prover_commit (cd_s d).1 k_blinding _) as [[V_k var_k] P0] eqn:EP.
  destruct (verifier_commit V_k (Verifier_new t)) as [var_k' V0] eqn:EV. cbn [snd].
  destruct Hs as [<- Hs], Hh as (Hh & _ & Hk).
  pose proof (commit_sync _ _ (output st d) 1 Hs) as Hs'. pose proof (honest_commit _ (output st d) 1 Hh) as Hh'.
  destruct (prover_commit (output st d) 1 P0) as [[V_r var_r] P1] eqn:EP'.
  destruct (verifier_commit V_r V0) as [var_r' V1] eqn:EV'. cbn [snd].
  destruct Hs' as [<- Hs'], Hh' as (Hh' & HΓ & Hr). apply HΓ in Hk.
  assert (HV1 : counted V1 0%nat 0%nat) by (injection EV as _ <-; injection EV' as _ <-; by split).
  assert (HP1 : p_deferred P1 = [] ∧ p_pc_gens (p_core P1) = shared_pc_gens)
    by (injection EP as _ _ <-; injection EP' as _ _ <-; by split).
  assert (HVr : V_r = point_compress (se_r_point st ⊕ pc_B_blinding shared_pc_gens)).
  { injection EP as _ _ <-. injection EP' as <- _ _. f_equal. cbn [p_core p_pc_gens Prover_new].
    rewrite pc_commit_spec, cpoint_mul_1, HR. done. }
  split; [exact HVr|].
  destruct (produces_run _ _ P1 Hh'
    (one_receiver_complete (se_h1 st) (se_h2 st) (cd_pc1 d) (cd_pc2 d) wit1 wit2 (exponent_bits d) Hc1 Hc2
      (cd_s d).1 (se_beta st) (cd_t1 d) (cd_t2 d) (known_by (p_core P1)) var_k var_r _ _
      (known_one _) Hk Hr Hrel)) as (res & P & Hrun & HhP & HdP & HgP & _ & [] & -> & _).
  destruct (run_circuit_simulation (Rel:=full_sync) _ (data_circuit st d var_k var_r) P1 V1 _ P
    (gsimilar_same _ _ (one_receiver_similar (se_h1 st) (se_h2 st) (cd_pc1 d) (cd_pc2 d) wit1 wit2
      (exponent_bits d) Hc1 Hc2 (cd_s d).1 (se_beta st) (cd_t1 d) (cd_t2 d) var_k var_r _
      (eq_trans (length_replicate (K_BITS + 1) None) (eq_sym (length_decompose_k_fp _ _))))) Hs' Hrun) as (V & HV & HsV).
  destruct (gsized_run _ 1410%nat 32%nat _ V1
    (one_receiver_sized (se_h1 st) (se_h2 st) (cd_pc1 d) (cd_pc2 d) wit1 wit2 (exponent_bits d) Hc1 Hc2
      (cd_s d).1 (se_beta st) (cd_t1 d) (cd_t2 d) var_k var_r (replicate (K_BITS + 1) None) (length_replicate _ _)) HV1)
    as ([] & V' & HV' & [Hnum _] & _).
  unfold data_circuit in HV. rewrite HV in HV'. injection HV' as <-.
  exists P, V. split; [exact Hrun|]. split; [exact HV|]. split; [exact HhP|]. split; [exact HsV|].
  destruct HP1 as [HdP1 HgP1]. rewrite HdP, HgP. split; [exact HdP1|]. split; [exact HgP1|].
  assert (Hn : num_vars (v_core V) = one_receiver_multipliers) by (rewrite Hnum; vm_compute; reflexivity).
  split; [|exact Hn]. destruct HsV as [HsV _]. by rewrite (sync_L _ _ HsV).
Qed.
(** The bytes of a proof of this circuit fit. *)
Lemma payload_size proof (K W : Gout) :
  points_short → (length (ipp_L_vec (ipp_proof proof)) ≤ original_rounds (Z.to_nat 2048) + Z.to_nat 2048)%nat →
  (len (compressed_as_bytes (point_compress K) ++ compressed_as_bytes (point_compress W) ++ r1cs_to_bytes proof)
   ≤ 2 ^ 45)%Z.
Proof.
  intros [_ Hshort] Hrounds. pose proof (length_r1cs_to_bytes proof) as Hl.
  assert (Ho : original_rounds (Z.to_nat 2048) = 11%nat) by reflexivity. rewrite Ho in Hrounds.
  unfold len. rewrite !length_app, !length_compressed.
  set (c := @COMPRESSED_BYTES gout_cycle) in *. set (m := length (ipp_L_vec _)) in *.
  set (b := length (r1cs_to_bytes proof)) in *. clearbody c m b.
  assert (Hm : (Z.of_nat m ≤ 2059)%Z) by lia.
  assert (Hmc : (Z.of_nat m * Z.of_nat c ≤ 2059 * 2 ^ 32)%Z) by (apply Z.mul_le_mono_nonneg; lia).
  nia.
Qed.

Lemma payload_total {R'} `{CryptoRngCore R'} st w d wit1 wit2 gens t (rng : R) :
  one_receiver_true st w d wit1 wit2 → generators_cover gens (Z.to_nat 2048) → points_short →
  ∃ rp t' rng',
    payload_run gens st d wit1 wit2 (t, rng) = (Ok (payload_bytes st rp), (t', rng')) ∧
    (len (payload_bytes st rp) ≤ 2 ^ 45)%Z ∧
    ((∀ V, circuit_verifier st d rp t = Some (Ok (), V) →
       r1cs_unexceptional (rp_proof rp) (num_vars (v_core V)) (length (v_V (v_core V)))
         (v_transcript (v_core V))) →
     ∀ rng1 : R', ∃ rng2, r1cs_accepted gens st d rp t t' rng1 rng2).
Proof.
  intros Ht Hgens Hshort. unfold payload_run, one_receiver_payload.
  destruct (random_scalar rng) as [k_blinding rng1]. pose proof (prover_circuit st w d wit1 wit2 t k_blinding Ht) as Hp.
  destruct (prover_commit (cd_s d).1 k_blinding _) as [[V_k var_k] P0] eqn:E0.
  destruct (prover_commit (output st d) 1 P0) as [[V_r var_r] P1] eqn:E1.
  destruct Hp as (-> & P & V & Hrun & HV & Hh & Hs & Hd & Hg & HnP & HnV). rewrite Hrun.
  destruct (one_phase_total P gens rng1 Hh Hd) as (proof & t' & rng' & Hprove).
  { rewrite HnP, one_receiver_padded. exact Hgens. }
  rewrite Hprove. cbn [r1cs_result].
  pose proof (one_phase_rounds P gens rng1 rng' proof t' Hd Hprove) as Hrounds. cbv zeta in Hrounds.
  rewrite HnP, one_receiver_padded in Hrounds.
  assert (HK : ∃ K, V_k = point_compress K) by (injection E0 as <- _ _; by eexists). destruct HK as [K ->].
  assert (Hvars : var_k = Committed 0 ∧ var_r = Committed 1).
  { injection E0 as _ <- <-. injection E1 as _ <- _. by split. }
  destruct Hvars as [-> ->].
  pose proof (payload_size proof K (se_r_point st ⊕ pc_B_blinding shared_pc_gens) Hshort Hrounds) as Hsize.
  exists (MkR1csPart K proof), t', rng'. split; [|split; [exact Hsize|]].
  - unfold checked_mul, checked_add. rewrite bool_decide_eq_true_2 by (destruct Hshort; unfold usize_MAX; lia).
    cbn [ok_or mbind result_bind]. rewrite bool_decide_eq_true_2.
    { reflexivity. }
    revert Hsize. unfold len. rewrite !length_app, !length_compressed. unfold usize_MAX. lia.
  - intros Hex rv. unfold r1cs_accepted, circuit_verifier. cbn [rp_k rp_proof].
    specialize (Hex V HV). cbn [rp_proof] in Hex.
    destruct (one_phase_complete (R':=R') P V gens rng1 rng' proof t' Hs Hh Hd) as [Hcanon Hacc];
      [rewrite HnV; apply Nat.ltb_lt; vm_compute; reflexivity|exact Hprove|exact Hex|].
    rewrite Hg in Hacc. specialize (Hacc rv).
    destruct (verify_and_return_transcript V proof shared_pc_gens gens rv) as [res rng2] eqn:Ev.
    cbn [fst] in Hacc. subst res. exists rng2. split; [exact Hcanon|]. exists V. split; [exact HV|exact Ev].
Qed.
(** *** The whole proof *)
#[local] Instance gin_laws2 : ProofStreamLaws (H:=GinStreamCurve) := CycleCurve_laws.
#[local] Instance gout_laws2 : ProofStreamLaws (H:=GoutStreamCurve) := CycleCurve_laws.

Lemma one_receiver_size st π :
  points_short → (len (payload_bytes st (orp_r1cs π)) ≤ 2 ^ 45)%Z →
  (len (one_receiver_bytes st π) ≤ usize_MAX)%Z.
Proof.
  intros [H1 H2] Hp. unfold one_receiver_bytes, cp_bytes, dlog_bytes, stream_header.
  unfold len in *. rewrite !length_app, !length_to_be_bytes.
  pose proof (len_encode_point (H:=GinStreamCurve)) as E1. pose proof (len_encode_point (H:=GoutStreamCurve)) as E2.
  pose proof (len_encode_scalar (H:=GinStreamCurve)) as E3. pose proof (len_encode_scalar (H:=GoutStreamCurve)) as E4.
  specialize (E1 (cp_r1 (orp_cp π))) as E1a. specialize (E1 (cp_r2 (orp_cp π))) as E1b.
  specialize (E2 (dlog_a (orp_dlog π))). specialize (E3 (cp_z (orp_cp π))). specialize (E4 (dlog_t (orp_dlog π))).
  unfold len in *. change (POINT_BYTES (ProofStreamCurve:=GinStreamCurve)) with (Z.of_nat (COMPRESSED_BYTES (Cycle:=gin_cycle))) in *.
  change (POINT_BYTES (ProofStreamCurve:=GoutStreamCurve)) with (Z.of_nat (COMPRESSED_BYTES (Cycle:=gout_cycle))) in *.
  change (SCALAR_BYTES (ProofStreamCurve:=GinStreamCurve)) with 32%Z in *.
  change (SCALAR_BYTES (ProofStreamCurve:=GoutStreamCurve)) with 32%Z in *.
  change (length ONE_RECEIVER_PROOF_ID) with 33%nat. unfold usize_MAX. lia.
Qed.

Lemma evrf_prove_complete {R'} `{CryptoRngCore R'} n fuel threads st w d wit1 wit2 (rng : R) :
  one_receiver_true st w d wit1 wit2 → points_short →
  (cpoint_generator : Gin) ≠ cpoint_identity → (cpoint_generator : Gout) ≠ cpoint_identity →
  (∀ rng : R, draws_nonzero (F:=Fq) n rng) → (∀ rng : R, draws_nonzero (F:=Fp) n rng) → (n ≤ fuel)%nat →
  ∃ π rng', evrf_prove fuel threads st w rng = (Ok (one_receiver_bytes st π), rng') ∧
    (len (one_receiver_bytes st π) ≤ usize_MAX)%Z ∧
    (one_receiver_unexceptional st π → ∀ rng1 : R', ∃ gens rng2,
       shared_bp_gens threads = Some gens ∧ one_receiver_accepted gens st π rng1 rng2).
Proof.
  intros Ht Hshort Hgin Hgout Hdq Hdp Hn.
  destruct (shared_gens_cover threads (Z.to_nat 2048)) as (gens & Hgens & Hcover);
    [unfold R1CS_GENS_CAPACITY; lia|].
  set (t0 := start_transcript st). set (h0 := stream_header ONE_RECEIVER_PROOF_ID).
  pose proof Ht as [Hpts Hkey Hs Hdata Hc1 Hc2 HT1 HT2 HR].
  pose proof (proj1 (circuit_data_computed st d) Hdata) as (Hs_xy & Hbases & Hpc1 & Hpc2 & Ht1 & Ht2).
  assert (Hpk2 : se_pk2 st ≠ cpoint_identity)
    by (unfold nonzero_points, statement_points in Hpts; rewrite !Forall_cons in Hpts; tauto).
  destruct (chaum_pedersen_prove_total n fuel cpoint_generator (se_pk2 st) (se_sk1 w)
    (MkProverProofStream t0 h0) rng Hgin Hpk2 (Hdq rng) Hn) as (s1 & rng1 & Ecp).
  pose proof (chaum_pedersen_prove_Ok _ _ _ _ _ _ _ _ _ _ Ecp) as (cp & -> & Hcp).
  rewrite <-Hkey, <-Hs in Hcp.
  destruct (payload_total (R':=R') st w d wit1 wit2 gens (cp_transcript cp t0) rng1 Ht Hcover Hshort)
    as (rp & t2 & rng2 & Erp & Hsize & Hacc).
  set (payload := payload_bytes st rp) in *.
  destruct (dlog_prove_total n fuel cpoint_generator (output st d)
    (MkProverProofStream t2 ((h0 ++ cp_bytes cp) ++ to_be_bytes 8 (len payload) ++ payload)) rng2 Hgout (Hdp rng2) Hn)
    as (s3 & rng3 & Edl).
  pose proof (dlog_prove_Ok _ _ _ _ _ _ _ _ _ Edl) as (dl & -> & Hdl). rewrite <-HR in Hdl.
  set (π := MkOneReceiverProof cp rp dl).
  pose proof (one_receiver_size st π Hshort Hsize) as Hfit.
  exists π, rng3. split; [|split; [exact Hfit|]].
  2: { intros Hex rv. destruct (Hacc (λ V, Hex d V Hdata) rv) as [rv2 Hr1cs].
       exists gens, rv2. split; [exact Hgens|]. split; [exact Hpts|]. split; [exact Hcp|].
       exists d, t2. split; [exact Hdata|]. split; [exact Hr1cs|exact Hdl]. }
  unfold evrf_prove. rewrite (proj2 (prover_new_Ok ONE_RECEIVER_PROOF_ID _ one_receiver_id_len) eq_refl).
  match goal with |- (let '(_, _) := ?e in _) = _ =>
    assert (∃ t', e = (Ok (), (MkProverProofStream t' (one_receiver_bytes st π), rng3))) as (t' & ->) end.
  2: { cbn [mbind result_bind prover_finish pps_proof]. unfold allocated.
       by rewrite bool_decide_eq_true_2. }
  exists (dlog_transcript dl t2).
  apply stateful_bind_Ok. eexists (), (_, _). split.
  { apply on_stream_Ok. split; [|reflexivity]. apply observe_one_receiver_statement_Ok.
    split; [exact Hpts|reflexivity]. }
  change (with_transcript _ (MkProverProofStream _ h0)) with (MkProverProofStream t0 h0).
  apply stateful_bind_Ok. eexists (), (_, _). split.
  { rewrite (same_encoding_spec (CY:=gin_cycle)), bool_decide_eq_true_2 by (symmetry; exact Hs). reflexivity. }
  apply stateful_bind_Ok. exists (cd_s d). eexists (_, _). split; [rewrite Hs_xy; reflexivity|].
  destruct (cd_s d) as [s_x s_y] eqn:Es.
  apply stateful_bind_Ok. eexists (_, _), (_, _). split; [rewrite Hbases; reflexivity|].
  destruct Hdata as [_ Hh1 Hh2 _ _ _ _]. rewrite Hh1 in Hc1. rewrite Hh2 in Hc2.
  apply stateful_bind_Ok. exists (cd_pc1 d). eexists (_, _). split; [rewrite Hpc1; reflexivity|].
  apply stateful_bind_Ok. exists (cd_pc2 d). eexists (_, _). split; [rewrite Hpc2; reflexivity|].
  destruct Hc1 as (_ & Hw1 & _), Hc2 as (_ & Hw2 & _). unfold exponent_bits in Hw1, Hw2. rewrite Es in Hw1, Hw2.
  cbn [fst] in Hw1, Hw2.
  apply stateful_bind_Ok. exists wit1. eexists (_, _). split; [rewrite Hw1; reflexivity|].
  apply stateful_bind_Ok. exists wit2. eexists (_, _). split; [rewrite Hw2; reflexivity|].
  apply stateful_bind_Ok. exists (cd_t1 d). eexists (_, _). split; [rewrite Ht1; reflexivity|].
  unfold payload_run, exponent_bits in Erp. unfold output in *. rewrite Es in Erp. cbn [fst] in Erp.
  destruct (cd_t1 d) as [t1_x t1_y] eqn:E1.
  apply stateful_bind_Ok. exists (cd_t2 d). eexists (_, _). split; [rewrite Ht2; reflexivity|].
  destruct (cd_t2 d) as [t2_x t2_y] eqn:E2. cbn [fst snd] in *.
  apply stateful_bind_Ok. eexists (), (_, _). split.
  { rewrite (same_encoding_spec (CY:=gout_cycle)), bool_decide_eq_true_2 by (symmetry; exact HR). reflexivity. }
  apply stateful_bind_Ok. eexists (), (_, _). split; [exact Ecp|].
  apply stateful_bind_Ok. exists gens. eexists (_, _). split; [rewrite Hgens; reflexivity|].
  apply stateful_bind_Ok. eexists (), (_, _). split.
  { apply send_nested_Ok. eexists payload, t2. split; [exact Erp|].
    split; [unfold is_usize, usize_MAX, len in *; lia|reflexivity]. }
  rewrite Edl. unfold one_receiver_bytes, π. cbn [orp_cp orp_r1cs orp_dlog]. fold payload.
  unfold h0. rewrite <-!app_assoc. reflexivity.
Qed.
End complete.

(** ** Properties *)
Section properties.
Context {EC : EvrfCurves} {ECL : EvrfCurveLaws} {ME : Merlin} {X : Shake256}.
Context {CC1 : CycleCodec (H:=gin_cycle)} {CC2 : CycleCodec (H:=gout_cycle)} {CH : CycleHash (CY:=gout_cycle)}.
#[local] Existing Instance gout_cycle | 0.

(** C6: completeness and termination of the one-receiver proof.  The statement is true
    for a key (the shared point is its multiple of the other key, the bases are powered
    by the coordinate of the shared point, and the output is the combination of the
    powers), the chord tables and witnesses of the two bases exist, points are at most
    2^32 bytes, and from every state the generator draws a nonzero scalar in [n] draws.
    Then [evrf_prove], with fuel for [n] draws, returns a proof; and [evrf_verify], with
    whatever generator, accepts it, unless a point of the R1CS proof that must not be
    the identity is, or one of its challenges is zero. *)
Theorem evrf_prove_verifies {R R'} `{CryptoRngCore R} `{CryptoRngCore R'} n fuel threads st w d wit1 wit2
    (rng : R) :
  one_receiver_true st w d wit1 wit2 → points_short →
  (cpoint_generator : Gin) ≠ cpoint_identity → (cpoint_generator : Gout) ≠ cpoint_identity →
  (∀ rng : R, draws_nonzero (F:=Fq) n rng) → (∀ rng : R, draws_nonzero (F:=Fp) n rng) → (n ≤ fuel)%nat →
  ∃ π rng', evrf_prove fuel threads st w rng = (Ok (one_receiver_bytes st π), rng') ∧
    (one_receiver_unexceptional st π →
     ∀ rng1 : R', (evrf_verify threads st (one_receiver_bytes st π) rng1).1 = Ok ()).
Proof.
  intros Ht Hshort Hgin Hgout Hdq Hdp Hn.
  destruct (evrf_prove_complete (R':=R') n fuel threads st w d wit1 wit2 rng Ht Hshort Hgin Hgout Hdq Hdp Hn)
    as (π & rng' & Hrun & Hfit & Hacc).
  exists π, rng'. split; [exact Hrun|]. intros Hex rng1.
  destruct (Hacc Hex rng1) as (gens & rng2 & Hgens & Hok).
  rewrite (proj2 (evrf_verify_Ok threads st _ rng1 rng2 () Hfit)); [reflexivity|].
  exists gens, π. exact (conj Hgens (conj eq_refl Hok)).
Qed.
End properties.

(** A true statement on the small curve. *)
Section witness.
#[local] Existing Instance ToyCurves | 0.
Definition true_msg : list byte := replicate 32 x07.
Definition true_bits : list bool := decompose_k_fp (EC:=ToyCurves) (toy 57432) (K_BITS + 1).
Definition true_statement : SecpSecqEvrfStatement (EC:=ToyCurves) :=
  let T1 := smul (FieldOps:=Toy_ops) (toy 4605) (toy 57432) in
  let T2 := smul (FieldOps:=Toy_ops) (toy 47764) (toy 57432) in
  let x T := match affine (H:=ToyCurves) T with Ok (x, _) => x | Err _ => toy 0 end in
  MkSecpSecqEvrfStatement (EC:=ToyCurves) true_msg (toy 3) (toy 3) (toy 9) (toy 4605) (toy 47764) T1 T2
    (sadd (FieldOps:=Toy_ops) (smul (FieldOps:=Toy_ops) (toy 5) (x T1)) (x T2)) (toy 5).
Definition true_witness : SecpSecqEvrfWitness (EC:=ToyCurves) := MkSecpSecqEvrfWitness (EC:=ToyCurves) (toy 3).
End witness.

Lemma true_computed_1 : ∃ pc wit, chord_computed (EC:=ToyCurves) (toy 4605) true_bits pc wit.
Proof.
  apply (chord_regular_computed (EC:=ToyCurves) (ECL:=ToyCurves_laws)); [vm_compute; reflexivity|vm_refl].
Qed.
Lemma true_computed_2 : ∃ pc wit, chord_computed (EC:=ToyCurves) (toy 47764) true_bits pc wit.
Proof.
  apply (chord_regular_computed (EC:=ToyCurves) (ECL:=ToyCurves_laws)); [vm_compute; reflexivity|vm_refl].
Qed.
Definition true_coordinates (P : Toy) : Toy * Toy :=
  match affine (H:=ToyCurves) P with Ok xy => xy | Err _ => (toy 0, toy 0) end.
Lemma true_is_true pc1 wit1 pc2 wit2 :
  chord_computed (EC:=ToyCurves) (toy 4605) true_bits pc1 wit1 →
  chord_computed (EC:=ToyCurves) (toy 47764) true_bits pc2 wit2 →
  one_receiver_true (EC:=ToyCurves) true_statement true_witness
    (MkCircuitData (EC:=ToyCurves) (true_coordinates (toy 9)) pc1 pc2
       (true_coordinates (se_t1 (EC:=ToyCurves) true_statement))
       (true_coordinates (se_t2 (EC:=ToyCurves) true_statement))) wit1 wit2.
Proof.
  intros Hc1 Hc2. split.
  - repeat constructor; intros E%(f_equal toy_val); vm_compute in E; discriminate.
  - vm_refl.
  - vm_refl.
  - split; [vm_refl|vm_refl|vm_refl|apply Hc1|apply Hc2|vm_refl|vm_refl].
  - exact Hc1.
  - exact Hc2.
  - vm_refl.
  - vm_refl.
  - vm_refl.
Qed.

Lemma toy_cycle_hash : CycleHash (CY:=ToyCycle).
Proof. by split. Qed.
Lemma toy_draws : ∀ rng : unit, draws_nonzero (F:=Toy) (H:=Toy_ops) 1 rng.
Proof.
  intros [] k. exists 0%nat. split; [lia|]. destruct (after_draws (k + 0) ()).
  intros E%(f_equal toy_val). vm_compute in E. discriminate.
Qed.

Lemma evrf_prove_verifies_witness :
  ∃ pc1 wit1 pc2 wit2,
    let d := MkCircuitData (EC:=ToyCurves) (true_coordinates (toy 9)) pc1 pc2
       (true_coordinates (se_t1 (EC:=ToyCurves) true_statement))
       (true_coordinates (se_t2 (EC:=ToyCurves) true_statement)) in
    one_receiver_true (EC:=ToyCurves) true_statement true_witness d wit1 wit2 ∧
    ∃ π rng',
      evrf_prove (EC:=ToyCurves) (ME:=ToyMerlin) 1 4 true_statement true_witness ()
        = (Ok (one_receiver_bytes (EC:=ToyCurves) true_statement π), rng').
Proof.
  destruct true_computed_1 as (pc1 & wit1 & Hc1), true_computed_2 as (pc2 & wit2 & Hc2).
  exists pc1, wit1, pc2, wit2. intros d. pose proof (true_is_true _ _ _ _ Hc1 Hc2) as Ht. fold d in Ht.
  split; [exact Ht|].
  destruct (evrf_prove_verifies (EC:=ToyCurves) (ECL:=ToyCurves_laws) (ME:=ToyMerlin)
    (CC1:=ToyCycle_codec) (CC2:=ToyCycle_codec) (CH:=toy_cycle_hash) (R:=unit) (R':=unit) 1 1 4 true_statement true_witness d wit1 wit2 () Ht)
    as (π & rng' & Hrun & _).
  - split; vm_compute; congruence.
  - intros E%(f_equal toy_val). vm_compute in E. discriminate.
  - intros E%(f_equal toy_val). vm_compute in E. discriminate.
  - exact toy_draws.
  - exact toy_draws.
  - lia.
  - exists π, rng'. exact Hrun.
Defined.
