(* ===== verification/EvrfBatchedStatement.v ===== *)
(** * The statement of the batched dealer proof (golden-evrf/paper.rs, module secp_secq)

    One proof of a dealer covers all receivers.  This file has the public statement,
    the parameters of a circuit shape, the native checks on the statement and its
    absorption into the transcript. *)

From Stdlib Require Import ZArith Lia Field Strings.Byte Sorting.Sorted.
From stdpp Require Import prelude strings list_numbers.
From S2P Require Import Prelude BTree CoreError Group Algebra Poly TestSupport Participant Transcript Cycle BpUtil InnerProduct ConstraintSystem Generators R1csProof Prover Verifier R1csSync CircuitLogic R1csOnePhase EvrfBits EvrfCurves EvrfToy EvrfChord ProofStream EvrfSigma EvrfOneReceiver EvrfOneReceiverProof.

Local Open Scope golden_scope.

(** [usize::checked_sub] and [checked_next_power_of_two]. *)
Definition checked_sub (a b : Z) : option Z := if (b <=? a)%Z then Some (a - b)%Z else None.
Definition checked_next_power_of_two (n : Z) : option Z :=
  let p := (2 ^ Z.log2_up n)%Z in
  if bool_decide (p ≤ usize_MAX)%Z then Some p else None.
(** [windows(2)]. *)
Definition windows2 {A} (l : list A) : list (A * A) := zip l (tail l).

(** A computation whose errors are the code's, in one that may not return. *)
Definition reporting {St E A} (m : stateful St E A) : stateful St (option E) A := λ s,
  let '(res, s) := m s in (map_err Some res, s).

Definition BATCHED_PROOF_ID : list byte := bstr "golden-paper-evrf-batched-v8".
Definition FELDMAN_BATCH_DOMAIN : list byte := bstr "golden-paper-evrf-feldman-batch-secp-v1".
Definition BATCHED_SHARED_MULTIPLIERS : Z := 1035.
Definition BATCHED_RECEIVER_MULTIPLIERS : Z := 3052.

Definition batched_multiplier_count (threshold receiver_count : Z) : Result Z :=
  if ((threshold =? 0) || (receiver_count =? 0) || (receiver_count <? Z.max 0 (threshold - 1)))%Z%bool
  then Err ProofVerificationFailed
  else
    receivers ← ok_or ProofVerificationFailed (checked_mul receiver_count BATCHED_RECEIVER_MULTIPLIERS);
    succ ← ok_or ProofVerificationFailed (checked_add receiver_count 1);
    let shared_allocations := (succ / 2)%Z in
    ok_or ProofVerificationFailed
      (count ← checked_add BATCHED_SHARED_MULTIPLIERS receivers; checked_sub count shared_allocations).

Section model.
Context {EC : EvrfCurves} {ME : Merlin}.
#[local] Existing Instance gout_cycle | 0.

Record BatchedReceiverStatement := MkBatchedReceiverStatement {
  br_receiver : ParticipantIndex;
  br_pkj : Gin;
  br_share_commitment : Gin;
  br_pad_commitment : Gin;
  br_encrypted_share : Fq;
}.
Record BatchedEvrfStatement := MkBatchedEvrfStatement {
  be_msg : list byte;
  be_pk1 : Gin;
  be_beta : Fp;
  be_threshold : Z;
  be_commitment_coefficients : list Gin;
  be_statement_roots : list TranscriptRoot;
  be_receivers : list BatchedReceiverStatement;
}.
Record BatchedEvrfWitness := MkBatchedEvrfWitness { bw_sk1 : Fq; bw_polynomial_constant : Fq }.

(** ** Parameters of a circuit shape *)
Record BatchedEvrfPublicParams := MkBatchedEvrfPublicParams {
  bp_threshold : Z;
  bp_receiver_count : Z;
  bp_multiplier_count : Z;
  bp_pc_gens : PedersenGens;
  bp_bp_gens : BulletproofGens;
}.

Definition validated_shape (threshold receiver_count : Z) : Result (Z * Z) :=
  multiplier_count ← batched_multiplier_count threshold receiver_count;
  gens_capacity ← ok_or ProofVerificationFailed (checked_next_power_of_two multiplier_count);
  Ok (multiplier_count, gens_capacity).

Section params.
Context {X : Shake256}.

Definition from_shape (threads : nat) (threshold receiver_count multiplier_count gens_capacity : Z)
    : option BatchedEvrfPublicParams :=
  '(bp_gens, _) ← BulletproofGens_new threads (Z.to_nat gens_capacity) 1 cache_empty;
  Some (MkBatchedEvrfPublicParams threshold receiver_count multiplier_count pedersen_default bp_gens).

(** [setup]; [shared] computes the same value once per process and shape. *)
Definition params_setup (threads : nat) (threshold receiver_count : Z)
    : result (option CoreError) BatchedEvrfPublicParams :=
  '(multiplier_count, gens_capacity) ← map_err Some (validated_shape threshold receiver_count);
  ok_or None (from_shape threads threshold receiver_count multiplier_count gens_capacity).

(** [Deserialize]: the derived fields are computed, the generators' dimensions checked. *)
Definition params_from_repr (threshold receiver_count : Z) (bp_gens : BulletproofGens)
    : option BatchedEvrfPublicParams :=
  match batched_multiplier_count threshold receiver_count with
  | Err _ => None
  | Ok multiplier_count =>
      gens_capacity ← checked_next_power_of_two multiplier_count;
      if negb (Z.of_nat (Generators.gens_capacity bp_gens) =? gens_capacity)%Z
         || negb (Nat.eqb (party_capacity bp_gens) 1)
      then None
      else Some (MkBatchedEvrfPublicParams threshold receiver_count multiplier_count pedersen_default
                   bp_gens)
  end.
End params.

Definition batched_proof_wire_len (threshold receiver_count : Z) : Result Z :=
  '(_, gens_capacity) ← validated_shape threshold receiver_count;
  let lg_n := Z.to_nat (Z.log2 gens_capacity) in
  let envelope := (4 + len BATCHED_PROOF_ID + 8)%Z in
  let constant_term_proof :=
    (POINT_BYTES (ProofStreamCurve:=GinStreamCurve) + SCALAR_BYTES (ProofStreamCurve:=GinStreamCurve))%Z in
  Ok (envelope + Z.of_nat (single_phase_wire_len lg_n) + constant_term_proof)%Z.

Definition params_validate_statement (self : BatchedEvrfPublicParams) (statement : BatchedEvrfStatement)
    : Result unit :=
  if negb (bp_threshold self =? be_threshold statement)%Z
     || negb (bp_receiver_count self =? len (be_receivers statement))%Z
  then Err ProofVerificationFailed else Ok tt.

(** ** The shape of a statement *)
Definition validate_batched_statement_shape (statement : BatchedEvrfStatement) : Result unit :=
  let receivers := len (be_receivers statement) in
  let coefficients := len (be_commitment_coefficients statement) in
  if ((receivers =? 0) || (receivers <? Z.max 0 (be_threshold statement - 1))
      || (coefficients =? 0) || negb (coefficients =? be_threshold statement)
      || negb (len (be_statement_roots statement) =? receivers))%Z%bool
  then Err ProofVerificationFailed
  else if existsb (λ '(a, b), (pi_get (br_receiver b) <=? pi_get (br_receiver a))%Z)
            (windows2 (be_receivers statement))
  then Err ProofVerificationFailed
  else Ok tt.

(** ** Feldman commitments at small indices *)
Definition u32_leading_zeros (scalar : Z) : Z :=
  if (scalar =? 0)%Z then 32%Z else (32 - (Z.log2 scalar + 1))%Z.
Definition gin_mul_by_small_scalar (point : Gin) (scalar : Z) : Gin :=
  if (scalar =? 0)%Z then cpoint_identity
  else
    foldl (λ acc bit,
             let acc := gin_double acc in
             if (Z.land (Z.shiftr scalar bit) 1 =? 1)%Z then acc ⊕ point else acc)
          cpoint_identity (reverse (seqZ 0 (32 - u32_leading_zeros scalar))).
Definition feldman_share_commitment (coefficients : list Gin) (receiver : ParticipantIndex) : Gin :=
  let x := pi_get receiver in
  foldl (λ result coefficient, gin_mul_by_small_scalar result x ⊕ coefficient) cpoint_identity
    (reverse coefficients).

(** The weights of the combined check: the loop that draws one runs on fuel. *)
Fixpoint feldman_weight (fuel : nat) (transcript : Transcript) : option (Fq * Transcript) :=
  match fuel with
  | O => None
  | S fuel =>
      let '(bytes, transcript) := challenge_bytes (bstr "feldman-weight") 64 transcript in
      let weight : Fq := scalar_from_wide bytes in
      if negb (bool_decide (weight = 0)) then Some (weight, transcript)
      else feldman_weight fuel transcript
  end.
Fixpoint feldman_weights (fuel : nat) (indices : list nat) (transcript : Transcript) : option (list Fq) :=
  match indices with
  | [] => Some []
  | index :: indices =>
      let transcript := append_u64 (bstr "receiver-weight-index") (Z.of_nat index) transcript in
      '(weight, transcript) ← feldman_weight fuel transcript;
      weights ← feldman_weights fuel indices transcript;
      Some (weight :: weights)
  end.
Definition feldman_batch_weights_from_transcript (fuel : nat) (statement : BatchedEvrfStatement)
    (statement_transcript : Transcript) : result (option CoreError) (list Fq) :=
  _ ← map_err Some (validate_batched_statement_shape statement);
  let transcript := append_message (bstr "validation-domain") FELDMAN_BATCH_DOMAIN statement_transcript in
  ok_or None (feldman_weights fuel (seq 0 (length (be_receivers statement))) transcript).

(** The inner loop: the powers of [x], times the weight, are subtracted. *)
Fixpoint sub_power_weights (power_weight x : Fq) (coefficient_weights : list Fq) : list Fq :=
  match coefficient_weights with
  | [] => []
  | w :: ws => (w - power_weight) :: sub_power_weights (power_weight * x) x ws
  end.
Definition coefficient_weights_step (coefficient_weights : list Fq)
    (rec_weight : BatchedReceiverStatement * Fq) : list Fq :=
  let '(rec, weight) := rec_weight in
  let x := fq_from_u64 (pi_get (br_receiver rec)) in
  sub_power_weights weight x coefficient_weights.
Definition feldman_coefficient_weights (receivers : list BatchedReceiverStatement) (weights : list Fq)
    (n : nat) : list Fq :=
  foldl coefficient_weights_step (replicate n 0) (zip receivers weights).
Definition feldman_batch_matches (fuel : nat) (statement : BatchedEvrfStatement)
    (statement_transcript : Transcript) : result (option CoreError) bool :=
  weights ← feldman_batch_weights_from_transcript fuel statement statement_transcript;
  let coefficient_weights :=
    feldman_coefficient_weights (be_receivers statement) weights
      (length (be_commitment_coefficients statement)) in
  let scalars := weights ++ coefficient_weights in
  let points := (br_share_commitment <$> be_receivers statement) ++ be_commitment_coefficients statement in
  Ok (gin_is_identity (vartime_msm scalars points)).

(** ** The native relations of a statement *)
Definition check_receiver (batch_feldman : bool) (statement : BatchedEvrfStatement)
    (rec : BatchedReceiverStatement) : Result unit :=
  let failed := Err ProofVerificationFailed in
  if gin_is_identity (br_pkj rec) || gin_is_identity (br_pad_commitment rec) then failed
  else if negb batch_feldman
          && negb (bool_decide (feldman_share_commitment (be_commitment_coefficients statement)
                                  (br_receiver rec) = br_share_commitment rec))
  then failed
  else if negb (bool_decide (gin_mul_generator (br_encrypted_share rec)
                             = br_share_commitment rec ⊕ br_pad_commitment rec))
  then failed
  else Ok tt.

Definition validate_batched_public_relations_impl (fuel : nat) (statement : BatchedEvrfStatement)
    (statement_transcript : option Transcript) : result (option CoreError) unit :=
  _ ← map_err Some (validate_batched_statement_shape statement);
  if gin_is_identity (be_pk1 statement) then Err (Some ProofVerificationFailed)
  else
    let batch_feldman := match statement_transcript with Some _ => true | None => false end in
    _ ← map_err Some (for_each (check_receiver batch_feldman statement) (be_receivers statement));
    match statement_transcript with
    | None => Ok tt
    | Some transcript =>
        matches ← feldman_batch_matches fuel statement transcript;
        if negb matches then Err (Some ProofVerificationFailed) else Ok tt
    end.

Definition validate_batched_public_relations (statement : BatchedEvrfStatement)
    : result (option CoreError) unit :=
  validate_batched_public_relations_impl 0 statement None.
Definition validate_batched_public_relations_for_verifier (fuel : nat)
    (statement : BatchedEvrfStatement) (statement_transcript : Transcript)
    : result (option CoreError) unit :=
  let batch_feldman := (99 <=? Z.min (be_threshold statement) (len (be_receivers statement)))%Z in
  validate_batched_public_relations_impl fuel statement
    (if batch_feldman then Some statement_transcript else None).

(** ** The statement on the stream *)
Definition le64 (z : Z) : list byte := reverse (to_be_bytes 8 z).

Definition observe_receiver {St} `{!Observe St} (statement_roots : list TranscriptRoot)
    (jrec : nat * BatchedReceiverStatement) : stateful St (option CoreError) unit :=
  let '(j, rec) := jrec in
  let observe label bytes := draw (λ s, (tt, observe_bytes label bytes s)) in
  _ ← observe (bstr "idx") (le64 (Z.of_nat j));
  root ← lift (ok_or None (statement_roots !! j));
  _ ← observe (bstr "statement-root") root;
  _ ← observe (bstr "receiver") (le64 (pi_get (br_receiver rec)));
  _ ← reporting (observe_point GinStreamCurve (bstr "PK_j") (br_pkj rec) Reject);
  _ ← reporting (observe_point GinStreamCurve (bstr "share-commitment") (br_share_commitment rec) Allow);
  _ ← reporting (observe_point GinStreamCurve (bstr "pad-commitment") (br_pad_commitment rec) Reject);
  reporting (observe_scalar GinStreamCurve (bstr "encrypted-share") (br_encrypted_share rec)).

Definition observe_batched_statement {St} `{!Observe St} (statement : BatchedEvrfStatement)
    : stateful St (option CoreError) unit :=
  let observe label bytes := draw (λ s, (tt, observe_bytes label bytes s)) in
  _ ← observe (bstr "msg") (be_msg statement);
  _ ← reporting (observe_scalar GoutStreamCurve (bstr "beta") (be_beta statement));
  _ ← observe (bstr "threshold") (le64 (be_threshold statement));
  _ ← reporting (observe_point GinStreamCurve (bstr "PK_1") (be_pk1 statement) Reject);
  _ ← observe (bstr "commitment-len") (le64 (len (be_commitment_coefficients statement)));
  _ ← sfor_each
        (λ coefficient,
           reporting (observe_point GinStreamCurve (bstr "commitment") coefficient Allow))
        (be_commitment_coefficients statement);
  _ ← observe (bstr "num-receivers") (le64 (len (be_receivers statement)));
  sfor_each (observe_receiver (be_statement_roots statement)) (imap pair (be_receivers statement)).
End model.

(** ** Counting multipliers *)
Lemma batched_multiplier_count_Ok t n c :
  (0 ≤ t)%Z → (0 ≤ n)%Z →
  batched_multiplier_count t n = Ok c ↔
  (0 < t)%Z ∧ (0 < n)%Z ∧ (t - 1 ≤ n)%Z ∧
  (BATCHED_SHARED_MULTIPLIERS + n * BATCHED_RECEIVER_MULTIPLIERS ≤ usize_MAX)%Z ∧
  c = (BATCHED_SHARED_MULTIPLIERS + n * BATCHED_RECEIVER_MULTIPLIERS - (n + 1) / 2)%Z.
Proof.
  intros Ht Hn. unfold batched_multiplier_count.
  destruct (_ || _)%bool eqn:Eb.
  { split; [discriminate|]. intros (H1 & H2 & H3 & _). rewrite !orb_true_iff in Eb. lia. }
  rewrite !orb_false_iff in Eb. destruct Eb as [[E1 E2] E3].
  unfold checked_mul, checked_add, checked_sub, BATCHED_SHARED_MULTIPLIERS, BATCHED_RECEIVER_MULTIPLIERS.
  assert (Hdiv : (0 ≤ (n + 1) / 2 ≤ n)%Z).
  { split; [apply Z.div_pos; lia|]. apply Z.div_le_upper_bound; lia. }
  destruct (bool_decide_reflect (n * 3052 ≤ usize_MAX)%Z) as [H1|H1]; cbn [ok_or mbind result_bind].
  2: { split; [discriminate|]. intros (_ & _ & _ & H & _). lia. }
  rewrite (bool_decide_eq_true_2 (n + 1 ≤ usize_MAX)%Z) by (unfold usize_MAX in *; lia). cbn [ok_or mbind result_bind].
  destruct (bool_decide_reflect (1035 + n * 3052 ≤ usize_MAX)%Z) as [H2|H2]; cbn [ok_or mbind option_bind].
  2: { split; [discriminate|]. intros (_ & _ & _ & H & _). lia. }
  destruct (Z.leb_spec ((n + 1) / 2) (1035 + n * 3052)); [|lia]. cbn [ok_or].
  split; [intros [= <-]; split_and!; lia|]. intros (_ & _ & _ & _ & ->). done.
Qed.

Lemma checked_next_power_of_two_Some n p :
  checked_next_power_of_two n = Some p ↔ p = (2 ^ Z.log2_up n)%Z ∧ (p ≤ usize_MAX)%Z.
Proof. unfold checked_next_power_of_two. case_bool_decide; naive_solver. Qed.

(** ** Feldman commitments *)
Section feldman.
Context {EC : EvrfCurves} {ECL : EvrfCurveLaws} {ME : Merlin}.
#[local] Existing Instance gout_cycle | 0.
#[local] Existing Instance gin_cycle | 1.
Add Ring feldman_ring : (ideal_ring_theory (H:=gin_cycle)).
Add Field feldman_fq : (scalar_field_theory (F:=Fq)).

Abbreviation commitment_at := (meval (H0:=cycle_module (H:=gin_cycle))).
Definition index_scalar (rec : BatchedReceiverStatement) : Fq := snat (Z.to_nat (pi_get (br_receiver rec))).

Lemma gin_mul_by_small_scalar_spec P scalar :
  is_u32 scalar → gin_mul_by_small_scalar P scalar = P ⊙ snat (Z.to_nat scalar).
Proof.
  intros [Hs _]. unfold gin_mul_by_small_scalar, u32_leading_zeros.
  destruct (Z.eqb_spec scalar 0) as [->|Hne]; [symmetry; apply cpoint_mul_0|].
  replace (32 - (32 - (Z.log2 scalar + 1)))%Z with (Z.log2 scalar + 1)%Z by lia.
  etransitivity; [|apply (double_and_add (SM:=cycle_module (H:=gin_cycle))); lia].
  apply foldl_agree. intros acc bit. by rewrite gin_double_spec.
Qed.

Lemma feldman_share_commitment_spec coefficients p :
  participant_wf p →
  feldman_share_commitment coefficients p = commitment_at coefficients (snat (Z.to_nat (pi_get p))).
Proof.
  intros Hp. unfold feldman_share_commitment.
  etransitivity; [|apply (horner_reverse (SM:=cycle_module (H:=gin_cycle)))].
  apply foldl_agree. intros acc C.
  by rewrite gin_mul_by_small_scalar_spec by (unfold participant_wf, is_u32 in *; lia).
Qed.

Lemma of_Z_snat {F} `{FieldLaws F} z : (0 ≤ z)%Z → of_Z (F:=F) z = snat (Z.to_nat z).
Proof.
  intros Hz. rewrite <-(Z2Nat.id z) at 1 by done. generalize (Z.to_nat z). intros n.
  induction n as [|n IH]; [apply of_Z_0|].
  rewrite Nat2Z.inj_succ. replace (Z.succ (Z.of_nat n)) with (1 + Z.of_nat n)%Z by lia.
  by rewrite of_Z_add, IH, of_Z_1.
Qed.
Lemma fq_index rec :
  participant_wf (br_receiver rec) → fq_from_u64 (pi_get (br_receiver rec)) = index_scalar rec.
Proof.
  intros Hp. rewrite fq_from_u64_spec by (unfold participant_wf, u32_MAX, is_usize, usize_MAX in *; lia).
  apply of_Z_snat. unfold participant_wf in Hp. lia.
Qed.

(** *** The combined check *)
Lemma length_sub_power_weights p x ws : length (sub_power_weights p x ws) = length ws.
Proof. revert p. induction ws as [|w ws IH]; intros p; cbn [sub_power_weights length]; [done|]. by rewrite IH. Qed.

Lemma sub_power_weights_lincomb p x ws Cs :
  length ws = length Cs →
  lincomb (sub_power_weights p x ws) Cs = lincomb ws Cs ⊕ commitment_at Cs x ⊙ (- p).
Proof.
  revert p Cs. induction ws as [|w ws IH]; intros p [|C Cs] [=].
  - cbn [sub_power_weights meval foldr]. change (mzero (SModule:=cycle_module (H:=gin_cycle))) with (cpoint_identity (Cycle:=gin_cycle)).
    rewrite !lincomb_nil_l. point_ring.
  - cbn [sub_power_weights]. rewrite !lincomb_cons, IH by done.
    change (commitment_at (C :: Cs) x) with (C ⊕ commitment_at Cs x ⊙ x). point_ring.
Qed.

Lemma coefficient_weights_loop recs weights ws Cs :
  Forall (λ rec, participant_wf (br_receiver rec)) recs → length weights = length recs →
  length ws = length Cs →
  let ws' := foldl coefficient_weights_step ws (zip recs weights) in
  length ws' = length ws ∧
  lincomb ws' Cs = lincomb ws Cs ⊕ lincomb weights (commitment_at Cs ∘ index_scalar <$> recs) ⊙ (- (1)).
Proof.
  intros Hrecs. revert weights ws. induction Hrecs as [|rec recs Hrec _ IH]; intros [|w weights] ws [=] Hws.
  - cbn [zip zip_with foldl fmap list_fmap]. split; [done|]. rewrite lincomb_nil_l. point_ring.
  - cbn [zip zip_with foldl fmap list_fmap coefficient_weights_step]. rewrite (fq_index rec Hrec).
    destruct (IH weights (sub_power_weights w (index_scalar rec) ws)) as [Hl HE]; [done|by rewrite length_sub_power_weights|].
    split; [exact (eq_trans Hl (length_sub_power_weights _ _ _))|]. etransitivity; [exact HE|].
    rewrite sub_power_weights_lincomb, lincomb_cons by done. unfold compose. point_ring.
Qed.

Lemma cpoint_sub_identity (P Q : Gin) : P ⊕ Q ⊙ (- (1)) = cpoint_identity → P = Q.
Proof.
  intros E. transitivity (P ⊕ Q ⊙ (- (1)) ⊕ Q); [point_ring|]. rewrite E. apply cpoint_add_id_l.
Qed.

(** What the share commitment of a receiver is off by. *)
Definition feldman_residual (coefficients : list Gin) (rec : BatchedReceiverStatement) : Gin :=
  br_share_commitment rec ⊕ commitment_at coefficients (index_scalar rec) ⊙ (- (1)).

Lemma lincomb_residuals coefficients recs weights :
  length weights = length recs →
  lincomb weights (feldman_residual coefficients <$> recs)
  = lincomb weights (br_share_commitment <$> recs)
    ⊕ lincomb weights (commitment_at coefficients ∘ index_scalar <$> recs) ⊙ (- (1)).
Proof.
  revert weights. induction recs as [|rec recs IH]; intros [|w weights] [=].
  - cbn [fmap list_fmap]. rewrite lincomb_nil_l. point_ring.
  - cbn [fmap list_fmap]. rewrite !lincomb_cons, IH by done. unfold feldman_residual, compose. point_ring.
Qed.

Lemma feldman_combination coefficients recs weights :
  Forall (λ rec, participant_wf (br_receiver rec)) recs → length weights = length recs →
  vartime_msm (weights ++ feldman_coefficient_weights recs weights (length coefficients))
    ((br_share_commitment <$> recs) ++ coefficients)
  = lincomb weights (feldman_residual coefficients <$> recs).
Proof.
  intros Hrecs Hl. unfold feldman_coefficient_weights.
  destruct (coefficient_weights_loop recs weights (replicate (length coefficients) 0) coefficients Hrecs Hl
    (length_replicate _ _)) as [Hlw Hw].
  rewrite length_replicate in Hlw.
  rewrite vartime_msm_spec by (rewrite !length_app, length_fmap, Hl; f_equal; exact Hlw).
  rewrite lincomb_app by (by rewrite length_fmap). rewrite Hw, lincomb_zeros, lincomb_residuals by done. point_ring.
Qed.
End feldman.

(** ** The checks, as propositions *)
Section checks.
Context {EC : EvrfCurves} {ECL : EvrfCurveLaws} {ME : Merlin}.
#[local] Existing Instance gout_cycle | 0.
#[local] Existing Instance gin_cycle | 1.

Definition receiver_before (a b : BatchedReceiverStatement) : Prop :=
  (pi_get (br_receiver a) < pi_get (br_receiver b))%Z.
Record batched_shape (st : BatchedEvrfStatement) : Prop := MkBatchedShape {
  bs_receivers : be_receivers st ≠ [];
  bs_enough : (be_threshold st - 1 ≤ len (be_receivers st))%Z;
  bs_coefficients : be_commitment_coefficients st ≠ [];
  bs_threshold : len (be_commitment_coefficients st) = be_threshold st;
  bs_roots : length (be_statement_roots st) = length (be_receivers st);
  bs_sorted : Sorted receiver_before (be_receivers st);
}.

Lemma windows_sorted l :
  existsb (λ '(a, b), (pi_get (br_receiver b) <=? pi_get (br_receiver a))%Z) (windows2 l) = false ↔
  Sorted receiver_before l.
Proof.
  induction l as [|a [|b l] IH]; [by split|by split; repeat constructor|].
  change (windows2 (a :: b :: l)) with ((a, b) :: windows2 (b :: l)). cbn [existsb].
  rewrite orb_false_iff, IH, Z.leb_gt. split.
  - intros [Hab Hl]. constructor; [exact Hl|]. by constructor.
  - intros Hs. inversion Hs as [|?? Hl Hab]. split; [by inversion Hab|exact Hl].
Qed.

Lemma len_zero {A} (l : list A) : (len l =? 0)%Z = true ↔ l = [].
Proof. unfold len. destruct l; cbn; [done|]. split; [intros E%Z.eqb_eq; lia|done]. Qed.

Lemma validate_shape_Ok st u : validate_batched_statement_shape st = Ok u ↔ batched_shape st.
Proof.
  unfold validate_batched_statement_shape. destruct u.
  destruct (_ || _)%bool eqn:Eb.
  - split; [done|]. intros [H1 H2 H3 H4 H5 _]. exfalso.
    rewrite !orb_true_iff, !negb_true_iff, !len_zero, !Z.eqb_neq, Z.ltb_lt in Eb.
    destruct Eb as [[[[E|E]|E]|E]|E]; try done; unfold len in *; lia.
  - rewrite !orb_false_iff, !negb_false_iff, !Z.eqb_eq, Z.ltb_ge in Eb. destruct Eb as [[[[E1 E2] E3] E4] E5].
    assert (Hne : be_receivers st ≠ [] ∧ be_commitment_coefficients st ≠ [])
      by (split; intros E; apply len_zero in E; congruence).
    destruct (existsb _ _) eqn:Es.
    + split; [done|]. intros [_ _ _ _ _ Hs]. apply windows_sorted in Hs. congruence.
    + apply windows_sorted in Es. split; [|done]. intros _. destruct Hne.
      split; try done; unfold len in *; lia.
Qed.

(** What the native checks establish of a receiver. *)
Record receiver_relation (coefficients : list Gin) (rec : BatchedReceiverStatement) : Prop := MkReceiverRelation {
  rr_key : br_pkj rec ≠ cpoint_identity;
  rr_pad : br_pad_commitment rec ≠ cpoint_identity;
  rr_share : br_share_commitment rec = meval (H0:=cycle_module (H:=gin_cycle)) coefficients (index_scalar rec);
  rr_sum : cpoint_generator ⊙ br_encrypted_share rec = br_share_commitment rec ⊕ br_pad_commitment rec;
}.
Definition receiver_checked (rec : BatchedReceiverStatement) : Prop :=
  br_pkj rec ≠ cpoint_identity ∧ br_pad_commitment rec ≠ cpoint_identity ∧
  cpoint_generator ⊙ br_encrypted_share rec = br_share_commitment rec ⊕ br_pad_commitment rec.

Lemma gin_is_identity_false P : gin_is_identity P = false ↔ P ≠ cpoint_identity.
Proof. unfold gin_is_identity. apply bool_decide_eq_false. Qed.

Lemma check_receiver_Ok batch st rec u :
  participant_wf (br_receiver rec) →
  check_receiver batch st rec = Ok u ↔
  receiver_checked rec ∧
  (batch = false → feldman_residual (be_commitment_coefficients st) rec = cpoint_identity).
Proof.
  intros Hp. unfold check_receiver, receiver_checked. destruct u. rewrite gin_mul_generator_spec.
  rewrite feldman_share_commitment_spec by done.
  assert (Hres : feldman_residual (be_commitment_coefficients st) rec = cpoint_identity ↔
    meval (H0:=cycle_module (H:=gin_cycle)) (be_commitment_coefficients st) (index_scalar rec)
    = br_share_commitment rec).
  { unfold feldman_residual. split; [|intros ->; rewrite <-(cpoint_mul_1 (br_share_commitment rec)) at 1;
      apply cpoint_mul_neg_add].
    intros E. symmetry. by apply cpoint_sub_identity. }
  unfold index_scalar in *.
  destruct (_ || _)%bool eqn:E1.
  - split; [done|]. intros [(H1 & H2 & _) _]. apply gin_is_identity_false in H1, H2. by rewrite H1, H2 in E1.
  - apply orb_false_iff in E1 as [H1%gin_is_identity_false H2%gin_is_identity_false].
    rewrite Hres. clear Hres.
    destruct batch; cbn [negb andb]; [|case_bool_decide; cbn [negb]]; try case_bool_decide; cbn [negb]; naive_solver.
Qed.

Definition native_relations (st : BatchedEvrfStatement) : Prop :=
  batched_shape st ∧ be_pk1 st ≠ cpoint_identity ∧
  Forall (receiver_relation (be_commitment_coefficients st)) (be_receivers st).
Lemma receiver_relation_iff coefficients rec :
  receiver_relation coefficients rec ↔
  receiver_checked rec ∧ feldman_residual coefficients rec = cpoint_identity.
Proof.
  unfold receiver_checked. split.
  - intros [H1 H2 H3 H4]. split; [done|]. unfold feldman_residual. rewrite <-H3.
    rewrite <-(cpoint_mul_1 (br_share_commitment rec)) at 1. apply cpoint_mul_neg_add.
  - intros [(H1 & H2 & H3) H4]. split; try done. by apply cpoint_sub_identity.
Qed.

(** What the verifier has to check of the Feldman commitments: all of them, or their
    combination. *)
Definition weighted_residual (weights : list Fq) (st : BatchedEvrfStatement) : Gin :=
  lincomb weights (feldman_residual (be_commitment_coefficients st) <$> be_receivers st).
Definition feldman_condition (batch : option (list Fq)) (st : BatchedEvrfStatement) : Prop :=
  match batch with
  | None => Forall (λ rec, feldman_residual (be_commitment_coefficients st) rec = cpoint_identity) (be_receivers st)
  | Some weights => weighted_residual weights st = cpoint_identity
  end.
Definition indices_wf (st : BatchedEvrfStatement) : Prop :=
  Forall (λ rec, participant_wf (br_receiver rec)) (be_receivers st).

Lemma length_feldman_weights fuel indices t weights :
  feldman_weights fuel indices t = Some weights → length weights = length indices.
Proof.
  revert t weights. induction indices as [|i indices IH]; intros t weights; cbn [feldman_weights].
  { by intros [= <-]. }
  intros ([w t1] & _ & E)%bind_Some. apply bind_Some in E as (ws & Hws & [= <-]). cbn [length]. f_equal.
  by eapply IH.
Qed.
Lemma feldman_weight_nonzero fuel t w t' : feldman_weight fuel t = Some (w, t') → w ≠ 0.
Proof.
  revert t. induction fuel as [|fuel IH]; intros t; cbn [feldman_weight]; [done|].
  destruct (challenge_bytes _ _ t) as [bytes t1]. case_bool_decide as Hw; cbn [negb]; [apply IH|].
  by intros [= <- <-].
Qed.
Lemma feldman_weights_nonzero fuel indices t weights :
  feldman_weights fuel indices t = Some weights → Forall (λ w, w ≠ 0) weights.
Proof.
  revert t weights. induction indices as [|i indices IH]; intros t weights; cbn [feldman_weights].
  { intros [= <-]. constructor. }
  intros ([w t1] & Hw & E)%bind_Some. apply bind_Some in E as (ws & Hws & [= <-]).
  constructor; [by eapply feldman_weight_nonzero|by eapply IH].
Qed.

Definition drawn_weights (fuel : nat) (st : BatchedEvrfStatement) (t : Transcript) : option (list Fq) :=
  feldman_weights fuel (seq 0 (length (be_receivers st)))
    (append_message (bstr "validation-domain") FELDMAN_BATCH_DOMAIN t).

(** *** Enough fuel for the weights

    The loop that draws a weight runs until a challenge is not zero; fuel is enough
    exactly if every loop of the statement meets one within that many draws. *)
Definition after_weights (k : nat) (t : Transcript) : Transcript :=
  Nat.iter k (λ t, (challenge_bytes (bstr "feldman-weight") 64 t).2) t.
Definition weight_at (k : nat) (t : Transcript) : Fq :=
  scalar_from_wide (challenge_bytes (bstr "feldman-weight") 64 (after_weights k t)).1.
Fixpoint weights_within (n : nat) (indices : list nat) (t : Transcript) : Prop :=
  match indices with
  | [] => True
  | index :: indices =>
      let t := append_u64 (bstr "receiver-weight-index") (Z.of_nat index) t in
      ∃ k, (k < n)%nat ∧ weight_at k t ≠ 0 ∧ (∀ i, (i < k)%nat → weight_at i t = 0) ∧
           weights_within n indices (after_weights (S k) t)
  end.

Lemma feldman_weight_Some fuel t w t' :
  feldman_weight fuel t = Some (w, t') ↔
  ∃ k, (k < fuel)%nat ∧ w = weight_at k t ∧ w ≠ 0 ∧ (∀ i, (i < k)%nat → weight_at i t = 0) ∧
       t' = after_weights (S k) t.
Proof.
  revert t. induction fuel as [|fuel IH]; intros t; cbn [feldman_weight].
  { split; [done|]. intros (k & Hk & _). lia. }
  destruct (challenge_bytes (bstr "feldman-weight") 64 t) as [bytes t1] eqn:E.
  assert (H0 : weight_at 0 t = scalar_from_wide bytes) by (unfold weight_at, after_weights; simpl; by rewrite E).
  assert (HS : ∀ k, after_weights (S k) t = after_weights k t1)
    by (intros k; unfold after_weights; rewrite Nat.iter_succ_r, E; done).
  assert (HwS : ∀ k, weight_at (S k) t = weight_at k t1) by (intros k; unfold weight_at; by rewrite HS).
  case_bool_decide as Hw; cbn [negb].
  - rewrite IH. split.
    + intros (k & Hk & -> & Hnz & Hz & ->). exists (S k). rewrite HwS, HS. split; [lia|].
      split; [done|]. split; [done|]. split; [|done]. intros [|i] Hi; [by rewrite H0|]. rewrite HwS. apply Hz. lia.
    + intros ([|k] & Hk & -> & Hnz & Hz & ->); [by rewrite H0 in Hnz|]. exists k. rewrite HwS in Hnz |- *. rewrite HS.
      split; [lia|]. split; [done|]. split; [done|]. split; [|done]. intros i Hi. rewrite <-HwS. apply Hz. lia.
  - split.
    + intros [= <- <-]. exists 0%nat. rewrite HS, H0. split; [lia|]. split; [done|]. split; [done|]. split; [lia|done].
    + intros ([|k] & Hk & -> & Hnz & Hz & ->); [by rewrite H0, HS|].
      exfalso. apply Hw. rewrite <-H0. apply Hz. lia.
Qed.
Lemma feldman_weights_within fuel indices t :
  is_Some (feldman_weights fuel indices t) ↔ weights_within fuel indices t.
Proof.
  revert t. induction indices as [|index indices IH]; intros t; cbn [feldman_weights weights_within];
    [split; [done|by eexists]|].
  set (t1 := append_u64 _ _ t). clearbody t1. split.
  - intros [ws E]. apply bind_Some in E as ([w t2] & (k & Hk & -> & Hnz & Hz & ->)%feldman_weight_Some & E).
    apply bind_Some in E as (ws' & E & _). exists k. do 3 (split; [done|]). apply IH. by exists ws'.
  - intros (k & Hk & Hnz & Hz & [ws Hws]%IH). exists (weight_at k t1 :: ws).
    apply bind_Some. exists (weight_at k t1, after_weights (S k) t1).
    split; [apply feldman_weight_Some; by exists k|]. cbn beta iota. by rewrite Hws.
Qed.
(** More fuel changes nothing. *)
Lemma feldman_weights_mono n fuel indices t ws :
  feldman_weights n indices t = Some ws → (n ≤ fuel)%nat → feldman_weights fuel indices t = Some ws.
Proof.
  intros E Hn. revert t ws E. induction indices as [|index indices IH]; intros t ws; cbn [feldman_weights]; [done|].
  intros ([w t1] & (k & Hk & Hw)%feldman_weight_Some & E)%bind_Some. apply bind_Some in E as (ws' & E & [= <-]).
  apply bind_Some. exists (w, t1). split; [apply feldman_weight_Some; exists k; split; [lia|done]|].
  cbn beta iota. by rewrite (IH _ _ E).
Qed.
(** Every weight of the statement is found within [n] draws. *)
Definition weights_drawn (n : nat) (st : BatchedEvrfStatement) (t : Transcript) : Prop :=
  weights_within n (seq 0 (length (be_receivers st)))
    (append_message (bstr "validation-domain") FELDMAN_BATCH_DOMAIN t).
Lemma weights_drawn_total n fuel st t :
  weights_drawn n st t → (n ≤ fuel)%nat →
  is_Some (drawn_weights n st t) ∧ drawn_weights fuel st t = drawn_weights n st t.
Proof.
  unfold drawn_weights. intros [ws Hws]%feldman_weights_within Hn. rewrite Hws.
  split; [by eexists|]. by apply feldman_weights_mono with n.
Qed.

Lemma feldman_batch_matches_Ok fuel st t b :
  batched_shape st → indices_wf st →
  feldman_batch_matches fuel st t = Ok b ↔
  ∃ weights, drawn_weights fuel st t = Some weights ∧ b = gin_is_identity (weighted_residual weights st).
Proof.
  intros Hshape Hwf. unfold feldman_batch_matches, feldman_batch_weights_from_transcript.
  rewrite (proj2 (validate_shape_Ok st ()) Hshape). cbn [map_err mbind result_bind].
  fold (drawn_weights fuel st t). destruct (drawn_weights fuel st t) as [weights|] eqn:Ew; cbn [ok_or mbind result_bind].
  - unfold drawn_weights in Ew. pose proof (length_feldman_weights _ _ _ _ Ew) as Hl. rewrite length_seq in Hl.
    rewrite feldman_combination by done. fold (weighted_residual weights st). split.
    + intros [= <-]. by exists weights.
    + by intros (w & [= <-] & ->).
  - split; [done|]. by intros (w & ? & _).
Qed.

Lemma for_each_Forall {E A} (f : A → result E unit) l (P : A → Prop) :
  Forall (λ a, f a = Ok () ↔ P a) l → for_each f l = Ok () ↔ Forall P l.
Proof.
  intros Hl. rewrite for_each_Ok, Forall_forall. rewrite Forall_forall in Hl.
  split; intros H a Ha; apply Hl; auto.
Qed.

Lemma validate_relations_Ok fuel st (topt : option Transcript) :
  indices_wf st →
  validate_batched_public_relations_impl fuel st topt = Ok () ↔
  batched_shape st ∧ be_pk1 st ≠ cpoint_identity ∧ Forall receiver_checked (be_receivers st) ∧
  match topt with
  | None => feldman_condition None st
  | Some t => ∃ weights, drawn_weights fuel st t = Some weights ∧ feldman_condition (Some weights) st
  end.
Proof.
  intros Hwf. unfold validate_batched_public_relations_impl.
  rewrite bind_Ok. setoid_rewrite map_err_Ok. setoid_rewrite validate_shape_Ok.
  assert (Hreceivers : ∀ batch, for_each (check_receiver batch st) (be_receivers st) = Ok () ↔
    Forall receiver_checked (be_receivers st) ∧ (batch = false → feldman_condition None st)).
  { intros batch. rewrite (for_each_Forall _ _ (λ rec, receiver_checked rec ∧
      (batch = false → feldman_residual (be_commitment_coefficients st) rec = cpoint_identity))).
    2: { eapply Forall_impl; [exact Hwf|]. intros rec Hrec. by apply check_receiver_Ok. }
    unfold feldman_condition. rewrite !Forall_forall. naive_solver. }
  split.
  - intros (_ & Hshape & E). destruct (gin_is_identity (be_pk1 st)) eqn:Epk; [done|].
    apply gin_is_identity_false in Epk. apply bind_Ok in E as ([] & Hr%map_err_Ok & E).
    apply Hreceivers in Hr as [Hr Hf]. split; [done|]. split; [done|]. split; [done|].
    destruct topt as [t|]; [|by apply Hf].
    apply bind_Ok in E as (b & Hb & E). apply feldman_batch_matches_Ok in Hb as (ws & Hws & ->); [|done..].
    exists ws. split; [done|]. unfold gin_is_identity in E. by case_bool_decide.
  - intros (Hshape & Hpk & Hr & Hf). exists (). split; [done|].
    apply gin_is_identity_false in Hpk. rewrite Hpk.
    rewrite (proj2 (Hreceivers _)) by (split; [exact Hr|]; by destruct topt). cbn [map_err mbind result_bind].
    destruct topt as [t|]; [|done]. destruct Hf as (ws & Hws & Hf).
    rewrite (proj2 (feldman_batch_matches_Ok fuel st t true Hshape Hwf)); [done|].
    exists ws. split; [done|]. unfold gin_is_identity. by rewrite bool_decide_eq_true_2.
Qed.

Lemma native_relations_iff st :
  native_relations st ↔
  batched_shape st ∧ be_pk1 st ≠ cpoint_identity ∧ Forall receiver_checked (be_receivers st) ∧
  feldman_condition None st.
Proof.
  unfold native_relations, feldman_condition. rewrite !Forall_forall. setoid_rewrite receiver_relation_iff.
  naive_solver.
Qed.

(** The combination of exact commitments is the identity. *)
Lemma feldman_exact_combines weights st :
  feldman_condition None st → feldman_condition (Some weights) st.
Proof.
  unfold feldman_condition, weighted_residual. intros Hall. revert weights. induction Hall as [|rec recs Hrec _ IH]; intros weights.
  - apply lincomb_nil_r.
  - destruct weights as [|w weights]; [apply lincomb_nil_l|]. cbn [fmap list_fmap].
    rewrite lincomb_cons, Hrec, IH, cpoint_identity_mul, cpoint_add_id_l. done.
Qed.
End checks.

(** ** The messages of a statement *)
Section messages.
Context {EC : EvrfCurves} {ECL : EvrfCurveLaws} {ME : Merlin}.
Context {CC1 : CycleCodec (H:=gin_cycle)} {CC2 : CycleCodec (H:=gout_cycle)}.
#[local] Existing Instance gout_cycle | 0.
#[local] Instance gin_laws3 : ProofStreamLaws (H:=GinStreamCurve) := CycleCurve_laws.
#[local] Instance gout_laws3 : ProofStreamLaws (H:=GoutStreamCurve) := CycleCurve_laws.
Abbreviation gin_encoded P := (ps_encode_point (ProofStreamCurve:=GinStreamCurve) P).
Abbreviation gin_scalar_encoded x := (ps_encode_scalar (ProofStreamCurve:=GinStreamCurve) x).

Definition receiver_messages (j : nat) (root : TranscriptRoot) (rec : BatchedReceiverStatement)
    : list (list byte * list byte) :=
  [(bstr "idx", le64 (Z.of_nat j)); (bstr "statement-root", root);
   (bstr "receiver", le64 (pi_get (br_receiver rec))); (bstr "PK_j", gin_encoded (br_pkj rec));
   (bstr "share-commitment", gin_encoded (br_share_commitment rec));
   (bstr "pad-commitment", gin_encoded (br_pad_commitment rec));
   (bstr "encrypted-share", gin_scalar_encoded (br_encrypted_share rec))].
Fixpoint receivers_messages (j : nat) (roots : list TranscriptRoot) (recs : list BatchedReceiverStatement)
    : list (list byte * list byte) :=
  match roots, recs with
  | root :: roots, rec :: recs => receiver_messages j root rec ++ receivers_messages (S j) roots recs
  | _, _ => []
  end.
Definition batched_messages (st : BatchedEvrfStatement) : list (list byte * list byte) :=
  [(bstr "msg", be_msg st);
   (bstr "beta", ps_encode_scalar (ProofStreamCurve:=GoutStreamCurve) (be_beta st));
   (bstr "threshold", le64 (be_threshold st)); (bstr "PK_1", gin_encoded (be_pk1 st));
   (bstr "commitment-len", le64 (len (be_commitment_coefficients st)))]
  ++ ((λ C, (bstr "commitment", gin_encoded C)) <$> be_commitment_coefficients st)
  ++ [(bstr "num-receivers", le64 (len (be_receivers st)))]
  ++ receivers_messages 0 (be_statement_roots st) (be_receivers st).
(** The points that may not be the identity. *)
Definition batched_points (st : BatchedEvrfStatement) : Prop :=
  be_pk1 st ≠ cpoint_identity ∧
  Forall (λ rec, br_pkj rec ≠ cpoint_identity ∧ br_pad_commitment rec ≠ cpoint_identity) (be_receivers st).

Lemma reporting_Ok {St E A} (m : stateful St E A) s a s' : reporting m s = (Ok a, s') ↔ m s = (Ok a, s').
Proof. unfold reporting. destruct (m s) as [[b|e] s1]; simpl; naive_solver. Qed.

Context {St : Type} `{!Observe St} `{!ObserveLaws St}.
Implicit Types s : St.
Definition absorbed (messages : list (list byte * list byte)) s : St :=
  with_transcript (append_all messages (transcript_of s)) s.
Lemma absorbed_nil s : absorbed [] s = s.
Proof. apply with_transcript_of. Qed.
Lemma absorbed_app ms ms' s : absorbed ms' (absorbed ms s) = absorbed (ms ++ ms') s.
Proof.
  unfold absorbed. rewrite with_transcript_twice, transcript_of_with. unfold append_all.
  by rewrite foldl_app.
Qed.
Lemma observe_absorbed label bytes s : observe_bytes label bytes s = absorbed [(label, bytes)] s.
Proof. reflexivity. Qed.

Lemma observed_Ok label bytes s u s' :
  draw (E:=option CoreError) (λ s, (tt, observe_bytes label bytes s)) s = (Ok u, s') ↔
  s' = absorbed [(label, bytes)] s.
Proof. unfold draw. rewrite observe_absorbed. destruct u. naive_solver. Qed.
Lemma reject_observed_Ok label P s u s' :
  reporting (observe_point GinStreamCurve label P Reject) s = (Ok u, s') ↔
  P ≠ cpoint_identity ∧ s' = absorbed [(label, gin_encoded P)] s.
Proof. rewrite reporting_Ok. apply observe_gin_Ok. Qed.
Lemma allow_observed_Ok label P s u s' :
  reporting (observe_point GinStreamCurve label P Allow) s = (Ok u, s') ↔
  s' = absorbed [(label, gin_encoded P)] s.
Proof.
  rewrite reporting_Ok. etransitivity; [apply (observe_point_Ok GinStreamCurve)|].
  rewrite observe_absorbed. unfold admits. naive_solver.
Qed.
Lemma scalar_observed_Ok {C : ProofStreamCurve} {CL : ProofStreamLaws (H:=C)} label x s u s' :
  reporting (observe_scalar C label x) s = (Ok u, s') ↔ s' = absorbed [(label, ps_encode_scalar x)] s.
Proof. rewrite reporting_Ok, (observe_scalar_eq C), observe_absorbed. destruct u. naive_solver. Qed.

Lemma observe_receiver_Ok roots j root rec s u s' :
  roots !! j = Some root →
  observe_receiver roots (j, rec) s = (Ok u, s') ↔
  (br_pkj rec ≠ cpoint_identity ∧ br_pad_commitment rec ≠ cpoint_identity) ∧
  s' = absorbed (receiver_messages j root rec) s.
Proof.
  intros Hr. unfold observe_receiver. split.
  - intros E. apply stateful_bind_Ok in E as ([] & s1 & ->%observed_Ok & E).
    apply stateful_bind_Ok in E as (r & s2 & [Er ->]%lift_Ok & E). apply ok_or_Ok in Er.
    assert (Hroot : Some r = Some root) by exact (eq_trans (eq_sym Er) Hr). injection Hroot as ->.
    apply stateful_bind_Ok in E as ([] & s3 & ->%observed_Ok & E).
    apply stateful_bind_Ok in E as ([] & s4 & ->%observed_Ok & E).
    apply stateful_bind_Ok in E as ([] & s5 & [Hk ->]%reject_observed_Ok & E).
    apply stateful_bind_Ok in E as ([] & s6 & ->%allow_observed_Ok & E).
    apply stateful_bind_Ok in E as ([] & s7 & [Hp ->]%reject_observed_Ok & E).
    apply scalar_observed_Ok in E as ->. rewrite !absorbed_app. by split.
  - intros [[Hk Hp] ->]. destruct u.
    apply stateful_bind_Ok. eexists (), _. split; [by apply observed_Ok|].
    apply stateful_bind_Ok. eexists root, _. split; [apply lift_Ok; split; [apply ok_or_Ok, Hr|reflexivity]|].
    apply stateful_bind_Ok. eexists (), _. split; [by apply observed_Ok|].
    apply stateful_bind_Ok. eexists (), _. split; [by apply observed_Ok|].
    apply stateful_bind_Ok. eexists (), _. split; [apply reject_observed_Ok; split; [exact Hk|reflexivity]|].
    apply stateful_bind_Ok. eexists (), _. split; [by apply allow_observed_Ok|].
    apply stateful_bind_Ok. eexists (), _. split; [apply reject_observed_Ok; split; [exact Hp|reflexivity]|].
    apply scalar_observed_Ok. rewrite !absorbed_app. reflexivity.
Qed.

Lemma observe_receivers_Ok pre roots recs s u s' :
  length roots = length recs →
  sfor_each (observe_receiver (pre ++ roots)) (imap (λ j, pair (length pre + j)%nat) recs) s = (Ok u, s') ↔
  Forall (λ rec, br_pkj rec ≠ cpoint_identity ∧ br_pad_commitment rec ≠ cpoint_identity) recs ∧
  s' = absorbed (receivers_messages (length pre) roots recs) s.
Proof.
  revert pre recs s. induction roots as [|root roots IH]; intros pre [|rec recs] s [=].
  - cbn [imap receivers_messages]. rewrite absorbed_nil. destruct u. split; [|by intros [_ ->]].
    intros [= <-]. split; [constructor|done].
  - rewrite imap_cons. cbn [sfor_each receivers_messages]. rewrite Nat.add_0_r.
    assert (Hroot : (pre ++ root :: roots) !! length pre = Some root) by by apply list_lookup_middle.
    rewrite stateful_bind_Ok. setoid_rewrite (observe_receiver_Ok _ _ root); [|done].
    assert (Himap : imap ((λ j, pair (length pre + j)%nat) ∘ S) recs = imap (λ j, pair (length (pre ++ [root]) + j)%nat) recs).
    { apply imap_ext. intros i x _. cbn. f_equal. rewrite length_app. cbn. lia. }
    rewrite Himap.
    replace (pre ++ root :: roots) with ((pre ++ [root]) ++ roots) by by rewrite <-app_assoc.
    setoid_rewrite IH; [|done]. rewrite length_app, Forall_cons. cbn [length].
    replace (length pre + 1)%nat with (S (length pre)) by lia. split.
    + intros (_ & s1 & [Hrec ->] & Hrecs & ->). by rewrite absorbed_app.
    + intros [[Hrec Hrecs] ->]. exists (), (absorbed (receiver_messages (length pre) root rec) s).
      by rewrite absorbed_app.
Qed.

Lemma observe_commitments_Ok Cs s u s' :
  sfor_each (λ C, reporting (observe_point GinStreamCurve (bstr "commitment") C Allow)) Cs s = (Ok u, s') ↔
  s' = absorbed ((λ C, (bstr "commitment", gin_encoded C)) <$> Cs) s.
Proof.
  revert s. induction Cs as [|C Cs IH]; intros s; cbn [sfor_each fmap list_fmap].
  - rewrite absorbed_nil. destruct u. split; [by intros [= <-]|by intros ->].
  - rewrite stateful_bind_Ok. setoid_rewrite allow_observed_Ok. setoid_rewrite IH. split.
    + intros (_ & s1 & -> & ->). by rewrite absorbed_app.
    + intros ->. exists (), (absorbed [(bstr "commitment", gin_encoded C)] s). by rewrite absorbed_app.
Qed.

Lemma observe_batched_statement_Ok st s u s' :
  length (be_statement_roots st) = length (be_receivers st) →
  observe_batched_statement st s = (Ok u, s') ↔ batched_points st ∧ s' = absorbed (batched_messages st) s.
Proof.
  intros Hl. unfold observe_batched_statement, batched_points, batched_messages.
  pose proof (λ s u s', observe_receivers_Ok [] (be_statement_roots st) (be_receivers st) s u s' Hl) as Hrecs.
  cbn [length app Nat.add] in Hrecs. split.
  - intros E. apply stateful_bind_Ok in E as ([] & s1 & ->%observed_Ok & E).
    apply stateful_bind_Ok in E as ([] & s2 & ->%(scalar_observed_Ok (C:=GoutStreamCurve)) & E).
    apply stateful_bind_Ok in E as ([] & s3 & ->%observed_Ok & E).
    apply stateful_bind_Ok in E as ([] & s4 & [Hk ->]%reject_observed_Ok & E).
    apply stateful_bind_Ok in E as ([] & s5 & ->%observed_Ok & E).
    apply stateful_bind_Ok in E as ([] & s6 & ->%observe_commitments_Ok & E).
    apply stateful_bind_Ok in E as ([] & s7 & ->%observed_Ok & E).
    apply Hrecs in E as [Hr ->]. rewrite !absorbed_app. by split.
  - intros [[Hk Hr] ->]. destruct u.
    apply stateful_bind_Ok. eexists (), _. split; [by apply observed_Ok|].
    apply stateful_bind_Ok. eexists (), _. split; [by apply (scalar_observed_Ok (C:=GoutStreamCurve))|].
    apply stateful_bind_Ok. eexists (), _. split; [by apply observed_Ok|].
    apply stateful_bind_Ok. eexists (), _. split; [apply reject_observed_Ok; split; [exact Hk|reflexivity]|].
    apply stateful_bind_Ok. eexists (), _. split; [by apply observed_Ok|].
    apply stateful_bind_Ok. eexists (), _. split; [by apply observe_commitments_Ok|].
    apply stateful_bind_Ok. eexists (), _. split; [by apply observed_Ok|].
    apply Hrecs. split; [exact Hr|]. rewrite !absorbed_app. reflexivity.
Qed.
End messages.

(** ** Properties *)
Section properties.
Context {EC : EvrfCurves} {ECL : EvrfCurveLaws} {ME : Merlin}.
#[local] Existing Instance gout_cycle | 0.
#[local] Existing Instance gin_cycle | 1.

(** Weights that are nonzero expose a receiver that alone is off. *)
Lemma lincomb_single_residual (weights : list Fq) (Ps : list Gin) i w P :
  weights !! i = Some w → Ps !! i = Some P →
  (∀ k Q, k ≠ i → Ps !! k = Some Q → Q = cpoint_identity) → lincomb weights Ps = P ⊙ w.
Proof.
  revert weights i. induction Ps as [|Q Ps IH]; intros [|v weights] [|i] Hw HP Hall; try done.
  - injection Hw as ->. injection HP as ->. rewrite lincomb_cons.
    assert (Hrest : lincomb weights Ps = cpoint_identity).
    { assert (Hz : Forall (λ Q, Q = cpoint_identity) Ps).
      { apply Forall_lookup. intros k Q Hk. by apply (Hall (S k)). }
      clear -Hz. revert weights. induction Hz as [|Q Ps -> _ IH]; intros [|v weights];
        [apply lincomb_nil_l|apply lincomb_nil_r|apply lincomb_nil_l|].
      by rewrite lincomb_cons, IH, cpoint_identity_mul, cpoint_add_id_l. }
    by rewrite Hrest, cpoint_add_id_r.
  - rewrite lincomb_cons, (Hall 0%nat Q), cpoint_identity_mul, cpoint_add_id_l by done.
    apply (IH weights i); [done|done|]. intros k R Hk HR. by apply (Hall (S k)); [congruence|].
Qed.

Definition combines (st : BatchedEvrfStatement) : bool :=
  (99 <=? Z.min (be_threshold st) (len (be_receivers st)))%Z.

(** The verifier accepts what the prover accepts, once the weights are drawn. *)
Lemma for_verifier_native fuel st t :
  indices_wf st → native_relations st → is_Some (drawn_weights fuel st t) →
  validate_batched_public_relations_for_verifier fuel st t = Ok ().
Proof.
  intros Hwf (H1 & H2 & H3 & H4)%native_relations_iff [ws Hws].
  unfold validate_batched_public_relations_for_verifier. apply validate_relations_Ok; [done|].
  do 3 (split; [done|]). destruct (99 <=? _)%Z; [|done].
  exists ws. split; [done|]. by apply (feldman_exact_combines ws).
Qed.

(** The outcome of the verifier's check depends on its fuel through the weights only. *)
Lemma for_verifier_fuel n fuel st t :
  drawn_weights fuel st t = drawn_weights n st t →
  validate_batched_public_relations_for_verifier fuel st t
  = validate_batched_public_relations_for_verifier n st t.
Proof.
  unfold drawn_weights. intros E.
  unfold validate_batched_public_relations_for_verifier, validate_batched_public_relations_impl.
  unfold feldman_batch_matches, feldman_batch_weights_from_transcript.
  destruct (99 <=? _)%Z; [|done]. by rewrite E.
Qed.
Lemma for_verifier_returns fuel st t :
  is_Some (drawn_weights fuel st t) → validate_batched_public_relations_for_verifier fuel st t ≠ Err None.
Proof.
  unfold drawn_weights. intros [ws E].
  unfold validate_batched_public_relations_for_verifier, validate_batched_public_relations_impl.
  destruct (validate_batched_statement_shape st) eqn:Es; [|done]. cbn [map_err mbind result_bind].
  destruct (gin_is_identity (be_pk1 st)); [done|].
  destruct (99 <=? _)%Z; (destruct (for_each _ _); [|done]); cbn [map_err mbind result_bind]; [|done].
  unfold feldman_batch_matches, feldman_batch_weights_from_transcript. rewrite Es, E.
  cbn [map_err mbind result_bind ok_or]. by destruct (gin_is_identity _).
Qed.

(** C9: the native checks of a batched statement, for receivers with valid indices.
    The prover's check accepts exactly the statements of the right shape (receivers in
    increasing order, one coefficient per threshold, one root per receiver) whose keys
    and pads are not the identity, whose encrypted shares open to the sum of share and
    pad, and whose share commitments lie on the committed polynomial.  From 99 receivers
    and coefficients on, the verifier replaces the last check by one combination with
    nonzero weights drawn from the transcript of the statement.  If every weight is
    nonzero within [n] draws, then fuel for [n] draws is enough for the check to return,
    more fuel does not change its outcome, and it accepts every statement that the
    prover's check accepts.  With any fuel, it refuses a statement in which exactly one
    share commitment is off the polynomial. *)
Theorem batched_relations_exact n fuel st t :
  indices_wf st →
  (validate_batched_public_relations st = Ok () ↔ native_relations st) ∧
  (validate_batched_public_relations_for_verifier fuel st t = Ok () ↔
   batched_shape st ∧ be_pk1 st ≠ cpoint_identity ∧ Forall receiver_checked (be_receivers st) ∧
   if combines st then ∃ weights, drawn_weights fuel st t = Some weights ∧ Forall (λ w, w ≠ 0) weights ∧
                                  weighted_residual weights st = cpoint_identity
   else feldman_condition None st) ∧
  (weights_drawn n st t → (n ≤ fuel)%nat →
   validate_batched_public_relations_for_verifier fuel st t ≠ Err None ∧
   validate_batched_public_relations_for_verifier fuel st t
   = validate_batched_public_relations_for_verifier n st t ∧
   (native_relations st → validate_batched_public_relations_for_verifier fuel st t = Ok ())) ∧
  (∀ i rec, be_receivers st !! i = Some rec →
     feldman_residual (be_commitment_coefficients st) rec ≠ cpoint_identity →
     (∀ k rec', k ≠ i → be_receivers st !! k = Some rec' →
        feldman_residual (be_commitment_coefficients st) rec' = cpoint_identity) →
     validate_batched_public_relations_for_verifier fuel st t ≠ Ok ()).
Proof.
  intros Hwf. pose proof (for_verifier_fuel n fuel st t) as Hfuel. pose proof (for_verifier_returns fuel st t) as Hret.
  assert (Hnative : native_relations st → is_Some (drawn_weights fuel st t) →
    validate_batched_public_relations_for_verifier fuel st t = Ok ()) by by apply for_verifier_native.
  unfold validate_batched_public_relations, validate_batched_public_relations_for_verifier in *.
  fold (combines st) in *. rewrite !validate_relations_Ok by done. rewrite native_relations_iff in Hnative |- *.
  split; [done|]. split; [|split].
  - destruct (combines st); [|done]. do 3 (apply and_iff_compat_l). split.
    + intros (ws & Hws & H). exists ws. split; [done|]. split; [by eapply feldman_weights_nonzero|done].
    + intros (ws & Hws & _ & H). by exists ws.
  - intros Hw Hn. destruct (weights_drawn_total n fuel st t Hw Hn) as [Hsome Heq].
    rewrite <-Heq in Hsome. split; [by apply Hret|]. split; [by apply Hfuel|].
    intros Hrel. by apply (validate_relations_Ok fuel st _ Hwf), Hnative.
  - intros i rec Hrec Hne Hothers. rewrite validate_relations_Ok by done.
    intros (_ & _ & _ & Hf). destruct (combines st).
    + destruct Hf as (ws & Hws & Hf). pose proof (length_feldman_weights _ _ _ _ Hws) as Hl.
      rewrite length_seq in Hl.
      destruct (lookup_lt_is_Some_2 ws i) as [w Hw]; [rewrite Hl; by eapply lookup_lt_Some|].
      pose proof (feldman_weights_nonzero _ _ _ _ Hws) as Hnz. rewrite Forall_lookup in Hnz. specialize (Hnz i w Hw).
      cbn [feldman_condition] in Hf. unfold weighted_residual in Hf.
      rewrite (lincomb_single_residual ws _ i w (feldman_residual (be_commitment_coefficients st) rec)) in Hf;
        [by apply nonce_point in Hf|done|by rewrite list_lookup_fmap, Hrec|].
      intros k Q Hk HQ. rewrite list_lookup_fmap in HQ. apply fmap_Some in HQ as (rec' & Hr' & ->). by eapply Hothers.
    + cbn [feldman_condition] in Hf. rewrite Forall_lookup in Hf. by apply Hne, (Hf i).
Qed.
End properties.

(** Two receivers of the polynomial with commitments 2 and 3. *)
Definition toy_batched : BatchedEvrfStatement (EC:=ToyCurves) :=
  MkBatchedEvrfStatement (EC:=ToyCurves) (replicate 32 x07) (toy 3) (toy 5) 2 [toy 2; toy 3]
    [replicate 32 x01; replicate 32 x02]
    [MkBatchedReceiverStatement (EC:=ToyCurves) (MkParticipantIndex 1) (toy 4) (toy 5) (toy 7) (toy 12);
     MkBatchedReceiverStatement (EC:=ToyCurves) (MkParticipantIndex 2) (toy 6) (toy 8) (toy 9) (toy 17)].
Lemma toy_batched_wf : indices_wf (EC:=ToyCurves) toy_batched.
Proof. repeat constructor; unfold participant_wf; cbn; unfold u32_MAX; lia. Qed.

(** A dealer with 99 receivers, whose Feldman checks the verifier combines; and the same
    with the share of the first receiver off the polynomial. *)
Definition large_coefficients : list Toy := toy <$> seqZ 2 99.
Definition large_receiver (off : Z) (i : Z) : BatchedReceiverStatement (EC:=ToyCurves) :=
  let p := MkParticipantIndex i in
  let share := sadd (FieldOps:=Toy_ops) (feldman_share_commitment (EC:=ToyCurves) large_coefficients p) (toy off) in
  MkBatchedReceiverStatement (EC:=ToyCurves) p (toy 4) share (toy 9) (sadd (FieldOps:=Toy_ops) share (toy 9)).
Definition large_batched (off : Z) : BatchedEvrfStatement (EC:=ToyCurves) :=
  MkBatchedEvrfStatement (EC:=ToyCurves) (replicate 32 x07) (toy 3) (toy 5) 99 large_coefficients
    (replicate 99 (replicate 32 x01)) (large_receiver off 1 :: (large_receiver 0 <$> seqZ 2 98)).
Lemma large_batched_wf off : indices_wf (EC:=ToyCurves) (large_batched off).
Proof.
  apply Forall_forall. intros rec Hrec%list_elem_of_In.
  assert (Hall : forallb (λ rec, bool_decide (participant_wf (br_receiver (EC:=ToyCurves) rec)))
    (be_receivers (large_batched off)) = true) by (vm_compute; reflexivity).
  rewrite forallb_forall in Hall. exact (bool_decide_eq_true_1 _ (Hall rec Hrec)).
Qed.

Lemma batched_relations_exact_witness :
  indices_wf (EC:=ToyCurves) (large_batched 0) ∧ combines (EC:=ToyCurves) (large_batched 0) = true ∧
  native_relations (EC:=ToyCurves) (ECL:=ToyCurves_laws) (large_batched 0) ∧
  validate_batched_public_relations_for_verifier (EC:=ToyCurves) (ME:=ToyMerlin) 1 (large_batched 0) 7%Z = Ok () ∧
  validate_batched_public_relations_for_verifier (EC:=ToyCurves) (ME:=ToyMerlin) 1 (large_batched 1) 7%Z ≠ Ok ().
Proof.
  destruct (batched_relations_exact (EC:=ToyCurves) (ECL:=ToyCurves_laws) (ME:=ToyMerlin) 1 1 (large_batched 0) 7%Z
    (large_batched_wf 0)) as (H1 & _ & H3 & _).
  assert (Hn : native_relations (EC:=ToyCurves) (ECL:=ToyCurves_laws) (large_batched 0)) by (apply H1; vm_refl).
  assert (Hw : weights_drawn (EC:=ToyCurves) (ME:=ToyMerlin) 1 (large_batched 0) 7%Z).
  { apply feldman_weights_within. apply (bool_decide_eq_true_1 (is_Some _)). vm_refl. }
  split; [exact (large_batched_wf 0)|]. split; [vm_refl|]. split; [exact Hn|].
  split; [exact (proj2 (proj2 (H3 Hw (le_n 1))) Hn)|].
  apply (batched_relations_exact (EC:=ToyCurves) (ECL:=ToyCurves_laws) (ME:=ToyMerlin) 1 1 (large_batched 1) 7%Z
    (large_batched_wf 1)) with (i := 0%nat) (rec := large_receiver 1 1).
  - reflexivity.
  - intros E%(f_equal toy_val). vm_compute in E. discriminate.
  - intros [|k] rec Hk Hrec; [congruence|].
    assert (Hall : Forall (λ rec, feldman_residual (EC:=ToyCurves) (ECL:=ToyCurves_laws) large_coefficients rec
      = cpoint_identity) (large_receiver 0 <$> seqZ 2 98)).
    { apply (bool_decide_eq_true_1 (Forall _ _)). vm_refl. }
    exact (proj1 (Forall_lookup _ _) Hall k rec Hrec).
Defined.
