(* ===== verification/EvrfBatchedCircuit.v ===== *)
(** * The circuit of the batched dealer proof (golden-evrf/paper.rs, module secp_secq)

    The secret key of the dealer is decomposed once and exponentiates the public key
    of every receiver; the first coordinate of each shared point exponentiates the two
    hash bases of the message, the combination of the results is reduced modulo the
    group order, and the pad exponentiates the generator.  No value in between is
    public. *)

From Stdlib Require Import ZArith Lia Field Strings.Byte.
From stdpp Require Import prelude gmap strings list_numbers.
From S2P Require Import Prelude CoreError Group Algebra TestSupport Participant Transcript Cycle BpUtil InnerProduct ConstraintSystem Generators R1csProof Prover Verifier R1csSync CircuitLogic EvrfBits EvrfCurves EvrfToy EvrfChord ProofStream EvrfSigma EvrfOneReceiver EvrfOneReceiverProof EvrfBatchedStatement.

Local Open Scope golden_scope.

#[export] Program Instance byte_countable : Countable byte :=
  inj_countable' byte_to_Z byte_of_Z byte_of_to_Z.

Section model.
Context {EC : EvrfCurves} {ME : Merlin}.
#[local] Existing Instance gout_cycle | 0.

(** The table of the generator; a failure is a panic. *)
Definition shared_g_in_chord_precomp : option ChordPrecomp :=
  match precompute_chord (cpoint_generator (Cycle:=gin_cycle)) K_BITS with
  | Ok precomp => Some precomp
  | Err _ => None
  end.

(** ** Tables of the receivers' keys, by canonical encoding *)
Definition point_key (point : Gin) : list byte :=
  compressed_as_bytes (Cycle:=gin_cycle) (point_compress (Cycle:=gin_cycle) point).

Definition ReceiverChordPrecomps : Type := gmap (list byte) ChordPrecomp.
(** [entry(key).or_insert(point)]. *)
Definition insert_point (points : gmap (list byte) Gin) (rec : BatchedReceiverStatement)
    : gmap (list byte) Gin :=
  match points !! point_key (br_pkj rec) with
  | Some _ => points
  | None => <[point_key (br_pkj rec) := br_pkj rec]> points
  end.
Definition precomp_points (statements : list BatchedEvrfStatement) : gmap (list byte) Gin :=
  foldl insert_point ∅ (mjoin (be_receivers <$> statements)).
Definition ReceiverChordPrecomps_new (statements : list BatchedEvrfStatement)
    : Result ReceiverChordPrecomps :=
  tables ← traverse (λ '(key, point), precomp ← precompute_chord point K_BITS; Ok (key, precomp))
             (map_to_list (precomp_points statements));
  Ok (list_to_map tables).
Definition receiver_precomps_get (precomps : ReceiverChordPrecomps) (point : Gin) : Result ChordPrecomp :=
  ok_or ProofVerificationFailed (precomps !! point_key point).

(** ** One receiver *)
Record HiddenReceiverWitness := MkHiddenReceiverWitness {
  hw_sk_pkj : ChordWitness;
  hw_k_bits : list (option Fp);
  hw_t1 : ChordWitness;
  hw_t2 : ChordWitness;
  hw_reduce_q : Fp;
  hw_pad : Fp;
  hw_pad_bits : list (option Fp);
  hw_pad_commitment : ChordWitness;
}.

(** [shared_g_in_chord_precomp] is an argument here, as it may panic. *)
Definition build_hidden_receiver_slot (rec : BatchedReceiverStatement) (sk_bit_vars : list CSVariable)
    (sk_window_products : list CSVariable) (precomp_pkj precomp_h1 precomp_h2 precomp_g_in : ChordPrecomp)
    (beta : Fp) (witness : option HiddenReceiverWitness) : gadget unit :=
  '(s_x, _) ← chord_exponentiate_r1cs_with_result sk_bit_vars precomp_pkj sk_window_products None
                (hw_sk_pkj <$> witness);
  let verifier_k_bits := replicate (K_BITS + 1) None in
  let k_bits := match witness with Some w => hw_k_bits w | None => verifier_k_bits end in
  k_bit_vars ← bit_decompose s_x k_bits;
  k_window_products ← chord_window_products k_bit_vars;
  '(x_t1, _) ← chord_exponentiate_r1cs_with_result k_bit_vars precomp_h1 k_window_products None
                 (hw_t1 <$> witness);
  '(x_t2, _) ← chord_exponentiate_r1cs_with_result k_bit_vars precomp_h2 k_window_products None
                 (hw_t2 <$> witness);
  let r_lc := lc_add (var_mul x_t1 beta) (lc_from_variable x_t2) in
  pad_var ← allocate (hw_pad <$> witness);
  let reduce_assignment := hw_reduce_q <$> witness in
  '(reduce, reduce_right, reduce_out) ← allocate_multiplier ((λ bit, (bit, 1 - bit)) <$> reduce_assignment);
  _ ← constrain (var_sub reduce_right (lc_sub (lc_from_scalar 1) (lc_from_variable reduce)));
  _ ← constrain (lc_from_variable reduce_out);
  _ ← constrain (var_sub pad_var (lc_sub r_lc (var_mul reduce Q_AS_FP)));
  let verifier_pad_bits := replicate (K_BITS + 1) None in
  let pad_bits := match witness with Some w => hw_pad_bits w | None => verifier_pad_bits end in
  pad_bit_vars ← bit_decompose_q pad_var pad_bits;
  _ ← constrain_bits_lt_bound_when pad_bit_vars pad_bits SECP256K1_P_MINUS_Q_LE reduce;
  pad_window_products ← chord_window_products pad_bit_vars;
  match affine (br_pad_commitment rec) with
  | Err _ => fails R1CSVerificationError
  | Ok (pad_commitment_x, pad_commitment_y) =>
      _ ← chord_exponentiate_r1cs_with_result pad_bit_vars precomp_g_in pad_window_products
            (Some (pad_commitment_x, pad_commitment_y)) (hw_pad_commitment <$> witness);
      gret tt
  end.

Definition compute_hidden_receiver_witness (sk1 : Fq) (rec : BatchedReceiverStatement) (beta : Fp)
    (precomp_pkj precomp_h1 precomp_h2 precomp_g_in : ChordPrecomp) : Result HiddenReceiverWitness :=
  let sj := br_pkj rec ⊙ sk1 in
  '(s_x, _) ← affine sj;
  let k_bool_bits := decompose_k_fp s_x (K_BITS + 1) in
  let k_bits := bit_options k_bool_bits in
  t1_witness ← chord_compute_witness_precomputed k_bool_bits precomp_h1;
  t2_witness ← chord_compute_witness_precomputed k_bool_bits precomp_h2;
  '(t1_x, _) ← ok_or ProofVerificationFailed (last (checkpoint_coords t1_witness));
  '(t2_x, _) ← ok_or ProofVerificationFailed (last (checkpoint_coords t2_witness));
  let r := beta * t1_x + t2_x in
  let pad_fq := fp_to_fq r in
  let pad := fq_to_fp pad_fq in
  let reduce_q := if bool_decide (pad = r) then 0 else 1 in
  let pad_commitment := gin_mul_generator pad_fq in
  if negb (same_encoding (C:=gin_cycle) pad_commitment (br_pad_commitment rec))
  then Err ProofVerificationFailed
  else
    let sk_bits := decompose_k_fp (fq_to_fp sk1) (K_BITS + 1) in
    let pad_bool_bits := decompose_k_fp pad (K_BITS + 1) in
    sk_pkj ← chord_compute_witness_precomputed sk_bits precomp_pkj;
    pad_commitment ← chord_compute_witness_precomputed pad_bool_bits precomp_g_in;
    Ok (MkHiddenReceiverWitness sk_pkj k_bits t1_witness t2_witness reduce_q pad
          (bit_options pad_bool_bits) pad_commitment).

End model.

(** ** Bits of an integer *)
Definition bits_of (z : Z) : list bool := (λ j, Z.testbit z (Z.of_nat j)) <$> seq 0 (K_BITS + 1).
Lemma length_bits_of z : length (bits_of z) = (K_BITS + 1)%nat.
Proof. unfold bits_of. by rewrite length_fmap, length_seq. Qed.
Lemma bits_value_testbit bs j :
  Z.testbit (bits_value bs) (Z.of_nat j) = default false (bs !! j).
Proof.
  revert j. induction bs as [|b bs IH]; intros j; [by rewrite Z.testbit_0_l|].
  cbn [bits_value foldr]. change (foldr _ 0%Z bs) with (bits_value bs).
  rewrite Z.add_comm. destruct j as [|j].
  - cbn [lookup list_lookup default from_option id]. destruct b; cbn [Z.b2z];
      [apply Z.testbit_odd_0|rewrite Z.add_0_r; apply Z.testbit_even_0].
  - rewrite Nat2Z.inj_succ. destruct b; cbn [Z.b2z];
      [rewrite Z.testbit_odd_succ by lia|rewrite Z.add_0_r, Z.testbit_even_succ by lia]; apply IH.
Qed.
Lemma bits_of_value bs : length bs = (K_BITS + 1)%nat → bits_of (bits_value bs) = bs.
Proof.
  intros Hl. apply list_eq_same_length with (K_BITS + 1)%nat; [done|by rewrite length_bits_of|].
  intros i x y Hi Hx Hy. unfold bits_of in Hx. rewrite list_lookup_fmap, lookup_seq_lt in Hx by done.
  injection Hx as <-. by rewrite bits_value_testbit, Hy.
Qed.
Lemma bits_value_of z : (0 ≤ z < 2 ^ Z.of_nat (K_BITS + 1))%Z → bits_value (bits_of z) = z.
Proof.
  intros Hz. apply Z.bits_inj'. intros j Hj. rewrite <-(Z2Nat.id j) by done. rewrite bits_value_testbit.
  destruct (Nat.lt_ge_cases (Z.to_nat j) (K_BITS + 1)) as [Hlt|Hge].
  - unfold bits_of. by rewrite list_lookup_fmap, lookup_seq_lt.
  - rewrite lookup_ge_None_2 by (by rewrite length_bits_of). cbn [default from_option]. symmetry.
    destruct (Z.eq_dec z 0%Z) as [->|Hne]; [apply Z.testbit_0_l|].
    apply Z.bits_above_log2; [lia|]. apply Z.log2_lt_pow2; [lia|].
    eapply Z.lt_le_trans; [apply Hz|]. apply Z.pow_le_mono_r; lia.
Qed.

Abbreviation modulus_p := (le_value SECP256K1_BASE_MODULUS_LE).
Abbreviation modulus_q := (le_value SECP256K1_SCALAR_MODULUS_LE).
Lemma moduli : (0 < modulus_q < modulus_p)%Z ∧ (modulus_p < 2 * modulus_q)%Z ∧
  (modulus_p = modulus_q + le_value SECP256K1_P_MINUS_Q_LE)%Z ∧
  (modulus_p < 2 ^ Z.of_nat (K_BITS + 1))%Z.
Proof. by vm_compute. Qed.
Lemma mod_once r :
  (0 ≤ r < modulus_p)%Z → (r mod modulus_q)%Z = if (r <? modulus_q)%Z then r else (r - modulus_q)%Z.
Proof.
  pose proof moduli as (Hq & H2 & _). intros Hr. destruct (Z.ltb_spec r modulus_q) as [Hlt|Hge].
  - apply Z.mod_small. lia.
  - symmetry. apply Z.mod_unique_pos with 1%Z; lia.
Qed.

(** ** What the circuit of a receiver states *)
Section slot.
Context {EC : EvrfCurves} {ECL : EvrfCurveLaws} {ME : Merlin}.
#[local] Existing Instance gout_cycle | 0.
Add Field slot_field : (scalar_field_theory (F:=Fp)).

(** [z] is a canonical integer of [x]: in a field of as many elements as the modulus
    there is only one. *)
Definition represents (z : Z) (x : Fp) : Prop := (0 ≤ z < modulus_p)%Z ∧ of_Z z = x.
(** The prover's witness of a power exists: no addition of the chain is exceptional. *)
Definition chord_exists (P : Gin) (z : Z) (pc : ChordPrecomp) : Prop :=
  ∃ wit, chord_computed P (bits_of z) pc wit.

Record SlotTables := MkSlotTables {
  st_pkj : ChordPrecomp;
  st_h1 : ChordPrecomp;
  st_h2 : ChordPrecomp;
  st_g : ChordPrecomp;
}.
(** The shared point of [sk] and the key has the coordinate [k], the two bases powered
    by [k] combine to [r], and the commitment is the power of [r] reduced. *)
Definition shared_relation (sk : Z) (PK : Gin) (k : Z) : Prop :=
  ∃ S, affine (PK ⊙ of_Z sk) = Ok S ∧ represents k S.1.
Definition output_relation (H1 H2 : Gin) (β : Fp) (k r : Z) : Prop :=
  ∃ T1 T2, affine (H1 ⊙ of_Z k) = Ok T1 ∧ affine (H2 ⊙ of_Z k) = Ok T2 ∧ represents r (β * T1.1 + T2.1).
Definition pad_relation (C : Gin) (r : Z) : Prop :=
  C = cpoint_generator ⊙ of_Z (r mod modulus_q).

Context (H1 H2 : Gin) (β : Fp) (rec : BatchedReceiverStatement) (pcs : SlotTables).
Abbreviation PK := (br_pkj rec).
Abbreviation G := (cpoint_generator (Cycle:=gin_cycle)).
Definition slot (vars products : list CSVariable) (w : option HiddenReceiverWitness) : gadget unit :=
  build_hidden_receiver_slot rec vars products (st_pkj pcs) (st_h1 pcs) (st_h2 pcs) (st_g pcs) β w.

Record slot_sound (sk k r : Z) : Prop := MkSlotSound {
  ss_shared : chord_exists PK sk (st_pkj pcs) → shared_relation sk PK k;
  ss_output : chord_exists H1 k (st_h1 pcs) → chord_exists H2 k (st_h2 pcs) →
    output_relation H1 H2 β k r;
  ss_pad : chord_exists G (r mod modulus_q) (st_g pcs) → pad_relation (br_pad_commitment rec) r;
}.

(** *** Soundness *)
Lemma implies_when {A} σ (P : Prop) (c : circuit A) Q :
  (P → implies σ c Q) → implies σ c (λ a, P → Q a).
Proof. induction c; cbn [implies]; auto. Qed.
Lemma gimplies_when {A} σ (P : Prop) (m : gadget A) (Q : A → Prop) :
  (P → gimplies σ m Q) → gimplies σ m (λ a, P → Q a).
Proof.
  intros Hm. unfold gimplies. eapply implies_mono; [by apply (implies_when σ P)|].
  intros r Hr a Ha HP. exact (Hr HP a Ha).
Qed.

Lemma chord_when σ P z pc vars products result w :
  σ One = 1 → bits_are σ vars (bits_of z) →
  (chord_exists P z pc → products_are K_BITS (bits_of z) σ products) →
  gimplies σ (chord_exponentiate_r1cs_with_result vars pc products result w) (λ '(x, y),
    chord_exists P z pc → affine (P ⊙ of_Z (bits_value (bits_of z))) = Ok (σ x, σ y) ∧
      match result with Some r => r = (σ x, σ y) | None => True end).
Proof.
  intros Hone Hb Hp. eapply gimplies_mono.
  - apply (gimplies_when σ (chord_exists P z pc)). intros [wit Hc].
    apply (chord_power_sound σ P (bits_of z) pc wit vars products result w Hone Hc Hb). apply Hp. by exists wit.
  - by intros [x y] Hxy.
Qed.
Lemma products_when σ z vars :
  σ One = 1 → bits_are σ vars (bits_of z) →
  gimplies σ (chord_window_products vars) (λ products,
    (∃ P pc, chord_exists P z pc) → products_are K_BITS (bits_of z) σ products).
Proof.
  intros Hone Hb. apply gimplies_when. intros (P & pc & wit & Hc).
  by apply (window_products_sound σ P (bits_of z) pc wit).
Qed.

Lemma decompose_when σ v bits modulus :
  σ One = 1 → (le_value modulus < 2 ^ Z.of_nat (K_BITS + 1))%Z →
  gimplies σ (bit_decompose_bounded v bits modulus) (λ vars,
    ∃ z, (0 ≤ z < le_value modulus)%Z ∧ bits_are σ vars (bits_of z) ∧ σ v = of_Z z).
Proof.
  intros Hone Hm. eapply gimplies_mono; [by apply bit_decompose_bounded_sound|].
  intros vars (bs & Hl & Hb & Hv & Hlt). exists (bits_value bs). rewrite bits_of_value by done.
  pose proof (bits_value_range bs). split_and!; try done; lia.
Qed.

Lemma slot_is_sound σ sk vars products w :
  σ One = 1 → (0 ≤ sk < 2 ^ Z.of_nat (K_BITS + 1))%Z → bits_are σ vars (bits_of sk) →
  (chord_exists PK sk (st_pkj pcs) → products_are K_BITS (bits_of sk) σ products) →
  gimplies σ (slot vars products w) (λ _, ∃ k r, slot_sound sk k r).
Proof.
  intros Hone Hsk Hb Hp. unfold slot, build_hidden_receiver_slot.
  pose proof moduli as (Hq & Hpq & Hdiff & Hp256).
  eapply gimplies_bind; [by apply (chord_when σ PK sk)|]. intros [s_x s_y] HS.
  eapply gimplies_bind; [by apply decompose_when|]. intros k_vars (k & Hk & Hkb & Hkv).
  eapply gimplies_bind; [by apply (products_when σ k)|]. intros k_products Hkp.
  eapply gimplies_bind; [apply (chord_when σ H1 k (st_h1 pcs)); [done|done|]; eauto|]. intros [x1 y1] HT1.
  eapply gimplies_bind; [apply (chord_when σ H2 k (st_h2 pcs)); [done|done|]; eauto|]. intros [x2 y2] HT2.
  eapply gimplies_bind; [apply gimplies_allocate|]. intros pad_var _.
  eapply gimplies_bind; [apply gimplies_allocate_multiplier|]. intros [[reduce reduce_right] reduce_out] Hm.
  eapply gimplies_bind; [apply gimplies_constrain|]. intros [] Hright.
  eapply gimplies_bind; [apply gimplies_constrain|]. intros [] Hout.
  eapply gimplies_bind; [apply gimplies_constrain|]. intros [] Hpad.
  eapply gimplies_bind; [apply decompose_when; [done|]; lia|]. intros pad_vars (pad & Hpadr & Hpadb & Hpadv).
  assert (Hbit : ∃ c, σ reduce = bit_scalar c). { by apply (boolean_multiplier σ reduce reduce_right reduce_out). }
  destruct Hbit as [c Hc].
  eapply gimplies_bind.
  { apply (constrain_bits_lt_bound_when_sound σ pad_vars _ _ reduce (bits_of pad) c);
      [done|by vm_compute|apply fp_characteristic|apply length_bits_of|done|done]. }
  intros [] Hlt. eapply gimplies_bind; [by apply (products_when σ pad)|]. intros pad_products Hpp.
  destruct (affine (br_pad_commitment rec)) as [[c_x c_y]|e] eqn:Ec; [|apply gimplies_fails].
  eapply gimplies_bind; [apply (chord_when σ G pad (st_g pcs)); [done|done|]; eauto|]. intros [xc yc] HC.
  apply gimplies_ret. exists k, (pad + Z.b2z c * modulus_q)%Z.
  assert (Hr : (0 ≤ pad + Z.b2z c * modulus_q < modulus_p)%Z).
  { rewrite bits_value_of in Hlt by lia. destruct c; cbn [Z.b2z]; [specialize (Hlt eq_refl)|]; lia. }
  assert (Hmod : ((pad + Z.b2z c * modulus_q) mod modulus_q = pad)%Z).
  { rewrite Z.mod_add, Z.mod_small by lia. done. }
  split; rewrite ?Hmod.
  - intros E. destruct (HS E) as [A _]. rewrite bits_value_of in A by lia. eexists. split; [exact A|]. by split.
  - intros E1 E2. destruct (HT1 E1) as [A1 _], (HT2 E2) as [A2 _]. rewrite bits_value_of in A1, A2 by lia.
    do 2 eexists. split; [exact A1|]. split; [exact A2|]. split; [exact Hr|]. cbn [fst].
    rewrite var_sub_value, lc_value_sub, lc_value_add, !var_mul_value, lc_value_variable, Hc, Q_AS_FP_value in Hpad.
    rewrite of_Z_add, of_Z_mul, <-bit_scalar_of_Z, <-Hpadv. apply (proj1 (ssub_eq_0 _ _)) in Hpad. rewrite Hpad. ring.
  - intros E. destruct (HC E) as [A Hres]. rewrite <-Hres in A. rewrite bits_value_of in A by lia.
    unfold pad_relation. rewrite Hmod. exact (affine_inj _ _ _ Ec A).
Qed.

(** *** Completeness *)
(** The tables are those of the bases, and the witness holds the values of [k] and
    of [r] reduced. *)
Record slot_honest (sk k r : Z) (w : HiddenReceiverWitness) : Prop := MkSlotHonest {
  sh_sk : chord_computed PK (bits_of sk) (st_pkj pcs) (hw_sk_pkj w);
  sh_k_bits : hw_k_bits w = bit_options (bits_of k);
  sh_t1 : chord_computed H1 (bits_of k) (st_h1 pcs) (hw_t1 w);
  sh_t2 : chord_computed H2 (bits_of k) (st_h2 pcs) (hw_t2 w);
  sh_reduce : ∃ c, hw_reduce_q w = bit_scalar c ∧
    of_Z (r mod modulus_q) = of_Z r - bit_scalar c * of_Z modulus_q ∧
    (c = true → r mod modulus_q < modulus_p - modulus_q)%Z;
  sh_pad : hw_pad w = of_Z (r mod modulus_q);
  sh_pad_bits : hw_pad_bits w = bit_options (bits_of (r mod modulus_q));
  sh_pad_commitment : chord_computed G (bits_of (r mod modulus_q)) (st_g pcs) (hw_pad_commitment w);
}.
Record hidden_relation (sk k r : Z) : Prop := MkHiddenRelation {
  hr_shared : shared_relation sk PK k;
  hr_output : output_relation H1 H2 β k r;
  hr_pad : pad_relation (br_pad_commitment rec) r;
}.

(** Facts about the environment hold in its extensions. *)
Ltac carry HΓ :=
  lazymatch type of HΓ with extends ?Γ _ =>
    repeat match goal with H : (λ _ _, _) _ _ |- _ => cbn beta in H end;
    repeat match goal with
    | H : bits_known Γ _ _ |- _ => apply (bits_known_mono _ _ _ _ HΓ) in H
    | H : products_known _ _ Γ _ |- _ => apply (products_extends _ _ _ _ HΓ) in H
    | H : Γ _ _ |- _ => apply HΓ in H
    end
  end.

Lemma known_bits_length Γ vars z : bits_known Γ vars (bits_of z) → length vars = (K_BITS + 1)%nat.
Proof. intros Hb. rewrite (Forall2_length _ _ _ Hb). apply length_bits_of. Qed.

(** The reduced pad and its power. *)
Definition pad_part (pad_var reduce : CSVariable) (w : option HiddenReceiverWitness) : gadget unit :=
  let pad_bits := match w with Some w => hw_pad_bits w | None => replicate (K_BITS + 1) None end in
  pad_bit_vars ← bit_decompose_q pad_var pad_bits;
  _ ← constrain_bits_lt_bound_when pad_bit_vars pad_bits SECP256K1_P_MINUS_Q_LE reduce;
  pad_window_products ← chord_window_products pad_bit_vars;
  match affine (br_pad_commitment rec) with
  | Err _ => fails R1CSVerificationError
  | Ok (x, y) =>
      _ ← chord_exponentiate_r1cs_with_result pad_bit_vars (st_g pcs) pad_window_products (Some (x, y))
            (hw_pad_commitment <$> w);
      gret tt
  end.
Definition reduce_part (x_t1 x_t2 : CSVariable) (w : option HiddenReceiverWitness) : gadget unit :=
  let r_lc := lc_add (var_mul x_t1 β) (lc_from_variable x_t2) in
  pad_var ← allocate (hw_pad <$> w);
  '(reduce, reduce_right, reduce_out) ←
    allocate_multiplier ((λ bit, (bit, 1 - bit)) <$> (hw_reduce_q <$> w));
  _ ← constrain (var_sub reduce_right (lc_sub (lc_from_scalar 1) (lc_from_variable reduce)));
  _ ← constrain (lc_from_variable reduce_out);
  _ ← constrain (var_sub pad_var (lc_sub r_lc (var_mul reduce Q_AS_FP)));
  pad_part pad_var reduce w.
Lemma slot_split vars products w :
  slot vars products w =
  ('(s_x, _) ← chord_exponentiate_r1cs_with_result vars (st_pkj pcs) products None (hw_sk_pkj <$> w);
   let k_bits := match w with Some w => hw_k_bits w | None => replicate (K_BITS + 1) None end in
   k_bit_vars ← bit_decompose s_x k_bits;
   k_window_products ← chord_window_products k_bit_vars;
   '(x_t1, _) ← chord_exponentiate_r1cs_with_result k_bit_vars (st_h1 pcs) k_window_products None (hw_t1 <$> w);
   '(x_t2, _) ← chord_exponentiate_r1cs_with_result k_bit_vars (st_h2 pcs) k_window_products None (hw_t2 <$> w);
   reduce_part x_t1 x_t2 w).
Proof. done. Qed.

Lemma pad_complete Γ pad_var reduce c pad w :
  Γ One 1 → (0 ≤ pad < modulus_q)%Z → Γ pad_var (of_Z pad) → Γ reduce (bit_scalar c) →
  (c = true → pad < modulus_p - modulus_q)%Z →
  hw_pad_bits w = bit_options (bits_of pad) →
  chord_computed G (bits_of pad) (st_g pcs) (hw_pad_commitment w) →
  br_pad_commitment rec = G ⊙ of_Z pad →
  gproduces Γ (pad_part pad_var reduce (Some w)) (λ _ _, True).
Proof.
  intros Hone Hpad Hv Hc Hlt Hbits Hw HC. pose proof moduli as (Hq & Hpq & Hdiff & Hp256).
  unfold pad_part. rewrite Hbits.
  assert (Hval : bits_value (bits_of pad) = pad) by (apply bits_value_of; lia).
  eapply gproduces_bind.
  { apply bit_decompose_bounded_complete; [done|lia|apply length_bits_of|by rewrite Hval|rewrite Hval; lia]. }
  intros Γ1 vars HΓ1 Hb. carry HΓ1. eapply gproduces_bind.
  { apply (constrain_bits_lt_bound_when_complete Γ1 vars _ reduce (bits_of pad) c);
      [done|by vm_compute|apply length_bits_of|done|done|rewrite Hval; intros E; specialize (Hlt E); lia]. }
  intros Γ2 [] HΓ2 _. carry HΓ2. eapply gproduces_bind; [by apply (window_products_complete Γ2 G (bits_of pad) (st_g pcs) (hw_pad_commitment w))|].
  intros Γ3 products HΓ3 Hp. carry HΓ3.
  destruct (chord_computed_chain _ _ _ _ Hw) as (_ & L & D & _ & _ & Haff). rewrite Hval, <-HC in Haff.
  rewrite Haff. destruct (L (K_BITS / 2)%nat) as [x y] eqn:EL.
  eapply gproduces_bind; [|intros; by apply gproduces_ret].
  apply (chord_power_complete Γ3 G (bits_of pad) (st_g pcs) _ vars products _ (x, y)); try done.
  by rewrite Hval, <-HC.
Qed.

Lemma slot_complete Γ sk k r vars products w :
  Γ One 1 → (0 ≤ sk < 2 ^ Z.of_nat (K_BITS + 1))%Z → bits_known Γ vars (bits_of sk) →
  products_known K_BITS (bits_of sk) Γ products → hidden_relation sk k r → slot_honest sk k r w →
  gproduces Γ (slot vars products (Some w)) (λ _ _, True).
Proof.
  intros Hone Hsk Hb Hp [(S & HS & Hk) (T1 & T2 & HT1 & HT2 & Hr) HC] [].
  pose proof moduli as (Hq & Hpq & Hdiff & Hp256). destruct Hk as [Hk HkS], Hr as [Hr HrT].
  assert (Hsv : bits_value (bits_of sk) = sk) by (by apply bits_value_of).
  assert (Hkv : bits_value (bits_of k) = k) by (apply bits_value_of; lia).
  rewrite slot_split. cbn [fmap option_fmap option_map]. rewrite sh_k_bits0. cbv zeta.
  eapply gproduces_bind.
  { apply (chord_power_complete Γ PK (bits_of sk) (st_pkj pcs) _ vars products None S); try done. by rewrite Hsv. }
  intros Γ1 [s_x s_y] HΓ1 [Hsx _]. carry HΓ1. eapply gproduces_bind.
  { apply bit_decompose_bounded_complete; [done|lia|apply length_bits_of|by rewrite Hkv, HkS|rewrite Hkv; lia]. }
  intros Γ2 k_vars HΓ2 Hkb. carry HΓ2. eapply gproduces_bind.
  { by apply (window_products_complete Γ2 H1 (bits_of k) (st_h1 pcs) (hw_t1 w)). }
  intros Γ3 k_products HΓ3 Hkp. carry HΓ3. eapply gproduces_bind.
  { apply (chord_power_complete Γ3 H1 (bits_of k) (st_h1 pcs) _ k_vars k_products None T1); try done. by rewrite Hkv. }
  intros Γ4 [x1 y1] HΓ4 [Hx1 _]. carry HΓ4. eapply gproduces_bind.
  { apply (chord_power_complete Γ4 H2 (bits_of k) (st_h2 pcs) _ k_vars k_products None T2); try done. by rewrite Hkv. }
  intros Γ5 [x2 y2] HΓ5 [Hx2 _]. carry HΓ5. unfold reduce_part. cbn [fmap option_fmap option_map].
  rewrite sh_pad0. destruct sh_reduce0 as (c & -> & Hred & Hlt).
  eapply gproduces_bind; [by apply gproduces_allocate with (Q := λ Γ v, Γ v (of_Z (r mod modulus_q)))|].
  intros Γ6 pad_var HΓ6 Hpad. carry HΓ6.
  eapply gproduces_bind; [by apply gproduces_allocate_multiplier with
    (Q := λ Γ '(vl, vr, vo), Γ vl (bit_scalar c) ∧ Γ vr (1 - bit_scalar c) ∧
            Γ vo (bit_scalar c * (1 - bit_scalar c)))|].
  intros Γ7 [[reduce rr] ro] HΓ7 (Hl & Hrr & Hro). carry HΓ7.
  eapply gproduces_bind.
  { eapply gproduces_equal with (Q := λ _ _, True); [|apply ssub_diag|done].
    apply known_var_sub; [exact Hrr|]. eapply known_eq; [apply known_sub; [by apply known_scalar|by apply known_variable]|ring]. }
  intros Γ8 [] HΓ8 _. carry HΓ8. eapply gproduces_bind.
  { eapply gproduces_equal with (Q := λ _ _, True); [by apply known_variable|destruct c; cbn; ring|done]. }
  intros Γ9 [] HΓ9 _. carry HΓ9. eapply gproduces_bind.
  { eapply gproduces_equal with (Q := λ _ _, True); [|apply ssub_diag|done].
    apply known_var_sub; [exact Hpad|]. eapply known_eq.
    - apply known_sub; [apply known_add; [by apply known_var_mul|by apply known_variable]|by apply known_var_mul].
    - rewrite Hred, Q_AS_FP_value, HrT. ring. }
  intros Γ10 [] HΓ10 _. carry HΓ10. apply (pad_complete Γ10 pad_var reduce c (r mod modulus_q)); try done.
  apply Z.mod_pos_bound. lia.
Qed.

(** *** Sizes, and the calls of prover and verifier *)
Definition tables_sized : Prop :=
  Forall (λ pc, length (windows pc) = (K_BITS / 2)%nat) [st_pkj pcs; st_h1 pcs; st_h2 pcs; st_g pcs].
Definition witness_shaped (w : HiddenReceiverWitness) : Prop :=
  Forall (λ wit, witness_fits (K_BITS / 2) (Some wit) = true)
    [hw_sk_pkj w; hw_t1 w; hw_t2 w; hw_pad_commitment w] ∧
  ∃ k pad, hw_k_bits w = bit_options (bits_of k) ∧ hw_pad_bits w = bit_options (bits_of pad).

Lemma power_sized vars pc products result :
  length vars = (K_BITS + 1)%nat → length products = (K_BITS / 2)%nat →
  length (windows pc) = (K_BITS / 2)%nat →
  gsized (chord_exponentiate_r1cs_with_result vars pc products result None) 384 16 (λ _, True).
Proof. intros Hv Hp Hw. by apply (chord_exponentiate_sized vars pc products result None K_BITS). Qed.
Lemma products_sized vars :
  length vars = (K_BITS + 1)%nat →
  gsized (chord_window_products vars) 128 0 (λ products, length products = (K_BITS / 2)%nat).
Proof. intros Hv. by apply (chord_window_products_sized vars K_BITS). Qed.

Lemma pad_sized pad_var reduce c_xy :
  tables_sized → affine (br_pad_commitment rec) = Ok c_xy →
  gsized (pad_part pad_var reduce None) 1224 16 (λ _, True).
Proof.
  intros Ht Hc. unfold tables_sized in Ht. rewrite !Forall_cons in Ht. destruct Ht as (_ & _ & _ & Hg & _).
  unfold pad_part. eapply (gsized_step _ _ 514 0);
    [by apply bit_decompose_bounded_sized; rewrite length_replicate|lia|lia|].
  intros vars Hv. eapply (gsized_step _ _ 198 0); [|lia|lia|].
  { eapply gsized_eq; [apply constrain_bits_lt_bound_when_sized; [done|by rewrite length_replicate]| |done].
    vm_compute. reflexivity. }
  intros [] _. eapply (gsized_step _ _ 128 0); [by apply products_sized|lia|lia|].
  intros products Hp. rewrite Hc. destruct c_xy as [x y].
  eapply (gsized_step _ _ 384 16); [by apply power_sized|lia|lia|]. intros [? ?] _. by size_done.
Qed.

Lemma slot_sized vars products c_xy :
  length vars = (K_BITS + 1)%nat → length products = (K_BITS / 2)%nat →
  tables_sized → affine (br_pad_commitment rec) = Ok c_xy →
  gsized (slot vars products None) 3019 65 (λ _, True).
Proof.
  intros Hv Hp Ht Hc. pose proof Ht as Ht'. unfold tables_sized in Ht'. rewrite !Forall_cons in Ht'.
  destruct Ht' as (Hpk & Hh1 & Hh2 & _). rewrite slot_split. cbn [fmap option_fmap option_map].
  eapply (gsized_step _ _ 384 16); [by apply power_sized|lia|lia|]. intros [s_x s_y] _.
  eapply (gsized_step _ _ 514 0); [by apply bit_decompose_bounded_sized; rewrite length_replicate|lia|lia|].
  intros k_vars Hk. eapply (gsized_step _ _ 128 0); [by apply products_sized|lia|lia|]. intros k_products Hkp.
  eapply (gsized_step _ _ 384 16); [by apply power_sized|lia|lia|]. intros [x1 y1] _.
  eapply (gsized_step _ _ 384 16); [by apply power_sized|lia|lia|]. intros [x2 y2] _.
  unfold reduce_part. size_step. intros pad_var _. size_step. intros [[reduce rr] ro] _.
  size_step. intros [] _. size_step. intros [] _. size_step. intros [] _.
  eapply gsized_eq; [by eapply pad_sized|lia|lia].
Qed.

Lemma power_similar vars pc products result wit :
  length vars = (K_BITS + 1)%nat → witness_fits (K_BITS / 2) (Some wit) = true →
  gsimilar eq (chord_exponentiate_r1cs_with_result vars pc products result (Some wit))
    (chord_exponentiate_r1cs_with_result vars pc products result None).
Proof. intros Hv Hw. apply chord_exponentiate_similar. rewrite Hv. exact Hw. Qed.
Lemma decompose_similar v z modulus :
  gsimilar (λ vars vars', vars = vars' ∧ length vars' = (K_BITS + 1)%nat)
    (bit_decompose_bounded v (bit_options (bits_of z)) modulus)
    (bit_decompose_bounded v (replicate (K_BITS + 1) None) modulus).
Proof.
  eapply gsimilar_sized.
  - apply bit_decompose_bounded_similar. by rewrite length_replicate, length_bits_of.
  - apply bit_decompose_bounded_sized. by rewrite length_replicate.
Qed.

Lemma pad_similar pad_var reduce w :
  witness_shaped w → gsimilar eq (pad_part pad_var reduce (Some w)) (pad_part pad_var reduce None).
Proof.
  intros [Hf (k & pad & _ & Hbits)]. rewrite !Forall_cons in Hf. destruct Hf as (_ & _ & _ & Hw & _).
  unfold pad_part. rewrite Hbits. eapply gsimilar_bind; [apply decompose_similar|].
  intros vars _ [<- Hv]. eapply gsimilar_bind.
  { apply constrain_bits_lt_bound_when_similar. by rewrite length_replicate, length_bits_of. }
  intros [] _ <-. eapply gsimilar_bind; [apply chord_window_products_similar|]. intros products _ <-.
  destruct (affine _) as [[x y]|e]; [|apply gsimilar_fails].
  eapply gsimilar_bind; [by apply power_similar|]. intros [? ?] _ <-. by apply gsimilar_ret.
Qed.

Lemma slot_similar vars products w :
  length vars = (K_BITS + 1)%nat → witness_shaped w →
  gsimilar eq (slot vars products (Some w)) (slot vars products None).
Proof.
  intros Hv Hs. pose proof Hs as [Hf (k & pad & Hk & _)]. rewrite !Forall_cons in Hf.
  destruct Hf as (Hsk & Hw1 & Hw2 & _). rewrite !slot_split. cbn [fmap option_fmap option_map].
  rewrite Hk. eapply gsimilar_bind; [by apply power_similar|]. intros [s_x s_y] _ <-.
  eapply gsimilar_bind; [apply decompose_similar|]. intros k_vars _ [<- Hkv].
  eapply gsimilar_bind; [apply chord_window_products_similar|]. intros k_products _ <-.
  eapply gsimilar_bind; [by apply power_similar|]. intros [x1 y1] _ <-.
  eapply gsimilar_bind; [by apply power_similar|]. intros [x2 y2] _ <-.
  unfold reduce_part. cbn [fmap option_fmap option_map].
  similar_step. intros pad_var _ <-. similar_step. intros [[reduce rr] ro] _ <-.
  similar_step. intros [] _ <-. similar_step. intros [] _ <-. similar_step. intros [] _ <-.
  by apply pad_similar.
Qed.

Lemma honest_shaped sk k r w : slot_honest sk k r w → witness_shaped w ∧ tables_sized.
Proof.
  intros [Hsk Hk Hw1 Hw2 (c & Hc & _) _ Hpad Hwc]. split.
  - split; [|by do 2 eexists].
    repeat (apply Forall_cons; split); [| | | |constructor]; eapply chord_computed_fits; eassumption.
  - unfold tables_sized.
    repeat (apply Forall_cons; split); [| | | |constructor]; eapply chord_computed_windows; eassumption.
Qed.

(** *** The prover's witness *)
Abbreviation canonical x := (le_value (fp_to_repr x)).
Lemma decompose_bits_of x : decompose_k_fp x (K_BITS + 1) = bits_of (canonical x).
Proof.
  rewrite decompose_k_fp_bits. unfold bits_of. apply list_fmap_ext. intros _ j _. apply modulus_bit_spec.
Qed.
Lemma canonical_represents x : represents (canonical x) x.
Proof. split; [split; [apply le_value_nonneg|apply fp_to_repr_below]|apply fp_to_repr_value]. Qed.

(** Reduced through its representations, a scalar is its integer modulo the order. *)
Lemma pad_value (x : Fp) :
  fp_to_fq x = of_Z (canonical x mod modulus_q) ∧
  fq_to_fp (fp_to_fq x) = of_Z (canonical x mod modulus_q) ∧
  canonical (fq_to_fp (fp_to_fq x)) = (canonical x mod modulus_q)%Z.
Proof.
  assert (E : le_value (fq_to_repr (fp_to_fq x)) = (canonical x mod modulus_q)%Z).
  { rewrite fp_to_fq_value. set (w := le_value _).
    assert (Hw : (0 ≤ w < modulus_q)%Z) by (split; [apply le_value_nonneg|apply fq_to_repr_below]).
    destruct (reduce_once x) as [Hr|Hr]; cbv zeta in Hr; fold w in Hr; rewrite <-Hr.
    - symmetry. by apply Z.mod_small.
    - symmetry. replace (w + modulus_q)%Z with (w + 1 * modulus_q)%Z by lia. rewrite Z.mod_add by lia. by apply Z.mod_small. }
  rewrite <-E, fq_to_fp_value. split; [symmetry; apply fq_to_repr_value|]. split; [done|]. apply fp_repr_of_fq.
Qed.

Lemma reduce_witness (x : Fp) :
  let pad := fq_to_fp (fp_to_fq x) in
  ∃ c, (if bool_decide (pad = x) then 0 else 1) = bit_scalar c ∧
    of_Z (canonical x mod modulus_q) = of_Z (canonical x) - bit_scalar c * of_Z modulus_q ∧
    (c = true → canonical x mod modulus_q < modulus_p - modulus_q)%Z.
Proof.
  destruct (pad_value x) as (_ & Hpad & _). destruct (canonical_represents x) as [Hr Hx].
  cbv zeta. exists (negb (bool_decide (fq_to_fp (fp_to_fq x) = x))).
  case_bool_decide as E; cbn [negb bit_scalar].
  - split; [done|]. split; [|done]. rewrite <-Hpad, E, Hx. ring.
  - pose proof moduli. rewrite Hpad in E. rewrite mod_once in E |- * by done.
    destruct (Z.ltb_spec (canonical x) modulus_q); [done|]. split; [done|]. split; [|lia].
    rewrite of_Z_sub. ring.
Qed.

Lemma checkpoint_last (L D : nat → Fp * Fp) :
  last (checkpoint_coords (chain_witness K_BITS L D)) = Some (L (K_BITS / 2)%nat).
Proof. reflexivity. Qed.

Context {CC1 : CycleCodec (H:=gin_cycle)}.
(** The bases are the tables', and what the dealer knows is true. *)
Record receiver_true (sk1 : Fq) (k r : Z) : Prop := MkReceiverTrue {
  rt_shared : ∃ S, affine (PK ⊙ sk1) = Ok S ∧ k = canonical S.1;
  rt_output : ∃ T1 T2, affine (H1 ⊙ of_Z k) = Ok T1 ∧ affine (H2 ⊙ of_Z k) = Ok T2 ∧
    r = canonical (β * T1.1 + T2.1);
  rt_pad : pad_relation (br_pad_commitment rec) r;
  rt_sk : chord_exists PK (le_value (fq_to_repr sk1)) (st_pkj pcs);
  rt_h1 : chord_exists H1 k (st_h1 pcs);
  rt_h2 : chord_exists H2 k (st_h2 pcs);
  rt_g : chord_exists G (r mod modulus_q) (st_g pcs);
}.

Lemma secret_bits (sk1 : Fq) :
  decompose_k_fp (fq_to_fp sk1) (K_BITS + 1) = bits_of (le_value (fq_to_repr sk1)).
Proof. by rewrite decompose_bits_of, fq_to_fp_value, fp_repr_of_fq. Qed.

Lemma compute_witness_true sk1 k r :
  receiver_true sk1 k r →
  let sk := le_value (fq_to_repr sk1) in
  hidden_relation sk k r ∧ ∃ w,
    compute_hidden_receiver_witness sk1 rec β (st_pkj pcs) (st_h1 pcs) (st_h2 pcs) (st_g pcs) = Ok w ∧
    slot_honest sk k r w.
Proof.
  intros [(S & HS & ->) (T1 & T2 & A1 & A2 & ->) HC (wS & Hsk) (w1 & Hw1) (w2 & Hw2) (wC & Hwc)] sk.
  destruct (pad_value (β * T1.1 + T2.1)) as (Hq & Hpad & Hcan).
  split.
  { split; [|do 2 eexists; split; [exact A1|split; [exact A2|apply canonical_represents]]|exact HC].
    exists S. split; [unfold sk; by rewrite fq_to_repr_value|apply canonical_represents]. }
  unfold compute_hidden_receiver_witness. rewrite HS. destruct S as [s_x s_y]. cbn [fst mbind result_bind] in *.
  rewrite decompose_bits_of. pose proof Hw1 as (_ & E1 & _). pose proof Hw2 as (_ & E2 & _).
  rewrite E1, E2. cbn [mbind result_bind].
  destruct (chord_computed_chain _ _ _ _ Hw1) as (_ & L1 & D1 & _ & -> & B1).
  destruct (chord_computed_chain _ _ _ _ Hw2) as (_ & L2 & D2 & _ & -> & B2).
  rewrite !checkpoint_last. rewrite bits_value_of in B1, B2 by (pose proof moduli; pose proof (canonical_represents s_x) as [? _]; lia).
  assert (ET1 : L1 (K_BITS / 2)%nat = T1) by congruence. assert (ET2 : L2 (K_BITS / 2)%nat = T2) by congruence.
  rewrite ET1, ET2.
  cbn [ok_or mbind result_bind]. destruct T1 as [t1_x t1_y], T2 as [t2_x t2_y]. cbn [fst] in *.
  rewrite (same_encoding_spec (CY:=gin_cycle)), bool_decide_eq_true_2
    by (rewrite gin_mul_generator_spec, Hq; symmetry; exact HC).
  cbn [negb]. cbv zeta. rewrite (secret_bits sk1), (decompose_bits_of (fq_to_fp (fp_to_fq _))), Hcan.
  pose proof Hsk as (_ & E3 & _). pose proof Hwc as (_ & E4 & _). fold sk in E3 |- *. rewrite E3, E4.
  cbn [mbind result_bind]. eexists. split; [reflexivity|].
  split; cbn [hw_sk_pkj hw_k_bits hw_t1 hw_t2 hw_reduce_q hw_pad hw_pad_bits hw_pad_commitment]; try done.
  apply (reduce_witness (β * t1_x + t2_x)).
Qed.

(** What the computation returns is only the witness of a true statement. *)
Lemma compute_witness_Ok sk1 w :
  precompute_chord PK K_BITS = Ok (st_pkj pcs) → precompute_chord H1 K_BITS = Ok (st_h1 pcs) →
  precompute_chord H2 K_BITS = Ok (st_h2 pcs) → precompute_chord G K_BITS = Ok (st_g pcs) →
  compute_hidden_receiver_witness sk1 rec β (st_pkj pcs) (st_h1 pcs) (st_h2 pcs) (st_g pcs) = Ok w →
  ∃ k r, receiver_true sk1 k r.
Proof.
  intros P0 P1 P2 P3 E. unfold compute_hidden_receiver_witness in E.
  apply bind_Ok in E as ([s_x s_y] & HS & E). rewrite decompose_bits_of in E.
  apply bind_Ok in E as (w1 & E1 & E). apply bind_Ok in E as (w2 & E2 & E).
  apply bind_Ok in E as ([t1_x t1_y] & L1%ok_or_Ok & E). apply bind_Ok in E as ([t2_x t2_y] & L2%ok_or_Ok & E).
  destruct (pad_value (β * t1_x + t2_x)) as (Hq & Hpad & Hcan).
  rewrite (same_encoding_spec (CY:=gin_cycle)) in E. case_bool_decide as HC; [|done]. cbn [negb] in E. cbv zeta in E.
  rewrite (secret_bits sk1), (decompose_bits_of (fq_to_fp (fp_to_fq _))), Hcan in E.
  apply bind_Ok in E as (w3 & E3 & E). apply bind_Ok in E as (w4 & E4 & E).
  assert (Hw1 : chord_computed H1 (bits_of (canonical s_x)) (st_h1 pcs) w1)
    by (split; [exact P1|split; [exact E1|apply length_bits_of]]).
  assert (Hw2 : chord_computed H2 (bits_of (canonical s_x)) (st_h2 pcs) w2)
    by (split; [exact P2|split; [exact E2|apply length_bits_of]]).
  destruct (chord_computed_chain _ _ _ _ Hw1) as (_ & M1 & D1 & _ & -> & B1).
  destruct (chord_computed_chain _ _ _ _ Hw2) as (_ & M2 & D2 & _ & -> & B2).
  rewrite checkpoint_last in L1, L2. apply Some_inj in L1, L2. rewrite L1 in B1. rewrite L2 in B2.
  rewrite bits_value_of in B1, B2 by (pose proof moduli; pose proof (canonical_represents s_x) as [? _]; lia).
  exists (canonical s_x), (canonical (β * t1_x + t2_x)). split.
  - exists (s_x, s_y). exact (conj HS eq_refl).
  - exists (t1_x, t1_y), (t2_x, t2_y). exact (conj B1 (conj B2 eq_refl)).
  - unfold pad_relation. rewrite <-HC, gin_mul_generator_spec, Hq. done.
  - exists w3. split; [exact P0|split; [exact E3|apply length_bits_of]].
  - eexists. exact Hw1.
  - eexists. exact Hw2.
  - exists w4. split; [exact P3|split; [exact E4|apply length_bits_of]].
Qed.
End slot.

(** ** The tables of the receivers *)
Section precomps.
Context {EC : EvrfCurves} {ECL : EvrfCurveLaws} {ME : Merlin} {CC1 : CycleCodec (H:=gin_cycle)}.

#[export] Instance point_key_inj : Inj (=) (=) point_key.
Proof. intros P Q E. apply (point_compress_inj (CY:=gin_cycle)), (compressed_as_bytes_inj (CY:=gin_cycle)), E. Qed.

Lemma precomp_points_step statements P :
  precomp_points statements !! point_key P
  = if bool_decide (P ∈ br_pkj <$> mjoin (be_receivers <$> statements)) then Some P else None.
Proof.
  unfold precomp_points. set (recs := mjoin _). 
  assert (Hloop : ∀ (points : gmap (list byte) Gin) seen,
    (∀ P, points !! point_key P = if bool_decide (P ∈ seen) then Some P else None) →
    foldl insert_point points recs !! point_key P = if bool_decide (P ∈ seen ++ (br_pkj <$> recs)) then Some P else None).
  { induction recs as [|rec recs IH]; intros points seen Hp; cbn [foldl fmap list_fmap]; [by rewrite app_nil_r|].
    rewrite (cons_middle (br_pkj rec) seen (br_pkj <$> recs)), app_assoc. apply IH. intros Q. unfold insert_point. rewrite (Hp (br_pkj rec)).
    assert (Hin : Q ∈ seen ++ [br_pkj rec] ↔ Q ∈ seen ∨ Q = br_pkj rec)
      by (rewrite elem_of_app, list_elem_of_singleton; done).
    rewrite (bool_decide_ext _ _ Hin). case_bool_decide as Hs.
    - rewrite Hp. apply (f_equal (λ b : bool, if b then Some Q else None)), bool_decide_ext. naive_solver.
    - destruct (decide (Q = br_pkj rec)) as [->|Hne].
      + rewrite lookup_insert_eq, bool_decide_eq_true_2 by auto. done.
      + rewrite lookup_insert_ne by (intros E%(inj point_key); congruence). rewrite Hp.
        apply (f_equal (λ b : bool, if b then Some Q else None)), bool_decide_ext. naive_solver. }
  apply (Hloop ∅ []). intros Q. by rewrite lookup_empty.
Qed.

Lemma precomp_points_keys statements key P : precomp_points statements !! key = Some P → key = point_key P.
Proof.
  unfold precomp_points. set (recs := mjoin _).
  assert (Hloop : ∀ points : gmap (list byte) Gin,
    (∀ key P, points !! key = Some P → key = point_key P) → ∀ key P,
    foldl insert_point points recs !! key = Some P → key = point_key P).
  { induction recs as [|rec recs IH]; intros points Hp; [done|]. apply IH. intros key' Q. unfold insert_point.
    destruct (points !! _); [apply Hp|]. rewrite lookup_insert_Some. naive_solver. }
  apply Hloop. intros key' Q. by rewrite lookup_empty.
Qed.

(** The tables are those of the keys of all receivers, which all have one. *)
Lemma ReceiverChordPrecomps_new_Ok statements precomps :
  ReceiverChordPrecomps_new statements = Ok precomps →
  ∀ rec, rec ∈ mjoin (be_receivers <$> statements) →
    ∃ pc, precompute_chord (br_pkj rec) K_BITS = Ok pc ∧
      receiver_precomps_get precomps (br_pkj rec) = Ok pc.
Proof.
  intros E rec Hrec. apply bind_Ok in E as (tables & Ht%traverse_Ok & [= <-]).
  assert (Hpt : (point_key (br_pkj rec), br_pkj rec) ∈ map_to_list (precomp_points statements)).
  { apply elem_of_map_to_list. rewrite precomp_points_step. rewrite bool_decide_eq_true_2; [done|].
    apply list_elem_of_fmap. by exists rec. }
  apply list_elem_of_lookup in Hpt as [i Hi].
  destruct (Forall2_lookup_l _ _ _ _ _ Ht Hi) as ([key pc] & Hk & Hpc).
  apply bind_Ok in Hpc as (pc' & Hpc & [= <- <-]). exists pc'. split; [done|].
  unfold receiver_precomps_get. apply ok_or_Ok. apply (elem_of_list_to_map_1 (M:=gmap (list byte))).
  - assert (Hkeys : tables.*1 = (map_to_list (precomp_points statements)).*1).
    { clear - Ht. induction Ht as [|[key P] [key' pc] l k H _ IH]; [done|]. csimpl.
      apply bind_Ok in H as (pc' & _ & [= <- <-]). by rewrite IH. }
    rewrite Hkeys. apply NoDup_fst_map_to_list.
  - apply list_elem_of_lookup. by exists i.
Qed.
Lemma ReceiverChordPrecomps_new_total statements :
  (∀ rec, rec ∈ mjoin (be_receivers <$> statements) → ∃ pc, precompute_chord (br_pkj rec) K_BITS = Ok pc) →
  ∃ precomps, ReceiverChordPrecomps_new statements = Ok precomps.
Proof.
  intros Hall. unfold ReceiverChordPrecomps_new.
  assert (Ht : ∃ tables, traverse (λ '(key, point), precomp ← precompute_chord point K_BITS; Ok (key, precomp))
    (map_to_list (precomp_points statements)) = Ok tables).
  { assert (Hp : ∀ key P, (key, P) ∈ map_to_list (precomp_points statements) →
      ∃ pc, precompute_chord P K_BITS = Ok pc).
    { intros key P Hin%elem_of_map_to_list. pose proof (precomp_points_keys _ _ _ Hin) as ->.
      rewrite precomp_points_step in Hin. case_bool_decide as Hr; [|done].
      apply list_elem_of_fmap in Hr as (rec & -> & Hr). by apply Hall. }
    induction (map_to_list _) as [|[key P] l IH]; [by exists []|].
    destruct (Hp key P ltac:(left)) as [pc Hpc]. destruct IH as [tables IH]; [intros k' Q HQ; apply (Hp k'); by right|].
    exists ((key, pc) :: tables). cbn [traverse]. rewrite Hpc. cbn [mbind result_bind]. by rewrite IH. }
  destruct Ht as [tables ->]. by eexists.
Qed.
End precomps.
