(* ===== verification/EvrfBatchedProof.v ===== *)
(** * The batched dealer proof (golden-evrf/paper.rs, module secp_secq)

    One R1CS proof for all receivers of a dealer, nested in a stream that has absorbed
    the statement, and followed by a proof of the constant term of the dealer's
    polynomial; its verifier, and the verifier of several proofs at once. *)

From Stdlib Require Import ZArith Lia Field Strings.Byte.
From stdpp Require Import prelude gmap strings list_numbers.
From S2P Require Import Prelude CoreError Group Algebra TestSupport Sampling Participant Transcript Cycle BpUtil InnerProduct ConstraintSystem Generators R1csProof Prover Verifier R1csSync R1csVerify R1csComplete BatchVerify CircuitLogic R1csOnePhase EvrfBits EvrfCurves EvrfToy EvrfChord ProofStream EvrfSigma EvrfOneReceiver EvrfOneReceiverProof EvrfOneReceiverComplete EvrfBatchedStatement EvrfBatchedCircuit.

Local Open Scope golden_scope.

(** [ChaCha20Rng]: a generator and its seeding. *)
Class ChaCha20 := {
  ChaCha20Rng : Type;
  chacha_rng :: CryptoRngCore ChaCha20Rng;
  from_seed : list byte → ChaCha20Rng;
}.

Section model.
Context {EC : EvrfCurves} {ME : Merlin}.
#[local] Existing Instance gout_cycle | 0.

(** A piece of the circuit, with the errors of the constraint system mapped to one. *)
Definition run_r1cs {St A} `{!ConstraintSystem St} (g : gadget A) (st : St)
    : result (option CoreError) (A * St) :=
  match run_circuit g st with
  | Some (Ok a, st) => Ok (a, st)
  | Some (Err _, _) => Err (Some ProofVerificationFailed)
  | None => Err None
  end.

(** ** Proving *)
Section prove.
Context `{CryptoRngCore R}.

(** The constraints and the prover's assignments. *)
Definition batched_prover (params : BatchedEvrfPublicParams) (statement : BatchedEvrfStatement)
    (witness : BatchedEvrfWitness) (transcript : Transcript) : result (option CoreError) Prover :=
  let pk1_computed := gin_mul_generator (bw_sk1 witness) in
  _ ← reject_if (negb (same_encoding (C:=gin_cycle) pk1_computed (be_pk1 statement))) (Some ProofVerificationFailed);
  let h1 := h_gin_1 (be_msg statement) in
  let h2 := h_gin_2 (be_msg statement) in
  precomp_h1 ← map_err Some (precompute_chord h1 K_BITS);
  precomp_h2 ← map_err Some (precompute_chord h2 K_BITS);
  let prover := Prover_new (bp_pc_gens params) transcript in
  let sk_fp := fq_to_fp (bw_sk1 witness) in
  let sk_bool_bits := decompose_k_fp sk_fp (K_BITS + 1) in
  let sk_bit_assignments := bit_options sk_bool_bits in
  '(sk_var, prover) ← run_r1cs (allocate (Some sk_fp)) prover;
  '(sk_bit_vars, prover) ← run_r1cs (bit_decompose_q sk_var sk_bit_assignments) prover;
  '(sk_window_products, prover) ← run_r1cs (chord_window_products sk_bit_vars) prover;
  pk1_precomp ← ok_or None shared_g_in_chord_precomp;
  pk1_witness ← map_err Some (chord_compute_witness_precomputed sk_bool_bits pk1_precomp);
  pk1_xy ← map_err Some (affine (be_pk1 statement));
  '(_, prover) ←
    run_r1cs (chord_exponentiate_r1cs_with_result sk_bit_vars pk1_precomp sk_window_products
                (Some pk1_xy) (Some pk1_witness)) prover;
  receiver_precomps ← map_err Some (ReceiverChordPrecomps_new [statement]);
  receiver_witnesses ←
    map_err Some
      (traverse
         (λ rec,
            precomp_pkj ← receiver_precomps_get receiver_precomps (br_pkj rec);
            compute_hidden_receiver_witness (bw_sk1 witness) rec (be_beta statement) precomp_pkj
              precomp_h1 precomp_h2 pk1_precomp)
         (be_receivers statement));
  fold_result
    (λ prover '(rec, rec_witness),
       precomp_pkj ← map_err Some (receiver_precomps_get receiver_precomps (br_pkj rec));
       '(_, prover) ←
         run_r1cs (build_hidden_receiver_slot rec sk_bit_vars sk_window_products precomp_pkj
                     precomp_h1 precomp_h2 pk1_precomp (be_beta statement) (Some rec_witness)) prover;
       Ok prover)
    prover (zip (be_receivers statement) receiver_witnesses).

Definition prove_batched_r1cs (params : BatchedEvrfPublicParams) (statement : BatchedEvrfStatement)
    (witness : BatchedEvrfWitness) : stateful (Transcript * R) (option CoreError) (list byte) :=
  λ '(transcript, rng),
  match batched_prover params statement witness transcript with
  | Err e => (Err e, (transcript, rng))
  | Ok prover =>
      let '(res, rng) := prove_and_return_transcript prover (bp_bp_gens params) rng in
      match r1cs_result res with
      | Err e => (Err e, (transcript, rng))
      | Ok (r1cs_proof, transcript) => (Ok (r1cs_to_bytes r1cs_proof), (transcript, rng))
      end
  end.

(** A stream computation whose errors are already those of one that may not return. *)
Definition with_rng {S E A} (m : stateful S E A) : stateful (S * R) E A := λ '(s, r),
  let '(res, s) := m s in (res, (s, r)).

Definition evrf_batched_prove (fuel : nat) (params : BatchedEvrfPublicParams)
    (statement : BatchedEvrfStatement) (witness : BatchedEvrfWitness)
    : stateful R (option CoreError) (list byte) := λ rng,
  match
    (_ ← map_err Some (params_validate_statement params statement);
     _ ← validate_batched_public_relations statement;
     map_err Some (ProverProofStream_new BATCHED_PROOF_ID))
  with
  | Err e => (Err e, rng)
  | Ok stream =>
      let '(res, (stream, rng)) :=
        (_ ← with_rng (observe_batched_statement statement);
         _ ← send_nested (prove_batched_r1cs params statement witness);
         constant_commitment ← lift (ok_or None (be_commitment_coefficients statement !! 0%nat));
         constant_term_prove fuel constant_commitment (bw_polynomial_constant witness)) (stream, rng) in
      (_ ← res; allocated (prover_finish stream), rng)
  end.
End prove.

(** ** Verifying *)
Definition build_batched_verifier_precomputed (statement : BatchedEvrfStatement)
    (transcript : Transcript) (receiver_precomps : ReceiverChordPrecomps)
    : result (option CoreError) Verifier :=
  let h1 := h_gin_1 (be_msg statement) in
  let h2 := h_gin_2 (be_msg statement) in
  precomp_h1 ← map_err Some (precompute_chord h1 K_BITS);
  precomp_h2 ← map_err Some (precompute_chord h2 K_BITS);
  let verifier := Verifier_new transcript in
  '(sk_var, verifier) ← run_r1cs (allocate None) verifier;
  let verifier_sk_bits := replicate (K_BITS + 1) None in
  '(sk_bit_vars, verifier) ← run_r1cs (bit_decompose_q sk_var verifier_sk_bits) verifier;
  '(sk_window_products, verifier) ← run_r1cs (chord_window_products sk_bit_vars) verifier;
  pk1_precomp ← ok_or None shared_g_in_chord_precomp;
  pk1_xy ← map_err Some (affine (be_pk1 statement));
  '(_, verifier) ←
    run_r1cs (chord_exponentiate_r1cs_with_result sk_bit_vars pk1_precomp sk_window_products
                (Some pk1_xy) None) verifier;
  fold_result
    (λ verifier rec,
       precomp_pkj ← map_err Some (receiver_precomps_get receiver_precomps (br_pkj rec));
       '(_, verifier) ←
         run_r1cs (build_hidden_receiver_slot rec sk_bit_vars sk_window_products precomp_pkj
                     precomp_h1 precomp_h2 pk1_precomp (be_beta statement) None) verifier;
       Ok verifier)
    verifier (be_receivers statement).

Section verify.
Context `{CryptoRngCore R}.

Definition prepare_batched_r1cs (params : BatchedEvrfPublicParams)
    (receiver_precomps : ReceiverChordPrecomps) (statement : BatchedEvrfStatement) (proof : R1CSProof)
    : stateful (Transcript * R) (option CoreError) VerificationEquation := λ '(transcript, rng),
  match build_batched_verifier_precomputed statement transcript receiver_precomps with
  | Err e => (Err e, (transcript, rng))
  | Ok verifier =>
      let '(res, rng) :=
        verification_equation_and_return_transcript verifier proof (bp_pc_gens params)
          (bp_bp_gens params) rng in
      match r1cs_result res with
      | Err e => (Err e, (transcript, rng))
      | Ok (equation, transcript) => (Ok equation, (transcript, rng))
      end
  end.

(** [fuel] bounds the draws of a weight. *)
Definition prepare_batched_proof (fuel : nat) (params : BatchedEvrfPublicParams)
    (receiver_precomps : ReceiverChordPrecomps) (statement : BatchedEvrfStatement) (proof : list byte)
    : stateful R (option CoreError) VerificationEquation := λ rng,
  match VerifierProofStream_new BATCHED_PROOF_ID proof with
  | Err e => (Err (Some e), rng)
  | Ok stream =>
      let '(res, (stream, rng)) :=
        (_ ← with_rng (observe_batched_statement statement);
         statement_transcript ← draw (λ '(s, r), (vps_transcript s, (s, r)));
         _ ← lift (validate_batched_public_relations_for_verifier fuel statement statement_transcript);
         equation ←
           receive_nested
             (λ payload,
                r1cs_proof ← lift (map_err Some (parse_canonical_r1cs_proof payload));
                prepare_batched_r1cs params receiver_precomps statement r1cs_proof);
         constant_commitment ← lift (ok_or None (be_commitment_coefficients statement !! 0%nat));
         _ ← on_stream (constant_term_verify constant_commitment);
         mret equation) (stream, rng) in
      ((equation ← res; _ ← map_err Some (verifier_finish stream); Ok equation), rng)
  end.

Definition evrf_batched_verify (fuel : nat) (params : BatchedEvrfPublicParams)
    (statement : BatchedEvrfStatement) (proof : list byte) : stateful R (option CoreError) unit := λ rng,
  match
    map_err Some
      (_ ← params_validate_statement params statement;
       _ ← validate_batched_statement_shape statement;
       ReceiverChordPrecomps_new [statement])
  with
  | Err e => (Err e, rng)
  | Ok receiver_precomps =>
      let '(res, rng) := prepare_batched_proof fuel params receiver_precomps statement proof rng in
      ((equation ← res; r1cs_result (equation_verify equation)), rng)
  end.
End verify.

(** ** Several proofs at once *)
Definition per_proof_seed (batch_seed : list byte) (index : nat) : list byte :=
  let transcript := transcript_new (bstr "golden-paper-evrf-proof-batch-v1-per-proof") in
  let transcript := append_message (bstr "batch-seed") batch_seed transcript in
  let transcript := append_u64 (bstr "proof-index") (Z.of_nat index) transcript in
  (challenge_bytes (bstr "proof-rng") 32 transcript).1.

Definition absorb_instance (iinstance : nat * (BatchedEvrfStatement * list byte))
    : stateful Transcript (option CoreError) unit :=
  let '(index, (statement, proof)) := iinstance in
  _ ← draw (λ t, (tt, append_u64 (bstr "proof-index") (Z.of_nat index) t));
  _ ← observe_batched_statement statement;
  _ ← draw (λ t, (tt, append_u64 (bstr "proof-len") (len proof) t));
  draw (λ t, (tt, append_message (bstr "proof") proof t)).
Definition batch_seed (instances : list (BatchedEvrfStatement * list byte))
    : result (option CoreError) (list byte) :=
  let batch_transcript := transcript_new (bstr "golden-paper-evrf-proof-batch-v1") in
  let batch_transcript := append_u64 (bstr "batch-len") (len instances) batch_transcript in
  let '(res, batch_transcript) := sfor_each absorb_instance (imap pair instances) batch_transcript in
  _ ← res;
  Ok (challenge_bytes (bstr "batch-rng") 32 batch_transcript).1.

Section many.
Context {CC : ChaCha20}.

Definition prepare_instance (fuel : nat) (params : BatchedEvrfPublicParams)
    (receiver_precomps : ReceiverChordPrecomps) (seed : list byte) (index : nat)
    (inst : BatchedEvrfStatement * list byte) : result (option CoreError) VerificationEquation :=
  let proof_rng := from_seed (per_proof_seed seed index) in
  (prepare_batched_proof fuel params receiver_precomps inst.1 inst.2 proof_rng).1.

(** The chunks that the threads prepare, one after the other. *)
Definition prepare_instances (fuel threads : nat) (params : BatchedEvrfPublicParams)
    (receiver_precomps : ReceiverChordPrecomps) (seed : list byte)
    (instances : list (BatchedEvrfStatement * list byte))
    : list (result (option CoreError) VerificationEquation) :=
  let chunk_size := Nat.max threads 1 in
  mjoin
    (imap
       (λ chunk_index chunk,
          imap
            (λ offset inst,
               let index := (chunk_index * chunk_size + offset)%nat in
               prepare_instance fuel params receiver_precomps seed index inst)
            chunk)
       (chunks (length instances) chunk_size instances)).

(** What goes to the batch.  A panic of a thread is one of the whole; the code prepares a
    chunk only when the batch asks for it, so it may refuse an earlier instance before it
    meets the panic. *)
Definition batch_item (res : result (option CoreError) VerificationEquation)
    : result (option CoreError) (result R1CSError VerificationEquation) :=
  match res with
  | Ok equation => Ok (Ok equation)
  | Err (Some _) => Ok (Err R1CSVerificationError)
  | Err None => Err None
  end.

Definition evrf_batched_verify_many (fuel threads : nat) (params : BatchedEvrfPublicParams)
    (instances : list (BatchedEvrfStatement * list byte)) : result (option CoreError) unit :=
  match instances with
  | [] => Err (Some ProofVerificationFailed)
  | _ =>
      _ ← map_err Some
            (for_each (λ inst, _ ← params_validate_statement params inst.1;
                               validate_batched_statement_shape inst.1) instances);
      seed ← batch_seed instances;
      receiver_precomps ← map_err Some (ReceiverChordPrecomps_new instances.*1);
      equations ← traverse batch_item (prepare_instances fuel threads params receiver_precomps seed instances);
      '(res, _) ← ok_or None (verify_batch_iter fuel equations (from_seed seed));
      r1cs_result res
  end.
End many.
End model.

(** ** The circuit of a dealer, in one piece *)
Section runs.
Context {EC : EvrfCurves} {ME : Merlin}.
#[local] Existing Instance gout_cycle | 0.

Lemma run_r1cs_Ok {St A} `{!ConstraintSystem St} (g : gadget A) (st st' : St) a :
  run_r1cs g st = Ok (a, st') ↔ run_circuit g st = Some (Ok a, st').
Proof. unfold run_r1cs. destruct (run_circuit g st) as [[[b|e] s]|]; naive_solver. Qed.
Lemma run_r1cs_bind {St A B} `{!ConstraintSystem St} (g : gadget A) (f : A → gadget B) (st : St) :
  run_r1cs (g ≫= f) st = '(a, st) ← run_r1cs g st; run_r1cs (f a) st.
Proof.
  unfold run_r1cs. unfold mbind at 1, gadget_bind. rewrite run_circuit_bind.
  destruct (run_circuit g st) as [[[a|e] s]|]; done.
Qed.
Lemma run_r1cs_ret {St A} `{!ConstraintSystem St} (a : A) (st : St) : run_r1cs (gret a) st = Ok (a, st).
Proof. done. Qed.
Lemma run_r1cs_gfold {St A} `{!ConstraintSystem St} (f : A → gadget unit) (st : St) l :
  run_r1cs (gfold (λ _ a, f a) tt l) st
  = st ← fold_result (λ st a, '(_, st) ← run_r1cs (f a) st; Ok st) st l; Ok (tt, st).
Proof.
  revert st. induction l as [|a l IH]; intros st; [done|]. cbn [gfold fold_result].
  rewrite run_r1cs_bind. destruct (run_r1cs (f a) st) as [[[] st']|e]; [|done].
  cbn [mbind result_bind]. apply IH.
Qed.

#[local] Opaque run_r1cs.
(** *** The tables of a statement *)
Record BatchedTables := MkBatchedTables {
  bt_pk1 : Fp * Fp;
  bt_h1 : ChordPrecomp;
  bt_h2 : ChordPrecomp;
  bt_g : ChordPrecomp;
  bt_pkj : list ChordPrecomp;
}.
Record batched_tables (st : BatchedEvrfStatement) (d : BatchedTables) : Prop := MkBatchedTablesOk {
  bto_pk1 : affine (be_pk1 st) = Ok (bt_pk1 d);
  bto_h1 : precompute_chord (h_gin_1 (be_msg st)) K_BITS = Ok (bt_h1 d);
  bto_h2 : precompute_chord (h_gin_2 (be_msg st)) K_BITS = Ok (bt_h2 d);
  bto_g : precompute_chord (cpoint_generator (Cycle:=gin_cycle)) K_BITS = Ok (bt_g d);
  bto_pkj : Forall2 (λ rec pc, precompute_chord (br_pkj rec) K_BITS = Ok pc) (be_receivers st) (bt_pkj d);
}.
Definition slot_tables (d : BatchedTables) (pc : ChordPrecomp) : SlotTables :=
  MkSlotTables pc (bt_h1 d) (bt_h2 d) (bt_g d).

(** *** The circuit *)
Record KeyAssignment := MkKeyAssignment { ka_sk : Fp; ka_bits : list bool; ka_witness : ChordWitness }.
Definition key_part (d : BatchedTables) (w : option KeyAssignment)
    : gadget (list CSVariable * list CSVariable) :=
  sk_var ← allocate (ka_sk <$> w);
  let bits := match w with Some w => bit_options (ka_bits w) | None => replicate (K_BITS + 1) None end in
  vars ← bit_decompose_q sk_var bits;
  products ← chord_window_products vars;
  _ ← chord_exponentiate_r1cs_with_result vars (bt_g d) products (Some (bt_pk1 d)) (ka_witness <$> w);
  gret (vars, products).
Definition slots_part (st : BatchedEvrfStatement) (d : BatchedTables) (vars products : list CSVariable)
    (items : list (BatchedReceiverStatement * ChordPrecomp * option HiddenReceiverWitness)) : gadget unit :=
  gfold (λ _ '(rec, pc, w), slot (be_beta st) rec (slot_tables d pc) vars products w) tt items.
Definition verifier_items (st : BatchedEvrfStatement) (d : BatchedTables) :=
  (λ rp, (rp, None (A:=HiddenReceiverWitness))) <$> zip (be_receivers st) (bt_pkj d).
Definition prover_items (st : BatchedEvrfStatement) (d : BatchedTables) (ws : list HiddenReceiverWitness) :=
  zip_with (λ rp w, (rp, Some w)) (zip (be_receivers st) (bt_pkj d)) ws.
Definition batched_circuit (st : BatchedEvrfStatement) (d : BatchedTables) (key : option KeyAssignment)
    (items : list (BatchedReceiverStatement * ChordPrecomp * option HiddenReceiverWitness)) : gadget unit :=
  '(vars, products) ← key_part d key;
  slots_part st d vars products items.

Lemma batched_tables_unique st d d' : batched_tables st d → batched_tables st d' → d = d'.
Proof.
  destruct d as [a1 b1 c1 g1 l1], d' as [a2 b2 c2 g2 l2].
  intros [A1 B1 C1 G1 L1] [A2 B2 C2 G2 L2]; cbn [bt_pk1 bt_h1 bt_h2 bt_g bt_pkj] in *.
  assert (l1 = l2) as ->.
  { revert l2 L2. induction L1 as [|rec pc recs pcs H _ IH]; intros l2 L2; inversion L2; [done|]. subst.
    f_equal; [congruence|by apply IH]. }
  congruence.
Qed.

Definition precomps_cover (precomps : ReceiverChordPrecomps) (recs : list BatchedReceiverStatement) : Prop :=
  Forall (λ rec, ∃ pc, precompute_chord (br_pkj rec) K_BITS = Ok pc ∧
    receiver_precomps_get precomps (br_pkj rec) = Ok pc) recs.

Lemma slot_build β rec d pc vars products w :
  slot β rec (slot_tables d pc) vars products w
  = build_hidden_receiver_slot rec vars products pc (bt_h1 d) (bt_h2 d) (bt_g d) β w.
Proof. unfold slot, slot_tables. cbn [st_pkj st_h1 st_h2 st_g]. reflexivity. Qed.

(** The loop of the verifier over the receivers. *)
Lemma verifier_slots st d precomps vars products (V0 V : Verifier) :
  Forall2 (λ rec pc, receiver_precomps_get precomps (br_pkj rec) = Ok pc) (be_receivers st) (bt_pkj d) →
  fold_result (λ verifier rec,
     precomp_pkj ← map_err Some (receiver_precomps_get precomps (br_pkj rec));
     '(_, verifier) ← run_r1cs (build_hidden_receiver_slot rec vars products precomp_pkj
                   (bt_h1 d) (bt_h2 d) (bt_g d) (be_beta st) None) verifier; Ok verifier) V0 (be_receivers st)
  = Ok V ↔ run_r1cs (slots_part st d vars products (verifier_items st d)) V0 = Ok ((), V).
Proof.
  intros Hget. unfold slots_part, verifier_items. revert V0.
  induction Hget as [|rec pc recs pcs' H _ IH]; intros V0.
  { cbn [fold_result zip zip_with fmap list_fmap gfold]. rewrite run_r1cs_ret. naive_solver. }
  cbn [fold_result zip zip_with fmap list_fmap gfold]. rewrite H, run_r1cs_bind, slot_build.
  cbn [map_err mbind result_bind].
  destruct (run_r1cs _ V0) as [[[] V1]|e]; cbn [mbind result_bind]; [|done]. apply IH.
Qed.

(** What the code builds is the circuit over the tables. *)
Lemma build_verifier_Ok st t precomps V :
  precomps_cover precomps (be_receivers st) →
  build_batched_verifier_precomputed st t precomps = Ok V ↔
  ∃ d, batched_tables st d ∧
    run_circuit (batched_circuit st d None (verifier_items st d)) (Verifier_new t) = Some (Ok (), V).
Proof.
  intros Hcover.
  assert (Hpcs : ∃ pcs, Forall2 (λ rec pc, precompute_chord (br_pkj rec) K_BITS = Ok pc) (be_receivers st) pcs ∧
    Forall2 (λ rec pc, receiver_precomps_get precomps (br_pkj rec) = Ok pc) (be_receivers st) pcs).
  { unfold precomps_cover in Hcover. induction Hcover as [|rec recs (pc & H1 & H2) _ (pcs & IH1 & IH2)];
      [by exists []|]. exists (pc :: pcs). split; by constructor. }
  destruct Hpcs as (pcs & Hpcs & Hget).
  unfold build_batched_verifier_precomputed, shared_g_in_chord_precomp. split.
  - intros E. apply bind_Ok in E as (pc1 & E1%map_err_Ok & E). apply bind_Ok in E as (pc2 & E2%map_err_Ok & E).
    apply bind_Ok in E as ([sk_var V1] & R1 & E). apply bind_Ok in E as ([vars V2] & R2 & E).
    apply bind_Ok in E as ([products V3] & R3 & E). apply bind_Ok in E as (pcg & Eg%ok_or_Ok & E).
    destruct (precompute_chord cpoint_generator K_BITS) as [pcg'|] eqn:Eg'; [|done]. injection Eg as ->.
    apply bind_Ok in E as (pk1 & Epk%map_err_Ok & E). apply bind_Ok in E as ([xy V4] & R4 & E).
    exists (MkBatchedTables pk1 pc1 pc2 pcg pcs). split; [split; done|].
    apply run_r1cs_Ok. unfold batched_circuit, key_part. cbn [fmap option_fmap option_map bt_pk1 bt_g].
    rewrite run_r1cs_bind, run_r1cs_bind, R1. cbn [mbind result_bind].
    rewrite run_r1cs_bind, R2. cbn [mbind result_bind]. rewrite run_r1cs_bind, R3. cbn [mbind result_bind].
    rewrite run_r1cs_bind, R4. cbn [mbind result_bind]. rewrite run_r1cs_ret. cbn [mbind result_bind].
    exact (proj1 (verifier_slots st (MkBatchedTables pk1 pc1 pc2 pcg pcs) precomps vars products V4 V Hget) E).
  - intros (d & [Epk E1 E2 Eg Hp] & Hrun%run_r1cs_Ok).
    assert (Hd : bt_pkj d = pcs).
    { clear -Hp Hpcs. revert Hp. generalize (bt_pkj d). induction Hpcs as [|rec pc recs pcs H _ IH]; intros l Hl;
        inversion Hl; [done|]. subst. f_equal; [congruence|by apply IH]. }
    unfold batched_circuit, key_part in Hrun. cbn [fmap option_fmap option_map] in Hrun.
    rewrite run_r1cs_bind in Hrun. apply bind_Ok in Hrun as ([[vars products] V4] & Hkey & Hrun).
    rewrite run_r1cs_bind in Hkey. apply bind_Ok in Hkey as ([sk_var V1] & R1 & Hkey).
    rewrite run_r1cs_bind in Hkey. apply bind_Ok in Hkey as ([vars' V2] & R2 & Hkey).
    rewrite run_r1cs_bind in Hkey. apply bind_Ok in Hkey as ([products' V3] & R3 & Hkey).
    rewrite run_r1cs_bind in Hkey. apply bind_Ok in Hkey as ([xy V4'] & R4 & Hkey).
    rewrite run_r1cs_ret in Hkey. injection Hkey as -> -> ->.
    rewrite <-Hd in Hget. apply (verifier_slots st d precomps vars products V4 V Hget) in Hrun.
    apply bind_Ok. exists (bt_h1 d). split; [by rewrite E1|].
    apply bind_Ok. exists (bt_h2 d). split; [by rewrite E2|].
    apply bind_Ok. exists (sk_var, V1). split; [exact R1|].
    apply bind_Ok. exists (vars, V2). split; [exact R2|].
    apply bind_Ok. exists (products, V3). split; [exact R3|].
    apply bind_Ok. exists (bt_g d). split; [by rewrite Eg|].
    apply bind_Ok. exists (bt_pk1 d). split; [by rewrite Epk|].
    apply bind_Ok. exists (xy, V4). split; [exact R4|]. exact Hrun.
Qed.
End runs.

(** ** What the circuit states *)
Section circuit.
Context {EC : EvrfCurves} {ECL : EvrfCurveLaws} {ME : Merlin}.
#[local] Existing Instance gout_cycle | 0.
Context (st : BatchedEvrfStatement) (d : BatchedTables) (Hd : batched_tables st d).
Abbreviation G := (cpoint_generator (Cycle:=gin_cycle)).
Abbreviation H1 := (h_gin_1 (be_msg st)).
Abbreviation H2 := (h_gin_2 (be_msg st)).
Abbreviation items := (zip (be_receivers st) (bt_pkj d)).

Lemma precompute_windows X pc : precompute_chord X K_BITS = Ok pc → length (windows pc) = (K_BITS / 2)%nat.
Proof.
  intros E. destruct (precompute_chord_Ok X K_BITS pc E) as (_ & _ & Htab).
  pose proof (Forall2_length _ _ _ (table_windows _ _ _ Htab)) as El. by rewrite length_seq in El.
Qed.
Lemma item_table rec pc : (rec, pc) ∈ items → rec ∈ be_receivers st ∧ precompute_chord (br_pkj rec) K_BITS = Ok pc.
Proof.
  intros [i Hi]%list_elem_of_lookup. apply lookup_zip_Some in Hi as [Hr Hp].
  split; [by eapply list_elem_of_lookup_2|]. by eapply (Forall2_lookup_lr _ _ _ _ _ _ (bto_pkj _ _ Hd)).
Qed.
Lemma item_sized rec pc : (rec, pc) ∈ items → tables_sized (slot_tables d pc).
Proof.
  intros [_ Hp]%item_table. destruct Hd as [_ E1 E2 Eg _]. unfold tables_sized.
  repeat constructor; by eapply precompute_windows.
Qed.
Lemma length_items : length items = length (be_receivers st).
Proof. rewrite length_zip_with. pose proof (Forall2_length _ _ _ (bto_pkj _ _ Hd)). lia. Qed.

(** *** Soundness *)
(** The key decomposes to the integer [sk], and every receiver's slot is sound for it. *)
Record batched_sound (sk : Z) : Prop := MkBatchedSound {
  bs_key : chord_exists G sk (bt_g d) → be_pk1 st = G ⊙ of_Z sk;
  bs_slots : Forall (λ '(rec, pc), ∃ k r, slot_sound H1 H2 (be_beta st) rec (slot_tables d pc) sk k r) items;
}.

Lemma slots_are_sound σ sk vars products :
  σ One = 1 → (0 ≤ sk < modulus_q)%Z → bits_are σ vars (bits_of sk) →
  ((∃ P pc, chord_exists P sk pc) → products_are K_BITS (bits_of sk) σ products) →
  gimplies σ (slots_part st d vars products (verifier_items st d)) (λ _,
    Forall (λ '(rec, pc), ∃ k r, slot_sound H1 H2 (be_beta st) rec (slot_tables d pc) sk k r) items).
Proof.
  intros Hone Hsk Hb Hp. unfold slots_part, verifier_items. eapply gimplies_mono.
  - apply (gimplies_gfold σ (λ seen _, Forall (λ '(rec, pc, _),
      ∃ k r, slot_sound H1 H2 (be_beta st) rec (slot_tables d pc) sk k r) seen)); [constructor|].
    intros l1 [[rec pc] w] l2 [] _ Hseen. eapply gimplies_mono.
    + apply (slot_is_sound H1 H2 (be_beta st) rec (slot_tables d pc) σ sk); try done.
      * pose proof moduli. lia.
      * intros E. apply Hp. by exists (br_pkj rec), pc.
    + intros [] Hslot. apply Forall_app_2; [exact Hseen|]. constructor; [exact Hslot|constructor].
  - intros [] Hall. apply (proj1 (Forall_fmap _ _ _)) in Hall. eapply Forall_impl; [exact Hall|]. intros [rec pc] H. exact H.
Qed.

Lemma batched_is_sound σ :
  σ One = 1 →
  gimplies σ (batched_circuit st d None (verifier_items st d)) (λ _,
    ∃ sk, (0 ≤ sk < modulus_q)%Z ∧ batched_sound sk).
Proof.
  intros Hone. pose proof moduli as (Hq & _ & _ & Hp256). unfold batched_circuit, key_part.
  eapply (gimplies_bind _ _ _ (λ '(vars, products), ∃ sk, (0 ≤ sk < modulus_q)%Z ∧ bits_are σ vars (bits_of sk) ∧
    ((∃ P pc, chord_exists P sk pc) → products_are K_BITS (bits_of sk) σ products) ∧
    (chord_exists G sk (bt_g d) → be_pk1 st = G ⊙ of_Z sk))).
  - eapply gimplies_bind; [apply gimplies_allocate|]. intros sk_var _.
    eapply gimplies_bind; [apply decompose_when; [done|]; lia|]. intros vars (sk & Hsk & Hb & _).
    eapply gimplies_bind; [by apply (products_when σ sk)|]. intros products Hp.
    eapply gimplies_bind; [apply (chord_when σ G sk (bt_g d)); [done|done|]; eauto|]. intros [x y] Hpk.
    apply gimplies_ret. exists sk. split; [done|]. split; [done|]. split; [done|].
    intros E. destruct (Hpk E) as [A R]. rewrite <-R, bits_value_of in A by lia.
    exact (affine_inj _ _ _ (bto_pk1 _ _ Hd) A).
  - intros [vars products] (sk & Hsk & Hb & Hp & Hkey). eapply gimplies_mono; [by apply (slots_are_sound σ sk)|].
    intros [] Hslots. exists sk. split; [done|]. by split.
Qed.

(** *** Completeness *)
Record batched_honest (sk : Z) (key : KeyAssignment) (ws : list HiddenReceiverWitness) : Prop := MkBatchedHonest {
  bh_range : (0 ≤ sk < modulus_q)%Z;
  bh_sk : ka_sk key = of_Z sk;
  bh_bits : ka_bits key = bits_of sk;
  bh_chord : chord_computed G (bits_of sk) (bt_g d) (ka_witness key);
  bh_key : be_pk1 st = G ⊙ of_Z sk;
  bh_slots : Forall2 (λ '(rec, pc) w, ∃ k r,
    hidden_relation H1 H2 (be_beta st) rec sk k r ∧
    slot_honest H1 H2 rec (slot_tables d pc) sk k r w) items ws;
}.

Lemma slots_complete Γ sk vars products ws :
  Γ One 1 → (0 ≤ sk < modulus_q)%Z → bits_known Γ vars (bits_of sk) →
  products_known K_BITS (bits_of sk) Γ products →
  Forall2 (λ '(rec, pc) w, ∃ k r, hidden_relation H1 H2 (be_beta st) rec sk k r ∧
    slot_honest H1 H2 rec (slot_tables d pc) sk k r w) items ws →
  gproduces Γ (slots_part st d vars products (prover_items st d ws)) (λ _ _, True).
Proof.
  intros Hone Hsk Hb Hp Hws. pose proof moduli as (Hq & _ & _ & Hp256). unfold slots_part, prover_items.
  revert Γ Hone Hb Hp. induction Hws as [|[rec pc] w l ws (k & r & Hrel & Hw) _ IH]; intros Γ Hone Hb Hp.
  - by apply gproduces_ret.
  - cbn [zip_with gfold]. eapply gproduces_bind.
    { apply (slot_complete H1 H2 (be_beta st) rec (slot_tables d pc) Γ sk k r); try done. lia. }
    intros Γ' [] HΓ _. apply IH; [by apply HΓ|exact (bits_known_mono _ _ _ _ HΓ Hb)|
      exact (products_extends _ _ _ _ HΓ Hp)].
Qed.

Lemma batched_complete Γ sk key ws :
  Γ One 1 → batched_honest sk key ws →
  gproduces Γ (batched_circuit st d (Some key) (prover_items st d ws)) (λ _ _, True).
Proof.
  intros Hone [Hsk Hska Hbits Hc Hkey Hws]. pose proof moduli as (Hq & _ & _ & Hp256).
  assert (Hval : bits_value (bits_of sk) = sk) by (apply bits_value_of; lia).
  unfold batched_circuit, key_part. cbn [fmap option_fmap option_map]. rewrite Hska, Hbits.
  eapply (gproduces_bind _ _ _ (λ Γ '(vars, products), bits_known Γ vars (bits_of sk) ∧
    products_known K_BITS (bits_of sk) Γ products)).
  - eapply gproduces_bind; [by apply gproduces_allocate with (Q := λ Γ v, Γ v (of_Z sk))|].
    intros Γ1 sk_var HΓ1 Hv. eapply gproduces_bind.
    { apply bit_decompose_bounded_complete; [by apply HΓ1|lia|apply length_bits_of|by rewrite Hval|rewrite Hval; lia]. }
    intros Γ2 vars HΓ2 Hb. pose proof (extends_trans _ _ _ HΓ1 HΓ2) as HΓ12. eapply gproduces_bind.
    { by apply (window_products_complete Γ2 G (bits_of sk) (bt_g d) (ka_witness key)). }
    intros Γ3 products HΓ3 Hp. eapply gproduces_bind.
    { apply (chord_power_complete Γ3 G (bits_of sk) (bt_g d) _ vars products _ (bt_pk1 d)); try done.
      - by apply HΓ3, HΓ12.
      - rewrite Hval, <-Hkey. apply (bto_pk1 _ _ Hd).
      - exact (bits_known_mono _ _ _ _ HΓ3 Hb). }
    intros Γ4 xy HΓ4 _. apply gproduces_ret. pose proof (extends_trans _ _ _ HΓ3 HΓ4) as HΓ34.
    split; [exact (bits_known_mono _ _ _ _ HΓ34 Hb)|exact (products_extends _ _ _ _ HΓ4 Hp)].
  - intros Γ' [vars products] HΓ [Hb Hp]. apply (slots_complete Γ' sk); try done. by apply HΓ.
Qed.

(** *** Sizes, and the calls of prover and verifier *)
Definition pads_affine : Prop := Forall (λ rec, br_pad_commitment rec ≠ cpoint_identity) (be_receivers st).

Lemma key_sized :
  gsized (key_part d None) 1026 17 (λ '(vars, products),
    length vars = (K_BITS + 1)%nat ∧ length products = (K_BITS / 2)%nat).
Proof.
  unfold key_part. cbn [fmap option_fmap option_map]. size_step. intros sk_var _.
  eapply (gsized_step _ _ 514 0); [by apply bit_decompose_bounded_sized; rewrite length_replicate|lia|lia|].
  intros vars Hv. eapply (gsized_step _ _ 128 0); [by apply products_sized|lia|lia|]. intros products Hp.
  eapply (gsized_step _ _ 384 16); [apply power_sized; try done; apply precompute_windows with G, (bto_g _ _ Hd)|lia|lia|].
  intros xy _. by size_done.
Qed.

Lemma batched_sized :
  pads_affine →
  gsized (batched_circuit st d None (verifier_items st d))
    (1026 + length (be_receivers st) * 3019) (17 + length (be_receivers st) * 65) (λ _, True).
Proof.
  intros Hpads. unfold batched_circuit. eapply gsized_bind; [apply key_sized|].
  intros [vars products] [Hv Hp]. unfold slots_part, verifier_items. eapply gsized_eq.
  - apply (gsized_gfold (λ _ _, True) _ (λ _, 3019%nat) (λ _, 65%nat)); [done|].
    intros i [[rec pc] w] [] Hi _. rewrite list_lookup_fmap in Hi.
    apply fmap_Some in Hi as (rp & Hi & E). injection E as <- ->.
    apply list_elem_of_lookup_2 in Hi. destruct (item_table _ _ Hi) as [Hrec _].
    destruct (affine_nonidentity (br_pad_commitment rec)) as [xy Hxy].
    { unfold pads_affine in Hpads. rewrite Forall_forall in Hpads. by apply Hpads. }
    exact (slot_sized (be_beta st) rec (slot_tables d pc) vars products xy Hv Hp (item_sized rec pc Hi) Hxy).
  - rewrite sum_list_with_const, length_fmap, length_items. done.
  - rewrite sum_list_with_const, length_fmap, length_items. done.
Qed.

Lemma slots_similar vars products ws :
  length vars = (K_BITS + 1)%nat → length ws = length items → Forall witness_shaped ws →
  gsimilar eq (slots_part st d vars products (prover_items st d ws))
    (slots_part st d vars products (verifier_items st d)).
Proof.
  intros Hv Hl Hws. unfold slots_part, prover_items, verifier_items. revert ws Hl Hws. generalize items as l.
  induction l as [|[rec pc] l IH]; intros [|w ws] [=] Hws; [by apply gsimilar_ret|].
  apply Forall_cons in Hws as [Hw Hws]. cbn [zip_with fmap list_fmap gfold].
  eapply gsimilar_bind; [by apply slot_similar|]. intros [] _ <-. by apply IH.
Qed.
Lemma batched_similar sk key ws :
  batched_honest sk key ws →
  gsimilar eq (batched_circuit st d (Some key) (prover_items st d ws))
    (batched_circuit st d None (verifier_items st d)).
Proof.
  intros [_ _ Hbits Hc _ Hws]. unfold batched_circuit.
  eapply (gsimilar_bind (λ x x', x = x' ∧ length x.1 = (K_BITS + 1)%nat)).
  - unfold key_part. cbn [fmap option_fmap option_map]. rewrite Hbits. similar_step. intros sk_var _ <-.
    eapply gsimilar_bind; [apply decompose_similar|]. intros vars _ [<- Hv].
    eapply gsimilar_bind; [apply chord_window_products_similar|]. intros products _ <-.
    eapply gsimilar_bind; [apply power_similar; [done|by eapply chord_computed_fits]|]. intros xy _ <-.
    by apply gsimilar_ret.
  - intros [vars products] _ [<- Hv]. apply slots_similar; [done|symmetry; by eapply Forall2_length|].
    clear - ECL ME Hws. induction Hws as [|[rec pc] w l ws (k & r & _ & Hw) _ IH]; constructor; [|done].
    exact (proj1 (honest_shaped H1 H2 rec (slot_tables d pc) sk k r w Hw)).
Qed.
End circuit.

(** ** The honest dealer *)
Section dealer.
Context {EC : EvrfCurves} {ECL : EvrfCurveLaws} {ME : Merlin} {CC1 : CycleCodec (H:=gin_cycle)}.
#[local] Existing Instance gout_cycle | 0.
Abbreviation G := (cpoint_generator (Cycle:=gin_cycle)).
Abbreviation H1 st := (h_gin_1 (be_msg st)).
Abbreviation H2 st := (h_gin_2 (be_msg st)).
Abbreviation items st d := (zip (be_receivers st) (bt_pkj d)).
Definition secret_value (sk1 : Fq) : Z := le_value (fq_to_repr sk1).

(** The statement is true for the secret key, and the witnesses of the chords exist. *)
Record dealer_true (st : BatchedEvrfStatement) (d : BatchedTables) (sk1 : Fq) : Prop := MkDealerTrue {
  dt_tables : batched_tables st d;
  dt_key : be_pk1 st = G ⊙ sk1;
  dt_chord : chord_exists G (secret_value sk1) (bt_g d);
  dt_slots : Forall (λ '(rec, pc), ∃ k r,
    receiver_true (H1 st) (H2 st) (be_beta st) rec (slot_tables d pc) sk1 k r) (items st d);
}.

Lemma tables_precomps sts :
  Forall (λ st, ∃ d, batched_tables st d) sts →
  ∃ precomps, ReceiverChordPrecomps_new sts = Ok precomps.
Proof.
  intros Hall. apply ReceiverChordPrecomps_new_total. intros rec Hrec.
  apply list_elem_of_join in Hrec as (recs & Hrec & Hr). apply list_elem_of_fmap in Hr as (st & -> & Hst).
  rewrite Forall_forall in Hall. destruct (Hall st Hst) as (d & [_ _ _ _ Hp]).
  apply list_elem_of_lookup in Hrec as [i Hi]. destruct (Forall2_lookup_l _ _ _ _ _ Hp Hi) as (pc & _ & Hpc).
  by exists pc.
Qed.
Lemma precomps_new_cover sts precomps st :
  ReceiverChordPrecomps_new sts = Ok precomps → st ∈ sts → precomps_cover precomps (be_receivers st).
Proof.
  intros E Hst. apply Forall_forall. intros rec Hrec.
  apply (ReceiverChordPrecomps_new_Ok _ _ E). apply list_elem_of_join. exists (be_receivers st).
  split; [done|]. apply list_elem_of_fmap. by exists st.
Qed.

Lemma dealer_witness st d sk1 :
  dealer_true st d sk1 →
  ∃ wit ws,
    chord_compute_witness_precomputed (decompose_k_fp (fq_to_fp sk1) (K_BITS + 1)) (bt_g d) = Ok wit ∧
    Forall2 (λ '(rec, pc) w,
      compute_hidden_receiver_witness sk1 rec (be_beta st) pc (bt_h1 d) (bt_h2 d) (bt_g d) = Ok w) (items st d) ws ∧
    batched_honest st d (secret_value sk1)
      (MkKeyAssignment (fq_to_fp sk1) (decompose_k_fp (fq_to_fp sk1) (K_BITS + 1)) wit) ws.
Proof.
  intros [Ht Hkey (wit & Hc) Hslots]. exists wit.
  assert (Hws : ∃ ws, Forall2 (λ '(rec, pc) w,
      compute_hidden_receiver_witness sk1 rec (be_beta st) pc (bt_h1 d) (bt_h2 d) (bt_g d) = Ok w) (items st d) ws ∧
    Forall2 (λ '(rec, pc) w, ∃ k r, hidden_relation (H1 st) (H2 st) (be_beta st) rec (secret_value sk1) k r ∧
      slot_honest (H1 st) (H2 st) rec (slot_tables d pc) (secret_value sk1) k r w) (items st d) ws).
  { clear Ht. induction Hslots as [|[rec pc] l (k & r & Hr) _ (ws & IH1 & IH2)]; [exists []; by split|].
    destruct (compute_witness_true (H1 st) (H2 st) (be_beta st) rec (slot_tables d pc) sk1 k r Hr)
      as (Hrel & w & Hw & Hhon).
    exists (w :: ws). split; constructor; [exact Hw|done| |done].
    exists k, r. exact (conj Hrel Hhon). }
  destruct Hws as (ws & Hws & Hhon). exists ws. pose proof Hc as (_ & Hcomp & _).
  split; [by rewrite secret_bits|]. split; [exact Hws|].
  split; cbn [ka_sk ka_bits ka_witness].
  - split; [apply le_value_nonneg|apply fq_to_repr_below].
  - apply fq_to_fp_value.
  - apply secret_bits.
  - exact Hc.
  - unfold secret_value. by rewrite fq_to_repr_value.
  - exact Hhon.
Qed.

(** The loop of the prover over the receivers. *)
Lemma prover_slots st d precomps vars products ws (P0 P : Prover) :
  Forall2 (λ rec pc, receiver_precomps_get precomps (br_pkj rec) = Ok pc) (be_receivers st) (bt_pkj d) →
  length ws = length (be_receivers st) →
  run_r1cs (slots_part st d vars products (prover_items st d ws)) P0 = Ok ((), P) →
  fold_result (λ prover '(rec, rec_witness),
     precomp_pkj ← map_err Some (receiver_precomps_get precomps (br_pkj rec));
     '(_, prover) ← run_r1cs (build_hidden_receiver_slot rec vars products precomp_pkj
                   (bt_h1 d) (bt_h2 d) (bt_g d) (be_beta st) (Some rec_witness)) prover; Ok prover)
    P0 (zip (be_receivers st) ws)
  = Ok P.
Proof.
  intros Hget. unfold slots_part, prover_items. revert ws P0.
  induction Hget as [|rec pc recs pcs' H _ IH]; intros [|w ws] P0 [=].
  { cbn [fold_result zip zip_with gfold]. rewrite run_r1cs_ret. naive_solver. }
  cbn [fold_result zip zip_with gfold]. rewrite run_r1cs_bind, slot_build. intros Hrun.
  apply bind_Ok in Hrun as ([[] P1] & R1 & Hrun).
  apply bind_Ok. exists P1. split; [|by apply IH].
  apply bind_Ok. exists pc. split; [by rewrite H|]. apply bind_Ok. exists ((), P1). by split.
Qed.
Lemma tables_get st d precomps :
  batched_tables st d → precomps_cover precomps (be_receivers st) →
  Forall2 (λ rec pc, receiver_precomps_get precomps (br_pkj rec) = Ok pc) (be_receivers st) (bt_pkj d).
Proof.
  intros [_ _ _ _ Hp] Hc. unfold precomps_cover in Hc. revert Hc.
  induction Hp as [|rec pc recs pcs E _ IH]; intros Hc; [constructor|].
  apply Forall_cons in Hc as [(pc' & E1 & E2) Hc]. constructor; [|by apply IH]. congruence.
Qed.

Lemma batched_prover_Ok params st d w t wit ws P :
  batched_tables st d → be_pk1 st = G ⊙ bw_sk1 w →
  chord_compute_witness_precomputed (decompose_k_fp (fq_to_fp (bw_sk1 w)) (K_BITS + 1)) (bt_g d) = Ok wit →
  Forall2 (λ '(rec, pc) wr,
      compute_hidden_receiver_witness (bw_sk1 w) rec (be_beta st) pc (bt_h1 d) (bt_h2 d) (bt_g d) = Ok wr)
    (items st d) ws →
  run_circuit (batched_circuit st d
      (Some (MkKeyAssignment (fq_to_fp (bw_sk1 w)) (decompose_k_fp (fq_to_fp (bw_sk1 w)) (K_BITS + 1)) wit))
      (prover_items st d ws)) (Prover_new (bp_pc_gens params) t) = Some (Ok (), P) →
  batched_prover params st w t = Ok P.
Proof.
  intros Ht Hkey Hwit Hws Hrun%run_r1cs_Ok. pose proof Ht as [Epk E1 E2 Eg Hp].
  destruct (tables_precomps [st]) as [precomps Hnew]; [constructor; [by exists d|constructor]|].
  pose proof (tables_get st d precomps Ht (precomps_new_cover [st] precomps st Hnew ltac:(left))) as Hget.
  unfold batched_circuit, key_part in Hrun. cbn [fmap option_fmap option_map ka_sk ka_bits ka_witness] in Hrun.
  rewrite run_r1cs_bind in Hrun. apply bind_Ok in Hrun as ([[vars products] P4] & Hk & Hrun).
  rewrite run_r1cs_bind in Hk. apply bind_Ok in Hk as ([sk_var P1] & R1 & Hk).
  rewrite run_r1cs_bind in Hk. apply bind_Ok in Hk as ([vars' P2] & R2 & Hk).
  rewrite run_r1cs_bind in Hk. apply bind_Ok in Hk as ([products' P3] & R3 & Hk).
  rewrite run_r1cs_bind in Hk. apply bind_Ok in Hk as ([xy P4'] & R4 & Hk).
  rewrite run_r1cs_ret in Hk. injection Hk as -> -> ->.
  assert (Hl : length ws = length (be_receivers st)).
  { rewrite <-(Forall2_length _ _ _ Hws). by apply length_items. }
  unfold batched_prover, shared_g_in_chord_precomp.
  apply bind_Ok. exists (). split.
  { rewrite (same_encoding_spec (CY:=gin_cycle)), bool_decide_eq_true_2; [reflexivity|].
    by rewrite gin_mul_generator_spec. }
  apply bind_Ok. exists (bt_h1 d). split; [by rewrite E1|].
  apply bind_Ok. exists (bt_h2 d). split; [by rewrite E2|].
  apply bind_Ok. exists (sk_var, P1). split; [exact R1|].
  apply bind_Ok. exists (vars, P2). split; [exact R2|].
  apply bind_Ok. exists (products, P3). split; [exact R3|].
  apply bind_Ok. exists (bt_g d). split; [by rewrite Eg|].
  apply bind_Ok. exists wit. split; [by rewrite Hwit|].
  apply bind_Ok. exists (bt_pk1 d). split; [by rewrite Epk|].
  apply bind_Ok. exists (xy, P4). split; [exact R4|].
  apply bind_Ok. exists precomps. split; [by rewrite Hnew|].
  apply bind_Ok. exists ws. split.
  - apply map_err_Ok, traverse_Ok. clear -Hget Hws. revert ws Hws.
    induction Hget as [|rec pc recs pcs H _ IH]; intros ws Hws; inversion Hws; [constructor|]. subst.
    constructor; [|by apply IH]. apply bind_Ok. by exists pc.
  - exact (prover_slots st d precomps vars products ws P4 P Hget Hl Hrun).
Qed.
End dealer.

(** ** The multipliers of the circuit *)
Definition batched_multipliers (n : nat) : nat := (1026 + n * 3019 + (17 + n * 65 + 1) / 2)%nat.
Lemma batched_multipliers_count t n c :
  (0 ≤ t)%Z → batched_multiplier_count t (Z.of_nat n) = Ok c → c = Z.of_nat (batched_multipliers n).
Proof.
  intros Ht Hc. apply batched_multiplier_count_Ok in Hc as (_ & _ & _ & _ & ->); [|done|lia].
  unfold batched_multipliers, BATCHED_SHARED_MULTIPLIERS, BATCHED_RECEIVER_MULTIPLIERS.
  destruct (Nat.Even_or_Odd n) as [[k ->]|[k ->]].
  - assert (E1 : ((17 + 2 * k * 65 + 1) / 2 = 9 + 65 * k)%nat) by (symmetry; apply (Nat.div_unique _ 2 _ 0); lia).
    assert (E2 : ((Z.of_nat (2 * k) + 1) / 2 = Z.of_nat k)%Z) by (symmetry; apply (Z.div_unique _ 2 _ 1); lia).
    rewrite E1, E2. lia.
  - assert (E1 : ((17 + (2 * k + 1) * 65 + 1) / 2 = 41 + 65 * k)%nat) by (symmetry; apply (Nat.div_unique _ 2 _ 1); lia).
    assert (E2 : ((Z.of_nat (2 * k + 1) + 1) / 2 = Z.of_nat k + 1)%Z) by (symmetry; apply (Z.div_unique _ 2 _ 0); lia).
    rewrite E1, E2. lia.
Qed.

Section both.
Context {EC : EvrfCurves} {ECL : EvrfCurveLaws} {ME : Merlin} {CC1 : CycleCodec (H:=gin_cycle)}.
#[local] Existing Instance gout_cycle | 0.

Lemma dealer_pads st d sk1 : dealer_true st d sk1 → pads_affine st.
Proof.
  intros [Ht _ _ Hslots]. unfold pads_affine. pose proof (bto_pkj _ _ Ht) as Hp.
  revert Hslots. generalize (h_gin_1 (be_msg st)) (h_gin_2 (be_msg st)). induction Hp as [|rec pc recs pcs _ _ IH]; intros h1 h2 Hslots; [constructor|].
  apply Forall_cons in Hslots as [(k & r & Hr) Hslots]. constructor; [|by apply (IH h1 h2)].
  destruct (rt_g _ _ _ _ _ _ _ _ Hr) as (wit & Hc). destruct (chord_computed_chain _ _ _ _ Hc) as (_ & L & D & _ & _ & A).
  rewrite bits_value_of in A.
  - apply affine_identity in A. rewrite (rt_pad _ _ _ _ _ _ _ _ Hr). exact A.
  - pose proof moduli. pose proof (Z.mod_pos_bound r modulus_q). lia.
Qed.

(** The verifier's circuit always builds. *)
Lemma verifier_builds st d t :
  batched_tables st d → pads_affine st →
  ∃ V, run_circuit (batched_circuit st d None (verifier_items st d)) (Verifier_new t) = Some (Ok (), V) ∧
    num_vars (v_core V) = batched_multipliers (length (be_receivers st)).
Proof.
  intros Ht Hp.
  destruct (gsized_run _ _ _ _ (Verifier_new t) (batched_sized st d Ht Hp)) as ([] & V & Hrun & [Hn _] & _);
    [by split|].
  exists V. split; [exact Hrun|exact Hn].
Qed.

(** An honest dealer's prover ends in step with the verifier. *)
Lemma dealer_run params st d w t :
  dealer_true st d (bw_sk1 w) →
  ∃ P V, batched_prover params st w t = Ok P ∧
    run_circuit (batched_circuit st d None (verifier_items st d)) (Verifier_new t) = Some (Ok (), V) ∧
    honest (p_core P) ∧ full_sync P V ∧ p_deferred P = [] ∧ p_pc_gens (p_core P) = bp_pc_gens params ∧
    num_vars (v_core V) = batched_multipliers (length (be_receivers st)).
Proof.
  intros Hd. pose proof (dealer_pads _ _ _ Hd) as Hpads. pose proof Hd as [Ht Hkey _ _].
  destruct (dealer_witness _ _ _ Hd) as (wit & ws & Hwit & Hws & Hhon).
  destruct (verifier_builds st d t Ht Hpads) as (V & HV & Hn).
  destruct (produces_run _ _ (Prover_new (bp_pc_gens params) t) (honest_new _ t)
    (batched_complete st d Ht _ _ _ ws (known_one _) Hhon)) as (res & P & Hrun & Hh & Hdef & Hg & _ & [] & -> & _).
  destruct (run_circuit_simulation (Rel:=full_sync) _ (batched_circuit st d None (verifier_items st d))
    _ (Verifier_new t) _ P (gsimilar_same _ _ (batched_similar st d _ _ ws Hhon)) (new_sync _ t) Hrun)
    as (V' & HV' & Hs).
  rewrite HV in HV'. injection HV' as <-.
  exists P, V. split; [exact (batched_prover_Ok params st d w t wit ws P Ht Hkey Hwit Hws Hrun)|].
  split; [exact HV|]. split; [exact Hh|]. split; [exact Hs|]. rewrite Hdef, Hg. split; [done|]. split; [done|exact Hn].
Qed.

End both.

(** ** What the verifier accepts *)
Section verifier.
Context {EC : EvrfCurves} {ECL : EvrfCurveLaws} {ME : Merlin}.
Context {CC1 : CycleCodec (H:=gin_cycle)} {CC2 : CycleCodec (H:=gout_cycle)}.
#[local] Existing Instance gout_cycle | 0.
#[local] Instance gin_laws4 : ProofStreamLaws (H:=GinStreamCurve) := CycleCurve_laws.
#[local] Instance gout_laws4 : ProofStreamLaws (H:=GoutStreamCurve) := CycleCurve_laws.

Record BatchedProof := MkBatchedProof { bpr_r1cs : R1CSProof; bpr_term : TermProof }.
Definition batched_bytes (π : BatchedProof) : list byte :=
  let payload := r1cs_to_bytes (bpr_r1cs π) in
  stream_header BATCHED_PROOF_ID ++ (to_be_bytes 8 (len payload) ++ payload) ++ term_bytes (bpr_term π).
Definition batched_transcript (st : BatchedEvrfStatement) : Transcript :=
  append_all (batched_messages st) (transcript_new BATCHED_PROOF_ID).

Section verify.
Context `{CryptoRngCore R} (fuel : nat) (params : BatchedEvrfPublicParams) (st : BatchedEvrfStatement).

(** The equation that the R1CS verifier prepares for the circuit of the statement. *)
Definition equation_prepared (proof : R1CSProof) (rng : R) (e : VerificationEquation) (t' : Transcript)
    (rng' : R) : Prop :=
  ∃ d V, batched_tables st d ∧
    run_circuit (batched_circuit st d None (verifier_items st d)) (Verifier_new (batched_transcript st))
      = Some (Ok (), V) ∧
    verification_equation_and_return_transcript V proof (bp_pc_gens params) (bp_bp_gens params) rng
      = (Some (Ok (e, t')), rng').
Record proof_prepared (π : BatchedProof) (rng : R) (e : VerificationEquation) (rng' : R) : Prop :=
  MkProofPrepared {
  pp_points : batched_points st;
  pp_relations : validate_batched_public_relations_for_verifier fuel st (batched_transcript st) = Ok ();
  pp_canonical : r1cs_from_bytes (r1cs_to_bytes (bpr_r1cs π)) = Ok (bpr_r1cs π);
  pp_equation : ∃ t' A_0, equation_prepared (bpr_r1cs π) rng e t' rng' ∧
    be_commitment_coefficients st !! 0%nat = Some A_0 ∧ term_accepted A_0 t' (bpr_term π);
}.

Lemma batched_id_len : is_u32 (len BATCHED_PROOF_ID).
Proof. split; vm_compute; congruence. Qed.

Lemma with_rng_Ok {S E A} (m : stateful S E A) s (r : R) a s' r' :
  with_rng m (s, r) = (Ok a, (s', r')) ↔ m s = (Ok a, s') ∧ r' = r.
Proof. unfold with_rng. destruct (m s) as [[b|e] s1]; naive_solver. Qed.

Lemma prepare_r1cs_Ok precomps proof (rng : R) e t' rng' :
  precomps_cover precomps (be_receivers st) →
  prepare_batched_r1cs params precomps st proof (batched_transcript st, rng) = (Ok e, (t', rng')) ↔
  equation_prepared proof rng e t' rng'.
Proof.
  intros Hcover. unfold prepare_batched_r1cs, equation_prepared. split.
  - destruct (build_batched_verifier_precomputed _ _ _) as [V|err] eqn:EV; [|done].
    apply (build_verifier_Ok st _ precomps V Hcover) in EV as (d & Hd & HV).
    destruct (verification_equation_and_return_transcript V proof _ _ rng) as [res rng1] eqn:E.
    destruct res as [[[e1 t1]|err]|]; cbn [r1cs_result]; [|done|done]. intros [= -> -> ->].
    exists d, V. exact (conj Hd (conj HV E)).
  - intros (d & V & Hd & HV & E).
    assert (EV : build_batched_verifier_precomputed st (batched_transcript st) precomps = Ok V)
      by (apply (build_verifier_Ok st _ precomps V Hcover); exists d; exact (conj Hd HV)).
    rewrite EV, E. reflexivity.
Qed.

Lemma prepare_proof_Ok precomps proof (rng : R) e rng' :
  (len proof ≤ usize_MAX)%Z → precomps_cover precomps (be_receivers st) →
  length (be_statement_roots st) = length (be_receivers st) →
  prepare_batched_proof fuel params precomps st proof rng = (Ok e, rng') ↔
  ∃ π, proof = batched_bytes π ∧ proof_prepared π rng e rng'.
Proof.
  intros Hu Hcover Hroots. unfold prepare_batched_proof. split.
  - destruct (VerifierProofStream_new _ _) as [s|err] eqn:E0; [|done].
    apply (verifier_new_Ok _ _ _ batched_id_len Hu) in E0 as (body & -> & ->).
    destruct (mbind (M:=stateful _ _) _ _ _) as [[e1|err] [s1 rng1]] eqn:Em; [|done].
    cbn [mbind result_bind]. intros [= Hfin <-].
    apply bind_Ok in Hfin as ([] & Hfin%map_err_Ok & [= <-]).
    apply stateful_bind_Ok in Em as ([] & [s2 r2] & [E2 ->]%with_rng_Ok & Em).
    apply (observe_batched_statement_Ok st _ _ _ Hroots) in E2 as [Hpts ->].
    change (absorbed _ (stream_at _ _ _))
      with (stream_at (batched_transcript st) (stream_header BATCHED_PROOF_ID) body) in Em.
    apply stateful_bind_Ok in Em as (t0 & [s3 r3] & E3 & Em). injection E3 as <- <- <-.
    apply stateful_bind_Ok in Em as ([] & s4 & [Hrel ->]%lift_Ok & Em).
    apply stateful_bind_Ok in Em as (e2 & [s5 r5] & E5 & Em).
    apply receive_nested_Ok in E5 as (payload & rest & t' & -> & Hcheck & ->); [|exact Hu].
    apply stateful_bind_Ok in Hcheck as (p & [t1 r1] & [Hp%map_err_Ok E1]%lift_Ok & Hcheck). injection E1 as -> ->.
    apply parse_canonical_Ok in Hp as [-> Hcan]. apply (prepare_r1cs_Ok precomps p _ _ _ _ Hcover) in Hcheck.
    apply stateful_bind_Ok in Em as (A_0 & s6 & [HA%ok_or_Ok ->]%lift_Ok & Em).
    apply stateful_bind_Ok in Em as ([] & [s7 r7] & [E7 ->]%on_stream_Ok & Em).
    apply constant_term_verify_Ok in E7 as (term & rest' & -> & Hterm & ->);
      [|revert Hu; unfold len; rewrite !length_app; lia].
    injection Em as <- <- <-. apply verifier_finish_Ok in Hfin as ->.
    exists (MkBatchedProof p term). unfold batched_bytes. cbn [bpr_r1cs bpr_term].
    split; [by rewrite app_nil_r, <-!app_assoc|].
    split; [exact Hpts|exact Hrel|exact Hcan|]. exists t', A_0. exact (conj Hcheck (conj HA Hterm)).
  - intros ([p term] & -> & [Hpts Hrel Hcan (t' & A_0 & Heq & HA & Hterm)]). unfold batched_bytes in *.
    cbn [bpr_r1cs bpr_term] in *.
    rewrite (proj2 (verifier_new_Ok _ _ _ batched_id_len Hu)) by (eexists; split; reflexivity).
    assert (Hfit : ∀ l : list byte, (len l ≤ len (stream_header BATCHED_PROOF_ID
      ++ (to_be_bytes 8 (len (r1cs_to_bytes p)) ++ r1cs_to_bytes p) ++ term_bytes term))%Z →
      (len l ≤ usize_MAX)%Z) by (intros; lia).
    match goal with |- (let '(_, _) := ?m in _) = _ =>
      assert (∃ t2 pre, m = (Ok e, (stream_at t2 pre [], rng'))) as (t2 & pre & ->) end.
    2: { cbn [mbind result_bind]. rewrite (proj2 (verifier_finish_Ok t2 pre []) eq_refl). reflexivity. }
    eexists _, _.
    apply stateful_bind_Ok. eexists (), (_, _). split.
    { apply with_rng_Ok. split; [|reflexivity]. apply (observe_batched_statement_Ok st _ _ _ Hroots).
      split; [exact Hpts|reflexivity]. }
    change (absorbed _ (stream_at _ ?a ?b)) with (stream_at (batched_transcript st) a b).
    apply stateful_bind_Ok. eexists _, (_, _). split; [reflexivity|].
    apply stateful_bind_Ok. eexists (), (_, _). split; [cbn [vps_transcript stream_at]; rewrite Hrel; reflexivity|].
    apply stateful_bind_Ok. eexists e, (_, _). split.
    { apply receive_nested_Ok; [exact Hu|]. eexists (r1cs_to_bytes p), (term_bytes term), t'.
      rewrite <-!app_assoc. split; [reflexivity|]. split; [|reflexivity].
      apply stateful_bind_Ok. eexists p, (_, _).
      split; [rewrite (proj2 (parse_canonical_Ok _ p)) by exact (conj eq_refl Hcan); reflexivity|].
      apply (prepare_r1cs_Ok precomps p _ _ _ _ Hcover). exact Heq. }
    apply stateful_bind_Ok. eexists A_0, (_, _). split; [rewrite HA; reflexivity|].
    apply stateful_bind_Ok. eexists (), (_, _). split; [|reflexivity].
    apply on_stream_Ok. split; [|reflexivity]. apply constant_term_verify_Ok;
      [rewrite <-!app_assoc; apply Hfit; unfold len; rewrite !length_app; lia|].
    exists term, []. rewrite app_nil_r. split; [reflexivity|]. split; [exact Hterm|reflexivity].
Qed.
End verify.
End verifier.

(** ** A true statement on the small curve *)
Section witness.
#[local] Existing Instance ToyCurves | 0.
Definition dealer_rec : BatchedReceiverStatement :=
  MkBatchedReceiverStatement (MkParticipantIndex 1) (toy 3) (toy 5) (toy 38117) (toy 38122).
Definition dealer_statement : BatchedEvrfStatement :=
  MkBatchedEvrfStatement (replicate 32 x07) (toy 3) (toy 5) 2 [toy 2; toy 3] [replicate 32 x01] [dealer_rec].
Definition dealer_secrets : BatchedEvrfWitness := MkBatchedEvrfWitness (toy 3) (toy 2).
Definition dealer_tables (pk1 : Toy * Toy) (h1 h2 g pkj : ChordPrecomp) : BatchedTables :=
  MkBatchedTables pk1 h1 h2 g [pkj].
End witness.

Lemma chord_regular_exists (P : Toy) z :
  chord_regular (EC:=ToyCurves) P K_BITS (bits_of z) = true →
  ∃ pc, precompute_chord (EC:=ToyCurves) P K_BITS = Ok pc ∧ chord_exists (EC:=ToyCurves) P z pc.
Proof.
  intros Hr. destruct (chord_regular_computed (EC:=ToyCurves) (ECL:=ToyCurves_laws) P (bits_of z) (length_bits_of z) Hr)
    as (pc & wit & Hc). exists pc. split; [apply Hc|]. exists wit. exact Hc.
Qed.
Lemma toy_chord_g3 : ∃ pc, precompute_chord (EC:=ToyCurves) (toy 1) K_BITS = Ok pc ∧ chord_exists (EC:=ToyCurves) (toy 1) 3 pc.
Proof. apply chord_regular_exists. vm_refl. Qed.
Lemma toy_chord_gr : ∃ pc, precompute_chord (EC:=ToyCurves) (toy 1) K_BITS = Ok pc ∧ chord_exists (EC:=ToyCurves) (toy 1) 38117 pc.
Proof. apply chord_regular_exists. vm_refl. Qed.
Lemma toy_chord_pk : ∃ pc, precompute_chord (EC:=ToyCurves) (toy 3) K_BITS = Ok pc ∧ chord_exists (EC:=ToyCurves) (toy 3) 3 pc.
Proof. apply chord_regular_exists. vm_refl. Qed.
Lemma toy_chord_h1 : ∃ pc, precompute_chord (EC:=ToyCurves) (toy 4605) K_BITS = Ok pc ∧ chord_exists (EC:=ToyCurves) (toy 4605) 57432 pc.
Proof. apply chord_regular_exists. vm_refl. Qed.
Lemma toy_chord_h2 : ∃ pc, precompute_chord (EC:=ToyCurves) (toy 47764) K_BITS = Ok pc ∧ chord_exists (EC:=ToyCurves) (toy 47764) 57432 pc.
Proof. apply chord_regular_exists. vm_refl. Qed.

Lemma dealer_is_true : ∃ d, dealer_true (EC:=ToyCurves) dealer_statement d (toy 3).
Proof.
  destruct toy_chord_g3 as (pcg & Hg & Hg3), toy_chord_gr as (pcg' & Hg' & Hgr).
  pose proof (eq_trans (eq_sym Hg') Hg) as E. injection E as ->.
  destruct toy_chord_pk as (pcp & Hp & Hp3), toy_chord_h1 as (pc1 & H1 & Hc1), toy_chord_h2 as (pc2 & H2 & Hc2).
  exists (dealer_tables (true_coordinates (toy 3)) pc1 pc2 pcg pcp).
  assert (Hs : secret_value (EC:=ToyCurves) (toy 3) = 3%Z) by vm_refl.
  split.
  - split; [vm_refl|exact H1|exact H2|exact Hg|]. constructor; [exact Hp|constructor].
  - vm_refl.
  - rewrite Hs. exact Hg3.
  - constructor; [|constructor]. exists 57432%Z, 38117%Z. unfold secret_value in Hs. split.
    + exists (true_coordinates (toy 9)). split; vm_refl.
    + exists (true_coordinates (se_t1 (EC:=ToyCurves) true_statement)), (true_coordinates (se_t2 (EC:=ToyCurves) true_statement)).
      split; [vm_refl|]. split; vm_refl.
    + unfold pad_relation. vm_refl.
    + rewrite Hs. exact Hp3.
    + exact Hc1.
    + exact Hc2.
    + exact Hgr.
Qed.

