(* ===== verification/EvrfBatchedComplete.v ===== *)
(** * What the batched verifier accepts (golden-evrf/paper.rs, module secp_secq)

    The proofs that [evrf_batched_verify] accepts, byte for byte; completeness: a dealer
    whose statement is true gets a proof, and the verifier accepts it; and the verifier of
    several proofs at once, whose verdict does not depend on the number of threads. *)

From Stdlib Require Import ZArith Lia Field Strings.Byte.
From stdpp Require Import prelude gmap strings list_numbers.
From S2P Require Import Prelude CoreError Group Algebra TestSupport Sampling Participant Transcript Cycle BpUtil InnerProduct ConstraintSystem Generators R1csProof Prover Verifier R1csSync R1csVerify R1csComplete BatchVerify CircuitLogic R1csOnePhase EvrfBits EvrfCurves EvrfToy EvrfChord ProofStream EvrfSigma EvrfOneReceiver EvrfOneReceiverProof EvrfOneReceiverComplete EvrfBatchedStatement EvrfBatchedCircuit EvrfBatchedProof.

Local Open Scope golden_scope.

(** ** The generators of a shape *)
Lemma log2_up_Z n : Z.of_nat (Nat.log2_up n) = Z.log2_up (Z.of_nat n).
Proof.
  symmetry. destruct (Nat.le_gt_cases n 1) as [Hn|Hn].
  { rewrite Nat.log2_up_eqn0, Z.log2_up_eqn0 by lia. reflexivity. }
  pose proof (Nat.log2_up_pos n Hn) as Hp. destruct (Nat.log2_up_spec n Hn) as [H1 H2].
  apply Z.log2_up_unique; [lia|].
  rewrite <-Nat2Z.inj_pred by lia. change 2%Z with (Z.of_nat 2). rewrite <-!Nat2Z.inj_pow. lia.
Qed.
Lemma next_power_of_two_Z n : next_power_of_two n = Z.to_nat (2 ^ Z.log2_up (Z.of_nat n)).
Proof.
  unfold next_power_of_two. rewrite <-log2_up_Z. apply Nat2Z.inj.
  rewrite Z2Nat.id by (apply Z.pow_nonneg; lia). by rewrite Nat2Z.inj_pow.
Qed.
Lemma log2_up_small n k : (Z.of_nat n ≤ 2 ^ Z.of_nat k)%Z → (Nat.log2_up n ≤ k)%nat.
Proof.
  intros Hn. apply Nat2Z.inj_le. rewrite log2_up_Z. etransitivity; [apply Z.log2_up_le_mono, Hn|].
  rewrite Z.log2_up_pow2; lia.
Qed.
(** The rounds of a proof for a padded circuit. *)
Lemma original_rounds_le n : (original_rounds n ≤ n)%nat.
Proof.
  unfold original_rounds, lg, ORIGINAL_BASE_ROUNDS. destruct (Z.ltb_spec (Z.of_nat n) 4096); [|lia].
  apply Nat.log2_up_le_lin. lia.
Qed.
Lemma padded_rounds n k m :
  (Z.of_nat n ≤ 2 ^ Z.of_nat k)%Z →
  (m ≤ original_rounds (next_power_of_two n) + next_power_of_two n)%nat → (Z.of_nat m ≤ 2 ^ (Z.of_nat k + 1))%Z.
Proof.
  intros Hn%log2_up_small Hm. pose proof (original_rounds_le (next_power_of_two n)) as Ho.
  assert (Hp : (Z.of_nat (next_power_of_two n) ≤ 2 ^ Z.of_nat k)%Z).
  { unfold next_power_of_two. rewrite Nat2Z.inj_pow. apply Z.pow_le_mono_r; lia. }
  rewrite Z.pow_add_r by lia. lia.
Qed.

Section shape.
Context {EC : EvrfCurves} {ECL : EvrfCurveLaws} {ME : Merlin} {X : Shake256} {CH : CycleHash (CY:=gout_cycle)}.
#[local] Existing Instance gout_cycle | 0.

Lemma params_setup_Ok threads t n params :
  (0 ≤ t)%Z → params_setup threads t (Z.of_nat n) = Ok params →
  bp_threshold params = t ∧ bp_receiver_count params = Z.of_nat n ∧
  bp_multiplier_count params = Z.of_nat (batched_multipliers n) ∧ bp_pc_gens params = pedersen_default ∧
  generators_cover (bp_bp_gens params) (next_power_of_two (batched_multipliers n)).
Proof.
  intros Ht E. apply bind_Ok in E as ([m cap] & Hv%map_err_Ok & E%ok_or_Ok).
  apply bind_Ok in Hv as (m' & Hm & Hv). apply bind_Ok in Hv as (cap' & Hcap%ok_or_Ok & Hv). injection Hv as -> ->.
  apply batched_multipliers_count in Hm as ->; [|done].
  apply checked_next_power_of_two_Some in Hcap as [-> _].
  unfold from_shape in E.
  destruct (gens_new_run threads (Z.to_nat (2 ^ Z.log2_up (Z.of_nat (batched_multipliers n)))) 1 cache_empty cache_empty_ok)
    as (gens & cache & Hrun & _ & Hc & _ & Hgens).
  rewrite Hrun in E. injection E as <-. cbn [bp_threshold bp_receiver_count bp_multiplier_count bp_pc_gens bp_bp_gens]. do 4 (split; [reflexivity|]).
  rewrite next_power_of_two_Z. split; [by rewrite Hc|].
  destruct (Hgens 0%nat ltac:(lia)) as [(i & Hi & HG) (j & Hj & HH)].
  eexists _, _. split; [exact HG|]. split; [exact HH|]. rewrite !length_generators. lia.
Qed.

Lemma params_setup_total threads t n :
  (∃ r, validated_shape t n = Ok r) → ∃ params, params_setup threads t n = Ok params.
Proof.
  intros [[m cap] Hv]. unfold params_setup. rewrite Hv. cbn [map_err mbind result_bind].
  destruct (gens_new_run threads (Z.to_nat cap) 1 cache_empty cache_empty_ok) as (gens & cache & Hrun & _).
  unfold from_shape. rewrite Hrun. by eexists.
Qed.
End shape.

(** ** Acceptance *)
Section accepted.
Context {EC : EvrfCurves} {ECL : EvrfCurveLaws} {ME : Merlin}.
Context {CC1 : CycleCodec (H:=gin_cycle)} {CC2 : CycleCodec (H:=gout_cycle)}.
#[local] Existing Instance gout_cycle | 0.
Context `{CryptoRngCore R}.

(** The shape of the parameters is that of the statement; the proof is prepared into an
    equation of commitments, which holds. *)
Record batched_accepted (fuel : nat) (params : BatchedEvrfPublicParams) (st : BatchedEvrfStatement)
    (π : BatchedProof) (rng rng' : R) : Prop := MkBatchedAccepted {
  ba_threshold : bp_threshold params = be_threshold st;
  ba_receivers : bp_receiver_count params = len (be_receivers st);
  ba_shape : batched_shape st;
  ba_verified : ∃ e, proof_prepared fuel params st π rng e rng' ∧ equation_verify e = Some (Ok ());
}.

Lemma params_validate_Ok params st u :
  params_validate_statement params st = Ok u ↔
  bp_threshold params = be_threshold st ∧ bp_receiver_count params = len (be_receivers st).
Proof.
  unfold params_validate_statement. destruct u.
  destruct (_ || _)%bool eqn:E.
  - split; [done|]. intros [H1 H2]. rewrite orb_true_iff, !negb_true_iff, !Z.eqb_neq in E. tauto.
  - rewrite orb_false_iff, !negb_false_iff, !Z.eqb_eq in E. tauto.
Qed.

Lemma r1cs_result_Ok {A} (m : outcome R1CSError A) a : r1cs_result m = Ok a ↔ m = Some (Ok a).
Proof. unfold r1cs_result. destruct m as [[b|e]|]; naive_solver. Qed.

Lemma prepared_cover fuel params st π (rng : R) e rng' :
  proof_prepared fuel params st π rng e rng' → ∃ precomps, ReceiverChordPrecomps_new [st] = Ok precomps.
Proof.
  intros [_ _ _ (t' & A_0 & (d & V & Hd & _) & _)]. apply tables_precomps.
  constructor; [by exists d|constructor].
Qed.

Lemma batched_verify_Ok fuel params st proof (rng rng' : R) :
  (len proof ≤ usize_MAX)%Z →
  evrf_batched_verify fuel params st proof rng = (Ok (), rng') ↔
  ∃ π, proof = batched_bytes π ∧ batched_accepted fuel params st π rng rng'.
Proof.
  intros Hu. unfold evrf_batched_verify. split.
  - destruct (map_err _ _) as [precomps|] eqn:E0; [|done].
    apply map_err_Ok in E0. apply bind_Ok in E0 as (u & [H1 H2]%params_validate_Ok & E0).
    apply bind_Ok in E0 as (u' & Hshape%validate_shape_Ok & Hnew).
    pose proof (precomps_new_cover [st] precomps st Hnew ltac:(left)) as Hcover.
    destruct (prepare_batched_proof fuel params precomps st proof rng) as [res rng1] eqn:Ep.
    intros [= Hres <-]. apply bind_Ok in Hres as (e & -> & Heq%r1cs_result_Ok).
    apply (prepare_proof_Ok fuel params st precomps proof rng e rng1 Hu Hcover (bs_roots _ Hshape)) in Ep as (π & -> & Hp).
    exists π. split; [done|]. split; [done..|]. by exists e.
  - intros (π & -> & [H1 H2 Hshape (e & Hp & Heq)]).
    destruct (prepared_cover _ _ _ _ _ _ _ Hp) as [precomps Hnew].
    pose proof (precomps_new_cover [st] precomps st Hnew ltac:(left)) as Hcover.
    rewrite (proj2 (params_validate_Ok params st ())) by done. cbn [mbind result_bind].
    rewrite (proj2 (validate_shape_Ok st ())) by done. cbn [mbind result_bind]. rewrite Hnew. cbn [map_err].
    rewrite (proj2 (prepare_proof_Ok fuel params st precomps _ rng e rng' Hu Hcover (bs_roots _ Hshape)))
      by (exists π; exact (conj eq_refl Hp)).
    cbn [mbind result_bind]. by rewrite Heq.
Qed.
End accepted.

(** ** Completeness *)
Section complete.
Context {EC : EvrfCurves} {ECL : EvrfCurveLaws} {ME : Merlin}.
Context {CC1 : CycleCodec (H:=gin_cycle)} {CC2 : CycleCodec (H:=gout_cycle)}.
#[local] Existing Instance gout_cycle | 0.
#[local] Instance gin_laws5 : ProofStreamLaws (H:=GinStreamCurve) := CycleCurve_laws.
#[local] Instance gout_laws5 : ProofStreamLaws (H:=GoutStreamCurve) := CycleCurve_laws.

(** A statement that is true for the secrets of a dealer. *)
Record batched_true (st : BatchedEvrfStatement) (d : BatchedTables) (w : BatchedEvrfWitness) : Prop := MkBatchedTrue {
  bt_native : native_relations st;
  bt_indices : indices_wf st;
  bt_dealer : dealer_true st d (bw_sk1 w);
  bt_constant : be_commitment_coefficients st !! 0%nat = Some (cpoint_generator ⊙ bw_polynomial_constant w);
}.
(** Parameters for the shape of a statement, with generators for its circuit. *)
Record params_fit (params : BatchedEvrfPublicParams) (st : BatchedEvrfStatement) : Prop := MkParamsFit {
  pf_threshold : bp_threshold params = be_threshold st;
  pf_receivers : bp_receiver_count params = len (be_receivers st);
  pf_gens : generators_cover (bp_bp_gens params)
              (next_power_of_two (batched_multipliers (length (be_receivers st))));
}.
Lemma params_setup_fit {X : Shake256} {CH : CycleHash (CY:=gout_cycle)} threads st params :
  (0 ≤ be_threshold st)%Z → params_setup threads (be_threshold st) (len (be_receivers st)) = Ok params →
  params_fit params st.
Proof. intros H0 E. apply params_setup_Ok in E as (H1 & H2 & _ & _ & H3); [|done]. by split. Qed.

(** The cases, negligible for random challenges, in which the proof is refused. *)
Definition batched_unexceptional (st : BatchedEvrfStatement) (π : BatchedProof) : Prop :=
  ∀ d V, batched_tables st d →
    run_circuit (batched_circuit st d None (verifier_items st d)) (Verifier_new (batched_transcript st))
      = Some (Ok (), V) →
    r1cs_unexceptional (bpr_r1cs π) (num_vars (v_core V)) (length (v_V (v_core V))) (v_transcript (v_core V)).

(** *** The framed proof *)
Lemma batched_payload_total {R R'} `{CryptoRngCore R} `{CryptoRngCore R'} params st d w (rng : R) :
  batched_true st d w → params_fit params st →
  (Z.of_nat (batched_multipliers (length (be_receivers st))) ≤ 2 ^ 25)%Z →
  ∃ proof t' rng',
    prove_batched_r1cs params st w (batched_transcript st, rng) = (Ok (r1cs_to_bytes proof), (t', rng')) ∧
    (Z.of_nat (length (ipp_L_vec (ipp_proof proof))) ≤ 2 ^ 26)%Z ∧
    (∀ V, run_circuit (batched_circuit st d None (verifier_items st d)) (Verifier_new (batched_transcript st))
            = Some (Ok (), V) →
       r1cs_unexceptional proof (num_vars (v_core V)) (length (v_V (v_core V))) (v_transcript (v_core V)) →
     r1cs_from_bytes (r1cs_to_bytes proof) = Ok proof ∧
     ∀ rng1 : R', ∃ e rng2, equation_prepared params st proof rng1 e t' rng2 ∧ equation_verify e = Some (Ok ())).
Proof.
  intros [_ _ Hd _] [_ _ Hgens] Hsmall. pose proof (dt_tables _ _ _ Hd) as Ht.
  destruct (dealer_run params st d w (batched_transcript st) Hd) as (P & V & HP & HV & Hh & Hs & Hdef & Hpc & Hn).
  set (N := batched_multipliers (length (be_receivers st))) in *.
  assert (HnP : length (a_L (p_secrets (p_core P))) = N)
    by (destruct Hs as [Hcs _]; rewrite (sync_L _ _ Hcs); exact Hn).
  destruct (one_phase_total P (bp_bp_gens params) rng Hh Hdef) as (proof & t' & rng' & Hprove);
    [by rewrite HnP|].
  pose proof (one_phase_rounds P _ rng rng' proof t' Hdef Hprove) as Hrounds. cbv zeta in Hrounds.
  rewrite HnP in Hrounds.
  pose proof (log2_up_small N 25 Hsmall) as Hlog.
  exists proof, t', rng'. split; [|split].
  - unfold prove_batched_r1cs. rewrite HP, Hprove. reflexivity.
  - exact (padded_rounds N 25 _ Hsmall Hrounds).
  - intros V' HV' Hex. rewrite HV in HV'. injection HV' as <-.
    destruct (one_phase_complete (R':=R') P V (bp_bp_gens params) rng rng' proof t' Hs Hh Hdef) as [Hcanon Hacc];
      [rewrite Hn; lia|exact Hprove|exact Hex|].
    split; [exact Hcanon|]. intros rng1. specialize (Hacc rng1). rewrite Hpc in Hacc.
    unfold verify_and_return_transcript in Hacc.
    destruct (verification_equation_and_return_transcript V proof (bp_pc_gens params) (bp_bp_gens params) rng1)
      as [res rng2] eqn:Ev. cbn [fst] in Hacc.
    apply outcome_bind_Ok in Hacc as ([e t1] & -> & Hacc). apply outcome_bind_Ok in Hacc as ([] & Heq & Hacc).
    injection Hacc as ->. exists e, rng2. split; [|exact Heq]. exists d, V. exact (conj Ht (conj HV Ev)).
Qed.

(** *** The whole proof *)
Lemma batched_size π :
  points_short → (Z.of_nat (length (ipp_L_vec (ipp_proof (bpr_r1cs π)))) ≤ 2 ^ 26)%Z →
  is_usize (len (r1cs_to_bytes (bpr_r1cs π))) ∧ (len (batched_bytes π) ≤ usize_MAX)%Z.
Proof.
  intros [H1 H2] Hm. pose proof (length_r1cs_to_bytes (bpr_r1cs π)) as Hl.
  unfold batched_bytes, term_bytes, stream_header, is_usize. unfold len in *. rewrite !length_app, !length_to_be_bytes.
  pose proof (len_encode_point (H:=GinStreamCurve) (term_a (bpr_term π))) as E1.
  pose proof (len_encode_scalar (H:=GinStreamCurve) (term_t (bpr_term π))) as E2. unfold len in *.
  change (POINT_BYTES (ProofStreamCurve:=GinStreamCurve)) with (Z.of_nat (COMPRESSED_BYTES (Cycle:=gin_cycle))) in *.
  change (SCALAR_BYTES (ProofStreamCurve:=GinStreamCurve)) with 32%Z in *.
  change (length BATCHED_PROOF_ID) with 28%nat.
  set (c := @COMPRESSED_BYTES gout_cycle) in *. set (m := length (ipp_L_vec _)) in *.
  set (b := length (r1cs_to_bytes _)) in *. clearbody c m b.
  assert (Hmc : (Z.of_nat m * Z.of_nat c ≤ 2 ^ 26 * 2 ^ 32)%Z) by (apply Z.mul_le_mono_nonneg; lia).
  assert (Hb : (Z.of_nat b ≤ 161 + 11 * Z.of_nat c + 2 * (Z.of_nat m * Z.of_nat c))%Z) by lia.
  unfold usize_MAX. lia.
Qed.

Lemma native_points st : native_relations st → batched_points st.
Proof.
  intros (_ & Hpk & Hall). split; [done|]. eapply Forall_impl; [exact Hall|]. by intros rec [Hk Hp _ _].
Qed.

Lemma evrf_batched_prove_complete {R R'} `{CryptoRngCore R} `{CryptoRngCore R'} n fuel params st d w (rng : R) :
  batched_true st d w → params_fit params st →
  (Z.of_nat (batched_multipliers (length (be_receivers st))) ≤ 2 ^ 25)%Z → points_short →
  (cpoint_generator : Gin) ≠ cpoint_identity →
  (∀ rng : R, draws_nonzero (F:=Fq) n rng) → (n ≤ fuel)%nat →
  ∃ π rng', evrf_batched_prove fuel params st w rng = (Ok (batched_bytes π), rng') ∧
    (len (batched_bytes π) ≤ usize_MAX)%Z ∧
    (batched_unexceptional st π → ∀ m fuel', weights_drawn m st (batched_transcript st) → (m ≤ fuel')%nat →
     ∀ rng1 : R', ∃ rng2, batched_accepted fuel' params st π rng1 rng2).
Proof.
  intros Ht Hfit Hsmall Hshort Hg Hdraws Hn. pose proof Ht as [Hnat Hidx Hd HA].
  pose proof Hnat as (Hshape & _ & _). pose proof (native_points _ Hnat) as Hpts.
  destruct (batched_payload_total (R':=R') params st d w rng Ht Hfit Hsmall)
    as (proof & t' & rng1 & Hpay & Hrounds & Hacc).
  destruct (constant_term_prove_total n fuel (bw_polynomial_constant w)
    (MkProverProofStream t' (stream_header BATCHED_PROOF_ID ++ to_be_bytes 8 (len (r1cs_to_bytes proof)) ++ r1cs_to_bytes proof))
    rng1 Hg (Hdraws rng1) Hn) as (s2 & rng2 & Hterm).
  pose proof (constant_term_prove_Ok _ _ _ _ _ _ _ _ _ Hterm) as (_ & term & -> & Hta).
  set (π := MkBatchedProof proof term). destruct (batched_size π Hshort Hrounds) as [Hpsize Hsize].
  exists π, rng2. split; [|split; [exact Hsize|]].
  2: { intros Hex m fuel' Hw Hm rv. pose proof (dt_tables _ _ _ Hd) as Htab.
       destruct (verifier_builds st d (batched_transcript st) Htab (dealer_pads _ _ _ Hd)) as (V & HV & _).
       destruct (Hacc V HV (Hex d V Htab HV)) as [Hcan Hver]. destruct (Hver rv) as (e & rv2 & Heq & He).
       exists rv2. split; [apply Hfit|apply Hfit|exact Hshape|]. exists e. split; [|exact He].
       destruct (weights_drawn_total m fuel' st (batched_transcript st) Hw Hm) as [Hsome Hsame].
       split; [exact Hpts| |exact Hcan|exists t', (cpoint_generator ⊙ bw_polynomial_constant w); exact (conj Heq (conj HA Hta))].
       apply for_verifier_native; [done|done|]. by rewrite Hsame. }
  unfold evrf_batched_prove.
  rewrite (proj2 (params_validate_Ok params st ())) by (split; apply Hfit). cbn [map_err mbind result_bind].
  assert (Hrel : validate_batched_public_relations st = Ok ()).
  { apply validate_relations_Ok; [done|]. by apply native_relations_iff. }
  rewrite Hrel. cbn [mbind result_bind]. rewrite (proj2 (prover_new_Ok BATCHED_PROOF_ID _ batched_id_len) eq_refl).
  cbn [map_err].
  match goal with |- (let '(_, _) := ?m in _) = _ =>
    assert (∃ t2, m = (Ok (), (MkProverProofStream t2 (batched_bytes π), rng2))) as (t2 & ->) end.
  2: { cbn [mbind result_bind prover_finish pps_proof]. unfold allocated. by rewrite bool_decide_eq_true_2. }
  exists (term_transcript term t').
  apply stateful_bind_Ok. eexists (), (_, _). split.
  { apply with_rng_Ok. split; [|reflexivity]. apply (observe_batched_statement_Ok st _ _ _ (bs_roots _ Hshape)).
    split; [exact Hpts|reflexivity]. }
  change (absorbed _ (MkProverProofStream _ ?h)) with (MkProverProofStream (batched_transcript st) h).
  apply stateful_bind_Ok. eexists (), (_, _). split.
  { apply send_nested_Ok. eexists (r1cs_to_bytes proof), t'. split; [exact Hpay|]. split; [exact Hpsize|reflexivity]. }
  apply stateful_bind_Ok. eexists _, (_, _). split; [rewrite HA; reflexivity|].
  rewrite Hterm. unfold batched_bytes, π. cbn [bpr_r1cs bpr_term]. rewrite <-!app_assoc. reflexivity.
Qed.
End complete.

(** ** Properties *)
Section properties.
Context {EC : EvrfCurves} {ECL : EvrfCurveLaws} {ME : Merlin}.
Context {CC1 : CycleCodec (H:=gin_cycle)} {CC2 : CycleCodec (H:=gout_cycle)}.
#[local] Existing Instance gout_cycle | 0.

(** C13: the verifier of the batched dealer proof accepts exactly one language.  It
    accepts a byte string if and only if the parameters are for the shape of the
    statement, the statement is well shaped, and the string is the framed encoding, with
    no trailing byte, of an R1CS proof in canonical form and a proof of the dealer's
    constant term, such that: neither the dealer's key nor a key or pad commitment of a
    receiver is the identity; the native relations hold as the verifier checks them; the
    equation prepared for the statement's circuit, at the transcript that absorbed the
    statement, holds; and so does the one of the constant term, at the transcript after
    the R1CS proof, for the first commitment of the polynomial. *)
Theorem evrf_batched_verify_exact `{CryptoRngCore R} fuel params st proof (rng rng' : R) :
  (len proof ≤ usize_MAX)%Z →
  evrf_batched_verify fuel params st proof rng = (Ok (), rng') ↔
  ∃ π, proof = batched_bytes π ∧ batched_accepted fuel params st π rng rng'.
Proof. apply batched_verify_Ok. Qed.

(** C10: completeness and termination of the batched dealer proof.  The statement is true
    for the dealer's secrets: the native relations hold, for receivers with valid indices;
    the key is that of the secret; every pad is the power of the output for that receiver;
    and the chord tables and witnesses of the powers exist.  The parameters are those of
    [params_setup] for its shape, of at most 2^25 multipliers; points are at most 2^32
    bytes; and from every state the generator draws a nonzero scalar in [n] draws.  Then
    [evrf_batched_prove], with fuel for [n] draws, returns a proof; and
    [evrf_batched_verify], with whatever generator and with fuel for the draws of its
    Feldman weights, accepts it, unless a point of the R1CS proof that must not be the
    identity is, or one of its challenges is zero. *)
Theorem evrf_batched_prove_verifies {R R'} `{CryptoRngCore R} `{CryptoRngCore R'} {X : Shake256}
    {CH : CycleHash (CY:=gout_cycle)} n fuel threads params st d w (rng : R) :
  batched_true st d w → (0 ≤ be_threshold st)%Z →
  params_setup threads (be_threshold st) (len (be_receivers st)) = Ok params →
  (Z.of_nat (batched_multipliers (length (be_receivers st))) ≤ 2 ^ 25)%Z → points_short →
  (cpoint_generator : Gin) ≠ cpoint_identity →
  (∀ rng : R, draws_nonzero (F:=Fq) n rng) → (n ≤ fuel)%nat →
  ∃ π rng', evrf_batched_prove fuel params st w rng = (Ok (batched_bytes π), rng') ∧
    (batched_unexceptional st π → ∀ m fuel', weights_drawn m st (batched_transcript st) → (m ≤ fuel')%nat →
     ∀ rng1 : R', (evrf_batched_verify fuel' params st (batched_bytes π) rng1).1 = Ok ()).
Proof.
  intros Ht Hthr Hsetup Hsmall Hshort Hg Hdraws Hn.
  destruct (evrf_batched_prove_complete (R':=R') n fuel params st d w rng Ht (params_setup_fit threads st params Hthr Hsetup)
    Hsmall Hshort Hg Hdraws Hn) as (π & rng' & Hrun & Hfit & Hacc).
  exists π, rng'. split; [exact Hrun|]. intros Hex m fuel' Hw Hm rng1.
  destruct (Hacc Hex m fuel' Hw Hm rng1) as (rng2 & Hok).
  rewrite (proj2 (batched_verify_Ok fuel' params st _ rng1 rng2 Hfit)); [reflexivity|].
  exists π. exact (conj eq_refl Hok).
Qed.
End properties.

(** ** Witnesses *)
Lemma dealer_batched_true :
  ∃ d, batched_true (EC:=ToyCurves) (ECL:=ToyCurves_laws) dealer_statement d dealer_secrets.
Proof.
  destruct dealer_is_true as [d Hd]. exists d.
  assert (Hwf : indices_wf (EC:=ToyCurves) dealer_statement)
    by (repeat constructor; unfold participant_wf; cbn; unfold u32_MAX; lia).
  assert (Hrel : validate_batched_public_relations_impl (EC:=ToyCurves) (ME:=ToyMerlin) 0 dealer_statement None = Ok ())
    by vm_refl.
  split; [|exact Hwf|exact Hd|vm_refl].
  apply (native_relations_iff (EC:=ToyCurves) (ECL:=ToyCurves_laws)).
  exact (proj1 (validate_relations_Ok (EC:=ToyCurves) (ECL:=ToyCurves_laws) (ME:=ToyMerlin) 0 dealer_statement None Hwf) Hrel).
Qed.

(** The statement with an encrypted share that is off by one. *)
Definition off_statement : BatchedEvrfStatement (EC:=ToyCurves) :=
  MkBatchedEvrfStatement (EC:=ToyCurves) (replicate 32 x07) (toy 3) (toy 5) 2 [toy 2; toy 3] [replicate 32 x01]
    [MkBatchedReceiverStatement (EC:=ToyCurves) (MkParticipantIndex 1) (toy 3) (toy 5) (toy 38117) (toy 38123)].
Lemma off_statement_fails fuel t :
  validate_batched_public_relations_for_verifier (EC:=ToyCurves) (ME:=ToyMerlin) fuel off_statement t ≠ Ok ().
Proof. intros E. apply (f_equal is_ok) in E. vm_compute in E. discriminate. Qed.

(** Whatever the bytes and the parameters, it is refused. *)
Lemma evrf_batched_verify_exact_witness :
  (len (replicate 3 x01) ≤ usize_MAX)%Z ∧
  ∀ params proof rng', (len proof ≤ usize_MAX)%Z →
    evrf_batched_verify (EC:=ToyCurves) (ME:=ToyMerlin) 1 params off_statement proof () ≠ (Ok (), rng').
Proof.
  split; [vm_compute; congruence|]. intros params proof rng' Hu E.
  apply (evrf_batched_verify_exact (EC:=ToyCurves) (ECL:=ToyCurves_laws) (ME:=ToyMerlin)
    (CC1:=ToyCycle_codec) (CC2:=ToyCycle_codec)) in E as (π & _ & [_ _ _ (e & [_ Hrel _ _] & _)]); [|exact Hu].
  exact (off_statement_fails _ _ Hrel).
Defined.

Lemma evrf_batched_prove_verifies_witness :
  ∃ d params, batched_true (EC:=ToyCurves) (ECL:=ToyCurves_laws) dealer_statement d dealer_secrets ∧
    params_setup (EC:=ToyCurves) 4 2 1 = Ok params ∧
    ∃ π rng', evrf_batched_prove (EC:=ToyCurves) (ME:=ToyMerlin) 1 params dealer_statement dealer_secrets ()
                = (Ok (batched_bytes (EC:=ToyCurves) π), rng').
Proof.
  destruct dealer_batched_true as [d Ht].
  destruct (params_setup_total (EC:=ToyCurves) (ECL:=ToyCurves_laws) (CH:=toy_cycle_hash) 4 2 1) as [params Hparams];
    [eexists; vm_compute; reflexivity|].
  exists d, params. split; [exact Ht|]. split; [exact Hparams|].
  destruct (evrf_batched_prove_verifies (EC:=ToyCurves) (ECL:=ToyCurves_laws) (ME:=ToyMerlin)
    (CC1:=ToyCycle_codec) (CC2:=ToyCycle_codec) (CH:=toy_cycle_hash) (R:=unit) (R':=unit) 1 1 4 params
    dealer_statement d dealer_secrets () Ht) as (π & rng' & Hrun & _).
  - vm_compute. discriminate.
  - exact Hparams.
  - vm_compute. discriminate.
  - split; vm_compute; congruence.
  - intros E%(f_equal toy_val). vm_compute in E. discriminate.
  - exact toy_draws.
  - lia.
  - exists π, rng'. exact Hrun.
Defined.
