(* ===== verification/EvrfBatchedMany.v ===== *)
(** * Verifying several batched proofs at once (golden-evrf/paper.rs, module secp_secq)

    [evrf_batched_verify_many]: what its acceptance says of every proof, that it accepts
    proofs that are accepted one by one, and that its verdict does not depend on the
    number of threads. *)

From Stdlib Require Import ZArith Lia Field Strings.Byte.
From stdpp Require Import prelude gmap strings list_numbers.
From S2P Require Import Prelude CoreError Group Algebra TestSupport Sampling Participant Transcript Cycle BpUtil InnerProduct ConstraintSystem Generators R1csProof Prover Verifier R1csSync R1csVerify R1csComplete BatchVerify CircuitLogic R1csOnePhase EvrfBits EvrfCurves EvrfToy EvrfChord ProofStream EvrfSigma EvrfOneReceiver EvrfOneReceiverProof EvrfOneReceiverComplete EvrfBatchedStatement EvrfBatchedCircuit EvrfBatchedProof EvrfBatchedComplete.

Local Open Scope golden_scope.

(** ** Chunks

    Numbering the elements chunk by chunk numbers them in the list. *)
Lemma imap_chunks {A B} (f : nat → A → B) fuel n k (l : list A) :
  (0 < n)%nat → (length l ≤ fuel)%nat →
  mjoin (imap (λ ci chunk, imap (λ off x, f ((k + ci) * n + off)%nat x) chunk) (chunks fuel n l))
  = imap (λ i x, f (k * n + i)%nat x) l.
Proof.
  intros Hn. revert k l. induction fuel as [|fuel IH]; intros k l Hl.
  { by destruct l; [|simpl in Hl; lia]. }
  destruct l as [|x l]; [done|].
  change (chunks (S fuel) n (x :: l)) with (take n (x :: l) :: chunks fuel n (drop n (x :: l))).
  assert (Hdrop : (length (drop n (x :: l)) ≤ fuel)%nat) by (rewrite length_drop; simpl in *; lia).
  generalize dependent (x :: l). clear x l. intros xs Hl Hdrop.
  rewrite imap_cons. cbn [mjoin list_join]. rewrite Nat.add_0_r.
  rewrite <-(take_drop n xs) at 3. rewrite imap_app. f_equal.
  etransitivity; [etransitivity; [|apply (IH (S k) (drop n xs) Hdrop)]|].
  - f_equal. apply imap_ext. intros i chunk _. unfold compose. apply imap_ext. intros off y _.
    f_equal. lia.
  - destruct (Nat.le_gt_cases n (length xs)) as [Hle|Hgt].
    + apply imap_ext. intros i y _. f_equal. rewrite length_take. lia.
    + rewrite drop_ge by lia. done.
Qed.

(** A choice for every element of a list. *)
Lemma lookup_choice {A B} (P : nat → A → B → Prop) (l : list A) :
  (∀ i x, l !! i = Some x → ∃ y, P i x y) →
  ∃ ys, length ys = length l ∧ ∀ i x y, l !! i = Some x → ys !! i = Some y → P i x y.
Proof.
  revert P. induction l as [|x l IH]; intros P Hex; [by exists []|].
  destruct (Hex 0%nat x eq_refl) as [y Hy]. destruct (IH (λ i, P (S i))) as (ys & Hl & Hys).
  { intros i z Hz. by apply (Hex (S i)). }
  exists (y :: ys). split; [by simpl; f_equal|]. intros [|i] x' y' Hx' Hy'; [|by apply Hys].
  injection Hx' as <-. by injection Hy' as <-.
Qed.

(** ** The generators of an equation *)
Lemma equation_generators {CY : Cycle} {ME : Merlin} `{CryptoRngCore R} (V : Verifier) proof pc_gens bp_gens (rng rng' : R) e t' :
  verification_equation_and_return_transcript V proof pc_gens bp_gens rng = (Some (Ok (e, t')), rng') →
  pedersen_points e = (pc_B pc_gens, pc_B_blinding pc_gens) ∧
  shared_G bp_gens 0 = Some (g_points e) ∧ shared_H bp_gens 0 = Some (h_points e).
Proof.
  unfold verification_equation_and_return_transcript.
  destruct (equation_prologue V proof bp_gens) as [[[core t]|]|]; try done.
  destruct (challenge_scalar _ t) as [y t1]. destruct (challenge_scalar _ t1) as [z t2].
  destruct (validate_points _ t2) as [[u0|] t3]; [|done].
  destruct (challenge_scalar _ t3) as [u t4]. destruct (challenge_scalar _ t4) as [x t5].
  destruct (challenge_scalar _ _) as [w_ch t6]. destruct (verifier_flattened_constraints core z) as [weights|]; [|done].
  destruct (verification_scalars _ _ _) as [[scalars|] t7]; [|done].
  destruct (finalize rng _) as [trng rng1]. destruct (srandom trng) as [r trng1].
  destruct (shared_G bp_gens 0) as [g|]; [|done]. destruct (shared_H bp_gens 0) as [h|]; [|done].
  cbn [no_panic fmap option_fmap option_map mbind outcome_bind]. intros [= <- _ _].
  unfold equation_coefficients. destruct scalars as [[u_sq u_inv_sq] s], weights as [w wc]. done.
Qed.

Section many.
Context {EC : EvrfCurves} {ECL : EvrfCurveLaws} {ME : Merlin} {CC : ChaCha20}.
Context {CC1 : CycleCodec (H:=gin_cycle)} {CC2 : CycleCodec (H:=gout_cycle)}.
#[local] Existing Instance gout_cycle | 0.
Implicit Types l : list (BatchedEvrfStatement * list byte).

(** The generator of the proof at a position of the batch. *)
Definition proof_rng (seed : list byte) (i : nat) : ChaCha20Rng := from_seed (per_proof_seed seed i).

Lemma prepare_instances_imap fuel threads params precomps seed l :
  prepare_instances fuel threads params precomps seed l = imap (prepare_instance fuel params precomps seed) l.
Proof.
  unfold prepare_instances. refine (eq_trans _ (imap_chunks _ (length l) (Nat.max threads 1) 0 l _ _)); [done|lia|lia].
Qed.

Definition instances_shaped (params : BatchedEvrfPublicParams) l : Prop :=
  Forall (λ inst, bp_threshold params = be_threshold inst.1 ∧
                  bp_receiver_count params = len (be_receivers inst.1) ∧ batched_shape inst.1) l.
Lemma instances_shaped_Ok params l :
  for_each (λ inst, _ ← params_validate_statement params inst.1;
                    validate_batched_statement_shape inst.1) l = Ok () ↔ instances_shaped params l.
Proof.
  apply for_each_Forall, Forall_forall. intros [st proof] _. cbn [fst]. rewrite bind_Ok.
  setoid_rewrite params_validate_Ok. setoid_rewrite validate_shape_Ok. naive_solver.
Qed.

(** The equations of a batch, each prepared with its own generator. *)
Definition instances_prepared (fuel : nat) (params : BatchedEvrfPublicParams) (seed : list byte) l
    (es : list VerificationEquation) : Prop :=
  length es = length l ∧
  ∀ i st proof e, l !! i = Some (st, proof) → es !! i = Some e →
    ∃ π rng', proof = batched_bytes π ∧ proof_prepared fuel params st π (proof_rng seed i) e rng'.

Lemma traverse_batch_items (f : nat → BatchedEvrfStatement * list byte → result (option CoreError) VerificationEquation) l es :
  traverse batch_item (imap f l) = Ok (Ok <$> es) ↔
  length es = length l ∧ ∀ i inst e, l !! i = Some inst → es !! i = Some e → f i inst = Ok e.
Proof.
  rewrite traverse_Ok. revert f es. induction l as [|inst l IH]; intros f [|e es]; cbn [imap fmap list_fmap length].
  - split; [done|constructor].
  - split; [intros H; inversion H|by intros [[=] _]].
  - split; [intros H; inversion H|by intros [[=] _]].
  - assert (Hitem : ∀ r, batch_item r = Ok (Ok e) ↔ r = Ok e).
    { intros [e'|[c|]]; cbn [batch_item]; split; congruence. }
    rewrite Forall2_cons, Hitem, (IH (f ∘ S)). split.
    + intros (He & Hl & Hall). split; [by f_equal|]. intros [|i] inst' e' Hi He'; [by injection Hi as <-; injection He' as <-|].
      by apply (Hall i inst' e').
    + intros (Hl & Hall). split; [by apply (Hall 0%nat)|]. split; [by injection Hl|].
      intros i inst' e' Hi He'. by apply (Hall (S i)).
Qed.

Lemma prepare_instances_Ok fuel params precomps seed l es :
  Forall (λ inst, (len inst.2 ≤ usize_MAX)%Z) l → instances_shaped params l →
  (∀ inst, inst ∈ l → precomps_cover precomps (be_receivers inst.1)) →
  traverse batch_item (imap (prepare_instance fuel params precomps seed) l) = Ok (Ok <$> es) ↔
  instances_prepared fuel params seed l es.
Proof.
  intros Hlen Hshape Hcover. rewrite traverse_batch_items.
  unfold instances_prepared. apply and_iff_compat_l.
  assert (Hone : ∀ i st proof e, l !! i = Some (st, proof) →
    prepare_instance fuel params precomps seed i (st, proof) = Ok e ↔
    ∃ π rng', proof = batched_bytes π ∧ proof_prepared fuel params st π (proof_rng seed i) e rng').
  { intros i st proof e Hi. pose proof (list_elem_of_lookup_2 _ _ _ Hi) as Hin.
    rewrite Forall_forall in Hlen. unfold instances_shaped in Hshape. rewrite Forall_forall in Hshape.
    destruct (Hshape _ Hin) as (_ & _ & Hs). cbn [fst] in Hs.
    pose proof (λ rng', prepare_proof_Ok fuel params st precomps proof (proof_rng seed i) e rng'
      (Hlen _ Hin) (Hcover _ Hin) (bs_roots _ Hs)) as Hiff.
    unfold prepare_instance. cbn [fst snd]. fold (proof_rng seed i).
    destruct (prepare_batched_proof _ _ _ _ _ (proof_rng seed i)) as [res rng1]. cbn [fst]. split.
    - intros ->. destruct (proj1 (Hiff rng1) eq_refl) as (π & Hp & Hprep). by exists π, rng1.
    - intros (π & rng' & Hp & Hprep). by assert (E : (res, rng1) = (Ok e, rng')) by (apply Hiff; by exists π); injection E. }
  split.
  - intros Hall i st proof e Hi He. by apply (Hone i), (Hall i (st, proof)).
  - intros Hall i [st proof] e Hi He. apply (Hone i); [done|]. by apply (Hall i).
Qed.

Lemma batch_tables l precomps :
  ReceiverChordPrecomps_new l.*1 = Ok precomps →
  ∀ inst, inst ∈ l → precomps_cover precomps (be_receivers inst.1).
Proof.
  intros E inst Hin. apply (precomps_new_cover _ _ _ E), list_elem_of_fmap. by exists inst.
Qed.
End many.

(** ** The verdict *)
Section verdict.
Context {EC : EvrfCurves} {ECL : EvrfCurveLaws} {ME : Merlin} {CC : ChaCha20}.
Context {CC1 : CycleCodec (H:=gin_cycle)} {CC2 : CycleCodec (H:=gout_cycle)}.
#[local] Existing Instance gout_cycle | 0.
Implicit Types l : list (BatchedEvrfStatement * list byte).

(** A proof is prepared into one equation. *)
Lemma prepared_unique {R} `{CryptoRngCore R} fuel params st π π' (rng r r' : R) e e' :
  (len (batched_bytes π) ≤ usize_MAX)%Z → batched_shape st → batched_bytes π = batched_bytes π' →
  proof_prepared fuel params st π rng e r → proof_prepared fuel params st π' rng e' r' → e = e'.
Proof.
  intros Hu Hs Heq Hp Hp'. destruct (prepared_cover _ _ _ _ _ _ _ Hp) as [precomps Hnew].
  pose proof (precomps_new_cover [st] precomps st Hnew ltac:(left)) as Hcover.
  pose proof (λ e r, proj2 (prepare_proof_Ok fuel params st precomps _ rng e r Hu Hcover (bs_roots _ Hs))) as Hrun.
  pose proof (Hrun e r ltac:(by exists π)) as E1. pose proof (Hrun e' r' ltac:(by exists π')) as E2. congruence.
Qed.

(** Alone, an instance is accepted if its equation holds. *)
Lemma instance_accepted fuel params st π (rng rng' : ChaCha20Rng) e :
  (len (batched_bytes π) ≤ usize_MAX)%Z →
  bp_threshold params = be_threshold st → bp_receiver_count params = len (be_receivers st) → batched_shape st →
  proof_prepared fuel params st π rng e rng' →
  (evrf_batched_verify fuel params st (batched_bytes π) rng).1 = Ok () ↔ equation_verify e = Some (Ok ()).
Proof.
  intros Hu H1 H2 Hs Hp. split.
  - destruct (evrf_batched_verify _ _ _ _ _) as [res rng1] eqn:E. cbn [fst]. intros ->.
    apply (batched_verify_Ok fuel params st _ rng rng1 Hu) in E as (π' & Heq & [_ _ _ (e' & Hp' & He')]).
    by rewrite (prepared_unique fuel params st π π' rng rng' rng1 e e' Hu Hs Heq Hp Hp').
  - intros He. rewrite (proj2 (batched_verify_Ok fuel params st _ rng rng' Hu)); [done|].
    exists π. split; [done|]. split; [done..|]. by exists e.
Qed.

Lemma many_nonempty fuel threads params l :
  l ≠ [] →
  evrf_batched_verify_many fuel threads params l =
  _ ← map_err Some
        (for_each (λ inst, _ ← params_validate_statement params inst.1;
                           validate_batched_statement_shape inst.1) l);
  seed ← batch_seed l;
  receiver_precomps ← map_err Some (ReceiverChordPrecomps_new l.*1);
  equations ← traverse batch_item (imap (prepare_instance fuel params receiver_precomps seed) l);
  '(res, _) ← ok_or None (verify_batch_iter fuel equations (from_seed seed));
  r1cs_result res.
Proof.
  intros Hne. destruct l as [|inst l]; [done|]. unfold evrf_batched_verify_many.
  destruct (map_err _ (for_each _ _)); [|done]. destruct (batch_seed _) as [seed|]; [|done].
  destruct (ReceiverChordPrecomps_new _) as [precomps|]; [|done]. cbn [map_err mbind result_bind].
  by rewrite prepare_instances_imap.
Qed.

Lemma many_Ok fuel threads params l :
  Forall (λ inst, (len inst.2 ≤ usize_MAX)%Z) l →
  evrf_batched_verify_many fuel threads params l = Ok () →
  l ≠ [] ∧ instances_shaped params l ∧
  ∃ seed es cs rng', batch_seed l = Ok seed ∧ instances_prepared fuel params seed l es ∧
    drawn_coefficients (from_seed seed) cs rng' ∧ length cs = length es ∧
    Forall equation_lengths_ok es ∧ Forall (λ e, Forall is_Some (proof_points e)) es ∧
    lincomb cs (equation_value <$> es) = cpoint_identity.
Proof.
  intros Hlen E. assert (Hne : l ≠ []) by (by intros ->). split; [exact Hne|]. rewrite many_nonempty in E by done.
  apply bind_Ok in E as ([] & Hshape%map_err_Ok%instances_shaped_Ok & E).
  apply bind_Ok in E as (seed & Hseed & E). apply bind_Ok in E as (precomps & Hnew%map_err_Ok & E).
  apply bind_Ok in E as (items & Hitems & E). apply bind_Ok in E as ([res rng'] & Hver%ok_or_Ok & E).
  apply r1cs_result_Ok in E as ->.
  apply batch_accepted_sum in Hver as (es & cs & _ & -> & Hl & Hcs & _ & Hls & Hsome & Hsum).
  apply (prepare_instances_Ok fuel params precomps seed l es Hlen Hshape (batch_tables _ _ Hnew)) in Hitems.
  split; [exact Hshape|]. exists seed, es, cs, rng'. by repeat (split; [done|]).
Qed.

(** Equations of one set of parameters use the same generators. *)
Lemma prepared_generators fuel params st π (rng rng' : ChaCha20Rng) e :
  proof_prepared fuel params st π rng e rng' →
  pedersen_points e = (pc_B (bp_pc_gens params), pc_B_blinding (bp_pc_gens params)) ∧
  shared_G (bp_bp_gens params) 0 = Some (g_points e) ∧ shared_H (bp_bp_gens params) 0 = Some (h_points e).
Proof. intros [_ _ _ (t' & A_0 & (d & V & _ & _ & E) & _)]. exact (equation_generators V _ _ _ rng rng' e t' E). Qed.

Lemma prepared_lookup fuel params seed l es i e :
  instances_prepared fuel params seed l es → es !! i = Some e →
  ∃ st π rng', l !! i = Some (st, batched_bytes π) ∧ proof_prepared fuel params st π (proof_rng seed i) e rng'.
Proof.
  intros [Hl Hall] He. destruct (lookup_lt_is_Some_2 l i) as [[st proof] Hi].
  { rewrite <-Hl. by eapply lookup_lt_Some. }
  destruct (Hall i st proof e Hi He) as (π & rng' & -> & Hp). by exists st, π, rng'.
Qed.

Lemma prepared_batchable fuel params seed l first es :
  instances_prepared fuel params seed l (first :: es) →
  Forall (λ e, equation_verify e = Some (Ok ())) (first :: es) →
  Forall (batchable (pedersen_points first) (g_points first) (h_points first)) (first :: es).
Proof.
  intros Hp Hver. destruct (prepared_lookup _ _ _ _ _ 0%nat first Hp eq_refl) as (st0 & π0 & r0 & _ & Hp0).
  destruct (prepared_generators _ _ _ _ _ _ _ Hp0) as (P0 & G0 & H0).
  apply Forall_lookup. intros i e He.
  destruct (prepared_lookup _ _ _ _ _ i e Hp He) as (st & π & r & _ & Hpe).
  destruct (prepared_generators _ _ _ _ _ _ _ Hpe) as (P1 & G1 & H1).
  assert (g_points e = g_points first ∧ h_points e = h_points first) as [Eg Eh] by (split; congruence).
  split; [congruence|]. split; [by apply equation_verify_Ok, (proj1 (Forall_lookup _ _) Hver i)|].
  rewrite Eg, Eh. done.
Qed.

Lemma many_accepts n fuel threads params l seed es :
  l ≠ [] → instances_shaped params l → Forall (λ inst, (len inst.2 ≤ usize_MAX)%Z) l →
  batch_seed l = Ok seed → instances_prepared fuel params seed l es →
  Forall (λ e, equation_verify e = Some (Ok ())) es →
  draws_coefficients n (from_seed seed) → (n ≤ fuel)%nat →
  evrf_batched_verify_many fuel threads params l = Ok ().
Proof.
  intros Hne Hshape Hlen Hseed Hp Hver Hd Hn. rewrite many_nonempty by done.
  rewrite (proj2 (instances_shaped_Ok params l) Hshape). cbn [map_err mbind result_bind].
  rewrite Hseed. cbn [mbind result_bind].
  destruct (tables_precomps l.*1) as [precomps Hnew].
  { apply Forall_fmap, Forall_lookup. intros i [st proof] Hi. destruct Hp as [Hl Hall].
    destruct (lookup_lt_is_Some_2 es i) as [e He]; [rewrite Hl; by eapply lookup_lt_Some|].
    destruct (Hall i st proof e Hi He) as (π & r & _ & [_ _ _ (t' & A_0 & (d & V & Hdt & _) & _)]). by exists d. }
  rewrite Hnew. cbn [map_err mbind result_bind].
  rewrite (proj2 (prepare_instances_Ok fuel params precomps seed l es Hlen Hshape (batch_tables _ _ Hnew)) Hp).
  cbn [mbind result_bind]. destruct es as [|first es]; [by destruct Hp as [Hl _]; destruct l|].
  pose proof (prepared_batchable _ _ _ _ _ _ Hp Hver) as Hb.
  destruct (verify_batch_runs n fuel first es _ _ _ Hd Hn Hb) as (cs & res & rng' & _ & _ & Hrun & _ & Hiff).
  unfold verify_batch in Hrun. rewrite Hrun, (proj2 Hiff); [done|]. by apply all_pass_sum.
Qed.

(** Instances that are accepted alone have equations that hold. *)
Lemma alone_prepared fuel params seed l :
  Forall (λ inst, (len inst.2 ≤ usize_MAX)%Z) l →
  (∀ i st proof, l !! i = Some (st, proof) → (evrf_batched_verify fuel params st proof (proof_rng seed i)).1 = Ok ()) →
  instances_shaped params l ∧
  ∃ es, instances_prepared fuel params seed l es ∧ Forall (λ e, equation_verify e = Some (Ok ())) es.
Proof.
  intros Hlen Halone.
  assert (Hacc : ∀ i st proof, l !! i = Some (st, proof) →
    ∃ π rng', proof = batched_bytes π ∧ batched_accepted fuel params st π (proof_rng seed i) rng').
  { intros i st proof Hi. specialize (Halone i st proof Hi).
    destruct (evrf_batched_verify _ _ _ _ _) as [res rng'] eqn:E. cbn [fst] in Halone. subst res.
    apply batched_verify_Ok in E as (π & -> & Hacc); [by exists π, rng'|].
    exact (proj1 (Forall_lookup _ _) Hlen i _ Hi). }
  split.
  - apply Forall_lookup. intros i [st proof] Hi. destruct (Hacc i st proof Hi) as (π & r & _ & [H1 H2 Hs _]). done.
  - assert (Hex : ∀ i inst, l !! i = Some inst → ∃ e, equation_verify e = Some (Ok ()) ∧
      ∃ π rng', inst.2 = batched_bytes π ∧ proof_prepared fuel params inst.1 π (proof_rng seed i) e rng').
    { intros i [st proof] Hi. destruct (Hacc i st proof Hi) as (π & r & -> & [_ _ _ (e & Hp & He)]).
      exists e. split; [done|]. by exists π, r. }
    clear Hacc Halone Hlen.
    assert (Hall : ∃ es, length es = length l ∧ ∀ i inst e, l !! i = Some inst → es !! i = Some e →
      equation_verify e = Some (Ok ()) ∧
      ∃ π rng', inst.2 = batched_bytes π ∧ proof_prepared fuel params inst.1 π (proof_rng seed i) e rng')
      by (by apply lookup_choice).
    destruct Hall as (es & Hl & Hall). exists es. split.
    + split; [done|]. intros i st proof e Hi He. destruct (Hall i _ e Hi He) as (_ & π & r & Hb & Hp). by exists π, r.
    + apply Forall_lookup. intros i e He. destruct (lookup_lt_is_Some_2 l i) as [inst Hi].
      { rewrite <-Hl. by eapply lookup_lt_Some. }
      by apply (Hall i inst e).
Qed.

(** C12: the verdict on several batched proofs.  It does not depend on the number of
    threads.  When the batch is accepted it is not empty, the parameters are for the shape
    of every statement, and every proof is the canonical encoding of one that was prepared
    into an equation, with the generator seeded for its position from the statements and
    proofs of the whole batch; and the equations sum to the identity with the coefficients
    drawn from the batch's generator.  So if all instances but one are accepted by
    [evrf_batched_verify] with their generators, that one is too.  And a batch of instances
    that are each accepted so is accepted, with fuel for [n] draws when the batch's
    generator draws fewer than [n] zeros in a row. *)
Theorem evrf_batched_verify_many_correct fuel threads params l :
  Forall (λ inst, (len inst.2 ≤ usize_MAX)%Z) l →
  let accepted := evrf_batched_verify_many fuel threads params l = Ok () in
  let alone seed i :=
    ∀ st proof, l !! i = Some (st, proof) → (evrf_batched_verify fuel params st proof (proof_rng seed i)).1 = Ok () in
  (∀ threads', evrf_batched_verify_many fuel threads' params l = evrf_batched_verify_many fuel threads params l) ∧
  (accepted → l ≠ [] ∧ instances_shaped params l ∧
     ∃ seed es cs rng', batch_seed l = Ok seed ∧ instances_prepared fuel params seed l es ∧
       drawn_coefficients (from_seed seed) cs rng' ∧ length cs = length es ∧
       lincomb cs (equation_value <$> es) = cpoint_identity ∧
       ∀ i, (i < length l)%nat → (∀ j, j ≠ i → alone seed j) → alone seed i) ∧
  (∀ n seed, l ≠ [] → batch_seed l = Ok seed → draws_coefficients n (from_seed seed) → (n ≤ fuel)%nat →
     (∀ i, alone seed i) → accepted).
Proof.
  intros Hlen accepted alone. split; [|split].
  - intros threads'. destruct l as [|inst l]; [done|]. by rewrite !many_nonempty.
  - intros Hacc. destruct (many_Ok _ _ _ _ Hlen Hacc) as (Hne & Hshape & seed & es & cs & rng' & Hseed & Hp & Hcs & Hl & Hls & Hsome & Hsum).
    split; [done|]. split; [done|]. exists seed, es, cs, rng'. do 5 (split; [done|]).
    assert (Hiff : ∀ j e st proof, es !! j = Some e → l !! j = Some (st, proof) →
      (evrf_batched_verify fuel params st proof (proof_rng seed j)).1 = Ok () ↔ equation_verify e = Some (Ok ())).
    { intros j e st proof He Hj. destruct (proj2 Hp j st proof e Hj He) as (π & r & -> & Hpe).
      destruct (proj1 (Forall_lookup _ _) Hshape j _ Hj) as (H1 & H2 & Hs).
      exact (instance_accepted fuel params st π _ r e (proj1 (Forall_lookup _ _) Hlen j _ Hj) H1 H2 Hs Hpe). }
    intros i Hi Hothers st proof Hst. destruct (lookup_lt_is_Some_2 es i) as [e He]; [by rewrite (proj1 Hp)|].
    apply (Hiff i e); [done|done|].
    apply (lone_equation_passes cs es i e); try done; [by eapply drawn_nonzero|].
    intros j e' Hne' He'. destruct (prepared_lookup _ _ _ _ _ j e' Hp He') as (st' & π' & r & Hj & _).
    apply (Hiff j e' st' (batched_bytes π')); [done|done|]. by apply (Hothers j Hne').
  - intros n seed Hne Hseed Hd Hn Halone. destruct (alone_prepared fuel params seed l Hlen Halone) as (Hshape & es & Hp & Hver).
    by apply (many_accepts n fuel threads params l seed es).
Qed.
End verdict.

(** ** Witness *)
Definition ToyChaCha : ChaCha20 := {|
  ChaCha20Rng := Z;
  chacha_rng := toy_rng;
  from_seed := λ seed, toy_sum seed 0;
|}.

(** A batch with a statement that fails its native checks is refused, on any number of
    threads, whatever the proofs. *)
Lemma evrf_batched_verify_many_correct_witness :
  (len (replicate 3 x01) ≤ usize_MAX)%Z ∧
  ∀ threads params proof proof', (len proof ≤ usize_MAX)%Z → (len proof' ≤ usize_MAX)%Z →
    let l := [(dealer_statement, proof); (off_statement, proof')] in
    evrf_batched_verify_many (EC:=ToyCurves) (ME:=ToyMerlin) (CC:=ToyChaCha) 1 threads params l
    = evrf_batched_verify_many (EC:=ToyCurves) (ME:=ToyMerlin) (CC:=ToyChaCha) 1 1 params l ∧
    evrf_batched_verify_many (EC:=ToyCurves) (ME:=ToyMerlin) (CC:=ToyChaCha) 1 threads params l ≠ Ok ().
Proof.
  split; [vm_compute; congruence|]. intros threads params proof proof' Hu Hu' l.
  assert (Hlen : Forall (λ inst : BatchedEvrfStatement (EC:=ToyCurves) * list byte, (len inst.2 ≤ usize_MAX)%Z) l)
    by (constructor; [exact Hu|constructor; [exact Hu'|constructor]]).
  destruct (evrf_batched_verify_many_correct (EC:=ToyCurves) (ECL:=ToyCurves_laws) (ME:=ToyMerlin) (CC:=ToyChaCha)
    (CC1:=ToyCycle_codec) (CC2:=ToyCycle_codec) 1 1 params l Hlen) as (Hthreads & Haccepted & _).
  split; [apply Hthreads|]. rewrite Hthreads. intros E.
  destruct (Haccepted E) as (_ & _ & seed & es & cs & rng' & _ & [Hl Hp] & _).
  destruct es as [|e0 [|e [|]]]; try discriminate Hl.
  destruct (Hp 1%nat off_statement proof' e eq_refl eq_refl) as (π & r & _ & [_ Hrel _ _]).
  exact (off_statement_fails _ _ Hrel).
Defined.
